(* ===== verification/_CoqProject ===== *)
-Q . S2P
Prelude.v
Text.v
Url.v
Http.v
UrlEncoding.v
RoutePath.v
Router.v
RouterTheory.v
RouterInv.v
RouterMount.v
RouterMountTheory.v
RouterMountSpec.v
RouterSpec.v
Http1.v
Request.v
WsFrame.v
WsHandshake.v
WsSession.v
WsTheory.v
WsSpec.v
WsStream.v
HttpError.v
Multipart.v
MultipartTheory.v
MultipartForm.v
MultipartFormSpec.v
MultipartIndex.v
MultipartRoundTrip.v
MultipartStream.v
MultipartStreamSafety.v
MultipartEquiv.v
Response.v
ResponseSpec.v
SseRoundTrip.v
RouteHandlers.v
RouterApi.v
ServerWire.v
ServerWireSpec.v
ServerState.v
ServerSession.v
ServerTheory.v
ServerSpec.v
ServerAccount.v
ServerStreams.v
ServerExample.v
ServerClaims.v
ServerObject.v
HttpDate.v
FileSystem.v
StaticFiles.v
StaticFilesSpec.v
StaticFileSender.v
ClientWire.v
ClientWireSpec.v
WsUpgrade.v
ClientServer.v
ClientPool.v
ClientOptions.v
ClientStreamState.v
ClientStream.v
ClientStreamTheory.v
ClientStreamSpec.v
ClientUpload.v
ClientStreamClaims.v
ClientBuffered.v
ClientBufferedSpec.v
ClientReads.v
ClientBufferedReads.v
ClientStreamReads.v
Client.v
Dns.v
TcpConnect.v
Transport.v
TlsState.v
TlsStream.v
TlsTheory.v
TlsSpec.v
TlsClaims.v
TlsListener.v
TlsAlpn.v
