(* ===== verification/Prelude.v ===== *)
(** * uvpp-protocols: a verification development

    A model of the core logic of uvpp-protocols, a C++ library with URLs, an
    HTTP/1 server and client, WebSocket, TLS and DNS on top of libuv, with
    theorems about it.  Definitions are translated from the sources under [src/], function by
    function, and keep their names; they are executable, so that witnesses and
    examples evaluate them.

    ** The program and its parts

    Bytes from a transport go through llhttp, whose callbacks drive the HTTP/1
    state machine; the server looks the decoded path up in the router, which
    yields a target, parameters and hooks; the handler reads the request (query
    parameters, a streamed body, a multipart form or stream) or turns the
    connection into a WebSocket session.  A client resolves a name, connects to
    the first address that answers, and speaks over a plain or a TLS stream.

    ** Files, in dependency order

    - [Prelude]: [uvp::result], tactics, hint databases.
    - [Text]: byte strings and the standard-library operations the sources use.
    - [Url] ([src/url.cpp]): parsing, resolution, serialization, endpoints.
    - [Http] ([src/http/method.cpp], [status.cpp], [headers.cpp],
      [route_params.cpp]): the HTTP vocabulary.
    - [UrlEncoding], [RoutePath] ([src/http/route_path.cpp]): percent decoding and
      the segments of a path.
    - [Router] ([src/http/router.cpp]): the trie, registration, hooks, fallbacks
      and matching; [RouterTheory] is the theory of the trie and of the search,
      [RouterInv] the invariant that relates a trie to the routes and hooks
      registered in it, with the lemmas about patterns behind prefixes.
      [RouterMount] is mounting; [RouterMountTheory] shows that it combines two
      trees pointwise, [RouterMountSpec] that it keeps the invariant.
      [RouterSpec] has the histories of a router and its theorems.
    - [Http1] ([src/http/detail/http1_state_machine.cpp]): the state machine under
      llhttp; a run of llhttp is an argument.
    - [Request] ([src/http/request.cpp]): query parameters and body streams.
    - [WsFrame], [WsHandshake], [WsSession] ([src/websocket/session.cpp],
      [detail/handshake.cpp]): frames, the opening handshake (SHA-1 is an
      argument) and the session; [WsTheory] lifts properties of the primitive
      state changes to all operations, [WsSpec] and [WsStream] hold the theorems.
      [WsUpgrade], after the files of the client's reader: upgrades of requests,
      [accept], and the handles of sessions.
    - [HttpError] ([src/http/error.cpp]): error codes and values.
    - [Multipart], [MultipartForm], [MultipartStream] ([src/http/multipart.cpp]):
      the syntax of multipart bodies, the form parser with its index, and the
      streaming parser, which reads a [string_view] after its storage has changed:
      what it sees then is an argument (class [StaleView], with [in_place] for
      the common libraries).  [MultipartTheory] has their lemmas, [MultipartFormSpec],
      [MultipartIndex], [MultipartRoundTrip], [MultipartStreamSafety] and
      [MultipartEquiv] the theorems.
    - [Response] ([src/http/response.cpp]): the shared state of a response, its
      buffered, deferred and streaming faces and server-sent events, over any
      store that holds it (class [ResponseStore]); [ResponseSpec] and
      [SseRoundTrip] the theorems.
    - [RouteHandlers], [RouterApi] ([include/uvpp/protocols/http/router.hpp]): the
      wrappers of handlers for each body policy, and the public interface with
      options, verbs, groups and resources, each with its theorems.
    - [ServerWire] ([src/http/server.cpp]): what the server serialises, and a
      reader of responses as a client would read them; [ServerWireSpec] the round
      trips.
    - [ServerState], [ServerSession] ([server::impl::session]): a connection with
      its response slots, queues, timers and upgrades.  [ServerTheory] has an
      abstract machine for its output and shows that every operation is a
      sequence of its steps; [ServerSpec], [ServerAccount] and [ServerStreams] are
      invariants of the steps, [ServerClaims] the theorems about runs,
      [ServerExample] a small server.
    - [ServerObject] ([server], [server::impl], [src/http/server_options.cpp]):
      options, upgrade routes, listening, and the connections a server holds,
      each a run of [ServerSession].
    - [HttpDate], [FileSystem], [StaticFiles] ([src/http/static_files.cpp]): dates
      on a model of the calendar of the C library, [std::filesystem] on a tree
      with links, the static file handler and its sender; [StaticFilesSpec] and
      [StaticFileSender] the theorems.
    - [ClientWire] ([src/http/client.cpp]): parsing of responses and framing of
      requests; [ClientWireSpec] and [ClientServer] show that the client reads what
      the server writes.  [ClientPool]: the pool of idle connections.
    - [ClientOptions], [ClientStreamState], [ClientStream]
      ([detail::streaming_request_state]): a streaming request, from connecting to
      the last byte of the response.  [ClientStreamTheory] has an abstract machine
      for it and shows that every operation is a sequence of its steps;
      [ClientStreamSpec] and [ClientUpload] are invariants of the steps,
      [ClientStreamClaims] the theorems about runs.
    - [ClientBuffered] ([request_state] of [src/http/client.cpp]): a buffered
      request with proxies, the pool and redirects; [ClientBufferedSpec] is about
      its end and its redirects.  [ClientReads] says what the parsers make of the
      first part of a response; with it [ClientBufferedReads] and
      [ClientStreamReads] show that both kinds of requests get a response however
      it is cut into reads.  [Client] (the class [client]): requests of both kinds
      that share one pool, with a number for each connection.
    - [Dns] ([src/dns.cpp]), [TcpConnect] ([src/io/transport.cpp]): resolving a
      name and connecting to its addresses one after the other; [Transport], in
      the same file, streams and listeners over libuv.
    - [TlsState], [TlsStream] ([src/tls/stream.cpp]): a TLS stream over OpenSSL,
      which is a class of operations with laws ([Ssl], [SslLaws]).  [TlsTheory]
      shows that every run of it is a sequence of steps of an abstract machine,
      [TlsSpec] has the invariants of the steps, [TlsClaims] the theorems about
      runs.  [TlsListener] ([src/tls/listener.cpp]), and [TlsAlpn]
      ([src/tls/context.cpp]), contexts, the set-up of sessions and the choice of
      a protocol.

    ** How state and effects are modelled

    Classes are records, their methods functions on them.  Integers are [Z] with
    their width written out where the source can wrap; sizes of strings in memory
    are taken to fit [std::size_t].  Calls into the transport, the timer and the
    user are entries of a history; their completions are inputs.  User callbacks
    may call back: a user is a function from the history and the callback to the
    calls it makes, and the model runs these calls in place, nested ones to a given
    depth.  The theorems about such components hold for every user and every
    depth.

    ** What the theorems show

    - Router: a match is sound and complete for the registered patterns with the
      order static, parameter, wildcard; hooks and the exception handler are those
      along the matched pattern; registration errors change nothing that matching
      sees; allowed methods; a mounted router answers as if its routes had been
      registered behind the prefix.  All of this holds for every history of
      registrations and mounts.  Routes of groups have the segments of all
      prefixes; the wrapped handlers answer what their policy refuses.
    - HTTP/1: any cutting of a message into spans gives the same message; limits
      hold in every reachable state; what exceeds them is refused.
    - Requests: the query parameters against their pairs and the round trip; the
      protocol of a body stream under re-entrant callbacks.
    - URLs: round trips, well-formedness, authority of relative references, ports.
    - WebSocket: frame round trips, prefixes of frames, reassembly, chunking and
      draining of the input up to the first bad frame, message bounds, write
      accounting and order, one close frame, progress of closing once started;
      Base64 and token lists; a client reads the handshake back, and a session has
      one holder.
    - Multipart: the form parser against a declarative description of bodies, its
      limits, round trip and index; the streaming parser against the form parser
      for every cutting into chunks, as far as the stale view does not mislead it,
      and its limits, for every such view, under re-entrant callbacks.
    - Responses: completed or cancelled at most once, a committed head stays, a
      standard decoder reads server-sent events back.
    - Server: a connection refines the machine of [ServerTheory]; the responses of
      slots leave in the order of requests (the errors of the server itself take no
      slot and overtake them), writes first in first out; what the counters count,
      and that limits on them hold (completed streams are not counted); nothing is
      written after the end; a slot puts one response on
      the wire, which a client reads back.  A server drops only connections that
      were upgraded or asked to close, and closing it closes them all.
    - Static files: nothing outside the root is served, the file is the one that
      the segments behind the prefix of the route name, conditional requests, the date round trip, and that the sender
      sends the file, whatever pushes back.

    - Client: responses of the server are read back, the pool is a bounded queue
      per origin, a streaming request tells the end once, uses its stream only
      until it gives it up, and writes its head and exactly the accepted body
      before it reads; a buffered request answers once and follows redirects within
      its limits, each to where the response it has read leads; both get a final
      response as it was sent, however it is cut, the buffered one if no two fields
      have the same name.  Every connection of a client is in one place; requests that share a pool do not
      share connections.
    - Connecting: each address gets a socket of its own, in order, and one at most
      is given to the user; the first address that accepts wins.  A stream over
      libuv tells every write and close once and writes in order.
    - TLS: what the user reads and writes is what OpenSSL decrypts and encrypts,
      in order, each write told once at most; the limit on writes is one on clear
      bytes, and what is encrypted waits without a bound; a lower stream that was
      closed is not used again but for [read_stop]; the handshake and the end are
      told once; a listener
      keeps its limit of handshakes; the server prefers its own protocols, and a
      client that is not made insecure checks the name of its peer.

    Examples that end a file show behaviour that is probably not meant, such as
    what a callback that resumes a paused multipart stream sees; a theorem that has
    an exception because of it names the example.

    ** Fuel and bounds

    Loops that are not structural take fuel, and the functions that call them
    pass the length of their input plus one: each turn consumes at least one
    byte (theorems such as [ws_parse_drains], [stream_agrees_with_form] and
    [parse_multipart_form_spec] show that this is enough).  Trie searches recurse
    on the segments of the path; merging and validating mounted trees take fuel
    from the number of nodes, since a child has a greater index than its parent.
    The loops of a TLS stream take fuel from the bytes that OpenSSL still has to
    read or has put out, which each turn decreases ([read_loop_fuel],
    [deliver_pending_fuel]); its loop over queued writes takes the length of the
    queue and a bound [rounds] on the writes that callbacks add during one call.

    ** What is not modelled

    Certificates and trust are of OpenSSL: the calls that contexts make are a log
    with given outcomes.  To a request of the client the resolver, the connector,
    TLS and its stream are what they report, and the stream below a TLS stream
    reports after the call that started the operation has returned.  The policy
    of a handler that is registered without one is inferred by the compiler and
    given here.  Of a connection, [connection_info] and an upgrade with an empty
    response are left out, and a write completes later than it is started.  The
    calendar and [std::filesystem] are modelled as far as the sources use them;
    the file system does not change while a request is answered; a loop over the
    pending slots visits those present when it begins; drive names of Windows are
    left out.  libuv, OpenSSL and llhttp are not part of the repository.  Object
    lifetimes and moved-from objects are left out, but for the handles of WebSocket
    sessions. *)

From Stdlib Require Export Ascii String.
From stdpp Require Export prelude gmap strings.

#[global] Set Default Goal Selector "!".

(** ** Results: [uvp::result<T>] as a sum of a value and an error *)

Inductive result (E A : Type) : Type :=
| Ok (a : A)
| Err (e : E).
Arguments Ok {E A} a.
Arguments Err {E A} e.

#[global] Instance result_ret E : MRet (result E) := λ A a, Ok a.
#[global] Instance result_bind E : MBind (result E) := λ A B f r,
  match r with Ok a => f a | Err e => Err e end.
#[global] Instance result_fmap E : FMap (result E) := λ A B f r,
  match r with Ok a => Ok (f a) | Err e => Err e end.

Definition is_ok {E A} (r : result E A) : bool :=
  match r with Ok _ => true | Err _ => false end.

Lemma result_bind_Ok {E A B} (r : result E A) (f : A → result E B) b :
  r ≫= f = Ok b ↔ ∃ a, r = Ok a ∧ f a = Ok b.
Proof.
  destruct r; cbn; split; [eauto| |done|].
  - by intros (? & [= ->] & ?).
  - by intros (? & ? & ?).
Qed.

(** ** Tactics *)

(** Splits a hypothesis that says a [match] or an [if] has a given value. *)
Ltac inv_match H :=
  repeat match type of H with
  | context [match ?x with _ => _ end] =>
    lazymatch x with
    | context [match _ with _ => _ end] => fail
    | _ => destruct x eqn:?; try discriminate H
    end
  end; simplify_eq.

(** Turns boolean tests in the context into propositions. *)
Ltac breflect :=
  repeat match goal with
  | H : _ && _ = true |- _ => apply andb_true_iff in H as [??]
  | H : _ || _ = false |- _ => apply orb_false_iff in H as [??]
  | H : negb _ = true |- _ => apply negb_true_iff in H
  | H : negb _ = false |- _ => apply negb_false_iff in H
  | H : bool_decide _ = true |- _ => apply bool_decide_eq_true in H
  | H : bool_decide _ = false |- _ => apply bool_decide_eq_false in H
  | H : (_ <? _)%nat = true |- _ => apply Nat.ltb_lt in H
  | H : (_ <? _)%nat = false |- _ => apply Nat.ltb_ge in H
  | H : (_ <=? _)%nat = true |- _ => apply Nat.leb_le in H
  | H : (_ <=? _)%nat = false |- _ => apply Nat.leb_gt in H
  | H : (_ =? _)%nat = true |- _ => apply Nat.eqb_eq in H
  | H : (_ =? _)%nat = false |- _ => apply Nat.eqb_neq in H
  | H : (_ <? _)%Z = true |- _ => apply Z.ltb_lt in H
  | H : (_ <? _)%Z = false |- _ => apply Z.ltb_ge in H
  | H : (_ <=? _)%Z = true |- _ => apply Z.leb_le in H
  | H : (_ <=? _)%Z = false |- _ => apply Z.leb_gt in H
  | H : (_ =? _)%Z = true |- _ => apply Z.eqb_eq in H
  | H : (_ =? _)%Z = false |- _ => apply Z.eqb_neq in H
  end.

(** ** Histories

    What is true of the order of events, and the parts of a history. *)
Section histories.
Context {A B : Type}.
Implicit Types (p mark bad : A → bool) (h es : list A).

(** No event of [bad] comes after one of [mark]. *)
Definition never_after (mark bad : A → bool) (h : list A) : Prop :=
  ∀ i j e e', h !! i = Some e → h !! j = Some e' → (i < j)%nat → mark e = true → bad e' = false.

Definition none_marked (p : A → bool) (h : list A) : Prop := forallb (λ e, negb (p e)) h = true.

Lemma none_marked_app p h h' : none_marked p (h ++ h') ↔ none_marked p h ∧ none_marked p h'.
Proof. unfold none_marked. by rewrite forallb_app, andb_true_iff. Qed.

Lemma none_marked_in p h e : none_marked p h → e ∈ h → p e = false.
Proof. unfold none_marked. rewrite forallb_forall. intros H He. apply list_elem_of_In in He. by apply negb_true_iff, H. Qed.

Lemma none_marked_weaken p mark h : (∀ e, mark e = true → p e = true) → none_marked p h → none_marked mark h.
Proof.
  unfold none_marked. rewrite !forallb_forall. intros Hpq H e He. specialize (H e He). apply negb_true_iff in H. apply negb_true_iff.
  destruct (mark e) eqn:E; [|done]. apply Hpq in E. congruence.
Qed.

(** Events may be added that are harmless, or when there is no mark yet. *)
Lemma never_after_app mark bad h es :
  never_after mark bad h → never_after mark bad es → none_marked bad es ∨ none_marked mark h → never_after mark bad (h ++ es).
Proof.
  intros H1 H2 Hor i j e e' Hi Hj Hij Hm. apply lookup_app_Some in Hi as [Hi|[Hi1 Hi]]; apply lookup_app_Some in Hj as [Hj|[Hj1 Hj]].
  - by apply (H1 i j e e').
  - destruct Hor as [Hb|Hn]; [exact (none_marked_in _ _ _ Hb (list_elem_of_lookup_2 _ _ _ Hj))|].
    apply list_elem_of_lookup_2 in Hi. rewrite (none_marked_in _ _ _ Hn Hi) in Hm. done.
  - apply lookup_lt_Some in Hj. lia.
  - apply (H2 (i - length h)%nat (j - length h)%nat e e'); [done|done|lia|done].
Qed.

Lemma never_after_harmless mark bad es : none_marked bad es → never_after mark bad es.
Proof. intros H i j e e' _ Hj _ _. exact (none_marked_in _ _ _ H (list_elem_of_lookup_2 _ _ _ Hj)). Qed.

Lemma never_after_one mark bad e : never_after mark bad [e].
Proof. intros i j e1 e2 Hi Hj Hij. apply lookup_lt_Some in Hi, Hj. cbn in *. lia. Qed.

Lemma never_after_snoc mark bad h e :
  never_after mark bad h → bad e = false ∨ none_marked mark h → never_after mark bad (h ++ [e]).
Proof.
  intros H Hor. apply never_after_app; [done|apply never_after_one|]. destruct Hor as [He|]; [left|by right]. unfold none_marked. cbn. by rewrite He.
Qed.

Lemma none_marked_snoc p h e : none_marked p (h ++ [e]) ↔ none_marked p h ∧ p e = false.
Proof. rewrite none_marked_app. unfold none_marked at 2. cbn. rewrite andb_true_r. by rewrite negb_true_iff. Qed.

Lemma flat_map_snoc (f : A → list B) h e : flat_map f (h ++ [e]) = flat_map f h ++ f e.
Proof. rewrite flat_map_app. cbn. by rewrite app_nil_r. Qed.
End histories.

(** ** Hint databases

    [text] rewrites with the lengths of slices and the reference form of the
    splitting loop; [bytes] resolves side conditions about the bytes a string
    does not contain; [inv] resolves preservation lemmas of the invariants. *)
Create Rewrite HintDb text.
Create HintDb bytes.
Create HintDb inv.
