(* ===== verification/Text.v ===== *)
(** * Byte strings and the standard-library operations the sources use on them

    [std::string] and [std::string_view] are lists of bytes ([ascii], eight
    bits each).  Positions are list indices; [npos] is [None].  The searching,
    slicing, case-folding and number-conversion functions below model the
    C++ standard library (C locale); the files of the components call them
    where the sources call the library. *)

From S2P Require Import Prelude.

Abbreviation str := (list ascii).

(** String literals. *)
Definition lit (s : string) : str := list_ascii_of_string s.
Arguments lit _%_string_scope.

(** ** Characters *)

Definition code (c : ascii) : N := N_of_ascii c.

(** [std::tolower] in the C locale. *)
Definition tolower (c : ascii) : ascii :=
  if ((65 <=? code c) && (code c <=? 90))%N then ascii_of_N (code c + 32) else c.

(** [std::isdigit]. *)
Definition isdigit (c : ascii) : bool := ((48 <=? code c) && (code c <=? 57))%N.

Definition lowercase (s : str) : str := map tolower s.

(** A boolean predicate that holds of all 256 bytes holds of every byte. *)
Lemma ascii_forallb (P : ascii → bool) :
  forallb (λ n, P (ascii_of_nat n)) (seq 0 256) = true → ∀ c, P c = true.
Proof.
  intros H c. rewrite forallb_forall in H.
  rewrite <-(ascii_nat_embedding c). apply H, in_seq.
  pose proof (nat_ascii_bounded c). lia.
Qed.

Ltac by_all_bytes c :=
  revert c; apply ascii_forallb; vm_compute; reflexivity.

Lemma tolower_idemp c : tolower (tolower c) = tolower c.
Proof.
  apply Ascii.eqb_eq. revert c.
  refine (ascii_forallb (λ c, Ascii.eqb (tolower (tolower c)) (tolower c)) _).
  vm_compute. reflexivity.
Qed.

Lemma lowercase_idemp s : lowercase (lowercase s) = lowercase s.
Proof.
  unfold lowercase. rewrite map_map. apply map_ext, tolower_idemp.
Qed.

Lemma lowercase_app s t : lowercase (s ++ t) = lowercase s ++ lowercase t.
Proof. apply map_app. Qed.

Lemma length_lowercase s : length (lowercase s) = length s.
Proof. apply length_map. Qed.

Lemma drop_S_app {A} (pre : list A) x post : drop (S (length pre)) (pre ++ x :: post) = post.
Proof. induction pre; simpl; [by destruct post|done]. Qed.

(** ** Searching *)

Section search.
Context {A : Type}.
Implicit Types (p : A → bool) (l pre post : list A).

(** [find] of one element, from the front and from the back. *)
Fixpoint find_if p l : option nat :=
  match l with
  | [] => None
  | x :: l' => if p x then Some 0 else S <$> find_if p l'
  end.

Fixpoint rfind_if p l : option nat :=
  match l with
  | [] => None
  | x :: l' =>
    match rfind_if p l' with
    | Some i => Some (S i)
    | None => if p x then Some 0 else None
    end
  end.

Definition none_of p l : Prop := Forall (λ x, p x = false) l.

Lemma find_if_Some p l i :
  find_if p l = Some i →
  ∃ pre x post, l = pre ++ x :: post ∧ length pre = i ∧ p x = true ∧ none_of p pre.
Proof.
  revert i. induction l as [|x l IH]; intros i; simpl; [done|].
  destruct (p x) eqn:Hx.
  - intros [= <-]. exists [], x, l. repeat split; [done|constructor].
  - destruct (find_if p l) as [j|]; simpl; [|done]. intros [= <-].
    destruct (IH j eq_refl) as (pre & y & post & -> & <- & Hy & Hpre).
    exists (x :: pre), y, post. repeat split; [done|by constructor].
Qed.

Lemma find_if_None p l : find_if p l = None ↔ none_of p l.
Proof.
  unfold none_of. induction l as [|x l IH]; simpl; [by split|].
  rewrite Forall_cons, <-IH. destruct (p x), (find_if p l); cbn; intuition congruence.
Qed.

Lemma find_if_here p pre x post :
  none_of p pre → p x = true → find_if p (pre ++ x :: post) = Some (length pre).
Proof. induction 1 as [|y pre Hy _ IH]; intros Hx; simpl; [by rewrite Hx|by rewrite Hy, IH]. Qed.

Lemma find_if_app_l p l l' i : find_if p l = Some i → find_if p (l ++ l') = Some i.
Proof.
  intros (pre & x & post & -> & <- & Hx & Hpre)%find_if_Some.
  rewrite <-app_assoc. by apply find_if_here.
Qed.

Lemma find_if_app_r p l l' : none_of p l → find_if p (l ++ l') = (λ i, length l + i) <$> find_if p l'.
Proof.
  induction 1 as [|y l Hy _ IH]; simpl; [by destruct (find_if p l')|].
  rewrite Hy, IH. by destruct (find_if p l').
Qed.

Lemma find_if_lt p l i : find_if p l = Some i → i < length l.
Proof.
  intros (pre & x & post & -> & <- & _)%find_if_Some. rewrite length_app. simpl. lia.
Qed.

Lemma find_if_ext p q l : (∀ x, x ∈ l → p x = q x) → find_if p l = find_if q l.
Proof.
  induction l as [|x l IH]; intros H; simpl; [done|].
  rewrite H by set_solver. rewrite IH by set_solver. done.
Qed.

Lemma rfind_if_None p l : rfind_if p l = None ↔ none_of p l.
Proof.
  unfold none_of. induction l as [|x l IH]; simpl; [by split|].
  rewrite Forall_cons, <-IH. destruct (p x), (rfind_if p l); cbn; intuition congruence.
Qed.

Lemma rfind_if_Some p l i :
  rfind_if p l = Some i →
  ∃ pre x post, l = pre ++ x :: post ∧ length pre = i ∧ p x = true ∧ none_of p post.
Proof.
  revert i. induction l as [|x l IH]; intros i; simpl; [done|].
  destruct (rfind_if p l) as [j|] eqn:E.
  - intros [= <-]. destruct (IH j eq_refl) as (pre & y & post & -> & <- & Hy & Hp).
    exists (x :: pre), y, post. done.
  - apply rfind_if_None in E. destruct (p x) eqn:Hx; intros [= <-].
    by exists [], x, l.
Qed.

Lemma rfind_if_here p pre x post :
  none_of p post → p x = true → rfind_if p (pre ++ x :: post) = Some (length pre).
Proof.
  intros Hpost Hx. induction pre as [|y pre IH]; simpl.
  - apply rfind_if_None in Hpost. by rewrite Hpost, Hx.
  - by rewrite IH.
Qed.

Lemma none_of_app p l l' : none_of p (l ++ l') ↔ none_of p l ∧ none_of p l'.
Proof. unfold none_of. by rewrite Forall_app. Qed.

Lemma none_of_cons p x l : none_of p (x :: l) ↔ p x = false ∧ none_of p l.
Proof. unfold none_of. by rewrite Forall_cons. Qed.

Lemma none_of_weaken p q l : (∀ x, p x = true → q x = true) → none_of q l → none_of p l.
Proof.
  intros H Hl. eapply Forall_impl; [exact Hl|]. intros x Hq. cbn in *. destruct (p x) eqn:E; [|done].
  apply H in E. congruence.
Qed.

(** The text before and after the found element. *)
Lemma find_if_take p l i : find_if p l = Some i → none_of p (take i l).
Proof.
  intros (pre & x & post & -> & <- & _ & Hpre)%find_if_Some. by rewrite take_app_length.
Qed.
End search.

Arguments none_of {A} p l : simpl never.

Definition is_char (c d : ascii) : bool := Ascii.eqb c d.
#[global] Arguments is_char : simpl never.

Lemma is_char_true c d : is_char c d = true ↔ c = d.
Proof. apply Ascii.eqb_eq. Qed.
Lemma is_char_false c d : is_char c d = false ↔ c ≠ d.
Proof. apply Ascii.eqb_neq. Qed.
Lemma is_char_refl c : is_char c c = true.
Proof. apply Ascii.eqb_refl. Qed.

(** [s.find(c)], [s.rfind(c)], [s.find(c, off)], [s.find_first_of(chars)]. *)
Definition find_char (c : ascii) (s : str) : option nat := find_if (is_char c) s.
Definition rfind_char (c : ascii) (s : str) : option nat := rfind_if (is_char c) s.
Definition find_char_from (c : ascii) (s : str) (off : nat) : option nat :=
  (λ i, off + i) <$> find_char c (drop off s).
Definition one_of (chars : str) (c : ascii) : bool := existsb (Ascii.eqb c) chars.
Definition find_first_of (chars s : str) : option nat := find_if (one_of chars) s.

(** [s.substr(pos, n)] for [pos] not past the end. *)
Definition substr (s : str) (pos n : nat) : str := take n (drop pos s).

(** [s.starts_with(p)]; also [s.rfind(p, 0) == 0]. *)
Fixpoint starts_with (s p : str) : bool :=
  match p, s with
  | [], _ => true
  | c :: p', d :: s' => Ascii.eqb c d && starts_with s' p'
  | _ :: _, [] => false
  end.

(** [s.find(needle)] and [s.find(needle, off)] for a string needle. *)
Fixpoint find_sub (needle s : str) : option nat :=
  if starts_with s needle then Some 0
  else match s with [] => None | _ :: s' => S <$> find_sub needle s' end.
Definition find_sub_from (needle s : str) (off : nat) : option nat :=
  if decide (off ≤ length s) then (λ i, off + i) <$> find_sub needle (drop off s) else None.

Definition str_eqb (s t : str) : bool := bool_decide (s = t).

Lemma starts_with_spec s p : starts_with s p = true ↔ ∃ t, s = p ++ t.
Proof.
  revert s. induction p as [|c p IH]; intros s; cbn [starts_with].
  - split; [intros _; by exists s|]. by destruct s.
  - destruct s as [|d s]; [by split; [|intros [??]]|].
    cbn [starts_with]. rewrite andb_true_iff, Ascii.eqb_eq, IH. split.
    + intros [-> [t ->]]. by exists t.
    + intros [t [= -> ->]]. eauto.
Qed.

Lemma starts_with_app p t : starts_with (p ++ t) p = true.
Proof. apply starts_with_spec. by exists t. Qed.

Lemma starts_with_length s p : starts_with s p = true → length p ≤ length s.
Proof. intros [t ->]%starts_with_spec. rewrite length_app. lia. Qed.

Lemma starts_with_drop s p : starts_with s p = true → s = p ++ drop (length p) s.
Proof. intros [t ->]%starts_with_spec. by rewrite drop_app_length. Qed.

(** The first occurrence of a substring: it occurs there, and nowhere before. *)
Lemma find_sub_Some needle s i :
  find_sub needle s = Some i →
  starts_with (drop i s) needle = true ∧
  (∀ j, j < i → starts_with (drop j s) needle = false) ∧ i ≤ length s.
Proof.
  revert i. induction s as [|c s IH]; intros i; cbn [find_sub].
  - destruct (starts_with [] needle) eqn:E; [|done]. intros [= <-]. split_and!; [done|lia|done].
  - destruct (starts_with (c :: s) needle) eqn:E.
    + intros [= <-]. split_and!; [done|lia|lia].
    + destruct (find_sub needle s) as [k|]; [|done]. intros [= <-].
      destruct (IH k eq_refl) as (H1 & H2 & H3). split_and!; [done| |simpl; lia].
      intros [|j] Hj; [done|]. simpl. apply H2. lia.
Qed.

Lemma find_sub_None needle s :
  find_sub needle s = None → ∀ j, j ≤ length s → starts_with (drop j s) needle = false.
Proof.
  induction s as [|c s IH]; cbn [find_sub].
  - destruct (starts_with [] needle) eqn:E; [done|]. intros _ j Hj.
    simpl in Hj. by replace j with 0 by lia.
  - destruct (starts_with (c :: s) needle) eqn:E; [done|].
    destruct (find_sub needle s) eqn:F; [done|]. intros _ [|j] Hj; [done|].
    simpl. apply IH; [done|]. simpl in Hj. lia.
Qed.

Lemma find_sub_intro needle s i :
  starts_with (drop i s) needle = true →
  (∀ j, j < i → starts_with (drop j s) needle = false) → i ≤ length s →
  find_sub needle s = Some i.
Proof.
  intros H1 H2 H3. destruct (find_sub needle s) as [k|] eqn:E.
  - apply find_sub_Some in E as (K1 & K2 & K3).
    destruct (Nat.lt_trichotomy i k) as [Hl|[->|Hl]]; [|done|].
    + rewrite K2 in H1 by done. done.
    + rewrite H2 in K1 by done. done.
  - rewrite (find_sub_None _ _ E) in H1 by done. done.
Qed.

(** ** Number conversion: [std::from_chars] and [std::to_chars] *)

Definition digit_val (base : N) (c : ascii) : option N :=
  let v :=
    if ((48 <=? code c) && (code c <=? 57))%N then Some (code c - 48)%N
    else if ((97 <=? code c) && (code c <=? 122))%N then Some (code c - 87)%N
    else if ((65 <=? code c) && (code c <=? 90))%N then Some (code c - 55)%N
    else None in
  match v with Some d => if (d <? base)%N then Some d else None | None => None end.

(** The longest prefix of digits and what follows it. *)
Fixpoint take_digits (base : N) (s : str) : list N * str :=
  match s with
  | [] => ([], [])
  | c :: s' =>
    match digit_val base c with
    | Some d => let '(ds, rest) := take_digits base s' in (d :: ds, rest)
    | None => ([], s)
    end
  end.

Definition digits_value (base : N) (ds : list N) : N :=
  foldl (λ acc d, acc * base + d)%N 0%N ds.

Inductive from_chars_result :=
| fc_ok (value : Z) (rest : str)
| fc_invalid_argument
| fc_out_of_range (rest : str).

(** [std::from_chars] into an unsigned integer of [bits] bits. *)
Definition from_chars_unsigned (bits : Z) (base : N) (s : str) : from_chars_result :=
  let '(ds, rest) := take_digits base s in
  match ds with
  | [] => fc_invalid_argument
  | _ =>
    let v := Z.of_N (digits_value base ds) in
    if (v <? 2 ^ bits)%Z then fc_ok v rest else fc_out_of_range rest
  end.

(** [std::from_chars] into a signed integer of [bits] bits: an optional minus
    sign and no plus sign. *)
Definition from_chars_signed (bits : Z) (base : N) (s : str) : from_chars_result :=
  let '(neg, t) := match s with
                   | c :: s' => if is_char "-" c then (true, s') else (false, s)
                   | [] => (false, s) end in
  let '(ds, rest) := take_digits base t in
  match ds with
  | [] => fc_invalid_argument
  | _ =>
    let m := Z.of_N (digits_value base ds) in
    let v := if neg then (- m)%Z else m in
    if ((- 2 ^ (bits - 1) <=? v) && (v <? 2 ^ (bits - 1)))%Z then fc_ok v rest
    else fc_out_of_range rest
  end.

Definition digit_char (d : N) : ascii :=
  if (d <? 10)%N then ascii_of_N (48 + d) else ascii_of_N (87 + d).

Fixpoint to_digits (fuel : nat) (base n : N) : list N :=
  match fuel with
  | O => []
  | S fuel' => if (n <? base)%N then [n] else to_digits fuel' base (n / base) ++ [(n mod base)%N]
  end.

(** [std::to_chars], [std::to_string], [operator<<] with [std::dec] or
    [std::hex].  The fuel is one more than the number of bits of [n], and each
    step divides by a base of at least two. *)
Definition to_chars (base n : N) : str :=
  map digit_char (to_digits (S (N.size_nat n)) base n).

Definition to_string (n : N) : str := to_chars 10 n.

Lemma digits_value_snoc base ds d :
  digits_value base (ds ++ [d]) = (digits_value base ds * base + d)%N.
Proof. unfold digits_value. by rewrite foldl_app. Qed.

Lemma size_nat_le_div n base :
  (2 <= base)%N → (base <= n)%N → N.size_nat (n / base) < N.size_nat n.
Proof.
  intros Hb Hn.
  assert (Hsz : ∀ m, N.of_nat (N.size_nat m) = N.size m).
  { intros [|p]; simpl; [done|]. induction p; simpl in *; lia. }
  enough (N.size (n / base) < N.size n)%N by (rewrite <-!Hsz in *; lia).
  assert (n / base <= n / 2)%N as Hle.
  { apply N.div_le_compat_l. lia. }
  assert (0 < n)%N by lia.
  rewrite (N.size_log2 n) by lia.
  destruct (decide (n / base = 0)%N) as [->|Hq]; [simpl; lia|].
  rewrite N.size_log2 by done.
  assert (N.log2 (n / base) < N.log2 n)%N; [|lia].
  apply N.le_lt_trans with (N.log2 (n / 2)); [by apply N.log2_le_mono|].
  rewrite <-N.div2_div, N.div2_spec, N.log2_shiftr.
  assert (N.log2 n ≠ 0)%N; [|lia]. intros E. apply N.log2_null in E; lia.
Qed.

Lemma to_digits_value fuel base n :
  (2 <= base)%N → N.size_nat n < fuel →
  digits_value base (to_digits fuel base n) = n ∧
  Forall (λ d, d < base)%N (to_digits fuel base n) ∧ to_digits fuel base n ≠ [].
Proof.
  intros Hb. revert n. induction fuel as [|fuel IH]; intros n Hf; [lia|]. simpl.
  destruct (N.ltb_spec n base) as [Hlt|Hge].
  - split_and!; [done|by repeat constructor|done].
  - pose proof (size_nat_le_div n base Hb Hge).
    destruct (IH (n / base)%N) as (Hv & Hd & _); [lia|].
    rewrite digits_value_snoc, Hv. split_and!.
    + rewrite N.mul_comm. symmetry. apply N.Div0.div_mod.
    + apply Forall_app. split; [done|]. repeat constructor. apply N.mod_lt. lia.
    + destruct (to_digits fuel base (n / base)); done.
Qed.

Lemma digit_val_char base d :
  (d < base)%N → (base <= 16)%N → digit_val base (digit_char d) = Some d.
Proof.
  intros Hd Hb. assert (Hd' : (d < 16)%N) by lia.
  assert (E : digit_val 16 (digit_char d) = Some d).
  { clear -Hd'. destruct d as [|p]; [done|].
    do 4 (destruct p as [p|p|]; try reflexivity; try lia). }
  unfold digit_val in *. repeat case_match; simplify_eq; breflect; try done.
  all: match goal with H : (_ <? _)%N = false |- _ => apply N.ltb_ge in H; lia end.
Qed.

Lemma take_digits_map base ds rest :
  (base <= 16)%N → Forall (λ d, d < base)%N ds →
  (∀ c t, rest = c :: t → digit_val base c = None) →
  take_digits base (map digit_char ds ++ rest) = (ds, rest).
Proof.
  intros Hb Hds Hrest. induction Hds as [|d ds Hd _ IH]; simpl.
  - destruct rest as [|c t]; simpl; [done|]. by rewrite (Hrest c t).
  - by rewrite digit_val_char, IH.
Qed.

(** Reading back a printed number, up to a byte that is not a digit. *)
Lemma from_chars_to_chars bits base n rest :
  (2 <= base)%N → (base <= 16)%N → (Z.of_N n < 2 ^ bits)%Z →
  (∀ c t, rest = c :: t → digit_val base c = None) →
  from_chars_unsigned bits base (to_chars base n ++ rest) = fc_ok (Z.of_N n) rest.
Proof.
  intros Hb1 Hb2 Hn Hrest.
  destruct (to_digits_value (S (N.size_nat n)) base n Hb1) as (Hv & Hd & Hne); [lia|].
  unfold from_chars_unsigned, to_chars.
  rewrite (take_digits_map base _ rest Hb2 Hd Hrest).
  destruct (to_digits (S (N.size_nat n)) base n) as [|d ds] eqn:E; [done|].
  cbv zeta. rewrite Hv. apply Z.ltb_lt in Hn. by rewrite Hn.
Qed.

Lemma from_chars_unsigned_bound bits base s v rest :
  from_chars_unsigned bits base s = fc_ok v rest → (0 <= v < 2 ^ bits)%Z.
Proof.
  unfold from_chars_unsigned. intros H. inv_match H. breflect. lia.
Qed.

(** The digits of a number. *)
Lemma to_chars_avoids (P : ascii → bool) base n :
  (2 <= base)%N → (base <= 16)%N → forallb (λ d, negb (P (digit_char (N.of_nat d)))) (seq 0 16) = true → none_of P (to_chars base n).
Proof.
  intros Hb1 Hb2 HP. destruct (to_digits_value (S (N.size_nat n)) base n Hb1) as (_ & Hd & _); [lia|].
  unfold to_chars. apply Forall_map. eapply Forall_impl; [exact Hd|]. intros d Hlt. cbv beta in Hlt. unfold compose.
  rewrite forallb_forall in HP. specialize (HP (N.to_nat d)). rewrite N2Nat.id in HP. apply negb_true_iff, HP, in_seq. lia.
Qed.

(** ** Splitting at a separator

    Several functions of the sources walk over a string with the loop
    [while (offset <= s.size())] that finds the next separator from [offset],
    takes the segment in between and stops at [npos].  [segments] is that loop;
    each round moves [offset] past a separator, so [length s + 1] rounds are
    enough ([segments_split_on]). *)

Fixpoint scan_segments (fuel : nat) (c : ascii) (s : str) (offset : nat) : list str :=
  match fuel with
  | O => []
  | S fuel' =>
    match find_char_from c s offset with
    | None => [substr s offset (length s - offset)]
    | Some next => substr s offset (next - offset) :: scan_segments fuel' c s (S next)
    end
  end.

Definition segments (c : ascii) (s : str) : list str := scan_segments (S (length s)) c s 0.

(** The same by structural recursion. *)
Fixpoint split_on (c : ascii) (s : str) : list str :=
  match s with
  | [] => [[]]
  | x :: s' =>
    if is_char c x then [] :: split_on c s'
    else match split_on c s' with
         | [] => [[x]]
         | seg :: segs => (x :: seg) :: segs
         end
  end.

Lemma split_on_none c s : none_of (is_char c) s → split_on c s = [s].
Proof. induction 1 as [|x s Hx _ IH]; simpl; [done|]. by rewrite Hx, IH. Qed.

Lemma split_on_app c s t : none_of (is_char c) s → split_on c (s ++ c :: t) = s :: split_on c t.
Proof.
  induction 1 as [|x s Hx _ IH]; simpl; [by rewrite is_char_refl|]. by rewrite Hx, IH.
Qed.

Lemma scan_segments_split_on c s fuel offset :
  offset ≤ length s → length s - offset < fuel →
  scan_segments fuel c s offset = split_on c (drop offset s).
Proof.
  revert offset. induction fuel as [|fuel IH]; intros offset Ho Hf; [lia|]. simpl.
  unfold find_char_from. destruct (find_char c (drop offset s)) as [i|] eqn:E; simpl.
  - pose proof (find_if_lt _ _ _ E) as Hlt. rewrite length_drop in Hlt.
    rewrite IH by lia. unfold find_char in E.
    apply find_if_Some in E as (pre & x & post & Heq & <- & Hx & Hpre).
    apply is_char_true in Hx as <-. unfold substr.
    replace (S (offset + length pre)) with (offset + S (length pre)) by lia.
    rewrite <-drop_drop, Heq, split_on_app by done.
    replace (offset + length pre - offset) with (length pre) by lia.
    f_equal; [by rewrite take_app_length|].
    f_equal. change (c :: post) with ([c] ++ post). rewrite app_assoc.
    rewrite drop_app_ge by (rewrite length_app; simpl; lia).
    rewrite length_app. simpl. by replace (S (length pre) - (length pre + 1)) with 0 by lia.
  - apply find_if_None in E. rewrite split_on_none by done. unfold substr.
    rewrite take_ge; [done|]. rewrite length_drop. lia.
Qed.

Lemma segments_split_on c s : segments c s = split_on c s.
Proof. unfold segments. rewrite scan_segments_split_on by lia. done. Qed.

Fixpoint join_with (c : ascii) (segs : list str) : str :=
  match segs with
  | [] => []
  | [seg] => seg
  | seg :: segs' => seg ++ c :: join_with c segs'
  end.

Lemma split_on_ne c s : split_on c s ≠ [].
Proof. destruct s as [|x s]; simpl; [done|]. by repeat case_match. Qed.

Lemma split_on_join c s : join_with c (split_on c s) = s.
Proof.
  induction s as [|x s IH]; simpl; [done|].
  pose proof (split_on_ne c s). destruct (split_on c s) as [|seg segs]; [done|].
  destruct (is_char c x) eqn:Hx.
  - apply is_char_true in Hx as <-. by rewrite <-IH.
  - rewrite <-IH. by destruct segs.
Qed.

Lemma split_on_segments c s : Forall (none_of (is_char c)) (split_on c s).
Proof.
  induction s as [|x s IH]; simpl; [by repeat constructor|].
  destruct (is_char c x) eqn:Hx; [by repeat constructor|].
  destruct IH as [|seg segs]; repeat constructor; auto.
Qed.

Lemma split_join c segs :
  segs ≠ [] → Forall (none_of (is_char c)) segs → split_on c (join_with c segs) = segs.
Proof.
  intros Hne. induction 1 as [|seg segs Hs Hss IH]; [done|].
  destruct segs as [|seg' segs]; [by apply split_on_none|].
  change (join_with c (seg :: seg' :: segs)) with (seg ++ c :: join_with c (seg' :: segs)).
  rewrite split_on_app by done. by rewrite IH.
Qed.

#[export] Hint Rewrite @length_app @length_drop @length_take : text.
#[export] Hint Rewrite segments_split_on : text.
