(* ===== verification/Url.v ===== *)
(** * [uvp::url]: parsing, serialization, resolution and ports

    [src/url.cpp] and [include/uvpp/protocols/url.hpp].  [url] is the class's
    private state, field by field; [parse_authority], [parse_absolute],
    [parse_url] and [parse_url_base] are the parser, [serialize_authority],
    [origin_form_target] and [absolute_form_target] the printers, and
    [effective_port], [authority_endpoint] and [origin_from_url] the derived
    endpoint values. *)

From S2P Require Import Prelude Text.

Inductive url_errc :=
| url_invalid | missing_scheme | unsupported_scheme | missing_host | invalid_port.

Inductive url_scheme := scheme_http | scheme_https | scheme_ws | scheme_wss | scheme_other.

#[global] Instance url_scheme_eq_dec : EqDecision url_scheme.
Proof. solve_decision. Defined.

Record url := Url {
  href : str;
  scheme : str;
  username : str;
  password : str;
  host : str;
  hostname : str;
  port : str;
  path : str;
  query : str;
  fragment : str;
  has_authority : bool;
  host_is_ip_literal_ : bool
}.

(** [url{}]: every field at its default member initializer. *)
Definition empty_url : url := Url [] [] [] [] [] [] [] [] [] [] false false.

Definition has_credentials (u : url) : bool :=
  negb (bool_decide (username u = [])) || negb (bool_decide (password u = [])).
Definition has_port (u : url) : bool := negb (bool_decide (port u = [])).

(** Assignments to the fields of [parsed]. *)
Definition set_scheme v (u : url) := Url (href u) v (username u) (password u) (host u) (hostname u)
  (port u) (path u) (query u) (fragment u) (has_authority u) (host_is_ip_literal_ u).
Definition set_credentials n p (u : url) := Url (href u) (scheme u) n p (host u) (hostname u)
  (port u) (path u) (query u) (fragment u) (has_authority u) (host_is_ip_literal_ u).
Definition set_host h n ip (u : url) := Url (href u) (scheme u) (username u) (password u) h n
  (port u) (path u) (query u) (fragment u) (has_authority u) ip.
Definition set_port v (u : url) := Url (href u) (scheme u) (username u) (password u) (host u) (hostname u)
  v (path u) (query u) (fragment u) (has_authority u) (host_is_ip_literal_ u).
Definition set_tail p q f (u : url) := Url (href u) (scheme u) (username u) (password u) (host u) (hostname u)
  (port u) p q f (has_authority u) (host_is_ip_literal_ u).
Definition set_authority b (u : url) := Url (href u) (scheme u) (username u) (password u) (host u) (hostname u)
  (port u) (path u) (query u) (fragment u) b (host_is_ip_literal_ u).
Definition set_href v (u : url) := Url v (scheme u) (username u) (password u) (host u) (hostname u)
  (port u) (path u) (query u) (fragment u) (has_authority u) (host_is_ip_literal_ u).

(** ** Character classes and literals *)

Definition is_ascii_alpha (c : ascii) : bool :=
  (((65 <=? code c) && (code c <=? 90)) || ((97 <=? code c) && (code c <=? 122)))%N.
Definition is_ascii_digit (c : ascii) : bool := ((48 <=? code c) && (code c <=? 57))%N.
Definition is_scheme_char (c : ascii) : bool :=
  is_ascii_alpha c || is_ascii_digit c || is_char "+" c || is_char "-" c || is_char "." c.

Definition valid_scheme (value : str) : bool :=
  match value with
  | [] => false
  | c :: rest => is_ascii_alpha c && forallb is_scheme_char rest
  end.

Definition is_ascii_whitespace (c : ascii) : bool :=
  one_of (" " :: "009" :: "013" :: "010" :: ["012"])%char c.
Definition contains_ascii_whitespace (value : str) : bool := existsb is_ascii_whitespace value.

(** One dotted segment; [number] is a signed [int] in the source. *)
Definition ipv4_segment (segment : str) : bool :=
  negb (bool_decide (segment = [])) && (length segment <=? 3) &&
  match from_chars_signed 32 10 segment with
  | fc_ok number [] => (number <=? 255)%Z
  | _ => false
  end.

Definition looks_like_ipv4_literal (value : str) : bool :=
  match value with
  | [] => false
  | _ => let segs := segments "." value in forallb ipv4_segment segs && (length segs =? 4)
  end.

Definition looks_like_ipv6_literal (value : str) : bool :=
  match find_char ":" value with Some _ => true | None => false end.

Definition first_of_or_end (value chars : str) : nat :=
  match find_first_of chars value with Some pos => pos | None => length value end.

Definition has_absolute_scheme (value : str) : bool :=
  match find_char ":" value with
  | None => false
  | Some scheme_end =>
    (scheme_end <? first_of_or_end value (lit "/?#")) && valid_scheme (take scheme_end value)
  end.

(** ** The parser *)

Definition parse_port (value : str) : result url_errc Z :=
  match value with
  | [] => Err invalid_port
  | _ =>
    match from_chars_unsigned 32 10 value with
    | fc_ok number [] => if (number >? 65535)%Z then Err invalid_port else Ok number
    | _ => Err invalid_port
    end
  end.

(** The part of [parse_authority] after the user information: [host_port] is
    [host\[:port\]].  Returns what the function returns and the updated
    [parsed]. *)
Definition parse_host_port (host_port : str) (parsed : url) : bool * url :=
  match host_port with
  | [] => (false, parsed)
  | c :: _ =>
    if is_char "[" c then
      match find_char "]" host_port with
      | None => (false, parsed)
      | Some close =>
        let name := substr host_port 1 (close - 1) in
        let parsed := set_host (take (S close) host_port) name (looks_like_ipv6_literal name) parsed in
        match drop (S close) host_port with
        | [] => (negb (bool_decide (name = [])), parsed)
        | r :: rest =>
          if is_char ":" r then (negb (bool_decide (name = [])), set_port rest parsed)
          else (false, parsed)
        end
      end
    else
      let '(name, parsed) :=
        match rfind_char ":" host_port with
        | Some colon =>
          if bool_decide (find_char ":" host_port = Some colon) then
            (lowercase (take colon host_port), set_port (drop (S colon) host_port) parsed)
          else (lowercase host_port, parsed)
        | None => (lowercase host_port, parsed)
        end in
      (negb (bool_decide (name = [])), set_host name name (looks_like_ipv4_literal name) parsed)
  end.

Definition parse_authority (authority : str) (parsed : url) : bool * url :=
  let parsed := set_authority true parsed in
  match rfind_char "@" authority with
  | None => parse_host_port authority parsed
  | Some at_ =>
    let userinfo := take at_ authority in
    let host_port := drop (S at_) authority in
    match find_char ":" userinfo with
    | None => parse_host_port host_port (set_credentials userinfo (password parsed) parsed)
    | Some colon =>
      parse_host_port host_port (set_credentials (take colon userinfo) (drop (S colon) userinfo) parsed)
    end
  end.

Definition serialize_authority (value : url) : str :=
  (if has_credentials value then
     username value ++
     (if bool_decide (password value = []) then [] else ":"%char :: password value) ++ lit "@"
   else []) ++
  host value ++
  (if has_port value then ":"%char :: port value else []).

(** The suffixes [?query] and [#fragment] of [href], omitted when empty. *)
Definition query_suffix (q : str) : str := match q with [] => [] | _ => "?"%char :: q end.
Definition fragment_suffix (f : str) : str := match f with [] => [] | _ => "#"%char :: f end.

Definition build_href (u : url) : str :=
  scheme u ++ lit ":" ++
  (if has_authority u then lit "//" ++ serialize_authority u else []) ++
  path u ++ query_suffix (query u) ++ fragment_suffix (fragment u).

(** Fragment, then query, then path of what follows the authority. *)
Definition parse_tail (rest : str) (parsed : url) : url :=
  let '(rest, frag) := match find_char "#" rest with
                       | Some i => (take i rest, drop (S i) rest)
                       | None => (rest, []) end in
  let '(rest, q) := match find_char "?" rest with
                    | Some i => (take i rest, drop (S i) rest)
                    | None => (rest, []) end in
  let p := if bool_decide (rest = []) && has_authority parsed then lit "/" else rest in
  set_tail p q frag parsed.

Definition parse_absolute (input : str) : result url_errc url :=
  if bool_decide (input = []) || contains_ascii_whitespace input then Err url_invalid
  else
    match find_char ":" input with
    | None => Err missing_scheme
    | Some scheme_end =>
      let parsed := set_scheme (lowercase (take scheme_end input)) empty_url in
      if negb (valid_scheme (scheme parsed)) then Err url_invalid
      else
        let rest := drop (S scheme_end) input in
        if starts_with rest (lit "//") then
          let rest := drop 2 rest in
          let authority_end := first_of_or_end rest (lit "/?#") in
          let '(ok, parsed) := parse_authority (take authority_end rest) parsed in
          if ok then
            let parsed := parse_tail (drop authority_end rest) parsed in
            Ok (set_href (build_href parsed) parsed)
          else Err missing_host
        else
          let parsed := parse_tail rest parsed in
          Ok (set_href (build_href parsed) parsed)
    end.

Definition parse_url (input : str) : result url_errc url := parse_absolute input.

(** The reference that [parse_url(input, base)] builds for a relative input. *)
Definition relative_reference (input : str) (base : url) : str :=
  if starts_with input (lit "//") then scheme base ++ lit ":" ++ input
  else if starts_with input (lit "/") then
    scheme base ++ lit "://" ++ serialize_authority base ++ input
  else
    scheme base ++ lit "://" ++ serialize_authority base ++
    match rfind_char "/" (path base) with
    | None => lit "/"
    | Some slash => take (S slash) (path base)
    end ++ input.

Definition parse_url_base (input base : str) : result url_errc url :=
  if has_absolute_scheme input then parse_absolute input
  else
    match parse_absolute base with
    | Err e => Err e
    | Ok base_value =>
      match input with
      | [] => Ok base_value
      | _ => parse_absolute (relative_reference input base_value)
      end
    end.

(** ** Schemes, ports, targets and origins *)

Definition scheme_id (value : url) : url_scheme :=
  if bool_decide (scheme value = lit "http") then scheme_http
  else if bool_decide (scheme value = lit "https") then scheme_https
  else if bool_decide (scheme value = lit "ws") then scheme_ws
  else if bool_decide (scheme value = lit "wss") then scheme_wss
  else scheme_other.

Definition explicit_port (value : url) : option Z :=
  if negb (has_port value) then None
  else match parse_port (port value) with Ok p => Some p | Err _ => None end.

Definition default_port (s : url_scheme) : option Z :=
  match s with
  | scheme_http | scheme_ws => Some 80%Z
  | scheme_https | scheme_wss => Some 443%Z
  | scheme_other => None
  end.

Definition effective_port (value : url) : result url_errc Z :=
  if has_port value then parse_port (port value)
  else match default_port (scheme_id value) with
       | None => Err unsupported_scheme
       | Some fallback => Ok fallback
       end.

Definition host_is_ip_literal (value : url) : bool := host_is_ip_literal_ value.

Definition origin_form_target (value : url) : str :=
  (match path value with [] => lit "/" | p => p end) ++ query_suffix (query value).

Definition absolute_form_target (value : url) : str :=
  scheme value ++ lit ":" ++
  (if has_authority value then lit "//" ++ serialize_authority value else []) ++
  origin_form_target value.

Record url_authority_endpoint := UrlEndpoint {
  ep_host : str; ep_port : Z; ep_host_is_ip_literal : bool
}.

Record origin := Origin { or_scheme : url_scheme; or_hostname : str; or_port : Z }.

Definition authority_endpoint (value : url) : result url_errc url_authority_endpoint :=
  if negb (has_authority value) || bool_decide (hostname value = []) then Err missing_host
  else match effective_port value with
       | Err e => Err e
       | Ok p => Ok (UrlEndpoint (hostname value) p (host_is_ip_literal value))
       end.

Definition origin_from_url (value : url) : result url_errc origin :=
  if negb (has_authority value) || bool_decide (hostname value = []) then Err missing_host
  else match effective_port value with
       | Err e => Err e
       | Ok p => Ok (Origin (scheme_id value) (hostname value) p)
       end.

(** ** Well-formed URLs

    What the parser guarantees of the fields it fills in, and what the printer
    needs to be read back. *)

Definition is_delim : ascii → bool := one_of (lit "/?#").

Definition single_colon (s : str) : Prop :=
  ∃ i, rfind_char ":" s = Some i ∧ find_char ":" s = Some i.

(** [host], [hostname], [port] and [host_is_ip_literal] of an authority. *)
Inductive host_wf : str → str → str → bool → Prop :=
| host_wf_bracket n p :
    n ≠ [] → none_of (is_char "]") n →
    host_wf ("["%char :: n ++ lit "]") n p (looks_like_ipv6_literal n)
| host_wf_name n p :
    n ≠ [] → lowercase n = n → (∀ c t, n = c :: t → is_char "[" c = false) →
    (p = [] → ¬ single_colon n) →
    (p ≠ [] → none_of (is_char ":") n ∧ none_of (is_char ":") p) →
    host_wf n n p (looks_like_ipv4_literal n).

(** A set of bytes that case folding cannot enter or leave. *)
Definition caseless (q : ascii → bool) : Prop := ∀ c, q (tolower c) = q c.

Record authority_wf (u : url) : Prop := {
  awf_user : none_of (is_char ":") (username u);
  awf_host : host_wf (host u) (hostname u) (port u) (host_is_ip_literal_ u);
  awf_host_at : none_of (is_char "@") (host u);
  awf_port_at : none_of (is_char "@") (port u);
  awf_delim : none_of is_delim (username u) ∧ none_of is_delim (password u) ∧
              none_of is_delim (host u) ∧ none_of is_delim (port u)
}.

Record url_wf (u : url) : Prop := {
  uwf_scheme : valid_scheme (scheme u) = true;
  uwf_scheme_lower : lowercase (scheme u) = scheme u;
  uwf_authority : has_authority u = true → authority_wf u ∧ ∃ t, path u = "/"%char :: t;
  uwf_no_authority : has_authority u = false →
    username u = [] ∧ password u = [] ∧ host u = [] ∧ hostname u = [] ∧ port u = [] ∧
    host_is_ip_literal_ u = false ∧ starts_with (path u) (lit "//") = false;
  uwf_path : none_of (one_of (lit "?#")) (path u);
  uwf_query : none_of (is_char "#") (query u);
  uwf_space : contains_ascii_whitespace (href u) = false;
  uwf_href : href u = build_href u
}.

(** ** Lemmas *)

Section caseless_sets.
Lemma caseless_by_check (q : ascii → bool) :
  forallb (λ n, let c := ascii_of_nat n in Bool.eqb (q (tolower c)) (q c)) (seq 0 256) = true →
  caseless q.
Proof.
  intros H c. apply eqb_prop.
  refine (ascii_forallb (λ c, Bool.eqb (q (tolower c)) (q c)) _ c). exact H.
Qed.

Lemma caseless_delim : caseless is_delim.
Proof. apply caseless_by_check. vm_compute. reflexivity. Qed.
Lemma caseless_space : caseless is_ascii_whitespace.
Proof. apply caseless_by_check. vm_compute. reflexivity. Qed.
Lemma caseless_at : caseless (is_char "@").
Proof. apply caseless_by_check. vm_compute. reflexivity. Qed.
Lemma caseless_colon : caseless (is_char ":").
Proof. apply caseless_by_check. vm_compute. reflexivity. Qed.
Lemma caseless_bracket : caseless (is_char "[").
Proof. apply caseless_by_check. vm_compute. reflexivity. Qed.

Lemma none_of_lowercase q s : caseless q → none_of q s → none_of q (lowercase s).
Proof.
  intros Hq. induction 1 as [|c s Hc _ IH]; [constructor|].
  constructor; [by rewrite Hq|done].
Qed.

Lemma find_if_lowercase q s : caseless q → find_if q (lowercase s) = find_if q s.
Proof. intros Hq. induction s as [|c s IH]; simpl; [done|]. by rewrite Hq, IH. Qed.

Lemma rfind_if_lowercase q s : caseless q → rfind_if q (lowercase s) = rfind_if q s.
Proof. intros Hq. induction s as [|c s IH]; simpl; [done|]. by rewrite Hq, IH. Qed.
End caseless_sets.

#[export] Hint Resolve caseless_delim caseless_space caseless_at caseless_colon caseless_bracket : bytes.
#[export] Hint Resolve none_of_lowercase : bytes.

Lemma none_of_take {A} (q : A → bool) n (s : list A) : none_of q s → none_of q (take n s).
Proof. intros H. rewrite <-(take_drop n s), none_of_app in H. apply H. Qed.
Lemma none_of_drop {A} (q : A → bool) n (s : list A) : none_of q s → none_of q (drop n s).
Proof. intros H. rewrite <-(take_drop n s), none_of_app in H. apply H. Qed.
#[export] Hint Resolve none_of_take none_of_drop : bytes.

Lemma set_host_port_eta (u : url) : set_port [] u = u ↔ port u = [].
Proof. destruct u; cbn. split; [by intros [= ->]|by intros ->]. Qed.

(** What [parse_host_port] accepts, and that every byte it stores comes from
    its input. *)
Lemma parse_host_port_spec hp parsed u :
  parse_host_port hp parsed = (true, u) → port parsed = [] →
  ∃ h n p ip,
    u = set_port p (set_host h n ip parsed) ∧ host_wf h n p ip ∧
    ∀ q, caseless q → none_of q hp → none_of q h ∧ none_of q p.
Proof.
  intros H Hport. unfold parse_host_port in H. destruct hp as [|c hp']; [done|].
  set (hp := c :: hp') in *. destruct (is_char "[" c) eqn:Hc.
  - destruct (find_char "]" hp) as [close|] eqn:Hclose; [|done].
    pose proof Hclose as (pre & x & post & Heq & Hlen & Hx & Hpre)%find_if_Some.
    apply is_char_true in Hx as <-. apply is_char_true in Hc as <-.
    destruct pre as [|c' n]; [done|]. subst hp. injection Heq as <- ->.
    simpl in Hlen. subst close.
    apply none_of_cons in Hpre as [_ Hn].
    assert (Hname : substr ("["%char :: n ++ "]"%char :: post) 1 (S (length n) - 1) = n).
    { unfold substr. simpl. rewrite Nat.sub_0_r. by rewrite drop_0, take_app_length. }
    assert (Hhost : take (S (S (length n))) ("["%char :: n ++ "]"%char :: post) = "["%char :: n ++ lit "]").
    { cbn [take]. f_equal. rewrite (cons_middle _ n post), app_assoc.
      apply take_app_length'. rewrite length_app. simpl. lia. }
    assert (Hdrop : drop (S (S (length n))) ("["%char :: n ++ "]"%char :: post) = post).
    { apply (drop_S_app ("["%char :: n)). }
    rewrite Hname, Hhost, Hdrop in H.
    destruct post as [|r rest].
    + apply pair_equal_spec in H as [Hne <-]; breflect.
      eexists _, n, [], _. split_and!; [symmetry; by apply set_host_port_eta|by constructor|].
      intros q _ Hq. split; [done|constructor].
    + destruct (is_char ":" r) eqn:Hr; [|done]. apply pair_equal_spec in H as [Hne <-]; breflect.
      eexists _, n, rest, _. split_and!; [done|by constructor|].
      intros q _ Hq. rewrite none_of_cons, none_of_app, !none_of_cons in Hq.
      destruct Hq as (? & ? & ? & ? & ?).
      split; [|done]. cbn [lit list_ascii_of_string].
      rewrite none_of_cons, none_of_app, none_of_cons. repeat split; try done; constructor.
  - assert (Hhead : ∀ c0 t, lowercase hp = c0 :: t → is_char "[" c0 = false).
    { intros c0 t [= <- _]. by rewrite (caseless_bracket c). }
    destruct (rfind_char ":" hp) as [colon|] eqn:Hr.
    2: { apply pair_equal_spec in H as [Hne <-]; breflect. eexists _, _, [], _. split_and!.
         - symmetry; by apply set_host_port_eta.
         - constructor; auto using lowercase_idemp; [|done].
           intros _ (i & E & _). unfold rfind_char in *.
           rewrite rfind_if_lowercase in E by eauto with bytes. congruence.
         - intros q Hq Hall. split; [|constructor]. by apply none_of_lowercase. }
    case_bool_decide as Hf.
    + apply pair_equal_spec in H as [Hne <-]; breflect.
      pose proof Hr as (pre & x & post & Heq & <- & Hx & Hpost)%rfind_if_Some.
      pose proof (find_if_take _ _ _ Hf) as Hpre. rewrite Heq in *.
      rewrite take_app_length in *. rewrite drop_S_app.
      eexists _, _, post, _. split_and!; [done| |].
      * constructor; auto using lowercase_idemp.
        -- intros c0 t E. destruct pre as [|d pre]; [done|].
           injection Heq as -> _. injection E as <- _. by rewrite (caseless_bracket d).
        -- intros _ (i & E & _). unfold rfind_char in E.
           rewrite rfind_if_lowercase in E by eauto with bytes.
           apply rfind_if_None in Hpre. congruence.
        -- intros _. split; [|done]. eauto with bytes.
      * intros q Hq Hall. rewrite none_of_app, none_of_cons in Hall.
        destruct Hall as (? & ? & ?). split; [by apply none_of_lowercase|done].
    + apply pair_equal_spec in H as [Hne <-]; breflect. eexists _, _, [], _. split_and!.
      * symmetry; by apply set_host_port_eta.
      * constructor; auto using lowercase_idemp; [|done].
        intros _ (i & E1 & E2). apply Hf. unfold find_char, rfind_char in *.
        rewrite rfind_if_lowercase in E1 by eauto with bytes.
        rewrite find_if_lowercase in E2 by eauto with bytes. congruence.
      * intros q Hq Hall. split; [|constructor]. by apply none_of_lowercase.
Qed.

Definition port_suffix (p : str) : str := match p with [] => [] | _ => ":"%char :: p end.

(** Printing a well-formed host and port and parsing it back. *)
Lemma parse_host_port_print h n p ip parsed :
  host_wf h n p ip → port parsed = [] →
  parse_host_port (h ++ port_suffix p) parsed = (true, set_port p (set_host h n ip parsed)).
Proof.
  intros Hwf Hport. destruct Hwf as [n p Hne Hn|n p Hne Hlow Hhead Hnil Hcons].
  - cbn [app]. unfold parse_host_port. rewrite is_char_refl.
    set (tail := port_suffix p).
    assert (Hs : "["%char :: (n ++ lit "]") ++ tail = ("["%char :: n) ++ "]"%char :: tail)
      by (cbn [app]; by rewrite <-app_assoc).
    rewrite Hs. unfold find_char. rewrite find_if_here; [|by constructor|by rewrite is_char_refl].
    rewrite drop_S_app. unfold substr. cbn [length app drop Nat.sub].
    rewrite Nat.sub_0_r, drop_0, take_app_length.
    assert (Hh : take (S (S (length n))) ("["%char :: n ++ "]"%char :: tail) = "["%char :: n ++ lit "]").
    { cbn [take]. f_equal. rewrite (cons_middle _ n tail), app_assoc.
      apply take_app_length'. rewrite length_app. simpl. lia. }
    rewrite Hh. rewrite (bool_decide_eq_false_2 (n = [])) by done.
    subst tail. destruct p as [|r p]; cbn [port_suffix].
    + f_equal. symmetry. by apply set_host_port_eta.
    + by rewrite is_char_refl.
  - destruct n as [|c n']; [done|]. set (n := c :: n') in *.
    assert (Hc : is_char "[" c = false) by by eapply Hhead.
    unfold parse_host_port. subst n. cbn [app]. rewrite Hc.
    change (c :: n' ++ port_suffix p) with ((c :: n') ++ port_suffix p).
    set (n := c :: n') in *. unfold find_char, rfind_char in *.
    destruct p as [|r p]; cbn [port_suffix].
    + rewrite app_nil_r. destruct (rfind_if _ n) as [i|] eqn:Hr.
      * case_bool_decide as Hf; [exfalso; apply Hnil; [done|]; by exists i|].
        rewrite Hlow. rewrite bool_decide_eq_false_2 by done.
        f_equal. symmetry. by apply set_host_port_eta.
      * rewrite Hlow, bool_decide_eq_false_2 by done.
        f_equal. symmetry. by apply set_host_port_eta.
    + destruct Hcons as [H1 H2]; [done|].
      rewrite rfind_if_here, find_if_here by (done || by rewrite is_char_refl).
      rewrite bool_decide_eq_true_2 by done.
      rewrite take_app_length, drop_S_app, Hlow, bool_decide_eq_false_2 by done. done.
Qed.

Lemma host_wf_nonempty h n p ip : host_wf h n p ip → h ≠ [] ∧ n ≠ [].
Proof. by destruct 1. Qed.

Lemma parse_authority_spec a parsed u :
  parse_authority a parsed = (true, u) →
  username parsed = [] → password parsed = [] → port parsed = [] →
  ∃ us pw h n p ip,
    u = set_port p (set_host h n ip (set_credentials us pw (set_authority true parsed))) ∧
    none_of (is_char ":") us ∧ host_wf h n p ip ∧
    none_of (is_char "@") h ∧ none_of (is_char "@") p ∧
    ∀ q, caseless q → none_of q a → none_of q us ∧ none_of q pw ∧ none_of q h ∧ none_of q p.
Proof.
  intros H Hus Hpw Hport. unfold parse_authority in H. cbv zeta in H.
  destruct (rfind_char "@" a) as [at_|] eqn:Hat.
  - apply rfind_if_Some in Hat as (ui & x & hp & -> & <- & Hx & Hhp).
    apply is_char_true in Hx as <-. rewrite take_app_length, drop_S_app in H.
    set (split := find_char ":" ui) in *.
    assert (∃ us pw, parse_host_port hp (set_credentials us pw (set_authority true parsed)) = (true, u) ∧
      none_of (is_char ":") us ∧ ∀ q, none_of q ui → none_of q us ∧ none_of q pw) as
      (us & pw & Hp & Hcol & Hq).
    { subst split. destruct (find_char ":" ui) as [colon|] eqn:Hc.
      - eexists _, _. split_and!; [exact H|by eapply find_if_take|eauto with bytes].
      - apply find_if_None in Hc. eexists _, _. split_and!; [exact H|done|].
        intros q Hq. split; [done|]. cbn. rewrite Hpw. constructor. }
    apply parse_host_port_spec in Hp as (h & n & p & ip & -> & Hwf & Hbytes); [|done].
    eexists us, pw, h, n, p, ip. split_and!; try done.
    + apply Hbytes; [apply caseless_at|done].
    + apply Hbytes; [apply caseless_at|done].
    + intros q Hcl Hall. rewrite none_of_app, none_of_cons in Hall.
      destruct Hall as (Hui & _ & Hh). apply Hq in Hui as [??]. apply Hbytes in Hh as [??]; done.
  - apply rfind_if_None in Hat.
    apply parse_host_port_spec in H as (h & n & p & ip & -> & Hwf & Hbytes); [|done].
    exists [], [], h, n, p, ip. split_and!; try done; try constructor.
    + destruct parsed; cbn in *. by subst.
    + apply Hbytes; [apply caseless_at|done].
    + apply Hbytes; [apply caseless_at|done].
    + constructor.
    + split; [constructor|]. by apply Hbytes.
Qed.

Lemma parse_authority_print u parsed :
  authority_wf u → username parsed = [] → password parsed = [] → port parsed = [] →
  parse_authority (serialize_authority u) parsed =
    (true, set_port (port u) (set_host (host u) (hostname u) (host_is_ip_literal_ u)
      (set_credentials (username u) (password u) (set_authority true parsed)))).
Proof.
  intros [Huser Hhost Hhat Hpat _] Hus Hpw Hport.
  unfold parse_authority, serialize_authority. cbv zeta.
  assert (Hsuf : (if has_port u then ":"%char :: port u else []) = port_suffix (port u)).
  { unfold has_port. by destruct (port u). }
  rewrite Hsuf.
  assert (Hnoat : none_of (is_char "@") (host u ++ port_suffix (port u))).
  { apply none_of_app. split; [done|]. destruct (port u); [constructor|]. by constructor. }
  destruct (has_credentials u) eqn:Hcred.
  - set (ui := username u ++ (if bool_decide (password u = []) then [] else ":"%char :: password u)).
    assert (Heq : (username u ++ (if bool_decide (password u = []) then [] else ":"%char :: password u) ++
        lit "@") ++ host u ++ port_suffix (port u) =
      ui ++ "@"%char :: host u ++ port_suffix (port u)).
    { subst ui. by rewrite <-!app_assoc. }
    rewrite Heq. unfold rfind_char. rewrite rfind_if_here by (done || by rewrite is_char_refl).
    rewrite take_app_length, drop_S_app. subst ui. unfold find_char.
    case_bool_decide as Hpwd.
    + rewrite app_nil_r. rewrite (proj2 (find_if_None _ _) Huser).
      rewrite (parse_host_port_print _ _ _ _ _ Hhost) by done. cbn. by rewrite Hpwd, Hpw.
    + rewrite find_if_here by (done || by rewrite is_char_refl).
      rewrite take_app_length, drop_S_app. by rewrite (parse_host_port_print _ _ _ _ _ Hhost).
  - unfold has_credentials in Hcred. breflect.
    cbn [app]. unfold rfind_char. rewrite (proj2 (rfind_if_None _ _) Hnoat).
    rewrite (parse_host_port_print _ _ _ _ _ Hhost) by done. 
    destruct u, parsed; cbn in *; by subst.
Qed.

Lemma one_of_app q1 (chars : str) c : c ∈ chars → is_char c q1 = true → one_of chars q1 = true.
Proof.
  intros Hin Hc. apply is_char_true in Hc as <-. unfold one_of. apply existsb_exists.
  exists c. split; [by apply list_elem_of_In|apply is_char_refl].
Qed.

(** Cutting at the first occurrence of [c], as the source does for ['#'] and
    ['?']: the part before has no [c]. *)
Definition cut_at (c : ascii) (s : str) : str * str :=
  match find_char c s with Some i => (take i s, drop (S i) s) | None => (s, []) end.

Lemma cut_at_spec c s a b :
  cut_at c s = (a, b) →
  none_of (is_char c) a ∧ (∃ t, s = a ++ t) ∧ (∀ q, none_of q s → none_of q b).
Proof.
  unfold cut_at. destruct (find_char c s) as [i|] eqn:E; intros [= <- <-].
  - split_and!; [by eapply find_if_take|exists (drop i s); by rewrite take_drop|eauto with bytes].
  - apply find_if_None in E. split_and!; [done|exists []; by rewrite app_nil_r|constructor].
Qed.

Lemma cut_at_print c a b :
  none_of (is_char c) a →
  cut_at c (a ++ match b with [] => [] | _ => c :: b end) = (a, b).
Proof.
  intros Ha. unfold cut_at, find_char. destruct b as [|x b].
  - by rewrite app_nil_r, (proj2 (find_if_None _ _) Ha).
  - rewrite find_if_here by (done || by rewrite is_char_refl).
    by rewrite take_app_length, drop_S_app.
Qed.

Lemma parse_tail_cuts rest parsed :
  parse_tail rest parsed =
    let '(r1, f) := cut_at "#" rest in
    let '(r2, q) := cut_at "?" r1 in
    set_tail (if bool_decide (r2 = []) && has_authority parsed then lit "/" else r2) q f parsed.
Proof. done. Qed.

Lemma prefix_none_of {A} (q : A → bool) (s a t : list A) : none_of q s → s = a ++ t → none_of q a.
Proof. intros H ->. by apply none_of_app in H as [? _]. Qed.

Lemma parse_tail_spec rest parsed :
  ∃ p q f, parse_tail rest parsed = set_tail p q f parsed ∧
    none_of (one_of (lit "?#")) p ∧ none_of (is_char "#") q ∧
    (none_of is_ascii_whitespace rest →
      none_of is_ascii_whitespace p ∧ none_of is_ascii_whitespace q ∧ none_of is_ascii_whitespace f) ∧
    (has_authority parsed = true → (∀ c t, rest = c :: t → is_delim c = true) → ∃ t, p = "/"%char :: t) ∧
    (has_authority parsed = false → starts_with rest (lit "//") = false → starts_with p (lit "//") = false).
Proof.
  rewrite parse_tail_cuts.
  destruct (cut_at "#" rest) as [r1 f] eqn:E1. destruct (cut_at "?" r1) as [r2 q] eqn:E2.
  apply cut_at_spec in E1 as (H1 & [t1 Ht1] & H1q). apply cut_at_spec in E2 as (H2 & [t2 Ht2] & H2q).
  assert (Hr2 : none_of (one_of (lit "?#")) r2).
  { pose proof (prefix_none_of _ _ _ _ H1 Ht2) as H1'. unfold none_of in *.
    rewrite Forall_forall in *. intros c Hc. specialize (H2 c Hc). specialize (H1' c Hc).
    apply is_char_false in H1', H2. cbn. apply orb_false_iff. split.
    - apply Ascii.eqb_neq. congruence.
    - rewrite orb_false_r. apply Ascii.eqb_neq. congruence. }
  eexists _, q, f. split; [done|]. split_and!.
  - destruct (_ && _); [by repeat constructor|done].
  - by apply H2q.
  - intros Hs. pose proof (prefix_none_of _ _ _ _ Hs Ht1) as Hs1.
    pose proof (prefix_none_of _ _ _ _ Hs1 Ht2).
    split_and!; [|by apply H2q|by apply H1q]. destruct (_ && _); [by repeat constructor|done].
  - intros -> Hd. rewrite andb_true_r. case_bool_decide as Hnil; [by exists []|].
    destruct r2 as [|c r2]; [done|]. exists r2. f_equal.
    specialize (Hd c). rewrite Ht1, Ht2 in Hd. specialize (Hd _ eq_refl).
    apply none_of_cons in Hr2 as [Hc _]. clear -Hd Hc. cbn in *.
    apply orb_true_iff in Hd as [Hd|Hd]; [by apply Ascii.eqb_eq in Hd|congruence].
  - intros -> Hd. rewrite andb_false_r. apply not_true_iff_false. intros [t ->]%starts_with_spec.
    rewrite Ht1, Ht2, <-!app_assoc, starts_with_app in Hd. done.
Qed.

Lemma parse_tail_print p q f parsed :
  none_of (one_of (lit "?#")) p → none_of (is_char "#") q →
  (has_authority parsed = true → p ≠ []) →
  parse_tail (p ++ query_suffix q ++ fragment_suffix f) parsed = set_tail p q f parsed.
Proof.
  intros Hp Hq Hne. rewrite parse_tail_cuts.
  assert (Hp1 : none_of (is_char "#") p) by
    (eapply none_of_weaken; [|exact Hp]; intros c Hc; eapply one_of_app; [|done]; set_solver).
  assert (Hp2 : none_of (is_char "?") p) by
    (eapply none_of_weaken; [|exact Hp]; intros c Hc; eapply one_of_app; [|done]; set_solver).
  rewrite app_assoc. unfold fragment_suffix. rewrite cut_at_print.
  2: { apply none_of_app. split; [done|]. destruct q; [constructor|]. by constructor. }
  unfold query_suffix. rewrite cut_at_print by done.
  case_bool_decide as Hnil; [|done]. destruct (has_authority parsed); [|done].
  by apply Hne in Hnil.
Qed.

Lemma existsb_none_of {A} (q : A → bool) s : existsb q s = false ↔ none_of q s.
Proof.
  unfold none_of. induction s as [|c s IH]; cbn; [by split|].
  rewrite orb_false_iff, IH, Forall_cons. done.
Qed.

Lemma none_of_const_cons {A} (q : A → bool) c s : q c = false → none_of q s → none_of q (c :: s).
Proof. intros. by apply none_of_cons. Qed.

Lemma valid_scheme_no_colon s : valid_scheme s = true → none_of (is_char ":") s.
Proof.
  destruct s as [|c s]; [done|]. cbn. intros [Hc Hs]%andb_true_iff.
  assert (Hchar : ∀ d, implb (is_scheme_char d) (negb (is_char ":" d)) = true).
  { refine (ascii_forallb (λ d, implb (is_scheme_char d) (negb (is_char ":" d))) _).
    vm_compute. reflexivity. }
  assert (Hone : ∀ d, is_scheme_char d = true → is_char ":" d = false).
  { intros d Hd. specialize (Hchar d). rewrite Hd in Hchar. cbn in Hchar. by apply negb_true_iff. }
  apply none_of_cons. split.
  - apply Hone. unfold is_scheme_char. by rewrite Hc.
  - rewrite forallb_forall in Hs. apply Forall_forall. intros d Hd. apply Hone, Hs, list_elem_of_In, Hd.
Qed.

Lemma build_href_no_space u :
  none_of is_ascii_whitespace (scheme u) → none_of is_ascii_whitespace (username u) →
  none_of is_ascii_whitespace (password u) → none_of is_ascii_whitespace (host u) →
  none_of is_ascii_whitespace (port u) → none_of is_ascii_whitespace (path u) →
  none_of is_ascii_whitespace (query u) → none_of is_ascii_whitespace (fragment u) →
  contains_ascii_whitespace (build_href u) = false.
Proof.
  intros. apply existsb_none_of. unfold build_href, serialize_authority.
  repeat match goal with
  | |- none_of _ (_ ++ _) => apply none_of_app; split
  | |- none_of _ (if ?b then _ else _) => destruct b
  | |- none_of _ (lit _) => repeat constructor
  | |- none_of _ [] => constructor
  | |- none_of _ (_ :: _) => apply none_of_const_cons; [reflexivity|]
  | |- none_of _ (query_suffix ?q) => destruct q; [constructor|apply none_of_const_cons; [reflexivity|]]
  | |- none_of _ (fragment_suffix ?q) => destruct q; [constructor|apply none_of_const_cons; [reflexivity|]]
  end; assumption.
Qed.

Lemma first_of_or_end_cut s :
  none_of is_delim (take (first_of_or_end s (lit "/?#")) s) ∧
  ∀ c t, drop (first_of_or_end s (lit "/?#")) s = c :: t → is_delim c = true.
Proof.
  unfold first_of_or_end, find_first_of. change (one_of (lit "/?#")) with is_delim.
  destruct (find_if is_delim s) as [i|] eqn:E.
  - split; [by eapply find_if_take|].
    apply find_if_Some in E as (pre & x & post & -> & <- & Hx & _).
    rewrite drop_app_length. by intros c t [= <- _].
  - apply find_if_None in E. rewrite take_ge, drop_ge by lia. done.
Qed.

Lemma first_of_or_end_here a rest :
  none_of is_delim a → (∀ c t, rest = c :: t → is_delim c = true) →
  first_of_or_end (a ++ rest) (lit "/?#") = length a.
Proof.
  intros Ha Hrest. unfold first_of_or_end, find_first_of.
  change (one_of (lit "/?#")) with is_delim. destruct rest as [|c t].
  - by rewrite app_nil_r, (proj2 (find_if_None _ _) Ha).
  - by rewrite find_if_here by eauto.
Qed.

#[global] Arguments build_href : simpl never.
#[global] Arguments contains_ascii_whitespace : simpl never.
#[global] Arguments serialize_authority : simpl never.

(** The parser's two branches, after the scheme. *)
Lemma parse_absolute_inv input u :
  parse_absolute input = Ok u →
  contains_ascii_whitespace input = false ∧
  ∃ sch rest, input = sch ++ ":"%char :: rest ∧ none_of (is_char ":") sch ∧
    valid_scheme (lowercase sch) = true ∧
    let parsed := set_scheme (lowercase sch) empty_url in
    if starts_with rest (lit "//") then
      ∃ auth tail parsed',
        rest = lit "//" ++ auth ++ tail ∧ none_of is_delim auth ∧
        (∀ c t, tail = c :: t → is_delim c = true) ∧
        parse_authority auth parsed = (true, parsed') ∧
        u = set_href (build_href (parse_tail tail parsed')) (parse_tail tail parsed')
    else u = set_href (build_href (parse_tail rest parsed)) (parse_tail rest parsed).
Proof.
  unfold parse_absolute. intros H. cbv zeta in H.
  destruct (bool_decide (input = []) || contains_ascii_whitespace input) eqn:Hw; [done|].
  apply orb_false_iff in Hw as [_ Hw]. split; [done|].
  destruct (find_char ":" input) as [i|] eqn:E; [|done].
  apply find_if_Some in E as (sch & x & rest & -> & <- & Hx & Hsch).
  apply is_char_true in Hx as <-. rewrite take_app_length, drop_S_app in H.
  exists sch, rest. cbn [scheme set_scheme] in H.
  destruct (valid_scheme (lowercase sch)) eqn:Hv; [|done]. cbn [negb] in H.
  split_and!; [done..|]. cbv zeta.
  destruct (starts_with rest (lit "//")) eqn:Hs; [|by injection H as <-].
  set (r := drop 2 rest) in *. destruct (first_of_or_end_cut r) as [Ha Ht].
  set (k := first_of_or_end r (lit "/?#")) in *.
  destruct (parse_authority (take k r) _) as [ok parsed'] eqn:Hpa.
  destruct ok; [|done]. injection H as <-.
  exists (take k r), (drop k r), parsed'. split_and!; try done.
  rewrite take_drop. by apply (starts_with_drop rest (lit "//")).
Qed.

Lemma url_wf_of_parse input u : parse_absolute input = Ok u → url_wf u.
Proof.
  intros (Hw & sch & rest & -> & Hsch & Hv & H)%parse_absolute_inv. cbv zeta in H.
  unfold contains_ascii_whitespace in Hw. rewrite existsb_none_of in Hw.
  apply none_of_app in Hw as [Hws [_ Hwr]%none_of_cons].
  pose proof (none_of_lowercase _ _ caseless_space Hws) as Hwl.
  destruct (starts_with rest (lit "//")) eqn:Hs.
  - destruct H as (auth & tail & parsed' & -> & Hd & Ht & Hpa & ->).
    apply none_of_app in Hwr as [_ [Hwa Hwt]%none_of_app].
    apply parse_authority_spec in Hpa as (us & pw & h & n & p & ip & -> & Hus & Hwf & Hha & Hpat & Hq);
      [|done..].
    destruct (Hq _ caseless_space Hwa) as (? & ? & ? & ?).
    destruct (Hq _ caseless_delim Hd) as (? & ? & ? & ?).
    set (parsed' := set_port _ _) in *.
    destruct (parse_tail_spec tail parsed') as (pa & q & f & -> & Hpa & Hqq & Hsp & Hau & _).
    destruct (Hsp Hwt) as (? & ? & ?).
    constructor; cbn; [done|apply lowercase_idemp| |done|done|done| |done].
    + intros _. split; [by constructor|]. by apply Hau.
    + by apply build_href_no_space.
  - subst u. set (parsed := set_scheme _ _) in *.
    destruct (parse_tail_spec rest parsed) as (pa & q & f & -> & Hpa & Hqq & Hsp & _ & Hau).
    destruct (Hsp Hwr) as (? & ? & ?).
    constructor; cbn; [done|apply lowercase_idemp|done| |done|done| |done].
    + intros _. split_and!; try done. by apply Hau.
    + apply build_href_no_space; cbn; done || constructor.
Qed.

Lemma serialize_authority_delim u : authority_wf u → none_of is_delim (serialize_authority u).
Proof.
  intros [_ _ _ _ (? & ? & ? & ?)]. unfold serialize_authority.
  repeat match goal with
  | |- none_of _ (_ ++ _) => apply none_of_app; split
  | |- none_of _ (if ?b then _ else _) => destruct b
  | |- none_of _ (_ :: _) => apply none_of_const_cons; [reflexivity|]
  | |- none_of _ (lit _) => repeat constructor
  | |- none_of _ [] => constructor
  end; assumption.
Qed.

(** Parsing a printed scheme and authority followed by any tail that starts at
    a delimiter. *)
Lemma parse_authority_tail u tail :
  url_wf u → has_authority u = true →
  (∀ c t, tail = c :: t → is_delim c = true) →
  parse_absolute (scheme u ++ lit "://" ++ serialize_authority u ++ tail) =
    if contains_ascii_whitespace (scheme u ++ lit "://" ++ serialize_authority u ++ tail) then Err url_invalid
    else
      let parsed := parse_tail tail (set_tail [] [] [] (set_href [] u)) in
      Ok (set_href (build_href parsed) parsed).
Proof.
  intros [Hv Hlow Hau _ _ _ _ _] Ha Ht. unfold parse_absolute.
  set (input := scheme u ++ _) in *.
  assert (Hin : input = scheme u ++ ":"%char :: lit "//" ++ serialize_authority u ++ tail) by done.
  rewrite bool_decide_eq_false_2 by (rewrite Hin; by intros [_ ?]%app_eq_nil).
  cbn [orb]. destruct (contains_ascii_whitespace input); [done|].
  rewrite Hin. unfold find_char.
  rewrite find_if_here by (by apply valid_scheme_no_colon || by rewrite is_char_refl).
  rewrite take_app_length, drop_S_app, Hlow. cbv zeta. cbn [scheme set_scheme]. rewrite Hv. cbn [negb].
  destruct (Hau Ha) as [Hwf _]. rewrite starts_with_app.
  replace (drop 2 (lit "//" ++ serialize_authority u ++ tail)) with (serialize_authority u ++ tail) by done.
  rewrite first_of_or_end_here by (by apply serialize_authority_delim || exact Ht).
  rewrite take_app_length, drop_app_length, parse_authority_print by done.
  replace (set_port (port u) _) with (set_tail [] [] [] (set_href [] u)); [done|].
  clear -Ha. destruct u; cbn in *. by subst.
Qed.

(** Reading back the printed form of a well-formed URL. *)
Lemma parse_href u : url_wf u → parse_absolute (href u) = Ok u.
Proof.
  intros Hwf. pose proof Hwf as [Hv Hlow Hau Hno Hpath Hquery Hsp Hhref]. rewrite Hhref in *.
  set (tail := path u ++ query_suffix (query u) ++ fragment_suffix (fragment u)).
  destruct (has_authority u) eqn:Ha.
  - destruct (Hau eq_refl) as [_ [t Hp]].
    assert (Heq : build_href u = scheme u ++ lit "://" ++ serialize_authority u ++ tail).
    { unfold build_href. subst tail. rewrite Ha. by rewrite <-?app_assoc. }
    rewrite Heq in *. rewrite parse_authority_tail; [|done..|].
    2: { subst tail. rewrite Hp. by intros c t' [= <- _]. }
    rewrite Hsp. subst tail. rewrite parse_tail_print; [|done|done|intros _; by rewrite Hp].
    cbv zeta. f_equal. rewrite <-Heq in Hhref. clear -Hhref Ha. destruct u; cbn in *. subst.
    unfold set_href; cbn. f_equal. symmetry. exact Hhref.
  - unfold parse_absolute. rewrite Hsp.
    pose proof (valid_scheme_no_colon _ Hv) as Hcol.
    assert (Heq : build_href u = scheme u ++ ":"%char :: tail).
    { unfold build_href. subst tail. by rewrite Ha. }
    rewrite Heq. rewrite bool_decide_eq_false_2 by (by intros [_ ?]%app_eq_nil).
    cbn [orb]. unfold find_char. rewrite find_if_here by (done || by rewrite is_char_refl).
    rewrite take_app_length, drop_S_app, Hlow. cbv zeta. cbn [scheme set_scheme]. rewrite Hv. cbn [negb].
    destruct (Hno eq_refl) as (H1 & H2 & H3 & H4 & H5 & H6 & H7).
    assert (Hs : starts_with tail (lit "//") = false).
    { apply not_true_iff_false. intros [t Ht]%starts_with_spec.
      apply not_true_iff_false in H7. apply H7. apply starts_with_spec.
      subst tail. clear -Ht Hpath. set (rest := query_suffix _ ++ _) in *.
      assert (Hr : ∀ c s, rest = c :: s → is_char "/" c = false).
      { subst rest. destruct (query u), (fragment u); cbn; by intros c s [= <- _]. }
      destruct (path u) as [|c [|d p]]; cbn in Ht; [| |].
      - destruct rest as [|c r]; [done|]. injection Ht as -> _. by specialize (Hr _ _ eq_refl).
      - injection Ht as -> Ht. destruct rest as [|d r]; [done|]. injection Ht as -> _.
        by specialize (Hr _ _ eq_refl).
      - injection Ht as -> -> _. by exists p. }
    rewrite Hs. subst tail. rewrite parse_tail_print by (done || by cbn).
    f_equal. clear -Hhref Ha H1 H2 H3 H4 H5 H6. destruct u; cbn in *. subst.
    unfold set_href; cbn. f_equal. symmetry. exact Hhref.
Qed.

(** ** Theorems *)

(** C20: every URL that [parse_absolute] accepts is well formed: the scheme is a
    lower-case RFC 3986 scheme; with an authority the host name is non-empty,
    [host] is the host name or its bracketed form, no ['@'] is left in host or
    port, no [/], [?], [#] in any authority part and the path starts with
    ['/']; without an authority the authority fields are empty and the path
    does not start with ["//"]; path and query contain no [?] or [#] that
    would end them; [href] is the printed form and has no white space. *)
Theorem parse_absolute_wf (input : str) (u : url) :
  parse_absolute input = Ok u → url_wf u.
Proof. apply url_wf_of_parse. Qed.

Lemma parse_absolute_wf_witness :
  parse_absolute (lit "https://u:p@Host:8443/a?b#c") =
    Ok (Url (lit "https://u:p@host:8443/a?b#c") (lit "https") (lit "u") (lit "p") (lit "host") (lit "host")
          (lit "8443") (lit "/a") (lit "b") (lit "c") true false) ∧
  url_wf (Url (lit "https://u:p@host:8443/a?b#c") (lit "https") (lit "u") (lit "p") (lit "host") (lit "host")
          (lit "8443") (lit "/a") (lit "b") (lit "c") true false).
Proof.
  split; [vm_compute; reflexivity|].
  apply (parse_absolute_wf (lit "https://u:p@Host:8443/a?b#c")). vm_compute. reflexivity.
Defined.

(** C19: parsing is stable under printing: the [href] of a parsed URL parses,
    to the same URL in every field. *)
Theorem parse_href_roundtrip (input : str) (u : url) :
  parse_absolute input = Ok u → parse_absolute (href u) = Ok u.
Proof. intros H. by apply parse_href, (url_wf_of_parse input). Qed.

Lemma parse_href_roundtrip_witness :
  let u := Url (lit "ws://a@[::1]/?q") (lit "ws") (lit "a") [] (lit "[::1]") (lit "::1")
             [] (lit "/") (lit "q") [] true true in
  parse_absolute (lit "WS://a:@[::1]:?q#") = Ok u ∧ parse_absolute (href u) = Ok u.
Proof.
  intros u. split; [vm_compute; reflexivity|].
  apply (parse_href_roundtrip (lit "WS://a:@[::1]:?q#")). vm_compute. reflexivity.
Defined.

(** [base] with the authority part kept. *)
Definition same_authority (u b : url) : Prop :=
  scheme u = scheme b ∧ username u = username b ∧ password u = password b ∧
  host u = host b ∧ hostname u = hostname b ∧ port u = port b ∧
  has_authority u = has_authority b ∧ host_is_ip_literal_ u = host_is_ip_literal_ b.

(** The reference built for a relative input: the base's authority, then a
    tail that starts with ['/'] and has white space only where the input has. *)
Lemma relative_reference_spaces input b :
  url_wf b → has_authority b = true → starts_with input (lit "//") = false →
  ∃ t, relative_reference input b = scheme b ++ lit "://" ++ serialize_authority b ++ "/"%char :: t ∧
    contains_ascii_whitespace (scheme b ++ lit "://" ++ serialize_authority b ++ "/"%char :: t) =
      contains_ascii_whitespace input.
Proof.
  intros Hwf Ha Hs. destruct (uwf_authority _ Hwf Ha) as [_ [t Hp]].
  pose proof (uwf_space _ Hwf) as Hsp. rewrite (uwf_href _ Hwf) in Hsp.
  unfold build_href in Hsp. rewrite Ha, Hp in Hsp. unfold contains_ascii_whitespace in *.
  rewrite !existsb_app in Hsp. cbn in Hsp.
  repeat (apply orb_false_iff in Hsp as [? Hsp]).
  assert (Hpre : ∀ s, existsb is_ascii_whitespace (scheme b ++ lit "://" ++ serialize_authority b ++ s) =
                      existsb is_ascii_whitespace s).
  { intros s. rewrite !existsb_app. cbn. by repeat match goal with H : _ = false |- _ => rewrite H end. }
  unfold relative_reference. rewrite Hs.
  destruct (starts_with input (lit "/")) eqn:Hsl.
  - apply starts_with_spec in Hsl as [t' ->]. exists t'. split; [done|]. by rewrite Hpre.
  - rewrite Hp. destruct (rfind_char "/" ("/"%char :: t)) as [i|].
    + exists (take i t ++ input). split; [done|]. rewrite Hpre. cbn. rewrite existsb_app.
      assert (Ht : existsb is_ascii_whitespace (take i t) = false); [|by rewrite Ht].
      apply existsb_none_of, none_of_take, existsb_none_of. assumption.
    + exists input. split; [done|]. by rewrite Hpre.
Qed.

(** a relative reference cannot leave the authority of its base.  For a
    base with an authority and an input that has no scheme of its own and does
    not start with ["//"], resolution either fails because of white space in
    the input or yields a URL with the base's scheme, credentials, host and
    port. *)
Theorem relative_resolution_same_authority (input base : str) (b : url) :
  parse_absolute base = Ok b → has_authority b = true →
  has_absolute_scheme input = false → starts_with input (lit "//") = false →
  if contains_ascii_whitespace input then parse_url_base input base = Err url_invalid
  else ∃ u, parse_url_base input base = Ok u ∧ same_authority u b.
Proof.
  intros Hb Ha Habs Hs. pose proof (url_wf_of_parse _ _ Hb) as Hwf.
  unfold parse_url_base. rewrite Habs, Hb. destruct input as [|c input']; [by exists b|].
  destruct (relative_reference_spaces (c :: input') b Hwf Ha Hs) as (t & -> & <-).
  rewrite parse_authority_tail by (done || by intros ?? [= <- _]).
  destruct (contains_ascii_whitespace _); [done|]. cbv zeta. eexists. split; [done|].
  match goal with |- context [parse_tail ?r ?p] => destruct (parse_tail_spec r p) as (pa & q & f & -> & _) end.
  by unfold same_authority.
Qed.

Lemma relative_resolution_same_authority_witness :
  ∃ b u, parse_absolute (lit "https://api.example.com/v1/index.html") = Ok b ∧
    parse_url_base (lit "users/42:edit") (lit "https://api.example.com/v1/index.html") = Ok u ∧
    same_authority u b.
Proof.
  eexists. assert (H : ∃ b, parse_absolute (lit "https://api.example.com/v1/index.html") = Ok b ∧ has_authority b = true)
    by (eexists; split; vm_compute; reflexivity).
  destruct (relative_resolution_same_authority (lit "users/42:edit")
    (lit "https://api.example.com/v1/index.html") _ ltac:(vm_compute; reflexivity) eq_refl eq_refl eq_refl)
    as (u & Hu & Hs).
  exists u. split_and!; [vm_compute; reflexivity|exact Hu|exact Hs].
Defined.

(** A base without an authority does not have that guarantee: the first segment
    of its path becomes the host of the result. *)
Example opaque_base_gains_host :
  match parse_absolute (lit "x:foo/bar"), parse_url_base (lit "z") (lit "x:foo/bar") with
  | Ok b, Ok u => has_authority b = false ∧ host b = [] ∧ has_authority u = true ∧ hostname u = lit "foo"
  | _, _ => False
  end.
Proof. vm_compute. done. Qed.

(** [parse_port] accepts exactly the numbers that fit in 16 bits: printed
    port numbers up to 65535 are read back, larger ones, also beyond the 32 bits
    of the accumulator, are rejected. *)
Theorem parse_port_to_string (n : N) :
  parse_port (to_string n) = if (n <=? 65535)%N then Ok (Z.of_N n) else Err invalid_port.
Proof.
  unfold parse_port, to_string, to_chars.
  destruct (to_digits_value (S (N.size_nat n)) 10 n) as (Hv & Hd & Hne); [lia..|].
  assert (Htd : take_digits 10 (map digit_char (to_digits (S (N.size_nat n)) 10 n)) =
                (to_digits (S (N.size_nat n)) 10 n, [])).
  { rewrite <-(app_nil_r (map _ _)). by apply take_digits_map. }
  unfold from_chars_unsigned. rewrite Htd.
  destruct (to_digits (S (N.size_nat n)) 10 n) as [|d ds]; [done|]. cbn [map].
  cbv zeta. rewrite Hv. destruct (Z.ltb_spec (Z.of_N n) (2 ^ 32)) as [Hlt|Hge].
  - destruct (N.leb_spec n 65535), (Z.gtb_spec (Z.of_N n) 65535); done || lia.
  - destruct (N.leb_spec n 65535); [lia|done].
Qed.

Lemma parse_port_bound v p : parse_port v = Ok p → (0 <= p < 65536)%Z.
Proof.
  unfold parse_port. destruct v as [|c v]; [done|].
  destruct (from_chars_unsigned 32 10 (c :: v)) as [n [|]| |] eqn:E; try done.
  apply from_chars_unsigned_bound in E. destruct (Z.gtb_spec n 65535); intros [= <-]. lia.
Qed.

(** The port that a connection uses is a 16-bit number, whether it is
    explicit or the scheme's default; the same value goes into the endpoint and
    the origin key. *)
Theorem effective_port_bounds (u : url) (p : Z) :
  effective_port u = Ok p →
  (0 <= p < 65536)%Z ∧
  (∀ e, authority_endpoint u = Ok e → ep_port e = p) ∧ (∀ o, origin_from_url u = Ok o → or_port o = p).
Proof.
  intros H. split; [|split].
  - unfold effective_port in H. destruct (has_port u); [by eapply parse_port_bound|].
    unfold default_port in H. by destruct (scheme_id u); simplify_eq.
  - intros e. unfold authority_endpoint. rewrite H. destruct (_ || _); by intros [= <-].
  - intros o. unfold origin_from_url. rewrite H. destruct (_ || _); by intros [= <-].
Qed.

Lemma effective_port_bounds_witness :
  let u := Url (lit "wss://h/") (lit "wss") [] [] (lit "h") (lit "h") [] (lit "/") [] [] true false in
  parse_absolute (lit "wss://h") = Ok u ∧ effective_port u = Ok 443%Z ∧ (0 <= 443 < 65536)%Z.
Proof.
  intros u. split_and!; [vm_compute; reflexivity|vm_compute; reflexivity| |];
    apply (effective_port_bounds u); vm_compute; reflexivity.
Defined.

(** the absolute-form request target (sent to a proxy) of a URL with an
    authority parses back to the same URL without its fragment. *)
Theorem absolute_form_target_roundtrip (input : str) (u : url) :
  parse_absolute input = Ok u → has_authority u = true →
  parse_absolute (absolute_form_target u) =
    Ok (set_href (absolute_form_target u) (set_tail (path u) (query u) [] u)).
Proof.
  intros Hin Ha. pose proof (url_wf_of_parse _ _ Hin) as [Hv Hlow Hau Hno Hpath Hquery Hsp Hhref].
  destruct (Hau Ha) as [Hwf [t Hp]].
  set (u' := set_href (absolute_form_target u) (set_tail (path u) (query u) [] u)).
  assert (Hb : build_href u' = absolute_form_target u).
  { unfold absolute_form_target, origin_form_target, build_href. cbn. by rewrite Hp, Ha, !app_nil_r. }
  change (absolute_form_target u) with (href u') at 1. apply parse_href. constructor; cbn; try done.
  - intros _. split; [by destruct Hwf; constructor|eauto].
  - rewrite <-Hb. rewrite Hhref in Hsp. unfold contains_ascii_whitespace, build_href in *. cbn in *.
    rewrite existsb_none_of in *. rewrite Ha in *.
    repeat match goal with
    | H : none_of _ (_ ++ _) |- _ => apply none_of_app in H as [??]
    | H : none_of _ (_ :: _) |- _ => apply none_of_cons in H as [??]
    end.
    change (serialize_authority u') with (serialize_authority u).
    repeat first [assumption | apply none_of_app; split | apply none_of_cons; split]; try (done || constructor).
Qed.

Lemma absolute_form_target_roundtrip_witness :
  let u := Url (lit "http://h:81/a?q=1#frag") (lit "http") [] [] (lit "h") (lit "h") (lit "81") (lit "/a")
             (lit "q=1") (lit "frag") true false in
  parse_absolute (href u) = Ok u ∧
    parse_absolute (absolute_form_target u) =
      Ok (set_href (absolute_form_target u) (set_tail (path u) (query u) [] u)).
Proof.
  intros u. split; [vm_compute; reflexivity|].
  apply (absolute_form_target_roundtrip (href u)); vm_compute; reflexivity.
Defined.

(** The IPv4 test reads each segment as a signed integer, so a minus sign is
    accepted. *)
Example ipv4_literal_accepts_minus_sign : looks_like_ipv4_literal (lit "1.2.3.-4") = true.
Proof. vm_compute. reflexivity. Qed.
