(* ===== verification/Http.v ===== *)
(** * HTTP vocabulary: methods, status codes, header fields, route parameters

    [src/http/method.cpp], [src/http/status.cpp], [src/http/headers.cpp],
    [src/http/route_params.cpp] and their headers.  [headers] and
    [route_params] are vectors of name and value pairs searched from the
    front; a header name is compared without case. *)

From S2P Require Import Prelude Text.

(** ** Methods *)

Inductive method :=
| m_get | m_head | m_post | m_put | m_delete | m_connect | m_options | m_trace | m_patch | m_unknown.

#[global] Instance method_eq_dec : EqDecision method.
Proof. solve_decision. Defined.

(** [static_cast<std::size_t>(method)]. *)
Definition method_index (m : method) : nat :=
  match m with
  | m_get => 0 | m_head => 1 | m_post => 2 | m_put => 3 | m_delete => 4
  | m_connect => 5 | m_options => 6 | m_trace => 7 | m_patch => 8 | m_unknown => 9
  end.

Definition method_to_string (m : method) : str :=
  match m with
  | m_get => lit "GET" | m_head => lit "HEAD" | m_post => lit "POST" | m_put => lit "PUT"
  | m_delete => lit "DELETE" | m_connect => lit "CONNECT" | m_options => lit "OPTIONS"
  | m_trace => lit "TRACE" | m_patch => lit "PATCH" | m_unknown => lit "UNKNOWN"
  end.

#[global] Instance method_index_inj : Inj (=) (=) method_index.
Proof. by intros [] []. Qed.

(** ** Status codes *)

Definition reason_phrase (code : Z) : str :=
  match code with
  | 200%Z => lit "OK" | 201%Z => lit "Created" | 204%Z => lit "No Content"
  | 301%Z => lit "Moved Permanently" | 302%Z => lit "Found" | 304%Z => lit "Not Modified"
  | 400%Z => lit "Bad Request" | 401%Z => lit "Unauthorized" | 403%Z => lit "Forbidden"
  | 404%Z => lit "Not Found" | 405%Z => lit "Method Not Allowed" | 408%Z => lit "Request Timeout"
  | 409%Z => lit "Conflict" | 413%Z => lit "Payload Too Large" | 415%Z => lit "Unsupported Media Type"
  | 422%Z => lit "Unprocessable Content" | 429%Z => lit "Too Many Requests"
  | 502%Z => lit "Bad Gateway" | 503%Z => lit "Service Unavailable"
  | 500%Z => lit "Internal Server Error" | 501%Z => lit "Not Implemented"
  | _ => []
  end.

(** ** Header fields *)

Definition headers := list (str * str).

(** [headers::names_equal]: same length and equal bytes up to [std::tolower]. *)
Fixpoint same_letters (lhs rhs : str) : bool :=
  match lhs, rhs with
  | l :: lhs', r :: rhs' => Ascii.eqb (tolower l) (tolower r) && same_letters lhs' rhs'
  | _, _ => true
  end.

Definition names_equal (lhs rhs : str) : bool :=
  if (length lhs =? length rhs) then same_letters lhs rhs else false.

Definition headers_add (hs : headers) (name value : str) : headers := hs ++ [(name, value)].

Fixpoint headers_assign (hs : headers) (name value : str) : option headers :=
  match hs with
  | [] => None
  | (n, v) :: hs' =>
    if names_equal n name then Some ((n, value) :: hs')
    else cons (n, v) <$> headers_assign hs' name value
  end.

Definition headers_set (hs : headers) (name value : str) : headers :=
  match headers_assign hs name value with
  | Some hs' => hs'
  | None => headers_add hs name value
  end.

Fixpoint headers_get (hs : headers) (name : str) : str :=
  match hs with
  | [] => []
  | (n, v) :: hs' => if names_equal n name then v else headers_get hs' name
  end.

Fixpoint headers_contains (hs : headers) (name : str) : bool :=
  match hs with
  | [] => false
  | (n, _) :: hs' => if names_equal n name then true else headers_contains hs' name
  end.

(** ** Route parameters *)

Definition route_params := list (str * str).

Fixpoint params_assign (ps : route_params) (name value : str) : option route_params :=
  match ps with
  | [] => None
  | (n, v) :: ps' =>
    if bool_decide (n = name) then Some ((n, value) :: ps')
    else cons (n, v) <$> params_assign ps' name value
  end.

Definition params_set (ps : route_params) (name value : str) : route_params :=
  match params_assign ps name value with
  | Some ps' => ps'
  | None => ps ++ [(name, value)]
  end.

Fixpoint params_get (ps : route_params) (name : str) : str :=
  match ps with
  | [] => []
  | (n, v) :: ps' => if bool_decide (n = name) then v else params_get ps' name
  end.

(** ** Lemmas *)

Lemma names_equal_spec lhs rhs : names_equal lhs rhs = true ↔ lowercase lhs = lowercase rhs.
Proof.
  unfold names_equal. split.
  - destruct (length lhs =? length rhs) eqn:Hlen; [|done]. apply Nat.eqb_eq in Hlen.
    revert rhs Hlen. induction lhs as [|l lhs IH]; intros [|r rhs] Hlen; try done.
    simpl in Hlen. cbn [same_letters]. rewrite andb_true_iff, Ascii.eqb_eq.
    intros [Hh Ht]. cbn. f_equal; [done|]. apply IH; [lia|done].
  - intros H. assert (Hlen : length lhs = length rhs).
    { rewrite <-(length_lowercase lhs), H. apply length_lowercase. }
    rewrite Hlen, Nat.eqb_refl. clear Hlen.
    revert rhs H. induction lhs as [|l lhs IH]; intros [|r rhs] H; try done.
    injection H as Hh Ht. cbn [same_letters]. rewrite Hh, Ascii.eqb_refl. by apply IH.
Qed.

Lemma names_equal_refl n : names_equal n n = true.
Proof. by apply names_equal_spec. Qed.

Lemma names_equal_sym n m : names_equal n m = names_equal m n.
Proof. apply eq_iff_eq_true. rewrite !names_equal_spec. done. Qed.

Lemma names_equal_trans_l n m k : names_equal n m = true → names_equal n k = names_equal m k.
Proof.
  intros H%names_equal_spec. apply eq_iff_eq_true. rewrite !names_equal_spec. by rewrite H.
Qed.

Lemma names_equal_trans_r n m k : names_equal m k = true → names_equal n m = names_equal n k.
Proof.
  intros H%names_equal_spec. apply eq_iff_eq_true. rewrite !names_equal_spec. by rewrite H.
Qed.

Lemma headers_get_app hs hs' name :
  headers_get (hs ++ hs') name = if headers_contains hs name then headers_get hs name else headers_get hs' name.
Proof. induction hs as [|[n v] hs IH]; cbn; [done|]. by destruct (names_equal n name). Qed.

Lemma headers_contains_app hs hs' name :
  headers_contains (hs ++ hs') name = headers_contains hs name || headers_contains hs' name.
Proof. induction hs as [|[n v] hs IH]; cbn; [done|]. by destruct (names_equal n name). Qed.

Lemma headers_assign_None hs name value :
  headers_assign hs name value = None ↔ headers_contains hs name = false.
Proof.
  induction hs as [|[n v] hs IH]; cbn; [done|]. destruct (names_equal n name); [done|].
  rewrite <-IH. by destruct (headers_assign hs name value).
Qed.

(** [set] then [get], for the name set and for every other name. *)
Lemma headers_get_set hs name value name' :
  headers_get (headers_set hs name value) name' =
    if names_equal name name' then value else headers_get hs name'.
Proof.
  unfold headers_set. destruct (headers_assign hs name value) as [hs'|] eqn:E.
  - revert hs' E. induction hs as [|[n v] hs IH]; intros hs'; cbn; [done|].
    destruct (names_equal n name) eqn:Hn.
    + intros [= <-]. cbn. rewrite <-(names_equal_trans_l _ _ name' Hn).
      by destruct (names_equal n name').
    + destruct (headers_assign hs name value) as [hs1|]; [|done]. intros [= <-]. cbn.
      rewrite (IH hs1 eq_refl). destruct (names_equal n name') eqn:Hn'; [|done].
      destruct (names_equal name name') eqn:Hnn; [|done].
      rewrite names_equal_spec in Hn', Hnn. rewrite <-not_true_iff_false, names_equal_spec in Hn. congruence.
  - apply headers_assign_None in E. unfold headers_add. rewrite headers_get_app. cbn.
    destruct (headers_contains hs name') eqn:Hc.
    + destruct (names_equal name name') eqn:Hn; [|done].
      assert (headers_contains hs name = headers_contains hs name') as Heq; [|congruence].
      clear -Hn. induction hs as [|[n v] hs IH]; cbn; [done|].
      rewrite (names_equal_trans_r n _ _ Hn). by destruct (names_equal n name').
    + destruct (names_equal name name'); [done|].
      clear -Hc. induction hs as [|[n v] hs IH]; cbn in *; [done|]. destruct (names_equal n name'); [done|by apply IH].
Qed.

Lemma headers_contains_set hs name value name' :
  headers_contains (headers_set hs name value) name' = names_equal name name' || headers_contains hs name'.
Proof.
  unfold headers_set. destruct (headers_assign hs name value) as [hs'|] eqn:E.
  - revert hs' E. induction hs as [|[n v] hs IH]; intros hs'; cbn; [done|].
    destruct (names_equal n name) eqn:Hn.
    + intros [= <-]. cbn. rewrite <-(names_equal_trans_l _ _ name' Hn).
      by destruct (names_equal n name').
    + destruct (headers_assign hs name value) as [hs1|]; [|done]. intros [= <-]. cbn.
      rewrite (IH hs1 eq_refl). destruct (names_equal n name'); [by rewrite orb_true_r|done].
  - unfold headers_add. rewrite headers_contains_app. cbn.
    destruct (names_equal name name'); [by rewrite orb_true_r|by rewrite orb_false_r].
Qed.

Lemma params_get_set ps name value name' :
  params_get (params_set ps name value) name' =
    if bool_decide (name = name') then value else params_get ps name'.
Proof.
  unfold params_set. destruct (params_assign ps name value) as [ps'|] eqn:E.
  - revert ps' E. induction ps as [|[n v] ps IH]; intros ps'; cbn; [done|].
    destruct (bool_decide (n = name)) eqn:Hn; breflect.
    + intros [= <-]. subst. cbn. by repeat case_bool_decide.
    + destruct (params_assign ps name value) as [ps1|]; [|done]. intros [= <-]. cbn.
      rewrite (IH ps1 eq_refl). repeat case_bool_decide; congruence.
  - revert E. induction ps as [|[n v] ps IH]; cbn; [by repeat case_bool_decide|].
    destruct (bool_decide (n = name)) eqn:Hn; breflect; [done|]. destruct (params_assign ps name value); [done|]. intros _.
    rewrite IH by done. repeat case_bool_decide; congruence.
Qed.

Lemma params_assign_names ps name value :
  match params_assign ps name value with
  | Some ps' => ps'.*1 = ps.*1 ∧ name ∈ ps.*1
  | None => name ∉ ps.*1
  end.
Proof.
  induction ps as [|[n v] ps IH]; [apply not_elem_of_nil|].
  cbn [params_assign]. rewrite fmap_cons. case_bool_decide as Hn; [subst; set_solver|].
  destruct (params_assign ps name value) as [ps'|]; cbn [fmap option_fmap option_map].
  - destruct IH as [IH1 IH2]. rewrite fmap_cons, IH1. set_solver.
  - set_solver.
Qed.

(** The names keep the order in which they were first set. *)
Lemma params_set_names ps name value :
  (params_set ps name value).*1 = if bool_decide (name ∈ ps.*1) then ps.*1 else ps.*1 ++ [name].
Proof.
  unfold params_set. pose proof (params_assign_names ps name value) as H.
  destruct (params_assign ps name value).
  - destruct H. by rewrite bool_decide_eq_true_2.
  - by rewrite bool_decide_eq_false_2, fmap_app.
Qed.

(** ** Theorems *)

(** a header set is readable under any spelling of its name, every other
    name keeps its value, and a set never adds a second entry for a name that is
    already there (it only grows the vector for a new name). *)
Theorem headers_set_spec (hs : headers) (name value name' : str) :
  headers_get (headers_set hs name value) name' =
    (if bool_decide (lowercase name = lowercase name') then value else headers_get hs name') ∧
  headers_contains (headers_set hs name value) name' =
    bool_decide (lowercase name = lowercase name') || headers_contains hs name' ∧
  length (headers_set hs name value) =
    if headers_contains hs name then length hs else S (length hs).
Proof.
  assert (Heq : names_equal name name' = bool_decide (lowercase name = lowercase name')).
  { apply eq_iff_eq_true. by rewrite names_equal_spec, bool_decide_eq_true. }
  rewrite <-Heq. split_and!; [apply headers_get_set|apply headers_contains_set|].
  unfold headers_set. destruct (headers_assign hs name value) as [hs'|] eqn:E.
  - revert hs' E. induction hs as [|[n v] hs IH]; intros hs'; cbn; [done|].
    destruct (names_equal n name) eqn:Hn; [by intros [= <-]|].
    destruct (headers_assign hs name value) as [hs1|]; [|done]. intros [= <-]. cbn.
    rewrite (IH hs1 eq_refl). by destruct (headers_contains hs name).
  - apply headers_assign_None in E. rewrite E. unfold headers_add. rewrite length_app. simpl. lia.
Qed.
