(* ===== verification/UrlEncoding.v ===== *)
(** * Percent encoding

    [hex_value] of [src/http/detail/url_encoding.hpp] and what the two decoders
    (of path segments and of query components) share: the byte built from two
    hexadecimal digits, and a reference encoder to state the round trips
    with. *)

From S2P Require Import Prelude Text.

(** The value of a hexadecimal digit, -1 for any other byte. *)
Definition hex_value (value : ascii) : Z :=
  let n := Z.of_N (code value) in
  if ((48 <=? n) && (n <=? 57))%Z then (n - 48)%Z
  else if ((97 <=? n) && (n <=? 102))%Z then (n - 97 + 10)%Z
  else if ((65 <=? n) && (n <=? 70))%Z then (n - 65 + 10)%Z
  else (-1)%Z.

(** [static_cast<char>((high << 4) | low)]. *)
Definition hex_byte (high low : Z) : ascii :=
  ascii_of_N (Z.to_N (Z.lor (Z.shiftl high 4) low)).

(** The reference encoder: bytes that [keep] rejects are written as ['%'] and
    two hexadecimal digits. *)
Definition percent_byte (c : ascii) : str :=
  ["%"%char; digit_char (code c / 16); digit_char (code c mod 16)].

Definition percent_encode (keep : ascii → bool) (s : str) : str :=
  concat (map (λ c, if keep c then [c] else percent_byte c) s).

Lemma hex_value_range c : (-1 <= hex_value c < 16)%Z.
Proof.
  assert (H : ((-1 <=? hex_value c) && (hex_value c <? 16))%Z = true).
  { revert c. refine (ascii_forallb (λ c, ((-1 <=? hex_value c) && (hex_value c <? 16))%Z) _).
    vm_compute. reflexivity. }
  breflect. lia.
Qed.

Lemma percent_byte_decode c :
  ∃ h l, percent_byte c = ["%"%char; h; l] ∧ (0 <= hex_value h)%Z ∧ (0 <= hex_value l)%Z ∧
    hex_byte (hex_value h) (hex_value l) = c.
Proof.
  set (h := digit_char (code c / 16)). set (l := digit_char (code c mod 16)).
  exists h, l. split; [done|].
  assert (H : ((0 <=? hex_value h) && (0 <=? hex_value l))%Z &&
              Ascii.eqb (hex_byte (hex_value h) (hex_value l)) c = true).
  { subst h l. revert c.
    refine (ascii_forallb (λ c,
      ((0 <=? hex_value (digit_char (code c / 16))) && (0 <=? hex_value (digit_char (code c mod 16))))%Z &&
      Ascii.eqb (hex_byte (hex_value (digit_char (code c / 16))) (hex_value (digit_char (code c mod 16)))) c) _).
    vm_compute. reflexivity. }
  breflect. split_and!; [done..|by apply Ascii.eqb_eq].
Qed.

Lemma percent_encode_cons keep c s :
  percent_encode keep (c :: s) = (if keep c then [c] else percent_byte c) ++ percent_encode keep s.
Proof. done. Qed.

(** An encoded string contains a byte [d] that is not a hexadecimal digit nor
    ['%'] only if [keep] lets it through. *)
Lemma percent_encode_avoids keep d s :
  keep d = false → is_char "%" d = false → (hex_value d < 0)%Z →
  none_of (is_char d) (percent_encode keep s).
Proof.
  intros Hk Hp Hd. induction s as [|c s IH]; [constructor|]. rewrite percent_encode_cons.
  apply none_of_app. split; [|done].
  destruct (keep c) eqn:Hc.
  - apply none_of_cons. split; [|constructor]. apply is_char_false. congruence.
  - destruct (percent_byte_decode c) as (h & l & -> & Hh & Hl & _).
    assert (∀ x, (0 <= hex_value x)%Z → is_char d x = false) as Hx.
    { intros x Hx. apply is_char_false. intros ->. lia. }
    apply is_char_false in Hp.
    repeat (apply none_of_cons; split); [apply is_char_false; congruence|by apply Hx..|constructor].
Qed.

Lemma percent_encode_nil keep s : percent_encode keep s = [] → s = [].
Proof. destruct s as [|c s]; [done|]. rewrite percent_encode_cons. by destruct (keep c). Qed.
