(* ===== verification/RoutePath.v ===== *)
(** * Route paths

    [src/http/route_path.cpp] and [include/uvpp/protocols/http/detail/route_path.hpp]:
    a request path or a route pattern cut at ['/'] into its non-empty segments,
    each kept raw and percent-decoded.  One segment that does not decode makes
    the whole path invalid. *)

From S2P Require Import Prelude Text UrlEncoding.

Inductive route_path_matching := matching_raw | matching_percent_decoded_segments.

#[global] Instance route_path_matching_eq_dec : EqDecision route_path_matching.
Proof. solve_decision. Defined.

Record route_path := RoutePath {
  raw_segments : list str;
  decoded_segments : list str;
  valid : bool
}.

(** [route_path::segments(matching)]. *)
Definition selected_segments (p : route_path) (matching : route_path_matching) : list str :=
  match matching with
  | matching_raw => raw_segments p
  | matching_percent_decoded_segments => decoded_segments p
  end.

(** The decoded segment, or [None] where the source returns [false]: a ['%']
    without two bytes after it or with a byte that is not a hexadecimal
    digit. *)
Fixpoint decode_path_segment (segment : str) : option str :=
  match segment with
  | [] => Some []
  | value :: rest =>
    if negb (is_char "%" value) then cons value <$> decode_path_segment rest
    else
      match rest with
      | h :: l :: rest' =>
        let high := hex_value h in
        let low := hex_value l in
        if ((high <? 0) || (low <? 0))%Z then None
        else cons (hex_byte high low) <$> decode_path_segment rest'
      | _ => None
      end
  end.

(** The loop body over the segments that [find('/', offset)] delimits. *)
Fixpoint parse_route_segments (segs : list str) (parsed : route_path) : route_path :=
  match segs with
  | [] => parsed
  | segment :: segs' =>
    if bool_decide (segment = []) then parse_route_segments segs' parsed
    else
      match decode_path_segment segment with
      | None => RoutePath (raw_segments parsed) (decoded_segments parsed) false
      | Some decoded =>
        parse_route_segments segs'
          (RoutePath (raw_segments parsed ++ [segment]) (decoded_segments parsed ++ [decoded]) (valid parsed))
      end
  end.

Definition parse_route_path (path : str) : route_path :=
  parse_route_segments (segments "/" path) (RoutePath [] [] true).

(** [join_route_segments(segments, first)]. *)
Definition join_route_segments (segs : list str) (first : nat) : str := join_with "/" (drop first segs).

(** ** Lemmas *)

Lemma decode_path_segment_cons c s :
  is_char "%" c = false → decode_path_segment (c :: s) = cons c <$> decode_path_segment s.
Proof. intros H. cbn. by rewrite H. Qed.

Lemma decode_path_segment_percent c s :
  decode_path_segment (percent_byte c ++ s) = cons c <$> decode_path_segment s.
Proof.
  destruct (percent_byte_decode c) as (h & l & -> & Hh & Hl & Hb).
  cbn [app decode_path_segment]. rewrite is_char_refl. cbn [negb].
  destruct (Z.ltb_spec (hex_value h) 0), (Z.ltb_spec (hex_value l) 0); try lia.
  cbn [orb]. by rewrite Hb.
Qed.

Lemma decode_path_segment_encode keep s :
  keep "%"%char = false → decode_path_segment (percent_encode keep s) = Some s.
Proof.
  intros Hk. induction s as [|c s IH]; [done|]. rewrite percent_encode_cons.
  destruct (keep c) eqn:Hc.
  - cbn [app]. rewrite decode_path_segment_cons; [by rewrite IH|].
    apply is_char_false. congruence.
  - by rewrite decode_path_segment_percent, IH.
Qed.

(** Reference form of the loop: decode every non-empty segment. *)
Lemma parse_route_segments_spec segs raw dec :
  let kept := filter (λ s, s ≠ []) segs in
  match mapM decode_path_segment kept with
  | Some ds => parse_route_segments segs (RoutePath raw dec true) = RoutePath (raw ++ kept) (dec ++ ds) true
  | None => valid (parse_route_segments segs (RoutePath raw dec true)) = false
  end.
Proof.
  revert raw dec. induction segs as [|s segs IH]; intros raw dec; cbv zeta in *.
  - cbn. by rewrite !app_nil_r.
  - cbn [parse_route_segments]. case_bool_decide as Hs.
    + rewrite filter_cons_False by (intros H; by apply H). apply IH.
    + rewrite filter_cons_True by done. cbn [mapM].
      destruct (decode_path_segment s) as [d|]; cbn; [|done].
      specialize (IH (raw ++ [s]) (dec ++ [d])).
      destruct (mapM decode_path_segment _) as [ds|]; cbn; [|done].
      by rewrite IH, <-!app_assoc.
Qed.

Record route_path_wf (p : route_path) : Prop := {
  rpw_length : length (raw_segments p) = length (decoded_segments p);
  rpw_nonempty : Forall (λ s, s ≠ []) (raw_segments p);
  rpw_slash : Forall (none_of (is_char "/")) (raw_segments p)
}.

Lemma parse_route_segments_wf segs parsed :
  Forall (none_of (is_char "/")) segs → route_path_wf parsed →
  route_path_wf (parse_route_segments segs parsed).
Proof.
  intros Hs. revert parsed. induction Hs as [|s segs Hs _ IH]; intros parsed Hp; cbn; [done|].
  case_bool_decide; [by apply IH|].
  destruct Hp as [H1 H2 H3]. destruct (decode_path_segment s).
  - apply IH. constructor; cbn.
    + rewrite !length_app. cbn. lia.
    + apply Forall_app. by repeat constructor.
    + apply Forall_app. by repeat constructor.
  - by constructor.
Qed.

Lemma parse_route_path_wf path : route_path_wf (parse_route_path path).
Proof.
  apply parse_route_segments_wf; [|by repeat constructor].
  rewrite segments_split_on. apply split_on_segments.
Qed.

Lemma selected_segments_length p matching :
  route_path_wf p → length (selected_segments p matching) = length (raw_segments p).
Proof. intros [H _ _]. by destruct matching. Qed.

#[export] Hint Resolve parse_route_path_wf : inv.

(** ** Theorems *)

(** encoding then parsing a path returns the segments: any list of
    non-empty byte strings, each percent-encoded by an encoder that escapes
    ['%'] and ['/'], joined with ['/'] after a leading slash, parses as valid
    with those encoded strings as raw segments and the original strings as
    decoded segments.  An escaped ['/'] therefore never splits a segment. *)
Theorem parse_route_path_encode (keep : ascii → bool) (segs : list str) :
  keep "%"%char = false → keep "/"%char = false → Forall (λ s, s ≠ []) segs →
  parse_route_path ("/"%char :: join_with "/" (map (percent_encode keep) segs)) =
    RoutePath (map (percent_encode keep) segs) segs true.
Proof.
  intros Hk Hsl Hne. unfold parse_route_path. rewrite segments_split_on.
  assert (Hc : Forall (none_of (is_char "/")) (map (percent_encode keep) segs)).
  { apply Forall_map, Forall_true. intros s. by apply percent_encode_avoids. }
  assert (Hf : filter (λ s, s ≠ []) (split_on "/" ("/"%char :: join_with "/" (map (percent_encode keep) segs))) =
               map (percent_encode keep) segs).
  { cbn [split_on]. rewrite is_char_refl, filter_cons_False by (intros H; by apply H).
    destruct segs as [|s segs]; [done|].
    rewrite split_join by (done || exact Hc).
    clear -Hne. induction Hne as [|x l Hx _ IH]; [done|]. cbn [map].
    rewrite filter_cons_True; [by rewrite IH|]. intros H. by apply percent_encode_nil in H. }
  pose proof (parse_route_segments_spec (split_on "/" ("/"%char :: join_with "/" (map (percent_encode keep) segs)))
    [] []) as H. cbv zeta in H. rewrite Hf in H.
  assert (Hm : mapM decode_path_segment (map (percent_encode keep) segs) = Some segs).
  { clear -Hk. induction segs as [|s segs IH]; [done|]. cbn.
    rewrite decode_path_segment_encode by done. cbn. by rewrite IH. }
  by rewrite Hm in H.
Qed.

Lemma parse_route_path_encode_witness :
  let keep := λ c, negb (one_of (lit "%/ ") c) in
  parse_route_path (lit "/a%2fb/c%20d") = RoutePath [lit "a%2fb"; lit "c%20d"] [lit "a/b"; lit "c d"] true ∧
  parse_route_path ("/"%char :: join_with "/" (map (percent_encode keep) [lit "a/b"; lit "c d"])) =
    RoutePath (map (percent_encode keep) [lit "a/b"; lit "c d"]) [lit "a/b"; lit "c d"] true.
Proof.
  intros keep. split; [vm_compute; reflexivity|].
  apply (parse_route_path_encode keep); [reflexivity|reflexivity|by repeat constructor].
Defined.
