(* ===== verification/Router.v ===== *)
(** * The HTTP router

    [src/http/router.cpp] and the private state of [router] in
    [include/uvpp/protocols/http/router.hpp].  Routes live in a trie stored as a
    vector of nodes that refer to each other by index.  The file has the trie
    operations as the source writes them ([add_route], [ensure_prefix_node],
    the hook and fallback setters, [match_node], [fallback],
    [allowed_methods]), and the single-pattern matcher
    [route_pattern_matches]. *)

From S2P Require Import Prelude Text UrlEncoding RoutePath Http.

Inductive body_mode :=
| body_none | body_bytes | body_text | body_json | body_stream | body_multipart_stream | body_multipart_form.

#[global] Instance body_mode_eq_dec : EqDecision body_mode.
Proof. solve_decision. Defined.

(** ** Prefixes and patterns *)

(** [while (s.size() > 1 && s.back() == '/') s.pop_back()], on the reversed
    string. *)
Fixpoint pop_slashes (rev_s : str) : str :=
  match rev_s with
  | c :: (_ :: _) as rest => if is_char "/" c then pop_slashes rest else rev_s
  | _ => rev_s
  end.

Definition normalize_group_prefix (prefix : str) : str :=
  match prefix with
  | [] => []
  | c :: _ =>
    if bool_decide (prefix = lit "/") then []
    else
      let normalized := if is_char "/" c then prefix else "/"%char :: prefix in
      reverse (pop_slashes (reverse normalized))
  end.

Definition join_route_pattern (prefix pattern : str) : str :=
  match normalize_group_prefix prefix with
  | [] =>
    match pattern with
    | [] => lit "/"
    | c :: _ => if is_char "/" c then pattern else "/"%char :: pattern
    end
  | normalized_prefix =>
    match pattern with
    | [] => normalized_prefix
    | c :: _ =>
      if bool_decide (pattern = lit "/") then normalized_prefix
      else if is_char "/" c then normalized_prefix ++ pattern
      else normalized_prefix ++ "/"%char :: pattern
    end
  end.

Definition route_segment_name (segment : str) : str := tail segment.

Definition front_is (c : ascii) (segment : str) : bool :=
  match segment with d :: _ => is_char c d | [] => false end.

(** ** Matching one pattern *)

(** The loop over the pattern's raw and selected segments; [path_segments] are
    the segments from [path_index] on. *)
Fixpoint match_pattern_segments (pattern : list (str * str)) (path_segments : list str)
    (params : route_params) : bool * route_params :=
  match pattern with
  | [] => (bool_decide (path_segments = []), params)
  | (raw, selected) :: pattern' =>
    if front_is "*" raw then
      let name := route_segment_name raw in
      (bool_decide (pattern' = []),
       if bool_decide (name = []) then params
       else params_set params name (join_route_segments path_segments 0))
    else
      match path_segments with
      | [] => (false, params)
      | segment :: path_segments' =>
        if front_is ":" raw then
          let name := route_segment_name raw in
          match_pattern_segments pattern' path_segments'
            (if bool_decide (name = []) then params else params_set params name segment)
        else if bool_decide (selected = segment) then
          match_pattern_segments pattern' path_segments' params
        else (false, params)
      end
  end.

Definition pattern_segments (pattern : route_path) (matching : route_path_matching) : list (str * str) :=
  zip (raw_segments pattern) (selected_segments pattern matching).

Definition route_pattern_matches (pattern path : route_path) (matching : route_path_matching)
    (params : route_params) : bool * route_params :=
  if negb (valid pattern) || negb (valid path) then (false, params)
  else match_pattern_segments (pattern_segments pattern matching) (selected_segments path matching) params.

Section router.
(** Handlers, hooks and exception handlers are opaque: the router stores and
    returns them. *)
Context {handler hook response_hook exception_handler : Type}.

Record route_target := RouteTarget {
  t_body : body_mode;
  t_max_body_bytes : Z;
  t_body_timeout : Z;
  t_handler : handler;
  t_pattern : str
}.

Record named_child := NamedChild { nc_name : str; nc_node : nat }.

Record trie_node := TrieNode {
  static_children : gmap str nat;
  parameter_child : option named_child;
  wildcard_child : option named_child;
  targets : list (option route_target);
  on_request_hooks : list hook;
  pre_handler_hooks : list hook;
  on_response_hooks : list response_hook;
  not_found_handler : option handler;
  node_exception_handler : option exception_handler
}.

Definition method_count : nat := S (method_index m_unknown).

(** [trie_node{}]. *)
Definition empty_node : trie_node :=
  TrieNode ∅ None None (replicate method_count None) [] [] [] None None.

Record router := Router {
  nodes : list trie_node;
  route_count : nat;
  matching : route_path_matching
}.

Definition empty_router (m : route_path_matching) : router := Router [empty_node] 0 m.

(** [nodes_\[i\]]; the invariant keeps every index in range. *)
Definition node_at (ns : list trie_node) (i : nat) : trie_node := default empty_node (ns !! i).

(** [node.targets\[method_index\]]. *)
Definition target_at (n : trie_node) (mi : nat) : option route_target := mjoin (targets n !! mi).

Definition with_static (seg : str) (child : nat) (n : trie_node) : trie_node :=
  TrieNode (<[seg := child]> (static_children n)) (parameter_child n) (wildcard_child n) (targets n)
    (on_request_hooks n) (pre_handler_hooks n) (on_response_hooks n) (not_found_handler n)
    (node_exception_handler n).
Definition with_parameter (c : named_child) (n : trie_node) : trie_node :=
  TrieNode (static_children n) (Some c) (wildcard_child n) (targets n)
    (on_request_hooks n) (pre_handler_hooks n) (on_response_hooks n) (not_found_handler n)
    (node_exception_handler n).
Definition with_wildcard (c : named_child) (n : trie_node) : trie_node :=
  TrieNode (static_children n) (parameter_child n) (Some c) (targets n)
    (on_request_hooks n) (pre_handler_hooks n) (on_response_hooks n) (not_found_handler n)
    (node_exception_handler n).
Definition with_target (mi : nat) (t : route_target) (n : trie_node) : trie_node :=
  TrieNode (static_children n) (parameter_child n) (wildcard_child n) (<[mi := Some t]> (targets n))
    (on_request_hooks n) (pre_handler_hooks n) (on_response_hooks n) (not_found_handler n)
    (node_exception_handler n).
Definition with_hooks (f : list hook → list hook) (g : list hook → list hook)
    (h : list response_hook → list response_hook) (n : trie_node) : trie_node :=
  TrieNode (static_children n) (parameter_child n) (wildcard_child n) (targets n)
    (f (on_request_hooks n)) (g (pre_handler_hooks n)) (h (on_response_hooks n)) (not_found_handler n)
    (node_exception_handler n).
Definition with_fallback (nf : option handler) (ex : option exception_handler) (n : trie_node) : trie_node :=
  TrieNode (static_children n) (parameter_child n) (wildcard_child n) (targets n)
    (on_request_hooks n) (pre_handler_hooks n) (on_response_hooks n) nf ex.

(** ** Registration *)

(** The child of node [i] for a static segment, created when missing. *)
Definition static_step (ns : list trie_node) (i : nat) (seg : str) : list trie_node * nat :=
  match static_children (node_at ns i) !! seg with
  | Some child => (ns, child)
  | None =>
    let child_index := length ns in
    (alter (with_static seg child_index) i (ns ++ [empty_node]), child_index)
  end.

(** The parameter child of node [i]: its name must agree with the one in the
    trie. *)
Definition parameter_step (ns : list trie_node) (i : nat) (name conflict : str)
    : list trie_node * result str nat :=
  match parameter_child (node_at ns i) with
  | Some c => if bool_decide (nc_name c = name) then (ns, Ok (nc_node c)) else (ns, Err conflict)
  | None =>
    let child_index := length ns in
    (alter (with_parameter (NamedChild name child_index)) i (ns ++ [empty_node]), Ok child_index)
  end.

Definition wildcard_step (ns : list trie_node) (i : nat) (name conflict : str)
    : list trie_node * result str nat :=
  match wildcard_child (node_at ns i) with
  | Some c => if bool_decide (nc_name c = name) then (ns, Ok (nc_node c)) else (ns, Err conflict)
  | None =>
    let child_index := length ns in
    (alter (with_wildcard (NamedChild name child_index)) i (ns ++ [empty_node]), Ok child_index)
  end.

(** The loop of [add_route] over raw and selected segments.  A throw leaves
    the nodes created so far in place, so the nodes are returned on both
    outcomes. *)
Fixpoint add_route_segments (ns : list trie_node) (i : nat) (segs : list (str * str))
    : list trie_node * result str nat :=
  match segs with
  | [] => (ns, Ok i)
  | (segment, route_segment) :: segs' =>
    if front_is "*" segment then
      let name := route_segment_name segment in
      if bool_decide (name = []) then (ns, Err (lit "HTTP route wildcard must be named"))
      else if negb (bool_decide (segs' = [])) then
        (ns, Err (lit "HTTP route wildcard must be the final segment"))
      else wildcard_step ns i name (lit "HTTP route wildcard conflicts with an existing wildcard route")
    else if front_is ":" segment then
      let name := route_segment_name segment in
      if bool_decide (name = []) then (ns, Err (lit "HTTP route parameter must be named"))
      else
        match parameter_step ns i name (lit "HTTP route parameter conflicts with an existing parameter route") with
        | (ns', Ok child) => add_route_segments ns' child segs'
        | (ns', Err e) => (ns', Err e)
        end
    else
      let '(ns', child) := static_step ns i route_segment in
      add_route_segments ns' child segs'
  end.

Definition add_route (r : router) (method_value : method) (pattern : str) (body : body_mode)
    (max_body_bytes body_timeout : Z) (h : handler) : router * result str () :=
  let mi := method_index method_value in
  if negb (mi <? method_count) then (r, Err (lit "HTTP route method is out of range"))
  else
    let normalized_pattern := join_route_pattern [] pattern in
    let parsed_pattern := parse_route_path normalized_pattern in
    if negb (valid parsed_pattern) then
      (r, Err (lit "HTTP route pattern contains invalid percent encoding"))
    else
      match add_route_segments (nodes r) 0 (pattern_segments parsed_pattern (matching r)) with
      | (ns, Err e) => (Router ns (route_count r) (matching r), Err e)
      | (ns, Ok i) =>
        match target_at (node_at ns i) mi with
        | Some _ => (Router ns (route_count r) (matching r),
                     Err (lit "HTTP route already registered for this method and pattern"))
        | None =>
          let target := RouteTarget body max_body_bytes body_timeout h normalized_pattern in
          (Router (alter (with_target mi target) i ns) (S (route_count r)) (matching r), Ok ())
        end
      end.

Fixpoint ensure_prefix_segments (ns : list trie_node) (i : nat) (segs : list (str * str))
    : list trie_node * result str nat :=
  match segs with
  | [] => (ns, Ok i)
  | (segment, prefix_segment) :: segs' =>
    if front_is "*" segment then
      (ns, Err (lit "HTTP route group wildcard prefixes are not supported"))
    else if front_is ":" segment then
      let name := route_segment_name segment in
      if bool_decide (name = []) then (ns, Err (lit "HTTP route group parameter must be named"))
      else
        match parameter_step ns i name
          (lit "HTTP route group parameter conflicts with an existing parameter route") with
        | (ns', Ok child) => ensure_prefix_segments ns' child segs'
        | (ns', Err e) => (ns', Err e)
        end
    else
      let '(ns', child) := static_step ns i prefix_segment in
      ensure_prefix_segments ns' child segs'
  end.

Definition ensure_prefix_node (r : router) (prefix : str) : router * result str nat :=
  let parsed_prefix := parse_route_path prefix in
  if negb (valid parsed_prefix) then
    (r, Err (lit "HTTP route group prefix contains invalid percent encoding"))
  else
    let '(ns, res) := ensure_prefix_segments (nodes r) 0 (pattern_segments parsed_prefix (matching r)) in
    (Router ns (route_count r) (matching r), res).

(** The setters of hooks and fallbacks change the node of the prefix. *)
Definition update_prefix_node (r : router) (prefix : str) (f : trie_node → trie_node)
    : router * result str () :=
  match ensure_prefix_node r prefix with
  | (r', Ok i) => (Router (alter f i (nodes r')) (route_count r') (matching r'), Ok ())
  | (r', Err e) => (r', Err e)
  end.

Definition add_on_request_hook (r : router) (prefix : str) (h : hook) :=
  update_prefix_node r prefix (with_hooks (λ l, l ++ [h]) id id).
Definition add_pre_handler_hook (r : router) (prefix : str) (h : hook) :=
  update_prefix_node r prefix (with_hooks id (λ l, l ++ [h]) id).
Definition add_on_response_hook (r : router) (prefix : str) (h : response_hook) :=
  update_prefix_node r prefix (with_hooks id id (λ l, l ++ [h])).
Definition add_not_found_handler (r : router) (prefix : str) (h : handler) :=
  update_prefix_node r prefix (λ n, with_fallback (Some h) (node_exception_handler n) n).
Definition add_exception_handler (r : router) (prefix : str) (h : exception_handler) :=
  update_prefix_node r prefix (λ n, with_fallback (not_found_handler n) (Some h) n).

(** ** Matching *)

(** The by-reference results of [match_node]. *)
Record match_ctx := MatchCtx {
  c_params : route_params;
  c_on_request : list hook;
  c_pre_handler : list hook;
  c_on_response : list response_hook;
  c_exception : option exception_handler
}.

Definition empty_ctx : match_ctx := MatchCtx [] [] [] [] None.

(** Appending a node's hooks and taking its exception handler. *)
Definition enter_node (n : trie_node) (ctx : match_ctx) : match_ctx :=
  MatchCtx (c_params ctx) (c_on_request ctx ++ on_request_hooks n) (c_pre_handler ctx ++ pre_handler_hooks n)
    (c_on_response ctx ++ on_response_hooks n)
    (match node_exception_handler n with Some h => Some h | None => c_exception ctx end).

Definition with_params (ps : route_params) (ctx : match_ctx) : match_ctx :=
  MatchCtx ps (c_on_request ctx) (c_pre_handler ctx) (c_on_response ctx) (c_exception ctx).

(** The wildcard child of [node], with [value] bound to its name. *)
Definition match_wildcard (ns : list trie_node) (mi : nat) (node : trie_node) (value : str) (ctx : match_ctx)
    : option (route_target * match_ctx) :=
  match wildcard_child node with
  | None => None
  | Some child =>
    let wildcard_params :=
      if bool_decide (nc_name child = []) then c_params ctx
      else params_set (c_params ctx) (nc_name child) value in
    let wildcard_node := node_at ns (nc_node child) in
    let wildcard_ctx := enter_node wildcard_node (with_params wildcard_params ctx) in
    match target_at wildcard_node mi with
    | Some target => Some (target, wildcard_ctx)
    | None => None
    end
  end.

(** [segs] are the segments from [segment_index] on.  Static child first,
    then the parameter child, then the wildcard; the context of a branch that
    fails is dropped. *)
Fixpoint match_node (ns : list trie_node) (mi node_index : nat) (segs : list str) (ctx : match_ctx)
    : option (route_target * match_ctx) :=
  let node := node_at ns node_index in
  let ctx := enter_node node ctx in
  match segs with
  | [] =>
    match target_at node mi with
    | Some target => Some (target, ctx)
    | None => match_wildcard ns mi node [] ctx
    end
  | segment :: segs' =>
    match
      match static_children node !! segment with
      | Some child => match_node ns mi child segs' ctx
      | None => None
      end
    with
    | Some found => Some found
    | None =>
      match
        match parameter_child node with
        | Some child =>
          match_node ns mi (nc_node child) segs'
            (with_params (params_set (c_params ctx) (nc_name child) segment) ctx)
        | None => None
        end
      with
      | Some found => Some found
      | None => match_wildcard ns mi node (join_route_segments segs 0) ctx
      end
    end
  end.

Inductive match_result :=
| match_none
| match_invalid_path
| match_found (target : route_target) (ctx : match_ctx).

Definition router_match (r : router) (method_value : method) (path : route_path) : match_result :=
  if negb (valid path) then match_invalid_path
  else
    let mi := method_index method_value in
    if negb (mi <? method_count) then match_none
    else
      match match_node (nodes r) mi 0 (selected_segments path (matching r)) empty_ctx with
      | None => match_none
      | Some (target, ctx) => match_found target ctx
      end.

Definition router_match_path (r : router) (method_value : method) (path : str) : match_result :=
  router_match r method_value (parse_route_path path).

Definition router_find (r : router) (method_value : method) (path : str) : option handler :=
  match router_match_path r method_value path with
  | match_found target _ => Some (t_handler target)
  | _ => None
  end.

(** ** Fallbacks *)

Record fallback_result := FallbackResult {
  fb_not_found : option handler;
  fb_exception : option exception_handler;
  fb_params : route_params
}.

Definition remember_fallback (n : trie_node) (params : route_params) (res : fallback_result) : fallback_result :=
  let res := match not_found_handler n with
             | Some h => FallbackResult (Some h) (fb_exception res) params
             | None => res end in
  match node_exception_handler n with
  | Some h => FallbackResult (fb_not_found res) (Some h) (fb_params res)
  | None => res
  end.

(** The loop walks down without backtracking and stops after a wildcard or at
    a segment no child takes. *)
Fixpoint fallback_walk (ns : list trie_node) (node_index : nat) (segs : list str) (params : route_params)
    (res : fallback_result) : fallback_result :=
  match segs with
  | [] => res
  | segment :: segs' =>
    let node := node_at ns node_index in
    match static_children node !! segment with
    | Some child => fallback_walk ns child segs' params (remember_fallback (node_at ns child) params res)
    | None =>
      match parameter_child node with
      | Some c =>
        let params := params_set params (nc_name c) segment in
        fallback_walk ns (nc_node c) segs' params (remember_fallback (node_at ns (nc_node c)) params res)
      | None =>
        match wildcard_child node with
        | Some c =>
          let params := if bool_decide (nc_name c = []) then params
                        else params_set params (nc_name c) (join_route_segments segs 0) in
          remember_fallback (node_at ns (nc_node c)) params res
        | None => res
        end
      end
    end
  end.

Definition router_fallback (r : router) (path : route_path) : fallback_result :=
  let res := remember_fallback (node_at (nodes r) 0) [] (FallbackResult None None []) in
  fallback_walk (nodes r) 0 (selected_segments path (matching r)) [] res.

Definition routed_methods : list method :=
  [m_get; m_head; m_post; m_put; m_delete; m_connect; m_options; m_trace; m_patch].

Definition allowed_methods (r : router) (path : route_path) : list method :=
  List.filter (λ m,
    (method_index m <? method_count) &&
    match match_node (nodes r) (method_index m) 0 (selected_segments path (matching r)) empty_ctx with
    | Some _ => true
    | None => false
    end) routed_methods.

Definition allowed_methods_path (r : router) (path : str) : list method :=
  let parsed_path := parse_route_path path in
  if negb (valid parsed_path) then [] else allowed_methods r parsed_path.
End router.

#[global] Arguments route_target : clear implicits.
#[global] Arguments trie_node : clear implicits.
#[global] Arguments router : clear implicits.
#[global] Arguments match_ctx : clear implicits.
#[global] Arguments match_result : clear implicits.
#[global] Arguments fallback_result : clear implicits.
