(* ===== verification/RouterTheory.v ===== *)
(** * The router implements a set of routes

    The abstract view of the trie: a route is a method and a list of [edge]s,
    and the trie holds a partial map from them to targets ([contents]).  The
    invariant [trie_wf] says that the index structure is a tree; under it
    [add_route] extends the map at one key and [match_node] finds the best
    route whose edges match the path.  [registers] is the reachability relation
    of the router: the states and the routes accepted so far. *)

From S2P Require Import Prelude Text UrlEncoding RoutePath Http Router.

(** ** Edges *)

Inductive edge :=
| EStatic (segment : str)
| EParam (name : str)
| EWild (name : str).

#[global] Instance edge_eq_dec : EqDecision edge.
Proof. solve_decision. Defined.

Definition segment_edge (seg : str * str) : edge :=
  let '(raw, selected) := seg in
  if front_is "*" raw then EWild (route_segment_name raw)
  else if front_is ":" raw then EParam (route_segment_name raw)
  else EStatic selected.

(** The route key of a pattern. *)
Definition pattern_edges (pattern : route_path) (m : route_path_matching) : list edge :=
  map segment_edge (pattern_segments pattern m).

(** Which segment lists a list of edges matches. *)
Inductive edges_match : list edge → list str → Prop :=
| em_nil : edges_match [] []
| em_static s es ss : edges_match es ss → edges_match (EStatic s :: es) (s :: ss)
| em_param n s es ss : edges_match es ss → edges_match (EParam n :: es) (s :: ss)
| em_wild n ss : edges_match [EWild n] ss.

(** The parameters that a match binds, in the order of the pattern. *)
Fixpoint edges_params (es : list edge) (ss : list str) (ps : route_params) : route_params :=
  match es, ss with
  | EStatic _ :: es', _ :: ss' => edges_params es' ss' ps
  | EParam n :: es', s :: ss' => edges_params es' ss' (if bool_decide (n = []) then ps else params_set ps n s)
  | EWild n :: _, _ => if bool_decide (n = []) then ps else params_set ps n (join_route_segments ss 0)
  | _, _ => ps
  end.

(** Precedence between two routes that match the same path: at the first edge
    where they differ, a static segment beats a parameter and both beat a
    wildcard; a route that ends exactly beats a wildcard that matches
    nothing. *)
Inductive edges_before : list edge → list edge → Prop :=
| eb_end n : edges_before [] [EWild n]
| eb_static_param s n es es' : edges_before (EStatic s :: es) (EParam n :: es')
| eb_static_wild s n es es' : edges_before (EStatic s :: es) (EWild n :: es')
| eb_param_wild s n es es' : edges_before (EParam s :: es) (EWild n :: es')
| eb_cons e es es' : edges_before es es' → edges_before (e :: es) (e :: es').

Lemma edges_match_pattern segs ss ps :
  (∃ ps', match_pattern_segments segs ss ps = (true, ps')) ↔ edges_match (map segment_edge segs) ss.
Proof.
  revert ss ps. induction segs as [|[raw sel] segs IH]; intros ss ps; cbn.
  - split.
    + intros [ps' [= H _]]. breflect. subst. constructor.
    + intros H. inversion H; subst. by eexists.
  - destruct (front_is "*" raw).
    { case_bool_decide as Hs; subst; cbn.
      - split; [constructor|by eexists].
      - split; [by intros (? & [=])|]. intros H. inversion H as [| | |n ? E]; subst.
        destruct segs; done. }
    destruct ss as [|s ss].
    { split; [by intros (? & [=])|]. intros H. destruct (front_is ":" raw); inversion H. }
    destruct (front_is ":" raw).
    + rewrite IH. split; [by constructor|]. intros H. by inversion H.
    + case_bool_decide as Hs; subst.
      * rewrite IH. split; [by constructor|]. intros H. by inversion H.
      * split; [by intros (? & [=])|]. intros H. by inversion H.
Qed.

Lemma match_pattern_params segs ss ps ps' :
  match_pattern_segments segs ss ps = (true, ps') → ps' = edges_params (map segment_edge segs) ss ps.
Proof.
  revert ss ps. induction segs as [|[raw sel] segs IH]; intros ss ps; cbn.
  - by intros [= _ ->].
  - destruct (front_is "*" raw); [by intros [= _ <-]|].
    destruct ss as [|s ss]; [done|]. destruct (front_is ":" raw); [by intros ->%IH|].
    case_bool_decide; [by intros ->%IH|done].
Qed.

Section theory.
Context {handler hook response_hook exception_handler : Type}.
Local Abbreviation route_target := (route_target handler).
Local Abbreviation trie_node := (trie_node handler hook response_hook exception_handler).
Local Abbreviation router := (router handler hook response_hook exception_handler).
Local Abbreviation match_ctx := (match_ctx hook response_hook exception_handler).
Implicit Types (ns : list trie_node) (n : trie_node) (i j c : nat) (e : edge) (es : list edge).
Implicit Types (t : route_target) (ctx : match_ctx) (r : router).

(** ** Walking the trie *)

Definition edge_child n e : option nat :=
  match e with
  | EStatic s => static_children n !! s
  | EParam nm => c ← parameter_child n; if bool_decide (nc_name c = nm) then Some (nc_node c) else None
  | EWild nm => c ← wildcard_child n; if bool_decide (nc_name c = nm) then Some (nc_node c) else None
  end.

Fixpoint walk ns i es : option nat :=
  match es with
  | [] => Some i
  | e :: es' => edge_child (node_at ns i) e ≫= λ c, walk ns c es'
  end.

(** The target that the trie holds for a route key. *)
Definition contents ns mi es : option route_target :=
  walk ns 0 es ≫= λ i, target_at (node_at ns i) mi.

Definition named e : Prop := match e with EStatic _ => True | EParam nm | EWild nm => nm ≠ [] end.

Record trie_wf ns : Prop := {
  twf_child : ∀ i e c, edge_child (node_at ns i) e = Some c → i < c < length ns;
  twf_parent : ∀ i e i' e' c,
    edge_child (node_at ns i) e = Some c → edge_child (node_at ns i') e' = Some c → i = i' ∧ e = e';
  twf_named : ∀ i e c, edge_child (node_at ns i) e = Some c → named e;
  twf_root : 0 < length ns;
  twf_targets : ∀ i, length (targets (node_at ns i)) = method_count
}.

Lemma walk_app ns i es es' : walk ns i (es ++ es') = walk ns i es ≫= λ j, walk ns j es'.
Proof.
  revert i. induction es as [|e es IH]; intros i; cbn; [done|].
  destruct (edge_child (node_at ns i) e); cbn; [apply IH|done].
Qed.

Lemma walk_snoc ns i es e : walk ns i (es ++ [e]) = walk ns i es ≫= λ j, edge_child (node_at ns j) e.
Proof.
  rewrite walk_app. destruct (walk ns i es) as [j|]; cbn; [|done].
  by destruct (edge_child (node_at ns j) e).
Qed.

Lemma edge_child_empty e : edge_child empty_node e = None.
Proof. destruct e; cbn; [apply lookup_empty|done|done]. Qed.

Lemma walk_bound ns i es j : trie_wf ns → i < length ns → walk ns i es = Some j → i ≤ j < length ns.
Proof.
  intros Hwf. revert i. induction es as [|e es IH]; intros i Hi; cbn; [intros [= <-]; lia|].
  destruct (edge_child (node_at ns i) e) as [c|] eqn:E; cbn; [|done].
  apply (twf_child _ Hwf) in E. intros H%IH; lia.
Qed.

(** A node is reached by one list of edges only. *)
Lemma walk_inj_from ns i es es' j :
  trie_wf ns → i < length ns → walk ns i es = Some j → walk ns i es' = Some j → es = es'.
Proof.
  intros Hwf Hi. revert es' j. induction es as [|e es IH] using rev_ind; intros es' j.
  - intros [= <-]. destruct es' as [|e' es' _] using rev_ind; [done|].
    rewrite walk_snoc. destruct (walk ns i es') as [k|] eqn:E; cbn; [|done].
    apply walk_bound in E; [|done..]. intros H%(twf_child _ Hwf). lia.
  - rewrite walk_snoc. destruct (walk ns i es) as [k|] eqn:E; cbn; [|done]. intros H.
    destruct es' as [|e' es' _] using rev_ind.
    + intros [= <-]. apply walk_bound in E; [|done..]. apply (twf_child _ Hwf) in H. lia.
    + rewrite walk_snoc. destruct (walk ns i es') as [k'|] eqn:E'; cbn; [|done]. intros H'.
      destruct (twf_parent _ Hwf _ _ _ _ _ H H') as [-> ->].
      by rewrite (IH es' k').
Qed.

Lemma walk_inj ns es es' j :
  trie_wf ns → walk ns 0 es = Some j → walk ns 0 es' = Some j → es = es'.
Proof. intros Hwf. apply walk_inj_from; [done|apply (twf_root _ Hwf)]. Qed.

(** ** Extending the trie

    [extends ns ns']: the nodes of [ns] keep everything but get new children,
    and what is new carries no target, hook or handler. *)

Definition same_payload n n' : Prop :=
  targets n = targets n' ∧ on_request_hooks n = on_request_hooks n' ∧
  pre_handler_hooks n = pre_handler_hooks n' ∧ on_response_hooks n = on_response_hooks n' ∧
  not_found_handler n = not_found_handler n' ∧ node_exception_handler n = node_exception_handler n'.

Record extends ns ns' : Prop := {
  ext_length : length ns ≤ length ns';
  ext_payload : ∀ i, same_payload (node_at ns i) (node_at ns' i);
  ext_old : ∀ i e c, edge_child (node_at ns i) e = Some c → edge_child (node_at ns' i) e = Some c;
  ext_new : ∀ i e c, edge_child (node_at ns' i) e = Some c →
    edge_child (node_at ns i) e = Some c ∨ length ns ≤ c
}.

Lemma same_payload_refl n : same_payload n n.
Proof. by unfold same_payload. Qed.

#[global] Instance extends_preorder : PreOrder extends.
Proof.
  split.
  - intros ns. constructor; auto using same_payload_refl.
  - intros ns1 ns2 ns3 [L1 P1 O1 N1] [L2 P2 O2 N2]. constructor; [lia| |auto|].
    + intros i. destruct (P1 i) as (? & ? & ? & ? & ? & ?), (P2 i) as (? & ? & ? & ? & ? & ?).
      unfold same_payload. split_and!; congruence.
    + intros i e c [H|H]%N2; [|right; lia]. by apply N1 in H.
Qed.

Lemma node_at_out ns i : length ns ≤ i → node_at ns i = empty_node.
Proof. intros H. unfold node_at. by rewrite lookup_ge_None_2. Qed.

(** Adding one fresh child [child] under a free edge of node [i]. *)
Definition attaches (f : trie_node → trie_node) e c n : Prop :=
  (∀ e', edge_child (f n) e' = if decide (e = e') then Some c else edge_child n e') ∧
  same_payload n (f n).

Lemma node_at_attach ns f i j :
  i < length ns →
  node_at (alter f i (ns ++ [empty_node])) j =
    if decide (j = i) then f (node_at ns i) else node_at ns j.
Proof.
  intros Hi. unfold node_at. rewrite list_lookup_alter. case_decide as Hd; subst.
  - rewrite decide_True by done. rewrite lookup_app_l by done.
    destruct (ns !! j) eqn:E; [done|]. apply lookup_ge_None in E. lia.
  - rewrite decide_False by done. destruct (decide (j < length ns)).
    + by rewrite lookup_app_l.
    + rewrite (lookup_ge_None_2 ns) by lia. rewrite lookup_app_r by lia. cbn.
      destruct (j - length ns) as [|k]; done.
Qed.

Lemma attach_extends ns f i e :
  i < length ns → edge_child (node_at ns i) e = None → attaches f e (length ns) (node_at ns i) →
  extends ns (alter f i (ns ++ [empty_node])).
Proof.
  intros Hi Hfree [Hf Hp]. constructor.
  - rewrite length_alter, length_app. cbn. lia.
  - intros j. rewrite node_at_attach by done. case_decide; subst; [done|apply same_payload_refl].
  - intros j e' c. rewrite node_at_attach by done. case_decide; subst; [|done].
    rewrite Hf. case_decide; subst; [by rewrite Hfree|done].
  - intros j e' c. rewrite node_at_attach by done. case_decide; subst; [|auto].
    rewrite Hf. case_decide; subst; [|auto]. intros [= <-]. by right.
Qed.

Lemma attach_wf ns f i e :
  trie_wf ns → i < length ns → named e → edge_child (node_at ns i) e = None →
  attaches f e (length ns) (node_at ns i) →
  trie_wf (alter f i (ns ++ [empty_node])).
Proof.
  intros Hwf Hi Hnamed Hfree [Hf Hp].
  assert (Hlen : length (alter f i (ns ++ [empty_node])) = S (length ns)).
  { rewrite length_alter, length_app. cbn. lia. }
  assert (Hold : ∀ j e' c, edge_child (node_at ns j) e' = Some c → c < length ns).
  { intros j e' c H. apply (twf_child _ Hwf) in H. lia. }
  assert (Hcase : ∀ j e' c, edge_child (node_at (alter f i (ns ++ [empty_node])) j) e' = Some c →
    edge_child (node_at ns j) e' = Some c ∨ (j = i ∧ e' = e ∧ c = length ns)).
  { intros j e' c. rewrite node_at_attach by done. case_decide; subst; [|auto].
    rewrite Hf. case_decide; subst; [|auto]. intros [= <-]. auto. }
  constructor.
  - intros j e' c [H|(-> & -> & ->)]%Hcase; rewrite Hlen; [|lia].
    apply (twf_child _ Hwf) in H. lia.
  - intros j e1 j' e2 c [H1|(-> & -> & ->)]%Hcase [H2|(-> & -> & Hc)]%Hcase; subst.
    + by eapply (twf_parent _ Hwf).
    + apply Hold in H1. lia.
    + apply Hold in H2. lia.
    + done.
  - intros j e' c [H|(-> & -> & ->)]%Hcase; [|done]. by apply (twf_named _ Hwf) in H.
  - lia.
  - intros j. rewrite node_at_attach by done. case_decide; subst.
    + destruct Hp as [<- _]. apply (twf_targets _ Hwf).
    + apply (twf_targets _ Hwf).
Qed.

Lemma attaches_static n seg c : attaches (with_static seg c) (EStatic seg) c n.
Proof.
  split; [|by unfold same_payload]. intros [s|nm|nm]; cbn.
  - destruct (decide (seg = s)) as [->|Hne].
    + rewrite lookup_insert_eq. by rewrite decide_True.
    + rewrite lookup_insert_ne by done. rewrite decide_False by congruence. done.
  - by rewrite decide_False.
  - by rewrite decide_False.
Qed.

Lemma attaches_parameter n nm c :
  parameter_child n = None → attaches (with_parameter (NamedChild nm c)) (EParam nm) c n.
Proof.
  intros Hn. split; [|by unfold same_payload]. intros [s|nm'|nm']; cbn.
  - by rewrite decide_False.
  - rewrite Hn. cbn. case_bool_decide; subst; [by rewrite decide_True|]. by rewrite decide_False by congruence.
  - by rewrite decide_False.
Qed.

Lemma attaches_wildcard n nm c :
  wildcard_child n = None → attaches (with_wildcard (NamedChild nm c)) (EWild nm) c n.
Proof.
  intros Hn. split; [|by unfold same_payload]. intros [s|nm'|nm']; cbn.
  - by rewrite decide_False.
  - by rewrite decide_False.
  - rewrite Hn. cbn. case_bool_decide; subst; [by rewrite decide_True|]. by rewrite decide_False by congruence.
Qed.

(** What one step of a registration loop guarantees. *)
Definition step_ok ns i e ns' (res : result str nat) : Prop :=
  trie_wf ns' ∧ extends ns ns' ∧ length ns ≤ length ns' ∧
  ∀ c, res = Ok c → edge_child (node_at ns' i) e = Some c ∧ c < length ns'.

Lemma step_existing ns i e c :
  trie_wf ns → edge_child (node_at ns i) e = Some c → step_ok ns i e ns (Ok c).
Proof.
  intros Hwf H. split_and!; [done|done|done|]. intros ? [= <-].
  pose proof (twf_child _ Hwf _ _ _ H). auto with lia.
Qed.

Lemma step_fresh ns i e f :
  trie_wf ns → i < length ns → named e → edge_child (node_at ns i) e = None →
  attaches f e (length ns) (node_at ns i) →
  step_ok ns i e (alter f i (ns ++ [empty_node])) (Ok (length ns)).
Proof.
  intros Hwf Hi Hnamed Hfree Hat. split_and!.
  - by eapply attach_wf.
  - by eapply attach_extends.
  - rewrite length_alter, length_app. lia.
  - intros ? [= <-]. rewrite node_at_attach by done. rewrite decide_True by done.
    destruct Hat as [-> _]. rewrite decide_True by done. split; [done|].
    rewrite length_alter, length_app. cbn. lia.
Qed.

Lemma step_error ns i e msg : trie_wf ns → step_ok ns i e ns (Err msg).
Proof. by intros. Qed.

Lemma static_step_ok ns i seg :
  trie_wf ns → i < length ns →
  let '(ns', c) := static_step ns i seg in step_ok ns i (EStatic seg) ns' (Ok c).
Proof.
  intros Hwf Hi. unfold static_step.
  destruct (static_children (node_at ns i) !! seg) as [c|] eqn:E.
  - by apply step_existing.
  - apply step_fresh; [done..|by apply attaches_static].
Qed.

Lemma parameter_step_ok ns i nm msg :
  trie_wf ns → i < length ns → nm ≠ [] →
  let '(ns', res) := parameter_step ns i nm msg in step_ok ns i (EParam nm) ns' res.
Proof.
  intros Hwf Hi Hnm. unfold parameter_step.
  destruct (parameter_child (node_at ns i)) as [c|] eqn:E.
  - case_bool_decide as Hn; [|by apply step_error].
    apply step_existing; [done|]. cbn. rewrite E. cbn. by rewrite bool_decide_eq_true_2.
  - apply step_fresh; [done..| |by apply attaches_parameter]. cbn. by rewrite E.
Qed.

Lemma wildcard_step_ok ns i nm msg :
  trie_wf ns → i < length ns → nm ≠ [] →
  let '(ns', res) := wildcard_step ns i nm msg in step_ok ns i (EWild nm) ns' res.
Proof.
  intros Hwf Hi Hnm. unfold wildcard_step.
  destruct (wildcard_child (node_at ns i)) as [c|] eqn:E.
  - case_bool_decide as Hn; [|by apply step_error].
    apply step_existing; [done|]. cbn. rewrite E. cbn. by rewrite bool_decide_eq_true_2.
  - apply step_fresh; [done..| |by apply attaches_wildcard]. cbn. by rewrite E.
Qed.

Lemma extends_walk ns ns' i es j : extends ns ns' → walk ns i es = Some j → walk ns' i es = Some j.
Proof.
  intros Hext. revert i. induction es as [|e es IH]; intros i; cbn; [done|].
  destruct (edge_child (node_at ns i) e) as [c|] eqn:E; cbn; [|done].
  rewrite (ext_old _ _ Hext _ _ _ E). cbn. apply IH.
Qed.

(** The two registration loops: they extend the trie, and on success lead to
    the node of the edges. *)
Definition loop_ok ns i (segs : list (str * str)) ns' (res : result str nat) : Prop :=
  trie_wf ns' ∧ extends ns ns' ∧
  ∀ j, res = Ok j → walk ns' i (map segment_edge segs) = Some j ∧ j < length ns'.

Lemma loop_cons ns i seg segs ns1 c ns' res :
  step_ok ns i (segment_edge seg) ns1 (Ok c) → loop_ok ns1 c segs ns' res →
  loop_ok ns i (seg :: segs) ns' res.
Proof.
  intros (Hwf1 & Hext1 & _ & Hc) (Hwf & Hext & Hj). destruct (Hc c eq_refl) as [Hc1 Hc2].
  split_and!; [done|by transitivity ns1|]. intros j Hres. destruct (Hj j Hres) as [Hw Hl].
  split; [|done]. cbn. by rewrite (ext_old _ _ Hext _ _ _ Hc1).
Qed.

Lemma loop_error ns i segs ns' msg :
  trie_wf ns' → extends ns ns' → loop_ok ns i segs ns' (Err msg).
Proof. by intros. Qed.

Lemma add_route_segments_ok ns i segs :
  trie_wf ns → i < length ns →
  let '(ns', res) := add_route_segments ns i segs in loop_ok ns i segs ns' res.
Proof.
  revert ns i. induction segs as [|[raw sel] segs IH]; intros ns i Hwf Hi; cbn [add_route_segments].
  { split_and!; [done|done|]. by intros ? [= <-]. }
  assert (He : segment_edge (raw, sel) = segment_edge (raw, sel)) by done.
  unfold segment_edge at 2 in He.
  destruct (front_is "*" raw).
  - case_bool_decide as Hnm; [by apply loop_error|]. case_bool_decide as Hs; cbn [negb]; [|by apply loop_error].
    subst. pose proof (wildcard_step_ok ns i (route_segment_name raw)
      (lit "HTTP route wildcard conflicts with an existing wildcard route") Hwf Hi Hnm) as Hstep.
    destruct (wildcard_step _ _ _ _) as [ns' res]. rewrite <-He in Hstep.
    destruct Hstep as (H1 & H2 & _ & H3). split_and!; [done|done|].
    intros j Hj. destruct (H3 j Hj) as [H4 H5]. cbn [map walk]. rewrite H4. done.
  - destruct (front_is ":" raw).
    + case_bool_decide as Hnm; [by apply loop_error|].
      pose proof (parameter_step_ok ns i (route_segment_name raw)
        (lit "HTTP route parameter conflicts with an existing parameter route") Hwf Hi Hnm) as Hstep.
      destruct (parameter_step _ _ _ _) as [ns1 [c|err]]; rewrite <-He in Hstep.
      * assert (Hc : c < length ns1) by by apply Hstep.
        specialize (IH ns1 c (proj1 Hstep) Hc).
        destruct (add_route_segments ns1 c segs). by eapply loop_cons.
      * apply loop_error; apply Hstep.
    + pose proof (static_step_ok ns i sel Hwf Hi) as Hstep.
      destruct (static_step ns i sel) as [ns1 c]. rewrite <-He in Hstep.
      assert (Hc : c < length ns1) by by apply Hstep.
      specialize (IH ns1 c (proj1 Hstep) Hc).
      destruct (add_route_segments ns1 c segs). by eapply loop_cons.
Qed.

Lemma ensure_prefix_segments_ok ns i segs :
  trie_wf ns → i < length ns →
  let '(ns', res) := ensure_prefix_segments ns i segs in loop_ok ns i segs ns' res.
Proof.
  revert ns i. induction segs as [|[raw sel] segs IH]; intros ns i Hwf Hi; cbn [ensure_prefix_segments].
  { split_and!; [done|done|]. by intros ? [= <-]. }
  assert (He : segment_edge (raw, sel) = segment_edge (raw, sel)) by done.
  unfold segment_edge at 2 in He.
  destruct (front_is "*" raw); [by apply loop_error|].
  destruct (front_is ":" raw).
  - case_bool_decide as Hnm; [by apply loop_error|].
    pose proof (parameter_step_ok ns i (route_segment_name raw)
      (lit "HTTP route group parameter conflicts with an existing parameter route") Hwf Hi Hnm) as Hstep.
    destruct (parameter_step _ _ _ _) as [ns1 [c|err]]; rewrite <-He in Hstep.
    + assert (Hc : c < length ns1) by by apply Hstep.
      specialize (IH ns1 c (proj1 Hstep) Hc).
      destruct (ensure_prefix_segments ns1 c segs). by eapply loop_cons.
    + apply loop_error; apply Hstep.
  - pose proof (static_step_ok ns i sel Hwf Hi) as Hstep.
    destruct (static_step ns i sel) as [ns1 c]. rewrite <-He in Hstep.
    assert (Hc : c < length ns1) by by apply Hstep.
    specialize (IH ns1 c (proj1 Hstep) Hc).
    destruct (ensure_prefix_segments ns1 c segs). by eapply loop_cons.
Qed.
Lemma node_at_alter ns f i j :
  i < length ns → node_at (alter f i ns) j = if decide (j = i) then f (node_at ns i) else node_at ns j.
Proof.
  intros Hi. unfold node_at. rewrite list_lookup_alter. destruct (decide (j = i)) as [->|Hne].
  - rewrite decide_True by done. destruct (ns !! i) eqn:E; [done|]. apply lookup_ge_None in E. lia.
  - by rewrite decide_False.
Qed.

Lemma extends_walk_new ns ns' i es j :
  trie_wf ns' → extends ns ns' → walk ns' i es = Some j → walk ns i es = Some j ∨ length ns ≤ j.
Proof.
  intros Hwf Hext. revert i. induction es as [|e es IH]; intros i; cbn; [auto|].
  destruct (edge_child (node_at ns' i) e) as [c|] eqn:E; cbn; [|done]. intros Hw.
  destruct (ext_new _ _ Hext _ _ _ E) as [H|H].
  - rewrite H. cbn. by apply IH.
  - right. apply (twf_child _ Hwf) in E. apply walk_bound in Hw; [lia|done|lia].
Qed.

Lemma target_at_empty mi : target_at (@empty_node handler hook response_hook exception_handler) mi = None.
Proof.
  unfold target_at, empty_node. cbn [targets].
  destruct (replicate method_count None !! mi) as [t|] eqn:E; [|done].
  by apply lookup_replicate in E as [-> _].
Qed.

(** New nodes hold nothing. *)
Lemma contents_extends ns ns' mi es :
  trie_wf ns' → extends ns ns' → contents ns' mi es = contents ns mi es.
Proof.
  intros Hwf Hext. unfold contents.
  assert (Hp : ∀ j, target_at (node_at ns' j) mi = target_at (node_at ns j) mi).
  { intros j. destruct (ext_payload _ _ Hext j) as [Ht _]. unfold target_at. by rewrite Ht. }
  destruct (walk ns' 0 es) as [j|] eqn:E; cbn.
  - destruct (extends_walk_new _ _ _ _ _ Hwf Hext E) as [->|Hj]; cbn; [apply Hp|].
    rewrite Hp, node_at_out, target_at_empty by done.
    destruct (walk ns 0 es) as [k|] eqn:E'; cbn; [|done].
    apply (extends_walk _ _ _ _ _ Hext) in E'. rewrite E in E'. injection E' as <-.
    by rewrite node_at_out, target_at_empty.
  - destruct (walk ns 0 es) as [k|] eqn:E'; cbn; [|done].
    apply (extends_walk _ _ _ _ _ Hext) in E'. congruence.
Qed.

(** Changing the payload of one node. *)
Definition keeps_edges (f : trie_node → trie_node) : Prop :=
  ∀ n, (∀ e, edge_child (f n) e = edge_child n e) ∧ length (targets (f n)) = length (targets n).

Lemma alter_wf ns f i : trie_wf ns → keeps_edges f → i < length ns → trie_wf (alter f i ns).
Proof.
  intros Hwf Hf Hi.
  assert (He : ∀ j e, edge_child (node_at (alter f i ns) j) e = edge_child (node_at ns j) e).
  { intros j e. rewrite node_at_alter by done. case_decide; subst; [|done]. apply Hf. }
  constructor; setoid_rewrite length_alter || idtac.
  - intros j e c. rewrite He. apply (twf_child _ Hwf).
  - intros j e j' e' c. rewrite !He. apply (twf_parent _ Hwf).
  - intros j e c. rewrite He. apply (twf_named _ Hwf).
  - apply (twf_root _ Hwf).
  - intros j. rewrite node_at_alter by done. case_decide; subst; [|apply (twf_targets _ Hwf)].
    destruct (Hf (node_at ns i)) as [_ ->]. apply (twf_targets _ Hwf).
Qed.

Lemma alter_walk ns f i j es : keeps_edges f → i < length ns → walk (alter f i ns) j es = walk ns j es.
Proof.
  intros Hf Hi. revert j. induction es as [|e es IH]; intros j; cbn; [done|].
  rewrite node_at_alter by done.
  assert (edge_child (if decide (j = i) then f (node_at ns i) else node_at ns j) e = edge_child (node_at ns j) e) as ->.
  { case_decide; subst; [|done]. apply Hf. }
  destruct (edge_child (node_at ns j) e); cbn; [apply IH|done].
Qed.

(** ** Matching as a search over the contents *)

(** What following one edge does to the parameters. *)
Definition bind_edge e (ss : list str) ctx : match_ctx :=
  match e, ss with
  | EParam nm, s :: _ => with_params (params_set (c_params ctx) nm s) ctx
  | EWild nm, _ => with_params (params_set (c_params ctx) nm (join_route_segments ss 0)) ctx
  | _, _ => ctx
  end.

(** The context collected along a list of edges from node [i]. *)
Fixpoint ctx_along ns i es (ss : list str) ctx : match_ctx :=
  let ctx := enter_node (node_at ns i) ctx in
  match es with
  | [] => ctx
  | e :: es' =>
    match edge_child (node_at ns i) e with
    | Some c => ctx_along ns c es' (tail ss) (bind_edge e ss ctx)
    | None => ctx
    end
  end.

Definition reaches ns mi i es t : Prop :=
  ∃ j, walk ns i es = Some j ∧ target_at (node_at ns j) mi = Some t.

Lemma reaches_nil ns mi i t : reaches ns mi i [] t ↔ target_at (node_at ns i) mi = Some t.
Proof. split; [by intros (? & [= <-] & ?)|by exists i]. Qed.

Lemma reaches_cons ns mi i e es t :
  reaches ns mi i (e :: es) t ↔ ∃ c, edge_child (node_at ns i) e = Some c ∧ reaches ns mi c es t.
Proof.
  unfold reaches. cbn. split.
  - intros (j & Hw & Ht). destruct (edge_child (node_at ns i) e) as [c|]; [|done]. eauto.
  - intros (c & -> & j & Hw & Ht). eauto.
Qed.

(** The search finds the first match in the order [edges_before]. *)
Definition best_match ns mi i (ss : list str) es t : Prop :=
  reaches ns mi i es t ∧ edges_match es ss ∧
  ∀ es' t', reaches ns mi i es' t' → edges_match es' ss → es' = es ∨ edges_before es es'.

Definition no_match ns mi i (ss : list str) : Prop :=
  ∀ es t, reaches ns mi i es t → ¬ edges_match es ss.

Definition search_ok ns mi i ss ctx (found : option (route_target * match_ctx)) : Prop :=
  match found with
  | Some (t, ctx') => ∃ es, best_match ns mi i ss es t ∧ ctx' = ctx_along ns i es ss ctx
  | None => no_match ns mi i ss
  end.

Lemma param_child_inv ns i nm c :
  edge_child (node_at ns i) (EParam nm) = Some c → parameter_child (node_at ns i) = Some (NamedChild nm c).
Proof.
  cbn. destruct (parameter_child (node_at ns i)) as [[nm' c']|]; cbn; [|done].
  case_bool_decide; [|done]. intros [= ->]. by subst.
Qed.

Lemma wild_child_inv ns i nm c :
  edge_child (node_at ns i) (EWild nm) = Some c → wildcard_child (node_at ns i) = Some (NamedChild nm c).
Proof.
  cbn. destruct (wildcard_child (node_at ns i)) as [[nm' c']|]; cbn; [|done].
  case_bool_decide; [|done]. intros [= ->]. by subst.
Qed.

Lemma param_child_edge ns i nm c :
  parameter_child (node_at ns i) = Some (NamedChild nm c) → edge_child (node_at ns i) (EParam nm) = Some c.
Proof. cbn. intros ->. cbn. by rewrite bool_decide_eq_true_2. Qed.

Lemma wild_child_edge ns i nm c :
  wildcard_child (node_at ns i) = Some (NamedChild nm c) → edge_child (node_at ns i) (EWild nm) = Some c.
Proof. cbn. intros ->. cbn. by rewrite bool_decide_eq_true_2. Qed.

Definition wildcard_ok ns mi i ss ctx (found : option (route_target * match_ctx)) : Prop :=
  match found with
  | Some (t, ctx') => ∃ nm, reaches ns mi i [EWild nm] t ∧
      ctx' = ctx_along ns i [EWild nm] ss ctx ∧
      ∀ nm' t', reaches ns mi i [EWild nm'] t' → nm' = nm
  | None => ∀ nm t, ¬ reaches ns mi i [EWild nm] t
  end.

Lemma match_wildcard_ok ns mi i ss ctx :
  trie_wf ns →
  wildcard_ok ns mi i ss ctx
    (match_wildcard ns mi (node_at ns i) (join_route_segments ss 0) (enter_node (node_at ns i) ctx)).
Proof.
  intros Hwf. unfold match_wildcard.
  destruct (wildcard_child (node_at ns i)) as [[nm c]|] eqn:E.
  - pose proof (wild_child_edge _ _ _ _ E) as Hc. pose proof (twf_named _ Hwf _ _ _ Hc) as Hnm. cbn in Hnm.
    cbn [nc_name nc_node]. rewrite (bool_decide_eq_false_2 (nm = [])) by done.
    destruct (target_at (node_at ns c) mi) as [t|] eqn:Et; cbn [wildcard_ok].
    + exists nm. split_and!.
      * apply reaches_cons. exists c. by rewrite reaches_nil.
      * cbn [ctx_along]. by rewrite Hc.
      * intros nm' t' (c' & H & _)%reaches_cons. apply wild_child_inv in H. congruence.
    + intros nm' t' (c' & H & Hr)%reaches_cons. apply reaches_nil in Hr.
      apply wild_child_inv in H. congruence.
  - intros nm t (c & H & _)%reaches_cons. apply wild_child_inv in H. congruence.
Qed.

Lemma best_wildcard ns mi i ss ctx t ctx' nm :
  reaches ns mi i [EWild nm] t → ctx' = ctx_along ns i [EWild nm] ss ctx →
  (∀ nm' t', reaches ns mi i [EWild nm'] t' → nm' = nm) →
  (∀ e es t', named e → reaches ns mi i (e :: es) t' → edges_match (e :: es) ss → ∃ nm', e = EWild nm') →
  (ss = [] → target_at (node_at ns i) mi = None) → trie_wf ns →
  search_ok ns mi i ss ctx (Some (t, ctx')).
Proof.
  intros Hr Hctx Huniq Hothers Hend Hwf. exists [EWild nm]. split_and!; [|done]. split_and!; [done|constructor|].
  intros es' t' Hr' Hm. destruct es' as [|e es'].
  - inversion Hm; subst. apply reaches_nil in Hr'. rewrite Hend in Hr'; done.
  - pose proof Hr' as (c & Hc & _)%reaches_cons. pose proof (twf_named _ Hwf _ _ _ Hc) as Hnm.
    destruct (Hothers _ _ _ Hnm Hr' Hm) as [nm' ->]. inversion Hm; subst. left. f_equal. f_equal. by eapply Huniq.
Qed.

Lemma best_via ns mi i e c ss ctx t es :
  edge_child (node_at ns i) e = Some c → best_match ns mi c (tail ss) es t →
  edges_match (e :: es) ss →
  (∀ e' es' t', reaches ns mi i (e' :: es') t' → edges_match (e' :: es') ss →
    e' = e ∧ edges_match es' (tail ss) ∨ edges_before (e :: es) (e' :: es')) →
  (ss ≠ []) →
  search_ok ns mi i ss ctx (Some (t, ctx_along ns c es (tail ss) (bind_edge e ss (enter_node (node_at ns i) ctx)))).
Proof.
  intros Hc (Hr & Hm & Hbest) Hm' Hothers Hss. exists (e :: es). split; [|cbn; by rewrite Hc].
  split_and!; [|done|].
  - apply reaches_cons. eauto.
  - intros [|e' es'] t' Hr' Hm''; [by inversion Hm''; subst|].
    destruct (Hothers _ _ _ Hr' Hm'') as [[-> Htail]|Hb]; [|by right].
    apply reaches_cons in Hr' as (c' & Hc' & Hr'). rewrite Hc in Hc'. injection Hc' as <-.
    destruct (Hbest _ _ Hr' Htail) as [->|Hb]; [by left|right]. by constructor.
Qed.

Lemma no_match_via ns mi i e c s ss es t :
  edge_child (node_at ns i) e = Some c → no_match ns mi c ss → reaches ns mi i (e :: es) t →
  edges_match es ss → ¬ edges_match (e :: es) (s :: ss).
Proof.
  intros Hc Hno (c' & Hc' & Hr)%reaches_cons Hm. rewrite Hc in Hc'. injection Hc' as <-.
  by destruct (Hno _ _ Hr).
Qed.

Lemma match_node_ok ns mi ss i ctx :
  trie_wf ns → search_ok ns mi i ss ctx (match_node ns mi i ss ctx).
Proof.
  intros Hwf. revert i ctx. induction ss as [|s ss IH]; intros i ctx; cbn [match_node].
  { destruct (target_at (node_at ns i) mi) as [t|] eqn:Et.
    - exists []. split; [|done]. split_and!; [by apply reaches_nil|constructor|].
      intros es' t' _ Hm. inversion Hm; subst; [by left|right; constructor].
    - pose proof (match_wildcard_ok ns mi i [] ctx Hwf) as Hw. cbn [join_route_segments drop] in Hw.
      replace (join_route_segments [] 0) with (@nil ascii) in Hw by done.
      destruct (match_wildcard _ _ _ _ _) as [[t ctx']|]; cbn [wildcard_ok] in Hw.
      + destruct Hw as (nm & Hr & -> & Hu). eapply best_wildcard; [done|done|done| |done|done].
        intros e es t' _ _ Hm. inversion Hm; subst. by eexists.
      + intros es t Hr Hm. inversion Hm; subst; [apply reaches_nil in Hr; congruence|by apply Hw in Hr]. }
  set (ctx1 := enter_node (node_at ns i) ctx).
  (* the static child *)
  destruct (match static_children (node_at ns i) !! s with
    | Some child => match_node ns mi child ss ctx1 | None => None end) as [[t ctx']|] eqn:Es.
  { destruct (static_children (node_at ns i) !! s) as [c|] eqn:Ec; [|done].
    specialize (IH c ctx1). rewrite Es in IH. destruct IH as (es & Hb & ->).
    apply (best_via _ _ _ (EStatic s)); [done|done|by constructor; apply Hb| |done].
    intros e' es' t' _ Hm. inversion Hm; subst; [by left|right; constructor..]. }
  assert (HnoS : ∀ es t, reaches ns mi i (EStatic s :: es) t → ¬ edges_match es ss).
  { intros es t (c & Hc & Hr)%reaches_cons. cbn in Hc. rewrite Hc in Es.
    specialize (IH c ctx1). rewrite Es in IH. by eapply IH. }
  clear Es.
  (* the parameter child *)
  destruct (match parameter_child (node_at ns i) with
    | Some child => match_node ns mi (nc_node child) ss
        (with_params (params_set (c_params ctx1) (nc_name child) s) ctx1)
    | None => None end) as [[t ctx']|] eqn:Ep.
  { destruct (parameter_child (node_at ns i)) as [[nm c]|] eqn:Ec; [|done]. cbn [nc_name nc_node] in Ep.
    pose proof (param_child_edge _ _ _ _ Ec) as Hc.
    specialize (IH c (with_params (params_set (c_params ctx1) nm s) ctx1)). rewrite Ep in IH.
    destruct IH as (es & Hb & ->).
    apply (best_via _ _ _ (EParam nm) c (s :: ss)); [done|done|by constructor; apply Hb| |done].
    intros e' es' t' Hr Hm. inversion Hm; subst.
    - by destruct (HnoS _ _ Hr).
    - left. apply reaches_cons in Hr as (c' & Hr & _). apply param_child_inv in Hr. split; [congruence|done].
    - right; constructor. }
  assert (HnoP : ∀ nm es t, reaches ns mi i (EParam nm :: es) t → ¬ edges_match es ss).
  { intros nm es t (c & Hc & Hr)%reaches_cons. apply param_child_inv in Hc. rewrite Hc in Ep.
    specialize (IH c (with_params (params_set (c_params ctx1) nm s) ctx1)). cbn [nc_name nc_node] in Ep. rewrite Ep in IH.
    by eapply IH. }
  clear Ep. pose proof (match_wildcard_ok ns mi i (s :: ss) ctx Hwf) as Hw. fold ctx1 in Hw.
  destruct (match_wildcard _ _ _ _ _) as [[t ctx']|]; cbn [wildcard_ok] in Hw.
  - destruct Hw as (nm & Hr & -> & Hu). eapply best_wildcard; [done|done|done| |done|done].
    intros e es t' _ Hr' Hm. inversion Hm; subst; [by destruct (HnoS _ _ Hr')|by destruct (HnoP _ _ _ Hr')|by eexists].
  - intros es t Hr Hm. inversion Hm; subst; [by destruct (HnoS _ _ Hr)|by destruct (HnoP _ _ _ Hr)|by apply Hw in Hr].
Qed.

Lemma bind_edge_proj e ss ctx :
  c_on_request (bind_edge e ss ctx) = c_on_request ctx ∧ c_pre_handler (bind_edge e ss ctx) = c_pre_handler ctx ∧
  c_on_response (bind_edge e ss ctx) = c_on_response ctx ∧ c_exception (bind_edge e ss ctx) = c_exception ctx.
Proof. destruct e, ss; done. Qed.

(** The parameters of the collected context are those of the pattern. *)
Lemma ctx_along_params ns mi i es ss ctx t :
  trie_wf ns → reaches ns mi i es t → edges_match es ss →
  c_params (ctx_along ns i es ss ctx) = edges_params es ss (c_params ctx).
Proof.
  intros Hwf Hr Hm. revert i ctx Hr.
  induction Hm; intros i ctx Hr; [done|apply reaches_cons in Hr as (c & Hc & Hr); cbn [ctx_along]; rewrite Hc..].
  - by rewrite IHHm.
  - rewrite IHHm by done. apply (twf_named _ Hwf) in Hc. cbn in *. by rewrite bool_decide_eq_false_2.
  - apply (twf_named _ Hwf) in Hc. cbn in *. by rewrite bool_decide_eq_false_2.
Qed.

(** The nodes entered along the edges, outermost first. *)
Fixpoint nodes_along ns i es : list trie_node :=
  node_at ns i ::
  match es with
  | [] => []
  | e :: es' => match edge_child (node_at ns i) e with Some c => nodes_along ns c es' | None => [] end
  end.

Definition innermost {A} (l : list (option A)) (d : option A) : option A :=
  foldl (λ acc o, match o with Some x => Some x | None => acc end) d l.

Lemma ctx_along_hooks ns i es ss ctx :
  let path := nodes_along ns i es in
  let ctx' := ctx_along ns i es ss ctx in
  c_on_request ctx' = c_on_request ctx ++ concat (map on_request_hooks path) ∧
  c_pre_handler ctx' = c_pre_handler ctx ++ concat (map pre_handler_hooks path) ∧
  c_on_response ctx' = c_on_response ctx ++ concat (map on_response_hooks path) ∧
  c_exception ctx' = innermost (map node_exception_handler path) (c_exception ctx).
Proof.
  revert i ss ctx. induction es as [|e es IH]; intros i ss ctx; cbn [nodes_along ctx_along].
  - cbn. by rewrite !app_nil_r.
  - destruct (edge_child (node_at ns i) e) as [c|].
    + destruct (IH c (tail ss) (bind_edge e ss (enter_node (node_at ns i) ctx))) as (-> & -> & -> & ->).
      destruct (bind_edge_proj e ss (enter_node (node_at ns i) ctx)) as (-> & -> & -> & ->).
      cbn. by rewrite <-!app_assoc.
    + cbn. by rewrite !app_nil_r.
Qed.
End theory.
