(* ===== verification/RouterInv.v ===== *)
(** * The invariant of a router

    [router_inv m r R L]: the trie of [r] holds the routes [R] and the hooks and
    fallbacks of the log [L], each at the node of its pattern or prefix.
    Registrations that succeed add to the lists, those that throw leave them. *)

From S2P Require Import Prelude Text Http UrlEncoding RoutePath Router RouterTheory.

Section spec.
Context {handler hook response_hook exception_handler : Type}.
Local Abbreviation route_target := (route_target handler).
Local Abbreviation trie_node := (trie_node handler hook response_hook exception_handler).
Local Abbreviation router := (router handler hook response_hook exception_handler).
Local Abbreviation match_ctx := (match_ctx hook response_hook exception_handler).
Implicit Types (ns : list trie_node) (n : trie_node) (i j c : nat) (e : edge) (es : list edge).
Implicit Types (t : route_target) (ctx : match_ctx) (r : router) (m : route_path_matching).

(** ** Hooks and fallbacks *)

Inductive config :=
| COnRequest (h : hook)
| CPreHandler (h : hook)
| COnResponse (h : response_hook)
| CNotFound (h : handler)
| CException (h : exception_handler).

Definition configure_prefix r (prefix : str) (cfg : config) : router * result str () :=
  match cfg with
  | COnRequest h => add_on_request_hook r prefix h
  | CPreHandler h => add_pre_handler_hook r prefix h
  | COnResponse h => add_on_response_hook r prefix h
  | CNotFound h => add_not_found_handler r prefix h
  | CException h => add_exception_handler r prefix h
  end.

Definition configure (cfg : config) (n : trie_node) : trie_node :=
  match cfg with
  | COnRequest h => with_hooks (λ l, l ++ [h]) id id n
  | CPreHandler h => with_hooks id (λ l, l ++ [h]) id n
  | COnResponse h => with_hooks id id (λ l, l ++ [h]) n
  | CNotFound h => with_fallback (Some h) (node_exception_handler n) n
  | CException h => with_fallback (not_found_handler n) (Some h) n
  end.

Lemma configure_prefix_eq r prefix cfg : configure_prefix r prefix cfg = update_prefix_node r prefix (configure cfg).
Proof. by destruct cfg. Qed.

(** The trie key of a route and of a prefix. *)
Definition target_key m t : list edge := pattern_edges (parse_route_path (t_pattern t)) m.
Definition prefix_key m (prefix : str) : list edge := pattern_edges (parse_route_path prefix) m.

(** The part of the log that concerns one node. *)
Definition configs_at m (L : list (str * config)) es : list config :=
  omap (λ '(prefix, cfg), if decide (prefix_key m prefix = es) then Some cfg else None) L.

Definition request_hooks_of (cfgs : list config) : list hook :=
  omap (λ cfg, match cfg with COnRequest h => Some h | _ => None end) cfgs.
Definition pre_handler_hooks_of (cfgs : list config) : list hook :=
  omap (λ cfg, match cfg with CPreHandler h => Some h | _ => None end) cfgs.
Definition response_hooks_of (cfgs : list config) : list response_hook :=
  omap (λ cfg, match cfg with COnResponse h => Some h | _ => None end) cfgs.
Definition exception_of (cfgs : list config) : option exception_handler :=
  innermost (map (λ cfg, match cfg with CException h => Some h | _ => None end) cfgs) None.
Definition not_found_of (cfgs : list config) : option handler :=
  innermost (map (λ cfg, match cfg with CNotFound h => Some h | _ => None end) cfgs) None.

Definition configured n (cfgs : list config) : Prop :=
  on_request_hooks n = request_hooks_of cfgs ∧ pre_handler_hooks n = pre_handler_hooks_of cfgs ∧
  on_response_hooks n = response_hooks_of cfgs ∧ node_exception_handler n = exception_of cfgs ∧
  not_found_handler n = not_found_of cfgs.

(** ** The invariant *)

Record router_inv m r (R : list (method * route_target)) (L : list (str * config)) : Prop := {
  ri_matching : matching r = m;
  ri_wf : trie_wf (nodes r);
  ri_routes : ∀ mth es t,
    contents (nodes r) (method_index mth) es = Some t ↔ (mth, t) ∈ R ∧ es = target_key m t;
  ri_valid : ∀ mth t, (mth, t) ∈ R → valid (parse_route_path (t_pattern t)) = true;
  ri_count : route_count r = length R;
  ri_configs : ∀ es j, walk (nodes r) 0 es = Some j → configured (node_at (nodes r) j) (configs_at m L es);
  ri_logged : ∀ prefix cfg, (prefix, cfg) ∈ L → is_Some (walk (nodes r) 0 (prefix_key m prefix))
}.

Lemma method_index_bound mth : method_index mth < method_count.
Proof. by apply Nat.ltb_lt; destruct mth. Qed.

Lemma method_index_inj mth mth' : method_index mth = method_index mth' → mth = mth'.
Proof. by destruct mth, mth'. Qed.

Lemma keeps_edges_target mi t : keeps_edges (with_target mi t : trie_node → trie_node).
Proof. intros n. split; [by intros []|]. cbn. by rewrite length_insert. Qed.

Lemma keeps_edges_configure cfg : keeps_edges (configure cfg).
Proof. intros n. by destruct cfg; (split; [intros []|]). Qed.

Lemma targets_configure cfg n mi : target_at (configure cfg n) mi = target_at n mi.
Proof. by destruct cfg. Qed.

Lemma contents_with_target ns mi t i es0 mi' es :
  trie_wf ns → walk ns 0 es0 = Some i → mi < method_count →
  contents (alter (with_target mi t) i ns) mi' es =
    if decide (mi' = mi ∧ es = es0) then Some t else contents ns mi' es.
Proof.
  intros Hwf Hw Hmi. pose proof (walk_bound _ _ _ _ Hwf (twf_root _ Hwf) Hw) as Hi.
  unfold contents. rewrite alter_walk by (lia || apply keeps_edges_target).
  destruct (walk ns 0 es) as [j|] eqn:E; cbn [mbind option_bind].
  - rewrite node_at_alter by lia. destruct (decide (j = i)) as [->|Hne].
    + assert (es = es0) as -> by by eapply walk_inj.
      unfold target_at. cbn [targets with_target]. destruct (decide (mi' = mi)) as [->|Hne].
      * rewrite decide_True by done. rewrite list_lookup_insert_eq; [done|]. by rewrite (twf_targets _ Hwf).
      * rewrite decide_False by tauto. by rewrite list_lookup_insert_ne.
    + rewrite decide_False; [done|]. intros [_ ->]. congruence.
  - rewrite decide_False; [done|]. intros [_ ->]. congruence.
Qed.

Lemma contents_configure ns cfg i mi es :
  trie_wf ns → i < length ns → contents (alter (configure cfg) i ns) mi es = contents ns mi es.
Proof.
  intros Hwf Hi. unfold contents. rewrite alter_walk by (done || apply keeps_edges_configure).
  destruct (walk ns 0 es) as [j|]; cbn [mbind option_bind]; [|done].
  rewrite node_at_alter by done. case_decide; subst; [|done]. apply targets_configure.
Qed.

Lemma configured_payload n n' cfgs : same_payload n n' → configured n cfgs → configured n' cfgs.
Proof. intros (? & ? & ? & ? & ? & ?) (? & ? & ? & ? & ?). unfold configured. split_and!; congruence. Qed.

Lemma configured_target n cfgs mi t : configured n cfgs → configured (with_target mi t n) cfgs.
Proof. done. Qed.

Lemma configured_configure n cfgs cfg : configured n cfgs → configured (configure cfg n) (cfgs ++ [cfg]).
Proof.
  intros (H1 & H2 & H3 & H4 & H5). unfold configured, request_hooks_of, pre_handler_hooks_of,
    response_hooks_of, exception_of, not_found_of in *.
  unfold innermost. rewrite !omap_app, !map_app, !foldl_app. unfold innermost in *.
  destruct cfg; cbn; rewrite ?H1, ?H2, ?H3, ?H4, ?H5, ?app_nil_r; done.
Qed.

Lemma configs_at_none m (L : list (str * config)) es :
  (∀ prefix cfg, (prefix, cfg) ∈ L → prefix_key m prefix ≠ es) → configs_at m L es = [].
Proof.
  induction L as [|[p cfg] L IH]; intros H; [done|]. cbn.
  rewrite decide_False by (eapply H; by left). apply IH. intros p' c' Hin. eapply H. by right.
Qed.

Lemma empty_inv m : router_inv m (empty_router m) [] [].
Proof.
  assert (Hn : ∀ i, node_at (@nodes handler hook response_hook exception_handler (empty_router m)) i = empty_node).
  { intros [|i]; done. }
  assert (He : ∀ i e, edge_child (node_at (@nodes handler hook response_hook exception_handler
    (empty_router m)) i) e = None).
  { intros i e. rewrite Hn. apply edge_child_empty. }
  constructor; [done| | |by intros ? ? ?%elem_of_nil|done| |by intros ? ? ?%elem_of_nil].
  - constructor; [intros i e c; by rewrite He..|cbn; lia|]. intros i. by rewrite Hn.
  - intros mth es t. split; [|by intros [?%elem_of_nil _]]. unfold contents.
    destruct es as [|e es]; cbn [walk mbind option_bind].
    + by rewrite Hn, target_at_empty.
    + by rewrite He.
  - intros es j. destruct es as [|e es]; cbn [walk mbind option_bind]; [|by rewrite He].
    intros [= <-]. by rewrite Hn.
Qed.

(** A step that only extends the trie keeps the invariant. *)
Lemma extends_inv m r R L ns' :
  router_inv m r R L → trie_wf ns' → extends (nodes r) ns' →
  router_inv m (Router ns' (route_count r) (matching r)) R L.
Proof.
  intros [Hm Hwf Hr Hv Hc Hcfg Hlog] Hwf' Hext. constructor; cbn [nodes matching route_count]; [done..| |done|done| |].
  - intros mth es t. by rewrite (contents_extends _ _ _ _ Hwf' Hext).
  - intros es j Hw. destruct (walk (nodes r) 0 es) as [k|] eqn:E.
    + pose proof (extends_walk _ _ _ _ _ Hext E) as E'. rewrite E' in Hw. injection Hw as <-.
      eapply configured_payload; [apply (ext_payload _ _ Hext)|by apply Hcfg].
    + destruct (extends_walk_new _ _ _ _ _ Hwf' Hext Hw) as [|Hj]; [congruence|].
      rewrite configs_at_none.
      * eapply configured_payload; [apply (ext_payload _ _ Hext)|]. by rewrite node_at_out.
      * intros p cfg [k Hk]%Hlog <-. congruence.
  - intros p cfg [k Hk]%Hlog. exists k. by eapply extends_walk.
Qed.

Lemma configured_at m r R L i ns' cfg prefix :
  router_inv m r R L → trie_wf ns' → extends (nodes r) ns' →
  walk ns' 0 (prefix_key m prefix) = Some i → i < length ns' →
  router_inv m (Router (alter (configure cfg) i ns') (route_count r) (matching r)) R (L ++ [(prefix, cfg)]).
Proof.
  intros Hinv Hwf Hext Hw Hi. pose proof (extends_inv _ _ _ _ _ Hinv Hwf Hext) as [Hm _ Hr Hv Hc Hcfg Hlog].
  cbn [nodes matching route_count] in *.
  constructor; cbn [nodes matching route_count]; [done| | |done|done| |].
  - apply alter_wf; [done|apply keeps_edges_configure|done].
  - intros mth es t. by rewrite contents_configure.
  - intros es j. rewrite alter_walk by (done || apply keeps_edges_configure). intros Hj.
    rewrite node_at_alter by done. unfold configs_at. rewrite omap_app. fold (configs_at m L es). cbn.
    destruct (decide (j = i)) as [->|Hne].
    + assert (es = prefix_key m prefix) as -> by by eapply walk_inj.
      rewrite decide_True by done. apply configured_configure. by apply Hcfg.
    + rewrite decide_False by (intros <-; congruence). rewrite app_nil_r. by apply Hcfg.
  - intros p c. rewrite elem_of_app, list_elem_of_singleton.
    rewrite alter_walk by (done || apply keeps_edges_configure). intros [H|[= -> ->]]; [by eapply Hlog|by rewrite Hw].
Qed.

(** [add_route] on a well-formed trie. *)
Lemma add_route_inv r mth pattern body mb bt h r' res :
  trie_wf (nodes r) → add_route r mth pattern body mb bt h = (r', res) →
  let t := RouteTarget body mb bt h (join_route_pattern [] pattern) in
  matching r' = matching r ∧
  match res with
  | Err _ => route_count r' = route_count r ∧ trie_wf (nodes r') ∧ extends (nodes r) (nodes r')
  | Ok _ => valid (parse_route_path (t_pattern t)) = true ∧ route_count r' = S (route_count r) ∧
      ∃ ns i, trie_wf ns ∧ extends (nodes r) ns ∧ walk ns 0 (target_key (matching r) t) = Some i ∧
        target_at (node_at ns i) (method_index mth) = None ∧
        nodes r' = alter (with_target (method_index mth) t) i ns
  end.
Proof.
  intros Hwf. unfold add_route. rewrite (proj2 (Nat.ltb_lt _ _)) by apply method_index_bound. cbn [negb].
  destruct (valid (parse_route_path (join_route_pattern [] pattern))) eqn:Ev; cbn [negb]; [|by intros [= <- <-]].
  pose proof (add_route_segments_ok (nodes r) 0
    (pattern_segments (parse_route_path (join_route_pattern [] pattern)) (matching r)) Hwf (twf_root _ Hwf)) as Hok.
  unfold loop_ok in Hok. destruct (add_route_segments _ _ _) as [ns [i|err]]; destruct Hok as (Hwf' & Hext & Hw).
  2:{ by intros [= <- <-]. }
  destruct (target_at (node_at ns i) (method_index mth)) eqn:Et; intros [= <- <-]; [done|].
  cbn. split_and!; [done..|]. exists ns, i. split_and!; [done|done|by apply Hw|done|done].
Qed.

Lemma configure_prefix_inv r prefix cfg r' res :
  trie_wf (nodes r) → configure_prefix r prefix cfg = (r', res) →
  match res with
  | Err _ => ∃ ns, r' = Router ns (route_count r) (matching r) ∧ trie_wf ns ∧ extends (nodes r) ns
  | Ok _ => ∃ ns i, r' = Router (alter (configure cfg) i ns) (route_count r) (matching r) ∧
      trie_wf ns ∧ extends (nodes r) ns ∧ walk ns 0 (prefix_key (matching r) prefix) = Some i ∧ i < length ns
  end.
Proof.
  intros Hwf. rewrite configure_prefix_eq. unfold update_prefix_node, ensure_prefix_node.
  destruct (valid (parse_route_path prefix)) eqn:Ev; cbn [negb].
  2:{ intros [= <- <-]. exists (nodes r). by destruct r. }
  pose proof (ensure_prefix_segments_ok (nodes r) 0
    (pattern_segments (parse_route_path prefix) (matching r)) Hwf (twf_root _ Hwf)) as Hok.
  unfold loop_ok in Hok. destruct (ensure_prefix_segments _ _ _) as [ns [i|err]]; destruct Hok as (Hwf' & Hext & Hw);
    intros [= <- <-]; cbn [nodes route_count matching].
  - exists ns, i. destruct (Hw i eq_refl). done.
  - by exists ns.
Qed.

Lemma add_route_keeps_inv m r R L mth pattern body mb bt h r' res :
  router_inv m r R L → add_route r mth pattern body mb bt h = (r', res) →
  router_inv m r'
    (match res with Ok _ => R ++ [(mth, RouteTarget body mb bt h (join_route_pattern [] pattern))] | Err _ => R end) L.
Proof.
  intros IH Hadd. pose proof (add_route_inv _ _ _ _ _ _ _ _ _ (ri_wf _ _ _ _ IH) Hadd) as Hinv. cbv zeta in Hinv.
  destruct res as [[]|err].
  2:{ destruct Hinv as (Hm & Hc & Hwf & Hext).
      replace r' with (Router (nodes r') (route_count r) (matching r)); [by apply extends_inv|].
      rewrite <-Hm, <-Hc. by destruct r'. }
  destruct Hinv as (Hm & Hv & Hc & ns & i & Hwf & Hext & Hw & Hfree & Hns).
  pose proof (extends_inv _ _ _ _ _ IH Hwf Hext) as [Hm' _ Hr' Hv' Hc' Hcfg' Hlog']. cbn [nodes matching route_count] in *.
  set (t := RouteTarget body mb bt h (join_route_pattern [] pattern)) in *.
  rewrite Hm' in Hw. pose proof (walk_bound _ _ _ _ Hwf (twf_root _ Hwf) Hw) as Hi.
  constructor.
  + congruence.
  + rewrite Hns. apply alter_wf; [done|apply keeps_edges_target|lia].
  + intros mth' es t'. rewrite Hns.
    rewrite (contents_with_target _ _ _ _ _ _ _ Hwf Hw) by apply method_index_bound.
    rewrite elem_of_app, list_elem_of_singleton. case_decide as Hd.
    * destruct Hd as [Hd ->]. apply method_index_inj in Hd as ->. split; [intros [= <-]; auto|].
      intros [[Hin|[= ->]] Hk]; [|done]. exfalso.
      assert (contents ns (method_index mth) (target_key m t) = Some t') as Hcon by by apply Hr'.
      unfold contents in Hcon. rewrite Hw in Hcon. cbn in Hcon. congruence.
    * rewrite Hr'. split; [by intros [? ?]; auto|]. intros [[Hin|[= -> ->]] ->]; [done|]. by destruct Hd.
  + intros mth' t'. rewrite elem_of_app, list_elem_of_singleton. intros [Hin|[= -> ->]]; [by eapply Hv'|done].
  + rewrite length_app. cbn. lia.
  + intros es j. rewrite Hns, alter_walk by (lia || apply keeps_edges_target). intros Hj.
    rewrite node_at_alter by lia. case_decide; subst; [|by apply Hcfg'].
    by apply configured_target, Hcfg'.
  + intros p cfg Hin. rewrite Hns, alter_walk by (lia || apply keeps_edges_target). by eapply Hlog'.
Qed.

Lemma configure_keeps_inv m r R L prefix cfg r' res :
  router_inv m r R L → configure_prefix r prefix cfg = (r', res) →
  router_inv m r' R (match res with Ok _ => L ++ [(prefix, cfg)] | Err _ => L end).
Proof.
  intros IH Hcfg. pose proof (configure_prefix_inv _ _ _ _ _ (ri_wf _ _ _ _ IH) Hcfg) as Hinv. destruct res as [[]|err].
  - destruct Hinv as (ns & i & -> & Hwf & Hext & Hw & Hi).
    apply configured_at; [done..| |done]. by rewrite <-(ri_matching _ _ _ _ IH).
  - destruct Hinv as (ns & -> & Hwf & Hext). by apply extends_inv.
Qed.
End spec.

(** * Prefixes of route patterns

    [join_route_pattern] puts a prefix before a pattern with any number of
    slashes between them.  Slashes only separate segments, so that the segments
    of the joined pattern are those of the prefix followed by those of the
    pattern, whatever slashes the three strings have. *)

(** The segments that parsing keeps. *)
Definition pieces (s : str) : list str := filter (λ x, x ≠ []) (split_on "/" s).

Lemma split_on_sep c s t : split_on c (s ++ c :: t) = split_on c s ++ split_on c t.
Proof.
  induction s as [|x s IH]; cbn [app split_on]; [by rewrite is_char_refl|].
  destruct (is_char c x); [by rewrite IH|]. rewrite IH. pose proof (split_on_ne c s). by destruct (split_on c s).
Qed.

Lemma pieces_sep s t : pieces (s ++ "/"%char :: t) = pieces s ++ pieces t.
Proof. unfold pieces. by rewrite split_on_sep, filter_app. Qed.

Lemma pieces_nil : pieces [] = [].
Proof. done. Qed.

Lemma pieces_slash t : pieces ("/"%char :: t) = pieces t.
Proof. exact (pieces_sep [] t). Qed.

Lemma pieces_pop r : pieces (reverse (pop_slashes r)) = pieces (reverse r).
Proof.
  induction r as [|c [|d r] IH]; [done..|].
  change (pop_slashes (c :: d :: r)) with (if is_char "/" c then pop_slashes (d :: r) else c :: d :: r). destruct (is_char "/" c) eqn:E; [|done].
  rewrite IH. apply is_char_true in E as <-. by rewrite (reverse_cons (d :: r) "/"%char), pieces_sep, pieces_nil, app_nil_r.
Qed.

Lemma pieces_normalize p : pieces (normalize_group_prefix p) = pieces p.
Proof.
  destruct p as [|c p]; [done|]. cbn [normalize_group_prefix]. case_bool_decide as Hp; [by rewrite Hp|].
  rewrite pieces_pop, reverse_involutive. destruct (is_char "/" c); [done|]. apply pieces_slash.
Qed.

Lemma pieces_join p q : pieces (join_route_pattern p q) = pieces p ++ pieces q.
Proof.
  unfold join_route_pattern. rewrite <-(pieces_normalize p). destruct (normalize_group_prefix p) as [|x n].
  - cbn [pieces]. destruct q as [|c q]; [done|]. destruct (is_char "/" c); [done|]. apply pieces_slash.
  - destruct q as [|c q]; [by rewrite pieces_nil, app_nil_r|]. case_bool_decide as Hq; [rewrite Hq; by rewrite app_nil_r|].
    destruct (is_char "/" c) eqn:E.
    + apply is_char_true in E as <-. by rewrite pieces_sep, pieces_slash.
    + apply pieces_sep.
Qed.

(** Parsing looks at the pieces only. *)
Lemma parse_route_segments_filter l parsed :
  parse_route_segments (filter (λ x, x ≠ []) l) parsed = parse_route_segments l parsed.
Proof.
  revert parsed. induction l as [|s l IH]; intros parsed; [done|]. cbn [parse_route_segments]. case_bool_decide as Hs.
  - rewrite filter_cons_False by (intros H; by apply H). apply IH.
  - rewrite filter_cons_True by done. cbn [parse_route_segments]. rewrite bool_decide_eq_false_2 by done.
    destruct (decode_path_segment s); [apply IH|done].
Qed.

Lemma parse_route_pieces s : parse_route_path s = parse_route_segments (pieces s) (RoutePath [] [] true).
Proof. unfold parse_route_path, pieces. by rewrite segments_split_on, parse_route_segments_filter. Qed.

Definition append_path (p q : route_path) : route_path :=
  RoutePath (raw_segments p ++ raw_segments q) (decoded_segments p ++ decoded_segments q) (valid q).

Lemma parse_route_segments_acc l p parsed :
  parse_route_segments l (append_path p parsed) = append_path p (parse_route_segments l parsed).
Proof.
  revert parsed. induction l as [|s l IH]; intros parsed; [done|]. cbn [parse_route_segments].
  case_bool_decide; [apply IH|]. destruct (decode_path_segment s) as [d|]; [|done].
  rewrite <-IH. unfold append_path. cbn. by rewrite !app_assoc.
Qed.

Lemma parse_route_segments_app l l' parsed :
  valid (parse_route_segments l parsed) = true →
  parse_route_segments (l ++ l') parsed = parse_route_segments l' (parse_route_segments l parsed).
Proof.
  revert parsed. induction l as [|s l IH]; intros parsed; [done|]. cbn [parse_route_segments app].
  case_bool_decide; [apply IH|]. destruct (decode_path_segment s) as [d|]; [apply IH|done].
Qed.

Lemma parse_join p q :
  valid (parse_route_path p) = true →
  parse_route_path (join_route_pattern p q) = append_path (parse_route_path p) (parse_route_path q).
Proof.
  rewrite !parse_route_pieces, pieces_join. intros Hp. rewrite parse_route_segments_app by done.
  rewrite <-parse_route_segments_acc. f_equal. destruct (parse_route_segments _ _) as [raw dec v]. cbn in Hp.
  unfold append_path. cbn. by rewrite !app_nil_r, Hp.
Qed.

Lemma parse_normalize p : parse_route_path (normalize_group_prefix p) = parse_route_path p.
Proof. by rewrite !parse_route_pieces, pieces_normalize. Qed.

Lemma pattern_segments_append p q m :
  route_path_wf p → pattern_segments (append_path p q) m = pattern_segments p m ++ pattern_segments q m.
Proof.
  intros [Hl _ _]. unfold pattern_segments. destruct m; cbn; (rewrite zip_with_app; [done|]); [done|exact Hl].
Qed.

(** A joined pattern is valid when both parts are. *)
Lemma valid_segments_app l l' parsed :
  valid (parse_route_segments (l ++ l') parsed) = true → valid parsed = true →
  valid (parse_route_segments l parsed) = true.
Proof.
  revert parsed. induction l as [|s l IH]; intros parsed; [done|]. cbn [parse_route_segments app].
  case_bool_decide; [apply IH|]. destruct (decode_path_segment s); [|done]. intros Hv Hp. by apply IH.
Qed.

Lemma valid_join p q :
  valid (parse_route_path (join_route_pattern p q)) = true → valid (parse_route_path p) = true.
Proof. rewrite !parse_route_pieces, pieces_join. intros H. by eapply valid_segments_app. Qed.
