(* ===== verification/RouterMount.v ===== *)
(** * Mounting a router

    [router::mount] and its helpers in [src/http/router.cpp].  The tree of the
    mounted router is merged into the tree below the prefix.  Both are vectors
    of nodes; children of the mounted router that the destination lacks are
    copied to the end of its vector.

    A node is visited once, so that what was moved out of the mounted router is
    not looked at again: its vector is a value here.  The recursion over a tree
    takes fuel, and [mount] gives it one more than the vector has nodes; a child
    has a greater index than its parent. *)

From S2P Require Import Prelude Text UrlEncoding RoutePath Http Router.

(** The order in which an [std::unordered_map] is iterated is not specified:
    it is some list of its elements. *)
Class StaticOrder := {
  static_order : gmap str nat → list (str * nat);
  static_order_permutation m : static_order m ≡ₚ map_to_list m
}.

(** One order, for examples. *)
Definition some_order : StaticOrder.
Proof. by exists map_to_list. Defined.

(** A loop whose body may throw. *)
Fixpoint for_each {A E} (f : A → result E ()) (l : list A) : result E () :=
  match l with
  | [] => Ok ()
  | x :: l' => match f x with Ok _ => for_each f l' | Err e => Err e end
  end.

Section mount.
Context {handler hook response_hook exception_handler : Type} {order : StaticOrder}.
Local Abbreviation route_target := (route_target handler).
Local Abbreviation trie_node := (trie_node handler hook response_hook exception_handler).
Local Abbreviation router := (router handler hook response_hook exception_handler).
Implicit Types (mounted ns : list trie_node).

(** ** The patterns of the mounted routes *)

Definition prefix_target (prefix : str) (t : route_target) : route_target :=
  RouteTarget (t_body t) (t_max_body_bytes t) (t_body_timeout t) (t_handler t)
    (join_route_pattern prefix (t_pattern t)).

Definition prefix_node (prefix : str) (n : trie_node) : trie_node :=
  TrieNode (static_children n) (parameter_child n) (wildcard_child n) (map (fmap (prefix_target prefix)) (targets n))
    (on_request_hooks n) (pre_handler_hooks n) (on_response_hooks n) (not_found_handler n) (node_exception_handler n).

Definition prefix_route_patterns (prefix : str) ns : list trie_node :=
  if bool_decide (prefix = []) then ns else map (prefix_node prefix) ns.

(** ** Conflicts *)

Definition both {A B} (a : option A) (b : option B) : bool :=
  match a, b with Some _, Some _ => true | _, _ => false end.

(** The checks of the two nodes themselves. *)
Definition validate_payload (destination source : trie_node) : result str () :=
  if existsb (λ mi, both (target_at destination mi) (target_at source mi)) (seq 0 method_count) then
    Err (lit "HTTP mounted router conflicts with an existing route")
  else if both (not_found_handler destination) (not_found_handler source) then
    Err (lit "HTTP mounted router not_found fallback conflicts with an existing fallback")
  else if both (node_exception_handler destination) (node_exception_handler source) then
    Err (lit "HTTP mounted router exception fallback conflicts with an existing fallback")
  else Ok ().

(** A parameter or wildcard child that both have. *)
Definition validate_named (validate : nat → nat → result str ()) (conflict : str)
    (destination source : option named_child) : result str () :=
  match source, destination with
  | Some s, Some d =>
    if bool_decide (nc_name d = nc_name s) then validate (nc_node d) (nc_node s) else Err conflict
  | _, _ => Ok ()
  end.

Fixpoint validate_mount_node (fuel : nat) ns mounted (destination_index source_index : nat) : result str () :=
  match fuel with
  | O => Ok ()
  | S fuel =>
    let destination := node_at ns destination_index in
    let source := node_at mounted source_index in
    _ ← validate_payload destination source;
    _ ← for_each (λ '(segment, source_child),
          match static_children destination !! segment with
          | Some destination_child => validate_mount_node fuel ns mounted destination_child source_child
          | None => Ok ()
          end) (static_order (static_children source));
    _ ← validate_named (validate_mount_node fuel ns mounted)
          (lit "HTTP mounted router parameter conflicts with an existing parameter route")
          (parameter_child destination) (parameter_child source);
    validate_named (validate_mount_node fuel ns mounted)
      (lit "HTTP mounted router wildcard conflicts with an existing wildcard route")
      (wildcard_child destination) (wildcard_child source)
  end.

(** ** Merging *)

Definition or_else {A} (a b : option A) : option A := match a with Some _ => a | None => b end.

(** Hooks are appended; a target or fallback of the source replaces the one of
    the destination. *)
Definition merge_payload (source destination : trie_node) : trie_node :=
  TrieNode (static_children destination) (parameter_child destination) (wildcard_child destination)
    (imap (λ mi t, or_else (target_at source mi) t) (targets destination))
    (on_request_hooks destination ++ on_request_hooks source)
    (pre_handler_hooks destination ++ pre_handler_hooks source)
    (on_response_hooks destination ++ on_response_hooks source)
    (or_else (not_found_handler source) (not_found_handler destination))
    (or_else (node_exception_handler source) (node_exception_handler destination)).

(** [merge] is [merge_mount_node] of the mounted router. *)
Definition move_mount_subtree (merge : list trie_node → nat → nat → list trie_node) ns (source_index : nat)
    : list trie_node * nat :=
  let destination_index := length ns in
  (merge (ns ++ [empty_node]) destination_index source_index, destination_index).

(** The loop body over the static children. *)
Definition merge_static (merge : list trie_node → nat → nat → list trie_node) (destination_index : nat)
    ns (child : str * nat) : list trie_node :=
  let '(segment, source_child) := child in
  match static_children (node_at ns destination_index) !! segment with
  | Some destination_child => merge ns destination_child source_child
  | None =>
    let '(ns, destination_child) := move_mount_subtree merge ns source_child in
    alter (with_static segment destination_child) destination_index ns
  end.

Definition merge_parameter (merge : list trie_node → nat → nat → list trie_node) (destination_index : nat)
    ns (child : option named_child) : list trie_node :=
  match child with
  | None => ns
  | Some c =>
    match parameter_child (node_at ns destination_index) with
    | Some d => merge ns (nc_node d) (nc_node c)
    | None =>
      let '(ns, destination_child) := move_mount_subtree merge ns (nc_node c) in
      alter (with_parameter (NamedChild (nc_name c) destination_child)) destination_index ns
    end
  end.

Definition merge_wildcard (merge : list trie_node → nat → nat → list trie_node) (destination_index : nat)
    ns (child : option named_child) : list trie_node :=
  match child with
  | None => ns
  | Some c =>
    match wildcard_child (node_at ns destination_index) with
    | Some d => merge ns (nc_node d) (nc_node c)
    | None =>
      let '(ns, destination_child) := move_mount_subtree merge ns (nc_node c) in
      alter (with_wildcard (NamedChild (nc_name c) destination_child)) destination_index ns
    end
  end.

Fixpoint merge_mount_node (fuel : nat) mounted ns (destination_index source_index : nat) : list trie_node :=
  match fuel with
  | O => ns
  | S fuel =>
    let source := node_at mounted source_index in
    let merge := merge_mount_node fuel mounted in
    let ns := alter (merge_payload source) destination_index ns in
    let ns := foldl (merge_static merge destination_index) ns (static_order (static_children source)) in
    let ns := merge_parameter merge destination_index ns (parameter_child source) in
    merge_wildcard merge destination_index ns (wildcard_child source)
  end.

(** ** [mount] *)

(** What is mounted: the router itself, which is refused, or another one. *)
Inductive mount_source :=
| mount_itself
| mount_other (mounted : router).

(** The destination, the mounted router and the outcome.  A call that throws
    leaves the mounted router alone, and of the destination it leaves the nodes
    of the prefix. *)
Definition mount (r : router) (prefix : str) (source : mount_source) : router * mount_source * result str () :=
  match source with
  | mount_itself => (r, source, Err (lit "HTTP router cannot mount itself"))
  | mount_other mounted =>
    if negb (bool_decide (matching mounted = matching r)) then
      (r, source, Err (lit "HTTP mounted router path matching mode conflicts with destination router"))
    else
      match ensure_prefix_node r prefix with
      | (r', Err e) => (r', source, Err e)
      | (r', Ok destination_index) =>
        let fuel := S (length (nodes mounted)) in
        match validate_mount_node fuel (nodes r') (nodes mounted) destination_index 0 with
        | Err e => (r', source, Err e)
        | Ok _ =>
          let prefixed := prefix_route_patterns (normalize_group_prefix prefix) (nodes mounted) in
          (Router (merge_mount_node fuel prefixed (nodes r') destination_index 0)
             (route_count r' + route_count mounted) (matching r'),
           mount_other (Router [empty_node] 0 (matching mounted)), Ok ())
        end
      end
  end.
End mount.

#[global] Arguments mount_source : clear implicits.
