(* ===== verification/RouterMountTheory.v ===== *)
(** * What merging two trees gives

    A tree is seen as a function from lists of edges to nodes without their
    children ([subtree]).  [merge_mount_node] is then the pointwise combination
    of two trees, and [validate_mount_node] decides whether they conflict. *)

From S2P Require Import Prelude Text UrlEncoding RoutePath Http Router RouterTheory RouterMount.

Section theory.
Context {handler hook response_hook exception_handler : Type} {order : StaticOrder}.
Local Abbreviation route_target := (route_target handler).
Local Abbreviation trie_node := (trie_node handler hook response_hook exception_handler).
Implicit Types (mounted ns : list trie_node) (n : trie_node) (i j c d s : nat) (e : edge) (es : list edge).

(** ** Trees *)

Definition strip n : trie_node :=
  TrieNode ∅ None None (targets n) (on_request_hooks n) (pre_handler_hooks n) (on_response_hooks n)
    (not_found_handler n) (node_exception_handler n).

Definition subtree ns i es : option trie_node := (λ j, strip (node_at ns j)) <$> walk ns i es.

(** A node that only one of the trees has is kept. *)
Definition merge_nodes (a b : option trie_node) : option trie_node :=
  match a, b with
  | Some x, Some y => Some (merge_payload y x)
  | Some x, None => Some x
  | None, _ => b
  end.

(** The parameter and wildcard children that both trees have carry one name. *)
Definition names_agree (T T' : list edge → option trie_node) : Prop :=
  (∀ es nm nm', is_Some (T (es ++ [EParam nm])) → is_Some (T' (es ++ [EParam nm'])) → nm = nm') ∧
  (∀ es nm nm', is_Some (T (es ++ [EWild nm])) → is_Some (T' (es ++ [EWild nm'])) → nm = nm').

Lemma names_agree_under T T' T1 T1' e :
  names_agree T T' → (∀ es, T1 es = T (e :: es)) → (∀ es, T1' es = T' (e :: es)) → names_agree T1 T1'.
Proof.
  intros [Hp Hw] H1 H1'. split; intros es nm nm'; rewrite H1, H1'; [apply (Hp (e :: es))|apply (Hw (e :: es))].
Qed.

Lemma strip_same n n' : same_payload n n' → strip n = strip n'.
Proof. intros (? & ? & ? & ? & ? & ?). unfold strip. congruence. Qed.

Lemma subtree_nil ns i : subtree ns i [] = Some (strip (node_at ns i)).
Proof. done. Qed.

Lemma subtree_cons ns i e es : subtree ns i (e :: es) = edge_child (node_at ns i) e ≫= λ c, subtree ns c es.
Proof. unfold subtree. cbn [walk]. by destruct (edge_child (node_at ns i) e). Qed.

(** Only the nodes that are reached matter. *)
Lemma subtree_same ns ns' i es :
  (∀ es j, walk ns i es = Some j → node_at ns' j = node_at ns j) → subtree ns' i es = subtree ns i es.
Proof.
  revert i. induction es as [|e es IH]; intros i Hn.
  - rewrite !subtree_nil. by rewrite (Hn [] i).
  - rewrite !subtree_cons. rewrite (Hn [] i) by done. destruct (edge_child (node_at ns i) e) as [c|] eqn:E; cbn; [|done].
    apply IH. intros es' j Hj. apply (Hn (e :: es')). cbn. by rewrite E.
Qed.

(** ** Growing *)

Record grows ns ns' : Prop := {
  gr_length : length ns ≤ length ns';
  gr_old : ∀ i e c, edge_child (node_at ns i) e = Some c → edge_child (node_at ns' i) e = Some c;
  gr_new : ∀ i e c, edge_child (node_at ns' i) e = Some c →
    edge_child (node_at ns i) e = Some c ∨ length ns ≤ c
}.

#[global] Instance grows_preorder : PreOrder grows.
Proof.
  split.
  - intros ns. constructor; auto.
  - intros ns1 ns2 ns3 [L1 O1 N1] [L2 O2 N2]. constructor; [lia|auto|].
    intros i e c [H1|H1]%N2; [|right; lia]. by apply N1 in H1.
Qed.

Lemma grows_walk ns ns' i es j : grows ns ns' → walk ns i es = Some j → walk ns' i es = Some j.
Proof.
  intros Hg. revert i. induction es as [|e es IH]; intros i; cbn; [done|].
  destruct (edge_child (node_at ns i) e) as [c|] eqn:E; cbn; [|done].
  rewrite (gr_old _ _ Hg _ _ _ E). cbn. apply IH.
Qed.

Lemma grows_walk_new ns ns' i es j :
  trie_wf ns' → grows ns ns' → walk ns' i es = Some j → walk ns i es = Some j ∨ length ns ≤ j.
Proof.
  intros Hwf Hg. revert i. induction es as [|e es IH]; intros i; cbn; [auto|].
  destruct (edge_child (node_at ns' i) e) as [c|] eqn:E; cbn; [|done]. intros Hw.
  destruct (gr_new _ _ Hg _ _ _ E) as [H1|H1].
  - rewrite H1. cbn. by apply IH.
  - right. apply (twf_child _ Hwf) in E. apply walk_bound in Hw; [lia|done|lia].
Qed.

(** The nodes that node [d] does not lead to stay as they are. *)
Definition elsewhere ns d ns' : Prop :=
  ∀ i, i < length ns → (∀ es, walk ns d es ≠ Some i) → node_at ns' i = node_at ns i.

Lemma elsewhere_trans ns1 ns2 ns3 d :
  trie_wf ns2 → grows ns1 ns2 → elsewhere ns1 d ns2 → elsewhere ns2 d ns3 → elsewhere ns1 d ns3.
Proof.
  intros Hwf Hg H1 H2 i Hi Hn. rewrite H2, H1; [done|done|done| |].
  - destruct Hg. lia.
  - intros es Hw. destruct (grows_walk_new _ _ _ _ _ Hwf Hg Hw) as [Hw'|]; [by eapply Hn|lia].
Qed.

(** ** The two ways of merging a child *)

Record child_merged ns d e mounted s ns' : Prop := {
  cm_wf : trie_wf ns';
  cm_grows : grows ns ns';
  cm_elsewhere : elsewhere ns d ns';
  cm_root : strip (node_at ns' d) = strip (node_at ns d);
  cm_child es : subtree ns' d (e :: es) = merge_nodes (subtree ns d (e :: es)) (subtree mounted s es);
  cm_others e' es : e' ≠ e → subtree ns' d (e' :: es) = subtree ns d (e' :: es)
}.

Record merged ns d mounted s ns' : Prop := {
  mg_wf : trie_wf ns';
  mg_grows : grows ns ns';
  mg_elsewhere : elsewhere ns d ns';
  mg_subtree es : subtree ns' d es = merge_nodes (subtree ns d es) (subtree mounted s es)
}.

Lemma child_existing ns d e c mounted s ns' :
  trie_wf ns → d < length ns → edge_child (node_at ns d) e = Some c → merged ns c mounted s ns' →
  child_merged ns d e mounted s ns'.
Proof.
  intros Hwf Hd Hc [Hwf' Hg Hel Hs].
  pose proof (twf_child _ Hwf _ _ _ Hc) as Hb.
  assert (Hroot : node_at ns' d = node_at ns d).
  { apply Hel; [done|]. intros es Hw. apply walk_bound in Hw; [lia|done|lia]. }
  constructor; [done|done| |by rewrite Hroot| |].
  - intros i Hi Hn. apply Hel; [done|]. intros es Hw. apply (Hn (e :: es)). cbn. by rewrite Hc.
  - intros es. rewrite !subtree_cons, Hroot, Hc. cbn. apply Hs.
  - intros e' es Hne. rewrite !subtree_cons, Hroot. destruct (edge_child (node_at ns d) e') as [c'|] eqn:E; cbn; [|done].
    apply subtree_same. intros es1 j Hj. apply Hel.
    + apply (twf_child _ Hwf) in E. apply walk_bound in Hj; [lia|done|lia].
    + intros es2 Hj2. assert (e' :: es1 = e :: es2) as [= -> _]; [|done].
      apply (walk_inj_from ns d _ _ j Hwf Hd); cbn; [by rewrite E|by rewrite Hc].
Qed.

Lemma node_at_app_empty ns i : node_at (ns ++ [empty_node]) i = node_at ns i.
Proof.
  unfold node_at. destruct (decide (i < length ns)).
  - by rewrite lookup_app_l.
  - rewrite (lookup_ge_None_2 ns) by lia. rewrite lookup_app_r by lia. by destruct (i - length ns) as [|k].
Qed.

Lemma app_empty_wf ns : trie_wf ns → trie_wf (ns ++ [empty_node]).
Proof.
  intros Hwf. constructor.
  - intros i e c. rewrite node_at_app_empty, length_app. intros Hc%(twf_child _ Hwf). lia.
  - intros i e i' e' c. rewrite !node_at_app_empty. apply (twf_parent _ Hwf).
  - intros i e c. rewrite node_at_app_empty. apply (twf_named _ Hwf).
  - rewrite length_app. cbn. lia.
  - intros i. rewrite node_at_app_empty. apply (twf_targets _ Hwf).
Qed.

(** A fresh tree is hung under a free edge. *)
Lemma attach_orphan_wf ns f d k e :
  trie_wf ns → d < k < length ns → named e → edge_child (node_at ns d) e = None →
  (∀ i e, edge_child (node_at ns i) e ≠ Some k) → attaches f e k (node_at ns d) → trie_wf (alter f d ns).
Proof.
  intros Hwf [Hd Hk] Hnamed Hfree Horphan [Hf Hp].
  assert (Hcase : ∀ j e' c, edge_child (node_at (alter f d ns) j) e' = Some c →
    edge_child (node_at ns j) e' = Some c ∨ (j = d ∧ e' = e ∧ c = k)).
  { intros j e' c. rewrite node_at_alter by lia. case_decide; subst; [|auto].
    rewrite Hf. case_decide; subst; [|auto]. intros [= <-]. auto. }
  constructor; rewrite ?length_alter.
  - intros j e' c [H1|(-> & -> & ->)]%Hcase; [by apply (twf_child _ Hwf) in H1|lia].
  - intros j e1 j' e2 c [H1|(-> & -> & ->)]%Hcase [H2|(-> & -> & Hc)]%Hcase; subst.
    + by eapply (twf_parent _ Hwf).
    + by apply Horphan in H1.
    + by apply Horphan in H2.
    + done.
  - intros j e' c [H1|(-> & -> & ->)]%Hcase; [|done]. by apply (twf_named _ Hwf) in H1.
  - apply Hwf.
  - intros j. rewrite node_at_alter by lia. case_decide; subst; [|apply (twf_targets _ Hwf)].
    destruct Hp as [<- _]. apply (twf_targets _ Hwf).
Qed.

Lemma merge_payload_empty n : length (targets n) = method_count → merge_payload n empty_node = strip n.
Proof.
  intros Hl. unfold merge_payload, strip, empty_node. cbn -[imap replicate]. f_equal.
  - apply list_eq. intros mi. rewrite list_lookup_imap.
    destruct (decide (mi < method_count)) as [Hmi|Hmi].
    + rewrite lookup_replicate_2 by done. cbn. unfold target_at.
      destruct (targets n !! mi) as [[t|]|] eqn:E; cbn; [done|done|]. apply lookup_ge_None in E. lia.
    + rewrite (lookup_ge_None_2 (replicate _ _)) by (rewrite length_replicate; lia). cbn.
      by rewrite lookup_ge_None_2 by lia.
  - by destruct (not_found_handler n).
  - by destruct (node_exception_handler n).
Qed.

Lemma subtree_fresh ns es :
  trie_wf ns → subtree (ns ++ [empty_node]) (length ns) es = match es with [] => Some empty_node | _ => None end.
Proof.
  intros Hwf. destruct es as [|e es].
  - rewrite subtree_nil, node_at_app_empty, node_at_out by done. done.
  - rewrite subtree_cons, node_at_app_empty, node_at_out by done. by rewrite edge_child_empty.
Qed.

Lemma child_moved ns d e mounted s ns' f :
  trie_wf ns → trie_wf mounted → d < length ns → named e → edge_child (node_at ns d) e = None →
  merged (ns ++ [empty_node]) (length ns) mounted s ns' → attaches f e (length ns) (node_at ns d) →
  child_merged ns d e mounted s (alter f d ns').
Proof.
  intros Hwf Hwfm Hd Hnamed Hfree [Hwf' Hg Hel Hs] [Hf Hp].
  assert (Hl : length ns < length ns') by (destruct Hg as [Hl _ _]; rewrite length_app in Hl; cbn in Hl; lia).
  assert (Hkeep : ∀ i, i < length ns → node_at ns' i = node_at ns i).
  { intros i Hi. rewrite Hel, node_at_app_empty; [done|rewrite length_app; lia|].
    intros es Hw. apply walk_bound in Hw; [lia|by apply app_empty_wf|rewrite length_app; cbn; lia]. }
  assert (Hnew : ∀ i e' c, edge_child (node_at ns' i) e' = Some c →
    edge_child (node_at ns i) e' = Some c ∨ length ns < c).
  { intros i e' c Hc. destruct (gr_new _ _ Hg _ _ _ Hc) as [H1|H1]; [left; by rewrite node_at_app_empty in H1|right].
    rewrite length_app in H1. cbn in H1. lia. }
  assert (Hk : ∀ i, i < length ns → i ≠ d → node_at (alter f d ns') i = node_at ns i).
  { intros i Hi Hne. rewrite node_at_alter by lia. rewrite decide_False by done. by apply Hkeep. }
  assert (Hkd : node_at (alter f d ns') d = f (node_at ns d)).
  { rewrite node_at_alter by lia. rewrite decide_True by done. by rewrite Hkeep. }
  constructor.
  - eapply attach_orphan_wf; [done|split; [exact Hd|done]|exact Hnamed|by rewrite Hkeep| |by rewrite Hkeep].
    intros i e' [Hc|Hc]%Hnew; [|lia]. apply (twf_child _ Hwf) in Hc. lia.
  - constructor; rewrite ?length_alter; [lia| |].
    + intros i e' c Hc. destruct (decide (i = d)) as [->|Hne].
      * rewrite Hkd, Hf. case_decide; subst; [congruence|done].
      * rewrite node_at_alter by lia. rewrite decide_False by done. apply (gr_old _ _ Hg). by rewrite node_at_app_empty.
    + intros i e' c. destruct (decide (i = d)) as [->|Hne].
      * rewrite Hkd, Hf. case_decide; subst; [intros [= <-]; by right|by left].
      * rewrite node_at_alter by lia. rewrite decide_False by done. intros [|]%Hnew; [by left|right; lia].
  - intros i Hi Hn. apply Hk; [done|]. intros ->. by apply (Hn []).
  - rewrite Hkd. symmetry. by apply strip_same.
  - intros es. rewrite !subtree_cons, Hkd, Hf, decide_True, Hfree by done. cbn [mbind option_bind merge_nodes].
    rewrite (subtree_same ns'), Hs, subtree_fresh by (done || (intros es' j Hj; rewrite node_at_alter by lia;
      apply walk_bound in Hj; [by rewrite decide_False by lia|done|lia])).
    destruct es as [|e' es]; [|done]. rewrite subtree_nil. cbn [merge_nodes].
    by rewrite merge_payload_empty by apply (twf_targets _ Hwfm).
  - intros e' es Hne. rewrite !subtree_cons, Hkd, Hf, decide_False by congruence.
    destruct (edge_child (node_at ns d) e') as [c|] eqn:E; cbn; [|done]. apply (twf_child _ Hwf) in E.
    apply subtree_same. intros es' j Hj. apply walk_bound in Hj; [|done|lia]. apply Hk; lia.
Qed.

(** ** The children one after the other *)

(** The edges of [l] are merged, the others are as before. *)
Record merging ns d mounted s (l : list edge) ns' : Prop := {
  mi_wf : trie_wf ns';
  mi_grows : grows ns ns';
  mi_elsewhere : elsewhere ns d ns';
  mi_root : strip (node_at ns' d) = strip (node_at ns d);
  mi_edges e es : subtree ns' d (e :: es) =
    if decide (e ∈ l) then merge_nodes (subtree ns d (e :: es)) (subtree mounted s (e :: es))
    else subtree ns d (e :: es)
}.

Lemma merging_start ns d mounted s : trie_wf ns → merging ns d mounted s [] ns.
Proof. intros Hwf. constructor; done. Qed.

Lemma merging_step ns d mounted s l ns1 e c ns2 :
  merging ns d mounted s l ns1 → e ∉ l → edge_child (node_at mounted s) e = Some c →
  child_merged ns1 d e mounted c ns2 → merging ns d mounted s (l ++ [e]) ns2.
Proof.
  intros [Hwf1 Hg1 He1 Hr1 Hs1] Hl Hc [Hwf2 Hg2 He2 Hr2 Hs2 Ho2]. constructor.
  - done.
  - by transitivity ns1.
  - by apply (elsewhere_trans ns ns1 ns2 d).
  - congruence.
  - intros e' es. destruct (decide (e' = e)) as [->|Hne].
    + rewrite Hs2, Hs1, decide_False by done. rewrite decide_True by (apply elem_of_app; right; by left).
      by rewrite (subtree_cons mounted), Hc.
    + rewrite Ho2, Hs1 by done. apply decide_ext. rewrite elem_of_app, list_elem_of_singleton. tauto.
Qed.

(** The edges of the source that are still to be merged have the subtrees and
    names the destination had at the beginning. *)
Lemma merging_free ns d mounted s l ns1 e :
  merging ns d mounted s l ns1 → e ∉ l → ∀ es, subtree ns1 d (e :: es) = subtree ns d (e :: es).
Proof. intros Hm Hl es. rewrite (mi_edges _ _ _ _ _ _ Hm). by rewrite decide_False. Qed.

Lemma edge_subtree ns d e : is_Some (edge_child (node_at ns d) e) ↔ is_Some (subtree ns d [e]).
Proof. rewrite subtree_cons. destruct (edge_child (node_at ns d) e); cbn; split; intros [? ?]; eauto; done. Qed.

Section step.
Context (mounted : list trie_node) (merge : list trie_node → nat → nat → list trie_node).
Context (ns : list trie_node) (d s : nat).
Hypothesis Hwfm : trie_wf mounted.
Hypothesis Hs : s < length mounted.
Hypothesis Hmerge : ∀ ns' c c', trie_wf ns' → s < c' < length mounted → c < length ns' →
  names_agree (subtree ns' c) (subtree mounted c') → merged ns' c mounted c' (merge ns' c c').
Hypothesis Hd : d < length ns.
Hypothesis Hnames : names_agree (subtree ns d) (subtree mounted s).

(** Both cases of merging one child. *)
Lemma step_merge l ns1 e c :
  merging ns d mounted s l ns1 → e ∉ l → edge_child (node_at mounted s) e = Some c →
  (∀ dc, edge_child (node_at ns1 d) e = Some dc → child_merged ns1 d e mounted c (merge ns1 dc c)) ∧
  (∀ f, edge_child (node_at ns1 d) e = None → attaches f e (length ns1) (node_at ns1 d) →
    child_merged ns1 d e mounted c (alter f d (merge (ns1 ++ [empty_node]) (length ns1) c))).
Proof.
  intros Hm Hl Hc. pose proof (mi_wf _ _ _ _ _ _ Hm) as Hwf1.
  pose proof (twf_child _ Hwfm _ _ _ Hc) as Hb.
  assert (Hd1 : d < length ns1) by (destruct (mi_grows _ _ _ _ _ _ Hm); lia).
  split.
  - intros dc Hdc. eapply child_existing; [done..|]. apply Hmerge; [done|lia| |].
    + apply (twf_child _ Hwf1) in Hdc. lia.
    + apply (names_agree_under _ _ _ _ e Hnames).
      * intros es. rewrite <-(merging_free _ _ _ _ _ _ _ Hm Hl es), subtree_cons, Hdc. done.
      * intros es. by rewrite subtree_cons, Hc.
  - intros f Hfree Hat. eapply child_moved; [done|done|done|by apply (twf_named _ Hwfm) in Hc|done| |done].
    apply Hmerge; [by apply app_empty_wf|lia|rewrite length_app; cbn; lia|].
    split; intros es nm nm'; rewrite subtree_fresh by done; destruct es; cbn; by intros [? [=]].
Qed.

Lemma merge_static_ok l ns1 seg c :
  merging ns d mounted s l ns1 → EStatic seg ∉ l → static_children (node_at mounted s) !! seg = Some c →
  merging ns d mounted s (l ++ [EStatic seg]) (merge_static merge d ns1 (seg, c)).
Proof.
  intros Hm Hl Hc. destruct (step_merge l ns1 (EStatic seg) c Hm Hl Hc) as [H1 H2].
  eapply merging_step; [done..|exact Hc|]. unfold merge_static.
  destruct (static_children (node_at ns1 d) !! seg) as [dc|] eqn:E; [by apply H1|].
  cbn. apply H2; [done|apply attaches_static].
Qed.

Lemma merge_statics_ok children :
  trie_wf ns → NoDup children.*1 → Forall (λ '(seg, c), static_children (node_at mounted s) !! seg = Some c) children →
  merging ns d mounted s (map EStatic children.*1) (foldl (merge_static merge d) ns children).
Proof.
  intros Hwf. induction children as [|[seg c] l IH] using rev_ind; [intros _ _; by apply merging_start|].
  rewrite foldl_app, fmap_app, map_app. intros (Hnd & Hdis & _)%NoDup_app [Hf [Hc _]%Forall_cons]%Forall_app. cbn.
  apply merge_static_ok; [by apply IH| |done].
  rewrite list_elem_of_In, in_map_iff. intros (seg' & [= ->] & Hin%list_elem_of_In). eapply Hdis; [done|by left].
Qed.

Lemma merge_parameter_ok l ns1 :
  merging ns d mounted s l ns1 → (∀ nm, EParam nm ∉ l) →
  ∃ l', merging ns d mounted s (l ++ l') (merge_parameter merge d ns1 (parameter_child (node_at mounted s))) ∧
    (∀ nm, EParam nm ∈ l' ↔ is_Some (edge_child (node_at mounted s) (EParam nm))) ∧ (∀ nm, EWild nm ∉ l').
Proof.
  intros Hm Hl. destruct (parameter_child (node_at mounted s)) as [[nm c]|] eqn:E; cbn [merge_parameter].
  2:{ exists []. rewrite app_nil_r. split_and!; [done| |by intros nm ?%elem_of_nil].
      intros nm. cbn. rewrite E. split; [by intros ?%elem_of_nil|by intros [? [=]]]. }
  pose proof (param_child_edge _ _ _ _ E) as Hc. exists [EParam nm]. split_and!.
  - destruct (step_merge l ns1 (EParam nm) c Hm (Hl nm) Hc) as [H1 H2]. eapply merging_step; [done|apply Hl|exact Hc|].
    cbn [nc_node nc_name]. destruct (parameter_child (node_at ns1 d)) as [[nm' dc]|] eqn:E1.
    + apply param_child_edge in E1. apply H1. assert (nm' = nm) as ->; [|done].
      apply (proj1 Hnames []); cbn [app]; [|by apply edge_subtree; rewrite Hc].
      rewrite <-(merging_free _ _ _ _ _ _ _ Hm (Hl nm')). apply edge_subtree. by rewrite E1.
    + apply H2; [cbn; by rewrite E1|by apply attaches_parameter].
  - intros nm'. rewrite list_elem_of_singleton. cbn. rewrite E. cbn. case_bool_decide; subst; split; try done; congruence.
  - intros nm'. by rewrite list_elem_of_singleton.
Qed.

Lemma merge_wildcard_ok l ns1 :
  merging ns d mounted s l ns1 → (∀ nm, EWild nm ∉ l) →
  ∃ l', merging ns d mounted s (l ++ l') (merge_wildcard merge d ns1 (wildcard_child (node_at mounted s))) ∧
    (∀ nm, EWild nm ∈ l' ↔ is_Some (edge_child (node_at mounted s) (EWild nm))).
Proof.
  intros Hm Hl. destruct (wildcard_child (node_at mounted s)) as [[nm c]|] eqn:E; cbn [merge_wildcard].
  2:{ exists []. rewrite app_nil_r. split; [done|].
      intros nm. cbn. rewrite E. split; [by intros ?%elem_of_nil|by intros [? [=]]]. }
  pose proof (wild_child_edge _ _ _ _ E) as Hc. exists [EWild nm]. split.
  - destruct (step_merge l ns1 (EWild nm) c Hm (Hl nm) Hc) as [H1 H2]. eapply merging_step; [done|apply Hl|exact Hc|].
    cbn [nc_node nc_name]. destruct (wildcard_child (node_at ns1 d)) as [[nm' dc]|] eqn:E1.
    + apply wild_child_edge in E1. apply H1. assert (nm' = nm) as ->; [|done].
      apply (proj2 Hnames []); cbn [app]; [|by apply edge_subtree; rewrite Hc].
      rewrite <-(merging_free _ _ _ _ _ _ _ Hm (Hl nm')). apply edge_subtree. by rewrite E1.
    + apply H2; [cbn; by rewrite E1|by apply attaches_wildcard].
  - intros nm'. rewrite list_elem_of_singleton. cbn. rewrite E. cbn. case_bool_decide; subst; split; try done; congruence.
Qed.
End step.

Lemma static_order_lookup (m : gmap str nat) :
  NoDup (static_order m).*1 ∧ ∀ seg c, (seg, c) ∈ static_order m ↔ m !! seg = Some c.
Proof.
  split.
  - rewrite static_order_permutation. apply NoDup_fst_map_to_list.
  - intros seg c. rewrite static_order_permutation. apply elem_of_map_to_list.
Qed.

Lemma merge_payload_keeps n : keeps_edges (merge_payload n).
Proof. intros n'. split; [by intros []|]. cbn -[imap]. by rewrite length_imap. Qed.

Lemma strip_merge_payload n n' : strip (merge_payload n n') = merge_payload (strip n) (strip n').
Proof. done. Qed.

Lemma alter_grows ns f d : keeps_edges f → d < length ns → grows ns (alter f d ns).
Proof.
  intros Hf Hd.
  assert (He : ∀ i e, edge_child (node_at (alter f d ns) i) e = edge_child (node_at ns i) e).
  { intros i e. rewrite node_at_alter by done. case_decide; subst; [apply Hf|done]. }
  constructor; [by rewrite length_alter|intros i e c; by rewrite He|intros i e c; rewrite He; by left].
Qed.

(** The payload of the destination, then its children. *)
Lemma merge_node_ok ns d mounted s l ns' :
  trie_wf ns → d < length ns →
  merging (alter (merge_payload (node_at mounted s)) d ns) d mounted s l ns' →
  (∀ e, is_Some (edge_child (node_at mounted s) e) → e ∈ l) →
  merged ns d mounted s ns'.
Proof.
  set (ns0 := alter _ d ns). intros Hwf Hd [Hwf' Hg Hel Hroot Hs] Hl.
  pose proof (alter_grows _ _ _ (merge_payload_keeps (node_at mounted s)) Hd) as Hg0. fold ns0 in Hg0.
  assert (Hd0 : node_at ns0 d = merge_payload (node_at mounted s) (node_at ns d)).
  { unfold ns0. rewrite node_at_alter by done. by rewrite decide_True. }
  assert (Hn0 : ∀ i, i ≠ d → node_at ns0 i = node_at ns i).
  { intros i Hne. unfold ns0. rewrite node_at_alter by done. by rewrite decide_False. }
  assert (Hwf0 : trie_wf ns0) by (apply alter_wf; [done|apply merge_payload_keeps|done]).
  constructor; [done|by transitivity ns0| |].
  - eapply elsewhere_trans; [exact Hwf0|exact Hg0| |exact Hel]. intros i Hi Hn. apply Hn0. intros ->. by apply (Hn []).
  - intros [|e es].
    + rewrite !subtree_nil, Hroot, Hd0. done.
    + rewrite Hs. assert (subtree ns0 d (e :: es) = subtree ns d (e :: es)) as ->.
      { rewrite !subtree_cons, Hd0. destruct (merge_payload_keeps (node_at mounted s) (node_at ns d)) as [-> _].
        destruct (edge_child (node_at ns d) e) as [c|] eqn:E; cbn; [|done]. apply (twf_child _ Hwf) in E.
        apply subtree_same. intros es' j Hj. apply walk_bound in Hj; [|done|lia]. apply Hn0. lia. }
      case_decide as He; [done|]. rewrite (subtree_cons mounted).
      destruct (edge_child (node_at mounted s) e) as [c|] eqn:E; [|cbn [mbind option_bind]; by destruct (subtree ns d (e :: es))].
      destruct He. apply Hl. by rewrite E.
Qed.

Lemma merge_mount_node_ok mounted fuel ns d s :
  trie_wf mounted → trie_wf ns → s < length mounted → length mounted - s ≤ fuel → d < length ns →
  names_agree (subtree ns d) (subtree mounted s) → merged ns d mounted s (merge_mount_node fuel mounted ns d s).
Proof.
  intros Hwfm. revert ns d s. induction fuel as [|fuel IH]; intros ns d s Hwf Hs Hfuel Hd Hnames; [lia|].
  cbn [merge_mount_node]. set (ns0 := alter _ d ns).
  assert (Hwf0 : trie_wf ns0) by (apply alter_wf; [done|apply merge_payload_keeps|done]).
  assert (Hd0 : d < length ns0) by (unfold ns0; by rewrite length_alter).
  assert (Hn0 : names_agree (subtree ns0 d) (subtree mounted s)).
  { assert (Hsome : ∀ es, is_Some (subtree ns0 d es) → is_Some (subtree ns d es)).
    { intros es. unfold subtree, ns0. rewrite alter_walk by (done || apply merge_payload_keeps).
      rewrite !fmap_is_Some. done. }
    destruct Hnames as [Hp Hw]. split; intros es nm nm' H1%Hsome H2; [by eapply Hp|by eapply Hw]. }
  assert (Hmerge : ∀ ns' c c', trie_wf ns' → s < c' < length mounted → c < length ns' →
    names_agree (subtree ns' c) (subtree mounted c') → merged ns' c mounted c' (merge_mount_node fuel mounted ns' c c')).
  { intros ns' c c' Hwf' Hc' Hc Hn. apply IH; [done|lia|lia|done|done]. }
  destruct (static_order_lookup (static_children (node_at mounted s))) as [Hnd Hin].
  pose proof (merge_statics_ok mounted _ ns0 d s Hwfm Hs Hmerge Hd0 Hn0 _ Hwf0 Hnd) as H1.
  specialize (H1 ltac:(apply Forall_forall; intros [seg c]; apply Hin)).
  assert (Hparam : ∀ nm, EParam nm ∉ map EStatic (static_order (static_children (node_at mounted s))).*1).
  { intros nm. rewrite list_elem_of_In, in_map_iff. by intros (? & [=] & _). }
  assert (Hwild : ∀ nm, EWild nm ∉ map EStatic (static_order (static_children (node_at mounted s))).*1).
  { intros nm. rewrite list_elem_of_In, in_map_iff. by intros (? & [=] & _). }
  destruct (merge_parameter_ok mounted _ ns0 d s Hwfm Hs Hmerge Hd0 Hn0 _ _ H1 Hparam) as (lp & H2 & Hlp & Hlpw).
  assert (Hwild' : ∀ nm, EWild nm ∉ map EStatic (static_order (static_children (node_at mounted s))).*1 ++ lp).
  { intros nm. rewrite elem_of_app. intros [?|?]; [by eapply Hwild|by eapply Hlpw]. }
  destruct (merge_wildcard_ok mounted _ ns0 d s Hwfm Hs Hmerge Hd0 Hn0 _ _ H2 Hwild') as (lw & H3 & Hlw).
  eapply merge_node_ok; [done|done|exact H3|]. intros e He. rewrite !elem_of_app. destruct e as [seg|nm|nm].
  - left. left. destruct He as [c Hc%Hin]. rewrite list_elem_of_In, in_map_iff. exists seg. split; [done|].
    apply list_elem_of_In, list_elem_of_fmap. by exists (seg, c).
  - left. right. by apply Hlp.
  - right. by apply Hlw.
Qed.

(** ** Conflicts *)

Definition payload_free n n' : Prop :=
  (∀ mi, mi < method_count → target_at n mi = None ∨ target_at n' mi = None) ∧
  (not_found_handler n = None ∨ not_found_handler n' = None) ∧
  (node_exception_handler n = None ∨ node_exception_handler n' = None).

(** Two trees that can be merged. *)
Definition compatible (T T' : list edge → option trie_node) : Prop :=
  names_agree T T' ∧ ∀ es n n', T es = Some n → T' es = Some n' → payload_free n n'.

Lemma compatible_node ns mounted d s :
  compatible (subtree ns d) (subtree mounted s) ↔
  payload_free (node_at ns d) (node_at mounted s) ∧
  (∀ nm nm' c c', edge_child (node_at ns d) (EParam nm) = Some c →
    edge_child (node_at mounted s) (EParam nm') = Some c' → nm = nm') ∧
  (∀ nm nm' c c', edge_child (node_at ns d) (EWild nm) = Some c →
    edge_child (node_at mounted s) (EWild nm') = Some c' → nm = nm') ∧
  (∀ e c c', edge_child (node_at ns d) e = Some c → edge_child (node_at mounted s) e = Some c' →
    compatible (subtree ns c) (subtree mounted c')).
Proof.
  split.
  - intros [Hn Hp]. split_and!; [exact (Hp [] _ _ eq_refl eq_refl)| | |].
    + intros nm nm' c c' H1 H2. apply (proj1 Hn []); apply edge_subtree; eauto.
    + intros nm nm' c c' H1 H2. apply (proj2 Hn []); apply edge_subtree; eauto.
    + intros e c c' H1 H2.
      assert (T1 : ∀ es, subtree ns c es = subtree ns d (e :: es)) by (intros es; by rewrite subtree_cons, H1).
      assert (T2 : ∀ es, subtree mounted c' es = subtree mounted s (e :: es)) by (intros es; by rewrite subtree_cons, H2).
      split; [by apply (names_agree_under _ _ _ _ e Hn)|]. intros es n n'. rewrite T1, T2. apply Hp.
  - intros (Hp & H1 & H2 & Hc).
    assert (Hunder : ∀ e es es', is_Some (subtree ns d (e :: es)) → is_Some (subtree mounted s (e :: es')) →
      ∃ c c', compatible (subtree ns c) (subtree mounted c') ∧
        subtree ns d (e :: es) = subtree ns c es ∧ subtree mounted s (e :: es') = subtree mounted c' es').
    { intros e es es'. rewrite !subtree_cons.
      destruct (edge_child (node_at ns d) e) as [c|] eqn:E1; cbn [mbind option_bind]; [|by intros [? ?]].
      destruct (edge_child (node_at mounted s) e) as [c'|] eqn:E2; cbn [mbind option_bind]; [|by intros _ [? ?]].
      intros _ _. exists c, c'. split; [by eapply Hc|done]. }
    split; [split; intros [|e es] nm nm'|]; cbn [app].
    + rewrite <-!edge_subtree. intros [c Hx] [c' Hy]. by eapply H1.
    + intros Hx Hy. destruct (Hunder _ _ _ Hx Hy) as (c & c' & [[Hcc _] _] & T1 & T2).
      rewrite T1 in Hx. rewrite T2 in Hy. by eapply Hcc.
    + rewrite <-!edge_subtree. intros [c Hx] [c' Hy]. by eapply H2.
    + intros Hx Hy. destruct (Hunder _ _ _ Hx Hy) as (c & c' & [[_ Hcc] _] & T1 & T2).
      rewrite T1 in Hx. rewrite T2 in Hy. by eapply Hcc.
    + intros [|e es] n n' Hx Hy; [by injection Hx as <-; injection Hy as <-|].
      destruct (Hunder _ _ _ (mk_is_Some _ _ Hx) (mk_is_Some _ _ Hy)) as (c & c' & [_ Hcc] & T1 & T2).
      rewrite T1 in Hx. rewrite T2 in Hy. by eapply Hcc.
Qed.

Lemma for_each_Ok {A E} (f : A → result E ()) l : for_each f l = Ok () ↔ Forall (λ x, f x = Ok ()) l.
Proof.
  induction l as [|x l IH]; cbn; [by split|]. rewrite Forall_cons, <-IH. destruct (f x) as [[]|]; [tauto|].
  by split; [|intros []].
Qed.

Lemma both_false {A B} (a : option A) (b : option B) : both a b = false ↔ a = None ∨ b = None.
Proof. destruct a, b; cbn; naive_solver. Qed.

Lemma validate_payload_Ok n n' : validate_payload n n' = Ok () ↔ payload_free n n'.
Proof.
  unfold validate_payload, payload_free. rewrite <-!both_false.
  assert (existsb (λ mi, both (target_at n mi) (target_at n' mi)) (seq 0 method_count) = false ↔
    ∀ mi, mi < method_count → target_at n mi = None ∨ target_at n' mi = None) as <-.
  { split; intros Hx.
    - intros mi Hmi. apply both_false. destruct (both _ _) eqn:E; [|done]. rewrite <-Hx. symmetry.
      apply existsb_exists. exists mi. split; [apply in_seq; lia|done].
    - apply not_true_iff_false. rewrite existsb_exists. intros (mi & Hmi%in_seq & Hb).
      rewrite (proj2 (both_false _ _)) in Hb; [done|]. apply Hx. lia. }
  destruct (existsb _ _), (both (not_found_handler _) _), (both (node_exception_handler _) _); split; intros Hx; (done || by destruct Hx as (? & ? & ?)).
Qed.

Lemma validate_named_Ok (validate : nat → nat → result str ()) conflict (dc sc : option named_child) :
  validate_named validate conflict dc sc = Ok () ↔
  ∀ (d s : named_child), dc = Some d → sc = Some s → nc_name d = nc_name s ∧ validate (nc_node d) (nc_node s) = Ok ().
Proof.
  destruct dc as [d|], sc as [s|]; cbn; [|naive_solver..].
  case_bool_decide as Hn.
  - split; [by intros Hv ?? [= <-] [= <-]|]. intros Hx. by apply (Hx d s).
  - split; [done|]. intros Hx. by destruct (Hx d s eq_refl eq_refl).
Qed.

(** Validation accepts exactly the trees that can be merged. *)
Lemma validate_mount_node_ok ns mounted fuel d s :
  trie_wf ns → trie_wf mounted → s < length mounted → length mounted - s ≤ fuel →
  validate_mount_node fuel ns mounted d s = Ok () ↔ compatible (subtree ns d) (subtree mounted s).
Proof.
  intros Hwf Hwfm. revert d s. induction fuel as [|fuel IH]; intros d s Hs Hfuel; [lia|].
  assert (IH' : ∀ c c' e, edge_child (node_at mounted s) e = Some c' →
    validate_mount_node fuel ns mounted c c' = Ok () ↔ compatible (subtree ns c) (subtree mounted c')).
  { intros c c' e Hc. apply (twf_child _ Hwfm) in Hc. apply IH; lia. }
  cbn [validate_mount_node]. rewrite compatible_node.
  destruct (static_order_lookup (static_children (node_at mounted s))) as [_ Hin].
  assert (Hbind : ∀ (a b : result str ()), (_ ← a; b) = Ok () ↔ a = Ok () ∧ b = Ok ()).
  { intros [[]|] b; cbn; [tauto|]. by split; [|intros []]. }
  rewrite !Hbind, validate_payload_Ok, for_each_Ok, !validate_named_Ok, Forall_forall.
  split.
  - intros (Hp & Hst & Hpa & Hwi). split_and!; [done| | |].
    + intros nm nm' c c' H1%param_child_inv H2%param_child_inv. by apply (Hpa _ _ H1 H2).
    + intros nm nm' c c' H1%wild_child_inv H2%wild_child_inv. by apply (Hwi _ _ H1 H2).
    + intros e c c' H1 H2. apply (IH' _ _ _ H2). destruct e as [seg|nm|nm].
      * specialize (Hst (seg, c') (proj2 (Hin _ _) H2)). cbn in Hst, H1. by rewrite H1 in Hst.
      * apply param_child_inv in H1, H2. apply (Hpa _ _ H1 H2).
      * apply wild_child_inv in H1, H2. apply (Hwi _ _ H1 H2).
  - intros (Hp & Hpa & Hwi & Hc). split_and!; [done| | |].
    + intros [seg c'] Hx%Hin. destruct (static_children (node_at ns d) !! seg) as [c|] eqn:E; [|done].
      apply (IH' _ _ (EStatic seg) Hx). by apply (Hc (EStatic seg)).
    + intros [nm c] [nm' c'] H1%param_child_edge H2%param_child_edge. cbn [nc_name nc_node].
      assert (nm = nm') as -> by by eapply Hpa. split; [done|]. apply (IH' _ _ _ H2). by eapply Hc.
    + intros [nm c] [nm' c'] H1%wild_child_edge H2%wild_child_edge. cbn [nc_name nc_node].
      assert (nm = nm') as -> by by eapply Hwi. split; [done|]. apply (IH' _ _ _ H2). by eapply Hc.
Qed.
End theory.
