(* ===== verification/RouterMountSpec.v ===== *)
(** * What mounting a router promises

    A successful [mount] adds the routes of the mounted router with their
    patterns behind the prefix, and its hooks and fallbacks behind the prefixes
    they were registered for; a mount that throws changes no route and no hook.
    It succeeds exactly when the prefix can be registered and the two trees do
    not conflict. *)

From S2P Require Import Prelude Text UrlEncoding RoutePath Http Router RouterTheory RouterInv RouterMount RouterMountTheory.

Section spec.
Context {handler hook response_hook exception_handler : Type} {order : StaticOrder}.
Local Abbreviation route_target := (route_target handler).
Local Abbreviation trie_node := (trie_node handler hook response_hook exception_handler).
Local Abbreviation router := (router handler hook response_hook exception_handler).
Local Abbreviation config := (@config handler hook response_hook exception_handler).
Implicit Types (mounted ns : list trie_node) (n : trie_node) (i j c d s : nat) (e : edge) (es pre : list edge).
Implicit Types (t : route_target) (r : router) (m : route_path_matching) (cfgs : list config).

(** ** The mounted router under its prefix *)

Definition mounted_target (prefix : str) t : route_target :=
  if bool_decide (normalize_group_prefix prefix = []) then t else prefix_target (normalize_group_prefix prefix) t.
Definition mounted_route (prefix : str) (route : method * route_target) : method * route_target :=
  (route.1, mounted_target prefix route.2).
Definition mounted_config (prefix : str) (entry : str * config) : str * config :=
  (join_route_pattern prefix entry.1, entry.2).

Definition prefixed (prefix : str) n : trie_node :=
  if bool_decide (normalize_group_prefix prefix = []) then n else prefix_node (normalize_group_prefix prefix) n.

Lemma prefixed_nodes prefix ns : prefix_route_patterns (normalize_group_prefix prefix) ns = map (prefixed prefix) ns.
Proof.
  unfold prefix_route_patterns, prefixed. case_bool_decide; [|done]. symmetry. apply map_id.
Qed.

Lemma node_at_prefixed prefix ns i : node_at (map (prefixed prefix) ns) i = prefixed prefix (node_at ns i).
Proof.
  unfold node_at. rewrite list_lookup_fmap. destruct (ns !! i); [done|]. cbn [fmap option_fmap option_map default from_option].
  unfold prefixed. case_bool_decide; [done|]. unfold prefix_node, empty_node. f_equal.
Qed.

Lemma edge_child_prefixed prefix n e : edge_child (prefixed prefix n) e = edge_child n e.
Proof. unfold prefixed. case_bool_decide; [done|]. by destruct e. Qed.

Lemma target_at_prefixed prefix n mi : target_at (prefixed prefix n) mi = mounted_target prefix <$> target_at n mi.
Proof.
  unfold prefixed, mounted_target. case_bool_decide; [by destruct (target_at n mi)|].
  unfold target_at. cbn [targets prefix_node]. rewrite list_lookup_fmap. by destruct (targets n !! mi) as [[|]|].
Qed.

Lemma configured_prefixed prefix n cfgs : configured n cfgs → configured (prefixed prefix n) cfgs.
Proof. unfold prefixed. by case_bool_decide. Qed.

Lemma walk_prefixed prefix ns i es : walk (map (prefixed prefix) ns) i es = walk ns i es.
Proof.
  revert i. induction es as [|e es IH]; intros i; cbn [walk]; [done|].
  rewrite node_at_prefixed, edge_child_prefixed. destruct (edge_child (node_at ns i) e); cbn; [apply IH|done].
Qed.

Lemma prefixed_wf prefix ns : trie_wf ns → trie_wf (map (prefixed prefix) ns).
Proof.
  intros Hwf. constructor; rewrite ?length_map.
  - intros i e c. rewrite node_at_prefixed, edge_child_prefixed. apply (twf_child _ Hwf).
  - intros i e i' e' c. rewrite !node_at_prefixed, !edge_child_prefixed. apply (twf_parent _ Hwf).
  - intros i e c. rewrite node_at_prefixed, edge_child_prefixed. apply (twf_named _ Hwf).
  - apply Hwf.
  - intros i. rewrite node_at_prefixed. unfold prefixed. case_bool_decide; [apply Hwf|]. cbn [targets prefix_node].
    rewrite length_map. apply Hwf.
Qed.

(** ** The merged tree *)

Lemma subtree_walk ns i es : is_Some (subtree ns i es) ↔ is_Some (walk ns i es).
Proof. unfold subtree. by rewrite fmap_is_Some. Qed.

Lemma contents_subtree ns mi es : contents ns mi es = subtree ns 0 es ≫= λ n, target_at n mi.
Proof. unfold contents, subtree. by destruct (walk ns 0 es). Qed.

Lemma subtree_app ns d pre es : walk ns 0 pre = Some d → subtree ns 0 (pre ++ es) = subtree ns d es.
Proof. unfold subtree. intros Hw. by rewrite walk_app, Hw. Qed.

Section merged.
Context (ns mounted ns' : list trie_node) (pre : list edge) (d : nat).
Hypothesis Hwf : trie_wf ns.
Hypothesis Hd : walk ns 0 pre = Some d.
Hypothesis Hm : merged ns d mounted 0 ns'.

Lemma merged_under es : subtree ns' 0 (pre ++ es) = merge_nodes (subtree ns 0 (pre ++ es)) (subtree mounted 0 es).
Proof.
  rewrite (subtree_app ns d) by done. rewrite (subtree_app ns' d) by (by apply (grows_walk ns); [apply Hm|]). apply Hm.
Qed.

(** What does not lie under the prefix is not touched. *)
Lemma merged_outside es : ¬ pre `prefix_of` es → walk ns' 0 es = walk ns 0 es ∧ subtree ns' 0 es = subtree ns 0 es.
Proof.
  intros Hes.
  assert (Hnode : ∀ es i, ¬ pre `prefix_of` es → walk ns 0 es = Some i → node_at ns' i = node_at ns i).
  { intros es1 i Hes1 Hw. apply (mg_elsewhere _ _ _ _ _ Hm).
    - apply walk_bound in Hw; [lia|done|apply (twf_root _ Hwf)].
    - intros es2 Hw2. apply Hes1. exists es2. apply (walk_inj ns _ _ i Hwf Hw). by rewrite walk_app, Hd. }
  assert (Hw : walk ns' 0 es = walk ns 0 es).
  { induction es as [|e es IH] using rev_ind; [done|].
    assert (Hes1 : ¬ pre `prefix_of` es) by (intros Hx; apply Hes; by apply prefix_app_r).
    rewrite !walk_snoc, IH by done. destruct (walk ns 0 es) as [i|] eqn:E; cbn; [|done]. by rewrite (Hnode es). }
  split; [done|]. unfold subtree. rewrite Hw. destruct (walk ns 0 es) as [i|] eqn:E; cbn; [|done].
  by rewrite (Hnode es).
Qed.
End merged.

Lemma or_else_None_r {A} (a : option A) : or_else a None = a.
Proof. by destruct a. Qed.

Lemma target_at_merge n n' mi :
  length (targets n') = method_count → mi < method_count →
  target_at (merge_payload n n') mi = or_else (target_at n mi) (target_at n' mi).
Proof.
  intros Hl Hmi. unfold target_at at 1 3. unfold merge_payload. cbn [targets]. rewrite list_lookup_imap.
  destruct (targets n' !! mi) as [t|] eqn:E; [done|]. apply lookup_ge_None in E. lia.
Qed.

Lemma innermost_app {A} (l l' : list (option A)) (x : option A) :
  innermost (l ++ l') x = or_else (innermost l' None) (innermost l x).
Proof.
  unfold innermost. rewrite foldl_app. generalize (foldl (λ acc o, match o with Some y => Some y | None => acc end) x l).
  intros o. induction l' as [|y l' IH] using rev_ind; [done|]. rewrite !foldl_app. cbn. by destruct y.
Qed.

Lemma configured_merge n n' cfgs cfgs' :
  configured n cfgs → configured n' cfgs' → configured (merge_payload n' n) (cfgs ++ cfgs').
Proof.
  intros (H1 & H2 & H3 & H4 & H5) (H1' & H2' & H3' & H4' & H5').
  unfold configured, request_hooks_of, pre_handler_hooks_of, response_hooks_of, exception_of, not_found_of in *.
  rewrite !omap_app, !map_app, !innermost_app. unfold merge_payload. cbn.
  rewrite H1, H2, H3, H4, H5, H1', H2', H3', H4', H5'. done.
Qed.

Lemma configured_strip n cfgs : configured (strip n) cfgs ↔ configured n cfgs.
Proof. done. Qed.

(** ** Keys behind a prefix *)

Lemma prefix_key_join m prefix p :
  valid (parse_route_path prefix) = true →
  prefix_key m (join_route_pattern prefix p) = prefix_key m prefix ++ prefix_key m p.
Proof.
  intros Hv. unfold prefix_key, pattern_edges. rewrite parse_join by done.
  rewrite pattern_segments_append by apply parse_route_path_wf. apply map_app.
Qed.

Lemma mounted_target_path prefix t :
  valid (parse_route_path prefix) = true →
  parse_route_path (t_pattern (mounted_target prefix t)) = append_path (parse_route_path prefix) (parse_route_path (t_pattern t)).
Proof.
  intros Hv. unfold mounted_target. case_bool_decide as Hn.
  - rewrite <-(parse_normalize prefix), Hn. change (parse_route_path []) with (RoutePath [] [] true). by destruct (parse_route_path (t_pattern t)).
  - cbn [t_pattern prefix_target]. rewrite parse_join by (by rewrite parse_normalize). by rewrite parse_normalize.
Qed.

Lemma target_key_mounted m prefix t :
  valid (parse_route_path prefix) = true →
  target_key m (mounted_target prefix t) = prefix_key m prefix ++ target_key m t.
Proof.
  intros Hv. unfold target_key, prefix_key, pattern_edges. rewrite mounted_target_path by done.
  rewrite pattern_segments_append by apply parse_route_path_wf. apply map_app.
Qed.

Lemma configs_at_mounted m prefix (L : list (str * config)) es :
  valid (parse_route_path prefix) = true →
  (∀ es1, es = prefix_key m prefix ++ es1 → configs_at m (map (mounted_config prefix) L) es = configs_at m L es1) ∧
  (¬ prefix_key m prefix `prefix_of` es → configs_at m (map (mounted_config prefix) L) es = []).
Proof.
  intros Hv. split.
  - intros es1 ->. unfold configs_at. induction L as [|[p cfg] L IH]; [done|]. cbn. rewrite prefix_key_join by done.
    destruct (decide (prefix_key m p = es1)) as [->|Hne].
    + rewrite decide_True by done. by rewrite IH.
    + rewrite decide_False by (by intros ?%app_inv_head). apply IH.
  - intros Hes. apply configs_at_none. intros p cfg. rewrite list_elem_of_In, in_map_iff.
    intros ([p' cfg'] & [= <- <-] & _). cbn. rewrite prefix_key_join by done. intros <-. apply Hes. by eexists.
Qed.

(** ** Routes and hooks of the merged tree *)

Section mounted.
Context (m : route_path_matching) (r s : router) (R R' : list (method * route_target)) (L L' : list (str * config)).
Context (prefix : str) (d : nat) (ns' : list trie_node).
Local Abbreviation pre := (prefix_key m prefix).
Hypothesis Hr : router_inv m r R L.
Hypothesis Hs : router_inv m s R' L'.
Hypothesis Hv : valid (parse_route_path prefix) = true.
Hypothesis Hd : walk (nodes r) 0 pre = Some d.
Hypothesis Hc : compatible (subtree (nodes r) d) (subtree (nodes s) 0).
Hypothesis Hm : merged (nodes r) d (map (prefixed prefix) (nodes s)) 0 ns'.

Lemma contents_outside mi es : ¬ pre `prefix_of` es → contents ns' mi es = contents (nodes r) mi es.
Proof. intros Hes. rewrite !contents_subtree. by destruct (merged_outside _ _ _ _ _ (ri_wf _ _ _ _ Hr) Hd Hm es Hes) as [_ ->]. Qed.

Lemma contents_under mi es t :
  mi < method_count →
  contents ns' mi (pre ++ es) = Some t ↔
    contents (nodes r) mi (pre ++ es) = Some t ∨ ∃ t0, contents (nodes s) mi es = Some t0 ∧ t = mounted_target prefix t0.
Proof.
  intros Hmi. rewrite !contents_subtree, (merged_under _ _ _ _ _ Hd Hm), (subtree_app _ _ _ _ Hd).
  assert (Hsub : subtree (map (prefixed prefix) (nodes s)) 0 es = strip ∘ prefixed prefix ∘ node_at (nodes s) <$> walk (nodes s) 0 es).
  { unfold subtree. rewrite walk_prefixed. destruct (walk (nodes s) 0 es); cbn; [by rewrite node_at_prefixed|done]. }
  destruct Hc as [_ Hfree]. specialize (Hfree es). rewrite Hsub. unfold subtree in *.
  assert (Hex : ∀ o : option route_target, mounted_target prefix <$> o = Some t ↔ ∃ t0, o = Some t0 ∧ t = mounted_target prefix t0).
  { intros [t0|]; cbn; naive_solver. }
  destruct (walk (nodes r) d es) as [i|], (walk (nodes s) 0 es) as [j|]; cbn [fmap option_fmap option_map merge_nodes mbind option_bind].
  - rewrite target_at_merge by (done || apply (twf_targets _ (ri_wf _ _ _ _ Hr))).
    destruct (Hfree _ _ eq_refl eq_refl) as [Ht _]. specialize (Ht mi Hmi). cbn [compose].
    change (target_at (strip ?n) mi) with (target_at n mi) in *. rewrite target_at_prefixed, <-Hex.
    change (target_at (strip (node_at (nodes s) j)) mi) with (target_at (node_at (nodes s) j) mi) in *.
    change (target_at (strip (node_at (nodes r) i)) mi) with (target_at (node_at (nodes r) i) mi) in *.
    destruct (target_at (node_at (nodes r) i) mi), (target_at (node_at (nodes s) j) mi); cbn; naive_solver.
  - naive_solver.
  - cbn [compose]. change (target_at (strip ?n) mi) with (target_at n mi). rewrite target_at_prefixed, Hex. naive_solver.
  - naive_solver.
Qed.

Lemma routes_mounted mth es t :
  contents ns' (method_index mth) es = Some t ↔ (mth, t) ∈ R ++ map (mounted_route prefix) R' ∧ es = target_key m t.
Proof.
  assert (Hin : (mth, t) ∈ map (mounted_route prefix) R' ↔ ∃ t0, (mth, t0) ∈ R' ∧ t = mounted_target prefix t0).
  { rewrite list_elem_of_In, in_map_iff. split.
    - intros ([mth' t0] & [= <- <-] & Hx%list_elem_of_In). eauto.
    - intros (t0 & Hx%list_elem_of_In & ->). by exists (mth, t0). }
  rewrite elem_of_app, Hin. destruct (decide (pre `prefix_of` es)) as [[es1 ->]|Hes].
  - rewrite contents_under by apply method_index_bound. rewrite (ri_routes _ _ _ _ Hr).
    setoid_rewrite (ri_routes _ _ _ _ Hs). split.
    + intros [[? ?]|(t0 & [Ht0 ->] & ->)]; [by auto|]. rewrite target_key_mounted by done. eauto.
    + intros [[?|(t0 & Ht0 & ->)] Hk]; [by auto|]. rewrite target_key_mounted in Hk by done.
      apply app_inv_head in Hk as ->. right. eauto.
  - rewrite contents_outside by done. rewrite (ri_routes _ _ _ _ Hr). split; [by intros [? ?]; auto|].
    intros [[?|(t0 & Ht0 & ->)] Hk]; [done|]. rewrite target_key_mounted in Hk by done. destruct Hes. subst. by eexists.
Qed.

Lemma configs_at_app es (l l' : list (str * config)) : configs_at m (l ++ l') es = configs_at m l es ++ configs_at m l' es.
Proof. unfold configs_at. apply omap_app. Qed.

(** A log has nothing to say of a node that is not there. *)
Lemma configs_absent (q : router) Q M es : router_inv m q Q M → walk (nodes q) 0 es = None → configs_at m M es = [].
Proof.
  intros Hq Hw. apply configs_at_none. intros p cfg [j Hj]%(ri_logged _ _ _ _ Hq) <-. congruence.
Qed.

Lemma configs_mounted es j :
  walk ns' 0 es = Some j → configured (node_at ns' j) (configs_at m (L ++ map (mounted_config prefix) L') es).
Proof.
  intros Hw. rewrite configs_at_app. destruct (configs_at_mounted m prefix L' es Hv) as [Hu Ho].
  destruct (decide (pre `prefix_of` es)) as [[es1 ->]|Hes].
  - rewrite (Hu es1 eq_refl). pose proof (merged_under _ _ _ _ _ Hd Hm es1) as Hsub.
    unfold subtree in Hsub. rewrite Hw, walk_prefixed in Hsub. apply (proj1 (configured_strip _ _)).
    destruct (walk (nodes r) 0 (pre ++ es1)) as [i|] eqn:E1, (walk (nodes s) 0 es1) as [k|] eqn:E2;
      cbn [fmap option_fmap option_map merge_nodes] in Hsub; [| | |done]; apply (inj Some) in Hsub as ->; rewrite ?node_at_prefixed.
    + apply configured_merge; [by apply (ri_configs _ _ _ _ Hr)|]. by apply configured_prefixed, (ri_configs _ _ _ _ Hs).
    + rewrite (configs_absent _ _ _ _ Hs E2), app_nil_r. by apply (ri_configs _ _ _ _ Hr).
    + rewrite (configs_absent _ _ _ _ Hr E1). by apply configured_prefixed, (ri_configs _ _ _ _ Hs).
  - rewrite (Ho Hes), app_nil_r. destruct (merged_outside _ _ _ _ _ (ri_wf _ _ _ _ Hr) Hd Hm es Hes) as [Hw' Hsub].
    rewrite Hw in Hw'. unfold subtree in Hsub. rewrite Hw, <-Hw' in Hsub. apply (inj Some) in Hsub.
    apply (proj1 (configured_strip _ _)). rewrite Hsub. by apply (ri_configs _ _ _ _ Hr).
Qed.

Lemma mounted_inv :
  router_inv m (Router ns' (route_count r + route_count s) (matching r))
    (R ++ map (mounted_route prefix) R') (L ++ map (mounted_config prefix) L').
Proof.
  constructor; cbn [nodes route_count matching].
  - apply Hr.
  - apply Hm.
  - apply routes_mounted.
  - intros mth t. rewrite elem_of_app, (list_elem_of_In (map _ _)), in_map_iff.
    intros [Hin|([mth' t0] & [= <- <-] & Hin%list_elem_of_In)]; [by eapply (ri_valid _ _ _ _ Hr)|].
    rewrite mounted_target_path by done. by eapply (ri_valid _ _ _ _ Hs).
  - rewrite length_app, length_map, (ri_count _ _ _ _ Hr), (ri_count _ _ _ _ Hs). done.
  - apply configs_mounted.
  - intros p cfg. rewrite elem_of_app, (list_elem_of_In (map _ _)), in_map_iff.
    intros [Hin|([p' cfg'] & [= <- <-] & Hin%list_elem_of_In)].
    + destruct (ri_logged _ _ _ _ Hr _ _ Hin) as [j Hj]. exists j. by apply (grows_walk _ _ _ _ _ (mg_grows _ _ _ _ _ Hm)).
    + cbn. rewrite prefix_key_join by done. apply subtree_walk. rewrite (merged_under _ _ _ _ _ Hd Hm).
      destruct (ri_logged _ _ _ _ Hs _ _ Hin) as [j Hj]. unfold subtree at 2. rewrite walk_prefixed, Hj. cbn.
      destruct (subtree (nodes r) 0 _); by eexists.
Qed.
End mounted.

(** ** [mount] *)

Lemma ensure_prefix_node_inv r prefix r' res :
  trie_wf (nodes r) → ensure_prefix_node r prefix = (r', res) →
  r' = Router (nodes r') (route_count r) (matching r) ∧ trie_wf (nodes r') ∧ extends (nodes r) (nodes r') ∧
  ∀ d, res = Ok d → valid (parse_route_path prefix) = true ∧
    walk (nodes r') 0 (prefix_key (matching r) prefix) = Some d ∧ d < length (nodes r').
Proof.
  intros Hwf. unfold ensure_prefix_node. destruct (valid (parse_route_path prefix)) eqn:Ev; cbn [negb].
  2:{ intros [= <- <-]. by destruct r. }
  pose proof (ensure_prefix_segments_ok (nodes r) 0
    (pattern_segments (parse_route_path prefix) (matching r)) Hwf (twf_root _ Hwf)) as Hok.
  unfold loop_ok in Hok. destruct (ensure_prefix_segments _ _ _) as [ns res']. destruct Hok as (Hwf' & Hext & Hw).
  intros [= <- <-]. cbn [nodes]. split_and!; [done..|]. intros d Hres. by destruct (Hw d Hres).
Qed.

(** What [mount] does on routers with the invariant; [r1] is the destination
    after the nodes of the prefix were made. *)
Lemma mount_inv m r R L (s : router) R' L' prefix r' source' res :
  router_inv m r R L → router_inv m s R' L' → mount r prefix (mount_other s) = (r', source', res) →
  ∃ r1 made, ensure_prefix_node r prefix = (r1, made) ∧ extends (nodes r) (nodes r1) ∧ router_inv m r1 R L ∧
  match res with
  | Ok _ => ∃ d, made = Ok d ∧ compatible (subtree (nodes r1) d) (subtree (nodes s) 0) ∧
      router_inv m r' (R ++ map (mounted_route prefix) R') (L ++ map (mounted_config prefix) L') ∧
      source' = mount_other (empty_router m)
  | Err _ => (∀ d, made = Ok d → ¬ compatible (subtree (nodes r1) d) (subtree (nodes s) 0)) ∧
      r' = r1 ∧ source' = mount_other s
  end.
Proof.
  intros Hr Hs. cbn [mount]. rewrite (ri_matching _ _ _ _ Hr), (ri_matching _ _ _ _ Hs), bool_decide_eq_true_2 by done.
  cbn [negb]. destruct (ensure_prefix_node r prefix) as [r1 made] eqn:E.
  destruct (ensure_prefix_node_inv _ _ _ _ (ri_wf _ _ _ _ Hr) E) as (Hr1 & Hwf1 & Hext & Hmade).
  assert (Hinv1 : router_inv m r1 R L) by (rewrite Hr1; by apply extends_inv).
  intros Heq. exists r1, made. split_and!; [done..|]. destruct made as [d|err]; [|by injection Heq as <- <- <-].
  destruct (Hmade d eq_refl) as (Hv & Hw & Hd). rewrite (ri_matching _ _ _ _ Hr) in Hw.
  pose proof (validate_mount_node_ok (nodes r1) (nodes s) (S (length (nodes s))) d 0 Hwf1 (ri_wf _ _ _ _ Hs)
    (twf_root _ (ri_wf _ _ _ _ Hs)) ltac:(lia)) as Hval.
  destruct (validate_mount_node _ _ _ _ _) as [[]|err]; injection Heq as <- <- <-.
  2:{ split_and!; [|done..]. intros d' [= <-] Hc. by apply Hval in Hc. }
  pose proof (proj1 Hval eq_refl) as Hc. exists d. split_and!; [done|done| |done].
  rewrite prefixed_nodes. eapply mounted_inv; [done|done|done|exact Hw|exact Hc|].
  apply (merge_mount_node_ok _ (S (length (nodes s))) (nodes r1) d 0); [apply prefixed_wf, Hs|done|rewrite length_map; apply Hs|rewrite length_map; lia|done|].
  destruct Hc as [[Hp Hwi] _].
  assert (Hsome : ∀ es, is_Some (subtree (map (prefixed prefix) (nodes s)) 0 es) → is_Some (subtree (nodes s) 0 es)).
  { intros es. by rewrite !subtree_walk, walk_prefixed. }
  split; intros es nm nm' H1 H2%Hsome; [by eapply Hp|by eapply Hwi].
Qed.
End spec.
