(* ===== verification/RouterSpec.v ===== *)
(** * What the router promises

    [registers m r R L]: the router [r] was built by registrations and mounts,
    which accepted the routes [R] and the hooks and fallbacks [L], in order;
    calls that failed are part of the history.  The theorems say what [match]
    returns in terms of [R] and [L] only. *)

From S2P Require Import Prelude Text UrlEncoding RoutePath Http Router RouterTheory RouterInv RouterMount.
From S2P Require Import RouterMountTheory RouterMountSpec.

Section spec.
Context {handler hook response_hook exception_handler : Type} {order : StaticOrder}.
Local Abbreviation route_target := (route_target handler).
Local Abbreviation trie_node := (trie_node handler hook response_hook exception_handler).
Local Abbreviation router := (router handler hook response_hook exception_handler).
Local Abbreviation match_ctx := (match_ctx hook response_hook exception_handler).
Local Abbreviation config := (@config handler hook response_hook exception_handler).
Implicit Types (ns : list trie_node) (n : trie_node) (i j c : nat) (e : edge) (es : list edge).
Implicit Types (t : route_target) (ctx : match_ctx) (r : router) (m : route_path_matching).

(** ** Histories *)

Inductive registers m : router → list (method * route_target) → list (str * config) → Prop :=
| reg_empty : registers m (empty_router m) [] []
| reg_route r R L mth pattern body mb bt h r' :
    registers m r R L → add_route r mth pattern body mb bt h = (r', Ok ()) →
    registers m r' (R ++ [(mth, RouteTarget body mb bt h (join_route_pattern [] pattern))]) L
| reg_route_failed r R L mth pattern body mb bt h r' err :
    registers m r R L → add_route r mth pattern body mb bt h = (r', Err err) → registers m r' R L
| reg_config r R L prefix cfg r' :
    registers m r R L → configure_prefix r prefix cfg = (r', Ok ()) → registers m r' R (L ++ [(prefix, cfg)])
| reg_config_failed r R L prefix cfg r' err :
    registers m r R L → configure_prefix r prefix cfg = (r', Err err) → registers m r' R L
| reg_mount r R L mounted R' L' prefix r' left :
    registers m r R L → registers m mounted R' L' → mount r prefix (mount_other mounted) = (r', left, Ok ()) →
    registers m r' (R ++ map (mounted_route prefix) R') (L ++ map (mounted_config prefix) L')
| reg_mount_failed r R L mounted R' L' prefix r' left err :
    registers m r R L → registers m mounted R' L' → mount r prefix (mount_other mounted) = (r', left, Err err) →
    registers m r' R L.

Lemma registers_inv m r R L : registers m r R L → router_inv m r R L.
Proof.
  induction 1 as [|r R L mth pattern body mb bt h r' _ IH Hadd|r R L mth pattern body mb bt h r' err _ IH Hadd
    |r R L prefix cfg r' _ IH Hcfg|r R L prefix cfg r' err _ IH Hcfg
    |r R L s R' L' prefix r' left _ IH _ IH' Hmt|r R L s R' L' prefix r' left err _ IH _ IH' Hmt].
  - apply empty_inv.
  - exact (add_route_keeps_inv _ _ _ _ _ _ _ _ _ _ _ _ IH Hadd).
  - exact (add_route_keeps_inv _ _ _ _ _ _ _ _ _ _ _ _ IH Hadd).
  - exact (configure_keeps_inv _ _ _ _ _ _ _ _ IH Hcfg).
  - exact (configure_keeps_inv _ _ _ _ _ _ _ _ IH Hcfg).
  - destruct (mount_inv _ _ _ _ _ _ _ _ _ _ _ IH IH' Hmt) as (r1 & made & _ & _ & _ & d & _ & _ & Hinv & _). exact Hinv.
  - destruct (mount_inv _ _ _ _ _ _ _ _ _ _ _ IH IH' Hmt) as (r1 & made & _ & _ & Hinv & _ & -> & _). exact Hinv.
Qed.

Lemma reaches_contents ns mi es t : reaches ns mi 0 es t ↔ contents ns mi es = Some t.
Proof.
  unfold reaches, contents. destruct (walk ns 0 es) as [j|]; cbn; [|by split; [intros (? & ? & _)|]].
  split; [intros (? & [= <-] & ?); done|eauto].
Qed.

Lemma pattern_matches_edges t (path : route_path) m ps :
  valid (parse_route_path (t_pattern t)) = true → valid path = true →
  (∃ ps', route_pattern_matches (parse_route_path (t_pattern t)) path m ps = (true, ps')) ↔
  edges_match (target_key m t) (selected_segments path m).
Proof.
  intros Ht Hp. unfold route_pattern_matches. rewrite Ht, Hp. cbn [negb orb]. apply edges_match_pattern.
Qed.

(** [edges_before] is a strict order. *)
Lemma edges_before_asym es es' : edges_before es es' → edges_before es' es → False.
Proof. induction 1 as [| | | |e es es' H IH]; intros H'; inversion H'; subst; auto. Qed.

Lemma best_match_unique ns ns' mi (ss : list str) es es' t t' :
  (∀ es t, reaches ns mi 0 es t ↔ reaches ns' mi 0 es t) →
  best_match ns mi 0 ss es t → best_match ns' mi 0 ss es' t' → es = es' ∧ t = t'.
Proof.
  intros Heq (Hr & Hm & Hb) (Hr' & Hm' & Hb').
  assert (es = es') as <-.
  { destruct (Hb es' t') as [->|H1]; [by apply Heq|done|done|].
    destruct (Hb' es t) as [->|H2]; [by apply Heq|done|done|]. by destruct (edges_before_asym es es'). }
  split; [done|]. apply Heq in Hr. rewrite !reaches_contents in *. congruence.
Qed.

Lemma enter_node_payload n n' ctx : same_payload n n' → enter_node n ctx = enter_node n' ctx.
Proof. intros (_ & H1 & H2 & H3 & _ & H4). unfold enter_node. by rewrite H1, H2, H3, H4. Qed.

Lemma ctx_along_extends ns ns' i es (ss : list str) ctx :
  extends ns ns' → is_Some (walk ns i es) → ctx_along ns' i es ss ctx = ctx_along ns i es ss ctx.
Proof.
  intros Hext. revert i ss ctx. induction es as [|e es IH]; intros i ss ctx Hw; cbn [ctx_along walk] in *;
    rewrite <-(enter_node_payload _ _ _ (ext_payload _ _ Hext i)); [done|].
  destruct (edge_child (node_at ns i) e) as [c|] eqn:E; [|by destruct Hw].
  rewrite (ext_old _ _ Hext _ _ _ E). by apply IH.
Qed.

Lemma match_node_extends ns ns' mi (ss : list str) :
  trie_wf ns → trie_wf ns' → extends ns ns' → match_node ns' mi 0 ss empty_ctx = match_node ns mi 0 ss empty_ctx.
Proof.
  intros Hwf Hwf' Hext.
  assert (Heq : ∀ es t, reaches ns mi 0 es t ↔ reaches ns' mi 0 es t).
  { intros es t. by rewrite !reaches_contents, (contents_extends ns ns'). }
  pose proof (match_node_ok ns mi ss 0 empty_ctx Hwf) as H.
  pose proof (match_node_ok ns' mi ss 0 empty_ctx Hwf') as H'.
  destruct (match_node ns _ _ _ _) as [[t ctx]|], (match_node ns' _ _ _ _) as [[t' ctx']|];
    cbn [search_ok] in *; [| | |done].
  - destruct H as (es & Hb & ->), H' as (es' & Hb' & ->).
    destruct (best_match_unique _ _ _ _ _ _ _ _ Heq Hb Hb') as [<- <-]. do 2 f_equal.
    apply ctx_along_extends; [done|]. destruct Hb as ((j & Hj & _) & _). by exists j.
  - destruct H as (es & (Hr & Hm & _) & _). apply Heq in Hr. by destruct (H' _ _ Hr).
  - destruct H' as (es & (Hr & Hm & _) & _). apply Heq in Hr. by destruct (H _ _ Hr).
Qed.

(** What a match returns, in terms of the trie key it follows. *)
Lemma router_match_search m r R L mth path :
  router_inv m r R L → valid path = true →
  search_ok (nodes r) (method_index mth) 0 (selected_segments path m) empty_ctx
    (match router_match r mth path with match_found t ctx => Some (t, ctx) | _ => None end).
Proof.
  intros [Hm Hwf _ _ _ _ _] Hv. unfold router_match. rewrite Hv, Hm. cbn [negb].
  rewrite (proj2 (Nat.ltb_lt _ _)) by apply method_index_bound. cbn [negb].
  pose proof (match_node_ok (nodes r) (method_index mth) (selected_segments path m) 0 empty_ctx Hwf) as H.
  by destruct (match_node _ _ _ _ _) as [[t ctx]|].
Qed.

Lemma router_match_found m r R L mth path t ctx :
  router_inv m r R L → router_match r mth path = match_found t ctx →
  valid path = true ∧ (mth, t) ∈ R ∧
  best_match (nodes r) (method_index mth) 0 (selected_segments path m) (target_key m t) t ∧
  ctx = ctx_along (nodes r) 0 (target_key m t) (selected_segments path m) empty_ctx.
Proof.
  intros Hinv Hmatch. destruct (valid path) eqn:Hv.
  2:{ unfold router_match in Hmatch. by rewrite Hv in Hmatch. }
  pose proof (router_match_search _ _ _ _ mth path Hinv Hv) as H. rewrite Hmatch in H.
  destruct H as (es & Hb & ->). pose proof Hb as (Hr & _). rewrite reaches_contents in Hr.
  apply (ri_routes _ _ _ _ Hinv) in Hr as [Hin ->]. done.
Qed.

(** The log entries of the prefixes of a key, outermost first. *)
Definition config_levels m (L : list (str * config)) es : list (list config) :=
  map (λ k, configs_at m L (take k es)) (seq 0 (S (length es))).

Lemma nodes_along_configured m r R L pre es i :
  router_inv m r R L → walk (nodes r) 0 pre = Some i → is_Some (walk (nodes r) i es) →
  Forall2 configured (nodes_along (nodes r) i es)
    (map (λ k, configs_at m L (pre ++ take k es)) (seq 0 (S (length es)))).
Proof.
  intros Hinv. revert pre i. induction es as [|e es IH]; intros pre i Hpre Hw.
  { cbn. rewrite app_nil_r. constructor; [by apply (ri_configs _ _ _ _ Hinv)|constructor]. }
  assert (Hseq : seq 0 (S (length (e :: es))) = 0 :: map S (seq 0 (S (length es)))) by by rewrite seq_shift.
  rewrite Hseq, map_cons, map_map. cbn [nodes_along walk] in *. rewrite take_0, app_nil_r.
  constructor; [by apply (ri_configs _ _ _ _ Hinv)|].
  destruct (edge_child (node_at (nodes r) i) e) as [c|] eqn:E; [|by destruct Hw].
  assert (Hc : walk (nodes r) 0 (pre ++ [e]) = Some c) by by rewrite walk_snoc, Hpre.
  specialize (IH _ _ Hc Hw). erewrite map_ext; [exact IH|].
  intros k. cbn. by rewrite <-app_assoc.
Qed.

Lemma configured_levels (path : list trie_node) levels :
  Forall2 configured path levels →
  map on_request_hooks path = map request_hooks_of levels ∧
  map pre_handler_hooks path = map pre_handler_hooks_of levels ∧
  map on_response_hooks path = map response_hooks_of levels ∧
  map node_exception_handler path = map exception_of levels.
Proof.
  induction 1 as [|n cfgs path levels (? & ? & ? & ? & _) _ (? & ? & ? & ?)]; [done|].
  cbn. split_and!; congruence.
Qed.

(** The collected context is determined by the routes, the log and the path. *)
Definition logged_ctx m (L : list (str * config)) es (ss : list str) : match_ctx :=
  let levels := config_levels m L es in
  MatchCtx (edges_params es ss []) (concat (map request_hooks_of levels)) (concat (map pre_handler_hooks_of levels))
    (concat (map response_hooks_of levels)) (innermost (map exception_of levels) None).

Lemma ctx_along_logged m r R L mi es (ss : list str) t :
  router_inv m r R L → reaches (nodes r) mi 0 es t → edges_match es ss →
  ctx_along (nodes r) 0 es ss empty_ctx = logged_ctx m L es ss.
Proof.
  intros Hinv Hr Hm. pose proof (ctx_along_params _ _ _ _ _ empty_ctx _ (ri_wf _ _ _ _ Hinv) Hr Hm) as Hps.
  destruct Hr as (j & Hw & _).
  pose proof (nodes_along_configured _ _ _ _ [] _ 0 Hinv eq_refl (mk_is_Some _ _ Hw)) as Hf.
  apply configured_levels in Hf as (H1 & H2 & H3 & H4).
  destruct (ctx_along_hooks (nodes r) 0 es ss empty_ctx) as (Ho & Hp & Hq & He). cbn [empty_ctx c_on_request c_pre_handler
    c_on_response c_exception c_params app] in *. rewrite H1 in Ho. rewrite H2 in Hp. rewrite H3 in Hq. rewrite H4 in He.
  unfold logged_ctx. cbv zeta. rewrite <-Hps. unfold config_levels. cbn [app] in *.
  destruct (ctx_along (nodes r) 0 es ss empty_ctx). cbn in *. congruence.
Qed.

(** Routers with the same routes and the same log answer alike. *)
Lemma inv_match_eq m r q R L mth path :
  router_inv m r R L → router_inv m q R L → router_match r mth path = router_match q mth path.
Proof.
  intros Hr Hq. destruct (valid path) eqn:Hv; [|unfold router_match; by rewrite Hv].
  assert (Heq : ∀ mi es t, mi = method_index mth → reaches (nodes r) mi 0 es t ↔ reaches (nodes q) mi 0 es t).
  { intros mi es t ->. by rewrite !reaches_contents, (ri_routes _ _ _ _ Hr), (ri_routes _ _ _ _ Hq). }
  pose proof (router_match_search _ _ _ _ mth path Hr Hv) as H1.
  pose proof (router_match_search _ _ _ _ mth path Hq Hv) as H2.
  assert (Hno : ∀ r', router_match r' mth path ≠ match_invalid_path).
  { intros r'. unfold router_match. rewrite Hv. cbn [negb]. destruct (_ <? _); cbn [negb]; [|done].
    by destruct (match_node _ _ _ _ _) as [[]|]. }
  destruct (router_match r mth path) as [| |t ctx] eqn:E1; [|by destruct (Hno r)|];
    destruct (router_match q mth path) as [| |t' ctx'] eqn:E2; try (by destruct (Hno q)); cbn [search_ok] in *; [done| | |].
  - destruct H2 as (es & (Hreach & Hem & _) & _). apply Heq in Hreach; [|done]. by destruct (H1 _ _ Hreach).
  - destruct H1 as (es & (Hreach & Hem & _) & _). apply Heq in Hreach; [|done]. by destruct (H2 _ _ Hreach).
  - destruct H1 as (es & Hb & ->), H2 as (es' & Hb' & ->).
    destruct (best_match_unique _ _ _ _ _ _ _ _ (λ es t, Heq _ es t eq_refl) Hb Hb') as [<- <-].
    destruct Hb as (Hreach & Hem & _). pose proof (proj1 (Heq _ _ _ eq_refl) Hreach) as Hreach'.
    by rewrite (ctx_along_logged _ _ _ _ _ _ _ _ Hr Hreach Hem), (ctx_along_logged _ _ _ _ _ _ _ _ Hq Hreach' Hem).
Qed.

(** ** What [match] returns *)

(** C1: A match returns a route that was registered for the request's method
    and whose own pattern matches the path, with exactly the parameters that
    matching this single pattern yields. *)
Theorem router_match_sound m r R L mth path t ctx
    (Hr : registers m r R L) (Hm : router_match r mth path = match_found t ctx) :
  (mth, t) ∈ R ∧
  route_pattern_matches (parse_route_path (t_pattern t)) path m [] = (true, c_params ctx).
Proof.
  apply registers_inv in Hr. destruct (router_match_found _ _ _ _ _ _ _ _ Hr Hm) as (Hv & Hin & Hb & ->).
  split; [done|]. pose proof (ri_valid _ _ _ _ Hr _ _ Hin) as Hp. destruct Hb as (Hr' & Hem & _).
  destruct (proj2 (pattern_matches_edges t path m [] Hp Hv) Hem) as [ps' Hps].
  rewrite Hps. f_equal. rewrite (ctx_along_params _ _ _ _ _ _ _ (ri_wf _ _ _ _ Hr) Hr' Hem).
  unfold route_pattern_matches in Hps. rewrite Hp, Hv in Hps. cbn [negb orb] in Hps.
  by apply match_pattern_params in Hps.
Qed.

(** C2: If the pattern of some registered route matches the path, then
    [match] finds a route, and the one it finds is this route or one that
    precedes it: at the first segment where their patterns differ a static
    segment precedes a parameter and both precede a wildcard, whatever the
    order of registration. *)
Theorem router_match_complete m r R L mth path t ps
    (Hr : registers m r R L) (Hin : (mth, t) ∈ R)
    (Hm : route_pattern_matches (parse_route_path (t_pattern t)) path m [] = (true, ps)) :
  ∃ t' ctx, router_match r mth path = match_found t' ctx ∧
    (t' = t ∨ edges_before (target_key m t') (target_key m t)).
Proof.
  apply registers_inv in Hr. pose proof (ri_valid _ _ _ _ Hr _ _ Hin) as Hp.
  assert (Hv : valid path = true).
  { unfold route_pattern_matches in Hm. destruct (valid path); [done|]. rewrite orb_true_r in Hm. done. }
  assert (Hem : edges_match (target_key m t) (selected_segments path m)).
  { apply (pattern_matches_edges t path m [] Hp Hv). eauto. }
  assert (Hreach : reaches (nodes r) (method_index mth) 0 (target_key m t) t).
  { apply reaches_contents, (ri_routes _ _ _ _ Hr). done. }
  pose proof (router_match_search _ _ _ _ mth path Hr Hv) as Hs.
  destruct (router_match r mth path) as [| |t' ctx] eqn:E; cbn [search_ok] in Hs; [by destruct (Hs _ _ Hreach)..|].
  exists t', ctx. split; [done|].
  destruct (router_match_found _ _ _ _ _ _ _ _ Hr E) as (_ & Hin' & Hb & _).
  destruct Hb as (Hr' & _ & Hb). destruct (Hb _ _ Hreach Hem) as [Heq|]; [left|by right].
  rewrite !reaches_contents in *. congruence.
Qed.

(** C17: The hooks of a match are those of the prefixes of the route's
    pattern, outermost prefix first and in registration order within one
    prefix; the exception handler is the one of the innermost prefix that
    has one. *)
Theorem router_match_hooks m r R L mth path t ctx
    (Hr : registers m r R L) (Hm : router_match r mth path = match_found t ctx) :
  let levels := config_levels m L (target_key m t) in
  c_on_request ctx = concat (map request_hooks_of levels) ∧
  c_pre_handler ctx = concat (map pre_handler_hooks_of levels) ∧
  c_on_response ctx = concat (map response_hooks_of levels) ∧
  c_exception ctx = innermost (map exception_of levels) None.
Proof.
  apply registers_inv in Hr. destruct (router_match_found _ _ _ _ _ _ _ _ Hr Hm) as (_ & _ & Hb & ->).
  destruct Hb as (Hreach & Hem & _). by rewrite (ctx_along_logged _ _ _ _ _ _ _ _ Hr Hreach Hem).
Qed.

(** A registration that throws is invisible to matching: whatever nodes
    it leaves behind, every [match] and every [allowed_methods] returns what
    it returned before, and a second route for the same method and trie key
    always throws. *)
Theorem add_route_rejects m r R L mth pattern body mb bt h r' res
    (Hr : registers m r R L) (Hadd : add_route r mth pattern body mb bt h = (r', res)) :
  (is_ok res = false →
    (∀ mth' path, router_match r' mth' path = router_match r mth' path) ∧
    (∀ path, allowed_methods r' path = allowed_methods r path)) ∧
  ((∃ t, (mth, t) ∈ R ∧ target_key m t = prefix_key m (join_route_pattern [] pattern)) → is_ok res = false).
Proof.
  apply registers_inv in Hr.
  destruct (add_route_inv _ _ _ _ _ _ _ _ _ (ri_wf _ _ _ _ Hr) Hadd) as [Hm Hres]. split.
  - destruct res as [|err]; [done|]. intros _. destruct Hres as (_ & Hwf & Hext).
    assert (Heq : ∀ mi ss, match_node (nodes r') mi 0 ss empty_ctx = match_node (nodes r) mi 0 ss empty_ctx).
    { intros. apply match_node_extends; [apply Hr|done..]. }
    split; [intros mth' path|intros path].
    + unfold router_match. by rewrite Hm, Heq.
    + unfold allowed_methods. rewrite Hm. apply List.filter_ext. intros m'. by rewrite Heq.
  - intros (t & Hin & Hk). destruct res as [[]|err]; [exfalso|done].
    destruct Hres as (_ & _ & ns & i & Hwf & Hext & Hw & Hfree & _).
    assert (Hc : contents (nodes r) (method_index mth) (target_key m t) = Some t) by by apply (ri_routes _ _ _ _ Hr).
    rewrite <-(contents_extends _ _ _ _ Hwf Hext), Hk in Hc. unfold contents in Hc.
    rewrite (ri_matching _ _ _ _ Hr) in Hw. unfold prefix_key in Hc. unfold target_key in Hw. cbn [t_pattern] in Hw.
    rewrite Hw in Hc. cbn in Hc. congruence.
Qed.

(** [allowed_methods] lists exactly the routable methods for which some
    registered route matches the path, in the order of [routed_methods]. *)
Theorem allowed_methods_spec m r R L path
    (Hr : registers m r R L) (Hv : valid path = true) :
  (∀ mth, mth ∈ allowed_methods r path ↔ mth ∈ routed_methods ∧
    ∃ t ps, (mth, t) ∈ R ∧ route_pattern_matches (parse_route_path (t_pattern t)) path m [] = (true, ps)) ∧
  sublist (allowed_methods r path) routed_methods.
Proof.
  apply registers_inv in Hr. split.
  2:{ unfold allowed_methods. induction routed_methods as [|m' l IH]; cbn; [constructor|].
      destruct (_ && _); by constructor. }
  intros mth. unfold allowed_methods. rewrite !list_elem_of_In, filter_In. apply and_iff_compat_l.
  rewrite (proj2 (Nat.ltb_lt _ _)) by apply method_index_bound. cbn [andb].
  pose proof (match_node_ok (nodes r) (method_index mth) (selected_segments path m) 0 empty_ctx (ri_wf _ _ _ _ Hr)) as Hs.
  rewrite (ri_matching _ _ _ _ Hr).
  destruct (match_node _ _ _ _ _) as [[t ctx]|]; cbn [search_ok] in Hs.
  - split; [intros _|done]. destruct Hs as (es & (Hreach & Hem & _) & _).
    apply reaches_contents, (ri_routes _ _ _ _ Hr) in Hreach as [Hin ->].
    destruct (proj2 (pattern_matches_edges t path m [] (ri_valid _ _ _ _ Hr _ _ Hin) Hv) Hem) as [ps Hps]. eauto.
  - split; [done|]. intros (t & ps & Hin & Hps).
    assert (Hem : edges_match (target_key m t) (selected_segments path m)).
    { apply (pattern_matches_edges t path m [] (ri_valid _ _ _ _ Hr _ _ Hin) Hv). eauto. }
    assert (Hreach : reaches (nodes r) (method_index mth) 0 (target_key m t) t).
    { apply reaches_contents, (ri_routes _ _ _ _ Hr). done. }
    by destruct (Hs _ _ Hreach).
Qed.

(** C18: After a successful mount every [match] answers as on a router on
    which the mounted routes were registered one by one with their patterns
    behind the prefix, and the mounted hooks and fallbacks behind their
    prefixes, after what the destination had; the mounted router is empty
    then.  A mount that throws changes no match and leaves the mounted router
    alone.  It succeeds if and only if the prefix can be registered and the
    trees have no conflict. *)
Theorem mount_as_registered m r R L mounted R' L' prefix r' left res
    (Hr : registers m r R L) (Hs : registers m mounted R' L')
    (Hmount : mount r prefix (mount_other mounted) = (r', left, res)) :
  match res with
  | Ok _ => left = mount_other (empty_router m) ∧ route_count r' = route_count r + route_count mounted ∧
      ∀ q, registers m q (R ++ map (mounted_route prefix) R') (L ++ map (mounted_config prefix) L') →
        ∀ mth path, router_match r' mth path = router_match q mth path
  | Err _ => left = mount_other mounted ∧ route_count r' = route_count r ∧
      ∀ mth path, router_match r' mth path = router_match r mth path
  end ∧
  (is_ok res = true ↔ ∃ r1 d, ensure_prefix_node r prefix = (r1, Ok d) ∧
    compatible (subtree (nodes r1) d) (subtree (nodes mounted) 0)).
Proof.
  apply registers_inv in Hr, Hs.
  destruct (mount_inv _ _ _ _ _ _ _ _ _ _ _ Hr Hs Hmount) as (r1 & made & Hmade & Hext & Hr1 & Hres).
  split; [destruct res as [[]|err]|].
  - destruct Hres as (d & _ & _ & Hinv & ->). split; [done|]. split.
    + by rewrite (ri_count _ _ _ _ Hinv), length_app, length_map, (ri_count _ _ _ _ Hr), (ri_count _ _ _ _ Hs).
    + intros q Hq%registers_inv mth path. by eapply inv_match_eq.
  - destruct Hres as (_ & -> & ->). split; [done|]. split.
    + by rewrite (ri_count _ _ _ _ Hr1), (ri_count _ _ _ _ Hr).
    + intros mth path. by eapply inv_match_eq.
  - rewrite Hmade. destruct res as [[]|err]; cbn [is_ok].
    + destruct Hres as (d & -> & Hc & _). split; [|done]. intros _. by exists r1, d.
    + destruct Hres as (Hno & _). split; [done|]. intros (r2 & d & [= <- ->] & Hc). by destruct (Hno d eq_refl).
Qed.
End spec.

(** ** A sample router

    Handlers and hooks are numbers: two routes below a group [/api] with one
    hook, a failed registration, a wildcard, and another router mounted below
    [/v1]. *)

#[local] Existing Instance some_order.

Module Sample.
Definition r0 : router nat nat nat nat := empty_router matching_percent_decoded_segments.
Definition r1 := (add_on_request_hook r0 (lit "/api") 7).1.
Definition r2 := (add_route r1 m_get (lit "/api/:id") body_none 0 0 1).1.
Definition r3 := (add_route r2 m_get (lit "api/list/") body_none 0 0 2).1.
Definition r4 := (add_route r3 m_get (lit "/api/:name/x") body_none 0 0 3).1.
Definition r5 := (add_route r4 m_get (lit "/api/*rest") body_none 0 0 4).1.

Definition target (h : nat) (p : string) : route_target nat := RouteTarget body_none 0 0 h (lit p).
Definition routes : list (method * route_target nat) :=
  [(m_get, target 1 "/api/:id"); (m_get, target 2 "/api/list/"); (m_get, target 4 "/api/*rest")].
Definition log : list (str * @config nat nat nat nat) := [(lit "/api", COnRequest 7)].

Definition o1 : router nat nat nat nat := (add_on_request_hook (empty_router matching_percent_decoded_segments) (lit "/users") 8).1.
Definition o2 := (add_route o1 m_get (lit "/users/:id") body_none 0 0 5).1.
Definition other := (add_route o2 m_get (lit "/") body_none 0 0 6).1.
Definition other_routes : list (method * route_target nat) :=
  [(m_get, target 5 "/users/:id"); (m_get, target 6 "/")].
Definition other_log : list (str * @config nat nat nat nat) := [(lit "/users", COnRequest 8)].

Definition r6 : router nat nat nat nat := (mount r5 (lit "v1/") (mount_other other)).1.1.
Definition all_routes : list (method * route_target nat) :=
  routes ++ [(m_get, target 5 "/v1/users/:id"); (m_get, target 6 "/v1")].
Definition full_log : list (str * @config nat nat nat nat) := log ++ [(lit "/v1/users", COnRequest 8)].

Lemma pair_of {A B} (x : A * B) (y : B) : x.2 = y → x = (x.1, y).
Proof. by destruct x; cbn; intros ->. Qed.

Lemma registered : registers matching_percent_decoded_segments r5 routes log.
Proof.
  apply (reg_route _ r4 [_; _] log m_get (lit "/api/*rest") body_none 0%Z 0%Z 4);
    [|by apply pair_of; vm_compute].
  eapply (reg_route_failed _ r3); [|apply pair_of; vm_compute; reflexivity].
  apply (reg_route _ r2 [_] log m_get (lit "api/list/") body_none 0%Z 0%Z 2);
    [|by apply pair_of; vm_compute].
  apply (reg_route _ r1 [] log m_get (lit "/api/:id") body_none 0%Z 0%Z 1);
    [|by apply pair_of; vm_compute].
  apply (reg_config _ r0 [] [] (lit "/api") (COnRequest 7)); [constructor|by apply pair_of; vm_compute].
Qed.

Lemma other_registered : registers matching_percent_decoded_segments other other_routes other_log.
Proof.
  apply (reg_route _ o2 [_] other_log m_get (lit "/") body_none 0%Z 0%Z 6); [|by apply pair_of; vm_compute].
  apply (reg_route _ o1 [] other_log m_get (lit "/users/:id") body_none 0%Z 0%Z 5); [|by apply pair_of; vm_compute].
  apply (reg_config _ (empty_router matching_percent_decoded_segments) [] [] (lit "/users") (COnRequest 8)); [constructor|by apply pair_of; vm_compute].
Qed.

Lemma mount_ok :
  mount r5 (lit "v1/") (mount_other other) =
    (r6, mount_other (empty_router matching_percent_decoded_segments), Ok ()).
Proof. by vm_compute. Qed.

Lemma mounted : registers matching_percent_decoded_segments r6 all_routes full_log.
Proof. exact (reg_mount _ _ _ _ _ _ _ _ _ _ registered other_registered mount_ok). Qed.
End Sample.

Example sample_static : router_find Sample.r5 m_get (lit "/api/list/") = Some 2.
Proof. by vm_compute. Qed.
Example sample_wildcard : router_find Sample.r5 m_get (lit "/api/a/b") = Some 4.
Proof. by vm_compute. Qed.

Definition sample_found : option (route_target nat * match_ctx nat nat nat) :=
  match router_match_path Sample.r5 m_get (lit "/api/list/") with
  | match_found t ctx => Some (t, ctx)
  | _ => None
  end.

Lemma router_match_sound_witness :
  (m_get, Sample.target 5 "/v1/users/:id") ∈ Sample.all_routes ∧
  route_pattern_matches (parse_route_path (lit "/v1/users/:id")) (parse_route_path (lit "/v1/users/4%32"))
    matching_percent_decoded_segments [] = (true, [(lit "id", lit "42")]).
Proof.
  apply (router_match_sound _ _ _ _ m_get (parse_route_path (lit "/v1/users/4%32")) (Sample.target 5 "/v1/users/:id")
    (MatchCtx [(lit "id", lit "42")] [8] [] [] None) Sample.mounted).
  vm_compute. reflexivity.
Defined.

Lemma router_match_complete_witness :
  ∃ t' ctx, router_match Sample.r5 m_get (parse_route_path (lit "/api/list/")) = match_found t' ctx ∧
    (t' = Sample.target 4 "/api/*rest" ∨
     edges_before (target_key matching_percent_decoded_segments t')
       (target_key matching_percent_decoded_segments (Sample.target 4 "/api/*rest"))).
Proof.
  apply (router_match_complete _ _ _ _ m_get (parse_route_path (lit "/api/list/")) (Sample.target 4 "/api/*rest")
    [(lit "rest", lit "list")] Sample.registered).
  - unfold Sample.routes. rewrite list_elem_of_In. cbn. auto.
  - vm_compute. reflexivity.
Defined.

Lemma router_match_hooks_witness :
  [8] = concat (map request_hooks_of
    (config_levels matching_percent_decoded_segments Sample.full_log
      (target_key matching_percent_decoded_segments (Sample.target 5 "/v1/users/:id")))).
Proof.
  apply (router_match_hooks _ _ _ _ m_get (parse_route_path (lit "/v1/users/4%32")) (Sample.target 5 "/v1/users/:id")
    (MatchCtx [(lit "id", lit "42")] [8] [] [] None) Sample.mounted).
  vm_compute. reflexivity.
Defined.

Lemma add_route_rejects_witness :
  is_ok (add_route Sample.r5 m_get (lit "api/:id") body_text 1 2 9).2 = false.
Proof.
  apply (add_route_rejects _ _ _ _ m_get (lit "api/:id") body_text 1 2 9
    _ _ Sample.registered (surjective_pairing _)).
  exists (Sample.target 1 "/api/:id"). split; [unfold Sample.routes; rewrite list_elem_of_In; cbn; auto|].
  vm_compute. reflexivity.
Defined.

Lemma allowed_methods_spec_witness :
  sublist (allowed_methods Sample.r5 (parse_route_path (lit "/api/list/"))) routed_methods.
Proof.
  apply (allowed_methods_spec _ _ _ _ (parse_route_path (lit "/api/list/")) Sample.registered).
  vm_compute. reflexivity.
Defined.

(** A failed registration is not invisible to [fallback]: the static node it
    leaves behind shadows the parameter child that carries the group's
    [not_found] handler. *)
Definition shadowed : router nat nat nat nat :=
  (add_not_found_handler (empty_router matching_raw) (lit "/:tenant") 5).1.
Example failed_registration_shadows_fallback :
  fb_not_found (router_fallback shadowed (parse_route_path (lit "/a"))) = Some 5 ∧
  (add_route shadowed m_get (lit "/a/*") body_none 0 0 1).2 = Err (lit "HTTP route wildcard must be named") ∧
  fb_not_found (router_fallback (add_route shadowed m_get (lit "/a/*") body_none 0 0 1).1
    (parse_route_path (lit "/a"))) = None.
Proof. by vm_compute. Qed.

(** The routes and hooks of the two routers, registered one by one. *)
Definition one_by_one0 : router nat nat nat nat := (add_route Sample.r5 m_get (lit "/v1/users/:id") body_none 0 0 5).1.
Definition one_by_one1 : router nat nat nat nat := (add_route one_by_one0 m_get (lit "/v1") body_none 0 0 6).1.
Definition one_by_one : router nat nat nat nat := (add_on_request_hook one_by_one1 (lit "/v1/users") 8).1.

Lemma mount_as_registered_witness :
  (mount Sample.r5 (lit "v1/") (mount_other Sample.other)).2 = Ok () ∧
  router_match Sample.r6 m_get (parse_route_path (lit "/v1/users/4%32")) =
    router_match one_by_one m_get (parse_route_path (lit "/v1/users/4%32")).
Proof.
  split; [vm_compute; reflexivity|].
  apply (mount_as_registered _ _ _ _ _ _ _ _ _ _ _ Sample.registered Sample.other_registered Sample.mount_ok).
  apply (reg_config _ one_by_one1 Sample.all_routes Sample.log (lit "/v1/users") (COnRequest 8));
    [|by apply Sample.pair_of; vm_compute].
  apply (reg_route _ one_by_one0 (Sample.routes ++ [_]) Sample.log m_get (lit "/v1") body_none 0%Z 0%Z 6);
    [|by apply Sample.pair_of; vm_compute].
  apply (reg_route _ Sample.r5 Sample.routes Sample.log m_get (lit "/v1/users/:id") body_none 0%Z 0%Z 5);
    [exact Sample.registered|by apply Sample.pair_of; vm_compute].
Defined.

(** A mount that would add a second route for the same method and key. *)
Example mount_conflict :
  (mount Sample.r6 (lit "/v1") (mount_other Sample.other)).2 =
    Err (lit "HTTP mounted router conflicts with an existing route").
Proof. by vm_compute. Qed.
