(* ===== verification/Http1.v ===== *)
(** * The HTTP/1 request state machine

    [src/http/detail/http1_state_machine.cpp].  The grammar of HTTP/1 is
    parsed by llhttp, which is not part of the repository; the class reacts to
    its callbacks.  A run of [llhttp_execute] is therefore given by the
    callbacks that llhttp makes for the bytes, and by the result it has when
    no callback stops it ([llhttp_run]); the theorems hold for every run.
    What is modelled is all the state of the class: the message being built,
    the pending header, the limits and their counters, the event queue. *)

From S2P Require Import Prelude Text Http.

(** ** Data *)

Record http1_limits := Limits { max_header_bytes : Z; max_header_count : Z }.

Record http1_message := Message {
  msg_method : method;
  msg_target : str;
  msg_headers : headers;
  msg_body : str;
  msg_http_major : Z;
  msg_http_minor : Z;
  msg_keep_alive : bool;
  msg_upgrade : bool
}.

Definition empty_message : http1_message := Message m_unknown [] [] [] 1 1 false false.

Inductive http1_event :=
| ev_headers (message : http1_message)
| ev_body (chunk : str)
| ev_complete (message : http1_message).

Inductive header_part := part_none | part_field | part_value.

Record http1 := Http1 {
  limits_ : http1_limits;
  current_ : http1_message;
  completed_messages_ : list http1_message;
  events_ : list http1_event;
  pending_header_field_ : str;
  pending_header_value_ : str;
  header_bytes_ : Z;
  header_count_ : Z;
  limit_error_ : str;
  last_header_part_ : header_part
}.

Inductive parse_status := status_ok | status_error | status_upgrade.

Record http1_parse_result := ParseResult { code : parse_status; error : str; parsed_bytes : Z }.

(** The part of llhttp's enumeration that [map_method] names. *)
Inductive llhttp_method :=
| HTTP_DELETE | HTTP_GET | HTTP_HEAD | HTTP_POST | HTTP_PUT | HTTP_CONNECT | HTTP_OPTIONS | HTTP_TRACE
| HTTP_PATCH | HTTP_OTHER.

Definition map_method (value : llhttp_method) : method :=
  match value with
  | HTTP_DELETE => m_delete
  | HTTP_GET => m_get
  | HTTP_HEAD => m_head
  | HTTP_POST => m_post
  | HTTP_PUT => m_put
  | HTTP_CONNECT => m_connect
  | HTTP_OPTIONS => m_options
  | HTTP_TRACE => m_trace
  | HTTP_PATCH => m_patch
  | HTTP_OTHER => m_unknown
  end.

(** The callbacks, with what the handlers read from the parser. *)
Inductive callback :=
| cb_message_begin
| cb_url (at_ : str)
| cb_header_field (at_ : str)
| cb_header_value (at_ : str)
| cb_headers_complete (method : llhttp_method) (major minor : Z)
| cb_body (at_ : str)
| cb_message_complete (should_keep_alive : bool).

(** What a handler returns to llhttp: [HPE_OK], [HPE_USER], or the value 2 of
    [on_headers_complete]. *)
Inductive callback_return := hpe_ok | hpe_user | pause_upgrade.

(** ** Operations *)

Definition init (l : http1_limits) : http1 := Http1 l empty_message [] [] [] [] 0 0 [] part_none.

Definition reset (s : http1) : http1 := init (limits_ s).

Definition set_limits (s : http1) (value : http1_limits) : http1 :=
  Http1 value (current_ s) (completed_messages_ s) (events_ s) (pending_header_field_ s) (pending_header_value_ s)
    (header_bytes_ s) (header_count_ s) (limit_error_ s) (last_header_part_ s).

Definition with_current (f : http1_message → http1_message) (s : http1) : http1 :=
  Http1 (limits_ s) (f (current_ s)) (completed_messages_ s) (events_ s) (pending_header_field_ s)
    (pending_header_value_ s) (header_bytes_ s) (header_count_ s) (limit_error_ s) (last_header_part_ s).

Definition push_event (e : http1_event) (s : http1) : http1 :=
  Http1 (limits_ s) (current_ s) (completed_messages_ s) (events_ s ++ [e]) (pending_header_field_ s)
    (pending_header_value_ s) (header_bytes_ s) (header_count_ s) (limit_error_ s) (last_header_part_ s).

Definition set_pending (field value : str) (part : header_part) (s : http1) : http1 :=
  Http1 (limits_ s) (current_ s) (completed_messages_ s) (events_ s) field value (header_bytes_ s)
    (header_count_ s) (limit_error_ s) part.

Definition set_counts (bytes count : Z) (s : http1) : http1 :=
  Http1 (limits_ s) (current_ s) (completed_messages_ s) (events_ s) (pending_header_field_ s)
    (pending_header_value_ s) bytes count (limit_error_ s) (last_header_part_ s).

Definition set_limit_error (msg : str) (s : http1) : http1 :=
  Http1 (limits_ s) (current_ s) (completed_messages_ s) (events_ s) (pending_header_field_ s)
    (pending_header_value_ s) (header_bytes_ s) (header_count_ s) msg (last_header_part_ s).

Definition add_header (name value : str) (m : http1_message) : http1_message :=
  Message (msg_method m) (msg_target m) (headers_add (msg_headers m) name value) (msg_body m) (msg_http_major m)
    (msg_http_minor m) (msg_keep_alive m) (msg_upgrade m).

Definition too_large : str := lit "request headers are too large".
Definition too_many : str := lit "request has too many headers".

Definition reserve_header_bytes (s : http1) (length : Z) : http1 * bool :=
  if (max_header_bytes (limits_ s) <? length)%Z
     || (max_header_bytes (limits_ s) - length <? header_bytes_ s)%Z
  then (set_limit_error too_large s, false)
  else (set_counts (header_bytes_ s + length) (header_count_ s) s, true).

Definition commit_pending_header (s : http1) : http1 * bool :=
  if bool_decide (pending_header_field_ s = []) then
    (set_pending (pending_header_field_ s) (pending_header_value_ s) part_none s, true)
  else if (max_header_count (limits_ s) <=? header_count_ s)%Z then (set_limit_error too_many s, false)
  else
    (set_pending [] [] part_none
       (set_counts (header_bytes_ s) (header_count_ s + 1)
          (with_current (add_header (pending_header_field_ s) (pending_header_value_ s)) s)), true).

Definition on_message_begin (s : http1) : http1 :=
  Http1 (limits_ s) empty_message (completed_messages_ s) (events_ s) [] [] 0 0 [] part_none.

Definition on_url (s : http1) (span : str) : http1 :=
  with_current (λ m, Message (msg_method m) (msg_target m ++ span) (msg_headers m) (msg_body m) (msg_http_major m)
    (msg_http_minor m) (msg_keep_alive m) (msg_upgrade m)) s.

Definition on_header_field (s : http1) (span : str) : http1 * callback_return :=
  let '(s, committed) :=
    match last_header_part_ s with
    | part_value => commit_pending_header s
    | _ => (s, true)
    end in
  if negb committed then (s, hpe_user)
  else
    match reserve_header_bytes s (Z.of_nat (length span)) with
    | (s, false) => (s, hpe_user)
    | (s, true) => (set_pending (pending_header_field_ s ++ span) (pending_header_value_ s) part_field s, hpe_ok)
    end.

Definition on_header_value (s : http1) (span : str) : http1 * callback_return :=
  match reserve_header_bytes s (Z.of_nat (length span)) with
  | (s, false) => (s, hpe_user)
  | (s, true) => (set_pending (pending_header_field_ s) (pending_header_value_ s ++ span) part_value s, hpe_ok)
  end.

Definition on_headers_complete (s : http1) (method : llhttp_method) (major minor : Z) : http1 * callback_return :=
  match commit_pending_header s with
  | (s, false) => (s, hpe_user)
  | (s, true) =>
    let s := with_current (λ m, Message (map_method method) (msg_target m) (msg_headers m) (msg_body m) major minor
      (msg_keep_alive m) (msg_upgrade m)) s in
    let s := push_event (ev_headers (current_ s)) s in
    if negb (bool_decide (headers_get (msg_headers (current_ s)) (lit "upgrade") = []))
       || bool_decide (msg_method (current_ s) = m_connect)
    then (s, pause_upgrade)
    else (s, hpe_ok)
  end.

Definition on_body (s : http1) (span : str) : http1 :=
  push_event (ev_body span)
    (with_current (λ m, Message (msg_method m) (msg_target m) (msg_headers m) (msg_body m ++ span) (msg_http_major m)
      (msg_http_minor m) (msg_keep_alive m) (msg_upgrade m)) s).

Definition on_message_complete (s : http1) (should_keep_alive : bool) : http1 * callback_return :=
  match commit_pending_header s with
  | (s, false) => (s, hpe_user)
  | (s, true) =>
    let s := with_current (λ m, Message (msg_method m) (msg_target m) (msg_headers m) (msg_body m) (msg_http_major m)
      (msg_http_minor m) should_keep_alive (msg_upgrade m)) s in
    let s := push_event (ev_complete (current_ s)) s in
    (Http1 (limits_ s) empty_message (completed_messages_ s ++ [current_ s]) (events_ s) (pending_header_field_ s)
       (pending_header_value_ s) (header_bytes_ s) (header_count_ s) (limit_error_ s) (last_header_part_ s), hpe_ok)
  end.

Definition on_callback (s : http1) (cb : callback) : http1 * callback_return :=
  match cb with
  | cb_message_begin => (on_message_begin s, hpe_ok)
  | cb_url span => (on_url s span, hpe_ok)
  | cb_header_field span => on_header_field s span
  | cb_header_value span => on_header_value s span
  | cb_headers_complete method major minor => on_headers_complete s method major minor
  | cb_body span => (on_body s span, hpe_ok)
  | cb_message_complete keep_alive => on_message_complete s keep_alive
  end.

(** llhttp stops at the first callback that returns [HPE_USER]. *)
Fixpoint run_callbacks (s : http1) (cbs : list callback) : http1 * bool :=
  match cbs with
  | [] => (s, true)
  | cb :: cbs' =>
    match on_callback s cb with
    | (s', hpe_user) => (s', false)
    | (s', _) => run_callbacks s' cbs'
    end
  end.

(** What [llhttp_execute] does with some bytes: the callbacks it makes and, if
    none of them stops it, its result; [Some pos] is [HPE_PAUSED_UPGRADE] with
    the offset of [llhttp_get_error_pos] in the bytes. *)
Inductive llhttp_result := hpe_done | hpe_paused_upgrade (error_pos : Z) | hpe_error (name : str).

Record llhttp_run := Run { run_calls : list callback; run_result : llhttp_result }.

Fixpoint set_last_upgrade (ms : list http1_message) : list http1_message :=
  match ms with
  | [] => []
  | [m] => [Message (msg_method m) (msg_target m) (msg_headers m) (msg_body m) (msg_http_major m) (msg_http_minor m)
      (msg_keep_alive m) true]
  | m :: ms' => m :: set_last_upgrade ms'
  end.

Definition parse_error (s : http1) (name : str) : http1_parse_result :=
  if bool_decide (limit_error_ s = []) then ParseResult status_error name 0
  else ParseResult status_error (limit_error_ s) 0.

Definition parse (s : http1) (bytes : str) (run : llhttp_run) : http1 * http1_parse_result :=
  let '(s, finished) := run_callbacks s (run_calls run) in
  if negb finished then (s, parse_error s (lit "HPE_USER"))
  else
    match run_result run with
    | hpe_done => (s, ParseResult status_ok [] (Z.of_nat (length bytes)))
    | hpe_paused_upgrade error_pos =>
      let s := Http1 (limits_ s) (current_ s) (set_last_upgrade (completed_messages_ s)) (events_ s)
        (pending_header_field_ s) (pending_header_value_ s) (header_bytes_ s) (header_count_ s) (limit_error_ s)
        (last_header_part_ s) in
      let size := Z.of_nat (length bytes) in
      (s, ParseResult status_upgrade [] (if (0 <=? error_pos)%Z && (error_pos <=? size)%Z then error_pos else size))
    | hpe_error name => (s, parse_error s name)
    end.

(** ** Limits *)

Definition headers_size (hs : headers) : Z := foldr (λ '(n, v) acc, Z.of_nat (length n) + Z.of_nat (length v) + acc)%Z 0%Z hs.

Definition message_within (l : http1_limits) (m : http1_message) : Prop :=
  (Z.of_nat (length (msg_headers m)) ≤ max_header_count l ∧ headers_size (msg_headers m) ≤ max_header_bytes l)%Z.

Definition event_within (l : http1_limits) (e : http1_event) : Prop :=
  match e with ev_headers m | ev_complete m => message_within l m | ev_body _ => True end.

(** What every handler keeps: the counters measure the message being built,
    and everything handed out is within the limits. *)
Record http1_inv (l : http1_limits) (s : http1) : Prop := {
  hi_limits : limits_ s = l;
  hi_count : (Z.of_nat (length (msg_headers (current_ s))) ≤ header_count_ s ≤ max_header_count l)%Z;
  hi_bytes : (headers_size (msg_headers (current_ s)) + Z.of_nat (length (pending_header_field_ s)) +
    Z.of_nat (length (pending_header_value_ s)) ≤ header_bytes_ s ≤ max_header_bytes l)%Z;
  hi_completed : Forall (message_within l) (completed_messages_ s);
  hi_events : Forall (event_within l) (events_ s)
}.

Lemma headers_size_app hs hs' : headers_size (hs ++ hs') = (headers_size hs + headers_size hs')%Z.
Proof. induction hs as [|[n v] hs IH]; cbn; [done|]. unfold headers_size in *. cbn. lia. Qed.

Lemma headers_size_nonneg hs : (0 ≤ headers_size hs)%Z.
Proof. induction hs as [|[n v] hs IH]; cbn; [done|]. unfold headers_size in *. cbn. lia. Qed.

Lemma reserve_header_bytes_cases s n :
  (0 ≤ n)%Z →
  ((header_bytes_ s + n ≤ max_header_bytes (limits_ s))%Z ∧
   reserve_header_bytes s n = (set_counts (header_bytes_ s + n) (header_count_ s) s, true)) ∨
  ((max_header_bytes (limits_ s) < header_bytes_ s + n)%Z ∧
   reserve_header_bytes s n = (set_limit_error too_large s, false)) ∨ (header_bytes_ s < 0)%Z.
Proof.
  intros Hn. unfold reserve_header_bytes.
  destruct (Z.ltb_spec (max_header_bytes (limits_ s)) n); cbn [orb].
  - destruct (decide (header_bytes_ s < 0)%Z); [auto|]. right. left. split; [lia|done].
  - destruct (Z.ltb_spec (max_header_bytes (limits_ s) - n) (header_bytes_ s)).
    + right. left. split; [lia|done].
    + left. split; [lia|done].
Qed.

Lemma reserve_inv l s n s' ok :
  http1_inv l s → (0 ≤ n)%Z → reserve_header_bytes s n = (s', ok) →
  if ok then s' = set_counts (header_bytes_ s + n) (header_count_ s) s ∧ (header_bytes_ s + n ≤ max_header_bytes l)%Z
  else s' = set_limit_error too_large s.
Proof.
  intros [Hl Hc Hb _ _] Hn. pose proof (headers_size_nonneg (msg_headers (current_ s))).
  destruct (reserve_header_bytes_cases s n Hn) as [[Hle ->]|[[Hlt ->]|Hneg]]; [| |lia];
    intros [= <- <-]; [rewrite Hl in Hle|]; done.
Qed.

Lemma commit_inv l s s' ok : http1_inv l s → commit_pending_header s = (s', ok) → http1_inv l s'.
Proof.
  intros [Hl Hc Hb Hm He]. unfold commit_pending_header. rewrite Hl.
  destruct (bool_decide (pending_header_field_ s = [])) eqn:Hf; [by intros [= <- _]|].
  destruct (Z.leb_spec (max_header_count l) (header_count_ s)); intros [= <- _]; [done|].
  constructor; cbn; [done| | |done|done].
  - unfold headers_add. rewrite length_app. cbn. lia.
  - unfold headers_add. rewrite headers_size_app. cbn. lia.
Qed.

Lemma commit_message_within l s s' :
  http1_inv l s → commit_pending_header s = (s', true) → message_within l (current_ s').
Proof.
  intros Hinv Hc. pose proof (commit_inv _ _ _ _ Hinv Hc) as [_ Hcount Hb _ _]. split; lia.
Qed.

Lemma set_pending_inv l s f v p :
  http1_inv l s →
  (headers_size (msg_headers (current_ s)) + Z.of_nat (length f) + Z.of_nat (length v) ≤ header_bytes_ s)%Z →
  http1_inv l (set_pending f v p s).
Proof. intros [Hl Hc Hb Hm He] H. constructor; cbn; try done. lia. Qed.

Lemma on_callback_inv l s cb s' ret :
  (0 ≤ max_header_bytes l)%Z → (0 ≤ max_header_count l)%Z →
  http1_inv l s → on_callback s cb = (s', ret) → http1_inv l s'.
Proof.
  intros Hl1 Hl2 Hinv. destruct cb as [|span|span|span|meth maj min|span|ka]; cbn [on_callback].
  - intros [= <- _]. destruct Hinv. constructor; cbn; try done; lia.
  - intros [= <- _]. destruct Hinv. by constructor.
  - unfold on_header_field.
    assert (∀ s1, http1_inv l s1 →
      match reserve_header_bytes s1 (Z.of_nat (length span)) with
      | (s2, false) => (s2, hpe_user)
      | (s2, true) => (set_pending (pending_header_field_ s2 ++ span) (pending_header_value_ s2) part_field s2, hpe_ok)
      end = (s', ret) → http1_inv l s') as Hreserve.
    { intros s1 Hinv1. destruct (reserve_header_bytes s1 _) as [s2 ok] eqn:E.
      apply (reserve_inv l) in E; [|done|lia]. destruct ok.
      - destruct E as [-> Hle]. intros [= <- _]. destruct Hinv1. constructor; cbn; try done.
        rewrite length_app. lia.
      - subst. intros [= <- _]. by destruct Hinv1. }
    destruct (last_header_part_ s); [by apply Hreserve..|].
    destruct (commit_pending_header s) as [s1 ok] eqn:E. pose proof (commit_inv _ _ _ _ Hinv E) as Hinv1.
    destruct ok; cbn [negb]; [by apply Hreserve|]. by intros [= <- _].
  - unfold on_header_value. destruct (reserve_header_bytes s _) as [s2 ok] eqn:E.
    apply (reserve_inv l) in E; [|done|lia]. destruct ok.
    + destruct E as [-> Hle]. intros [= <- _]. destruct Hinv. constructor; cbn; try done. rewrite length_app. lia.
    + subst. intros [= <- _]. by destruct Hinv.
  - unfold on_headers_complete. destruct (commit_pending_header s) as [s1 ok] eqn:E.
    pose proof (commit_inv _ _ _ _ Hinv E) as Hinv1.
    destruct ok; [|by intros [= <- _]]. pose proof (commit_message_within _ _ _ Hinv E) as Hw.
    intros Heq. assert (s' = push_event (ev_headers (Message (map_method meth) (msg_target (current_ s1))
      (msg_headers (current_ s1)) (msg_body (current_ s1)) maj min (msg_keep_alive (current_ s1))
      (msg_upgrade (current_ s1)))) (with_current (λ m, Message (map_method meth) (msg_target m) (msg_headers m)
      (msg_body m) maj min (msg_keep_alive m) (msg_upgrade m)) s1)) as ->.
    { by destruct (_ || _) in Heq; injection Heq as <- _. }
    destruct Hinv1. constructor; cbn; try done. apply Forall_app. split; [done|]. by constructor.
  - intros [= <- _]. destruct Hinv. constructor; cbn; try done. apply Forall_app. split; [done|]. by constructor.
  - unfold on_message_complete. destruct (commit_pending_header s) as [s1 ok] eqn:E.
    pose proof (commit_inv _ _ _ _ Hinv E) as Hinv1.
    destruct ok; [|by intros [= <- _]]. pose proof (commit_message_within _ _ _ Hinv E) as Hw.
    intros [= <- _]. pose proof (headers_size_nonneg (msg_headers (current_ s1))).
    destruct Hinv1. constructor; cbn; try done; [lia..| |]; apply Forall_app; (split; [done|]); by constructor.
Qed.

Lemma run_callbacks_inv l s cbs s' ok :
  (0 ≤ max_header_bytes l)%Z → (0 ≤ max_header_count l)%Z →
  http1_inv l s → run_callbacks s cbs = (s', ok) → http1_inv l s'.
Proof.
  intros Hl1 Hl2. revert s. induction cbs as [|cb cbs IH]; intros s Hinv; cbn [run_callbacks].
  { by intros [= <- _]. }
  destruct (on_callback s cb) as [s1 ret] eqn:E. pose proof (on_callback_inv _ _ _ _ _ Hl1 Hl2 Hinv E) as Hinv1.
  destruct ret; [by apply IH|by intros [= <- _]|by apply IH].
Qed.

Lemma set_last_upgrade_within l ms : Forall (message_within l) ms → Forall (message_within l) (set_last_upgrade ms).
Proof.
  induction 1 as [|m [|m' ms] Hm Hms IH]; cbn; [constructor| |by constructor]. constructor; [done|constructor].
Qed.

Lemma parse_inv l s bytes run s' res :
  (0 ≤ max_header_bytes l)%Z → (0 ≤ max_header_count l)%Z →
  http1_inv l s → parse s bytes run = (s', res) → http1_inv l s'.
Proof.
  intros Hl1 Hl2 Hinv. unfold parse. destruct (run_callbacks s _) as [s1 ok] eqn:E.
  pose proof (run_callbacks_inv _ _ _ _ _ Hl1 Hl2 Hinv E) as Hinv1.
  destruct ok; cbn [negb]; [|by intros [= <- _]].
  destruct (run_result run); intros [= <- _]; [done| |done].
  destruct Hinv1. constructor; cbn; try done. by apply set_last_upgrade_within.
Qed.

(** The states of a machine with limits [l]: any number of [parse] calls, on
    any runs of the parser, and [reset]s. *)
Inductive http1_reachable (l : http1_limits) : http1 → Prop :=
| hr_init : http1_reachable l (init l)
| hr_parse s bytes run s' res :
    http1_reachable l s → parse s bytes run = (s', res) → http1_reachable l s'
| hr_reset s : http1_reachable l s → http1_reachable l (reset s).

Lemma http1_init_inv l :
  (0 ≤ max_header_bytes l)%Z → (0 ≤ max_header_count l)%Z → http1_inv l (init l).
Proof. intros. constructor; cbn; try done; lia. Qed.

(** C8: Whatever bytes arrive and however the parser cuts them into callbacks,
    every message and headers event that the machine ever hands out has at
    most [max_header_count] headers (trailers included) of at most
    [max_header_bytes] bytes in all, and the counter never exceeds its
    limit. *)
Theorem http1_limits_hold l s
    (Hb : (0 ≤ max_header_bytes l)%Z) (Hc : (0 ≤ max_header_count l)%Z) (Hs : http1_reachable l s) :
  Forall (message_within l) (completed_messages_ s) ∧ Forall (event_within l) (events_ s) ∧
  (0 ≤ header_bytes_ s ≤ max_header_bytes l)%Z.
Proof.
  assert (http1_inv l s) as [].
  { induction Hs as [|s bytes run s' res Hs IH Hp|s Hs IH].
    - by apply http1_init_inv.
    - by eapply parse_inv.
    - unfold reset. rewrite (hi_limits _ _ IH). by apply http1_init_inv. }
  pose proof (headers_size_nonneg (msg_headers (current_ s))). split_and!; [done|done|lia|lia].
Qed.

(** ** Reassembly

    The callbacks of one request, each element cut into any number of spans. *)

Record header_spans := HeaderSpans { field_spans : list str; value_spans : list str }.

Record request_spans := RequestSpans {
  url_spans : list str;
  header_list : list header_spans;
  rq_method : llhttp_method;
  rq_major : Z;
  rq_minor : Z;
  body_spans : list str;
  trailer_list : list header_spans;
  rq_keep_alive : bool
}.

Definition header_calls (h : header_spans) : list callback :=
  map cb_header_field (field_spans h) ++ map cb_header_value (value_spans h).

Definition request_calls (r : request_spans) : list callback :=
  cb_message_begin :: map cb_url (url_spans r) ++ concat (map header_calls (header_list r)) ++
  cb_headers_complete (rq_method r) (rq_major r) (rq_minor r) :: map cb_body (body_spans r) ++
  concat (map header_calls (trailer_list r)) ++ [cb_message_complete (rq_keep_alive r)].

(** llhttp reports a non-empty name, in one span at least, and a value for
    every header, in one span at least. *)
Definition header_spans_ok (h : header_spans) : Prop :=
  concat (field_spans h) ≠ [] ∧ value_spans h ≠ [].

Definition request_spans_ok (r : request_spans) : Prop :=
  Forall header_spans_ok (header_list r) ∧ Forall header_spans_ok (trailer_list r).

(** What the spans say, whatever the cuts. *)
Definition header_of (h : header_spans) : str * str := (concat (field_spans h), concat (value_spans h)).

Definition head_message (r : request_spans) : http1_message :=
  Message (map_method (rq_method r)) (concat (url_spans r)) (map header_of (header_list r)) [] (rq_major r)
    (rq_minor r) false false.

Definition full_message (r : request_spans) : http1_message :=
  Message (map_method (rq_method r)) (concat (url_spans r)) (map header_of (header_list r ++ trailer_list r))
    (concat (body_spans r)) (rq_major r) (rq_minor r) (rq_keep_alive r) false.

(** The states between two headers, with the pending header if there is one. *)
Definition between (l : http1_limits) (done_ : list http1_message) (evs : list http1_event) (m : http1_message)
    (pending : option (str * str)) (bytes : Z) : http1 :=
  match pending with
  | None => Http1 l m done_ evs [] [] bytes (Z.of_nat (length (msg_headers m))) [] part_none
  | Some (f, v) => Http1 l m done_ evs f v bytes (Z.of_nat (length (msg_headers m))) [] part_value
  end.

Definition commit_to (m : http1_message) (pending : option (str * str)) : http1_message :=
  match pending with None => m | Some (f, v) => add_header f v m end.

Definition pending_ok (pending : option (str * str)) : Prop :=
  match pending with None => True | Some (f, _) => f ≠ [] end.

(** A run stopped by a limit. *)
Definition stopped (done_ : list http1_message) (res : http1 * bool) : Prop :=
  ∃ s, res = (s, false) ∧ completed_messages_ s = done_ ∧ (limit_error_ s = too_large ∨ limit_error_ s = too_many).

Lemma run_callbacks_app s a b :
  run_callbacks s (a ++ b) = match run_callbacks s a with (s', true) => run_callbacks s' b | (s', false) => (s', false) end.
Proof.
  revert s. induction a as [|cb a IH]; intros s; cbn [app run_callbacks]; [done|].
  destruct (on_callback s cb) as [s1 []]; [apply IH|done|apply IH].
Qed.

Lemma run_urls l d e m bytes urls :
  run_callbacks (between l d e m None bytes) (map cb_url urls) =
    (between l d e (Message (msg_method m) (msg_target m ++ concat urls) (msg_headers m) (msg_body m)
       (msg_http_major m) (msg_http_minor m) (msg_keep_alive m) (msg_upgrade m)) None bytes, true).
Proof.
  revert m. induction urls as [|u urls IH]; intros m; cbn [map run_callbacks concat].
  { rewrite app_nil_r. by destruct m. }
  cbn [on_callback]. change (on_url (between l d e m None bytes) u) with
    (between l d e (Message (msg_method m) (msg_target m ++ u) (msg_headers m) (msg_body m)
      (msg_http_major m) (msg_http_minor m) (msg_keep_alive m) (msg_upgrade m)) None bytes).
  rewrite IH. cbn. by rewrite app_assoc.
Qed.

Lemma run_bodies l d e m bytes bodies :
  run_callbacks (between l d e m None bytes) (map cb_body bodies) =
    (between l d (e ++ map ev_body bodies) (Message (msg_method m) (msg_target m) (msg_headers m)
       (msg_body m ++ concat bodies) (msg_http_major m) (msg_http_minor m) (msg_keep_alive m) (msg_upgrade m))
       None bytes, true).
Proof.
  revert m e. induction bodies as [|u bodies IH]; intros m e; cbn [map run_callbacks concat].
  { rewrite !app_nil_r. by destruct m. }
  cbn [on_callback]. change (on_body (between l d e m None bytes) u) with
    (between l d (e ++ [ev_body u]) (Message (msg_method m) (msg_target m) (msg_headers m) (msg_body m ++ u)
      (msg_http_major m) (msg_http_minor m) (msg_keep_alive m) (msg_upgrade m)) None bytes).
  rewrite IH. cbn. by rewrite <-!app_assoc.
Qed.

Lemma commit_between l d e m pending bytes :
  pending_ok pending →
  (Z.of_nat (length (msg_headers (commit_to m pending))) ≤ max_header_count l)%Z ∨ pending = None →
  commit_pending_header (between l d e m pending bytes) = (between l d e (commit_to m pending) None bytes, true).
Proof.
  intros Hok Hcount. destruct pending as [[f v]|]; cbn [between commit_to]; [|done].
  destruct Hcount as [Hcount|]; [|done]. cbn in Hok, Hcount. unfold headers_add in Hcount. rewrite length_app in Hcount.
  cbn in Hcount. unfold commit_pending_header. cbn. rewrite bool_decide_eq_false_2 by done.
  destruct (Z.leb_spec (max_header_count l) (Z.of_nat (length (msg_headers m)))); [lia|].
  unfold set_pending, set_counts, with_current, add_header, headers_add. cbn. do 2 f_equal.
  rewrite length_app. cbn. lia.
Qed.

Lemma commit_between_full l d e m pending bytes :
  pending_ok pending →
  (max_header_count l < Z.of_nat (length (msg_headers (commit_to m pending))))%Z → pending ≠ None →
  ∃ s, commit_pending_header (between l d e m pending bytes) = (s, false) ∧ completed_messages_ s = d ∧
    limit_error_ s = too_many.
Proof.
  intros Hok Hcount Hp. destruct pending as [[f v]|]; [|done]. cbn in *. unfold headers_add in Hcount.
  rewrite length_app in Hcount. cbn in Hcount. unfold commit_pending_header. cbn.
  rewrite bool_decide_eq_false_2 by done.
  destruct (Z.leb_spec (max_header_count l) (Z.of_nat (length (msg_headers m)))); [by eexists|lia].
Qed.

Lemma reserve_fits s n :
  (0 ≤ n)%Z → (header_bytes_ s + n ≤ max_header_bytes (limits_ s))%Z → (0 ≤ header_bytes_ s)%Z →
  reserve_header_bytes s n = (set_counts (header_bytes_ s + n) (header_count_ s) s, true).
Proof. intros Hn H H0. destruct (reserve_header_bytes_cases s n Hn) as [[_ ->]|[[? _]|?]]; [done|lia..]. Qed.

Lemma reserve_overflows s n :
  (0 ≤ n)%Z → (max_header_bytes (limits_ s) < header_bytes_ s + n)%Z → (0 ≤ header_bytes_ s)%Z →
  reserve_header_bytes s n = (set_limit_error too_large s, false).
Proof. intros Hn H H0. destruct (reserve_header_bytes_cases s n Hn) as [[? _]|[[_ ->]|?]]; [lia|done|lia]. Qed.

Definition spans_size (spans : list str) : Z := Z.of_nat (length (concat spans)).

Lemma spans_size_cons s spans : spans_size (s :: spans) = (Z.of_nat (length s) + spans_size spans)%Z.
Proof. unfold spans_size. cbn. rewrite length_app. lia. Qed.

Lemma spans_size_nonneg spans : (0 ≤ spans_size spans)%Z.
Proof. unfold spans_size. lia. Qed.

(** Spans of a name, after the commit that the first of them makes. *)
Lemma run_fields l d e m f v bytes n part spans :
  part ≠ part_value → (0 ≤ bytes)%Z →
  let s := Http1 l m d e f v bytes n [] part in
  if bool_decide (bytes + spans_size spans ≤ max_header_bytes l)%Z then
    run_callbacks s (map cb_header_field spans) =
      (Http1 l m d e (f ++ concat spans) v (bytes + spans_size spans) n []
         (if bool_decide (spans = []) then part else part_field), true)
  else (bytes ≤ max_header_bytes l)%Z → stopped d (run_callbacks s (map cb_header_field spans)).
Proof.
  revert f bytes part. induction spans as [|sp spans IH]; intros f bytes part Hpart Hb; cbn zeta.
  { unfold spans_size. cbn. rewrite Z.add_0_r, app_nil_r. by case_bool_decide. }
  rewrite spans_size_cons. pose proof (spans_size_nonneg spans).
  cbn [map run_callbacks on_callback]. unfold on_header_field. cbn [last_header_part_].
  replace (match part with part_value => commit_pending_header _ | _ => _ end)
    with (Http1 l m d e f v bytes n [] part, true) by by destruct part.
  cbn [negb]. destruct (decide (bytes + Z.of_nat (length sp) ≤ max_header_bytes l)%Z) as [Hfit|Hfit].
  - rewrite reserve_fits by (cbn; lia). cbn.
    specialize (IH (f ++ sp) (bytes + Z.of_nat (length sp))%Z part_field ltac:(done) ltac:(lia)). cbn zeta in IH.
    rewrite <-Z.add_assoc in IH. case_bool_decide; [|intros _; apply IH; lia].
    change (set_pending (f ++ sp) v part_field _) with
      (Http1 l m d e (f ++ sp) v (bytes + Z.of_nat (length sp)) n [] part_field).
    rewrite IH. rewrite <-app_assoc. by destruct (bool_decide (spans = [])).
  - rewrite reserve_overflows by (cbn; lia). rewrite bool_decide_eq_false_2 by lia. intros _. eexists. by split_and!; [| |left].
Qed.

Lemma run_values l d e m f v bytes n part spans :
  (0 ≤ bytes)%Z →
  let s := Http1 l m d e f v bytes n [] part in
  if bool_decide (bytes + spans_size spans ≤ max_header_bytes l)%Z then
    run_callbacks s (map cb_header_value spans) =
      (Http1 l m d e f (v ++ concat spans) (bytes + spans_size spans) n []
         (if bool_decide (spans = []) then part else part_value), true)
  else (bytes ≤ max_header_bytes l)%Z → stopped d (run_callbacks s (map cb_header_value spans)).
Proof.
  revert v bytes part. induction spans as [|sp spans IH]; intros v bytes part Hb; cbn zeta.
  { unfold spans_size. cbn. rewrite Z.add_0_r, app_nil_r. by case_bool_decide. }
  rewrite spans_size_cons. pose proof (spans_size_nonneg spans).
  cbn [map run_callbacks on_callback]. unfold on_header_value.
  destruct (decide (bytes + Z.of_nat (length sp) ≤ max_header_bytes l)%Z) as [Hfit|Hfit].
  - rewrite reserve_fits by (cbn; lia). cbn.
    specialize (IH (v ++ sp) (bytes + Z.of_nat (length sp))%Z part_value ltac:(lia)). cbn zeta in IH.
    rewrite <-Z.add_assoc in IH. case_bool_decide; [|intros _; apply IH; lia].
    change (set_pending f (v ++ sp) part_value _) with
      (Http1 l m d e f (v ++ sp) (bytes + Z.of_nat (length sp)) n [] part_value).
    rewrite IH. rewrite <-app_assoc. by destruct (bool_decide (spans = [])).
  - rewrite reserve_overflows by (cbn; lia). rewrite bool_decide_eq_false_2 by lia. intros _. eexists. by split_and!; [| |left].
Qed.

Definition header_size (h : header_spans) : Z := (spans_size (field_spans h) + spans_size (value_spans h))%Z.
Definition list_size (hs : list header_spans) : Z := foldr (λ h acc, header_size h + acc)%Z 0%Z hs.

Definition add_headers (m : http1_message) (hs : headers) : http1_message :=
  Message (msg_method m) (msg_target m) (msg_headers m ++ hs) (msg_body m) (msg_http_major m)
    (msg_http_minor m) (msg_keep_alive m) (msg_upgrade m).

Definition count_of (m : http1_message) : Z := Z.of_nat (length (msg_headers m)).

Lemma list_size_nonneg hs : (0 ≤ list_size hs)%Z.
Proof.
  induction hs as [|h hs IH]; cbn; [done|]. fold (list_size hs). unfold header_size.
  pose proof (spans_size_nonneg (field_spans h)). pose proof (spans_size_nonneg (value_spans h)). lia.
Qed.

Lemma add_headers_app m hs hs' : add_headers (add_headers m hs) hs' = add_headers m (hs ++ hs').
Proof. unfold add_headers. cbn. by rewrite app_assoc. Qed.

Lemma commit_to_add m f v : commit_to m (Some (f, v)) = add_headers m [(f, v)].
Proof. done. Qed.

Lemma count_add m hs : count_of (add_headers m hs) = (count_of m + Z.of_nat (length hs))%Z.
Proof. unfold count_of, add_headers. cbn. rewrite length_app. lia. Qed.

(** The first span of a name commits the header before it. *)
Lemma field_after_pending l d e m pending bytes span :
  pending_ok pending → (count_of (commit_to m pending) ≤ max_header_count l)%Z ∨ pending = None →
  on_header_field (between l d e m pending bytes) span =
  on_header_field (between l d e (commit_to m pending) None bytes) span.
Proof.
  intros Hok Hcount. destruct pending as [[f v]|]; [|done].
  unfold on_header_field at 1. cbn [between last_header_part_].
  change (Http1 l m d e f v bytes (Z.of_nat (length (msg_headers m))) [] part_value) with
    (between l d e m (Some (f, v)) bytes).
  by rewrite commit_between by done.
Qed.

(** The states on the way: the pending header is a real one, and everything
    but it is within the count limit. *)
Definition between_ok (l : http1_limits) (m : http1_message) (pending : option (str * str)) (bytes : Z) : Prop :=
  pending_ok pending ∧ (count_of m ≤ max_header_count l)%Z ∧ (0 ≤ bytes ≤ max_header_bytes l)%Z.

Lemma run_header l d e m pending bytes h :
  header_spans_ok h → between_ok l m pending bytes →
  if bool_decide ((bytes + header_size h ≤ max_header_bytes l)%Z ∧
                  (count_of (commit_to m pending) ≤ max_header_count l)%Z) then
    run_callbacks (between l d e m pending bytes) (header_calls h) =
      (between l d e (commit_to m pending) (Some (header_of h)) (bytes + header_size h), true)
  else stopped d (run_callbacks (between l d e m pending bytes) (header_calls h)).
Proof.
  intros [Hf Hv] (Hok & Hcm & Hb).
  destruct h as [[|sp fields] values]; [done|]. unfold header_calls, header_size, header_of in *.
  cbn [field_spans value_spans] in *.
  assert (Hcount : (count_of (commit_to m pending) ≤ max_header_count l)%Z ∨
    (max_header_count l < count_of (commit_to m pending))%Z ∧ pending ≠ None).
  { destruct pending; [|by left]. destruct (Z.le_gt_cases (count_of (commit_to m (Some p))) (max_header_count l)); auto. }
  destruct Hcount as [Hcount|[Hcount Hp]].
  - assert (run_callbacks (between l d e m pending bytes) (map cb_header_field (sp :: fields) ++ map cb_header_value values) =
      run_callbacks (between l d e (commit_to m pending) None bytes)
        (map cb_header_field (sp :: fields) ++ map cb_header_value values)) as ->.
    { cbn [map app run_callbacks on_callback]. by rewrite field_after_pending by auto. }
    rewrite run_callbacks_app. cbn [between].
    pose proof (run_fields l d e (commit_to m pending) [] [] bytes
      (Z.of_nat (length (msg_headers (commit_to m pending)))) part_none (sp :: fields) ltac:(done) ltac:(lia)) as Hrf.
    cbn zeta in Hrf. pose proof (spans_size_nonneg values). pose proof (spans_size_nonneg (sp :: fields)).
    case_bool_decide as Hfit1.
    + rewrite Hrf. cbn [app]. rewrite (bool_decide_eq_false_2 (sp :: fields = [])) by done.
      pose proof (run_values l d e (commit_to m pending) (concat (sp :: fields)) []
        (bytes + spans_size (sp :: fields)) (Z.of_nat (length (msg_headers (commit_to m pending)))) part_field values
        ltac:(lia)) as Hrv.
      cbn zeta in Hrv. rewrite <-Z.add_assoc in Hrv. case_bool_decide as Hfit2.
      * rewrite bool_decide_eq_true_2 by done. rewrite Hrv. cbn [app].
        by rewrite (bool_decide_eq_false_2 (values = [])) by done.
      * rewrite bool_decide_eq_false_2 by tauto. apply Hrv. lia.
    + rewrite bool_decide_eq_false_2 by lia. destruct (Hrf ltac:(lia)) as (s & -> & Hs). by exists s.
  - rewrite bool_decide_eq_false_2 by lia. rewrite run_callbacks_app. cbn [map run_callbacks on_callback].
    destruct (commit_between_full l d e m pending bytes Hok Hcount Hp) as (s & Hs & Hd & Hl).
    destruct pending as [[f v]|]; [|done].
    unfold on_header_field. cbn [between last_header_part_].
    change (Http1 l m d e f v bytes (Z.of_nat (length (msg_headers m))) [] part_value) with
      (between l d e m (Some (f, v)) bytes).
    rewrite Hs. cbn [negb]. exists s. auto.
Qed.

Lemma run_headers l d e m pending bytes hs :
  Forall header_spans_ok hs → between_ok l m pending bytes →
  let m_all := add_headers (commit_to m pending) (map header_of hs) in
  if bool_decide ((bytes + list_size hs ≤ max_header_bytes l)%Z ∧
                  (hs = [] ∨ count_of m_all ≤ max_header_count l + 1)%Z) then
    ∃ m' pending', run_callbacks (between l d e m pending bytes) (concat (map header_calls hs)) =
      (between l d e m' pending' (bytes + list_size hs), true) ∧
      between_ok l m' pending' (bytes + list_size hs) ∧ commit_to m' pending' = m_all ∧
      (pending' = None → pending = None ∧ hs = [])
  else stopped d (run_callbacks (between l d e m pending bytes) (concat (map header_calls hs))).
Proof.
  intros Hhs. revert m pending bytes. induction Hhs as [|h hs Hh Hhs IH]; intros m pending bytes Hok m_all.
  { cbn in *. rewrite Z.add_0_r. pose proof Hok as (_ & _ & ?). rewrite bool_decide_eq_true_2 by (split; [lia|by left]).
    exists m, pending. split_and!; [done|done|by unfold m_all, add_headers; cbn; rewrite app_nil_r; destruct (commit_to m pending)|done]. }
  cbn [map concat list_size foldr] in *. fold (list_size hs). rewrite run_callbacks_app.
  pose proof (run_header l d e m pending bytes h Hh Hok) as Hrun.
  pose proof (list_size_nonneg hs). destruct Hok as (Hp & Hm & Hb).
  assert (Hall : count_of m_all = (count_of (commit_to m pending) + 1 + Z.of_nat (length hs))%Z).
  { unfold m_all. rewrite count_add. cbn. rewrite length_map. lia. }
  assert (Hhsize : (0 ≤ header_size h)%Z).
  { unfold header_size. pose proof (spans_size_nonneg (field_spans h)). pose proof (spans_size_nonneg (value_spans h)). lia. }
  case_bool_decide as Hfit.
  - rewrite Hrun. specialize (IH (commit_to m pending) (Some (header_of h)) (bytes + header_size h)%Z).
    destruct Hfit as [Hfit1 Hfit2]. cbn zeta in IH. rewrite <-Z.add_assoc in IH.
    assert (Hall' : add_headers (commit_to (commit_to m pending) (Some (header_of h))) (map header_of hs) = m_all).
    { unfold m_all. cbn [map]. destruct (header_of h) as [f v]. by rewrite commit_to_add, add_headers_app. }
    rewrite Hall' in IH.
    assert (Hmid : between_ok l (commit_to m pending) (Some (header_of h)) (bytes + header_size h)).
    { split_and!; [apply Hh|done|lia|lia]. }
    specialize (IH Hmid). case_bool_decide as Hrest.
    + rewrite bool_decide_eq_true_2.
      2:{ split; [tauto|]. right. destruct Hrest as [_ [->|]]; [cbn in Hall; lia|done]. }
      destruct IH as (m' & p' & -> & H1 & H2 & H3). exists m', p'. split_and!; [done|done|done|].
      intros ?. by destruct H3.
    + rewrite bool_decide_eq_false_2; [done|]. intros [Hx [?|Hy]]; [done|]. apply Hrest. auto.
  - rewrite bool_decide_eq_false_2.
    + destruct Hrun as (s & -> & Hs). by exists s.
    + intros [Hx [?|Hy]]; [done|]. apply Hfit. lia.
Qed.

(** A block of headers and the commit that ends it. *)
Lemma run_section l d e m bytes hs :
  Forall header_spans_ok hs → between_ok l m None bytes →
  let res := run_callbacks (between l d e m None bytes) (concat (map header_calls hs)) in
  let m_all := add_headers m (map header_of hs) in
  if bool_decide ((bytes + list_size hs ≤ max_header_bytes l)%Z ∧ (count_of m_all ≤ max_header_count l)%Z) then
    ∃ s, res = (s, true) ∧ commit_pending_header s = (between l d e m_all None (bytes + list_size hs), true)
  else stopped d res ∨ ∃ s, res = (s, true) ∧ stopped d (commit_pending_header s).
Proof.
  intros Hhs Hok. cbn zeta. pose proof (run_headers l d e m None bytes hs Hhs Hok) as Hrun. cbn zeta in Hrun.
  cbn [commit_to] in Hrun. pose proof Hok as (_ & Hm & Hb).
  case_bool_decide as Hfit.
  - destruct Hrun as (m' & p' & Hrun & (Hp & Hm' & Hb') & Hcommit & Hnone).
    destruct (decide (count_of (add_headers m (map header_of hs)) ≤ max_header_count l)%Z) as [Hc|Hc].
    + rewrite bool_decide_eq_true_2 by tauto. eexists. split; [done|].
      rewrite commit_between; [by rewrite Hcommit|done|]. left. by rewrite Hcommit.
    + rewrite bool_decide_eq_false_2 by tauto. right. eexists. split; [done|].
      destruct (commit_between_full l d e m' p' (bytes + list_size hs) Hp) as (s & Hs & Hd & Hl).
      * rewrite Hcommit. unfold count_of in Hc. lia.
      * intros ->. destruct (Hnone eq_refl) as [_ ->]. apply Hc. rewrite count_add. cbn. lia.
      * exists s. auto.
  - rewrite bool_decide_eq_false_2; [by left|]. intros [H1 H2]. apply Hfit. split; [done|]. right. lia.
Qed.

Lemma headers_size_spans hs : headers_size (map header_of hs) = list_size hs.
Proof.
  induction hs as [|h hs IH]; [done|]. cbn [map list_size foldr headers_size]. fold (list_size hs).
  unfold headers_size in *. cbn. rewrite IH. unfold header_size, spans_size. lia.
Qed.

Lemma list_size_app hs hs' : list_size (hs ++ hs') = (list_size hs + list_size hs')%Z.
Proof. induction hs as [|h hs IH]; cbn; [done|]. unfold list_size in *. cbn. lia. Qed.

Definition within (l : http1_limits) (r : request_spans) : Prop :=
  (Z.of_nat (length (header_list r ++ trailer_list r)) ≤ max_header_count l ∧
   list_size (header_list r ++ trailer_list r) ≤ max_header_bytes l)%Z.

Lemma within_message l r : message_within l (full_message r) ↔ within l r.
Proof. unfold message_within, within, full_message. cbn. by rewrite length_map, headers_size_spans. Qed.

#[global] Instance within_dec l r : Decision (within l r).
Proof. unfold within. apply _. Defined.

Lemma run_callbacks_cons s cb cbs s' ret :
  on_callback s cb = (s', ret) → ret ≠ hpe_user → run_callbacks s (cb :: cbs) = run_callbacks s' cbs.
Proof. intros H Hret. cbn [run_callbacks]. rewrite H. by destruct ret. Qed.

Definition complete_head (m : http1_message) (meth : llhttp_method) (major minor : Z) : http1_message :=
  Message (map_method meth) (msg_target m) (msg_headers m) (msg_body m) major minor (msg_keep_alive m) (msg_upgrade m).

Lemma headers_complete_between s l d e m bytes meth major minor :
  commit_pending_header s = (between l d e m None bytes, true) →
  ∃ ret, ret ≠ hpe_user ∧ on_headers_complete s meth major minor =
    (between l d (e ++ [ev_headers (complete_head m meth major minor)]) (complete_head m meth major minor) None bytes, ret).
Proof.
  intros Hc. unfold on_headers_complete. rewrite Hc. cbv zeta.
  destruct (_ || _); [exists pause_upgrade|exists hpe_ok]; done.
Qed.

(** The result of the callbacks of one request, from any state. *)
Lemma run_request l s r :
  (0 ≤ max_header_bytes l)%Z → (0 ≤ max_header_count l)%Z → limits_ s = l → request_spans_ok r →
  if decide (within l r) then
    ∃ bytes n, run_callbacks s (request_calls r) =
      (Http1 l empty_message (completed_messages_ s ++ [full_message r])
         (events_ s ++ ev_headers (head_message r) :: map ev_body (body_spans r) ++ [ev_complete (full_message r)])
         [] [] bytes n [] part_none, true)
  else stopped (completed_messages_ s) (run_callbacks s (request_calls r)).
Proof.
  intros Hlb Hlc Hl [Hhs Htr]. unfold request_calls.
  set (d := completed_messages_ s). set (e := events_ s).
  assert (Hb0 : on_message_begin s = between l d e empty_message None 0).
  { unfold on_message_begin, between. by rewrite Hl. }
  cbn [run_callbacks on_callback]. rewrite Hb0, run_callbacks_app, run_urls, run_callbacks_app.
  set (m1 := Message _ _ _ _ _ _ _ _).
  assert (Hok1 : between_ok l m1 None 0) by (split_and!; cbn; done || lia).
  pose proof (run_section l d e m1 0 (header_list r) Hhs Hok1) as Hsec1. cbn zeta in Hsec1.
  pose proof (list_size_nonneg (header_list r)). pose proof (list_size_nonneg (trailer_list r)).
  assert (Hwithin : within l r ↔
    ((0 + list_size (header_list r) + list_size (trailer_list r) ≤ max_header_bytes l)%Z ∧
     (Z.of_nat (length (header_list r)) + Z.of_nat (length (trailer_list r)) ≤ max_header_count l)%Z)).
  { unfold within. rewrite list_size_app, length_app. split; intros [? ?]; split; lia. }
  set (m2 := add_headers m1 (map header_of (header_list r))) in *.
  assert (Hm2 : count_of m2 = Z.of_nat (length (header_list r))) by by unfold m2; rewrite count_add, length_map.
  case_bool_decide as Hfit1.
  2:{ rewrite decide_False by (rewrite Hwithin; lia).
      destruct Hsec1 as [(s1 & -> & Hs1)|(s1 & -> & s2 & Hs2 & Hd2)]; [by exists s1|].
      cbn [run_callbacks on_callback]. unfold on_headers_complete. rewrite Hs2. by exists s2. }
  destruct Hsec1 as (s1 & -> & Hcommit).
  destruct (headers_complete_between _ _ _ _ _ _ (rq_method r) (rq_major r) (rq_minor r) Hcommit) as (ret & Hret & Hhc).
  rewrite (run_callbacks_cons _ (cb_headers_complete _ _ _) _ _ _ Hhc Hret), run_callbacks_app, run_bodies, run_callbacks_app.
  set (b2 := (0 + list_size (header_list r))%Z) in *.
  set (m3 := Message _ _ _ _ _ _ _ _).
  assert (Hok3 : between_ok l m3 None b2) by (split_and!; [done| |lia|lia]; change (count_of m3) with (count_of m2); lia).
  set (e3 := _ ++ map ev_body (body_spans r)).
  pose proof (run_section l d e3 m3 b2 (trailer_list r) Htr Hok3) as Hsec2. cbn zeta in Hsec2.
  assert (Hm4 : count_of (add_headers m3 (map header_of (trailer_list r))) =
    (Z.of_nat (length (header_list r)) + Z.of_nat (length (trailer_list r)))%Z).
  { rewrite count_add, length_map. change (count_of m3) with (count_of m2). lia. }
  case_bool_decide as Hfit2.
  - rewrite decide_True by (rewrite Hwithin; lia). destruct Hsec2 as (s4 & -> & Hc4).
    cbn [run_callbacks on_callback]. unfold on_message_complete. rewrite Hc4.
    eexists _, _. unfold between, with_current, push_event. cbn. do 2 f_equal.
    + unfold full_message. by rewrite map_app.
    + unfold e3. rewrite <-!app_assoc. cbn. unfold full_message, head_message. by rewrite map_app.
  - rewrite decide_False by (rewrite Hwithin; lia).
    destruct Hsec2 as [(s4 & -> & Hs4)|(s4 & -> & s5 & Hs5 & Hd5)]; [by exists s4|].
    cbn [run_callbacks on_callback]. unfold on_message_complete. rewrite Hs5. by exists s5.
Qed.

(** C7: However llhttp cuts a request that is within the limits into spans,
    parsing it hands out the same message: its target, headers, trailers and
    body are the concatenations of their spans, its headers event comes first,
    then one body event per span and the complete event, and everything handed
    out before stays. *)
Theorem request_accepted l s r bytes
    (Hb : (0 ≤ max_header_bytes l)%Z) (Hc : (0 ≤ max_header_count l)%Z) (Hs : limits_ s = l)
    (Hr : request_spans_ok r) (Hw : message_within l (full_message r)) :
  ∃ s', parse s bytes (Run (request_calls r) hpe_done) = (s', ParseResult status_ok [] (Z.of_nat (length bytes))) ∧
    completed_messages_ s' = completed_messages_ s ++ [full_message r] ∧
    events_ s' = events_ s ++ ev_headers (head_message r) :: map ev_body (body_spans r) ++ [ev_complete (full_message r)].
Proof.
  pose proof (run_request l s r Hb Hc Hs Hr) as Hrun. apply within_message in Hw. rewrite decide_True in Hrun by done.
  destruct Hrun as (b & n & Hrun). unfold parse. cbn [run_calls run_result]. rewrite Hrun. cbn [negb]. by eexists.
Qed.

(** C34: A request with more header bytes or more headers than allowed, trailers
    included, is refused with one of the two limit messages wherever the
    excess shows up, and no message of it is handed out. *)
Theorem request_rejected l s r bytes result
    (Hb : (0 ≤ max_header_bytes l)%Z) (Hc : (0 ≤ max_header_count l)%Z) (Hs : limits_ s = l)
    (Hr : request_spans_ok r) (Hw : ¬ message_within l (full_message r)) :
  ∃ s' e, parse s bytes (Run (request_calls r) result) = (s', ParseResult status_error e 0) ∧
    (e = too_large ∨ e = too_many) ∧ completed_messages_ s' = completed_messages_ s.
Proof.
  pose proof (run_request l s r Hb Hc Hs Hr) as Hrun. rewrite within_message in Hw. rewrite decide_False in Hrun by done.
  destruct Hrun as (s' & Hrun & Hd & Hl). unfold parse. cbn [run_calls run_result]. rewrite Hrun. cbn [negb].
  exists s', (limit_error_ s'). unfold parse_error. rewrite bool_decide_eq_false_2 by (by destruct Hl as [-> | ->]). auto.
Qed.

(** ** A sample request *)

Definition sample_limits : http1_limits := Limits 64 2.
Definition sample_header : header_spans := HeaderSpans [lit "Ho"; lit "st"] [lit "a"; []; lit ".b"].
Definition sample_request (hs : list header_spans) : request_spans :=
  RequestSpans [lit "/in"; lit "dex"] hs HTTP_POST 1 1 [lit "he"; lit "llo"] [] true.

Lemma request_accepted_witness :
  ∃ s', (parse (init sample_limits) (lit "...") (Run (request_calls (sample_request [sample_header])) hpe_done)) =
    (s', ParseResult status_ok [] 3) ∧
    completed_messages_ s' = [Message m_post (lit "/index") [(lit "Host", lit "a.b")] (lit "hello") 1 1 true false] ∧
    events_ s' = [ev_headers (Message m_post (lit "/index") [(lit "Host", lit "a.b")] [] 1 1 false false);
      ev_body (lit "he"); ev_body (lit "llo");
      ev_complete (Message m_post (lit "/index") [(lit "Host", lit "a.b")] (lit "hello") 1 1 true false)].
Proof.
  apply (request_accepted sample_limits (init sample_limits) (sample_request [sample_header]) (lit "..."));
    [done|done|done| |split; vm_compute; discriminate].
  split; repeat constructor; discriminate.
Defined.

Lemma request_rejected_witness :
  ∃ s' e, parse (init sample_limits) (lit "...")
      (Run (request_calls (sample_request [sample_header; sample_header; sample_header])) hpe_done) =
    (s', ParseResult status_error e 0) ∧ (e = too_large ∨ e = too_many) ∧ completed_messages_ s' = [].
Proof.
  apply (request_rejected sample_limits (init sample_limits)
    (sample_request [sample_header; sample_header; sample_header]) (lit "...") hpe_done); [done|done|done| |].
  - split; repeat constructor; discriminate.
  - intros [H _]. vm_compute in H. by apply H.
Defined.

Lemma http1_limits_hold_witness :
  Forall (message_within sample_limits) (completed_messages_ (parse (init sample_limits) (lit "...")
    (Run (request_calls (sample_request [sample_header])) hpe_done)).1).
Proof.
  apply (http1_limits_hold sample_limits); [done|done|].
  eapply hr_parse; [constructor|apply surjective_pairing].
Defined.
