(* ===== verification/Request.v ===== *)
(** * Requests: the query string and the streamed body

    [src/http/request.cpp]: [decode_query_component], [query_params], the
    accessors of [request], and [request_body_stream], whose callbacks are user
    code that may call back into the stream. *)

From S2P Require Import Prelude Text UrlEncoding Http.

(** ** Query components *)

(** A ['%'] that two hexadecimal digits do not follow stays as it is. *)
Fixpoint decode_query_component (component : str) : str :=
  match component with
  | [] => []
  | value :: rest =>
    if is_char "+" value then " "%char :: decode_query_component rest
    else if is_char "%" value then
      match rest with
      | c1 :: c2 :: rest' =>
        let high := hex_value c1 in
        let low := hex_value c2 in
        if ((0 <=? high) && (0 <=? low))%Z then hex_byte high low :: decode_query_component rest'
        else value :: decode_query_component rest
      | _ => value :: decode_query_component rest
      end
    else value :: decode_query_component rest
  end.

(** ** Query parameters *)

Record query_entry := QueryEntry { qe_name : str; qe_values : list str }.
Definition query_params := list query_entry.

(** The loop that looks for an entry of the name; [None]: not appended. *)
Fixpoint append_value (entries : query_params) (name value : str) : option query_params :=
  match entries with
  | [] => None
  | entry :: entries' =>
    if bool_decide (qe_name entry = name) then Some (QueryEntry name (qe_values entry ++ [value]) :: entries')
    else cons entry <$> append_value entries' name value
  end.

Definition add_query_pair (entries : query_params) (name value : str) : query_params :=
  match append_value entries name value with
  | Some entries' => entries'
  | None => entries ++ [QueryEntry name [value]]
  end.

Definition split_query_pair (segment : str) : str * str :=
  match find_char "=" segment with
  | None => (segment, [])
  | Some separator => (substr segment 0 separator, drop (S separator) segment)
  end.

Definition add_query_segment (entries : query_params) (segment : str) : query_params :=
  match segment with
  | [] => entries
  | _ =>
    let '(raw_name, raw_value) := split_query_pair segment in
    add_query_pair entries (decode_query_component raw_name) (decode_query_component raw_value)
  end.

Definition parse_query_params (raw_query : str) : query_params :=
  foldl add_query_segment [] (segments "&" raw_query).

Fixpoint query_all (entries : query_params) (name : str) : list str :=
  match entries with
  | [] => []
  | entry :: entries' => if bool_decide (qe_name entry = name) then qe_values entry else query_all entries' name
  end.

(** [entry.values.front()] is defined only when there is a value;
    [query_params_spec] shows that there always is. *)
Fixpoint query_first (entries : query_params) (name : str) : option str :=
  match entries with
  | [] => None
  | entry :: entries' =>
    if bool_decide (qe_name entry = name) then Some (default [] (head (qe_values entry)))
    else query_first entries' name
  end.

Definition query_contains (entries : query_params) (name : str) : bool := bool_decide (is_Some (query_first entries name)).

Definition query_get (entries : query_params) (name fallback : str) : str := default fallback (query_first entries name).

(** ** Requests *)

Record request := Request {
  rq_method : method;
  rq_target : str;
  rq_path : str;
  rq_query : str;
  rq_query_params : query_params;
  rq_headers : headers;
  rq_body : str;
  rq_params : route_params;
  rq_decoded_path_segments : list str
}.

Definition make_request (m : method) (target path query : str) (hs : headers) (body : str) (params : route_params)
    (decoded_path_segments : list str) : request :=
  Request m target path query (parse_query_params query) hs body params decoded_path_segments.

Definition request_header (r : request) (name : str) : str := headers_get (rq_headers r) name.

(** ** Lemmas: query strings *)

(** The pairs that a raw query denotes, in order. *)
Definition decode_pair (segment : str) : str * str :=
  let '(n, v) := split_query_pair segment in (decode_query_component n, decode_query_component v).

Definition query_pairs (raw_query : str) : list (str * str) :=
  map decode_pair (filter (.≠ []) (split_on "&" raw_query)).

Definition values_of (pairs : list (str * str)) (name : str) : list str :=
  map snd (filter (λ p, p.1 = name) pairs).

(** The entries represent a list of pairs. *)
Record represents (entries : query_params) (pairs : list (str * str)) : Prop := {
  rp_nodup : NoDup (map qe_name entries);
  rp_values : Forall (λ e, qe_values e = values_of pairs (qe_name e) ∧ qe_values e ≠ []) entries;
  rp_names : ∀ p, p ∈ pairs → p.1 ∈ map qe_name entries
}.

Lemma values_of_snoc pairs n v name :
  values_of (pairs ++ [(n, v)]) name = values_of pairs name ++ (if decide (n = name) then [v] else []).
Proof.
  unfold values_of. rewrite filter_app, map_app. f_equal. rewrite filter_cons. cbn. by case_decide.
Qed.

Lemma values_of_absent pairs name : (∀ p, p ∈ pairs → p.1 ≠ name) → values_of pairs name = [].
Proof.
  intros H. unfold values_of. induction pairs as [|p pairs IH]; [done|]. rewrite filter_cons.
  rewrite decide_False by (apply H; left). apply IH. intros p' Hp'. apply H. by right.
Qed.

Lemma append_value_None entries n v : append_value entries n v = None ↔ n ∉ map qe_name entries.
Proof.
  induction entries as [|e entries IH]; cbn; [split; [set_solver|done]|].
  rewrite elem_of_cons. case_bool_decide as Hn.
  - split; [done|]. intros H. destruct H. by left.
  - destruct (append_value entries n v); cbn.
    + split; [done|]. intros H. assert (Some q = None) by (apply IH; tauto). done.
    + split; [|done]. intros _. assert (n ∉ map qe_name entries) by by apply IH. by intros [->|?].
Qed.

Lemma append_value_Some entries n v entries' :
  append_value entries n v = Some entries' →
  ∃ pre e post, entries = pre ++ e :: post ∧ qe_name e = n ∧
    entries' = pre ++ QueryEntry n (qe_values e ++ [v]) :: post.
Proof.
  revert entries'. induction entries as [|e entries IH]; intros entries'; cbn; [done|].
  case_bool_decide as Hn.
  - intros [= <-]. by exists [], e, entries.
  - destruct (append_value entries n v) as [es|]; cbn; [|done]. intros [= <-].
    destruct (IH es eq_refl) as (pre & e' & post & -> & He & ->). by exists (e :: pre), e', post.
Qed.

Lemma add_query_pair_represents entries pairs n v :
  represents entries pairs → represents (add_query_pair entries n v) (pairs ++ [(n, v)]).
Proof.
  intros [Hnd Hv Hn]. unfold add_query_pair. destruct (append_value entries n v) as [entries'|] eqn:E.
  - apply append_value_Some in E as (pre & e & post & -> & He & ->).
    rewrite map_app in *. cbn [map] in *. rewrite He in *.
    constructor; rewrite ?map_app; cbn [map qe_name]; [done| |].
    + apply Forall_app in Hv as [Hpre [[Hve Hne] Hpost]%Forall_cons].
      apply NoDup_app in Hnd as (_ & Hdis & [Hnin _]%NoDup_cons).
      assert (Hother : ∀ es, n ∉ map qe_name es →
        Forall (λ e, qe_values e = values_of pairs (qe_name e) ∧ qe_values e ≠ []) es →
        Forall (λ e, qe_values e = values_of (pairs ++ [(n, v)]) (qe_name e) ∧ qe_values e ≠ []) es).
      { intros es Hes. rewrite !Forall_forall. intros Hes' e' Hin. rewrite values_of_snoc, decide_False.
        - rewrite app_nil_r. by apply Hes'.
        - intros ->. apply Hes. by apply (list_elem_of_fmap_2 qe_name). }
      apply Forall_app. split; [|constructor].
      * apply Hother; [|done]. intros Hin. apply (Hdis _ Hin). by left.
      * cbn. rewrite values_of_snoc, decide_True by done. rewrite <-He, <-Hve. split; [done|].
        by destruct (qe_values e).
      * by apply Hother.
    + intros p [Hp|Hp]%elem_of_app; [by apply Hn|]. apply list_elem_of_singleton in Hp as ->. cbn. set_solver.
  - apply append_value_None in E. constructor; rewrite ?map_app; cbn [map qe_name].
    + apply NoDup_app. split_and!; [done| |apply NoDup_singleton]. intros x Hx ->%list_elem_of_singleton. done.
    + apply Forall_app. split.
      * eapply Forall_impl; [exact Hv|]. intros e [He Hne]. rewrite values_of_snoc.
        split; [|done]. rewrite He. case_decide; [|by rewrite app_nil_r]. subst.
        assert (values_of pairs (qe_name e) ≠ []) as Hne' by congruence. exfalso.
        apply Hne', values_of_absent. intros p Hp Heq. apply E. rewrite <-Heq. by apply Hn.
      * constructor; [|constructor]. cbn. rewrite values_of_snoc, decide_True by done.
        rewrite values_of_absent; [done|]. intros p Hp Heq. apply E. rewrite <-Heq. by apply Hn.
    + intros p [Hp|Hp]%elem_of_app; [by apply elem_of_app; left; apply Hn|].
      apply list_elem_of_singleton in Hp as ->. cbn. set_solver.
Qed.

Lemma parse_query_params_represents raw : represents (parse_query_params raw) (query_pairs raw).
Proof.
  unfold parse_query_params, query_pairs. rewrite segments_split_on.
  assert (H : ∀ segs entries pairs, represents entries pairs →
    represents (foldl add_query_segment entries segs) (pairs ++ map decode_pair (filter (.≠ []) segs))).
  { induction segs as [|seg segs IH]; intros entries pairs Hr; [by rewrite app_nil_r|]. cbn [foldl].
    rewrite filter_cons. destruct seg as [|c seg]; [by rewrite decide_False by tauto; apply IH|].
    rewrite decide_True by done. cbn [map].
    change (decode_pair (c :: seg) :: ?l) with ([decode_pair (c :: seg)] ++ l). rewrite app_assoc. apply IH.
    unfold add_query_segment, decode_pair. destruct (split_query_pair (c :: seg)) as [n v].
    by apply add_query_pair_represents. }
  apply (H _ [] []). constructor; [constructor..|]. by intros p ?%elem_of_nil.
Qed.

Lemma represents_lookup entries pairs name :
  represents entries pairs →
  query_all entries name = values_of pairs name ∧ query_first entries name = head (values_of pairs name).
Proof.
  intros [Hnd Hv Hn].
  assert (Hout : name ∉ map qe_name entries → query_all entries name = [] ∧ query_first entries name = None).
  { clear. induction entries as [|e entries IH]; [done|]. cbn. rewrite not_elem_of_cons. intros [Hne Hnin].
    rewrite bool_decide_eq_false_2 by congruence. by apply IH. }
  destruct (decide (name ∈ map qe_name entries)) as [Hin|Hnin].
  - clear Hn Hout. induction Hv as [|e entries [He Hne] Hv IH]; [by apply elem_of_nil in Hin|].
    cbn in *. apply NoDup_cons in Hnd as [Hnin Hnd]. case_bool_decide as Heq.
    + subst. rewrite <-He. split; [done|]. by destruct (qe_values e).
    + apply IH; [done|]. apply elem_of_cons in Hin as [->|]; done.
  - destruct (Hout Hnin) as [-> ->]. rewrite values_of_absent; [done|]. intros p Hp <-. by apply Hnin, Hn.
Qed.

(** [query_params] groups the decoded pairs of the raw query by name: each
    name has one entry, [all] returns its values in their order in the query,
    [first], [get] and [contains] agree with the first of them, and no entry is
    ever without a value, so [values.front()] is always defined. *)
Theorem query_params_spec (raw name : str) :
  let q := parse_query_params raw in
  let values := map snd (filter (λ p, p.1 = name) (query_pairs raw)) in
  NoDup (map qe_name q) ∧ Forall (λ e, qe_values e ≠ []) q ∧
  query_all q name = values ∧ query_first q name = head values ∧
  (∀ fallback, query_get q name fallback = default fallback (head values)) ∧
  (query_contains q name = true ↔ ∃ value, (name, value) ∈ query_pairs raw).
Proof.
  cbv zeta. fold (values_of (query_pairs raw) name). pose proof (parse_query_params_represents raw) as Hr.
  destruct (represents_lookup _ _ name Hr) as [Hall Hfirst]. destruct Hr as [Hnd Hv Hn].
  split_and!; [done| |done|done| |].
  - eapply Forall_impl; [exact Hv|]. by intros e [].
  - intros fallback. unfold query_get. by rewrite Hfirst.
  - unfold query_contains. rewrite bool_decide_eq_true, Hfirst. unfold values_of. split.
    + intros [v Hv']. destruct (filter _ _) as [|[n v'] l] eqn:E; [done|].
      assert ((n, v') ∈ filter (λ p : str * str, p.1 = name) (query_pairs raw)) as Hin by (rewrite E; left).
      apply list_elem_of_filter in Hin as [<- Hin]. eauto.
    + intros [v Hin].
      assert ((name, v) ∈ filter (λ p : str * str, p.1 = name) (query_pairs raw)) as Hin' by by apply list_elem_of_filter.
      destruct (filter _ _) as [|p l]; [by apply elem_of_nil in Hin'|]. by eexists.
Qed.

(** ** Round trip of query strings

    A reference encoder of form components: a space is written ['+'], a byte
    that [keep] accepts stays, every other byte is percent-encoded. *)

Definition form_encode (keep : ascii → bool) (s : str) : str :=
  concat (map (λ c, if is_char " " c then ["+"%char] else if keep c then [c] else percent_byte c) s).

Definition form_keeps (keep : ascii → bool) : Prop := ∀ c, keep c = true → c ∉ lit "%+&=".

Definition encode_query (keep : ascii → bool) (pairs : list (str * str)) : str :=
  join_with "&" (map (λ p, form_encode keep p.1 ++ "="%char :: form_encode keep p.2) pairs).

Lemma decode_query_percent c s :
  decode_query_component (percent_byte c ++ s) = c :: decode_query_component s.
Proof.
  destruct (percent_byte_decode c) as (h & l & -> & Hh & Hl & Hc). cbn.
  change (is_char "+" "%") with false. change (is_char "%" "%") with true. cbv iota.
  rewrite (proj2 (Z.leb_le 0 (hex_value h))) by done. rewrite (proj2 (Z.leb_le 0 (hex_value l))) by done.
  cbn [andb]. by rewrite Hc.
Qed.

Lemma decode_form_encode keep s : form_keeps keep → decode_query_component (form_encode keep s) = s.
Proof.
  intros Hk. unfold form_encode. induction s as [|c s IH]; [done|]. cbn [map concat].
  destruct (is_char " " c) eqn:Hsp.
  - apply is_char_true in Hsp as <-. cbn [app decode_query_component]. rewrite is_char_refl. by rewrite IH.
  - destruct (keep c) eqn:Hc; [|by rewrite decode_query_percent, IH]. apply Hk in Hc.
    cbn [app decode_query_component].
    rewrite (proj2 (is_char_false "+" c)) by (intros <-; apply Hc; cbn; set_solver).
    rewrite (proj2 (is_char_false "%" c)) by (intros <-; apply Hc; cbn; set_solver). by rewrite IH.
Qed.

Lemma form_encode_avoids keep d s :
  form_keeps keep → d ∈ lit "&=" → none_of (is_char d) (form_encode keep s).
Proof.
  intros Hk Hd. unfold form_encode. induction s as [|c s IH]; [constructor|]. cbn [map concat].
  apply none_of_app. split; [|done].
  assert (Hd' : d = "&"%char ∨ d = "="%char) by (cbn in Hd; set_solver).
  destruct (is_char " " c); [by destruct Hd' as [-> | ->]; repeat constructor|].
  destruct (keep c) eqn:Hc.
  - apply none_of_cons. split; [|constructor]. apply is_char_false. intros <-. apply (Hk _ Hc). cbn. set_solver.
  - pose proof (percent_encode_avoids (λ _, false) d [c] eq_refl) as H. unfold percent_encode in H.
    cbn [map concat] in H. rewrite app_nil_r in H. by apply H; destruct Hd' as [-> | ->].
Qed.

Lemma split_query_pair_app n v : none_of (is_char "=") n → split_query_pair (n ++ "="%char :: v) = (n, v).
Proof.
  intros Hn. unfold split_query_pair, find_char, substr.
  rewrite find_if_here by (done || by rewrite is_char_refl). rewrite drop_0, take_app_length.
  f_equal. change ("="%char :: v) with (["="%char] ++ v). rewrite app_assoc.
  replace (S (length n)) with (length (n ++ ["="%char])) by (rewrite length_app; cbn; lia).
  by rewrite drop_app_length.
Qed.

Lemma query_pairs_encode keep pairs : form_keeps keep → query_pairs (encode_query keep pairs) = pairs.
Proof.
  intros Hk. unfold query_pairs, encode_query.
  set (enc := λ p : str * str, form_encode keep p.1 ++ "="%char :: form_encode keep p.2).
  assert (Hdec : ∀ p, decode_pair (enc p) = p).
  { intros [n v]. unfold enc, decode_pair. cbn [fst snd].
    rewrite split_query_pair_app by (by apply form_encode_avoids; [|cbn; set_solver]).
    by rewrite !decode_form_encode. }
  assert (Hamp : Forall (none_of (is_char "&")) (map enc pairs)).
  { apply Forall_map, Forall_true. intros [n v]. unfold enc. cbn [fst snd].
    apply none_of_app. split; [by apply form_encode_avoids; [|cbn; set_solver]|].
    apply none_of_cons. split; [done|]. by apply form_encode_avoids; [|cbn; set_solver]. }
  destruct pairs as [|p pairs]; [done|].
  rewrite split_join by done.
  assert (Hne : ∀ l, filter (.≠ []) (map enc l) = map enc l).
  { intros l. induction l as [|q l IH]; [done|]. cbn [map]. rewrite filter_cons, decide_True; [by rewrite IH|].
    unfold enc. by destruct (form_encode keep q.1). }
  rewrite Hne, map_map. clear -Hdec. induction (p :: pairs) as [|q l IH]; [done|]. cbn [map]. by rewrite Hdec, IH.
Qed.

(** The query string that encodes a list of name/value pairs decodes to
    them: [all] of a name returns the values paired with it, in order, for any
    bytes in names and values and any encoder that escapes ['%'], ['+'], ['&']
    and ['=']. *)
Theorem query_roundtrip (keep : ascii → bool) (pairs : list (str * str)) (name : str)
    (Hk : ∀ c, keep c = true → c ∉ lit "%+&=") :
  query_all (parse_query_params (encode_query keep pairs)) name = map snd (filter (λ p, p.1 = name) pairs).
Proof.
  rewrite (proj1 (represents_lookup _ _ name (parse_query_params_represents _))).
  by rewrite query_pairs_encode.
Qed.

Lemma query_roundtrip_witness :
  query_all (parse_query_params (lit "a+b=1%26&c==&a%20b=%3D&&a+b")) (lit "a b") = [lit "1&"; lit "="; []] ∧
  query_all (parse_query_params (encode_query isdigit [(lit "a b", lit "1&"); ([], lit "+"); (lit "a b", lit "=")]))
    (lit "a b") = [lit "1&"; lit "="].
Proof.
  split; [vm_compute; reflexivity|].
  apply (query_roundtrip isdigit [(lit "a b", lit "1&"); ([], lit "+"); (lit "a b", lit "=")] (lit "a b")).
  intros c Hc Hin. cbn in Hin. repeat (apply elem_of_cons in Hin as [->|Hin]; [vm_compute in Hc; discriminate|]).
  by apply elem_of_nil in Hin.
Defined.

(** ** The streamed body

    A user callback is a list of commands on the stream, the ones that user
    code can call; running one, or having the server call into the stream,
    produces a log of the callbacks made. *)
























(** ** The protocol of the stream *)







