(* ===== verification/WsFrame.v ===== *)
(** * WebSocket frames and the opening handshake

    The pure functions of [src/websocket/session.cpp] ([make_frame],
    [make_close_payload], [valid_close_code], the header checks of
    [valid_handshake], the body of the loop of [parse_frames] up to
    [handle_frame]) and [src/websocket/detail/handshake.cpp].  Bytes are
    integers from 0 to 255; a 64-bit length and the sums of [std::size_t] with
    it wrap at 2^64. *)

From S2P Require Import Prelude Text Http.

Open Scope Z_scope.

Abbreviation bytes := (list Z).
Definition byte_ok (b : Z) : Prop := 0 ≤ b < 256.

Definition wrap64 (n : Z) : Z := n mod 2 ^ 64.

(** ** Opcodes, close codes, errors *)

Definition op_continuation : Z := 0.
Definition op_text : Z := 1.
Definition op_binary : Z := 2.
Definition op_close : Z := 8.
Definition op_ping : Z := 9.
Definition op_pong : Z := 10.

Definition close_normal : Z := 1000.
Definition close_protocol_error : Z := 1002.
Definition close_message_too_large : Z := 1009.
Definition close_internal_error : Z := 1011.

Inductive ws_error := err_protocol | err_not_connected | err_message_size | err_would_block | err_io (code : Z).

Definition valid_close_code (code : Z) : bool :=
  ((3000 <=? code) && (code <=? 4999)) ||
  existsb (Z.eqb code) [1000; 1001; 1002; 1003; 1007; 1008; 1009; 1010; 1011].

(** ** Writing frames *)

Definition append_u16 (value : Z) : bytes := [Z.land (Z.shiftr value 8) 0xff; Z.land value 0xff].

Definition append_u64 (value : Z) : bytes :=
  map (λ shift, Z.land (Z.shiftr value shift) 0xff) [56; 48; 40; 32; 24; 16; 8; 0].

Definition make_frame (code : Z) (payload : bytes) : bytes :=
  let size := Z.of_nat (length payload) in
  Z.lor 0x80 code ::
  (if size <=? 125 then [size]
   else if size <=? 65535 then 126 :: append_u16 size
   else 127 :: append_u64 size) ++ payload.

Definition make_close_payload (code : Z) (reason : bytes) : bytes := append_u16 code ++ reason.

(** ** Reading frames *)

Definition byte_at (buffer : bytes) (i : nat) : Z := nth i buffer 0.

(** The result of one round of the loop.  [need_more compact]: return and
    wait, after [compact_read_buffer] when [compact]. *)
Inductive frame_result :=
| need_more (compact : bool)
| bad_frame (code : Z) (error : ws_error)
| frame (fin : bool) (raw_opcode : Z) (payload : bytes) (new_read_offset : nat).

(** The eight bytes of a 64-bit length. *)
Definition read_u64 (buffer : bytes) (offset : nat) : Z :=
  foldl (λ length index, Z.lor (wrap64 (Z.shiftl length 8)) (byte_at buffer (offset + index))) 0
    [0; 1; 2; 3; 4; 5; 6; 7]%nat.

(** The length field at [offset]: the length and the offset after it, [None]
    when its bytes have not arrived. *)
Definition read_length (buffer : bytes) (length7 : Z) (offset : nat) : option (Z * nat) :=
  if length7 =? 126 then
    if (length buffer <? offset + 2)%nat then None
    else Some (Z.lor (Z.shiftl (byte_at buffer offset) 8) (byte_at buffer (offset + 1)), (offset + 2)%nat)
  else if length7 =? 127 then
    if (length buffer <? offset + 8)%nat then None
    else Some (read_u64 buffer offset, (offset + 8)%nat)
  else Some (length7, offset).

Definition unmask (mask payload : bytes) : bytes :=
  imap (λ index b, Z.lxor b (byte_at mask (index mod 4))) payload.

Definition read_frame (max_message_bytes : Z) (buffer : bytes) (read_offset : nat) : frame_result :=
  if (length buffer - read_offset <? 2)%nat then need_more true
  else
    let first := byte_at buffer read_offset in
    let second := byte_at buffer (read_offset + 1) in
    let fin := negb (Z.land first 0x80 =? 0) in
    let masked := negb (Z.land second 0x80 =? 0) in
    let raw_opcode := Z.land first 0x0f in
    if negb (Z.land first 0x70 =? 0) || negb masked then bad_frame close_protocol_error err_protocol
    else
      match read_length buffer (Z.land second 0x7f) (read_offset + 2) with
      | None => need_more false
      | Some (len, offset) =>
        if (2 ^ 64 - 1 <? len) || (max_message_bytes <? len) then bad_frame close_message_too_large err_message_size
        else if Z.of_nat (length buffer) <? wrap64 (Z.of_nat offset + 4 + len) then need_more false
        else
          let mask := take 4 (drop offset buffer) in
          let payload := unmask mask (take (Z.to_nat len) (drop (offset + 4) buffer)) in
          frame fin raw_opcode payload (offset + 4 + Z.to_nat len)
      end.

(** ** Lemmas: bytes of integers *)

Lemma lor_shiftl_8 a b : 0 ≤ a → byte_ok b → Z.lor (Z.shiftl a 8) b = a * 256 + b.
Proof.
  intros Ha [Hb1 Hb2]. assert (Hdis : Z.land (Z.shiftl a 8) b = 0).
  { apply Z.bits_inj'. intros n Hn. rewrite Z.land_spec, Z.bits_0, Z.shiftl_spec by done.
    destruct (Z.lt_ge_cases n 8).
    - by rewrite Z.testbit_neg_r by lia.
    - rewrite andb_comm. replace b with (b mod 2 ^ 8) by (apply Z.mod_small; lia).
      by rewrite Z.mod_pow2_bits_high by lia. }
  rewrite <-Z.lxor_lor, <-Z.add_nocarry_lxor by done. by rewrite Z.shiftl_mul_pow2.
Qed.

Lemma land_255 v : Z.land v 0xff = v mod 256.
Proof. change 0xff with (Z.ones 8). by rewrite Z.land_ones. Qed.

Lemma land_shiftr v s : 0 ≤ s → Z.land (Z.shiftr v s) 0xff = (v / 2 ^ s) mod 256.
Proof. intros. by rewrite land_255, Z.shiftr_div_pow2. Qed.

Lemma mod_byte_ok v : byte_ok (v mod 256).
Proof. unfold byte_ok. apply Z.mod_pos_bound. lia. Qed.

Lemma append_u16_bytes v : Forall byte_ok (append_u16 v).
Proof. unfold append_u16. rewrite land_shiftr, land_255 by done. repeat constructor; apply mod_byte_ok. Qed.

Lemma append_u64_bytes v : Forall byte_ok (append_u64 v).
Proof.
  unfold append_u64. apply Forall_map. repeat constructor; rewrite land_shiftr by lia; apply mod_byte_ok.
Qed.

Lemma u16_value v : 0 ≤ v < 65536 → Z.lor (Z.shiftl (Z.land (Z.shiftr v 8) 0xff) 8) (Z.land v 0xff) = v.
Proof.
  intros Hv. rewrite land_shiftr, land_255 by done.
  rewrite lor_shiftl_8 by (apply mod_byte_ok || apply Z.mod_pos_bound; lia).
  change (2 ^ 8) with 256. rewrite (Z.mod_small (v / 256)).
  - pose proof (Z.div_mod v 256). lia.
  - split; [apply Z.div_pos; lia|apply Z.div_lt_upper_bound; lia].
Qed.

Lemma u64_step v s :
  0 ≤ v < 2 ^ 64 → 0 ≤ s ≤ 56 →
  Z.lor (wrap64 (Z.shiftl (v / 2 ^ (s + 8)) 8)) (Z.land (Z.shiftr v s) 0xff) = v / 2 ^ s.
Proof.
  intros Hv Hs. rewrite land_shiftr by lia. rewrite Z.pow_add_r, <-Z.div_div by lia. change (2 ^ 8) with 256.
  assert (H0 : 0 ≤ v / 2 ^ s) by (apply Z.div_pos; lia).
  assert (Hq : 0 ≤ v / 2 ^ s / 256) by (apply Z.div_pos; lia).
  assert (Hle : v / 2 ^ s ≤ v) by (apply Z.div_le_upper_bound; [lia|]; nia).
  pose proof (Z.div_mod (v / 2 ^ s) 256 ltac:(lia)). pose proof (Z.mod_pos_bound (v / 2 ^ s) 256 ltac:(lia)).
  unfold wrap64. rewrite Z.mod_small.
  - rewrite lor_shiftl_8; [lia|done|apply mod_byte_ok].
  - rewrite Z.shiftl_mul_pow2 by lia. change (2 ^ 8) with 256. lia.
Qed.

Lemma u64_value v buffer offset :
  0 ≤ v < 2 ^ 64 → take 8 (drop offset buffer) = append_u64 v →
  read_u64 buffer offset = v.
Proof.
  intros Hv Hb. unfold read_u64.
  assert (Hat : ∀ i, (i < 8)%nat → byte_at buffer (offset + i) = nth i (append_u64 v) 0).
  { intros i Hi. rewrite <-Hb. unfold byte_at. rewrite !nth_lookup, lookup_take_lt, lookup_drop by done. done. }
  cbn [foldl]. rewrite !Hat by lia. unfold append_u64. cbn [map nth].
  assert (Hsmall : v / 2 ^ (56 + 8) = 0) by (apply Z.div_small; done).
  rewrite <-Hsmall at 1. rewrite (u64_step v 56) by lia.
  change (2 ^ 56) with (2 ^ (48 + 8)). rewrite (u64_step v 48) by lia.
  change (2 ^ 48) with (2 ^ (40 + 8)). rewrite (u64_step v 40) by lia.
  change (2 ^ 40) with (2 ^ (32 + 8)). rewrite (u64_step v 32) by lia.
  change (2 ^ 32) with (2 ^ (24 + 8)). rewrite (u64_step v 24) by lia.
  change (2 ^ 24) with (2 ^ (16 + 8)). rewrite (u64_step v 16) by lia.
  change (2 ^ 16) with (2 ^ (8 + 8)). rewrite (u64_step v 8) by lia.
  change (2 ^ 8) with (2 ^ (0 + 8)). rewrite (u64_step v 0) by lia.
  apply Z.div_1_r.
Qed.

(** Facts about all small integers, by evaluation. *)
Lemma small_forallb (n : nat) (p : Z → bool) :
  forallb p (map Z.of_nat (seq 0 n)) = true → ∀ z, 0 ≤ z < Z.of_nat n → p z = true.
Proof.
  intros H z Hz. rewrite forallb_forall in H. apply H. apply in_map_iff. exists (Z.to_nat z).
  split; [lia|]. apply in_seq. lia.
Qed.

Lemma first_byte_bits (fin : bool) op :
  0 ≤ op < 16 →
  let first := Z.lor (if fin then 0x80 else 0) op in
  (negb (Z.land first 0x80 =? 0)) = fin ∧ Z.land first 0x70 = 0 ∧ Z.land first 0x0f = op ∧ byte_ok first.
Proof.
  intros Hop. cbv zeta.
  assert (H : (let first := Z.lor (if fin then 0x80 else 0) op in
    Bool.eqb (negb (Z.land first 0x80 =? 0)) fin && (Z.land first 0x70 =? 0) && (Z.land first 0x0f =? op)
    && (0 <=? first) && (first <? 256)) = true).
  { revert op Hop. by destruct fin; apply (small_forallb 16); vm_compute. }
  cbv zeta in H. breflect. unfold byte_ok. split_and!; [by apply Bool.eqb_prop|done|done|lia|lia].
Qed.

Lemma second_byte_bits len7 :
  0 ≤ len7 < 128 →
  let second := Z.lor 0x80 len7 in
  (negb (Z.land second 0x80 =? 0)) = true ∧ Z.land second 0x7f = len7 ∧ byte_ok second.
Proof.
  intros Hl. cbv zeta.
  assert (H : (let second := Z.lor 0x80 len7 in
    negb (Z.land second 0x80 =? 0) && (Z.land second 0x7f =? len7) && (0 <=? second) && (second <? 256)) = true).
  { revert len7 Hl. by apply (small_forallb 128); vm_compute. }
  cbv zeta in H. breflect. unfold byte_ok. split_and!; [|done|lia|lia]. by apply negb_true_iff, Z.eqb_neq.
Qed.

(** ** Frames on the wire

    [client_frame] is the frame that a client sends: masked, with the shortest
    length field. *)

Definition length_field (size : Z) : Z * bytes :=
  if size <=? 125 then (size, []) else if size <=? 65535 then (126, append_u16 size) else (127, append_u64 size).

Definition client_frame (fin : bool) (op : Z) (mask payload : bytes) : bytes :=
  let '(len7, ext) := length_field (Z.of_nat (length payload)) in
  [Z.lor (if fin then 0x80 else 0) op; Z.lor 0x80 len7] ++ ext ++ mask ++ unmask mask payload.

Lemma make_frame_field code payload :
  make_frame code payload =
    let '(len7, ext) := length_field (Z.of_nat (length payload)) in [Z.lor 0x80 code; len7] ++ ext ++ payload.
Proof.
  unfold make_frame, length_field. destruct (_ <=? 125); [done|]. by destruct (_ <=? 65535).
Qed.

Lemma length_field_bound size len7 ext :
  0 ≤ size → length_field size = (len7, ext) → 0 ≤ len7 < 128 ∧ (length ext ≤ 8)%nat ∧ Forall byte_ok ext.
Proof.
  intros H0. unfold length_field.
  destruct (Z.leb_spec size 125); [intros [= <- <-]; split_and!; [lia|lia|cbn; lia|constructor]|].
  destruct (Z.leb_spec size 65535); intros [= <- <-]; (split_and!; [lia|lia|cbn; lia|]);
    [apply append_u16_bytes|apply append_u64_bytes].
Qed.

Lemma byte_at_app pre buf i : byte_at (pre ++ buf) (length pre + i) = byte_at buf i.
Proof. unfold byte_at. rewrite app_nth2 by lia. f_equal. lia. Qed.

Lemma byte_at_app_0 pre buf : byte_at (pre ++ buf) (length pre) = byte_at buf 0.
Proof. by rewrite <-(byte_at_app pre buf 0), Nat.add_0_r. Qed.

Lemma read_length_field pre size len7 ext rest :
  0 ≤ size < 2 ^ 64 → length_field size = (len7, ext) →
  read_length (pre ++ ext ++ rest) len7 (length pre) = Some (size, (length pre + length ext)%nat).
Proof.
  intros Hs. unfold length_field.
  destruct (Z.leb_spec size 125) as [H1|H1]; [|destruct (Z.leb_spec size 65535) as [H2|H2]];
    intros [= <- <-]; unfold read_length.
  - rewrite (proj2 (Z.eqb_neq size 126)), (proj2 (Z.eqb_neq size 127)) by lia. cbn. by rewrite Nat.add_0_r.
  - change (126 =? 126) with true. cbv iota.
    rewrite (proj2 (Nat.ltb_ge _ _)) by (rewrite !length_app; cbn; lia).
    rewrite byte_at_app_0, byte_at_app. unfold byte_at. cbn [append_u16 app nth].
    by rewrite u16_value by lia.
  - change (127 =? 126) with false. change (127 =? 127) with true. cbv iota.
    rewrite (proj2 (Nat.ltb_ge _ _)) by (rewrite !length_app; cbn; lia).
    rewrite (u64_value size) by (done || by rewrite drop_app_length, take_app_length'). done.
Qed.

Lemma unmask_involutive mask payload : unmask mask (unmask mask payload) = payload.
Proof.
  unfold unmask. apply list_eq. intros i. rewrite !list_lookup_imap.
  destruct (payload !! i) as [b|]; cbn; [|done]. by rewrite Z.lxor_assoc, Z.lxor_nilpotent, Z.lxor_0_r.
Qed.

Lemma length_unmask mask payload : length (unmask mask payload) = length payload.
Proof. apply length_imap. Qed.

Lemma length_client_frame fin op mask payload :
  length mask = 4%nat → (length payload + 6 ≤ length (client_frame fin op mask payload) ≤ length payload + 14)%nat.
Proof.
  intros Hm. unfold client_frame. destruct (length_field _) as [len7 ext] eqn:E.
  apply length_field_bound in E as (_ & He & _); [|lia].
  rewrite !length_app, length_unmask, Hm. cbn. lia.
Qed.

(** Reading a frame that has arrived in full. *)
Lemma read_client_frame max pre fin op mask payload rest :
  0 ≤ op < 16 → length mask = 4%nat → Z.of_nat (length payload) ≤ max →
  Z.of_nat (length pre) + Z.of_nat (length payload) + 14 < 2 ^ 64 →
  read_frame max (pre ++ client_frame fin op mask payload ++ rest) (length pre) =
    frame fin op payload (length pre + length (client_frame fin op mask payload)).
Proof.
  intros Hop Hm Hmax Hsize. pose proof (length_client_frame fin op mask payload Hm) as Hlen.
  unfold read_frame. rewrite (proj2 (Nat.ltb_ge _ _)) by (rewrite !length_app; lia).
  rewrite byte_at_app_0, byte_at_app. unfold client_frame in *.
  destruct (length_field (Z.of_nat (length payload))) as [len7 ext] eqn:E.
  pose proof (length_field_bound (Z.of_nat (length payload)) _ _ ltac:(lia) E) as (Hl7 & Hext & _).
  destruct (first_byte_bits fin op Hop) as (Hfin & H70 & H0f & _).
  destruct (second_byte_bits len7 Hl7) as (Hmasked & H7f & _).
  unfold byte_at at 1 2 3 4 5. cbn [app nth]. rewrite H70, Hmasked, H7f. cbn [Z.eqb negb orb].
  change (length pre + 2)%nat with (length pre + length [Z.lor (if fin then 128 else 0) op; Z.lor 128 len7])%nat.
  rewrite <-length_app. change (?x :: ?y :: ?l) with ([x; y] ++ l). rewrite app_assoc, <-!app_assoc.
  rewrite (app_assoc pre). set (pre2 := pre ++ [_; _]).
  rewrite (read_length_field pre2 (Z.of_nat (length payload)) len7 ext) by (lia || done).
  rewrite (proj2 (Z.ltb_ge _ _)), (proj2 (Z.ltb_ge _ _)) by lia. cbn [orb].
  assert (Hpre2 : length pre2 = (length pre + 2)%nat) by (unfold pre2; by rewrite length_app).
  unfold wrap64. rewrite Z.mod_small by lia.
  rewrite (proj2 (Z.ltb_ge _ _)) by (rewrite !length_app, length_unmask; lia).
  rewrite Nat2Z.id. rewrite (app_assoc pre2 ext), <-(length_app pre2 ext), drop_app_length.
  rewrite take_app_length' by done. rewrite <-drop_drop, drop_app_length.
  rewrite drop_app_length' by done. rewrite take_app_length' by (by rewrite length_unmask).
  rewrite unmask_involutive, Hfin, H0f. f_equal. rewrite !length_app, length_unmask. cbn. lia.
Qed.

(** ** Reading frames that arrive in pieces *)

(** No size that the parser computes wraps: the buffer and the largest message
    fit in 64 bits together. *)
Definition sizes_ok (max : Z) (buffer : bytes) : Prop :=
  0 ≤ max ∧ max + Z.of_nat (length buffer) + 14 < 2 ^ 64.

Lemma byte_at_ok buffer i : Forall byte_ok buffer → byte_ok (byte_at buffer i).
Proof.
  intros H. unfold byte_at. destruct (nth_in_or_default i buffer 0) as [Hin| ->]; [|by unfold byte_ok].
  rewrite Forall_forall in H. by apply H, list_elem_of_In.
Qed.

Lemma byte_at_nonneg buffer i : Forall byte_ok buffer → 0 ≤ byte_at buffer i.
Proof. intros H. by destruct (byte_at_ok buffer i H). Qed.

Lemma byte_at_more buffer more i : (i < length buffer)%nat → byte_at (buffer ++ more) i = byte_at buffer i.
Proof. intros. unfold byte_at. by rewrite app_nth1. Qed.

Lemma foldl_ext_in {A} (f g : Z → A → Z) l acc : (∀ acc x, x ∈ l → f acc x = g acc x) → foldl f acc l = foldl g acc l.
Proof.
  revert acc. induction l as [|x l IH]; intros acc H; cbn; [done|]. rewrite H by by left.
  apply IH. intros. apply H. by right.
Qed.

Lemma read_length_stable buffer more len7 offset len offset' :
  read_length buffer len7 offset = Some (len, offset') →
  read_length (buffer ++ more) len7 offset = Some (len, offset').
Proof.
  unfold read_length. destruct (len7 =? 126).
  { destruct (Nat.ltb_spec (length buffer) (offset + 2)); [done|]. intros [= <- <-].
    rewrite (proj2 (Nat.ltb_ge _ _)) by (rewrite length_app; lia). by rewrite !byte_at_more by lia. }
  destruct (len7 =? 127); [|done].
  destruct (Nat.ltb_spec (length buffer) (offset + 8)); [done|].
  rewrite (proj2 (Nat.ltb_ge _ _)) by (rewrite length_app; lia). intros [H1 H2]%(inj Some)%pair_equal_spec.
  do 2 f_equal; [|done]. rewrite <-H1. apply foldl_ext_in. intros acc i Hi. rewrite byte_at_more; [done|].
  assert (i < 8)%nat; [|lia]. rewrite list_elem_of_In in Hi. cbn in Hi. lia.
Qed.

Lemma read_length_range buffer len7 offset len offset' :
  Forall byte_ok buffer → 0 ≤ len7 → read_length buffer len7 offset = Some (len, offset') →
  0 ≤ len ∧ (offset ≤ offset' ≤ offset + 8)%nat.
Proof.
  intros Hb H7. unfold read_length. destruct (len7 =? 126).
  { destruct (Nat.ltb_spec (length buffer) (offset + 2)); [done|]. intros [= <- <-]. split; [|lia].
    apply Z.lor_nonneg. rewrite Z.shiftl_nonneg. auto using byte_at_nonneg. }
  destruct (len7 =? 127); [|by intros [= <- <-]; split; [done|lia]].
  destruct (Nat.ltb_spec (length buffer) (offset + 8)); [done|].
  intros [<- <-]%(inj Some)%pair_equal_spec. split; [|lia].
  assert (H0 : ∀ (l : list nat) acc, 0 ≤ acc →
    0 ≤ foldl (λ acc index, Z.lor (wrap64 (Z.shiftl acc 8)) (byte_at buffer (offset + index))) acc l).
  { induction l as [|x l IH]; intros acc Hacc; cbn; [done|]. apply IH. apply Z.lor_nonneg. split.
    - apply Z.mod_pos_bound. lia.
    - by apply byte_at_nonneg. }
  unfold read_u64. by apply H0.
Qed.

(** A frame that was read lies in the buffer, and reading makes progress. *)
Lemma read_frame_progress max buffer offset fin op payload offset' :
  Forall byte_ok buffer → sizes_ok max buffer → (offset ≤ length buffer)%nat →
  read_frame max buffer offset = frame fin op payload offset' →
  (offset + 6 ≤ offset' ≤ length buffer)%nat ∧ 0 ≤ op < 16 ∧ Z.of_nat (length payload) ≤ max.
Proof.
  intros Hb [Hm0 Hsz] Hoff. unfold read_frame.
  destruct (Nat.ltb_spec (length buffer - offset) 2) as [|H2]; [done|].
  destruct (_ || _); [done|].
  destruct (read_length _ _ _) as [[len off]|] eqn:E; [|done].
  assert (H7 : 0 ≤ Z.land (byte_at buffer (offset + 1)) 127) by (apply Z.land_nonneg; right; lia).
  apply read_length_range in E as [Hlen Hoff2]; [|done..].
  destruct (_ <? len); cbn [orb]; [done|]. destruct (Z.ltb_spec max len) as [|Hmax]; [done|].
  unfold wrap64. rewrite Z.mod_small by lia.
  destruct (Z.ltb_spec (Z.of_nat (length buffer)) (Z.of_nat off + 4 + len)) as [|Hfit]; [done|].
  intros [= _ <- <- <-]. split_and!; [lia|lia|..].
  - apply Z.land_nonneg. right. lia.
  - change 15 with (Z.ones 4). rewrite Z.land_ones by done. by apply Z.mod_pos_bound.
  - rewrite length_unmask, length_take. lia.
Qed.

(** What was decided on a part of the bytes stays when more arrive. *)
Lemma read_frame_stable max buffer more offset :
  Forall byte_ok buffer → sizes_ok max (buffer ++ more) → (offset ≤ length buffer)%nat →
  (∀ c, read_frame max buffer offset ≠ need_more c) →
  read_frame max (buffer ++ more) offset = read_frame max buffer offset.
Proof.
  intros Hb [Hm0 Hsz] Hoff. rewrite length_app in Hsz. unfold read_frame.
  destruct (Nat.ltb_spec (length buffer - offset) 2) as [|H2]; [by intros Hno; destruct (Hno _ eq_refl)|].
  rewrite (proj2 (Nat.ltb_ge _ _)) by (rewrite length_app; lia).
  rewrite !byte_at_more by lia.
  destruct (_ || _); [done|].
  destruct (read_length buffer _ _) as [[len off]|] eqn:E; [|by intros Hno; destruct (Hno _ eq_refl)].
  rewrite (read_length_stable _ more _ _ _ _ E).
  assert (H7 : 0 ≤ Z.land (byte_at buffer (offset + 1)) 127) by (apply Z.land_nonneg; right; lia).
  apply read_length_range in E as [Hlen Hoff2]; [|done..].
  destruct (_ <? len); cbn [orb]; [done|]. destruct (Z.ltb_spec max len) as [|Hmax]; [done|].
  unfold wrap64. rewrite Z.mod_small by lia.
  destruct (Z.ltb_spec (Z.of_nat (length buffer)) (Z.of_nat off + 4 + len)) as [|Hfit]; [by intros Hno; destruct (Hno _ eq_refl)|].
  intros _. rewrite (proj2 (Z.ltb_ge _ _)) by (rewrite length_app; lia).
  rewrite !drop_app_le by lia. rewrite !take_app_le by (rewrite length_drop; lia). done.
Qed.

(** ** Theorems on frames *)

(** C14: A masked client frame of any opcode and any payload within the limit is
    read back exactly, wherever it lies in the buffer and whatever follows it:
    for each of the three length encodings, and with the payload unmasked. *)
Theorem read_frame_roundtrip max pre fin op mask payload rest
    (Hop : 0 ≤ op < 16) (Hmask : length mask = 4%nat) (Hlen : Z.of_nat (length payload) ≤ max)
    (Hsize : Z.of_nat (length pre) + Z.of_nat (length payload) + 14 < 2 ^ 64) :
  read_frame max (pre ++ client_frame fin op mask payload ++ rest) (length pre) =
    frame fin op payload (length pre + length (client_frame fin op mask payload)).
Proof. by apply read_client_frame. Qed.

(** While a client frame within the limits has arrived only in part, the
    parser asks for more bytes: it never fails on a prefix of a good frame and
    never takes a prefix for a frame. *)
Theorem read_frame_prefix max fin op mask payload arrived missing
    (Hop : 0 ≤ op < 16) (Hmask : length mask = 4%nat ∧ Forall byte_ok mask) (Hpayload : Forall byte_ok payload)
    (Hlen : Z.of_nat (length payload) ≤ max) (Hsize : max + Z.of_nat (length payload) + 28 < 2 ^ 64)
    (Hsplit : client_frame fin op mask payload = arrived ++ missing) (Hmissing : missing ≠ []) :
  ∃ compact, read_frame max arrived 0 = need_more compact.
Proof.
  destruct Hmask as [Hmask Hmok].
  assert (Hbytes : Forall byte_ok (client_frame fin op mask payload)).
  { unfold client_frame. destruct (length_field _) as [len7 ext] eqn:E.
    apply length_field_bound in E as (H7 & _ & Hext); [|lia].
    destruct (first_byte_bits fin op Hop) as (_ & _ & _ & H1). destruct (second_byte_bits len7 H7) as (_ & _ & H2).
    repeat (apply Forall_cons; split; [done|]). cbn [app]. apply Forall_app; split; [done|].
    apply Forall_app; split; [done|]. unfold unmask. apply Forall_lookup. intros i b.
    rewrite list_lookup_imap. destruct (payload !! i) as [p|] eqn:Hp; cbn; [|done]. intros [= <-].
    assert (Hxor : ∀ x y, byte_ok x → byte_ok y → byte_ok (Z.lxor x y)).
    { intros x y [Hx1 Hx2] [Hy1 Hy2]. split; [apply Z.lxor_nonneg; lia|].
      destruct (Z.eq_dec (Z.lxor x y) 0) as [->|Hne]; [done|]. change 256 with (2 ^ 8).
      assert (0 < Z.lxor x y) by (assert (0 ≤ Z.lxor x y) by (apply Z.lxor_nonneg; lia); lia).
      apply Z.log2_lt_pow2; [done|]. eapply Z.le_lt_trans; [by apply Z.log2_lxor; lia|].
      apply Z.max_lub_lt; [destruct (Z.eq_dec x 0) as [->|]|destruct (Z.eq_dec y 0) as [->|]];
        (done || (apply Z.log2_lt_pow2; lia)). }
    apply Hxor; [|by apply byte_at_ok]. rewrite Forall_lookup in Hpayload. by eapply Hpayload. }
  pose proof (length_client_frame fin op mask payload Hmask) as Hcf.
  pose proof (read_client_frame max [] fin op mask payload [] Hop Hmask Hlen ltac:(cbn; lia)) as Hfull.
  rewrite app_nil_r in Hfull. cbn [app length Nat.add] in Hfull. rewrite Hsplit in *.
  apply Forall_app in Hbytes as [Harr _].
  assert (Hok : sizes_ok max (arrived ++ missing)) by (unfold sizes_ok; lia).
  assert (Hok' : sizes_ok max arrived).
  { destruct Hok. split; [done|]. rewrite length_app in *. lia. }
  destruct (read_frame max arrived 0) as [c|code e|fin' op' payload' off'] eqn:E; [by eexists|exfalso..].
  - pose proof (read_frame_stable max arrived missing 0 Harr Hok ltac:(lia)) as Hst. rewrite E in Hst.
    rewrite Hst in Hfull by congruence. done.
  - pose proof (read_frame_stable max arrived missing 0 Harr Hok ltac:(lia)) as Hst. rewrite E in Hst.
    rewrite Hst in Hfull by congruence. injection Hfull as _ _ _ Hoff.
    destruct (read_frame_progress _ _ _ _ _ _ _ Harr Hok' (Nat.le_0_l _) E) as [[_ Hle] _].
    rewrite length_app in Hoff. destruct missing; [done|]. cbn in Hoff. lia.
Qed.

(** The frame that [make_frame] writes, as the other side reads it: first
    byte, second byte, then the length field and the payload. *)
Definition read_server_frame (buffer : bytes) : option (bool * Z * bytes) :=
  let first := byte_at buffer 0 in
  let second := byte_at buffer 1 in
  if negb (Z.land first 0x70 =? 0) || negb (Z.land second 0x80 =? 0) then None
  else
    '(len, offset) ← read_length buffer (Z.land second 0x7f) 2;
    let payload := drop offset buffer in
    if Z.of_nat (length payload) =? len then Some (negb (Z.land first 0x80 =? 0), Z.land first 0x0f, payload) else None.

(** [make_frame] writes a final, unmasked frame with the given opcode whose
    length field is exactly the length of the payload, which follows
    unchanged. *)
Theorem make_frame_roundtrip op payload
    (Hop : 0 ≤ op < 16) (Hlen : Z.of_nat (length payload) < 2 ^ 64) :
  read_server_frame (make_frame op payload) = Some (true, op, payload) ∧
  Z.of_nat (length (make_frame op payload)) ≤ Z.of_nat (length payload) + 10.
Proof.
  rewrite make_frame_field. destruct (length_field (Z.of_nat (length payload))) as [len7 ext] eqn:E.
  pose proof (length_field_bound (Z.of_nat (length payload)) _ _ ltac:(lia) E) as (Hl7 & Hext & _).
  split; [|rewrite !length_app; cbn; lia].
  unfold read_server_frame. unfold byte_at at 1 2 3 4 5. cbn [app nth].
  destruct (first_byte_bits true op Hop) as (Hfin & H70 & H0f & _).
  rewrite H70, H0f, Hfin.
  assert (Hl : (Z.land len7 0x80 =? 0) = true ∧ Z.land len7 0x7f = len7).
  { assert (H : ((Z.land len7 0x80 =? 0) && (Z.land len7 0x7f =? len7)) = true).
    { clear -Hl7. revert len7 Hl7. by apply (small_forallb 128); vm_compute. }
    apply andb_true_iff in H as [H1 H2]. split; [done|]. by apply Z.eqb_eq. }
  destruct Hl as [-> ->]. cbn [Z.eqb negb orb].
  pose proof (read_length_field [Z.lor 128 op; len7] (Z.of_nat (length payload)) len7 ext payload ltac:(lia) E) as Hr.
  cbn [app length] in Hr. rewrite Hr. cbn [mbind option_bind].
  assert (Hd : drop (2 + length ext) (Z.lor 128 op :: len7 :: ext ++ payload) = payload).
  { change (Z.lor 128 op :: len7 :: ext ++ payload) with ([Z.lor 128 op; len7] ++ ext ++ payload).
    rewrite app_assoc. rewrite drop_app_length'; [done|]. rewrite length_app. done. }
  rewrite Hd, Z.eqb_refl. done.
Qed.

(** ** Witnesses *)

Definition sample_mask : bytes := [0x37; 0xfa; 0x21; 0x3d].

(** The masked "Hello" of RFC 6455. *)
Example masked_hello :
  client_frame true op_text sample_mask [0x48; 0x65; 0x6c; 0x6c; 0x6f] =
    [0x81; 0x85; 0x37; 0xfa; 0x21; 0x3d; 0x7f; 0x9f; 0x4d; 0x51; 0x58].
Proof. vm_compute. reflexivity. Qed.

Lemma read_frame_roundtrip_witness :
  read_frame 1000 ([7; 7] ++ client_frame true op_text sample_mask (replicate 300 0x48) ++ [1]) (length [7; 7]) =
    frame true op_text (replicate 300 0x48)
      (length [7; 7] + length (client_frame true op_text sample_mask (replicate 300 0x48))).
Proof.
  apply (read_frame_roundtrip 1000 [7; 7] true op_text sample_mask (replicate 300 0x48) [1]);
    [unfold op_text; lia|reflexivity|vm_compute; discriminate|vm_compute; reflexivity].
Defined.

Lemma read_frame_prefix_witness :
  ∃ compact, read_frame 1000 (take 9 (client_frame true op_text sample_mask [0x48; 0x65; 0x6c; 0x6c; 0x6f])) 0 =
    need_more compact.
Proof.
  apply (read_frame_prefix 1000 true op_text sample_mask [0x48; 0x65; 0x6c; 0x6c; 0x6f] _
    (drop 9 (client_frame true op_text sample_mask [0x48; 0x65; 0x6c; 0x6c; 0x6f]))).
  - unfold op_text; lia.
  - split; [reflexivity|]. repeat constructor; discriminate.
  - repeat constructor; discriminate.
  - vm_compute; discriminate.
  - vm_compute; reflexivity.
  - symmetry. apply take_drop.
  - vm_compute. discriminate.
Defined.

Lemma make_frame_roundtrip_witness :
  make_frame op_text [0x48; 0x65; 0x6c; 0x6c; 0x6f] = [0x81; 0x05; 0x48; 0x65; 0x6c; 0x6c; 0x6f] ∧
  read_server_frame (make_frame op_binary (replicate 200 1)) = Some (true, op_binary, replicate 200 1).
Proof.
  split; [vm_compute; reflexivity|].
  apply (make_frame_roundtrip op_binary (replicate 200 1)); [unfold op_binary; lia|vm_compute; reflexivity].
Defined.
