(* ===== verification/WsHandshake.v ===== *)
(** * The WebSocket opening handshake

    [valid_handshake] and [handshake_response] of [src/websocket/session.cpp]
    and [src/websocket/detail/handshake.cpp].  SHA-1 is computed by OpenSSL and
    is a parameter. *)

From S2P Require Import Prelude Text Http WsFrame.

Open Scope Z_scope.

(** ** Header tokens *)

Definition lower_ascii (value : ascii) : ascii :=
  if ((65 <=? code value) && (code value <=? 90))%N then ascii_of_N (code value - 65 + 97) else value.

Definition ws_lowercase (value : str) : str := map lower_ascii value.

Definition is_blank (c : ascii) : bool := is_char " " c || is_char "009" c.

Fixpoint trim_front (value : str) : str :=
  match value with
  | c :: rest => if is_blank c then trim_front rest else value
  | [] => []
  end.

Definition trim (value : str) : str := reverse (trim_front (reverse (trim_front value))).

(** The loop over the comma-separated tokens of [header]. *)
Fixpoint token_loop (fuel : nat) (header expected : str) : bool :=
  match fuel with
  | O => false
  | S fuel' =>
    match header with
    | [] => false
    | _ =>
      let comma := find_char "," header in
      let token := trim (match comma with Some i => substr header 0 i | None => header end) in
      if (length token =? length expected)%nat && bool_decide (ws_lowercase token = ws_lowercase expected) then true
      else
        match comma with
        | None => false
        | Some i => token_loop fuel' (drop (S i) header) expected
        end
    end
  end.

Definition token_list_contains (header expected : str) : bool :=
  token_loop (S (length header)) header (trim expected).

Definition valid_handshake (m : method) (hs : headers) : bool :=
  bool_decide (m = m_get) &&
  bool_decide (ws_lowercase (headers_get hs (lit "upgrade")) = lit "websocket") &&
  token_list_contains (headers_get hs (lit "connection")) (lit "upgrade") &&
  bool_decide (headers_get hs (lit "sec-websocket-version") = lit "13") &&
  negb (bool_decide (trim (headers_get hs (lit "sec-websocket-key")) = [])).

(** ** Base64 *)

Definition base64_alphabet : str := lit "ABCDEFGHIJKLMNOPQRSTUVWXYZabcdefghijklmnopqrstuvwxyz0123456789+/".

Definition base64_char (index : Z) : ascii := nth (Z.to_nat index) base64_alphabet "="%char.

(** One round of the loop; [b1] and [b2] are 0 past the end. *)
Definition base64_group (b0 b1 b2 : Z) (has1 has2 : bool) : str :=
  let value := Z.lor (Z.lor (Z.shiftl b0 16) (Z.shiftl b1 8)) b2 in
  [base64_char (Z.land (Z.shiftr value 18) 0x3f);
   base64_char (Z.land (Z.shiftr value 12) 0x3f);
   if has1 then base64_char (Z.land (Z.shiftr value 6) 0x3f) else "="%char;
   if has2 then base64_char (Z.land value 0x3f) else "="%char].

Fixpoint base64 (bs : bytes) : str :=
  match bs with
  | [] => []
  | [b0] => base64_group b0 0 0 false false
  | [b0; b1] => base64_group b0 b1 0 true false
  | b0 :: b1 :: b2 :: rest => base64_group b0 b1 b2 true true ++ base64 rest
  end.

Definition websocket_guid : str := lit "258EAFA5-E914-47DA-95CA-C5AB0DC85B11".

Section handshake.
(** [EVP_Digest] with [EVP_sha1]. *)
Context (sha1 : str → bytes).

Definition websocket_accept_value (key : str) : str := base64 (sha1 (key ++ websocket_guid)).

Definition crlf : str := ["013"%char; "010"%char].

Definition handshake_response (hs : headers) (subprotocol : str) : str :=
  lit "HTTP/1.1 101 Switching Protocols" ++ crlf ++
  lit "upgrade: websocket" ++ crlf ++
  lit "connection: Upgrade" ++ crlf ++
  lit "sec-websocket-accept: " ++ websocket_accept_value (trim (headers_get hs (lit "sec-websocket-key"))) ++ crlf ++
  (if bool_decide (subprotocol = []) then [] else lit "sec-websocket-protocol: " ++ subprotocol ++ crlf) ++
  crlf.
End handshake.

(** ** Decoding Base64 *)

Fixpoint index_of (c : ascii) (s : str) : option Z :=
  match s with
  | [] => None
  | x :: s' => if is_char c x then Some 0 else Z.succ <$> index_of c s'
  end.

Definition base64_value (c : ascii) : option Z := index_of c base64_alphabet.

(** The reference decoder of padded Base64. *)
Fixpoint base64_decode (s : str) : option bytes :=
  match s with
  | [] => Some []
  | c0 :: c1 :: c2 :: c3 :: rest =>
    d0 ← base64_value c0; d1 ← base64_value c1;
    if is_char "=" c2 && is_char "=" c3 then
      guard (rest = []);; Some [(d0 * 64 + d1) / 16]
    else
      d2 ← base64_value c2;
      if is_char "=" c3 then
        let v := (d0 * 64 + d1) * 64 + d2 in guard (rest = []);; Some [v / 1024; v / 4 mod 256]
      else
        d3 ← base64_value c3;
        let v := ((d0 * 64 + d1) * 64 + d2) * 64 + d3 in
        decoded ← base64_decode rest; Some (v / 65536 :: v / 256 mod 256 :: v mod 256 :: decoded)
  | _ => None
  end.

Lemma base64_char_value n : 0 ≤ n < 64 → base64_value (base64_char n) = Some n ∧ is_char "=" (base64_char n) = false.
Proof.
  intros Hn. assert (H : bool_decide (base64_value (base64_char n) = Some n) && negb (is_char "=" (base64_char n)) = true).
  { revert n Hn. by apply (small_forallb 64); vm_compute. }
  by breflect.
Qed.

Lemma group_value b0 b1 b2 :
  byte_ok b0 → byte_ok b1 → byte_ok b2 →
  Z.lor (Z.lor (Z.shiftl b0 16) (Z.shiftl b1 8)) b2 = b0 * 65536 + b1 * 256 + b2.
Proof.
  intros H0 H1 H2. replace (Z.shiftl b0 16) with (Z.shiftl (Z.shiftl b0 8) 8) by by rewrite Z.shiftl_shiftl.
  rewrite <-Z.shiftl_lor, !lor_shiftl_8; try done; unfold byte_ok in *; rewrite ?lor_shiftl_8; unfold byte_ok; lia.
Qed.

Lemma land_63 v s : 0 ≤ s → Z.land (Z.shiftr v s) 0x3f = v / 2 ^ s mod 64.
Proof. intros Hs. change 0x3f with (Z.ones 6). by rewrite Z.land_ones, Z.shiftr_div_pow2. Qed.

Lemma sextets v :
  0 ≤ v < 2 ^ 24 →
  let d0 := v / 262144 mod 64 in let d1 := v / 4096 mod 64 in let d2 := v / 64 mod 64 in let d3 := v mod 64 in
  v = ((d0 * 64 + d1) * 64 + d2) * 64 + d3 ∧ 0 ≤ d0 < 64 ∧ 0 ≤ d1 < 64 ∧ 0 ≤ d2 < 64 ∧ 0 ≤ d3 < 64.
Proof.
  intros Hv. cbv zeta. split_and!; try (apply Z.mod_pos_bound; lia).
  change 262144 with (64 * 64 * 64). change 4096 with (64 * 64). rewrite <-!Z.div_div by lia.
  assert (v / 64 / 64 / 64 < 64).
  { repeat (apply Z.div_lt_upper_bound; [lia|]). change (2 ^ 24) with 16777216 in Hv. lia. }
  assert (0 ≤ v / 64 / 64 / 64) by (repeat (apply Z.div_pos; [|lia]); lia).
  rewrite (Z.mod_small (v / 64 / 64 / 64)) by lia.
  pose proof (Z.div_mod v 64). pose proof (Z.div_mod (v / 64) 64). pose proof (Z.div_mod (v / 64 / 64) 64). lia.
Qed.

(** The four characters of a group, with the value they encode. *)
Lemma base64_group_digits b0 b1 b2 :
  byte_ok b0 → byte_ok b1 → byte_ok b2 →
  ∃ d0 d1 d2 d3,
    (∀ has1 has2, base64_group b0 b1 b2 has1 has2 =
      [base64_char d0; base64_char d1; if has1 : bool then base64_char d2 else "="%char;
       if has2 : bool then base64_char d3 else "="%char]) ∧
    b0 * 65536 + b1 * 256 + b2 = ((d0 * 64 + d1) * 64 + d2) * 64 + d3 ∧
    0 ≤ d0 < 64 ∧ 0 ≤ d1 < 64 ∧ 0 ≤ d2 < 64 ∧ 0 ≤ d3 < 64.
Proof.
  intros H0 H1 H2. set (v := b0 * 65536 + b1 * 256 + b2).
  assert (Hv : 0 ≤ v < 2 ^ 24) by (unfold v, byte_ok in *; lia).
  destruct (sextets v Hv) as (Heq & Hd).
  exists (v / 262144 mod 64), (v / 4096 mod 64), (v / 64 mod 64), (v mod 64). split; [|by split].
  intros has1 has2. unfold base64_group. cbv zeta. rewrite group_value by done. fold v.
  rewrite !land_63 by lia. change 0x3f with (Z.ones 6). by rewrite Z.land_ones.
Qed.

Lemma base64_decode_full b0 b1 b2 rest :
  byte_ok b0 → byte_ok b1 → byte_ok b2 →
  base64_decode (base64_group b0 b1 b2 true true ++ rest) =
    (decoded ← base64_decode rest; Some (b0 :: b1 :: b2 :: decoded)).
Proof.
  intros H0 H1 H2. destruct (base64_group_digits b0 b1 b2 H0 H1 H2) as (d0 & d1 & d2 & d3 & -> & Hv & Hd0 & Hd1 & Hd2 & Hd3).
  cbn [app base64_decode].
  destruct (base64_char_value d0 Hd0) as [-> _], (base64_char_value d1 Hd1) as [-> _].
  destruct (base64_char_value d2 Hd2) as [-> ->], (base64_char_value d3 Hd3) as [-> ->]. cbn [andb mbind option_bind].
  rewrite <-Hv. destruct (base64_decode rest) as [decoded|]; cbn [mbind option_bind]; [|done].
  unfold byte_ok in *. do 2 f_equal; [|f_equal; [|f_equal]].
  - symmetry. apply Z.div_unique with (b1 * 256 + b2); lia.
  - replace (b0 * 65536 + b1 * 256 + b2) with ((b0 * 256 + b1) * 256 + b2) by lia.
    rewrite Z.div_add_l, Z.div_small, Z.add_0_r by lia. rewrite Z.add_comm, Z.mod_add, Z.mod_small by lia. done.
  - replace (b0 * 65536 + b1 * 256 + b2) with (b2 + (b0 * 256 + b1) * 256) by lia.
    rewrite Z.mod_add, Z.mod_small by lia. done.
Qed.

Lemma base64_decode_two b0 b1 :
  byte_ok b0 → byte_ok b1 → base64_decode (base64_group b0 b1 0 true false) = Some [b0; b1].
Proof.
  intros H0 H1. destruct (base64_group_digits b0 b1 0 H0 H1) as (d0 & d1 & d2 & d3 & -> & Hv & Hd0 & Hd1 & Hd2 & Hd3);
    [done|]. cbn [base64_decode].
  destruct (base64_char_value d0 Hd0) as [-> _], (base64_char_value d1 Hd1) as [-> _].
  destruct (base64_char_value d2 Hd2) as [-> ->]. rewrite is_char_refl. cbn [andb mbind option_bind guard].
  unfold byte_ok in *.
  assert (Hx : (d0 * 64 + d1) * 64 + d2 = b0 * 1024 + b1 * 4) by lia. rewrite Hx.
  rewrite option_guard_True by done. do 2 f_equal; [|f_equal].
  - symmetry. apply Z.div_unique with (b1 * 4); lia.
  - replace (b0 * 1024 + b1 * 4) with ((b0 * 256 + b1) * 4) by lia. rewrite Z.div_mul by lia.
    rewrite Z.add_comm, Z.mod_add, Z.mod_small by lia. done.
Qed.

Lemma base64_decode_one b0 : byte_ok b0 → base64_decode (base64_group b0 0 0 false false) = Some [b0].
Proof.
  intros H0. destruct (base64_group_digits b0 0 0 H0) as (d0 & d1 & d2 & d3 & -> & Hv & Hd0 & Hd1 & Hd2 & Hd3);
    [done|done|]. cbn [base64_decode].
  destruct (base64_char_value d0 Hd0) as [-> _], (base64_char_value d1 Hd1) as [-> _].
  rewrite !is_char_refl. cbn [andb mbind option_bind guard]. unfold byte_ok in *.
  assert (Hx : d0 * 64 + d1 = b0 * 16) by lia. rewrite Hx, Z.div_mul by lia. by rewrite option_guard_True.
Qed.

(** Induction on a list three elements at a time. *)
Lemma list_three_ind {A} (P : list A → Prop) :
  P [] → (∀ a, P [a]) → (∀ a b, P [a; b]) → (∀ a b c l, P l → P (a :: b :: c :: l)) → ∀ l, P l.
Proof.
  intros H0 H1 H2 H3 l. assert (P l ∧ (∀ a, P (a :: l)) ∧ ∀ a b, P (a :: b :: l)) as [? _]; [|done].
  induction l as [|x l (IH1 & IH2 & IH3)]; [auto|].
  split; [apply IH2|]. split; [intros a; apply IH3|intros a b; by apply H3].
Qed.

(** The Base64 encoder is right on every byte string: a standard decoder
    gives the bytes back, and the output has four characters for every three
    bytes or part of three. *)
Theorem base64_roundtrip (bs : bytes) (Hbs : Forall byte_ok bs) :
  base64_decode (base64 bs) = Some bs ∧ length (base64 bs) = (4 * ((length bs + 2) / 3))%nat.
Proof.
  revert Hbs. induction bs as [|a|a b|a b c bs IH] using list_three_ind.
  - done.
  - intros [Ha _]%Forall_cons. split; [by apply base64_decode_one|done].
  - intros [Ha [Hb _]%Forall_cons]%Forall_cons. split; [by apply base64_decode_two|done].
  - intros [Ha [Hb [Hc Hbs]%Forall_cons]%Forall_cons]%Forall_cons. destruct (IH Hbs) as [Hd Hl].
    cbn [base64]. split; [by rewrite base64_decode_full, Hd|].
    rewrite length_app, Hl. cbn [length].
    replace (S (S (S (length bs))) + 2)%nat with (length bs + 2 + 1 * 3)%nat by lia.
    rewrite Nat.div_add by lia. unfold base64_group. cbn [length]. lia.
Qed.

Lemma base64_roundtrip_witness :
  base64 (map (λ c, Z.of_N (code c)) (lit "fooba")) = lit "Zm9vYmE=" ∧
  base64_decode (base64 (map (λ c, Z.of_N (code c)) (lit "fooba"))) = Some (map (λ c, Z.of_N (code c)) (lit "fooba")).
Proof.
  split; [vm_compute; reflexivity|].
  apply base64_roundtrip. repeat constructor; vm_compute; discriminate.
Defined.

(** ** Token lists *)

Lemma lower_ascii_tolower c : lower_ascii c = tolower c.
Proof.
  apply Ascii.eqb_eq. revert c. refine (ascii_forallb (λ c, Ascii.eqb (lower_ascii c) (tolower c)) _).
  vm_compute. reflexivity.
Qed.

Lemma ws_lowercase_eq s : ws_lowercase s = lowercase s.
Proof. unfold ws_lowercase, lowercase. apply map_ext, lower_ascii_tolower. Qed.

Definition token_is (expected token : str) : bool := bool_decide (lowercase (trim token) = lowercase expected).

Lemma token_loop_spec fuel header expected :
  expected ≠ [] → (length header < fuel)%nat →
  token_loop fuel header expected = existsb (token_is expected) (split_on "," header).
Proof.
  intros He. revert header. induction fuel as [|fuel IH]; intros header Hf; [lia|]. cbn [token_loop].
  destruct header as [|c header].
  { cbn. unfold token_is. cbn. rewrite bool_decide_eq_false_2; [done|]. by destruct expected. }
  set (h := c :: header) in *.
  assert (Htok : ∀ t, (length (trim t) =? length expected)%nat && bool_decide (ws_lowercase (trim t) = ws_lowercase expected) =
    token_is expected t).
  { intros t. unfold token_is. rewrite !ws_lowercase_eq. case_bool_decide as Hl; [|by rewrite andb_false_r].
    rewrite andb_true_r. apply Nat.eqb_eq. by rewrite <-(length_lowercase (trim t)), Hl, length_lowercase. }
  rewrite Htok. destruct (find_char "," h) as [i|] eqn:E.
  - apply find_if_Some in E as (pre & x & post & Hh & <- & Hx & Hpre). apply is_char_true in Hx as <-.
    rewrite Hh. unfold substr. rewrite drop_0, take_app_length, split_on_app by done. cbn [existsb].
    destruct (token_is expected pre); [done|]. cbn [orb].
    replace (drop (S (length pre)) (pre ++ ","%char :: post)) with post.
    + apply IH. rewrite Hh, length_app in Hf. cbn in Hf. lia.
    + change (","%char :: post) with ([","%char] ++ post). rewrite app_assoc, drop_app_length'; [done|].
      rewrite length_app. cbn. lia.
  - apply find_if_None in E. rewrite split_on_none by done. cbn [existsb]. by destruct (token_is expected h).
Qed.

(** [token_list_contains] holds exactly when one of the comma-separated
    tokens of the header, without the blanks around it, is the expected token
    up to case. *)
Theorem token_list_contains_spec (header expected : str) (He : trim expected ≠ []) :
  token_list_contains header expected = true ↔
  ∃ token, token ∈ split_on "," header ∧ lowercase (trim token) = lowercase (trim expected).
Proof.
  unfold token_list_contains. rewrite token_loop_spec by (done || lia). rewrite existsb_exists.
  split; intros (t & Hin & Ht); exists t; rewrite list_elem_of_In in *; unfold token_is in *; breflect; (split; [done|]).
  - done.
  - by rewrite bool_decide_eq_true_2.
Qed.

Lemma token_list_contains_spec_witness :
  token_list_contains (lit "keep-alive ,  UPGRADE") (lit "upgrade") = true ∧
  (token_list_contains (lit "keep-alive, upgraded") (lit "upgrade") = true ↔
   ∃ token, token ∈ split_on "," (lit "keep-alive, upgraded") ∧ lowercase (trim token) = lowercase (trim (lit "upgrade"))).
Proof.
  split; [vm_compute; reflexivity|].
  apply (token_list_contains_spec (lit "keep-alive, upgraded") (lit "upgrade")). vm_compute. discriminate.
Defined.
