(* ===== verification/WsSession.v ===== *)
(** * The WebSocket session

    [session::state] and [websocket_byte_stream] of
    [src/websocket/session.cpp].  User callbacks may call back into the
    session: the user is a function from the history of the session and the
    callback that is made to the list of calls that the callback makes, and
    [emit] runs them, nested callbacks included, to a given depth.  The
    theorems hold for every user and every depth.  The calls into the
    transport and the timer appear in the history; their completions are
    inputs of the session. *)

From S2P Require Import Prelude Text WsFrame.

Open Scope Z_scope.

(** ** State *)

Record accept_options := AcceptOptions {
  max_message_bytes : Z;
  max_pending_write_bytes : Z;
  close_timeout : Z;
  auto_pong : bool
}.

(** User callbacks, with their arguments; [ev_written] and [ev_closed] are the
    callbacks given to a write and a close of the byte stream. *)
Inductive ws_event :=
| ev_text (payload : bytes)
| ev_binary (payload : bytes)
| ev_ping (payload : bytes)
| ev_pong (payload : bytes)
| ev_close (code : Z) (reason : bytes)
| ev_error (error : ws_error)
| ev_bytes (payload : bytes)
| ev_bytes_eof
| ev_bytes_error (error : ws_error)
| ev_written (id : nat) (error : option ws_error)
| ev_closed (id : nat).

(** The history: callbacks made, frames queued, and calls into the stream and
    the timer. *)
Inductive effect :=
| eff_event (e : ws_event)
| eff_queue (frame : bytes)
| eff_write (frame : bytes)
| eff_read_start
| eff_read_stop
| eff_close_stream
| eff_timer_start (timeout : Z)
| eff_timer_stop
| eff_timer_close.

Record pending_write := PendingWrite { pw_payload : bytes; pw_on_write : option nat; pw_close_after : bool }.

Record input_state := Input { read_buffer : bytes; read_offset : nat }.
Record output_state := Output { writes : list pending_write; pending_write_bytes : Z; writing : bool }.
Record closing_state := Closing {
  closed : bool; close_sent : bool; close_timeout_active : bool; close_timer : bool; close_timer_closed : bool;
  keep_alive : bool; stream_on_close : option nat
}.
Record fragment_state := Fragment { fragmented_opcode : option Z; fragmented_message : bytes }.
Record byte_state := ByteState { byte_mode : bool; byte_read : bool }.

Record ws := Ws {
  options : accept_options;
  stream : bool;
  input : input_state;
  output : output_state;
  closing : closing_state;
  fragments : fragment_state;
  byte_side : byte_state;
  history : list effect
}.

Definition init (o : accept_options) : ws :=
  Ws o false (Input [] 0) (Output [] 0 false) (Closing false false false false false false None) (Fragment None [])
    (ByteState false false) [].

Definition set_stream (s : ws) : ws :=
  Ws (options s) true (input s) (output s) (closing s) (fragments s) (byte_side s) (history s).
Definition set_input (i : input_state) (s : ws) : ws :=
  Ws (options s) (stream s) i (output s) (closing s) (fragments s) (byte_side s) (history s).
Definition set_output (o : output_state) (s : ws) : ws :=
  Ws (options s) (stream s) (input s) o (closing s) (fragments s) (byte_side s) (history s).
Definition set_closing (c : closing_state) (s : ws) : ws :=
  Ws (options s) (stream s) (input s) (output s) c (fragments s) (byte_side s) (history s).
Definition set_fragments (f : fragment_state) (s : ws) : ws :=
  Ws (options s) (stream s) (input s) (output s) (closing s) f (byte_side s) (history s).
Definition set_bytes (b : byte_state) (s : ws) : ws :=
  Ws (options s) (stream s) (input s) (output s) (closing s) (fragments s) b (history s).
Definition record (e : effect) (s : ws) : ws :=
  Ws (options s) (stream s) (input s) (output s) (closing s) (fragments s) (byte_side s) (history s ++ [e]).

Definition is_closed (s : ws) : bool := closed (closing s).
Definition size (b : bytes) : Z := Z.of_nat (length b).

(** ** Operations without callbacks *)

Definition flush_next (s : ws) : ws :=
  if is_closed s || writing (output s) then s
  else
    match writes (output s) with
    | [] => s
    | front :: _ =>
      if negb (stream s) then s
      else record (eff_write (pw_payload front))
             (set_output (Output (writes (output s)) (pending_write_bytes (output s)) true) s)
    end.

Definition queue (payload : bytes) (close_after : bool) (on_write : option nat) (s : ws) : ws :=
  flush_next
    (record (eff_queue payload)
       (set_output (Output (writes (output s) ++ [PendingWrite payload on_write close_after])
          (pending_write_bytes (output s) + size payload) (writing (output s))) s)).

Definition start_close_timeout (s : ws) : ws :=
  let c := closing s in
  if closed c || close_timer_closed c || negb (close_timer c) || close_timeout_active c then s
  else
    record (eff_timer_start (close_timeout (options s)))
      (set_closing (Closing (closed c) (close_sent c) true (close_timer c) (close_timer_closed c) (keep_alive c)
         (stream_on_close c)) s).

Definition stop_close_timeout (s : ws) : ws :=
  let c := closing s in
  let s := set_closing (Closing (closed c) (close_sent c) false (close_timer c) (close_timer_closed c) (keep_alive c)
    (stream_on_close c)) s in
  if negb (close_timer c) || close_timer_closed c then s else record eff_timer_stop s.

(** The timer's own close callback only drops [keep_alive]. *)
Definition close_timer_handle (s : ws) : ws :=
  let c := closing s in
  if negb (close_timer c) || close_timer_closed c then
    set_closing (Closing (closed c) (close_sent c) (close_timeout_active c) (close_timer c) (close_timer_closed c) false
      (stream_on_close c)) s
  else
    let s := stop_close_timeout s in
    let c := closing s in
    record eff_timer_close
      (set_closing (Closing (closed c) (close_sent c) (close_timeout_active c) false true (keep_alive c)
         (stream_on_close c)) s).

Definition mark_close_sent (s : ws) : ws :=
  let c := closing s in
  set_closing (Closing (closed c) true (close_timeout_active c) (close_timer c) (close_timer_closed c) (keep_alive c)
    (stream_on_close c)) s.

Definition compact_read_buffer (s : ws) : ws :=
  let i := input s in
  let size := length (read_buffer i) in
  if (read_offset i =? 0)%nat then s
  else if (read_offset i =? size)%nat then set_input (Input [] 0) s
  else if (Z.of_nat (read_offset i) <? 4096) && (read_offset i <=? size / 2)%nat then s
  else set_input (Input (drop (read_offset i) (read_buffer i)) 0) s.

(** What [close_transport] does to an open session before any callback. *)
Definition shut (on_close : option nat) (s : ws) : ws :=
  let c := closing s in
  let s := set_closing (Closing true (close_sent c) false (close_timer c) (close_timer_closed c) (keep_alive c)
    (if stream s then on_close else None)) s in
  let s := set_output (Output [] 0 (writing (output s))) s in
  if stream s then record eff_close_stream (record eff_read_stop s) else s.

(** The close frame of [close] and of the reply to the peer's close. *)
Definition send_close (frame : bytes) (s : ws) : ws :=
  start_close_timeout (queue frame false None (mark_close_sent s)).

Definition close (code : Z) (reason : bytes) (s : ws) : ws :=
  if is_closed s || close_sent (closing s) then s
  else send_close (make_frame op_close (make_close_payload code reason)) s.

(** ** Operations with callbacks *)

Inductive send_kind := send_text | send_binary | send_ping | send_pong.
Definition kind_opcode (k : send_kind) : Z :=
  match k with send_text => op_text | send_binary => op_binary | send_ping => op_ping | send_pong => op_pong end.

(** What a callback can call on the session or the byte stream; [cmd_release]
    is the destructor of a session that owns its state. *)
Inductive cmd :=
| cmd_send (kind : send_kind) (payload : bytes)
| cmd_close (code : Z) (reason : bytes)
| cmd_into_byte_stream
| cmd_byte_read_start
| cmd_byte_read_stop
| cmd_byte_write (payload : bytes) (id : nat)
| cmd_byte_close (id : nat)
| cmd_release.

Section callbacks.
(** Making one callback and running what it calls. *)
Context (emit : ws_event → ws → ws).

Definition notify_error (error : ws_error) (s : ws) : ws := emit (ev_error error) s.

Definition close_with_error (code : Z) (error : ws_error) (s : ws) : ws := close code [] (notify_error error s).

Definition notify_written (on_write : option nat) (error : option ws_error) (s : ws) : ws :=
  match on_write with Some id => emit (ev_written id error) s | None => s end.

Definition send_frame (code : Z) (payload : bytes) (on_write : option nat) (s : ws) : ws :=
  if is_closed s || negb (stream s) then notify_written on_write (Some err_not_connected) s
  else if max_pending_write_bytes (options s) <? pending_write_bytes (output s) + size payload then
    close_with_error close_internal_error err_would_block (notify_written on_write (Some err_would_block) s)
  else queue (make_frame code payload) false on_write s.

(** [on_close] runs at once when there is no stream to close, else when the
    stream reports that it is closed. *)
Definition close_transport (on_close : option nat) (s : ws) : ws :=
  let call s := match on_close with Some id => emit (ev_closed id) s | None => s end in
  if is_closed s then call s
  else
    let s := shut on_close s in
    if stream s then s else close_timer_handle (call s).

Definition fail (error : ws_error) (s : ws) : ws :=
  let s := notify_error error s in
  let s := if byte_read (byte_side s) then emit (ev_bytes_error error) s else s in
  close_transport None s.

Definition dispatch_message (data_opcode : Z) (payload : bytes) (s : ws) : ws :=
  if byte_mode (byte_side s) then
    if negb (data_opcode =? op_binary) then close_with_error close_protocol_error err_protocol s
    else if byte_read (byte_side s) then emit (ev_bytes payload) s
    else s
  else if data_opcode =? op_text then emit (ev_text payload) s
  else emit (ev_binary payload) s.

Definition dispatch_ping (payload : bytes) (s : ws) : ws :=
  let s := emit (ev_ping payload) s in
  if auto_pong (options s) then send_frame op_pong payload None s else s.

Definition dispatch_pong (payload : bytes) (s : ws) : ws := emit (ev_pong payload) s.

Definition dispatch_close (payload : bytes) (s : ws) : ws :=
  if is_closed s then s
  else if (length payload =? 1)%nat then close_with_error close_protocol_error err_protocol s
  else
    let raw_code := Z.lor (Z.shiftl (byte_at payload 0) 8) (byte_at payload 1) in
    if (2 <=? length payload)%nat && negb (valid_close_code raw_code) then
      close_with_error close_protocol_error err_protocol s
    else
      let '(code, reason) := if (2 <=? length payload)%nat then (raw_code, drop 2 payload) else (close_normal, []) in
      let s := emit (ev_close code reason) s in
      let s := if byte_read (byte_side s) then emit ev_bytes_eof s else s in
      if negb (close_sent (closing s)) then send_close (make_frame op_close payload) s
      else close_transport None s.

Definition handle_data_frame (fin : bool) (data_opcode : Z) (payload : bytes) (s : ws) : ws :=
  match fragmented_opcode (fragments s) with
  | Some _ => close_with_error close_protocol_error err_protocol s
  | None =>
    if fin then dispatch_message data_opcode payload s
    else set_fragments (Fragment (Some data_opcode) payload) s
  end.

Definition handle_continuation (fin : bool) (payload : bytes) (s : ws) : ws :=
  match fragmented_opcode (fragments s) with
  | None => close_with_error close_protocol_error err_protocol s
  | Some data_opcode =>
    if max_message_bytes (options s) <? size (fragmented_message (fragments s)) + size payload then
      close_with_error close_message_too_large err_message_size s
    else
      let message := fragmented_message (fragments s) ++ payload in
      if negb fin then set_fragments (Fragment (Some data_opcode) message) s
      else dispatch_message data_opcode message (set_fragments (Fragment None []) s)
  end.

Definition handle_frame (fin : bool) (raw_opcode : Z) (payload : bytes) (s : ws) : ws :=
  let control := negb (Z.land raw_opcode 0x08 =? 0) in
  if control && (negb fin || (125 <? size payload)) then close_with_error close_protocol_error err_protocol s
  else if (raw_opcode =? op_text) || (raw_opcode =? op_binary) then handle_data_frame fin raw_opcode payload s
  else if raw_opcode =? op_continuation then handle_continuation fin payload s
  else if raw_opcode =? op_ping then dispatch_ping payload s
  else if raw_opcode =? op_pong then dispatch_pong payload s
  else if raw_opcode =? op_close then dispatch_close payload s
  else close_with_error close_protocol_error err_protocol s.

(** The loop; every round that goes on takes a frame off the buffer. *)
Fixpoint parse_loop (fuel : nat) (s : ws) : ws :=
  match fuel with
  | O => s
  | S fuel' =>
    if is_closed s then s
    else
      match read_frame (max_message_bytes (options s)) (read_buffer (input s)) (read_offset (input s)) with
      | need_more true => compact_read_buffer s
      | need_more false => s
      | bad_frame code error => close_with_error code error s
      | frame fin raw_opcode payload new_offset =>
        parse_loop fuel' (handle_frame fin raw_opcode payload
          (compact_read_buffer (set_input (Input (read_buffer (input s)) new_offset) s)))
      end
  end.

Definition parse_frames (s : ws) : ws :=
  parse_loop (S (length (read_buffer (input s)) - read_offset (input s))) s.

Definition append_input (data : bytes) (s : ws) : ws :=
  set_input (Input (read_buffer (input s) ++ data) (read_offset (input s))) s.

Definition read_start (s : ws) : ws := if is_closed s || negb (stream s) then s else record eff_read_start s.

Definition start (extra_bytes : bytes) (detached : bool) (s : ws) : ws :=
  if is_closed s then record eff_close_stream s
  else
    let c := closing s in
    let s := set_stream (set_closing (Closing (closed c) (close_sent c) (close_timeout_active c) true
      (close_timer_closed c) (if detached then true else keep_alive c) (stream_on_close c)) s) in
    read_start (match extra_bytes with [] => s | _ => parse_frames (append_input extra_bytes s) end).

Inductive read_result := read_eof | read_failed (error : ws_error) | read_data (data : bytes).

Definition on_read (result : read_result) (s : ws) : ws :=
  if is_closed s then s
  else
    match result with
    | read_eof => if close_sent (closing s) then close_transport None s else fail err_not_connected s
    | read_failed error => fail error s
    | read_data data => parse_frames (append_input data s)
    end.

(** The completion of the write of the front of the queue. *)
Definition on_write (error : option ws_error) (s : ws) : ws :=
  let s := set_output (Output (writes (output s)) (pending_write_bytes (output s)) false) s in
  if is_closed s then s
  else
    match error with
    | Some e =>
      let s := match writes (output s) with
               | front :: _ => notify_written (pw_on_write front) (Some e) s
               | [] => s
               end in
      fail e s
    | None =>
      match writes (output s) with
      | [] => flush_next s
      | front :: rest =>
        let pending := pending_write_bytes (output s) in
        let s := set_output (Output rest (pending - Z.min pending (size (pw_payload front))) (writing (output s))) s in
        let s := notify_written (pw_on_write front) None s in
        if pw_close_after front then close_transport None s else flush_next s
      end
    end.

Definition on_close_timeout (s : ws) : ws :=
  let c := closing s in
  if closed c || negb (close_timeout_active c) then s
  else
    close_transport None
      (set_closing (Closing (closed c) (close_sent c) false (close_timer c) (close_timer_closed c) (keep_alive c)
         (stream_on_close c)) s).

(** The callback that [close_transport] gives to the stream. *)
Definition on_stream_closed (s : ws) : ws :=
  let c := closing s in
  let s := set_closing (Closing (closed c) (close_sent c) (close_timeout_active c) (close_timer c)
    (close_timer_closed c) (keep_alive c) None) s in
  close_timer_handle (match stream_on_close c with Some id => emit (ev_closed id) s | None => s end).

Definition run_cmd (s : ws) (c : cmd) : ws :=
  match c with
  | cmd_send kind payload => send_frame (kind_opcode kind) payload None s
  | cmd_close code reason => close code reason s
  | cmd_into_byte_stream => set_bytes (ByteState true (byte_read (byte_side s))) s
  | cmd_byte_read_start => set_bytes (ByteState (byte_mode (byte_side s)) true) s
  | cmd_byte_read_stop => set_bytes (ByteState (byte_mode (byte_side s)) false) s
  | cmd_byte_write payload id =>
    if is_closed s then emit (ev_written id (Some err_not_connected)) s
    else send_frame op_binary payload (Some id) s
  | cmd_byte_close id => close_transport (Some id) s
  | cmd_release => close_transport None s
  end.
End callbacks.

Section session.
(** The user: the calls that a callback makes, given the history. *)
Context (user : list effect → ws_event → list cmd).

(** Callbacks nested deeper than [depth] make no calls. *)
Fixpoint emit (depth : nat) (e : ws_event) (s : ws) : ws :=
  let s := record (eff_event e) s in
  match depth with
  | O => s
  | S depth' => foldl (run_cmd (emit depth')) s (user (history s) e)
  end.

(** Everything that happens to a session from outside its callbacks. *)
Inductive ws_input :=
| in_start (extra_bytes : bytes) (detached : bool)
| in_read (result : read_result)
| in_write_done (error : option ws_error)
| in_close_timeout
| in_stream_closed
| in_call (c : cmd).

Definition ws_step (depth : nat) (s : ws) (i : ws_input) : ws :=
  match i with
  | in_start extra detached => start (emit depth) extra detached s
  | in_read result => on_read (emit depth) result s
  | in_write_done error => on_write (emit depth) error s
  | in_close_timeout => on_close_timeout (emit depth) s
  | in_stream_closed => on_stream_closed (emit depth) s
  | in_call c => run_cmd (emit depth) s c
  end.

Definition ws_run (depth : nat) (s : ws) (inputs : list ws_input) : ws := foldl (ws_step depth) s inputs.
End session.
