(* ===== verification/WsTheory.v ===== *)
(** * Invariants of the WebSocket session

    A property of sessions that the few primitive state changes preserve is
    preserved by every operation, whatever user callbacks do and however they
    nest ([lift]); the invariants of the session are instances. *)

From S2P Require Import Prelude Text WsFrame WsSession.

Open Scope Z_scope.

(** The bounds on what reaches the user, and on a message being assembled. *)
Definition event_ok (o : accept_options) (e : ws_event) : Prop :=
  match e with
  | ev_text p | ev_binary p | ev_bytes p => size p ≤ max_message_bytes o
  | ev_ping p | ev_pong p => size p ≤ 125
  | _ => True
  end.

Definition fragment_ok (o : accept_options) (f : fragment_state) : Prop :=
  match fragmented_opcode f with
  | Some op => (op = op_text ∨ op = op_binary) ∧ size (fragmented_message f) ≤ max_message_bytes o
  | None => True
  end.

Definition is_close_frame (frame : bytes) : bool := match frame with b :: _ => b =? 0x88 | [] => false end.

(** What the environment may do in a state: a write completes when one is in
    flight, the stream reports that it is closed after it was closed, a session
    starts once. *)
Definition enabled (s : ws) (i : ws_input) : Prop :=
  match i with
  | in_start _ _ => stream s = false
  | in_write_done _ => writing (output s) = true
  | in_stream_closed => is_closed s = true
  | _ => True
  end.

Definition no_write_error (i : ws_input) : Prop := match i with in_write_done (Some _) => False | _ => True end.

(** ** Lifting *)

Section lift.
Context (o : accept_options) (P : ws → Prop).

(** The primitive changes. *)
Record preserved : Prop := {
  pr_options : ∀ s, P s → options s = o;
  pr_fragments : ∀ s, P s → fragment_ok o (fragments s);
  pr_event : ∀ e s, event_ok o e → P s → P (record (eff_event e) s);
  pr_send : ∀ kind payload id s, is_closed s = false → stream s = true →
    pending_write_bytes (output s) + size payload ≤ max_pending_write_bytes o → P s →
    P (queue (make_frame (kind_opcode kind) payload) false id s);
  pr_close : ∀ frame s, close_sent (closing s) = false → is_close_frame frame = true → P s → P (send_close frame s);
  pr_shut : ∀ on_close s, is_closed s = false → P s → P (shut on_close s);
  pr_timer : ∀ s, is_closed s = true → P s → P (close_timer_handle s);
  pr_bytes : ∀ b s, P s → P (set_bytes b s);
  pr_fragment : ∀ f s, fragment_ok o f → P s → P (set_fragments f s);
  pr_input : ∀ i s, P s → P (set_input i s);
  pr_read_start : ∀ s, P s → P (record eff_read_start s);
  pr_flush : ∀ s, P s → P (flush_next s);
  pr_start_closed : ∀ s, is_closed s = true → P s → P (record eff_close_stream s);
  pr_start : ∀ detached s, is_closed s = false → stream s = false → P s →
    P (set_stream (set_closing (Closing (is_closed s) (close_sent (closing s)) (close_timeout_active (closing s)) true
      (close_timer_closed (closing s)) detached (stream_on_close (closing s))) s));
  pr_write_closed : ∀ s, is_closed s = true → P s →
    P (set_output (Output (writes (output s)) (pending_write_bytes (output s)) false) s);
  pr_write_done : ∀ s front rest, is_closed s = false → writing (output s) = true → writes (output s) = front :: rest → P s →
    P (set_output (Output rest (pending_write_bytes (output s) -
         Z.min (pending_write_bytes (output s)) (size (pw_payload front))) false) s);
  pr_write_empty : ∀ s, is_closed s = false → writing (output s) = true → writes (output s) = [] → P s → False;
  pr_stream_closed : ∀ s, is_closed s = true → P s →
    P (set_closing (Closing (is_closed s) (close_sent (closing s)) (close_timeout_active (closing s))
      (close_timer (closing s)) (close_timer_closed (closing s)) (keep_alive (closing s)) None) s)
}.

(** What a callback preserves: [P], and that a closed session stays closed. *)
Definition keeps (f : ws → ws) : Prop := ∀ s, P s → P (f s) ∧ (is_closed s = true → is_closed (f s) = true).
Definition emit_ok (emit : ws_event → ws → ws) : Prop := ∀ e, event_ok o e → keeps (emit e).

Lemma keeps_compose f g : keeps f → keeps g → keeps (λ s, g (f s)).
Proof. intros Hf Hg s Hs. destruct (Hf s Hs) as [H1 H2]. destruct (Hg _ H1) as [H3 H4]. auto. Qed.

Lemma keeps_id : keeps id.
Proof. by intros s. Qed.

Context (HP : preserved).

Lemma is_closed_flush s : is_closed (flush_next s) = is_closed s.
Proof.
  unfold flush_next. destruct (is_closed s || _); [done|]. destruct (writes (output s)); [done|]. by destruct (stream s).
Qed.

Lemma is_closed_queue frame c id s : is_closed (queue frame c id s) = is_closed s.
Proof. unfold queue. by rewrite is_closed_flush. Qed.

Lemma is_closed_start_timeout s : is_closed (start_close_timeout s) = is_closed s.
Proof. unfold start_close_timeout. by destruct (_ || _). Qed.

Lemma is_closed_send_close frame s : is_closed (send_close frame s) = is_closed s.
Proof. unfold send_close. by rewrite is_closed_start_timeout, is_closed_queue. Qed.

Lemma is_closed_timer_handle s : is_closed (close_timer_handle s) = is_closed s.
Proof.
  unfold close_timer_handle, stop_close_timeout.
  cbn. by destruct (close_timer (closing s)), (close_timer_closed (closing s)).
Qed.

Lemma close_frame_is_close code reason : is_close_frame (make_frame op_close (make_close_payload code reason)) = true.
Proof. done. Qed.

Lemma close_keeps code reason : keeps (close code reason).
Proof.
  intros s Hs. unfold close. destruct (is_closed s) eqn:Hc; cbn [orb]; [by rewrite Hc|].
  destruct (close_sent (closing s)) eqn:Hcs; [done|]. split; [by apply (pr_close HP)|done].
Qed.

Lemma compact_keeps : keeps compact_read_buffer.
Proof.
  intros s Hs. unfold compact_read_buffer. repeat case_match; (split; [|done]); try done; by apply (pr_input HP).
Qed.

Section ops.
Context (emit : ws_event → ws → ws) (Hemit : emit_ok emit).

Lemma close_with_error_keeps code err : keeps (close_with_error emit code err).
Proof. apply (keeps_compose (emit (ev_error err))); [by apply Hemit|apply close_keeps]. Qed.

Lemma notify_written_keeps id err : keeps (notify_written emit id err).
Proof. destruct id; [by apply Hemit|apply keeps_id]. Qed.

Lemma send_frame_keeps kind payload id : keeps (send_frame emit (kind_opcode kind) payload id).
Proof.
  intros s Hs. unfold send_frame. destruct (is_closed s) eqn:Hc; cbn [orb].
  { destruct (notify_written_keeps id (Some err_not_connected) s Hs). auto. }
  destruct (stream s) eqn:Hst; cbn [negb]; [|split; [by apply notify_written_keeps|done]].
  rewrite (pr_options HP s Hs). destruct (Z.ltb_spec (max_pending_write_bytes o) (pending_write_bytes (output s) + size payload)).
  - split; [|done]. apply close_with_error_keeps. by apply notify_written_keeps.
  - split; [by apply (pr_send HP)|done].
Qed.

Lemma close_transport_keeps id : keeps (close_transport emit id).
Proof.
  intros s Hs. unfold close_transport. destruct (is_closed s) eqn:Hc.
  { destruct id as [id|]; [|done]. destruct (Hemit (ev_closed id) I s Hs). auto. }
  pose proof (pr_shut HP id s Hc Hs) as H1.
  assert (Hcl : is_closed (shut id s) = true) by (unfold shut; cbn; by destruct (stream s)).
  destruct (stream (shut id s)); [done|]. rewrite is_closed_timer_handle.
  destruct id as [id|].
  - destruct (Hemit (ev_closed id) I _ H1) as [H2 H3]. split; [|auto]. apply (pr_timer HP); auto.
  - split; [|done]. by apply (pr_timer HP).
Qed.

Lemma emit_if_keeps (b : ws → bool) e : event_ok o e → keeps (λ s, if b s then emit e s else s).
Proof. intros He s Hs. destruct (b s); [by apply Hemit|done]. Qed.

Lemma fail_keeps err : keeps (fail emit err).
Proof.
  apply (keeps_compose (notify_error emit err) (λ s, close_transport emit None
    (if byte_read (byte_side s) then emit (ev_bytes_error err) s else s))); [by apply Hemit|].
  apply (keeps_compose (λ s, if byte_read (byte_side s) then emit (ev_bytes_error err) s else s));
    [by apply (emit_if_keeps (λ s, byte_read (byte_side s)))|apply close_transport_keeps].
Qed.

Lemma dispatch_message_keeps op payload :
  size payload ≤ max_message_bytes o → keeps (dispatch_message emit op payload).
Proof.
  intros Hp s Hs. unfold dispatch_message. destruct (byte_mode (byte_side s)).
  - destruct (negb (op =? op_binary)); [by apply close_with_error_keeps|]. by apply (emit_if_keeps (λ s, byte_read (byte_side s))).
  - by destruct (op =? op_text); apply Hemit.
Qed.

Lemma dispatch_ping_keeps payload : size payload ≤ 125 → keeps (dispatch_ping emit payload).
Proof.
  intros Hp. apply (keeps_compose (emit (ev_ping payload))
    (λ s, if auto_pong (options s) then send_frame emit op_pong payload None s else s)); [by apply Hemit|].
  intros s Hs. destruct (auto_pong (options s)); [|done]. by apply (send_frame_keeps send_pong).
Qed.

Lemma dispatch_close_keeps payload : keeps (dispatch_close emit payload).
Proof.
  intros s Hs. unfold dispatch_close. destruct (is_closed s) eqn:Hc; [by rewrite Hc|].
  destruct (length payload =? 1)%nat; [split; [by apply close_with_error_keeps|done]|].
  destruct (_ && _); [split; [by apply close_with_error_keeps|done]|].
  destruct (if (2 <=? length payload)%nat then _ else _) as [code reason].
  split; [|done].
  destruct (Hemit (ev_close code reason) I s Hs) as [H1 _]. set (s1 := emit _ s) in *.
  destruct (emit_if_keeps (λ s, byte_read (byte_side s)) ev_bytes_eof I s1 H1) as [H2 _]. cbn in H2. set (s2 := if byte_read _ then _ else _) in *.
  destruct (close_sent (closing s2)) eqn:E; cbn [negb]; [by apply close_transport_keeps|].
  by apply (pr_close HP).
Qed.

Lemma handle_data_frame_keeps fin op payload :
  (op = op_text ∨ op = op_binary) → size payload ≤ max_message_bytes o → keeps (handle_data_frame emit fin op payload).
Proof.
  intros Hop Hp s Hs. unfold handle_data_frame. destruct (fragmented_opcode (fragments s)); [by apply close_with_error_keeps|].
  destruct fin; [by apply dispatch_message_keeps|]. split; [|done]. by apply (pr_fragment HP).
Qed.

Lemma handle_continuation_keeps fin payload : keeps (handle_continuation emit fin payload).
Proof.
  intros s Hs. unfold handle_continuation. pose proof (pr_fragments HP s Hs) as Hf. unfold fragment_ok in Hf.
  destruct (fragmented_opcode (fragments s)) as [op|]; [|by apply close_with_error_keeps].
  rewrite (pr_options HP s Hs). destruct (Z.ltb_spec (max_message_bytes o) (size (fragmented_message (fragments s)) + size payload));
    [by apply close_with_error_keeps|].
  assert (Hm : size (fragmented_message (fragments s) ++ payload) ≤ max_message_bytes o).
  { unfold size in *. rewrite length_app. lia. }
  destruct fin; cbn [negb].
  - apply (keeps_compose (set_fragments (Fragment None []))); [|by apply dispatch_message_keeps|done].
    intros s' Hs'. split; [|done]. by apply (pr_fragment HP).
  - split; [|done]. apply (pr_fragment HP); [|done]. unfold fragment_ok. cbn. tauto.
Qed.

Lemma handle_frame_keeps fin op payload : size payload ≤ max_message_bytes o → keeps (handle_frame emit fin op payload).
Proof.
  intros Hp s Hs. unfold handle_frame.
  destruct (negb (Z.land op 8 =? 0)) eqn:Hctl; cbn [andb].
  2:{ destruct ((op =? op_text) || (op =? op_binary)) eqn:Hop.
      { apply handle_data_frame_keeps; [|done..]. apply orb_true_iff in Hop as [->%Z.eqb_eq| ->%Z.eqb_eq]; auto. }
      destruct (op =? op_continuation); [by apply handle_continuation_keeps|].
      destruct (Z.eqb_spec op op_ping) as [->|]; [by cbn in Hctl|].
      destruct (Z.eqb_spec op op_pong) as [->|]; [by cbn in Hctl|].
      destruct (op =? op_close); [by apply dispatch_close_keeps|by apply close_with_error_keeps]. }
  destruct (negb fin || (125 <? size payload)) eqn:H125; [by apply close_with_error_keeps|].
  apply orb_false_iff in H125 as [_ H125]. apply Z.ltb_ge in H125.
  destruct ((op =? op_text) || (op =? op_binary)) eqn:Hop.
  { apply handle_data_frame_keeps; [|done..]. apply orb_true_iff in Hop as [->%Z.eqb_eq| ->%Z.eqb_eq]; auto. }
  destruct (op =? op_continuation); [by apply handle_continuation_keeps|].
  destruct (op =? op_ping); [by apply dispatch_ping_keeps|].
  destruct (op =? op_pong); [by apply Hemit|].
  destruct (op =? op_close); [by apply dispatch_close_keeps|by apply close_with_error_keeps].
Qed.

Lemma read_frame_bound max buffer offset fin op payload offset' :
  0 ≤ max → read_frame max buffer offset = frame fin op payload offset' → size payload ≤ max.
Proof.
  intros Hm. unfold read_frame. destruct (_ <? 2)%nat; [done|]. destruct (_ || _); [done|].
  destruct (read_length _ _ _) as [[len off]|]; [|done]. destruct (_ <? len); cbn [orb]; [done|].
  destruct (Z.ltb_spec max len); [done|]. destruct (_ <? wrap64 _); [done|]. intros [= _ _ <- _].
  unfold size. rewrite length_unmask, length_take. lia.
Qed.

Lemma parse_loop_keeps fuel : 0 ≤ max_message_bytes o → keeps (parse_loop emit fuel).
Proof.
  intros Hmax. induction fuel as [|fuel IH]; [apply keeps_id|]. intros s Hs. cbn [parse_loop].
  destruct (is_closed s) eqn:Hc; [by rewrite Hc|]. split; [|done]. rewrite (pr_options HP s Hs).
  destruct (read_frame _ _ _) as [[]|code err|fin op payload off] eqn:E.
  - by apply compact_keeps.
  - done.
  - by apply close_with_error_keeps.
  - apply read_frame_bound in E; [|done]. apply IH, handle_frame_keeps; [done|]. apply compact_keeps. by apply (pr_input HP).
Qed.

Lemma run_cmd_keeps c : keeps (λ s, run_cmd emit s c).
Proof.
  destruct c as [kind payload|code reason| | | |payload id|id|]; cbn [run_cmd].
  - apply send_frame_keeps.
  - apply close_keeps.
  - intros s Hs. split; [by apply (pr_bytes HP)|done].
  - intros s Hs. split; [by apply (pr_bytes HP)|done].
  - intros s Hs. split; [by apply (pr_bytes HP)|done].
  - intros s Hs. destruct (is_closed s) eqn:Hc.
    + destruct (Hemit (ev_written id (Some err_not_connected)) I s Hs). auto.
    + split; [by apply (send_frame_keeps send_binary)|done].
  - apply close_transport_keeps.
  - apply close_transport_keeps.
Qed.
End ops.

Lemma emit_keeps user depth : emit_ok (emit user depth).
Proof.
  induction depth as [|depth IH]; intros e He s Hs; cbn [emit].
  { split; [by apply (pr_event HP)|done]. }
  assert (Hfold : ∀ cmds, keeps (λ s, foldl (run_cmd (emit user depth)) s cmds)).
  { induction cmds as [|c cmds IHc]; [apply keeps_id|]. cbn [foldl].
    apply (keeps_compose (λ s, run_cmd (emit user depth) s c) (λ s, foldl (run_cmd (emit user depth)) s cmds)); [|done].
    by apply run_cmd_keeps. }
  apply (keeps_compose (record (eff_event e)) (λ s', foldl (run_cmd (emit user depth)) s' _)); [|apply Hfold|done].
  intros s' Hs'. split; [by apply (pr_event HP)|done].
Qed.

(** A completed write that failed, for the properties that survive it. *)
Definition write_failed_ok : Prop := ∀ s, is_closed s = false → writing (output s) = true → P s →
  P (set_output (Output (writes (output s)) (pending_write_bytes (output s)) false) s).

Section step.
Context (user : list effect → ws_event → list cmd) (depth : nat) (Hmax : 0 ≤ max_message_bytes o).
Local Abbreviation em := (emit user depth).

Let Hem : emit_ok em := emit_keeps user depth.

Lemma parse_frames_keeps : keeps (parse_frames em).
Proof. intros s Hs. unfold parse_frames. by apply parse_loop_keeps. Qed.

Lemma start_preserved extra detached s : stream s = false → P s → P (start em extra detached s).
Proof.
  intros Hst Hs. unfold start. destruct (is_closed s) eqn:Hc; [by apply (pr_start_closed HP)|].
  set (s1 := set_stream _). assert (H1 : P s1).
  { unfold s1. unfold is_closed in Hc. rewrite Hc. pose proof (pr_start HP (if detached then true else keep_alive (closing s)) s Hc Hst Hs) as H.
    unfold is_closed in H. by rewrite Hc in H. }
  assert (H2 : P (match extra with [] => s1 | _ => parse_frames em (append_input extra s1) end)).
  { destruct extra; [done|]. apply parse_frames_keeps. by apply (pr_input HP). }
  unfold read_start. destruct (_ || _); [done|]. by apply (pr_read_start HP).
Qed.

Lemma on_read_preserved res s : P s → P (on_read em res s).
Proof.
  intros Hs. unfold on_read. destruct (is_closed s); [done|]. destruct res.
  - destruct (close_sent (closing s)); [by apply (close_transport_keeps em Hem)|by apply (fail_keeps em Hem)].
  - by apply (fail_keeps em Hem).
  - apply parse_frames_keeps. by apply (pr_input HP).
Qed.

Lemma on_write_preserved error s :
  writing (output s) = true → (error ≠ None → write_failed_ok) → P s → P (on_write em error s).
Proof.
  intros Hw Hfailed Hs. unfold on_write.
  change (is_closed (set_output _ s)) with (is_closed s).
  destruct (is_closed s) eqn:Hc; [by apply (pr_write_closed HP)|].
  destruct error as [e|].
  - set (s1 := set_output _ s). assert (H1 : P s1) by by apply Hfailed.
    apply (fail_keeps em Hem). destruct (writes (output s1)); [done|]. by apply (notify_written_keeps em Hem).
  - cbn [output set_output writes pending_write_bytes writing].
    destruct (writes (output s)) as [|front rest] eqn:Hws; [by destruct (pr_write_empty HP s Hc Hw Hws Hs)|].
    pose proof (pr_write_done HP s front rest Hc Hw Hws Hs) as H1.
    set (s1 := set_output (Output rest _ _) _). change (P s1) in H1.
    assert (H2 : P (notify_written em (pw_on_write front) None s1)) by by apply (notify_written_keeps em Hem).
    destruct (pw_close_after front); [by apply (close_transport_keeps em Hem)|by apply (pr_flush HP)].
Qed.

Lemma on_close_timeout_preserved s : P s → P (on_close_timeout em s).
Proof.
  intros Hs. unfold on_close_timeout. destruct (_ || _) eqn:E; [done|]. apply orb_false_iff in E as [Hc _].
  pose proof (close_transport_keeps em Hem None s Hs) as [H _]. unfold close_transport in *. cbn [closing is_closed closed set_closing] in *.
  unfold is_closed in *. cbn. rewrite Hc in *. exact H.
Qed.

Lemma on_stream_closed_preserved s : is_closed s = true → P s → P (on_stream_closed em s).
Proof.
  intros Hc Hs. unfold on_stream_closed. pose proof (pr_stream_closed HP s Hc Hs) as H1. unfold is_closed in H1.
  set (s1 := set_closing _ s) in *. destruct (stream_on_close (closing s)) as [id|].
  - destruct (Hem (ev_closed id) I s1 H1) as [H2 H3]. apply (pr_timer HP); [|done]. by apply H3.
  - by apply (pr_timer HP).
Qed.

Lemma step_preserved s i :
  enabled s i → (no_write_error i ∨ write_failed_ok) → P s → P (ws_step user depth s i).
Proof.
  intros Hen Hwe Hs. destruct i as [extra detached|res|error| | |c]; cbn [ws_step].
  - by apply start_preserved.
  - by apply on_read_preserved.
  - apply on_write_preserved; [done| |done]. intros Hne. destruct Hwe as [Hwe|]; [|done]. by destruct error.
  - by apply on_close_timeout_preserved.
  - by apply on_stream_closed_preserved.
  - by apply (run_cmd_keeps em Hem).
Qed.
End step.
End lift.
