(* ===== verification/WsSpec.v ===== *)
(** * What the WebSocket session guarantees

    Reachable sessions, their invariants as instances of the lifting principle,
    reassembly of fragmented messages, and independence of how the bytes of the
    peer arrive. *)

From S2P Require Import Prelude Text WsFrame WsSession WsTheory.

Open Scope Z_scope.

(** ** Views of a session *)

Definition queued_frames (h : list effect) : list bytes :=
  omap (λ e, match e with eff_queue f => Some f | _ => None end) h.
Definition written_frames (h : list effect) : list bytes :=
  omap (λ e, match e with eff_write f => Some f | _ => None end) h.
Definition events (h : list effect) : list ws_event :=
  omap (λ e, match e with eff_event e => Some e | _ => None end) h.

Definition total_size (fs : list bytes) : Z := foldr (λ f acc, size f + acc) 0 fs.
Definition data_frames (fs : list bytes) : list bytes := filter (λ f, is_close_frame f = false) fs.
Definition close_frames (fs : list bytes) : list bytes := filter (λ f, is_close_frame f = true) fs.

Definition pending_payloads (s : ws) : list bytes := map pw_payload (writes (output s)).

(** The queued frames that were not handed to the stream yet. *)
Definition unsent (s : ws) : list bytes :=
  if writing (output s) then tail (pending_payloads s) else pending_payloads s.

Inductive ws_reachable (user : list effect → ws_event → list cmd) (depth : nat) (ok : ws_input → Prop)
    (s0 : ws) : ws → Prop :=
| wr_init : ws_reachable user depth ok s0 s0
| wr_step s i : ws_reachable user depth ok s0 s → enabled s i → ok i → ws_reachable user depth ok s0 (ws_step user depth s i).

(** ** The invariant *)

Record ws_inv (o : accept_options) (s : ws) : Prop := {
  vi_options : options s = o;
  vi_pending : pending_write_bytes (output s) = total_size (pending_payloads s);
  vi_data : total_size (data_frames (pending_payloads s)) ≤ max_pending_write_bytes o + 10;
  vi_writing : is_closed s = false → writing (output s) = true → writes (output s) ≠ [];
  vi_close_frames : length (close_frames (queued_frames (history s))) = (if close_sent (closing s) then 1 else 0)%nat;
  vi_fragments : fragment_ok o (fragments s);
  vi_events : Forall (event_ok o) (events (history s));
  vi_open : is_closed s = false → (eff_close_stream ∉ history s) ∧ close_timer_closed (closing s) = false;
  vi_quiet : ∀ pre post, history s = pre ++ eff_close_stream :: post → written_frames post = []
}.

Lemma total_size_app a b : total_size (a ++ b) = total_size a + total_size b.
Proof. induction a as [|f a IH]; cbn; [done|]. unfold total_size in *. cbn. lia. Qed.

Lemma total_size_nonneg a : 0 ≤ total_size a.
Proof. induction a as [|f a IH]; cbn; [done|]. unfold total_size, size in *. cbn. lia. Qed.

Lemma data_size_le a : total_size (data_frames a) ≤ total_size a.
Proof.
  unfold data_frames. induction a as [|f a IH]; [done|]. rewrite filter_cons.
  case_decide; cbn; unfold total_size, size in *; cbn in *; lia.
Qed.

Lemma not_in_snoc {A} (x y : A) l : x ∉ l → x ≠ y → x ∉ l ++ [y].
Proof. intros Hl Hne. rewrite elem_of_app, list_elem_of_singleton. tauto. Qed.

(** Recording an effect that is not a write keeps what follows a close
    quiet. *)
Lemma quiet_snoc h e :
  ((∀ pre post, h = pre ++ eff_close_stream :: post → written_frames post = [])) →
  (eff_close_stream ∈ h → written_frames [e] = []) →
  ∀ pre post, h ++ [e] = pre ++ eff_close_stream :: post → written_frames post = [].
Proof.
  intros Hh He pre post Heq. destruct post as [|x post _] using rev_ind; [done|].
  rewrite app_comm_cons, app_assoc in Heq. apply app_inj_tail in Heq as [-> ->].
  unfold written_frames in *. rewrite omap_app. rewrite (Hh _ _ eq_refl).
  apply He. apply elem_of_app. right. by left.
Qed.

Lemma make_frame_data kind payload : is_close_frame (make_frame (kind_opcode kind) payload) = false.
Proof. by destruct kind. Qed.

Lemma size_make_frame op payload : size (make_frame op payload) ≤ size payload + 10.
Proof.
  rewrite make_frame_field. destruct (length_field (Z.of_nat (length payload))) as [len7 ext] eqn:E.
  apply length_field_bound in E as (_ & He & _); [|lia]. unfold size. rewrite !length_app. cbn. lia.
Qed.

(** Recording anything but a queued frame, a write or a closed stream. *)
Lemma inv_record o e s :
  ws_inv o s → queued_frames [e] = [] → written_frames [e] = [] → Forall (event_ok o) (events [e]) →
  (is_closed s = false → e ≠ eff_close_stream) → ws_inv o (record e s).
Proof.
  intros [H1 H2 H3 H4 H5 H6 H7 H8 H9] Hq Hw He Hc. constructor; cbn [record history options output closing fragments];
    [done..| |done| | |].
  - unfold queued_frames in *. by rewrite omap_app, Hq, app_nil_r.
  - unfold events in *. rewrite omap_app. by apply Forall_app.
  - intros Hcl. destruct (H8 Hcl). split; [|done]. apply not_in_snoc; [done|]. by intros <-; destruct (Hc Hcl).
  - apply quiet_snoc; [done|]. done.
Qed.

Lemma inv_flush o s : ws_inv o s → ws_inv o (flush_next s).
Proof.
  intros Hinv. unfold flush_next. destruct (is_closed s) eqn:Hc; cbn [orb]; [done|].
  destruct (writing (output s)) eqn:Hw; [done|]. destruct (writes (output s)) as [|front rest] eqn:Hws; [done|].
  destruct (stream s); cbn [negb]; [|done].
  destruct Hinv as [H1 H2 H3 H4 H5 H6 H7 H8 H9]. rewrite <-Hws.
  constructor; cbn; [done|done|done|by rewrite Hws|..].
  - unfold queued_frames in *. by rewrite omap_app, app_nil_r.
  - done.
  - unfold events in *. by rewrite omap_app, app_nil_r.
  - intros Hcl. destruct (H8 Hcl). split; [|done]. by apply not_in_snoc.
  - apply quiet_snoc; [done|]. intros Hin. by destruct (H8 Hc) as [[] _].
Qed.

Lemma close_frames_snoc fs f : close_frames (fs ++ [f]) = close_frames fs ++ (if is_close_frame f then [f] else []).
Proof. unfold close_frames. rewrite filter_app, filter_cons, filter_nil. destruct (is_close_frame f); by case_decide. Qed.

Lemma data_size_snoc fs f :
  total_size (data_frames (fs ++ [f])) = total_size (data_frames fs) + (if is_close_frame f then 0 else size f).
Proof.
  unfold data_frames. rewrite filter_app, total_size_app, filter_cons, filter_nil.
  destruct (is_close_frame f); case_decide; try done; cbn; lia.
Qed.

(** The state after a frame joined the queue. *)
Lemma inv_enqueue o frame id (sent : bool) s :
  ws_inv o s →
  (if sent then close_sent (closing s) = false ∧ is_close_frame frame = true
   else is_close_frame frame = false ∧ pending_write_bytes (output s) + size frame ≤ max_pending_write_bytes o + 10) →
  let s' := if sent then mark_close_sent s else s in
  ws_inv o (record (eff_queue frame)
    (set_output (Output (writes (output s') ++ [PendingWrite frame id false])
       (pending_write_bytes (output s') + size frame) (writing (output s'))) s')).
Proof.
  intros [H1 H2 H3 H4 H5 H6 H7 H8 H9] Hf s'.
  assert (Ho : output s' = output s) by by unfold s'; destruct sent.
  assert (Hh : history s' = history s) by by unfold s'; destruct sent.
  assert (Hcl : is_closed s' = is_closed s) by by unfold s'; destruct sent.
  constructor; unfold pending_payloads in *; cbn [record set_output output history closing writes pending_write_bytes
    writing options fragments]; rewrite ?Ho, ?Hh, ?map_app; cbn [map pw_payload].
  - by destruct sent.
  - rewrite total_size_app, <-H2. cbn. lia.
  - rewrite data_size_snoc. pose proof (data_size_le (map pw_payload (writes (output s)))).
    destruct sent; destruct Hf as [Hf1 Hf2]; [rewrite Hf2|rewrite Hf1]; lia.
  - intros _ _. by destruct (writes (output s)).
  - unfold queued_frames in *. rewrite omap_app. cbn [omap list_omap]. rewrite close_frames_snoc, length_app, H5.
    unfold s'. destruct sent; destruct Hf as [Hf1 Hf2]; [rewrite Hf1, Hf2|rewrite Hf1]; cbn; [done|]. apply Nat.add_0_r.
  - by destruct sent.
  - unfold events in *. by rewrite omap_app, app_nil_r.
  - intros Hc. change (is_closed s' = false) in Hc. rewrite Hcl in Hc. destruct (H8 Hc) as [Hin Hct].
    split; [by apply not_in_snoc|]. by destruct sent.
  - by apply quiet_snoc.
Qed.

Lemma inv_set_closing o c s :
  ws_inv o s → closed c = is_closed s → close_sent c = close_sent (closing s) →
  (is_closed s = false → close_timer_closed c = close_timer_closed (closing s)) → ws_inv o (set_closing c s).
Proof.
  intros [H1 H2 H3 H4 H5 H6 H7 H8 H9] Hc Hcs Hct.
  assert (Hcl : is_closed (set_closing c s) = is_closed s) by done.
  constructor; rewrite ?Hcl; cbn [set_closing options output closing fragments history]; try done.
  - by rewrite Hcs.
  - intros Hop. destruct (H8 Hop). split; [done|]. by rewrite Hct.
Qed.

Lemma inv_timeout o s : ws_inv o s → ws_inv o (start_close_timeout s).
Proof.
  intros Hinv. unfold start_close_timeout. destruct (_ || _); [done|].
  apply inv_record; [|done|done|by apply Forall_nil|done]. by destruct Hinv.
Qed.

Lemma inv_preserved o : 0 ≤ max_message_bytes o → 0 ≤ max_pending_write_bytes o → preserved o (ws_inv o).
Proof.
  intros Hm Hp. constructor.
  - apply vi_options.
  - apply vi_fragments.
  - intros e s He Hinv. apply inv_record; [done..|by repeat constructor|done].
  - intros kind payload id s Hc Hst Hle Hinv. apply inv_flush, (inv_enqueue o _ id false); [done|].
    pose proof (size_make_frame (kind_opcode kind) payload). split; [apply make_frame_data|lia].
  - intros frame s Hcs Hf Hinv. apply inv_timeout, inv_flush. by apply (inv_enqueue o frame None true).
  - intros id s Hc [H1 H2 H3 H4 H5 H6 H7 H8 H9]. destruct (H8 Hc) as [Hno Hct].
    unfold shut. cbn [stream set_output set_closing].
    destruct (stream s); 
      (constructor; [exact H1|reflexivity|change (0 ≤ max_pending_write_bytes o + 10); lia|discriminate| |exact H6| |discriminate|]; cbn).
    + unfold queued_frames in *. by rewrite !omap_app, !app_nil_r.
    + unfold events in *. by rewrite !omap_app, !app_nil_r.
    + apply quiet_snoc; [|done]. by apply quiet_snoc.
    + done.
    + done.
    + done.
  - intros s Hc Hinv. unfold close_timer_handle, stop_close_timeout. cbn.
    destruct (close_timer (closing s)), (close_timer_closed (closing s)); cbn;
      repeat first [apply inv_record; [|done|done|by apply Forall_nil|done]
        |apply inv_set_closing; [|done|done|unfold is_closed in *; cbn; congruence]]; done.
  - intros b s []. by constructor.
  - intros f s Hf []. by constructor.
  - intros i s []. by constructor.
  - intros s Hinv. by apply inv_record; [|done|done|by apply Forall_nil|].
  - apply inv_flush.
  - intros s Hc Hinv. apply inv_record; [done|done|done|by apply Forall_nil|]. congruence.
  - intros detached s Hc Hst Hinv. by destruct (inv_set_closing o (Closing (is_closed s) (close_sent (closing s))
      (close_timeout_active (closing s)) true (close_timer_closed (closing s)) detached (stream_on_close (closing s))) s Hinv).
  - intros s Hc []. by constructor.
  - intros s front rest Hc Hw Hws [H1 H2 H3 H4 H5 H6 H7 H8 H9]. unfold pending_payloads in *. rewrite Hws in *.
    cbn [map] in *.
    assert (Hsum : total_size (pw_payload front :: map pw_payload rest) =
      size (pw_payload front) + total_size (map pw_payload rest)) by done.
    pose proof (total_size_nonneg (map pw_payload rest)).
    constructor; unfold pending_payloads; cbn [set_output output history closing writes pending_write_bytes
      writing options fragments]; try done.
    + rewrite Z.min_r by lia. lia.
    + unfold data_frames in *. rewrite filter_cons in H3. case_decide; [|done].
      assert (0 ≤ size (pw_payload front)) by (unfold size; lia). unfold total_size in *. cbn in H3. lia.
  - intros s Hc Hw Hws []. by destruct (vi_writing0 Hc Hw).
  - intros s Hc Hinv. by apply inv_set_closing.
Qed.

Lemma inv_write_failed o : write_failed_ok (ws_inv o).
Proof. intros s Hc Hw []. by constructor. Qed.

Lemma init_inv o : 0 ≤ max_pending_write_bytes o → ws_inv o (init o).
Proof.
  intros. constructor; [done|done|change (0 ≤ max_pending_write_bytes o + 10); lia|done|done|done|by apply Forall_nil| |].
  - intros _. split; [apply not_elem_of_nil|done].
  - by intros [|] ? [=].
Qed.

Lemma reachable_inv user depth ok o s :
  0 ≤ max_message_bytes o → 0 ≤ max_pending_write_bytes o → ws_reachable user depth ok (init o) s → ws_inv o s.
Proof.
  intros Hm Hp. induction 1 as [|s i _ IH Hen _]; [by apply init_inv|].
  apply (step_preserved o); [by apply inv_preserved|done|done|right; apply inv_write_failed|done].
Qed.

(** ** First in, first out *)

Record fifo (s : ws) : Prop := {
  ff_open : is_closed s = false → queued_frames (history s) = written_frames (history s) ++ unsent s;
  ff_prefix : ∃ rest, queued_frames (history s) = written_frames (history s) ++ rest
}.

Lemma fifo_same s s' :
  queued_frames (history s') = queued_frames (history s) → written_frames (history s') = written_frames (history s) →
  (is_closed s' = false → is_closed s = false ∧ unsent s' = unsent s) → fifo s → fifo s'.
Proof.
  intros Hq Hw Hu [H1 [rest H2]]. constructor.
  - intros Hc. destruct (Hu Hc) as [Hc' ->]. rewrite Hq, Hw. by apply H1.
  - exists rest. by rewrite Hq, Hw.
Qed.

Lemma queued_snoc h e : queued_frames (h ++ [e]) = queued_frames h ++ queued_frames [e].
Proof. apply omap_app. Qed.

Lemma written_snoc h e : written_frames (h ++ [e]) = written_frames h ++ written_frames [e].
Proof. apply omap_app. Qed.

Lemma fifo_record e s : queued_frames [e] = [] → written_frames [e] = [] → fifo s → fifo (record e s).
Proof.
  intros Hq Hw. apply fifo_same; [..|by intros Hc]; cbn [record history].
  - by rewrite queued_snoc, Hq, app_nil_r.
  - by rewrite written_snoc, Hw, app_nil_r.
Qed.

Lemma fifo_flush s : fifo s → fifo (flush_next s).
Proof.
  intros Hf. unfold flush_next. destruct (is_closed s) eqn:Hc; cbn [orb]; [done|].
  destruct (writing (output s)) eqn:Hw; [done|]. destruct (writes (output s)) as [|front rest] eqn:Hws; [done|].
  destruct (stream s); cbn [negb]; [|done].
  assert (Hq : queued_frames (history s) = written_frames (history s) ++ pw_payload front :: map pw_payload rest).
  { rewrite (ff_open _ Hf Hc). unfold unsent, pending_payloads. by rewrite Hw, Hws. }
  constructor.
  - intros _. unfold unsent, pending_payloads. cbn. rewrite ?Hws. cbn.
    rewrite queued_snoc, written_snoc. cbn. by rewrite app_nil_r, Hq, <-app_assoc.
  - exists (map pw_payload rest). cbn. rewrite queued_snoc, written_snoc. cbn.
    by rewrite app_nil_r, Hq, <-app_assoc.
Qed.

Lemma fifo_enqueue frame id s :
  (is_closed s = false → writing (output s) = true → writes (output s) ≠ []) → fifo s →
  fifo (record (eff_queue frame)
    (set_output (Output (writes (output s) ++ [PendingWrite frame id false])
       (pending_write_bytes (output s) + size frame) (writing (output s))) s)).
Proof.
  intros Hne [H1 [rest H2]].
  constructor; cbn [record history set_output]; rewrite queued_snoc, written_snoc; cbn; rewrite app_nil_r.
  - intros Hc. specialize (H1 Hc). specialize (Hne Hc). rewrite H1, <-app_assoc. f_equal.
    unfold unsent, pending_payloads. cbn. rewrite map_app. cbn.
    destruct (writing (output s)); [|done]. destruct (writes (output s)); [by destruct (Hne eq_refl)|done].
  - exists (rest ++ [frame]). by rewrite H2, <-app_assoc.
Qed.

Lemma fifo_timeout s : fifo s → fifo (start_close_timeout s).
Proof.
  intros Hf. unfold start_close_timeout. destruct (_ || _); [done|]. apply fifo_record; [done|done|].
  by apply (fifo_same s).
Qed.

Definition ordered (o : accept_options) (s : ws) : Prop := ws_inv o s ∧ fifo s.

Lemma ordered_preserved o : 0 ≤ max_message_bytes o → 0 ≤ max_pending_write_bytes o → preserved o (ordered o).
Proof.
  intros Hm Hp. pose proof (inv_preserved o Hm Hp) as HI. constructor; unfold ordered.
  - intros s []. by apply (pr_options _ _ HI).
  - intros s []. by apply (pr_fragments _ _ HI).
  - intros e s He []. split; [by apply (pr_event _ _ HI)|by apply fifo_record].
  - intros kind payload id s Hc Hst Hle [Hi Hff]. split; [by apply (pr_send _ _ HI)|].
    apply fifo_flush, fifo_enqueue; [|done]. exact (vi_writing o s Hi).
  - intros frame s Hcs Hf [Hi Hff]. split; [by apply (pr_close _ _ HI)|].
    apply fifo_timeout, fifo_flush, (fifo_enqueue frame None (mark_close_sent s)); [exact (vi_writing o s Hi)|].
    by apply (fifo_same s).
  - intros id s Hc []. split; [by apply (pr_shut _ _ HI)|]. unfold shut. cbn [stream set_output set_closing].
    destruct (stream s); repeat (apply fifo_record; [done..|]); by apply (fifo_same s).
  - intros s Hc []. split; [by apply (pr_timer _ _ HI)|]. unfold close_timer_handle, stop_close_timeout. cbn.
    destruct (close_timer (closing s)), (close_timer_closed (closing s)); cbn;
      apply (fifo_same s); try done; cbn; by rewrite ?queued_snoc, ?written_snoc, ?app_nil_r.
  - intros b s []. split; [by apply (pr_bytes _ _ HI)|by apply (fifo_same s)].
  - intros f s Hf []. split; [by apply (pr_fragment _ _ HI)|by apply (fifo_same s)].
  - intros i s []. split; [by apply (pr_input _ _ HI)|by apply (fifo_same s)].
  - intros s []. split; [by apply (pr_read_start _ _ HI)|by apply fifo_record].
  - intros s []. split; [by apply (pr_flush _ _ HI)|by apply fifo_flush].
  - intros s Hc []. split; [by apply (pr_start_closed _ _ HI)|by apply fifo_record].
  - intros detached s Hc Hst []. split; [by apply (pr_start _ _ HI)|by apply (fifo_same s)].
  - intros s Hc []. split; [by apply (pr_write_closed _ _ HI)|].
    apply (fifo_same s); [done|done| |done]. intros Hc'. cbn in Hc'. change (is_closed s = false) in Hc'. congruence.
  - intros s front rest Hc Hw Hws []. split; [by apply (pr_write_done _ _ HI)|].
    apply (fifo_same s); [done|done| |done]. intros _. split; [done|]. unfold unsent, pending_payloads. cbn. by rewrite Hw, Hws.
  - intros s Hc Hw Hws []. by apply (pr_write_empty _ _ HI s).
  - intros s Hc []. split; [by apply (pr_stream_closed _ _ HI)|by apply (fifo_same s)].
Qed.

(** ** The close timeout *)

(** A session that was started before it was closed: while a close frame is
    out, the timer runs. *)
Definition timed (o : accept_options) (s : ws) : Prop :=
  ws_inv o s ∧
  (is_closed s = true ∨
   stream s = true ∧ close_timer (closing s) = true ∧ close_timer_closed (closing s) = false ∧
   (close_sent (closing s) = true → close_timeout_active (closing s) = true)).

Lemma closing_flush s : closing (flush_next s) = closing s ∧ stream (flush_next s) = stream s.
Proof.
  unfold flush_next. destruct (is_closed s || _); [done|]. destruct (writes (output s)); [done|].
  by destruct (stream s) eqn:E.
Qed.

Lemma closing_queue frame c id s : closing (queue frame c id s) = closing s ∧ stream (queue frame c id s) = stream s.
Proof. unfold queue. set (s' := record _ _). destruct (closing_flush s') as [-> ->]. done. Qed.

Lemma timed_same o s s' : ws_inv o s' → closing s' = closing s → stream s' = stream s → timed o s → timed o s'.
Proof. intros Hi Hc Hs [_ H]. split; [done|]. unfold is_closed. by rewrite Hc, Hs. Qed.

Lemma timed_preserved o : 0 ≤ max_message_bytes o → 0 ≤ max_pending_write_bytes o → preserved o (timed o).
Proof.
  intros Hm Hp. pose proof (inv_preserved o Hm Hp) as HI. constructor.
  - intros s []. by apply (pr_options _ _ HI).
  - intros s []. by apply (pr_fragments _ _ HI).
  - intros e s He Ht. apply (timed_same o s); [|done..]. apply (pr_event _ _ HI); [done|apply Ht].
  - intros kind payload id s Hc Hst Hle Ht. destruct (closing_queue (make_frame (kind_opcode kind) payload) false id s).
    apply (timed_same o s); [|done..]. apply (pr_send _ _ HI); [done..|apply Ht].
  - intros frame s Hcs Hf [Hi Ht]. split; [by apply (pr_close _ _ HI)|].
    destruct Ht as [Hc|(Hst & Ht & Htc & Ha)]; [left; by rewrite is_closed_send_close|].
    unfold send_close, is_closed. destruct (closing_queue frame false None (mark_close_sent s)) as [Hcq Hsq].
    unfold start_close_timeout. rewrite Hcq. cbn [mark_close_sent set_closing closing closed close_timer_closed close_timer
      close_timeout_active].
    destruct (closed (closing s)) eqn:Hc; cbn [orb]; [left; by rewrite Hcq|].
    rewrite Ht, Htc. cbn [orb negb]. right. destruct (close_timeout_active (closing s)) eqn:E; cbn.
    + rewrite Hcq, Hsq. cbn. auto.
    + rewrite Hsq. cbn. rewrite ?Hcq. cbn. auto.
  - intros id s Hc [Hi _]. split; [by apply (pr_shut _ _ HI)|]. left. unfold shut. cbn [stream set_output set_closing].
    by destruct (stream s).
  - intros s Hc [Hi _]. split; [by apply (pr_timer _ _ HI)|]. left. by rewrite is_closed_timer_handle.
  - intros b s Ht. apply (timed_same o s); [|done..]. apply (pr_bytes _ _ HI), Ht.
  - intros f s Hf Ht. apply (timed_same o s); [|done..]. apply (pr_fragment _ _ HI); [done|apply Ht].
  - intros i s Ht. apply (timed_same o s); [|done..]. apply (pr_input _ _ HI), Ht.
  - intros s Ht. apply (timed_same o s); [|done..]. apply (pr_read_start _ _ HI), Ht.
  - intros s Ht. destruct (closing_flush s). apply (timed_same o s); [|done..]. apply (pr_flush _ _ HI), Ht.
  - intros s Hc Ht. apply (timed_same o s); [|done..]. apply (pr_start_closed _ _ HI); [done|apply Ht].
  - intros detached s Hc Hst [Hi [?|(? & _)]]; congruence.
  - intros s Hc Ht. apply (timed_same o s); [|done..]. apply (pr_write_closed _ _ HI); [done|apply Ht].
  - intros s front rest Hc Hw Hws Ht. apply (timed_same o s); [|done..].
    apply (pr_write_done _ _ HI s front rest); [done..|apply Ht].
  - intros s Hc Hw Hws [Hi _]. by apply (pr_write_empty _ _ HI s).
  - intros s Hc [Hi _]. split; [by apply (pr_stream_closed _ _ HI)|]. left. exact Hc.
Qed.

(** ** Theorems: writing and closing *)

Section theorems.
Context (user : list effect → ws_event → list cmd) (depth : nat) (o : accept_options).

Definition any_input (i : ws_input) : Prop := True.

Lemma reachable_ordered s :
  0 ≤ max_message_bytes o → 0 ≤ max_pending_write_bytes o →
  ws_reachable user depth no_write_error (init o) s → ordered o s.
Proof.
  intros Hm Hp. induction 1 as [|s i _ IH Hen Hok].
  - split; [by apply init_inv|]. constructor; [done|by exists []].
  - apply (step_preserved o); [by apply ordered_preserved|done|done|by left|done].
Qed.

Lemma start_timed s extra detached :
  0 ≤ max_message_bytes o → 0 ≤ max_pending_write_bytes o →
  ws_inv o s → stream s = false → close_sent (closing s) = false →
  timed o (start (emit user depth) extra detached s).
Proof.
  intros Hm Hp Hi Hst Hcs. pose proof (timed_preserved o Hm Hp) as HT. unfold start.
  destruct (is_closed s) eqn:Hc.
  { split; [|by left]. by apply (pr_start_closed _ _ (inv_preserved o Hm Hp)). }
  unfold is_closed in Hc. rewrite Hc.
  set (s1 := set_stream _). assert (H1 : timed o s1).
  { split.
    - pose proof (pr_start _ _ (inv_preserved o Hm Hp) (if detached then true else keep_alive (closing s)) s Hc Hst Hi) as H.
      unfold is_closed in H. by rewrite Hc in H.
    - right. cbn. rewrite Hcs. split_and!; [done|done|by apply (vi_open o s Hi)|done]. }
  assert (H2 : timed o (match extra with [] => s1 | _ => parse_frames (emit user depth) (append_input extra s1) end)).
  { destruct extra; [done|]. apply (parse_frames_keeps o _ HT); [done|]. by apply (pr_input _ _ HT). }
  unfold read_start. destruct (_ || _); [done|]. by apply (pr_read_start _ _ HT).
Qed.

(** C16: The byte count that the back-pressure check uses is exact: in every
    reachable session, whatever the user callbacks do, [pending_write_bytes] is
    the total size of the frames in the queue, and the data and ping frames
    among them never exceed [max_pending_write_bytes] by more than one frame
    header. *)
Theorem ws_write_accounting s
    (Hm : 0 ≤ max_message_bytes o) (Hp : 0 ≤ max_pending_write_bytes o)
    (Hs : ws_reachable user depth any_input (init o) s) :
  pending_write_bytes (output s) = total_size (map pw_payload (writes (output s))) ∧
  total_size (data_frames (map pw_payload (writes (output s)))) ≤ max_pending_write_bytes o + 10.
Proof. destruct (reachable_inv _ _ _ _ _ Hm Hp Hs). done. Qed.

(** A session sends at most one close frame in its life, exactly when
    [close_sent] says so, and after it closed its stream it never writes to it
    again. *)
Theorem ws_close_once s
    (Hm : 0 ≤ max_message_bytes o) (Hp : 0 ≤ max_pending_write_bytes o)
    (Hs : ws_reachable user depth any_input (init o) s) :
  length (close_frames (queued_frames (history s))) = (if close_sent (closing s) then 1 else 0)%nat ∧
  (∀ pre post, history s = pre ++ eff_close_stream :: post → written_frames post = []) ∧
  (is_closed s = false → eff_close_stream ∉ history s).
Proof.
  destruct (reachable_inv _ _ _ _ _ Hm Hp Hs) as [_ _ _ _ H5 _ _ H8 H9].
  split_and!; [done|done|]. intros Hc. by destruct (H8 Hc).
Qed.


(** As long as no write fails, frames reach the stream in the order they
    were queued, each once: what was written is a prefix of what was queued,
    and while the session is open the rest is exactly what still waits. *)
Theorem ws_fifo s
    (Hm : 0 ≤ max_message_bytes o) (Hp : 0 ≤ max_pending_write_bytes o)
    (Hs : ws_reachable user depth no_write_error (init o) s) :
  (∃ rest, queued_frames (history s) = written_frames (history s) ++ rest) ∧
  (is_closed s = false → queued_frames (history s) = written_frames (history s) ++ unsent s).
Proof. destruct (reachable_ordered s Hm Hp Hs) as [_ [H1 H2]]. done. Qed.

(** C21: A session that had not been told to close when it was started cannot stay
    open once it has sent its close frame: either it is closed, or the close
    timeout is running, and when that fires the stream is closed.  A session that
    was told to close before it was started may stay open for ever
    ([close_before_start_is_lost] below). *)
Theorem ws_close_progress s0 extra detached s
    (Hm : 0 ≤ max_message_bytes o) (Hp : 0 ≤ max_pending_write_bytes o)
    (Hs0 : ws_reachable user depth any_input (init o) s0)
    (Hfresh : stream s0 = false ∧ close_sent (closing s0) = false)
    (Hs : ws_reachable user depth any_input (ws_step user depth s0 (in_start extra detached)) s)
    (Hclose : close_sent (closing s) = true) :
  (is_closed s = true ∨ close_timeout_active (closing s) = true) ∧
  is_closed (ws_step user depth s in_close_timeout) = true.
Proof.
  destruct Hfresh as [Hst Hcs].
  assert (Ht : timed o s).
  { clear Hclose. induction Hs as [|s i _ IH Hen _].
    - apply start_timed; [done|done|by eapply reachable_inv|done|done].
    - apply (step_preserved o); [by apply timed_preserved|done|done| |done].
      right. intros s' Hc Hw Ht. apply (timed_same o s'); [|done..]. apply inv_write_failed; [done..|apply Ht]. }
  destruct Ht as [_ Ht]. cbn [ws_step]. unfold on_close_timeout, is_closed in *.
  destruct (closed (closing s)) eqn:Hc; cbn [orb]; [by split; [left|]|].
  destruct Ht as [?|(Hstream & _ & _ & Ha)]; [done|]. rewrite (Ha Hclose). cbn [negb]. split; [by right|].
  unfold close_transport, is_closed. cbn. unfold shut. cbn. rewrite Hstream. cbn. by rewrite Hstream.
Qed.
End theorems.

(** ** Witnesses

    A user that answers every text message with one of its own, and closes
    when it gets a ping. *)

Module Sample.
Definition opts : accept_options := AcceptOptions 1000 100 5000 true.
Definition user (h : list effect) (e : ws_event) : list cmd :=
  match e with
  | ev_text p => [cmd_send send_text (p ++ p)]
  | ev_ping _ => [cmd_close close_normal []]
  | _ => []
  end.
Definition mask : bytes := [1; 2; 3; 4].
Definition inputs : list ws_input :=
  [in_start (client_frame true op_text mask [104; 105]) false;
   in_write_done None;
   in_read (read_data (client_frame true op_ping mask []))].
Definition final : ws := ws_run user 3 (init opts) inputs.

Lemma reached ok : (∀ i, no_write_error i → ok i) → ws_reachable user 3 ok (init opts) final.
Proof.
  intros Hok. unfold final, ws_run, inputs. cbn [foldl].
  repeat (apply wr_step; [|vm_compute; exact I || reflexivity|by apply Hok]). constructor.
Qed.

Definition started : ws := ws_step user 3 (init opts) (in_start [] false).
End Sample.

Lemma ws_write_accounting_witness :
  pending_write_bytes (output Sample.final) = total_size (map pw_payload (writes (output Sample.final))).
Proof.
  apply (ws_write_accounting Sample.user 3 Sample.opts); [vm_compute; discriminate|vm_compute; discriminate|].
  by apply Sample.reached.
Defined.

Lemma ws_close_once_witness :
  close_sent (closing Sample.final) = true ∧ length (close_frames (queued_frames (history Sample.final))) = 1%nat.
Proof.
  split; [vm_compute; reflexivity|].
  apply (ws_close_once Sample.user 3 Sample.opts); [vm_compute; discriminate|vm_compute; discriminate|].
  by apply Sample.reached.
Defined.


Lemma ws_fifo_witness :
  queued_frames (history Sample.final) = written_frames (history Sample.final) ++ unsent Sample.final.
Proof.
  apply (ws_fifo Sample.user 3 Sample.opts); [vm_compute; discriminate|vm_compute; discriminate| |vm_compute; reflexivity].
  by apply Sample.reached.
Defined.

Lemma ws_close_progress_witness :
  is_closed (ws_step Sample.user 3 (ws_step Sample.user 3 Sample.started (in_call (cmd_close close_normal [])))
    in_close_timeout) = true.
Proof.
  apply (ws_close_progress Sample.user 3 Sample.opts (init Sample.opts) [] false);
    [vm_compute; discriminate|vm_compute; discriminate|constructor|vm_compute; split; reflexivity| |vm_compute; reflexivity].
  apply wr_step; [constructor|exact I|exact I].
Defined.

(** A close before the stream is there is never sent: the frame waits in the
    queue, no timeout is started, and closing again does nothing. *)
Example close_before_start_is_lost :
  let s := ws_run Sample.user 3 (init Sample.opts)
    [in_call (cmd_close close_normal []); in_start [] false; in_call (cmd_close close_normal []); in_close_timeout] in
  written_frames (history s) = [] ∧ length (writes (output s)) = 1%nat ∧ close_sent (closing s) = true ∧
  is_closed s = false ∧ close_timeout_active (closing s) = false.
Proof. vm_compute. done. Qed.

(** An error callback that sends while the queue is full is called again for
    its own send, as deep as the stack goes. *)
Example overload_error_recursion :
  let user h e := match e with ev_error _ => [cmd_send send_text (replicate 200 0)] | _ => [] end in
  let s := ws_run user 20 (init Sample.opts) [in_start [] false; in_call (cmd_send send_text (replicate 200 0))] in
  length (events (history s)) = 21%nat.
Proof. vm_compute. done. Qed.

(** After a bad frame the loop returns without dropping it, so the error is
    reported again for every read that follows. *)
Example bad_frame_reported_again :
  let s := ws_run Sample.user 3 (init Sample.opts)
    [in_start [] false; in_read (read_data [0xff; 0x80]); in_read (read_data [0]); in_read (read_data [0])] in
  events (history s) = [ev_error err_protocol; ev_error err_protocol; ev_error err_protocol].
Proof. vm_compute. done. Qed.
