(* ===== verification/WsStream.v ===== *)
(** * The byte stream of a WebSocket peer

    Fragmented messages are delivered like unfragmented ones, the parse loop
    leaves no complete frame behind, and what a session does does not depend on
    how the bytes of the peer are cut into reads. *)

From S2P Require Import Prelude Text WsFrame WsSession WsTheory WsSpec.

Open Scope Z_scope.

(** ** Fragmented messages *)

(** The frames of a message cut into [first :: rest]. *)
Definition fragment_frames (op : Z) (first : bytes) (rest : list bytes) : list (bool * Z * bytes) :=
  (bool_decide (rest = []), op, first) ::
  match rest with
  | [] => []
  | _ => imap (λ i p, (bool_decide (S i = length rest), op_continuation, p)) rest
  end.

Definition handle_frames (emit : ws_event → ws → ws) (s : ws) (fs : list (bool * Z * bytes)) : ws :=
  foldl (λ s f, handle_frame emit f.1.1 f.1.2 f.2 s) s fs.

Section fragments.
Context (emit : ws_event → ws → ws).

Lemma handle_continuation_run s op msg parts last_ :
  fragments s = Fragment (Some op) msg →
  size msg + size (concat parts) + size last_ ≤ max_message_bytes (options s) →
  handle_frames emit s (map (λ p, (false, op_continuation, p)) parts ++ [(true, op_continuation, last_)]) =
  dispatch_message emit op (msg ++ concat parts ++ last_) (set_fragments (Fragment None []) s).
Proof.
  assert (Hc : ∀ fin p s', handle_frame emit fin op_continuation p s' = handle_continuation emit fin p s') by done.
  assert (Hcons : ∀ f s' l, handle_frames emit s' (f :: l) = handle_frames emit (handle_frame emit f.1.1 f.1.2 f.2 s') l) by done.
  revert s msg. induction parts as [|p parts IH]; intros s msg Hf Hsize; cbn [map app concat];
    rewrite Hcons; cbn [fst snd]; rewrite Hc; unfold handle_continuation; rewrite Hf;
    cbn [fragmented_opcode fragmented_message negb].
  - destruct (Z.ltb_spec (max_message_bytes (options s)) (size msg + size last_)); [|done].
    unfold size in *. cbn in Hsize. lia.
  - assert (Hcat : size (concat (p :: parts)) = size p + size (concat parts)).
    { unfold size. cbn. rewrite length_app. lia. }
    rewrite Hcat in Hsize. assert (Hnn : 0 ≤ size (concat parts) ∧ 0 ≤ size last_) by (unfold size; lia).
    destruct (Z.ltb_spec (max_message_bytes (options s)) (size msg + size p)); [lia|].
    set (s1 := set_fragments _ s). rewrite (IH s1 (msg ++ p) eq_refl).
    + rewrite <-!app_assoc. by destruct s.
    + unfold size in *. rewrite length_app. unfold s1. cbn. lia.
Qed.

Lemma imap_last {A} (l : list A) (x : A) (g : bool → A → bool * Z * bytes) :
  imap (λ i p, g (bool_decide (S i = length (l ++ [x]))) p) (l ++ [x]) = map (g false) l ++ [g true x].
Proof.
  rewrite imap_app. f_equal.
  - rewrite <-imap_const. apply imap_ext. intros i y Hy. apply lookup_lt_Some in Hy.
    rewrite bool_decide_eq_false_2; [done|]. rewrite length_app. cbn. lia.
  - cbn. rewrite bool_decide_eq_true_2; [done|]. rewrite length_app. cbn. lia.
Qed.

(** Fragmentation is invisible: for a session that is not in the middle of
    a message, the frames of a message cut in any way into an initial frame
    and continuations do exactly what the unfragmented frame does, if the whole
    message is within the limit. *)
Theorem ws_fragments_reassembled s op first rest
    (Hop : op = op_text ∨ op = op_binary) (Hidle : fragments s = Fragment None [])
    (Hsize : size (first ++ concat rest) ≤ max_message_bytes (options s)) :
  handle_frames emit s (fragment_frames op first rest) = handle_frame emit true op (first ++ concat rest) s.
Proof.
  assert (Hdata : ∀ fin p s', handle_frame emit fin op p s' = handle_data_frame emit fin op p s').
  { intros. unfold handle_frame. by destruct Hop as [-> | ->]. }
  unfold fragment_frames. destruct rest as [|x rest] using rev_ind.
  { cbn. by rewrite app_nil_r. }
  clear IHrest. rewrite bool_decide_eq_false_2 by by destruct rest.
  replace (match rest ++ [x] with [] => [] | _ => imap _ (rest ++ [x]) end) with
    (map (λ p : bytes, (false, op_continuation, p)) rest ++ [(true, op_continuation, x)]).
  2:{ rewrite <-(imap_last rest x (λ b p, (b, op_continuation, p))). by destruct rest. }
  unfold handle_frames. cbn [foldl fst snd]. rewrite !Hdata. unfold handle_data_frame. rewrite Hidle.
  cbn [fragmented_opcode]. set (s1 := set_fragments _ s).
  change (foldl _ s1 ?l) with (handle_frames emit s1 l). rewrite concat_app. cbn [concat]. rewrite app_nil_r.
  rewrite (handle_continuation_run s1 op first rest x eq_refl).
  - f_equal. unfold s1. destruct s. cbn in *. by rewrite Hidle.
  - rewrite concat_app in Hsize. cbn in Hsize. rewrite app_nil_r in Hsize. unfold size in *.
    rewrite !length_app in Hsize. unfold s1. cbn. lia.
Qed.
End fragments.

(** ** Operations do not look at the read buffer *)

Definition commutes (f : ws → ws) : Prop := ∀ i s, f (set_input i s) = set_input i (f s).

Lemma commutes_compose f g : commutes f → commutes g → commutes (λ s, g (f s)).
Proof. intros Hf Hg i s. by rewrite Hf, Hg. Qed.

Lemma commutes_if (b : ws → bool) f g :
  (∀ i s, b (set_input i s) = b s) → commutes f → commutes g → commutes (λ s, if b s then f s else g s).
Proof. intros Hb Hf Hg i s. rewrite Hb. destruct (b s); auto. Qed.

Lemma commutes_id : commutes (λ s, s).
Proof. done. Qed.

Lemma commutes_flush : commutes flush_next.
Proof.
  intros i s. unfold flush_next, is_closed. cbn. destruct (closed (closing s) || writing (output s)); [done|].
  destruct (writes (output s)); [done|]. by destruct (stream s).
Qed.

Lemma commutes_queue frame c id : commutes (queue frame c id).
Proof. intros i s. unfold queue. by rewrite <-commutes_flush. Qed.

Lemma commutes_timeout : commutes start_close_timeout.
Proof. intros i s. unfold start_close_timeout. cbn. by destruct (_ || _). Qed.

Lemma commutes_timer_handle : commutes close_timer_handle.
Proof.
  intros i s. unfold close_timer_handle, stop_close_timeout. cbn.
  by destruct (close_timer (closing s)), (close_timer_closed (closing s)).
Qed.

Lemma commutes_send_close frame : commutes (send_close frame).
Proof.
  unfold send_close. apply (commutes_compose (λ s, queue frame false None (mark_close_sent s))); [|apply commutes_timeout].
  by apply (commutes_compose mark_close_sent), commutes_queue.
Qed.

Lemma commutes_close code reason : commutes (close code reason).
Proof.
  apply (commutes_if (λ s, is_closed s || close_sent (closing s)) (λ s, s)); [done|done|apply commutes_send_close].
Qed.

Lemma commutes_shut id : commutes (shut id).
Proof. intros i s. unfold shut. cbn. by destruct (stream s). Qed.

Section commute.
Context (emit : ws_event → ws → ws) (Hemit : ∀ e, commutes (emit e)).

Lemma commutes_emit_if (b : ws → bool) e :
  (∀ i s, b (set_input i s) = b s) → commutes (λ s, if b s then emit e s else s).
Proof. intros Hb. by apply commutes_if. Qed.

Lemma commutes_close_with_error code err : commutes (close_with_error emit code err).
Proof. apply (commutes_compose (emit (ev_error err))); [done|apply commutes_close]. Qed.

Lemma commutes_notify_written id err : commutes (notify_written emit id err).
Proof. by destruct id; [apply Hemit|]. Qed.

Lemma commutes_send_frame code payload id : commutes (send_frame emit code payload id).
Proof.
  apply (commutes_if (λ s, is_closed s || negb (stream s))); [done|apply commutes_notify_written|].
  apply (commutes_if (λ s, max_pending_write_bytes (options s) <? pending_write_bytes (output s) + size payload)); [done| |apply commutes_queue].
  apply (commutes_compose (notify_written emit id (Some err_would_block)));
    [apply commutes_notify_written|apply commutes_close_with_error].
Qed.

Lemma commutes_close_transport id : commutes (close_transport emit id).
Proof.
  assert (Hcall : commutes (λ s, match id with Some id => emit (ev_closed id) s | None => s end)) by (destruct id; [apply Hemit|done]).
  apply (commutes_if is_closed); [done|exact Hcall|].
  apply (commutes_compose (shut id) (λ s, if stream s then s else close_timer_handle
    (match id with Some id => emit (ev_closed id) s | None => s end))); [apply commutes_shut|].
  apply (commutes_if stream); [done|done|].
  apply (commutes_compose _ close_timer_handle Hcall commutes_timer_handle).
Qed.

Lemma commutes_dispatch_message op payload : commutes (dispatch_message emit op payload).
Proof.
  apply (commutes_if (λ s, byte_mode (byte_side s))); [done| |by destruct (op =? op_text); apply Hemit].
  destruct (negb (op =? op_binary)); [apply commutes_close_with_error|by apply (commutes_emit_if (λ s, byte_read (byte_side s)))].
Qed.

Lemma commutes_dispatch_close payload : commutes (dispatch_close emit payload).
Proof.
  apply (commutes_if is_closed); [done|done|]. cbv zeta.
  destruct (length payload =? 1)%nat; [apply commutes_close_with_error|].
  destruct (_ && _); [apply commutes_close_with_error|].
  destruct (if (2 <=? length payload)%nat then _ else _) as [code reason].
  apply (commutes_compose (λ s, if byte_read (byte_side (emit (ev_close code reason) s)) then emit ev_bytes_eof (emit (ev_close code reason) s)
    else emit (ev_close code reason) s)
    (λ s, if negb (close_sent (closing s)) then send_close (make_frame op_close payload) s else close_transport emit None s)).
  - by apply (commutes_compose (emit (ev_close code reason)) (λ s, if byte_read (byte_side s) then emit ev_bytes_eof s else s)),
      (commutes_emit_if (λ s, byte_read (byte_side s))).
  - apply (commutes_if (λ s, negb (close_sent (closing s)))); [done|apply commutes_send_close|apply commutes_close_transport].
Qed.

Lemma commutes_handle_frame fin op payload : commutes (handle_frame emit fin op payload).
Proof.
  unfold handle_frame. destruct (_ && _); [apply commutes_close_with_error|].
  destruct (_ || _).
  { intros i s. unfold handle_data_frame. cbn. destruct (fragmented_opcode (fragments s)); [apply commutes_close_with_error|].
    destruct fin; [apply commutes_dispatch_message|done]. }
  destruct (op =? op_continuation).
  { intros i s. unfold handle_continuation. cbn. destruct (fragmented_opcode (fragments s)); [|apply commutes_close_with_error].
    destruct (_ <? _); [apply commutes_close_with_error|]. destruct (negb fin); [done|]. by rewrite <-commutes_dispatch_message. }
  destruct (op =? op_ping).
  { apply (commutes_compose (emit (ev_ping payload)) (λ s, if auto_pong (options s) then send_frame emit op_pong payload None s else s)); [done|].
    by apply (commutes_if (λ s, auto_pong (options s))); [|apply commutes_send_frame|]. }
  destruct (op =? op_pong); [apply Hemit|].
  destruct (op =? op_close); [apply commutes_dispatch_close|apply commutes_close_with_error].
Qed.

Lemma commutes_run_cmd c : commutes (λ s, run_cmd emit s c).
Proof.
  destruct c; cbn [run_cmd]; try done; [apply commutes_send_frame|apply commutes_close| |apply commutes_close_transport..].
  apply (commutes_if is_closed); [done|done|apply commutes_send_frame].
Qed.
End commute.

Lemma commutes_emit user depth e : commutes (emit user depth e).
Proof.
  revert e. induction depth as [|depth IH]; intros e i s; cbn [emit]; [done|].
  assert (Hfold : ∀ cmds, commutes (λ s, foldl (run_cmd (emit user depth)) s cmds)).
  { induction cmds as [|c cmds IHc]; [done|]. cbn [foldl].
    apply (commutes_compose (λ s, run_cmd (emit user depth) s c) (λ s, foldl (run_cmd (emit user depth)) s cmds)); [|done].
    by apply commutes_run_cmd. }
  exact (Hfold (user (history (record (eff_event e) s)) e) i (record (eff_event e) s)).
Qed.

(** ** The parse loop on the unread bytes *)

Definition unread (s : ws) : bytes := drop (read_offset (input s)) (read_buffer (input s)).
Definition erase (s : ws) : ws := set_input (Input [] 0) s.

(** The read buffer of a session: the offset is inside, bytes are bytes, and no
    size wraps. *)
Record input_ok (o : accept_options) (i : input_state) : Prop := {
  io_offset : (read_offset i ≤ length (read_buffer i))%nat;
  io_bytes : Forall byte_ok (read_buffer i);
  io_sizes : sizes_ok (max_message_bytes o) (read_buffer i)
}.

Definition shift_frame (n : nat) (r : frame_result) : frame_result :=
  match r with frame fin op p off => frame fin op p (n + off) | _ => r end.

Lemma read_length_shift pre u len7 :
  read_length (pre ++ u) len7 (length pre + 2) = (λ '(len, off), (len, (length pre + off)%nat)) <$> read_length u len7 2.
Proof.
  unfold read_length. rewrite length_app. destruct (len7 =? 126).
  { destruct (Nat.ltb_spec (length u) (2 + 2)); [by rewrite (proj2 (Nat.ltb_lt _ _)) by lia|].
    rewrite (proj2 (Nat.ltb_ge _ _)) by lia. cbn [fmap option_fmap option_map].
    rewrite <-Nat.add_assoc, !byte_at_app. f_equal. f_equal. lia. }
  destruct (len7 =? 127); [|done].
  destruct (Nat.ltb_spec (length u) (2 + 8)); [by rewrite (proj2 (Nat.ltb_lt _ _)) by lia|].
  rewrite (proj2 (Nat.ltb_ge _ _)) by lia. cbn [fmap option_fmap option_map].
  assert (read_u64 (pre ++ u) (length pre + 2) = read_u64 u 2) as ->; [|f_equal; f_equal; lia].
  unfold read_u64. apply foldl_ext_in. intros acc i _. by rewrite <-Nat.add_assoc, byte_at_app.
Qed.

Lemma read_frame_shift max pre u :
  Forall byte_ok u → sizes_ok max (pre ++ u) →
  read_frame max (pre ++ u) (length pre) = shift_frame (length pre) (read_frame max u 0).
Proof.
  intros Hu [Hm0 Hsz]. rewrite length_app in Hsz. unfold read_frame. rewrite length_app.
  replace (length pre + length u - length pre)%nat with (length u) by lia. rewrite Nat.sub_0_r.
  destruct (length u <? 2)%nat; [done|]. rewrite byte_at_app_0, byte_at_app. cbn [Nat.add].
  destruct (_ || _); [done|]. rewrite read_length_shift.
  destruct (read_length u _ 2) as [[len off]|] eqn:E; cbn [fmap option_fmap option_map]; [|done].
  apply read_length_range in E as [Hlen Hoff]; [|done|apply Z.land_nonneg; right; lia].
  destruct (_ <? len); cbn [orb]; [done|]. destruct (Z.ltb_spec max len); [done|].
  unfold wrap64.
  destruct (Z.le_gt_cases (Z.of_nat off) (Z.of_nat (length u) + 10)) as [Hoffle|Hoffgt]; [|lia].
  rewrite !Z.mod_small by lia.
  assert (Hltb : (Z.of_nat (length pre + length u) <? Z.of_nat (length pre + off) + 4 + len) =
    (Z.of_nat (length u) <? Z.of_nat off + 4 + len)).
  { apply Bool.eq_iff_eq_true. rewrite !Z.ltb_lt. lia. }
  rewrite Hltb. destruct (Z.of_nat (length u) <? Z.of_nat off + 4 + len); [reflexivity|]. cbn [shift_frame].
  rewrite <-!drop_drop, !drop_app_length. f_equal. lia.
Qed.

Lemma input_commutes f s : commutes f → input (f s) = input s.
Proof.
  intros Hf. specialize (Hf (input s) s). assert (set_input (input s) s = s) as Hs by by destruct s.
  rewrite Hs in Hf. by rewrite Hf.
Qed.

Lemma compact_spec o s :
  input_ok o (input s) → erase (compact_read_buffer s) = erase s ∧ unread (compact_read_buffer s) = unread s ∧
  input_ok o (input (compact_read_buffer s)).
Proof.
  intros [Ho Hb [Hm Hs]]. unfold compact_read_buffer. destruct (Nat.eqb_spec (read_offset (input s)) 0); [done|].
  destruct (Nat.eqb_spec (read_offset (input s)) (length (read_buffer (input s)))) as [He|He].
  { split_and!; [done| |].
    - unfold unread. cbn. by rewrite He, drop_all.
    - constructor; cbn; [lia|constructor|split; cbn; [done|lia]]. }
  destruct (_ && _); [done|]. split_and!; [done|done|]. constructor; cbn.
  - lia.
  - by apply Forall_drop.
  - split; [done|]. rewrite length_drop. lia.
Qed.

(** What is left of some bytes without the complete frames at their head: the
    first frame that is bad or not complete, and all that follows it. *)
Fixpoint after_frames (max_message_bytes : Z) (fuel : nat) (u : bytes) : bytes :=
  match fuel with
  | O => u
  | S fuel' =>
    match read_frame max_message_bytes u 0 with
    | frame _ _ _ off => after_frames max_message_bytes fuel' (drop off u)
    | _ => u
    end
  end.

Section stream.
Context (o : accept_options) (emit : ws_event → ws → ws).
Context (Hmax : 0 ≤ max_message_bytes o) (Hpend : 0 ≤ max_pending_write_bytes o).
Context (Hok : emit_ok o (ws_inv o) emit) (Hcomm : ∀ e, commutes (emit e)).

(** The loop with the unread bytes as an argument. *)
Fixpoint absorb (fuel : nat) (s : ws) (u : bytes) : ws * bytes :=
  match fuel with
  | O => (s, u)
  | S fuel' =>
    if is_closed s then (s, u)
    else
      match read_frame (max_message_bytes o) u 0 with
      | need_more _ => (s, u)
      | bad_frame code error => (close_with_error emit code error s, u)
      | frame fin op payload off => absorb fuel' (handle_frame emit fin op payload s) (drop off u)
      end
  end.

Lemma read_at_unread s :
  input_ok o (input s) →
  read_frame (max_message_bytes o) (read_buffer (input s)) (read_offset (input s)) =
    shift_frame (read_offset (input s)) (read_frame (max_message_bytes o) (unread s) 0).
Proof.
  intros [Ho Hb Hs]. unfold unread. rewrite <-(take_drop (read_offset (input s)) (read_buffer (input s))) at 1.
  assert (Hl : length (take (read_offset (input s)) (read_buffer (input s))) = read_offset (input s)) by (rewrite length_take; lia).
  rewrite <-Hl at 3. rewrite read_frame_shift; [by rewrite Hl|by apply Forall_drop|by rewrite take_drop].
Qed.

Lemma unread_ok s : input_ok o (input s) → Forall byte_ok (unread s) ∧ sizes_ok (max_message_bytes o) (unread s).
Proof.
  intros [Ho Hb [Hm Hs]]. split; [by apply Forall_drop|]. split; [done|]. unfold unread. rewrite length_drop. lia.
Qed.

Lemma parse_loop_absorb fuel s :
  ws_inv o s → input_ok o (input s) →
  let s' := parse_loop emit fuel s in
  (erase s', unread s') = absorb fuel (erase s) (unread s) ∧ input_ok o (input s') ∧ ws_inv o s'.
Proof.
  pose proof (inv_preserved o Hmax Hpend) as HI.
  revert s. induction fuel as [|fuel IH]; intros s Hinv Hin; cbn [parse_loop absorb]; [done|].
  change (is_closed (erase s)) with (is_closed s). destruct (is_closed s) eqn:Hc; [done|].
  rewrite (vi_options o s Hinv), read_at_unread by done.
  destruct (unread_ok s Hin) as [Hub Hus].
  destruct (read_frame _ (unread s) 0) as [c|code err|fin op payload off] eqn:E; cbn [shift_frame].
  - destruct c; [|done]. destruct (compact_spec o s Hin) as (-> & -> & ?). split_and!; [done|done|].
    by apply (compact_keeps o _ HI).
  - assert (Hcw : commutes (close_with_error emit code err)) by by apply commutes_close_with_error.
    split_and!.
    + f_equal; [symmetry; apply Hcw|]. unfold unread. by rewrite input_commutes.
    + by rewrite input_commutes.
    + by apply (close_with_error_keeps o _ HI).
  - destruct (read_frame_progress _ _ _ _ _ _ _ Hub Hus (Nat.le_0_l _) E) as ((_ & Hoff) & _ & Hpay).
    set (s1 := set_input (Input (read_buffer (input s)) (read_offset (input s) + off)) s).
    assert (Hin1 : input_ok o (input s1)).
    { destruct Hin. constructor; cbn; [|done|done]. unfold unread in Hoff. rewrite length_drop in Hoff. lia. }
    destruct (compact_spec o s1 Hin1) as (He & Hun & Hin2). set (s2 := compact_read_buffer s1) in *.
    assert (Hcf : commutes (handle_frame emit fin op payload)) by by apply commutes_handle_frame.
    assert (Hinv2 : ws_inv o s2) by by apply (compact_keeps o _ HI), (pr_input _ _ HI).
    destruct (IH (handle_frame emit fin op payload s2)) as (H1 & H2 & H3).
    + by apply (handle_frame_keeps o _ HI).
    + by rewrite input_commutes.
    + split_and!; [|done|done]. rewrite H1. f_equal.
      * transitivity (handle_frame emit fin op payload (erase s2)); [symmetry; apply Hcf|by rewrite He].
      * unfold unread at 1. rewrite input_commutes by done. change (unread s2 = drop off (unread s)).
        rewrite Hun. unfold unread, s1. cbn. by rewrite drop_drop.
Qed.

(** Each frame is six bytes at least: fuel beyond the number of unread bytes
    changes nothing. *)
Lemma absorb_fuel fuel1 fuel2 s u :
  Forall byte_ok u → sizes_ok (max_message_bytes o) u → (length u < fuel1)%nat → (length u < fuel2)%nat →
  absorb fuel1 s u = absorb fuel2 s u.
Proof.
  revert fuel2 s u. induction fuel1 as [|fuel1 IH]; intros [|fuel2] s u Hb Hs H1 H2; try lia. cbn [absorb].
  destruct (is_closed s); [done|]. destruct (read_frame _ u 0) as [| |fin op payload off] eqn:E; [done|done|].
  destruct (read_frame_progress _ _ _ _ _ _ _ Hb Hs (Nat.le_0_l _) E) as ((Hlo & Hhi) & _).
  apply IH; [by apply Forall_drop| |rewrite length_drop; lia..]. destruct Hs. split; [done|]. rewrite length_drop. lia.
Qed.

(** It stops for a reason other than fuel. *)
Lemma absorb_done fuel s u :
  Forall byte_ok u → sizes_ok (max_message_bytes o) u → (length u < fuel)%nat →
  is_closed (absorb fuel s u).1 = true ∨
  ∀ fin op payload off, read_frame (max_message_bytes o) (absorb fuel s u).2 0 ≠ frame fin op payload off.
Proof.
  revert s u. induction fuel as [|fuel IH]; intros s u Hb Hs Hf; [lia|]. cbn [absorb].
  destruct (is_closed s) eqn:Hc; [by left|].
  destruct (read_frame _ u 0) as [| |fin op payload off] eqn:E; [right; cbn; congruence..|].
  destruct (read_frame_progress _ _ _ _ _ _ _ Hb Hs (Nat.le_0_l _) E) as ((Hlo & Hhi) & _).
  apply IH; [by apply Forall_drop| |rewrite length_drop; lia]. destruct Hs. split; [done|]. rewrite length_drop. lia.
Qed.

(** A session that stays open takes exactly the complete frames. *)
Lemma absorb_left fuel s u :
  is_closed (absorb fuel s u).1 = false → (absorb fuel s u).2 = after_frames (max_message_bytes o) fuel u.
Proof.
  revert s u. induction fuel as [|fuel IH]; intros s u; [done|]. cbn [absorb after_frames]. destruct (is_closed s) eqn:Hc; [cbn; congruence|].
  destruct (read_frame _ u 0); [done|done|]. apply IH.
Qed.

(** The session waits for more bytes. *)
Definition awaiting (s : ws) (u : bytes) : Prop :=
  is_closed s = false ∧ ∃ c, read_frame (max_message_bytes o) u 0 = need_more c.

Lemma absorb_app fuel fuel1 fuel2 s u more :
  Forall byte_ok (u ++ more) → sizes_ok (max_message_bytes o) (u ++ more) →
  (length u < fuel)%nat → (length (u ++ more) < fuel1)%nat → (length ((absorb fuel s u).2 ++ more) < fuel2)%nat →
  awaiting (absorb fuel s u).1 (absorb fuel s u).2 →
  absorb fuel1 s (u ++ more) = absorb fuel2 (absorb fuel s u).1 ((absorb fuel s u).2 ++ more).
Proof.
  revert fuel1 s u. induction fuel as [|fuel IH]; intros fuel1 s u Hb Hs Hf Hf1 Hf2 Haw; [lia|]. cbn [absorb] in *.
  assert (Hu : Forall byte_ok u) by by apply Forall_app in Hb as [].
  destruct (is_closed s) eqn:Hc; [destruct Haw as [Haw _]; cbn in Haw; congruence|].
  destruct (read_frame (max_message_bytes o) u 0) as [c|code err|fin op payload off] eqn:E; cbn [fst snd] in *.
  - by apply absorb_fuel.
  - destruct Haw as [_ [c Hc']]. congruence.
  - destruct fuel1 as [|fuel1]; [lia|]. cbn [absorb]. rewrite Hc.
    assert (Hst : read_frame (max_message_bytes o) (u ++ more) 0 = frame fin op payload off).
    { rewrite read_frame_stable; [done|done|done|lia|congruence]. }
    rewrite Hst. assert (Hsu : sizes_ok (max_message_bytes o) u).
    { destruct Hs as [? Hs]. split; [done|]. rewrite length_app in Hs. lia. }
    destruct (read_frame_progress _ _ _ _ _ _ _ Hu Hsu (Nat.le_0_l _) E) as ((Hlo & Hhi) & _).
    rewrite length_app in Hf1. rewrite drop_app_le by done. apply IH; [| | | |done|done].
    + rewrite <-drop_app_le by done. by apply Forall_drop.
    + destruct Hs as [? Hs]. split; [done|]. rewrite !length_app, length_drop in *. lia.
    + rewrite length_drop. lia.
    + rewrite length_app, length_drop. lia.
Qed.

Lemma append_input_spec data s :
  erase (append_input data s) = erase s ∧
  ((read_offset (input s) ≤ length (read_buffer (input s)))%nat → unread (append_input data s) = unread s ++ data).
Proof. split; [done|]. intros H. unfold unread, append_input. cbn. by rewrite drop_app_le. Qed.

(** A read, as a function of the erased session and its unread bytes. *)
Lemma on_read_absorb s data fuel :
  ws_inv o s → is_closed s = false → input_ok o (input (append_input data s)) →
  (read_offset (input s) ≤ length (read_buffer (input s)))%nat → (length (unread s ++ data) < fuel)%nat →
  let s' := on_read emit (read_data data) s in
  (erase s', unread s') = absorb fuel (erase s) (unread s ++ data) ∧ input_ok o (input s') ∧ ws_inv o s'.
Proof.
  intros Hinv Hc Hin Hoff Hfuel. unfold on_read. rewrite Hc. unfold parse_frames.
  destruct (append_input_spec data s) as [He Hu]. specialize (Hu Hoff).
  assert (Hinv' : ws_inv o (append_input data s)) by by apply (pr_input _ _ (inv_preserved o Hmax Hpend)).
  set (fuel0 := S _). destruct (parse_loop_absorb fuel0 (append_input data s) Hinv' Hin) as (H1 & H2 & H3).
  split_and!; [|done|done]. rewrite H1, He, Hu. destruct (unread_ok _ Hin) as [Hb Hs]. rewrite Hu in *.
  apply absorb_fuel; [done..| |done]. unfold fuel0. rewrite <-Hu. unfold unread. rewrite length_drop. lia.
Qed.
End stream.

(** ** Theorems *)

Section theorems.
Context (user : list effect → ws_event → list cmd) (depth : nat) (o : accept_options).

(** Two sessions that differ at most in how the read buffer is laid out. *)
Definition same_session (s s' : ws) : Prop := erase s = erase s' ∧ unread s = unread s'.

(** C22: After every read, the session is closed or has taken out of the buffer
    exactly the complete frames at its head: what is left is the first frame that
    is not complete or bad, and all that follows it.  The loop never stops early,
    and its fuel, one more than the number of unread bytes, is enough.  A bad frame
    stays, and so do the frames behind it. *)
Theorem ws_parse_drains s data
    (Hm : 0 ≤ max_message_bytes o) (Hp : 0 ≤ max_pending_write_bytes o)
    (Hs : ws_reachable user depth any_input (init o) s) (Hopen : is_closed s = false)
    (Hoff : (read_offset (input s) ≤ length (read_buffer (input s)))%nat)
    (Hin : input_ok o (input (append_input data s))) :
  let s' := ws_step user depth s (in_read (read_data data)) in
  is_closed s' = true ∨
  unread s' = after_frames (max_message_bytes o) (S (length (unread s ++ data))) (unread s ++ data) ∧
  ∀ fin op payload off, read_frame (max_message_bytes o) (unread s') 0 ≠ frame fin op payload off.
Proof.
  apply reachable_inv in Hs; [|done..].
  pose proof (emit_keeps o _ (inv_preserved o Hm Hp) user depth) as Hem. cbn [ws_step].
  destruct (on_read_absorb o (emit user depth) Hm Hp Hem (commutes_emit user depth) s data
    (S (length (unread s ++ data))) Hs Hopen Hin Hoff ltac:(lia)) as (H & _).
  destruct (append_input_spec data s) as [_ Hu]. specialize (Hu Hoff).
  destruct (unread_ok o _ Hin) as [Hb Hsz]. rewrite Hu in *.
  pose proof (absorb_done o (emit user depth) (S (length (unread s ++ data))) (erase s) (unread s ++ data) Hb Hsz ltac:(lia)) as Hd.
  destruct (is_closed (on_read (emit user depth) (read_data data) s)) eqn:Hc; [by left|right].
  pose proof (absorb_left o (emit user depth) (S (length (unread s ++ data))) (erase s) (unread s ++ data)) as Hl. rewrite <-H in Hd, Hl.
  split; [by apply Hl|]. by destruct Hd as [Hd|Hd]; [change (is_closed (on_read (emit user depth) (read_data data) s) = true) in Hd; congruence|].
Qed.

(** C12: How the bytes of the peer are cut into reads does not matter up to the
    first bad frame: when the session is open after the first part and waits for
    the rest of a frame, handling the two parts one after the other leaves the same
    session (same history, callbacks included, same queue, same unread bytes) as
    handling them in one read.  Behind a bad frame it does matter: every further
    read reports it again ([bad_frame_reported_again] in [WsSpec]). *)
Theorem ws_chunking s a b
    (Hm : 0 ≤ max_message_bytes o) (Hp : 0 ≤ max_pending_write_bytes o)
    (Hs : ws_reachable user depth any_input (init o) s) (Hopen : is_closed s = false)
    (Hoff : (read_offset (input s) ≤ length (read_buffer (input s)))%nat)
    (Hin : input_ok o (input (append_input (a ++ b) s)))
    (Hin' : input_ok o (input (append_input b (ws_step user depth s (in_read (read_data a))))))
    (Hwait : awaiting o (ws_step user depth s (in_read (read_data a)))
      (unread (ws_step user depth s (in_read (read_data a))))) :
  same_session (ws_step user depth (ws_step user depth s (in_read (read_data a))) (in_read (read_data b)))
    (ws_step user depth s (in_read (read_data (a ++ b)))).
Proof.
  apply reachable_inv in Hs; [|done..]. cbn [ws_step] in *.
  pose proof (emit_keeps o _ (inv_preserved o Hm Hp) user depth) as Hem.
  pose proof (commutes_emit user depth) as Hc. set (em := emit user depth) in *.
  assert (Hina : input_ok o (input (append_input a s))).
  { destruct Hin as [H1 H2 [H3 H4]]. cbn in *. rewrite app_assoc in *. apply Forall_app in H2 as [H2 _].
    constructor; cbn; [rewrite length_app; lia|done|split; [done|]]. rewrite (length_app _ b) in H4. lia. }
  destruct (on_read_absorb o em Hm Hp Hem Hc s a (S (length (unread s ++ a))) Hs Hopen Hina Hoff ltac:(lia))
    as (Ha & Hin1 & Hinv1).
  set (s1 := on_read em (read_data a) s) in *.
  destruct Hwait as [Hopen1 Hwait].
  destruct (on_read_absorb o em Hm Hp Hem Hc s1 b (S (length (unread s1 ++ b))) Hinv1 Hopen1 Hin' (io_offset _ _ Hin1)
    ltac:(lia)) as (Hb & _ & _).
  destruct (on_read_absorb o em Hm Hp Hem Hc s (a ++ b) (S (length (unread s ++ a ++ b))) Hs Hopen Hin Hoff ltac:(lia))
    as (Hab & _ & _).
  destruct (append_input_spec (a ++ b) s) as [_ Hu]. specialize (Hu Hoff).
  destruct (unread_ok o _ Hin) as [Hbytes Hsizes]. rewrite Hu, app_assoc in Hbytes, Hsizes.
  pose proof (absorb_app o em (S (length (unread s ++ a))) (S (length (unread s ++ a ++ b)))
    (S (length (unread s1 ++ b))) (erase s) (unread s ++ a) b Hbytes Hsizes) as Happ.
  rewrite <-Ha in Happ. cbn [fst snd] in Happ. rewrite <-app_assoc in Happ.
  rewrite <-Hab, <-Hb in Happ.
  assert (Heq : (erase (on_read em (read_data (a ++ b)) s), unread (on_read em (read_data (a ++ b)) s)) =
    (erase (on_read em (read_data b) s1), unread (on_read em (read_data b) s1))).
  { apply Happ; [lia|lia|lia|by split]. }
  apply pair_equal_spec in Heq as [H1 H2]. by split; symmetry.
Qed.
End theorems.

(** ** Witnesses *)

Definition silent (h : list effect) (e : ws_event) : list cmd := [].

Lemma ws_fragments_reassembled_witness :
  let s := ws_step silent 1 (init Sample.opts) (in_start [] false) in
  handle_frames (emit silent 1) s (fragment_frames op_text [104] [[101]; [108; 108]; []; [111]]) =
  handle_frame (emit silent 1) true op_text [104; 101; 108; 108; 111] s.
Proof.
  intros s. apply (ws_fragments_reassembled (emit silent 1) s op_text [104] [[101]; [108; 108]; []; [111]]);
    [by left|reflexivity|vm_compute; discriminate].
Defined.

Definition sample_open : ws := ws_step Sample.user 3 (init Sample.opts) (in_start [] false).
Definition sample_frame : bytes := client_frame true op_text Sample.mask [104; 105].

Lemma sample_open_reached : ws_reachable Sample.user 3 any_input (init Sample.opts) sample_open.
Proof. unfold sample_open. apply wr_step; [constructor|reflexivity|exact I]. Qed.

Lemma ws_parse_drains_witness :
  let s' := ws_step Sample.user 3 sample_open (in_read (read_data (sample_frame ++ take 3 sample_frame))) in
  is_closed s' = false ∧ unread s' = take 3 sample_frame ∧ ∀ fin op payload off, read_frame 1000 (unread s') 0 ≠ frame fin op payload off.
Proof.
  intros s'. assert (Hopen : is_closed s' = false) by reflexivity. split; [exact Hopen|].
  destruct (ws_parse_drains Sample.user 3 Sample.opts sample_open (sample_frame ++ take 3 sample_frame)) as [H|[H1 H2]];
    [vm_compute; discriminate|vm_compute; discriminate|exact sample_open_reached|reflexivity|vm_compute; lia| |pose proof (eq_trans (eq_sym Hopen) H); done|].
  - constructor; [vm_compute; lia| |split; vm_compute; [discriminate|reflexivity]].
    vm_compute. repeat constructor; discriminate.
  - split; [etransitivity; [exact H1|reflexivity]|exact H2].
Defined.

Lemma ws_chunking_witness :
  let s1 := ws_step Sample.user 3 sample_open (in_read (read_data (take 5 sample_frame))) in
  let s2 := ws_step Sample.user 3 s1 (in_read (read_data (drop 5 sample_frame))) in
  same_session s2 (ws_step Sample.user 3 sample_open (in_read (read_data (take 5 sample_frame ++ drop 5 sample_frame)))).
Proof.
  apply (ws_chunking Sample.user 3 Sample.opts sample_open (take 5 sample_frame) (drop 5 sample_frame));
    [vm_compute; discriminate|vm_compute; discriminate|exact sample_open_reached|reflexivity|vm_compute; lia| | |].
  - constructor; [vm_compute; lia| |split; vm_compute; [discriminate|reflexivity]].
    vm_compute. repeat constructor; discriminate.
  - constructor; [vm_compute; lia| |split; vm_compute; [discriminate|reflexivity]].
    vm_compute. repeat constructor; discriminate.
  - split; [reflexivity|]. exists false. reflexivity.
Defined.
