(* ===== verification/HttpError.v ===== *)
(** * HTTP errors

    [src/http/error.cpp] and [include/uvpp/protocols/http/error.hpp]: the
    error codes of the HTTP parts with their messages, and the [uvp::error]
    values (a code and a detail text) that [uvp::result] carries. *)

From S2P Require Import Prelude Text.

Inductive errc :=
| malformed_content_type | unsupported_media_type | multipart_missing_boundary | multipart_invalid_boundary
| multipart_malformed_body | multipart_malformed_part_header | multipart_unexpected_end | multipart_limit_exceeded
| client_invalid_url | client_unsupported_scheme | client_dns_failed | client_connect_failed | client_tls_failed
| client_malformed_response | client_header_limit_exceeded | client_body_limit_exceeded | client_cancelled
| client_timeout | client_request_body_failed | client_redirect_failed | client_proxy_failed.

#[global] Instance errc_eq_dec : EqDecision errc.
Proof. solve_decision. Defined.

(** [http_error_category::message]. *)
Definition errc_message (value : errc) : str :=
  lit match value with
      | malformed_content_type => "malformed content type"
      | unsupported_media_type => "unsupported media type"
      | multipart_missing_boundary => "multipart boundary is missing"
      | multipart_invalid_boundary => "multipart boundary is invalid"
      | multipart_malformed_body => "multipart body is malformed"
      | multipart_malformed_part_header => "multipart part header is malformed"
      | multipart_unexpected_end => "multipart body ended unexpectedly"
      | multipart_limit_exceeded => "multipart limit exceeded"
      | client_invalid_url => "HTTP client URL is invalid"
      | client_unsupported_scheme => "HTTP client URL scheme is unsupported"
      | client_dns_failed => "HTTP client DNS resolution failed"
      | client_connect_failed => "HTTP client connection failed"
      | client_tls_failed => "HTTP client TLS handshake failed"
      | client_malformed_response => "HTTP client response is malformed"
      | client_header_limit_exceeded => "HTTP client response header limit exceeded"
      | client_body_limit_exceeded => "HTTP client response body limit exceeded"
      | client_cancelled => "HTTP client request was cancelled"
      | client_timeout => "HTTP client request timed out"
      | client_request_body_failed => "HTTP client request body failed"
      | client_redirect_failed => "HTTP client redirect failed"
      | client_proxy_failed => "HTTP client proxy failed"
      end.

(** [uvp::error]; codes of other categories (the transport's) are numbers. *)
Inductive error_code := http_code (c : errc) | other_code (c : Z).

#[global] Instance error_code_eq_dec : EqDecision error_code.
Proof. solve_decision. Defined.

Record error := Error { error_code_of : error_code; detail : str }.

#[global] Instance error_eq_dec : EqDecision error.
Proof. solve_decision. Defined.

Definition make_error (code : errc) (detail : str) : error :=
  Error (http_code code) (match detail with [] => errc_message code | _ => detail end).
