(* ===== verification/Multipart.v ===== *)
(** * Multipart syntax

    The lexical part of [src/http/multipart.cpp]: parameter values, the
    boundary of a Content-Type, Content-Disposition, the header block of a
    part, and the search for the next delimiter. *)

From S2P Require Import Prelude Text Http HttpError.

Open Scope Z_scope.

Definition size {A} (l : list A) : Z := Z.of_nat (length l).

(** ** Lexical helpers *)

Definition is_ows (c : ascii) : bool := is_char " " c || is_char "009" c.

Fixpoint trim_left (value : str) : str :=
  match value with
  | c :: value' => if is_ows c then trim_left value' else value
  | [] => []
  end.

Definition trim_ows (value : str) : str := rev (trim_left (rev (trim_left value))).

Fixpoint ascii_iequals (lhs rhs : str) : bool :=
  match lhs, rhs with
  | [], [] => true
  | l :: lhs', r :: rhs' => Ascii.eqb (tolower l) (tolower r) && ascii_iequals lhs' rhs'
  | _, _ => false
  end.

Definition is_ctl (c : ascii) : bool := (code c <? 0x20)%N || (code c =? 0x7f)%N.

Definition contains_ctl (value : str) : bool := existsb is_ctl value.

(** The bytes that may not appear in a quoted value, escaped or not. *)
Definition is_break (c : ascii) : bool := is_char "013" c || is_char "010" c || is_char "000" c.

Fixpoint quoted_loop (value : str) (escaped : bool) (out : str) : option str :=
  match value with
  | [] => None
  | ch :: value' =>
    if escaped then if is_break ch then None else quoted_loop value' false (out ++ [ch])
    else if is_char "\" ch then quoted_loop value' true out
    else if is_char "034" ch then match trim_ows value' with [] => Some out | _ => None end
    else if is_break ch then None
    else quoted_loop value' false (out ++ [ch])
  end.

Definition parse_quoted_value (value : str) : option str :=
  match value with
  | first :: rest => if (2 <=? length value)%nat && is_char "034" first then quoted_loop rest false [] else None
  | [] => None
  end.

Definition parse_parameter_value (value : str) : option str :=
  let value := trim_ows value in
  match value with
  | [] => None
  | first :: _ =>
    if is_char "034" first then parse_quoted_value value
    else if contains_ctl value || bool_decide (is_Some (find_char "034" value)) then None
    else Some value
  end.

Fixpoint unquoted_loop (needle : ascii) (quoted escaped : bool) (value : str) : option nat :=
  match value with
  | [] => None
  | ch :: value' =>
    if escaped then S <$> unquoted_loop needle quoted false value'
    else if quoted && is_char "\" ch then S <$> unquoted_loop needle quoted true value'
    else if is_char "034" ch then S <$> unquoted_loop needle (negb quoted) false value'
    else if negb quoted && is_char needle ch then Some 0%nat
    else S <$> unquoted_loop needle quoted false value'
  end.

Definition find_unquoted (value : str) (needle : ascii) (offset : nat) : option nat :=
  (λ i, (offset + i)%nat) <$> unquoted_loop needle false false (drop offset value).

Definition valid_boundary (boundary : str) : bool :=
  negb (bool_decide (boundary = [])) && (size boundary <=? 70) && negb (contains_ctl boundary).

Definition crlf : str := ["013"; "010"]%char.
Definition crlf2 : str := crlf ++ crlf.

Fixpoint crlf_count (fuel : nat) (block : str) (offset : nat) (count : Z) : Z :=
  match fuel with
  | O => count
  | S fuel' =>
    match find_sub_from crlf block offset with
    | Some position => crlf_count fuel' block (position + 2) (count + 1)
    | None => count
    end
  end.

Definition count_header_lines (block : str) : Z :=
  match block with [] => 0 | _ => crlf_count (S (length block)) block 0 1 end.

(** ** Parameters *)

(** The loop over the parameters after the first [";"], which
    [parse_multipart_boundary] and [parse_multipart_content_disposition] share
    but for the error [bad] and the treatment [on_param] of a parameter. *)
Section params.
Context {State : Type} (bad : error) (on_param : str → str → State → result error State).

Definition parse_param (raw_param : str) (state : State) : result error State :=
  match find_char "=" raw_param with
  | None => match trim_ows raw_param with [] => Ok state | _ => Err bad end
  | Some equals =>
    match parse_parameter_value (drop (S equals) raw_param) with
    | None => Err bad
    | Some value => on_param (trim_ows (take equals raw_param)) value state
    end
  end.

Fixpoint params_loop (fuel : nat) (value : str) (offset : nat) (state : State) : result error State :=
  match fuel with
  | O => Ok state
  | S fuel' =>
    if (offset <? length value)%nat then
      match find_unquoted value ";" offset with
      | None => parse_param (drop offset value) state
      | Some next =>
        state' ← parse_param (substr value offset (next - offset)) state; params_loop fuel' value (S next) state'
      end
    else Ok state
  end.

Definition parse_params (value : str) (separator : option nat) (state : State) : result error State :=
  params_loop (S (length value)) value (match separator with None => length value | Some i => S i end) state.
End params.

Definition before (value : str) (separator : option nat) : str :=
  match separator with None => value | Some i => take i value end.

(** ** The boundary of a Content-Type *)

(** [saw_boundary] and [boundary]. *)
Definition boundary_param (name value : str) (state : option str) : result error (option str) :=
  if ascii_iequals name (lit "boundary") then
    match state with
    | Some _ => Err (make_error malformed_content_type (lit "duplicate boundary parameter"))
    | None => Ok (Some value)
    end
  else Ok state.

Definition parse_multipart_boundary (content_type : str) : result error str :=
  match content_type with
  | [] => Err (make_error unsupported_media_type (lit "missing content-type"))
  | _ =>
    let separator := find_unquoted content_type ";" 0 in
    if negb (ascii_iequals (trim_ows (before content_type separator)) (lit "multipart/form-data")) then
      Err (make_error unsupported_media_type (lit "expected multipart/form-data"))
    else
      found ← parse_params (make_error malformed_content_type []) boundary_param content_type separator None;
      match found with
      | None => Err (make_error multipart_missing_boundary [])
      | Some boundary =>
        if valid_boundary boundary then Ok boundary else Err (make_error multipart_invalid_boundary [])
      end
  end.

(** ** Content-Disposition *)

Record multipart_disposition := Disposition { dp_name : str; dp_filename : option str }.

(** [saw_name] with [info.name], [saw_filename] with [info.filename]. *)
Definition disposition_param (name value : str) (state : option str * option str)
    : result error (option str * option str) :=
  if ascii_iequals name (lit "name") then
    match state.1 with
    | Some _ => Err (make_error multipart_malformed_part_header (lit "duplicate name parameter"))
    | None => Ok (Some value, state.2)
    end
  else if ascii_iequals name (lit "filename") then
    match state.2 with
    | Some _ => Err (make_error multipart_malformed_part_header (lit "duplicate filename parameter"))
    | None => Ok (state.1, Some value)
    end
  else Ok state.

Definition parse_multipart_content_disposition (value : str) : result error multipart_disposition :=
  let separator := find_unquoted value ";" 0 in
  if negb (ascii_iequals (trim_ows (before value separator)) (lit "form-data")) then
    Err (make_error multipart_malformed_part_header (lit "content-disposition must be form-data"))
  else
    found ← parse_params (make_error multipart_malformed_part_header []) disposition_param value separator (None, None);
    let name := default [] found.1 in
    if bool_decide (name = []) || contains_ctl name then
      Err (make_error multipart_malformed_part_header (lit "missing or invalid name parameter"))
    else if match found.2 with Some filename => contains_ctl filename | None => false end then
      Err (make_error multipart_malformed_part_header (lit "invalid filename parameter"))
    else Ok (Disposition name found.2).

(** ** The header block of a part *)

Record multipart_limits := MultipartLimits {
  max_total_bytes : Z;
  max_file_bytes : Z;
  max_field_bytes : Z;
  max_part_header_bytes : Z;
  max_part_headers : Z;
  max_parts : Z;
  max_field_name_bytes : Z;
  max_filename_bytes : Z
}.

Record part_header_state := PartHeaderState {
  ph_headers : headers; ph_disposition : option str; ph_content_type : bool
}.

Definition malformed_header (detail : str) : result error part_header_state :=
  Err (make_error multipart_malformed_part_header detail).

Definition parse_part_header_line (line : str) (st : part_header_state) : result error part_header_state :=
  if match line with c :: _ => is_ows c | [] => false end then
    malformed_header (lit "folded part headers are not supported")
  else
    match find_char ":" line with
    | None | Some O => malformed_header []
    | Some colon =>
      let name := trim_ows (take colon line) in
      let value := trim_ows (drop (S colon) line) in
      let added := headers_add (ph_headers st) name value in
      if bool_decide (name = []) || contains_ctl name then malformed_header []
      else if ascii_iequals name (lit "content-disposition") then
        match ph_disposition st with
        | Some _ => malformed_header (lit "duplicate content-disposition")
        | None => Ok (PartHeaderState added (Some value) (ph_content_type st))
        end
      else if ascii_iequals name (lit "content-type") then
        if ph_content_type st then malformed_header (lit "duplicate content-type")
        else Ok (PartHeaderState added (ph_disposition st) true)
      else if ascii_iequals name (lit "content-transfer-encoding") && negb (ascii_iequals value (lit "7bit")) &&
              negb (ascii_iequals value (lit "8bit")) && negb (ascii_iequals value (lit "binary")) then
        malformed_header (lit "unsupported content-transfer-encoding")
      else Ok (PartHeaderState added (ph_disposition st) (ph_content_type st))
    end.

Fixpoint part_header_loop (fuel : nat) (block : str) (offset : nat) (st : part_header_state)
    : result error part_header_state :=
  match fuel with
  | O => Ok st
  | S fuel' =>
    if (offset <? length block)%nat then
      match find_sub_from crlf block offset with
      | None => parse_part_header_line (drop offset block) st
      | Some line_end =>
        st' ← parse_part_header_line (substr block offset (line_end - offset)) st;
        part_header_loop fuel' block (line_end + 2) st'
      end
    else Ok st
  end.

Definition parse_part_header_block (block : str) (limits : multipart_limits)
    : result error (multipart_disposition * headers) :=
  if max_part_headers limits <? count_header_lines block then
    Err (make_error multipart_limit_exceeded (lit "multipart part has too many headers"))
  else
    parsed ← part_header_loop (S (length block)) block 0 (PartHeaderState [] None false);
    match ph_disposition parsed with
    | None => Err (make_error multipart_malformed_part_header (lit "missing content-disposition"))
    | Some content_disposition =>
      disposition ← parse_multipart_content_disposition content_disposition;
      if max_field_name_bytes limits <? size (dp_name disposition) then
        Err (make_error multipart_limit_exceeded (lit "multipart field name is too large"))
      else if match dp_filename disposition with
              | Some filename => max_filename_bytes limits <? size filename | None => false end then
        Err (make_error multipart_limit_exceeded (lit "multipart filename is too large"))
      else Ok (disposition, ph_headers parsed)
    end.

(** ** Delimiters *)

Inductive delimiter_search_result :=
| delimiter_found (position : nat) (suffix : str)
| delimiter_not_found
| delimiter_need_more (position : nat).

Fixpoint find_delimiter_loop (fuel : nat) (buffer delimiter : str) (search : nat) : delimiter_search_result :=
  match fuel with
  | O => delimiter_not_found
  | S fuel' =>
    if (search <? length buffer)%nat then
      match find_sub_from delimiter buffer search with
      | None => delimiter_not_found
      | Some position =>
        let suffix_offset := (position + length delimiter)%nat in
        if (length buffer <? suffix_offset + 2)%nat then delimiter_need_more position
        else
          let suffix := substr buffer suffix_offset 2 in
          if str_eqb suffix crlf || str_eqb suffix (lit "--") then delimiter_found position suffix
          else find_delimiter_loop fuel' buffer delimiter (S position)
      end
    else delimiter_not_found
  end.

Definition find_next_multipart_delimiter (buffer delimiter : str) (offset : nat) : delimiter_search_result :=
  find_delimiter_loop (S (length buffer)) buffer delimiter offset.

(** ** Safe file names *)

Definition unsafe_filename_char (ch : ascii) : bool :=
  is_char "/" ch || is_char "\" ch || is_char ":" ch || is_ctl ch.

Definition make_safe_filename (filename : option str) : str :=
  match filename with
  | None => []
  | Some filename =>
    match List.filter (λ ch, negb (unsafe_filename_char ch)) filename with
    | [] => lit "upload"
    | out => out
    end
  end.
