(* ===== verification/MultipartTheory.v ===== *)
(** * Lemmas on multipart syntax

    The delimiter search against a declarative reading of "the first real
    delimiter", for a whole text and for a text of which more may follow;
    quoting, trimming and parameter lists. *)

From S2P Require Import Prelude Text Http HttpError Multipart.

Open Scope nat_scope.

(** ** Substrings of extended texts *)

Lemma starts_with_app_r s t p : length p ≤ length s → starts_with (s ++ t) p = starts_with s p.
Proof.
  revert s. induction p as [|c p IH]; intros s Hl; [by destruct s, t|].
  destruct s as [|d s]; cbn in *; [lia|]. f_equal. apply IH. lia.
Qed.

Lemma starts_with_app_true s t p : starts_with s p = true → starts_with (s ++ t) p = true.
Proof. intros H. rewrite starts_with_app_r; [done|]. by apply starts_with_length. Qed.

Lemma starts_with_prefix_of s p q : starts_with s (p ++ q) = starts_with s p && starts_with (drop (length p) s) q.
Proof.
  revert s. induction p as [|c p IH]; intros s; [by destruct s|]. destruct s as [|d s]; cbn; [done|].
  by rewrite IH, andb_assoc.
Qed.

Lemma starts_with_cons_head c p s : starts_with s (c :: p) = true → head s = Some c.
Proof. destruct s; cbn; [done|]. rewrite andb_true_iff, Ascii.eqb_eq. by intros [-> _]. Qed.

(** An occurrence of [needle] found in a text is found in an extension of it. *)
Lemma find_sub_app needle s t i : find_sub needle s = Some i → find_sub needle (s ++ t) = Some i.
Proof.
  intros (H1 & H2 & H3)%find_sub_Some. pose proof (starts_with_length _ _ H1) as Hl. rewrite length_drop in Hl.
  apply find_sub_intro; [|intros j Hj|rewrite length_app; lia].
  - rewrite drop_app_le by lia. by apply starts_with_app_true.
  - rewrite drop_app_le by lia. rewrite starts_with_app_r; [by apply H2|]. rewrite length_drop. lia.
Qed.

Lemma find_sub_from_drop needle s off i :
  find_sub_from needle s off = Some i ↔ ∃ k, find_sub needle (drop off s) = Some k ∧ i = off + k ∧ off ≤ length s.
Proof.
  unfold find_sub_from. destruct (decide (off ≤ length s)).
  - rewrite fmap_Some. split; [intros (k & ? & ->)|intros (k & ? & -> & _)]; eauto.
  - split; [done|]. intros (? & _ & _ & ?). lia.
Qed.

Lemma find_sub_from_app needle pre s :
  find_sub_from needle (pre ++ s) (length pre) = (λ i, length pre + i) <$> find_sub needle s.
Proof. unfold find_sub_from. rewrite decide_True by (rewrite length_app; lia). by rewrite drop_app_length. Qed.

(** ** Delimiters *)

(** A delimiter counts when a line end or the final dashes follow it. *)
Definition delimiter_at (delimiter s : str) : bool :=
  starts_with s (delimiter ++ crlf) || starts_with s (delimiter ++ lit "--").

Lemma delimiter_at_starts delimiter s : delimiter_at delimiter s = true → starts_with s delimiter = true.
Proof.
  unfold delimiter_at. rewrite !starts_with_prefix_of, <-andb_orb_distrib_r, andb_true_iff. by intros [? _].
Qed.

Lemma delimiter_at_app_r delimiter s t :
  length delimiter + 2 ≤ length s → delimiter_at delimiter (s ++ t) = delimiter_at delimiter s.
Proof. intros H. unfold delimiter_at. rewrite !starts_with_app_r; [done|rewrite length_app; cbn; lia..]. Qed.

(** No delimiter can start at position [j] of the buffer, whatever follows. *)
Definition ruled_out (buffer delimiter : str) (j : nat) : Prop :=
  ∀ more, delimiter_at delimiter (drop j (buffer ++ more)) = false.

Lemma ruled_out_short buffer delimiter j :
  j + length delimiter ≤ length buffer → starts_with (drop j buffer) delimiter = false → ruled_out buffer delimiter j.
Proof.
  intros Hj H more. destruct (delimiter_at _ _) eqn:E; [|done]. apply delimiter_at_starts in E.
  rewrite drop_app_le, starts_with_app_r in E by (rewrite ?length_drop; lia). congruence.
Qed.

Lemma ruled_out_full buffer delimiter j :
  j + length delimiter + 2 ≤ length buffer → delimiter_at delimiter (drop j buffer) = false → ruled_out buffer delimiter j.
Proof. intros Hj H more. rewrite drop_app_le by lia. rewrite delimiter_at_app_r; [done|]. rewrite length_drop. lia. Qed.

Lemma suffix_cases s delimiter j :
  length delimiter + 2 + j ≤ length s → starts_with (drop j s) delimiter = true →
  let suffix := substr s (j + length delimiter) 2 in
  (str_eqb suffix crlf || str_eqb suffix (lit "--")) = delimiter_at delimiter (drop j s).
Proof.
  intros Hl Hs suffix. unfold delimiter_at. rewrite !starts_with_prefix_of, Hs, !drop_drop. cbn [andb].
  unfold suffix, substr.
  assert (H2 : ∀ p t, length p = 2 → 2 ≤ length t → str_eqb (take 2 t) p = starts_with t p).
  { intros p t Hp Ht. apply eq_iff_eq_true. unfold str_eqb. rewrite bool_decide_eq_true, starts_with_spec. split.
    - intros <-. exists (drop 2 t). by rewrite take_drop.
    - intros [u ->]. rewrite take_app_le by lia. apply take_ge. lia. }
  rewrite !H2; [done|done|rewrite length_drop; lia|done|rewrite length_drop; lia].
Qed.

(** What each outcome of the search says. *)
Definition search_ok (buffer delimiter : str) (offset : nat) (res : delimiter_search_result) : Prop :=
  match res with
  | delimiter_found p suffix =>
    offset ≤ p ∧ p + length delimiter + 2 ≤ length buffer ∧ (suffix = crlf ∨ suffix = lit "--") ∧
    starts_with (drop p buffer) (delimiter ++ suffix) = true ∧ ∀ j, offset ≤ j < p → ruled_out buffer delimiter j
  | delimiter_not_found => ∀ j, offset ≤ j → j + length delimiter ≤ length buffer → ruled_out buffer delimiter j
  | delimiter_need_more p =>
    offset ≤ p ∧ p + length delimiter ≤ length buffer < p + length delimiter + 2 ∧
    ∀ j, offset ≤ j < p → ruled_out buffer delimiter j
  end.

Lemma search_ok_earlier buffer delimiter offset offset' res :
  offset ≤ offset' → (∀ j, offset ≤ j < offset' → ruled_out buffer delimiter j) →
  search_ok buffer delimiter offset' res → search_ok buffer delimiter offset res.
Proof.
  intros Ho Hr. assert (Hcase : ∀ p, (∀ j, offset' ≤ j < p → ruled_out buffer delimiter j) →
    ∀ j, offset ≤ j < p → ruled_out buffer delimiter j).
  { intros p Hp j Hj. destruct (decide (j < offset')); [apply Hr; lia|apply Hp; lia]. }
  destruct res as [p suffix| |p]; cbn.
  - intros (? & ? & ? & ? & Hp). split_and!; [lia|lia|done|done|]. by apply Hcase.
  - intros Hn j Hj Hl. destruct (decide (j < offset')); [apply Hr; lia|apply Hn; lia].
  - intros (? & ? & Hp). split_and!; [lia|lia|lia|]. by apply Hcase.
Qed.

Lemma find_delimiter_loop_ok fuel buffer delimiter search :
  delimiter ≠ [] → length buffer < fuel + search →
  search_ok buffer delimiter search (find_delimiter_loop fuel buffer delimiter search).
Proof.
  intros Hd. revert search. induction fuel as [|fuel IH]; intros search Hf; cbn [find_delimiter_loop].
  { cbn. intros j ? ?. lia. }
  assert (0 < length delimiter) by (destruct delimiter; cbn; [done|lia]).
  destruct (search <? length buffer) eqn:E; [|breflect; cbn; intros; lia]. breflect.
  destruct (find_sub_from _ _ _) as [p|] eqn:F.
  2: { unfold find_sub_from in F. rewrite decide_True in F by lia. apply fmap_None in F. cbn. intros j Hj Hl.
       apply ruled_out_short; [lia|]. pose proof (find_sub_None _ _ F (j - search)) as Hn.
       rewrite drop_drop, length_drop in Hn. replace (search + (j - search)) with j in Hn by lia. apply Hn. lia. }
  apply find_sub_from_drop in F as (k & F & -> & _). apply find_sub_Some in F as (F1 & F2 & F3).
  rewrite drop_drop in F1. rewrite length_drop in F3.
  assert (Hbefore : ∀ j, search ≤ j < search + k → ruled_out buffer delimiter j).
  { intros j Hj. apply ruled_out_short.
    - pose proof (starts_with_length _ _ F1) as Hl. rewrite length_drop in Hl. lia.
    - specialize (F2 (j - search) ltac:(lia)). rewrite drop_drop in F2.
      by replace (search + (j - search)) with j in F2 by lia. }
  pose proof (starts_with_length _ _ F1) as Hl. rewrite length_drop in Hl.
  destruct (length buffer <? _) eqn:Eb; breflect; [cbn; split_and!; [lia|lia|lia|done]|].
  rewrite suffix_cases by (done || lia). destruct (delimiter_at _ _) eqn:Ed.
  - assert (H2 : ∃ suffix, (suffix = crlf ∨ suffix = lit "--") ∧ starts_with (drop (search + k) buffer) (delimiter ++ suffix) = true).
    { unfold delimiter_at in Ed. apply orb_true_iff in Ed as [?|?]; eauto. }
    destruct H2 as (suffix & Hs & Hst). pose proof Hst as Ht. rewrite starts_with_prefix_of in Ht.
    apply andb_true_iff in Ht as [_ (t & Ht)%starts_with_spec]. rewrite drop_drop in Ht.
    assert (substr buffer (search + k + length delimiter) 2 = suffix) as ->.
    { unfold substr. rewrite Ht. rewrite take_app_le by (destruct Hs as [-> | ->]; cbn; lia).
      apply take_ge. destruct Hs as [-> | ->]; cbn; lia. }
    cbn. split_and!; [lia|lia|done|done|done].
  - eapply search_ok_earlier; [| |apply IH; lia]; [lia|].
    intros j Hj. destruct (decide (j = search + k)) as [->|]; [|apply Hbefore; lia].
    apply ruled_out_full; [lia|done].
Qed.

Lemma find_delimiter_ok buffer delimiter offset :
  delimiter ≠ [] → search_ok buffer delimiter offset (find_next_multipart_delimiter buffer delimiter offset).
Proof. intros H. apply find_delimiter_loop_ok; [done|lia]. Qed.

(** The search finds the first real delimiter after a payload without one. *)
Definition clean (delimiter payload rest : str) : Prop :=
  ∀ j, j < length payload → delimiter_at delimiter (drop j (payload ++ delimiter ++ rest)) = false.

Lemma find_delimiter_intro pre payload delimiter suffix rest :
  delimiter ≠ [] → suffix = crlf ∨ suffix = lit "--" → clean delimiter payload (suffix ++ rest) →
  find_next_multipart_delimiter (pre ++ payload ++ delimiter ++ suffix ++ rest) delimiter (length pre) =
    delimiter_found (length pre + length payload) suffix.
Proof.
  intros Hd Hs Hc. set (buffer := pre ++ _).
  assert (H2 : length suffix = 2) by (destruct Hs as [-> | ->]; done).
  assert (Hat : ∀ j, length pre ≤ j → drop j buffer = drop (j - length pre) (payload ++ delimiter ++ suffix ++ rest)).
  { intros j Hj. unfold buffer. by rewrite drop_app_ge. }
  assert (Hreal : drop (length pre + length payload) buffer = (delimiter ++ suffix) ++ rest).
  { rewrite Hat by lia. replace (length pre + length payload - length pre) with (length payload) by lia.
    by rewrite drop_app_length, app_assoc. }
  assert (Hlen : length buffer = length pre + length payload + length delimiter + 2 + length rest)
    by (unfold buffer; rewrite !length_app; lia).
  assert (Hno : ¬ ruled_out buffer delimiter (length pre + length payload)).
  { intros H. specialize (H []). rewrite app_nil_r, Hreal in H. unfold delimiter_at in H.
    apply orb_false_iff in H as [Ha Hb].
    destruct Hs as [-> | ->]; [rewrite starts_with_app in Ha|rewrite starts_with_app in Hb]; done. }
  assert (Hbefore : ∀ j, length pre ≤ j < length pre + length payload → delimiter_at delimiter (drop j buffer) = false).
  { intros j Hj. rewrite Hat by lia. apply Hc. lia. }
  pose proof (find_delimiter_ok buffer delimiter (length pre) Hd) as Hok.
  destruct (find_next_multipart_delimiter _ _ _) as [p sfx| |p]; unfold search_ok in Hok.
  - destruct Hok as (Hp & Hpl & Hsfx & Hst & Hr).
    assert (p = length pre + length payload) as ->.
    { destruct (Nat.lt_trichotomy p (length pre + length payload)) as [H|[H|H]]; [|done|].
      - specialize (Hbefore p ltac:(lia)). unfold delimiter_at in Hbefore. apply orb_false_iff in Hbefore as [Ha Hb].
        destruct Hsfx as [-> | ->]; congruence.
      - exfalso. apply Hno, Hr. lia. }
    rewrite Hreal in Hst. f_equal. rewrite starts_with_prefix_of in Hst. apply andb_true_iff in Hst as [_ Hst].
    rewrite <-app_assoc, drop_app_length in Hst. apply starts_with_spec in Hst as [t Hst].
    destruct Hs as [-> | ->], Hsfx as [-> | ->]; cbn in Hst; by inversion Hst.
  - exfalso. apply Hno, Hok; lia.
  - destruct Hok as (Hp & Hpl & Hr). exfalso. apply Hno, Hr. lia.
Qed.

(** ... and conversely. *)
Lemma find_delimiter_elim pre text delimiter p suffix :
  delimiter ≠ [] →
  find_next_multipart_delimiter (pre ++ text) delimiter (length pre) = delimiter_found p suffix →
  ∃ payload rest, text = payload ++ delimiter ++ suffix ++ rest ∧ p = length pre + length payload ∧
    (suffix = crlf ∨ suffix = lit "--") ∧ clean delimiter payload (suffix ++ rest).
Proof.
  intros Hd E. pose proof (find_delimiter_ok (pre ++ text) delimiter (length pre) Hd) as Hok. rewrite E in Hok.
  destruct Hok as (Hp & Hpl & Hs & (rest & Hst)%starts_with_spec & Hr).
  rewrite drop_app_ge in Hst by lia. set (payload := take (p - length pre) text).
  assert (Ht : text = payload ++ delimiter ++ suffix ++ rest).
  { unfold payload. rewrite <-(take_drop (p - length pre) text) at 1. f_equal. by rewrite Hst, app_assoc. }
  rewrite length_app in Hpl.
  assert (Hpay : length payload = p - length pre) by (unfold payload; rewrite length_take; lia).
  exists payload, rest. split_and!; [done|lia|done|].
  intros j Hj. specialize (Hr (length pre + j) ltac:(lia) []).
  rewrite app_nil_r, drop_app_ge in Hr by lia. rewrite <-Ht. by replace (length pre + j - length pre) with j in Hr by lia.
Qed.

(** A payload in which the delimiter does not occur is clean: a delimiter
    starts with a carriage return and has no other, so it cannot overlap
    itself. *)
Lemma no_occurrence_clean t payload rest :
  "013"%char ∉ t → find_sub ("013"%char :: t) payload = None → clean ("013"%char :: t) payload rest.
Proof.
  intros Ht Hn j Hj. destruct (delimiter_at _ _) eqn:E; [|done]. apply delimiter_at_starts in E.
  rewrite drop_app_le in E by lia. set (tail := drop j payload) in *.
  assert (Hl : length tail = length payload - j) by (unfold tail; by rewrite length_drop).
  destruct (decide (length ("013"%char :: t) ≤ length tail)) as [Hle|Hgt].
  - rewrite starts_with_app_r in E by done. pose proof (find_sub_None _ _ Hn j ltac:(lia)) as Hj'. fold tail in Hj'. congruence.
  - exfalso. apply Ht. apply starts_with_spec in E as [u E].
    destruct tail as [|c tail]; [cbn in Hl; lia|]. cbn in E. injection E as <- E.
    apply (f_equal (λ l, l !! length tail)) in E. rewrite lookup_app_r, Nat.sub_diag in E by done. cbn in E.
    rewrite lookup_app_l in E by (cbn in Hgt; lia). symmetry in E. by apply list_elem_of_lookup_2 in E.
Qed.

(** ** Trimming and quoting *)

Lemma trim_left_id s : (∀ c, head s = Some c → is_ows c = false) → trim_left s = s.
Proof. destruct s as [|c s]; cbn; [done|]. intros H. by rewrite (H c eq_refl). Qed.

Lemma trim_ows_id s :
  (∀ c, head s = Some c → is_ows c = false) → (∀ c, last s = Some c → is_ows c = false) → trim_ows s = s.
Proof.
  intros Hh Hl. unfold trim_ows. rewrite (trim_left_id s) by done. rewrite trim_left_id; [apply rev_involutive|].
  intros c. rewrite <-(rev_involutive s) in Hl. destruct (rev s) as [|d t]; cbn; [done|]. intros [= <-].
  apply Hl. cbn. apply last_snoc.
Qed.

Lemma trim_ows_cons c s : is_ows c = true → trim_ows (c :: s) = trim_ows s.
Proof. intros H. unfold trim_ows. cbn. by rewrite H. Qed.

Definition dquote : ascii := "034".

Definition quote_char (c : ascii) : str := if is_char "\" c || is_char dquote c then ["\"%char; c] else [c].

Definition quote (value : str) : str := dquote :: flat_map quote_char value ++ [dquote].

Definition quotable (value : str) : Prop := Forall (λ c, is_break c = false) value.

Lemma last_app_dquote s : last (dquote :: s ++ [dquote]) = Some dquote.
Proof. change (dquote :: s ++ [dquote]) with ((dquote :: s) ++ [dquote]). apply last_snoc. Qed.

Lemma trim_quote value : trim_ows (quote value) = quote value.
Proof. apply trim_ows_id; intros c; [by intros [= <-]|]. unfold quote. rewrite last_app_dquote. by intros [= <-]. Qed.

Lemma quoted_loop_quote value out :
  quotable value → quoted_loop (flat_map quote_char value ++ [dquote]) false out = Some (out ++ value).
Proof.
  intros H. revert out. induction H as [|c value Hc _ IH]; intros out.
  { cbn. by rewrite app_nil_r. }
  cbn [flat_map]. rewrite <-app_assoc. unfold quote_char at 1.
  destruct (is_char "\" c) eqn:E1; cbn [orb].
  { cbn [app quoted_loop]. rewrite is_char_refl, Hc, IH. by rewrite <-app_assoc. }
  destruct (is_char dquote c) eqn:E2.
  - cbn [app quoted_loop]. rewrite is_char_refl, Hc, IH. by rewrite <-app_assoc.
  - cbn [app quoted_loop]. change (is_char "034" c) with (is_char dquote c). rewrite E1, E2, Hc, IH.
    by rewrite <-app_assoc.
Qed.

Lemma parse_parameter_quote value : quotable value → parse_parameter_value (quote value) = Some value.
Proof.
  intros H. unfold parse_parameter_value. rewrite trim_quote. unfold quote at 1. cbn.
  rewrite length_app. cbn. rewrite Nat.add_comm. cbn. by rewrite quoted_loop_quote.
Qed.

Definition plain (needle : ascii) (s : str) : Prop := none_of (is_char needle) s ∧ none_of (is_char dquote) s.

Lemma unquoted_plain needle s rest :
  plain needle s → unquoted_loop needle false false (s ++ rest) = (λ i, length s + i) <$> unquoted_loop needle false false rest.
Proof.
  induction s as [|c s IH]; intros [Hn Hq]; [cbn; by destruct (unquoted_loop _ _ _ rest)|].
  apply none_of_cons in Hn as [Hn1 Hn2]. apply none_of_cons in Hq as [Hq1 Hq2]. cbn [app unquoted_loop andb negb].
  change (is_char "034" c) with (is_char dquote c). rewrite Hq1, Hn1, IH by done. by destruct (unquoted_loop _ _ _ rest).
Qed.

Lemma unquoted_quoted needle value rest :
  unquoted_loop needle true false (flat_map quote_char value ++ dquote :: rest) =
    (λ i, S (length (flat_map quote_char value)) + i) <$> unquoted_loop needle false false rest.
Proof.
  induction value as [|c value IH]; [done|]. cbn [flat_map]. rewrite <-app_assoc, length_app. unfold quote_char at 1 3.
  destruct (is_char "\" c) eqn:E1; cbn [orb]; [|destruct (is_char dquote c) eqn:E2].
  - cbn [app unquoted_loop andb]. rewrite is_char_refl, IH. cbn. by destruct (unquoted_loop _ _ _ rest).
  - cbn [app unquoted_loop andb]. rewrite is_char_refl, IH. cbn. by destruct (unquoted_loop _ _ _ rest).
  - cbn [app unquoted_loop andb negb]. change (is_char "034" c) with (is_char dquote c).
    rewrite E1, E2, IH. cbn. by destruct (unquoted_loop _ _ _ rest).
Qed.

Lemma unquoted_quote needle value rest :
  unquoted_loop needle false false (quote value ++ rest) =
    (λ i, length (quote value) + i) <$> unquoted_loop needle false false rest.
Proof.
  unfold quote. cbn [app unquoted_loop andb]. change (is_char "034" dquote) with true. cbn [negb].
  rewrite <-app_assoc. cbn [app]. rewrite unquoted_quoted. cbn [length]. rewrite length_app. cbn [length].
  destruct (unquoted_loop _ _ _ rest); cbn; [f_equal; lia|done].
Qed.

Lemma unquoted_plain_end needle s : plain needle s → unquoted_loop needle false false s = None.
Proof. intros H. rewrite <-(app_nil_r s), unquoted_plain by done. done. Qed.

(** ** Parameter lists *)

Section params.
Context {State : Type} (bad : error) (on_param : str → str → State → result error State).

Lemma params_loop_last fuel pre raw state :
  unquoted_loop ";" false false raw = None → raw ≠ [] →
  params_loop bad on_param (S fuel) (pre ++ raw) (length pre) state = parse_param bad on_param raw state.
Proof.
  intros Hu Hr. cbn [params_loop]. rewrite (proj2 (Nat.ltb_lt _ _)) by (rewrite length_app; destruct raw; cbn; [done|lia]).
  unfold find_unquoted. by rewrite drop_app_length, Hu.
Qed.

Lemma params_loop_next fuel pre raw rest state :
  unquoted_loop ";" false false (raw ++ ";"%char :: rest) = Some (length raw) →
  params_loop bad on_param (S fuel) (pre ++ raw ++ ";"%char :: rest) (length pre) state =
    (state' ← parse_param bad on_param raw state;
     params_loop bad on_param fuel ((pre ++ raw ++ [";"%char]) ++ rest) (length (pre ++ raw ++ [";"%char])) state').
Proof.
  intros Hu. cbn [params_loop]. rewrite (proj2 (Nat.ltb_lt _ _)) by (rewrite !length_app; cbn; lia).
  unfold find_unquoted. rewrite drop_app_length, Hu. cbn [fmap option_fmap option_map].
  unfold substr. rewrite drop_app_length. replace (length pre + length raw - length pre) with (length raw) by lia.
  rewrite take_app_length. rewrite <-!app_assoc. cbn [app]. rewrite !length_app. cbn [length].
  by replace (S (length pre + length raw)) with (length pre + (length raw + 1)) by lia.
Qed.

(** A parameter [ name="value"]. *)
Definition quoted_param (name value : str) : str := " "%char :: name ++ "="%char :: quote value.

Definition param_name_ok (name : str) : Prop :=
  none_of (is_char "=") name ∧ plain ";" name ∧ trim_ows name = name.

Lemma parse_quoted_param name value state :
  param_name_ok name → quotable value →
  parse_param bad on_param (quoted_param name value) state = on_param name value state.
Proof.
  intros (He & _ & Ht) Hv. unfold parse_param, quoted_param, find_char.
  change (" "%char :: name ++ "="%char :: quote value) with ((" "%char :: name) ++ "="%char :: quote value).
  rewrite find_if_here; [|by apply none_of_cons|apply is_char_refl].
  rewrite drop_S_app, take_app_length, parse_parameter_quote by done.
  by rewrite trim_ows_cons, Ht.
Qed.

Lemma unquoted_param name value rest :
  param_name_ok name →
  unquoted_loop ";" false false (quoted_param name value ++ rest) =
    (λ i, length (quoted_param name value) + i) <$> unquoted_loop ";" false false rest.
Proof.
  intros (_ & [Hn1 Hn2] & _). unfold quoted_param.
  replace ((" "%char :: name ++ "="%char :: quote value) ++ rest) with
    ((" "%char :: name ++ ["="%char]) ++ quote value ++ rest) by (cbn [app]; by rewrite <-!app_assoc).
  rewrite unquoted_plain, unquoted_quote.
  - destruct (unquoted_loop _ _ _ rest); cbn [fmap option_fmap option_map]; [|done].
    cbn [length]. rewrite !length_app. cbn [length]. f_equal. lia.
  - split; apply none_of_cons; (split; [done|]); apply none_of_app; (split; [done|]);
      apply none_of_cons; (split; [done|constructor]).
Qed.
End params.

(** ** Header blocks *)

Definition no_cr (s : str) : Prop := none_of (is_char "013") s.

Lemma no_cr_starts t s : no_cr s → s ≠ [] → ∀ u, starts_with (s ++ u) ("013"%char :: t) = false.
Proof.
  intros H Hs u. destruct s as [|c s]; [done|]. apply none_of_cons in H as [H _].
  cbn [app starts_with]. change (Ascii.eqb "013" c) with (is_char "013" c). by rewrite H.
Qed.

Lemma no_cr_find t s rest : no_cr s → find_sub ("013"%char :: t) (s ++ ("013"%char :: t) ++ rest) = Some (length s).
Proof.
  intros H. apply find_sub_intro; [|intros j Hj|rewrite length_app; lia].
  - rewrite drop_app_length. apply starts_with_app.
  - rewrite drop_app_le by lia. apply no_cr_starts.
    + unfold no_cr, none_of in *. by apply Forall_drop.
    + intros He. apply (f_equal length) in He. rewrite length_drop in He. cbn in He. lia.
Qed.

Lemma no_cr_not_found t s : no_cr s → find_sub ("013"%char :: t) s = None.
Proof.
  intros H. induction s as [|c s IH]; [done|]. cbn [find_sub].
  pose proof (no_cr_starts t (c :: s) H ltac:(done) []) as Hs. rewrite app_nil_r in Hs. rewrite Hs.
  apply none_of_cons in H as [_ H]. by rewrite IH.
Qed.

(** Lines separated by line ends. *)
Fixpoint join_lines (lines : list str) : str :=
  match lines with
  | [] => []
  | [line] => line
  | line :: lines' => line ++ crlf ++ join_lines lines'
  end.

Definition line_ok (line : str) : Prop := no_cr line ∧ line ≠ [].

Lemma length_join_lines lines : Forall line_ok lines → length lines ≤ length (join_lines lines).
Proof.
  induction 1 as [|line lines [_ Hl] Hr IH]; [done|]. assert (1 ≤ length line) by (destruct line; cbn; [done|lia]).
  destruct lines as [|l2 lines]; [cbn in *; lia|].
  change (join_lines (line :: l2 :: lines)) with (line ++ crlf ++ join_lines (l2 :: lines)).
  rewrite !length_app. cbn [length]. cbn [length] in IH. lia.
Qed.

Fixpoint parse_lines (lines : list str) (st : part_header_state) : result error part_header_state :=
  match lines with
  | [] => Ok st
  | line :: lines' => st' ← parse_part_header_line line st; parse_lines lines' st'
  end.

Lemma part_header_loop_lines lines fuel pre st :
  Forall line_ok lines → length lines < fuel →
  part_header_loop fuel (pre ++ join_lines lines) (length pre) st = parse_lines lines st.
Proof.
  intros H. revert fuel pre st. induction H as [|line lines [Hc Hl] Hr IH]; intros fuel pre st Hf;
    (destruct fuel as [|fuel]; [lia|]).
  { cbn [join_lines part_header_loop parse_lines]. by rewrite app_nil_r, Nat.ltb_irrefl. }
  destruct lines as [|l2 lines].
  - cbn [join_lines part_header_loop parse_lines].
    rewrite (proj2 (Nat.ltb_lt _ _)) by (rewrite length_app; destruct line; cbn; [done|lia]).
    rewrite find_sub_from_app. unfold crlf at 1. rewrite no_cr_not_found by done. cbn.
    rewrite drop_app_length. by destruct (parse_part_header_line line st).
  - cbn [part_header_loop]. change (join_lines (line :: l2 :: lines)) with (line ++ crlf ++ join_lines (l2 :: lines)).
    rewrite (proj2 (Nat.ltb_lt _ _)) by (rewrite !length_app; destruct line; cbn; [done|lia]).
    rewrite find_sub_from_app. unfold crlf at 1 2. rewrite no_cr_find by done. cbn [fmap option_fmap option_map].
    unfold substr. rewrite drop_app_length. replace (length pre + length line - length pre) with (length line) by lia.
    rewrite take_app_length.
    change (parse_lines (line :: l2 :: lines) st) with (parse_part_header_line line st ≫= parse_lines (l2 :: lines)). destruct (parse_part_header_line line st) as [st'|]; [|done].
    cbn [mbind result_bind]. cbn [length] in Hf. rewrite <-(IH fuel (pre ++ line ++ crlf) st') by (cbn; lia).
    rewrite !length_app, <-!app_assoc. cbn [length crlf].
    by replace (length pre + length line + 2) with (length pre + (length line + 2)) by lia.
Qed.

Lemma crlf_count_lines lines fuel pre n :
  Forall line_ok lines → lines ≠ [] → length lines ≤ fuel →
  crlf_count fuel (pre ++ join_lines lines) (length pre) n = (n + Z.of_nat (length lines) - 1)%Z.
Proof.
  intros H. revert fuel pre n. induction H as [|line lines [Hc Hl] Hr IH]; intros fuel pre n Hne Hf; [done|].
  destruct fuel as [|fuel]; cbn [length] in Hf; [lia|]. destruct lines as [|l2 lines].
  - cbn [join_lines crlf_count]. rewrite find_sub_from_app. unfold crlf. rewrite no_cr_not_found by done. cbn. lia.
  - cbn [crlf_count]. change (join_lines (line :: l2 :: lines)) with (line ++ crlf ++ join_lines (l2 :: lines)).
    rewrite find_sub_from_app. unfold crlf at 1 2. rewrite no_cr_find by done. cbn [fmap option_fmap option_map].
    replace (length pre + length line + 2) with (length (pre ++ line ++ crlf)) by (rewrite !length_app; cbn; lia).
    replace (pre ++ line ++ crlf ++ join_lines (l2 :: lines)) with ((pre ++ line ++ crlf) ++ join_lines (l2 :: lines))
      by by rewrite <-!app_assoc.
    rewrite IH by (done || lia). cbn [length]. lia.
Qed.

Lemma count_lines lines : Forall line_ok lines → lines ≠ [] → count_header_lines (join_lines lines) = Z.of_nat (length lines).
Proof.
  intros H Hne. pose proof (length_join_lines lines H) as Hl. unfold count_header_lines.
  destruct (join_lines lines) eqn:E; [destruct lines; cbn in Hl; [done|lia]|]. rewrite <-E in *.
  rewrite (crlf_count_lines lines _ []) by (done || lia). lia.
Qed.

Lemma no_cr_app s t : no_cr s → no_cr t → no_cr (s ++ t).
Proof. intros. by apply none_of_app. Qed.

(** No blank line inside a block of good lines. *)
Lemma join_lines_no_blank lines rest :
  Forall line_ok lines → lines ≠ [] → find_sub crlf2 (join_lines lines ++ crlf2 ++ rest) = Some (length (join_lines lines)).
Proof.
  intros H. induction H as [|line lines [Hc Hl] Hr IH]; intros Hne; [done|]. destruct lines as [|l2 lines].
  { by apply (no_cr_find (tail crlf2)). }
  change (join_lines (line :: l2 :: lines)) with (line ++ crlf ++ join_lines (l2 :: lines)).
  specialize (IH ltac:(done)). apply find_sub_Some in IH as (I1 & I2 & I3).
  set (others := join_lines (l2 :: lines)) in *.
  assert (Hhead : ∀ u, starts_with (others ++ u) crlf = false).
  { intros u. inversion Hr as [|?? [Hc2 Hl2] _]; subst. unfold others, crlf. destruct lines.
    - by apply no_cr_starts.
    - cbn [join_lines]. rewrite <-app_assoc. by apply no_cr_starts. }
  apply find_sub_intro; [|intros j Hj|rewrite !length_app; lia].
  - rewrite drop_app_length. apply starts_with_app.
  - rewrite !length_app in Hj. cbn [length crlf] in Hj. rewrite <-!app_assoc.
    destruct (decide (j < length line)).
    { rewrite drop_app_le by lia. apply no_cr_starts; [by apply Forall_drop|].
      intros He. apply (f_equal length) in He. rewrite length_drop in He. cbn in He. lia. }
    rewrite drop_app_ge by lia. destruct (decide (j = length line)) as [->|].
    { rewrite Nat.sub_diag. change (starts_with (crlf ++ others ++ crlf2 ++ rest) (crlf ++ crlf) = false).
      rewrite starts_with_prefix_of, drop_app_length, Hhead. apply andb_false_r. }
    destruct (decide (j = S (length line))) as [->|].
    { replace (S (length line) - length line) with 1 by lia. done. }
    rewrite drop_app_ge by (cbn; lia). apply I2. cbn [length crlf]. lia.
Qed.

(** ** Safe file names *)

Lemma filter_none_of {A} (p : A → bool) s : none_of p (List.filter (λ x, negb (p x)) s).
Proof. induction s as [|c s IH]; cbn; [constructor|]. destruct (p c) eqn:E; cbn; [done|]. by apply none_of_cons. Qed.

Lemma filter_all {A} (p : A → bool) s : none_of p s → List.filter (λ x, negb (p x)) s = s.
Proof. induction 1 as [|c s Hc _ IH]; cbn; [done|]. by rewrite Hc, IH. Qed.

(** A safe file name is never empty and has no path separator, drive colon
    or control character, whatever the client sent; a name that is already
    safe is kept, so sanitizing twice is sanitizing once. *)
Theorem safe_filename_spec (filename : str) :
  make_safe_filename (Some filename) ≠ [] ∧ none_of unsafe_filename_char (make_safe_filename (Some filename)) ∧
  (filename ≠ [] → none_of unsafe_filename_char filename → make_safe_filename (Some filename) = filename) ∧
  make_safe_filename (Some (make_safe_filename (Some filename))) = make_safe_filename (Some filename).
Proof.
  assert (Hsafe : ∀ f, none_of unsafe_filename_char f → f ≠ [] → make_safe_filename (Some f) = f).
  { intros f Hf Hne. unfold make_safe_filename. rewrite filter_all by done. by destruct f. }
  assert (Hout : ∀ f, make_safe_filename (Some f) ≠ [] ∧ none_of unsafe_filename_char (make_safe_filename (Some f))).
  { intros f. unfold make_safe_filename. pose proof (filter_none_of unsafe_filename_char f) as H.
    destruct (List.filter _ f); [|done]. split; [done|]. repeat (apply none_of_cons; split; [reflexivity|]). constructor. }
  destruct (Hout filename) as [H1 H2]. split_and!; [done|done|by intros; apply Hsafe|by apply Hsafe].
Qed.

(** The names of the current and the parent directory are kept. *)
Example safe_filename_dots : make_safe_filename (Some (lit "../..")) = lit "....".
Proof. reflexivity. Qed.

Example safe_filename_parent : make_safe_filename (Some (lit "..")) = lit "..".
Proof. reflexivity. Qed.
