(* ===== verification/MultipartForm.v ===== *)
(** * Multipart forms

    [parse_multipart_form], the index of a form and its lookups, of
    [src/http/multipart.cpp].  The views of the class are pointers into
    [parts_]: here they are positions. *)

From S2P Require Import Prelude Text Http HttpError Multipart.

Open Scope Z_scope.

(** ** Data *)

Record multipart_form_options := FormOptions { limits : multipart_limits; max_memory_bytes : Z }.

Definition default_form_options : multipart_form_options :=
  FormOptions (MultipartLimits (16 * 1024 * 1024) 0 (1024 * 1024) (16 * 1024) 64 64 256 1024) (8 * 1024 * 1024).

Record multipart_form_part := FormPart {
  fp_name : str; fp_filename : option str; fp_headers : headers; fp_body : str
}.

Record view_group := ViewGroup { vg_name : str; vg_offset : nat; vg_count : nat }.

Record multipart_form := Form {
  parts_ : list multipart_form_part;
  part_views_ : list nat;
  field_views_ : list nat;
  file_views_ : list nat;
  field_groups_ : list view_group;
  file_groups_ : list view_group
}.

Definition empty_form : multipart_form := Form [] [] [] [] [] [].

(** ** The index *)

(** [operator<] of [std::string]. *)
Fixpoint str_lt (lhs rhs : str) : bool :=
  match lhs, rhs with
  | _, [] => false
  | [], _ :: _ => true
  | l :: lhs', r :: rhs' => (code l <? code r)%N || ((code l =? code r)%N && str_lt lhs' rhs')
  end.

(** [std::stable_sort] with a comparison: elements that compare equal keep
    their order. *)
Section stable_sort.
Context {A : Type} (lt : A → A → bool).

Fixpoint stable_insert (x : A) (l : list A) : list A :=
  match l with
  | [] => [x]
  | y :: l' => if lt y x then y :: stable_insert x l' else x :: l
  end.

Definition stable_sort (l : list A) : list A := foldr stable_insert [] l.
End stable_sort.

(** The views and groups that a loop over sorted parts adds one to. *)
Definition add_view (name_of : nat → str) (index : list nat * list view_group) (part : nat)
    : list nat * list view_group :=
  let '(views, groups) := index in
  match last groups with
  | Some group =>
    if bool_decide (vg_name group = name_of part) then
      (views ++ [part],
       removelast groups ++ [ViewGroup (vg_name group) (vg_offset group) (S (vg_count group))])
    else (views ++ [part], groups ++ [ViewGroup (name_of part) (length views) 1])
  | None => (views ++ [part], groups ++ [ViewGroup (name_of part) (length views) 1])
  end.

Definition build_groups (name_of : nat → str) (sorted : list nat) : list nat * list view_group :=
  foldl (add_view name_of) ([], []) sorted.

Definition part_name (parts : list multipart_form_part) (i : nat) : str :=
  match parts !! i with Some part => fp_name part | None => [] end.

Definition part_is_file (parts : list multipart_form_part) (i : nat) : bool :=
  match parts !! i with Some part => bool_decide (is_Some (fp_filename part)) | None => false end.

Definition rebuild_indexes (parts : list multipart_form_part) : multipart_form :=
  let views := seq 0 (length parts) in
  let name_of := part_name parts in
  let by_name i j := str_lt (name_of i) (name_of j) in
  let fields := stable_sort by_name (List.filter (λ i, negb (part_is_file parts i)) views) in
  let files := stable_sort by_name (List.filter (part_is_file parts) views) in
  let '(field_views, field_groups) := build_groups name_of fields in
  let '(file_views, file_groups) := build_groups name_of files in
  Form parts views field_views file_views field_groups file_groups.

(** ** Lookups *)

Fixpoint find_group (groups : list view_group) (views : list nat) (name : str) : list nat :=
  match groups with
  | [] => []
  | group :: groups' =>
    if bool_decide (vg_name group = name) then take (vg_count group) (drop (vg_offset group) views)
    else find_group groups' views name
  end.

Definition deref (form : multipart_form) (views : list nat) : list multipart_form_part :=
  omap (λ i, parts_ form !! i) views.

Definition form_fields (form : multipart_form) (name : str) : list multipart_form_part :=
  deref form (find_group (field_groups_ form) (field_views_ form) name).

Definition form_files (form : multipart_form) (name : str) : list multipart_form_part :=
  deref form (find_group (file_groups_ form) (file_views_ form) name).

Definition first_field (form : multipart_form) (name : str) : option multipart_form_part := head (form_fields form name).
Definition first_file (form : multipart_form) (name : str) : option multipart_form_part := head (form_files form name).

Definition single_field (form : multipart_form) (name : str) : result error multipart_form_part :=
  match form_fields form name with
  | [] => Err (make_error multipart_malformed_body (lit "multipart field is missing"))
  | [field] => Ok field
  | _ => Err (make_error multipart_malformed_body (lit "multipart field is repeated"))
  end.

Definition single_file (form : multipart_form) (name : str) : result error multipart_form_part :=
  match form_files form name with
  | [] => Err (make_error multipart_malformed_body (lit "multipart file is missing"))
  | [file] => Ok file
  | _ => Err (make_error multipart_malformed_body (lit "multipart file is repeated"))
  end.

Definition form_empty (form : multipart_form) : bool := match parts_ form with [] => true | _ => false end.
Definition form_size (form : multipart_form) : nat := length (parts_ form).

(** ** Views

    A view is a pointer to a part, or none for a view that was only made. *)

Definition part_view : Type := option multipart_form_part.

Definition view_name (v : part_view) : str := from_option fp_name [] v.
Definition view_filename (v : part_view) : option str := v ≫= fp_filename.
Definition view_safe_filename (v : part_view) : str := make_safe_filename (view_filename v).
Definition view_headers (v : part_view) : headers := from_option fp_headers [] v.
Definition view_bytes (v : part_view) : str := from_option fp_body [] v.
Definition view_text (v : part_view) : str := match v with Some part => match fp_body part with [] => [] | body => body end | None => [] end.
Definition view_is_file (v : part_view) : bool := match v with Some part => match fp_filename part with Some _ => true | None => false end | None => false end.

(** The view of a file gives the empty name where there is none. *)
Definition file_view_filename (v : part_view) : str := default [] (view_filename v).
Definition file_view_safe_filename (v : part_view) : str := make_safe_filename (Some (file_view_filename v)).

(** ** Parsing *)

Definition malformed_body {A} (text : str) : result error A := Err (make_error multipart_malformed_body text).
Definition limit_exceeded {A} (text : str) : result error A := Err (make_error multipart_limit_exceeded text).
Definition unexpected_end {A} : result error A := Err (make_error multipart_unexpected_end []).

(** The optional line end after the final delimiter, and nothing more. *)
Definition after_final (text : str) (offset : nat) : bool :=
  let offset := if starts_with (drop offset text) crlf then (offset + 2)%nat else offset in
  (offset =? length text)%nat.

(** The size checks of one part. *)
Definition check_part (options : multipart_form_options) (file : bool) (payload : str) (count memory_bytes : Z)
    : result error () :=
  let limits := limits options in
  if max_parts limits <? count + 1 then limit_exceeded (lit "multipart has too many parts")
  else if file && (max_file_bytes limits =? 0) then limit_exceeded (lit "multipart files are not accepted")
  else if file && (max_file_bytes limits <? size payload) then limit_exceeded (lit "multipart file is too large")
  else if negb file && (max_field_bytes limits <? size payload) then
    limit_exceeded (lit "multipart field is too large")
  else if negb (max_memory_bytes options =? 0) && (max_memory_bytes options <? memory_bytes + size payload) then
    limit_exceeded (lit "multipart form memory limit exceeded")
  else Ok ().

Section form_loop.
Context (options : multipart_form_options) (next_delimiter text : str).

Fixpoint form_loop (fuel : nat) (offset : nat) (parts : list multipart_form_part) (memory_bytes : Z)
    : result error multipart_form :=
  match fuel with
  | O => unexpected_end
  | S fuel' =>
    if (offset <? length text)%nat then
      match find_sub_from crlf2 text offset with
      | None => unexpected_end
      | Some header_end =>
        let header_size := (header_end - offset)%nat in
        if max_part_header_bytes (limits options) <? Z.of_nat header_size then
          limit_exceeded (lit "multipart part headers are too large")
        else
          headers ← parse_part_header_block (substr text offset header_size) (limits options);
          let offset := (header_end + 4)%nat in
          match find_next_multipart_delimiter text next_delimiter offset with
          | delimiter_found position suffix =>
            let payload := substr text offset (position - offset) in
            let file := bool_decide (is_Some (dp_filename headers.1)) in
            '() ← check_part options file payload (size parts) memory_bytes;
            let parts := parts ++ [FormPart (dp_name headers.1) (dp_filename headers.1) headers.2 payload] in
            let offset := (position + length next_delimiter + 2)%nat in
            if str_eqb suffix (lit "--") then
              if after_final text offset then Ok (rebuild_indexes parts)
              else malformed_body (lit "invalid multipart final delimiter")
            else form_loop fuel' offset parts (memory_bytes + size payload)
          | _ => unexpected_end
          end
      end
    else unexpected_end
  end.
End form_loop.

Definition parse_multipart_form (content_type body : str) (options : multipart_form_options)
    : result error multipart_form :=
  let total := max_total_bytes (limits options) in
  if negb (total =? 0) && (total <? size body) then limit_exceeded (lit "multipart body is too large")
  else
    boundary ← parse_multipart_boundary content_type;
    let first_delimiter := lit "--" ++ boundary in
    let next_delimiter := crlf ++ lit "--" ++ boundary in
    if negb (starts_with body first_delimiter) then malformed_body (lit "multipart body must start with boundary")
    else
      let offset := length first_delimiter in
      if starts_with (drop offset body) (lit "--") then
        if after_final body (offset + 2) then Ok empty_form
        else malformed_body (lit "invalid multipart final delimiter")
      else if negb (starts_with (drop offset body) crlf) then
        malformed_body (lit "invalid multipart boundary delimiter")
      else form_loop options next_delimiter body (S (length body)) (offset + 2) [] 0.
