(* ===== verification/MultipartFormSpec.v ===== *)
(** * What the multipart form parser accepts

    A declarative description of multipart bodies, the theorem that
    [parse_multipart_form] accepts exactly these, and the limits that accepted
    forms respect. *)

From S2P Require Import Prelude Text Http HttpError Multipart MultipartForm MultipartTheory.

Open Scope Z_scope.

(** ** Bodies *)

(** What follows a boundary: the final dashes, or a line end, the header block
    and the payload of a part, and the next delimiter. *)
Fixpoint parts_text (next : str) (raws : list (str * str)) : str :=
  match raws with
  | [] => lit "--"
  | (block, payload) :: raws' => crlf ++ block ++ crlf2 ++ payload ++ next ++ parts_text next raws'
  end.

Definition ending (line_end : bool) : str := if line_end then crlf else [].

Definition delimiter_of (boundary : str) : str := crlf ++ lit "--" ++ boundary.

Definition multipart_body (boundary : str) (raws : list (str * str)) (line_end : bool) : str :=
  lit "--" ++ boundary ++ parts_text (delimiter_of boundary) raws ++ ending line_end.

(** A header block ends at the first blank line. *)
Definition block_ends (block : str) : Prop := find_sub crlf2 (block ++ crlf2) = Some (length block).

(** The raw parts are accepted and give the parts of the form. *)
Fixpoint accepted (o : multipart_form_options) (next : str) (line_end : bool) (raws : list (str * str))
    (count memory : Z) (parts : list multipart_form_part) : Prop :=
  match raws, parts with
  | [], [] => True
  | (block, payload) :: raws', part :: parts' =>
    block_ends block ∧ size block ≤ max_part_header_bytes (limits o) ∧
    parse_part_header_block block (limits o) =
      Ok (Disposition (fp_name part) (fp_filename part), fp_headers part) ∧
    payload = fp_body part ∧ clean next payload (parts_text next raws' ++ ending line_end) ∧
    check_part o (bool_decide (is_Some (fp_filename part))) payload count memory = Ok () ∧
    accepted o next line_end raws' (count + 1) (memory + size payload) parts'
  | _, _ => False
  end.

Lemma block_ends_app block rest : block_ends block ↔ find_sub crlf2 (block ++ crlf2 ++ rest) = Some (length block).
Proof.
  unfold block_ends. rewrite app_assoc. split; [apply find_sub_app|].
  intros (H1 & H2 & H3)%find_sub_Some. apply find_sub_intro.
  - rewrite drop_app_length. rewrite <-(app_nil_r crlf2) at 1. apply starts_with_app.
  - intros j Hj. specialize (H2 j Hj). rewrite drop_app_le in H2 by (rewrite length_app; lia).
    rewrite starts_with_app_r in H2; [done|]. rewrite length_drop, length_app. cbn. lia.
  - rewrite length_app. lia.
Qed.

Lemma find_blank pre block rest :
  find_sub_from crlf2 (pre ++ rest) (length pre) = Some (length pre + length block)%nat →
  take (length block) rest = block →
  ∃ rest', rest = block ++ crlf2 ++ rest' ∧ block_ends block.
Proof.
  intros Hf Ht. rewrite find_sub_from_app in Hf. destruct (find_sub crlf2 rest) as [k|] eqn:E; [|done].
  injection Hf as Hk. assert (k = length block) as -> by lia. pose proof E as E'.
  apply find_sub_Some in E as ((t & E1)%starts_with_spec & _ & _).
  exists t. assert (rest = block ++ crlf2 ++ t) as Hr 
    by (rewrite <-E1; rewrite <-Ht at 1; symmetry; apply take_drop).
  split; [done|]. apply (block_ends_app _ t). by rewrite <-Hr.
Qed.

Lemma after_final_spec pre rest :
  after_final (pre ++ rest) (length pre) = true ↔ ∃ line_end, rest = ending line_end.
Proof.
  unfold after_final. rewrite drop_app_length. split.
  - destruct (starts_with rest crlf) eqn:E; intros H; breflect; rewrite length_app in H.
    + exists true. apply starts_with_spec in E as [t ->]. rewrite length_app in H. cbn in H.
      destruct t; [done|]. cbn in H. lia.
    + exists false. destruct rest; [done|]. cbn in H. lia.
  - intros [[] ->]; cbn [ending].
    + rewrite <-(app_nil_r crlf), starts_with_app. apply Nat.eqb_eq. rewrite length_app. cbn. lia.
    + cbn. apply Nat.eqb_eq. rewrite length_app. cbn. lia.
Qed.

Section loop.
Context (o : multipart_form_options) (boundary : str).
Let next := delimiter_of boundary.

Lemma next_nonempty : next ≠ [].
Proof. done. Qed.

Lemma form_loop_sound fuel pre rest parts memory form :
  form_loop o next (pre ++ rest) fuel (length pre) parts memory = Ok form →
  ∃ raws new line_end, raws ≠ [] ∧ crlf ++ rest = parts_text next raws ++ ending line_end ∧
    accepted o next line_end raws (size parts) memory new ∧ form = rebuild_indexes (parts ++ new).
Proof.
  revert pre rest parts memory. induction fuel as [|fuel IH]; intros pre rest parts memory; [done|].
  cbn [form_loop]. destruct (_ <? _)%nat; [|done].
  destruct (find_sub_from crlf2 _ _) as [header_end|] eqn:F; [|done].
  assert (Hk : ∃ k, header_end = (length pre + k)%nat ∧ (k ≤ length rest)%nat).
  { apply find_sub_from_drop in F as (k & F & -> & _). exists k. split; [done|].
    rewrite drop_app_length in F. by apply find_sub_Some in F as (_ & _ & ?). }
  destruct Hk as (k & -> & Hk).
  assert (Hb : length (take k rest) = k) by (rewrite length_take; lia).
  destruct (find_blank pre (take k rest) rest) as (rest' & Hrest & Hends); [by rewrite Hb|by rewrite Hb|].
  revert Hrest Hends Hb. generalize (take k rest). intros block -> Hends <-. clear F Hk.
  replace (length pre + length block - length pre)%nat with (length block) by lia.
  destruct (_ <? Z.of_nat _) eqn:Hsize; [done|]. breflect.
  unfold substr. rewrite drop_app_length, take_app_length. rewrite result_bind_Ok. intros ([[name filename] hs] & Hh & H).
  cbn [fst snd dp_name dp_filename] in H.
  replace (pre ++ block ++ crlf2 ++ rest') with ((pre ++ block ++ crlf2) ++ rest') in H by by rewrite <-!app_assoc.
  assert (Hoff : (length pre + length block + 4 = length (pre ++ block ++ crlf2))%nat) by (rewrite !length_app; cbn; lia).
  rewrite Hoff in H.
  destruct (find_next_multipart_delimiter _ _ _) as [p suffix| |] eqn:D; [|done..].
  apply find_delimiter_elim in D as (payload & rest2 & -> & -> & Hs & Hc); [|done].
  unfold substr in H. rewrite drop_app_length in H.
  replace (length (pre ++ block ++ crlf2) + length payload - length (pre ++ block ++ crlf2))%nat
    with (length payload) in H by lia.
  rewrite take_app_length in H. apply result_bind_Ok in H as ([] & Hcheck & H).
  set (part := FormPart name filename hs payload) in *.
  set (pre2 := (pre ++ block ++ crlf2) ++ payload ++ next ++ suffix).
  assert (Hpre2 : (length (pre ++ block ++ crlf2) + length payload + length next + 2 = length pre2)%nat).
  { unfold pre2. rewrite !length_app. destruct Hs as [-> | ->]; cbn; lia. }
  rewrite Hpre2 in H.
  replace ((pre ++ block ++ crlf2) ++ payload ++ next ++ suffix ++ rest2) with (pre2 ++ rest2) in H
    by (unfold pre2; by rewrite <-!app_assoc).
  destruct Hs as [-> | ->].
  - change (str_eqb crlf (lit "--")) with false in H. apply IH in H as (raws & new & line_end & Hne & Ht & Hacc & ->).
    exists ((block, payload) :: raws), (part :: new), line_end. split_and!; [done| | |].
    + cbn [parts_text]. rewrite <-!app_assoc. do 5 f_equal. by rewrite <-Ht.
    + cbn [accepted fp_name fp_filename fp_headers fp_body part]. split_and!; try done.
      * by rewrite <-Ht.
      * unfold size in *. rewrite length_app in Hacc. cbn [length] in Hacc.
        by replace (Z.of_nat (length parts + 1)) with (Z.of_nat (length parts) + 1) in Hacc by lia.
    + by rewrite <-app_assoc.
  - change (str_eqb (lit "--") (lit "--")) with true in H. destruct (after_final _ _) eqn:Ha; [|done]. injection H as <-.
    apply after_final_spec in Ha as [line_end ->].
    exists [(block, payload)], [part], line_end. split_and!; [done| | |done].
    + cbn [parts_text]. by rewrite <-!app_assoc.
    + cbn [accepted fp_name fp_filename fp_headers fp_body part]. by split_and!.
Qed.

Lemma form_loop_complete fuel pre rest parts memory raws new line_end :
  (length raws < fuel)%nat → raws ≠ [] → crlf ++ rest = parts_text next raws ++ ending line_end →
  accepted o next line_end raws (size parts) memory new →
  form_loop o next (pre ++ rest) fuel (length pre) parts memory = Ok (rebuild_indexes (parts ++ new)).
Proof.
  revert pre rest parts memory raws new. induction fuel as [|fuel IH]; intros pre rest parts memory raws new Hf Hne Ht Hacc; [lia|].
  destruct raws as [|[block payload] raws]; [done|]. destruct new as [|part new]; [done|].
  destruct Hacc as (Hends & Hsize & Hh & -> & Hc & Hcheck & Hacc). cbn [length] in Hf.
  cbn [parts_text] in Ht. rewrite <-!app_assoc in Ht. apply (app_inv_head crlf) in Ht as ->.
  cbn [form_loop]. rewrite (proj2 (Nat.ltb_lt _ _)) by (rewrite !length_app; cbn; lia).
  rewrite find_sub_from_app, (proj1 (block_ends_app _ _) Hends). cbn [fmap option_fmap option_map].
  replace (length pre + length block - length pre)%nat with (length block) by lia.
  rewrite (proj2 (Z.ltb_ge _ _)) by done. unfold substr. rewrite drop_app_length, take_app_length, Hh.
  cbn [mbind result_bind fst snd dp_name dp_filename].
  replace (length pre + length block + 4)%nat with (length (pre ++ block ++ crlf2)) by (rewrite !length_app; cbn; lia).
  set (text := pre ++ block ++ crlf2 ++ fp_body part ++ next ++ parts_text next raws ++ ending line_end).
  assert (Hsuf : ∃ suffix rest2, (suffix = crlf ∨ suffix = lit "--") ∧
    parts_text next raws ++ ending line_end = suffix ++ rest2 ∧ (suffix = crlf ↔ raws ≠ [])).
  { destruct raws as [|[b2 p2] raws]; cbn [parts_text]; [exists (lit "--"), (ending line_end)|exists crlf; eexists];
      (split; [by auto|split; [rewrite <-?app_assoc; reflexivity|done]]). }
  destruct Hsuf as (suffix & rest2 & Hs & Hrest & Hlast).
  assert (Htext : text = (pre ++ block ++ crlf2) ++ fp_body part ++ next ++ suffix ++ rest2).
  { unfold text. rewrite Hrest. by rewrite <-!app_assoc. }
  rewrite Htext. rewrite Hrest in Hc. rewrite find_delimiter_intro by done.
  unfold substr. rewrite drop_app_length.
  replace (length (pre ++ block ++ crlf2) + length (fp_body part) - length (pre ++ block ++ crlf2))%nat
    with (length (fp_body part)) by lia.
  rewrite take_app_length. rewrite Hcheck. cbn [mbind result_bind].
  set (pre2 := (pre ++ block ++ crlf2) ++ fp_body part ++ next ++ suffix).
  replace (length (pre ++ block ++ crlf2) + length (fp_body part) + length next + 2)%nat with (length pre2)
    by (unfold pre2; rewrite !length_app; destruct Hs as [-> | ->]; cbn; lia).
  replace ((pre ++ block ++ crlf2) ++ fp_body part ++ next ++ suffix ++ rest2) with (pre2 ++ rest2)
    by (unfold pre2; by rewrite <-!app_assoc).
  replace (FormPart _ _ _ _) with part by by destruct part.
  destruct Hs as [-> | ->].
  - change (str_eqb crlf (lit "--")) with false. cbv iota. rewrite (IH pre2 rest2 _ _ raws new); [|lia|by apply Hlast|done|].
    + by rewrite <-app_assoc.
    + unfold size in *. rewrite length_app. cbn [length]. by replace (Z.of_nat (length parts + 1)) with (Z.of_nat (length parts) + 1) by lia.
  - change (str_eqb (lit "--") (lit "--")) with true. cbv iota.
    assert (raws = []) as -> by (destruct raws as [|[??] ?]; [done|by destruct (proj2 Hlast ltac:(done))]).
    injection Hrest as <-. destruct new; [|done].
    by rewrite (proj2 (after_final_spec _ _)) by eauto.
Qed.
End loop.

Lemma length_parts_text next raws : (length raws ≤ length (parts_text next raws))%nat.
Proof. induction raws as [|[block payload] raws IH]; cbn; [lia|]. rewrite !length_app. cbn. rewrite !length_app. lia. Qed.

Definition within_total (limit : Z) (body : str) : Prop := limit = 0 ∨ size body ≤ limit.

Lemma parse_form_iff content_type body o form :
  parse_multipart_form content_type body o = Ok form ↔
  within_total (max_total_bytes (limits o)) body ∧
  ∃ boundary raws line_end parts,
    parse_multipart_boundary content_type = Ok boundary ∧ body = multipart_body boundary raws line_end ∧
    accepted o (delimiter_of boundary) line_end raws 0 0 parts ∧ form = rebuild_indexes parts.
Proof.
  unfold parse_multipart_form.
  assert (Htotal : (negb (max_total_bytes (limits o) =? 0) && (max_total_bytes (limits o) <? size body)) = false ↔
    within_total (max_total_bytes (limits o)) body).
  { unfold within_total. rewrite andb_false_iff, negb_false_iff, Z.eqb_eq, Z.ltb_ge. done. }
  destruct (negb _ && _); [split; [done|]; intros [H _]; by apply Htotal in H|].
  rewrite result_bind_Ok. split.
  - intros (boundary & Hb & H). split; [by apply Htotal|]. exists boundary.
    destruct (starts_with body _) eqn:E; [|done]. apply starts_with_spec in E as [rest ->]. cbn [negb] in H.
    rewrite drop_app_length in H. destruct (starts_with rest (lit "--")) eqn:E1.
    { destruct (after_final _ _) eqn:Ha; [|done]. injection H as <-. apply starts_with_spec in E1 as [t ->].
      rewrite app_assoc in Ha.
      replace (length (lit "--" ++ boundary) + 2)%nat with (length ((lit "--" ++ boundary) ++ lit "--")) in Ha
        by (rewrite length_app; cbn; lia).
      apply after_final_spec in Ha as [line_end ->]. exists [], line_end, []. split_and!; [done| |done|done].
      unfold multipart_body. cbn [parts_text]. by rewrite <-!app_assoc. }
    destruct (starts_with rest crlf) eqn:E2; [|done]. apply starts_with_spec in E2 as [t ->]. cbn [negb] in H.
    rewrite (app_assoc (lit "--" ++ boundary) crlf t) in H.
    replace (length (lit "--" ++ boundary) + 2)%nat with (length ((lit "--" ++ boundary) ++ crlf)) in H
      by (rewrite length_app; cbn; lia).
    apply form_loop_sound in H as (raws & new & line_end & _ & Ht & Hacc & ->). cbn [app] in Hacc.
    exists raws, line_end, new. split_and!; [done| |done|done]. unfold multipart_body. by rewrite <-Ht, <-app_assoc.
  - intros [_ (boundary & raws & line_end & parts & Hb & -> & Hacc & ->)]. exists boundary. split; [done|].
    unfold multipart_body. rewrite (app_assoc (lit "--")), starts_with_app. cbn [negb]. rewrite drop_app_length.
    destruct raws as [|raw raws].
    { cbn [parts_text]. destruct parts; [|done]. rewrite starts_with_app, (app_assoc _ (lit "--")).
      replace (length (lit "--" ++ boundary) + 2)%nat with (length ((lit "--" ++ boundary) ++ lit "--"))
        by (rewrite length_app; cbn; lia).
      by rewrite (proj2 (after_final_spec _ _)) by eauto. }
    assert (Ht : ∃ t, parts_text (delimiter_of boundary) (raw :: raws) ++ ending line_end = crlf ++ t).
    { destruct raw. cbn [parts_text]. eexists. by rewrite <-!app_assoc. }
    destruct Ht as [t Ht]. rewrite Ht, starts_with_app. cbv iota. cbn [negb].
    change (starts_with (crlf ++ t) (lit "--")) with false. cbv iota. rewrite (app_assoc (lit "--" ++ boundary) crlf t).
    replace (length (lit "--" ++ boundary) + 2)%nat with (length ((lit "--" ++ boundary) ++ crlf))
      by (rewrite length_app; cbn; lia).
    apply (form_loop_complete o boundary _ ((lit "--" ++ boundary) ++ crlf) t [] 0 (raw :: raws) parts line_end); try done.
    pose proof (length_parts_text (delimiter_of boundary) (raw :: raws)) as Hl.
    apply (f_equal length) in Ht. rewrite !length_app in Ht. rewrite !length_app. lia.
Qed.

(** ** Limits *)

Lemma crlf_count_shift fuel block offset n m : crlf_count fuel block offset (n + m) = crlf_count fuel block offset n + m.
Proof.
  revert offset n. induction fuel as [|fuel IH]; intros offset n; [done|]. cbn [crlf_count].
  destruct (find_sub_from _ _ _); [|done]. rewrite <-IH. f_equal. lia.
Qed.

Lemma header_line_adds line st st' : parse_part_header_line line st = Ok st' → size (ph_headers st') = size (ph_headers st) + 1.
Proof.
  unfold parse_part_header_line, headers_add, malformed_header, size. intros H. inv_match H; cbn [ph_headers];
    rewrite length_app; cbn [length]; lia.
Qed.

Lemma header_loop_count fuel block offset st st' :
  part_header_loop fuel block offset st = Ok st' →
  size (ph_headers st') ≤ size (ph_headers st) + crlf_count fuel block offset 1.
Proof.
  revert offset st. induction fuel as [|fuel IH]; intros offset st; cbn [part_header_loop crlf_count].
  { intros [= ->]. lia. }
  assert (H0 : ∀ o n, n ≤ crlf_count fuel block o n).
  { clear. induction fuel as [|fuel IH]; intros o n; cbn [crlf_count]; [done|].
    destruct (find_sub_from _ _ _) as [p|]; [|done]. specialize (IH (p + 2)%nat (n + 1)). lia. }
  destruct (_ <? _)%nat.
  - destruct (find_sub_from _ _ _) as [line_end|].
    + rewrite result_bind_Ok. intros (st1 & Hl & H). apply header_line_adds in Hl. apply IH in H.
      rewrite (crlf_count_shift _ _ _ 1 1). lia.
    + intros Hl%header_line_adds. lia.
  - intros [= ->]. destruct (find_sub_from _ _ _) as [p|]; [specialize (H0 (p + 2)%nat (1 + 1)); lia|lia].
Qed.

(** What the limits promise about one part. *)
Definition part_within (o : multipart_form_options) (part : multipart_form_part) : Prop :=
  let l := limits o in
  match fp_filename part with
  | Some filename =>
    max_file_bytes l ≠ 0 ∧ size (fp_body part) ≤ max_file_bytes l ∧ size filename ≤ max_filename_bytes l ∧
    contains_ctl filename = false
  | None => size (fp_body part) ≤ max_field_bytes l
  end ∧
  fp_name part ≠ [] ∧ contains_ctl (fp_name part) = false ∧ size (fp_name part) ≤ max_field_name_bytes l ∧
  size (fp_headers part) ≤ max_part_headers l.

Definition memory_of (parts : list multipart_form_part) : Z := foldr (λ part n, size (fp_body part) + n) 0 parts.

Lemma header_block_within l block name filename hs :
  parse_part_header_block block l = Ok (Disposition name filename, hs) →
  name ≠ [] ∧ contains_ctl name = false ∧ size name ≤ max_field_name_bytes l ∧ size hs ≤ max_part_headers l ∧
  match filename with Some f => size f ≤ max_filename_bytes l ∧ contains_ctl f = false | None => True end.
Proof.
  unfold parse_part_header_block. destruct (_ <? count_header_lines _) eqn:Ec; [done|]. breflect.
  rewrite result_bind_Ok. intros (parsed & Hp & H). destruct (ph_disposition parsed) as [text|]; [|done].
  apply result_bind_Ok in H as (disposition & Hd & H).
  destruct (_ <? size (dp_name _)) eqn:E1; [done|]. breflect.
  assert (Hs : size (ph_headers parsed) ≤ max_part_headers l).
  { destruct block as [|c block]; [injection Hp as <-; exact Ec|].
    apply header_loop_count in Hp. cbn [ph_headers] in Hp. unfold count_header_lines in Ec. unfold size in *. cbn [length] in *. lia. }
  unfold parse_multipart_content_disposition in Hd. destruct (negb _); [done|].
  apply result_bind_Ok in Hd as ([n f] & _ & Hd). cbn [fst snd] in Hd.
  destruct (bool_decide _ || _) eqn:En; [done|]. destruct (match f with Some _ => _ | None => _ end) eqn:Ef; [done|].
  injection Hd as <-. cbn [dp_name dp_filename] in *. breflect.
  destruct (match f with Some filename => _ <? size filename | None => false end) eqn:E2; [done|]. injection H as <- <- <-.
  split_and!; try done. destruct f; [|done]. breflect. done.
Qed.

Lemma accepted_within o next line_end raws count memory parts :
  accepted o next line_end raws count memory parts →
  Forall (part_within o) parts ∧ (parts ≠ [] → count + size parts ≤ max_parts (limits o)) ∧
  (max_memory_bytes o ≠ 0 → parts ≠ [] → memory + memory_of parts ≤ max_memory_bytes o).
Proof.
  revert count memory parts. induction raws as [|[block payload] raws IH]; intros count memory [|part parts]; try done.
  cbn [accepted]. intros (_ & _ & Hh & -> & _ & Hc & Hr). apply IH in Hr as (H1 & H2 & H3). clear IH.
  apply header_block_within in Hh as (Hn & Hctl & Hname & Hcount & Hfile). unfold check_part, limit_exceeded in Hc.
  destruct (_ <? count + 1) eqn:E1; [done|].
  destruct (_ && (_ =? 0)) eqn:E2; [done|]. destruct (_ && (max_file_bytes _ <? _)) eqn:E3; [done|].
  destruct (negb (bool_decide _) && _) eqn:E4; [done|].
  destruct (negb (_ =? _) && _) eqn:E5; [done|]. breflect.
  split_and!.
  - constructor; [|done]. unfold part_within. destruct (fp_filename part) as [f|]; cbn in *; destruct_and?; breflect; done.
  - intros _. unfold size in *. cbn [length]. destruct parts; [cbn; lia|]. specialize (H2 ltac:(done)). cbn [length] in *. lia.
  - intros Hm _. cbn [memory_of foldr]. fold (memory_of parts). rewrite (proj2 (Z.eqb_neq _ _)) in E5 by done. cbn in E5. breflect.
    destruct parts; [cbn; lia|]. specialize (H3 Hm ltac:(done)). lia.
Qed.

(** C10: The form parser accepts exactly the well-formed bodies within the
    limits: after the boundary of the content type, parts whose header block
    is accepted and whose payload has no delimiter inside, then the final
    delimiter with an optional line end.  The form holds these parts, in
    order, with their payloads byte for byte. *)
Theorem parse_multipart_form_spec content_type body o form :
  parse_multipart_form content_type body o = Ok form ↔
  within_total (max_total_bytes (limits o)) body ∧
  ∃ boundary raws line_end parts,
    parse_multipart_boundary content_type = Ok boundary ∧ body = multipart_body boundary raws line_end ∧
    accepted o (delimiter_of boundary) line_end raws 0 0 parts ∧ form = rebuild_indexes parts.
Proof. apply parse_form_iff. Qed.

(** An accepted form respects every configured limit: the number of parts,
    the size of each field and file (none when files are not accepted), of
    names, file names and headers, and the memory of all payloads together;
    and names are never empty and have no control characters. *)
Theorem multipart_form_limits content_type body o form
    (Hp : 0 ≤ max_parts (limits o)) (Hok : parse_multipart_form content_type body o = Ok form) :
  Forall (part_within o) (parts_ form) ∧ size (parts_ form) ≤ max_parts (limits o) ∧
  (0 < max_memory_bytes o → memory_of (parts_ form) ≤ max_memory_bytes o).
Proof.
  apply parse_form_iff in Hok as (_ & boundary & raws & line_end & parts & _ & _ & Hacc & ->).
  apply accepted_within in Hacc as (H1 & H2 & H3).
  assert (parts_ (rebuild_indexes parts) = parts) as ->.
  { unfold rebuild_indexes. destruct (build_groups _ _), (build_groups _ _). done. }
  split_and!; [done| |].
  - destruct parts; [done|]. apply H2. done.
  - intros Hm. destruct parts; [cbn; lia|]. apply H3; [lia|done].
Qed.


(** A body with a field and a file, within the limits of [o]. *)
Lemma multipart_form_limits_witness :
  let o := FormOptions (MultipartLimits 0 100 100 100 4 2 8 8) 20 in
  let body := lit "--B" ++ crlf ++ lit "Content-Disposition: form-data; name=a" ++ crlf2 ++ lit "0123456789" ++ crlf ++
    lit "--B" ++ crlf ++ lit "X: y" ++ crlf ++ lit "content-disposition: form-data; filename=f; name=b" ++ crlf2 ++
    lit "0123" ++ crlf ++ lit "--B--" in
  match parse_multipart_form (lit "multipart/form-data; boundary=B") body o with
  | Ok form => Forall (part_within o) (parts_ form) ∧ memory_of (parts_ form) = 14 ∧ size (parts_ form) ≤ 2
  | Err _ => False
  end.
Proof.
  cbv zeta. set (o := FormOptions _ _). destruct (parse_multipart_form _ _ o) as [form|] eqn:E; [|by vm_compute in E].
  destruct (multipart_form_limits _ _ o form ltac:(by vm_compute) E) as (H1 & H2 & H3). split_and!; [done| |done].
  vm_compute in E. by injection E as <-.
Defined.
