(* ===== verification/MultipartIndex.v ===== *)
(** * The index of a multipart form

    [rebuild_indexes] of [src/http/multipart.cpp] sorts the parts by name and
    records the run of each name; the lookups by name give the parts of that
    name in their order in the body. *)

From S2P Require Import Prelude Text Http HttpError Multipart MultipartTheory MultipartForm.
From stdpp Require Import sorting.

Open Scope Z_scope.

(** ** The order of names *)

Lemma str_lt_irrefl s : str_lt s s = false.
Proof. induction s as [|c s IH]; cbn; [done|]. by rewrite N.ltb_irrefl, N.eqb_refl, IH. Qed.

Lemma code_inj c d : code c = code d → c = d.
Proof. unfold code. intros H. by rewrite <-(ascii_N_embedding c), H, ascii_N_embedding. Qed.

(** [b] is not before [a]. *)
Definition str_le (a b : str) : Prop := str_lt b a = false.

Lemma str_le_cons c d s t : str_le (c :: s) (d :: t) ↔ (code c < code d)%N ∨ c = d ∧ str_le s t.
Proof.
  unfold str_le. cbn [str_lt]. rewrite orb_false_iff, andb_false_iff, N.ltb_ge, N.eqb_neq. split.
  - intros [H1 H2]. destruct (decide (code c = code d)) as [E|E]; [right|left; lia].
    apply code_inj in E as ->. destruct H2; [lia|done].
  - intros [H|[-> H]]; split; [lia|left; lia|lia|by right].
Qed.

Lemma str_le_antisym a b : str_le a b → str_le b a → a = b.
Proof.
  revert b. induction a as [|c a IH]; intros [|d b]; try done.
  rewrite !str_le_cons. intros [H1|[-> H1]] [H2|[E H2]]; [lia|subst; lia|lia|]. f_equal. by apply IH.
Qed.

Lemma str_le_trans a b c : str_le a b → str_le b c → str_le a c.
Proof.
  revert b c. induction a as [|x a IH]; intros [|y b] [|z c]; try done.
  rewrite !str_le_cons. intros [H1|[-> H1]] [H2|[-> H2]]; [left; lia|by left|by left|]. right. split; [done|by eapply IH].
Qed.

Lemma str_le_total a b : str_lt a b = true → str_le a b.
Proof.
  unfold str_le. revert b. induction a as [|x a IH]; intros [|y b]; try done. cbn [str_lt].
  rewrite orb_true_iff, andb_true_iff, orb_false_iff, andb_false_iff, N.ltb_lt, N.eqb_eq, N.ltb_ge, N.eqb_neq.
  intros [H|[H1 H2]]; [split; [lia|left; lia]|]. split; [lia|right; by apply IH].
Qed.

Section groups.
Context (name_of : nat → str).
Let by_name i j := str_lt (name_of i) (name_of j).
Let named n := List.filter (λ i, bool_decide (name_of i = n)).
Let le i j := str_le (name_of i) (name_of j).

Lemma in_stable_insert x y l : y ∈ stable_insert by_name x l ↔ y = x ∨ y ∈ l.
Proof.
  induction l as [|z l IH]; cbn [stable_insert]; [set_solver|]. destruct (by_name z x); [|set_solver].
  rewrite !elem_of_cons, IH. naive_solver.
Qed.

Lemma stable_sort_sorted l : StronglySorted le (stable_sort by_name l).
Proof.
  unfold stable_sort. induction l as [|x l IH]; cbn [foldr]; [constructor|].
  induction IH as [|y l' Hl' IH' Hy]; cbn [stable_insert]; [by repeat constructor|].
  destruct (by_name y x) eqn:E.
  - constructor; [done|]. apply Forall_forall. intros z [->|Hz]%in_stable_insert.
    + by apply str_le_total.
    + rewrite Forall_forall in Hy. by apply Hy.
  - constructor; [by constructor|]. constructor; [done|]. eapply Forall_impl; [exact Hy|]. intros z.
    by apply str_le_trans.
Qed.

(** Sorting is stable: it keeps the order of the entries of a name. *)
Lemma stable_sort_named n l : named n (stable_sort by_name l) = named n l.
Proof.
  unfold stable_sort, named. induction l as [|x l IH]; cbn [foldr List.filter]; [done|]. rewrite <-IH. clear IH.
  generalize (foldr (stable_insert by_name) [] l). clear l. intros l.
  induction l as [|y l IH]; cbn [stable_insert List.filter]; [done|]. destruct (by_name y x) eqn:E; [|done].
  cbn [List.filter]. rewrite IH. destruct (bool_decide (name_of x = n)) eqn:Ex; [|done].
  rewrite bool_decide_eq_true in Ex. rewrite (bool_decide_eq_false_2 (name_of y = n)); [done|].
  intros Ey. unfold by_name in E. by rewrite Ex, Ey, str_lt_irrefl in E.
Qed.

Lemma find_group_absent groups views n : n ∉ map vg_name groups → find_group groups views n = [].
Proof. induction groups as [|g gs IH]; cbn; [done|]. intros H. rewrite bool_decide_eq_false_2 by set_solver. apply IH. set_solver. Qed.

Lemma find_group_app gs gs' views n :
  find_group (gs ++ gs') views n = if decide (n ∈ map vg_name gs) then find_group gs views n else find_group gs' views n.
Proof.
  induction gs as [|g gs IH]; cbn [app find_group map]; [done|].
  destruct (decide (vg_name g = n)) as [<-|Hn].
  - rewrite bool_decide_eq_true_2 by done. by rewrite decide_True by set_solver.
  - rewrite bool_decide_eq_false_2 by done. rewrite IH. repeat case_decide; set_solver.
Qed.

Definition in_bounds (views : list nat) (g : view_group) : Prop := (vg_offset g + vg_count g ≤ length views)%nat.

Lemma find_group_extend groups views more n :
  Forall (in_bounds views) groups → find_group groups (views ++ more) n = find_group groups views n.
Proof.
  induction 1 as [|g gs Hg _ IH]; cbn [find_group]; [done|]. rewrite IH. case_bool_decide; [|done]. unfold in_bounds in Hg.
  rewrite drop_app_le by lia. rewrite take_app_le; [done|]. rewrite length_drop. lia.
Qed.

Record groups_ok (sorted : list nat) (index : list nat * list view_group) : Prop := {
  go_views : index.1 = sorted;
  go_names : NoDup (map vg_name index.2);
  go_bounds : Forall (in_bounds sorted) index.2;
  go_in : ∀ n, n ∈ map vg_name index.2 → ∃ i, i ∈ sorted ∧ name_of i = n;
  go_find : ∀ n, find_group index.2 sorted n = named n sorted;
  go_last : match last index.2 with
            | Some g => ∃ z, last sorted = Some z ∧ vg_name g = name_of z ∧ (vg_offset g + vg_count g)%nat = length sorted
            | None => sorted = []
            end
}.

Lemma in_bounds_more sorted x g : in_bounds sorted g → in_bounds (sorted ++ [x]) g.
Proof. unfold in_bounds. rewrite length_app. cbn. lia. Qed.

Lemma named_snoc n l x : named n (l ++ [x]) = named n l ++ (if bool_decide (name_of x = n) then [x] else []).
Proof. unfold named. rewrite List.filter_app. cbn [List.filter]. by case_bool_decide. Qed.

Lemma add_view_ok sorted index x :
  StronglySorted le (sorted ++ [x]) → groups_ok sorted index → groups_ok (sorted ++ [x]) (add_view name_of index x).
Proof.
  intros Hsort [Hv Hnd Hb Hin Hf Hl]. destruct index as [views groups]. cbn [fst snd] in *. subst views.
  unfold add_view. destruct (last groups) as [g|] eqn:El.
  2: { apply last_None in El as ->. subst sorted. split; cbn; try done.
       - apply NoDup_singleton.
       - by repeat constructor.
       - intros n. rewrite list_elem_of_singleton. intros ->. exists x. split; [by apply list_elem_of_singleton|done].
       - by exists x. }
  apply last_Some in El as [gs ->]. destruct Hl as (z & Hz & Hgz & Hend). apply last_Some in Hz as [sorted' ->].
  rewrite map_app, NoDup_app in Hnd. destruct Hnd as (Hnd1 & Hnd2 & _). cbn [map] in Hnd2.
  assert (Hg : vg_name g ∉ map vg_name gs) by (intros H; apply (Hnd2 _ H); set_solver). clear Hnd2.
  apply Forall_app in Hb as [Hb Hbg%Forall_inv].
  case_bool_decide as Hn.
  - rewrite removelast_last. set (sorted := sorted' ++ [z]) in *. split; cbn [fst snd].
    + done.
    + rewrite map_app. apply NoDup_app. split_and!; [done| |apply NoDup_singleton]. set_solver.
    + apply Forall_app. split; [eapply Forall_impl; [exact Hb|]; intros; by apply in_bounds_more|].
      constructor; [|done]. unfold in_bounds in *. cbn. rewrite length_app. cbn. lia.
    + intros n Hn'. rewrite map_app in Hin, Hn'. cbn [map vg_name] in Hn'. destruct (Hin n) as (i & ? & ?); [set_solver|].
      exists i. set_solver.
    + intros n. rewrite named_snoc, <-Hf, !find_group_app. rewrite find_group_extend by done.
      case_decide as Hd. { rewrite bool_decide_eq_false_2 by congruence. by rewrite app_nil_r. }
      cbn [find_group vg_name vg_offset vg_count]. rewrite <-Hn. case_bool_decide; [|done].
      rewrite drop_app_le by (unfold in_bounds in Hbg; lia).
      assert (Hlen : length (drop (vg_offset g) sorted) = vg_count g) by (rewrite length_drop; lia).
      rewrite !take_ge by (rewrite ?length_app; cbn; lia). done.
    + rewrite last_snoc. exists x. rewrite last_snoc. cbn. rewrite length_app. cbn. split_and!; [done|done|lia].
  - assert (Hfresh : name_of x ∉ map vg_name (gs ++ [g])).
    { intros (i & Hi & Hix)%Hin. apply Hn. rewrite Hgz. rewrite <-app_assoc in Hsort. cbn [app] in Hsort.
      apply StronglySorted_app in Hsort as (Hcross & _ & Htail). apply StronglySorted_inv in Htail as [_ Hzx].
      apply Forall_inv in Hzx. apply elem_of_app in Hi as [Hi|Hi%list_elem_of_singleton]; [|by subst i].
      apply str_le_antisym; [exact Hzx|]. rewrite <-Hix. apply (Hcross i z); [done|]. set_solver. }
    set (sorted := sorted' ++ [z]) in *. split; cbn [fst snd].
    + done.
    + rewrite map_app. apply NoDup_app. split_and!; [|set_solver|apply NoDup_singleton].
      rewrite map_app. apply NoDup_app. split_and!; [done|set_solver|apply NoDup_singleton].
    + apply Forall_app. split.
      * apply Forall_app. split; [eapply Forall_impl; [exact Hb|]; intros; by apply in_bounds_more|].
        constructor; [|done]. by apply in_bounds_more.
      * constructor; [|done]. unfold in_bounds. cbn. rewrite length_app. cbn. lia.
    + intros n. rewrite map_app, elem_of_app. intros [H|H].
      * destruct (Hin n H) as (i & ? & ?). exists i. set_solver.
      * exists x. set_solver.
    + intros n. rewrite named_snoc, <-Hf, find_group_app.
      rewrite find_group_extend by (apply Forall_app; split; [done|by constructor]).
      case_decide as Hd. { rewrite bool_decide_eq_false_2 by congruence. by rewrite app_nil_r. }
      rewrite (find_group_absent (gs ++ [g])) by done.
      cbn [find_group vg_name vg_offset vg_count]. case_bool_decide; [|done]. by rewrite drop_app_length.
    + rewrite last_snoc. exists x. rewrite last_snoc. cbn. rewrite length_app. cbn. split_and!; [done|done|lia].
Qed.

Lemma build_groups_ok l : StronglySorted le l → groups_ok l (build_groups name_of l).
Proof.
  unfold build_groups. induction l as [|x l IH] using rev_ind; intros Hs.
  - split; cbn; try done; [constructor|]. intros n H. by apply not_elem_of_nil in H.
  - rewrite foldl_app. cbn [foldl]. apply add_view_ok; [done|]. apply IH. by apply StronglySorted_app in Hs as (_ & ? & _).
Qed.
End groups.

(** ** Lookups by name *)

Lemma filter_filter {A} (p q : A → bool) l : List.filter p (List.filter q l) = List.filter (λ x, q x && p x) l.
Proof. induction l as [|x l IH]; cbn; [done|]. destruct (q x); cbn; [|done]. destruct (p x); by rewrite IH. Qed.

(** The elements at the positions that satisfy [p] are those that satisfy [q]. *)
Lemma filter_positions {A} (p : nat → bool) (q : A → bool) l :
  (∀ i x, l !! i = Some x → p i = q x) →
  omap (λ i, l !! i) (List.filter p (seq 0 (length l))) = List.filter q l.
Proof.
  assert (Hgen : ∀ pre, (∀ i x, l !! i = Some x → p (length pre + i)%nat = q x) →
    omap (λ i, (pre ++ l) !! i) (List.filter p (seq (length pre) (length l))) = List.filter q l).
  { induction l as [|x l IH]; intros pre H; [done|]. cbn [length seq List.filter].
    assert (Htail : omap (λ i, (pre ++ x :: l) !! i) (List.filter p (seq (S (length pre)) (length l))) = List.filter q l).
    { specialize (IH (pre ++ [x])). rewrite length_app, <-app_assoc in IH. cbn [length app] in IH.
      rewrite Nat.add_1_r in IH. apply IH. intros i y Hi. rewrite <-(H (S i) y Hi). f_equal. lia. }
    rewrite <-(H 0%nat x eq_refl), Nat.add_0_r. destruct (p (length pre)); [|done]. cbn [omap list_omap].
    rewrite list_lookup_middle by done. by f_equal. }
  intros H. by apply (Hgen []).
Qed.

Definition field_named (name : str) (part : multipart_form_part) : bool :=
  bool_decide (fp_filename part = None ∧ fp_name part = name).
Definition file_named (name : str) (part : multipart_form_part) : bool :=
  bool_decide (is_Some (fp_filename part) ∧ fp_name part = name).

Lemma rebuild_parts parts : parts_ (rebuild_indexes parts) = parts.
Proof. unfold rebuild_indexes. by destruct (build_groups _ _), (build_groups _ _). Qed.

(** The index of one kind of parts. *)
Definition index_of (parts : list multipart_form_part) (kind : nat → bool) : list nat * list view_group :=
  build_groups (part_name parts)
    (stable_sort (λ i j, str_lt (part_name parts i) (part_name parts j)) (List.filter kind (seq 0 (length parts)))).

Lemma rebuild_index parts :
  (field_views_ (rebuild_indexes parts), field_groups_ (rebuild_indexes parts)) =
    index_of parts (λ i, negb (part_is_file parts i)) ∧
  (file_views_ (rebuild_indexes parts), file_groups_ (rebuild_indexes parts)) = index_of parts (part_is_file parts).
Proof. unfold rebuild_indexes, index_of. by destruct (build_groups _ _), (build_groups _ _). Qed.

Lemma group_views parts (kind : nat → bool) views groups name :
  (views, groups) = index_of parts kind →
  find_group groups views name =
    List.filter (λ i, kind i && bool_decide (part_name parts i = name)) (seq 0 (length parts)).
Proof.
  unfold index_of. intros Hi.
  destruct (build_groups_ok (part_name parts) _ (stable_sort_sorted (part_name parts)
    (List.filter kind (seq 0 (length parts))))) as [Hv _ _ _ Hf _]. rewrite <-Hi in Hv, Hf. cbn [fst snd] in Hv, Hf.
  by rewrite Hv, Hf, stable_sort_named, filter_filter.
Qed.

Lemma fields_spec parts name : form_fields (rebuild_indexes parts) name = List.filter (field_named name) parts.
Proof.
  unfold form_fields, deref. rewrite rebuild_parts, (group_views _ _ _ _ _ (proj1 (rebuild_index parts))).
  apply filter_positions. intros i part Hi. unfold part_is_file, part_name, field_named. rewrite Hi.
  apply eq_iff_eq_true. by rewrite andb_true_iff, negb_true_iff, bool_decide_eq_false, !bool_decide_eq_true, <-eq_None_not_Some.
Qed.

Lemma files_spec parts name : form_files (rebuild_indexes parts) name = List.filter (file_named name) parts.
Proof.
  unfold form_files, deref. rewrite rebuild_parts, (group_views _ _ _ _ _ (proj2 (rebuild_index parts))).
  apply filter_positions. intros i part Hi. unfold part_is_file, part_name, file_named. rewrite Hi.
  apply eq_iff_eq_true. by rewrite andb_true_iff, !bool_decide_eq_true.
Qed.

(** The index of a form is right for any parts, in any order and with any
    repetitions: [fields] of a name gives the parts of that name without a
    file name and [files] those with one, in their order in the body; [first_]
    gives the first, and [single_] succeeds exactly when there is one. *)
Theorem form_lookup_spec (parts : list multipart_form_part) (name : str) :
  let form := rebuild_indexes parts in
  let fields := List.filter (field_named name) parts in
  let files := List.filter (file_named name) parts in
  form_fields form name = fields ∧ form_files form name = files ∧
  first_field form name = head fields ∧ first_file form name = head files ∧
  (∀ field, single_field form name = Ok field ↔ fields = [field]) ∧
  (∀ file, single_file form name = Ok file ↔ files = [file]).
Proof.
  cbv zeta. unfold first_field, first_file, single_field, single_file. rewrite fields_spec, files_spec.
  split_and!; try done.
  - intros field. destruct (List.filter _ parts) as [|x [|y l]]; split; try done; congruence.
  - intros file. destruct (List.filter _ parts) as [|x [|y l]]; split; try done; congruence.
Qed.

(** What [files] hands out can be stored under its safe name: every file has one,
    which has no separators, and both kinds of views agree on it.  The views of a
    part that is no file do not. *)
Theorem file_names_safe (parts : list multipart_form_part) (name : str) (file : multipart_form_part) :
  file ∈ form_files (rebuild_indexes parts) name →
  view_is_file (Some file) = true ∧ file_view_safe_filename (Some file) = view_safe_filename (Some file) ∧
  view_safe_filename (Some file) ≠ [] ∧ none_of unsafe_filename_char (view_safe_filename (Some file)).
Proof.
  rewrite files_spec. intros Hin. apply list_elem_of_In, List.filter_In in Hin as [_ Hfile]. unfold file_named in Hfile.
  unfold view_is_file, file_view_safe_filename, view_safe_filename, file_view_filename, view_filename. cbn.
  destruct (fp_filename file) as [filename|]; [|by rewrite ?andb_false_r in Hfile].
  destruct (safe_filename_spec filename) as (H1 & H2 & _). by split_and!.
Qed.

Example field_names_differ :
  let field := Some (FormPart (lit "a") None [] (lit "x")) in view_safe_filename field = [] ∧ file_view_safe_filename field = lit "upload".
Proof. split; reflexivity. Qed.
