(* ===== verification/MultipartRoundTrip.v ===== *)
(** * Encoding multipart forms

    A client's encoder for multipart forms, and the theorem that
    [parse_multipart_form] gives back what it encodes. *)

From S2P Require Import Prelude Text Http HttpError Multipart MultipartForm MultipartTheory MultipartFormSpec.

Open Scope Z_scope.

Record sent_part := SentPart { sp_name : str; sp_filename : option str; sp_extra : headers; sp_body : str }.

Definition encode_disposition (name : str) (filename : option str) : str :=
  lit "form-data;" ++ quoted_param (lit "name") name ++
  match filename with Some f => ";"%char :: quoted_param (lit "filename") f | None => [] end.

Definition header_line (header : str * str) : str := header.1 ++ lit ": " ++ header.2.

Definition sent_headers (part : sent_part) : headers :=
  (lit "Content-Disposition", encode_disposition (sp_name part) (sp_filename part)) :: sp_extra part.

Definition encode_block (part : sent_part) : str := join_lines (map header_line (sent_headers part)).

Definition encode_content_type (boundary : str) : str :=
  lit "multipart/form-data;" ++ quoted_param (lit "boundary") boundary.

Definition encode_form (boundary : str) (parts : list sent_part) : str :=
  multipart_body boundary (map (λ part, (encode_block part, sp_body part)) parts) true.

Definition as_form_part (part : sent_part) : multipart_form_part :=
  FormPart (sp_name part) (sp_filename part) (sent_headers part) (sp_body part).

(** Headers that a part may have besides Content-Disposition. *)
Fixpoint extra_ok (saw_content_type : bool) (extra : headers) : Prop :=
  match extra with
  | [] => True
  | (name, value) :: extra' =>
    (name ≠ [] ∧ contains_ctl name = false ∧ none_of (is_char ":") name ∧ trim_ows name = name) ∧
    (no_cr value ∧ trim_ows value = value) ∧
    ascii_iequals name (lit "content-disposition") = false ∧
    ascii_iequals name (lit "content-transfer-encoding") = false ∧
    (ascii_iequals name (lit "content-type") = true → saw_content_type = false) ∧
    extra_ok (saw_content_type || ascii_iequals name (lit "content-type")) extra'
  end.

(** What a part must satisfy to be sent with a boundary and accepted. *)
Definition sendable (o : multipart_form_options) (boundary : str) (part : sent_part) : Prop :=
  part_within o (as_form_part part) ∧ size (encode_block part) ≤ max_part_header_bytes (limits o) ∧
  extra_ok false (sp_extra part) ∧ find_sub (delimiter_of boundary) (sp_body part) = None.

(** ** Lemmas *)

(** A literal does not contain a character. *)
Ltac no_chars := repeat (apply none_of_cons; split; [reflexivity|]); constructor.

Lemma no_ctl_none (p : ascii → bool) s : (∀ c, p c = true → is_ctl c = true) → contains_ctl s = false → none_of p s.
Proof.
  intros Hp H. unfold none_of. apply Forall_forall. intros c Hc. destruct (p c) eqn:E; [|done]. apply Hp in E.
  unfold contains_ctl in H. rewrite <-H. symmetry. apply existsb_exists. exists c. by rewrite <-list_elem_of_In.
Qed.

Lemma no_ctl_cr s : contains_ctl s = false → no_cr s.
Proof. apply no_ctl_none. intros c <-%is_char_true. done. Qed.

Lemma no_ctl_quotable s : contains_ctl s = false → quotable s.
Proof.
  apply (no_ctl_none is_break). intros c. unfold is_break. rewrite !orb_true_iff, !is_char_true. by intros [[<-|<-]|<-].
Qed.

Lemma none_of_quote d s : is_char d "\" = false → is_char d dquote = false → none_of (is_char d) s → none_of (is_char d) (quote s).
Proof.
  intros H1 H2 H. unfold quote. apply none_of_cons. split; [done|]. apply none_of_app.
  split; [|by apply none_of_cons; split; [|constructor]]. induction H as [|c s Hc _ IH]; [constructor|].
  cbn [flat_map]. apply none_of_app. split; [|done]. unfold quote_char. destruct (_ || _);
    repeat (apply none_of_cons; split; [done|]); constructor.
Qed.

Lemma no_cr_param name value : no_cr name → no_cr value → no_cr (quoted_param name value).
Proof.
  intros Hn Hv. apply none_of_cons. split; [done|]. apply none_of_app. split; [done|]. apply none_of_cons. split; [done|].
  by apply none_of_quote.
Qed.

Lemma length_trim_left s : (length (trim_left s) ≤ length s)%nat.
Proof. induction s as [|c s IH]; cbn; [done|]. destruct (is_ows c); cbn; lia. Qed.

Lemma trimmed_head c s : trim_ows (c :: s) = c :: s → is_ows c = false.
Proof.
  destruct (is_ows c) eqn:E; [|done]. rewrite trim_ows_cons by done. intros H. apply (f_equal length) in H.
  unfold trim_ows in H. rewrite length_rev in H. pose proof (length_trim_left (rev (trim_left s))) as H1.
  rewrite length_rev in H1. pose proof (length_trim_left s). cbn in H. lia.
Qed.

Lemma last_quoted_param pre name value : last (pre ++ quoted_param name value) = Some dquote.
Proof.
  unfold quoted_param, quote. rewrite !app_comm_cons, !app_assoc. apply last_snoc.
Qed.

Lemma trim_disposition name filename : trim_ows (encode_disposition name filename) = encode_disposition name filename.
Proof.
  apply trim_ows_id; intros c; [by intros [= <-]|]. unfold encode_disposition. destruct filename as [f|].
  - rewrite app_assoc.
    change (";"%char :: quoted_param (lit "filename") f) with ([";"%char] ++ quoted_param (lit "filename") f).
    rewrite app_assoc, last_quoted_param. by intros [= <-].
  - rewrite app_nil_r, last_quoted_param. by intros [= <-].
Qed.

Lemma names_ok : param_name_ok (lit "name") ∧ param_name_ok (lit "filename") ∧ param_name_ok (lit "boundary").
Proof. unfold param_name_ok, plain, none_of. split_and!; try done; by repeat constructor. Qed.

Lemma parse_disposition name filename :
  name ≠ [] → contains_ctl name = false → match filename with Some f => contains_ctl f = false | None => True end →
  parse_multipart_content_disposition (encode_disposition name filename) = Ok (Disposition name filename).
Proof.
  intros Hne Hn Hf. destruct names_ok as (N1 & N2 & _). pose proof (no_ctl_quotable _ Hn) as Q1.
  unfold parse_multipart_content_disposition, encode_disposition.
  set (params := quoted_param (lit "name") name ++ _).
  assert (Hsep : find_unquoted (lit "form-data;" ++ params) ";" 0 = Some 9%nat) by done. rewrite Hsep.
  unfold before. change (take 9 (lit "form-data;" ++ params)) with (lit "form-data").
  change (trim_ows (lit "form-data")) with (lit "form-data"). change (negb _) with false. cbv iota.
  unfold parse_params. change 10%nat with (length (lit "form-data;")).
  assert (Hparams : ∀ fuel, params_loop (make_error multipart_malformed_part_header []) disposition_param
    (S (S fuel)) (lit "form-data;" ++ params) (length (lit "form-data;")) (None, None) = Ok (Some name, filename)).
  { intros fuel. unfold params. destruct filename as [f|].
    - rewrite params_loop_next.
      2: { rewrite unquoted_param by done. 
           transitivity (Some (length (quoted_param (lit "name") name) + 0)%nat); [done|by rewrite Nat.add_0_r]. }
      rewrite parse_quoted_param by done. cbn [mbind result_bind].
      change (disposition_param (lit "name") name (None, None)) with (@Ok error (option str * option str) (Some name, None)).
      cbn [mbind result_bind]. pose proof (no_ctl_quotable _ Hf) as Q2.
      rewrite params_loop_last; [by rewrite parse_quoted_param|by rewrite <-(app_nil_r (quoted_param _ f)), unquoted_param|done].
    - rewrite app_nil_r, params_loop_last; [by rewrite parse_quoted_param|by rewrite <-(app_nil_r (quoted_param _ name)), unquoted_param|done]. }
  change (length (lit "form-data;" ++ params)) with (S (9 + length params)). rewrite Hparams.
  cbn [mbind result_bind fst snd]. change (default [] (Some name)) with name. rewrite bool_decide_eq_false_2, Hn by done. cbn [orb].
  destruct filename as [f|]; [by rewrite Hf|done].
Qed.

Lemma parse_encode_content_type boundary :
  valid_boundary boundary = true → parse_multipart_boundary (encode_content_type boundary) = Ok boundary.
Proof.
  intros Hv. destruct names_ok as (_ & _ & N3).
  assert (contains_ctl boundary = false) as Hctl by (unfold valid_boundary in Hv; breflect; done).
  pose proof (no_ctl_quotable _ Hctl) as Hq. unfold parse_multipart_boundary, encode_content_type.
  set (params := quoted_param (lit "boundary") boundary).
  change (match lit "multipart/form-data;" ++ params with [] => ?a | _ => ?b end) with b.
  assert (Hsep : find_unquoted (lit "multipart/form-data;" ++ params) ";" 0 = Some 19%nat) by done. rewrite Hsep.
  unfold before. change (take 19 (lit "multipart/form-data;" ++ params)) with (lit "multipart/form-data").
  change (negb _) with false. cbv iota. unfold parse_params. change 20%nat with (length (lit "multipart/form-data;")).
  unfold params. rewrite params_loop_last;
    [|by rewrite <-(app_nil_r (quoted_param _ boundary)), unquoted_param|done].
  rewrite parse_quoted_param by done. change (boundary_param _ _ _) with (@Ok error _ (Some boundary)).
  cbn [mbind result_bind]. by rewrite Hv.
Qed.

Lemma parse_header_line name value st :
  name ≠ [] → contains_ctl name = false → none_of (is_char ":") name → trim_ows name = name → trim_ows value = value →
  parse_part_header_line (header_line (name, value)) st =
    let added := headers_add (ph_headers st) name value in
    if ascii_iequals name (lit "content-disposition") then
      match ph_disposition st with
      | Some _ => malformed_header (lit "duplicate content-disposition")
      | None => Ok (PartHeaderState added (Some value) (ph_content_type st))
      end
    else if ascii_iequals name (lit "content-type") then
      if ph_content_type st then malformed_header (lit "duplicate content-type")
      else Ok (PartHeaderState added (ph_disposition st) true)
    else if ascii_iequals name (lit "content-transfer-encoding") && negb (ascii_iequals value (lit "7bit")) &&
            negb (ascii_iequals value (lit "8bit")) && negb (ascii_iequals value (lit "binary")) then
      malformed_header (lit "unsupported content-transfer-encoding")
    else Ok (PartHeaderState added (ph_disposition st) (ph_content_type st)).
Proof.
  intros Hne Hctl Hcolon Htn Htv. unfold parse_part_header_line, header_line. cbn [fst snd].
  destruct name as [|c name]; [done|]. rewrite <-app_comm_cons at 1. rewrite (trimmed_head _ _ Htn).
  assert (Hf : find_char ":" ((c :: name) ++ lit ": " ++ value) = Some (length (c :: name))).
  { unfold find_char. change (lit ": " ++ value) with (":"%char :: " "%char :: value).
    apply find_if_here; [done|apply is_char_refl]. }
  rewrite Hf. cbn [length]. change (S (length name)) with (length (c :: name)). rewrite take_app_length.
  change (lit ": " ++ value) with (":"%char :: " "%char :: value). rewrite drop_S_app, (trim_ows_cons " " value), Htn, Htv by done.
  rewrite bool_decide_eq_false_2, Hctl by done. done.
Qed.

Lemma parse_extra saw extra hs disposition :
  extra_ok saw extra →
  ∃ saw', parse_lines (map header_line extra) (PartHeaderState hs disposition saw) =
    Ok (PartHeaderState (hs ++ extra) disposition saw').
Proof.
  revert saw hs. induction extra as [|[name value] extra IH]; intros saw hs; cbn [extra_ok map parse_lines].
  { intros _. exists saw. by rewrite app_nil_r. }
  intros ((Hne & Hctl & Hcolon & Htn) & (Hcr & Htv) & Hcd & Hcte & Hct & Hr).
  rewrite parse_header_line by done. cbn [ph_headers ph_disposition ph_content_type]. rewrite Hcd, Hcte. cbv zeta.
  apply (IH _ (headers_add hs name value)) in Hr as [saw' Hr]. exists saw'. unfold headers_add in *.
  rewrite <-app_assoc in Hr. cbn [app] in Hr. destruct (ascii_iequals name (lit "content-type")) eqn:E; cbn [andb].
  - rewrite Hct by done. rewrite orb_true_r in Hr. done.
  - rewrite orb_false_r in Hr. done.
Qed.

Lemma no_cr_header_line name value : name ≠ [] → no_cr name → no_cr value → line_ok (header_line (name, value)).
Proof.
  intros Hne Hn Hv. split; [|by destruct name]. unfold header_line. apply no_cr_app; [done|]. apply no_cr_app; [|done].
  no_chars.
Qed.

Lemma extra_lines_ok saw extra : extra_ok saw extra → Forall line_ok (map header_line extra).
Proof.
  revert saw. induction extra as [|[name value] extra IH]; intros saw; cbn [extra_ok map]; [constructor|].
  intros ((Hne & Hctl & _) & (Hcr & _) & _ & _ & _ & Hr). constructor; [|by eapply IH].
  apply no_cr_header_line; [done|by apply no_ctl_cr|done].
Qed.

Lemma no_cr_disposition name filename :
  contains_ctl name = false → match filename with Some f => contains_ctl f = false | None => True end →
  no_cr (encode_disposition name filename).
Proof.
  intros Hn Hf. unfold encode_disposition. apply no_cr_app; [no_chars|].
  apply no_cr_app; [apply no_cr_param; [no_chars|by apply no_ctl_cr]|].
  destruct filename as [f|]; [|constructor]. apply none_of_cons. split; [done|].
  apply no_cr_param; [no_chars|by apply no_ctl_cr].
Qed.

Lemma encode_block_ok o boundary part :
  sendable o boundary part →
  block_ends (encode_block part) ∧
  parse_part_header_block (encode_block part) (limits o) =
    Ok (Disposition (sp_name part) (sp_filename part), sent_headers part).
Proof.
  intros ((Hfile & Hne & Hctl & Hname & Hcount) & _ & Hextra & _). cbn [as_form_part fp_name fp_filename fp_headers] in *.
  assert (Hf : match sp_filename part with
               | Some f => contains_ctl f = false ∧ size f ≤ max_filename_bytes (limits o) | None => True end).
  { destruct (sp_filename part); [|done]. tauto. }
  assert (Hf1 : match sp_filename part with Some f => contains_ctl f = false | None => True end)
    by (destruct (sp_filename part); [tauto|done]).
  assert (Hlines : Forall line_ok (map header_line (sent_headers part))).
  { cbn [sent_headers map]. constructor; [|by eapply extra_lines_ok].
    apply no_cr_header_line; [done|no_chars|by apply no_cr_disposition]. }
  split.
  { unfold block_ends, encode_block. rewrite <-(app_nil_r crlf2). by apply join_lines_no_blank. }
  unfold parse_part_header_block, encode_block. rewrite count_lines by done.
  rewrite length_map. change (Z.of_nat (length (sent_headers part))) with (size (sent_headers part)).
  rewrite (proj2 (Z.ltb_ge _ _)) by done.
  pose proof (length_join_lines _ Hlines) as Hlen.
  assert (Hloop : ∀ st, part_header_loop (S (length (join_lines (map header_line (sent_headers part)))))
    (join_lines (map header_line (sent_headers part))) 0 st = parse_lines (map header_line (sent_headers part)) st).
  { intros st. apply (part_header_loop_lines _ _ []); [done|lia]. }
  rewrite Hloop. cbn [sent_headers map parse_lines].
  rewrite parse_header_line; [|done|done|no_chars|done|by apply trim_disposition].
  change (ascii_iequals (lit "Content-Disposition") (lit "content-disposition")) with true.
  cbn [ph_disposition ph_content_type ph_headers mbind result_bind]. cbv zeta iota.
  destruct (parse_extra false (sp_extra part)
    (headers_add [] (lit "Content-Disposition") (encode_disposition (sp_name part) (sp_filename part)))
    (Some (encode_disposition (sp_name part) (sp_filename part))) Hextra) as [saw' Hp].
  cbn [mbind result_bind]. rewrite Hp. cbn [mbind result_bind ph_disposition ph_headers].
  rewrite parse_disposition by done. cbn [mbind result_bind dp_name dp_filename]. rewrite (proj2 (Z.ltb_ge _ _)) by done.
  assert ((match sp_filename part with Some f => max_filename_bytes (limits o) <? size f | None => false end) = false) as ->.
  { destruct (sp_filename part) as [f|]; [|done]. apply Z.ltb_ge. tauto. }
  done.
Qed.

Lemma encode_accepted o boundary count memory parts :
  Forall (sendable o boundary) parts → contains_ctl boundary = false →
  count + size parts ≤ max_parts (limits o) →
  (max_memory_bytes o ≠ 0 → memory + memory_of (map as_form_part parts) ≤ max_memory_bytes o) →
  accepted o (delimiter_of boundary) true (map (λ part, (encode_block part, sp_body part)) parts) count memory
    (map as_form_part parts).
Proof.
  intros H Hb. revert count memory. induction H as [|part parts Hp Hr IH]; intros count memory Hc Hm; [done|].
  cbn [map accepted]. destruct (encode_block_ok _ _ _ Hp) as [Hends Hblock].
  destruct Hp as (Hw & Hsize & _ & Hfind). cbn [map memory_of foldr] in Hm. fold (memory_of (map as_form_part parts)) in Hm.
  assert (Hmem : 0 ≤ memory_of (map as_form_part parts)).
  { clear. induction parts as [|p ps IH]; [done|]. cbn. fold (memory_of (map as_form_part ps)). unfold size. lia. }
  unfold size in Hc at 1. cbn [length] in Hc.
  cbn [as_form_part fp_name fp_filename fp_headers fp_body] in *. split_and!; try done.
  - apply (no_occurrence_clean ("010"%char :: "-"%char :: "-"%char :: boundary)); [|done].
    apply no_ctl_cr in Hb. rewrite !elem_of_cons. intros [?|[?|[?|Hin]]]; [done..|].
    unfold no_cr, none_of in Hb. rewrite Forall_forall in Hb. apply Hb in Hin. done.
  - unfold check_part. rewrite (proj2 (Z.ltb_ge _ _)) by (unfold size in *; lia).
    destruct Hw as [Hfile _]. cbn [as_form_part fp_filename fp_body] in Hfile.
    assert (Hmemory : (negb (max_memory_bytes o =? 0) && (max_memory_bytes o <? memory + size (sp_body part))) = false).
    { destruct (max_memory_bytes o =? 0) eqn:E; [done|]. breflect. cbn. apply Z.ltb_ge. specialize (Hm E). lia. }
    rewrite Hmemory. destruct (sp_filename part) as [f|]; cbn [andb negb bool_decide decide_rel].
    + destruct Hfile as (H0 & H1 & _). rewrite bool_decide_eq_true_2 by eauto. cbn [andb negb].
      rewrite (proj2 (Z.eqb_neq _ _)), (proj2 (Z.ltb_ge _ _)) by done. done.
    + rewrite bool_decide_eq_false_2 by by intros [? [=]]. cbn [andb negb]. by rewrite (proj2 (Z.ltb_ge _ _)) by done.
  - apply IH; [unfold size in *; lia|]. intros H. specialize (Hm H). lia.
Qed.

(** C23: Every form that a client can send within the limits is parsed back
    exactly: names and file names with any printable bytes (quotes and
    backslashes are escaped), extra headers, payloads of any bytes that do not
    contain the delimiter, whatever the boundary. *)
Theorem multipart_form_roundtrip o boundary parts
    (Hb : valid_boundary boundary = true) (Hparts : Forall (sendable o boundary) parts)
    (Hcount : size parts ≤ max_parts (limits o))
    (Hmemory : max_memory_bytes o ≠ 0 → memory_of (map as_form_part parts) ≤ max_memory_bytes o)
    (Htotal : within_total (max_total_bytes (limits o)) (encode_form boundary parts)) :
  parse_multipart_form (encode_content_type boundary) (encode_form boundary parts) o =
    Ok (rebuild_indexes (map as_form_part parts)).
Proof.
  apply parse_form_iff. split; [done|].
  exists boundary, (map (λ part, (encode_block part, sp_body part)) parts), true, (map as_form_part parts).
  split_and!; [by apply parse_encode_content_type|done| |done].
  apply encode_accepted; [done|by unfold valid_boundary in Hb; breflect|done|done].
Qed.

(** ** A sample form *)

Definition sample_options : multipart_form_options :=
  FormOptions (MultipartLimits 1000 100 100 200 4 2 8 8) 100.

Definition sample_parts : list sent_part :=
  [SentPart ["a"; "034"; "\"]%char None [(lit "Content-Type", lit "text/plain")] (lit "--a b");
   SentPart (lit "f") (Some (lit "x;y=z")) [] (lit "1" ++ crlf ++ lit "--a c")].

Definition sample_form : multipart_form := rebuild_indexes (map as_form_part sample_parts).

Lemma sample_sendable : Forall (sendable sample_options (lit "a b")) sample_parts.
Proof.
  repeat constructor; try (vm_compute; by intros ?); try (by vm_compute); unfold none_of; repeat constructor.
Qed.

Lemma multipart_form_roundtrip_witness :
  parse_multipart_form (encode_content_type (lit "a b")) (encode_form (lit "a b") sample_parts) sample_options =
    Ok sample_form ∧ fp_body <$> form_files sample_form (lit "f") = [lit "1" ++ crlf ++ lit "--a c"].
Proof.
  split; [|reflexivity]. apply (multipart_form_roundtrip sample_options (lit "a b") sample_parts).
  - reflexivity.
  - exact sample_sendable.
  - by vm_compute.
  - by vm_compute.
  - right. by vm_compute.
Defined.
