(* ===== verification/MultipartStream.v ===== *)
(** * The streaming multipart parser

    [multipart_stream_state], [multipart_part_state] and the classes
    [multipart_part], [multipart_part_stream] and [multipart_stream] of
    [src/http/multipart.cpp].  Parts are shared objects: the heap [parts] holds
    them and a position in it stands for the [shared_ptr].  Callbacks may call
    back into the parser and its parts: the user is a function from the history
    and the callback made to the calls it makes, and [emit] runs them, nested
    callbacks included, to a given depth.  A callback that resumes the body may
    receive body data inside that call, as the server delivers it, so the
    callbacks of the body are calls like the others.  [fuel] bounds the parser
    loop. *)

From S2P Require Import Prelude Text Http HttpError Multipart.

Open Scope Z_scope.

(** ** State *)

Inductive multipart_part_mode := mode_none | mode_stream | mode_text | mode_discard.

#[global] Instance part_mode_eq_dec : EqDecision multipart_part_mode.
Proof. solve_decision. Defined.

Inductive multipart_parser_phase := phase_first_boundary | phase_headers | phase_body | phase_done | phase_failed.

#[global] Instance parser_phase_eq_dec : EqDecision multipart_parser_phase.
Proof. solve_decision. Defined.

(** [ps_has_data] and its neighbours say whether the callback is set. *)
Record multipart_part_state := PartState {
  ps_name : str; ps_filename : option str; ps_headers : headers;
  ps_mode : multipart_part_mode; ps_ended : bool; ps_paused : bool; ps_file : bool; ps_received : Z;
  ps_has_data : bool; ps_has_end : bool; ps_has_error : bool; ps_has_text : bool;
  ps_text : str; ps_max_text : Z
}.

(** User callbacks, with their arguments; [ev_text_refused] is the callback
    given to a [text] that cannot be honoured. *)
Inductive mp_event :=
| ev_part (part : nat)
| ev_part_data (part : nat) (chunk : str)
| ev_part_end (part : nat)
| ev_part_error (part : nat) (e : error)
| ev_part_text (part : nat) (value : result error str)
| ev_text_refused (part : nat) (e : error)
| ev_end
| ev_error (e : error).

Inductive mp_effect := eff_event (e : mp_event) | eff_body_pause | eff_body_resume.

Record multipart_stream_state := StreamState {
  options : multipart_limits; first_delimiter : str; next_delimiter : str; buffer : str;
  phase : multipart_parser_phase; parts : list multipart_part_state; current_part : option nat;
  has_on_part : bool; has_on_end : bool; has_on_error : bool;
  construction_error : option error; received_total_bytes : Z; part_count : Z;
  valid : bool; failed : bool; paused : bool; history : list mp_effect
}.

Definition set_buffer (b : str) (s : multipart_stream_state) : multipart_stream_state :=
  StreamState (options s) (first_delimiter s) (next_delimiter s) b (phase s) (parts s) (current_part s) (has_on_part s)
    (has_on_end s) (has_on_error s) (construction_error s) (received_total_bytes s) (part_count s) (valid s) (failed s)
    (paused s) (history s).
Definition set_phase (p : multipart_parser_phase) (s : multipart_stream_state) : multipart_stream_state :=
  StreamState (options s) (first_delimiter s) (next_delimiter s) (buffer s) p (parts s) (current_part s) (has_on_part s)
    (has_on_end s) (has_on_error s) (construction_error s) (received_total_bytes s) (part_count s) (valid s) (failed s)
    (paused s) (history s).
Definition set_parts (ps : list multipart_part_state) (s : multipart_stream_state) : multipart_stream_state :=
  StreamState (options s) (first_delimiter s) (next_delimiter s) (buffer s) (phase s) ps (current_part s) (has_on_part s)
    (has_on_end s) (has_on_error s) (construction_error s) (received_total_bytes s) (part_count s) (valid s) (failed s)
    (paused s) (history s).
Definition set_current (c : option nat) (s : multipart_stream_state) : multipart_stream_state :=
  StreamState (options s) (first_delimiter s) (next_delimiter s) (buffer s) (phase s) (parts s) c (has_on_part s)
    (has_on_end s) (has_on_error s) (construction_error s) (received_total_bytes s) (part_count s) (valid s) (failed s)
    (paused s) (history s).
Definition set_handlers (on_part on_end on_error : bool) (s : multipart_stream_state) : multipart_stream_state :=
  StreamState (options s) (first_delimiter s) (next_delimiter s) (buffer s) (phase s) (parts s) (current_part s) on_part
    on_end on_error (construction_error s) (received_total_bytes s) (part_count s) (valid s) (failed s)
    (paused s) (history s).
Definition set_counts (received count : Z) (s : multipart_stream_state) : multipart_stream_state :=
  StreamState (options s) (first_delimiter s) (next_delimiter s) (buffer s) (phase s) (parts s) (current_part s)
    (has_on_part s) (has_on_end s) (has_on_error s) (construction_error s) received count (valid s) (failed s)
    (paused s) (history s).
Definition set_flags (fail pause : bool) (s : multipart_stream_state) : multipart_stream_state :=
  StreamState (options s) (first_delimiter s) (next_delimiter s) (buffer s) (phase s) (parts s) (current_part s)
    (has_on_part s) (has_on_end s) (has_on_error s) (construction_error s) (received_total_bytes s) (part_count s)
    (valid s) fail pause (history s).
Definition record (e : mp_effect) (s : multipart_stream_state) : multipart_stream_state :=
  StreamState (options s) (first_delimiter s) (next_delimiter s) (buffer s) (phase s) (parts s) (current_part s)
    (has_on_part s) (has_on_end s) (has_on_error s) (construction_error s) (received_total_bytes s) (part_count s)
    (valid s) (failed s) (paused s) (history s ++ [e]).

(** Assignments to the fields of one part. *)
Definition set_mode (m : multipart_part_mode) (p : multipart_part_state) : multipart_part_state :=
  PartState (ps_name p) (ps_filename p) (ps_headers p) m (ps_ended p) (ps_paused p) (ps_file p) (ps_received p)
    (ps_has_data p) (ps_has_end p) (ps_has_error p) (ps_has_text p) (ps_text p) (ps_max_text p).
Definition set_ended (p : multipart_part_state) : multipart_part_state :=
  PartState (ps_name p) (ps_filename p) (ps_headers p) (ps_mode p) true (ps_paused p) (ps_file p) (ps_received p)
    (ps_has_data p) (ps_has_end p) (ps_has_error p) (ps_has_text p) (ps_text p) (ps_max_text p).
Definition set_part_paused (b : bool) (p : multipart_part_state) : multipart_part_state :=
  PartState (ps_name p) (ps_filename p) (ps_headers p) (ps_mode p) (ps_ended p) b (ps_file p) (ps_received p)
    (ps_has_data p) (ps_has_end p) (ps_has_error p) (ps_has_text p) (ps_text p) (ps_max_text p).
Definition set_received (n : Z) (p : multipart_part_state) : multipart_part_state :=
  PartState (ps_name p) (ps_filename p) (ps_headers p) (ps_mode p) (ps_ended p) (ps_paused p) (ps_file p) n
    (ps_has_data p) (ps_has_end p) (ps_has_error p) (ps_has_text p) (ps_text p) (ps_max_text p).
Definition set_callbacks (d e r : bool) (p : multipart_part_state) : multipart_part_state :=
  PartState (ps_name p) (ps_filename p) (ps_headers p) (ps_mode p) (ps_ended p) (ps_paused p) (ps_file p) (ps_received p)
    d e r (ps_has_text p) (ps_text p) (ps_max_text p).
Definition set_text (has_text : bool) (t : str) (max : Z) (p : multipart_part_state) : multipart_part_state :=
  PartState (ps_name p) (ps_filename p) (ps_headers p) (ps_mode p) (ps_ended p) (ps_paused p) (ps_file p) (ps_received p)
    (ps_has_data p) (ps_has_end p) (ps_has_error p) has_text t max.

Definition update_part (i : nat) (f : multipart_part_state → multipart_part_state) (s : multipart_stream_state)
    : multipart_stream_state := set_parts (alter f i (parts s)) s.

(** The calls that user code and the request body make. *)
Inductive mp_cmd :=
| cmd_stream (part : nat)
| cmd_stream_on_data (part : nat) (set : bool)
| cmd_stream_on_end (part : nat) (set : bool)
| cmd_stream_on_error (part : nat) (set : bool)
| cmd_text (part : nat) (max_bytes : Z) (callback : bool)
| cmd_discard (part : nat)
| cmd_pause (part : nat)
| cmd_resume (part : nat)
| cmd_on_part (set : bool)
| cmd_on_end (set : bool)
| cmd_on_error (set : bool)
| cmd_body_data (chunk : str)
| cmd_body_end
| cmd_body_error (code : Z).

(** ** A view that outlives its storage

    [parse] keeps the two bytes after a delimiter as a [string_view] into the
    buffer and reads them after callbacks and after it has erased the text before
    them.  The standard gives such a read no meaning: here it is an argument, a
    function of what happened so far, of the contents when the view was made and
    before the [erase], of the number of bytes erased and of the offset. *)
Class StaleView := stale_view : list mp_effect → str → str → nat → nat → str.

(** The bytes of a storage that held [before] and now holds [now]: a zero byte
    follows the contents, and what is further on stays. *)
Definition storage (before now : str) : str := now ++ "000"%char :: drop (S (length now)) before.

(** What the common libraries do: [erase] moves what is left to the front of the
    same storage.  This is exact unless callbacks add to the buffer. *)
Definition in_place : StaleView := λ _ seen contents erased offset,
  let before := storage (seen ++ ["000"%char]) contents in
  take 2 (drop offset (storage before (drop erased contents))).

(** ** Operations *)

Section callbacks.
Context {view : StaleView} (fuel : nat) (emit : mp_event → multipart_stream_state → multipart_stream_state).

Definition emit_if (set : bool) (e : mp_event) (s : multipart_stream_state) : multipart_stream_state :=
  if set then emit e s else s.

(** [multipart_part::emit_error]. *)
Definition part_emit_error (i : nat) (e : error) (s : multipart_stream_state) : multipart_stream_state :=
  match parts s !! i with
  | None => s
  | Some p =>
    if ps_ended p then s
    else
      let s := update_part i set_ended s in
      match ps_mode p with
      | mode_stream => emit_if (ps_has_error p) (ev_part_error i e) s
      | mode_text => emit_if (ps_has_text p) (ev_part_text i (Err e)) s
      | _ => s
      end
  end.

Definition fail (e : error) (s : multipart_stream_state) : multipart_stream_state :=
  if failed s || bool_decide (phase s = phase_done) then s
  else
    let s := set_phase phase_failed (set_flags true (paused s) s) in
    let s := match current_part s with
             | Some i => set_current None (part_emit_error i e s)
             | None => s
             end in
    emit_if (has_on_error s) (ev_error e) s.

(** [multipart_part::emit_data]. *)
Definition part_emit_data (i : nat) (chunk : str) (s : multipart_stream_state) : multipart_stream_state :=
  match parts s !! i, chunk with
  | None, _ | _, [] => s
  | Some p, _ =>
    let received := ps_received p + size chunk in
    let s := update_part i (set_received received) s in
    let limits := options s in
    if ps_file p && negb (max_file_bytes limits =? 0) && (max_file_bytes limits <? received) then
      fail (make_error multipart_limit_exceeded (lit "multipart file is too large")) s
    else if negb (ps_file p) && (max_field_bytes limits <? received) then
      fail (make_error multipart_limit_exceeded (lit "multipart field is too large")) s
    else
      match ps_mode p with
      | mode_stream => emit_if (ps_has_data p) (ev_part_data i chunk) s
      | mode_text =>
        if ps_max_text p <? size (ps_text p) + size chunk then
          fail (make_error multipart_limit_exceeded (lit "multipart field is too large")) s
        else update_part i (set_text (ps_has_text p) (ps_text p ++ chunk) (ps_max_text p)) s
      | _ => s
      end
  end.

(** [multipart_part::emit_end]; the text buffer is moved into the callback. *)
Definition part_emit_end (i : nat) (s : multipart_stream_state) : multipart_stream_state :=
  match parts s !! i with
  | None => s
  | Some p =>
    if ps_ended p then s
    else
      let s := update_part i set_ended s in
      match ps_mode p with
      | mode_stream => emit_if (ps_has_end p) (ev_part_end i) s
      | mode_text =>
        if ps_has_text p then
          emit (ev_part_text i (Ok (ps_text p))) (update_part i (set_text (ps_has_text p) [] (ps_max_text p)) s)
        else s
      | _ => s
      end
  end.

Definition emit_current_data (value : str) (s : multipart_stream_state) : multipart_stream_state :=
  match value, current_part s with
  | [], _ | _, None => s
  | _, Some i => part_emit_data i value s
  end.

Definition end_current_part (s : multipart_stream_state) : multipart_stream_state :=
  match current_part s with Some i => set_current None (part_emit_end i s) | None => s end.

Definition consumed (i : nat) (s : multipart_stream_state) : bool :=
  match parts s !! i with Some p => negb (bool_decide (ps_mode p = mode_none)) | None => false end.

Definition new_part (disposition : multipart_disposition) (hs : headers) : multipart_part_state :=
  PartState (dp_name disposition) (dp_filename disposition) hs mode_none false false
    (bool_decide (is_Some (dp_filename disposition))) 0 false false false false [] 0.

Definition parse_part_headers (block : str) (s : multipart_stream_state) : multipart_stream_state :=
  match parse_part_header_block block (options s) with
  | Err e => fail e s
  | Ok (disposition, hs) =>
    let s := set_counts (received_total_bytes s) (part_count s + 1) s in
    if max_parts (options s) <? part_count s then
      fail (make_error multipart_limit_exceeded (lit "multipart has too many parts")) s
    else
      let i := length (parts s) in
      let s := set_current (Some i) (set_parts (parts s ++ [new_part disposition hs]) s) in
      if negb (has_on_part s) then
        fail (make_error multipart_malformed_body (lit "multipart part has no handler")) s
      else
        let s := emit (ev_part i) s in
        if failed s then s
        else if negb (consumed i s) then
          fail (make_error multipart_malformed_body (lit "multipart part was not consumed")) s
        else set_phase phase_body s
  end.

Definition erase (n : nat) (s : multipart_stream_state) : multipart_stream_state := set_buffer (drop n (buffer s)) s.

(** [phase = done] and the callback of the end. *)
Definition finish_body (s : multipart_stream_state) : multipart_stream_state :=
  let s := set_phase phase_done s in emit_if (has_on_end s) ev_end s.

Definition malformed (text : string) : error := make_error multipart_malformed_body (lit text).
Definition headers_too_large : error :=
  make_error multipart_limit_exceeded (lit "multipart part headers are too large").

(** One turn of the loop of [parse] in each phase; the flag tells whether the
    loop goes on. *)
Definition parse_first_boundary (s : multipart_stream_state) : multipart_stream_state * bool :=
  let after := length (first_delimiter s) in
  if (length (buffer s) <? after + 2)%nat then (s, false)
  else if negb (starts_with (buffer s) (first_delimiter s)) then
    (fail (malformed "multipart body must start with boundary") s, false)
  else if str_eqb (substr (buffer s) after 2) (lit "--") then (finish_body (erase (after + 2) s), false)
  else if negb (str_eqb (substr (buffer s) after 2) crlf) then
    (fail (malformed "invalid multipart boundary delimiter") s, false)
  else (set_phase phase_headers (erase (after + 2) s), true).

Definition parse_headers (s : multipart_stream_state) : multipart_stream_state * bool :=
  let limit := max_part_header_bytes (options s) in
  match find_sub crlf2 (buffer s) with
  | None => ((if limit <? size (buffer s) then fail headers_too_large s else s), false)
  | Some header_end =>
    if limit <? Z.of_nat header_end then (fail headers_too_large s, false)
    else (parse_part_headers (take header_end (buffer s)) (erase (header_end + 4) s), true)
  end.

(** Hands out the first [n] bytes of the buffer and removes them. *)
Definition emit_and_erase (n : nat) (s : multipart_stream_state) : multipart_stream_state :=
  let s := emit_current_data (take n (buffer s)) s in
  if paused s then erase n s else if failed s then s else erase n s.

Definition parse_body (s : multipart_stream_state) : multipart_stream_state * bool :=
  let seen := buffer s in
  match find_next_multipart_delimiter seen (next_delimiter s) 0 with
  | delimiter_need_more position => ((if (0 <? position)%nat then emit_and_erase position s else s), false)
  | delimiter_not_found =>
    let keep := length (next_delimiter s) in
    ((if (keep <? length (buffer s))%nat then emit_and_erase (length (buffer s) - keep) s else s), false)
  | delimiter_found position _ =>
    let after := (position + length (next_delimiter s))%nat in
    let s := emit_current_data (take position (buffer s)) s in
    if paused s then (erase position s, false)
    else if failed s then (s, false)
    else
      let s := end_current_part s in
      let suffix := stale_view (history s) seen (buffer s) (after + 2) after in
      let s := erase (after + 2) s in
      if str_eqb suffix (lit "--") then
        (finish_body (if starts_with (buffer s) crlf then erase 2 s else s), false)
      else (set_phase phase_headers s, true)
  end.

Definition parse_once (s : multipart_stream_state) : multipart_stream_state * bool :=
  match phase s with
  | phase_first_boundary => parse_first_boundary s
  | phase_headers => parse_headers s
  | phase_body => parse_body s
  | _ => (s, false)
  end.

Fixpoint parse_loop (fuel : nat) (s : multipart_stream_state) : multipart_stream_state :=
  match fuel with
  | O => s
  | S fuel' =>
    if failed s || paused s then s
    else let '(s', continue) := parse_once s in if continue then parse_loop fuel' s' else s'
  end.

Definition parse (s : multipart_stream_state) : multipart_stream_state := parse_loop fuel s.

Definition pause (s : multipart_stream_state) : multipart_stream_state :=
  if paused s then s
  else let s := set_flags (failed s) true s in if valid s then record eff_body_pause s else s.

Definition resume (s : multipart_stream_state) : multipart_stream_state :=
  if negb (paused s) then s
  else
    let s := parse (set_flags (failed s) false s) in
    if negb (paused s) && valid s then record eff_body_resume s else s.

Definition finish (s : multipart_stream_state) : multipart_stream_state :=
  if failed s then s
  else
    let s := parse s in
    if failed s then s
    else if negb (bool_decide (phase s = phase_done)) then fail (make_error multipart_unexpected_end []) s
    else s.

(** The callbacks that the constructor gives to the request body. *)
Definition body_on_data (chunk : str) (s : multipart_stream_state) : multipart_stream_state :=
  let s := set_counts (received_total_bytes s + size chunk) (part_count s) s in
  let total_limit := max_total_bytes (options s) in
  if negb (total_limit =? 0) && (total_limit <? received_total_bytes s) then
    fail (make_error multipart_limit_exceeded (lit "multipart body is too large")) s
  else parse (set_buffer (buffer s ++ chunk) s).

Definition body_on_error (code : Z) (s : multipart_stream_state) : multipart_stream_state :=
  fail (Error (other_code code) (lit "request body stream failed")) s.

Definition multipart_part_consumer_error : error := malformed "multipart part consumer already selected".

(** [stream], [text], [discard], [pause] and [resume] of a part. *)
Definition part_stream (i : nat) (s : multipart_stream_state) : multipart_stream_state :=
  match parts s !! i with
  | None => s
  | Some p =>
    if bool_decide (ps_mode p = mode_none) then update_part i (set_mode mode_stream) s
    else fail multipart_part_consumer_error s
  end.

Definition part_text (i : nat) (max_bytes : Z) (callback : bool) (s : multipart_stream_state) : multipart_stream_state :=
  match parts s !! i with
  | None => s
  | Some p =>
    if bool_decide (ps_mode p = mode_none) then
      let route_limit := max_field_bytes (options s) in
      let max := if negb (route_limit =? 0) then Z.min max_bytes route_limit else max_bytes in
      update_part i (λ p, set_text callback (ps_text p) max (set_mode mode_text p)) s
    else
      let s := fail multipart_part_consumer_error s in
      emit_if callback (ev_text_refused i multipart_part_consumer_error) s
  end.

Definition part_discard (i : nat) (s : multipart_stream_state) : multipart_stream_state :=
  match parts s !! i with
  | None => s
  | Some p =>
    if bool_decide (ps_mode p = mode_none) then update_part i (set_mode mode_discard) s
    else fail multipart_part_consumer_error s
  end.

Definition part_pause (i : nat) (s : multipart_stream_state) : multipart_stream_state :=
  if bool_decide (is_Some (parts s !! i)) then pause (update_part i (set_part_paused true) s) else s.

Definition part_resume (i : nat) (s : multipart_stream_state) : multipart_stream_state :=
  if bool_decide (is_Some (parts s !! i)) then resume (update_part i (set_part_paused false) s) else s.

Definition run_cmd (s : multipart_stream_state) (c : mp_cmd) : multipart_stream_state :=
  match c with
  | cmd_stream i => part_stream i s
  | cmd_stream_on_data i b => update_part i (λ p, set_callbacks b (ps_has_end p) (ps_has_error p) p) s
  | cmd_stream_on_end i b => update_part i (λ p, set_callbacks (ps_has_data p) b (ps_has_error p) p) s
  | cmd_stream_on_error i b => update_part i (λ p, set_callbacks (ps_has_data p) (ps_has_end p) b p) s
  | cmd_text i max callback => part_text i max callback s
  | cmd_discard i => part_discard i s
  | cmd_pause i => part_pause i s
  | cmd_resume i => part_resume i s
  | cmd_on_part b => set_handlers b (has_on_end s) (has_on_error s) s
  | cmd_on_end b => set_handlers (has_on_part s) b (has_on_error s) s
  | cmd_on_error b => set_handlers (has_on_part s) (has_on_end s) b s
  | cmd_body_data chunk => if valid s then body_on_data chunk s else s
  | cmd_body_end => if valid s then finish s else s
  | cmd_body_error code => if valid s then body_on_error code s else s
  end.
End callbacks.

(** [multipart_stream(body, content_type, options)]. *)
Definition make_stream (content_type : str) (limits : multipart_limits) : multipart_stream_state :=
  match parse_multipart_boundary content_type with
  | Err e =>
    StreamState limits [] [] [] phase_first_boundary [] None false false false (Some e) 0 0 false false false []
  | Ok boundary =>
    StreamState limits (lit "--" ++ boundary) (crlf ++ lit "--" ++ boundary) [] phase_first_boundary [] None
      false false false None 0 0 true false false []
  end.

Section stream.
(** The user: the calls that a callback makes, given the history. *)
Context {view : StaleView} (fuel : nat) (user : list mp_effect → mp_event → list mp_cmd).

(** Callbacks nested deeper than [depth] make no calls. *)
Fixpoint emit (depth : nat) (e : mp_event) (s : multipart_stream_state) : multipart_stream_state :=
  let s := record (eff_event e) s in
  match depth with
  | O => s
  | S depth' => foldl (run_cmd fuel (emit depth')) s (user (history s) e)
  end.

Definition run_cmds (depth : nat) (s : multipart_stream_state) (cs : list mp_cmd) : multipart_stream_state :=
  foldl (run_cmd fuel (emit depth)) s cs.
End stream.
