(* ===== verification/MultipartStreamSafety.v ===== *)
(** * Safety of the streaming multipart parser

    Invariants that hold whatever the user callbacks do: how they re-enter the
    parser, in whatever order they call its parts, and however the body data
    arrives. *)

From S2P Require Import Prelude Text Http HttpError Multipart MultipartStream.

Open Scope Z_scope.

(** ** Counting callbacks *)

Definition events (h : list mp_effect) : list mp_event :=
  omap (λ e, match e with eff_event e => Some e | _ => None end) h.

Definition count (p : mp_event → bool) (h : list mp_effect) : nat := length (List.filter p (events h)).

Definition is_error (e : mp_event) : bool := match e with ev_error _ => true | _ => false end.
Definition is_part (e : mp_event) : bool := match e with ev_part _ => true | _ => false end.

(** The last callback of a part. *)
Definition terminal_of (i : nat) (e : mp_event) : bool :=
  match e with
  | ev_part_end j | ev_part_error j _ | ev_part_text j _ => (j =? i)%nat
  | _ => false
  end.

Definition data_size (i : nat) (e : mp_event) : Z :=
  match e with ev_part_data j chunk => if (j =? i)%nat then size chunk else 0 | _ => 0 end.

(** The bytes of part [i] handed to its [on_data]. *)
Definition data_bytes (i : nat) (h : list mp_effect) : Z := foldr (λ e n, data_size i e + n) 0 (events h).

Definition text_ok (o : multipart_limits) (e : mp_event) : Prop :=
  match e with
  | ev_part_text _ (Ok text) => max_field_bytes o ≠ 0 → size text ≤ max_field_bytes o
  | _ => True
  end.

Lemma events_snoc h e : events (h ++ [eff_event e]) = events h ++ [e].
Proof. unfold events. by rewrite omap_app. Qed.

Lemma count_snoc p h e : count p (h ++ [eff_event e]) = (count p h + (if p e then 1 else 0))%nat.
Proof. unfold count. rewrite events_snoc, List.filter_app, length_app. cbn. by destruct (p e). Qed.

Lemma data_bytes_snoc i h e : data_bytes i (h ++ [eff_event e]) = data_bytes i h + data_size i e.
Proof.
  unfold data_bytes. rewrite events_snoc. induction (events h) as [|x l IH]; cbn; [lia|]. rewrite IH. lia.
Qed.

Lemma events_skip h e : (∀ x, e ≠ eff_event x) → events (h ++ [e]) = events h.
Proof. intros H. unfold events. rewrite omap_app. destruct e; [by edestruct H|..]; cbn; by rewrite app_nil_r. Qed.

(** ** The invariant *)

Section safety.
Context (o : multipart_limits) (Hfield : 0 ≤ max_field_bytes o) (Hfile : 0 ≤ max_file_bytes o) (Hparts : 0 ≤ max_parts o).

(** What the limits promise of the bytes of a part. *)
Definition data_within (file : bool) (n : Z) : Prop :=
  if file then max_file_bytes o ≠ 0 → n ≤ max_file_bytes o else n ≤ max_field_bytes o.

Record part_ok (h : list mp_effect) (i : nat) (p : multipart_part_state) : Prop := {
  po_file : ps_file p = bool_decide (is_Some (ps_filename p));
  po_terminal : (count (terminal_of i) h ≤ if ps_ended p then 1 else 0)%nat;
  po_data : data_bytes i h ≤ ps_received p;
  po_within : data_within (ps_file p) (data_bytes i h);
  po_text : max_field_bytes o ≠ 0 → size (ps_text p) ≤ max_field_bytes o;
  po_max : ps_mode p = mode_text → max_field_bytes o ≠ 0 → ps_max_text p ≤ max_field_bytes o
}.

Record inv (s : multipart_stream_state) : Prop := {
  iv_options : options s = o;
  iv_errors : (count is_error (history s) ≤ if failed s then 1 else 0)%nat;
  iv_parts : ∀ i p, parts s !! i = Some p → part_ok (history s) i p;
  iv_fresh : ∀ i, (length (parts s) ≤ i)%nat → count (terminal_of i) (history s) = 0%nat ∧ data_bytes i (history s) = 0;
  iv_count : (count is_part (history s) ≤ length (parts s))%nat ∧
             size (parts s) ≤ part_count s ∧ size (parts s) ≤ max_parts o;
  iv_texts : Forall (text_ok o) (events (history s))
}.

(** A failed parser stays failed and makes no further [on_error] callback. *)
Definition settled (s s' : multipart_stream_state) : Prop :=
  failed s = true → failed s' = true ∧ count is_error (history s') = count is_error (history s).

Definition good (s s' : multipart_stream_state) : Prop := inv s' ∧ settled s s'.

Definition keeps (f : multipart_stream_state → multipart_stream_state) : Prop := ∀ s, inv s → good s (f s).

Lemma good_refl s : inv s → good s s.
Proof. by split. Qed.

Lemma good_trans s s' s'' : good s s' → good s' s'' → good s s''.
Proof.
  intros [_ H1] [H2 H3]. split; [done|]. intros Hf. destruct (H1 Hf) as [Hf' E1]. destruct (H3 Hf') as [Hf'' E2].
  split; [done|congruence].
Qed.

Lemma stream_keeps_compose f g : keeps f → keeps g → keeps (λ s, g (f s)).
Proof. intros Hf Hg s Hs. pose proof (Hf s Hs) as H. eapply good_trans; [exact H|]. apply Hg, H. Qed.

Lemma keeps_if (b : multipart_stream_state → bool) f g : keeps f → keeps g → keeps (λ s, if b s then f s else g s).
Proof. intros Hf Hg s Hs. destruct (b s); auto. Qed.

(** Changes of fields that the invariant does not mention. *)
Lemma inv_same s s' :
  options s' = options s → failed s' = failed s → parts s' = parts s → part_count s' = part_count s →
  events (history s') = events (history s) → inv s → good s s'.
Proof.
  intros E1 E2 E3 E4 E5 [H1 H2 H3 H4 H5 H6]. unfold good, settled. unfold count, data_bytes in *. rewrite E2.
  assert (Hpart : ∀ i p, part_ok (history s) i p → part_ok (history s') i p).
  { intros i p [? ? ? ? ? ?]. split; try done; unfold count, data_bytes in *; by rewrite E5. }
  split.
  - split; unfold count, data_bytes; rewrite ?E1, ?E2, ?E3, ?E4, ?E5; auto.
  - intros Hf. by rewrite E5.
Qed.

Lemma keeps_buffer b : keeps (set_buffer b).
Proof. intros s. by apply inv_same. Qed.
Lemma keeps_phase p : keeps (set_phase p).
Proof. intros s. by apply inv_same. Qed.
Lemma keeps_current c : keeps (set_current c).
Proof. intros s. by apply inv_same. Qed.
Lemma keeps_handlers a b c : keeps (set_handlers a b c).
Proof. intros s. by apply inv_same. Qed.
Lemma keeps_paused b : keeps (λ s, set_flags (failed s) b s).
Proof. intros s. by apply inv_same. Qed.
Lemma keeps_body_effect e : (∀ x, e ≠ eff_event x) → keeps (record e).
Proof. intros He s. apply inv_same; try done. by apply events_skip. Qed.

(** Changes of one part. *)
Lemma good_update i f s :
  inv s → (∀ p, parts s !! i = Some p → part_ok (history s) i p → part_ok (history s) i (f p)) → good s (update_part i f s).
Proof.
  intros [H1 H2 H3 H4 H5 H6] Hf. split; [|by intros ?]. unfold update_part. split; cbn; try done.
  - intros j p Hj. rewrite list_lookup_alter in Hj. case_decide as Hij; [subst j|by apply H3].
    apply fmap_Some in Hj as (p' & Hp & ->). by apply Hf, H3.
  - intros j Hj. rewrite length_alter in Hj. by apply H4.
  - unfold size. by rewrite length_alter.
Qed.

Lemma keeps_update i f : (∀ h p, part_ok h i p → part_ok h i (f p)) → keeps (update_part i f).
Proof. intros Hf s Hs. apply good_update; auto. Qed.

Lemma lookup_update i f s p : parts s !! i = Some p → parts (update_part i f s) !! i = Some (f p).
Proof. intros Hp. unfold update_part. cbn. rewrite list_lookup_alter, decide_True by done. by rewrite Hp. Qed.

(** Callbacks that neither end a part, nor hand out data, nor report. *)
Definition quiet (e : mp_event) : Prop :=
  is_error e = false ∧ is_part e = false ∧ ∀ i, terminal_of i e = false ∧ data_size i e = 0.

Lemma inv_record_quiet e s : quiet e → text_ok o e → inv s → good s (record (eff_event e) s).
Proof.
  intros (Q1 & Q2 & Q3) Ht [H1 H2 H3 H4 H5 H6].
  assert (Hd : ∀ i, data_bytes i (history s ++ [eff_event e]) = data_bytes i (history s)).
  { intros i. rewrite data_bytes_snoc. destruct (Q3 i) as [_ ->]. lia. }
  assert (Hc : ∀ i, count (terminal_of i) (history s ++ [eff_event e]) = count (terminal_of i) (history s)).
  { intros i. rewrite count_snoc. destruct (Q3 i) as [-> _]. lia. }
  assert (He : count is_error (history s ++ [eff_event e]) = count is_error (history s))
    by (rewrite count_snoc, Q1; lia).
  split; [|intros Hf; cbn [failed history record]; by rewrite He]. split; cbn [options history parts failed part_count record]; [done| | | | |].
  - by rewrite He.
  - intros i p Hp. destruct (H3 i p Hp). split; rewrite ?Hd, ?Hc; done.
  - intros i Hi. rewrite Hd, Hc. by apply H4.
  - rewrite count_snoc, Q2. by rewrite Nat.add_0_r.
  - rewrite events_snoc. apply Forall_app. split; [done|by constructor].
Qed.

(** ** The callbacks of the parser *)

(** A callback that ends a part. *)
Lemma inv_record_terminal i e p s :
  (∀ j, terminal_of j e = (i =? j)%nat) → (∀ j, data_size j e = 0) → is_error e = false → is_part e = false → text_ok o e →
  parts s !! i = Some p → ps_ended p = true → count (terminal_of i) (history s) = 0%nat → inv s →
  good s (record (eff_event e) s).
Proof.
  intros Q1 Q2 Q3 Q4 Ht Hp Hend Hzero [H1 H2 H3 H4 H5 H6].
  assert (Hd : ∀ j, data_bytes j (history s ++ [eff_event e]) = data_bytes j (history s)).
  { intros j. rewrite data_bytes_snoc, Q2. lia. }
  assert (Hc : ∀ j, j ≠ i → count (terminal_of j) (history s ++ [eff_event e]) = count (terminal_of j) (history s)).
  { intros j Hj. rewrite count_snoc, Q1. rewrite (proj2 (Nat.eqb_neq _ _)) by done. lia. }
  assert (He : count is_error (history s ++ [eff_event e]) = count is_error (history s))
    by (rewrite count_snoc, Q3; lia).
  split; [|intros Hf; cbn [failed history record]; by rewrite He].
  split; cbn [options history parts failed part_count record]; [done| | | | |].
  - by rewrite He.
  - intros j q Hq. destruct (H3 j q Hq). destruct (decide (j = i)) as [->|Hji].
    + assert (q = p) as -> by congruence. split; rewrite ?Hd; try done.
      rewrite count_snoc, Q1, Nat.eqb_refl, Hzero, Hend. done.
    + split; rewrite ?Hd, ?Hc; done.
  - intros j Hj. apply lookup_lt_Some in Hp. rewrite Hd, Hc by lia. by apply H4.
  - rewrite count_snoc, Q4. by rewrite Nat.add_0_r.
  - rewrite events_snoc. apply Forall_app. split; [done|by constructor].
Qed.

(** A callback that hands out data within the limits. *)
Lemma inv_record_data i chunk p s :
  parts s !! i = Some p → data_bytes i (history s) + size chunk ≤ ps_received p →
  data_within (ps_file p) (ps_received p) → inv s → good s (record (eff_event (ev_part_data i chunk)) s).
Proof.
  intros Hp Hle Hw [H1 H2 H3 H4 H5 H6]. set (e := ev_part_data i chunk).
  assert (Hd : ∀ j, j ≠ i → data_bytes j (history s ++ [eff_event e]) = data_bytes j (history s)).
  { intros j Hj. rewrite data_bytes_snoc. cbn. rewrite (proj2 (Nat.eqb_neq _ _)) by done. lia. }
  assert (Hc : ∀ q, q e = false → count q (history s ++ [eff_event e]) = count q (history s))
    by (intros q Hq; rewrite count_snoc, Hq; lia).
  split; [|intros Hf; cbn [failed history record]; by rewrite Hc].
  split; cbn [options history parts failed part_count record]; [done| | | | |].
  - by rewrite Hc.
  - intros j q Hq. destruct (H3 j q Hq). destruct (decide (j = i)) as [->|Hji].
    + assert (q = p) as -> by congruence. assert (data_bytes i (history s ++ [eff_event e]) ≤ ps_received p).
      { rewrite data_bytes_snoc. cbn. rewrite Nat.eqb_refl. lia. }
      split; rewrite ?Hc; try done. unfold data_within in *. destruct (ps_file p); [intros Hm; specialize (Hw Hm)|]; lia.
    + split; rewrite ?Hd, ?Hc; done.
  - intros j Hj. apply lookup_lt_Some in Hp. rewrite Hd, Hc by (done || lia). by apply H4.
  - by rewrite Hc.
  - rewrite events_snoc. apply Forall_app. split; [done|by constructor].
Qed.

(** Every callback keeps the invariant, whatever it calls. *)
Context {view : StaleView} (fuel : nat) (emit : mp_event → multipart_stream_state → multipart_stream_state).
Context (Hemit : ∀ e s, inv (record (eff_event e) s) → good (record (eff_event e) s) (emit e s)).

Lemma emit_good e s : good s (record (eff_event e) s) → good s (emit e s).
Proof. intros H. eapply good_trans; [exact H|]. apply Hemit, H. Qed.

Lemma set_ended_ok h i p : part_ok h i p → part_ok h i (set_ended p).
Proof. intros []. split; cbn; try done. by destruct (ps_ended p); lia. Qed.

(** Ending a part: mark it, then call back. *)
Lemma end_part_keeps i p e s :
  (∀ j, terminal_of j e = (i =? j)%nat) → (∀ j, data_size j e = 0) → is_error e = false → is_part e = false → text_ok o e →
  parts s !! i = Some p → ps_ended p = false → inv s → good s (emit e (update_part i set_ended s)).
Proof.
  intros Q1 Q2 Q3 Q4 Ht Hp Hend Hs. pose proof (keeps_update i set_ended (λ h p, set_ended_ok h i p) s Hs) as H1.
  eapply good_trans; [exact H1|]. apply emit_good, (inv_record_terminal i e (set_ended p)); try done.
  - by apply lookup_update.
  - pose proof (po_terminal _ _ _ (iv_parts _ Hs _ _ Hp)) as Hc. rewrite Hend in Hc. cbv iota in Hc.
    change (count (terminal_of i) (history s) = 0%nat). lia.
  - apply H1.
Qed.

Lemma part_emit_error_keeps i e : keeps (part_emit_error emit i e).
Proof.
  intros s Hs. unfold part_emit_error. destruct (parts s !! i) as [p|] eqn:Hp; [|by apply good_refl].
  destruct (ps_ended p) eqn:Hend; [by apply good_refl|].
  assert (Hu : good s (update_part i set_ended s)) by (apply keeps_update; [intros; by apply set_ended_ok|done]).
  destruct (ps_mode p); unfold emit_if; try done.
  - destruct (ps_has_error p); [|done]. by eapply end_part_keeps.
  - destruct (ps_has_text p); [|done]. by eapply end_part_keeps.
Qed.

Lemma inv_set_failed s : inv s → failed s = false → good s (set_phase phase_failed (set_flags true (paused s) s)).
Proof.
  intros [H1 H2 H3 H4 H5 H6] Hf. split; [|intros Hf'; congruence]. rewrite Hf in H2. cbv iota in H2.
  split; cbn [options history parts failed part_count set_flags set_phase]; try done. lia.
Qed.

Lemma stream_fail_keeps e : keeps (fail emit e).
Proof.
  intros s Hs. unfold fail. destruct (failed s) eqn:Hf; [by apply good_refl|]. cbn [orb].
  case_bool_decide; [by apply good_refl|]. set (s1 := set_phase _ _).
  assert (H1 : good s s1) by (by apply inv_set_failed).
  assert (Hzero : count is_error (history s1) = 0%nat) by (pose proof (iv_errors _ Hs) as H2; rewrite Hf in H2; cbv iota in H2;
    change (count is_error (history s) = 0%nat); lia).
  assert (H2 : good s1 (match current_part s1 with Some i => set_current None (part_emit_error emit i e s1) | None => s1 end)).
  { destruct (current_part s1) as [i|]; [|apply good_refl, H1].
    apply (stream_keeps_compose (part_emit_error emit i e) (set_current None)); [apply part_emit_error_keeps|apply keeps_current|apply H1]. }
  set (s2 := match current_part s1 with Some _ => _ | None => _ end) in *. cbv zeta. unfold emit_if.
  destruct (has_on_error s2); [|by eapply good_trans].
  destruct H2 as [Hs2 Hset]. destruct (Hset eq_refl) as [Hf2 He2].
  split; [|intros Hf'; congruence]. apply Hemit. destruct Hs2 as [I1 I2 I3 I4 I5 I6].
  assert (Hd : ∀ i, data_bytes i (history s2 ++ [eff_event (ev_error e)]) = data_bytes i (history s2))
    by (intros i; rewrite data_bytes_snoc; cbn; lia).
  assert (Hc : ∀ q, q (ev_error e) = false → count q (history s2 ++ [eff_event (ev_error e)]) = count q (history s2))
    by (intros q Hq; rewrite count_snoc, Hq; lia).
  split; cbn [options history parts failed part_count record]; [done| | | | |].
  - rewrite count_snoc, He2, Hzero, Hf2. done.
  - intros i p Hp. destruct (I3 i p Hp). split; rewrite ?Hd, ?Hc; done.
  - intros i Hi. rewrite Hd, Hc by done. by apply I4.
  - by rewrite Hc.
  - rewrite events_snoc. apply Forall_app. split; [done|by constructor].
Qed.

Ltac unchanged := split; cbn; done.

Lemma part_emit_data_keeps i chunk : keeps (part_emit_data emit i chunk).
Proof.
  intros s Hs. unfold part_emit_data. destruct (parts s !! i) as [p|] eqn:Hp; [|by apply good_refl].
  destruct chunk as [|c chunk]; [by apply good_refl|]. set (data := c :: chunk).
  assert (Hsize : 0 ≤ size data) by (unfold size; lia).
  set (s1 := update_part i (set_received (ps_received p + size data)) s).
  assert (H1 : good s s1).
  { apply good_update; [done|]. intros p' Hp' [? ? ? ? ? ?]. assert (p' = p) as -> by congruence.
    split; cbn; try done. lia. }
  assert (Hp1 : parts s1 !! i = Some (set_received (ps_received p + size data) p)) by (by apply lookup_update).
  assert (Ho : options s1 = o) by apply H1.
  cbv zeta. rewrite Ho.
  destruct (ps_file p && _ && _) eqn:E1; [eapply good_trans; [exact H1|apply stream_fail_keeps, H1]|].
  destruct (negb (ps_file p) && _) eqn:E2; [eapply good_trans; [exact H1|apply stream_fail_keeps, H1]|].
  destruct (iv_parts _ Hs _ _ Hp) as [P1 P2 P3 P4 P5 P6].
  assert (Hw : data_within (ps_file p) (ps_received p + size data)).
  { unfold data_within. destruct (ps_file p); cbn [andb negb] in *; [|by breflect].
    intros Hm. rewrite (proj2 (Z.eqb_neq _ _)) in E1 by done. cbn [andb negb] in E1. by breflect. }
  destruct (ps_mode p) eqn:Hmode; try done.
  - unfold emit_if. destruct (ps_has_data p); [|done]. eapply good_trans; [exact H1|].
    apply emit_good, (inv_record_data i data (set_received (ps_received p + size data) p)); try done; [|by apply H1].
    change (data_bytes i (history s) + size data ≤ ps_received p + size data). lia.
  - destruct (ps_max_text p <? _) eqn:E3; [eapply good_trans; [exact H1|apply stream_fail_keeps, H1]|]. breflect.
    eapply good_trans; [exact H1|]. apply good_update; [by apply H1|]. intros p' Hp' [? ? ? ? ? ?].
    assert (p' = set_received (ps_received p + size data) p) as -> by congruence. split; cbn in *; try done.
    intros Hm. unfold size in *. rewrite length_app. specialize (P6 eq_refl Hm). unfold data in *. cbn in *. lia.
Qed.

Lemma emit_terminal i e p s :
  (∀ j, terminal_of j e = (i =? j)%nat) → (∀ j, data_size j e = 0) → is_error e = false → is_part e = false → text_ok o e →
  parts s !! i = Some p → ps_ended p = true → count (terminal_of i) (history s) = 0%nat → inv s → good s (emit e s).
Proof. intros. by eapply emit_good, inv_record_terminal. Qed.

Lemma part_emit_end_keeps i : keeps (part_emit_end emit i).
Proof.
  intros s Hs. unfold part_emit_end. destruct (parts s !! i) as [p|] eqn:Hp; [|by apply good_refl].
  destruct (ps_ended p) eqn:Hend; [by apply good_refl|].
  assert (Hu : good s (update_part i set_ended s)) by (apply keeps_update; [intros; by apply set_ended_ok|done]).
  destruct (ps_mode p); unfold emit_if; try done.
  - destruct (ps_has_end p); [|done]. by eapply end_part_keeps.
  - destruct (ps_has_text p) eqn:Htext; [|done]. eapply good_trans; [exact Hu|].
    pose proof (iv_parts _ Hs _ _ Hp) as [P1 P2 P3 P4 P5 P6].
    set (s1 := update_part i set_ended s) in *.
    assert (Hp1 : parts s1 !! i = Some (set_ended p)) by (by apply lookup_update).
    set (s2 := update_part i _ s1).
    assert (H2 : good s1 s2).
    { apply good_update; [by apply Hu|]. intros p' Hp' [? ? ? ? ? ?]. assert (p' = set_ended p) as -> by congruence.
      split; cbn; done. }
    eapply good_trans; [exact H2|].
    apply (emit_terminal i _ (set_text true [] (ps_max_text p) (set_ended p))); try done; [| |by apply H2].
    + unfold s2. rewrite <-Htext. by apply (lookup_update i (set_text (ps_has_text p) [] (ps_max_text p))).
    + rewrite Hend in P2. cbv iota in P2. change (count (terminal_of i) (history s) = 0%nat). lia.
Qed.

Lemma emit_current_data_keeps value : keeps (emit_current_data emit value).
Proof.
  intros s Hs. unfold emit_current_data. destruct value; [by apply good_refl|].
  destruct (current_part s); [by apply part_emit_data_keeps|by apply good_refl].
Qed.

Lemma end_current_part_keeps : keeps (end_current_part emit).
Proof.
  intros s Hs. unfold end_current_part. destruct (current_part s) as [i|]; [|by apply good_refl].
  by apply (stream_keeps_compose _ _ (part_emit_end_keeps i) (keeps_current None)).
Qed.

Lemma erase_keeps n : keeps (erase n).
Proof. intros s. by apply inv_same. Qed.

Lemma emit_quiet e : quiet e → text_ok o e → keeps (emit e).
Proof. intros Hq Ht s Hs. by apply emit_good, inv_record_quiet. Qed.

Lemma emit_if_quiet b e : quiet e → text_ok o e → keeps (emit_if emit b e).
Proof. intros Hq Ht s Hs. unfold emit_if. destruct b; [by apply emit_quiet|by apply good_refl]. Qed.

Lemma new_part_keeps disposition hs s :
  inv s → size (parts s) < max_parts o → size (parts s) < part_count s →
  good s (set_parts (parts s ++ [new_part disposition hs]) s).
Proof.
  intros [H1 H2 H3 H4 H5 H6] Hmax Hcount. split; [|by intros ?].
  split; cbn [options history parts failed part_count set_parts]; try done.
  - intros i p. rewrite lookup_app_Some. intros [Hi|[Hi Hp]]; [by apply H3|].
    apply list_lookup_singleton_Some in Hp as [Hz <-]. destruct (H4 i Hi) as [E1 E2].
    split; rewrite ?E1, ?E2; try done. unfold data_within. by destruct (ps_file _).
  - intros i Hi. rewrite length_app in Hi. apply H4. lia.
  - destruct H5 as (C1 & C2 & C3). unfold size in *. rewrite length_app. cbn [length]. lia.
Qed.

Lemma inv_record_part i s :
  (count is_part (history s) < length (parts s))%nat → inv s → good s (record (eff_event (ev_part i)) s).
Proof.
  intros Hlt [H1 H2 H3 H4 H5 H6]. set (e := ev_part i).
  assert (Hd : ∀ j, data_bytes j (history s ++ [eff_event e]) = data_bytes j (history s))
    by (intros j; rewrite data_bytes_snoc; cbn; lia).
  assert (Hc : ∀ q, q e = false → count q (history s ++ [eff_event e]) = count q (history s))
    by (intros q Hq; rewrite count_snoc, Hq; lia).
  split; [|intros Hf; cbn [failed history record]; by rewrite Hc].
  split; cbn [options history parts failed part_count record]; [done| | | | |].
  - by rewrite Hc.
  - intros j p Hp. destruct (H3 j p Hp). split; rewrite ?Hd, ?Hc; done.
  - intros j Hj. rewrite Hd, Hc by done. by apply H4.
  - rewrite count_snoc. cbn [is_part e]. lia.
  - rewrite events_snoc. apply Forall_app. split; [done|by constructor].
Qed.

Lemma parse_part_headers_keeps block : keeps (parse_part_headers emit block).
Proof.
  intros s Hs. unfold parse_part_headers. destruct (parse_part_header_block _ _) as [[disposition hs]|e]; [|by apply stream_fail_keeps].
  set (s1 := set_counts _ _ s).
  assert (H1 : good s s1).
  { destruct Hs as [H1 H2 H3 H4 (C1 & C2 & C3) H6]. split; [|by intros ?]. split; cbn [options history parts failed part_count set_counts s1]; try done. lia. }
  assert (Ho : options s1 = o) by apply H1. cbv zeta. rewrite Ho.
  destruct (max_parts o <? part_count s1) eqn:E; [eapply good_trans; [exact H1|apply stream_fail_keeps, H1]|]. breflect.
  assert (Hcount : size (parts s1) < part_count s1) by (pose proof (iv_count _ Hs) as (_ & ? & _);
    change (size (parts s) < part_count s + 1); lia).
  set (s2 := set_current _ _).
  assert (H2 : good s1 s2).
  { eapply good_trans; [apply new_part_keeps; [apply H1|lia|done]|]. apply keeps_current, new_part_keeps; [apply H1|lia|done]. }
  assert (Hlt : (count is_part (history s2) < length (parts s2))%nat).
  { pose proof (iv_count _ (proj1 H1)) as (? & _). change (count is_part (history s1) < length (parts s1 ++ [new_part disposition hs]))%nat.
    rewrite length_app. cbn [length]. lia. }
  destruct (negb (has_on_part s2)).
  { eapply good_trans; [exact H1|]. eapply good_trans; [exact H2|]. apply stream_fail_keeps, H2. }
  set (s3 := emit _ s2).
  assert (H3 : good s s3).
  { eapply good_trans; [exact H1|]. eapply good_trans; [exact H2|]. apply emit_good, inv_record_part; [done|apply H2]. }
  destruct (failed s3); [done|]. destruct (negb (consumed _ s3)); (eapply good_trans; [exact H3|]).
  - apply stream_fail_keeps, H3.
  - apply keeps_phase, H3.
Qed.

Lemma finish_body_keeps : keeps (finish_body emit).
Proof.
  intros s Hs. unfold finish_body. apply (stream_keeps_compose (set_phase phase_done) (emit_if emit (has_on_end s) ev_end)).
  - apply keeps_phase.
  - by apply emit_if_quiet.
  - done.
Qed.

(** ** The loop and the calls *)

(** A state that a chain of steps reaches is good. *)
Ltac chain H := (eapply good_trans; [exact H|]).

Lemma emit_and_erase_keeps n : keeps (emit_and_erase emit n).
Proof.
  intros s Hs. unfold emit_and_erase. pose proof (emit_current_data_keeps (take n (buffer s)) s Hs) as H1. cbv zeta.
  destruct (paused _); [chain H1; apply erase_keeps, H1|]. destruct (failed _); [done|]. chain H1. apply erase_keeps, H1.
Qed.

Lemma parse_first_boundary_keeps : keeps (λ s, (parse_first_boundary emit s).1).
Proof.
  intros s Hs. unfold parse_first_boundary. destruct (_ <? _)%nat; [by apply good_refl|].
  destruct (negb (starts_with _ _)); [by apply stream_fail_keeps|]. destruct (str_eqb _ (lit "--")); cbn [fst].
  { by apply (stream_keeps_compose _ _ (erase_keeps _) finish_body_keeps). }
  destruct (negb (str_eqb _ crlf)); [by apply stream_fail_keeps|].
  by apply (stream_keeps_compose _ _ (erase_keeps _) (keeps_phase phase_headers)).
Qed.

Lemma parse_headers_keeps : keeps (λ s, (parse_headers emit s).1).
Proof.
  intros s Hs. unfold parse_headers. destruct (find_sub _ _) as [header_end|]; cbn [fst].
  - destruct (_ <? _); [by apply stream_fail_keeps|].
    by apply (stream_keeps_compose _ _ (erase_keeps (header_end + 4)) (parse_part_headers_keeps (take header_end (buffer s)))).
  - destruct (_ <? _); [by apply stream_fail_keeps|by apply good_refl].
Qed.

Lemma parse_body_keeps : keeps (λ s, (parse_body emit s).1).
Proof.
  intros s Hs. unfold parse_body. cbv zeta. destruct (find_next_multipart_delimiter _ _ _) as [position suffix| |position]; cbn [fst].
  - pose proof (emit_current_data_keeps (take position (buffer s)) s Hs) as H1.
    set (s1 := emit_current_data _ _ _) in *. cbv zeta.
    destruct (paused s1); [chain H1; apply erase_keeps, H1|]. destruct (failed s1); [done|].
    set (n := (_ + _ + 2)%nat). pose proof (stream_keeps_compose _ _ end_current_part_keeps (erase_keeps n) s1 (proj1 H1)) as H2.
    cbn beta in H2. set (s2 := erase n _) in *. destruct (str_eqb _ (lit "--")); cbn [fst].
    + chain H1. chain H2. destruct (starts_with (buffer s2) crlf); [|apply finish_body_keeps, H2].
      apply (stream_keeps_compose _ _ (erase_keeps 2) finish_body_keeps), H2.
    + chain H1. chain H2. apply keeps_phase, H2.
  - destruct (_ <? _)%nat; [by apply emit_and_erase_keeps|by apply good_refl].
  - destruct (_ <? _)%nat; [by apply emit_and_erase_keeps|by apply good_refl].
Qed.

Lemma stream_loop_keeps n : keeps (parse_loop emit n).
Proof.
  induction n as [|n IH]; intros s Hs; cbn [parse_loop]; [by apply good_refl|].
  destruct (failed s || paused s); [by apply good_refl|].
  assert (H1 : good s (parse_once emit s).1).
  { unfold parse_once. destruct (phase s); [by apply parse_first_boundary_keeps|by apply parse_headers_keeps|
      by apply parse_body_keeps|by apply good_refl|by apply good_refl]. }
  destruct (parse_once emit s) as [s1 continue]. cbn [fst] in H1. destruct continue; [|done]. chain H1. apply IH, H1.
Qed.

Lemma pause_keeps : keeps pause.
Proof.
  intros s Hs. unfold pause. destruct (paused s); [by apply good_refl|]. pose proof (keeps_paused true s Hs) as H1. cbv zeta.
  destruct (valid _); [|done]. chain H1. apply keeps_body_effect; [done|apply H1].
Qed.

Lemma resume_keeps : keeps (resume fuel emit).
Proof.
  intros s Hs. unfold resume. destruct (negb (paused s)); [by apply good_refl|].
  pose proof (stream_keeps_compose _ _ (keeps_paused false) (stream_loop_keeps fuel) s Hs) as H1. cbn beta in H1. cbv zeta. unfold parse.
  destruct (_ && _); [|done]. chain H1. apply keeps_body_effect; [done|apply H1].
Qed.

Lemma finish_keeps : keeps (finish fuel emit).
Proof.
  intros s Hs. unfold finish, parse. destruct (failed s); [by apply good_refl|]. pose proof (stream_loop_keeps fuel s Hs) as H1.
  cbv zeta. destruct (failed _); [done|]. destruct (negb _); [|done]. chain H1. apply stream_fail_keeps, H1.
Qed.

Lemma body_on_data_keeps chunk : keeps (body_on_data fuel emit chunk).
Proof.
  intros s Hs. unfold body_on_data, parse. set (s1 := set_counts _ _ s).
  assert (H1 : good s s1) by (by apply inv_same). cbv zeta.
  destruct (_ && _); [chain H1; apply stream_fail_keeps, H1|]. chain H1.
  apply (stream_keeps_compose _ _ (keeps_buffer (buffer s1 ++ chunk)) (stream_loop_keeps fuel)), H1.
Qed.

Lemma set_mode_ok h i p m : m ≠ mode_text → part_ok h i p → part_ok h i (set_mode m p).
Proof. intros Hm [? ? ? ? ? ?]. split; cbn; try done. Qed.

Lemma select_keeps i m : m ≠ mode_text → keeps (update_part i (set_mode m)).
Proof. intros Hm. apply keeps_update. intros h p. by apply set_mode_ok. Qed.

Lemma part_text_keeps i max callback : keeps (part_text emit i max callback).
Proof.
  intros s Hs. unfold part_text. destruct (parts s !! i) as [p|]; [|by apply good_refl]. case_bool_decide.
  - apply keeps_update; [|done]. intros h q [? ? ? ? ? ?]. split; cbn; try done. intros _ Hm.
    rewrite (iv_options _ Hs). rewrite (proj2 (Z.eqb_neq _ _)) by done. cbn [negb]. lia.
  - pose proof (stream_fail_keeps multipart_part_consumer_error s Hs) as H1. chain H1. by apply emit_if_quiet; [..|apply H1].
Qed.

Lemma stream_cmd_keeps c : keeps (λ s, run_cmd fuel emit s c).
Proof.
  intros s Hs. destruct c as [i|i b|i b|i b|i max b|i|i|i|b|b|b|chunk| |code]; cbn [run_cmd].
  - unfold part_stream. destruct (parts s !! i); [|by apply good_refl].
    case_bool_decide; [by apply select_keeps|by apply stream_fail_keeps].
  - apply keeps_update; [|done]. intros h p [? ? ? ? ? ?]. by split.
  - apply keeps_update; [|done]. intros h p [? ? ? ? ? ?]. by split.
  - apply keeps_update; [|done]. intros h p [? ? ? ? ? ?]. by split.
  - by apply part_text_keeps.
  - unfold part_discard. destruct (parts s !! i); [|by apply good_refl].
    case_bool_decide; [by apply select_keeps|by apply stream_fail_keeps].
  - unfold part_pause. case_bool_decide; [|by apply good_refl].
    apply (stream_keeps_compose (update_part i (set_part_paused true)) pause); [|apply pause_keeps|done].
    apply keeps_update. intros h p [? ? ? ? ? ?]. by split.
  - unfold part_resume. case_bool_decide; [|by apply good_refl].
    apply (stream_keeps_compose (update_part i (set_part_paused false)) (resume fuel emit)); [|apply resume_keeps|done].
    apply keeps_update. intros h p [? ? ? ? ? ?]. by split.
  - by apply keeps_handlers.
  - by apply keeps_handlers.
  - by apply keeps_handlers.
  - destruct (valid s); [by apply body_on_data_keeps|by apply good_refl].
  - destruct (valid s); [by apply finish_keeps|by apply good_refl].
  - destruct (valid s); [by apply stream_fail_keeps|by apply good_refl].
Qed.

Lemma run_cmds_keeps cs s : inv s → good s (foldl (run_cmd fuel emit) s cs).
Proof.
  revert s. induction cs as [|c cs IH]; intros s Hs; cbn [foldl]; [by apply good_refl|].
  pose proof (stream_cmd_keeps c s Hs) as H1. chain H1. apply IH, H1.
Qed.
End safety.

(** ** The theorems *)

Section users.
Context (o : multipart_limits) (content_type : str).
Context {view : StaleView} (fuel depth : nat) (user : list mp_effect → mp_event → list mp_cmd).

Record limits_ok : Prop := {
  lo_field : 0 ≤ max_field_bytes o; lo_file : 0 ≤ max_file_bytes o; lo_parts : 0 ≤ max_parts o
}.

Lemma emit_good_all (H : limits_ok) d e s :
  inv o (record (eff_event e) s) → good o (record (eff_event e) s) (MultipartStream.emit fuel user d e s).
Proof.
  destruct H as [L1 L2 L3]. revert e s. induction d as [|d IH]; intros e s Hs; cbn [MultipartStream.emit]; [by apply good_refl|].
  by eapply run_cmds_keeps.
Qed.

Lemma make_stream_inv (H : limits_ok) : inv o (make_stream content_type o).
Proof.
  destruct H. unfold make_stream. destruct (parse_multipart_boundary content_type); split; cbn; try done; lia.
Qed.

Lemma run_cmds_inv (H : limits_ok) cs : inv o (MultipartStream.run_cmds fuel user depth (make_stream content_type o) cs).
Proof.
  pose proof (emit_good_all H depth) as He. pose proof (make_stream_inv H) as Hm. destruct H as [L1 L2 L3].
  unfold MultipartStream.run_cmds. by eapply run_cmds_keeps.
Qed.

(** Whatever the request body delivers and whatever user callbacks call,
    in any order and re-entering the parser in any way: [on_error] of the
    stream is called at most once, and only when the parser has failed; each
    part gets at most one terminal callback ([on_end], [on_error] or the
    result of [text]), and only when it is marked as ended. *)
Theorem multipart_stream_terminals (Hl : limits_ok) (calls : list mp_cmd) :
  let s := run_cmds fuel user depth (make_stream content_type o) calls in
  (count is_error (history s) ≤ if failed s then 1 else 0)%nat ∧
  ∀ i, (count (terminal_of i) (history s) ≤ match parts s !! i with Some p => if ps_ended p then 1 else 0 | None => 0 end)%nat.
Proof.
  cbv zeta. destruct (run_cmds_inv Hl calls) as [_ H2 H3 H4 _ _]. split; [done|]. intros i.
  destruct (parts _ !! i) as [p|] eqn:Hp; [by destruct (H3 i p Hp)|].
  apply lookup_ge_None in Hp. apply H4 in Hp as [-> _]. lia.
Qed.

(** C15: The limits hold for every user: at most [max_parts] parts are ever
    announced, no more than [max_field_bytes] of a field ([max_file_bytes] of
    a file, unless 0) reach its [on_data], and no text result is longer than
    [max_field_bytes] (unless that is 0), whatever bound the user asked for. *)
Theorem multipart_stream_limits (Hl : limits_ok) (calls : list mp_cmd) :
  let s := run_cmds fuel user depth (make_stream content_type o) calls in
  Z.of_nat (count is_part (history s)) ≤ max_parts o ∧
  (∀ i p, parts s !! i = Some p → ps_file p = bool_decide (is_Some (ps_filename p)) ∧ data_within o (ps_file p) (data_bytes i (history s))) ∧
  Forall (text_ok o) (events (history s)).
Proof.
  cbv zeta. destruct (run_cmds_inv Hl calls) as [_ _ H3 _ (C1 & _ & C3) H6]. split_and!; [unfold size in *; lia| |done].
  intros i p Hp. by destruct (H3 i p Hp).
Qed.
End users.

#[local] Existing Instance in_place.

(** ** Samples *)

Definition sample_limits : multipart_limits := MultipartLimits 1000 100 100 200 4 2 8 8.
Definition sample_type : str := lit "multipart/form-data; boundary=B".
Definition sample_head : str := lit "--B" ++ crlf ++ lit "Content-Disposition: form-data; name=a" ++ crlf2.
Definition sample_tail : str := crlf ++ lit "--B--".
Definition setup : list mp_cmd := [cmd_on_part true; cmd_on_end true; cmd_on_error true].
Definition take_part (i : nat) : list mp_cmd :=
  [cmd_stream i; cmd_stream_on_data i true; cmd_stream_on_end i true; cmd_stream_on_error i true].

(** A user that pauses when it gets data and resumes at once, the first time. *)
Definition eager_user (h : list mp_effect) (e : mp_event) : list mp_cmd :=
  match e with
  | ev_part i => take_part i
  | ev_part_data i _ =>
    if (count (λ e, match e with ev_part_data _ _ => true | _ => false end) h <=? 1)%nat then [cmd_pause i; cmd_resume i] else []
  | _ => []
  end.

Definition eager_run : multipart_stream_state :=
  run_cmds 100 eager_user 5 (make_stream sample_type sample_limits)
    (setup ++ [cmd_body_data (sample_head ++ lit "0123" ++ sample_tail); cmd_body_end]).

(** Resuming inside [on_data] parses the buffer again before the data handed
    out is erased: the part gets its bytes twice, and the form ends twice. *)
Example resume_in_on_data_repeats :
  events (history eager_run) =
    [ev_part 0; ev_part_data 0 (lit "0123"); ev_part_data 0 (lit "0123"); ev_part_end 0; ev_end; ev_end].
Proof. vm_compute. reflexivity. Qed.

(** A user that reads a part as text and discards it again in the callback. *)
Definition late_user (h : list mp_effect) (e : mp_event) : list mp_cmd :=
  match e with ev_part i => [cmd_text i 50 true] | ev_part_text i (Ok _) => [cmd_discard i] | _ => [] end.

Definition late_run : multipart_stream_state :=
  run_cmds 100 late_user 5 (make_stream sample_type sample_limits)
    (setup ++ [cmd_body_data (sample_head ++ lit "0123" ++ sample_tail); cmd_body_end]).

(** A failure while the last part ends does not stop the parser: [on_end] is
    called after [on_error], and the parser is done and failed at once. *)
Example end_after_error :
  events (history late_run) =
    [ev_part 0; ev_part_text 0 (Ok (lit "0123")); ev_error multipart_part_consumer_error; ev_end] ∧
  failed late_run = true ∧ phase late_run = phase_done.
Proof. vm_compute. split_and!; reflexivity. Qed.

(** A header block of exactly the permitted size is refused when the blank
    line that ends it arrives in two reads. *)
Example header_limit_depends_on_reads :
  let o := MultipartLimits 0 0 100 38 4 2 8 8 in
  let run calls := events (history (run_cmds 100 late_user 1 (make_stream sample_type o) (setup ++ calls))) in
  let head := take (length sample_head - 1) sample_head in
  length head = 46%nat ∧
  run [cmd_body_data (sample_head ++ lit "0")] = [ev_part 0] ∧
  run [cmd_body_data head; cmd_body_data (["010"%char] ++ lit "0")] = [ev_error headers_too_large].
Proof. vm_compute. split_and!; reflexivity. Qed.

Lemma multipart_stream_terminals_witness :
  (count is_error (history late_run) ≤ if failed late_run then 1 else 0)%nat ∧
  (∀ i, (count (terminal_of i) (history late_run) ≤
    match parts late_run !! i with Some p => if ps_ended p then 1 else 0 | None => 0 end)%nat) ∧
  count is_error (history late_run) = 1%nat.
Proof.
  apply and_assoc. split; [|vm_compute; reflexivity].
  exact (multipart_stream_terminals sample_limits sample_type 100 5 late_user (Build_limits_ok sample_limits ltac:(done) ltac:(done) ltac:(done))
    (setup ++ [cmd_body_data (sample_head ++ lit "0123" ++ sample_tail); cmd_body_end])).
Defined.

Lemma multipart_stream_limits_witness :
  Z.of_nat (count is_part (history eager_run)) ≤ 2 ∧
  (∀ i p, parts eager_run !! i = Some p →
    ps_file p = bool_decide (is_Some (ps_filename p)) ∧ data_within sample_limits (ps_file p) (data_bytes i (history eager_run))) ∧
  Forall (text_ok sample_limits) (events (history eager_run)) ∧
  data_bytes 0 (history eager_run) = 8.
Proof.
  apply and_assoc, and_assoc. split; [|vm_compute; reflexivity]. apply and_assoc.
  exact (multipart_stream_limits sample_limits sample_type 100 5 eager_user (Build_limits_ok sample_limits ltac:(done) ltac:(done) ltac:(done))
    (setup ++ [cmd_body_data (sample_head ++ lit "0123" ++ sample_tail); cmd_body_end])).
Defined.
