(* ===== verification/MultipartEquiv.v ===== *)
(** * The streaming parser agrees with the form parser

    For every body that [parse_multipart_form] accepts, and however the body
    is cut into chunks, the streaming parser announces the same parts and
    hands out the same bytes, until it is misled by a view that outlived what it
    showed ([StaleView] in [MultipartStream], here with [in_place]). *)

From S2P Require Import Prelude Text Http HttpError Multipart MultipartForm MultipartTheory MultipartFormSpec.
From S2P Require Import MultipartStream MultipartStreamSafety.

Open Scope Z_scope.

#[local] Existing Instance in_place.

(** ** The view of a delimiter's suffix *)

Lemma storage_full seen : storage (seen ++ ["000"%char]) seen = seen ++ ["000"%char].
Proof. unfold storage. f_equal. rewrite drop_ge by (rewrite length_app; cbn; lia). done. Qed.

Lemma stale_behind h seen offset :
  (offset + 2 ≤ length seen)%nat → (length (drop (offset + 2) seen) < offset)%nat →
  stale_view h seen seen (offset + 2) offset = take 2 (drop offset seen).
Proof.
  intros Hl Hs. unfold stale_view, in_place. rewrite storage_full. unfold storage. set (left := drop _ seen) in *.
  rewrite cons_middle, app_assoc, drop_app_ge by (rewrite length_app; cbn; lia). rewrite drop_drop, length_app. cbn [length].
  replace (S (length left) + (offset - (length left + 1)))%nat with offset by lia. rewrite drop_app_le by lia.
  by rewrite take_app_le by (rewrite length_drop; lia).
Qed.

Lemma stale_within h seen offset :
  (offset ≤ length (drop (offset + 2) seen))%nat → stale_view h seen seen (offset + 2) offset = lit "--" →
  take 2 (drop offset (drop (offset + 2) seen)) = lit "--".
Proof.
  intros Hl. unfold stale_view, in_place. rewrite storage_full. unfold storage. set (left := drop _ seen) in *. rewrite drop_app_le by done.
  destruct (drop offset left) as [|a [|b rest]]; [done|by cbn; intros [=]|done].
Qed.

(** The body has two dashes where the view of the delimiter behind [part] can be
    after the move: that far behind the delimiter. *)
Definition misleading (content_type body : str) (part : multipart_form_part) : Prop :=
  ∃ boundary tail k, parse_multipart_boundary content_type = Ok boundary ∧
    (delimiter_of boundary ++ crlf ++ tail) `suffix_of` body ∧
    (length (delimiter_of boundary) ≤ k ≤ length (delimiter_of boundary) + length (fp_body part))%nat ∧ take 2 (drop k tail) = lit "--".

(** ** Observations *)

(** Data callbacks byte by byte: how data is cut into callbacks does not show. *)
Definition bytewise (e : mp_event) : list mp_event :=
  match e with ev_part_data i chunk => map (λ c, ev_part_data i [c]) chunk | e => [e] end.

Definition trace (s : multipart_stream_state) : list mp_event := flat_map bytewise (events (history s)).

Definition part_info (p : multipart_part_state) : str * option str * headers := (ps_name p, ps_filename p, ps_headers p).
Definition form_info (p : multipart_form_part) : str * option str * headers := (fp_name p, fp_filename p, fp_headers p).

Definition data_events (i : nat) (body : str) : list mp_event := map (λ c, ev_part_data i [c]) body.

(** What a form looks like when it is streamed. *)
Fixpoint form_events (i : nat) (parts : list multipart_form_part) : list mp_event :=
  match parts with
  | [] => []
  | part :: parts' => ev_part i :: data_events i (fp_body part) ++ ev_part_end i :: form_events (S i) parts'
  end.

(** A user that streams every part. *)
Definition collector (h : list mp_effect) (e : mp_event) : list mp_cmd :=
  match e with ev_part i => take_part i | _ => [] end.

(** The limits of the stream: those of the form, with room for the blank line
    that ends a header block. *)
Definition stream_limits (l : multipart_limits) : multipart_limits :=
  MultipartLimits (max_total_bytes l) (max_file_bytes l) (max_field_bytes l) (max_part_header_bytes l + 3)
    (max_part_headers l) (max_parts l) (max_field_name_bytes l) (max_filename_bytes l).

Lemma trace_record e s : trace (record (eff_event e) s) = trace s ++ bytewise e.
Proof. unfold trace. cbn [history record]. rewrite events_snoc, flat_map_app. cbn. by rewrite app_nil_r. Qed.

Lemma form_events_app i ps qs : form_events i (ps ++ qs) = form_events i ps ++ form_events (i + length ps) qs.
Proof.
  revert i. induction ps as [|p ps IH]; intros i; cbn [app form_events length]; [by rewrite Nat.add_0_r|].
  rewrite IH, <-app_assoc. cbn [app]. by replace (S i + length ps)%nat with (i + S (length ps))%nat by lia.
Qed.

(** The text in the buffer and the text still to come. *)
Lemma buffer_split {A} (b f x y : list A) :
  b ++ f = x ++ y → (length x ≤ length b)%nat → b = x ++ drop (length x) b ∧ drop (length x) b ++ f = y.
Proof.
  intros H Hl. assert (Hx : take (length x) b = x).
  { apply (f_equal (take (length x))) in H. rewrite take_app_length in H. by rewrite take_app_le in H. }
  split; [by rewrite <-Hx at 1; rewrite take_drop|].
  apply (f_equal (drop (length x))) in H. rewrite drop_app_length in H. by rewrite drop_app_le in H.
Qed.

Lemma alter_last {A} (f : A → A) ps q : alter f (length ps) (ps ++ [q]) = ps ++ [f q].
Proof. by rewrite alter_app_r_alt, Nat.sub_diag by lia. Qed.

Lemma lookup_last {A} (ps : list A) q : (ps ++ [q]) !! length ps = Some q.
Proof. by rewrite list_lookup_middle. Qed.

(** ** The callbacks of the collector *)

Section collect.
Context (fuel depth : nat).
Let emit := MultipartStream.emit fuel collector (S depth).

Definition select (p : multipart_part_state) : multipart_part_state := set_callbacks true true true (set_mode mode_stream p).

Lemma emit_other e s : (∀ i, e ≠ ev_part i) → emit e s = record (eff_event e) s.
Proof. intros H. unfold emit. cbn [MultipartStream.emit]. destruct e; try done. by edestruct H. Qed.

Lemma emit_part ps p s :
  parts s = ps ++ [p] → ps_mode p = mode_none →
  emit (ev_part (length ps)) s = set_parts (ps ++ [select p]) (record (eff_event (ev_part (length ps))) s).
Proof.
  intros Hp Hm. unfold emit. cbn [MultipartStream.emit collector take_part foldl run_cmd]. unfold part_stream.
  cbn [parts record]. rewrite Hp, lookup_last, bool_decide_eq_true_2 by done.
  unfold update_part. cbn [parts set_parts record]. by rewrite Hp, !alter_last.
Qed.

(** ** The stages of a stream *)

Context (o : multipart_form_options) (boundary : str) (line_end : bool) (raws : list (str * str)) (all : list multipart_form_part).
Context (Haccepted : accepted o (delimiter_of boundary) line_end raws 0 0 all).
Let next := delimiter_of boundary.
Let l := stream_limits (limits o).
Context (content_type : str) (Hboundary : parse_multipart_boundary content_type = Ok boundary).

(** What stays the same: no failure, nothing paused, and the total limit still
    allows the text [future] that is to come. *)
Record common (future : str) (s : multipart_stream_state) : Prop := {
  cm_options : options s = l;
  cm_first : first_delimiter s = lit "--" ++ boundary;
  cm_next : next_delimiter s = next;
  cm_handlers : has_on_part s = true ∧ has_on_end s = true;
  cm_valid : valid s = true;
  cm_flags : failed s = false ∧ paused s = false;
  cm_total : max_total_bytes l = 0 ∨ received_total_bytes s + size future ≤ max_total_bytes l
}.

(** Inside the payload of a part, of which [given] was handed out. *)
Record in_part (done_parts : list multipart_form_part) (part : multipart_form_part) (given : str)
    (s : multipart_stream_state) : Prop := {
  ip_parts : ∃ ps p, parts s = ps ++ [p] ∧ map part_info ps = map form_info done_parts ∧ part_info p = form_info part ∧
    ps_mode p = mode_stream ∧ ps_ended p = false ∧ ps_has_data p = true ∧ ps_has_end p = true ∧
    ps_received p = size given ∧ ps_file p = bool_decide (is_Some (fp_filename part));
  ip_current : current_part s = Some (length done_parts);
  ip_count : part_count s = size done_parts + 1;
  ip_trace : trace s = form_events 0 done_parts ++ ev_part (length done_parts) :: data_events (length done_parts) given
}.

(** The size limit of one part. *)
Definition payload_within (part : multipart_form_part) : Prop :=
  data_within (limits o) (bool_decide (is_Some (fp_filename part))) (size (fp_body part)).

Inductive stage (future : str) (s : multipart_stream_state) : Prop :=
| at_first :
    phase s = phase_first_boundary → parts s = [] → current_part s = None → part_count s = 0 → trace s = [] →
    buffer s ++ future = (lit "--" ++ boundary) ++ parts_text next raws ++ ending line_end → stage future s
| at_headers done_parts todo raws' memory :
    phase s = phase_headers → all = done_parts ++ todo → raws' ≠ [] →
    accepted o next line_end raws' (size done_parts) memory todo →
    map part_info (parts s) = map form_info done_parts → current_part s = None → part_count s = size done_parts →
    trace s = form_events 0 done_parts →
    (parts_text next raws' ++ ending line_end) `suffix_of` multipart_body boundary raws line_end →
    crlf ++ buffer s ++ future = parts_text next raws' ++ ending line_end → stage future s
| at_body done_parts part todo raws' memory given rest :
    phase s = phase_body → all = done_parts ++ part :: todo → fp_body part = given ++ rest → payload_within part →
    clean next rest (parts_text next raws' ++ ending line_end) →
    accepted o next line_end raws' (size done_parts + 1) memory todo →
    in_part done_parts part given s →
    (next ++ parts_text next raws' ++ ending line_end) `suffix_of` multipart_body boundary raws line_end →
    buffer s ++ future = rest ++ next ++ parts_text next raws' ++ ending line_end → stage future s
| at_done done_parts todo :
    phase s = phase_done → all = done_parts ++ todo → map part_info (parts s) = map form_info done_parts →
    trace s = form_events 0 done_parts ++ [ev_end] →
    (todo = [] ∨ ∃ part, last done_parts = Some part ∧ misleading content_type (multipart_body boundary raws line_end) part) → stage future s.

Definition progress (future : str) (s : multipart_stream_state) (res : multipart_stream_state * bool) : Prop :=
  common future res.1 ∧ stage future res.1 ∧ (length (buffer res.1) ≤ length (buffer s))%nat ∧
  if res.2 then (length (buffer res.1) < length (buffer s))%nat else future = [] → phase res.1 = phase_done.

Lemma common_same future s s' :
  options s' = options s → first_delimiter s' = first_delimiter s → next_delimiter s' = next_delimiter s →
  has_on_part s' = has_on_part s → has_on_end s' = has_on_end s → valid s' = valid s → failed s' = failed s →
  paused s' = paused s → received_total_bytes s' = received_total_bytes s → common future s → common future s'.
Proof. intros E1 E2 E3 E4 E5 E6 E7 E8 E9 [C1 C2 C3 [C4 C4'] C5 [C6 C6'] C7]. split; rewrite ?E1, ?E2, ?E3, ?E4, ?E5, ?E6, ?E7, ?E8, ?E9; auto. Qed.

Lemma finish_body_collect s : has_on_end s = true → finish_body emit s = record (eff_event ev_end) (set_phase phase_done s).
Proof.
  intros H. unfold finish_body, emit_if. cbv zeta. change (has_on_end (set_phase phase_done s)) with (has_on_end s).
  rewrite H. by rewrite emit_other.
Qed.

(** The two bytes after a delimiter. *)
Lemma after_delimiter raws' :
  ∃ suffix rest, parts_text next raws' ++ ending line_end = suffix ++ rest ∧ length suffix = 2%nat ∧
    ((raws' = [] ∧ suffix = lit "--" ∧ rest = ending line_end) ∨ (raws' ≠ [] ∧ suffix = crlf)).
Proof.
  destruct raws' as [|[block payload] raws']; cbn [parts_text].
  - exists (lit "--"), (ending line_end). split_and!; [done|done|by left].
  - exists crlf. eexists. split_and!; [by rewrite <-app_assoc|done|by right].
Qed.

Lemma first_progress future s :
  common future s → phase s = phase_first_boundary → parts s = [] → current_part s = None → part_count s = 0 → trace s = [] →
  buffer s ++ future = (lit "--" ++ boundary) ++ parts_text next raws ++ ending line_end →
  progress future s (parse_first_boundary emit s).
Proof.
  intros Hc Hph Hps Hcur Hcount Htr Hb. unfold parse_first_boundary. rewrite (cm_first _ _ Hc).
  destruct (after_delimiter raws) as (suffix & rest & Hafter & H2 & Hcases). rewrite Hafter in Hb.
  set (fd := lit "--" ++ boundary) in *. destruct (_ <? _)%nat eqn:E; breflect.
  { split_and!; cbn [fst snd]; [done| |done|].
    - eapply at_first; try done. by rewrite Hafter.
    - intros ->. rewrite app_nil_r in Hb. apply (f_equal length) in Hb. rewrite !length_app in Hb. lia. }
  destruct (buffer_split _ _ _ _ Hb) as [Hb1 Hb2]; [lia|].
  destruct (buffer_split _ _ _ _ Hb2) as [Hb3 Hb4]; [rewrite length_drop; lia|].
  rewrite H2, drop_drop in Hb3, Hb4.
  assert (Hst : starts_with (buffer s) fd = true) by (rewrite Hb1; apply starts_with_app). rewrite Hst. cbn [negb].
  assert (Hsub : substr (buffer s) (length fd) 2 = suffix).
  { unfold substr. rewrite Hb3, <-H2, take_app_length. done. }
  rewrite Hsub. set (s1 := erase (length fd + 2) s).
  assert (Hs1 : common future s1) by (by apply (common_same future s)).
  assert (Hb5 : buffer s1 ++ future = rest) by (by rewrite <-Hb4).
  destruct Hcases as [(-> & -> & Hrest)|[Hne ->]].
  - change (str_eqb (lit "--") (lit "--")) with true. cbv iota.
    assert (Hall : all = []) by (destruct all; [done|by destruct Haccepted]).
    rewrite finish_body_collect by apply Hc. split_and!; cbn [fst snd].
    + by apply (common_same future s).
    + apply (at_done _ _ [] []); [done|done|by cbn; rewrite Hps| |by left]. rewrite trace_record.
      change (trace (set_phase phase_done s1)) with (trace s). by rewrite Htr.
    + change (length (drop (length fd + 2) (buffer s)) ≤ length (buffer s))%nat. rewrite length_drop. lia.
    + done.
  - change (str_eqb crlf (lit "--")) with false. cbv iota. change (str_eqb crlf crlf) with true. cbn [negb].
    split_and!; cbn [fst snd].
    + by apply (common_same future s).
    + apply (at_headers _ _ [] all raws 0); try done.
      * by cbn; rewrite Hps.
      * exists (lit "--" ++ boundary). unfold multipart_body. by rewrite <-?app_assoc.
      * change (crlf ++ buffer s1 ++ future = parts_text next raws ++ ending line_end). by rewrite Hb5, Hafter.
    + change (length (drop (length fd + 2) (buffer s)) ≤ length (buffer s))%nat. rewrite length_drop. lia.
    + change (length (drop (length fd + 2) (buffer s)) < length (buffer s))%nat. rewrite length_drop. lia.
Qed.

Lemma check_part_ok part payload count memory :
  check_part o (bool_decide (is_Some (fp_filename part))) payload count memory = Ok () →
  count + 1 ≤ max_parts l ∧ data_within (limits o) (bool_decide (is_Some (fp_filename part))) (size payload).
Proof.
  unfold check_part, limit_exceeded, data_within. destruct (max_parts _ <? _) eqn:E1; [done|].
  destruct (_ && (_ =? 0)); [done|]. destruct (_ && (max_file_bytes _ <? _)) eqn:E2; [done|].
  destruct (negb (bool_decide _) && _) eqn:E3; [done|]. intros _. breflect. split; [done|].
  destruct (bool_decide _); cbn [andb negb] in *; breflect; [by intros|done].
Qed.

Lemma parse_part_headers_collect block part s done_parts :
  common [] s → parse_part_header_block block (limits o) = Ok (Disposition (fp_name part) (fp_filename part), fp_headers part) →
  map part_info (parts s) = map form_info done_parts → part_count s = size done_parts → size done_parts + 1 ≤ max_parts l →
  trace s = form_events 0 done_parts →
  let s' := parse_part_headers emit block s in
  common [] s' ∧ phase s' = phase_body ∧ buffer s' = buffer s ∧ received_total_bytes s' = received_total_bytes s ∧
  in_part done_parts part [] s'.
Proof.
  intros Hc Hh Hinfo Hcount Hmax Htr. unfold parse_part_headers. rewrite (cm_options _ _ Hc).
  change (parse_part_header_block block l) with (parse_part_header_block block (limits o)). rewrite Hh. cbv zeta iota.
  set (p := new_part _ _). set (s1 := set_counts _ _ s).
  change (options s1) with (options s). rewrite (cm_options _ _ Hc).
  change (part_count s1) with (part_count s + 1). rewrite (proj2 (Z.ltb_ge _ _)) by lia.
  set (s2 := set_current _ _). change (has_on_part s2) with (has_on_part s). rewrite (proj1 (cm_handlers _ _ Hc)). cbn [negb].
  change (parts s1) with (parts s).
  assert (Hlen : length (parts s) = length done_parts) by (apply (f_equal length) in Hinfo; by rewrite !length_map in Hinfo).
  rewrite (emit_part (parts s) p s2) by done.
  set (s3 := set_parts _ _). change (failed s3) with (failed s). rewrite (proj1 (cm_flags _ _ Hc)).
  assert (Hcons : consumed (length (parts s)) s3 = true).
  { unfold consumed, s3. cbn [parts set_parts]. by rewrite lookup_last. }
  rewrite Hcons. cbn [negb]. split_and!; [by apply (common_same [] s)|done|done|done|]. split; cbn [current_part part_count set_phase].
  - exists (parts s), (select p). by split_and!.
  - change (Some (length (parts s)) = Some (length done_parts)). by rewrite Hlen.
  - change (part_count s + 1 = size done_parts + 1). by rewrite Hcount.
  - change (trace (record (eff_event (ev_part (length (parts s)))) s) = form_events 0 done_parts ++ [ev_part (length done_parts)]).
    by rewrite trace_record, Htr, Hlen.
Qed.

Lemma common_future future future' s :
  (max_total_bytes l = 0 ∨ received_total_bytes s + size future' ≤ max_total_bytes l) → common future s → common future' s.
Proof. intros Ht [? ? ? ? ? ? ?]. by split. Qed.

Lemma find_blank_split future s block rest :
  block_ends block → buffer s ++ future = block ++ crlf2 ++ rest →
  match find_sub crlf2 (buffer s) with
  | Some i => i = length block ∧ buffer s = block ++ crlf2 ++ drop (length block + 4) (buffer s) ∧
              drop (length block + 4) (buffer s) ++ future = rest
  | None => (length (buffer s) ≤ length block + 3)%nat
  end.
Proof.
  intros Hends Hb. apply (block_ends_app _ rest) in Hends.
  assert (Hsplit : (length block + 4 ≤ length (buffer s))%nat →
    buffer s = block ++ crlf2 ++ drop (length block + 4) (buffer s) ∧ drop (length block + 4) (buffer s) ++ future = rest).
  { intros Hl. rewrite (app_assoc block) in Hb.
    assert (H4 : length (block ++ crlf2) = (length block + 4)%nat) by (rewrite length_app; done).
    destruct (buffer_split _ _ _ _ Hb) as [H1 H2]; [lia|]. rewrite H4 in H1, H2. split; [|done]. by rewrite app_assoc. }
  destruct (find_sub crlf2 (buffer s)) as [i|] eqn:E.
  - pose proof (find_sub_app _ _ future _ E) as E'. rewrite Hb, Hends in E'. assert (i = length block) as -> by congruence. split; [done|].
    apply find_sub_Some in E as (H1 & _ & H2). apply starts_with_length in H1. rewrite length_drop in H1.
    apply Hsplit. cbn in H1. lia.
  - destruct (Nat.le_gt_cases (length (buffer s)) (length block + 3)) as [|Hgt]; [done|]. exfalso.
    destruct Hsplit as [Hs _]; [lia|]. pose proof (find_sub_None _ _ E (length block) ltac:(lia)) as Hn.
    rewrite Hs, drop_app_length, starts_with_app in Hn. done.
Qed.

Lemma headers_progress future s done_parts todo raws' memory :
  common future s → phase s = phase_headers → all = done_parts ++ todo → raws' ≠ [] →
  accepted o next line_end raws' (size done_parts) memory todo →
  map part_info (parts s) = map form_info done_parts → current_part s = None → part_count s = size done_parts →
  trace s = form_events 0 done_parts → (parts_text next raws' ++ ending line_end) `suffix_of` multipart_body boundary raws line_end →
  crlf ++ buffer s ++ future = parts_text next raws' ++ ending line_end →
  progress future s (parse_headers emit s).
Proof.
  intros Hc Hph Hall Hne Hacc Hinfo Hcur Hcount Htr Hsuf Hb. destruct raws' as [|[block payload] raws']; [done|].
  destruct todo as [|part todo]; [done|]. pose proof Hacc as Hacc'. destruct Hacc as (Hends & Hsize & Hh & -> & Hclean & Hcheck & Hrest).
  apply check_part_ok in Hcheck as [Hmax Hpay].
  pose proof Hb as Hb'. cbn [parts_text] in Hb. rewrite <-!app_assoc in Hb. apply (app_inv_head crlf) in Hb.
  unfold parse_headers. rewrite (cm_options _ _ Hc). pose proof (find_blank_split future s block _ Hends Hb) as Hf.
  change (max_part_header_bytes l) with (max_part_header_bytes (limits o) + 3).
  destruct (find_sub crlf2 (buffer s)) as [i|].
  - destruct Hf as (-> & Hbuf & Hfut). rewrite (proj2 (Z.ltb_ge _ _)) by (unfold size in *; lia).
    assert (Htake : take (length block) (buffer s) = block) by (rewrite Hbuf; apply take_app_length). rewrite Htake.
    set (s1 := erase (length block + 4) s).
    assert (Hc1 : common [] s1).
    { apply (common_future future); [|by apply (common_same future s)]. change (received_total_bytes s1) with (received_total_bytes s).
      destruct (cm_total _ _ Hc); [by left|right]. unfold size in *. cbn [length]. lia. }
    destruct (parse_part_headers_collect block part s1 done_parts Hc1 Hh) as (Hc2 & Hph2 & Hb2 & Hr2 & Hin2); try done.
    set (s2 := parse_part_headers emit block s1) in *. split_and!; cbn [fst snd].
    + apply (common_future []); [|done]. rewrite Hr2. apply Hc.
    + apply (at_body _ _ done_parts part todo raws' (memory + size (fp_body part)) [] (fp_body part)); try done.
      * etransitivity; [|exact Hsuf]. exists (crlf ++ block ++ crlf2 ++ fp_body part). cbn [parts_text]. by rewrite <-!app_assoc.
      * rewrite Hb2. change (buffer s1) with (drop (length block + 4) (buffer s)). by rewrite Hfut.
    + rewrite Hb2. change (buffer s1) with (drop (length block + 4) (buffer s)). rewrite length_drop. lia.
    + rewrite Hb2. change (buffer s1) with (drop (length block + 4) (buffer s)). rewrite length_drop.
      apply (f_equal length) in Hbuf. rewrite !length_app in Hbuf. cbn [length] in Hbuf. cbn in Hbuf. lia.
  - rewrite (proj2 (Z.ltb_ge _ _)) by (unfold size in *; lia). split_and!; cbn [fst snd]; [done| |done|].
    + by eapply at_headers.
    + intros ->. exfalso. rewrite app_nil_r in Hb. apply (f_equal length) in Hb. rewrite !length_app in Hb. cbn in Hb. lia.
Qed.

Lemma data_events_app i x y : data_events i (x ++ y) = data_events i x ++ data_events i y.
Proof. apply map_app. Qed.

(** Handing out the next bytes [v] of the payload. *)
Lemma emit_given v rest s done_parts part given :
  options s = l → in_part done_parts part given s → payload_within part → fp_body part = given ++ v ++ rest →
  let s' := emit_current_data emit v s in
  in_part done_parts part (given ++ v) s' ∧ buffer s' = buffer s ∧ phase s' = phase s ∧ ∀ f, common f s → common f s'.
Proof.
  intros Ho [(ps & p & Hps & Hinfo & Hpi & Hmode & Hend & Hdata & Hhend & Hrec & Hfile) Hcur Hcount Htr] Hpay Hbody. cbv zeta.
  destruct v as [|c v].
  { cbn [emit_current_data]. rewrite app_nil_r. split_and!; [|done|done|done]. split; try done. by exists ps, p. }
  set (chunk := c :: v) in *. unfold emit_current_data. cbn [chunk]. fold chunk. rewrite Hcur. unfold part_emit_data.
  assert (Hlen : length ps = length done_parts) by (apply (f_equal length) in Hinfo; by rewrite !length_map in Hinfo).
  assert (Hlook : parts s !! length done_parts = Some p) by (by rewrite Hps, <-Hlen, lookup_last). rewrite Hlook.
  cbn [chunk]. fold chunk. cbv zeta. set (s1 := update_part _ _ s). change (options s1) with (options s). rewrite Ho.
  assert (Hsize : size given + size chunk ≤ size (fp_body part)).
  { rewrite Hbody. unfold size. rewrite !length_app. lia. }
  unfold payload_within, data_within in Hpay. rewrite Hfile, Hrec.
  assert (E1 : (bool_decide (is_Some (fp_filename part)) && negb (max_file_bytes l =? 0) &&
    (max_file_bytes l <? size given + size chunk)) = false).
  { change (max_file_bytes l) with (max_file_bytes (limits o)). destruct (bool_decide _); [|done]. cbn [andb].
    destruct (_ =? 0) eqn:E; [done|]. breflect. cbn [negb andb]. apply Z.ltb_ge. specialize (Hpay E). lia. }
  assert (E2 : (negb (bool_decide (is_Some (fp_filename part))) && (max_field_bytes l <? size given + size chunk)) = false).
  { change (max_field_bytes l) with (max_field_bytes (limits o)). destruct (bool_decide _); [done|]. cbn [negb andb].
    apply Z.ltb_ge. lia. }
  rewrite E1, E2, Hmode. unfold emit_if. rewrite Hdata, emit_other by done.
  split_and!; [|done|done|].
  - split.
    + exists ps, (set_received (size given + size chunk) p). unfold s1, update_part. cbn [parts record set_parts].
      rewrite Hps, <-Hlen, alter_last, Hrec. split_and!; try done. cbn [set_received ps_received]. unfold size. rewrite length_app. lia.
    + done.
    + done.
    + rewrite trace_record. change (trace s1) with (trace s). rewrite Htr, data_events_app, <-app_assoc. done.
  - intros f Hc. by apply (common_same f s).
Qed.

Lemma end_part_collect s done_parts part :
  in_part done_parts part (fp_body part) s →
  let s' := end_current_part emit s in
  map part_info (parts s') = map form_info (done_parts ++ [part]) ∧ current_part s' = None ∧
  part_count s' = size (done_parts ++ [part]) ∧ trace s' = form_events 0 (done_parts ++ [part]) ∧
  buffer s' = buffer s ∧ next_delimiter s' = next_delimiter s ∧ ∀ f, common f s → common f s'.
Proof.
  intros [(ps & p & Hps & Hinfo & Hpi & Hmode & Hend & Hdata & Hhend & Hrec & Hfile) Hcur Hcount Htr]. cbv zeta.
  assert (Hlen : length ps = length done_parts) by (apply (f_equal length) in Hinfo; by rewrite !length_map in Hinfo).
  unfold end_current_part. rewrite Hcur. unfold part_emit_end.
  assert (Hlook : parts s !! length done_parts = Some p) by (by rewrite Hps, <-Hlen, lookup_last). rewrite Hlook, Hend, Hmode.
  unfold emit_if. rewrite Hhend, emit_other by done. cbv zeta. split_and!; try done.
  - unfold update_part. cbn [parts set_current record set_parts]. rewrite Hps, <-Hlen, alter_last, !map_app, Hinfo.
    f_equal. cbn. f_equal. done.
  - change (part_count s = size (done_parts ++ [part])). rewrite Hcount. unfold size. rewrite length_app. cbn [length]. lia.
  - change (trace (record (eff_event (ev_part_end (length done_parts))) s) = form_events 0 (done_parts ++ [part])).
    rewrite trace_record, Htr, form_events_app, <-app_assoc. done.
  - intros f Hc. by apply (common_same f s).
Qed.

Lemma delimiter_at_suffix suffix t : suffix = crlf ∨ suffix = lit "--" → delimiter_at next (next ++ suffix ++ t) = true.
Proof.
  intros Hs. unfold delimiter_at. rewrite !starts_with_prefix_of, drop_app_length, starts_with_app. cbn [andb].
  destruct Hs as [-> | ->]; rewrite starts_with_app; [done|apply orb_true_r].
Qed.

Lemma body_search future s rest suffix tail :
  (suffix = crlf ∨ suffix = lit "--") → clean next rest (suffix ++ tail) →
  buffer s ++ future = rest ++ next ++ suffix ++ tail →
  match find_next_multipart_delimiter (buffer s) next 0 with
  | delimiter_found p sfx =>
    p = length rest ∧ sfx = suffix ∧ take p (buffer s) = rest ∧
    (length rest + length next + 2 ≤ length (buffer s))%nat ∧
    drop (length rest + length next + 2) (buffer s) ++ future = tail
  | delimiter_need_more p => (p ≤ length rest)%nat ∧ (p ≤ length (buffer s) < length rest + length next + 2)%nat
  | delimiter_not_found => (length (buffer s) < length rest + length next)%nat
  end.
Proof.
  intros Hs Hclean Hb. pose proof (find_delimiter_ok (buffer s) next 0 ltac:(done)) as Hok.
  assert (Hno : ¬ ruled_out (buffer s) next (length rest)).
  { intros H. specialize (H future). rewrite Hb, drop_app_length, delimiter_at_suffix in H by done. done. }
  destruct (find_next_multipart_delimiter _ _ _) as [p sfx| |p]; unfold search_ok in Hok.
  - destruct Hok as (_ & Hl & Hsfx & Hst & Hr).
    assert (p = length rest) as ->.
    { destruct (Nat.lt_trichotomy p (length rest)) as [H|[H|H]]; [|done|exfalso; apply Hno, Hr; lia]. exfalso.
      specialize (Hclean p H). rewrite <-Hb, drop_app_le in Hclean by lia. unfold delimiter_at in Hclean.
      apply orb_false_iff in Hclean as [Ha Hd]. apply (starts_with_app_true _ future) in Hst.
      destruct Hsfx as [-> | ->]; congruence. }
    destruct (buffer_split _ _ _ _ Hb) as [H1 H2]; [lia|].
    assert (Hlen : (length (rest ++ next ++ suffix) = length rest + length next + 2)%nat)
      by (rewrite !length_app; destruct Hs as [-> | ->]; cbn; lia).
    assert (Htail : drop (length rest + length next + 2) (buffer s) ++ future = tail).
    { rewrite !app_assoc in Hb. rewrite <-(app_assoc rest) in Hb. destruct (buffer_split _ _ _ _ Hb) as [_ H3]; [lia|]. by rewrite Hlen in H3. }
    split_and!; [done| |rewrite H1; apply take_app_length|done|done].
    apply (starts_with_app_true _ future) in Hst. rewrite H2 in Hst. rewrite starts_with_prefix_of, starts_with_app, drop_app_length in Hst.
    apply starts_with_spec in Hst as [u Hu]. destruct Hs as [-> | ->], Hsfx as [-> | ->]; try done; by inversion Hu.
  - destruct (Nat.le_gt_cases (length rest + length next) (length (buffer s))); [|done]. exfalso. apply Hno, Hok; lia.
  - destruct Hok as (_ & Hl & Hr).
    assert (p ≤ length rest)%nat by (destruct (Nat.le_gt_cases p (length rest)); [done|exfalso; apply Hno, Hr; lia]). lia.
Qed.

(** Handing out [n] more bytes of the payload and waiting. *)
Lemma emit_and_erase_stage future s n done_parts part todo raws' memory given rest :
  common future s → phase s = phase_body → all = done_parts ++ part :: todo → fp_body part = given ++ rest → payload_within part →
  clean next rest (parts_text next raws' ++ ending line_end) →
  accepted o next line_end raws' (size done_parts + 1) memory todo → in_part done_parts part given s →
  (next ++ parts_text next raws' ++ ending line_end) `suffix_of` multipart_body boundary raws line_end →
  buffer s ++ future = rest ++ next ++ parts_text next raws' ++ ending line_end →
  (n ≤ length rest)%nat → (n ≤ length (buffer s))%nat →
  common future (emit_and_erase emit n s) ∧ stage future (emit_and_erase emit n s) ∧
  (length (buffer (emit_and_erase emit n s)) ≤ length (buffer s))%nat.
Proof.
  intros Hc Hph Hall Hbody Hpay Hclean Hacc Hin Hsuf Hb Hn Hn'.
  assert (Htake : take n (buffer s) = take n rest).
  { apply (f_equal (take n)) in Hb. by rewrite !take_app_le in Hb. }
  assert (Hrest : rest = take n rest ++ drop n rest) by (by rewrite take_drop).
  unfold emit_and_erase. rewrite Htake.
  destruct (emit_given (take n rest) (drop n rest) s done_parts part given) as (H1 & H2 & H3 & H4); [apply Hc|done|done| |].
  { by rewrite Hbody, take_drop. }
  set (s1 := emit_current_data emit (take n rest) s) in *. cbv zeta. specialize (H4 future Hc).
  rewrite (proj2 (cm_flags _ _ H4)), (proj1 (cm_flags _ _ H4)).
  split_and!; [by apply (common_same future s1)| |change (length (drop n (buffer s1)) ≤ length (buffer s))%nat; rewrite H2, length_drop; lia].
  apply (at_body _ _ done_parts part todo raws' memory (given ++ take n rest) (drop n rest)); try done.
  - by rewrite <-H3 in Hph.
  - by rewrite Hbody, <-app_assoc, take_drop.
  - intros j Hj. rewrite length_drop in Hj. specialize (Hclean (n + j)%nat ltac:(lia)).
    rewrite <-drop_drop in Hclean. by rewrite (drop_app_le rest) in Hclean by lia.
  - destruct H1 as [(ps & p & ?) ? ? ?]. split; [|done..]. by exists ps, p.
  - change (drop n (buffer s1) ++ future = drop n rest ++ next ++ parts_text next raws' ++ ending line_end). rewrite H2.
    rewrite <-(drop_app_le (buffer s) future), <-(drop_app_le rest) by done. by rewrite Hb.
Qed.

(** The bytes of a delimiter's suffix where they are found. *)
Lemma suffix_in_buffer s future rest suffix tail :
  length suffix = 2%nat → (length rest + length next + 2 ≤ length (buffer s))%nat → buffer s ++ future = rest ++ next ++ suffix ++ tail →
  take 2 (drop (length rest + length next) (buffer s)) = suffix.
Proof.
  intros H2 Hl Hb. assert (H : take 2 (drop (length (rest ++ next)) (buffer s ++ future)) = suffix).
  { rewrite Hb, (app_assoc rest), drop_app_length, <-H2. apply take_app_length. }
  rewrite length_app, drop_app_le in H by lia. rewrite <-H. symmetry. apply take_app_le. rewrite length_drop. lia.
Qed.

(** The end, after the last part or where the view misleads. *)
Lemma end_progress future s s2 s3 done_parts todo :
  common future s3 → all = done_parts ++ todo → map part_info (parts s2) = map form_info done_parts → parts s3 = parts s2 →
  trace s2 = form_events 0 done_parts → history s3 = history s2 → (length (buffer s3) ≤ length (buffer s))%nat →
  (todo = [] ∨ ∃ part, last done_parts = Some part ∧ misleading content_type (multipart_body boundary raws line_end) part) →
  progress future s (finish_body emit (if starts_with (buffer s3) crlf then erase 2 s3 else s3), false).
Proof.
  intros Hc3 Hall Hinfo Hp Htr Hh Hl Hend. set (s4 := if starts_with (buffer s3) crlf then erase 2 s3 else s3).
  assert (Hs4 : common future s4 ∧ trace s4 = trace s2 ∧ parts s4 = parts s2 ∧ (length (buffer s4) ≤ length (buffer s))%nat).
  { unfold s4. destruct (starts_with (buffer s3) crlf).
    - split_and!; [by apply (common_same future s3)|unfold trace; cbn; by rewrite Hh|done|].
      change (length (drop 2 (buffer s3)) ≤ length (buffer s))%nat. rewrite length_drop. lia.
    - split_and!; [done|unfold trace; by rewrite Hh|done|done]. }
  destruct Hs4 as (Hc4 & Htr4 & Hp4 & Hl4). rewrite finish_body_collect by apply Hc4. split_and!; cbn [fst snd]; [by apply (common_same future s4)| |done|done].
  apply (at_done _ _ done_parts todo); [done|done| | |done].
  - change (map part_info (parts s4) = map form_info done_parts). by rewrite Hp4.
  - rewrite trace_record. change (trace (set_phase phase_done s4)) with (trace s4). by rewrite Htr4, Htr.
Qed.

Lemma body_progress future s done_parts part todo raws' memory given rest :
  common future s → phase s = phase_body → all = done_parts ++ part :: todo → fp_body part = given ++ rest → payload_within part →
  clean next rest (parts_text next raws' ++ ending line_end) →
  accepted o next line_end raws' (size done_parts + 1) memory todo → in_part done_parts part given s →
  (next ++ parts_text next raws' ++ ending line_end) `suffix_of` multipart_body boundary raws line_end →
  buffer s ++ future = rest ++ next ++ parts_text next raws' ++ ending line_end →
  progress future s (parse_body emit s).
Proof.
  intros Hc Hph Hall Hbody Hpay Hclean Hacc Hin Hsuf Hb. unfold parse_body. cbv zeta. rewrite (cm_next _ _ Hc).
  destruct (after_delimiter raws') as (suffix & tail & Hafter & H2 & Hcases).
  assert (Hs : suffix = crlf ∨ suffix = lit "--") by (destruct Hcases as [(_ & ? & _)|[_ ?]]; auto).
  pose proof Hb as Hb'. rewrite Hafter in Hb'. pose proof Hclean as Hclean'. rewrite Hafter in Hclean'.
  pose proof (body_search future s rest suffix tail Hs Hclean' Hb') as Hsearch.
  assert (Hwait : future = [] → (length (buffer s) < length rest + length next + 2)%nat → False).
  { intros -> Hl. rewrite app_nil_r in Hb'. apply (f_equal length) in Hb'. rewrite !length_app in Hb'. lia. }
  assert (Hstay : stage future s) by (by eapply at_body).
  destruct (find_next_multipart_delimiter _ _ _) as [p sfx| |p].
  - destruct Hsearch as (-> & -> & Htake & Hlen & Htail). rewrite Htake.
    destruct (emit_given rest [] s done_parts part given) as (H1 & H3 & H4 & H5); [apply Hc|done|done|by rewrite app_nil_r|].
    set (s1 := emit_current_data emit rest s) in *. cbv zeta. specialize (H5 future Hc).
    rewrite (proj2 (cm_flags _ _ H5)), (proj1 (cm_flags _ _ H5)). rewrite <-Hbody in H1.
    destruct (end_part_collect s1 done_parts part H1) as (G1 & G2 & G3 & G4 & G5 & G6 & G7).
    set (s2 := end_current_part emit s1) in *. specialize (G7 future H5).
    assert (Hbs : buffer s2 = buffer s) by (by rewrite G5, H3). rewrite Hbs.
    set (view := stale_view _ _ _ _ _). set (s3 := erase _ s2). rewrite <-Hbs in Htail.
    assert (Hc3 : common future s3) by (by apply (common_same future s2)).
    assert (Hl3 : (length (buffer s3) + (length rest + length next + 2) = length (buffer s))%nat).
    { change (buffer s3) with (drop (length rest + length next + 2) (buffer s2)). rewrite length_drop, Hbs. lia. }
    assert (Hview : view = suffix ∧ (length (buffer s3) < length rest + length next)%nat ∨
      (length rest + length next ≤ length (buffer s3))%nat ∧ (view = lit "--" → take 2 (drop (length rest + length next) tail) = lit "--")).
    { change (buffer s3) with (drop (length rest + length next + 2) (buffer s2)) in *. rewrite Hbs in *.
      destruct (Nat.lt_ge_cases (length (drop (length rest + length next + 2) (buffer s))) (length rest + length next)) as [Hl|Hl]; [left|right].
      - split; [|done]. unfold view. rewrite stale_behind by (done || lia). apply (suffix_in_buffer s future rest suffix tail); [by destruct Hs as [-> | ->]|lia|done].
      - split; [done|]. intros Hv. apply stale_within in Hv; [|done]. rewrite <-Htail, drop_app_le by done. 
        rewrite take_app_le; [done|]. apply (f_equal length) in Hv. rewrite length_take in Hv. change (length (lit "--")) with 2%nat in Hv. lia. }
    assert (Hnext : (4 ≤ length next)%nat) by (unfold next, delimiter_of; rewrite !length_app; cbn; lia).
    assert (Hlt : (length (buffer s3) + length future = length tail)%nat) by (rewrite <-Htail, length_app; done).
    destruct Hcases as [(-> & -> & ->)|[Hne ->]].
    + destruct Hview as [[-> _]|[Hl _]]; [|assert (length (ending line_end) ≤ 2)%nat by (destruct line_end; cbn; lia); lia].
      change (str_eqb (lit "--") (lit "--")) with true. cbv iota. destruct todo; [|by destruct Hacc].
      apply (end_progress future s s2 s3 (done_parts ++ [part]) []); auto; [by rewrite app_nil_r|lia].
    + destruct (str_eqb view (lit "--")) eqn:Hv.
      * apply bool_decide_eq_true in Hv. destruct Hview as [[Hv' _]|[Hl Hdash]]; [by rewrite Hv in Hv'|].
        apply (end_progress future s s2 s3 (done_parts ++ [part]) todo); auto; [by rewrite <-app_assoc|lia|].
        right. exists part. split; [by rewrite last_snoc|]. exists boundary, tail, (length rest + length next)%nat. change (delimiter_of boundary) with next. rewrite Hbody, length_app. split_and!; [done| |lia|lia|by apply Hdash].
        fold next. by rewrite Hafter in Hsuf.
      * split_and!; cbn [fst snd].
        -- by apply (common_same future s3).
        -- apply (at_headers _ _ (done_parts ++ [part]) todo raws' memory); try done.
           ++ by rewrite <-app_assoc.
           ++ unfold size in *. rewrite length_app. cbn [length].
              by replace (Z.of_nat (length done_parts + 1)) with (Z.of_nat (length done_parts) + 1) by lia.
           ++ etransitivity; [|exact Hsuf]. by exists next.
           ++ change (crlf ++ buffer s3 ++ future = parts_text next raws' ++ ending line_end).
              change (buffer s3) with (drop (length rest + length next + 2) (buffer s2)). by rewrite Htail, Hafter.
        -- change (length (buffer s3) ≤ length (buffer s))%nat. lia.
        -- change (length (buffer s3) < length (buffer s))%nat. lia.
  - destruct (_ <? _)%nat eqn:E; breflect; cbn [fst snd].
    + destruct (emit_and_erase_stage future s (length (buffer s) - length next) done_parts part todo raws' memory given rest) as (? & ? & ?); try done; [lia|lia|].
      split_and!; cbn [fst snd]; [done|done|done|]. intros Hf. exfalso. apply Hwait; [done|lia].
    + split_and!; cbn [fst snd]; [done|done|done|]. intros Hf. exfalso. apply Hwait; [done|lia].
  - destruct (_ <? _)%nat eqn:E; breflect; cbn [fst snd].
    + destruct (emit_and_erase_stage future s p done_parts part todo raws' memory given rest) as (? & ? & ?); try done; [lia|lia|].
      split_and!; cbn [fst snd]; [done|done|done|]. intros Hf. exfalso. apply Hwait; [done|lia].
    + split_and!; cbn [fst snd]; [done|done|done|]. intros Hf. exfalso. apply Hwait; [done|lia].
Qed.

(** ** The whole stream *)

Lemma parse_once_progress future s : common future s → stage future s → progress future s (parse_once emit s).
Proof.
  intros Hc Hst. unfold parse_once. destruct Hst as [Hph|d t rs mem Hph|d p t rs mem g r Hph|d t Hph]; rewrite Hph.
  - by apply first_progress.
  - by eapply headers_progress.
  - by eapply body_progress.
  - split_and!; cbn [fst snd]; [done|by apply (at_done _ _ d t)|done|done].
Qed.

Lemma parse_loop_progress n future s :
  common future s → stage future s → (length (buffer s) < n)%nat →
  let s' := parse_loop emit n s in
  common future s' ∧ stage future s' ∧ (length (buffer s') ≤ length (buffer s))%nat ∧ (future = [] → phase s' = phase_done).
Proof.
  cbv zeta. revert s. induction n as [|n IH]; intros s Hc Hst Hl; [lia|]. cbn [parse_loop].
  rewrite (proj1 (cm_flags _ _ Hc)), (proj2 (cm_flags _ _ Hc)). cbn [orb].
  pose proof (parse_once_progress future s Hc Hst) as (P1 & P2 & P3 & P4). destruct (parse_once emit s) as [s1 continue].
  cbn [fst snd] in *. destruct continue; [|done]. destruct (IH s1 P1 P2 ltac:(lia)) as (Q1 & Q2 & Q3 & Q4).
  split_and!; [done|done|lia|done].
Qed.

Lemma feed_chunk chunk future s :
  common (chunk ++ future) s → stage (chunk ++ future) s → (length (buffer s) + length chunk < fuel)%nat →
  let s' := run_cmd fuel emit s (cmd_body_data chunk) in
  common future s' ∧ stage future s' ∧ (length (buffer s') ≤ length (buffer s) + length chunk)%nat.
Proof.
  intros Hc Hst Hl. cbv zeta. cbn [run_cmd]. rewrite (cm_valid _ _ Hc). unfold body_on_data. set (s1 := set_counts _ _ s).
  change (options s1) with (options s). rewrite (cm_options _ _ Hc).
  change (received_total_bytes s1) with (received_total_bytes s + size chunk).
  assert (Htotal : (negb (max_total_bytes l =? 0) && (max_total_bytes l <? received_total_bytes s + size chunk)) = false).
  { destruct (max_total_bytes l =? 0) eqn:E; [done|]. breflect. apply Z.ltb_ge. pose proof (cm_total _ _ Hc) as [H|H]; [done|].
    unfold size in *. rewrite length_app in H. lia. }
  cbv zeta. rewrite Htotal. set (s2 := set_buffer _ s1).
  assert (Hc2 : common future s2).
  { destruct Hc as [? ? ? ? ? ? Ht]. split; try done. change (received_total_bytes s2) with (received_total_bytes s + size chunk).
    destruct Ht as [Ht|Ht]; [by left|right]. unfold size in *. rewrite length_app in Ht. lia. }
  assert (Hst2 : stage future s2).
  { destruct Hst as [? ? ? ? ? Hb|d t rs mem ? ? ? ? ? ? ? ? ? Hb|d p t rs mem g r ? ? ? ? ? ? Hin ? Hb|d t ? ? ? ? ?].
    - apply at_first; try done. change (buffer s2) with (buffer s ++ chunk). by rewrite <-app_assoc.
    - apply (at_headers _ _ d t rs mem); try done. change (buffer s2) with (buffer s ++ chunk). by rewrite <-app_assoc.
    - apply (at_body _ _ d p t rs mem g r); try done.
      + destruct Hin as [(ps & q & ?) ? ? ?]. split; [|done..]. by exists ps, q.
      + change (buffer s2) with (buffer s ++ chunk). by rewrite <-app_assoc.
    - by apply (at_done _ _ d t). }
  assert (Hl2 : (length (buffer s2) < fuel)%nat).
  { change (buffer s2) with (buffer s ++ chunk). rewrite length_app. lia. }
  destruct (parse_loop_progress fuel future s2 Hc2 Hst2 Hl2) as (P1 & P2 & P3 & _). split_and!; [done|done|].
  unfold parse. etransitivity; [exact P3|]. change (buffer s2) with (buffer s ++ chunk). rewrite length_app. lia.
Qed.

Lemma feed_chunks chunks s :
  common (concat chunks) s → stage (concat chunks) s → (length (buffer s) + length (concat chunks) < fuel)%nat →
  let s' := foldl (run_cmd fuel emit) s (map cmd_body_data chunks) in
  common [] s' ∧ stage [] s' ∧ (length (buffer s') < fuel)%nat.
Proof.
  cbv zeta. revert s. induction chunks as [|chunk chunks IH]; intros s Hc Hst Hl; cbn [map foldl concat] in *.
  { split_and!; [done|done|lia]. }
  rewrite length_app in Hl. destruct (feed_chunk chunk (concat chunks) s Hc Hst ltac:(lia)) as (P1 & P2 & P3).
  apply IH; [done|done|lia].
Qed.

Lemma stage_done future s : stage future s → phase s = phase_done →
  ∃ n, map part_info (parts s) = map form_info (take n all) ∧ trace s = form_events 0 (take n all) ++ [ev_end] ∧
    (take n all = all ∨ ∃ part, last (take n all) = Some part ∧ misleading content_type (multipart_body boundary raws line_end) part).
Proof.
  intros [H| ? ? ? ? H| ? ? ? ? ? ? ? H|d t H Hall H1 H2 H3] Hd; [by rewrite H in Hd..|]. exists (length d).
  rewrite Hall, take_app_length. split_and!; [done|done|]. destruct H3 as [->|H3]; [left; by rewrite app_nil_r|by right].
Qed.

(** The stream after its callbacks are set. *)
Lemma setup_stage :
  within_total (max_total_bytes (limits o)) (multipart_body boundary raws line_end) →
  let s := foldl (run_cmd fuel emit) (make_stream content_type l) setup in
  common (multipart_body boundary raws line_end) s ∧ stage (multipart_body boundary raws line_end) s ∧ buffer s = [].
Proof.
  intros Ht. cbv zeta. unfold make_stream. rewrite Hboundary. cbn [foldl setup run_cmd]. split_and!; [by split|by apply at_first|done].
Qed.
End collect.

(** C9: The streaming parser and the form parser agree as far as the code allows:
    for every body that the form parser accepts, and however it is cut into
    chunks, a user that streams each part sees the parts of the form in order, the
    payload of each byte for byte between its announcement and its end, and the end
    of the body last; nothing fails, and the loop terminates within a fuel of the
    size of the body.  These are all parts of the form, unless the text behind the
    delimiter of the last one seen has two dashes where the view of the suffix
    shows them after the [erase]; only then the body may end there.  What the view
    shows is what the common libraries give ([in_place]): the bytes that are now at
    its place in the same storage.  The stream is
    given a limit of header blocks greater by three bytes, since it counts what it
    has of the blank line. *)
Theorem stream_agrees_with_form (o : multipart_form_options) content_type body form chunks fuel depth
    (Hform : parse_multipart_form content_type body o = Ok form) (Hchunks : concat chunks = body)
    (Hfuel : (length body < fuel)%nat) :
  let s := run_cmds fuel collector (S depth) (make_stream content_type (stream_limits (limits o)))
             (setup ++ map cmd_body_data chunks ++ [cmd_body_end]) in
  ∃ n, let seen := take n (parts_ form) in
    trace s = form_events 0 seen ++ [ev_end] ∧ map part_info (parts s) = map form_info seen ∧ phase s = phase_done ∧ failed s = false ∧
    (seen = parts_ form ∨ ∃ part, last seen = Some part ∧ misleading content_type body part).
Proof.
  apply parse_form_iff in Hform as (Htotal & boundary & raws & line_end & all & Hb & -> & Hacc & ->). cbv zeta.
  assert (Hparts : parts_ (rebuild_indexes all) = all).
  { unfold rebuild_indexes. by destruct (build_groups _ _), (build_groups _ _). }
  rewrite Hparts. unfold run_cmds. rewrite !foldl_app. cbn [foldl].
  destruct (setup_stage fuel depth o boundary line_end raws all content_type Hb Htotal) as (S1 & S2 & S3).
  set (s0 := foldl _ _ setup) in *. rewrite <-Hchunks in S1, S2 at 1.
  destruct (feed_chunks fuel depth o boundary line_end raws all Hacc content_type Hb chunks s0 S1 S2) as (F1 & F2 & F3);
    [rewrite S3, Hchunks; done|].
  set (s1 := foldl _ s0 _) in *. cbn [run_cmd]. rewrite (cm_valid _ _ _ _ F1). unfold finish.
  rewrite (proj1 (cm_flags _ _ _ _ F1)).
  destruct (parse_loop_progress fuel depth o boundary line_end raws all Hacc content_type Hb fuel [] s1 F1 F2 F3) as (P1 & P2 & _ & P4).
  unfold parse. set (s2 := parse_loop _ _ s1) in *. cbv zeta. specialize (P4 eq_refl).
  rewrite (proj1 (cm_flags _ _ _ _ P1)), bool_decide_eq_true_2 by done. cbn [negb].
  destruct (stage_done _ _ _ _ _ _ _ _ P2 P4) as (n & T1 & T2 & T3). exists n. split_and!; [done|done|done|apply P1|done].
Qed.

(** A form with two parts, cut inside its delimiters. *)
Definition cut_options : multipart_form_options := FormOptions sample_limits 100.

Definition cut_chunks : list str :=
  [lit "--"; lit "B" ++ crlf ++ lit "Content-Disposition: form-data; name=a" ++ ["013"%char]; ["010"; "013"]%char; ["010"%char];
   lit "01" ++ crlf ++ lit "--C" ++ ["013"%char]; ["010"%char] ++ lit "--B" ++ crlf; [];
   lit "Content-Disposition: form-data; name=b; filename=f" ++ crlf2 ++ crlf ++ lit "--"; lit "B--"].

Notation collected chunks :=
  (run_cmds 500 collector 3 (make_stream sample_type (stream_limits (limits cut_options))) (setup ++ map cmd_body_data chunks ++ [cmd_body_end])).

Lemma stream_agrees_with_form_witness :
  match parse_multipart_form sample_type (concat cut_chunks) cut_options with
  | Ok form =>
    map fp_body (parts_ form) = [lit "01" ++ crlf ++ lit "--C"; []] ∧ map part_info (parts (collected cut_chunks)) = map form_info (parts_ form) ∧
    trace (collected cut_chunks) = form_events 0 (parts_ form) ++ [ev_end] ∧ phase (collected cut_chunks) = phase_done
  | Err _ => False
  end.
Proof.
  destruct (parse_multipart_form _ _ _) as [form|] eqn:E; [|by vm_compute in E].
  destruct (stream_agrees_with_form cut_options sample_type (concat cut_chunks) form cut_chunks 500 2 E eq_refl) as (n & H1 & H2 & H3 & _).
  { apply Nat.ltb_lt. vm_compute. reflexivity. }
  assert (Hp : length (parts (collected cut_chunks)) = 2%nat) by (vm_compute; reflexivity).
  assert (Hf : length (parts_ form) = 2%nat) by (vm_compute in E; injection E as <-; reflexivity).
  assert (Hn : take n (parts_ form) = parts_ form).
  { apply take_ge. apply (f_equal length) in H2. rewrite !length_map, Hp, length_take in H2. lia. }
  rewrite Hn in H1, H2. split_and!; [vm_compute in E; by injection E as <-|exact H2|exact H1|exact H3].
Defined.

(** A body of two parts in one chunk.  The view of the suffix of the delimiter
    after the first part shows two dashes of the next delimiter after the move:
    the stream ends after the first part, the form has both. *)
Definition two_fields (value : str) : str :=
  let field name value := lit "--B" ++ crlf ++ lit "Content-Disposition: form-data; name=" ++ name ++ crlf2 ++ value ++ crlf in
  field (lit "a") value ++ field (lit "b") (lit "x") ++ lit "--B--".

Example stale_suffix_ends_early :
  let body := two_fields (lit "0123456789012345678901234567890123456789") in
  match parse_multipart_form sample_type body cut_options with Ok form => length (parts_ form) = 2%nat | Err _ => False end ∧
  let seen s := (length (parts s), last (events (history s)), failed s) in
  seen (collected [body]) = (1%nat, Some ev_end, false) ∧ seen (collected [take 80 body; drop 80 body]) = (2%nat, Some ev_end, false).
Proof. vm_compute. split_and!; reflexivity. Qed.
