(* ===== verification/Response.v ===== *)
(** * HTTP responses

    [src/http/response.cpp]: [response_state] and its three faces, [response],
    [deferred_response] and [streaming_response], with server-sent events.
    Callbacks, of the server or of the user, may call the response again and may
    throw: the client is a function from the log and the callback made to the
    calls it makes, and [emit] runs them, nested to a given depth, up to the
    first that throws.  Handles are taken to be alive; [weak_ptr::lock] then
    fails exactly when the guard of [lock_active] does. *)

From S2P Require Import Prelude Text Http.

Open Scope Z_scope.

(** ** State *)

(** [std::invalid_argument] and [std::logic_error], by message, and what the
    user throws. *)
Inductive response_exn :=
| exn_status_range
| exn_headers_committed
| exn_streaming
| exn_not_active
| exn_claimed
| exn_user.

(** [std::error_code] by its [std::errc]. *)
Inductive stream_errc := errc_invalid_argument | errc_not_connected | errc_operation_not_supported | errc_would_block | errc_other (code : Z).

Record stream_write_result := WriteResult { wr_accepted : bool; wr_continue : bool; wr_error : option stream_errc }.
Definition write_ready : stream_write_result := WriteResult true true None.
Definition write_backpressure : stream_write_result := WriteResult true false None.
Definition write_rejected (e : stream_errc) : stream_write_result := WriteResult false false (Some e).
Definition should_continue (r : stream_write_result) : bool := wr_accepted r && wr_continue r.

(** Callbacks made, and resets, in the order in which they happen. *)
Inductive response_event :=
| ev_complete
| ev_cancel
| ev_drain
| ev_stream_error (e : stream_errc)
| ev_stream_write (payload : str)
| ev_stream_end
| ev_reset.

Record response_state := ResponseState {
  status_code : Z; rs_headers : headers; rs_body : str;
  ended : bool; deferred : bool; streaming : bool; headers_committed : bool; cancelled : bool;
  has_complete : bool; has_cancel : bool; has_drain : bool; has_error : bool; has_stream_write : bool; has_stream_end : bool;
  log : list response_event
}.

Definition fresh_response : response_state :=
  ResponseState 200 [] [] false false false false false false false false false false false [].

Definition active (s : response_state) : bool := negb (ended s) && negb (cancelled s).

Definition set_head (code : Z) (hs : headers) (s : response_state) : response_state :=
  ResponseState code hs (rs_body s) (ended s) (deferred s) (streaming s) (headers_committed s) (cancelled s) (has_complete s)
    (has_cancel s) (has_drain s) (has_error s) (has_stream_write s) (has_stream_end s) (log s).
Definition set_body (b : str) (s : response_state) : response_state :=
  ResponseState (status_code s) (rs_headers s) b (ended s) (deferred s) (streaming s) (headers_committed s) (cancelled s)
    (has_complete s) (has_cancel s) (has_drain s) (has_error s) (has_stream_write s) (has_stream_end s) (log s).
Definition set_flags (e d st c : bool) (s : response_state) : response_state :=
  ResponseState (status_code s) (rs_headers s) (rs_body s) e d st (headers_committed s) c (has_complete s)
    (has_cancel s) (has_drain s) (has_error s) (has_stream_write s) (has_stream_end s) (log s).
Definition set_committed (s : response_state) : response_state :=
  ResponseState (status_code s) (rs_headers s) (rs_body s) (ended s) (deferred s) (streaming s) true (cancelled s)
    (has_complete s) (has_cancel s) (has_drain s) (has_error s) (has_stream_write s) (has_stream_end s) (log s).
Definition set_callbacks (co ca dr er sw se : bool) (s : response_state) : response_state :=
  ResponseState (status_code s) (rs_headers s) (rs_body s) (ended s) (deferred s) (streaming s) (headers_committed s)
    (cancelled s) co ca dr er sw se (log s).
Definition record (e : response_event) (s : response_state) : response_state :=
  ResponseState (status_code s) (rs_headers s) (rs_body s) (ended s) (deferred s) (streaming s) (headers_committed s)
    (cancelled s) (has_complete s) (has_cancel s) (has_drain s) (has_error s) (has_stream_write s) (has_stream_end s)
    (log s ++ [e]).

(** ** Calls *)

(** The state of which a response is a part: the response by itself, or the
    connection that it is a slot of. *)
Class ResponseStore (S : Type) := { rget : S → response_state; rput : response_state → S → S }.

Instance self_store : ResponseStore response_state := {| rget s := s; rput r _ := r |}.

Section procedures.
Context {S : Type} `{!ResponseStore S}.

(** A call changes the state and may throw. *)
Definition proc := S → S * option response_exn.

Definition done : proc := λ s, (s, None).
Definition throw (e : response_exn) : proc := λ s, (s, Some e).
Definition update (f : response_state → response_state) : proc := λ s, (rput (f (rget s)) s, None).
Definition seq (p q : proc) : proc := λ s, match p s with (s', None) => q s' | (s', Some e) => (s', Some e) end.
Definition guard (b : response_state → bool) (p q : proc) : proc := λ s, if b (rget s) then p s else q s.
Definition catch (p : proc) : proc := λ s, ((p s).1, None).
End procedures.
Arguments proc S : clear implicits.

Declare Scope response_scope.
Delimit Scope response_scope with response.
Notation "p ;; q" := (seq p q) (at level 100, q at level 200, right associativity) : response_scope.
Open Scope response_scope.

Record sse_event := SseEvent { sse_name : str; sse_id : str; sse_data : str }.
Record sse_options := SseOptions { no_cache : bool; x_accel_buffering_no : bool }.

(** ** Server-sent events *)

Definition contains_invalid_sse_field_byte (value : str) : bool :=
  existsb (λ ch, is_char "013" ch || is_char "010" ch || is_char "000" ch) value.

Definition lf : str := ["010"%char].

Definition append_sse_field_line (field value : str) : str :=
  field ++ lit ":" ++ (match value with [] => [] | _ => " "%char :: value end) ++ lf.

Definition append_sse_comment_line (value : str) : str :=
  lit ":" ++ (match value with [] => [] | _ => " "%char :: value end) ++ lf.

(** One line up to a line end, and what follows the line end; [None] when the
    text ends first. *)
Fixpoint sse_line (value : str) : str * option str :=
  match value with
  | [] => ([], None)
  | c :: rest =>
    if is_char "013" c then
      ([], Some (match rest with d :: rest' => if is_char "010" d then rest' else rest | [] => [] end))
    else if is_char "010" c then ([], Some rest)
    else let '(line, more) := sse_line rest in (c :: line, more)
  end.

Fixpoint append_split_sse_lines (fuel : nat) (append_line : str → str) (value : str) : str :=
  match fuel with
  | O => append_line []
  | S fuel' =>
    match value with
    | [] => append_line []
    | _ =>
      match sse_line value with
      | (line, None) => append_line line
      | (line, Some rest) => append_line line ++ append_split_sse_lines fuel' append_line rest
      end
    end
  end.

Definition append_sse_data_lines (data : str) : str :=
  append_split_sse_lines (S (length data)) (append_sse_field_line (lit "data")) data.

Definition append_sse_comment_lines (comment : str) : str :=
  append_split_sse_lines (S (length comment)) append_sse_comment_line comment.

Definition max_sse_retry_delay : Z := 24 * 365 * 3600 * 1000.

Definition sse_retry_frame (value : Z) : option str :=
  if (value <=? 0) || (max_sse_retry_delay <? value) then None
  else Some (lit "retry: " ++ to_string (Z.to_N value) ++ lf ++ lf).

Definition sse_event_frame (e : sse_event) : option str :=
  if contains_invalid_sse_field_byte (sse_name e) || contains_invalid_sse_field_byte (sse_id e) then None
  else
    Some ((match sse_name e with [] => [] | _ => append_sse_field_line (lit "event") (sse_name e) end) ++
          (match sse_id e with [] => [] | _ => append_sse_field_line (lit "id") (sse_id e) end) ++
          append_sse_data_lines (sse_data e) ++ lf).

Definition sse_comment_frame (value : str) : str := append_sse_comment_lines value ++ lf.

(** ** Operations *)

Inductive response_cmd :=
| c_status (code : Z) | c_header (name value : str) | c_text (body : str) | c_json (body : str) | c_bytes (body : str)
| c_end | c_defer | c_stream | c_sse (options : sse_options)
| c_deferred (c : response_cmd) | c_deferred_on_cancel (set : bool)
| c_stream_status (code : Z) | c_stream_header (name value : str)
| c_stream_on_cancel (set : bool) | c_stream_on_drain (set : bool) | c_stream_on_error (set : bool)
| c_write (chunk : str) | c_stream_end | c_sse_retry (value : Z) | c_sse_send (e : sse_event) | c_sse_comment (value : str)
| c_on_complete (set : bool) | c_on_stream_write (set : bool) | c_on_stream_end (set : bool)
| c_notify_drain | c_notify_error (e : stream_errc) | c_reset | c_cancel | c_commit_headers | c_complete_stream
| c_throw.

Section callbacks.
Context {S : Type} `{!ResponseStore S}.
(** What the callbacks do; [on_stream_write] also returns a result. *)
Context (emit : response_event → proc S) (emit_write : str → S → S * option response_exn * stream_write_result).

Definition complete : proc S :=
  guard active
    (update (λ s, set_flags true false (streaming s) (cancelled s) s);;
     guard has_complete (emit ev_complete) done)
    done.

Definition cancel : proc S :=
  guard active
    (update (λ s, set_flags (ended s) false (streaming s) true s);;
     guard has_cancel
       (update (λ s, set_callbacks (has_complete s) false (has_drain s) (has_error s) (has_stream_write s) (has_stream_end s) s);;
        catch (emit ev_cancel))
       done)
    done.

Definition status (code : Z) : proc S :=
  if (code <? 100) || (999 <? code) then throw exn_status_range
  else guard headers_committed (throw exn_headers_committed) (update (λ s, set_head code (rs_headers s) s)).

Definition header (name value : str) : proc S :=
  guard headers_committed (throw exn_headers_committed)
    (update (λ s, set_head (status_code s) (headers_set (rs_headers s) name value) s)).

Definition type (content_type : str) : proc S := header (lit "content-type") content_type.

Definition end_ : proc S := guard streaming (throw exn_streaming) complete.

Definition text (body : str) : proc S :=
  guard streaming (throw exn_streaming) (type (lit "text/plain; charset=utf-8");; update (set_body body);; end_).

Definition json (serialized : str) : proc S :=
  guard streaming (throw exn_streaming) (type (lit "application/json");; update (set_body serialized);; end_).

Definition bytes (body : str) : proc S := guard streaming (throw exn_streaming) (update (set_body body);; end_).

Definition defer : proc S :=
  guard streaming (throw exn_streaming)
    (guard active (update (λ s, set_flags (ended s) true (streaming s) (cancelled s) s)) done).

Definition stream : proc S :=
  guard (λ s, negb (active s)) (throw exn_not_active)
    (guard (λ s, deferred s || streaming s) (throw exn_claimed)
       (update (λ s, set_flags (ended s) (deferred s) true (cancelled s) s))).

(** [lock_active] of a streaming response. *)
Definition stream_active (s : response_state) : bool := active s && streaming s.

Definition if_streaming (p : proc S) : proc S := guard stream_active p done.

Definition stream_header (name value : str) : proc S := if_streaming (header name value).

Definition sse (options : sse_options) : proc S :=
  stream;;
  stream_header (lit "content-type") (lit "text/event-stream; charset=utf-8");;
  (if no_cache options then stream_header (lit "cache-control") (lit "no-cache") else done);;
  (if x_accel_buffering_no options then stream_header (lit "x-accel-buffering") (lit "no") else done).

(** [streaming_response::write], with its result. *)
Definition write (chunk : str) (s : S) : S * option response_exn * stream_write_result :=
  if negb (stream_active (rget s)) then (s, None, write_rejected errc_not_connected)
  else if negb (has_stream_write (rget s)) then (s, None, write_rejected errc_operation_not_supported)
  else emit_write chunk s.

Definition write_frame (frame : option str) (s : S) : S * option response_exn * stream_write_result :=
  match frame with
  | None => (s, None, write_rejected errc_invalid_argument)
  | Some frame => write frame s
  end.

Definition stream_end : proc S := if_streaming (guard has_stream_end (emit ev_stream_end) done).

Definition on_cancel (b : bool) (s : response_state) : response_state :=
  set_callbacks (has_complete s) b (has_drain s) (has_error s) (has_stream_write s) (has_stream_end s) s.

Definition notify_stream_drain : proc S :=
  guard (λ s, has_drain s && active s && streaming s) (catch (emit ev_drain)) done.

Definition notify_stream_error (e : stream_errc) : proc S := guard has_error (catch (emit (ev_stream_error e))) done.

Definition reset : proc S :=
  update (λ s, record ev_reset
    (ResponseState 200 [] [] false false false false false (has_complete s) (has_cancel s) (has_drain s) (has_error s)
       (has_stream_write s) (has_stream_end s) (log s))).

Definition complete_stream : proc S :=
  guard streaming (update (λ s, set_flags (ended s) (deferred s) false (cancelled s) s);; complete) done.

Fixpoint run_cmd (c : response_cmd) : proc S :=
  match c with
  | c_status code => status code
  | c_header name value => header name value
  | c_text b => text b
  | c_json b => json b
  | c_bytes b => bytes b
  | c_end => end_
  | c_defer => defer
  | c_stream => stream
  | c_sse options => sse options
  | c_deferred c => guard active (run_cmd c) done
  | c_deferred_on_cancel b => guard active (update (on_cancel b)) done
  | c_stream_status code => if_streaming (status code)
  | c_stream_header name value => stream_header name value
  | c_stream_on_cancel b => if_streaming (update (on_cancel b))
  | c_stream_on_drain b => if_streaming
      (update (λ s, set_callbacks (has_complete s) (has_cancel s) b (has_error s) (has_stream_write s) (has_stream_end s) s))
  | c_stream_on_error b => if_streaming
      (update (λ s, set_callbacks (has_complete s) (has_cancel s) (has_drain s) b (has_stream_write s) (has_stream_end s) s))
  | c_write chunk => λ s, (write chunk s).1
  | c_stream_end => stream_end
  | c_sse_retry value => λ s, (write_frame (sse_retry_frame value) s).1
  | c_sse_send e => λ s, (write_frame (sse_event_frame e) s).1
  | c_sse_comment value => λ s, (write_frame (Some (sse_comment_frame value)) s).1
  | c_on_complete b =>
    update (λ s, set_callbacks b (has_cancel s) (has_drain s) (has_error s) (has_stream_write s) (has_stream_end s) s)
  | c_on_stream_write b =>
    update (λ s, set_callbacks (has_complete s) (has_cancel s) (has_drain s) (has_error s) b (has_stream_end s) s)
  | c_on_stream_end b =>
    update (λ s, set_callbacks (has_complete s) (has_cancel s) (has_drain s) (has_error s) (has_stream_write s) b s)
  | c_notify_drain => notify_stream_drain
  | c_notify_error e => notify_stream_error e
  | c_reset => reset
  | c_cancel => cancel
  | c_commit_headers => update set_committed
  | c_complete_stream => complete_stream
  | c_throw => throw exn_user
  end.

Fixpoint run_all (cs : list response_cmd) : proc S :=
  match cs with [] => done | c :: cs' => run_cmd c;; run_all cs' end.
End callbacks.

Section client.
Context (write_answer : list response_event → stream_write_result) (client : list response_event → response_event → list response_cmd).

(** The answer to a write depends on what happened before and during it. *)
Definition answered (emit : response_event → proc response_state) (chunk : str) (s : response_state) :
    response_state * option response_exn * stream_write_result :=
  let '(s', e) := emit (ev_stream_write chunk) s in (s', e, write_answer (log s')).

(** Callbacks nested deeper than [depth] make no calls. *)
Fixpoint emit (depth : nat) (e : response_event) : proc response_state :=
  match depth with
  | O => update (record e)
  | S depth' => λ s, let s := record e s in run_all (emit depth') (answered (emit depth')) (client (log s) e) s
  end.

(** Calls made from outside the callbacks, each whether or not the previous
    ones threw. *)
Definition run_calls (depth : nat) (s : response_state) (cs : list response_cmd) : response_state :=
  foldl (λ s c, (run_cmd (emit depth) (answered (emit depth)) c s).1) s cs.
End client.

(** * What the calls on a response leave alone

    A call changes nothing but the response and what the callbacks change: every
    preorder that contains the changes of the response and of the callbacks
    contains the calls. *)

Open Scope Z_scope.

Section frame.
Context {S : Type} `{!ResponseStore S} (R : relation S) `{!PreOrder R}.
Context (emit : response_event → proc S) (emit_write : str → S → S * option response_exn * stream_write_result).

Definition framed (p : proc S) : Prop := ∀ s, R s (p s).1.

Context (Hput : ∀ r s, R s (rput r s)) (Hemit : ∀ e, framed (emit e)) (Hwrite : ∀ chunk s, R s (emit_write chunk s).1.1).

Lemma framed_done : framed done.
Proof. intros s. reflexivity. Qed.
Lemma framed_throw e : framed (throw e).
Proof. intros s. reflexivity. Qed.
Lemma framed_update f : framed (update f).
Proof. intros s. apply Hput. Qed.
Lemma framed_seq p q : framed p → framed q → framed (seq p q).
Proof.
  intros Hp Hq s. unfold seq. specialize (Hp s). destruct (p s) as [s' [e|]]; [done|]. transitivity s'; [done|apply Hq].
Qed.
Lemma framed_guard b p q : framed p → framed q → framed (guard b p q).
Proof. intros Hp Hq s. unfold guard. destruct (b (rget s)); auto. Qed.
Lemma framed_catch p : framed p → framed (catch p).
Proof. intros Hp s. apply Hp. Qed.

Create HintDb framed.
Hint Resolve framed_done framed_throw framed_update framed_seq framed_guard framed_catch : framed.
Hint Extern 2 (framed (emit _)) => apply Hemit : framed.
Hint Unfold complete cancel status header type end_ text json bytes defer stream if_streaming stream_header sse
  stream_end notify_stream_drain notify_stream_error reset complete_stream : framed.

Lemma framed_write chunk : framed (λ s, (write emit_write chunk s).1).
Proof.
  intros s. unfold write. destruct (stream_active _); [|reflexivity]. destruct (has_stream_write _); [|reflexivity]. apply Hwrite.
Qed.

Lemma framed_write_frame frame : framed (λ s, (write_frame emit_write frame s).1).
Proof. destruct frame; [apply framed_write|intros s; reflexivity]. Qed.
Hint Resolve framed_write framed_write_frame : framed.

Lemma framed_complete : framed (complete emit).
Proof. unfold complete. auto 10 with framed. Qed.
Lemma framed_cancel : framed (cancel emit).
Proof. unfold cancel. auto 10 with framed. Qed.
Lemma framed_complete_stream : framed (complete_stream emit).
Proof. unfold complete_stream. auto using framed_complete with framed. Qed.
Lemma framed_drain : framed (notify_stream_drain emit).
Proof. unfold notify_stream_drain. auto with framed. Qed.
Lemma framed_error e : framed (notify_stream_error emit e).
Proof. unfold notify_stream_error. auto with framed. Qed.

Lemma framed_cmd c : framed (run_cmd emit emit_write c).
Proof.
  induction c; cbn [run_cmd]; autounfold with framed; repeat case_match; auto 20 with framed.
Qed.

Lemma framed_all cs : framed (run_all emit emit_write cs).
Proof. induction cs; cbn [run_all]; auto using framed_done, framed_seq, framed_cmd. Qed.
End frame.
