(* ===== verification/ResponseSpec.v ===== *)
(** * What responses promise

    The protocol of a response's callbacks and the freezing of its head, for
    every client that calls back in any way; and server-sent events against a
    standard decoder of event streams. *)

From S2P Require Import Prelude Text Http Response.

Open Scope Z_scope.

(** ** The protocol of the callbacks *)

(** Whether the response was completed or cancelled since the last reset;
    [None] when a callback is out of place. *)
Definition protocol_step (terminated : option bool) (e : response_event) : option bool :=
  match terminated with
  | None => None
  | Some t =>
    match e with
    | ev_reset => Some false
    | ev_complete | ev_cancel => if t then None else Some true
    | ev_drain | ev_stream_write _ | ev_stream_end => if t then None else Some false
    | ev_stream_error _ => Some t
    end
  end.

Definition protocol (l : list response_event) : option bool := foldl protocol_step (Some false) l.

Definition resets (l : list response_event) : nat :=
  length (List.filter (λ e, match e with ev_reset => true | _ => false end) l).

(** Status and headers stay as they were committed. *)
Definition same_head (s s' : response_state) : Prop :=
  headers_committed s' = true ∧ status_code s' = status_code s ∧ rs_headers s' = rs_headers s.

(** Calls on a response by itself. *)
Ltac unfold_call := unfold guard, update, catch, seq in *; cbn [rget rput self_store] in *.

Section protocol.
Implicit Types (s : response_state) (p q : proc response_state).

Definition response_inv s : Prop :=
  ∃ t, protocol (log s) = Some t ∧ (t = true → active s = false) ∧ (ended s && cancelled s) = false.

Definition response_good s s' : Prop :=
  response_inv s' ∧ (resets (log s) ≤ resets (log s'))%nat ∧
  (headers_committed s = true → resets (log s') = resets (log s) → same_head s s').

Definition proc_keeps p : Prop := ∀ s, response_inv s → response_good s (p s).1.

Lemma response_good_refl s : response_inv s → response_good s s.
Proof. intros H. split_and!; [done|done|]. by intros. Qed.

Lemma response_good_trans s s' s'' : response_good s s' → response_good s' s'' → response_good s s''.
Proof.
  intros (H1 & H2 & H3) (G1 & G2 & G3). split_and!; [done|lia|]. intros Hc Hr.
  destruct (H3 Hc ltac:(lia)) as (A1 & A2 & A3). destruct (G3 A1 ltac:(lia)) as (B1 & B2 & B3).
  split_and!; [done|congruence|congruence].
Qed.

Lemma rs_seq_keeps p q : proc_keeps p → proc_keeps q → proc_keeps (seq p q).
Proof.
  intros Hp Hq s Hs. unfold_call. specialize (Hp s Hs). destruct (p s) as [s1 [e|]]; cbn in *; [done|].
  eapply response_good_trans; [exact Hp|]. apply Hq, Hp.
Qed.

Lemma rs_guard_keeps b p q : proc_keeps p → proc_keeps q → proc_keeps (guard b p q).
Proof. intros Hp Hq s Hs. unfold_call. destruct (b s); auto. Qed.

Lemma done_keeps : proc_keeps done.
Proof. intros s. apply response_good_refl. Qed.
Lemma throw_keeps e : proc_keeps (throw e).
Proof. intros s. apply response_good_refl. Qed.
Lemma rs_catch_keeps p : proc_keeps p → proc_keeps (catch p).
Proof. intros Hp s Hs. apply Hp, Hs. Qed.

(** Updates that neither revive a response nor touch a committed head. *)
Lemma rs_update_keeps f :
  (∀ s, log (f s) = log s ∧ ended (f s) = ended s ∧ cancelled (f s) = cancelled s ∧
        (headers_committed s = true → same_head s (f s))) → proc_keeps (update f).
Proof.
  intros Hf s (t & H1 & H2 & H3). destruct (Hf s) as (E1 & E2 & E3 & E4). unfold response_good; unfold_call. cbn [fst].
  rewrite E1. split_and!; [|done|by intros Hc _; apply E4]. exists t. unfold active. by rewrite E1, E2, E3.
Qed.

Ltac plain_update := apply rs_update_keeps; intros s; split_and!; done.

(** Every callback keeps the invariant, whatever it calls. *)
Context (emit : response_event → proc response_state) (answer : list response_event → stream_write_result).
Context (Hemit : ∀ e s, response_inv (record e s) → response_good (record e s) (emit e s).1).

Lemma record_good e s t :
  protocol (log s) = Some t → protocol_step (Some t) e ≠ None → (protocol_step (Some t) e = Some true → active s = false) →
  (ended s && cancelled s) = false → e ≠ ev_reset → response_good s (record e s).
Proof.
  intros H1 H2 H3 H4 He. assert (Hr : resets (log s ++ [e]) = resets (log s)).
  { unfold resets. rewrite List.filter_app, length_app. destruct e; cbn; try lia. done. }
  assert (Hp : protocol (log s ++ [e]) = protocol_step (Some t) e).
  { unfold protocol. rewrite foldl_app. fold (protocol (log s)). by rewrite H1. }
  split_and!; cbn [log record]; [|lia|by intros Hc _].
  destruct (protocol_step (Some t) e) as [t'|]; [|done]. exists t'. cbn [log record ended cancelled]. split_and!; [done| |done].
  intros ->. by apply H3.
Qed.

Lemma rs_emit_good e s : response_good s (record e s) → response_good s (emit e s).1.
Proof. intros H. eapply response_good_trans; [exact H|]. apply Hemit, H. Qed.

(** Callbacks of an active response. *)
Lemma emit_active_keeps e (b : response_state → bool) p :
  (∀ s, b s = true → active s = true) → protocol_step (Some false) e = Some false → e ≠ ev_reset →
  proc_keeps p → proc_keeps (guard b (emit e) p).
Proof.
  intros Hb He Hne Hp s Hs. unfold_call. destruct (b s) eqn:E; [|by apply Hp]. apply Hb in E.
  destruct Hs as (t & H1 & H2 & H3). assert (t = false) as -> by (destruct t; [rewrite H2 in E by done; done|done]).
  apply rs_emit_good. eapply record_good; [exact H1| | |done|done]; rewrite He; done.
Qed.

Lemma error_keeps e : proc_keeps (emit (ev_stream_error e)).
Proof.
  intros s (t & H1 & H2 & H3). apply rs_emit_good. eapply record_good; [exact H1|done| |done|done].
  cbn. intros [= ->]. by apply H2.
Qed.

(** Ending or cancelling an active response, and calling back at most once. *)
Lemma settle_keeps (f : response_state → response_state) (p : proc response_state) e (b : response_state → bool) :
  e = ev_complete ∨ e = ev_cancel →
  (∀ s, active s = true → log (f s) = log s ∧ active (f s) = false ∧ (ended (f s) && cancelled (f s)) = false ∧
        (headers_committed s = true → same_head s (f s))) →
  (∀ s, p s = emit e s ∨ ∃ s', p s = ((emit e s').1, None) ∧ log s' = log s ∧ active s' = active s ∧
        (ended s' && cancelled s') = (ended s && cancelled s) ∧ (headers_committed s = true → same_head s s')) →
  proc_keeps (guard active (seq (update f) (guard b p done)) done).
Proof.
  intros He Hf Hp s Hs. unfold_call. destruct (active s) eqn:Ha; [|by apply done_keeps].
  destruct Hs as (t & H1 & H2 & H3). assert (t = false) as -> by (destruct t; [rewrite H2 in Ha by done; done|done]).
  destruct (Hf s Ha) as (F1 & F2 & F3 & F4). cbv beta iota.
  assert (Hstep : protocol_step (Some false) e = Some true) by (by destruct He as [-> | ->]).
  assert (Hne : e ≠ ev_reset) by (by destruct He as [-> | ->]).
  assert (Hfs : response_good s (f s)).
  { split_and!; [|by rewrite F1|by intros Hc _; apply F4]. exists false. rewrite F1. by split_and!. }
  unfold_call. destruct (b (f s)); [|done]. destruct (Hp (f s)) as [-> | (s' & -> & P1 & P2 & P3 & P4)].
  - eapply response_good_trans; [exact Hfs|]. apply rs_emit_good. eapply record_good; [by rewrite F1|by rewrite Hstep|done|done|done].
  - cbn [fst]. eapply response_good_trans; [exact Hfs|]. eapply response_good_trans with s'.
    + split_and!; [|by rewrite P1|by intros Hc _; apply P4]. exists false. rewrite P1, F1. split_and!; [done|done|by rewrite P3].
    + apply rs_emit_good. eapply record_good; [by rewrite P1, F1|by rewrite Hstep|by rewrite P2|by rewrite P3|done].
Qed.

(** ** The operations *)

Lemma complete_keeps : proc_keeps (complete emit).
Proof.
  apply (settle_keeps _ _ ev_complete); [by left| |by left].
  intros s Ha. apply andb_true_iff in Ha as [He Hc]. apply negb_true_iff in Hc.
  unfold active. cbn. rewrite Hc. by split_and!.
Qed.

Lemma rs_cancel_keeps : proc_keeps (cancel emit).
Proof.
  apply (settle_keeps _ _ ev_cancel); [by right| |].
  - intros s Ha. apply andb_true_iff in Ha as [He Hc]. apply negb_true_iff in He.
    unfold active. cbn. rewrite He. by split_and!.
  - intros s. right. eexists. split; [reflexivity|]. by split_and!.
Qed.

Lemma head_keeps (f : response_state → response_state) e :
  (∀ s, log (f s) = log s ∧ ended (f s) = ended s ∧ cancelled (f s) = cancelled s) →
  proc_keeps (guard headers_committed (throw e) (update f)).
Proof.
  intros Hf s Hs. unfold_call. destruct (headers_committed s) eqn:Hc; [by apply throw_keeps|].
  destruct Hs as (t & H1 & H2 & H3), (Hf s) as (E1 & E2 & E3). unfold response_good; unfold_call. cbn [fst].
  rewrite E1, Hc. split_and!; [|done|done]. exists t. unfold active. by rewrite E1, E2, E3.
Qed.

Lemma status_keeps code : proc_keeps (status code).
Proof. unfold status. destruct (_ || _); [apply throw_keeps|]. by apply head_keeps. Qed.

Lemma header_keeps name value : proc_keeps (header name value).
Proof. by apply head_keeps. Qed.

Lemma reset_keeps : proc_keeps reset.
Proof.
  intros s (t & H1 & H2 & H3). unfold reset, response_good; unfold_call. cbn [fst log record].
  assert (Hr : resets (log s ++ [ev_reset]) = S (resets (log s))).
  { unfold resets. rewrite List.filter_app, length_app. cbn. lia. }
  rewrite Hr. split_and!; [|lia|intros _ Hx; exfalso; lia].
  exists false. cbn [log record]. unfold protocol. rewrite foldl_app. fold (protocol (log s)). rewrite H1. by split_and!.
Qed.

Lemma stream_active_active s : stream_active s = true → active s = true.
Proof. by intros [H _]%andb_true_iff. Qed.

Lemma write_keeps chunk : proc_keeps (λ s, (write (answered answer emit) chunk s).1).
Proof.
  intros s Hs. assert (E : ((write (answered answer emit) chunk s).1).1 =
    (guard (λ s, stream_active s && has_stream_write s) (emit (ev_stream_write chunk)) done s).1).
  { unfold write; unfold_call. destruct (stream_active s), (has_stream_write s); try done. cbn. unfold answered. by destruct (emit _ s). }
  rewrite E. eapply emit_active_keeps; [|done|done|apply done_keeps|done].
  intros s' [H _]%andb_true_iff. by apply stream_active_active.
Qed.

Lemma write_frame_keeps frame : proc_keeps (λ s, (write_frame (answered answer emit) frame s).1).
Proof. destruct frame; [apply write_keeps|apply done_keeps]. Qed.

Create HintDb response.
Hint Resolve rs_seq_keeps rs_guard_keeps done_keeps throw_keeps rs_catch_keeps complete_keeps rs_cancel_keeps status_keeps
  header_keeps reset_keeps write_keeps write_frame_keeps error_keeps : response.
Hint Extern 1 (proc_keeps (update _)) => plain_update : response.
Hint Unfold end_ text json bytes type defer stream stream_header if_streaming complete_stream notify_stream_error : response.

Lemma stream_end_keeps : proc_keeps (stream_end emit).
Proof.
  intros s Hs. unfold stream_end, if_streaming; unfold_call. destruct (stream_active s) eqn:Ha; [|by apply done_keeps].
  apply (emit_active_keeps ev_stream_end (λ s, stream_active s && has_stream_end s) done) in Hs as H; [|idtac|done|done|apply done_keeps].
  - unfold_call. rewrite Ha in H. cbn in H. by destruct (has_stream_end s).
  - intros s' [H _]%andb_true_iff. by apply stream_active_active.
Qed.

Lemma drain_keeps : proc_keeps (notify_stream_drain emit).
Proof.
  intros s Hs. unfold notify_stream_drain.
  apply (emit_active_keeps ev_drain (λ s, has_drain s && active s && streaming s) done) in Hs as H; [|idtac|done|done|apply done_keeps].
  - unfold_call. by destruct (_ && _).
  - intros s' H. by apply andb_true_iff in H as [[_ H]%andb_true_iff _].
Qed.

Lemma sse_keeps options : proc_keeps (sse options).
Proof.
  unfold sse. destruct (no_cache options), (x_accel_buffering_no options); autounfold with response; auto 15 with response.
Qed.
Hint Resolve stream_end_keeps drain_keeps sse_keeps : response.

Lemma rs_run_cmd_keeps c : proc_keeps (run_cmd emit (answered answer emit) c).
Proof. induction c; cbn [run_cmd]; autounfold with response; auto 10 with response. Qed.

Lemma rs_run_all_keeps cs : proc_keeps (run_all emit (answered answer emit) cs).
Proof. induction cs; cbn [run_all]; auto using rs_seq_keeps, rs_run_cmd_keeps, done_keeps. Qed.
End protocol.

Section clients.
Context (answer : list response_event → stream_write_result) (client : list response_event → response_event → list response_cmd).

Lemma rs_emit_keeps depth e s :
  response_inv (record e s) → response_good (record e s) (emit answer client depth e s).1.
Proof.
  revert e s. induction depth as [|depth IH]; intros e s Hs; cbn [emit].
  - by apply response_good_refl.
  - by apply rs_run_all_keeps.
Qed.

Lemma run_calls_good depth cs s : response_inv s → response_good s (run_calls answer client depth s cs).
Proof.
  unfold run_calls. revert s. induction cs as [|c cs IH]; intros s Hs; cbn [foldl]; [by apply response_good_refl|].
  pose proof (rs_run_cmd_keeps _ answer (rs_emit_keeps depth) c s Hs) as H.
  eapply response_good_trans; [exact H|]. apply IH, H.
Qed.

Lemma fresh_inv : response_inv fresh_response.
Proof. exists false. by split_and!. Qed.

Lemma run_calls_app depth s cs cs' :
  run_calls answer client depth s (cs ++ cs') = run_calls answer client depth (run_calls answer client depth s cs) cs'.
Proof. unfold run_calls. by rewrite foldl_app. Qed.
End clients.

(** What terminates a response, and what a terminated one never does. *)
Definition terminal (e : response_event) : Prop := e = ev_complete ∨ e = ev_cancel.
Definition live_only (e : response_event) : Prop :=
  match e with ev_stream_error _ | ev_reset => False | _ => True end.

Lemma protocol_none l : foldl protocol_step None l = None.
Proof. by induction l. Qed.

Lemma protocol_terminated l m b :
  foldl protocol_step (Some true) l ≠ None → l !! m = Some b → live_only b → ∃ k, (k < m)%nat ∧ l !! k = Some ev_reset.
Proof.
  revert m. induction l as [|e l IH]; intros m H Hb Hlive; [done|].
  destruct m as [|m].
  - injection Hb as ->. destruct b; cbn in H; by rewrite ?protocol_none in H.
  - assert (He : e = ev_reset ∨ protocol_step (Some true) e = Some true).
    { destruct e; cbn in H |- *; try (by rewrite protocol_none in H); auto. }
    destruct He as [-> | He]; [exists 0%nat; split; [lia|done]|].
    cbn [foldl] in H. rewrite He in H. destruct (IH m H Hb Hlive) as (k & Hk & E). exists (S k). split; [lia|done].
Qed.

Lemma protocol_order l i j a b :
  protocol l ≠ None → (i < j)%nat → l !! i = Some a → l !! j = Some b → terminal a → live_only b →
  ∃ k, (i < k < j)%nat ∧ l !! k = Some ev_reset.
Proof.
  intros H Hij Ha Hb Hterm Hlive.
  apply take_drop_middle in Ha as Hl. rewrite <-Hl in H. unfold protocol in H. rewrite foldl_app in H. cbn [foldl] in H.
  set (t := foldl protocol_step (Some false) (take i l)) in H.
  assert (Ht : protocol_step t a = Some true).
  { destruct t as [[]|], Hterm as [-> | ->]; cbn in H |- *; try done; by rewrite protocol_none in H. }
  rewrite Ht in H.
  destruct (protocol_terminated _ (j - S i) b H) as (k & Hk & E); [|done|].
  - rewrite lookup_drop. by replace (S i + (j - S i))%nat with j by lia.
  - rewrite lookup_drop in E. exists (S i + k)%nat. split; [lia|done].
Qed.

(** The client of the witnesses: the handler of a streamed response that, when
    its write is handed over, ends the stream, and when the response completes
    tries everything again. *)
Definition busy_client (l : list response_event) (e : response_event) : list response_cmd :=
  match e with
  | ev_stream_write _ => [c_stream_end]
  | ev_stream_end => [c_complete_stream]
  | ev_complete => [c_write (lit "late"); c_cancel; c_end; c_notify_drain; c_notify_error errc_would_block]
  | _ => [c_cancel]
  end.
Definition always_ready (l : list response_event) : stream_write_result := write_ready.
Definition busy_calls : list response_cmd :=
  [c_on_complete true; c_on_stream_write true; c_on_stream_end true; c_sse (SseOptions true true); c_stream_on_cancel true;
   c_stream_on_error true; c_commit_headers; c_sse_comment []; c_reset; c_text (lit "second")].

(** C24: Whatever the callbacks call back: once a response was completed or
    cancelled, nothing is called but [on_error] until the response is reset; in
    particular a response is completed or cancelled at most once. *)
Theorem response_protocol (answer : list response_event → stream_write_result)
    (client : list response_event → response_event → list response_cmd) (depth : nat) (cs : list response_cmd) (i j : nat)
    (a b : response_event) :
  (i < j)%nat →
  log (run_calls answer client depth fresh_response cs) !! i = Some a →
  log (run_calls answer client depth fresh_response cs) !! j = Some b →
  terminal a → live_only b →
  ∃ k, (i < k < j)%nat ∧ log (run_calls answer client depth fresh_response cs) !! k = Some ev_reset.
Proof.
  destruct (run_calls_good answer client depth cs fresh_response fresh_inv) as ((t & H & _) & _).
  apply protocol_order. by rewrite H.
Qed.

Lemma response_protocol_witness :
  ∃ k, (2 < k < 5)%nat ∧ log (run_calls always_ready busy_client 5 fresh_response busy_calls) !! k = Some ev_reset.
Proof.
  apply (response_protocol always_ready busy_client 5 busy_calls 2 5 ev_complete ev_complete);
    [lia|vm_compute; reflexivity|vm_compute; reflexivity|by left|exact I].
Defined.

(** Once the headers were committed, and until the response is reset,
    status and headers are what was committed, whatever is called, also from
    the callbacks. *)
Theorem response_head_frozen (answer : list response_event → stream_write_result)
    (client : list response_event → response_event → list response_cmd) (depth : nat) (cs cs' : list response_cmd) :
  headers_committed (run_calls answer client depth fresh_response cs) = true →
  resets (log (run_calls answer client depth fresh_response (cs ++ cs'))) =
    resets (log (run_calls answer client depth fresh_response cs)) →
  status_code (run_calls answer client depth fresh_response (cs ++ cs')) =
    status_code (run_calls answer client depth fresh_response cs) ∧
  rs_headers (run_calls answer client depth fresh_response (cs ++ cs')) =
    rs_headers (run_calls answer client depth fresh_response cs).
Proof.
  rewrite run_calls_app. intros Hc Hr.
  destruct (run_calls_good answer client depth cs fresh_response fresh_inv) as (Hi & _ & _).
  destruct (run_calls_good answer client depth cs' _ Hi) as (_ & _ & H). by destruct (H Hc Hr) as (_ & H1 & H2).
Qed.

Lemma response_head_frozen_witness :
  status_code (run_calls always_ready busy_client 5 fresh_response (take 7 busy_calls ++ [c_stream_status 404; c_sse_comment []])) =
    status_code (run_calls always_ready busy_client 5 fresh_response (take 7 busy_calls)) ∧
  rs_headers (run_calls always_ready busy_client 5 fresh_response (take 7 busy_calls ++ [c_stream_status 404; c_sse_comment []])) =
    rs_headers (run_calls always_ready busy_client 5 fresh_response (take 7 busy_calls)).
Proof. apply response_head_frozen; vm_compute; reflexivity. Defined.
