(* ===== verification/SseRoundTrip.v ===== *)
(** * Server-sent events, read back

    The decoder of event streams of the HTML standard (9.2.6), byte by byte,
    without its UTF-8 step, and the proof that it reads back the frames of
    [sse_stream]. *)

From S2P Require Import Prelude Text Http Response.

(** ** The decoder of the standard *)

(** The complete lines of a stream: CR LF, CR and LF each end a line, what
    follows the last line end is not a line.  [cr]: the last byte was a CR. *)
Fixpoint stream_lines (cr : bool) (line : str) (s : str) : list str :=
  match s with
  | [] => []
  | c :: s' =>
    if is_char "013" c then line :: stream_lines true [] s'
    else if is_char "010" c then if cr then stream_lines false line s' else line :: stream_lines false [] s'
    else stream_lines false (line ++ [c]) s'
  end.

Inductive sse_output :=
| sse_message (event_type data last_event_id : str)
| sse_reconnection_time (milliseconds : N).

Record sse_decoder := SseDecoder { event_type : str; data_buffer : str; last_event_id : str }.

Definition strip_space (value : str) : str :=
  match value with c :: value' => if is_char " " c then value' else value | [] => [] end.

Definition decode_field (name value : str) (d : sse_decoder) : sse_decoder * list sse_output :=
  if bool_decide (name = lit "event") then (SseDecoder value (data_buffer d) (last_event_id d), [])
  else if bool_decide (name = lit "data") then (SseDecoder (event_type d) (data_buffer d ++ value ++ lf) (last_event_id d), [])
  else if bool_decide (name = lit "id") then
    (if existsb (is_char "000") value then d else SseDecoder (event_type d) (data_buffer d) value, [])
  else if bool_decide (name = lit "retry") then
    (d, match take_digits 10 value with (n :: ns, []) => [sse_reconnection_time (digits_value 10 (n :: ns))] | _ => [] end)
  else (d, []).

Definition decode_dispatch (d : sse_decoder) : sse_decoder * list sse_output :=
  (SseDecoder [] [] (last_event_id d),
   match data_buffer d with
   | [] => []
   | data =>
     [sse_message (match event_type d with [] => lit "message" | t => t end)
        (take (length data - 1) data) (last_event_id d)]
   end).

Definition decode_line (d : sse_decoder) (line : str) : sse_decoder * list sse_output :=
  match line with
  | [] => decode_dispatch d
  | _ =>
    match find_char ":" line with
    | Some O => (d, [])
    | Some i => decode_field (take i line) (strip_space (drop (S i) line)) d
    | None => decode_field line [] d
    end
  end.

Fixpoint decode_sse_lines (d : sse_decoder) (lines : list str) : sse_decoder * list sse_output :=
  match lines with
  | [] => (d, [])
  | line :: lines' =>
    let '(d1, out) := decode_line d line in
    let '(d2, out') := decode_sse_lines d1 lines' in (d2, out ++ out')
  end.

Definition decode_event_stream (s : str) : list sse_output := (decode_sse_lines (SseDecoder [] [] []) (stream_lines false [] s)).2.

(** ** What is sent, and what should arrive *)

Inductive sse_item := item_event (e : sse_event) | item_comment (value : str) | item_retry (value : Z).

Definition item_frame (i : sse_item) : option str :=
  match i with
  | item_event e => sse_event_frame e
  | item_comment value => Some (sse_comment_frame value)
  | item_retry value => sse_retry_frame value
  end.

(** CR LF and CR become LF. *)
Fixpoint normalize_newlines (s : str) : str :=
  match s with
  | [] => []
  | c :: s' =>
    if is_char "013" c then
      "010"%char :: (match s' with
                     | d :: s'' => if is_char "010" d then normalize_newlines s'' else normalize_newlines s'
                     | [] => [] end)
    else c :: normalize_newlines s'
  end.

Definition next_id (id : str) (e : sse_event) : str := match sse_id e with [] => id | id' => id' end.

Fixpoint sse_deliveries (id : str) (items : list sse_item) : list sse_output :=
  match items with
  | [] => []
  | item_event e :: items' =>
    sse_message (match sse_name e with [] => lit "message" | t => t end) (normalize_newlines (sse_data e)) (next_id id e)
      :: sse_deliveries (next_id id e) items'
  | item_comment _ :: items' => sse_deliveries id items'
  | item_retry value :: items' => sse_reconnection_time (Z.to_N value) :: sse_deliveries id items'
  end.

(** ** Lines *)

Definition is_line_end (c : ascii) : bool := is_char "013" c || is_char "010" c.

Lemma stream_lines_line line l s :
  none_of is_line_end line → stream_lines false l (line ++ lf ++ s) = (l ++ line) :: stream_lines false [] s.
Proof.
  intros H. revert l. induction H as [|c line Hc _ IH]; intros l.
  - cbn. by rewrite app_nil_r.
  - apply orb_false_iff in Hc as [H1 H2]. cbn [stream_lines app]. rewrite H1, H2.
    rewrite IH. by rewrite <-app_assoc.
Qed.

Definition unlines (lines : list str) : str := flat_map (λ line, line ++ lf) lines.

Lemma unlines_app a b : unlines (a ++ b) = unlines a ++ unlines b.
Proof. apply flat_map_app. Qed.

Lemma stream_lines_unlines lines s :
  Forall (none_of is_line_end) lines → stream_lines false [] (unlines lines ++ s) = lines ++ stream_lines false [] s.
Proof.
  induction 1 as [|line lines Hl _ IH]; [done|]. unfold unlines. cbn [flat_map].
  rewrite <-!app_assoc. rewrite stream_lines_line by done. cbn. f_equal. exact IH.
Qed.

Lemma sse_line_spec v :
  none_of is_line_end (sse_line v).1 ∧
  match (sse_line v).2 with
  | None => v = (sse_line v).1 ∧ normalize_newlines v = v
  | Some rest => (length rest < length v)%nat ∧ normalize_newlines v = (sse_line v).1 ++ lf ++ normalize_newlines rest
  end.
Proof.
  induction v as [|c v IH]; [by split_and!; [constructor|..]|]. cbn [sse_line normalize_newlines].
  destruct (is_char "013" c) eqn:E1; [|destruct (is_char "010" c) eqn:E2].
  - split; [constructor|]. cbn. destruct v as [|d v]; [by split; [lia|]|]. cbn.
    destruct (is_char "010" d); cbn; split; (lia || done).
  - apply is_char_true in E2 as <-. split; [constructor|]. cbn. split; [lia|done].
  - destruct (sse_line v) as [line [rest|]]; cbn in *; destruct IH as [IH1 IH2];
      (split; [constructor; [unfold is_line_end; by rewrite E1, E2|done]|]).
    + destruct IH2 as [IH2 ->]. split; [lia|done].
    + destruct IH2 as [-> ->]. done.
Qed.

(** The loop of [append_split_sse_lines] appends the lines of the text. *)
Lemma append_split_lines fuel f v :
  (length v < fuel)%nat → append_split_sse_lines fuel f v = flat_map f (split_on "010" (normalize_newlines v)).
Proof.
  revert v. induction fuel as [|fuel IH]; intros v Hf; [lia|]. cbn [append_split_sse_lines].
  destruct v as [|c v]; [cbn; by rewrite app_nil_r|]. pose proof (sse_line_spec (c :: v)) as [Hn Hs].
  assert (Hlf : ∀ x, is_char "010" x = true → is_line_end x = true) by (intros x Hx; unfold is_line_end; rewrite Hx; apply orb_true_r).
  destruct (sse_line (c :: v)) as [line [rest|]]; cbn [fst snd] in *; destruct Hs as [H1 ->].
  - cbn [app lf]. rewrite split_on_app by (eapply none_of_weaken; [exact Hlf|exact Hn]). cbn [flat_map]. rewrite IH by lia. done.
  - rewrite H1, split_on_none by (eapply none_of_weaken; [exact Hlf|exact Hn]). cbn. by rewrite app_nil_r.
Qed.

Lemma split_on_none_of (p : ascii → bool) c s : none_of p s → Forall (none_of p) (split_on c s).
Proof.
  induction 1 as [|x s Hx _ IH]; cbn [split_on]; [by repeat constructor|].
  destruct (is_char c x); [by repeat constructor|].
  destruct IH as [|seg segs Hs Hss]; repeat constructor; auto.
Qed.

Lemma normalize_no_cr s : none_of (is_char "013") (normalize_newlines s).
Proof.
  remember (length s) as n eqn:Hn. assert (H : (length s ≤ n)%nat) by lia. clear Hn. revert s H.
  induction n as [|n IH]; intros [|c s] H; cbn [length] in H; try lia; [constructor|constructor|]. cbn [normalize_newlines].
  destruct (is_char "013" c) eqn:E; [|constructor; [done|apply IH; lia]].
  constructor; [done|]. destruct s as [|d s]; [constructor|]. cbn [length] in H. destruct (is_char "010" d); apply IH; cbn; lia.
Qed.

Lemma data_lines_clean data : Forall (none_of is_line_end) (split_on "010" (normalize_newlines data)).
Proof.
  pose proof (split_on_segments "010" (normalize_newlines data)) as H1.
  pose proof (split_on_none_of _ "010" _ (normalize_no_cr data)) as H2. revert H1 H2.
  generalize (split_on "010" (normalize_newlines data)) as segs. intros segs H1. induction H1 as [|seg segs Hs _ IH]; [done|].
  intros [H2 H3]%Forall_cons. constructor; [|auto]. clear - Hs H2. unfold none_of in *.
  induction seg as [|c seg IH]; [done|]. apply Forall_cons in Hs as [A1 A2], H2 as [B1 B2].
  constructor; [unfold is_line_end; by rewrite A1, B1|auto].
Qed.

(** ** Fields *)

Definition field_text (field value : str) : str :=
  field ++ lit ":" ++ match value with [] => [] | _ => " "%char :: value end.

Lemma field_line_text field value : append_sse_field_line field value = field_text field value ++ lf.
Proof. unfold append_sse_field_line, field_text. by rewrite <-!app_assoc. Qed.

Lemma field_text_clean field value :
  none_of is_line_end field → none_of is_line_end value → none_of is_line_end (field_text field value).
Proof.
  intros Hf Hv. unfold field_text. rewrite !none_of_app. split_and!; [done|by repeat constructor|].
  destruct value; [constructor|]. constructor; [done|exact Hv].
Qed.

Lemma decode_field_text d field value :
  field ≠ [] → none_of (is_char ":") field → decode_line d (field_text field value) = decode_field field value d.
Proof.
  intros Hne Hf. unfold field_text. set (v := match value with [] => [] | _ => " "%char :: value end).
  assert (Hv : strip_space v = value) by (by destruct value).
  assert (Hfind : find_char ":" (field ++ ":"%char :: v) = Some (length field)) by (by apply find_if_here).
  assert (Hdrop : drop (S (length field)) (field ++ ":"%char :: v) = v).
  { rewrite drop_app_ge by lia. by replace (S (length field) - length field)%nat with 1%nat by lia. }
  assert (Htake : take (length field) (field ++ ":"%char :: v) = field) by apply take_app_length.
  change (field ++ lit ":" ++ v) with (field ++ ":"%char :: v). revert Hfind Hdrop Htake.
  generalize (field ++ ":"%char :: v) as line. intros line Hfind Hdrop Htake.
  destruct line as [|c line]; [done|]. unfold decode_line. rewrite Hfind.
  destruct field as [|c' field]; [done|]. cbn [length] in *. by rewrite Htake, Hdrop, Hv.
Qed.

Lemma decode_sse_lines_app d a b :
  decode_sse_lines d (a ++ b) =
  let '(d1, out) := decode_sse_lines d a in let '(d2, out') := decode_sse_lines d1 b in (d2, out ++ out').
Proof.
  revert d. induction a as [|l a IH]; intros d; cbn [app decode_sse_lines].
  - by destruct (decode_sse_lines d b).
  - destruct (decode_line d l) as [d1 o]. rewrite IH. destruct (decode_sse_lines d1 a) as [d2 o'].
    destruct (decode_sse_lines d2 b). by rewrite app_assoc.
Qed.

Lemma decode_sse_lines_cons d line lines :
  decode_sse_lines d (line :: lines) =
  let '(d1, out) := decode_line d line in let '(d2, out') := decode_sse_lines d1 lines in (d2, out ++ out').
Proof. done. Qed.

Lemma decode_data_lines segs t b id :
  decode_sse_lines (SseDecoder t b id) (map (field_text (lit "data")) segs) = (SseDecoder t (b ++ unlines segs) id, []).
Proof.
  revert b. induction segs as [|seg segs IH]; intros b; [cbn; by rewrite app_nil_r|].
  rewrite map_cons, decode_sse_lines_cons, decode_field_text by (done || by repeat constructor).
  change (decode_field (lit "data") seg (SseDecoder t b id)) with (SseDecoder t (b ++ seg ++ lf) id, @nil sse_output).
  cbv beta iota. rewrite IH. unfold unlines. cbn [flat_map]. by rewrite <-!app_assoc.
Qed.

Lemma unlines_join segs : segs ≠ [] → unlines segs = join_with "010" segs ++ lf.
Proof.
  induction segs as [|seg segs IH]; [done|]. intros _. destruct segs as [|seg' segs]; [by cbn; rewrite app_nil_r|].
  change (unlines (seg :: seg' :: segs)) with ((seg ++ lf) ++ unlines (seg' :: segs)).
  change (join_with "010" (seg :: seg' :: segs)) with (seg ++ lf ++ join_with "010" (seg' :: segs)).
  rewrite IH by done. by rewrite <-!app_assoc.
Qed.

(** ** Frames

    A frame is a list of lines without line ends that leaves the decoder clean. *)
Definition frame_lines (frame : str) (lines : list str) (id id' : str) (out : list sse_output) : Prop :=
  frame = unlines lines ∧ Forall (none_of is_line_end) lines ∧
  decode_sse_lines (SseDecoder [] [] id) lines = (SseDecoder [] [] id', out).

Lemma optional_field_line field value :
  (match value with [] => [] | _ => append_sse_field_line field value end) =
  unlines (match value with [] => [] | _ => [field_text field value] end).
Proof. destruct value; [done|]. rewrite field_line_text. unfold unlines. cbn [flat_map]. by rewrite app_nil_r. Qed.

Lemma data_lines_unlines data :
  append_sse_data_lines data = unlines (map (field_text (lit "data")) (split_on "010" (normalize_newlines data))).
Proof.
  unfold append_sse_data_lines. rewrite append_split_lines by lia. unfold unlines.
  induction (split_on _ _) as [|seg segs IH]; [done|]. cbn [flat_map map]. by rewrite IH, field_line_text.
Qed.

Lemma valid_field_clean value :
  contains_invalid_sse_field_byte value = false → none_of is_line_end value ∧ existsb (is_char "000") value = false.
Proof.
  induction value as [|c value IH]; [by split; [constructor|]|]. unfold contains_invalid_sse_field_byte. cbn [existsb].
  intros [[[H1 H2]%orb_false_iff H3]%orb_false_iff H4]%orb_false_iff. destruct (IH H4) as [IH1 IH2].
  split; [constructor; [unfold is_line_end; by rewrite H1, H2|done]|by rewrite H3].
Qed.

Lemma unlines_take segs : segs ≠ [] → take (length (unlines segs) - 1) (unlines segs) = join_with "010" segs.
Proof.
  intros H. rewrite unlines_join by done. rewrite length_app. cbn [length lf].
  replace (length (join_with "010" segs) + 1 - 1)%nat with (length (join_with "010" segs)) by lia. apply take_app_length.
Qed.

Lemma decode_event_dispatch t segs id :
  segs ≠ [] →
  decode_line (SseDecoder t (unlines segs) id) [] =
  (SseDecoder [] [] id, [sse_message (match t with [] => lit "message" | t => t end) (join_with "010" segs) id]).
Proof.
  intros Hs. cbn [decode_line]. unfold decode_dispatch. cbn [event_type data_buffer last_event_id].
  rewrite <-unlines_take by done. rewrite unlines_join by done. by destruct t, (join_with "010" segs).
Qed.

Lemma event_frame_lines e frame id :
  sse_event_frame e = Some frame →
  ∃ lines, frame_lines frame lines id (next_id id e)
    [sse_message (match sse_name e with [] => lit "message" | t => t end) (normalize_newlines (sse_data e)) (next_id id e)].
Proof.
  unfold sse_event_frame. intros H. destruct (_ || _) eqn:Hv in H; [done|]. injection H as <-.
  apply orb_false_iff in Hv as [Hn Hi]. apply valid_field_clean in Hn as [Hn _], Hi as [Hi Hz].
  set (segs := split_on "010" (normalize_newlines (sse_data e))).
  set (names := match sse_name e with [] => [] | _ => [field_text (lit "event") (sse_name e)] end).
  set (ids := match sse_id e with [] => [] | _ => [field_text (lit "id") (sse_id e)] end).
  exists (names ++ ids ++ map (field_text (lit "data")) segs ++ [[]]). unfold frame_lines. split_and!.
  - rewrite !optional_field_line, data_lines_unlines. fold segs names ids. by rewrite !unlines_app.
  - repeat apply Forall_app_2.
    + subst names. destruct (sse_name e); [done|]. constructor; [|done]. apply field_text_clean; [by repeat constructor|done].
    + subst ids. destruct (sse_id e); [done|]. constructor; [|done]. apply field_text_clean; [by repeat constructor|done].
    + pose proof (data_lines_clean (sse_data e)) as H. fold segs in H. induction H; [done|].
      constructor; [|done]. apply field_text_clean; [by repeat constructor|done].
    + repeat constructor.
  - assert (E1 : decode_sse_lines (SseDecoder [] [] id) names = (SseDecoder (sse_name e) [] id, [])).
    { subst names. destruct (sse_name e); [done|]. rewrite decode_sse_lines_cons.
      by rewrite decode_field_text by (done || by repeat constructor). }
    assert (E2 : decode_sse_lines (SseDecoder (sse_name e) [] id) ids = (SseDecoder (sse_name e) [] (next_id id e), [])).
    { subst ids. unfold next_id. destruct (sse_id e) as [|c v]; [done|]. rewrite decode_sse_lines_cons.
      rewrite decode_field_text by (done || by repeat constructor).
      change (decode_field (lit "id") (c :: v) (SseDecoder (sse_name e) [] id)) with
        (if existsb (is_char "000") (c :: v) then SseDecoder (sse_name e) [] id else SseDecoder (sse_name e) [] (c :: v), @nil sse_output).
      by rewrite Hz. }
    rewrite !decode_sse_lines_app, E1. cbv beta iota. rewrite !decode_sse_lines_app, E2. cbv beta iota.
    rewrite decode_sse_lines_app, decode_data_lines. cbv beta iota. rewrite decode_sse_lines_cons, app_nil_l.
    rewrite decode_event_dispatch by apply split_on_ne. cbv beta iota. subst segs. rewrite split_on_join. clear. by destruct (sse_name e).
Qed.

Lemma comment_frame_lines value id : ∃ lines, frame_lines (sse_comment_frame value) lines id id [].
Proof.
  set (segs := split_on "010" (normalize_newlines value)). exists (map (field_text []) segs ++ [[]]). unfold frame_lines. split_and!.
  - unfold sse_comment_frame, append_sse_comment_lines. rewrite append_split_lines by lia. fold segs.
    rewrite unlines_app. f_equal. unfold unlines. induction segs as [|seg segs IH]; [done|]. cbn [flat_map map]. by rewrite IH.
  - apply Forall_app_2; [|by repeat constructor]. pose proof (data_lines_clean value) as H. fold segs in H.
    induction H; [done|]. constructor; [|done]. apply field_text_clean; [by repeat constructor|done].
  - rewrite decode_sse_lines_app. assert (E : decode_sse_lines (SseDecoder [] [] id) (map (field_text []) segs) = (SseDecoder [] [] id, [])).
    { induction segs as [|seg segs' IH]; [done|]. rewrite map_cons, decode_sse_lines_cons.
      change (decode_line (SseDecoder [] [] id) (field_text [] seg)) with (SseDecoder [] [] id, @nil sse_output).
      cbv beta iota. by rewrite IH. }
    by rewrite E.
Qed.

Lemma retry_frame_lines value frame id :
  sse_retry_frame value = Some frame →
  ∃ lines, frame_lines frame lines id id [sse_reconnection_time (Z.to_N value)].
Proof.
  unfold sse_retry_frame. intros H. destruct (_ || _) in H; [done|]. injection H as <-.
  destruct (to_digits_value (S (N.size_nat (Z.to_N value))) 10 (Z.to_N value)) as (Hv & Hd & Hne); [lia..|].
  unfold to_string, to_chars. set (ds := to_digits _ _ _) in *.
  exists [field_text (lit "retry") (map digit_char ds); []]. unfold frame_lines. split_and!.
  - destruct ds; [done|]. unfold unlines. cbn [flat_map]. rewrite app_nil_r. unfold field_text. by rewrite <-!app_assoc.
  - constructor; [|by repeat constructor]. apply field_text_clean; [by repeat constructor|].
    apply Forall_map. eapply Forall_impl; [exact Hd|]. intros d Hlt. unfold compose, digit_char.
    cbv beta in Hlt. assert (d = 0 ∨ d = 1 ∨ d = 2 ∨ d = 3 ∨ d = 4 ∨ d = 5 ∨ d = 6 ∨ d = 7 ∨ d = 8 ∨ d = 9)%N as Hc by lia.
    by repeat destruct Hc as [-> | Hc]; subst.
  - rewrite !decode_sse_lines_cons, decode_field_text by (done || by repeat constructor).
    assert (E : take_digits 10 (map digit_char ds) = (ds, [])) by (rewrite <-(app_nil_r (map _ _)); by apply take_digits_map).
    change (decode_field (lit "retry") (map digit_char ds) (SseDecoder [] [] id)) with
      (SseDecoder [] [] id, match take_digits 10 (map digit_char ds) with
         (n :: ns, []) => [sse_reconnection_time (digits_value 10 (n :: ns))] | _ => [] end).
    rewrite E. destruct ds as [|n ns]; [done|]. by rewrite Hv.
Qed.

Lemma decode_frames items frames id :
  Forall2 (λ i frame, item_frame i = Some frame) items frames →
  (decode_sse_lines (SseDecoder [] [] id) (stream_lines false [] (concat frames))).2 = sse_deliveries id items.
Proof.
  intros H. revert id. induction H as [|i frame items frames Hi _ IH]; intros id; [done|].
  assert (Hstep : ∃ lines id' out, frame_lines frame lines id id' out ∧
            sse_deliveries id (i :: items) = out ++ sse_deliveries id' items).
  { destruct i as [e|value|value]; cbn [item_frame] in Hi.
    - destruct (event_frame_lines e frame id Hi) as [lines Hl]. eexists lines, _, _. split; [exact Hl|done].
    - injection Hi as <-. destruct (comment_frame_lines value id) as [lines Hl]. eexists lines, _, _. split; [exact Hl|done].
    - destruct (retry_frame_lines value frame id Hi) as [lines Hl]. eexists lines, _, _. split; [exact Hl|done]. }
  destruct Hstep as (lines & id' & out & (-> & Hc & Hd) & ->). cbn [concat].
  rewrite stream_lines_unlines, decode_sse_lines_app, Hd by done. cbv beta iota.
  specialize (IH id'). destruct (decode_sse_lines _ _) as [d o]. cbn [snd] in *. by rewrite IH.
Qed.

(** C25: A standard event-stream decoder reads back the frames of any events,
    comments and retry delays, sent one after the other: each event with its
    name, its data up to the kind of line ends, and the last identifier sent;
    comments vanish. *)
Theorem sse_roundtrip (items : list sse_item) (frames : list str) :
  Forall2 (λ i frame, item_frame i = Some frame) items frames →
  decode_event_stream (concat frames) = sse_deliveries [] items.
Proof. apply decode_frames. Qed.

Definition sample_items : list sse_item :=
  [item_retry 1500; item_comment (lit "hello");
   item_event (SseEvent (lit "tick") (lit "7") (lit " a:b" ++ ["013"%char; "010"%char] ++ lit "data: c" ++ ["013"%char]));
   item_event (SseEvent [] [] [])].

Lemma sse_roundtrip_witness :
  decode_event_stream (concat (omap item_frame sample_items)) =
  [sse_reconnection_time 1500;
   sse_message (lit "tick") (lit " a:b" ++ lf ++ lit "data: c" ++ lf) (lit "7"); sse_message (lit "message") [] (lit "7")].
Proof. apply (sse_roundtrip sample_items). repeat constructor. Defined.
