(* ===== verification/RouteHandlers.v ===== *)
(** * Route handlers

    The wrappers of [include/uvpp/protocols/http/router.hpp] that turn what a
    user registers into the one type of handler that a router keeps: what a
    handler gets is the request, the buffered body and the body stream, and each
    body policy passes a part of it on, or answers itself when the body is not
    what the policy asks for.

    A handler is a procedure on a state that holds the response
    ([ResponseStore]) and the multipart stream that a wrapper makes
    ([MultipartStore]).  The JSON library is an argument: its parser and, for a
    type that is decoded, the conversion. *)

From S2P Require Import Prelude Text Http Request HttpError Multipart MultipartForm MultipartStream Response.

Open Scope Z_scope.

(** ** Media types *)

Definition is_ows_char (c : ascii) : bool := is_char " " c || is_char "009" c.

Fixpoint remove_ows_prefix (value : str) : str :=
  match value with
  | c :: rest => if is_ows_char c then remove_ows_prefix rest else value
  | [] => []
  end.

(** The two loops drop from the front, then from the back. *)
Definition trim_http_ows (value : str) : str := reverse (remove_ows_prefix (reverse (remove_ows_prefix value))).

Fixpoint equal_letters (lhs rhs : str) : bool :=
  match lhs, rhs with
  | l :: lhs', r :: rhs' => Ascii.eqb (tolower l) (tolower r) && equal_letters lhs' rhs'
  | _, _ => true
  end.

Definition ascii_iequals (lhs rhs : str) : bool :=
  if negb (length lhs =? length rhs)%nat then false else equal_letters lhs rhs.

Definition ascii_iends_with (value suffix : str) : bool :=
  (length suffix <=? length value)%nat && ascii_iequals (drop (length value - length suffix) value) suffix.

Definition is_json_content_type (content_type : str) : bool :=
  let media_type := trim_http_ows (take (default (length content_type) (find_char ";" content_type)) content_type) in
  match media_type with
  | [] => false
  | _ =>
    if ascii_iequals media_type (lit "application/json") then true
    else
      match find_char "/" media_type with
      | None => false
      | Some slash_offset =>
        (slash_offset + 1 <? length media_type)%nat &&
        ascii_iends_with (drop (slash_offset + 1) media_type) (lit "+json")
      end
  end.

(** ** Handlers *)

(** The multipart stream of a request, as part of the state. *)
Class MultipartStore (S : Type) := {
  mget : S → multipart_stream_state;
  mput : multipart_stream_state → S → S
}.

Inductive hook_result := hook_next | hook_stop.

Section handlers.
Context {S B J : Type} `{!ResponseStore S, !MultipartStore S}.
Context (emit : response_event → proc S).
(** [uvp::json::parse]: [None] is a [parse_error]. *)
Context (json_parse : str → option J).
Local Open Scope response_scope.

(** Of the body stream a handler gets a handle; only the policies that stream
    look at it. *)
Definition route_handler := request → str → B → proc S.
Definition hook_type := request → S → S * (response_exn + hook_result).

Definition wrap_none_handler (handler : request → proc S) : route_handler := λ req _ _, handler req.

Definition wrap_bytes_handler (handler : request → str → proc S) : route_handler := λ req body _, handler req body.

Definition wrap_text_handler (handler : request → str → proc S) : route_handler := λ req body _, handler req body.

(** [res.status(code).text(body)]. *)
Definition reply (code : Z) (body : str) : proc S := status code;; text emit body.

(** [get] is [parsed.get<T>()], where [None] is an exception; for [T] the JSON
    type itself there is no conversion, which is [Some]. *)
Definition wrap_json_handler {T} (get : J → option T) (handler : request → T → proc S) : route_handler :=
  λ req body _,
    if negb (is_json_content_type (request_header req (lit "content-type"))) then
      reply 415 (lit "unsupported media type" ++ lf)
    else
      match json_parse body with
      | None => reply 400 (lit "invalid json" ++ lf)
      | Some parsed =>
        match get parsed with
        | None => reply 422 (lit "invalid json body" ++ lf)
        | Some decoded => handler req decoded
        end
      end.

Definition wrap_stream_handler (handler : request → B → proc S) : route_handler := λ req _ body, handler req body.

Definition multipart_error_status (e : error) : Z :=
  if bool_decide (error_code_of e = http_code unsupported_media_type) then 415
  else if bool_decide (error_code_of e = http_code multipart_limit_exceeded) then 413
  else 400.

(** [multipart.error()], the default error when there is none. *)
Definition multipart_error (m : multipart_stream_state) : error :=
  default (Error (other_code 0) []) (construction_error m).

Definition wrap_multipart_stream_handler (handler : request → proc S) (options : multipart_limits) : route_handler :=
  λ req _ _ s,
    let multipart := make_stream (request_header req (lit "content-type")) options in
    let s := mput multipart s in
    if negb (valid multipart) then
      reply (multipart_error_status (multipart_error multipart)) (detail (multipart_error multipart) ++ lf) s
    else
      (handler req;;
       λ s, if negb (has_on_error (mget s)) && negb (ended (rget s)) && negb (streaming (rget s))
            then reply 500 (lit "multipart on_error handler required" ++ lf) s
            else (s, None)) s.

Definition wrap_multipart_form_handler (handler : request → multipart_form → proc S) (options : multipart_form_options)
    : route_handler :=
  λ req body _,
    match parse_multipart_form (request_header req (lit "content-type")) body options with
    | Err e => reply (multipart_error_status e) (detail e ++ lf)
    | Ok form => handler req form
    end.

(** A hook returns a [hook_result] or nothing. *)
Inductive user_hook :=
| returns_result (handler : request → S → S * (response_exn + hook_result))
| returns_void (handler : request → proc S).

Definition wrap_hook (handler : user_hook) : hook_type := λ req s,
  match handler with
  | returns_result h => h req s
  | returns_void h =>
    match h req s with
    | (s, None) => (s, inr hook_next)
    | (s, Some e) => (s, inl e)
    end
  end.
End handlers.

#[global] Arguments route_handler : clear implicits.
#[global] Arguments hook_type : clear implicits.
#[global] Arguments user_hook : clear implicits.

(** * What the wrapped handlers promise

    Which bodies reach a JSON handler and which are answered with which status
    ([json_handler_outcome]), which media types count as JSON
    ([json_content_type]), and when a multipart route answers by itself. *)

Open Scope Z_scope.

(** ** Media types *)

Lemma equal_letters_spec lhs rhs :
  length lhs = length rhs → equal_letters lhs rhs = true ↔ lowercase lhs = lowercase rhs.
Proof.
  unfold lowercase. revert rhs. induction lhs as [|l lhs IH]; intros [|r rhs] Hl; try done. cbn.
  rewrite andb_true_iff, Ascii.eqb_eq, IH by (cbn in Hl; lia). split; [by intros [-> ->]|]. by intros [= -> ->].
Qed.

Lemma ascii_iequals_spec lhs rhs : ascii_iequals lhs rhs = true ↔ lowercase lhs = lowercase rhs.
Proof.
  unfold ascii_iequals. destruct (Nat.eqb_spec (length lhs) (length rhs)) as [Hl|Hl]; cbn [negb].
  - by apply equal_letters_spec.
  - split; [done|]. intros H%(f_equal length). by rewrite !length_lowercase in H.
Qed.

Lemma ascii_iends_with_spec value suffix :
  ascii_iends_with value suffix = true ↔ ∃ front back, value = front ++ back ∧ lowercase back = lowercase suffix.
Proof.
  unfold ascii_iends_with. rewrite andb_true_iff, Nat.leb_le, ascii_iequals_spec. split.
  - intros [Hl H]. exists (take (length value - length suffix) value), (drop (length value - length suffix) value).
    by rewrite take_drop.
  - intros (front & back & -> & H). pose proof (f_equal length H) as Hl. rewrite !length_lowercase in Hl.
    rewrite length_app. split; [lia|]. replace (length front + length back - length suffix)%nat with (length front) by lia.
    by rewrite drop_app_length.
Qed.

(** The media type of a Content-Type: without parameters and blanks. *)
Definition media_type_of (content_type : str) : str :=
  trim_http_ows (take (default (length content_type) (find_char ";" content_type)) content_type).

(** A content type is taken as JSON if and only if its media type is
    application/json or has a subtype that ends in +json, letters compared
    without case. *)
Theorem json_content_type content_type :
  is_json_content_type content_type = true ↔
  lowercase (media_type_of content_type) = lit "application/json" ∨
  ∃ ty front back, media_type_of content_type = ty ++ "/"%char :: front ++ back ∧ none_of (is_char "/") ty ∧
    lowercase back = lit "+json".
Proof.
  unfold is_json_content_type. fold (media_type_of content_type).
  assert (Happ : lowercase (lit "application/json") = lit "application/json") by reflexivity.
  assert (Hplus : lowercase (lit "+json") = lit "+json") by reflexivity.
  destruct (media_type_of content_type) as [|c media] eqn:E.
  { split; [done|]. intros [[=]|([] & ? & ? & [=] & _)]. }
  rewrite <-E. destruct (ascii_iequals (media_type_of content_type) (lit "application/json")) eqn:Ei.
  { apply ascii_iequals_spec in Ei. rewrite Happ in Ei. split; [by left|done]. }
  assert (Hno : lowercase (media_type_of content_type) ≠ lit "application/json").
  { rewrite <-Happ. intros H%ascii_iequals_spec. congruence. }
  clear E c media. generalize dependent (media_type_of content_type). clear content_type. intros media Ei Hno.
  unfold find_char. destruct (find_if (is_char "/") media) as [i|] eqn:Ef.
  - apply find_if_Some in Ef as (ty & x & rest & -> & <- & Hx & Hty). apply is_char_true in Hx as <-.
    replace (length ty + 1)%nat with (length (ty ++ ["/"%char])) by (rewrite length_app; cbn; lia).
    change (ty ++ "/"%char :: rest) with (ty ++ ["/"%char] ++ rest). rewrite app_assoc, drop_app_length.
    rewrite andb_true_iff, ascii_iends_with_spec, Hplus, Nat.ltb_lt. rewrite <-app_assoc. cbn [app]. split.
    + intros [_ (front & back & -> & H)]. right. by exists ty, front, back.
    + intros [?|(ty' & front & back & Heq & Hty' & H)]; [done|].
      assert (ty' = ty ∧ front ++ back = rest) as [-> <-].
      { clear -Heq Hty Hty'. revert ty' Heq Hty'. induction ty as [|t ty IH]; intros [|t' ty'] Heq Hty'; cbn in *; simplify_eq.
        - done.
        - apply Forall_cons in Hty' as [Ht' _]. by rewrite is_char_refl in Ht'.
        - apply Forall_cons in Hty as [Ht _]. by rewrite is_char_refl in Ht.
        - apply Forall_cons in Hty as [_ Hty]. apply Forall_cons in Hty' as [_ Hty'].
          destruct (IH Hty ty') as [-> ->]; done. }
      split; [|by exists front, back]. rewrite !length_app. apply (f_equal length) in H. rewrite length_lowercase in H.
      change (length (lit "+json")) with 5%nat in H.
      cbn. rewrite length_app. lia.
  - split; [done|]. intros [?|(ty' & front & back & -> & _ & _)]; [done|]. apply find_if_None in Ef.
    apply Forall_app in Ef as [_ [Hc _]%Forall_cons]. by rewrite is_char_refl in Hc.
Qed.

(** ** Replies *)

(** What is put is what is there. *)
Class LawfulStore (S : Type) `{!ResponseStore S} := {
  rget_rput r s : rget (rput r s : S) = r;
  rput_rput r r' s : rput r (rput r' s) = (rput r s : S)
}.

#[global] Instance self_lawful : LawfulStore response_state.
Proof. by split. Qed.

(** The response after [status(code).text(body)], before its completion is
    told. *)
Definition replied (code : Z) (body : str) (r : response_state) : response_state :=
  set_flags true false false false
    (set_body body (set_head code (headers_set (rs_headers r) (lit "content-type") (lit "text/plain; charset=utf-8")) r)).

(** A response that nobody has touched in a way that commits it. *)
Definition open_response (r : response_state) : Prop :=
  active r = true ∧ headers_committed r = false ∧ streaming r = false.

Section spec.
Context {S B J : Type} `{!ResponseStore S, !LawfulStore S, !MultipartStore S}.
Context (emit : response_event → proc S) (json_parse : str → option J).

Definition tell_complete : proc S := guard has_complete (emit ev_complete) done.

Lemma reply_runs code body (s : S) :
  100 ≤ code ≤ 999 → open_response (rget s) →
  reply emit code body s = tell_complete (rput (replied code body (rget s)) s).
Proof.
  intros Hcode (Ha & Hh & Hs). unfold reply, status, seq.
  destruct (Z.ltb_spec code 100), (Z.ltb_spec 999 code); try lia. cbn [orb]. unfold guard at 1. rewrite Hh.
  unfold update at 1. unfold text, guard at 1. rewrite rget_rput. cbn [streaming set_head]. rewrite Hs.
  unfold type, header, seq, guard at 1. rewrite rget_rput. cbn [headers_committed set_head]. rewrite Hh.
  unfold update at 1. rewrite rget_rput. unfold update at 1. rewrite rget_rput. unfold end_, guard at 1.
  rewrite rget_rput. cbn [streaming set_head set_body]. rewrite Hs. unfold complete, guard at 1. rewrite rget_rput.
  assert (Hact : ∀ c h b, active (set_body b (set_head c h (set_head code (rs_headers (rget s)) (rget s)))) = true).
  { intros c h b. destruct (rget s). done. }
  rewrite Hact. unfold seq, update. rewrite rget_rput, !rput_rput. unfold tell_complete.
  unfold active in Ha. apply andb_true_iff in Ha as [_ Hc%negb_true_iff].
  f_equal. unfold replied. destruct (rget s); cbn in *. subst. done.
Qed.

(** A JSON handler is called if and only if the content type is JSON, the body
    parses and the value converts; it is called once, with the converted
    value, on the state as it is.  Otherwise the response is completed with
    415, 400 or 422, the first that applies, and the handler is not called. *)
Theorem json_handler_outcome {T} (get : J → option T) (handler : request → T → proc S) req body (stream : B) (s : S)
    (Hopen : open_response (rget s)) :
  wrap_json_handler emit json_parse get handler req body stream s =
    if is_json_content_type (request_header req (lit "content-type")) then
      match json_parse body with
      | Some value =>
        match get value with
        | Some decoded => handler req decoded s
        | None => tell_complete (rput (replied 422 (lit "invalid json body" ++ lf) (rget s)) s)
        end
      | None => tell_complete (rput (replied 400 (lit "invalid json" ++ lf) (rget s)) s)
      end
    else tell_complete (rput (replied 415 (lit "unsupported media type" ++ lf) (rget s)) s).
Proof.
  unfold wrap_json_handler. destruct (is_json_content_type _); cbn [negb]; [|by apply reply_runs; [lia|]].
  destruct (json_parse body) as [v|]; [|by apply reply_runs; [lia|]].
  destruct (get v); [done|by apply reply_runs; [lia|]].
Qed.

Lemma multipart_error_status_range e : 100 ≤ multipart_error_status e ≤ 999.
Proof. unfold multipart_error_status. repeat case_bool_decide; lia. Qed.

(** A form handler gets the form that the parser returns; a body that is not a
    form is answered with the status of its error and the error's text. *)
Theorem form_handler_outcome (handler : request → multipart_form → proc S) options req body (stream : B) (s : S)
    (Hopen : open_response (rget s)) :
  wrap_multipart_form_handler emit handler options req body stream s =
    match parse_multipart_form (request_header req (lit "content-type")) body options with
    | Ok form => handler req form s
    | Err e => tell_complete (rput (replied (multipart_error_status e) (detail e ++ lf) (rget s)) s)
    end.
Proof.
  unfold wrap_multipart_form_handler. destruct (parse_multipart_form _ _ _) as [form|e]; [done|].
  apply reply_runs; [apply multipart_error_status_range|done].
Qed.
End spec.
