(* ===== verification/RouterApi.v ===== *)
(** * Registering routes

    The public interface of [include/uvpp/protocols/http/router.hpp] over the
    trie: route options, the overloads of [route] for the body policies, the
    verbs, and the two views of a router that put a prefix or a pattern before
    every call, [route_group] and [route_resource].  A view holds a reference to
    its router, which its calls take and return here.

    A [route_body] is a handler together with its policy.  The overloads that
    take no policy infer it from the type of the handler, which has to be done
    before; those that take no options pass [default_route_options]. *)

From S2P Require Import Prelude Text Http UrlEncoding RoutePath Router RouterTheory RouterInv RouterMount.
From S2P Require Import RouterMountTheory RouterMountSpec RouterSpec Request Multipart MultipartForm MultipartStream.
From S2P Require Import Response RouteHandlers.

(** ** Options *)

Record route_options := RouteOptions { ro_max_body_bytes : Z; ro_body_timeout : Z }.

Definition default_route_options : route_options := RouteOptions 0 0.

Definition options_max_body_bytes (value : Z) (o : route_options) : route_options := RouteOptions value (ro_body_timeout o).

(** Milliseconds; the only setter that throws. *)
Definition options_body_timeout (value : Z) (o : route_options) : result str route_options :=
  if (value <? 0)%Z then Err (lit "body_timeout must not be negative") else Ok (RouteOptions (ro_max_body_bytes o) value).

Definition inherit_body_timeout (o : route_options) : route_options := RouteOptions (ro_max_body_bytes o) 0.

Section api.
Context {S B J response_hook exception_handler : Type} `{!ResponseStore S, !MultipartStore S, !StaticOrder}.
Context (emit : response_event → proc S) (json_parse : str → option J).
Local Abbreviation handler := (route_handler S B).
Local Abbreviation router := (router handler (hook_type S) response_hook exception_handler).
Local Abbreviation outcome := (router * result str ())%type.
Implicit Types (r : router) (mth : method) (pattern prefix : str) (o : route_options).

(** ** Body policies *)

Definition route_none r mth pattern o (h : request → proc S) : outcome :=
  add_route r mth pattern body_none 0 (ro_body_timeout o) (wrap_none_handler h).

Definition route_bytes r mth pattern o (h : request → str → proc S) : outcome :=
  add_route r mth pattern body_bytes (ro_max_body_bytes o) (ro_body_timeout o) (wrap_bytes_handler h).

Definition route_text r mth pattern o (h : request → str → proc S) : outcome :=
  add_route r mth pattern body_text (ro_max_body_bytes o) (ro_body_timeout o) (wrap_text_handler h).

Definition route_json {T} r mth pattern o (get : J → option T) (h : request → T → proc S) : outcome :=
  add_route r mth pattern body_json (ro_max_body_bytes o) (ro_body_timeout o) (wrap_json_handler emit json_parse get h).

Definition route_stream r mth pattern o (h : request → B → proc S) : outcome :=
  add_route r mth pattern body_stream (ro_max_body_bytes o) (ro_body_timeout o) (wrap_stream_handler h).

(** Without a limit of its own a multipart route takes the one of its policy. *)
Definition route_multipart_stream r mth pattern o (policy : multipart_limits) (h : request → proc S) : outcome :=
  let body_limit := if (ro_max_body_bytes o =? 0)%Z then max_total_bytes policy else ro_max_body_bytes o in
  add_route r mth pattern body_multipart_stream body_limit (ro_body_timeout o) (wrap_multipart_stream_handler emit h policy).

Definition route_multipart_form r mth pattern o (policy : multipart_form_options) (h : request → multipart_form → proc S)
    : outcome :=
  let body_limit := if (ro_max_body_bytes o =? 0)%Z then max_total_bytes (limits policy) else ro_max_body_bytes o in
  add_route r mth pattern body_multipart_form body_limit (ro_body_timeout o) (wrap_multipart_form_handler emit h policy).

Inductive route_body :=
| with_none (h : request → proc S)
| with_bytes (h : request → str → proc S)
| with_text (h : request → str → proc S)
| with_json {T : Type} (get : J → option T) (h : request → T → proc S)
| with_stream (h : request → B → proc S)
| with_multipart_stream (policy : multipart_limits) (h : request → proc S)
| with_multipart_form (policy : multipart_form_options) (h : request → multipart_form → proc S).

(** The overload that a policy selects. *)
Definition route r mth pattern o (b : route_body) : outcome :=
  match b with
  | with_none h => route_none r mth pattern o h
  | with_bytes h => route_bytes r mth pattern o h
  | with_text h => route_text r mth pattern o h
  | with_json get h => route_json r mth pattern o get h
  | with_stream h => route_stream r mth pattern o h
  | with_multipart_stream policy h => route_multipart_stream r mth pattern o policy h
  | with_multipart_form policy h => route_multipart_form r mth pattern o policy h
  end.

Definition router_get r pattern o (b : route_body) : outcome := route r m_get pattern o b.
Definition router_post r pattern o (b : route_body) : outcome := route r m_post pattern o b.
Definition router_put r pattern o (b : route_body) : outcome := route r m_put pattern o b.
Definition router_patch r pattern o (b : route_body) : outcome := route r m_patch pattern o b.
Definition router_delete r pattern o (b : route_body) : outcome := route r m_delete pattern o b.
Definition router_head r pattern o (b : route_body) : outcome := route r m_head pattern o b.
Definition router_options r pattern o (b : route_body) : outcome := route r m_options pattern o b.

(** ** Hooks of the whole router *)

Definition router_on_request r (h : user_hook S) : outcome := add_on_request_hook r [] (wrap_hook h).
Definition router_pre_handler r (h : user_hook S) : outcome := add_pre_handler_hook r [] (wrap_hook h).
Definition router_on_response r (h : response_hook) : outcome := add_on_response_hook r [] h.

(** ** Resources: several methods of one pattern *)

Record route_resource := RouteResource { rr_pattern : str }.

Definition router_resource pattern : route_resource := RouteResource (join_route_pattern [] pattern).

Definition resource_route r (p : route_resource) mth o (b : route_body) : outcome := route r mth (rr_pattern p) o b.
Definition resource_get r (p : route_resource) o (b : route_body) : outcome := router_get r (rr_pattern p) o b.
Definition resource_post r (p : route_resource) o (b : route_body) : outcome := router_post r (rr_pattern p) o b.
Definition resource_put r (p : route_resource) o (b : route_body) : outcome := router_put r (rr_pattern p) o b.
Definition resource_patch r (p : route_resource) o (b : route_body) : outcome := router_patch r (rr_pattern p) o b.
Definition resource_delete r (p : route_resource) o (b : route_body) : outcome := router_delete r (rr_pattern p) o b.
Definition resource_head r (p : route_resource) o (b : route_body) : outcome := router_head r (rr_pattern p) o b.
Definition resource_options r (p : route_resource) o (b : route_body) : outcome := router_options r (rr_pattern p) o b.

(** ** Groups: everything below one prefix *)

Record route_group := RouteGroup { rg_prefix : str }.

Definition router_group prefix : route_group := RouteGroup (normalize_group_prefix prefix).

Definition route_pattern (g : route_group) pattern : str := join_route_pattern (rg_prefix g) pattern.

Definition group_group (g : route_group) prefix : route_group := RouteGroup (route_pattern g prefix).
Definition group_resource (g : route_group) pattern : route_resource := RouteResource (route_pattern g pattern).

Definition group_on_request r (g : route_group) (h : user_hook S) : outcome := add_on_request_hook r (rg_prefix g) (wrap_hook h).
Definition group_pre_handler r (g : route_group) (h : user_hook S) : outcome := add_pre_handler_hook r (rg_prefix g) (wrap_hook h).
Definition group_on_response r (g : route_group) (h : response_hook) : outcome := add_on_response_hook r (rg_prefix g) h.
Definition group_not_found r (g : route_group) (h : request → proc S) : outcome :=
  add_not_found_handler r (rg_prefix g) (wrap_none_handler h).
Definition group_on_exception r (g : route_group) (h : exception_handler) : outcome := add_exception_handler r (rg_prefix g) h.

Definition group_mount r (g : route_group) prefix (source : mount_source handler (hook_type S) response_hook exception_handler) :=
  mount r (route_pattern g prefix) source.

Definition group_route r (g : route_group) mth pattern o (b : route_body) : outcome := route r mth (route_pattern g pattern) o b.
Definition group_get r (g : route_group) pattern o (b : route_body) : outcome := router_get r (route_pattern g pattern) o b.
Definition group_post r (g : route_group) pattern o (b : route_body) : outcome := router_post r (route_pattern g pattern) o b.
Definition group_put r (g : route_group) pattern o (b : route_body) : outcome := router_put r (route_pattern g pattern) o b.
Definition group_patch r (g : route_group) pattern o (b : route_body) : outcome := router_patch r (route_pattern g pattern) o b.
Definition group_delete r (g : route_group) pattern o (b : route_body) : outcome := router_delete r (route_pattern g pattern) o b.
Definition group_head r (g : route_group) pattern o (b : route_body) : outcome := router_head r (route_pattern g pattern) o b.
Definition group_options r (g : route_group) pattern o (b : route_body) : outcome := router_options r (route_pattern g pattern) o b.
End api.

#[global] Arguments route_body : clear implicits.

(** * What the public interface registers

    Whatever groups and resources a route is registered through, it ends up
    under the segments of all their prefixes followed by those of its pattern,
    with the limits of its options and policy. *)

(** ** Options *)

(** The options that the setters can make. *)
Inductive built : route_options → Prop :=
| built_default : built default_route_options
| built_max_body_bytes v o : built o → built (options_max_body_bytes v o)
| built_body_timeout v o o' : built o → options_body_timeout v o = Ok o' → built o'
| built_inherit o : built o → built (inherit_body_timeout o).

Lemma built_timeout o : built o → (0 ≤ ro_body_timeout o)%Z.
Proof.
  induction 1 as [|v o _ IH|v o o' _ IH Hset|o _ IH]; cbn; [done|done| |done].
  unfold options_body_timeout in Hset. destruct (Z.ltb_spec v 0); [done|]. by injection Hset as <-.
Qed.

Section spec.
Context {S B J response_hook exception_handler : Type} `{!ResponseStore S, !MultipartStore S, !StaticOrder}.
Context (emit : response_event → proc S) (json_parse : str → option J).
Local Abbreviation handler := (route_handler S B).
Local Abbreviation router := (router handler (hook_type S) response_hook exception_handler).
Local Abbreviation route_body := (route_body S B J).
Implicit Types (r : router) (mth : method) (pattern prefix : str) (o : route_options) (m : route_path_matching).

(** ** What a policy records *)

Definition mode_of (b : route_body) : body_mode :=
  match b with
  | with_none _ => body_none | with_bytes _ => body_bytes | with_text _ => body_text | with_json _ _ => body_json
  | with_stream _ => body_stream | with_multipart_stream _ _ => body_multipart_stream
  | with_multipart_form _ _ => body_multipart_form
  end.

(** Zero stands for the default of the server. *)
Definition limit_of o (b : route_body) : Z :=
  let own_or (limit : Z) := if (ro_max_body_bytes o =? 0)%Z then limit else ro_max_body_bytes o in
  match b with
  | with_none _ => 0
  | with_multipart_stream policy _ => own_or (max_total_bytes policy)
  | with_multipart_form policy _ => own_or (max_total_bytes (limits policy))
  | _ => ro_max_body_bytes o
  end.

Lemma route_registers_limits r mth pattern o (b : route_body) :
  ∃ h, route emit json_parse r mth pattern o b = add_route r mth pattern (mode_of b) (limit_of o b) (ro_body_timeout o) h.
Proof. destruct b; by eexists. Qed.

(** ** Groups *)

Definition open_groups prefix (prefixes : list str) : route_group := foldl group_group (router_group prefix) prefixes.

Lemma prefix_key_group m g pattern :
  RoutePath.valid (parse_route_path (rg_prefix g)) = true →
  prefix_key m (route_pattern g pattern) = prefix_key m (rg_prefix g) ++ prefix_key m pattern.
Proof. apply prefix_key_join. Qed.

Lemma prefix_key_normalize m prefix : prefix_key m (normalize_group_prefix prefix) = prefix_key m prefix.
Proof. unfold prefix_key. by rewrite parse_normalize. Qed.

Lemma open_groups_key m prefix prefixes :
  RoutePath.valid (parse_route_path (rg_prefix (open_groups prefix prefixes))) = true →
  prefix_key m (rg_prefix (open_groups prefix prefixes)) = concat (map (prefix_key m) (prefix :: prefixes)).
Proof.
  induction prefixes as [|p prefixes IH] using rev_ind; unfold open_groups in *.
  - intros _. cbn. by rewrite prefix_key_normalize, app_nil_r.
  - rewrite foldl_app. cbn [foldl]. set (g := foldl group_group (router_group prefix) prefixes) in *.
    cbn [rg_prefix group_group]. unfold route_pattern. intros Hv. pose proof (valid_join _ _ Hv) as Hg.
    rewrite prefix_key_join, IH by done. cbn [map concat]. rewrite map_app, concat_app. cbn. by rewrite app_nil_r, app_assoc.
Qed.

(** A route that is registered through nested groups is the route of the
    joined prefixes and pattern, whatever slashes they are written with; it
    has the mode of its policy, the timeout of its options and the limit of
    its options or, for a multipart policy without one, the policy's. *)
Theorem group_route_registered m r R L prefix prefixes mth pattern o (b : route_body) r'
    (Hr : registers m r R L)
    (Hroute : group_route emit json_parse r (open_groups prefix prefixes) mth pattern o b = (r', Ok ())) :
  ∃ t, registers m r' (R ++ [(mth, t)]) L ∧
    target_key m t = concat (map (prefix_key m) (prefix :: prefixes ++ [pattern])) ∧
    t_body t = mode_of b ∧ t_max_body_bytes t = limit_of o b ∧ t_body_timeout t = ro_body_timeout o.
Proof.
  unfold group_route in Hroute. set (g := open_groups prefix prefixes) in *.
  destruct (route_registers_limits r mth (route_pattern g pattern) o b) as [h Hh]. rewrite Hh in Hroute.
  eexists. split; [by eapply reg_route|]. split; [|done]. unfold target_key. cbn [t_pattern].
  change (pattern_edges (parse_route_path ?p) m) with (prefix_key m p). rewrite prefix_key_join by done.
  assert (Hv : RoutePath.valid (parse_route_path (route_pattern g pattern)) = true).
  { destruct (add_route_inv _ _ _ _ _ _ _ _ _ (ri_wf _ _ _ _ (registers_inv _ _ _ _ Hr)) Hroute) as (_ & Hv & _).
    cbn [t_pattern] in Hv. by rewrite parse_join in Hv. }
  change (prefix_key m []) with (@nil edge). cbn [app]. unfold route_pattern in *.
  pose proof (valid_join _ _ Hv) as Hg. rewrite prefix_key_join by done. unfold g in *. rewrite open_groups_key by done.
  cbn [map concat]. rewrite map_app, concat_app. cbn. by rewrite app_nil_r, app_assoc.
Qed.
End spec.

(** ** A sample *)

#[local] Existing Instance some_order.

Module Sample.
Definition cell : Type := response_state * multipart_stream_state.
#[global] Instance cell_response : ResponseStore cell := {| rget s := s.1; rput r s := (r, s.2) |}.
#[global] Instance cell_multipart : MultipartStore cell := {| mget s := s.2; mput m s := (s.1, m) |}.

Definition handle (req : request) (form : multipart_form) : proc cell := text (λ _, done) (lit "ok").
Definition upload : @route_body cell () () := with_multipart_form default_form_options handle.

Definition before : router (route_handler cell ()) (hook_type cell) () () := empty_router matching_percent_decoded_segments.
Definition registered := group_route (λ _, done) (λ _, None) before (open_groups (lit "/api/") [lit "v1"; lit "//users"]) m_post
  (lit "/:id/") (RouteOptions 0 500) upload.
End Sample.

Lemma group_route_registered_witness :
  ∃ t, t_body t = body_multipart_form ∧ t_max_body_bytes t = max_total_bytes (limits default_form_options) ∧
    target_key matching_percent_decoded_segments t = [EStatic (lit "api"); EStatic (lit "v1"); EStatic (lit "users"); EParam (lit "id")] ∧
    registers matching_percent_decoded_segments Sample.registered.1 ([] ++ [(m_post, t)]) [].
Proof.
  destruct (group_route_registered (λ _, done) (λ _, None) matching_percent_decoded_segments Sample.before
    [] [] (lit "/api/") [lit "v1"; lit "//users"] m_post (lit "/:id/") (RouteOptions 0 500) Sample.upload
    Sample.registered.1 (reg_empty _)) as (t & Hreg & Hkey & Hmode & Hlimit & _).
  { apply RouterSpec.Sample.pair_of. vm_compute. reflexivity. }
  exists t. split; [exact Hmode|]. split; [exact Hlimit|]. split; [exact Hkey|exact Hreg].
Defined.
