(* ===== verification/ServerWire.v ===== *)
(** * What the server writes

    The options of a server and the serialisation of responses and chunks of
    [src/http/server.cpp].  [out << std::hex << n] prints lower-case digits. *)

From stdpp Require Import sorting.
From S2P Require Import Prelude Text Http Response.

Open Scope Z_scope.

(** ** Options: sizes and milliseconds *)

Record server_options := ServerOptions {
  max_body_bytes : nat;
  max_pending_write_bytes : nat;
  max_pending_responses_per_connection : nat;
  header_timeout : Z; body_timeout : Z; idle_timeout : Z;
  opt_keep_alive : bool;
  server_header : bool
}.

Definition default_options : server_options :=
  ServerOptions (Z.to_nat (1024 * 1024)) (Z.to_nat (1024 * 1024)) 16 10000 30000 60000 true true.

(** ** Requests *)

Definition split_path_query (target : str) : str * str :=
  match find_char "?" target with
  | None => (target, [])
  | Some query_offset => (take query_offset target, drop (S query_offset) target)
  end.

Definition contains_method (methods : list method) (value : method) : bool := bool_decide (value ∈ methods).

Definition method_le (lhs rhs : method) : Prop := (method_index lhs ≤ method_index rhs)%nat.
#[global] Instance method_le_dec : RelDecision method_le.
Proof. intros lhs rhs. unfold method_le. apply _. Defined.

Definition join_methods (methods : list method) : str :=
  foldl (λ value m, (match value with [] => [] | _ => value ++ lit ", " end) ++ method_to_string m) [] methods.

Definition allow_methods (methods : list method) : list method :=
  let methods := if contains_method methods m_get && negb (contains_method methods m_head) then methods ++ [m_head] else methods in
  let methods := if contains_method methods m_options then methods else methods ++ [m_options] in
  merge_sort method_le methods.

Definition allow_header_value (methods : list method) : str := join_methods (allow_methods methods).

(** ** Responses *)

Definition eol : str := ["013"; "010"]%char.

Definition field_line (name value : str) : str := name ++ lit ": " ++ value ++ eol.

Definition has_field (expected : str) (hs : headers) : bool := existsb (λ h, names_equal h.1 expected) hs.

Definition response_body (status_code : Z) (body : str) : str := if status_code =? 204 then [] else body.

Definition serialize_response_head (res : response_state) (keep_alive : bool) (options : server_options)
    (chunked suppress_body : bool) : str :=
  let code := status_code res in
  let hs := rs_headers res in
  lit "HTTP/1.1 " ++ to_string (Z.to_N code) ++ lit " " ++ reason_phrase code ++ eol ++
  flat_map (λ h, if names_equal h.1 (lit "content-length") && chunked then []
                 else if names_equal h.1 (lit "transfer-encoding") then []
                 else field_line h.1 h.2) hs ++
  (if chunked && negb suppress_body then field_line (lit "transfer-encoding") (lit "chunked")
   else if has_field (lit "content-length") hs then []
   else field_line (lit "content-length") (to_string (N.of_nat (length (response_body code (rs_body res)))))) ++
  (if has_field (lit "connection") hs then []
   else field_line (lit "connection") (if keep_alive then lit "keep-alive" else lit "close")) ++
  (if server_header options && negb (has_field (lit "server") hs) then field_line (lit "server") (lit "uvpp-protocols") else []) ++
  eol.

Definition serialize_response (res : response_state) (keep_alive : bool) (options : server_options) (suppress_body : bool) : str :=
  serialize_response_head res keep_alive options false suppress_body ++
  (if suppress_body then [] else response_body (status_code res) (rs_body res)).

Definition serialize_chunk (payload : str) : str :=
  to_chars 16 (N.of_nat (length payload)) ++ eol ++ payload ++ eol.

(** ["0\r\n\r\n"], which [end_stream] queues last. *)
Definition last_chunk : str := lit "0" ++ eol ++ eol.

(** The response of [send_error]: [res.status(code).text(...)]. *)
Definition error_response (code : Z) : response_state :=
  (run_all (λ _, done) (λ _ s, (s, None, write_ready)) [c_status code; c_text (reason_phrase code ++ lf)] fresh_response).1.

(** ** A client

    Reads one response as RFC 9112 says: the status line, the fields, and a body
    whose length follows from the request, the status and the fields. *)

Fixpoint read_line (s : str) : option (str * str) :=
  match s with
  | [] => None
  | c :: s' =>
    match is_char "013" c, s' with
    | true, d :: s'' => if is_char "010" d then Some ([], s'') else None
    | true, [] => None
    | false, _ => (λ lr, (c :: lr.1, lr.2)) <$> read_line s'
    end
  end.

Fixpoint drop_spaces (s : str) : str :=
  match s with c :: s' => if is_char " " c then drop_spaces s' else s | [] => [] end.

Fixpoint read_fields (fuel : nat) (s : str) : option (headers * str) :=
  match fuel with
  | O => None
  | S fuel' =>
    match read_line s with
    | None => None
    | Some ([], rest) => Some ([], rest)
    | Some (line, rest) =>
      match find_char ":" line with
      | None => None
      | Some i => (λ r, ((take i line, drop_spaces (drop (S i) line)) :: r.1, r.2)) <$> read_fields fuel' rest
      end
    end
  end.

Fixpoint read_chunks (fuel : nat) (s : str) : option (str * str) :=
  match fuel with
  | O => None
  | S fuel' =>
    match read_line s with
    | None => None
    | Some (line, rest) =>
      match from_chars_unsigned 64 16 line with
      | fc_ok n [] =>
        let size := Z.to_nat n in
        if (size =? 0)%nat then match read_line rest with Some ([], rest') => Some ([], rest') | _ => None end
        else if (length rest <? size)%nat then None
        else match read_line (drop size rest) with
             | Some ([], rest') => (λ r, (take size rest ++ r.1, r.2)) <$> read_chunks fuel' rest'
             | _ => None
             end
      | _ => None
      end
    end
  end.

Record client_response := ClientResponse { cl_status : Z; cl_headers : headers; cl_body : str }.

Definition bodyless (head_request : bool) (code : Z) : bool :=
  head_request || ((100 <=? code) && (code <? 200)) || (code =? 204) || (code =? 304).

Definition read_response (head_request : bool) (s : str) : option (client_response * str) :=
  match read_line s with
  | None => None
  | Some (line, rest) =>
    if negb (starts_with line (lit "HTTP/1.1 ")) then None
    else
      match from_chars_unsigned 32 10 (drop 9 line), read_fields (S (length rest)) rest with
      | fc_ok code _, Some (hs, rest) =>
        if bodyless head_request code then Some (ClientResponse code hs [], rest)
        else if str_eqb (headers_get hs (lit "transfer-encoding")) (lit "chunked") then
          (λ br, (ClientResponse code hs br.1, br.2)) <$> read_chunks (S (length rest)) rest
        else
          match from_chars_unsigned 64 10 (headers_get hs (lit "content-length")) with
          | fc_ok n [] =>
            if (length rest <? Z.to_nat n)%nat then None
            else Some (ClientResponse code hs (take (Z.to_nat n) rest), drop (Z.to_nat n) rest)
          | _ => None
          end
      | _, _ => None
      end
  end.
