(* ===== verification/ServerWireSpec.v ===== *)
(** * A client reads back what the server writes

    Buffered and streamed responses against the reader of [ServerWire]. *)

From stdpp Require Import sorting.
From S2P Require Import Prelude Text Http Response ServerWire.

Open Scope Z_scope.

(** ** Lines and fields *)

Definition line_byte (c : ascii) : bool := is_char "013" c || is_char "010" c.

Lemma read_line_here l s : none_of line_byte l → read_line (l ++ eol ++ s) = Some (l, s).
Proof.
  induction 1 as [|c l Hc _ IH]; [done|]. apply orb_false_iff in Hc as [Hc _]. cbn [app read_line]. rewrite Hc, IH. done.
Qed.

Definition field_ok (h : str * str) : Prop :=
  h.1 ≠ [] ∧ none_of (λ c, is_char ":" c || line_byte c) h.1 ∧ none_of line_byte h.2 ∧ drop_spaces h.2 = h.2.

Lemma field_name_clean (n : str) : none_of (λ c, is_char ":" c || line_byte c) n → none_of (is_char ":") n ∧ none_of line_byte n.
Proof.
  intros H. split; eapply none_of_weaken; try exact H; intros c Hc; cbn; rewrite Hc; [done|apply orb_true_r].
Qed.

Definition fields_text (hs : headers) : str := flat_map (λ h, field_line h.1 h.2) hs.

Lemma read_fields_text hs s fuel :
  Forall field_ok hs → (length hs < fuel)%nat → read_fields fuel (fields_text hs ++ eol ++ s) = Some (hs, s).
Proof.
  intros H. revert fuel. induction H as [|[n v] hs (Hne & Hn & Hv & Hs) _ IH]; intros fuel Hf;
    (destruct fuel as [|fuel]; [cbn in Hf; lia|]); cbn [length] in Hf.
  - done.
  - cbn [fst snd] in *. apply field_name_clean in Hn as [Hcolon Hn]. unfold fields_text. cbn [flat_map fst snd].
    change (flat_map _ hs) with (fields_text hs). unfold field_line. rewrite <-!app_assoc.
    assert (Hline : none_of line_byte (n ++ lit ": " ++ v)).
    { rewrite !none_of_app. split_and!; [done|by repeat constructor|done]. }
    assert (Hfind : find_char ":" (n ++ lit ": " ++ v) = Some (length n)) by (by apply find_if_here).
    assert (Hdrop : drop (S (length n)) (n ++ lit ": " ++ v) = " "%char :: v).
    { rewrite drop_app_ge by lia. by replace (S (length n) - length n)%nat with 1%nat by lia. }
    assert (Htake : take (length n) (n ++ lit ": " ++ v) = n) by apply take_app_length.
    assert (Hlne : n ++ lit ": " ++ v ≠ []) by (destruct n; done).
    replace (n ++ lit ": " ++ v ++ eol ++ fields_text hs ++ eol ++ s) with ((n ++ lit ": " ++ v) ++ eol ++ fields_text hs ++ eol ++ s)
      by (by rewrite <-!app_assoc).
    revert Hline Hfind Hdrop Htake Hlne. generalize (n ++ lit ": " ++ v) as line. intros line Hline Hfind Hdrop Htake Hlne.
    cbn [read_fields]. rewrite read_line_here by done. destruct line as [|c line]; [done|]. rewrite Hfind, IH by lia.
    cbn [fmap option_fmap option_map fst snd]. rewrite Htake, Hdrop. cbn [drop_spaces]. rewrite is_char_refl, Hs. done.
Qed.

Lemma length_fields_text hs : (length hs ≤ length (fields_text hs))%nat.
Proof.
  induction hs as [|h hs IH]; [done|]. unfold fields_text. cbn [flat_map]. rewrite length_app. change (flat_map _ hs) with (fields_text hs).
  unfold field_line, eol. rewrite !length_app. cbn [length]. lia.
Qed.

(** ** Numbers *)

Lemma digits_clean (base : N) (n : N) : (2 <= base)%N → (base <= 16)%N → none_of line_byte (to_chars base n).
Proof. intros. by apply to_chars_avoids. Qed.

Lemma read_number bits base n :
  (2 <= base)%N → (base <= 16)%N → (Z.of_N n < 2 ^ bits)%Z → from_chars_unsigned bits base (to_chars base n) = fc_ok (Z.of_N n) [].
Proof. intros H1 H2 H3. rewrite <-(app_nil_r (to_chars base n)). by apply from_chars_to_chars. Qed.

(** ** Chunks *)

Lemma to_chars_nonempty base n : (2 <= base)%N → to_chars base n ≠ [].
Proof.
  intros Hb. destruct (to_digits_value (S (N.size_nat n)) base n Hb) as (_ & _ & Hne); [lia|].
  unfold to_chars. by destruct (to_digits _ _ _).
Qed.

Lemma read_chunks_body payloads s fuel :
  Forall (λ p, p ≠ [] ∧ Z.of_nat (length p) < 2 ^ 64) payloads → (length payloads < fuel)%nat →
  read_chunks fuel (flat_map serialize_chunk payloads ++ last_chunk ++ s) = Some (concat payloads, s).
Proof.
  intros H. revert fuel. induction H as [|p ps [Hne Hp] _ IH]; intros fuel Hf; (destruct fuel as [|fuel]; [cbn in Hf; lia|]);
    cbn [length] in Hf; cbn [flat_map read_chunks].
  - done.
  - unfold serialize_chunk at 1. rewrite <-!app_assoc. rewrite read_line_here by (by apply digits_clean).
    rewrite read_number by (done || lia). rewrite nat_N_Z, Nat2Z.id.
    destruct (Nat.eqb_spec (length p) 0) as [E|_]; [by destruct p|].
    destruct (Nat.ltb_spec (length (p ++ eol ++ flat_map serialize_chunk ps ++ last_chunk ++ s)) (length p)) as [E|_];
      [rewrite length_app in E; lia|].
    rewrite drop_app_length, take_app_length. change (eol ++ flat_map serialize_chunk ps ++ last_chunk ++ s) with
      ([] ++ eol ++ flat_map serialize_chunk ps ++ last_chunk ++ s). rewrite read_line_here by constructor.
    rewrite IH by lia. done.
Qed.

Lemma length_chunks payloads : (length payloads ≤ length (flat_map serialize_chunk payloads))%nat.
Proof.
  induction payloads as [|p ps IH]; [done|]. cbn [flat_map length]. rewrite length_app. unfold serialize_chunk at 1.
  rewrite !length_app. unfold eol. cbn [length]. lia.
Qed.

(** ** Heads *)

(** The fields of a head, in order. *)
Definition head_fields (res : response_state) (keep_alive : bool) (options : server_options) (chunked suppress_body : bool) : headers :=
  let hs := rs_headers res in
  List.filter (λ h, negb (names_equal h.1 (lit "content-length") && chunked) && negb (names_equal h.1 (lit "transfer-encoding"))) hs ++
  (if chunked && negb suppress_body then [(lit "transfer-encoding", lit "chunked")]
   else if has_field (lit "content-length") hs then []
   else [(lit "content-length", to_string (N.of_nat (length (response_body (status_code res) (rs_body res)))))]) ++
  (if has_field (lit "connection") hs then [] else [(lit "connection", if keep_alive then lit "keep-alive" else lit "close")]) ++
  (if server_header options && negb (has_field (lit "server") hs) then [(lit "server", lit "uvpp-protocols")] else []).

Definition status_line (res : response_state) : str :=
  lit "HTTP/1.1 " ++ to_string (Z.to_N (status_code res)) ++ lit " " ++ reason_phrase (status_code res).

Lemma fields_text_app a b : fields_text (a ++ b) = fields_text a ++ fields_text b.
Proof. apply flat_map_app. Qed.

Lemma fields_text_one n v : fields_text [(n, v)] = field_line n v.
Proof. unfold fields_text. cbn [flat_map]. apply app_nil_r. Qed.

Lemma serialize_head_fields res keep_alive options chunked suppress :
  serialize_response_head res keep_alive options chunked suppress =
  status_line res ++ eol ++ fields_text (head_fields res keep_alive options chunked suppress) ++ eol.
Proof.
  unfold serialize_response_head, head_fields, status_line. rewrite !fields_text_app, <-!app_assoc. do 5 f_equal.
  f_equal; [|f_equal; [|f_equal; [|f_equal]]].
  - induction (rs_headers res) as [|[n v] hs IH]; [done|]. cbn [flat_map List.filter fst snd]. rewrite IH.
    destruct (names_equal n (lit "content-length") && chunked); [done|]. destruct (names_equal n (lit "transfer-encoding")); done.
  - destruct (chunked && negb suppress); [by rewrite fields_text_one|]. destruct (has_field _ _); [done|by rewrite fields_text_one].
  - destruct (has_field _ _); [done|by rewrite fields_text_one].
  - destruct (server_header options && _); [by rewrite fields_text_one|done].
Qed.

(** A response that can be sent: a status of three digits and fields that are
    lines of their own. *)
Definition sendable (res : response_state) : Prop := 100 ≤ status_code res ≤ 999 ∧ Forall field_ok (rs_headers res).

Ltac fixed_field := split_and!; [done|by repeat constructor|by repeat constructor|done].

Lemma head_fields_ok res keep_alive options chunked suppress :
  Forall field_ok (rs_headers res) → Forall field_ok (head_fields res keep_alive options chunked suppress).
Proof.
  intros H. unfold head_fields. repeat apply Forall_app_2.
  - clear - H. induction H as [|h hs Hh _ IH]; [done|]. cbn [List.filter]. destruct (_ && _); [by constructor|done].
  - destruct (chunked && _); [constructor; [fixed_field|done]|]. destruct (has_field _ _); [done|]. constructor; [|done].
    split_and!; [done|by repeat constructor|by apply digits_clean|].
    set (n := N.of_nat _). destruct (to_digits_value (S (N.size_nat n)) 10 n) as (_ & Hd & _); [lia..|].
    unfold to_string, to_chars. cbn [snd]. destruct Hd as [|d ds Hd _]; [done|]. cbn [map drop_spaces].
    assert (is_char " " (digit_char d) = false) as ->; [|done].
    assert (d = 0 ∨ d = 1 ∨ d = 2 ∨ d = 3 ∨ d = 4 ∨ d = 5 ∨ d = 6 ∨ d = 7 ∨ d = 8 ∨ d = 9)%N as Hc by lia.
    by repeat destruct Hc as [-> | Hc]; subst.
  - destruct (has_field _ _); [done|]. constructor; [|done]. destruct keep_alive; fixed_field.
  - destruct (_ && _); [|done]. constructor; [|done]. fixed_field.
Qed.

Lemma reason_clean code : none_of line_byte (reason_phrase code).
Proof. unfold reason_phrase. repeat case_match; repeat constructor. Qed.

(** Reading a head leaves what follows it. *)
Lemma read_head res keep_alive options chunked suppress rest :
  sendable res →
  ∃ line text,
    read_line (serialize_response_head res keep_alive options chunked suppress ++ rest) = Some (line, text) ∧
    starts_with line (lit "HTTP/1.1 ") = true ∧
    (∃ r, from_chars_unsigned 32 10 (drop 9 line) = fc_ok (status_code res) r) ∧
    read_fields (S (length text)) text = Some (head_fields res keep_alive options chunked suppress, rest).
Proof.
  intros [Hcode Hhs]. rewrite serialize_head_fields, <-!app_assoc.
  exists (status_line res), (fields_text (head_fields res keep_alive options chunked suppress) ++ eol ++ rest). split_and!.
  - apply read_line_here. unfold status_line. rewrite !none_of_app.
    split_and!; [by repeat constructor|by apply digits_clean|by repeat constructor|apply reason_clean].
  - apply starts_with_app.
  - exists (lit " " ++ reason_phrase (status_code res)). unfold status_line.
    change (drop 9 (lit "HTTP/1.1 " ++ ?x)) with x. unfold to_string.
    rewrite from_chars_to_chars; [f_equal; lia|done|done|change (2 ^ 32) with 4294967296; lia|].
    intros c t H. change (lit " " ++ reason_phrase (status_code res)) with (" "%char :: reason_phrase (status_code res)) in H.
    by injection H as <- _.
  - apply read_fields_text; [by apply head_fields_ok|]. pose proof (length_fields_text (head_fields res keep_alive options chunked suppress)).
    rewrite length_app. lia.
Qed.

Lemma has_field_contains name hs : has_field name hs = headers_contains hs name.
Proof. induction hs as [|[n v] hs IH]; [done|]. cbn. rewrite <-IH. by destruct (names_equal n name). Qed.

Lemma headers_get_absent hs name : headers_contains hs name = false → headers_get hs name = [].
Proof. induction hs as [|[n v] hs IH]; [done|]. cbn. destruct (names_equal n name); [done|auto]. Qed.

Lemma filtered_transfer_encoding hs chunked :
  headers_contains (List.filter (λ h, negb (names_equal h.1 (lit "content-length") && chunked) && negb (names_equal h.1 (lit "transfer-encoding"))) hs)
    (lit "transfer-encoding") = false.
Proof.
  induction hs as [|[n v] hs IH]; [done|]. cbn [List.filter fst].
  destruct (names_equal n (lit "transfer-encoding")) eqn:E; rewrite ?andb_false_r; [exact IH|].
  destruct (negb _ && _); [|exact IH]. cbn [headers_contains]. by rewrite E.
Qed.

Lemma filtered_content_length hs chunked :
  headers_contains hs (lit "content-length") = false →
  headers_contains (List.filter (λ h, negb (names_equal h.1 (lit "content-length") && chunked) && negb (names_equal h.1 (lit "transfer-encoding"))) hs)
    (lit "content-length") = false.
Proof.
  induction hs as [|[n v] hs IH]; [done|]. cbn [List.filter fst headers_contains].
  destruct (names_equal n (lit "content-length")) eqn:E; [done|]. intros H.
  destruct (negb _ && _); [|by apply IH]. cbn [headers_contains]. rewrite E. by apply IH.
Qed.

Lemma head_transfer_encoding res keep_alive options chunked suppress :
  headers_get (head_fields res keep_alive options chunked suppress) (lit "transfer-encoding") =
  if chunked && negb suppress then lit "chunked" else [].
Proof.
  unfold head_fields. rewrite headers_get_app, filtered_transfer_encoding. destruct (chunked && negb suppress); [done|].
  apply headers_get_absent. rewrite !headers_contains_app. by destruct (has_field _ _), (has_field _ _), (server_header options && _).
Qed.

Lemma head_content_length res keep_alive options suppress :
  headers_contains (rs_headers res) (lit "content-length") = false →
  headers_get (head_fields res keep_alive options false suppress) (lit "content-length") =
  to_string (N.of_nat (length (response_body (status_code res) (rs_body res)))).
Proof.
  intros H. unfold head_fields. rewrite headers_get_app, filtered_content_length by done.
  rewrite has_field_contains, H. done.
Qed.

(** ** Responses *)

(** A client keeps in step with a buffered response: no body where it expects
    none. *)
Definition body_expected (suppress : bool) (code : Z) (body : str) : Prop :=
  bodyless suppress code = true → suppress = true ∨ response_body code body = [].

Lemma read_buffered res keep_alive options suppress rest :
  sendable res → body_expected suppress (status_code res) (rs_body res) →
  headers_contains (rs_headers res) (lit "content-length") = false → Z.of_nat (length (rs_body res)) < 2 ^ 64 →
  read_response suppress (serialize_response res keep_alive options suppress ++ rest) =
  Some (ClientResponse (status_code res) (head_fields res keep_alive options false suppress)
          (if suppress then [] else response_body (status_code res) (rs_body res)), rest).
Proof.
  intros Hs Hb Hcl Hlen. unfold serialize_response. rewrite <-app_assoc.
  destruct (read_head res keep_alive options false suppress
    ((if suppress then [] else response_body (status_code res) (rs_body res)) ++ rest) Hs) as (line & text & H1 & H2 & [r H3] & H4).
  unfold read_response. rewrite H1, H2, H3, H4. cbn [negb].
  destruct (bodyless suppress (status_code res)) eqn:E.
  { destruct (Hb E) as [-> | Hempty]; [done|]. by destruct suppress; [|rewrite Hempty]. }
  assert (suppress = false) as -> by (by destruct suppress).
  rewrite head_transfer_encoding, head_content_length by done. cbn [andb]. unfold str_eqb. rewrite bool_decide_eq_false_2 by done.
  set (body := response_body (status_code res) (rs_body res)).
  assert (Z.of_nat (length body) < 2 ^ 64).
  { subst body. unfold response_body. destruct (_ =? _); [done|exact Hlen]. }
  unfold to_string. rewrite read_number by (done || lia). rewrite nat_N_Z, Nat2Z.id.
  destruct (Nat.ltb_spec (length (body ++ rest)) (length body)) as [Hx|_]; [rewrite length_app in Hx; lia|].
  by rewrite take_app_length, drop_app_length.
Qed.

(** A streamed response: the head and then the chunks. *)
Lemma read_streamed res keep_alive options payloads rest :
  sendable res → bodyless false (status_code res) = false →
  Forall (λ p, p ≠ [] ∧ Z.of_nat (length p) < 2 ^ 64) payloads →
  read_response false (serialize_response_head res keep_alive options true false ++ flat_map serialize_chunk payloads ++ last_chunk ++ rest) =
  Some (ClientResponse (status_code res) (head_fields res keep_alive options true false) (concat payloads), rest).
Proof.
  intros Hs Hb Hp.
  destruct (read_head res keep_alive options true false (flat_map serialize_chunk payloads ++ last_chunk ++ rest) Hs)
    as (line & text & H1 & H2 & [r H3] & H4).
  unfold read_response. rewrite H1, H2, H3, H4, Hb, head_transfer_encoding. cbn [negb andb].
  unfold str_eqb. rewrite bool_decide_eq_true_2 by done.
  rewrite read_chunks_body; [done|done|]. rewrite length_app. pose proof (length_chunks payloads). lia.
Qed.

(** A client reads back a buffered response exactly: the status, the fields
    and the body, and stops where the next response begins; also for HEAD
    requests and for statuses without a body, as long as the user sets neither
    a length of his own nor a body with such a status. *)
Theorem buffered_response_roundtrip (res : response_state) (keep_alive : bool) (options : server_options) (suppress_body : bool) (rest : str) :
  sendable res → body_expected suppress_body (status_code res) (rs_body res) →
  headers_contains (rs_headers res) (lit "content-length") = false → Z.of_nat (length (rs_body res)) < 2 ^ 64 →
  read_response suppress_body (serialize_response res keep_alive options suppress_body ++ rest) =
  Some (ClientResponse (status_code res) (head_fields res keep_alive options false suppress_body)
          (if suppress_body then [] else response_body (status_code res) (rs_body res)), rest).
Proof. apply read_buffered. Qed.

Lemma buffered_response_roundtrip_witness :
  read_response false (serialize_response (error_response 404) false default_options false ++ lit "HTTP/1.1 200") =
  Some (ClientResponse 404 (head_fields (error_response 404) false default_options false false) (lit "Not Found" ++ lf), lit "HTTP/1.1 200").
Proof.
  refine (buffered_response_roundtrip (error_response 404) false default_options false (lit "HTTP/1.1 200") _ _ _ _).
  - split; [vm_compute; split; intros H; discriminate H|]. vm_compute. constructor; [|constructor].
    split; [discriminate|]. split; [repeat constructor|]. split; [repeat constructor|reflexivity].
  - intros H. discriminate H.
  - reflexivity.
  - reflexivity.
Defined.

(** A body with status 304 is written, but no client expects it: the body is
    read as the next response. *)
Lemma not_modified_body_desynchronises :
  let res := set_body (lit "x") (set_head 304 [] fresh_response) in
  match read_response false (serialize_response res true default_options false) with
  | Some (_, rest) => rest = lit "x"
  | None => False
  end.
Proof. vm_compute. reflexivity. Qed.

(** Header values are written as they are: a value with a line end becomes a
    field of its own. *)
Lemma header_value_splits_response :
  let res := set_head 200 (headers_set [] (lit "x") (lit "1" ++ eol ++ lit "set-cookie: a")) fresh_response in
  match read_response false (serialize_response res true default_options false) with
  | Some (r, _) => headers_get (cl_headers r) (lit "set-cookie") = lit "a"
  | None => False
  end.
Proof. vm_compute. reflexivity. Qed.

(** ** The Allow header *)

Lemma in_allow_methods methods m :
  m ∈ allow_methods methods ↔ m ∈ methods ∨ m = m_options ∨ (m = m_head ∧ m_get ∈ methods).
Proof.
  unfold allow_methods, contains_method. rewrite merge_sort_Permutation.
  destruct (bool_decide_reflect (m_get ∈ methods)), (bool_decide_reflect (m_head ∈ methods)); cbn [andb negb];
    (case_bool_decide; set_solver).
Qed.

(** The methods that the Allow header of an automatic response names are
    those of the routes, HEAD wherever there is GET, and OPTIONS, each once, in the order of
    the enumeration. *)
Theorem allow_header_spec (methods : list method) :
  NoDup methods →
  NoDup (allow_methods methods) ∧ StronglySorted method_le (allow_methods methods) ∧
  ∀ m, m ∈ allow_methods methods ↔ m ∈ methods ∨ m = m_options ∨ (m = m_head ∧ m_get ∈ methods).
Proof.
  intros H. split_and!; [| |apply in_allow_methods].
  - unfold allow_methods, contains_method. rewrite merge_sort_Permutation.
    destruct (bool_decide_reflect (m_get ∈ methods)), (bool_decide_reflect (m_head ∈ methods)); cbn [andb negb];
      (case_bool_decide; [|apply NoDup_app; split_and!; [|set_solver|by apply NoDup_singleton]]);
      try done; (apply NoDup_app; split_and!; [done|set_solver|by apply NoDup_singleton]).
  - apply StronglySorted_merge_sort; unfold method_le; intros x y; lia.
Qed.

Lemma allow_header_spec_witness :
  allow_header_value [m_post; m_get] = lit "GET, HEAD, POST, OPTIONS" ∧ NoDup (allow_methods [m_post; m_get]).
Proof.
  destruct (allow_header_spec [m_post; m_get]) as [H _]; [|exact (conj eq_refl H)].
  apply NoDup_cons; split; [|apply NoDup_singleton]. intros Hx. inversion Hx as [|? ? ? Hy]. inversion Hy.
Defined.
