(* ===== verification/ServerState.v ===== *)
(** * The state of a server connection

    [server::impl::session] of [src/http/server.cpp], its response slots, the
    request being received and the streamed bodies.  Slots and bodies are
    shared objects: they live in a store and are named by the order of their
    creation.  Handlers, hooks and exception handlers are numbers; what they do
    is a parameter of the operations.  [connection_info] is left out, and a
    path is matched against the router of [Router]. *)

From S2P Require Import Prelude Text Http RoutePath Router Http1 Request Response ServerWire.

Open Scope Z_scope.

Inductive timeout_phase := phase_none | phase_header | phase_body | phase_idle.

#[global] Instance timeout_phase_eq_dec : EqDecision timeout_phase.
Proof. solve_decision. Defined.

Inductive response_outcome := outcome_completed | outcome_cancelled | outcome_error.

(** A request with [matched_pattern_]. *)
Record server_request := ServerRequest { sr_request : request; sr_matched_pattern : str }.

Record request_snapshot := Snapshot {
  sn_method : method; sn_target : str; sn_path : str; sn_query : str; sn_matched_pattern : str; sn_params : route_params
}.

Record response_info := ResponseInfo {
  ri_request : request_snapshot; ri_status : Z; ri_headers : headers; ri_body_bytes : nat; ri_outcome : response_outcome
}.

Record pending_write := PendingWrite { pw_payload : str; pw_close_after : bool; pw_counts_response : bool; pw_upgrade : bool }.

(** What happens on the connection and at the user's callbacks, in order:
    [se_push] is [writes_.push_back], with the slot it is for; [se_accept] is a
    chunk that [write_stream_chunk] took; [se_write] and the following four are
    calls into the transport and the timer, the rest are user callbacks. *)
Inductive session_event :=
| se_slot (slot : nat)
| se_push (slot : option nat) (payload : str)
| se_accept (slot : nat) (payload : str)
| se_write (payload : str)
| se_read_start | se_read_stop | se_close
| se_timer_start (p : timeout_phase) (duration : Z)
| se_hook (hook slot : nat) (r : server_request)
| se_handler (handler slot : nat) (body_stream : option nat) (r : server_request)
| se_exception (handler slot : nat) (r : server_request)
| se_response_hook (hook slot : nat) (info : response_info)
| se_cancel (slot : nat) | se_drain (slot : nat) | se_stream_error (slot : nat) (e : stream_errc)
| se_body_data (body : nat) (chunk : str) | se_body_end (body : nat) | se_body_error (body : nat) (e : stream_errc)
| se_upgrade (route : nat) (r : server_request) (extra : str)
| se_upgraded.

Record response_slot := Slot {
  sl_res : response_state;
  sl_request : request_snapshot;
  sl_hooks : list nat;
  completed : bool;
  close_after : bool;
  suppress_body : bool;
  sl_streaming : bool;
  stream_headers_queued : bool;
  stream_chunked : bool;
  stream_backpressured : bool;
  stream_ended : bool;
  response_hooks_ran : bool;
  stream_body_bytes : nat;
  stream_writes : list pending_write
}.

(** [request_body_stream_state]: which callbacks are set, by the user and, for
    [bs_observed], by the session. *)
Record request_body := BodyStream {
  bs_active : bool;
  bs_paused : bool;
  bs_on_data : bool;
  bs_on_end : bool;
  bs_on_error : bool;
  bs_observed : bool
}.

Record active_request_state := ActiveRequest {
  ar_headers : http1_message;
  ar_route : match_result nat nat nat nat;
  ar_parsed_path : route_path;
  ar_req : server_request;
  ar_body_stream : nat;
  ar_slot : option nat;
  ar_received_body_bytes : nat;
  ar_rejected : bool
}.

Record session := Session {
  slots : list response_slot;
  responses : list nat;
  writes : list pending_write;
  pending_write_bytes : nat;
  pending_response_writes : nat;
  writing : bool;
  dispatching_response : bool;
  body_processing_paused : bool;
  closed : bool;
  timeout_closing : bool;
  timeout_timer_active : bool;
  timeout_timer_closed : bool;
  phase : timeout_phase;
  parser : http1;
  handled_events : nat;
  active_request : option active_request_state;
  bodies : list request_body;
  trace : list session_event
}.

(** ** Assignments to the fields *)

Definition set_sl_res (x : response_state) (sl : response_slot) : response_slot :=
  Slot x (sl_request sl) (sl_hooks sl) (completed sl) (close_after sl) (suppress_body sl) (sl_streaming sl)
  (stream_headers_queued sl) (stream_chunked sl) (stream_backpressured sl) (stream_ended sl) (response_hooks_ran sl)
  (stream_body_bytes sl) (stream_writes sl).
Definition set_sl_request (x : request_snapshot) (sl : response_slot) : response_slot :=
  Slot (sl_res sl) x (sl_hooks sl) (completed sl) (close_after sl) (suppress_body sl) (sl_streaming sl)
  (stream_headers_queued sl) (stream_chunked sl) (stream_backpressured sl) (stream_ended sl) (response_hooks_ran sl)
  (stream_body_bytes sl) (stream_writes sl).
Definition set_sl_hooks (x : list nat) (sl : response_slot) : response_slot :=
  Slot (sl_res sl) (sl_request sl) x (completed sl) (close_after sl) (suppress_body sl) (sl_streaming sl)
  (stream_headers_queued sl) (stream_chunked sl) (stream_backpressured sl) (stream_ended sl) (response_hooks_ran sl)
  (stream_body_bytes sl) (stream_writes sl).
Definition set_completed (x : bool) (sl : response_slot) : response_slot :=
  Slot (sl_res sl) (sl_request sl) (sl_hooks sl) x (close_after sl) (suppress_body sl) (sl_streaming sl)
  (stream_headers_queued sl) (stream_chunked sl) (stream_backpressured sl) (stream_ended sl) (response_hooks_ran sl)
  (stream_body_bytes sl) (stream_writes sl).
Definition set_close_after (x : bool) (sl : response_slot) : response_slot :=
  Slot (sl_res sl) (sl_request sl) (sl_hooks sl) (completed sl) x (suppress_body sl) (sl_streaming sl)
  (stream_headers_queued sl) (stream_chunked sl) (stream_backpressured sl) (stream_ended sl) (response_hooks_ran sl)
  (stream_body_bytes sl) (stream_writes sl).
Definition set_suppress_body (x : bool) (sl : response_slot) : response_slot :=
  Slot (sl_res sl) (sl_request sl) (sl_hooks sl) (completed sl) (close_after sl) x (sl_streaming sl)
  (stream_headers_queued sl) (stream_chunked sl) (stream_backpressured sl) (stream_ended sl) (response_hooks_ran sl)
  (stream_body_bytes sl) (stream_writes sl).
Definition set_sl_streaming (x : bool) (sl : response_slot) : response_slot :=
  Slot (sl_res sl) (sl_request sl) (sl_hooks sl) (completed sl) (close_after sl) (suppress_body sl) x
  (stream_headers_queued sl) (stream_chunked sl) (stream_backpressured sl) (stream_ended sl) (response_hooks_ran sl)
  (stream_body_bytes sl) (stream_writes sl).
Definition set_stream_headers_queued (x : bool) (sl : response_slot) : response_slot :=
  Slot (sl_res sl) (sl_request sl) (sl_hooks sl) (completed sl) (close_after sl) (suppress_body sl) (sl_streaming sl)
  x (stream_chunked sl) (stream_backpressured sl) (stream_ended sl) (response_hooks_ran sl) (stream_body_bytes sl)
  (stream_writes sl).
Definition set_stream_chunked (x : bool) (sl : response_slot) : response_slot :=
  Slot (sl_res sl) (sl_request sl) (sl_hooks sl) (completed sl) (close_after sl) (suppress_body sl) (sl_streaming sl)
  (stream_headers_queued sl) x (stream_backpressured sl) (stream_ended sl) (response_hooks_ran sl)
  (stream_body_bytes sl) (stream_writes sl).
Definition set_stream_backpressured (x : bool) (sl : response_slot) : response_slot :=
  Slot (sl_res sl) (sl_request sl) (sl_hooks sl) (completed sl) (close_after sl) (suppress_body sl) (sl_streaming sl)
  (stream_headers_queued sl) (stream_chunked sl) x (stream_ended sl) (response_hooks_ran sl) (stream_body_bytes sl)
  (stream_writes sl).
Definition set_stream_ended (x : bool) (sl : response_slot) : response_slot :=
  Slot (sl_res sl) (sl_request sl) (sl_hooks sl) (completed sl) (close_after sl) (suppress_body sl) (sl_streaming sl)
  (stream_headers_queued sl) (stream_chunked sl) (stream_backpressured sl) x (response_hooks_ran sl)
  (stream_body_bytes sl) (stream_writes sl).
Definition set_response_hooks_ran (x : bool) (sl : response_slot) : response_slot :=
  Slot (sl_res sl) (sl_request sl) (sl_hooks sl) (completed sl) (close_after sl) (suppress_body sl) (sl_streaming sl)
  (stream_headers_queued sl) (stream_chunked sl) (stream_backpressured sl) (stream_ended sl) x (stream_body_bytes
  sl) (stream_writes sl).
Definition set_stream_body_bytes (x : nat) (sl : response_slot) : response_slot :=
  Slot (sl_res sl) (sl_request sl) (sl_hooks sl) (completed sl) (close_after sl) (suppress_body sl) (sl_streaming sl)
  (stream_headers_queued sl) (stream_chunked sl) (stream_backpressured sl) (stream_ended sl) (response_hooks_ran sl)
  x (stream_writes sl).
Definition set_stream_writes (x : list pending_write) (sl : response_slot) : response_slot :=
  Slot (sl_res sl) (sl_request sl) (sl_hooks sl) (completed sl) (close_after sl) (suppress_body sl) (sl_streaming sl)
  (stream_headers_queued sl) (stream_chunked sl) (stream_backpressured sl) (stream_ended sl) (response_hooks_ran sl)
  (stream_body_bytes sl) x.
Definition set_bs_active (x : bool) (b : request_body) : request_body :=
  BodyStream x (bs_paused b) (bs_on_data b) (bs_on_end b) (bs_on_error b) (bs_observed b).
Definition set_bs_paused (x : bool) (b : request_body) : request_body :=
  BodyStream (bs_active b) x (bs_on_data b) (bs_on_end b) (bs_on_error b) (bs_observed b).
Definition set_bs_on_data (x : bool) (b : request_body) : request_body :=
  BodyStream (bs_active b) (bs_paused b) x (bs_on_end b) (bs_on_error b) (bs_observed b).
Definition set_bs_on_end (x : bool) (b : request_body) : request_body :=
  BodyStream (bs_active b) (bs_paused b) (bs_on_data b) x (bs_on_error b) (bs_observed b).
Definition set_bs_on_error (x : bool) (b : request_body) : request_body :=
  BodyStream (bs_active b) (bs_paused b) (bs_on_data b) (bs_on_end b) x (bs_observed b).
Definition set_bs_observed (x : bool) (b : request_body) : request_body :=
  BodyStream (bs_active b) (bs_paused b) (bs_on_data b) (bs_on_end b) (bs_on_error b) x.
Definition set_ar_headers (x : http1_message) (a : active_request_state) : active_request_state :=
  ActiveRequest x (ar_route a) (ar_parsed_path a) (ar_req a) (ar_body_stream a) (ar_slot a) (ar_received_body_bytes
  a) (ar_rejected a).
Definition set_ar_route (x : match_result nat nat nat nat) (a : active_request_state) : active_request_state :=
  ActiveRequest (ar_headers a) x (ar_parsed_path a) (ar_req a) (ar_body_stream a) (ar_slot a) (ar_received_body_bytes
  a) (ar_rejected a).
Definition set_ar_parsed_path (x : route_path) (a : active_request_state) : active_request_state :=
  ActiveRequest (ar_headers a) (ar_route a) x (ar_req a) (ar_body_stream a) (ar_slot a) (ar_received_body_bytes a)
  (ar_rejected a).
Definition set_ar_req (x : server_request) (a : active_request_state) : active_request_state :=
  ActiveRequest (ar_headers a) (ar_route a) (ar_parsed_path a) x (ar_body_stream a) (ar_slot a)
  (ar_received_body_bytes a) (ar_rejected a).
Definition set_ar_body_stream (x : nat) (a : active_request_state) : active_request_state :=
  ActiveRequest (ar_headers a) (ar_route a) (ar_parsed_path a) (ar_req a) x (ar_slot a) (ar_received_body_bytes a)
  (ar_rejected a).
Definition set_ar_slot (x : option nat) (a : active_request_state) : active_request_state :=
  ActiveRequest (ar_headers a) (ar_route a) (ar_parsed_path a) (ar_req a) (ar_body_stream a) x
  (ar_received_body_bytes a) (ar_rejected a).
Definition set_ar_received_body_bytes (x : nat) (a : active_request_state) : active_request_state :=
  ActiveRequest (ar_headers a) (ar_route a) (ar_parsed_path a) (ar_req a) (ar_body_stream a) (ar_slot a) x
  (ar_rejected a).
Definition set_ar_rejected (x : bool) (a : active_request_state) : active_request_state :=
  ActiveRequest (ar_headers a) (ar_route a) (ar_parsed_path a) (ar_req a) (ar_body_stream a) (ar_slot a)
  (ar_received_body_bytes a) x.
Definition set_slots (x : list response_slot) (s : session) : session :=
  Session x (responses s) (writes s) (pending_write_bytes s) (pending_response_writes s) (writing s)
  (dispatching_response s) (body_processing_paused s) (closed s) (timeout_closing s) (timeout_timer_active s)
  (timeout_timer_closed s) (phase s) (parser s) (handled_events s) (active_request s) (bodies s) (trace s).
Definition set_responses (x : list nat) (s : session) : session :=
  Session (slots s) x (writes s) (pending_write_bytes s) (pending_response_writes s) (writing s)
  (dispatching_response s) (body_processing_paused s) (closed s) (timeout_closing s) (timeout_timer_active s)
  (timeout_timer_closed s) (phase s) (parser s) (handled_events s) (active_request s) (bodies s) (trace s).
Definition set_writes (x : list pending_write) (s : session) : session :=
  Session (slots s) (responses s) x (pending_write_bytes s) (pending_response_writes s) (writing s)
  (dispatching_response s) (body_processing_paused s) (closed s) (timeout_closing s) (timeout_timer_active s)
  (timeout_timer_closed s) (phase s) (parser s) (handled_events s) (active_request s) (bodies s) (trace s).
Definition set_pending_write_bytes (x : nat) (s : session) : session :=
  Session (slots s) (responses s) (writes s) x (pending_response_writes s) (writing s) (dispatching_response s)
  (body_processing_paused s) (closed s) (timeout_closing s) (timeout_timer_active s) (timeout_timer_closed s) (phase
  s) (parser s) (handled_events s) (active_request s) (bodies s) (trace s).
Definition set_pending_response_writes (x : nat) (s : session) : session :=
  Session (slots s) (responses s) (writes s) (pending_write_bytes s) x (writing s) (dispatching_response s)
  (body_processing_paused s) (closed s) (timeout_closing s) (timeout_timer_active s) (timeout_timer_closed s) (phase
  s) (parser s) (handled_events s) (active_request s) (bodies s) (trace s).
Definition set_writing (x : bool) (s : session) : session :=
  Session (slots s) (responses s) (writes s) (pending_write_bytes s) (pending_response_writes s) x
  (dispatching_response s) (body_processing_paused s) (closed s) (timeout_closing s) (timeout_timer_active s)
  (timeout_timer_closed s) (phase s) (parser s) (handled_events s) (active_request s) (bodies s) (trace s).
Definition set_dispatching_response (x : bool) (s : session) : session :=
  Session (slots s) (responses s) (writes s) (pending_write_bytes s) (pending_response_writes s) (writing s) x
  (body_processing_paused s) (closed s) (timeout_closing s) (timeout_timer_active s) (timeout_timer_closed s) (phase
  s) (parser s) (handled_events s) (active_request s) (bodies s) (trace s).
Definition set_body_processing_paused (x : bool) (s : session) : session :=
  Session (slots s) (responses s) (writes s) (pending_write_bytes s) (pending_response_writes s) (writing s)
  (dispatching_response s) x (closed s) (timeout_closing s) (timeout_timer_active s) (timeout_timer_closed s) (phase
  s) (parser s) (handled_events s) (active_request s) (bodies s) (trace s).
Definition set_closed (x : bool) (s : session) : session :=
  Session (slots s) (responses s) (writes s) (pending_write_bytes s) (pending_response_writes s) (writing s)
  (dispatching_response s) (body_processing_paused s) x (timeout_closing s) (timeout_timer_active s)
  (timeout_timer_closed s) (phase s) (parser s) (handled_events s) (active_request s) (bodies s) (trace s).
Definition set_timeout_closing (x : bool) (s : session) : session :=
  Session (slots s) (responses s) (writes s) (pending_write_bytes s) (pending_response_writes s) (writing s)
  (dispatching_response s) (body_processing_paused s) (closed s) x (timeout_timer_active s) (timeout_timer_closed s)
  (phase s) (parser s) (handled_events s) (active_request s) (bodies s) (trace s).
Definition set_timeout_timer_active (x : bool) (s : session) : session :=
  Session (slots s) (responses s) (writes s) (pending_write_bytes s) (pending_response_writes s) (writing s)
  (dispatching_response s) (body_processing_paused s) (closed s) (timeout_closing s) x (timeout_timer_closed s)
  (phase s) (parser s) (handled_events s) (active_request s) (bodies s) (trace s).
Definition set_timeout_timer_closed (x : bool) (s : session) : session :=
  Session (slots s) (responses s) (writes s) (pending_write_bytes s) (pending_response_writes s) (writing s)
  (dispatching_response s) (body_processing_paused s) (closed s) (timeout_closing s) (timeout_timer_active s) x
  (phase s) (parser s) (handled_events s) (active_request s) (bodies s) (trace s).
Definition set_phase (x : timeout_phase) (s : session) : session :=
  Session (slots s) (responses s) (writes s) (pending_write_bytes s) (pending_response_writes s) (writing s)
  (dispatching_response s) (body_processing_paused s) (closed s) (timeout_closing s) (timeout_timer_active s)
  (timeout_timer_closed s) x (parser s) (handled_events s) (active_request s) (bodies s) (trace s).
Definition set_parser (x : http1) (s : session) : session :=
  Session (slots s) (responses s) (writes s) (pending_write_bytes s) (pending_response_writes s) (writing s)
  (dispatching_response s) (body_processing_paused s) (closed s) (timeout_closing s) (timeout_timer_active s)
  (timeout_timer_closed s) (phase s) x (handled_events s) (active_request s) (bodies s) (trace s).
Definition set_handled_events (x : nat) (s : session) : session :=
  Session (slots s) (responses s) (writes s) (pending_write_bytes s) (pending_response_writes s) (writing s)
  (dispatching_response s) (body_processing_paused s) (closed s) (timeout_closing s) (timeout_timer_active s)
  (timeout_timer_closed s) (phase s) (parser s) x (active_request s) (bodies s) (trace s).
Definition set_active_request (x : option active_request_state) (s : session) : session :=
  Session (slots s) (responses s) (writes s) (pending_write_bytes s) (pending_response_writes s) (writing s)
  (dispatching_response s) (body_processing_paused s) (closed s) (timeout_closing s) (timeout_timer_active s)
  (timeout_timer_closed s) (phase s) (parser s) (handled_events s) x (bodies s) (trace s).
Definition set_bodies (x : list request_body) (s : session) : session :=
  Session (slots s) (responses s) (writes s) (pending_write_bytes s) (pending_response_writes s) (writing s)
  (dispatching_response s) (body_processing_paused s) (closed s) (timeout_closing s) (timeout_timer_active s)
  (timeout_timer_closed s) (phase s) (parser s) (handled_events s) (active_request s) x (trace s).
Definition set_trace (x : list session_event) (s : session) : session :=
  Session (slots s) (responses s) (writes s) (pending_write_bytes s) (pending_response_writes s) (writing s)
  (dispatching_response s) (body_processing_paused s) (closed s) (timeout_closing s) (timeout_timer_active s)
  (timeout_timer_closed s) (phase s) (parser s) (handled_events s) (active_request s) (bodies s) x.

(** ** Access to shared objects *)

Definition no_snapshot : request_snapshot := Snapshot m_unknown [] [] [] [] [].
Definition empty_slot : response_slot :=
  Slot fresh_response no_snapshot [] false false false false false true false false false 0 [].
Definition inactive_body : request_body := BodyStream false false false false false false.

Definition slot (i : nat) (s : session) : response_slot := default empty_slot (slots s !! i).
Definition update_slot (i : nat) (f : response_slot → response_slot) (s : session) : session := set_slots (alter f i (slots s)) s.
Definition body (b : nat) (s : session) : request_body := default inactive_body (bodies s !! b).
Definition update_body (b : nat) (f : request_body → request_body) (s : session) : session := set_bodies (alter f b (bodies s)) s.
Definition happen (e : session_event) (s : session) : session := set_trace (trace s ++ [e]) s.

(** The response of a slot as a part of the session. *)
Definition slot_store (i : nat) : ResponseStore session :=
  {| rget s := sl_res (slot i s); rput r s := update_slot i (set_sl_res r) s |}.
