(* ===== verification/ServerSession.v ===== *)
(** * A server connection

    The operations of [server::impl::session] of [src/http/server.cpp], from
    the bytes that are read to the bytes that are written.  User code, which
    handlers, hooks and callbacks run, may call back into responses and bodies:
    it is a function from the trace and the callback made to the calls it
    makes, and [user_at] runs them, nested callbacks included, to a given depth,
    up to the first that throws.

    A range-based loop over [responses_] visits the slots that were there when
    it began.  Every write completes later, by [on_write]; [accept_upgrade] with
    an empty response, which the stream would complete at once, and with an
    empty callback are left out. *)

From S2P Require Import Prelude Text Http RoutePath Router Http1 Request Response ServerWire ServerState.

Open Scope Z_scope.

Record server_config := ServerConfig {
  options : server_options;
  header_limits : http1_limits;
  routes : router nat nat nat nat;
  upgrade_routes : list route_path;
  server_not_found : option nat;
  server_exception : option nat
}.

(** What user code can call: the public operations of a response, of a body and
    of an upgrade request, and [server::close]. *)
Inductive user_cmd :=
| u_response (slot : nat) (c : response_cmd)
| u_body_on_data (body : nat) (set : bool) | u_body_on_end (body : nat) (set : bool) | u_body_on_error (body : nat) (set : bool)
| u_body_pause (body : nat) | u_body_resume (body : nat)
| u_accept (response : str)
| u_close
| u_throw.

Fixpoint public_cmd (c : response_cmd) : bool :=
  match c with
  | c_on_complete _ | c_on_stream_write _ | c_on_stream_end _ | c_notify_drain | c_notify_error _ | c_reset | c_cancel
  | c_commit_headers | c_complete_stream => false
  | c_deferred c => public_cmd c
  | _ => true
  end.

Definition is_streaming_body_mode (m : body_mode) : bool :=
  match m with body_stream | body_multipart_stream => true | _ => false end.

Definition request_has_body (m : http1_message) : bool :=
  let content_length := headers_get (msg_headers m) (lit "content-length") in
  if negb (bool_decide (content_length = [])) && negb (str_eqb content_length (lit "0")) then true
  else negb (bool_decide (headers_get (msg_headers m) (lit "transfer-encoding") = [])).

Definition set_request_params (params : route_params) (r : request) : request :=
  Request (rq_method r) (rq_target r) (rq_path r) (rq_query r) (rq_query_params r) (rq_headers r) (rq_body r) params
    (rq_decoded_path_segments r).

Definition snapshot_request (r : server_request) : request_snapshot :=
  let q := sr_request r in
  Snapshot (rq_method q) (rq_target q) (rq_path q) (rq_query q) (sr_matched_pattern r) (rq_params q).

Definition no_active_request (s : session) : bool := match active_request s with None => true | _ => false end.
Definition no_writes (s : session) : bool := match writes s with [] => true | _ => false end.

Section session.
Context (cfg : server_config).
(** A user callback, and whether a hook says [hook_result::stop]. *)
Context (user : session_event → proc session) (stops : list session_event → nat → bool).

Definition low_watermark : nat := max_pending_write_bytes (options cfg) / 2.

(** ** Timers *)

Definition stop_timeout (s : session) : session := set_phase phase_none (set_timeout_timer_active false s).

Definition start_timeout (p : timeout_phase) (duration : Z) (s : session) : session :=
  if closed s || timeout_timer_closed s then s
  else happen (se_timer_start p duration) (set_timeout_timer_active true (set_phase p (stop_timeout s))).

Definition close_timeout_timer (s : session) : session :=
  if timeout_timer_closed s then s else set_timeout_timer_closed true (stop_timeout s).

(** ** Writing *)

Definition flush_next (s : session) : session :=
  match writes s with
  | w :: _ => if closed s || writing s then s else happen (se_write (pw_payload w)) (set_writing true s)
  | [] => s
  end.

Definition push_write (i : option nat) (w : pending_write) (s : session) : session :=
  happen (se_push i (pw_payload w)) (set_writes (writes s ++ [w]) s).

Definition enqueue (i : option nat) (payload : str) (close_after counts_response : bool) (s : session) : session :=
  let s := set_pending_write_bytes (pending_write_bytes s + length payload) s in
  flush_next (push_write i (PendingWrite payload close_after counts_response false) s).

Definition queue_stream_write (i : nat) (payload : str) (close_after : bool) (s : session) : session :=
  let s := set_pending_write_bytes (pending_write_bytes s + length payload) s in
  update_slot i (λ sl, set_stream_writes (stream_writes sl ++ [PendingWrite payload close_after false false]) sl) s.

(** Moves the slot's writes over, in order. *)
Definition flush_stream_writes (i : nat) (s : session) : session :=
  let ws := stream_writes (slot i s) in
  flush_next (foldl (λ s w, push_write (Some i) w s) (update_slot i (set_stream_writes []) s) ws).

(** ** Cancelled and observed responses *)

(** Callbacks of a response that go to the user. *)
Definition emit_user (i : nat) (e : response_event) : proc session :=
  match e with
  | ev_cancel => user (se_cancel i)
  | ev_drain => user (se_drain i)
  | ev_stream_error e => user (se_stream_error i e)
  | _ => done
  end.

Definition response_body_size (sl : response_slot) : nat :=
  if sl_streaming sl then stream_body_bytes sl
  else if status_code (sl_res sl) =? 204 then 0%nat
  else length (rs_body (sl_res sl)).

Definition run_response_hooks (i : nat) (outcome : response_outcome) (s : session) : session :=
  if response_hooks_ran (slot i s) then s
  else
    let s := update_slot i (set_response_hooks_ran true) s in
    let sl := slot i s in
    let info := ResponseInfo (sl_request sl) (status_code (sl_res sl)) (rs_headers (sl_res sl)) (response_body_size sl) outcome in
    foldl (λ s h, (user (se_response_hook h i info) s).1) s (rev (sl_hooks sl)).

Definition cancel_slot (outcome : response_outcome) (s : session) (i : nat) : session :=
  if completed (slot i s) then s
  else run_response_hooks i outcome (@Response.cancel session (slot_store i) (emit_user i) s).1.

Definition cancel_pending_responses (outcome : response_outcome) (s : session) : session :=
  set_responses [] (foldl (cancel_slot outcome) s (responses s)).

Definition close (s : session) : session :=
  if closed s then s
  else
    let s := close_timeout_timer (set_closed true s) in
    let s := cancel_pending_responses outcome_cancelled s in
    happen se_close (happen se_read_stop s).

Definition notify_stream_errors (e : stream_errc) (s : session) : session :=
  foldl (λ s i, if sl_streaming (slot i s) && negb (completed (slot i s))
                then (@notify_stream_error session (slot_store i) (emit_user i) e s).1 else s) s (responses s).

Definition notify_drains (s : session) : session :=
  if (low_watermark <? pending_write_bytes s)%nat then s
  else
    foldl (λ s i, if stream_backpressured (slot i s)
                  then (@notify_stream_drain session (slot_store i) (emit_user i) (update_slot i (set_stream_backpressured false) s)).1
                  else s) s (responses s).

(** ** Response slots *)

(** [flush_response_slots]: each round takes the front slot out. *)
Fixpoint flush_loop (fuel : nat) (s : session) : session :=
  match fuel, responses s with
  | S fuel', i :: rest =>
    if sl_streaming (slot i s) then
      let s := flush_stream_writes i s in
      if negb (completed (slot i s)) || negb (match stream_writes (slot i s) with [] => true | _ => false end) then s
      else
        let s := set_responses rest s in
        if close_after (slot i s) then cancel_pending_responses outcome_cancelled s else flush_loop fuel' s
    else if negb (completed (slot i s)) then s
    else
      let s := set_pending_response_writes (S (pending_response_writes s)) (set_responses rest s) in
      let sl := slot i s in
      let s := enqueue (Some i) (serialize_response (sl_res sl) (negb (close_after sl)) (options cfg) (suppress_body sl))
                 (close_after sl) true s in
      if close_after sl then cancel_pending_responses outcome_cancelled s else flush_loop fuel' s
  | _, _ => s
  end.

Definition flush_response_slots (s : session) : session := flush_loop (length (responses s)) s.

Definition complete_response (i : nat) (s : session) : session :=
  if completed (slot i s) then s
  else
    let s := run_response_hooks i outcome_completed (update_slot i (set_completed true) s) in
    if dispatching_response s then s else flush_response_slots s.

(** [response::commit_headers] and the head of a stream. *)
Definition queue_stream_head (i : nat) (close_after_head : bool) (s : session) : session :=
  if stream_headers_queued (slot i s) then s
  else
    let s := update_slot i (λ sl, set_stream_chunked (negb (headers_contains (rs_headers (sl_res sl)) (lit "content-length"))) sl) s in
    let s := update_slot i (λ sl, set_sl_res (set_committed (sl_res sl)) sl) s in
    let sl := slot i s in
    let s := queue_stream_write i
      (serialize_response_head (sl_res sl) (negb (close_after sl)) (options cfg) (stream_chunked sl) (suppress_body sl))
      close_after_head s in
    update_slot i (set_stream_headers_queued true) s.

Definition queue_stream_chunk (i : nat) (payload : str) (s : session) : session :=
  match payload with
  | [] => s
  | _ =>
    let sl := slot i s in
    let s := happen (se_accept i payload) (update_slot i (λ sl, set_stream_body_bytes (stream_body_bytes sl + length payload) sl) s) in
    queue_stream_write i (if stream_chunked sl then serialize_chunk payload else payload) false s
  end.

Definition write_stream_chunk (i : nat) (payload : str) (s : session) : session * stream_write_result :=
  if closed s || completed (slot i s) || stream_ended (slot i s) then (s, write_rejected errc_not_connected)
  else if stream_backpressured (slot i s) then (s, write_rejected errc_would_block)
  else
    let s := update_slot i (set_sl_streaming true) s in
    if suppress_body (slot i s) then (s, write_ready)
    else
      let s := flush_response_slots (queue_stream_chunk i payload (queue_stream_head i false s)) in
      if (max_pending_write_bytes (options cfg) <=? pending_write_bytes s)%nat
      then (update_slot i (set_stream_backpressured true) s, write_backpressure)
      else (s, write_ready).

(** What [on_complete] of a slot's response does. *)
Definition emit_complete (i : nat) (e : response_event) : proc session :=
  match e with ev_complete => λ s, (complete_response i s, None) | _ => emit_user i e end.

Definition queue_stream_end (i : nat) (s : session) : session :=
  let s := update_slot i (λ sl, set_stream_ended true (set_sl_streaming true sl)) s in
  let s := queue_stream_head i (suppress_body (slot i s) && close_after (slot i s)) s in
  if negb (suppress_body (slot i s)) && stream_chunked (slot i s)
  then queue_stream_write i last_chunk (close_after (slot i s)) s else s.

Definition end_stream (i : nat) (s : session) : session :=
  if closed s || completed (slot i s) || stream_ended (slot i s) then s
  else
    let s := (@complete_stream session (slot_store i) (emit_complete i) (queue_stream_end i s)).1 in
    if dispatching_response s then s else flush_response_slots s.

(** The callbacks that [create_response_slot] gives to a response. *)
Definition slot_emit (i : nat) (e : response_event) : proc session :=
  match e with ev_stream_end => λ s, (end_stream i s, None) | _ => emit_complete i e end.

Definition slot_emit_write (i : nat) (payload : str) (s : session) : session * option response_exn * stream_write_result :=
  let '(s, r) := write_stream_chunk i payload s in (s, None, r).

Definition create_response_slot (close_after suppress_body : bool) (s : session) : session * option nat :=
  if (max_pending_responses_per_connection (options cfg) <=? length (responses s) + pending_response_writes s)%nat
  then (close s, None)
  else
    let i := length (slots s) in
    let res := set_callbacks true false false false true true fresh_response in
    let sl := Slot res no_snapshot [] false close_after suppress_body false false true false false false 0 [] in
    (happen (se_slot i) (set_responses (responses s ++ [i]) (set_slots (slots s ++ [sl]) s)), Some i).

Definition send_error (status_code : Z) (keep_alive : bool) (s : session) : session :=
  enqueue None (serialize_response (error_response status_code) keep_alive (options cfg) false) (negb keep_alive) false s.

(** Calls on the response of slot [i]. *)
Definition respond (i : nat) (cs : list response_cmd) : proc session :=
  @run_all session (slot_store i) (slot_emit i) (slot_emit_write i) cs.

Definition response_claimed (i : nat) (s : session) : bool :=
  ended (sl_res (slot i s)) || deferred (sl_res (slot i s)) || streaming (sl_res (slot i s)).

Definition finish_response_if_needed (i : nat) : proc session :=
  λ s, if response_claimed i s then (s, None) else respond i [c_end] s.

(** ** Running user code for a request *)

(** The hooks, up to one that stops or claims the response; [false] when the
    handler is not to run. *)
Fixpoint run_hooks (hooks : list nat) (i : nat) (r : server_request) (s : session) : session * (response_exn + bool) :=
  match hooks with
  | [] => (s, inr true)
  | h :: hooks' =>
    match user (se_hook h i r) s with
    | (s, Some e) => (s, inl e)
    | (s, None) =>
      if stops (trace s) h || response_claimed i s then (s, inr false) else run_hooks hooks' i r s
    end
  end.

Definition internal_server_error (i : nat) (s : session) : session :=
  (respond i [c_status 500; c_text (lit "internal server error" ++ lf)] s).1.

Definition handle_exception (i : nat) (r : server_request) (scoped_handler : option nat) (s : session) : session :=
  let s := (respond i [c_reset] s).1 in
  match (match scoped_handler with Some h => Some h | None => server_exception cfg end) with
  | None => internal_server_error i s
  | Some h =>
    match seq (user (se_exception h i r)) (finish_response_if_needed i) s with
    | (s, None) => s
    | (s, Some _) => internal_server_error i (respond i [c_reset] s).1
    end
  end.

(** [try { p } catch (...) { handle_exception }]. *)
Definition try_respond (i : nat) (r : server_request) (scoped_handler : option nat) (p : proc session) (s : session) : session * bool :=
  match p s with
  | (s, None) => (s, true)
  | (s, Some _) => (handle_exception i r scoped_handler s, false)
  end.

(** [dispatch_guard]. *)
Definition dispatching {A} (p : session → session * A) (s : session) : session * A :=
  let '(s, a) := p (set_dispatching_response true s) in
  (flush_response_slots (set_dispatching_response false s), a).

Definition configure_response_observation (i : nat) (r : server_request) (hooks : list nat) (s : session) : session :=
  update_slot i (λ sl, set_sl_hooks hooks (set_sl_request (snapshot_request r) sl)) s.

Definition hooks_then (hooks : list nat) (i : nat) (r : server_request) (p : proc session) : proc session :=
  λ s, match run_hooks hooks i r s with
       | (s, inl e) => (s, Some e)
       | (s, inr false) => finish_response_if_needed i s
       | (s, inr true) => p s
       end.

Definition match_request_route (m : method) (path : route_path) : match_result nat nat nat nat :=
  match router_match (routes cfg) m path with
  | match_found t ctx => match_found t ctx
  | r => if bool_decide (m = m_head) then router_match (routes cfg) m_get path else r
  end.

Definition is_head (m : http1_message) : bool := bool_decide (msg_method m = m_head).

(** A route that did not match: automatic responses and fallback handlers. *)
Definition respond_unmatched (i : nat) (r : server_request) (fallback : fallback_result nat nat) (allowed : list method) : proc session :=
  match allowed with
  | _ :: _ =>
    let allow := c_header (lit "allow") (allow_header_value allowed) in
    if bool_decide (rq_method (sr_request r) = m_options) then respond i [c_status 204; allow; c_end]
    else respond i [c_status 405; allow; c_text (lit "method not allowed" ++ lf)]
  | [] =>
    match fb_not_found fallback, server_not_found cfg with
    | Some h, _ | None, Some h => seq (user (se_handler h i None r)) (finish_response_if_needed i)
    | None, None => respond i [c_status 404; c_text (lit "not found" ++ lf)]
    end
  end.

Definition handle_buffered_message (m : http1_message) (route : match_result nat nat nat nat) (path : route_path)
    (existing_slot : option nat) (s : session) : session :=
  let '(p, q) := split_path_query (msg_target m) in
  let keep_alive := opt_keep_alive (options cfg) && msg_keep_alive m in
  let '(s, created) := match existing_slot with
                       | Some i => (s, Some i)
                       | None => create_response_slot (negb keep_alive) (is_head m) s
                       end in
  match created with
  | None => s
  | Some i =>
    let req := make_request (msg_method m) (msg_target m) p q (msg_headers m) (msg_body m) [] (decoded_segments path) in
    (dispatching (λ s,
      match route with
      | match_found t ctx =>
        let r := ServerRequest (set_request_params (c_params ctx) req) (t_pattern t) in
        let s := configure_response_observation i r (c_on_response ctx) s in
        try_respond i r (c_exception ctx)
          (hooks_then (c_pre_handler ctx) i r (seq (user (se_handler (t_handler t) i None r)) (finish_response_if_needed i))) s
      | _ =>
        let fallback := router_fallback (routes cfg) path in
        let r := ServerRequest (set_request_params (fb_params fallback) req) [] in
        match try_respond i r (fb_exception fallback) (respond_unmatched i r fallback (allowed_methods (routes cfg) path)) s with
        | (s, true) => ((finish_response_if_needed i s).1, true)
        | res => res
        end
      end) s).1
  end.

Definition handle_message (m : http1_message) (s : session) : session :=
  let path := parse_route_path (split_path_query (msg_target m)).1 in
  if negb (valid path) then send_error 400 false s
  else handle_buffered_message m (match_request_route (msg_method m) path) path None s.

(** ** The request being received *)

Definition update_active (f : active_request_state → active_request_state) (s : session) : session :=
  set_active_request (f <$> active_request s) s.

Definition reject (s : session) : session := update_active (set_ar_rejected true) s.

(** The hooks of the route, before the body; [false] when the request is answered. *)
Definition run_on_request_hooks (close_after suppress_body : bool) (s : session) : session * bool :=
  match active_request s with
  | None => (s, false)
  | Some a =>
    match ar_route a with
    | match_found t ctx =>
      match c_on_request ctx with
      | [] => (s, true)
      | hooks =>
        let '(s, created) := match ar_slot a with
                             | Some i => (s, Some i)
                             | None => create_response_slot close_after suppress_body s
                             end in
        match created with
        | None => (reject s, false)
        | Some i =>
          let s := update_active (set_ar_slot (Some i)) s in
          let s := configure_response_observation i (ar_req a) (c_on_response ctx) s in
          dispatching (λ s,
            match run_hooks hooks i (ar_req a) s with
            | (s, inr true) => (s, true)
            | (s, inr false) =>
              let '(s, ok) := try_respond i (ar_req a) (c_exception ctx) (finish_response_if_needed i) s in (reject s, false)
            | (s, inl _) => (reject (handle_exception i (ar_req a) (c_exception ctx) s), false)
            end) s
        end
      end
    | _ => (s, true)
    end
  end.

Definition route_body_timeout (t : route_target nat) : Z := if t_body_timeout t =? 0 then body_timeout (options cfg) else t_body_timeout t.

Definition route_body_limit (t : route_target nat) : Z :=
  if t_max_body_bytes t =? 0 then Z.of_nat (max_body_bytes (options cfg)) else t_max_body_bytes t.

Definition start_body_timeout_if_needed (s : session) : session :=
  match active_request s with
  | None => s
  | Some a =>
    if ar_rejected a || body_processing_paused s || negb (request_has_body (ar_headers a)) then s
    else match ar_route a with
         | match_found t _ => start_timeout phase_body (route_body_timeout t) s
         | _ => start_timeout phase_body (body_timeout (options cfg)) s
         end
  end.

Definition refresh_body_timeout (s : session) : session :=
  if bool_decide (phase s = phase_body) then start_body_timeout_if_needed s else s.

Definition dispatch_stream_request (a : active_request_state) (i : nat) (t : route_target nat) (ctx : match_ctx nat nat nat)
    (s : session) : session :=
  (dispatching (λ s,
    match run_hooks (c_pre_handler ctx) i (ar_req a) s with
    | (s, inr true) =>
      match user (se_handler (t_handler t) i (Some (ar_body_stream a)) (ar_req a)) s with
      | (s, None) => (s, ())
      | (s, Some _) => (reject (handle_exception i (ar_req a) (c_exception ctx) s), ())
      end
    | (s, inr false) =>
      let '(s, ok) := try_respond i (ar_req a) (c_exception ctx) (finish_response_if_needed i) s in (reject s, ())
    | (s, inl _) => (reject (handle_exception i (ar_req a) (c_exception ctx) s), ())
    end) s).1.

Definition new_active (m : http1_message) (route : match_result nat nat nat nat) (path : route_path) (r : server_request) (rejected : bool)
    (s : session) : session :=
  let b := length (bodies s) in
  set_active_request (Some (ActiveRequest m route path r b None 0 rejected))
    (set_bodies (bodies s ++ [BodyStream true false false false false false]) s).

Definition handle_headers (m : http1_message) (s : session) : session :=
  let s := stop_timeout s in
  let '(p, q) := split_path_query (msg_target m) in
  let path := parse_route_path p in
  let req := make_request (msg_method m) (msg_target m) p q (msg_headers m) [] [] (decoded_segments path) in
  if negb (valid path) then send_error 400 false (new_active m match_none path (ServerRequest req []) true s)
  else
    let route := match_request_route (msg_method m) path in
    match route with
    | match_found t ctx =>
      let r := ServerRequest (set_request_params (c_params ctx) req) (t_pattern t) in
      let s := new_active m route path r false s in
      if negb (is_streaming_body_mode (t_body t)) then
        if bool_decide (t_body t = body_none) && request_has_body m then send_error 400 false (reject s)
        else
          let s := start_body_timeout_if_needed s in
          let keep_alive := opt_keep_alive (options cfg) && msg_keep_alive m && negb (request_has_body m) in
          match run_on_request_hooks (negb keep_alive) (is_head m) s with
          | (s, true) => s
          | (s, false) => stop_timeout s
          end
      else
        let keep_alive := opt_keep_alive (options cfg) && msg_keep_alive m in
        let s := start_body_timeout_if_needed s in
        match create_response_slot (negb keep_alive) (is_head m) s with
        | (s, None) => stop_timeout (reject s)
        | (s, Some i) =>
          let s := update_active (set_ar_slot (Some i)) s in
          let s := configure_response_observation i r (c_on_response ctx) s in
          match run_on_request_hooks (negb keep_alive) (is_head m) s with
          | (s, false) => stop_timeout s
          | (s, true) =>
            match active_request s with
            | None => s
            | Some a => dispatch_stream_request a i t ctx (update_body (ar_body_stream a) (set_bs_observed true) s)
            end
          end
        end
    | _ => start_body_timeout_if_needed (new_active m route path (ServerRequest req []) false s)
    end.

(** ** Streamed bodies *)

Definition emit_body_data (b : nat) (chunk : str) (s : session) : session :=
  if bs_active (body b s) && bs_on_data (body b s) then (user (se_body_data b chunk) s).1 else s.

Definition emit_body_end (b : nat) (s : session) : session :=
  if negb (bs_active (body b s)) then s
  else
    let set := bs_on_end (body b s) in
    let s := update_body b (λ x, set_bs_on_end false (set_bs_active false x)) s in
    if set then (user (se_body_end b) s).1 else s.

Definition emit_body_error (b : nat) (e : stream_errc) (s : session) : session :=
  if negb (bs_active (body b s)) then s
  else
    let set := bs_on_error (body b s) in
    let s := update_body b (λ x, set_bs_on_error false (set_bs_active false x)) s in
    if set then (user (se_body_error b e) s).1 else s.

Definition handle_body_chunk (chunk : str) (s : session) : session :=
  match active_request s with
  | None => s
  | Some a =>
    if ar_rejected a then s
    else
      let s := refresh_body_timeout s in
      let received := (ar_received_body_bytes a + length chunk)%nat in
      let s := update_active (set_ar_received_body_bytes received) s in
      let b := ar_body_stream a in
      match ar_route a with
      | match_found t _ =>
        if route_body_limit t <? Z.of_nat received then
          let s := stop_timeout (reject s) in
          let s := if is_streaming_body_mode (t_body t) then emit_body_error b (errc_other 90) s else s in
          if bool_decide (t_body t = body_multipart_stream) then s else send_error 413 false s
        else if is_streaming_body_mode (t_body t) then
          let s := emit_body_data b chunk s in
          if bs_paused (body b s) then set_body_processing_paused true s else s
        else s
      | _ => s
      end
  end.

Definition handle_message_complete (m : http1_message) (s : session) : session :=
  match active_request s with
  | None => handle_message m s
  | Some a =>
    let s := stop_timeout (set_active_request None s) in
    if ar_rejected a then s
    else
      match ar_route a with
      | match_found t _ =>
        if is_streaming_body_mode (t_body t) then emit_body_end (ar_body_stream a) s
        else handle_buffered_message m (ar_route a) (ar_parsed_path a) (ar_slot a) s
      | _ => handle_buffered_message m (ar_route a) (ar_parsed_path a) (ar_slot a) s
      end
  end.

Definition handle_event (e : http1_event) (s : session) : session :=
  match e with
  | ev_headers m => handle_headers m s
  | ev_body chunk => handle_body_chunk chunk s
  | Http1.ev_complete m => handle_message_complete m s
  end.

Definition is_complete (e : http1_event) : bool := match e with Http1.ev_complete _ => true | _ => false end.

(** Each round takes an event; no bytes are parsed in the meantime. *)
Fixpoint process_events (fuel : nat) (stop_before_complete : bool) (s : session) : session :=
  match fuel with
  | O => s
  | S fuel' =>
    if closed s || body_processing_paused s then s
    else
      match events_ (parser s) !! handled_events s with
      | None => s
      | Some e =>
        if stop_before_complete && is_complete e then s
        else process_events fuel' stop_before_complete (handle_event e (set_handled_events (S (handled_events s)) s))
      end
  end.

Definition process_parser_events (stop_before_complete : bool) (s : session) : session :=
  process_events (S (length (events_ (parser s)))) stop_before_complete s.

Definition start_read (s : session) : session := if closed s then s else happen se_read_start s.

Definition pause_request_body (s : session) : session :=
  happen se_read_stop (set_body_processing_paused true (stop_timeout s)).

Definition resume_request_body (s : session) : session :=
  if closed s then s
  else
    let s := process_parser_events false (start_body_timeout_if_needed (set_body_processing_paused false s)) in
    if negb (closed s) && negb (body_processing_paused s) then start_read s else s.

Definition body_pause (b : nat) (s : session) : session :=
  if negb (bs_active (body b s)) || bs_paused (body b s) then s
  else
    let s := update_body b (set_bs_paused true) s in
    if bs_observed (body b s) then pause_request_body s else s.

Definition body_resume (b : nat) (s : session) : session :=
  if negb (bs_active (body b s)) || negb (bs_paused (body b s)) then s
  else
    let s := update_body b (set_bs_paused false) s in
    if bs_observed (body b s) then resume_request_body s else s.

Definition set_body_callback (f : request_body → request_body) (b : nat) (s : session) : session :=
  if bs_active (body b s) then update_body b f s else s.

(** ** Upgrades *)

Fixpoint find_upgrade_route (k : nat) (candidates : list route_path) (path : route_path) : option (nat * route_params) :=
  match candidates with
  | [] => None
  | pattern :: candidates' =>
    match route_pattern_matches pattern path (matching (routes cfg)) [] with
    | (true, params) => Some (k, params)
    | (false, _) => find_upgrade_route (S k) candidates' path
    end
  end.

Definition handle_upgrade (extra_bytes : str) (s : session) : session :=
  match active_request s with
  | None => send_error 400 false s
  | Some a =>
    let m := ar_headers a in
    let '(p, q) := split_path_query (msg_target m) in
    let path := parse_route_path p in
    if negb (valid path) then send_error 400 false s
    else
      match find_upgrade_route 0 (upgrade_routes cfg) path with
      | None => send_error 404 false s
      | Some (k, params) =>
        let r := ServerRequest (make_request (msg_method m) (msg_target m) p q (msg_headers m) [] params (decoded_segments path)) [] in
        match user (se_upgrade k r extra_bytes) s with
        | (s, None) => s
        | (s, Some _) => send_error 500 false s
        end
      end
  end.

Definition accept_upgrade (response : str) (s : session) : session :=
  flush_next (push_write None (PendingWrite response false false true) (happen se_read_stop (close_timeout_timer s))).

(** ** Calls of the user *)

Definition run_user_cmd (c : user_cmd) : proc session := λ s,
  match c with
  | u_response i c =>
    if (i <? length (slots s))%nat && public_cmd c
    then @run_cmd session (slot_store i) (slot_emit i) (slot_emit_write i) c s else (s, None)
  | u_body_on_data b set => (set_body_callback (set_bs_on_data set) b s, None)
  | u_body_on_end b set => (set_body_callback (set_bs_on_end set) b s, None)
  | u_body_on_error b set => (set_body_callback (set_bs_on_error set) b s, None)
  | u_body_pause b => (body_pause b s, None)
  | u_body_resume b => (body_resume b s, None)
  | u_accept response => (accept_upgrade response s, None)
  | u_close => (close s, None)
  | u_throw => (s, Some exn_user)
  end.

Fixpoint run_user_cmds (cs : list user_cmd) : proc session := λ s,
  match cs with
  | [] => (s, None)
  | c :: cs' => match run_user_cmd c s with (s, None) => run_user_cmds cs' s | res => res end
  end.

(** ** What libuv calls *)

Inductive read_result := read_eof | read_failed (e : stream_errc) | read_bytes (bytes : str) (run : llhttp_run).

Definition on_read (result : read_result) (s : session) : session :=
  if closed s || timeout_closing s then s
  else
    match result with
    | read_eof => close (notify_stream_errors (errc_other 104) s)
    | read_failed e => close (notify_stream_errors e s)
    | read_bytes bytes run =>
      let s :=
        if bool_decide (phase s = phase_idle) then start_timeout phase_header (header_timeout (options cfg)) (stop_timeout s)
        else if bool_decide (phase s = phase_none) && no_active_request s
        then start_timeout phase_header (header_timeout (options cfg)) s else s in
      let '(parser, result) := Http1.parse (parser s) bytes run in
      let s := set_parser parser s in
      match code result with
      | status_error => send_error 400 false (stop_timeout s)
      | status_upgrade =>
        let s := process_parser_events true s in
        let parsed_bytes := Z.to_nat (Z.min (parsed_bytes result) (Z.of_nat (length bytes))) in
        handle_upgrade (drop parsed_bytes bytes) s
      | status_ok => process_parser_events false s
      end
    end.

Definition maybe_start_idle_timeout (s : session) : session :=
  if closed s || timeout_closing s || negb (bool_decide (phase s = phase_none)) || negb (opt_keep_alive (options cfg)) then s
  else if negb (no_active_request s) || body_processing_paused s || writing s ||
          negb (no_writes s) || negb (bool_decide (responses s = [])) then s
  else if negb (pending_response_writes s =? 0)%nat || (handled_events s <? length (events_ (parser s)))%nat then s
  else start_timeout phase_idle (idle_timeout (options cfg)) s.

Definition pop_write (s : session) : session :=
  match writes s with
  | [] => s
  | w :: rest =>
    let s := set_pending_write_bytes (pending_write_bytes s - length (pw_payload w)) s in
    let s := if pw_counts_response w then set_pending_response_writes (pred (pending_response_writes s)) s else s in
    set_writes rest s
  end.

Definition on_write (error : option stream_errc) (s : session) : session :=
  let s := set_writing false s in
  if closed s then s
  else
    match error with
    | Some e => close (cancel_pending_responses outcome_error (notify_stream_errors e s))
    | None =>
      let front := head (writes s) in
      let s := pop_write s in
      if from_option pw_upgrade false front then happen se_upgraded (set_closed true s)
      else
        let s := notify_drains s in
        if from_option pw_close_after false front then close s
        else maybe_start_idle_timeout (flush_next s)
    end.

Definition on_timeout (p : timeout_phase) (s : session) : session :=
  if closed s || timeout_timer_closed s || negb (bool_decide (p = phase s)) then s
  else
    let s := set_phase phase_none (set_timeout_timer_active false s) in
    match p with
    | phase_header => send_error 408 false (happen se_read_stop (set_timeout_closing true s))
    | phase_body =>
      let s := set_timeout_closing true s in
      let s := match active_request s with
               | Some a =>
                 match ar_route a with
                 | match_found t _ =>
                   if is_streaming_body_mode (t_body t) then emit_body_error (ar_body_stream a) (errc_other 110) s else s
                 | _ => s
                 end
               | None => s
               end in
      close (cancel_pending_responses outcome_error (notify_stream_errors (errc_other 110) s))
    | phase_idle => close s
    | phase_none => s
    end.

Definition start (s : session) : session := start_read (start_timeout phase_header (header_timeout (options cfg)) s).
End session.

(** ** Runs *)

Section runs.
Context (cfg : server_config).
(** The user: the calls that a callback makes, and the answers of the hooks. *)
Context (calls : list session_event → session_event → list user_cmd) (stops : list session_event → nat → bool).

(** Callbacks nested deeper than [depth] make no calls. *)
Fixpoint user_at (depth : nat) (e : session_event) : proc session := λ s,
  let s := happen e s in
  match depth with
  | O => (s, None)
  | S depth' => run_user_cmds cfg (user_at depth') stops (calls (trace s) e) s
  end.

(** A stream calls [on_write] once for every write. *)
Inductive session_op :=
| op_start
| op_read (result : read_result)
| op_write_done (error : option stream_errc)
| op_timeout (p : timeout_phase)
| op_call (c : user_cmd).

Definition run_session_op (depth : nat) (s : session) (op : session_op) : session :=
  match op with
  | op_start => start cfg s
  | op_read result => on_read cfg (user_at depth) stops result s
  | op_write_done error => if writing s then on_write cfg (user_at depth) error s else s
  | op_timeout p => on_timeout cfg (user_at depth) p s
  | op_call c => (run_user_cmd cfg (user_at depth) stops c s).1
  end.

Definition new_session : session :=
  Session [] [] [] 0 0 false false false false false false false phase_none (Http1.init (header_limits cfg)) 0 None [] [].

Definition run_session (depth : nat) (ops : list session_op) : session := foldl (run_session_op depth) new_session ops.
End runs.
