(* ===== verification/ServerTheory.v ===== *)
(** * The steps of a server connection

    [tick] is an abstract machine for the output of a connection: the slots, the
    queues and what is written.  Every operation of [ServerSession], with
    whatever the user calls back, is a sequence of its steps ([run_ticks]), so
    that an invariant of the output is proved by cases on the steps. *)

From stdpp Require Import relations.
From S2P Require Import Prelude Text Http RoutePath Router Http1 Request Response ServerWire ServerState.
From S2P Require Import ServerSession.

Open Scope Z_scope.

Definition inert_event (e : session_event) : bool :=
  match e with
  | se_slot _ | se_push _ _ | se_accept _ _ | se_write _ | se_close | se_upgraded => false
  | _ => true
  end.

(** The slot of the request being received exists. *)
Definition active_ok (s : session) : Prop :=
  ∀ a i, active_request s = Some a → ar_slot a = Some i → (i < length (slots s))%nat.

(** Changes of the request side and of the user: what the output is made of stays. *)
Record inert (s s' : session) : Prop := {
  in_slots : slots s' = slots s;
  in_responses : responses s' = responses s;
  in_writes : writes s' = writes s;
  in_bytes : pending_write_bytes s' = pending_write_bytes s;
  in_pending : pending_response_writes s' = pending_response_writes s;
  in_writing : writing s' = writing s;
  in_closed : closed s' = closed s;
  in_trace : ∃ es, trace s' = trace s ++ es ∧ forallb inert_event es = true;
  in_active : active_ok s → active_ok s'
}.

(** Changes of a slot that do not touch what it has sent and will send. *)
Definition same_wire (sl sl' : response_slot) : Prop :=
  completed sl' = completed sl ∧ close_after sl' = close_after sl ∧ suppress_body sl' = suppress_body sl ∧
  sl_streaming sl' = sl_streaming sl ∧ stream_headers_queued sl' = stream_headers_queued sl ∧
  stream_chunked sl' = stream_chunked sl ∧ stream_ended sl' = stream_ended sl ∧ stream_writes sl' = stream_writes sl.

Section tick.
(** [faults]: whether a write may fail. *)
Context (cfg : server_config) (faults : bool).

(** Writing to a stream that is open. *)
Definition stream_open (i : nat) (s : session) : Prop :=
  closed s = false ∧ completed (slot i s) = false ∧ stream_ended (slot i s) = false.

Inductive tick : session → session → Prop :=
| tick_inert s s' : inert s s' → tick s s'
| tick_slot i f s : (∀ sl, same_wire sl (f sl)) → tick s (update_slot i f s)
| tick_complete i s : completed (slot i s) = false → tick s (update_slot i (set_completed true) s)
| tick_stream i s : stream_open i s → tick s (update_slot i (set_sl_streaming true) s)
| tick_write i payload s : (i < length (slots s))%nat → stream_open i s → suppress_body (slot i s) = false →
    tick s (queue_stream_chunk i payload (queue_stream_head cfg i false (update_slot i (set_sl_streaming true) s)))
| tick_end i s : (i < length (slots s))%nat → stream_open i s → tick s (queue_stream_end cfg i s)
| tick_move i rest s : responses s = i :: rest → sl_streaming (slot i s) = true →
    tick s (flush_stream_writes i s)
| tick_pop_stream i rest s : responses s = i :: rest → sl_streaming (slot i s) = true → completed (slot i s) = true →
    stream_writes (slot i s) = [] → tick s (set_responses rest s)
| tick_pop_buffered i rest s : responses s = i :: rest → sl_streaming (slot i s) = false → completed (slot i s) = true →
    tick s
      (enqueue (Some i) (serialize_response (sl_res (slot i s)) (negb (close_after (slot i s))) (options cfg) (suppress_body (slot i s)))
         (close_after (slot i s)) true (set_pending_response_writes (S (pending_response_writes s)) (set_responses rest s)))
| tick_clear s : tick s (set_responses [] s)
| tick_send_error status_code keep_alive s : tick s (send_error cfg status_code keep_alive s)
| tick_accept response s : tick s (flush_next (push_write None (PendingWrite response false false true) s))
| tick_create i close_after suppress_body s s' : create_response_slot cfg (λ _, done) close_after suppress_body s = (s', Some i) → tick s s'
| tick_close s : closed s = false → tick s (set_closed true s)
| tick_shut s : closed s = true → tick s (happen se_close s)
| tick_flush_next s : tick s (flush_next s)
| tick_fail s : writing s = true → closed s || faults = true → tick s (set_writing false s)
| tick_written s : writing s = true → closed s = false → from_option pw_upgrade false (head (writes s)) = false →
    tick s (pop_write (set_writing false s))
| tick_upgraded s : writing s = true → closed s = false → from_option pw_upgrade false (head (writes s)) = true →
    tick s (happen se_upgraded (set_closed true (pop_write (set_writing false s)))).

Definition ticks : relation session := rtc tick.

Lemma inert_refl s : inert s s.
Proof. constructor; try done. exists []. by rewrite app_nil_r. Qed.

Lemma inert_trans s1 s2 s3 : inert s1 s2 → inert s2 s3 → inert s1 s3.
Proof.
  intros [? ? ? ? ? ? ? (es & E & He) ?] [? ? ? ? ? ? ? (es' & E' & He') ?]. constructor; try congruence; [|by auto].
  exists (es ++ es'). rewrite E', E, forallb_app, He, He', app_assoc. done.
Qed.

Lemma inert_happen e s : inert_event e = true → inert s (happen e s).
Proof. intros H. constructor; try done. exists [e]. cbn. by rewrite H. Qed.

Lemma inert_same s s' :
  slots s' = slots s → responses s' = responses s → writes s' = writes s → pending_write_bytes s' = pending_write_bytes s →
  pending_response_writes s' = pending_response_writes s → writing s' = writing s → closed s' = closed s → trace s' = trace s →
  active_request s' = active_request s → inert s s'.
Proof.
  intros Hs ? ? ? ? ? ? ? Ha. constructor; try done; [exists []; by rewrite app_nil_r|]. unfold active_ok. by rewrite Hs, Ha.
Qed.

Lemma inert_active s s' :
  slots s' = slots s → responses s' = responses s → writes s' = writes s → pending_write_bytes s' = pending_write_bytes s →
  pending_response_writes s' = pending_response_writes s → writing s' = writing s → closed s' = closed s → trace s' = trace s →
  (active_ok s → active_ok s') → inert s s'.
Proof. intros. constructor; try done. exists []; by rewrite app_nil_r. Qed.

End tick.

#[export] Instance ticks_preorder cfg faults : PreOrder (ticks cfg faults).
Proof. unfold ticks. apply _. Qed.

(** ** What the steps keep *)

Section facts.
Context (cfg : server_config) (faults : bool).

Lemma closed_ticks s s' : ticks cfg faults s s' → closed s = true → closed s' = true.
Proof.
  intros H. induction H as [|s1 s2 s3 Ht _ IH]; [done|]. intros Hc. apply IH. clear IH. destruct Ht; cbn in *; try congruence.
  - by rewrite (in_closed _ _ H).
  - unfold queue_stream_chunk, queue_stream_head. by destruct payload, (stream_headers_queued _).
  - unfold queue_stream_end, queue_stream_head. repeat case_match; done.
  - unfold flush_stream_writes. generalize (stream_writes (slot i s)). intros ws.
    assert (E : ∀ s0, closed s0 = true → closed (foldl (λ s w, push_write (Some i) w s) s0 ws) = true).
    { induction ws as [|w ws IH]; intros s0 Hs0; [done|]. by apply IH. }
    unfold flush_next. destruct (writes _); [by apply E|]. rewrite E by done. cbn. by apply E.
  - unfold enqueue, flush_next. cbn. rewrite Hc. cbn. by destruct (writes s ++ _).
  - unfold send_error, enqueue, flush_next. cbn. rewrite Hc. by destruct (writes s ++ _).
  - unfold flush_next. cbn. rewrite Hc. by destruct (writes s ++ _).
  - unfold create_response_slot in H. destruct (_ <=? _)%nat; [done|]. by injection H as <- _.
  - unfold flush_next. destruct (writes s); [done|]. by rewrite Hc.
Qed.

Lemma slot_update i f s : (i < length (slots s))%nat → slot i (update_slot i f s) = f (slot i s).
Proof.
  intros H. unfold slot, update_slot. cbn. rewrite list_lookup_alter, decide_True by done.
  destruct (lookup_lt_is_Some_2 (slots s) i H) as [sl ->]. done.
Qed.

Lemma slot_update_ne i j f s : i ≠ j → slot j (update_slot i f s) = slot j s.
Proof. intros H. unfold slot, update_slot. cbn. by rewrite list_lookup_alter, decide_False. Qed.

Lemma flush_next_same s :
  slots (flush_next s) = slots s ∧ responses (flush_next s) = responses s ∧ writes (flush_next s) = writes s ∧
  pending_write_bytes (flush_next s) = pending_write_bytes s ∧ pending_response_writes (flush_next s) = pending_response_writes s ∧
  closed (flush_next s) = closed s.
Proof. unfold flush_next. destruct (writes s) eqn:E; [by rewrite E|]. destruct (closed s) eqn:Ec, (writing s); split_and!; cbn; congruence. Qed.

Lemma enqueue_same i payload close_after counts s :
  let s' := enqueue i payload close_after counts s in
  slots s' = slots s ∧ responses s' = responses s ∧ writes s' = writes s ++ [PendingWrite payload close_after counts false] ∧
  pending_write_bytes s' = (pending_write_bytes s + length payload)%nat ∧ pending_response_writes s' = pending_response_writes s ∧
  closed s' = closed s.
Proof. cbn. unfold enqueue. rewrite !(proj1 (flush_next_same _)). by destruct (flush_next_same (push_write i (PendingWrite payload close_after counts false)
  (set_pending_write_bytes (pending_write_bytes s + length payload) s))) as (_ & -> & -> & -> & -> & ->). Qed.

Lemma push_writes_same i ws s :
  let s' := foldl (λ s w, push_write i w s) s ws in
  slots s' = slots s ∧ responses s' = responses s ∧ writes s' = writes s ++ ws ∧
  pending_write_bytes s' = pending_write_bytes s ∧ pending_response_writes s' = pending_response_writes s ∧
  closed s' = closed s ∧ writing s' = writing s ∧ trace s' = trace s ++ map (λ w, se_push i (pw_payload w)) ws.
Proof.
  cbn. revert s. induction ws as [|w ws IH]; intros s; cbn [foldl map]; [by rewrite !app_nil_r|].
  destruct (IH (push_write i w s)) as (-> & -> & -> & -> & -> & -> & -> & ->). cbn. by rewrite <-!app_assoc.
Qed.

Lemma flush_stream_same i s :
  let s' := flush_stream_writes i s in
  slots s' = alter (set_stream_writes []) i (slots s) ∧ responses s' = responses s ∧ writes s' = writes s ++ stream_writes (slot i s) ∧
  pending_write_bytes s' = pending_write_bytes s ∧ pending_response_writes s' = pending_response_writes s ∧ closed s' = closed s.
Proof.
  cbn. unfold flush_stream_writes.
  destruct (flush_next_same (foldl (λ s w, push_write (Some i) w s) (update_slot i (set_stream_writes []) s) (stream_writes (slot i s))))
    as (-> & -> & -> & -> & -> & ->).
  destruct (push_writes_same (Some i) (stream_writes (slot i s)) (update_slot i (set_stream_writes []) s))
    as (-> & -> & -> & -> & -> & -> & _). done.
Qed.

Lemma slots_length s s' : ticks cfg faults s s' → (length (slots s) ≤ length (slots s'))%nat.
Proof.
  intros H. induction H as [|s1 s2 s3 Ht _ IH]; [done|]. etransitivity; [|exact IH]. clear IH.
  destruct Ht; try done; try (by unfold update_slot; cbn; rewrite length_alter).
  - by rewrite (in_slots _ _ H).
  - unfold queue_stream_chunk, queue_stream_head. destruct payload, (stream_headers_queued _); cbn; by rewrite !length_alter.
  - unfold queue_stream_end, queue_stream_head. repeat case_match; cbn; by rewrite !length_alter.
  - destruct (flush_stream_same i s) as (-> & _). by rewrite length_alter.
  - by rewrite (proj1 (enqueue_same _ _ _ _ _)).
  - unfold send_error. by rewrite (proj1 (enqueue_same _ _ _ _ _)).
  - by rewrite (proj1 (flush_next_same _)).
  - unfold create_response_slot in H. destruct (_ <=? _)%nat; [done|]. injection H as <- _. cbn. rewrite length_app. lia.
  - by rewrite (proj1 (flush_next_same _)).
  - unfold pop_write. cbn. by destruct (writes s) as [|w ws]; [|destruct (pw_counts_response w)].
  - unfold pop_write. cbn. by destruct (writes s) as [|w ws]; [|destruct (pw_counts_response w)].
Qed.

Lemma tick_active s s' : tick cfg faults s s' → active_ok s → active_ok s'.
Proof.
  intros Ht Ha. assert (Hl : (length (slots s) ≤ length (slots s'))%nat) by (by apply slots_length, rtc_once).
  assert (Hsame : active_request s' = active_request s → active_ok s').
  { intros E a i. rewrite E. intros H1 H2. specialize (Ha a i H1 H2). lia. }
  assert (Hflush : ∀ s, active_request (flush_next s) = active_request s).
  { intros s0. unfold flush_next. destruct (writes s0); [done|]. by destruct (closed s0), (writing s0). }
  assert (Hpush : ∀ i ws s, active_request (foldl (λ s w, push_write i w s) s ws) = active_request s).
  { intros i ws. induction ws as [|w ws IH]; intros s0; [done|]. cbn [foldl]. by rewrite IH. }
  destruct Ht; try (by apply Hsame).
  - by apply (in_active _ _ H).
  - apply Hsame. unfold queue_stream_chunk, queue_stream_head. by destruct payload, (stream_headers_queued _).
  - apply Hsame. unfold queue_stream_end, queue_stream_head. repeat case_match; done.
  - apply Hsame. unfold flush_stream_writes. by rewrite Hflush, Hpush.
  - apply Hsame. unfold enqueue. by rewrite Hflush.
  - apply Hsame. unfold send_error, enqueue. by rewrite Hflush.
  - apply Hsame. by rewrite Hflush.
  - apply Hsame. unfold create_response_slot in H. destruct (_ <=? _)%nat; [done|]. by injection H as <- _.
  - apply Hsame. unfold pop_write. cbn. by destruct (writes s) as [|w ws]; [|destruct (pw_counts_response w)].
  - apply Hsame. unfold pop_write. cbn. by destruct (writes s) as [|w ws]; [|destruct (pw_counts_response w)].
Qed.

Lemma ticks_active s s' : ticks cfg faults s s' → active_ok s → active_ok s'.
Proof. induction 1; [done|]. intros. eauto using tick_active. Qed.

(** Runs from states where the slot of the current request exists. *)
Definition runs (s s' : session) : Prop := active_ok s → ticks cfg faults s s'.

#[export] Instance runs_preorder : PreOrder runs.
Proof.
  split; [intros s _; reflexivity|]. intros s1 s2 s3 H1 H2 Ha. etransitivity; [by apply H1|]. apply H2. by apply (ticks_active _ _ (H1 Ha)).
Qed.
End facts.

Lemma runs_inert cfg faults s s' : inert s s' → runs cfg faults s s'.
Proof. intros H _. by apply rtc_once, tick_inert. Qed.

(** Changes that [inert_same] proves. *)
Ltac quiet := apply runs_inert; by apply inert_same.


Section operations.
Context (cfg : server_config) (faults : bool) (user : session_event → proc session) (stops : list session_event → nat → bool).
Context (Huser : ∀ e s, inert_event e = true → runs cfg faults s (user e s).1).
Notation "s ⟶ s'" := (runs cfg faults s s') (at level 70).

Lemma runs_once s s' : tick cfg faults s s' → s ⟶ s'.
Proof. intros H _. by apply rtc_once. Qed.

Lemma ticks_step s1 s2 s3 : tick cfg faults s1 s2 → s2 ⟶ s3 → s1 ⟶ s3.
Proof. intros H. etransitivity; [by apply runs_once|done]. Qed.

Lemma ticks_snoc s1 s2 s3 : s1 ⟶ s2 → tick cfg faults s2 s3 → s1 ⟶ s3.
Proof. intros H1 H2. etransitivity; [exact H1|by apply runs_once]. Qed.

Lemma foldl_ticks {A} (f : session → A → session) (l : list A) s : (∀ x s, s ⟶ f s x) → s ⟶ foldl f s l.
Proof.
  intros Hf. revert s. induction l as [|x l IH]; intros s; cbn [foldl]; [reflexivity|]. etransitivity; [apply Hf|apply IH].
Qed.

Lemma user_ticks e s : inert_event e = true → s ⟶ (user e s).1.
Proof. apply Huser. Qed.

(** ** Timers and quiet changes *)

Lemma stop_timeout_ticks s : s ⟶ stop_timeout s.
Proof. quiet. Qed.

Lemma start_timeout_ticks p d s : s ⟶ start_timeout p d s.
Proof.
  unfold start_timeout. destruct (_ || _); [reflexivity|]. etransitivity; [|by apply runs_inert, inert_happen]. quiet.
Qed.

Lemma close_timeout_timer_ticks s : s ⟶ close_timeout_timer s.
Proof. unfold close_timeout_timer. destruct (timeout_timer_closed s); [reflexivity|quiet]. Qed.

Lemma happen_ticks e s : inert_event e = true → s ⟶ happen e s.
Proof. intros H. by apply runs_inert, inert_happen. Qed.

Lemma flush_next_ticks s : s ⟶ flush_next s.
Proof. apply runs_once, tick_flush_next. Qed.

Lemma slot_ticks i f s : (∀ sl, same_wire sl (f sl)) → s ⟶ update_slot i f s.
Proof. intros H. by apply runs_once, tick_slot. Qed.

Lemma res_ticks i r s : s ⟶ @rput session (slot_store i) r s.
Proof. by apply slot_ticks. Qed.

(** ** Cancelled and observed responses *)

Lemma emit_user_ticks i e s : s ⟶ (emit_user user i e s).1.
Proof. destruct e; cbn; try reflexivity; by apply user_ticks. Qed.

Lemma run_response_hooks_ticks i outcome s : s ⟶ run_response_hooks user i outcome s.
Proof.
  unfold run_response_hooks. destruct (response_hooks_ran _); [reflexivity|].
  etransitivity; [by apply (slot_ticks i (set_response_hooks_ran true))|]. apply foldl_ticks. intros h s'. by apply user_ticks.
Qed.

Lemma cancel_slot_ticks outcome s i : s ⟶ cancel_slot user outcome s i.
Proof.
  unfold cancel_slot. destruct (completed _); [reflexivity|]. etransitivity; [|apply run_response_hooks_ticks].
  apply (@framed_cancel session (slot_store i) (runs cfg faults) _); [apply res_ticks|intros e s'; apply emit_user_ticks].
Qed.

Lemma cancel_pending_ticks outcome s : s ⟶ cancel_pending_responses user outcome s.
Proof.
  unfold cancel_pending_responses. eapply ticks_snoc; [|apply tick_clear]. apply foldl_ticks. intros i s'. apply cancel_slot_ticks.
Qed.

Lemma close_ticks s : s ⟶ ServerSession.close user s.
Proof.
  unfold ServerSession.close. destruct (closed s) eqn:Hc; [reflexivity|].
  set (s1 := cancel_pending_responses user outcome_cancelled (close_timeout_timer (set_closed true s))).
  assert (H : set_closed true s ⟶ s1).
  { etransitivity; [apply close_timeout_timer_ticks|apply cancel_pending_ticks]. }
  eapply ticks_step; [by apply tick_close|]. intros Ha. etransitivity; [by apply H|].
  eapply rtc_l; [by apply tick_inert, (inert_happen se_read_stop)|].
  apply rtc_once, tick_shut. by apply (closed_ticks _ _ _ _ (H Ha)).
Qed.

Lemma notify_stream_errors_ticks e s : s ⟶ notify_stream_errors user e s.
Proof.
  unfold notify_stream_errors. apply foldl_ticks. intros i s'. destruct (_ && _); [|reflexivity].
  apply (@framed_error session (slot_store i) (runs cfg faults) _); intros e0 s0; apply emit_user_ticks.
Qed.

Lemma notify_drains_ticks s : s ⟶ notify_drains cfg user s.
Proof.
  unfold notify_drains. destruct (_ <? _)%nat; [reflexivity|]. apply foldl_ticks. intros i s'.
  destruct (stream_backpressured _); [|reflexivity].
  etransitivity; [by apply (slot_ticks i (set_stream_backpressured false))|].
  apply (@framed_drain session (slot_store i) (runs cfg faults) _); intros e0 s0; apply emit_user_ticks.
Qed.

(** ** Slots and flushing *)

Lemma flush_loop_ticks fuel s : s ⟶ flush_loop cfg user fuel s.
Proof.
  revert s. induction fuel as [|fuel IH]; intros s; [reflexivity|]. cbn [flush_loop].
  destruct (responses s) as [|i rest] eqn:Er; [reflexivity|].
  destruct (sl_streaming (slot i s)) eqn:Es; cbv zeta.
  - assert (Hi : (i < length (slots s))%nat).
    { destruct (decide (i < length (slots s))%nat); [done|]. unfold slot in Es. by rewrite lookup_ge_None_2 in Es by lia. }
    destruct (flush_stream_same i s) as (F1 & F2 & _). set (s1 := flush_stream_writes i s) in *.
    assert (Hsl : slot i s1 = set_stream_writes [] (slot i s)).
    { unfold slot. rewrite F1. fold (slot i (update_slot i (set_stream_writes []) s)). by apply slot_update. }
    eapply ticks_step; [by eapply tick_move|]. fold s1. rewrite Hsl. cbn [completed set_stream_writes stream_writes].
    destruct (completed (slot i s)) eqn:Ec; cbn [negb orb]; [|reflexivity].
    eapply ticks_step; [eapply (tick_pop_stream _ _ i rest); rewrite ?F2, ?Hsl; cbn; congruence|].
    destruct (close_after _); [apply cancel_pending_ticks|apply IH].
  - destruct (completed (slot i s)) eqn:Ec; cbn [negb]; [|reflexivity].
    eapply ticks_step; [by eapply tick_pop_buffered|].
    destruct (close_after _); [apply cancel_pending_ticks|apply IH].
Qed.

Lemma flush_ticks s : s ⟶ flush_response_slots cfg user s.
Proof. apply flush_loop_ticks. Qed.

Lemma complete_response_ticks i s : s ⟶ complete_response cfg user i s.
Proof.
  unfold complete_response. destruct (completed _) eqn:E; [reflexivity|]. cbv zeta.
  eapply ticks_step; [by apply tick_complete|]. etransitivity; [apply run_response_hooks_ticks|].
  destruct (dispatching_response _); [reflexivity|apply flush_ticks].
Qed.

(** Calls on a slot that exists. *)
Definition ticks_at (i : nat) (s s' : session) : Prop := (i < length (slots s))%nat → runs cfg faults s s'.

Lemma ticks_at_intro i s s' : s ⟶ s' → ticks_at i s s'.
Proof. by intros H _. Qed.

#[local] Instance ticks_at_preorder i : PreOrder (ticks_at i).
Proof.
  split; [intros s _; reflexivity|]. intros s1 s2 s3 H1 H2 Hi. intros Ha. etransitivity; [by apply H1|].
  apply H2; [pose proof (slots_length _ _ _ _ (H1 Hi Ha)); lia|]. by apply (ticks_active _ _ _ _ (H1 Hi Ha)).
Qed.

Lemma stream_open_intro i s :
  closed s || completed (slot i s) || stream_ended (slot i s) = false → stream_open i s.
Proof. by intros [[? ?]%orb_false_iff ?]%orb_false_iff. Qed.

Lemma write_stream_chunk_ticks i payload s : ticks_at i s (write_stream_chunk cfg user i payload s).1.
Proof.
  intros Hi. unfold write_stream_chunk. destruct (_ || _ || _) eqn:Ho; [reflexivity|]. apply stream_open_intro in Ho.
  destruct (stream_backpressured _); [reflexivity|]. cbv zeta. rewrite slot_update by done. cbn [suppress_body set_sl_streaming].
  destruct (suppress_body (slot i s)) eqn:Es; cbn [fst].
  - by apply runs_once, tick_stream.
  - eapply ticks_step; [by apply (tick_write _ _ i payload)|]. etransitivity; [apply flush_ticks|].
    destruct (_ <=? _)%nat; cbn [fst]; [|reflexivity]. by apply slot_ticks.
Qed.

Lemma emit_complete_ticks i e s : s ⟶ (emit_complete cfg user i e s).1.
Proof. destruct e; cbn; try reflexivity; try (by apply user_ticks). apply complete_response_ticks. Qed.

Lemma end_stream_ticks i s : ticks_at i s (end_stream cfg user i s).
Proof.
  intros Hi. unfold end_stream. destruct (_ || _ || _) eqn:Ho; [reflexivity|]. apply stream_open_intro in Ho. cbv zeta.
  eapply ticks_step; [by apply (tick_end _ _ i)|].
  assert (H : ∀ s, s ⟶ (@complete_stream session (slot_store i) (emit_complete cfg user i) s).1).
  { intros s'. apply (@framed_complete_stream session (slot_store i) (runs cfg faults) _); [apply res_ticks|intros e0 s0; apply emit_complete_ticks]. }
  etransitivity; [apply H|]. destruct (dispatching_response _); [reflexivity|apply flush_ticks].
Qed.

Lemma slot_emit_ticks i e s : ticks_at i s (slot_emit cfg user i e s).1.
Proof. destruct e; cbn [slot_emit]; try (apply ticks_at_intro, emit_complete_ticks). apply end_stream_ticks. Qed.

Lemma slot_emit_write_ticks i payload s : ticks_at i s (slot_emit_write cfg user i payload s).1.1.
Proof.
  pose proof (write_stream_chunk_ticks i payload s) as H. unfold slot_emit_write. by destruct (write_stream_chunk _ _ _ _ _).
Qed.

Lemma response_cmd_ticks i c s : ticks_at i s (@run_cmd session (slot_store i) (slot_emit cfg user i) (slot_emit_write cfg user i) c s).1.
Proof.
  apply (@framed_cmd session (slot_store i) (ticks_at i) _).
  - intros r s'. apply ticks_at_intro, res_ticks.
  - intros e s'. apply slot_emit_ticks.
  - intros chunk s'. apply slot_emit_write_ticks.
Qed.

Lemma respond_ticks i cs s : ticks_at i s (respond cfg user i cs s).1.
Proof.
  apply (@framed_all session (slot_store i) (ticks_at i) _).
  - intros r s'. apply ticks_at_intro, res_ticks.
  - intros e s'. apply slot_emit_ticks.
  - intros chunk s'. apply slot_emit_write_ticks.
Qed.

Lemma create_slot_ticks close_after suppress s : s ⟶ (create_response_slot cfg user close_after suppress s).1.
Proof.
  destruct (create_response_slot cfg user close_after suppress s) as [s' [i|]] eqn:E; cbn.
  - apply runs_once, (tick_create _ _ i close_after suppress). revert E. unfold create_response_slot. by destruct (_ <=? _)%nat.
  - unfold create_response_slot in E. destruct (_ <=? _)%nat; [|done]. injection E as <-. apply close_ticks.
Qed.

Lemma create_slot_bound close_after suppress s s' i :
  create_response_slot cfg user close_after suppress s = (s', Some i) → (i < length (slots s'))%nat.
Proof.
  unfold create_response_slot. destruct (_ <=? _)%nat; [done|]. intros [= <- <-]. cbn. rewrite length_app. cbn. lia.
Qed.

Lemma send_error_ticks code ka s : s ⟶ send_error cfg code ka s.
Proof. apply runs_once, tick_send_error. Qed.

(** ** User code for a request *)

(** Inside a request, the slot of its response exists. *)
Notation at_slot i f := (∀ s, ticks_at i s (f s)).

Lemma at_slot_user i e s : inert_event e = true → ticks_at i s (user e s).1.
Proof. intros H. by apply ticks_at_intro, user_ticks. Qed.

Lemma seq_at_slot i (p q : proc session) : at_slot i (λ s, (p s).1) → at_slot i (λ s, (q s).1) → at_slot i (λ s, (seq p q s).1).
Proof.
  intros Hp Hq s. unfold seq. specialize (Hp s). cbv beta in Hp. destruct (p s) as [s' [e|]]; [done|]. transitivity s'; [done|apply Hq].
Qed.

Lemma finish_at_slot i s : ticks_at i s (finish_response_if_needed cfg user i s).1.
Proof. unfold finish_response_if_needed. destruct (response_claimed i s); [reflexivity|apply respond_ticks]. Qed.

Lemma run_hooks_at_slot hooks i r s : ticks_at i s (run_hooks user stops hooks i r s).1.
Proof.
  revert s. induction hooks as [|h hooks IH]; intros s; cbn [run_hooks]; [reflexivity|].
  pose proof (at_slot_user i (se_hook h i r) s eq_refl) as H. destruct (user _ s) as [s' [e|]]; cbn [fst] in *; [done|].
  destruct (_ || _); [done|]. transitivity s'; [done|apply IH].
Qed.

Lemma internal_error_at_slot i s : ticks_at i s (internal_server_error cfg user i s).
Proof. apply respond_ticks. Qed.

Lemma handle_exception_at_slot i r scoped s : ticks_at i s (handle_exception cfg user i r scoped s).
Proof.
  unfold handle_exception. transitivity (respond cfg user i [c_reset] s).1; [apply respond_ticks|].
  generalize (respond cfg user i [c_reset] s).1. intros s1. cbv zeta.
  destruct (match scoped with Some h => Some h | None => server_exception cfg end) as [h|]; [|apply internal_error_at_slot].
  pose proof (seq_at_slot i (user (se_exception h i r)) (finish_response_if_needed cfg user i)
    (λ s, at_slot_user i (se_exception h i r) s eq_refl) (finish_at_slot i) s1) as H. cbv beta in H.
  destruct (seq _ _ s1) as [s2 [e|]]; cbn [fst] in H; [|done].
  transitivity s2; [done|]. transitivity (respond cfg user i [c_reset] s2).1; [apply respond_ticks|apply internal_error_at_slot].
Qed.

Lemma try_respond_at_slot i r scoped p s : at_slot i (λ s, (p s).1) → ticks_at i s (try_respond cfg user i r scoped p s).1.
Proof.
  intros Hp. unfold try_respond. specialize (Hp s). cbv beta in Hp. destruct (p s) as [s' [e|]]; cbn [fst] in *; [|done].
  transitivity s'; [done|apply handle_exception_at_slot].
Qed.

Lemma dispatching_at_slot {A} i (p : session → session * A) s : at_slot i (λ s, (p s).1) → ticks_at i s (dispatching cfg user p s).1.
Proof.
  intros Hp. unfold dispatching. specialize (Hp (set_dispatching_response true s)). cbv beta in Hp.
  destruct (p _) as [s' a]; cbn [fst] in *. transitivity (set_dispatching_response true s); [apply ticks_at_intro; quiet|].
  transitivity s'; [done|]. apply ticks_at_intro. etransitivity; [|apply flush_ticks]. quiet.
Qed.

Lemma configure_at_slot i r hooks s : ticks_at i s (configure_response_observation i r hooks s).
Proof. by apply ticks_at_intro, slot_ticks. Qed.

Lemma hooks_then_at_slot hooks i r p : at_slot i (λ s, (p s).1) → at_slot i (λ s, (hooks_then cfg user stops hooks i r p s).1).
Proof.
  intros Hp s. unfold hooks_then. pose proof (run_hooks_at_slot hooks i r s) as H.
  destruct (run_hooks _ _ _ _ _ s) as [s' [e|[]]]; cbn [fst] in *; [done| |]; (transitivity s'; [done|]); [apply Hp|apply finish_at_slot].
Qed.

Lemma respond_unmatched_at_slot i r fb allowed : at_slot i (λ s, (respond_unmatched cfg user i r fb allowed s).1).
Proof.
  intros s. unfold respond_unmatched. destruct allowed as [|m ms]; [|case_bool_decide; apply respond_ticks].
  assert (H : ∀ h s, ticks_at i s (seq (user (se_handler h i None r)) (finish_response_if_needed cfg user i) s).1).
  { intros h s'. apply (seq_at_slot i); [intros s0; by apply at_slot_user|apply finish_at_slot]. }
  destruct (fb_not_found fb), (server_not_found cfg); try apply H. apply respond_ticks.
Qed.

Lemma unmatched_at_slot i r fb allowed sc s :
  ticks_at i s (match try_respond cfg user i r sc (respond_unmatched cfg user i r fb allowed) s with
                | (s, true) => ((finish_response_if_needed cfg user i s).1, true)
                | res => res
                end).1.
Proof.
  pose proof (try_respond_at_slot i r sc _ s (respond_unmatched_at_slot i r fb allowed)) as H.
  destruct (try_respond _ _ _ _ _ _ s) as [s' []]; cbn [fst] in *; [|done]. transitivity s'; [done|apply finish_at_slot].
Qed.

Lemma handle_buffered_ticks m route path existing s :
  (∀ i, existing = Some i → (i < length (slots s))%nat) → s ⟶ handle_buffered_message cfg user stops m route path existing s.
Proof.
  intros He. unfold handle_buffered_message. destruct (split_path_query _) as [p q]. cbv zeta.
  set (made := match existing with Some i => (s, Some i) | None => _ end).
  assert (Hm : s ⟶ made.1 ∧ ∀ i, made.2 = Some i → (i < length (slots made.1))%nat).
  { subst made. destruct existing as [i|]; cbn; [split; [reflexivity|by intros ? [= ->]; apply He]|].
    split; [apply create_slot_ticks|]. intros i. destruct (create_response_slot _ _ _ _ _) as [s' o] eqn:E. cbn. intros ->.
    by apply create_slot_bound in E. }
  destruct made as [s1 [i|]]; cbn in Hm; [|by destruct Hm]. destruct Hm as [H1 Hi]. specialize (Hi i eq_refl).
  etransitivity; [exact H1|]. apply (dispatching_at_slot i); [|done]. clear - Huser. intros s. destruct route as [| |t ctx].
  - apply unmatched_at_slot.
  - apply unmatched_at_slot.
  - cbv zeta. etransitivity; [apply configure_at_slot|]. apply (try_respond_at_slot i). apply hooks_then_at_slot.
    apply (seq_at_slot i); [intros s'; by apply at_slot_user|apply finish_at_slot].
Qed.

Lemma handle_message_ticks m s : s ⟶ handle_message cfg user stops m s.
Proof.
  unfold handle_message. cbv zeta. destruct (negb _); [apply send_error_ticks|by apply handle_buffered_ticks].
Qed.

(** ** The request being received *)

Lemma runs_ok s s' : (active_ok s → s ⟶ s') → s ⟶ s'.
Proof. intros H Ha. by apply H. Qed.

Lemma set_active_runs o s : (∀ a i, o = Some a → ar_slot a = Some i → (i < length (slots s))%nat) → s ⟶ set_active_request o s.
Proof. intros H. by apply runs_inert, inert_active. Qed.

Lemma update_active_runs f s : (∀ a, ar_slot (f a) = ar_slot a) → s ⟶ update_active f s.
Proof.
  intros Hf. apply runs_ok. intros Ha. apply set_active_runs. intros a i. destruct (active_request s) as [a'|] eqn:E; [|done].
  cbn. intros [= <-]. rewrite Hf. by apply Ha.
Qed.

Lemma reject_runs s : s ⟶ reject s.
Proof. by apply update_active_runs. Qed.

Lemma new_active_runs m route path r rejected s : s ⟶ new_active m route path r rejected s.
Proof.
  unfold new_active. cbv zeta. etransitivity; [|apply set_active_runs; by intros a i [= <-]]. quiet.
Qed.

Lemma start_body_timeout_runs s : s ⟶ start_body_timeout_if_needed cfg s.
Proof.
  unfold start_body_timeout_if_needed. destruct (active_request s) as [a|]; [|reflexivity]. destruct (_ || _); [reflexivity|].
  destruct (ar_route a); apply start_timeout_ticks.
Qed.

Lemma run_on_request_hooks_runs close_after suppress s :
  s ⟶ (run_on_request_hooks cfg user stops close_after suppress s).1.
Proof.
  apply runs_ok. intros Hok. unfold run_on_request_hooks. destruct (active_request s) as [a|] eqn:Ea; [|reflexivity].
  destruct (ar_route a) as [| |t ctx]; [reflexivity..|]. destruct (c_on_request ctx) as [|h hooks]; [reflexivity|].
  set (made := match ar_slot a with Some i => (s, Some i) | None => _ end).
  assert (Hm : s ⟶ made.1 ∧ ∀ i, made.2 = Some i → (i < length (slots made.1))%nat).
  { subst made. destruct (ar_slot a) as [i|] eqn:Es; cbn; [split; [reflexivity|intros ? [= ->]; by eapply Hok]|].
    split; [apply create_slot_ticks|]. intros i. destruct (create_response_slot _ _ _ _ _) as [s' o] eqn:E. cbn. intros ->.
    by apply create_slot_bound in E. }
  destruct made as [s1 [i|]]; cbn [fst snd] in Hm; destruct Hm as [H1 Hi]; (etransitivity; [exact H1|]); [|apply reject_runs].
  specialize (Hi i eq_refl). cbv zeta.
  etransitivity; [apply (set_active_runs (set_ar_slot (Some i) <$> active_request s1))|].
  { intros a' i'. destruct (active_request s1); [|done]. cbn. by intros [= <-] [= <-]. }
  eapply (transitivity (y := _)); [by apply (configure_at_slot i (ar_req a) (c_on_response ctx))|].
  apply (dispatching_at_slot i); [|cbn; by rewrite length_alter]. clear - Huser. intros s.
  pose proof (run_hooks_at_slot (h :: hooks) i (ar_req a) s) as H.
  destruct (run_hooks _ _ (h :: hooks) _ _ s) as [s' [e|[]]]; cbn [fst] in *; (transitivity s'; [done|]); [|reflexivity|].
  - etransitivity; [apply handle_exception_at_slot|]. apply ticks_at_intro, reject_runs.
  - pose proof (try_respond_at_slot i (ar_req a) (c_exception ctx) (finish_response_if_needed cfg user i) s' (finish_at_slot i)) as H'.
    destruct (try_respond _ _ _ _ _ _ s') as [s2 ok]. cbn [fst] in *. etransitivity; [exact H'|]. apply ticks_at_intro, reject_runs.
Qed.

Lemma dispatch_stream_at_slot a i t ctx s : ticks_at i s (dispatch_stream_request cfg user stops a i t ctx s).
Proof.
  apply (dispatching_at_slot i). clear s. intros s. pose proof (run_hooks_at_slot (c_pre_handler ctx) i (ar_req a) s) as H.
  destruct (run_hooks _ _ _ _ _ s) as [s' [e|[]]]; cbn [fst] in *; (transitivity s'; [done|]).
  - etransitivity; [apply handle_exception_at_slot|]. apply ticks_at_intro, reject_runs.
  - pose proof (at_slot_user i (se_handler (t_handler t) i (Some (ar_body_stream a)) (ar_req a)) s' eq_refl) as Hu.
    destruct (user _ s') as [s2 [e|]]; cbn [fst] in *; [|done]. transitivity s2; [done|].
    etransitivity; [apply handle_exception_at_slot|]. apply ticks_at_intro, reject_runs.
  - pose proof (try_respond_at_slot i (ar_req a) (c_exception ctx) (finish_response_if_needed cfg user i) s' (finish_at_slot i)) as H'.
    destruct (try_respond _ _ _ _ _ _ s') as [s2 ok]. cbn [fst] in *. etransitivity; [exact H'|]. apply ticks_at_intro, reject_runs.
Qed.

Lemma update_body_runs b f s : s ⟶ update_body b f s.
Proof. quiet. Qed.

Lemma handle_headers_runs m s : s ⟶ handle_headers cfg user stops m s.
Proof.
  unfold handle_headers. cbv zeta. etransitivity; [apply stop_timeout_ticks|]. generalize (stop_timeout s). clear s. intros s.
  destruct (split_path_query _) as [p q]. destruct (negb (valid _)).
  { etransitivity; [apply new_active_runs|apply send_error_ticks]. }
  destruct (match_request_route cfg _ _) as [| |t ctx].
  1,2: etransitivity; [apply new_active_runs|apply start_body_timeout_runs].
  set (s1 := new_active _ _ _ _ _ s). etransitivity; [apply new_active_runs|]. fold s1.
  destruct (negb (is_streaming_body_mode (t_body t))).
  - destruct (_ && _); [etransitivity; [apply reject_runs|apply send_error_ticks]|].
    etransitivity; [apply start_body_timeout_runs|].
    match goal with |- context [run_on_request_hooks cfg user stops ?ka ?h ?x] =>
      pose proof (run_on_request_hooks_runs ka h x) as H; destruct (run_on_request_hooks cfg user stops ka h x) as [s2 []] end;
      cbn [fst] in H; [done|]. etransitivity; [exact H|apply stop_timeout_ticks].
  - etransitivity; [apply start_body_timeout_runs|].
    match goal with |- context [create_response_slot cfg user ?ka ?h ?x] =>
      pose proof (create_slot_ticks ka h x) as H; destruct (create_response_slot cfg user ka h x) as [s2 [i|]] eqn:E end;
      cbn [fst] in H; (etransitivity; [exact H|]); [|etransitivity; [apply reject_runs|apply stop_timeout_ticks]].
    apply create_slot_bound in E. etransitivity; [apply (set_active_runs (set_ar_slot (Some i) <$> active_request s2))|].
    { intros a i'. destruct (active_request s2); [|done]. cbn. by intros [= <-] [= <-]. }
    set (s3 := configure_response_observation i _ _ _). assert (Hi : (i < length (slots s3))%nat) by (by subst s3; cbn; rewrite length_alter).
    etransitivity; [instantiate (1 := s3); by apply (configure_at_slot i)|].
    match goal with |- context [run_on_request_hooks cfg user stops ?ka ?h ?x] =>
      pose proof (run_on_request_hooks_runs ka h x) as Hh; destruct (run_on_request_hooks cfg user stops ka h x) as [s4 []] end;
      cbn [fst] in Hh; [|etransitivity; [exact Hh|apply stop_timeout_ticks]].
    apply runs_ok. intros Ha. pose proof (slots_length _ _ _ _ (Hh Ha)) as Hl. etransitivity; [exact Hh|].
    destruct (active_request s4) as [a|]; [|reflexivity]. etransitivity; [apply (update_body_runs (ar_body_stream a) (set_bs_observed true))|].
    apply dispatch_stream_at_slot. cbn. lia.
Qed.

(** ** Bodies *)

Lemma emit_body_data_runs b chunk s : s ⟶ emit_body_data user b chunk s.
Proof. unfold emit_body_data. destruct (_ && _); [by apply user_ticks|reflexivity]. Qed.

Lemma emit_body_end_runs b s : s ⟶ emit_body_end user b s.
Proof.
  unfold emit_body_end. destruct (negb _); [reflexivity|]. cbv zeta. etransitivity; [apply update_body_runs|].
  destruct (bs_on_end _); [by apply user_ticks|reflexivity].
Qed.

Lemma emit_body_error_runs b e s : s ⟶ emit_body_error user b e s.
Proof.
  unfold emit_body_error. destruct (negb _); [reflexivity|]. cbv zeta. etransitivity; [apply update_body_runs|].
  destruct (bs_on_error _); [by apply user_ticks|reflexivity].
Qed.

Lemma set_paused_runs b s : s ⟶ set_body_processing_paused b s.
Proof. quiet. Qed.

Lemma handle_body_chunk_runs chunk s : s ⟶ handle_body_chunk cfg user chunk s.
Proof.
  unfold handle_body_chunk. destruct (active_request s) as [a|]; [|reflexivity]. destruct (ar_rejected a); [reflexivity|]. cbv zeta.
  etransitivity; [|etransitivity; [apply (update_active_runs (set_ar_received_body_bytes (ar_received_body_bytes a + length chunk))
    (refresh_body_timeout cfg s)); done|]].
  { unfold refresh_body_timeout. case_bool_decide; [apply start_body_timeout_runs|reflexivity]. }
  set (s1 := update_active _ _). clearbody s1. destruct (ar_route a) as [| |t ctx]; [reflexivity..|]. destruct (_ <? _).
  - etransitivity; [apply reject_runs|]. etransitivity; [apply stop_timeout_ticks|].
    etransitivity; [|instantiate (1 := if is_streaming_body_mode (t_body t) then emit_body_error user (ar_body_stream a) (errc_other 90) (stop_timeout (reject s1)) else stop_timeout (reject s1))].
    + destruct (is_streaming_body_mode _); [apply emit_body_error_runs|reflexivity].
    + case_bool_decide; [reflexivity|apply send_error_ticks].
  - destruct (is_streaming_body_mode _); [|reflexivity]. etransitivity; [apply emit_body_data_runs|].
    destruct (bs_paused _); [apply set_paused_runs|reflexivity].
Qed.

Lemma handle_message_complete_runs m s : s ⟶ handle_message_complete cfg user stops m s.
Proof.
  apply runs_ok. intros Hok. unfold handle_message_complete. destruct (active_request s) as [a|] eqn:E; [|apply handle_message_ticks].
  cbv zeta. etransitivity; [by apply (set_active_runs None)|]. etransitivity; [apply stop_timeout_ticks|].
  destruct (ar_rejected a); [reflexivity|].
  assert (H : stop_timeout (set_active_request None s) ⟶
    handle_buffered_message cfg user stops m (ar_route a) (ar_parsed_path a) (ar_slot a) (stop_timeout (set_active_request None s))).
  { apply handle_buffered_ticks. intros i Hi. by eapply Hok. }
  destruct (ar_route a) as [| |t ctx]; [exact H..|]. destruct (is_streaming_body_mode _); [apply emit_body_end_runs|exact H].
Qed.

Lemma handle_event_runs e s : s ⟶ handle_event cfg user stops e s.
Proof. destruct e; [apply handle_headers_runs|apply handle_body_chunk_runs|apply handle_message_complete_runs]. Qed.

Lemma process_events_runs fuel stop s : s ⟶ process_events cfg user stops fuel stop s.
Proof.
  revert s. induction fuel as [|fuel IH]; intros s; [reflexivity|]. cbn [process_events]. destruct (_ || _); [reflexivity|].
  destruct (events_ (parser s) !! handled_events s) as [e|]; [|reflexivity]. destruct (_ && _); [reflexivity|].
  etransitivity; [|apply IH]. etransitivity; [|apply handle_event_runs]. quiet.
Qed.

Lemma parser_events_runs stop s : s ⟶ process_parser_events cfg user stops stop s.
Proof. apply process_events_runs. Qed.

Lemma start_read_runs s : s ⟶ start_read s.
Proof. unfold start_read. destruct (closed s); [reflexivity|by apply happen_ticks]. Qed.

Lemma body_pause_runs b s : s ⟶ body_pause b s.
Proof.
  unfold body_pause. destruct (_ || _); [reflexivity|]. cbv zeta. etransitivity; [apply (update_body_runs b (set_bs_paused true))|].
  destruct (bs_observed _); [|reflexivity]. unfold pause_request_body. etransitivity; [|by apply happen_ticks]. quiet.
Qed.

Lemma body_resume_runs b s : s ⟶ body_resume cfg user stops b s.
Proof.
  unfold body_resume. destruct (_ || _); [reflexivity|]. cbv zeta. etransitivity; [apply (update_body_runs b (set_bs_paused false))|].
  destruct (bs_observed _); [|reflexivity]. unfold resume_request_body. destruct (closed _); [reflexivity|]. cbv zeta.
  etransitivity; [apply (set_paused_runs false)|]. etransitivity; [apply start_body_timeout_runs|].
  etransitivity; [apply (parser_events_runs false)|]. destruct (_ && _); [apply start_read_runs|reflexivity].
Qed.

(** ** Upgrades, and calls of the user *)

Lemma handle_upgrade_runs extra s : s ⟶ handle_upgrade cfg user extra s.
Proof.
  unfold handle_upgrade. destruct (active_request s) as [a|]; [|apply send_error_ticks]. cbv zeta. destruct (split_path_query _) as [p q].
  destruct (negb _); [apply send_error_ticks|]. destruct (find_upgrade_route _ _ _ _) as [[k params]|]; [|apply send_error_ticks].
  match goal with |- context [user ?e s] => pose proof (user_ticks e s eq_refl) as H; destruct (user e s) as [s' [x|]] end; cbn [fst] in H; [|done].
  etransitivity; [exact H|apply send_error_ticks].
Qed.

Lemma accept_upgrade_runs response s : s ⟶ accept_upgrade response s.
Proof.
  unfold accept_upgrade. etransitivity; [apply close_timeout_timer_ticks|]. etransitivity; [by apply (happen_ticks se_read_stop)|].
  apply runs_once, tick_accept.
Qed.

Lemma user_cmd_runs c s : s ⟶ (run_user_cmd cfg user stops c s).1.
Proof.
  destruct c; cbn [run_user_cmd fst]; try reflexivity.
  - destruct (_ <? _)%nat eqn:E; cbn [andb]; [|reflexivity]. destruct (public_cmd c); [|reflexivity].
    apply Nat.ltb_lt in E. by apply response_cmd_ticks.
  - unfold set_body_callback. destruct (bs_active _); [apply update_body_runs|reflexivity].
  - unfold set_body_callback. destruct (bs_active _); [apply update_body_runs|reflexivity].
  - unfold set_body_callback. destruct (bs_active _); [apply update_body_runs|reflexivity].
  - apply body_pause_runs.
  - apply body_resume_runs.
  - apply accept_upgrade_runs.
  - apply close_ticks.
Qed.

Lemma user_cmds_runs cs s : s ⟶ (run_user_cmds cfg user stops cs s).1.
Proof.
  revert s. induction cs as [|c cs IH]; intros s; cbn [run_user_cmds]; [reflexivity|].
  pose proof (user_cmd_runs c s) as H. destruct (run_user_cmd _ _ _ c s) as [s' [e|]]; cbn [fst] in *; [done|].
  etransitivity; [exact H|apply IH].
Qed.

(** ** What libuv calls *)

Lemma on_read_runs result s : s ⟶ on_read cfg user stops result s.
Proof.
  unfold on_read. destruct (_ || _); [reflexivity|]. destruct result as [|e|bytes run].
  1,2: etransitivity; [apply notify_stream_errors_ticks|apply close_ticks].
  cbv zeta. set (s1 := if bool_decide (phase s = phase_idle) then _ else _). assert (H1 : s ⟶ s1).
  { subst s1. case_bool_decide; [etransitivity; [apply stop_timeout_ticks|apply start_timeout_ticks]|].
    destruct (_ && _); [apply start_timeout_ticks|reflexivity]. }
  etransitivity; [exact H1|]. clearbody s1. destruct (Http1.parse _ _ _) as [p result].
  etransitivity; [instantiate (1 := set_parser p s1); quiet|]. destruct (code result).
  - apply (parser_events_runs false).
  - etransitivity; [apply stop_timeout_ticks|apply send_error_ticks].
  - etransitivity; [apply (parser_events_runs true)|apply handle_upgrade_runs].
Qed.

Lemma idle_runs s : s ⟶ maybe_start_idle_timeout cfg s.
Proof. unfold maybe_start_idle_timeout. repeat (destruct (_ || _); [reflexivity|]). apply start_timeout_ticks. Qed.

Lemma on_write_runs error s : writing s = true → (error = None ∨ faults = true) → s ⟶ on_write cfg user error s.
Proof.
  intros Hw He. unfold on_write. cbv zeta. cbn [closed set_writing writes].
  destruct (closed s) eqn:Hc; [apply runs_once, tick_fail; [done|by rewrite Hc]|].
  destruct error as [e|].
  - destruct He as [|He]; [done|]. eapply ticks_step; [apply tick_fail; [done|by rewrite Hc]|].
    etransitivity; [apply notify_stream_errors_ticks|]. etransitivity; [apply (cancel_pending_ticks outcome_error)|apply close_ticks].
  - destruct (from_option pw_upgrade false (head (writes s))) eqn:Eu; [by apply runs_once, tick_upgraded|].
    eapply ticks_step; [by apply tick_written|]. etransitivity; [apply notify_drains_ticks|].
    destruct (from_option pw_close_after _ _); [apply close_ticks|]. etransitivity; [apply flush_next_ticks|apply idle_runs].
Qed.

Lemma on_timeout_runs p s : s ⟶ on_timeout cfg user p s.
Proof.
  unfold on_timeout. destruct (_ || _); [reflexivity|]. cbv zeta.
  etransitivity; [instantiate (1 := set_phase phase_none (set_timeout_timer_active false s)); quiet|].
  set (s1 := set_phase _ _). clearbody s1. destruct p; [reflexivity|..|apply close_ticks].
  - etransitivity; [instantiate (1 := set_timeout_closing true s1); quiet|]. etransitivity; [by apply (happen_ticks se_read_stop)|].
    apply send_error_ticks.
  - etransitivity; [instantiate (1 := set_timeout_closing true s1); quiet|]. set (s2 := set_timeout_closing true s1).
    set (s3 := match active_request s2 with Some _ => _ | None => _ end). assert (H : s2 ⟶ s3).
    { subst s3. destruct (active_request s2) as [a|]; [|reflexivity]. destruct (ar_route a) as [| |t ctx]; [reflexivity..|].
      destruct (is_streaming_body_mode _); [apply emit_body_error_runs|reflexivity]. }
    etransitivity; [exact H|]. etransitivity; [apply notify_stream_errors_ticks|].
    etransitivity; [apply (cancel_pending_ticks outcome_error)|apply close_ticks].
Qed.

Lemma start_runs s : s ⟶ start cfg s.
Proof. unfold start. etransitivity; [apply start_timeout_ticks|apply start_read_runs]. Qed.
End operations.

(** ** Runs *)

Section runs.
Context (cfg : server_config) (faults : bool).
Context (calls : list session_event → session_event → list user_cmd) (stops : list session_event → nat → bool).

Lemma user_at_runs depth e s : inert_event e = true → runs cfg faults s (user_at cfg calls stops depth e s).1.
Proof.
  revert e s. induction depth as [|depth IH]; intros e s He; cbn [user_at].
  - by apply runs_inert, inert_happen.
  - etransitivity; [by apply runs_inert, (inert_happen e)|]. apply user_cmds_runs. exact IH.
Qed.

Definition op_ok (op : session_op) : Prop := match op with op_write_done (Some _) => faults = true | _ => True end.

Lemma session_op_runs depth s op : op_ok op → runs cfg faults s (run_session_op cfg calls stops depth s op).
Proof.
  pose proof (user_at_runs depth) as Hu. destruct op as [|result|[e|]|p|c]; cbn [run_session_op op_ok]; intros Hok.
  - apply start_runs.
  - by apply on_read_runs.
  - destruct (writing s) eqn:E; [|reflexivity]. apply on_write_runs; auto.
  - destruct (writing s) eqn:E; [|reflexivity]. apply on_write_runs; auto.
  - by apply on_timeout_runs.
  - by apply user_cmd_runs.
Qed.

Lemma run_ticks depth ops s :
  active_ok s → Forall op_ok ops → ticks cfg faults s (foldl (run_session_op cfg calls stops depth) s ops).
Proof.
  intros Ha Hops. revert s Ha. induction Hops as [|op ops Hop _ IH]; intros s Ha; cbn [foldl]; [reflexivity|].
  pose proof (session_op_runs depth s op Hop Ha) as H. etransitivity; [exact H|]. apply IH. by apply (ticks_active _ _ _ _ H).
Qed.

Lemma run_session_ticks depth ops :
  Forall op_ok ops → ticks cfg faults (new_session cfg) (run_session cfg calls stops depth ops).
Proof. intros H. by apply run_ticks. Qed.
End runs.
