(* ===== verification/ServerSpec.v ===== *)
(** * What a server connection promises: order, accounting, limits

    Invariants of the abstract machine of [ServerTheory], by cases on its
    steps, and so of every run of a connection. *)

From stdpp Require Import relations sorting.
From S2P Require Import Prelude Text Http RoutePath Router Http1 Request Response ServerWire ServerState ServerSession.
From S2P Require Import ServerTheory.

Open Scope nat_scope.

(** ** Reading a trace *)

Definition pushed_id (e : session_event) : option nat := match e with se_push (Some i) _ => Some i | _ => None end.
Definition pushed_ids (tr : list session_event) : list nat := omap pushed_id tr.

Definition push_payload (e : session_event) : option str := match e with se_push _ p => Some p | _ => None end.
Definition pushes (tr : list session_event) : list str := omap push_payload tr.

Definition write_payload (e : session_event) : option str := match e with se_write p => Some p | _ => None end.
Definition written (tr : list session_event) : list str := omap write_payload tr.

Lemma omap_inert {A} (f : session_event → option A) es :
  (∀ e, inert_event e = true → f e = None) → forallb inert_event es = true → omap f es = [].
Proof.
  intros Hf. induction es as [|e es IH]; [done|]. cbn. intros [He Hes]%andb_true_iff. rewrite (Hf _ He). by apply IH.
Qed.

(** [flush_next] starts a write, or does nothing. *)
Lemma flush_next_cases s :
  (flush_next s = s ∧ (closed s = true ∨ writing s = true ∨ writes s = [])) ∨
  (∃ w ws, writes s = w :: ws ∧ closed s = false ∧ writing s = false ∧ flush_next s = happen (se_write (pw_payload w)) (set_writing true s)).
Proof.
  unfold flush_next. destruct (writes s) as [|w ws]; [left; auto|]. destruct (closed s); [left; auto|]. destruct (writing s); [left; auto|].
  right. eauto 10.
Qed.

Lemma omap_flush_next {A} (f : session_event → option A) s :
  (∀ p, f (se_write p) = None) → omap f (trace (flush_next s)) = omap f (trace s).
Proof.
  intros Hf. destruct (flush_next_cases s) as [[-> _]|(w & ws & _ & _ & _ & ->)]; [done|]. cbn. rewrite omap_app. cbn. by rewrite Hf, app_nil_r.
Qed.

Lemma omap_stream_ops {A} (f : session_event → option A) cfg i payload b s :
  (∀ j p, f (se_accept j p) = None) →
  omap f (trace (queue_stream_chunk i payload s)) = omap f (trace s) ∧
  omap f (trace (queue_stream_head cfg i b s)) = omap f (trace s) ∧
  omap f (trace (queue_stream_end cfg i s)) = omap f (trace s).
Proof.
  intros Hf. split_and!.
  - unfold queue_stream_chunk. destruct payload; [done|]. cbn. rewrite omap_app. cbn. by rewrite Hf, app_nil_r.
  - unfold queue_stream_head. by destruct (stream_headers_queued _).
  - unfold queue_stream_end, queue_stream_head. repeat case_match; done.
Qed.

Lemma omap_move {A} (f : session_event → option A) i s :
  (∀ p, f (se_write p) = None) →
  omap f (trace (flush_stream_writes i s)) = omap f (trace s) ++ omap (λ w, f (se_push (Some i) (pw_payload w))) (stream_writes (slot i s)).
Proof.
  intros Hf. unfold flush_stream_writes. rewrite omap_flush_next by done.
  destruct (push_writes_same (Some i) (stream_writes (slot i s)) (update_slot i (set_stream_writes []) s)) as (_ & _ & _ & _ & _ & _ & _ & ->).
  rewrite omap_app. f_equal. induction (stream_writes _) as [|w ws IH]; [done|]. cbn. by rewrite IH.
Qed.

Lemma omap_enqueue {A} (f : session_event → option A) i payload c n s :
  (∀ p, f (se_write p) = None) →
  omap f (trace (enqueue i payload c n s)) = omap f (trace s) ++ option_list (f (se_push i payload)).
Proof. intros Hf. unfold enqueue. rewrite omap_flush_next by done. cbn. rewrite omap_app. cbn. by destruct (f _). Qed.

Lemma pop_write_same s :
  slots (pop_write s) = slots s ∧ responses (pop_write s) = responses s ∧ trace (pop_write s) = trace s ∧ closed (pop_write s) = closed s ∧
  writing (pop_write s) = writing s ∧ writes (pop_write s) = tail (writes s).
Proof. unfold pop_write. destruct (writes s) as [|w ws] eqn:E; [by rewrite E|]. by destruct (pw_counts_response w). Qed.

(** ** Order *)

Record order_inv (s : session) : Prop := {
  oi_sorted : StronglySorted le (pushed_ids (trace s) ++ responses s);
  oi_strict : StronglySorted lt (responses s);
  oi_bound : Forall (λ i, i < length (slots s)) (pushed_ids (trace s) ++ responses s)
}.

Lemma Forall_sub {A} (P : A → Prop) l l' : Forall P l → l' `sublist_of` l → Forall P l'.
Proof. intros H Hs. induction Hs; [done| |]; apply Forall_cons in H as [? ?]; auto. Qed.

Lemma sorted_sub l l' (R : relation nat) : l' `sublist_of` l → StronglySorted R l → StronglySorted R l'.
Proof.
  induction 1 as [|x l1 l2 Hs IH|x l1 l2 Hs IH]; intros H; [done| |]; inversion_clear H as [|? ? Hl Hf]; [|auto].
  constructor; [auto|]. by eapply Forall_sub.
Qed.

Lemma order_same s s' :
  responses s' `sublist_of` responses s → pushed_ids (trace s') = pushed_ids (trace s) → length (slots s') = length (slots s) →
  order_inv s → order_inv s'.
Proof.
  intros Hr Hi Hl [H1 H2 H3].
  assert (Hs : pushed_ids (trace s') ++ responses s' `sublist_of` pushed_ids (trace s) ++ responses s) by (rewrite Hi; by apply sublist_app).
  constructor; [by eapply sorted_sub|by eapply sorted_sub|]. rewrite Hl. eapply Forall_sub; eauto.
Qed.

Lemma sorted_repeat i n l : StronglySorted le (i :: l) → StronglySorted le (replicate n i ++ i :: l).
Proof.
  intros H. induction n as [|n IH]; [done|]. cbn. constructor; [done|]. apply Forall_app. split; [by apply Forall_replicate|].
  inversion_clear H. by constructor.
Qed.

(** Writing for the front slot. *)
Lemma order_front i rest n s s' :
  responses s = i :: rest → responses s' = responses s ∨ responses s' = rest →
  pushed_ids (trace s') = pushed_ids (trace s) ++ replicate n i → length (slots s') = length (slots s) → order_inv s → order_inv s'.
Proof.
  intros Hr Hr' Hi Hl [H1 H2 H3]. rewrite Hr in *.
  assert (Hs : StronglySorted le (pushed_ids (trace s) ++ replicate n i ++ i :: rest)).
  { clear - H1. induction (pushed_ids (trace s)) as [|j l IH]; [by apply sorted_repeat|]. inversion_clear H1 as [|? ? Hs Hf].
    constructor; [by apply IH|]. apply Forall_app in Hf as [Hf1 Hf2]. apply Forall_app. split; [done|]. apply Forall_app. split; [|done].
    apply Forall_cons in Hf2 as [? _]. by apply Forall_replicate. }
  assert (Hsub : responses s' `sublist_of` i :: rest) by (destruct Hr' as [-> | ->]; [done|by constructor]).
  assert (Hsub' : pushed_ids (trace s') ++ responses s' `sublist_of` pushed_ids (trace s) ++ replicate n i ++ i :: rest).
  { rewrite Hi, <-app_assoc. by repeat apply sublist_app. }
  constructor; [by eapply sorted_sub|by eapply sorted_sub|]. rewrite Hl. eapply Forall_sub; [|exact Hsub'].
  apply Forall_app in H3 as [H3 H4]. repeat apply Forall_app_2; [done| |done]. apply Forall_cons in H4 as [? _]. by apply Forall_replicate.
Qed.

Lemma sorted_snoc (R : relation nat) l x : StronglySorted R l → Forall (λ y, R y x) l → StronglySorted R (l ++ [x]).
Proof.
  induction 1 as [|y l Hl IH Hy]; intros Hx; [by repeat constructor|]. apply Forall_cons in Hx as [Hx1 Hx2].
  constructor; [by apply IH|]. by apply Forall_app_2; [|constructor].
Qed.

Lemma order_tick cfg faults s s' : tick cfg faults s s' → order_inv s → order_inv s'.
Proof.
  intros Ht Hinv.
  assert (Hsame : responses s' = responses s → pushed_ids (trace s') = pushed_ids (trace s) → length (slots s') = length (slots s) → order_inv s').
  { intros Hr Hi Hl. apply (order_same s); [by rewrite Hr|done..]. }
  assert (Hl : ∀ i f s, length (slots (update_slot i f s)) = length (slots s)) by (intros; apply length_alter).
  unfold pushed_ids in *. destruct Ht.
  - destruct H as [E1 E2 _ _ _ _ _ (es & E & He) _]. apply Hsame; [done| |by rewrite E1].
    rewrite E, omap_app, (omap_inert pushed_id es), app_nil_r; [done| |done]. by intros [].
  - by apply Hsame, Hl.
  - by apply Hsame, Hl.
  - by apply Hsame, Hl.
  - apply Hsame.
    + unfold queue_stream_chunk, queue_stream_head. by destruct payload, (stream_headers_queued _).
    + rewrite (proj1 (omap_stream_ops pushed_id cfg i payload false _ (λ _ _, eq_refl))).
      by rewrite (proj1 (proj2 (omap_stream_ops pushed_id cfg i payload false _ (λ _ _, eq_refl)))).
    + unfold queue_stream_chunk, queue_stream_head. destruct payload, (stream_headers_queued _); cbn; by rewrite !length_alter.
  - apply Hsame.
    + unfold queue_stream_end, queue_stream_head. repeat case_match; done.
    + by rewrite (proj2 (proj2 (omap_stream_ops pushed_id cfg i [] false _ (λ _ _, eq_refl)))).
    + unfold queue_stream_end, queue_stream_head. repeat case_match; cbn; by rewrite !length_alter.
  - destruct (flush_stream_same i s) as (E1 & E2 & _). eapply (order_front i rest (length (stream_writes (slot i s)))); [done|by left| | |done].
    + unfold pushed_ids. rewrite omap_move by done. f_equal. induction (stream_writes _) as [|w ws IH]; [done|]. cbn [length replicate]. by rewrite <-IH.
    + by rewrite E1, length_alter.
  - apply (order_same s); [|reflexivity|reflexivity|exact Hinv]. cbn. rewrite H. by constructor.
  - destruct (enqueue_same (Some i) (serialize_response (sl_res (slot i s)) (negb (close_after (slot i s))) (options cfg) (suppress_body (slot i s)))
      (close_after (slot i s)) true (set_pending_response_writes (S (pending_response_writes s)) (set_responses rest s))) as (E1 & E2 & _).
    eapply (order_front i rest 1); [done|right; by rewrite E2| |by rewrite E1|done]. unfold pushed_ids. by rewrite omap_enqueue.
  - apply (order_same s); [|reflexivity|reflexivity|exact Hinv]. apply sublist_nil_l.
  - unfold send_error in *. destruct (enqueue_same None (serialize_response (error_response status_code) keep_alive (options cfg) false)
      (negb keep_alive) false s) as (E1 & E2 & _). apply Hsame; [done| |by rewrite E1].
    by rewrite omap_enqueue, app_nil_r.
  - apply Hsame; [by rewrite (proj1 (proj2 (flush_next_same _)))| |by rewrite (proj1 (flush_next_same _))].
    rewrite omap_flush_next by done. cbn. by rewrite omap_app, app_nil_r.
  - unfold create_response_slot in H. destruct (_ <=? _)%nat; [done|]. injection H as <- <-.
    destruct Hinv as [H1 H2 H3]. unfold pushed_ids in *. constructor; unfold pushed_ids; cbn; rewrite ?omap_app, ?app_nil_r, ?length_app; cbn.
    + rewrite app_assoc. apply sorted_snoc; [done|]. eapply Forall_impl; [exact H3|]. intros ? ?; cbn in *; lia.
    + apply sorted_snoc; [done|]. apply Forall_app in H3 as [_ H3]. eapply Forall_impl; [exact H3|]. intros ? ?; cbn in *; lia.
    + rewrite app_assoc. apply Forall_app. split; [|by repeat constructor; lia]. eapply Forall_impl; [exact H3|]. intros ? ?; cbn in *; lia.
  - by apply Hsame.
  - apply Hsame; [done| |done]. cbn. by rewrite omap_app, app_nil_r.
  - apply Hsame; [by rewrite (proj1 (proj2 (flush_next_same _)))| |by rewrite (proj1 (flush_next_same _))]. by rewrite omap_flush_next.
  - by apply Hsame.
  - destruct (pop_write_same (set_writing false s)) as (E1 & E2 & E3 & _). apply Hsame; [by rewrite E2|by rewrite E3|by rewrite E1].
  - destruct (pop_write_same (set_writing false s)) as (E1 & E2 & E3 & _). apply Hsame; cbn; [by rewrite E2| |by rewrite E1].
    by rewrite omap_app, E3, app_nil_r.
Qed.

Lemma head_slots i b cfg s : length (slots (queue_stream_head cfg i b s)) = length (slots s).
Proof. unfold queue_stream_head. destruct (stream_headers_queued _); [done|]. cbn. by rewrite !length_alter. Qed.

(** An invariant of the steps holds in every run. *)
Lemma ticks_invariant (P : session → Prop) cfg faults s s' :
  (∀ s s', tick cfg faults s s' → P s → P s') → ticks cfg faults s s' → P s → P s'.
Proof. intros HP. induction 1; eauto. Qed.

(** ** First in, first out *)

Definition waiting (s : session) : list pending_write := if writing s then tail (writes s) else writes s.

Record server_fifo_inv (s : session) : Prop := {
  fi_front : closed s = false → writing s = true → writes s ≠ [];
  fi_open : closed s = false → pushes (trace s) = written (trace s) ++ map pw_payload (waiting s);
  fi_prefix : written (trace s) `prefix_of` pushes (trace s)
}.

Lemma server_fifo_flush s : server_fifo_inv s → server_fifo_inv (flush_next s).
Proof.
  intros [H1 H2 H3]. destruct (flush_next_cases s) as [[-> _]|(w & ws & Ew & Ec & Ewr & ->)]; [done|].
  assert (E : pushes (trace s ++ [se_write (pw_payload w)]) = pushes (trace s)) by (unfold pushes; by rewrite omap_app, app_nil_r).
  assert (E' : written (trace s ++ [se_write (pw_payload w)]) = written (trace s) ++ [pw_payload w]) by (unfold written; by rewrite omap_app).
  specialize (H2 Ec). unfold waiting in H2. rewrite Ewr, Ew in H2. cbn in H2.
  constructor; cbn [happen set_trace set_writing trace closed writing writes]; rewrite ?E, ?E', ?Ew; [done| |].
  - intros _. unfold waiting. cbn [happen set_trace set_writing writing writes]. rewrite ?Ew, H2, <-app_assoc. done.
  - rewrite H2. exists (map pw_payload ws). by rewrite <-app_assoc.
Qed.

Lemma server_fifo_push i w s : server_fifo_inv s → server_fifo_inv (push_write i w s).
Proof.
  intros [H1 H2 H3].
  assert (E : pushes (trace s ++ [se_push i (pw_payload w)]) = pushes (trace s) ++ [pw_payload w]) by (unfold pushes; by rewrite omap_app).
  assert (E' : written (trace s ++ [se_push i (pw_payload w)]) = written (trace s)) by (unfold written; by rewrite omap_app, app_nil_r).
  constructor; cbn [push_write happen set_trace set_writes trace closed writing writes]; rewrite ?E, ?E'.
  - intros _ _. by destruct (writes s).
  - intros Hc. rewrite (H2 Hc), <-app_assoc. f_equal. unfold waiting in *. cbn [push_write happen set_trace set_writes writing writes]. specialize (H1 Hc). destruct (writing s).
    + specialize (H1 eq_refl). destruct (writes s); [done|]. cbn. by rewrite map_app.
    + by rewrite map_app.
  - by apply prefix_app_r.
Qed.

(** Changes that neither push nor write. *)
Lemma server_fifo_same s s' :
  pushes (trace s') = pushes (trace s) → written (trace s') = written (trace s) → writes s' = writes s → writing s' = writing s →
  closed s' = closed s → server_fifo_inv s → server_fifo_inv s'.
Proof.
  intros E1 E2 E3 E4 E5 [H1 H2 H3]. constructor; rewrite ?E1, ?E2, ?E3, ?E4, ?E5; try done.
  unfold waiting in *. by rewrite E3, E4.
Qed.

Lemma stream_ops_same cfg i payload b s :
  let same s' := writes s' = writes s ∧ writing s' = writing s ∧ closed s' = closed s ∧ responses s' = responses s ∧
                 pending_response_writes s' = pending_response_writes s in
  same (queue_stream_chunk i payload s) ∧ same (queue_stream_head cfg i b s) ∧ same (queue_stream_end cfg i s).
Proof.
  cbn. split_and!.
  all: try (unfold queue_stream_chunk; by destruct payload). all: try (unfold queue_stream_head; by destruct (stream_headers_queued _)).
  all: unfold queue_stream_end, queue_stream_head; repeat case_match; done.
Qed.

Lemma server_fifo_enqueue i payload c n s : server_fifo_inv s → server_fifo_inv (enqueue i payload c n s).
Proof. intros H. apply server_fifo_flush, server_fifo_push. by apply (server_fifo_same s). Qed.

Lemma server_fifo_pop s : server_fifo_inv s → writing s = true → server_fifo_inv (pop_write (set_writing false s)) ∧ closed (pop_write (set_writing false s)) = closed s.
Proof.
  intros [H1 H2 H3] Hw. destruct (pop_write_same (set_writing false s)) as (_ & _ & E3 & E4 & E5 & E6). split; [|done].
  constructor; rewrite ?E3, ?E4, ?E5; cbn [set_writing trace closed writing]; [done| |done]. intros Hc. rewrite (H2 Hc). unfold waiting. rewrite E5, E6. cbn. by rewrite Hw.
Qed.

Lemma server_fifo_tick cfg s s' : tick cfg false s s' → server_fifo_inv s → server_fifo_inv s'.
Proof.
  intros Ht Hinv. destruct Ht; try (by apply (server_fifo_same s)).
  - destruct H as [_ _ E3 _ _ E6 E7 (es & E & He) _]. apply (server_fifo_same s); try done; unfold pushes, written; rewrite E, omap_app.
    + rewrite (omap_inert push_payload es), app_nil_r; [done| |done]. by intros [].
    + rewrite (omap_inert write_payload es), app_nil_r; [done| |done]. by intros [].
  - set (s1 := update_slot i (set_sl_streaming true) s).
    destruct (stream_ops_same cfg i payload false s1) as (_ & (A1 & A2 & A3 & _) & _).
    destruct (stream_ops_same cfg i payload false (queue_stream_head cfg i false s1)) as ((B1 & B2 & B3 & _) & _).
    apply (server_fifo_same s); rewrite ?B1, ?A1, ?B2, ?A2, ?B3, ?A3; try done; unfold pushes, written.
    + rewrite (proj1 (omap_stream_ops push_payload cfg i payload false _ (λ _ _, eq_refl))).
      by rewrite (proj1 (proj2 (omap_stream_ops push_payload cfg i payload false _ (λ _ _, eq_refl)))).
    + rewrite (proj1 (omap_stream_ops write_payload cfg i payload false _ (λ _ _, eq_refl))).
      by rewrite (proj1 (proj2 (omap_stream_ops write_payload cfg i payload false _ (λ _ _, eq_refl)))).
  - destruct (stream_ops_same cfg i [] false s) as (_ & _ & (A1 & A2 & A3 & _)).
    apply (server_fifo_same s); rewrite ?A1, ?A2, ?A3; try done; unfold pushes, written.
    + by rewrite (proj2 (proj2 (omap_stream_ops push_payload cfg i [] false _ (λ _ _, eq_refl)))).
    + by rewrite (proj2 (proj2 (omap_stream_ops write_payload cfg i [] false _ (λ _ _, eq_refl)))).
  - unfold flush_stream_writes. apply server_fifo_flush. generalize (stream_writes (slot i s)). intros ws.
    assert (H' : server_fifo_inv (update_slot i (set_stream_writes []) s)) by (by apply (server_fifo_same s)).
    clear - H'. revert H'. generalize (update_slot i (set_stream_writes []) s). induction ws as [|w ws IH]; intros s0 H; [done|].
    cbn [foldl]. by apply IH, server_fifo_push.
  - apply server_fifo_enqueue. by apply (server_fifo_same s).
  - by apply server_fifo_enqueue.
  - by apply server_fifo_flush, server_fifo_push.
  - unfold create_response_slot in H. destruct (_ <=? _)%nat; [done|]. injection H as <- <-.
    apply (server_fifo_same s); try done; cbn; unfold pushes, written; by rewrite omap_app, app_nil_r.
  - destruct Hinv as [_ _ H3]. by constructor.
  - destruct Hinv as [_ _ H3]. constructor; cbn; rewrite ?H; [done..|]. unfold pushes, written. by rewrite !omap_app, !app_nil_r.
  - by apply server_fifo_flush.
  - destruct Hinv as [_ _ H3]. rewrite orb_false_r in H0. constructor; cbn; rewrite ?H0; done.
  - by apply server_fifo_pop.
  - destruct (server_fifo_pop s Hinv H) as [[_ _ H3] _]. constructor; cbn; [done..|]. unfold pushes, written in *. by rewrite !omap_app, !app_nil_r.
Qed.

(** ** Silence after the end *)

Definition ends (e : session_event) : bool := match e with se_close | se_upgraded => true | _ => false end.

Definition silent_step (st : option bool) (e : session_event) : option bool :=
  match st with
  | Some ended => match e with se_write _ => if ended then None else Some false | _ => Some (ended || ends e) end
  | None => None
  end.

Definition silent (tr : list session_event) : option bool := foldl silent_step (Some false) tr.

Definition silent_inv (s : session) : Prop := ∃ b, silent (trace s) = Some b ∧ (b = true → closed s = true).

Lemma silent_snoc tr e : silent (tr ++ [e]) = silent_step (silent tr) e.
Proof. unfold silent. by rewrite foldl_app. Qed.

Definition mute (e : session_event) : bool := match e with se_write _ => false | _ => negb (ends e) end.

Lemma silent_mute tr es : forallb mute es = true → silent (tr ++ es) = silent tr.
Proof.
  revert tr. induction es as [|e es IH]; intros tr; [by rewrite app_nil_r|]. cbn. intros [He Hes]%andb_true_iff.
  change (e :: es) with ([e] ++ es). rewrite app_assoc, (IH _ Hes), silent_snoc. destruct (silent tr) as [[]|], e; done.
Qed.

Lemma silent_grow s s' es :
  trace s' = trace s ++ es → forallb mute es = true → (closed s = true → closed s' = true) → silent_inv s → silent_inv s'.
Proof. intros E He Hc (b & H1 & H2). exists b. rewrite E, silent_mute by done. auto. Qed.

Lemma silent_flush s : silent_inv s → silent_inv (flush_next s).
Proof.
  intros (b & H1 & H2). destruct (flush_next_cases s) as [[-> _]|(w & ws & _ & Ec & _ & ->)]; [by exists b|].
  exists false. split; [|done]. cbn. rewrite silent_snoc, H1. destruct b; [|done]. by rewrite H2 in Ec.
Qed.

Lemma silent_tick cfg faults s s' : tick cfg faults s s' → silent_inv s → silent_inv s'.
Proof.
  intros Ht Hinv. assert (Hsame : trace s' = trace s → closed s' = closed s → silent_inv s').
  { intros E1 E2. apply (silent_grow s _ []); rewrite ?app_nil_r; try done. by rewrite E2. }
  destruct Ht; try (by apply Hsame).
  - destruct H as [_ _ _ _ _ _ E7 (es & E & He) _]. apply (silent_grow s _ es); [done| |by rewrite E7|done].
    clear - He. induction es as [|e es IH]; [done|]. cbn in *. apply andb_true_iff in He as [He Hes]. rewrite IH by done. by destruct e.
  - destruct payload as [|c payload]; [apply Hsame; unfold queue_stream_chunk, queue_stream_head; by destruct (stream_headers_queued _)|].
    apply (silent_grow s _ [se_accept i (c :: payload)]); try done; unfold queue_stream_chunk, queue_stream_head;
      by destruct (stream_headers_queued _).
  - apply Hsame; unfold queue_stream_end, queue_stream_head; repeat case_match; done.
  - unfold flush_stream_writes. apply silent_flush.
    destruct (push_writes_same (Some i) (stream_writes (slot i s)) (update_slot i (set_stream_writes []) s)) as (_ & _ & _ & _ & _ & Ec & _ & Et).
    eapply (silent_grow s); [exact Et| |by rewrite Ec|done]. clear. by induction (stream_writes (slot i s)).
  - unfold enqueue. apply silent_flush. by apply (silent_grow s _ [se_push (Some i) (serialize_response (sl_res (slot i s))
      (negb (close_after (slot i s))) (options cfg) (suppress_body (slot i s)))]).
  - unfold send_error, enqueue. apply silent_flush.
    by apply (silent_grow s _ [se_push None (serialize_response (error_response status_code) keep_alive (options cfg) false)]).
  - apply silent_flush. by apply (silent_grow s _ [se_push None response]).
  - unfold create_response_slot in H. destruct (_ <=? _)%nat; [done|]. injection H as <- <-. by apply (silent_grow s _ [se_slot (length (slots s))]).
  - by apply (silent_grow s _ []); cbn; rewrite ?app_nil_r.
  - destruct Hinv as (b & H1 & H2). exists true. split; [|done]. cbn. rewrite silent_snoc, H1. cbn. by rewrite orb_true_r.
  - by apply silent_flush.
  - destruct (pop_write_same (set_writing false s)) as (_ & _ & E3 & E4 & _). by apply Hsame.
  - destruct (pop_write_same (set_writing false s)) as (_ & _ & E3 & E4 & _). destruct Hinv as (b & Hb1 & Hb2). exists true.
    split; [|done]. cbn. rewrite E3. cbn. rewrite silent_snoc, Hb1. cbn. by rewrite orb_true_r.
Qed.

Lemma silent_none l : foldl silent_step None l = None.
Proof. by induction l. Qed.

(** Nothing is written after the end. *)
Lemma silent_order tr i j e p :
  silent tr ≠ None → tr !! i = Some e → ends e = true → tr !! j = Some (se_write p) → j < i.
Proof.
  intros H Hi He Hj. destruct (decide (j < i)) as [|Hge]; [done|exfalso].
  assert (i ≠ j) by (intros ->; rewrite Hi in Hj; injection Hj as ->; done).
  apply take_drop_middle in Hi as Ei. rewrite <-Ei in H. unfold silent in H. rewrite foldl_app in H. cbn [foldl] in H.
  assert (Hdrop : drop (S i) tr !! (j - S i) = Some (se_write p)) by (rewrite lookup_drop; by replace (S i + (j - S i)) with j by lia).
  assert (Hst : ∀ l m, l !! m = Some (se_write p) → foldl silent_step (Some true) l = None).
  { clear. induction l as [|x l IH]; intros m Hm; [done|]. destruct m as [|m].
    - injection Hm as ->. cbn. apply silent_none.
    - cbn [foldl]. destruct (silent_step (Some true) x) as [[]|] eqn:E; [by eapply IH| |apply silent_none]. by destruct x. }
  destruct (foldl silent_step (Some false) (take i tr)) as [b|].
  - apply H. assert (silent_step (Some b) e = Some true) as -> by (destruct e; cbn; try done; by rewrite orb_true_r). by eapply Hst.
  - apply H. cbn. apply silent_none.
Qed.
