(* ===== verification/ServerAccount.v ===== *)
(** * The accounting of a server connection

    What [pending_write_bytes] and [pending_response_writes] count, and the limit
    on the responses under way, as invariants of the steps of [ServerTheory]. *)

From stdpp Require Import relations.
From S2P Require Import Prelude Text Http RoutePath Router Http1 Request Response ServerWire ServerState.
From S2P Require Import ServerSession ServerTheory ServerSpec.

Open Scope nat_scope.

(** [accept_upgrade] does not count its response. *)
Definition write_size (w : pending_write) : nat := if pw_upgrade w then 0 else length (pw_payload w).
Definition total_bytes (ws : list pending_write) : nat := sum_list_with write_size ws.
Definition stream_bytes (sls : list response_slot) : nat := sum_list_with (λ sl, total_bytes (stream_writes sl)) sls.
Definition counted (ws : list pending_write) : nat := length (List.filter pw_counts_response ws).

(** What the slots that wait hold back, and what the slots held back that were
    given up when they still had writes: their bytes are never subtracted. *)
Definition slot_bytes (s : session) (i : nat) : nat := total_bytes (stream_writes (slot i s)).
Definition held_bytes (s : session) : nat := sum_list_with (slot_bytes s) (responses s).
Definition abandoned_bytes (s : session) : nat :=
  sum_list_with (slot_bytes s) (List.filter (λ i, negb (bool_decide (i ∈ responses s))) (List.seq 0 (length (slots s)))).

(** The writes of a stream neither upgrade nor end a response. *)
Definition stream_write_ok (w : pending_write) : Prop := pw_upgrade w = false ∧ pw_counts_response w = false.

Definition upgraded (tr : list session_event) : bool := existsb (λ e, match e with se_upgraded => true | _ => false end) tr.

#[global] Arguments total_bytes : simpl never.
#[global] Arguments stream_bytes : simpl never.
#[global] Arguments counted : simpl never.
#[global] Arguments upgraded : simpl never.

Lemma total_one w : total_bytes [w] = write_size w.
Proof. unfold total_bytes. cbn. lia. Qed.

Lemma counted_cons w ws : counted (w :: ws) = (if pw_counts_response w then 1 else 0) + counted ws.
Proof. unfold counted. cbn. by destruct (pw_counts_response w). Qed.

Lemma total_cons w ws : total_bytes (w :: ws) = write_size w + total_bytes ws.
Proof. done. Qed.

Record account_inv (cfg : server_config) (s : session) : Prop := {
  ai_bytes : upgraded (trace s) = false → pending_write_bytes s = total_bytes (writes s) + stream_bytes (slots s);
  ai_pending : pending_response_writes s = counted (writes s);
  ai_limit : length (responses s) + pending_response_writes s ≤ max_pending_responses_per_connection (options cfg);
  ai_streams : Forall (λ sl, Forall stream_write_ok (stream_writes sl)) (slots s)
}.

Lemma total_app a b : total_bytes (a ++ b) = total_bytes a + total_bytes b.
Proof. apply sum_list_with_app. Qed.

Lemma counted_app a b : counted (a ++ b) = counted a + counted b.
Proof. unfold counted. by rewrite List.filter_app, length_app. Qed.

Lemma upgraded_app tr es : upgraded (tr ++ es) = upgraded tr || upgraded es.
Proof. apply existsb_app. Qed.

Lemma stream_bytes_cons sl sls : stream_bytes (sl :: sls) = total_bytes (stream_writes sl) + stream_bytes sls.
Proof. done. Qed.

Lemma stream_bytes_app a b : stream_bytes (a ++ b) = stream_bytes a + stream_bytes b.
Proof. apply sum_list_with_app. Qed.

Lemma sum_list_perm {A} (f : A → nat) l l' : l ≡ₚ l' → sum_list_with f l = sum_list_with f l'.
Proof. induction 1; cbn; lia. Qed.

Lemma sum_list_in (f g : nat → nat) l : (∀ i, List.In i l → f i = g i) → sum_list_with f l = sum_list_with g l.
Proof. induction l as [|x l IH]; intros H; [done|]. cbn in *. rewrite (H x) by auto. f_equal. apply IH. auto. Qed.

Lemma slots_bytes s : stream_bytes (slots s) = sum_list_with (slot_bytes s) (List.seq 0 (length (slots s))).
Proof.
  unfold slot_bytes, slot. generalize (slots s). intros sls. induction sls as [|sl sls IH] using rev_ind; [done|].
  rewrite stream_bytes_app, length_app, List.seq_app, sum_list_with_app, IH. cbn [length Nat.add List.seq]. f_equal.
  - apply sum_list_in. intros i Hi. apply in_seq in Hi. by rewrite lookup_app_l by lia.
  - unfold stream_bytes. cbn. by rewrite lookup_app_r, Nat.sub_diag by lia.
Qed.

(** The slots are those that wait and the others. *)
Lemma held_abandoned s :
  NoDup (responses s) → Forall (λ i, i < length (slots s)) (responses s) → stream_bytes (slots s) = held_bytes s + abandoned_bytes s.
Proof.
  intros Hn Hf. rewrite slots_bytes. unfold held_bytes, abandoned_bytes. rewrite <-sum_list_with_app. apply sum_list_perm.
  apply NoDup_Permutation; [apply NoDup_seq| |].
  - apply NoDup_app. split; [done|]. split; [|apply NoDup_ListNoDup, List.NoDup_filter, NoDup_ListNoDup, NoDup_seq].
    intros i Hi [_ Hb]%list_elem_of_In%List.filter_In. by rewrite bool_decide_eq_true_2 in Hb.
  - intros i. rewrite elem_of_app, !list_elem_of_In, List.filter_In, in_seq, <-list_elem_of_In.
    rewrite Forall_forall in Hf. pose proof (Hf i). destruct (decide (i ∈ responses s)) as [Hi|Hi].
    + split; [by left|]. intros _. specialize (Hf i Hi). lia.
    + rewrite bool_decide_eq_false_2 by done. cbn. naive_solver lia.
Qed.

Lemma stream_bytes_lookup f sls : ∀ i sl, sls !! i = Some sl →
  stream_bytes (alter f i sls) + total_bytes (stream_writes sl) = stream_bytes sls + total_bytes (stream_writes (f sl)).
Proof.
  induction sls as [|sl0 sls IH]; intros i sl H; [done|].
  destruct i as [|i].
  - injection H as ->. change (alter f 0 (sl :: sls)) with (f sl :: sls). rewrite !stream_bytes_cons. lia.
  - specialize (IH i sl H). change (alter f (S i) (sl0 :: sls)) with (sl0 :: alter f i sls). rewrite !stream_bytes_cons. lia.
Qed.

Lemma stream_bytes_alter i f sls :
  i < length sls → stream_bytes (alter f i sls) + total_bytes (stream_writes (default empty_slot (sls !! i))) =
    stream_bytes sls + total_bytes (stream_writes (f (default empty_slot (sls !! i)))).
Proof. intros [sl H]%lookup_lt_is_Some. rewrite H. by apply stream_bytes_lookup. Qed.

Lemma stream_bytes_same i f sls :
  (∀ sl, stream_writes (f sl) = stream_writes sl) → stream_bytes (alter f i sls) = stream_bytes sls.
Proof.
  intros Hf. revert i. induction sls as [|sl sls IH]; intros i; [done|].
  destruct i as [|i].
  - change (alter f 0 (sl :: sls)) with (f sl :: sls). by rewrite !stream_bytes_cons, Hf.
  - change (alter f (S i) (sl :: sls)) with (sl :: alter f i sls). by rewrite !stream_bytes_cons, IH.
Qed.

Lemma streams_ok_alter i f sls :
  (∀ sl, Forall stream_write_ok (stream_writes sl) → Forall stream_write_ok (stream_writes (f sl))) →
  Forall (λ sl, Forall stream_write_ok (stream_writes sl)) sls → Forall (λ sl, Forall stream_write_ok (stream_writes sl)) (alter f i sls).
Proof. intros Hf H. apply Forall_alter; [done|]. intros sl _ Hsl. by apply Hf. Qed.

Lemma account_same cfg s s' :
  upgraded (trace s') = upgraded (trace s) → pending_write_bytes s' = pending_write_bytes s → writes s' = writes s →
  slots s' = slots s → pending_response_writes s' = pending_response_writes s → length (responses s') ≤ length (responses s) →
  account_inv cfg s → account_inv cfg s'.
Proof.
  intros E1 E2 E3 E4 E5 E6 [H1 H2 H3 H4]. constructor; rewrite ?E1, ?E2, ?E3, ?E4, ?E5; try done. lia.
Qed.

Lemma account_slot cfg i f s :
  (∀ sl, stream_writes (f sl) = stream_writes sl) → account_inv cfg s → account_inv cfg (update_slot i f s).
Proof.
  intros Hf [H1 H2 H3 H4]. constructor; cbn; try done.
  - intros Hu. rewrite stream_bytes_same by done. by apply H1.
  - apply streams_ok_alter; [|done]. intros sl. by rewrite Hf.
Qed.

Lemma upgraded_flush s : upgraded (trace (flush_next s)) = upgraded (trace s).
Proof.
  destruct (flush_next_cases s) as [[-> _]|(w & ws & _ & _ & _ & ->)]; [done|]. cbn. by rewrite upgraded_app, orb_false_r.
Qed.

Lemma account_flush cfg s : account_inv cfg s → account_inv cfg (flush_next s).
Proof.
  intros H. destruct (flush_next_same s) as (E1 & E2 & E3 & E4 & E5 & _).
  apply (account_same cfg s); rewrite ?E1, ?E2, ?E3, ?E4, ?E5; try done. apply upgraded_flush.
Qed.

Lemma account_queue cfg i payload c s :
  i < length (slots s) → account_inv cfg s → account_inv cfg (queue_stream_write i payload c s).
Proof.
  intros Hi [H1 H2 H3 H4]. constructor; cbn; try done.
  - intros Hu. specialize (H1 Hu). match goal with |- context [alter ?f i (slots s)] => pose proof (stream_bytes_alter i f (slots s) Hi) as E end.
    cbn [stream_writes set_stream_writes] in E. rewrite total_app, total_one in E. unfold write_size in E. cbn in E.
    lia.
  - apply streams_ok_alter; [|done]. intros sl Hsl. cbn. apply Forall_app_2; [done|]. by repeat constructor.
Qed.

Lemma account_head cfg i b s : i < length (slots s) → account_inv cfg s → account_inv cfg (queue_stream_head cfg i b s).
Proof.
  intros Hi H. unfold queue_stream_head. destruct (stream_headers_queued _); [done|]. cbv zeta.
  apply account_slot; [done|]. apply account_queue; [cbn; by rewrite !length_alter|]. by do 2 (apply account_slot; [done|]).
Qed.

Lemma account_chunk cfg i payload s : i < length (slots s) → account_inv cfg s → account_inv cfg (queue_stream_chunk i payload s).
Proof.
  intros Hi H. unfold queue_stream_chunk. destruct payload as [|c p]; [done|]. cbv zeta.
  apply account_queue; [cbn; by rewrite length_alter|].
  set (s1 := update_slot i _ s). apply (account_same cfg s1); try done; [cbn; by rewrite upgraded_app, orb_false_r|]. by apply account_slot.
Qed.

Lemma account_push cfg i w s :
  pw_counts_response w = false → account_inv cfg s →
  account_inv cfg (push_write i w (set_pending_write_bytes (pending_write_bytes s + write_size w) s)).
Proof.
  intros Hw [H1 H2 H3 H4]. constructor; cbn; try done.
  - rewrite upgraded_app, orb_false_r. intros Hu. rewrite total_app, total_one, H1 by done. lia.
  - rewrite counted_app, counted_cons, Hw, H2. cbn. change (counted []) with 0. lia.
Qed.

Lemma account_pop cfg s : account_inv cfg s → from_option pw_upgrade false (head (writes s)) = false → account_inv cfg (pop_write s).
Proof.
  intros [H1 H2 H3 H4] Hu. unfold pop_write. destruct (writes s) as [|w ws] eqn:E; [by constructor; rewrite ?E|]. cbn in Hu.
  assert (Hb : upgraded (trace s) = false → pending_write_bytes s - length (pw_payload w) = total_bytes ws + stream_bytes (slots s)).
  { intros Ht. rewrite (H1 Ht), total_cons. unfold write_size at 1. rewrite Hu. lia. }
  rewrite counted_cons in H2. destruct (pw_counts_response w); cbn in H2; constructor; cbn; try done.
  - by rewrite H2.
  - lia.
Qed.

Lemma account_tick cfg faults s s' : tick cfg faults s s' → account_inv cfg s → account_inv cfg s'.
Proof.
  intros Ht Hinv. destruct Ht; try (by apply (account_same cfg s)); try (by apply account_slot).
  - destruct H as [E1 E2 E3 E4 E5 _ _ (es & E & He) _]. apply (account_same cfg s); rewrite ?E1, ?E2, ?E3, ?E4, ?E5; try done.
    rewrite E, upgraded_app. cut (upgraded es = false); [intros ->; apply orb_false_r|]. unfold upgraded.
    clear - He. induction es as [|e es IH]; [done|]. cbn in *. apply andb_true_iff in He as [He Hes]. rewrite IH by done. by destruct e.
  - apply account_slot; [intros sl; by destruct (H sl) as (_ & _ & _ & _ & _ & _ & _ & ?)|done].
  - set (s1 := update_slot i (set_sl_streaming true) s). assert (i < length (slots s1)) by (subst s1; cbn; by rewrite length_alter).
    apply account_chunk; [by rewrite head_slots|]. apply account_head; [done|]. by apply account_slot.
  - unfold queue_stream_end. cbv zeta. set (s1 := update_slot i _ s).
    assert (Hi1 : i < length (slots s1)) by (subst s1; cbn; by rewrite length_alter).
    assert (H1 : account_inv cfg s1) by (by apply account_slot).
    destruct (_ && stream_chunked _); [|by apply account_head]. apply account_queue; [by rewrite head_slots|by apply account_head].
  - unfold flush_stream_writes. apply account_flush.
    assert (Hi : i < length (slots s)).
    { destruct (decide (i < length (slots s))); [done|]. unfold slot in H0. by rewrite lookup_ge_None_2 in H0 by lia. }
    destruct Hinv as [H1 H2 H3 H4].
    destruct (push_writes_same (Some i) (stream_writes (slot i s)) (update_slot i (set_stream_writes []) s))
      as (E1 & E2 & E3 & E4 & E5 & _ & _ & E6).
    assert (Hok : Forall stream_write_ok (stream_writes (slot i s))).
    { unfold slot. destruct (slots s !! i) as [sl|] eqn:El; [|done]. eapply Forall_lookup_1 in El; [|exact H4]. done. }
    constructor; rewrite ?E1, ?E2, ?E3, ?E4, ?E5, ?E6; cbn [update_slot set_slots writes slots responses pending_write_bytes pending_response_writes trace].
    + rewrite upgraded_app. intros [Hu _]%orb_false_iff. rewrite total_app, (H1 Hu).
      pose proof (stream_bytes_alter i (set_stream_writes []) (slots s) Hi) as E. unfold slot. cbn [stream_writes set_stream_writes] in E.
      unfold total_bytes at 2 in E. cbn in E. lia.
    + rewrite counted_app, H2. assert (counted (stream_writes (slot i s)) = 0) as ->; [|lia].
      unfold counted. clear - Hok. induction Hok as [|w ws [_ Hw] _ IH]; [done|]. cbn. by rewrite Hw.
    + done.
    + by apply streams_ok_alter.
  - apply (account_same cfg s); try done. cbn. rewrite H. cbn. lia.
  - set (payload := serialize_response _ _ _ _). unfold enqueue. apply account_flush. destruct Hinv as [H2 H3 H4 H5].
    constructor; cbn; try done.
    + rewrite upgraded_app, orb_false_r. intros Hu. rewrite total_app, (H2 Hu). unfold total_bytes at 3. cbn. unfold write_size. cbn. lia.
    + rewrite counted_app, H3. unfold counted at 3. cbn. lia.
    + rewrite H in H4. cbn in H4. lia.
  - apply (account_same cfg s); try done. cbn. lia.
  - unfold send_error, enqueue. apply account_flush. by apply (account_push cfg None (PendingWrite _ _ false false)).
  - apply account_flush. pose proof (account_push cfg None (PendingWrite response false false true) s eq_refl Hinv) as H.
    change (write_size _) with 0 in H. rewrite Nat.add_0_r in H. destruct s; exact H.
  - unfold create_response_slot in H. destruct (_ <=? _)%nat eqn:E; [done|]. apply Nat.leb_gt in E. injection H as <- <-.
    destruct Hinv as [H1 H2 H3 H4]. constructor; cbn; rewrite ?length_app; cbn; try done.
    + rewrite upgraded_app, orb_false_r. intros Hu. rewrite stream_bytes_app, stream_bytes_cons, (H1 Hu). cbn. change (total_bytes []) with 0. change (stream_bytes []) with 0. lia.
    + lia.
    + by apply Forall_app_2; [|repeat constructor].
  - apply (account_same cfg s); try done. cbn. by rewrite upgraded_app, orb_false_r.
  - by apply account_flush.
  - apply account_pop; [|done]. by apply (account_same cfg s).
  - destruct Hinv as [H2 H3 H4 H5]. destruct (pop_write_same (set_writing false s)) as (E1 & E2 & E3 & _).
    destruct (writes s) as [|w ws] eqn:Ew; [done|]. unfold counted in H3. cbn in H1, H3.
    constructor; unfold pop_write; cbn; rewrite ?Ew; destruct (pw_counts_response w); cbn in *; rewrite ?upgraded_app; try (unfold counted; lia); try done.
    all: rewrite orb_true_r; done.
Qed.
