(* ===== verification/ServerStreams.v ===== *)
(** * What a response slot puts on the wire

    For every slot of a connection, the writes pushed for it and the writes it
    still holds back are, in order, either one buffered response or the head of
    a stream, the accepted chunks in their encoding and, when the stream is
    ended, the last chunk. *)

From stdpp Require Import relations sorting.
From S2P Require Import Prelude Text Http RoutePath Router Http1 Request Response ServerWire ServerWireSpec ServerState.
From S2P Require Import ServerSession ServerTheory ServerSpec.

Open Scope nat_scope.

Definition slot_push (i : nat) (e : session_event) : option str :=
  match e with se_push (Some j) p => if decide (i = j) then Some p else None | _ => None end.
Definition slot_pushes (i : nat) (tr : list session_event) : list str := omap (slot_push i) tr.

Definition slot_accept (i : nat) (e : session_event) : option str :=
  match e with se_accept j p => if decide (i = j) then Some p else None | _ => None end.
Definition slot_accepted (i : nat) (tr : list session_event) : list str := omap (slot_accept i) tr.

#[global] Arguments slot_pushes : simpl never.
#[global] Arguments slot_accepted : simpl never.
#[local] Arguments serialize_response_head : simpl never.
#[local] Arguments serialize_response : simpl never.
#[local] Arguments last_chunk : simpl never.
#[local] Arguments serialize_chunk : simpl never.

Section wire.
Context (cfg : server_config).

Definition queued (sl : response_slot) : list str := map pw_payload (stream_writes sl).

Definition encode_chunk (sl : response_slot) (chunk : str) : str := if stream_chunked sl then serialize_chunk chunk else chunk.

Definition stream_wire (sl : response_slot) (r : response_state) (accepted : list str) : list str :=
  serialize_response_head r (negb (close_after sl)) (options cfg) (stream_chunked sl) (suppress_body sl) ::
  map (encode_chunk sl) accepted ++ (if stream_ended sl && negb (suppress_body sl) && stream_chunked sl then [last_chunk] else []).

Definition buffered_wire (sl : response_slot) (r : response_state) : list str :=
  [serialize_response r (negb (close_after sl)) (options cfg) (suppress_body sl)].

Definition streamed (sl : response_slot) (pushed accepted : list str) : Prop :=
  sl_streaming sl = true ∧
  ∃ r, pushed ++ queued sl = stream_wire sl r accepted ∧ stream_chunked sl = negb (headers_contains (rs_headers r) (lit "content-length")).

Definition buffered (sl : response_slot) (pushed : list str) (in_line : Prop) : Prop :=
  pushed = [] ∨ (sl_streaming sl = false ∧ completed sl = true ∧ (in_line → False) ∧ ∃ r, pushed = buffered_wire sl r).

Record wire_ok (sl : response_slot) (pushed accepted : list str) (in_line : Prop) : Prop := {
  wo_streamed : stream_headers_queued sl = true → streamed sl pushed accepted;
  wo_buffered : stream_headers_queued sl = false →
    stream_ended sl = false ∧ queued sl = [] ∧ accepted = [] ∧ buffered sl pushed in_line;
  wo_suppressed : suppress_body sl = true → accepted = [];
  wo_nonempty : Forall (λ c, c ≠ []) accepted
}.

Definition wire_inv (s : session) : Prop :=
  ∀ i, wire_ok (slot i s) (slot_pushes i (trace s)) (slot_accepted i (trace s)) (i ∈ responses s).

(** ** One slot *)

Definition head_slot (b : bool) (sl : response_slot) : response_slot :=
  if stream_headers_queued sl then sl
  else
    let sl := set_stream_chunked (negb (headers_contains (rs_headers (sl_res sl)) (lit "content-length"))) sl in
    let sl := set_sl_res (set_committed (sl_res sl)) sl in
    let head := serialize_response_head (sl_res sl) (negb (close_after sl)) (options cfg) (stream_chunked sl) (suppress_body sl) in
    set_stream_headers_queued true (set_stream_writes (stream_writes sl ++ [PendingWrite head b false false]) sl).

Definition chunk_slot (payload : str) (sl : response_slot) : response_slot :=
  match payload with
  | [] => sl
  | _ => set_stream_writes (stream_writes sl ++ [PendingWrite (encode_chunk sl payload) false false false])
           (set_stream_body_bytes (stream_body_bytes sl + length payload) sl)
  end.

Definition end_slot (sl : response_slot) : response_slot :=
  let sl := set_stream_ended true (set_sl_streaming true sl) in
  let sl := head_slot (suppress_body sl && close_after sl) sl in
  if negb (suppress_body sl) && stream_chunked sl
  then set_stream_writes (stream_writes sl ++ [PendingWrite last_chunk (close_after sl) false false]) sl else sl.

Lemma wire_ok_less sl p a (P Q : Prop) : (Q → P) → wire_ok sl p a P → wire_ok sl p a Q.
Proof.
  intros HQ [H1 H2 H3 H4]. constructor; try done. intros Hq. destruct (H2 Hq) as (? & ? & ? & [->|(? & ? & ? & ?)]); split_and!; try done.
  - by left.
  - right. split_and!; auto.
Qed.

(** A change that keeps what is on the wire. *)
Lemma wire_ok_same sl sl' p a P : same_wire sl sl' → wire_ok sl p a P → wire_ok sl' p a P.
Proof.
  intros (E1 & E2 & E3 & E4 & E5 & E6 & E7 & E8) [H1 H2 H3 H4].
  constructor; unfold streamed, buffered, stream_wire, buffered_wire, encode_chunk, queued in *; rewrite ?E1, ?E2, ?E3, ?E4, ?E5, ?E6, ?E7, ?E8; done.
Qed.

Lemma wire_ok_completed sl p a P : wire_ok sl p a P → wire_ok (set_completed true sl) p a P.
Proof.
  intros [H1 H2 H3 H4]. constructor; try done. intros Hq. destruct (H2 Hq) as (? & ? & ? & [->|(? & ? & ? & ?)]); split_and!; try done.
  - by left.
  - by right.
Qed.

Lemma wire_ok_streaming sl p a P : completed sl = false → wire_ok sl p a P → wire_ok (set_sl_streaming true sl) p a P.
Proof.
  intros Hc [H1 H2 H3 H4]. constructor; try done.
  - intros Hq. by destruct (H1 Hq).
  - intros Hq. destruct (H2 Hq) as (? & ? & ? & [->|(? & Hx & ? & ?)]); [|congruence]. split_and!; try done. by left.
Qed.

Lemma slot_queued_snoc sl w : queued (set_stream_writes (stream_writes sl ++ [w]) sl) = queued sl ++ [pw_payload w].
Proof. unfold queued. cbn. by rewrite map_app. Qed.

(** The head, before or with the end. *)
Lemma head_wire b sl p a P :
  sl_streaming sl = true → completed sl = false →
  (stream_headers_queued sl = true → streamed sl p a) →
  (stream_headers_queued sl = false → queued sl = [] ∧ a = [] ∧ buffered sl p P) →
  (stream_ended sl = true → suppress_body sl = true) →
  streamed (head_slot b sl) p a.
Proof.
  intros Hs Hc H1 H2 He. unfold head_slot. destruct (stream_headers_queued sl) eqn:Hq; [by apply H1|].
  destruct (H2 eq_refl) as (Hw & -> & [->|(? & Hx & _)]); [|congruence]. split; [done|]. cbn zeta.
  exists (set_committed (sl_res sl)). split; [|done]. unfold queued in *. cbn. rewrite map_app, Hw. cbn. unfold stream_wire. cbn.
  destruct (stream_ended sl); [by rewrite He|done].
Qed.

Lemma wire_ok_chunk b payload sl p a P :
  sl_streaming sl = true → completed sl = false → stream_ended sl = false → suppress_body sl = false →
  wire_ok sl p a P →
  wire_ok (chunk_slot payload (head_slot b sl)) p (a ++ match payload with [] => [] | _ => [payload] end) P.
Proof.
  intros Hs Hc He Hb [H1 H2 H3 H4].
  assert (Hh : streamed (head_slot b sl) p a).
  { apply (head_wire b sl p a P); try done; [|congruence]. intros Hq. by destruct (H2 Hq) as (_ & ? & ? & ?). }
  assert (Eq : stream_headers_queued (head_slot b sl) = true) by (unfold head_slot; by destruct (stream_headers_queued sl) eqn:?).
  assert (Eb : suppress_body (head_slot b sl) = false) by (unfold head_slot; by destruct (stream_headers_queued sl)).
  assert (Ee : stream_ended (head_slot b sl) = false) by (unfold head_slot; by destruct (stream_headers_queued sl)).
  destruct payload as [|c payload]; cbn [chunk_slot]; [rewrite app_nil_r; constructor; congruence|].
  constructor; cbn; [|congruence|congruence|by apply Forall_app_2; [|repeat constructor]].
  intros _. destruct Hh as (Hst & r & Hw & Hch). split; [done|]. exists r. split; [|done].
  unfold queued in *. cbn. rewrite map_app, app_assoc, Hw. unfold stream_wire. cbn. rewrite Ee, map_app. cbn. by rewrite !app_nil_r.
Qed.

Lemma wire_ok_end sl p a P :
  completed sl = false → stream_ended sl = false → wire_ok sl p a P → wire_ok (end_slot sl) p a P.
Proof.
  intros Hc He [H1 H2 H3 H4]. unfold end_slot. cbn zeta.
  set (sl1 := set_stream_ended true (set_sl_streaming true sl)). generalize (suppress_body sl1 && close_after sl1). intros b.
  assert (Eq : stream_headers_queued (head_slot b sl1) = true) by (unfold head_slot; by destruct (stream_headers_queued sl1) eqn:?).
  assert (Eb : suppress_body (head_slot b sl1) = suppress_body sl) by (unfold head_slot; by destruct (stream_headers_queued sl1)).
  (* without the end *)
  set (sl2 := set_sl_streaming true sl).
  assert (Hh : streamed (head_slot b sl2) p a) .
  { apply (head_wire b sl2 p a P); try done; cbn; [by intros Hq; destruct (H1 Hq)| |congruence].
    intros Hq. destruct (H2 Hq) as (_ & ? & ? & [->|(_ & ? & _)]); [|congruence]. split_and!; try done. by left. }
  assert (E12 : head_slot b sl1 = set_stream_ended true (head_slot b sl2)) by (unfold head_slot; cbn; by destruct (stream_headers_queued sl)).
  assert (Ee : stream_ended (head_slot b sl2) = false) by (unfold head_slot; by destruct (stream_headers_queued sl2)).
  assert (Eb2 : suppress_body (head_slot b sl2) = suppress_body sl) by (unfold head_slot; by destruct (stream_headers_queued sl2)).
  assert (Eq2 : stream_headers_queued (head_slot b sl2) = true) by (by rewrite E12 in Eq).
  rewrite E12 in *. clear E12. destruct Hh as (Hst & r & Hw & Hch). cbn. rewrite Eb2.
  unfold stream_wire, encode_chunk in Hw. rewrite Ee in Hw. cbn in Hw. rewrite app_nil_r in Hw.
  destruct (negb (suppress_body sl) && stream_chunked (head_slot b sl2)) eqn:E.
  - constructor; cbn; rewrite ?Eb2; try done; try congruence. intros _. split; [done|]. exists r. split; [|done].
    unfold queued in *. cbn. rewrite map_app, app_assoc, Hw. unfold stream_wire, encode_chunk. cbn. rewrite Eb2, E. done.
  - constructor; cbn; rewrite ?Eb2; try done; try congruence. intros _. split; [done|]. exists r. split; [|done].
    unfold queued in *. cbn. rewrite Hw. unfold stream_wire, encode_chunk. cbn. rewrite Eb2, E. by rewrite app_nil_r.
Qed.

(** ** The operations on a slot *)

Lemma slot_push_flush j s : slot_pushes j (trace (flush_next s)) = slot_pushes j (trace s).
Proof. unfold slot_pushes. by rewrite omap_flush_next. Qed.

Lemma slot_accept_flush j s : slot_accepted j (trace (flush_next s)) = slot_accepted j (trace s).
Proof. unfold slot_accepted. by rewrite omap_flush_next. Qed.

Lemma slot_flush j s : slot j (flush_next s) = slot j s.
Proof. unfold slot. by rewrite (proj1 (flush_next_same s)). Qed.

Lemma responses_flush s : responses (flush_next s) = responses s.
Proof. apply flush_next_same. Qed.

(** An operation that applies [f] to slot [i] and, of the events of the slots,
    adds one accepted chunk at most. *)
Definition acts_on (i : nat) (f : response_slot → response_slot) (chunk : list str) (s s' : session) : Prop :=
  (i < length (slots s) → slot i s' = f (slot i s)) ∧ (∀ j, i ≠ j → slot j s' = slot j s) ∧
  length (slots s') = length (slots s) ∧ responses s' = responses s ∧
  (∀ j, slot_pushes j (trace s') = slot_pushes j (trace s)) ∧
  (∀ j, slot_accepted j (trace s') = slot_accepted j (trace s) ++ (if decide (j = i) then chunk else [])).

Lemma acts_update i f s : acts_on i f [] s (update_slot i f s).
Proof.
  split_and!; try done; [by apply slot_update|intros; by apply slot_update_ne|apply length_alter|].
  intros j. destruct (decide (j = i)); by rewrite app_nil_r.
Qed.

Lemma acts_trans i f g c s1 s2 s3 : acts_on i f [] s1 s2 → acts_on i g c s2 s3 → acts_on i (λ sl, g (f sl)) c s1 s3.
Proof.
  intros (A1 & A2 & A3 & A4 & A5 & A6) (B1 & B2 & B3 & B4 & B5 & B6). split_and!.
  - intros Hi. rewrite B1, A1 by lia. done.
  - intros j Hj. by rewrite B2, A2.
  - congruence.
  - congruence.
  - intros j. by rewrite B5, A5.
  - intros j. rewrite B6, A6. by destruct (decide (j = i)); rewrite ?app_nil_r.
Qed.

Lemma acts_ext i f g c s s' : f (slot i s) = g (slot i s) → acts_on i f c s s' → acts_on i g c s s'.
Proof. intros E (A1 & A). split; [|done]. intros Hi. by rewrite A1. Qed.

Lemma acts_queue i payload b s :
  acts_on i (λ sl, set_stream_writes (stream_writes sl ++ [PendingWrite payload b false false]) sl) [] s (queue_stream_write i payload b s).
Proof. apply (acts_update i _ (set_pending_write_bytes _ s)). Qed.

Lemma acts_none i s : acts_on i (λ sl, sl) [] s s.
Proof. split_and!; try done. intros j. destruct (decide (j = i)); by rewrite app_nil_r. Qed.

Lemma acts_slot i f s s' : i < length (slots s) → acts_on i f [] s s' → slot i s' = f (slot i s).
Proof. intros Hi (A & _). by apply A. Qed.

Lemma acts_head i b s : i < length (slots s) → acts_on i (head_slot b) [] s (queue_stream_head cfg i b s).
Proof.
  intros Hi. unfold queue_stream_head. destruct (stream_headers_queued (slot i s)) eqn:E.
  - eapply acts_ext; [|apply acts_none]. cbn beta. unfold head_slot. by rewrite E.
  - cbn zeta. match goal with |- acts_on _ _ _ _ (update_slot _ ?h (queue_stream_write _ ?p _ (update_slot _ ?g (update_slot _ ?f _)))) =>
      pose proof (acts_trans i _ _ _ _ _ _ (acts_trans i _ _ _ _ _ _ (acts_trans i _ _ _ _ _ _ (acts_update i f s) (acts_update i g _))
        (acts_queue i p b _)) (acts_update i h _)) as H end.
    eapply acts_ext; [|exact H]. cbn beta. rewrite !slot_update by (cbn; by rewrite ?length_alter). unfold head_slot. by rewrite E.
Qed.

Lemma acts_chunk i payload s :
  i < length (slots s) →
  acts_on i (chunk_slot payload) (match payload with [] => [] | _ => [payload] end) s (queue_stream_chunk i payload s).
Proof.
  intros Hi. unfold queue_stream_chunk. destruct payload as [|c payload]; [apply (acts_ext i (λ sl, sl)), acts_none; done|]. cbn zeta.
  match goal with |- acts_on _ _ _ _ (queue_stream_write _ ?p _ (happen _ (update_slot _ ?f _))) =>
    pose proof (acts_queue i p false (happen (se_accept i (c :: payload)) (update_slot i f s))) as (A1 & A2 & A3 & A4 & A5 & A6);
    pose proof (acts_update i f s) as (B1 & B2 & B3 & B4 & B5 & B6) end.
  split_and!.
  - intros _. rewrite A1 by (cbn; by rewrite length_alter). change (slot i (happen ?e ?s)) with (slot i s).
    cbn beta. rewrite B1 by done. done.
  - intros j Hj. rewrite A2 by done. by apply B2.
  - rewrite A3. apply B3.
  - by rewrite A4.
  - intros j. rewrite A5. cbn. unfold slot_pushes. rewrite omap_app. cbn. by rewrite app_nil_r.
  - intros j. rewrite A6. cbn. unfold slot_accepted. rewrite omap_app. cbn.
    destruct (decide (j = i)) as [->|]; by rewrite app_nil_r.
Qed.

Lemma acts_end i s : i < length (slots s) → acts_on i end_slot [] s (queue_stream_end cfg i s).
Proof.
  intros Hi. unfold queue_stream_end. cbn zeta.
  set (s1 := update_slot i _ s). set (b := suppress_body (slot i s1) && close_after (slot i s1)).
  assert (Hi1 : i < length (slots s1)) by (subst s1; cbn; by rewrite length_alter).
  pose proof (acts_trans i _ _ _ _ _ _ (acts_update i (λ sl, set_stream_ended true (set_sl_streaming true sl)) s) (acts_head i b s1 Hi1)) as H.
  fold s1 in H. pose proof (acts_slot _ _ _ _ Hi H) as Es. assert (Eb : b = suppress_body (slot i s) && close_after (slot i s)).
  { subst b s1. by rewrite slot_update. }
  rewrite Es. cbn beta in *. destruct (negb _ && _) eqn:E.
  - eapply acts_ext; [|eapply acts_trans; [exact H|apply acts_queue]]. cbn beta. unfold end_slot. cbn zeta. cbn [suppress_body close_after set_stream_ended set_sl_streaming].
    rewrite <-Eb, E. done.
  - eapply acts_ext; [|exact H]. cbn beta. unfold end_slot. cbn zeta. cbn [suppress_body close_after set_stream_ended set_sl_streaming].
    by rewrite <-Eb, E.
Qed.

(** ** The steps *)

Lemma wire_acts i f c s s' :
  i < length (slots s) → acts_on i f c s s' →
  (∀ p a P, wire_ok (slot i s) p a P → wire_ok (f (slot i s)) p (a ++ c) P) → wire_inv s → wire_inv s'.
Proof.
  intros Hi (A1 & A2 & _ & A4 & A5 & A6) Hf Hinv j. rewrite A4, A5, A6. destruct (decide (j = i)) as [->|Hj].
  - rewrite A1 by done. by apply Hf, Hinv.
  - rewrite A2, app_nil_r by done. apply Hinv.
Qed.

Lemma wire_same s s' :
  slots s' = slots s → (∀ j, j ∈ responses s' → j ∈ responses s) → (∀ j, slot_pushes j (trace s') = slot_pushes j (trace s)) →
  (∀ j, slot_accepted j (trace s') = slot_accepted j (trace s)) → wire_inv s → wire_inv s'.
Proof. intros E1 E2 E3 E4 H j. unfold slot. rewrite E1, E3, E4. eapply wire_ok_less; [|exact (H j)]. apply E2. Qed.

Lemma wire_flush s : wire_inv s → wire_inv (flush_next s).
Proof.
  apply wire_same; [by rewrite (proj1 (flush_next_same s))|by rewrite responses_flush|intros; by rewrite slot_push_flush|intros; by rewrite slot_accept_flush].
Qed.

Lemma wire_slot i f s :
  (∀ p a P, wire_ok (slot i s) p a P → wire_ok (f (slot i s)) p a P) → wire_inv s → wire_inv (update_slot i f s).
Proof.
  intros Hf Hinv j. cbn [trace responses update_slot set_slots]. destruct (decide (i = j)) as [<-|Hj]; [|by rewrite slot_update_ne].
  destruct (decide (i < length (slots s))) as [Hi|Hi]; [rewrite slot_update by done; by apply Hf, Hinv|].
  unfold slot, update_slot. cbn. rewrite list_lookup_alter. destruct (decide _) as [_|]; [|done].
  rewrite (lookup_ge_None_2 (slots s)) by lia. cbn. specialize (Hinv i). unfold slot in Hinv. by rewrite (lookup_ge_None_2 (slots s)) in Hinv by lia.
Qed.

(** The slot at the front hands its writes over. *)
Lemma wire_move i s : i ∈ responses s → sl_streaming (slot i s) = true → wire_inv s → wire_inv (flush_stream_writes i s).
Proof.
  intros Hin Hs Hinv. unfold flush_stream_writes. apply wire_flush.
  assert (Hi : i < length (slots s)).
  { destruct (decide (i < length (slots s))); [done|]. unfold slot in Hs. by rewrite lookup_ge_None_2 in Hs by lia. }
  destruct (push_writes_same (Some i) (stream_writes (slot i s)) (update_slot i (set_stream_writes []) s)) as (E1 & E2 & _ & _ & _ & _ & _ & E3).
  set (ws := stream_writes (slot i s)) in *. set (s' := foldl _ _ ws) in *.
  assert (Hp : ∀ j, slot_pushes j (trace s') = slot_pushes j (trace s) ++ (if decide (j = i) then map pw_payload ws else [])).
  { intros j. rewrite E3. unfold slot_pushes. rewrite omap_app. f_equal. clear. induction ws as [|w ws IH]; [by destruct (decide _)|].
    cbn. cbn in IH. rewrite IH. by destruct (decide (j = i)). }
  assert (Ha : ∀ j, slot_accepted j (trace s') = slot_accepted j (trace s)).
  { intros j. rewrite E3. unfold slot_accepted. rewrite omap_app. clear. induction ws as [|w ws IH]; [apply app_nil_r|exact IH]. }
  intros j. rewrite Hp, Ha, E2. unfold slot. rewrite E1. change (wire_ok (slot j (update_slot i (set_stream_writes []) s))
    (slot_pushes j (trace s) ++ (if decide (j = i) then map pw_payload ws else [])) (slot_accepted j (trace s)) (j ∈ responses s)).
  destruct (decide (j = i)) as [->|Hj]; [|rewrite app_nil_r, slot_update_ne by done; apply Hinv].
  rewrite slot_update by done. destruct (Hinv i) as [H1 H2 H3 H4]. constructor; try done.
  - intros Hq. destruct (H1 Hq) as (? & r & Hw & ?). split; [done|]. exists r. split; [|done]. unfold queued. cbn. by rewrite app_nil_r.
  - intros Hq. destruct (H2 Hq) as (? & Hw & ? & Hb). unfold queued in Hw. fold ws in Hw. rewrite Hw, app_nil_r. by split_and!.
Qed.

(** The buffered response of the slot at the front. *)
Lemma wire_pop i rest s n b :
  responses s = i :: rest → i ∉ rest → sl_streaming (slot i s) = false → completed (slot i s) = true → wire_inv s →
  wire_inv (enqueue (Some i) (serialize_response (sl_res (slot i s)) (negb (close_after (slot i s))) (options cfg) (suppress_body (slot i s)))
    b true (set_pending_response_writes n (set_responses rest s))).
Proof.
  intros Hr Hi Hs Hc Hinv. unfold enqueue. apply wire_flush. set (payload := serialize_response _ _ _ _). intros j. cbn.
  change (slot j _) with (slot j s). destruct (Hinv j) as [H1 H2 H3 H4].
  assert (Ea : slot_accepted j (trace s ++ [se_push (Some i) payload]) = slot_accepted j (trace s)).
  { unfold slot_accepted. rewrite omap_app. cbn. by rewrite app_nil_r. }
  unfold slot_pushes. rewrite omap_app, Ea. fold (slot_pushes j (trace s)). cbn [omap list_omap slot_push].
  destruct (decide (j = i)) as [->|Hj].
  - constructor; try done.
    + intros Hq. destruct (H1 Hq). congruence.
    + intros Hq. destruct (H2 Hq) as (? & ? & ? & [->|(_ & _ & Hn & _)]); [|exfalso; apply Hn; rewrite Hr; by left].
      split_and!; try done. right. split_and!; try done. by exists (sl_res (slot i s)).
  - rewrite app_nil_r. eapply wire_ok_less; [|by constructor]. rewrite Hr. intros H. by right.
Qed.

Lemma wire_event s s' e :
  slots s' = slots s → responses s' = responses s → trace s' = trace s ++ [e] →
  (∀ j, slot_push j e = None) → (∀ j, slot_accept j e = None) → wire_inv s → wire_inv s'.
Proof.
  intros E1 E2 E3 Hp Ha. apply wire_same; [done|by rewrite E2|intros j; rewrite E3..]; unfold slot_pushes, slot_accepted; rewrite omap_app; cbn;
    rewrite ?Hp, ?Ha; apply app_nil_r.
Qed.

Lemma wire_inert s s' : inert s s' → wire_inv s → wire_inv s'.
Proof.
  intros [E1 E2 _ _ _ _ _ (es & E & He) _]. apply wire_same; [done|by rewrite E2|intros j..];
    unfold slot_pushes, slot_accepted; rewrite E, omap_app, (omap_inert _ es); (apply app_nil_r || done || by intros []).
Qed.

Lemma wire_create close_after suppress_body s s' i :
  create_response_slot cfg (λ _, done) close_after suppress_body s = (s', Some i) → order_inv s → wire_inv s → wire_inv s'.
Proof.
  unfold create_response_slot. destruct (_ <=? _)%nat; [done|]. intros [= <- <-] [_ _ Hb] Hinv j. cbn [trace responses happen set_responses set_slots set_trace].
  set (n := length (slots s)) in *.
  assert (Ep : slot_pushes j (trace s ++ [se_slot n]) = slot_pushes j (trace s)).
  { unfold slot_pushes. rewrite omap_app. cbn. apply app_nil_r. }
  assert (Ea : slot_accepted j (trace s ++ [se_slot n]) = slot_accepted j (trace s)).
  { unfold slot_accepted. rewrite omap_app. cbn. apply app_nil_r. }
  rewrite Ep, Ea. clear Ep Ea. unfold slot. cbn [slots happen set_responses set_slots set_trace].
  destruct (decide (j = n)) as [->|Hj].
  - rewrite list_lookup_middle by done. cbn. pose proof (Hinv n) as Hn. unfold slot in Hn. rewrite lookup_ge_None_2 in Hn by (subst n; lia).
    cbn in Hn. destruct Hn as [H1 H2 H3 H4]. destruct (H2 eq_refl) as (_ & _ & Ha & [Hp|(_ & Hc & _)]); [|done].
    rewrite Ha, Hp. constructor; cbn; try done. intros _. split_and!; try done. by left.
  - assert (El : (slots s ++ [Slot (set_callbacks true false false false true true fresh_response) no_snapshot [] false close_after suppress_body
      false false true false false false 0 []]) !! j = slots s !! j).
    { destruct (decide (j < n)); [by apply lookup_app_l|]. rewrite !lookup_ge_None_2; [done|lia|rewrite length_app; cbn; fold n; lia]. }
    rewrite El. eapply wire_ok_less; [|exact (Hinv j)]. intros [H|H]%elem_of_app; [done|]. by apply list_elem_of_singleton in H.
Qed.

Lemma front_waits i rest s : order_inv s → responses s = i :: rest → i ∉ rest.
Proof.
  intros [_ Hs _] E Hin. rewrite E in Hs. apply StronglySorted_inv in Hs as [_ Hs]. rewrite Forall_forall in Hs.
  specialize (Hs i Hin). lia.
Qed.

Lemma wire_tick faults s s' : tick cfg faults s s' → order_inv s → wire_inv s → wire_inv s'.
Proof.
  intros Ht Ho Hinv. destruct Ht.
  - by eapply wire_inert.
  - apply wire_slot; [|done]. intros p a P. by apply wire_ok_same.
  - apply wire_slot; [|done]. intros p a P. apply wire_ok_completed.
  - apply wire_slot; [|done]. intros p a P. apply wire_ok_streaming, H.
  - destruct H0 as (Hc & Hd & He). eapply (wire_acts i _ _ s); [done| | |done].
    + eapply acts_trans; [eapply acts_trans; [apply acts_update|apply acts_head]|apply acts_chunk].
      * cbn. by rewrite length_alter.
      * rewrite head_slots. cbn. by rewrite length_alter.
    + intros p a P Hw. apply wire_ok_chunk; try done. by apply wire_ok_streaming.
  - destruct H0 as (Hc & Hd & He). eapply (wire_acts i _ _ s); [done|by apply acts_end| |done].
    intros p a P Hw. rewrite app_nil_r. by apply wire_ok_end.
  - apply wire_move; [|done|done]. rewrite H. by left.
  - apply (wire_same s); try done. intros j Hj. rewrite H. by right.
  - eapply wire_pop; try done. by eapply front_waits.
  - apply (wire_same s); try done. intros j Hj. by apply not_elem_of_nil in Hj.
  - unfold send_error, enqueue. apply wire_flush. by eapply (wire_event s _ (se_push None _)).
  - apply wire_flush. by eapply (wire_event s _ (se_push None _)).
  - by eapply wire_create.
  - done.
  - by eapply (wire_event s _ se_close).
  - by apply wire_flush.
  - done.
  - destruct (pop_write_same (set_writing false s)) as (E1 & E2 & E3 & _). apply (wire_same s); try done; intros j; [by rewrite E2|by rewrite E3..].
  - destruct (pop_write_same (set_writing false s)) as (E1 & E2 & E3 & _). eapply (wire_event s _ se_upgraded); try done. cbn. by rewrite E3.
Qed.

Lemma wire_new : wire_inv (new_session cfg).
Proof. intros i. constructor; try done. intros _. split_and!; try done. by left. Qed.
End wire.
