(* ===== verification/ServerExample.v ===== *)
(** * A small server

    Three routes, a user and the callbacks of some requests, to evaluate the
    operations of [ServerSession] on: [/a] answers later, [/b] at once and [/s]
    sends its body back as it arrives. *)

From S2P Require Import Prelude Text Http RoutePath Router Http1 Request Response ServerWire ServerState ServerSession.

Open Scope Z_scope.

Module Small.
Definition routes : router nat nat nat nat :=
  let r := empty_router matching_raw in
  let r := (add_route r m_get (lit "/a") body_none 0 0 1%nat).1 in
  let r := (add_route r m_get (lit "/b") body_none 0 0 2%nat).1 in
  (add_route r m_post (lit "/s") body_stream 0 0 3%nat).1.

Definition config : server_config := ServerConfig default_options (Limits 8000 100) routes [] None None.

Definition calls (tr : list session_event) (e : session_event) : list user_cmd :=
  match e with
  | se_handler 1 i _ _ => [u_response i c_defer]
  | se_handler 2 i _ _ => [u_response i (c_text (lit "B"))]
  | se_handler 3 i (Some b) _ => [u_body_on_data b true; u_body_on_end b true; u_response i c_stream]
  | se_body_data b chunk => [u_response 0 (c_write chunk)]
  | se_body_end b => [u_response 0 c_stream_end]
  | _ => []
  end.

Definition stops (tr : list session_event) (h : nat) : bool := false.

(** The callbacks of the parser for a request. *)
Definition get (target : string) : list callback :=
  [cb_message_begin; cb_url (lit target); cb_headers_complete HTTP_GET 1 1; cb_message_complete true].

Definition post (target : string) (body : list str) : list callback :=
  [cb_message_begin; cb_url (lit target); cb_header_field (lit "transfer-encoding"); cb_header_value (lit "chunked");
   cb_headers_complete HTTP_POST 1 1] ++ map cb_body body ++ [cb_message_complete true].

Definition read (cbs : list callback) : session_op := op_read (read_bytes [] (Run cbs hpe_done)).

Definition run (ops : list session_op) : session := run_session config calls stops 4 ops.

(** Two requests in one read; the first is answered after the second. *)
Definition pipelined : list session_op :=
  [op_start; read (get "/a" ++ get "/b"); op_call (u_response 0 (c_deferred (c_text (lit "A"))));
   op_write_done None; op_write_done None].

(** A body that comes back as a stream. *)
Definition echo : list session_op :=
  [op_start; read (post "/s" [lit "xyz"; lit "uv"]); op_write_done None; op_write_done None; op_write_done None; op_write_done None].
End Small.
