(* ===== verification/ServerClaims.v ===== *)
(** * What a run of a connection shows

    The invariants of the steps, for every run of [ServerSession]: whatever the
    peer sends, the user calls and the transport reports. *)

From stdpp Require Import relations sorting.
From S2P Require Import Prelude Text Http RoutePath Router Http1 Request Response ServerWire ServerWireSpec ServerState.
From S2P Require Import ServerSession.
From S2P Require Import ServerTheory ServerSpec ServerAccount ServerStreams ServerExample.

Open Scope nat_scope.

Section runs.
Context (cfg : server_config) (calls : list session_event → session_event → list user_cmd) (stops : list session_event → nat → bool).

Lemma any_op_ok ops : Forall (op_ok true) ops.
Proof. apply Forall_true. by intros [| |[]| |]. Qed.

Lemma run_invariant (P : session → Prop) depth ops :
  (∀ s s', tick cfg true s s' → P s → P s') → P (new_session cfg) → P (run_session cfg calls stops depth ops).
Proof. intros Ht H0. eapply ticks_invariant; [exact Ht| |exact H0]. apply run_session_ticks, any_op_ok. Qed.

Lemma order_new : order_inv (new_session cfg).
Proof. constructor; by repeat constructor. Qed.

Lemma run_order depth ops : order_inv (run_session cfg calls stops depth ops).
Proof. apply run_invariant, order_new. intros s s'. apply order_tick. Qed.

Lemma sorted_lt_nodup (l : list nat) : StronglySorted lt l → NoDup l.
Proof.
  induction 1 as [|i l Hs IH Hi]; constructor; [|done]. intros Hin. rewrite Forall_forall in Hi. specialize (Hi i Hin). lia.
Qed.

Lemma run_wire depth ops : wire_inv cfg (run_session cfg calls stops depth ops).
Proof.
  apply (run_invariant (λ s, order_inv s ∧ wire_inv cfg s)); [|split; [apply order_new|apply wire_new]].
  intros s s' Ht [Ho Hw]. split; [by eapply order_tick|by eapply wire_tick].
Qed.

End runs.

(** A connection is a run of the abstract machine: whatever is read, written,
    called and thrown, every operation of a connection is a sequence of its
    steps, each of which keeps the queues, the slots and the flags together;
    without a failed write, of the steps that do not need one. *)
Theorem server_run_is_machine_run (cfg : server_config) calls stops (depth : nat) (ops : list session_op) (faults : bool) :
  Forall (op_ok faults) ops → ticks cfg faults (new_session cfg) (run_session cfg calls stops depth ops).
Proof. apply run_session_ticks. Qed.

Lemma server_run_is_machine_run_witness :
  Forall (op_ok false) Small.pipelined ∧ ticks Small.config false (new_session Small.config) (Small.run Small.pipelined).
Proof.
  assert (H : Forall (op_ok false) Small.pipelined) by (repeat constructor).
  split; [exact H|]. exact (server_run_is_machine_run Small.config Small.calls Small.stops 4 Small.pipelined false H).
Defined.

(** C3: The responses of slots leave in the order in which the slots were created,
    which is the order of their requests, whatever the order in which handlers
    answer: the writes that were queued for slots are sorted, the slots that wait
    come after them, and a slot waits once.  This is not so for the errors that
    the server sends itself: [send_error] uses no slot, and overtakes the responses
    that wait ([error_overtakes] below). *)
Theorem server_responses_in_order (cfg : server_config) calls stops (depth : nat) (ops : list session_op) :
  let s := run_session cfg calls stops depth ops in
  StronglySorted le (pushed_ids (trace s) ++ responses s) ∧ StronglySorted lt (responses s) ∧
  Forall (λ i, i < length (slots s)) (pushed_ids (trace s) ++ responses s).
Proof. destruct (run_order cfg calls stops depth ops). by split_and!. Qed.

(** The transport is given the queued writes first in, first out, one at a
    time: what was written is a prefix of what was queued, and while the
    connection is open the rest is exactly what waits. *)
Theorem server_writes_fifo (cfg : server_config) calls stops (depth : nat) (ops : list session_op) :
  Forall (op_ok false) ops →
  let s := run_session cfg calls stops depth ops in
  written (trace s) `prefix_of` pushes (trace s) ∧
  (closed s = false → pushes (trace s) = written (trace s) ++ map pw_payload (waiting s)).
Proof.
  intros H s. assert (Hf : server_fifo_inv s); [|by destruct Hf].
  eapply ticks_invariant; [|by apply run_session_ticks|]; [intros s1 s2; apply server_fifo_tick|]. constructor; done.
Qed.

Lemma server_writes_fifo_witness :
  Forall (op_ok false) (take 3 Small.pipelined) ∧
  let s := Small.run (take 3 Small.pipelined) in
  written (trace s) `prefix_of` pushes (trace s) ∧
  (closed s = false → pushes (trace s) = written (trace s) ++ map pw_payload (waiting s)).
Proof.
  assert (H : Forall (op_ok false) (take 3 Small.pipelined)) by (repeat constructor).
  split; [exact H|]. exact (server_writes_fifo Small.config Small.calls Small.stops 4 (take 3 Small.pipelined) H).
Defined.

(** C6: What the counters of a connection count.  [pending_write_bytes_] is, until
    an upgrade is done, the bytes of the queued writes but for the answer to an
    upgrade, what the waiting slots hold back, and what slots held back that were
    given up; [pending_response_writes_] is the number of queued writes that are a
    whole response; and the slots that wait and these responses together are no
    more than [max_pending_responses_per_connection].  Streamed responses that are
    complete are not among them, even when their writes are still queued
    ([completed_streams_uncounted] below). *)
Theorem server_accounting (cfg : server_config) calls stops (depth : nat) (ops : list session_op) :
  let s := run_session cfg calls stops depth ops in
  (upgraded (trace s) = false → pending_write_bytes s = total_bytes (writes s) + held_bytes s + abandoned_bytes s) ∧
  pending_response_writes s = counted (writes s) ∧
  length (responses s) + pending_response_writes s ≤ max_pending_responses_per_connection (options cfg).
Proof.
  intros s. assert (H : account_inv cfg s).
  { apply run_invariant; [intros s1 s2; apply account_tick|]. constructor; try done. apply Nat.le_0_l. }
  destruct (run_order cfg calls stops depth ops) as [_ Hs Hf]. fold s in Hs, Hf. apply Forall_app in Hf as [_ Hf].
  destruct H as [H1 H2 H3 _]. split; [|done]. intros Hu. rewrite (H1 Hu), held_abandoned; [lia| |done]. by apply sorted_lt_nodup.
Qed.

(** Nothing is written after the end: once the transport was closed or
    handed over to an upgrade, no write starts. *)
Theorem server_silent_after_end (cfg : server_config) calls stops (depth : nat) (ops : list session_op) (i j : nat) (e : session_event) (p : str) :
  let tr := trace (run_session cfg calls stops depth ops) in
  tr !! i = Some e → ends e = true → tr !! j = Some (se_write p) → j < i.
Proof.
  intros tr. apply silent_order. assert (H : silent_inv (run_session cfg calls stops depth ops)); [|destruct H as (b & H & _); subst tr; by rewrite H].
  apply run_invariant; [intros s s'; apply silent_tick|]. by exists false.
Qed.

Lemma server_silent_after_end_witness :
  let s := run_session Small.config Small.calls Small.stops 4 Small.echo in
  write_payload <$> trace s !! 19 = Some (Some last_chunk) ∧ 19 < 21.
Proof.
  split; [vm_compute; reflexivity|].
  refine (server_silent_after_end Small.config Small.calls Small.stops 4 Small.echo 21 19 se_close last_chunk _ eq_refl _);
    vm_compute; reflexivity.
Defined.

(** C5: A slot puts one response on the wire: nothing yet, one buffered response,
    or, together with what it holds back, the head of a stream, exactly the
    chunks that were accepted, in order and in the encoding that the head
    announces, and the last chunk if and only if the stream was ended. *)
Theorem server_slot_wire (cfg : server_config) calls stops (depth : nat) (ops : list session_op) (i : nat) :
  let s := run_session cfg calls stops depth ops in
  let sl := slot i s in let pushed := slot_pushes i (trace s) in let accepted := slot_accepted i (trace s) in
  (stream_headers_queued sl = false → accepted = [] ∧ (pushed = [] ∨ ∃ r, pushed = buffered_wire cfg sl r)) ∧
  (stream_headers_queued sl = true →
   ∃ r, pushed ++ map pw_payload (stream_writes sl) = stream_wire cfg sl r accepted ∧
     stream_chunked sl = negb (headers_contains (rs_headers r) (lit "content-length"))).
Proof.
  intros s sl pushed accepted. destruct (run_wire cfg calls stops depth ops i) as [H1 H2 _ _]. split.
  - intros H. destruct (H2 H) as (_ & _ & Ha & [Hp|(_ & _ & _ & Hp)]); split; auto.
  - intros H. by destruct (H1 H).
Qed.

(** What the transport is given for a stream. *)
Lemma stream_wire_chunked cfg sl r accepted :
  stream_chunked sl = true → suppress_body sl = false → stream_ended sl = true →
  concat (stream_wire cfg sl r accepted) =
  serialize_response_head r (negb (close_after sl)) (options cfg) true false ++ flat_map serialize_chunk accepted ++ last_chunk.
Proof.
  intros H1 H2 H3. unfold stream_wire, encode_chunk. rewrite H1, H2, H3. cbn [concat andb negb]. rewrite concat_app, <-flat_map_concat_map.
  cbn [concat]. by rewrite app_nil_r.
Qed.

(** A client reads a finished stream back: when the handler ended the stream
    and all of it is queued, what was queued for the slot is one chunked response,
    whose body is the concatenation of the accepted chunks, and the client stops
    where the next response begins. *)
Theorem server_stream_read_back (cfg : server_config) calls stops (depth : nat) (ops : list session_op) (i : nat) (rest : str) :
  let s := run_session cfg calls stops depth ops in
  let sl := slot i s in let accepted := slot_accepted i (trace s) in
  stream_headers_queued sl = true → stream_chunked sl = true → stream_ended sl = true → suppress_body sl = false →
  stream_writes sl = [] → Forall (λ c, (Z.of_nat (length c) < 2 ^ 64)%Z) accepted →
  ∃ r, (∃ tail, concat (slot_pushes i (trace s)) = serialize_response_head r (negb (close_after sl)) (options cfg) true false ++ tail) ∧
    (sendable r → bodyless false (status_code r) = false →
     read_response false (concat (slot_pushes i (trace s)) ++ rest) =
     Some (ClientResponse (status_code r) (head_fields r (negb (close_after sl)) (options cfg) true false) (concat accepted), rest)).
Proof.
  intros s sl accepted Hq Hc He Hb Hw Hl. destruct (run_wire cfg calls stops depth ops i) as [H1 _ _ Hn].
  destruct (H1 Hq) as (_ & r & E & _). exists r. fold s sl in E, Hn. unfold queued in E. rewrite Hw, app_nil_r in E.
  rewrite E, stream_wire_chunked by done. split; [by eexists|]. intros Hs Hbl. rewrite <-!app_assoc. apply read_streamed; [done|done|].
  rewrite Forall_forall in *. intros c Hin. split; [by apply Hn|by apply Hl].
Qed.

Lemma server_stream_read_back_witness :
  let s := run_session Small.config Small.calls Small.stops 4 Small.echo in
  let sl := slot 0 s in let accepted := slot_accepted 0 (trace s) in
  concat accepted = lit "xyzuv" ∧
  ∃ r, (∃ tail, concat (slot_pushes 0 (trace s)) =
          serialize_response_head r (negb (close_after sl)) (options Small.config) true false ++ tail) ∧
    (sendable r → bodyless false (status_code r) = false →
     read_response false (concat (slot_pushes 0 (trace s)) ++ lit "HTTP") =
     Some (ClientResponse (status_code r) (head_fields r (negb (close_after sl)) (options Small.config) true false) (concat accepted), lit "HTTP")).
Proof.
  cbv zeta. pose proof (server_stream_read_back Small.config Small.calls Small.stops 4 Small.echo 0 (lit "HTTP")) as H. cbv zeta in H.
  split; [vm_compute; reflexivity|]. apply H; clear H; [vm_compute; reflexivity..|].
  assert (E : slot_accepted 0 (trace (run_session Small.config Small.calls Small.stops 4 Small.echo)) = [lit "xyz"; lit "uv"])
    by (vm_compute; reflexivity).
  rewrite E. repeat constructor.
Defined.

(** ** What the claims leave open *)

(** The first request is not yet answered when something comes that is no
    request: the error goes out first, and closes the connection. *)
Example error_overtakes :
  let s := Small.run [op_start; Small.read (Small.get "/a"); op_read (read_bytes [] (Run [] (hpe_error (lit "HPE_INVALID_METHOD"))))] in
  responses s = [0] ∧ slot_pushes 0 (trace s) = [] ∧ map (take 12) (written (trace s)) = [lit "HTTP/1.1 400"].
Proof. vm_compute. split_and!; reflexivity. Qed.

(** One response may be pending.  The first request is answered with a stream that
    is ended at once; its writes wait, and the second request is accepted. *)
Definition one_pending : server_config :=
  ServerConfig (ServerOptions 1000 1000 1 10000 30000 60000 true true) (Limits 8000 100) Small.routes [] None None.

Definition streams_at_once (tr : list session_event) (e : session_event) : list user_cmd :=
  match e with se_handler 2 i _ _ => [u_response i c_stream; u_response i (c_write (lit "x")); u_response i c_stream_end] | _ => [] end.

Example completed_streams_uncounted :
  let s := run_session one_pending streams_at_once Small.stops 4 [op_start; Small.read (Small.get "/b" ++ Small.get "/b")] in
  length (slots s) = 2 ∧ map stream_ended (slots s) = [true; true] ∧ closed s = false ∧ length (written (trace s)) = 1 ∧ length (writes s) = 6 ∧
  pending_response_writes s = 0 ∧ responses s = [].
Proof. vm_compute. split_and!; reflexivity. Qed.
