(* ===== verification/ServerObject.v ===== *)
(** * The server

    [server] and [server::impl] of [src/http/server.cpp] and the options of
    [src/http/server_options.cpp]: what the constructor accepts, the upgrade
    routes, and the connections a server holds while it serves.

    A connection is the session of [ServerSession]; connections are numbered in
    the order in which they were accepted, and the server keeps the numbers of
    those it holds.  That a stream was closed is reported at some later time,
    except for streams that report it within [close] ([at_once]).  Callbacks of
    the user that call [server::close] themselves are left out: it is an input
    between the callbacks. *)

From S2P Require Import Prelude Text Http RoutePath Router Http1 Request Response ServerWire ServerState ServerSession.
From S2P Require Import ServerTheory ServerSpec ServerAccount ServerExample.

Open Scope nat_scope.

(** ** Options *)

(** What a connection uses of the options, the limits of its parser, and how
    the router matches. *)
Record all_options := AllOptions { wire_options : server_options; parser_limits : http1_limits; path_matching : route_path_matching }.

Definition default_all_options : all_options :=
  AllOptions default_options (Limits (16 * 1024) 128) matching_percent_decoded_segments.

Definition require_positive (value : Z) (name : string) : result str () :=
  if (value <=? 0)%Z then Err (lit name) else Ok ().

Definition on_wire (f : server_options → server_options) (o : all_options) : all_options :=
  AllOptions (f (wire_options o)) (parser_limits o) (path_matching o).

Definition set_max_header_bytes (value : nat) (o : all_options) : result str all_options :=
  _ ← require_positive (Z.of_nat value) "max_header_bytes must be greater than zero";
  Ok (AllOptions (wire_options o) (Limits (Z.of_nat value) (max_header_count (parser_limits o))) (path_matching o)).
Definition set_max_header_count (value : nat) (o : all_options) : result str all_options :=
  _ ← require_positive (Z.of_nat value) "max_header_count must be greater than zero";
  Ok (AllOptions (wire_options o) (Limits (max_header_bytes (parser_limits o)) (Z.of_nat value)) (path_matching o)).
Definition set_max_body_bytes (value : nat) (o : all_options) : result str all_options :=
  _ ← require_positive (Z.of_nat value) "max_body_bytes must be greater than zero";
  Ok (on_wire (λ w, ServerOptions value (max_pending_write_bytes w) (max_pending_responses_per_connection w) (header_timeout w)
    (body_timeout w) (idle_timeout w) (opt_keep_alive w) (server_header w)) o).
Definition set_max_pending_write_bytes (value : nat) (o : all_options) : result str all_options :=
  _ ← require_positive (Z.of_nat value) "max_pending_write_bytes must be greater than zero";
  Ok (on_wire (λ w, ServerOptions (max_body_bytes w) value (max_pending_responses_per_connection w) (header_timeout w)
    (body_timeout w) (idle_timeout w) (opt_keep_alive w) (server_header w)) o).
Definition set_max_pending_responses (value : nat) (o : all_options) : result str all_options :=
  _ ← require_positive (Z.of_nat value) "max_pending_responses_per_connection must be greater than zero";
  Ok (on_wire (λ w, ServerOptions (max_body_bytes w) (max_pending_write_bytes w) value (header_timeout w)
    (body_timeout w) (idle_timeout w) (opt_keep_alive w) (server_header w)) o).
Definition set_header_timeout (value : Z) (o : all_options) : result str all_options :=
  _ ← require_positive value "header_timeout must be greater than zero";
  Ok (on_wire (λ w, ServerOptions (max_body_bytes w) (max_pending_write_bytes w) (max_pending_responses_per_connection w) value
    (body_timeout w) (idle_timeout w) (opt_keep_alive w) (server_header w)) o).
Definition set_body_timeout (value : Z) (o : all_options) : result str all_options :=
  _ ← require_positive value "body_timeout must be greater than zero";
  Ok (on_wire (λ w, ServerOptions (max_body_bytes w) (max_pending_write_bytes w) (max_pending_responses_per_connection w)
    (header_timeout w) value (idle_timeout w) (opt_keep_alive w) (server_header w)) o).
Definition set_idle_timeout (value : Z) (o : all_options) : result str all_options :=
  _ ← require_positive value "idle_timeout must be greater than zero";
  Ok (on_wire (λ w, ServerOptions (max_body_bytes w) (max_pending_write_bytes w) (max_pending_responses_per_connection w)
    (header_timeout w) (body_timeout w) value (opt_keep_alive w) (server_header w)) o).
Definition set_keep_alive (value : bool) (o : all_options) : all_options :=
  on_wire (λ w, ServerOptions (max_body_bytes w) (max_pending_write_bytes w) (max_pending_responses_per_connection w)
    (header_timeout w) (body_timeout w) (idle_timeout w) value (server_header w)) o.
Definition set_server_header (value : bool) (o : all_options) : all_options :=
  on_wire (λ w, ServerOptions (max_body_bytes w) (max_pending_write_bytes w) (max_pending_responses_per_connection w)
    (header_timeout w) (body_timeout w) (idle_timeout w) (opt_keep_alive w) value) o.
Definition set_route_path_matching (value : route_path_matching) (o : all_options) : all_options :=
  AllOptions (wire_options o) (parser_limits o) value.

Definition validate (o : all_options) : result str () :=
  let w := wire_options o in
  _ ← require_positive (max_header_bytes (parser_limits o)) "max_header_bytes must be greater than zero";
  _ ← require_positive (max_header_count (parser_limits o)) "max_header_count must be greater than zero";
  _ ← require_positive (Z.of_nat (max_body_bytes w)) "max_body_bytes must be greater than zero";
  _ ← require_positive (Z.of_nat (max_pending_write_bytes w)) "max_pending_write_bytes must be greater than zero";
  _ ← require_positive (Z.of_nat (max_pending_responses_per_connection w)) "max_pending_responses_per_connection must be greater than zero";
  _ ← require_positive (header_timeout w) "header_timeout must be greater than zero";
  _ ← require_positive (body_timeout w) "body_timeout must be greater than zero";
  require_positive (idle_timeout w) "idle_timeout must be greater than zero".

(** ** Configuration *)

Definition new_server (o : all_options) : result str server_config :=
  _ ← validate o;
  Ok (ServerConfig (wire_options o) (parser_limits o) (empty_router (path_matching o)) [] None None).

(** The methods that register routes, hooks and groups forward to the router. *)
Definition on_routes (f : router nat nat nat nat → router nat nat nat nat) (c : server_config) : server_config :=
  ServerConfig (options c) (header_limits c) (f (routes c)) (upgrade_routes c) (server_not_found c) (server_exception c).

Definition add_upgrade_route (pattern : str) (c : server_config) : result str server_config :=
  let parsed_pattern := parse_route_path pattern in
  if negb (valid parsed_pattern) then Err (lit "HTTP upgrade route pattern contains invalid percent encoding")
  else Ok (ServerConfig (options c) (header_limits c) (routes c) (upgrade_routes c ++ [parsed_pattern]) (server_not_found c)
             (server_exception c)).

Definition server_set_not_found (h : nat) (c : server_config) : server_config :=
  ServerConfig (options c) (header_limits c) (routes c) (upgrade_routes c) (Some h) (server_exception c).

Definition server_set_exception (h : nat) (c : server_config) : server_config :=
  ServerConfig (options c) (header_limits c) (routes c) (upgrade_routes c) (server_not_found c) (Some h).

(** ** Serving *)

Record serving := Serving {
  listeners : list bool;
  sessions : list nat;
  connections : list session;
  invalidated : bool
}.

Definition new_serving : serving := Serving [] [] [] false.

Section serving.
Context (cfg : server_config) (calls : list session_event → session_event → list user_cmd)
  (stops : list session_event → nat → bool) (depth : nat) (at_once : nat → bool).

Definition connection (id : nat) (v : serving) : session := default (new_session cfg) (connections v !! id).

(** A listener is closed or not. *)
Definition add_listener (v : serving) : serving :=
  Serving (listeners v ++ [false]) (sessions v) (connections v) (invalidated v).

(** The callback of a listener. *)
Definition on_accept (ok : bool) (v : serving) : serving :=
  if negb ok then v
  else
    let accepted := length (connections v) in
    Serving (listeners v) (sessions v ++ [accepted])
      (connections v ++ [run_session_op cfg calls stops depth (new_session cfg) op_start]) (invalidated v).

Definition remove_session (id : nat) (v : serving) : serving :=
  Serving (listeners v) (filter (λ candidate, candidate ≠ id) (sessions v)) (connections v) (invalidated v).

Definition run_connection (id : nat) (op : session_op) (v : serving) : serving :=
  Serving (listeners v) (sessions v) (alter (λ s, run_session_op cfg calls stops depth s op) id (connections v)) (invalidated v).

(** What happens on one connection.  Callbacks hold the session weakly: nothing
    happens on one that the server does not hold.  One that has handed its stream
    over to an upgrade removes itself. *)
Definition on_connection (id : nat) (op : session_op) (v : serving) : serving :=
  if negb (bool_decide (id ∈ sessions v)) then v else
  let before := upgraded (trace (connection id v)) in
  let v := run_connection id op v in
  if negb before && upgraded (trace (connection id v)) then remove_session id v else v.

Definition close_requested (s : session) : bool :=
  existsb (λ e, match e with se_close => true | _ => false end) (trace s).

(** The callback of the close of a stream. *)
Definition on_stream_closed (id : nat) (v : serving) : serving :=
  if close_requested (connection id v) then remove_session id v else v.

(** The range-based loop over [sessions_].  A stream that reports its end at
    once removes its session from the vector that is being iterated, after which
    nothing can be said. *)
Fixpoint close_loop (ids : list nat) (v : serving) : serving :=
  match ids with
  | [] => v
  | id :: ids' =>
    let was_closed := closed (connection id v) in
    let v := run_connection id (op_call u_close) v in
    if negb was_closed && at_once id then
      let v := remove_session id v in Serving (listeners v) (sessions v) (connections v) true
    else close_loop ids' v
  end.

Definition close (v : serving) : serving :=
  let v := Serving (map (λ _, true) (listeners v)) (sessions v) (connections v) (invalidated v) in
  close_loop (sessions v) v.

Inductive server_input :=
| sv_listen
| sv_accept (ok : bool)
| sv_connection (id : nat) (op : session_op)
| sv_stream_closed (id : nat)
| sv_close.

(** Inputs of a connection other than its start and [server::close]. *)
Definition connection_op (op : session_op) : bool :=
  match op with op_start | op_call u_close => false | _ => true end.

Definition server_step (v : serving) (i : server_input) : serving :=
  match i with
  | sv_listen => add_listener v
  | sv_accept ok => on_accept ok v
  | sv_connection id op => if connection_op op then on_connection id op v else v
  | sv_stream_closed id => on_stream_closed id v
  | sv_close => close v
  end.

Definition run_server (inputs : list server_input) : serving := foldl server_step new_serving inputs.
End serving.

(** ** What the options are *)

(** Options as their setters make them. *)
Inductive built : all_options → Prop :=
| built_default : built default_all_options
| built_header_bytes n o o' : built o → set_max_header_bytes n o = Ok o' → built o'
| built_header_count n o o' : built o → set_max_header_count n o = Ok o' → built o'
| built_body_bytes n o o' : built o → set_max_body_bytes n o = Ok o' → built o'
| built_pending_write_bytes n o o' : built o → set_max_pending_write_bytes n o = Ok o' → built o'
| built_pending_responses n o o' : built o → set_max_pending_responses n o = Ok o' → built o'
| built_header_timeout z o o' : built o → set_header_timeout z o = Ok o' → built o'
| built_body_timeout z o o' : built o → set_body_timeout z o = Ok o' → built o'
| built_idle_timeout z o o' : built o → set_idle_timeout z o = Ok o' → built o'
| built_keep_alive b o : built o → built (set_keep_alive b o)
| built_server_header b o : built o → built (set_server_header b o)
| built_path_matching m o : built o → built (set_route_path_matching m o).

Record positive (o : all_options) : Prop := {
  po_header_bytes : (0 < max_header_bytes (parser_limits o))%Z;
  po_header_count : (0 < max_header_count (parser_limits o))%Z;
  po_body_bytes : (0 < max_body_bytes (wire_options o))%nat;
  po_pending_write_bytes : (0 < max_pending_write_bytes (wire_options o))%nat;
  po_pending_responses : (0 < max_pending_responses_per_connection (wire_options o))%nat;
  po_header_timeout : (0 < header_timeout (wire_options o))%Z;
  po_body_timeout : (0 < body_timeout (wire_options o))%Z;
  po_idle_timeout : (0 < idle_timeout (wire_options o))%Z
}.

Lemma require_positive_ok value name : require_positive value name = Ok () ↔ (0 < value)%Z.
Proof. unfold require_positive. destruct (Z.leb_spec value 0); split; (done || lia). Qed.

Lemma require_positive_then {A} value name (r : result str A) x :
  (_ ← require_positive value name; r) = Ok x ↔ (0 < value)%Z ∧ r = Ok x.
Proof. unfold require_positive. destruct (Z.leb_spec value 0); cbn; split; [done|intros []; lia|done|by intros []]. Qed.

Lemma validate_positive o : validate o = Ok () ↔ positive o.
Proof.
  unfold validate. rewrite !require_positive_then, require_positive_ok. split.
  - intros (? & ? & ? & ? & ? & ? & ? & ?). constructor; lia.
  - intros []. split_and!; lia.
Qed.

Lemma built_positive o : built o → positive o.
Proof.
  induction 1 as [|n o o' _ IH H|n o o' _ IH H|n o o' _ IH H|n o o' _ IH H|n o o' _ IH H|z o o' _ IH H|z o o' _ IH H|z o o' _ IH H
    |b o _ IH|b o _ IH|m o _ IH].
  1: constructor; cbn [default_all_options wire_options parser_limits]; unfold default_options; cbn -[Nat.mul Z.mul]; lia.
  all: try (apply require_positive_then in H as [Hp H]; injection H as <-).
  all: destruct IH; constructor; cbn; (done || lia).
Qed.

(** Options that the setters made are accepted: the check of the constructor
    finds nothing that a setter let through. *)
Theorem built_accepted o : built o → ∃ c, new_server o = Ok c ∧ options c = wire_options o ∧ header_limits c = parser_limits o.
Proof. intros H. unfold new_server. rewrite (proj2 (validate_positive o)) by by apply built_positive. by eexists. Qed.

(** ** What a server keeps *)

Section registry.
Context (cfg : server_config) (calls : list session_event → session_event → list user_cmd)
  (stops : list session_event → nat → bool) (depth : nat) (at_once : nat → bool).

(** A connection started and went on as one of [ServerSession]. *)
Definition started (s : session) : Prop := ∃ ops, s = run_session cfg calls stops depth (op_start :: ops).

(** A connection that the server dropped was handed over or asked to close. *)
Record serving_inv (v : serving) : Prop := {
  sv_runs : Forall started (connections v);
  sv_once : NoDup (sessions v);
  sv_known : Forall (λ id, id < length (connections v)) (sessions v);
  sv_dropped : ∀ id s, connections v !! id = Some s → id ∉ sessions v → upgraded (trace s) = true ∨ close_requested s = true
}.

Lemma started_new : started (run_session_op cfg calls stops depth (new_session cfg) op_start).
Proof. exists []. unfold run_session. cbn [foldl]. reflexivity. Qed.

Lemma started_op s op : started s → started (run_session_op cfg calls stops depth s op).
Proof.
  intros [ops ->]. exists (ops ++ [op]). unfold run_session. by rewrite app_comm_cons, foldl_app.
Qed.

Lemma connection_run id op v :
  id < length (connections v) →
  connection cfg id (run_connection cfg calls stops depth id op v) = run_session_op cfg calls stops depth (connection cfg id v) op.
Proof.
  intros [s H]%lookup_lt_is_Some. unfold connection, run_connection. cbn [connections]. by rewrite list_lookup_alter_eq, H.
Qed.

Lemma connection_run_ne id id' op v :
  id ≠ id' → connection cfg id' (run_connection cfg calls stops depth id op v) = connection cfg id' v.
Proof. intros H. unfold connection, run_connection. cbn [connections]. by rewrite list_lookup_alter_ne. Qed.

Lemma run_connection_inv id op v : serving_inv v → id ∈ sessions v → serving_inv (run_connection cfg calls stops depth id op v).
Proof.
  intros [H1 H2 H3 H4] Hid. constructor; cbn.
  - apply Forall_lookup. intros j s Hj. destruct (decide (j = id)) as [->|Hne].
    + rewrite list_lookup_alter_eq in Hj. destruct (connections v !! id) as [s0|] eqn:E; [|done]. cbn in Hj. apply (inj Some) in Hj as <-.
      apply started_op. by eapply Forall_lookup in H1.
    + rewrite list_lookup_alter_ne in Hj by done. by eapply Forall_lookup in H1.
  - done.
  - by rewrite length_alter.
  - intros j s Hj Hn. rewrite list_lookup_alter_ne in Hj by congruence. by apply (H4 j).
Qed.

Lemma remove_session_inv id v :
  serving_inv v → (upgraded (trace (connection cfg id v)) = true ∨ close_requested (connection cfg id v) = true) →
  serving_inv (remove_session id v).
Proof.
  intros [H1 H2 H3 H4] Hid. constructor; cbn; [done|by apply NoDup_filter| |].
  - rewrite Forall_forall in *. intros j Hj. apply H3. by apply list_elem_of_filter in Hj as [_ Hj].
  - intros j s Hj Hn. destruct (decide (j = id)) as [->|Hne].
    + unfold connection in Hid. by rewrite Hj in Hid.
    + apply (H4 j); [done|]. intros Hj'. apply Hn. by apply list_elem_of_filter.
Qed.

Lemma on_connection_inv id op v : serving_inv v → serving_inv (on_connection cfg calls stops depth id op v).
Proof.
  intros H. unfold on_connection. case_bool_decide as Hid; cbn [negb]; [|done].
  pose proof (run_connection_inv id op v H Hid) as Hr. destruct (negb _); cbn [andb]; [|done].
  destruct (upgraded _) eqn:E; [|done]. apply remove_session_inv; auto.
Qed.

Lemma on_accept_inv ok v : serving_inv v → serving_inv (on_accept cfg calls stops depth ok v).
Proof.
  intros Hinv. unfold on_accept. destruct ok; cbn [negb]; [|done]. destruct Hinv as [H1 H2 H3 H4]. constructor; cbn [connections sessions].
  - apply Forall_app_2; [done|]. apply Forall_singleton, started_new.
  - apply NoDup_app. split_and!; [done| |apply NoDup_singleton]. intros j Hj ->%list_elem_of_singleton.
    rewrite Forall_forall in H3. apply H3 in Hj. lia.
  - rewrite length_app. cbn. apply Forall_app_2; [|apply Forall_singleton; lia]. eapply Forall_impl; [exact H3|]. cbn. lia.
  - intros j s Hj Hn. apply not_elem_of_app in Hn as [Hn Hj']. apply not_elem_of_cons in Hj' as [Hj' _].
    rewrite lookup_app_l in Hj; [by apply (H4 j)|]. apply lookup_lt_Some in Hj. rewrite length_app in Hj. cbn in Hj. lia.
Qed.

(** Closing an open connection asks its stream to close. *)
Lemma session_close_requests s :
  closed s = false → close_requested (run_session_op cfg calls stops depth s (op_call u_close)) = true.
Proof.
  intros H. cbn [run_session_op run_user_cmd fst]. unfold ServerSession.close. rewrite H. unfold close_requested. cbn [happen trace set_trace].
  rewrite existsb_app. cbn. by rewrite !orb_true_r.
Qed.

Lemma started_active s : started s → active_ok s.
Proof. intros [ops ->]. apply (ticks_active cfg true (new_session cfg)); [|done]. apply run_session_ticks, Forall_true. by intros [| |[]| |]. Qed.

Lemma closed_by_close s : started s → closed (run_session_op cfg calls stops depth s (op_call u_close)) = true.
Proof.
  intros Hs%started_active. cbn [run_session_op run_user_cmd fst]. unfold ServerSession.close. destruct (closed s) eqn:E; [done|].
  cbn [happen closed set_trace]. eapply closed_ticks; [apply (cancel_pending_ticks cfg true); [apply user_at_runs|]|].
  - assert (H : runs cfg true (set_closed true s) (close_timeout_timer (set_closed true s))) by apply close_timeout_timer_ticks.
    exact (ticks_active _ _ _ _ (H Hs) Hs).
  - unfold close_timeout_timer. by destruct (timeout_timer_closed _).
Qed.

Lemma close_closed s : closed s = true → run_session_op cfg calls stops depth s (op_call u_close) = s.
Proof. intros H. cbn [run_session_op run_user_cmd fst]. unfold ServerSession.close. by rewrite H. Qed.
Lemma close_loop_inv ids v : serving_inv v → (∀ id, id ∈ ids → id ∈ sessions v) → serving_inv (close_loop cfg calls stops depth at_once ids v).
Proof.
  revert v. induction ids as [|id ids IH]; intros v Hv Hids; cbn [close_loop]; [done|].
  assert (Hid : id ∈ sessions v) by (apply Hids; left).
  pose proof (run_connection_inv id (op_call u_close) v Hv Hid) as Hr.
  assert (Hlt : id < length (connections v)) by (destruct Hv as [_ _ Hk _]; rewrite Forall_forall in Hk; by apply Hk).
  destruct (negb (closed _)) eqn:Ec; cbn [andb]; [|apply IH; [done|]; intros j Hj; apply Hids; by right].
  destruct (at_once id); [|apply IH; [done|]; intros j Hj; apply Hids; by right].
  destruct (remove_session_inv id _ Hr) as [H1 H2 H3 H4]; [|by constructor].
  right. rewrite connection_run by done. apply session_close_requests. by apply negb_true_iff.
Qed.

Lemma server_step_inv v i : serving_inv v → serving_inv (server_step cfg calls stops depth at_once v i).
Proof.
  intros Hv. destruct i as [|ok|id op|id|]; cbn [server_step].
  - by destruct Hv.
  - by apply on_accept_inv.
  - destruct (connection_op op); [by apply on_connection_inv|done].
  - unfold on_stream_closed. destruct (close_requested _) eqn:E; [|done]. apply remove_session_inv; auto.
  - apply close_loop_inv; [by destruct Hv|done].
Qed.

Lemma run_server_inv inputs : serving_inv (run_server cfg calls stops depth at_once inputs).
Proof.
  unfold run_server. assert (H : serving_inv new_serving) by (constructor; cbn; [done|constructor|done|done]).
  revert H. generalize new_serving. induction inputs as [|i inputs IH]; intros v H; cbn [foldl]; [done|]. by apply IH, server_step_inv.
Qed.

(** The loop closes those it is given. *)
Lemma close_loop_closes ids v :
  (∀ id, at_once id = false) → NoDup ids → Forall (λ id, id < length (connections v)) ids →
  let v' := close_loop cfg calls stops depth at_once ids v in
  listeners v' = listeners v ∧ sessions v' = sessions v ∧ invalidated v' = invalidated v ∧
  ∀ id, connection cfg id v' =
    if decide (id ∈ ids) then run_session_op cfg calls stops depth (connection cfg id v) (op_call u_close) else connection cfg id v.
Proof.
  intros Hlater. revert v. induction ids as [|id ids IH]; intros v Hd Hlt; cbn [close_loop].
  - by split_and!.
  - apply NoDup_cons in Hd as [Hn Hd]. apply Forall_cons in Hlt as [Hid Hlt]. rewrite Hlater, andb_false_r.
    destruct (IH (run_connection cfg calls stops depth id (op_call u_close) v)) as (E1 & E2 & E3 & E4); [done| |].
    { unfold run_connection. cbn [connections]. by rewrite length_alter. }
    split_and!; [by rewrite E1|by rewrite E2|by rewrite E3|]. intros j. rewrite E4. destruct (decide (j = id)) as [->|Hne].
    + rewrite decide_False by done. rewrite decide_True by left. by apply connection_run.
    + rewrite connection_run_ne by congruence. destruct (decide (j ∈ ids)) as [Hj|Hj].
      * by rewrite decide_True by by right.
      * rewrite decide_False; [done|]. by intros [?|?]%elem_of_cons.
Qed.

End registry.

Lemma reports_drop cfg ids v :
  let v' := foldl (λ v id, on_stream_closed cfg id v) v ids in
  connections v' = connections v ∧
  ∀ id, id ∈ sessions v' ↔ id ∈ sessions v ∧ (id ∈ ids → close_requested (connection cfg id v) = false).
Proof.
  revert v. induction ids as [|i ids IH]; intros v; cbn [foldl]; [split; [done|]; intros id; split; [|tauto]; intros H; split; [done|]; by intros ?%elem_of_nil|].
  destruct (IH (on_stream_closed cfg i v)) as [E1 E2].
  assert (Ec : connections (on_stream_closed cfg i v) = connections v) by (unfold on_stream_closed; by destruct (close_requested _)).
  split; [by rewrite E1|]. intros id. rewrite E2, elem_of_cons. unfold connection in *. rewrite Ec. unfold on_stream_closed, connection.
  destruct (close_requested (default _ (connections v !! i))) eqn:E; cbn [remove_session sessions].
  - rewrite list_elem_of_filter. split.
    + intros ((Hne & Hs) & Hr). split; [done|]. by intros [->|?]; [|apply Hr].
    + intros (Hs & Hr). split; [|auto]. split; [|done]. intros ->. rewrite Hr in E; [done|by left].
  - split; [|tauto]. intros (Hs & Hr). split; [done|]. by intros [->|?]; [|apply Hr].
Qed.

(** The connections of a server are runs of [ServerSession], whatever happens on
    the others, so that what is proved of those runs holds of each.  The server
    holds a connection once, and it drops only one that has been handed over to
    an upgrade or whose stream was asked to close. *)
Theorem server_registry (cfg : server_config) calls stops (depth : nat) at_once (inputs : list server_input) :
  let v := run_server cfg calls stops depth at_once inputs in
  (∀ id s, connections v !! id = Some s → ∃ ops, s = run_session cfg calls stops depth (op_start :: ops)) ∧
  NoDup (sessions v) ∧ (∀ id, id ∈ sessions v → id < length (connections v)) ∧
  ∀ id s, connections v !! id = Some s → id ∉ sessions v → upgraded (trace s) = true ∨ close_requested s = true.
Proof.
  intros v. destruct (run_server_inv cfg calls stops depth at_once inputs) as [H1 H2 H3 H4].
  split_and!; [|done|by apply Forall_forall|done]. intros id s Hs. by eapply Forall_lookup in H1.
Qed.

(** Closing a server, when no stream reports its end within [close]: all
    listeners and all connections are closed, the loop over the connections stays
    valid, and once the streams have reported their end the server holds none of
    the connections that were open. *)
Theorem server_close_drains (cfg : server_config) calls stops (depth : nat) at_once (inputs : list server_input) :
  (∀ id, at_once id = false) →
  let v := run_server cfg calls stops depth at_once inputs in
  let v1 := close cfg calls stops depth at_once v in
  let v2 := foldl (λ v id, on_stream_closed cfg id v) v1 (sessions v1) in
  Forall (λ listener_closed, listener_closed = true) (listeners v1) ∧ length (listeners v1) = length (listeners v) ∧
  invalidated v1 = invalidated v ∧
  (∀ id, id ∈ sessions v → closed (connection cfg id v1) = true) ∧
  ∀ id, id ∈ sessions v → closed (connection cfg id v) = false → id ∉ sessions v2.
Proof.
  intros Hlater v v1 v2. destruct (run_server_inv cfg calls stops depth at_once inputs) as [H1 H2 H3 _]. fold v in H1, H2, H3.
  destruct (close_loop_closes cfg calls stops depth at_once (sessions v)
    (Serving (map (λ _, true) (listeners v)) (sessions v) (connections v) (invalidated v)) Hlater H2 H3) as (E1 & E2 & E3 & E4).
  change (close_loop _ _ _ _ _ _ _) with v1 in E1, E2, E3, E4. cbn [listeners sessions invalidated] in E1, E2, E3.
  split_and!; [| |done| |].
  - rewrite E1. apply Forall_map, Forall_true. done.
  - by rewrite E1, length_map.
  - intros id Hid. rewrite E4, decide_True by done. apply closed_by_close. rewrite Forall_forall in H3. apply H3 in Hid.
    apply lookup_lt_is_Some in Hid as [s Hs]. unfold connection. cbn [connections]. rewrite Hs. by eapply Forall_lookup in H1.
  - intros id Hid Hopen
      [_ Hr]%(proj2 (reports_drop cfg (sessions v1) v1)). rewrite E2 in Hr. specialize (Hr Hid). rewrite E4, decide_True in Hr by done.
    by rewrite session_close_requests in Hr.
Qed.

(** A stream that reports its end within [close], as a TLS stream does that has
    failed before, makes the loop over the connections go on with a vector that
    has changed: here the second connection may stay open. *)
Example close_invalidates :
  let v := run_server Small.config Small.calls Small.stops 4 (λ id, bool_decide (id = 0)) [sv_accept true; sv_accept true; sv_close] in
  invalidated v = true ∧ sessions v = [1] ∧ closed (connection Small.config 1 v) = false.
Proof. by vm_compute. Qed.

Lemma server_close_drains_witness :
  let inputs := sv_listen :: sv_accept true :: sv_accept true :: map (sv_connection 0) (drop 1 Small.pipelined) in
  let v := run_server Small.config Small.calls Small.stops 4 (λ _, false) inputs in
  sessions v = [0; 1] ∧ closed (connection Small.config 0 v) = false ∧
  ∀ id, id ∈ sessions v → closed (connection Small.config id (close Small.config Small.calls Small.stops 4 (λ _, false) v)) = true.
Proof.
  intros inputs v. split; [vm_compute; reflexivity|]. split; [vm_compute; reflexivity|].
  apply (server_close_drains Small.config Small.calls Small.stops 4 (λ _, false) inputs (λ _, eq_refl)).
Defined.
