(* ===== verification/HttpDate.v ===== *)
(** * HTTP dates

    [format_http_date] and [parse_http_date] of [src/http/static_files.cpp].  The
    calendar functions of the C library are [gmtime], which splits a time, and
    [timegm], which puts one together and takes days past the end of a month.
    [%a] and [%b] are those of the classic locale. *)

From S2P Require Import Prelude Text.

Open Scope Z_scope.

(** ** The calendar *)

Record tm := Tm { tm_sec : Z; tm_min : Z; tm_hour : Z; tm_mday : Z; tm_mon : Z; tm_year : Z; tm_wday : Z }.

Definition leap (year : Z) : bool := (year mod 4 =? 0) && (negb (year mod 100 =? 0) || (year mod 400 =? 0)).
Definition days_in_year (year : Z) : Z := if leap year then 366 else 365.
Definition month_lengths (year : Z) : list Z := [31; if leap year then 29 else 28; 31; 30; 31; 30; 31; 31; 30; 31; 30; 31].

(** The years of a cycle of the calendar, and its days. *)
Definition cycle : Z := 146097.

Fixpoint days_of_years (n : nat) (year : Z) : Z := match n with O => 0 | S n' => days_in_year year + days_of_years n' (year + 1) end.

(** The year and the day of the year, [days] after the start of [year]. *)
Fixpoint find_year (fuel : nat) (year days : Z) : Z * Z :=
  match fuel with
  | O => (year, days)
  | S fuel' => if days <? days_in_year year then (year, days) else find_year fuel' (year + 1) (days - days_in_year year)
  end.

Fixpoint find_month (lengths : list Z) (month day : Z) : Z * Z :=
  match lengths with
  | [] => (month, day)
  | n :: lengths' => if day <? n then (month, day) else find_month lengths' (month + 1) (day - n)
  end.

Definition gmtime (value : Z) : tm :=
  let days := value / 86400 in let seconds := value mod 86400 in
  let '(year, day) := find_year 400 (1970 + 400 * (days / cycle)) (days mod cycle) in
  let '(month, mday) := find_month (month_lengths year) 0 day in
  Tm (seconds mod 60) (seconds / 60 mod 60) (seconds / 3600) (mday + 1) month (year - 1900) ((days + 4) mod 7).

Definition days_before_month (year : Z) (month : nat) : Z := foldr Z.add 0 (take month (month_lengths year)).

Definition timegm (t : tm) : Z :=
  let year := tm_year t + 1900 in
  let days := (year - 1970) / 400 * cycle + days_of_years (Z.to_nat ((year - 1970) mod 400)) (1970 + 400 * ((year - 1970) / 400))
              + days_before_month year (Z.to_nat (tm_mon t)) + (tm_mday t - 1) in
  days * 86400 + tm_hour t * 3600 + tm_min t * 60 + tm_sec t.

(** ** Formatting *)

Definition months : list str := map lit ["Jan"; "Feb"; "Mar"; "Apr"; "May"; "Jun"; "Jul"; "Aug"; "Sep"; "Oct"; "Nov"; "Dec"]%string.
Definition weekdays : list str := map lit ["Sun"; "Mon"; "Tue"; "Wed"; "Thu"; "Fri"; "Sat"]%string.

Definition digit (n : Z) : ascii := digit_char (Z.to_N n).
Definition two_digits (n : Z) : str := [digit (n / 10 mod 10); digit (n mod 10)].
Definition signed_decimal (n : Z) : str := if n <? 0 then "-"%char :: to_string (Z.to_N (- n)) else to_string (Z.to_N n).

Definition format_http_date (value : Z) : str :=
  let t := gmtime value in
  nth (Z.to_nat (tm_wday t)) weekdays [] ++ lit ", " ++ two_digits (tm_mday t) ++ lit " " ++ nth (Z.to_nat (tm_mon t)) months [] ++ lit " " ++
  signed_decimal (tm_year t + 1900) ++ lit " " ++ two_digits (tm_hour t) ++ lit ":" ++ two_digits (tm_min t) ++ lit ":" ++
  two_digits (tm_sec t) ++ lit " GMT".

(** ** Parsing *)

Definition index_of (value : str) (l : list str) : option Z := (λ p, Z.of_nat p.1) <$> list_find (value =.) l.
Definition month_index (value : str) : option Z := index_of value months.

Definition digit_value (c : ascii) : Z := Z.of_N (code c) - 48.

Definition parse_2digits (value : str) : option Z :=
  match value with
  | [a; b] => if isdigit a && isdigit b then Some (digit_value a * 10 + digit_value b) else None
  | _ => None
  end.

Definition parse_4digits (value : str) : option Z :=
  if (length value =? 4)%nat && forallb isdigit value then Some (foldl (λ out ch, out * 10 + digit_value ch) 0 value) else None.

Definition char_is (value : str) (i : nat) (c : ascii) : bool := match value !! i with Some d => is_char c d | None => false end.

Definition parse_http_date_tm (value : str) : option tm :=
  if negb (length value =? 29)%nat || negb (str_eqb (substr value 3 2) (lit ", ")) || negb (char_is value 7 " ") || negb (char_is value 11 " ") ||
     negb (char_is value 16 " ") || negb (char_is value 19 ":") || negb (char_is value 22 ":") || negb (str_eqb (drop 25 value) (lit " GMT"))
  then None
  else
    match parse_2digits (substr value 5 2), parse_4digits (substr value 12 4), parse_2digits (substr value 17 2),
          parse_2digits (substr value 20 2), parse_2digits (substr value 23 2) with
    | Some day, Some year, Some hour, Some minute, Some second =>
      match month_index (substr value 8 3) with
      | None => None
      | Some month =>
        if (day <? 1) || (31 <? day) || (23 <? hour) || (59 <? minute) || (60 <? second) || (year <? 1970) then None
        else Some (Tm second minute hour day month (year - 1900) 0)
      end
    | _, _, _, _, _ => None
    end.

Definition parse_http_date (value : str) : option Z := timegm <$> parse_http_date_tm value.

Example date_example : format_http_date 784111777 = lit "Sun, 06 Nov 1994 08:49:37 GMT" ∧
  parse_http_date (lit "Sun, 06 Nov 1994 08:49:37 GMT") = Some 784111777.
Proof. by vm_compute. Qed.

(** ** Splitting and putting together *)

Lemma days_in_year_periodic y k : days_in_year (y + 400 * k) = days_in_year y.
Proof.
  unfold days_in_year, leap.
  replace (y + 400 * k) with (y + 100 * k * 4) at 1 by lia. replace (y + 400 * k) with (y + 4 * k * 100) at 1 by lia.
  replace (y + 400 * k) with (y + k * 400) by lia. by rewrite !Z_mod_plus_full.
Qed.

Lemma days_of_years_periodic n : ∀ y k, days_of_years n (y + 400 * k) = days_of_years n y.
Proof.
  induction n as [|n IH]; intros y k; [done|]. cbn [days_of_years]. rewrite days_in_year_periodic.
  replace (y + 400 * k + 1) with (y + 1 + 400 * k) by lia. by rewrite IH.
Qed.

Lemma days_in_year_pos y : 365 ≤ days_in_year y ≤ 366.
Proof. unfold days_in_year. destruct (leap y); lia. Qed.

Lemma find_year_spec fuel : ∀ year days y d, 0 ≤ days < days_of_years fuel year → find_year fuel year days = (y, d) →
  ∃ n, (n < fuel)%nat ∧ y = year + Z.of_nat n ∧ days = days_of_years n year + d ∧ 0 ≤ d < days_in_year y.
Proof.
  induction fuel as [|fuel IH]; intros year days y d H; [cbn in H; lia|]. cbn [find_year days_of_years] in *.
  destruct (Z.ltb_spec days (days_in_year year)) as [Hl|Hl].
  - intros [= <- <-]. exists 0%nat. cbn. lia.
  - intros E. apply IH in E as (n & H1 & -> & H2 & H3); [|lia]. exists (S n). cbn [days_of_years].
    replace (year + Z.of_nat (S n)) with (year + 1 + Z.of_nat n) by lia. lia.
Qed.

Lemma find_month_spec lengths : ∀ month day m d, 0 ≤ day < foldr Z.add 0 lengths → find_month lengths month day = (m, d) →
  ∃ n, (n < length lengths)%nat ∧ m = month + Z.of_nat n ∧ day = foldr Z.add 0 (take n lengths) + d ∧ 0 ≤ d < nth n lengths 0.
Proof.
  induction lengths as [|l ls IH]; intros month day m d H; [cbn in H; lia|]. cbn [find_month foldr] in *.
  destruct (Z.ltb_spec day l) as [Hl|Hl].
  - intros [= <- <-]. exists 0%nat. cbn. lia.
  - intros E. apply IH in E as (n & H1 & -> & H2 & H3); [|lia]. exists (S n). cbn. lia.
Qed.

Lemma months_of_year y : foldr Z.add 0 (month_lengths y) = days_in_year y.
Proof. unfold month_lengths, days_in_year. by destruct (leap y). Qed.

Lemma cycle_days y : days_of_years 400 (1970 + 400 * y) = cycle.
Proof. rewrite days_of_years_periodic. vm_compute. reflexivity. Qed.

(** The parts of a time. *)
Lemma gmtime_spec value :
  let t := gmtime value in
  timegm t = value ∧ 0 ≤ tm_sec t < 60 ∧ 0 ≤ tm_min t < 60 ∧ 0 ≤ tm_hour t < 24 ∧ 1 ≤ tm_mday t ≤ 31 ∧ 0 ≤ tm_mon t < 12 ∧ 0 ≤ tm_wday t < 7.
Proof.
  unfold gmtime. set (days := value / 86400). set (era := days / cycle).
  assert (Hd : 0 ≤ days mod cycle < cycle) by (by apply Z.mod_pos_bound).
  destruct (find_year 400 (1970 + 400 * era) (days mod cycle)) as [year day] eqn:Ey.
  apply find_year_spec in Ey as (n & Hn & -> & Edays & Hday); [|by rewrite cycle_days].
  destruct (find_month _ 0 day) as [month mday] eqn:Em.
  apply find_month_spec in Em as (k & Hk & -> & Eday & Hmday); [|by rewrite months_of_year].
  cbn [tm_sec tm_min tm_hour tm_mday tm_mon tm_year tm_wday timegm].
  assert (Hs : 0 ≤ value mod 86400 < 86400) by (by apply Z.mod_pos_bound).
  assert (Hm : nth k (month_lengths (1970 + 400 * era + Z.of_nat n)) 0 ≤ 31).
  { unfold month_lengths in *. destruct (leap _); do 12 (destruct k as [|k]; [cbn; lia|]); cbn in Hk; lia. }
  pose proof (Z.mod_pos_bound (value mod 86400) 60 eq_refl). pose proof (Z.mod_pos_bound (value mod 86400 / 60) 60 eq_refl).
  pose proof (Z.mod_pos_bound (days + 4) 7 eq_refl).
  assert (E3600 : value mod 86400 / 3600 = value mod 86400 / 60 / 60) by (by rewrite Z.div_div).
  pose proof (Z.div_mod (value mod 86400) 60 ltac:(done)). pose proof (Z.div_mod (value mod 86400 / 60) 60 ltac:(done)).
  change (length (month_lengths _)) with 12%nat in Hk.
  assert (Ht : timegm (Tm (value mod 86400 mod 60) (value mod 86400 / 60 mod 60) (value mod 86400 / 3600) (mday + 1) (0 + Z.of_nat k)
    (1970 + 400 * era + Z.of_nat n - 1900) ((days + 4) mod 7)) = value).
  { unfold timegm. cbn [tm_sec tm_min tm_hour tm_mday tm_mon tm_year].
    replace (1970 + 400 * era + Z.of_nat n - 1900 + 1900) with (1970 + 400 * era + Z.of_nat n) by lia.
    replace (1970 + 400 * era + Z.of_nat n - 1970) with (Z.of_nat n + era * 400) by lia.
    rewrite Z_div_plus_full, Z_mod_plus_full, Z.div_small, Z.mod_small, Nat2Z.id by lia.
    rewrite !Z.add_0_l, Nat2Z.id. unfold days_before_month.
    pose proof (Z.div_mod days cycle ltac:(done)) as D1. pose proof (Z.div_mod value 86400 ltac:(done)) as D2. fold days in D2. fold era in D1. lia. }
  split_and!; (exact Ht || lia).
Qed.

(** ** Printing and reading *)

(** Arithmetic with divisions by constants. *)
Ltac div_lia := zify; Z.to_euclidean_division_equations; lia.

Lemma digit_spec n : 0 ≤ n < 10 → isdigit (digit n) = true ∧ digit_value (digit n) = n.
Proof.
  intros H. assert (Hn : n = 0 ∨ n = 1 ∨ n = 2 ∨ n = 3 ∨ n = 4 ∨ n = 5 ∨ n = 6 ∨ n = 7 ∨ n = 8 ∨ n = 9) by lia.
  by destruct Hn as [->|[->|[->|[->|[->|[->|[->|[->|[->| ->]]]]]]]]].
Qed.

Lemma parse_two_digits n : 0 ≤ n < 100 → parse_2digits (two_digits n) = Some n.
Proof.
  intros H. unfold two_digits, parse_2digits.
  pose proof (Z.mod_pos_bound (n / 10) 10 eq_refl). pose proof (Z.mod_pos_bound n 10 eq_refl).
  destruct (digit_spec (n / 10 mod 10)) as [-> ->]; [lia|]. destruct (digit_spec (n mod 10)) as [-> ->]; [lia|]. cbn [andb]. f_equal.
  rewrite (Z.mod_small (n / 10)) by div_lia. pose proof (Z.div_mod n 10 ltac:(done)). lia.
Qed.

Lemma four_digits n : (1000 <= n < 10000)%N →
  to_string n = map digit_char [(n / 10 / 10 / 10)%N; (n / 10 / 10 mod 10)%N; (n / 10 mod 10)%N; (n mod 10)%N].
Proof.
  intros H. unfold to_string, to_chars. assert (E : ∃ k, N.size_nat n = S (S (S k))).
  { destruct n as [|p]; [lia|]. do 3 (destruct p as [p|p|]; try lia); cbn; eauto. }
  destruct E as [k ->]. f_equal. cbn [to_digits].
  assert (n / 10 / 10 / 10 < 10)%N by div_lia.
  rewrite (proj2 (N.ltb_ge n 10)), (proj2 (N.ltb_ge (n / 10) 10)), (proj2 (N.ltb_ge (n / 10 / 10) 10)), (proj2 (N.ltb_lt (n / 10 / 10 / 10) 10)) by div_lia.
  done.
Qed.

Lemma code_digit (n : N) : (n < 10)%N → isdigit (digit_char n) = true ∧ digit_value (digit_char n) = Z.of_N n.
Proof. intros H. destruct (digit_spec (Z.of_N n)) as [H1 H2]; [lia|]. unfold digit in *. by rewrite N2Z.id in *. Qed.

Lemma parse_year y : 1000 ≤ y < 10000 → ∃ a b c d, signed_decimal y = [a; b; c; d] ∧ parse_4digits [a; b; c; d] = Some y.
Proof.
  intros H. unfold signed_decimal. destruct (Z.ltb_spec y 0); [lia|]. rewrite four_digits by lia. set (n := Z.to_N y) in *.
  do 4 eexists. split; [reflexivity|]. unfold parse_4digits. cbn [length Nat.eqb forallb map andb foldl].
  assert (Hd : (n / 10 / 10 / 10 < 10)%N ∧ (n / 10 / 10 mod 10 < 10)%N ∧ (n / 10 mod 10 < 10)%N ∧ (n mod 10 < 10)%N).
  { split_and!; [div_lia|by apply N.mod_lt..]. }
  destruct Hd as (D1 & D2 & D3 & D4). destruct (code_digit _ D1) as [-> ->], (code_digit _ D2) as [-> ->], (code_digit _ D3) as [-> ->],
    (code_digit _ D4) as [-> ->]. cbn [andb]. f_equal.
  pose proof (N.div_mod (n / 10 / 10) 10 ltac:(done)). pose proof (N.div_mod (n / 10) 10 ltac:(done)). pose proof (N.div_mod n 10 ltac:(done)). lia.
Qed.

Lemma days_of_years_mono n m y : (n ≤ m)%nat → days_of_years n y ≤ days_of_years m y.
Proof.
  revert m y. induction n as [|n IH]; intros [|m] y H; cbn [days_of_years]; [done| |lia|].
  - clear. revert y. induction m as [|m IH]; intros y; cbn [days_of_years] in *; pose proof (days_in_year_pos y); [cbn; lia|].
    pose proof (IH (y + 1)). lia.
  - specialize (IH m (y + 1)). lia.
Qed.

(** The end of the year 9999. *)
Definition max_date : Z := 253402300800.

Lemma gmtime_year value : 0 ≤ value < max_date → 1970 ≤ tm_year (gmtime value) + 1900 < 10000.
Proof.
  intros H. unfold gmtime. set (days := value / 86400). assert (Hdays : 0 ≤ days < 2932897) by (unfold max_date in H; subst days; div_lia).
  set (era := days / cycle). assert (Hera : 0 ≤ era ≤ 20) by (unfold cycle in *; clearbody days; subst era; div_lia).
  assert (Hd : 0 ≤ days mod cycle < cycle) by (by apply Z.mod_pos_bound).
  destruct (find_year 400 (1970 + 400 * era) (days mod cycle)) as [year day] eqn:Ey.
  apply find_year_spec in Ey as (n & Hn & -> & Edays & Hday); [|by rewrite cycle_days].
  destruct (find_month _ 0 day) as [month mday]. cbn [tm_year]. split; [lia|].
  destruct (decide (era = 20)) as [E|]; [|lia]. assert (n < 30)%nat; [|lia]. destruct (decide (n < 30)%nat) as [|Hge]; [done|exfalso].
  assert (Hm : days_of_years 30 (1970 + 400 * era) ≤ days_of_years n (1970 + 400 * era)) by (apply days_of_years_mono; lia).
  rewrite (days_of_years_periodic 30) in Hm. change (days_of_years 30 1970) with 10957 in Hm.
  pose proof (Z.div_mod days cycle ltac:(done)). fold era in H0. unfold cycle in *. lia.
Qed.

(** ** Round trip *)

Lemma month_name n : (n < 12)%nat → ∃ a b c, nth n months [] = [a; b; c] ∧ month_index [a; b; c] = Some (Z.of_nat n).
Proof. intros H. do 12 (destruct n as [|n]; [by do 3 eexists|]). lia. Qed.

Lemma weekday_name n : (n < 7)%nat → ∃ a b c, nth n weekdays [] = [a; b; c].
Proof. intros H. do 7 (destruct n as [|n]; [by do 3 eexists|]). lia. Qed.

Lemma parse_format_date value : 0 ≤ value < max_date → parse_http_date (format_http_date value) = Some value.
Proof.
  intros H. pose proof (gmtime_year value H) as Hy. destruct (gmtime_spec value) as (Ht & Hs & Hm & Hh & Hd & Hmo & Hw).
  unfold format_http_date. set (t := gmtime value) in *. cbn zeta.
  destruct (weekday_name (Z.to_nat (tm_wday t))) as (w1 & w2 & w3 & ->); [lia|].
  destruct (month_name (Z.to_nat (tm_mon t))) as (m1 & m2 & m3 & -> & Emon); [lia|].
  destruct (parse_year (tm_year t + 1900)) as (y1 & y2 & y3 & y4 & -> & Eyear); [lia|].
  pose proof (parse_two_digits (tm_mday t) ltac:(lia)) as Eday. pose proof (parse_two_digits (tm_hour t) ltac:(lia)) as Ehour.
  pose proof (parse_two_digits (tm_min t) ltac:(lia)) as Emin. pose proof (parse_two_digits (tm_sec t) ltac:(lia)) as Esec.
  unfold two_digits in *. unfold parse_http_date, parse_http_date_tm.
  cbn [length app lit list_ascii_of_string Nat.eqb negb char_is lookup list_lookup substr take drop].
  change (str_eqb _ _) with true at 1. cbn [negb orb]. rewrite !is_char_refl. cbn [negb orb].
  change (str_eqb _ _) with true at 1. cbn [negb orb].
  rewrite Eday, Eyear, Ehour, Emin, Esec, Emon.
  destruct (Z.ltb_spec (tm_mday t) 1), (Z.ltb_spec 31 (tm_mday t)), (Z.ltb_spec 23 (tm_hour t)), (Z.ltb_spec 59 (tm_min t)), (Z.ltb_spec 60 (tm_sec t)),
    (Z.ltb_spec (tm_year t + 1900) 1970); try lia. cbn [orb fmap option_fmap option_map]. f_equal. rewrite <-Ht. unfold timegm.
  cbn [tm_sec tm_min tm_hour tm_mday tm_mon tm_year]. rewrite Z2Nat.id by lia.
  by replace (tm_year t + 1900 - 1900) with (tm_year t) by lia.
Qed.

(** A date that the server formats is read back: for every time from 1970 to
    the end of the year 9999, formatting and then parsing gives the time. *)
Theorem http_date_roundtrip (value : Z) : 0 ≤ value < max_date → parse_http_date (format_http_date value) = Some value.
Proof. apply parse_format_date. Qed.

Lemma http_date_roundtrip_witness : parse_http_date (format_http_date 951782400) = Some 951782400.
Proof. apply (http_date_roundtrip 951782400). unfold max_date. lia. Defined.
