(* ===== verification/FileSystem.v ===== *)
(** * File systems

    What [src/http/static_files.cpp] uses of [std::filesystem]: a tree of
    directories, files and symbolic links at one moment; [canonical], which
    resolves links, [symlink_status], [status] and paths as lists of names below
    the root of the tree. *)

From S2P Require Import Prelude Text.

Open Scope Z_scope.

Definition path := list str.

(** A time of last write is in nanoseconds; [last_write_time] may fail. *)
Inductive fs_node :=
| fs_file (content : str) (mtime : option Z) (readable : bool)
| fs_dir (entries : list (str * fs_node)) (searchable : bool)
| fs_link (absolute : bool) (target : path)
| fs_special.

Inductive fs_error := fs_not_found | fs_not_a_directory | fs_too_many_links | fs_permission_denied.

Definition fs_entry (name : str) (entries : list (str * fs_node)) : option fs_node :=
  snd <$> find (λ e, str_eqb e.1 name) entries.

(** The node at a path, links not followed. *)
Fixpoint node_at (n : fs_node) (p : path) : option fs_node :=
  match p with
  | [] => Some n
  | name :: p' =>
    match n with
    | fs_dir entries _ => match fs_entry name entries with Some n' => node_at n' p' | None => None end
    | _ => None
    end
  end.

Definition parent (p : path) : path := removelast p.

Section resolution.
Context (fs : fs_node).

(** The directory entry [name] of [cur]. *)
Definition entry_at (cur : path) (name : str) : result fs_error fs_node :=
  match node_at fs cur with
  | Some (fs_dir entries searchable) =>
    if negb searchable then Err fs_permission_denied
    else match fs_entry name entries with Some n => Ok n | None => Err fs_not_found end
  | Some _ => Err fs_not_a_directory
  | None => Err fs_not_found
  end.

(** Resolution of the names of a path from the directory [cur]; [fuel] bounds
    the links that are followed. *)
Fixpoint resolve (fuel : nat) : path → path → result fs_error path :=
  fix resolve_names (cur rest : path) {struct rest} : result fs_error path :=
    match rest with
    | [] => Ok cur
    | name :: rest' =>
      if str_eqb name [] || str_eqb name (lit ".") then resolve_names cur rest'
      else if str_eqb name (lit "..") then resolve_names (parent cur) rest'
      else
        match entry_at cur name with
        | Err e => Err e
        | Ok (fs_link absolute target) =>
          match fuel with
          | O => Err fs_too_many_links
          | S fuel' => resolve fuel' (if absolute then [] else cur) (target ++ rest')
          end
        | Ok _ => resolve_names (cur ++ [name]) rest'
        end
    end.

Definition max_links : nat := 40.

(** [std::filesystem::canonical]: the path exists and holds no link. *)
Definition canonical (p : path) : result fs_error path := resolve max_links [] p.

(** [symlink_status]: the last name is not followed. *)
Definition is_symlink (p : path) : result fs_error bool :=
  match last p with
  | None => Ok false
  | Some name =>
    match resolve max_links [] (parent p) with
    | Err e => Err e
    | Ok dir => (λ n, match n with fs_link _ _ => true | _ => false end) <$> entry_at dir name
    end
  end.

(** [status], which follows links. *)
Definition fs_status (p : path) : result fs_error fs_node :=
  match canonical p with
  | Err e => Err e
  | Ok q => match node_at fs q with Some n => Ok n | None => Err fs_not_found end
  end.
End resolution.

(** ** Lemmas *)

(** A path without links and dots. *)
Definition plain_name (name : str) : Prop := name ≠ [] ∧ name ≠ lit "." ∧ name ≠ lit "..".

Definition is_link (n : fs_node) : bool := match n with fs_link _ _ => true | _ => false end.

(** What a resolved path is: real names that lead to a node that is no link. *)
Definition real_path (fs : fs_node) (p : path) : Prop :=
  Forall plain_name p ∧ ∃ n, node_at fs p = Some n ∧ is_link n = false.

Lemma node_at_app fs p q : node_at fs (p ++ q) = match node_at fs p with Some n => node_at n q | None => None end.
Proof.
  revert fs. induction p as [|name p IH]; intros fs; [done|]. cbn. destruct fs; try done. destruct (fs_entry name entries); [apply IH|done].
Qed.

Lemma entry_at_ok fs cur name n : entry_at fs cur name = Ok n → node_at fs (cur ++ [name]) = Some n.
Proof.
  unfold entry_at. rewrite node_at_app. destruct (node_at fs cur) as [[]|]; try done. cbn. destruct (negb searchable); [done|].
  by destruct (fs_entry name entries); [intros [= ->]|].
Qed.

Lemma real_parent fs p : real_path fs p → real_path fs (parent p).
Proof.
  intros (Hp & n & Hn & Hl). destruct p as [|name p _] using rev_ind; [by split; [|exists n]|]. unfold parent. rewrite removelast_last.
  apply Forall_app in Hp as [Hp _]. split; [done|]. rewrite node_at_app in Hn. destruct (node_at fs p) as [m|]; [|done].
  exists m. split; [done|]. by destruct m.
Qed.

Lemma resolve_unfold fs fuel cur rest :
  resolve fs fuel cur rest =
    match rest with
    | [] => Ok cur
    | name :: rest' =>
      if str_eqb name [] || str_eqb name (lit ".") then resolve fs fuel cur rest'
      else if str_eqb name (lit "..") then resolve fs fuel (parent cur) rest'
      else
        match entry_at fs cur name with
        | Err e => Err e
        | Ok (fs_link absolute target) =>
          match fuel with
          | O => Err fs_too_many_links
          | S fuel' => resolve fs fuel' (if absolute then [] else cur) (target ++ rest')
          end
        | Ok _ => resolve fs fuel (cur ++ [name]) rest'
        end
    end.
Proof. by destruct fuel, rest. Qed.

Lemma plain_eqb name : str_eqb name [] || str_eqb name (lit ".") = false → str_eqb name (lit "..") = false → plain_name name.
Proof. unfold str_eqb. intros H1 H2. breflect. done. Qed.

Lemma plain_eqb_false name : plain_name name → str_eqb name [] || str_eqb name (lit ".") = false ∧ str_eqb name (lit "..") = false.
Proof. intros (H1 & H2 & H3). unfold str_eqb. by rewrite !bool_decide_eq_false_2. Qed.

(** Resolution yields a real path, where the root is a directory. *)
Lemma resolve_real fs fuel : is_link fs = false → ∀ rest cur p, real_path fs cur → resolve fs fuel cur rest = Ok p → real_path fs p.
Proof.
  intros Hfs. induction fuel as [|fuel IHf]; induction rest as [|name rest IH]; intros cur p Hcur; rewrite resolve_unfold.
  1,3: by intros [= <-].
  all: destruct (_ || _) eqn:E1; [by apply IH|]; destruct (str_eqb name (lit "..")) eqn:E2; [by apply IH, real_parent|];
    destruct (entry_at fs cur name) as [n|] eqn:En; [|done]; pose proof (entry_at_ok _ _ _ _ En) as Hn.
  all: assert (Hnext : is_link n = false → real_path fs (cur ++ [name])) by
    (intros Hl; split; [apply Forall_app_2; [apply Hcur|repeat constructor; by apply plain_eqb]|by exists n]).
  - destruct n; try done; (apply IH; by apply Hnext).
  - destruct n; try (apply IH; by apply Hnext). apply IHf. destruct absolute; [|done]. split; [constructor|by exists fs].
Qed.

(** Resolving a real path below a directory changes nothing. *)
Lemma resolve_names fs fuel : ∀ rest cur,
  Forall plain_name rest → (∀ k name, rest !! k = Some name → ∃ n, entry_at fs (cur ++ take k rest) name = Ok n ∧ is_link n = false) →
  resolve fs fuel cur rest = Ok (cur ++ rest).
Proof.
  induction rest as [|name rest IH]; intros cur Hp Hn; rewrite resolve_unfold; [by rewrite app_nil_r|].
  apply Forall_cons in Hp as [Hname Hp]. destruct (plain_eqb_false _ Hname) as [-> ->].
  destruct (Hn 0%nat name eq_refl) as (n & En & Hl). cbn in En. rewrite app_nil_r in En. rewrite En.
  assert (Hr : resolve fs fuel (cur ++ [name]) rest = Ok ((cur ++ [name]) ++ rest)).
  { apply IH; [done|]. intros k nm Hk. destruct (Hn (S k) nm Hk) as (m & Em & Hm). exists m. cbn in Em. by rewrite <-app_assoc. }
  rewrite <-app_assoc in Hr. by destruct n.
Qed.
