(* ===== verification/StaticFiles.v ===== *)
(** * Static files

    [src/http/static_files.cpp]: options, which file a request names, conditional
    requests, and the sender that copies the file into a streaming response.  The
    file system is that of one moment.  Times of files are converted with two
    readings of clocks; what lies between them is an argument, [skew], in
    nanoseconds.  A file that is open can be read to its end. *)

From S2P Require Import Prelude Text Http RoutePath Request Response ServerState HttpDate FileSystem.

Open Scope Z_scope.

(** ** Options *)

Inductive hidden_file_policy := hidden_reject | hidden_allow | hidden_allow_well_known.
Inductive symlink_policy := follow_within_root | symlinks_reject.

Record static_file_options := StaticOptions {
  path_param : str; index_file : option str; hidden_files : hidden_file_policy; symlinks : symlink_policy;
  cache_control : option str; opt_etag : bool; opt_last_modified : bool; nosniff : bool; chunk_size : Z
}.

Definition default_static_options : static_file_options :=
  StaticOptions (lit "path") (Some (lit "index.html")) hidden_reject follow_within_root (Some (lit "no-cache")) true true true (64 * 1024).

(** [std::invalid_argument], by its message. *)
Inductive static_error := bad_path_param | bad_index_file | bad_cache_control | bad_chunk_size | bad_root.

Definition contains_path_separator (value : str) : bool := existsb (λ c, is_char "/" c || is_char "\" c) value.

Definition contains_nul (value : str) : bool := existsb (is_char "000") value.

Definition starts_with_char (c : ascii) (value : str) : bool := match value with d :: _ => is_char c d | [] => false end.

Definition valid_path_param (value : str) : bool :=
  negb (str_eqb value [] || contains_path_separator value || starts_with_char ":" value || starts_with_char "*" value).

Definition valid_file_name (value : str) : bool :=
  negb (str_eqb value [] || str_eqb value (lit ".") || str_eqb value (lit "..") || contains_path_separator value || contains_nul value).

Definition require {A} (b : bool) (e : static_error) (a : A) : result static_error A := if b then Ok a else Err e.

Definition set_path_param (value : str) (o : static_file_options) : result static_error static_file_options :=
  require (valid_path_param value) bad_path_param
    (StaticOptions value (index_file o) (hidden_files o) (symlinks o) (cache_control o) (opt_etag o) (opt_last_modified o) (nosniff o) (chunk_size o)).
Definition with_index_file (value : option str) (o : static_file_options) : static_file_options :=
  StaticOptions (path_param o) value (hidden_files o) (symlinks o) (cache_control o) (opt_etag o) (opt_last_modified o) (nosniff o) (chunk_size o).
Definition set_index_file (value : str) (o : static_file_options) : result static_error static_file_options :=
  require (valid_file_name value) bad_index_file (with_index_file (Some value) o).
Definition set_no_index_file (o : static_file_options) : static_file_options := with_index_file None o.
Definition set_hidden_files (value : hidden_file_policy) (o : static_file_options) : static_file_options :=
  StaticOptions (path_param o) (index_file o) value (symlinks o) (cache_control o) (opt_etag o) (opt_last_modified o) (nosniff o) (chunk_size o).
Definition set_symlinks (value : symlink_policy) (o : static_file_options) : static_file_options :=
  StaticOptions (path_param o) (index_file o) (hidden_files o) value (cache_control o) (opt_etag o) (opt_last_modified o) (nosniff o) (chunk_size o).
Definition with_cache_control (value : option str) (o : static_file_options) : static_file_options :=
  StaticOptions (path_param o) (index_file o) (hidden_files o) (symlinks o) value (opt_etag o) (opt_last_modified o) (nosniff o) (chunk_size o).
Definition set_cache_control (value : str) (o : static_file_options) : result static_error static_file_options :=
  require (negb (str_eqb value [])) bad_cache_control (with_cache_control (Some value) o).
Definition set_no_cache_control (o : static_file_options) : static_file_options := with_cache_control None o.
Definition set_etag (value : bool) (o : static_file_options) : static_file_options :=
  StaticOptions (path_param o) (index_file o) (hidden_files o) (symlinks o) (cache_control o) value (opt_last_modified o) (nosniff o) (chunk_size o).
Definition set_last_modified (value : bool) (o : static_file_options) : static_file_options :=
  StaticOptions (path_param o) (index_file o) (hidden_files o) (symlinks o) (cache_control o) (opt_etag o) value (nosniff o) (chunk_size o).
Definition set_nosniff (value : bool) (o : static_file_options) : static_file_options :=
  StaticOptions (path_param o) (index_file o) (hidden_files o) (symlinks o) (cache_control o) (opt_etag o) (opt_last_modified o) value (chunk_size o).
Definition set_chunk_size (value : Z) (o : static_file_options) : result static_error static_file_options :=
  require (negb ((value =? 0) || (2 ^ 63 - 1 <? value))) bad_chunk_size
    (StaticOptions (path_param o) (index_file o) (hidden_files o) (symlinks o) (cache_control o) (opt_etag o) (opt_last_modified o) (nosniff o) value).

(** The root is an absolute path; as the code has it, a path to a directory. *)
Record static_file_handler := StaticHandler { root : path; static_options : static_file_options }.

Definition make_static_handler (fs : fs_node) (root : option path) (o : static_file_options) : result static_error static_file_handler :=
  match root with
  | None => Err bad_root
  | Some root => match fs_status fs root with Ok (fs_dir _ _) => Ok (StaticHandler root o) | _ => Err bad_root end
  end.

(** The setters of the handler apply those of the options, and throw as they do. *)
Definition on_options (f : static_file_options → result static_error static_file_options) (h : static_file_handler) :
    result static_error static_file_handler :=
  (λ o, StaticHandler (root h) o) <$> f (static_options h).

(** ** Which file *)

Definition is_relative_to (p root : path) : bool := bool_decide (root `prefix_of` p).

Definition is_hidden_component (value : str) : bool := starts_with_char "." value.

Fixpoint hidden_allowed_from (index : nat) (components : list str) (policy : hidden_file_policy) : bool :=
  match components with
  | [] => true
  | c :: components' =>
    if negb (is_hidden_component c) then hidden_allowed_from (S index) components' policy
    else
      match policy with
      | hidden_allow_well_known =>
        if (index =? 0)%nat && str_eqb c (lit ".well-known") then hidden_allowed_from (S index) components' policy else false
      | _ => false
      end
  end.

Definition hidden_allowed (components : list str) (policy : hidden_file_policy) : bool :=
  match policy with hidden_allow => true | _ => hidden_allowed_from 0 components policy end.

Definition is_safe_component (value : str) : bool := valid_file_name value.

Definition pattern_segments (pattern : str) : list str := List.filter (λ s, negb (str_eqb s [])) (segments "/" pattern).

Definition request_tail_components (req : server_request) (o : static_file_options) : option (list str) :=
  let pattern := pattern_segments (sr_matched_pattern req) in
  let wildcard := "*"%char :: path_param o in
  match list_find (wildcard =.) pattern with
  | None => None
  | Some (prefix_size, _) =>
    let request_segments := rq_decoded_path_segments (sr_request req) in
    if (length request_segments <? prefix_size)%nat then None
    else
      let components := drop prefix_size request_segments in
      if negb (forallb is_safe_component components) then None
      else if negb (hidden_allowed components (hidden_files o)) then None
      else Some components
  end.

Section files.
Context (fs : fs_node).

(** The loop over the components: no link on the way. *)
Fixpoint reject_links (candidate : path) (components : list str) : result (option fs_error) path :=
  match components with
  | [] => Ok candidate
  | c :: components' =>
    let candidate := candidate ++ [c] in
    match is_symlink fs candidate with
    | Err e => Err (Some e)
    | Ok true => Err None
    | Ok false => reject_links candidate components'
    end
  end.

(** [Err None] is [std::nullopt] with no error code. *)
Definition resolve_existing_target (root : path) (components : list str) (policy : symlink_policy) : result (option fs_error) path :=
  match canonical fs root with
  | Err e => Err (Some e)
  | Ok canonical_root =>
    match (match policy with
           | symlinks_reject => reject_links canonical_root components
           | follow_within_root => Ok (canonical_root ++ components)
           end) with
    | Err e => Err e
    | Ok candidate =>
      match canonical fs candidate with
      | Err e => Err (Some e)
      | Ok canonical_candidate => if is_relative_to canonical_candidate canonical_root then Ok canonical_candidate else Err None
      end
    end
  end.

(** What the handler answers with. *)
Inductive static_answer :=
| answer_not_found
| answer_internal_error
| answer_file (target : path) (content : str) (mtime : option Z) (readable : bool).

Definition answer_for_error (e : option fs_error) : static_answer :=
  match e with Some fs_permission_denied => answer_internal_error | _ => answer_not_found end.

(** A target that is not a directory; [std::ifstream] opens it later. *)
Definition answer_target (target : path) (status : fs_node) : static_answer :=
  match status with fs_file content mtime readable => answer_file target content mtime readable | _ => answer_not_found end.

Definition find_static_file (h : static_file_handler) (req : server_request) : static_answer :=
  let o := static_options h in
  match request_tail_components req o with
  | None => answer_not_found
  | Some components =>
    match resolve_existing_target (root h) components (symlinks o) with
    | Err e => answer_for_error e
    | Ok target =>
      match fs_status fs target with
      | Err _ => answer_internal_error
      | Ok (fs_dir _ _) =>
        match index_file o with
        | None => answer_not_found
        | Some index =>
          let indexed_components := components ++ [index] in
          if negb (hidden_allowed indexed_components (hidden_files o)) then answer_not_found
          else
            match resolve_existing_target (root h) indexed_components (symlinks o) with
            | Err e => answer_for_error e
            | Ok target =>
              match fs_status fs target with
              | Err _ => answer_internal_error
              | Ok status => answer_target target status
              end
            end
        end
      | Ok status => answer_target target status
      end
    end
  end.
End files.

(** ** Conditional requests *)

(** [file_time_to_time_t]: [skew] is the time between the two clocks' readings. *)
Definition file_time_to_time_t (value skew : Z) : Z := (value + skew) / 1000000000.

Definition dquote : ascii := "034".

(** [std::hex] also applies to the time, which prints as an unsigned number. *)
Definition make_etag (size modified : Z) : str :=
  lit "W/" ++ [dquote] ++ to_chars 16 (Z.to_N size) ++ lit "-" ++ to_chars 16 (Z.to_N (modified mod 2 ^ 64)) ++ [dquote].

Definition isspace (c : ascii) : bool := is_char " " c || ((9 <=? code c) && (code c <=? 13))%N.

Fixpoint trim_front (value : str) : str :=
  match value with c :: value' => if isspace c then trim_front value' else value | [] => [] end.
Definition trim (value : str) : str := rev (trim_front (rev (trim_front value))).

Definition if_none_match_matches (header etag : str) : bool :=
  existsb (λ item, let item := trim item in str_eqb item (lit "*") || str_eqb item etag) (segments "," header).

Definition is_not_modified (req : server_request) (etag : str) (modified : option Z) : bool :=
  let if_none_match := request_header (sr_request req) (lit "if-none-match") in
  if negb (str_eqb if_none_match []) && negb (str_eqb etag []) then if_none_match_matches if_none_match etag
  else
    match modified with
    | None => false
    | Some modified =>
      let if_modified_since := request_header (sr_request req) (lit "if-modified-since") in
      if str_eqb if_modified_since [] then false
      else match parse_http_date if_modified_since with Some since => modified <=? since | None => false end
    end.

(** ** Content types *)

Definition content_type_mappings : list (str * str) := map (λ m, (lit m.1, lit m.2))
  [(".html", "text/html; charset=utf-8"); (".htm", "text/html; charset=utf-8"); (".css", "text/css; charset=utf-8");
   (".js", "text/javascript; charset=utf-8"); (".mjs", "text/javascript; charset=utf-8"); (".json", "application/json; charset=utf-8");
   (".map", "application/json; charset=utf-8"); (".txt", "text/plain; charset=utf-8"); (".svg", "image/svg+xml"); (".png", "image/png");
   (".jpg", "image/jpeg"); (".jpeg", "image/jpeg"); (".gif", "image/gif"); (".webp", "image/webp"); (".ico", "image/x-icon");
   (".wasm", "application/wasm"); (".pdf", "application/pdf"); (".xml", "application/xml; charset=utf-8")]%string.

Definition content_type_for_extension (extension : str) : str :=
  match find (λ m, str_eqb extension m.1) content_type_mappings with Some m => m.2 | None => lit "application/octet-stream" end.

(** [path::extension]. *)
Definition extension (p : path) : str :=
  match last p with
  | None => []
  | Some name =>
    if str_eqb name (lit "..") then []
    else match rfind_char "." name with Some (S i) => drop (S i) name | _ => [] end
  end.

(** ** Sending a file *)

(** [file_sender]: an [std::ifstream] (whether it is open, what is still to be
    read, [eofbit] with [failbit]) and the size of the buffer. *)
Record file_sender := FileSender { file_open : bool; file_rest : str; file_eof : bool; buffer_size : nat }.

(** The state of which the sender and its response are parts. *)
Class SenderStore (S : Type) := { sget : S → file_sender; sput : file_sender → S → S }.

Section serving.
Context {S : Type} `{!ResponseStore S, !SenderStore S}.
Context (emit : response_event → proc S) (emit_write : str → S → S * option response_exn * stream_write_result).

(** [file_.read]: fewer bytes than asked for set the flags. *)
Definition file_read (f : file_sender) : str * file_sender :=
  if negb (file_open f) then ([], FileSender false (file_rest f) true (buffer_size f))
  else
    let chunk := take (buffer_size f) (file_rest f) in
    (chunk, FileSender true (drop (buffer_size f) (file_rest f)) (file_eof f || (length chunk <? buffer_size f)%nat) (buffer_size f)).

Definition sender_close : S → S := λ s, let f := sget s in sput (FileSender false (file_rest f) (file_eof f) (buffer_size f)) s.

Definition sender_finish : proc S := λ s, if file_eof (sget s) then stream_end emit (sender_close s) else (s, None).

Fixpoint send_loop (fuel : nat) : proc S := λ s,
  match fuel with
  | O => (s, None)
  | Datatypes.S fuel' =>
    if file_eof (sget s) then sender_finish s
    else
      let '(chunk, f) := file_read (sget s) in
      let s := sput f s in
      match chunk with
      | [] => sender_finish s
      | _ =>
        match write emit_write chunk s with
        | (s, Some e, _) => (s, Some e)
        | (s, None, r) =>
          if negb (wr_accepted r) then (sender_close s, None)
          else if negb (should_continue r) then (s, None)
          else send_loop fuel' s
        end
      end
  end.

Definition send_more : proc S := λ s,
  if negb (file_open (sget s)) || negb (stream_active (rget s)) then (sender_close s, None)
  else send_loop (Datatypes.S (Datatypes.S (length (file_rest (sget s))))) s.

(** What the callbacks that [start] sets do. *)
Definition sender_on_drain : proc S := send_more.
Definition sender_on_cancel : proc S := λ s, (sender_close s, None).
Definition sender_on_error : proc S := λ s, (sender_close s, None).

Definition sender_start : proc S :=
  run_cmd emit emit_write (c_stream_on_drain true);; run_cmd emit emit_write (c_stream_on_cancel true);;
  run_cmd emit emit_write (c_stream_on_error true);; send_more.

(** ** The handler *)

Definition set_header_unless_present (name value : str) : proc S :=
  guard (λ r, headers_contains (rs_headers r) name) Response.done (header name value).

Definition when (b : bool) (p : proc S) : proc S := if b then p else Response.done.
Definition with_value {A} (o : option A) (p : A → proc S) : proc S := match o with Some a => p a | None => Response.done end.

Definition static_not_found : proc S :=
  status 404;; type (lit "text/plain; charset=utf-8");; text emit (lit "Not Found" ++ lf).
Definition static_internal_error : proc S :=
  status 500;; type (lit "text/plain; charset=utf-8");; text emit (lit "Internal Server Error" ++ lf).

(** The validators and [x-content-type-options], common to 200 and 304. *)
Definition validators (o : static_file_options) (etag : str) (modified : option Z) : proc S :=
  with_value (cache_control o) (set_header_unless_present (lit "cache-control"));;
  when (negb (str_eqb etag [])) (header (lit "etag") etag);;
  (if opt_last_modified o then with_value modified (λ m, header (lit "last-modified") (format_http_date m)) else Response.done);;
  when (nosniff o) (set_header_unless_present (lit "x-content-type-options") (lit "nosniff")).

Definition static_not_modified (o : static_file_options) (etag : str) (modified : option Z) : proc S :=
  status 304;; validators o etag modified;; end_ emit.

Definition send_static (o : static_file_options) (target : path) (content etag : str) (modified : option Z) : proc S :=
  set_header_unless_present (lit "content-type") (content_type_for_extension (lowercase (extension target)));;
  header (lit "content-length") (to_string (N.of_nat (length content)));;
  validators o etag modified;; stream;;
  (λ s, (sput (FileSender true content false (Z.to_nat (chunk_size o))) s, None));; sender_start.

Definition file_etag (o : static_file_options) (content : str) (modified : option Z) : str :=
  match modified with Some m => if opt_etag o then make_etag (Z.of_nat (length content)) m else [] | None => [] end.

Definition static_serve (fs : fs_node) (skew : Z) (h : static_file_handler) (req : server_request) : proc S :=
  let o := static_options h in
  match find_static_file fs h req with
  | answer_not_found => static_not_found
  | answer_internal_error => static_internal_error
  | answer_file target content mtime readable =>
    let modified := (λ m, file_time_to_time_t m skew) <$> mtime in
    let etag := file_etag o content modified in
    if (negb (str_eqb etag []) || bool_decide (is_Some modified)) && is_not_modified req etag modified
    then static_not_modified o etag modified
    else if negb readable then static_internal_error
    else send_static o target content etag modified
  end.
End serving.

(** ** A small site *)

Module Site.
Definition tree : fs_node :=
  fs_dir
    [(lit "srv", fs_dir
       [(lit "www", fs_dir
          [(lit "a.txt", fs_file (lit "hello world") (Some 1700000000000000000) true);
           (lit ".env", fs_file (lit "secret") (Some 0) true);
           (lit "in", fs_link false [lit "a.txt"]);
           (lit "out", fs_link false [lit ".."; lit ".."; lit "etc"; lit "passwd"]);
           (lit "docs", fs_dir [(lit "index.html", fs_file (lit "<p>") (Some 0) true)] true)] true)] true);
     (lit "etc", fs_dir [(lit "passwd", fs_file (lit "root") None true)] true)] true.

Definition options : static_file_options := match set_chunk_size 4 default_static_options with Ok o => o | Err _ => default_static_options end.
Definition handler : static_file_handler := StaticHandler [lit "srv"; lit "www"] options.
Definition strict : static_file_handler := StaticHandler [lit "srv"; lit "www"] (set_symlinks symlinks_reject options).

Definition ask (segments : list str) (hs : headers) : server_request :=
  ServerRequest (make_request m_get [] [] [] hs [] [] (lit "files" :: segments)) (lit "/files/*path").
End Site.

Example site_answers :
  (find_static_file Site.tree Site.handler (Site.ask [lit "in"] []),
   find_static_file Site.tree Site.handler (Site.ask [lit "out"] []),
   find_static_file Site.tree Site.handler (Site.ask [lit ".env"] []),
   find_static_file Site.tree Site.strict (Site.ask [lit "in"] []),
   find_static_file Site.tree Site.strict (Site.ask [lit "docs"] [])) =
  (answer_file [lit "srv"; lit "www"; lit "a.txt"] (lit "hello world") (Some 1700000000000000000) true,
   answer_not_found, answer_not_found, answer_not_found,
   answer_file [lit "srv"; lit "www"; lit "docs"; lit "index.html"] (lit "<p>") (Some 0) true).
Proof. by vm_compute. Qed.
