(* ===== verification/StaticFilesSpec.v ===== *)
(** * What the static file handler promises

    The file that is served lies below the root and is the one the request names;
    conditional requests; what the sender writes. *)

From S2P Require Import Prelude Text Http RoutePath Request Response ServerState HttpDate FileSystem StaticFiles.

Open Scope Z_scope.

(** ** Paths *)

(** Resolving a real path, where it succeeds, changes nothing. *)
Lemma resolve_plain fs fuel : ∀ rest cur q, real_path fs (cur ++ rest) → resolve fs fuel cur rest = Ok q → q = cur ++ rest.
Proof.
  induction rest as [|name rest IH]; intros cur q Hr; rewrite resolve_unfold; [intros [= <-]; by rewrite app_nil_r|].
  pose proof Hr as (Hp & n & Hn & Hl). apply Forall_app in Hp as [_ Hp]. apply Forall_cons in Hp as [Hname _].
  destruct (plain_eqb_false _ Hname) as [-> ->]. destruct (entry_at fs cur name) as [m|] eqn:Em; [|done].
  apply entry_at_ok in Em. assert (is_link m = false).
  { change (name :: rest) with ([name] ++ rest) in Hn. rewrite app_assoc, node_at_app, Em in Hn. destruct rest; [by injection Hn as ->|by destruct m]. }
  change (name :: rest) with ([name] ++ rest) in Hr. rewrite app_assoc in Hr. intros Hq.
  assert (Hq' : resolve fs fuel (cur ++ [name]) rest = Ok q) by (by destruct m). rewrite (IH _ _ Hr Hq'). by rewrite <-app_assoc.
Qed.

Lemma canonical_real fs p q : is_link fs = false → canonical fs p = Ok q → real_path fs q.
Proof. intros Hfs. apply resolve_real; [done|]. split; [constructor|by exists fs]. Qed.

Lemma canonical_plain fs p q : real_path fs p → canonical fs p = Ok q → q = p.
Proof. intros Hp H. by apply (resolve_plain fs max_links p []) in H. Qed.

Lemma existing_target_inv fs root components policy p :
  is_link fs = false → resolve_existing_target fs root components policy = Ok p →
  ∃ root', canonical fs root = Ok root' ∧ root' `prefix_of` p ∧ real_path fs p.
Proof.
  intros Hfs. unfold resolve_existing_target. destruct (canonical fs root) as [root'|] eqn:Er; [|done]. intros H.
  destruct (match policy with follow_within_root => _ | symlinks_reject => _ end) as [candidate|]; [|done].
  destruct (canonical fs candidate) as [q|] eqn:Eq; [|done]. destruct (is_relative_to q root') eqn:E; [|done]. injection H as <-.
  exists root'. split_and!; [done|by apply bool_decide_eq_true in E|by eapply canonical_real].
Qed.

Lemma status_real fs p n : real_path fs p → fs_status fs p = Ok n → node_at fs p = Some n.
Proof.
  unfold fs_status. intros Hp. destruct (canonical fs p) as [q|] eqn:E; [|done]. apply canonical_plain in E as ->; [|done].
  by destruct (node_at fs p); [intros [= ->]|].
Qed.

(** How the handler came to answer with a file. *)
Lemma find_static_inv fs h req p content m r :
  find_static_file fs h req = answer_file p content m r →
  ∃ components, request_tail_components req (static_options h) = Some components ∧
    ∃ full, (full = components ∨ ∃ index, index_file (static_options h) = Some index ∧ full = components ++ [index] ∧
                                   hidden_allowed full (hidden_files (static_options h)) = true ∧
                                   ∃ dir entries r', resolve_existing_target fs (root h) components (symlinks (static_options h)) = Ok dir ∧
                                     fs_status fs dir = Ok (fs_dir entries r')) ∧
      resolve_existing_target fs (root h) full (symlinks (static_options h)) = Ok p ∧ fs_status fs p = Ok (fs_file content m r).
Proof.
  unfold find_static_file. destruct (request_tail_components req (static_options h)) as [components|]; [|done].
  intros H. exists components. split; [done|].
  assert (Ht : ∀ target status, answer_target target status = answer_file p content m r → target = p ∧ status = fs_file content m r).
  { intros target [] [=]; by subst. }
  destruct (resolve_existing_target fs (root h) components _) as [target|e] eqn:Et; [|by destruct e as [[]|]].
  destruct (fs_status fs target) as [status|] eqn:Es; [|done].
  destruct status as [? ? ?|entries r'|? ?|].
  1,3,4: apply Ht in H as [-> Hs]; (try discriminate Hs); rewrite Hs in *; exists components; by split; [left|].
  destruct (index_file (static_options h)) as [index|]; [|done].
  destruct (hidden_allowed (components ++ [index]) _) eqn:Eh; [|done]. cbn [negb] in H.
  destruct (resolve_existing_target fs (root h) (components ++ [index]) _) as [target'|e] eqn:Et'; [|by destruct e as [[]|]].
  destruct (fs_status fs target') as [status|] eqn:Es'; [|done]. apply Ht in H as [-> ->].
  exists (components ++ [index]). split; [|done]. right. exists index. split_and!; [done..|]. by exists target, entries, r'.
Qed.

(** The segments of the request before and after the wildcard of the route. *)
Definition tail_of (o : static_file_options) (req : server_request) (components : list str) : Prop :=
  ∃ prefix suffix matched, pattern_segments (sr_matched_pattern req) = prefix ++ ("*"%char :: path_param o) :: suffix ∧
    ("*"%char :: path_param o) ∉ prefix ∧
    rq_decoded_path_segments (sr_request req) = matched ++ components ∧ length matched = length prefix.

Lemma tail_components_inv req o components :
  request_tail_components req o = Some components →
  tail_of o req components ∧ Forall (λ c, valid_file_name c = true) components ∧ hidden_allowed components (hidden_files o) = true.
Proof.
  unfold request_tail_components, tail_of. set (pattern := pattern_segments _). set (segs := rq_decoded_path_segments _).
  destruct (list_find _ pattern) as [[k x]|] eqn:Ef; [|done]. apply list_find_Some in Ef as (Hk & <- & Hb).
  destruct (Nat.ltb_spec (length segs) k) as [|Hle]; [done|].
  destruct (forallb is_safe_component _) eqn:E1; [|done]. destruct (hidden_allowed _ _) eqn:E2; [|done]. intros [= <-].
  split_and!; [|by apply List.Forall_forall, forallb_forall|done].
  pose proof (lookup_lt_Some _ _ _ Hk) as Hlt. exists (take k pattern), (drop (S k) pattern), (take k segs). split_and!.
  - symmetry. by apply take_drop_middle.
  - intros (i & Hi)%list_elem_of_lookup. apply lookup_take_Some in Hi as [Hi Hik]. by apply (Hb i _ Hi Hik).
  - by rewrite take_drop.
  - rewrite !length_take. lia.
Qed.

Lemma valid_name_plain c : valid_file_name c = true → plain_name c ∧ none_of (is_char "/") c.
Proof.
  unfold valid_file_name, plain_name, str_eqb, contains_path_separator. intros H. breflect. split; [done|].
  match goal with H : existsb _ c = false |- _ => revert H end. clear. intros H. unfold none_of. induction c as [|d c IH]; [done|].
  cbn in H. breflect. constructor; [done|by apply IH].
Qed.

(** No link on the way: the candidate is real. *)
Lemma reject_links_real fs : ∀ components candidate p,
  real_path fs candidate → Forall plain_name components → reject_links fs candidate components = Ok p →
  p = candidate ++ components ∧ real_path fs p.
Proof.
  induction components as [|c components IH]; intros candidate p Hr Hp; cbn [reject_links]; [intros [= <-]; by rewrite app_nil_r|].
  apply Forall_cons in Hp as [Hc Hp]. destruct (is_symlink fs (candidate ++ [c])) as [[]|] eqn:E; try done. intros H.
  assert (Hn : real_path fs (candidate ++ [c])).
  { unfold is_symlink in E. rewrite last_snoc in E. unfold parent in E. rewrite removelast_last in E.
    destruct (resolve fs max_links [] candidate) as [dir|] eqn:Ed; [|done].
    assert (dir = candidate) as -> by (by apply (resolve_plain fs max_links candidate [])).
    destruct (entry_at fs candidate c) as [n|] eqn:En; [|done]. injection E as E. apply entry_at_ok in En.
    split; [apply Forall_app_2; [apply Hr|by apply Forall_singleton]|]. exists n. split; [done|]. by destruct n. }
  destruct (IH _ _ Hn Hp H) as [Ep Hreal]. split; [|done]. by rewrite Ep, <-app_assoc.
Qed.

Lemma reject_target fs root components p :
  is_link fs = false → Forall plain_name components → resolve_existing_target fs root components symlinks_reject = Ok p →
  ∃ root', canonical fs root = Ok root' ∧ p = root' ++ components.
Proof.
  intros Hfs Hp. unfold resolve_existing_target. destruct (canonical fs root) as [root'|] eqn:Er; [|done].
  destruct (reject_links fs root' components) as [candidate|] eqn:El; [|done].
  destruct (reject_links_real _ _ _ _ (canonical_real _ _ _ Hfs Er) Hp El) as [-> Hreal].
  destruct (canonical fs (root' ++ components)) as [q|] eqn:Eq; [|done]. apply canonical_plain in Eq as ->; [|done].
  destruct (is_relative_to _ _); [|done]. intros [= <-]. by exists root'.
Qed.

(** ** Hidden files *)

Definition hidden_rule (policy : hidden_file_policy) (components : list str) : Prop :=
  match policy with
  | hidden_allow => True
  | hidden_reject => Forall (λ c, is_hidden_component c = false) components
  | hidden_allow_well_known => ∀ i c, components !! i = Some c → is_hidden_component c = true → i = 0%nat ∧ c = lit ".well-known"
  end.

Lemma hidden_from_reject components : ∀ i, hidden_allowed_from i components hidden_reject = true → Forall (λ c, is_hidden_component c = false) components.
Proof.
  induction components as [|c cs IH]; intros i; cbn [hidden_allowed_from]; [by constructor|].
  destruct (is_hidden_component c) eqn:E; cbn; [done|]. intros H. constructor; [done|by eapply IH].
Qed.

Lemma hidden_from_well_known components : ∀ i, hidden_allowed_from i components hidden_allow_well_known = true →
  ∀ k c, components !! k = Some c → is_hidden_component c = true → (i + k = 0)%nat ∧ c = lit ".well-known".
Proof.
  induction components as [|c cs IH]; intros i H k d Hk Hd; [done|]. cbn [hidden_allowed_from] in H.
  destruct (is_hidden_component c) eqn:E; cbn [negb] in H.
  - destruct (Nat.eqb_spec i 0) as [->|]; [|done]. destruct (str_eqb c (lit ".well-known")) eqn:Ec; [|done].
    apply bool_decide_eq_true in Ec. destruct k as [|k]; [injection Hk as <-; done|]. destruct (IH 1%nat H k d Hk Hd). lia.
  - destruct k as [|k]; [injection Hk as <-; congruence|]. destruct (IH _ H k d Hk Hd). lia.
Qed.

Lemma hidden_allowed_rule components policy : hidden_allowed components policy = true → hidden_rule policy components.
Proof.
  destruct policy; [apply hidden_from_reject|done|]. intros H i c Hi Hc. by apply (hidden_from_well_known components 0 H i).
Qed.

(** C4: No path of a request leaves the root: whatever links the tree holds and
    whatever the request says, a file that is served lies below the resolved
    root, at a path without links and dots, and its contents are those of that
    file. *)
Theorem static_within_root (fs : fs_node) (h : static_file_handler) (req : server_request) (p : path) (content : str) m r :
  is_link fs = false → find_static_file fs h req = answer_file p content m r →
  ∃ root', canonical fs (root h) = Ok root' ∧ root' `prefix_of` p ∧ real_path fs p ∧ node_at fs p = Some (fs_file content m r).
Proof.
  intros Hfs H. apply find_static_inv in H as (components & _ & full & _ & Ht & Hs).
  destruct (existing_target_inv _ _ _ _ _ Hfs Ht) as (root' & ? & ? & Hr). exists root'. split_and!; try done. by apply status_real.
Qed.

Lemma static_within_root_witness :
  ∃ root', canonical Site.tree (root Site.handler) = Ok root' ∧ root' `prefix_of` [lit "srv"; lit "www"; lit "a.txt"] ∧
    real_path Site.tree [lit "srv"; lit "www"; lit "a.txt"] ∧
    node_at Site.tree [lit "srv"; lit "www"; lit "a.txt"] = Some (fs_file (lit "hello world") (Some 1700000000000000000) true).
Proof.
  refine (static_within_root Site.tree Site.handler (Site.ask [lit "in"] []) [lit "srv"; lit "www"; lit "a.txt"] (lit "hello world")
    (Some 1700000000000000000) true _ _); reflexivity.
Defined.

(** What is below the root for the components, and the file that is served for
    it: the file itself, or the index file of a directory. *)
Definition served_below (fs : fs_node) (o : static_file_options) (named rest : path) : Prop :=
  rest = [] ∨ ∃ index entries r, index_file o = Some index ∧ rest = [index] ∧ node_at fs named = Some (fs_dir entries r).

(** C26: With links rejected, the file served is exactly the one the request names:
    the resolved root, then the decoded segments that follow as many segments as
    the route has before its wildcard, each a plain file name, and, only where
    these name a directory, the index file; none of them breaks the rule for
    hidden files, and the contents are those of the file. *)
Theorem static_exact_path (fs : fs_node) (h : static_file_handler) (req : server_request) (p : path) (content : str) m r :
  is_link fs = false → symlinks (static_options h) = symlinks_reject →
  (∀ index, index_file (static_options h) = Some index → valid_file_name index = true) →
  find_static_file fs h req = answer_file p content m r →
  ∃ root' components rest, tail_of (static_options h) req components ∧ canonical fs (root h) = Ok root' ∧
    p = root' ++ components ++ rest ∧ served_below fs (static_options h) (root' ++ components) rest ∧
    node_at fs p = Some (fs_file content m r) ∧
    Forall (λ c, valid_file_name c = true) components ∧ hidden_rule (hidden_files (static_options h)) (components ++ rest).
Proof.
  intros Hfs Hsym Hix H. apply find_static_inv in H as (components & Hc & full & Hfull & Ht & Hs).
  apply tail_components_inv in Hc as (Htail & Hv & Hh). rewrite Hsym in *.
  assert (Hpl : Forall plain_name components) by (eapply Forall_impl; [exact Hv|]; intros c Hc; by apply valid_name_plain).
  assert (Hn : node_at fs p = Some (fs_file content m r)).
  { destruct (existing_target_inv _ _ _ _ _ Hfs Ht) as (? & _ & _ & Hr). by apply status_real. }
  destruct Hfull as [->|(index & Ei & -> & Hhi & dir & entries & r' & Hdir & Hst)].
  - destruct (reject_target _ _ _ _ Hfs Hpl Ht) as (root' & Hr & ->). exists root', components, [].
    rewrite app_nil_r. split_and!; [done..|by left|done|done|by apply hidden_allowed_rule].
  - destruct (reject_target _ _ _ _ Hfs Hpl Hdir) as (root' & Hr & ->).
    destruct (existing_target_inv _ _ _ _ _ Hfs Hdir) as (? & _ & _ & Hreal). apply status_real in Hst; [|done].
    assert (Hpi : Forall plain_name (components ++ [index])).
    { apply Forall_app_2; [done|]. apply Forall_singleton. by apply valid_name_plain, Hix. }
    destruct (reject_target _ _ _ _ Hfs Hpi Ht) as (root'' & Hr' & ->). rewrite Hr in Hr'. injection Hr' as <-.
    exists root', components, [index]. split_and!; [done..|by right; exists index, entries, r'|done|done|by apply hidden_allowed_rule].
Qed.

Lemma static_exact_path_witness :
  ∃ root' components rest, tail_of (static_options Site.strict) (Site.ask [lit "docs"] []) components ∧
    canonical Site.tree (root Site.strict) = Ok root' ∧ [lit "srv"; lit "www"; lit "docs"; lit "index.html"] = root' ++ components ++ rest ∧
    served_below Site.tree (static_options Site.strict) (root' ++ components) rest ∧
    node_at Site.tree [lit "srv"; lit "www"; lit "docs"; lit "index.html"] = Some (fs_file (lit "<p>") (Some 0) true) ∧
    Forall (λ c, valid_file_name c = true) components ∧ hidden_rule (hidden_files (static_options Site.strict)) (components ++ rest).
Proof.
  refine (static_exact_path Site.tree Site.strict (Site.ask [lit "docs"] []) [lit "srv"; lit "www"; lit "docs"; lit "index.html"] (lit "<p>")
    (Some 0) true _ _ _ _); [reflexivity|reflexivity| |reflexivity].
  intros index [= <-]. reflexivity.
Defined.

(** ** Entity tags *)

Lemma etag_avoids (P : ascii → bool) size m :
  P "W"%char = false → P "/"%char = false → P dquote = false → P "-"%char = false →
  forallb (λ d, negb (P (digit_char (N.of_nat d)))) (List.seq 0%nat 16%nat) = true → none_of P (make_etag size m).
Proof.
  intros H1 H2 H3 H4 Hd. unfold make_etag. repeat apply Forall_app_2; try (by repeat constructor); by apply to_chars_avoids.
Qed.

Lemma to_chars_inj base n n' rest rest' :
  (2 <= base)%N → (base <= 16)%N → (∀ c t, rest = c :: t → digit_val base c = None) → (∀ c t, rest' = c :: t → digit_val base c = None) →
  to_chars base n ++ rest = to_chars base n' ++ rest' → n = n' ∧ rest = rest'.
Proof.
  intros Hb1 Hb2 Hr Hr' E. unfold to_chars in E.
  destruct (to_digits_value (S (N.size_nat n)) base n Hb1) as (V1 & D1 & _); [lia|].
  destruct (to_digits_value (S (N.size_nat n')) base n' Hb1) as (V2 & D2 & _); [lia|].
  pose proof (take_digits_map base _ rest Hb2 D1 Hr) as T1. pose proof (take_digits_map base _ rest' Hb2 D2 Hr') as T2.
  rewrite E, T2 in T1. apply pair_equal_spec in T1 as [T1 T3]. split; [|done].
  exact (eq_trans (eq_sym V1) (eq_trans (f_equal _ (eq_sym T1)) V2)).
Qed.

Definition file_size_ok (size : Z) : Prop := 0 ≤ size.
Definition time_ok (m : Z) : Prop := - 2 ^ 63 ≤ m < 2 ^ 63.

Lemma etag_inj size m size' m' :
  file_size_ok size → file_size_ok size' → time_ok m → time_ok m' → make_etag size m = make_etag size' m' → size = size' ∧ m = m'.
Proof.
  unfold file_size_ok, time_ok, make_etag. intros H1 H2 H3 H4 E. injection E as E.
  apply to_chars_inj in E as [E1 E]; [|done..|by intros ? ? [= <- <-]|by intros ? ? [= <- <-]]. cbn in E. injection E as E.
  apply to_chars_inj in E as [E2 _]; [|done..|by intros ? ? [= <- <-]|by intros ? ? [= <- <-]].
  split; [lia|]. apply (f_equal Z.of_N) in E2. rewrite !Z2N.id in E2 by (by apply Z.mod_pos_bound). clear - H3 H4 E2.
  assert (E : (m - m') mod 2 ^ 64 = 0) by (by rewrite Zminus_mod, E2, Z.sub_diag).
  apply Z.mod_divide in E as [k Ek]; [|done]. lia.
Qed.

Lemma trim_etag pad size m : Forall (λ c, isspace c = true) pad → trim (pad ++ make_etag size m) = make_etag size m.
Proof.
  intros Hp. unfold trim. assert (E : trim_front (pad ++ make_etag size m) = make_etag size m) by (induction Hp as [|c pad Hc _ IH]; [done|by cbn; rewrite Hc]).
  rewrite E. assert (Et : ∃ x, make_etag size m = x ++ [dquote]) by (unfold make_etag; rewrite !app_assoc; by eexists).
  destruct Et as [x ->]. rewrite rev_app_distr. cbn [rev app trim_front]. change (isspace dquote) with false. cbv iota.
  by rewrite <-(rev_unit x dquote), rev_involutive.
Qed.

(** A list of tags as a client writes it: any white space before each. *)
Definition tag_list (tags : list (str * (Z * Z))) : str := join_with "," (map (λ t, t.1 ++ make_etag t.2.1 t.2.2) tags).

Lemma tags_match tags size m :
  tags ≠ [] → Forall (λ t, Forall (λ c, isspace c = true) t.1 ∧ file_size_ok t.2.1 ∧ time_ok t.2.2) tags → file_size_ok size → time_ok m →
  if_none_match_matches (tag_list tags) (make_etag size m) = bool_decide ((size, m) ∈ tags.*2).
Proof.
  intros Hne Hok Hs Hm. unfold if_none_match_matches, tag_list. rewrite segments_split_on, split_join; [| |].
  2: by destruct tags.
  2: { apply Forall_map. eapply Forall_impl; [exact Hok|]. intros [pad [s' m']] [Hpad _]. unfold compose. cbn in *. apply Forall_app_2.
       - eapply Forall_impl; [exact Hpad|]. intros c Hc. cbv beta in Hc. apply is_char_false. by intros <-.
       - by apply etag_avoids. }
  clear Hne. induction Hok as [|[pad [s' m']] tags (Hpad & Hs' & Hm') _ IH]; [done|]. cbn [map existsb fst snd fmap list_fmap].
  cbn in Hpad, Hs', Hm'. rewrite trim_etag, IH by done.
  assert (str_eqb (make_etag s' m') (lit "*") = false) as -> by done. cbn [orb]. unfold str_eqb.
  destruct (decide ((s', m') = (size, m))) as [[= -> ->]|Hn].
  - rewrite (bool_decide_eq_true_2 (make_etag size m = _) eq_refl). symmetry. apply bool_decide_eq_true_2. by left.
  - rewrite bool_decide_eq_false_2; [cbn; apply bool_decide_ext|].
    + split; [by right|]. intros [|]%elem_of_cons; [congruence|done].
    + intros E. apply Hn. f_equal; by apply etag_inj in E as [??].
Qed.

(** Conditional requests: a list of tags in If-None-Match matches exactly if
    one of them was made for the present size and time of the file, whatever
    If-Modified-Since says; without one, a date in If-Modified-Since matches
    exactly if the file is not younger. *)
Theorem static_conditional (req : server_request) (size m : Z) :
  file_size_ok size → time_ok m →
  (∀ tags, tags ≠ [] → Forall (λ t, Forall (λ c, isspace c = true) t.1 ∧ file_size_ok t.2.1 ∧ time_ok t.2.2) tags →
     request_header (sr_request req) (lit "if-none-match") = tag_list tags →
     is_not_modified req (make_etag size m) (Some m) = bool_decide ((size, m) ∈ tags.*2)) ∧
  (∀ t etag, 0 ≤ t < max_date → request_header (sr_request req) (lit "if-none-match") = [] →
     request_header (sr_request req) (lit "if-modified-since") = format_http_date t →
     is_not_modified req etag (Some m) = (m <=? t)).
Proof.
  intros Hs Hm. unfold is_not_modified. split.
  - intros tags Hne Hok ->. assert (str_eqb (tag_list tags) [] = false) as ->.
    { apply bool_decide_eq_false. unfold tag_list. destruct tags as [|t [|t' tags]]; [done|..]; cbn [map join_with];
        intros E; [apply app_eq_nil in E as [_ E]; discriminate E|]. rewrite <-app_assoc in E. by apply app_eq_nil in E as [_ E]. }
    assert (str_eqb (make_etag size m) [] = false) as -> by done. by apply tags_match.
  - intros t etag Ht -> ->. cbn [str_eqb negb andb]. change (bool_decide ([] = [])) with true. cbn [negb andb].
    rewrite parse_format_date by done. assert (str_eqb (format_http_date t) [] = false) as ->; [|done].
    apply bool_decide_eq_false. unfold format_http_date. cbn zeta. intros E. apply app_eq_nil in E as [_ E]. discriminate E.
Qed.

Lemma static_conditional_witness :
  is_not_modified (Site.ask [lit "a.txt"] [(lit "If-None-Match", tag_list [([], (7, 8)); ([" "%char], (11, 1700000000))])])
    (make_etag 11 1700000000) (Some 1700000000) = true ∧
  is_not_modified (Site.ask [lit "a.txt"] [(lit "If-Modified-Since", format_http_date 1699999999)]) [] (Some 1700000000) = false.
Proof.
  assert (Hs : file_size_ok 11) by (unfold file_size_ok; lia). assert (Hm : time_ok 1700000000) by (unfold time_ok; lia). split.
  - refine (proj1 (static_conditional (Site.ask [lit "a.txt"] [(lit "If-None-Match", tag_list [([], (7, 8)); ([" "%char], (11, 1700000000))])])
      11 1700000000 Hs Hm) _ _ _ eq_refl); [discriminate|].
    repeat constructor; unfold file_size_ok, time_ok; cbn; lia.
  - refine (proj2 (static_conditional (Site.ask [lit "a.txt"] [(lit "If-Modified-Since", format_http_date 1699999999)])
      11 1700000000 Hs Hm) 1699999999 [] _ eq_refl eq_refl). unfold max_date. lia.
Defined.

(** The clocks' readings are part of the tag: with a time of last write just before
    a second, two requests for the same file can get different tags. *)
Lemma etag_depends_on_clock :
  file_etag Site.options (lit "x") (Some (file_time_to_time_t 1999999999 0)) ≠ file_etag Site.options (lit "x") (Some (file_time_to_time_t 1999999999 1)).
Proof. by vm_compute. Qed.
