(* ===== verification/StaticFileSender.v ===== *)
(** * Sending a file into a response

    The handler of [StaticFiles] on a response that an environment writes out:
    which writes it accepts, where it pushes back and when it cancels is arbitrary. *)

From S2P Require Import Prelude Text Http RoutePath Request Response ServerState HttpDate FileSystem StaticFiles.

Open Scope Z_scope.

(** A response being written: the sender, the chunks that were accepted and how
    often the stream was ended. *)
Record delivery := Delivery { dl_sender : file_sender; dl_res : response_state; dl_sent : list str; dl_ended : nat }.

#[export] Instance delivery_response : ResponseStore delivery :=
  {| rget := dl_res; rput r d := Delivery (dl_sender d) r (dl_sent d) (dl_ended d) |}.
#[export] Instance delivery_sender : SenderStore delivery :=
  {| sget := dl_sender; sput f d := Delivery f (dl_res d) (dl_sent d) (dl_ended d) |}.

Definition file_exhausted (f : file_sender) : bool := negb (file_open f) || negb (file_eof f) || str_eqb (file_rest f) [].

Section environment.
(** The answer to a write, after what was accepted before; whether the response
    is cancelled during it. *)
Context (answer : list str → str → stream_write_result) (interrupted : list str → str → bool).

Definition end_delivery : proc delivery := λ d,
  complete_stream (λ _, done) (Delivery (dl_sender d) (dl_res d) (dl_sent d) (S (dl_ended d))).

Definition emit_delivery (e : response_event) : proc delivery :=
  match e with
  | ev_cancel => sender_on_cancel
  | ev_stream_error _ => sender_on_error
  | ev_stream_end => end_delivery
  | _ => done
  end.

Definition write_delivery (chunk : str) (d : delivery) : delivery * option response_exn * stream_write_result :=
  let r := answer (dl_sent d) chunk in
  let stop := interrupted (dl_sent d) chunk in
  let d := if wr_accepted r then Delivery (dl_sender d) (dl_res d) (dl_sent d ++ [chunk]) (dl_ended d) else d in
  (if stop then (cancel emit_delivery d).1 else d, None, r).

(** Calls of the server from outside a write. *)
Inductive delivery_op := dl_drain | dl_error (e : stream_errc) | dl_cancel.

Definition emit_drain (e : response_event) : proc delivery :=
  match e with ev_drain => sender_on_drain emit_delivery write_delivery | _ => emit_delivery e end.

Definition deliver (d : delivery) (op : delivery_op) : delivery :=
  match op with
  | dl_drain => (notify_stream_drain emit_drain d).1
  | dl_error e => (notify_stream_error emit_drain e d).1
  | dl_cancel => (cancel emit_drain d).1
  end.

(** A response as the server makes it. *)
Definition server_response : response_state := set_callbacks true false false false true true fresh_response.
Definition no_sender : file_sender := FileSender false [] true 0.

Definition serve_static (fs : fs_node) (skew : Z) (h : static_file_handler) (req : server_request) (ops : list delivery_op) : delivery :=
  foldl deliver (static_serve emit_delivery write_delivery fs skew h req (Delivery no_sender server_response [] 0)).1 ops.

(** ** What is sent *)

Section content.
Context (content : str) (head : headers) (size : nat) (Hsize : (0 < size)%nat).

Record sending (d : delivery) : Prop := {
  sd_split : ∃ lost, content = concat (dl_sent d) ++ lost ++ file_rest (dl_sender d) ∧ (file_open (dl_sender d) = true → lost = []);
  sd_sizes : Forall (λ c, (0 < length c ≤ size)%nat) (dl_sent d);
  sd_buffer : buffer_size (dl_sender d) = size;
  sd_eof : file_open (dl_sender d) = true → file_eof (dl_sender d) = true → file_rest (dl_sender d) = [];
  sd_ended : dl_ended d = 0%nat ∨ (dl_ended d = 1%nat ∧ concat (dl_sent d) = content ∧ stream_active (dl_res d) = false);
  sd_head : status_code (dl_res d) = 200 ∧ rs_headers (dl_res d) = head
}.

(** Closing, and changes of the response that do not bring it back. *)
Lemma sending_like d d' :
  dl_sent d' = dl_sent d → dl_ended d' = dl_ended d → file_rest (dl_sender d') = file_rest (dl_sender d) →
  buffer_size (dl_sender d') = buffer_size (dl_sender d) → file_eof (dl_sender d') = file_eof (dl_sender d) →
  (file_open (dl_sender d') = true → file_open (dl_sender d) = true) →
  (stream_active (dl_res d') = true → stream_active (dl_res d) = true) →
  status_code (dl_res d') = status_code (dl_res d) → rs_headers (dl_res d') = rs_headers (dl_res d) → sending d → sending d'.
Proof.
  intros E1 E2 E3 E4 E5 Ho Hr E6 E7 [(lost & H1 & Hl) H2 H3 H4 H5 H6]. constructor; rewrite ?E1, ?E2, ?E3, ?E4, ?E5, ?E6, ?E7; try done.
  - exists lost. auto.
  - auto.
  - destruct H5 as [|(? & ? & Ha)]; [by left|right]. split_and!; try done. destruct (stream_active (dl_res d')); [|done]. by rewrite Hr in Ha.
Qed.

Lemma sending_close d : sending d → sending (sender_close d).
Proof. by apply sending_like. Qed.

Lemma not_active_cancelled r : cancelled r = true → stream_active r = false.
Proof. intros H. unfold stream_active, active. by rewrite H, andb_false_r. Qed.

Definition live (d : delivery) : Prop := stream_active (dl_res d) = true → file_open (dl_sender d) = true.

Lemma cancel_sending (emit : response_event → proc delivery) d :
  emit ev_cancel = sender_on_cancel → sending d → sending (cancel emit d).1 ∧ stream_active (dl_res (cancel emit d).1) = false.
Proof.
  intros He Hs. unfold cancel, guard. cbn [rget delivery_response]. destruct (active (dl_res d)) eqn:Ea.
  - unfold seq, update. cbn. destruct (has_cancel (dl_res d)); cbn.
    + unfold catch. rewrite He. cbn. split; [|by apply not_active_cancelled]. apply (sending_like d); try done.
      by rewrite not_active_cancelled.
    + split; [|by apply not_active_cancelled]. apply (sending_like d); try done. by rewrite not_active_cancelled.
  - split; [done|]. cbn. unfold stream_active. by rewrite Ea.
Qed.

Lemma sender_finish_sending d : sending d → live d → sending (sender_finish emit_delivery d).1.
Proof.
  intros Hs Hl. unfold sender_finish. cbn [sget delivery_sender]. destruct (file_eof (dl_sender d)) eqn:Ee; [|done].
  unfold stream_end, if_streaming, guard. cbn [rget delivery_response sender_close sput delivery_sender dl_res].
  destruct (stream_active (dl_res d)) eqn:Ea; [|by apply sending_close].
  destruct (has_stream_end (dl_res d)); [|by apply sending_close].
  destruct Hs as [(lost & H1 & Hlost) H2 H3 H4 H5 H6]. rewrite Hlost, (H4 (Hl Ea) Ee), !app_nil_r in H1 by (by apply Hl).
  assert (Hst : streaming (dl_res d) = true) by (unfold stream_active in Ea; by apply andb_true_iff in Ea as [_ ?]).
  assert (Hac : active (dl_res d) = true) by (unfold stream_active in Ea; by apply andb_true_iff in Ea as [? _]).
  cbn. unfold end_delivery, complete_stream, guard. cbn. rewrite Hst. unfold seq, update, complete, guard. cbn.
  change (active (set_flags (ended (dl_res d)) (deferred (dl_res d)) false (cancelled (dl_res d)) (dl_res d))) with (active (dl_res d)).
  rewrite Hac. cbn. destruct H5 as [H5|(_ & _ & Hx)]; [|congruence].
  destruct (has_complete (dl_res d)); constructor; cbn; try done.
  1,3: exists []; rewrite app_nil_l, (H4 (Hl Ea) Ee), app_nil_r; by split.
  all: right; by rewrite H5.
Qed.

(** A read of the next chunk. *)
Lemma read_open d :
  file_open (dl_sender d) = true → buffer_size (dl_sender d) = size →
  file_read (dl_sender d) = (take size (file_rest (dl_sender d)),
    FileSender true (drop size (file_rest (dl_sender d))) (file_eof (dl_sender d) || (length (take size (file_rest (dl_sender d))) <? size)%nat) size).
Proof. intros Ho Hb. unfold file_read. by rewrite Ho, Hb. Qed.

Lemma short_read (l : str) : (length (take size l) <? size)%nat = true → drop size l = [].
Proof. intros H%Nat.ltb_lt. rewrite length_take in H. apply drop_ge. lia. Qed.

Lemma sending_read d f :
  sending d → file_eof (dl_sender d) = false → file_read (dl_sender d) = ([], f) → sending (sput f d) ∧ (live d → live (sput f d)).
Proof.
  intros Hs He. unfold file_read. destruct (file_open (dl_sender d)) eqn:Ho; cbn [negb].
  - intros [= Hc <-]. assert (Hrest : file_rest (dl_sender d) = []).
    { rewrite (sd_buffer _ Hs) in Hc. destruct (file_rest (dl_sender d)); [done|]. destruct size; [lia|done]. }
    destruct Hs as [(lost & H1 & Hl) H2 H3 H4 H5 H6]. split; [|done].
    constructor; cbn; rewrite ?Hrest, ?drop_nil in *; try done. exists lost. auto.
  - intros [= <-]. destruct Hs as [(lost & H1 & Hl) H2 H3 H4 H5 H6]. split; [|unfold live; cbn; by rewrite Ho].
    constructor; cbn; try done. by exists lost.
Qed.

(** The states after a write of the chunk that was read. *)
Lemma sending_chunk d chunk f :
  sending d → file_read (dl_sender d) = (chunk, f) → chunk ≠ [] →
  file_open (dl_sender d) = true ∧ sending (sender_close (sput f d)) ∧
  (dl_ended d = 0%nat → sending (Delivery f (dl_res d) (dl_sent d ++ [chunk]) (dl_ended d))) ∧
  length (file_rest f) = (length (file_rest (dl_sender d)) - length chunk)%nat.
Proof.
  intros Hs. unfold file_read. destruct (file_open (dl_sender d)) eqn:Ho; cbn [negb]; [|by intros [= <- _]].
  rewrite (sd_buffer _ Hs). intros [= <- <-] Hne. split; [done|]. destruct Hs as [(lost & H1 & Hl) H2 H3 H4 H5 H6].
  rewrite Hl in H1 by done. cbn in H1. set (rest := file_rest (dl_sender d)) in *.
  assert (Hcut : take size rest ++ drop size rest = rest) by apply take_drop. split_and!.
  - constructor; cbn; try done. exists (take size rest). by rewrite Hcut.
  - intros H0. constructor; cbn; try done.
    + exists []. cbn. split; [|done]. rewrite concat_app. cbn. by rewrite app_nil_r, <-app_assoc, Hcut.
    + apply Forall_app_2; [done|]. apply Forall_singleton. split; [|rewrite length_take; lia]. destruct (take size rest); [done|cbn; lia].
    + intros _ [He|Hsh]%orb_true_iff; [by rewrite (H4 Ho He), drop_nil|]. by apply short_read.
    + by left.
  - cbn. rewrite length_drop, length_take. lia.
Qed.

Lemma not_ended_live d : sending d → stream_active (dl_res d) = true → dl_ended d = 0%nat.
Proof. intros Hs Ha. destruct (sd_ended _ Hs) as [|(_ & _ & Hx)]; [done|congruence]. Qed.

Lemma write_sending d chunk f :
  sending d → live d → file_read (dl_sender d) = (chunk, f) → chunk ≠ [] →
  ∃ d' r, write write_delivery chunk (sput f d) = (d', None, r) ∧ (wr_accepted r = true → sending d' ∧ live d') ∧ sending (sender_close d').
Proof.
  intros Hs Hl Hr Hne. destruct (sending_chunk _ _ _ Hs Hr Hne) as (Ho & Hc & Hok & _). unfold write.
  cbn [rget delivery_response sput delivery_sender dl_res]. destruct (stream_active (dl_res d)) eqn:Ea; [|by do 2 eexists]. cbn [negb].
  destruct (has_stream_write (dl_res d)); [|by do 2 eexists]. cbn [negb]. unfold write_delivery. cbn [dl_sent dl_sender dl_res dl_ended].
  specialize (Hok (not_ended_live _ Hs Ea)). assert (Hf : file_open f = true) by (unfold file_read in Hr; rewrite Ho in Hr; by injection Hr as _ <-).
  do 2 eexists. split; [reflexivity|]. destruct (wr_accepted _) eqn:Eacc; destruct (interrupted _ _).
  - destruct (cancel_sending emit_delivery _ eq_refl Hok) as [Hcs Hna]. split; [|by apply sending_close].
    intros _. split; [done|]. intros Hx. congruence.
  - split; [|by apply sending_close]. intros _. split; [done|]. by intros _.
  - split; [done|]. destruct (cancel_sending emit_delivery _ eq_refl Hc) as [Hcs _]. revert Hcs.
    unfold cancel, guard. cbn. destruct (active (dl_res d)); [|done]. unfold seq, update. cbn. destruct (has_cancel (dl_res d)); [done|]. cbn.
    intros Hcs. by apply Hcs.
  - by split.
Qed.

Lemma send_loop_sending fuel : ∀ d, sending d → live d → sending (send_loop emit_delivery write_delivery fuel d).1.
Proof.
  induction fuel as [|fuel IH]; intros d Hs Hl; [done|]. cbn [send_loop]. cbn [sget delivery_sender].
  destruct (file_eof (dl_sender d)) eqn:Ee; [by apply sender_finish_sending|].
  destruct (file_read (dl_sender d)) as [chunk f] eqn:Er. destruct chunk as [|c chunk].
  - destruct (sending_read _ _ Hs Ee Er) as [Hs' Hl']. by apply sender_finish_sending; [|apply Hl'].
  - destruct (write_sending _ _ _ Hs Hl Er ltac:(done)) as (d' & r & Ew & Ha & Hc). cbn [sput delivery_sender] in *. rewrite Ew.
    destruct (wr_accepted r) eqn:Eacc; cbn [negb]; [|done]. destruct (Ha eq_refl) as [Hs' Hl']. destruct (should_continue r); [by apply IH|done].
Qed.

Lemma send_more_sending d : sending d → sending (send_more emit_delivery write_delivery d).1.
Proof.
  intros Hs. unfold send_more. cbn [sget delivery_sender rget delivery_response]. destruct (file_open (dl_sender d)) eqn:Ho; [|by apply sending_close].
  destruct (stream_active (dl_res d)); [|by apply sending_close]. apply send_loop_sending; [done|]. by intros _.
Qed.

Lemma deliver_sending d op : sending d → sending (deliver d op).
Proof.
  intros Hs. destruct op; cbn [deliver].
  - unfold notify_stream_drain, guard. destruct (_ && _ && _); [|done]. by apply send_more_sending.
  - unfold notify_stream_error, guard. destruct (has_error _); [|done]. by apply sending_close.
  - by apply cancel_sending.
Qed.

Lemma delivers_sending ops : ∀ d, sending d → sending (foldl deliver d ops).
Proof. induction ops as [|op ops IH]; intros d Hs; [done|]. by apply IH, deliver_sending. Qed.

(** ** Progress: an environment that takes every write *)

(** Reads that are left. *)
Definition reads_left (f : file_sender) : nat := if file_eof f then 0 else S (length (file_rest f)).

Record going (d : delivery) : Prop := {
  go_sending : sending d;
  go_open : file_open (dl_sender d) = true;
  go_active : stream_active (dl_res d) = true;
  go_writes : has_stream_write (dl_res d) = true ∧ has_stream_end (dl_res d) = true ∧ has_drain (dl_res d) = true
}.

Definition finished (d : delivery) : Prop := sending d ∧ dl_ended d = 1%nat.

Context (Haccept : ∀ sent chunk, wr_accepted (answer sent chunk) = true) (Hrun : ∀ sent chunk, interrupted sent chunk = false).

Lemma going_finish d : going d → file_eof (dl_sender d) = true → finished (sender_finish emit_delivery d).1.
Proof.
  intros [Hs Ho Ha (_ & He & _)] Hf. split; [apply sender_finish_sending; [done|by intros _]|]. pose proof (not_ended_live _ Hs Ha) as H0.
  unfold sender_finish. cbn [sget delivery_sender]. rewrite Hf. unfold stream_end, if_streaming, guard. cbn [rget delivery_response sender_close sput delivery_sender dl_res].
  rewrite Ha, He. cbn. unfold end_delivery, complete_stream, guard. cbn.
  assert (streaming (dl_res d) = true) as -> by (unfold stream_active in Ha; by apply andb_true_iff in Ha as [_ ?]).
  unfold seq, update, complete, guard. cbn. destruct (active _); [|by rewrite H0]. cbn. destruct (has_complete _); cbn; by rewrite H0.
Qed.

Lemma send_loop_progress fuel : ∀ d, going d → (reads_left (dl_sender d) < fuel)%nat →
  let d' := (send_loop emit_delivery write_delivery fuel d).1 in
  finished d' ∨ (going d' ∧ (reads_left (dl_sender d') < reads_left (dl_sender d))%nat).
Proof.
  induction fuel as [|fuel IH]; intros d Hg Hf; [lia|]. cbn [send_loop sget delivery_sender]. cbv zeta.
  destruct (file_eof (dl_sender d)) eqn:Ee; [left; by apply going_finish|]. pose proof Hg as [Hs Ho Ha (Hw & He & Hd)].
  destruct (file_read (dl_sender d)) as [chunk f] eqn:Er. destruct chunk as [|c chunk].
  - left. destruct (sending_read _ _ Hs Ee Er) as [Hs' _]. pose proof Er as Er'. rewrite (read_open d Ho (sd_buffer _ Hs)) in Er'.
    injection Er' as Et <-. apply going_finish; [by constructor|]. cbn [file_eof dl_sender sput delivery_sender]. rewrite Et. assert ((length (@nil ascii) <? size)%nat = true) as -> by (by apply Nat.ltb_lt). apply orb_true_r.
  - destruct (sending_chunk _ _ _ Hs Er ltac:(done)) as (_ & _ & Hok & Hlen). specialize (Hok (not_ended_live _ Hs Ha)).
    unfold write. cbn [rget delivery_response sput delivery_sender dl_res]. rewrite Ha, Hw. cbn [negb]. unfold write_delivery.
    cbn [dl_sent dl_sender dl_res dl_ended]. rewrite Haccept, Hrun. cbn [negb].
    set (d1 := Delivery f (dl_res d) (dl_sent d ++ [c :: chunk]) (dl_ended d)) in *.
    assert (Hg1 : going d1) by (constructor; try done; cbn; rewrite (read_open d Ho (sd_buffer _ Hs)) in Er; by injection Er as _ <-).
    assert (Hless : (reads_left (dl_sender d1) < reads_left (dl_sender d))%nat).
    { unfold reads_left at 2. rewrite Ee. unfold reads_left. cbn [dl_sender d1]. destruct (file_eof f); [lia|].
      rewrite Hlen. cbn [length]. assert (length (c :: chunk) ≤ length (file_rest (dl_sender d)))%nat; [|cbn in *; lia].
      rewrite (read_open d Ho (sd_buffer _ Hs)) in Er. injection Er as Et _. rewrite <-Et, length_take. lia. }
    destruct (should_continue (answer (dl_sent d) (c :: chunk))); cbn [negb fst]; [|by right].
    destruct (IH d1 Hg1 ltac:(lia)) as [|[Hg2 Hl2]]; [by left|right]. split; [done|]. eapply Nat.lt_trans; [exact Hl2|exact Hless].
Qed.

Lemma send_more_progress d : going d →
  let d' := (send_more emit_delivery write_delivery d).1 in
  finished d' ∨ (going d' ∧ (reads_left (dl_sender d') < reads_left (dl_sender d))%nat).
Proof.
  intros Hg. pose proof Hg as [Hs Ho Ha _]. unfold send_more. cbn [sget delivery_sender rget delivery_response]. rewrite Ho, Ha. cbn [negb orb].
  apply send_loop_progress; [done|]. unfold reads_left. destruct (file_eof _); lia.
Qed.

Lemma drain_progress d : going d →
  finished (deliver d dl_drain) ∨ (going (deliver d dl_drain) ∧ (reads_left (dl_sender (deliver d dl_drain)) < reads_left (dl_sender d))%nat).
Proof.
  intros Hg. pose proof Hg as [_ _ Ha (_ & _ & Hd)]. cbn [deliver]. unfold notify_stream_drain, guard. cbn [rget delivery_response].
  unfold stream_active in Ha. apply andb_true_iff in Ha as [H1 H2]. rewrite Hd, H1, H2. by apply send_more_progress.
Qed.

Lemma drain_finished d : finished d → finished (deliver d dl_drain).
Proof.
  intros [Hs He]. split; [by apply deliver_sending|]. destruct (sd_ended _ Hs) as [|(_ & _ & Ha)]; [congruence|].
  cbn [deliver]. unfold notify_stream_drain, guard. cbn [rget delivery_response]. unfold stream_active in Ha. rewrite <-andb_assoc.
  by rewrite Ha, andb_false_r.
Qed.

Lemma drains_progress n : ∀ d, finished d ∨ (going d ∧ (reads_left (dl_sender d) < n)%nat) → finished (foldl deliver d (replicate n dl_drain)).
Proof.
  induction n as [|n IH]; intros d [Hf|[Hg Hn]]; cbn [replicate foldl]; try lia; [done|apply IH; left; by apply drain_finished|].
  apply IH. destruct (drain_progress d Hg) as [|[Hg' Hl]]; [by left|right]. split; [done|lia].
Qed.
End content.

(** ** The head *)

Definition at_head (hs : headers) : delivery := Delivery no_sender (set_head 200 hs server_response) [] 0.

Definition unless_present (name value : str) (hs : headers) : headers := if headers_contains hs name then hs else headers_set hs name value.

Definition validator_headers (o : static_file_options) (etag : str) (modified : option Z) (hs : headers) : headers :=
  let hs := match cache_control o with Some v => unless_present (lit "cache-control") v hs | None => hs end in
  let hs := if negb (str_eqb etag []) then headers_set hs (lit "etag") etag else hs in
  let hs := match modified with
            | Some m => if opt_last_modified o then headers_set hs (lit "last-modified") (format_http_date m) else hs
            | None => hs
            end in
  if nosniff o then unless_present (lit "x-content-type-options") (lit "nosniff") hs else hs.

Definition static_headers (o : static_file_options) (target : path) (content etag : str) (modified : option Z) : headers :=
  validator_headers o etag modified
    (headers_set (unless_present (lit "content-type") (content_type_for_extension (lowercase (extension target))) [])
       (lit "content-length") (to_string (N.of_nat (length content)))).

Lemma seq_head (p q : proc delivery) hs hs' : p (at_head hs) = (at_head hs', None) → (p;; q)%response (at_head hs) = q (at_head hs').
Proof. unfold seq. by intros ->. Qed.

Lemma unless_head name value hs : set_header_unless_present name value (at_head hs) = (at_head (unless_present name value hs), None).
Proof. unfold set_header_unless_present, guard, unless_present. cbn. by destruct (headers_contains hs name). Qed.

Lemma validators_head o etag modified hs : validators o etag modified (at_head hs) = (at_head (validator_headers o etag modified hs), None).
Proof.
  unfold validators, validator_headers. cbv zeta.
  rewrite (seq_head _ _ _ (match cache_control o with Some v => unless_present (lit "cache-control") v hs | None => hs end))
    by (destruct (cache_control o); [apply unless_head|done]).
  set (hs1 := match cache_control o with Some _ => _ | None => _ end).
  rewrite (seq_head _ _ _ (if negb (str_eqb etag []) then headers_set hs1 (lit "etag") etag else hs1)) by (by destruct (negb (str_eqb etag []))).
  set (hs2 := if negb (str_eqb etag []) then _ else _).
  rewrite (seq_head _ _ _ (match modified with
            | Some m => if opt_last_modified o then headers_set hs2 (lit "last-modified") (format_http_date m) else hs2
            | None => hs2
            end)) by (by destruct (opt_last_modified o), modified).
  unfold when. destruct (nosniff o); [apply unless_head|done].
Qed.

Lemma unless_length name value hs :
  names_equal name (lit "content-length") = false → headers_get (unless_present name value hs) (lit "content-length") = headers_get hs (lit "content-length").
Proof. intros H. unfold unless_present. destruct (headers_contains hs name); [done|]. by rewrite headers_get_set, H. Qed.

Lemma static_headers_length o target content etag modified :
  headers_get (static_headers o target content etag modified) (lit "content-length") = to_string (N.of_nat (length content)).
Proof.
  unfold static_headers, validator_headers. cbv zeta.
  destruct (nosniff o); rewrite ?unless_length by done;
    (destruct modified; [destruct (opt_last_modified o)|]; rewrite ?headers_get_set; cbn [names_equal];
     destruct (negb (str_eqb etag [])), (cache_control o); rewrite ?headers_get_set, ?unless_length by done; by rewrite ?headers_get_set).
Qed.

(** The stream when the sender starts. *)
Definition at_start (hs : headers) (content : str) (size : nat) : delivery :=
  Delivery (FileSender true content false size)
    (set_callbacks true true true true true true (set_flags false false true false (set_head 200 hs server_response))) [] 0.

Lemma send_static_start o target content etag modified :
  send_static emit_delivery write_delivery o target content etag modified (at_head []) =
  send_more emit_delivery write_delivery (at_start (static_headers o target content etag modified) content (Z.to_nat (chunk_size o))).
Proof.
  unfold send_static. erewrite seq_head; [|apply unless_head]. erewrite seq_head; [|reflexivity].
  erewrite seq_head; [|apply validators_head]. reflexivity.
Qed.

Lemma start_going hs content size : (0 < size)%nat → going content hs size (at_start hs content size).
Proof. intros Hs. constructor; try done. constructor; try done; [by exists []|by left]. Qed.
End environment.

(** A request that the handler answers with the whole of a file. *)
Definition sends_file (fs : fs_node) (skew : Z) (h : static_file_handler) (req : server_request) (target : path) (content : str) (mtime : option Z) : Prop :=
  find_static_file fs h req = answer_file target content mtime true ∧
  is_not_modified req (file_etag (static_options h) content ((λ m, file_time_to_time_t m skew) <$> mtime))
    ((λ m, file_time_to_time_t m skew) <$> mtime) = false.

Lemma serve_sends answer interrupted fs skew h req target content mtime ops :
  sends_file fs skew h req target content mtime →
  serve_static answer interrupted fs skew h req ops =
  foldl (deliver answer interrupted) (send_more (emit_delivery) (write_delivery answer interrupted)
    (at_start (static_headers (static_options h) target content
       (file_etag (static_options h) content ((λ m, file_time_to_time_t m skew) <$> mtime)) ((λ m, file_time_to_time_t m skew) <$> mtime))
       content (Z.to_nat (chunk_size (static_options h))))).1 ops.
Proof.
  intros [Hf Hc]. unfold serve_static, static_serve. cbv zeta. rewrite Hf, Hc, andb_false_r. cbn [negb].
  change (Delivery no_sender server_response [] 0) with (at_head []). by rewrite send_static_start.
Qed.

(** What is sent is the file: whatever the environment accepts, pushes back and
    cancels, the response is 200 with the length of the file, the accepted chunks
    are in order a prefix of the file, none empty or longer than the buffer, and
    the stream is ended at most once, after the whole file. *)
Theorem static_body_delivered answer interrupted (fs : fs_node) (skew : Z) (h : static_file_handler) (req : server_request)
    (target : path) (content : str) (mtime : option Z) (ops : list delivery_op) :
  1 ≤ chunk_size (static_options h) → sends_file fs skew h req target content mtime →
  let d := serve_static answer interrupted fs skew h req ops in
  status_code (dl_res d) = 200 ∧
  headers_get (rs_headers (dl_res d)) (lit "content-length") = to_string (N.of_nat (length content)) ∧
  concat (dl_sent d) `prefix_of` content ∧
  Forall (λ c, (0 < length c ≤ Z.to_nat (chunk_size (static_options h)))%nat) (dl_sent d) ∧
  (dl_ended d ≤ 1)%nat ∧ (dl_ended d = 1%nat → concat (dl_sent d) = content).
Proof.
  intros Hc Hf d. subst d. rewrite (serve_sends _ _ _ _ _ _ _ _ _ _ Hf). set (hs := static_headers _ _ _ _ _). set (size := Z.to_nat _) in *.
  assert (Hs : (0 < size)%nat) by (subst size; lia).
  assert (Hd : sending content hs size (foldl (deliver answer interrupted)
    (send_more emit_delivery (write_delivery answer interrupted) (at_start hs content size)).1 ops)).
  { by apply delivers_sending, send_more_sending, start_going. }
  destruct Hd as [(lost & H1 & _) H2 _ _ H5 [H6 H7]]. split_and!; [done| | |done|destruct H5 as [->|(-> & _)]; lia|].
  - rewrite H7. apply static_headers_length.
  - rewrite H1 at 2. by apply prefix_app_r.
  - destruct H5 as [->|(_ & ? & _)]; [done|by intros _].
Qed.

(** C27: A client that reads gets the whole file: when every write is accepted, with
    or without pushing back, and the response is not cancelled, then after at most
    one drain per byte and one more the stream is ended and all of the file was
    sent; the loop of the sender does not stop before. *)
Theorem static_body_completed answer (fs : fs_node) (skew : Z) (h : static_file_handler) (req : server_request)
    (target : path) (content : str) (mtime : option Z) :
  1 ≤ chunk_size (static_options h) → sends_file fs skew h req target content mtime →
  (∀ sent chunk, wr_accepted (answer sent chunk) = true) →
  let d := serve_static answer (λ _ _, false) fs skew h req (replicate (S (length content)) dl_drain) in
  dl_ended d = 1%nat ∧ concat (dl_sent d) = content.
Proof.
  intros Hc Hf Ha d. subst d. rewrite (serve_sends _ _ _ _ _ _ _ _ _ _ Hf). set (hs := static_headers _ _ _ _ _). set (size := Z.to_nat _) in *.
  assert (Hs : (0 < size)%nat) by (subst size; lia). pose proof (start_going hs content size Hs) as Hg.
  assert (Hd : finished content hs size (foldl (deliver answer (λ _ _, false))
    (send_more emit_delivery (write_delivery answer (λ _ _, false)) (at_start hs content size)).1 (replicate (S (length content)) dl_drain))).
  { apply drains_progress; [done|done|done|]. destruct (send_more_progress answer (λ _ _, false) content hs size Hs Ha ltac:(done) _ Hg) as [|[Hg' Hl]]; [by left|right].
    split; [done|]. revert Hl. unfold reads_left at 2. cbn [dl_sender at_start file_eof file_rest]. lia. }
  destruct Hd as [[_ _ _ _ H5 _] He]. split; [done|]. destruct H5 as [|(_ & ? & _)]; [congruence|done].
Qed.

Lemma static_body_delivered_witness :
  let d := serve_static (λ sent _, match sent with [] => write_backpressure | _ => write_ready end) (λ sent _, (1 <? length sent)%nat)
             Site.tree 0 Site.handler (Site.ask [lit "a.txt"] []) [dl_drain] in
  dl_sent d = [lit "hell"; lit "o wo"; lit "rld"] ∧ concat (dl_sent d) `prefix_of` lit "hello world".
Proof.
  split; [vm_compute; reflexivity|].
  refine (proj1 (proj2 (proj2 (static_body_delivered _ _ Site.tree 0 Site.handler (Site.ask [lit "a.txt"] [])
    [lit "srv"; lit "www"; lit "a.txt"] (lit "hello world") (Some 1700000000000000000) [dl_drain] _ _)))); [|split; reflexivity].
  vm_compute. intros H. discriminate H.
Defined.

Lemma static_body_completed_witness :
  let d := serve_static (λ _ _, write_backpressure) (λ _ _, false) Site.tree 0 Site.handler (Site.ask [lit "a.txt"] [])
             (replicate (S (length (lit "hello world"))) dl_drain) in
  dl_ended d = 1%nat ∧ concat (dl_sent d) = lit "hello world".
Proof.
  refine (static_body_completed (λ _ _, write_backpressure) Site.tree 0 Site.handler (Site.ask [lit "a.txt"] [])
    [lit "srv"; lit "www"; lit "a.txt"] (lit "hello world") (Some 1700000000000000000) _ _ _); [|split; reflexivity|reflexivity].
  vm_compute. intros H. discriminate H.
Defined.
