(* ===== verification/ClientWire.v ===== *)
(** * What the client reads and writes

    The pure part of [src/http/client.cpp]: the head of a response, chunked bodies,
    whole responses, and the text of requests.  A size is an [unsigned int]; a
    call may throw what the standard library or [http::response] throws. *)

From S2P Require Import Prelude Text Url Http HttpError Multipart Response ServerWire.

Open Scope Z_scope.

Inductive client_exn := exn_out_of_range | exn_response (e : response_exn).

(** What a function of the client ends with besides a value. *)
Inductive client_failure := fail_error (e : error) | fail_throw (e : client_exn).

(** The message stays empty where none is given. *)
Definition make_client_error (code : errc) (detail : str) : error := Error (http_code code) detail.

Definition is_blank_front (c : ascii) : bool := is_char " " c || is_char "009" c.
Definition is_blank_back (c : ascii) : bool := is_blank_front c || is_char "013" c.

Fixpoint trim_while (p : ascii → bool) (value : str) : str :=
  match value with c :: value' => if p c then trim_while p value' else value | [] => [] end.

Definition client_trim (value : str) : str := rev (trim_while is_blank_back (rev (trim_while is_blank_front value))).

Definition parse_uint (value : str) (base : N) : option Z :=
  match from_chars_unsigned 32 base value with fc_ok n [] => Some n | _ => None end.

Definition response_must_not_have_body (request_method : method) (status_code : Z) : bool :=
  bool_decide (request_method = m_head) || ((100 <=? status_code) && (status_code <? 200)) || (status_code =? 204) || (status_code =? 304).

Definition response_is_redirect (status_code : Z) : bool :=
  (status_code =? 301) || (status_code =? 302) || (status_code =? 303) || (status_code =? 307) || (status_code =? 308).

Definition method_can_follow_redirect (m : method) : bool := bool_decide (m = m_get) || bool_decide (m = m_head).

Definition contains_text (value needle : str) : bool := match find_sub needle value with Some _ => true | None => false end.

Definition connection_requests_close (hs : headers) : bool := contains_text (lowercase (headers_get hs (lit "connection"))) (lit "close").

Definition chunked_encoding (hs : headers) : bool := contains_text (lowercase (headers_get hs (lit "transfer-encoding"))) (lit "chunked").

Definition response_has_reusable_framing (request_method : method) (status_code : Z) (hs : headers) : bool :=
  response_must_not_have_body request_method status_code || chunked_encoding hs || negb (str_eqb (headers_get hs (lit "content-length")) []).

(** ** The head of a response *)

Record response_head := ResponseHead { rh_status_code : Z; rh_headers : headers }.

Definition malformed (detail : string) : client_failure := fail_error (make_client_error client_malformed_response (lit detail)).

(** The loop over the lines of the block, from what is left of it. *)
Fixpoint header_lines (fuel : nat) (rest : str) (hs : headers) : result client_failure headers :=
  match fuel, rest with
  | O, _ | _, [] => Ok hs
  | S fuel', _ =>
    let line_end := find_sub crlf rest in
    let line := match line_end with Some i => take i rest | None => rest end in
    match find_char ":" line with
    | None | Some O => Err (malformed "response header line is invalid")
    | Some colon =>
      let hs := headers_add hs (take colon line) (client_trim (drop (S colon) line)) in
      match line_end with None => Ok hs | Some i => header_lines fuel' (drop (i + 2) rest) hs end
    end
  end.

Definition parse_response_head (bytes : str) (max_header_bytes : Z) : result client_failure (response_head * nat) :=
  match find_sub crlf2 bytes with
  | None => Err (malformed "response headers are incomplete")
  | Some header_end =>
    if max_header_bytes <? Z.of_nat header_end + 4 then Err (fail_error (make_client_error client_header_limit_exceeded []))
    else
      let header_block := take header_end bytes in
      let first_line_end := find_sub crlf header_block in
      let status_line := match first_line_end with Some i => take i header_block | None => header_block end in
      if negb (starts_with status_line (lit "HTTP/")) then Err (malformed "response status line is invalid")
      else
        match find_char " " status_line with
        | None => Err (malformed "response status code is missing")
        | Some status_start =>
          if (length status_line <? status_start + 4)%nat then Err (malformed "response status code is missing")
          else
            match parse_uint (substr status_line (S status_start) 3) 10 with
            | None => Err (malformed "response status code is invalid")
            | Some status_code =>
              let rest := match first_line_end with Some i => drop (i + 2) header_block | None => [] end in
              (λ hs, (ResponseHead status_code hs, (header_end + 4)%nat)) <$> header_lines (S (length rest)) rest []
            end
        end
  end.

(** ** Chunked bodies *)

Definition crlf_here (s : str) : bool := str_eqb (substr s 0 2) crlf.

Definition drop_extension (size_line : str) : str :=
  match find_char ";" size_line with Some i => take i size_line | None => size_line end.

(** [rest] is what follows [offset]; [chunk_size + 2] is an [unsigned int]. *)
Fixpoint decode_chunked_from (fuel : nat) (rest out : str) : result client_failure str :=
  match fuel with
  | O => Err (malformed "")
  | S fuel' =>
    match find_sub crlf rest with
    | None => Err (malformed "chunk size line is incomplete")
    | Some line_end =>
      match parse_uint (drop_extension (take line_end rest)) 16 with
      | None => Err (malformed "chunk size is invalid")
      | Some chunk_size =>
        let rest := drop (line_end + 2) rest in
        if chunk_size =? 0 then
          if crlf_here rest && (length rest =? 2)%nat then Ok out
          else
            match find_sub crlf2 rest with
            | None => Err (malformed "chunk trailers are incomplete")
            | Some trailer_end =>
              if negb (trailer_end + 4 =? length rest)%nat then Err (malformed "unexpected bytes after chunked body") else Ok out
            end
        else if Z.of_nat (length rest) <? (chunk_size + 2) mod 2 ^ 32 then Err (malformed "chunk body is incomplete")
        else
          let out := out ++ take (Z.to_nat (Z.min chunk_size (Z.of_nat (length rest)))) rest in
          if Z.of_nat (length rest) <? chunk_size then Err (fail_throw exn_out_of_range)
          else
            let rest := drop (Z.to_nat chunk_size) rest in
            if negb (crlf_here rest) then Err (malformed "chunk body is not terminated")
            else decode_chunked_from fuel' (drop 2 rest) out
      end
    end
  end.

Definition decode_chunked (encoded : str) : result client_failure str := decode_chunked_from (S (length encoded)) encoded [].

(** ** Whole responses *)

(** The calls on a new [http::response]. *)
Definition build_response (status_code : Z) (hs : headers) (body : str) : result client_failure response_state :=
  match @run_all response_state self_store (λ _, done) (λ _ s, (s, None, write_ready))
          (c_status status_code :: map (λ h, c_header h.1 h.2) hs ++ [c_bytes body]) fresh_response with
  | (r, None) => Ok r
  | (_, Some e) => Err (fail_throw (exn_response e))
  end.

Definition response_body_of (request_method : method) (head : response_head) (raw_body : str) (max_body_bytes : Z) : result client_failure str :=
  if response_must_not_have_body request_method (rh_status_code head) then Ok []
  else if chunked_encoding (rh_headers head) then decode_chunked raw_body
  else
    let length_value := headers_get (rh_headers head) (lit "content-length") in
    if negb (str_eqb length_value []) then
      match parse_uint length_value 10 with
      | None => Err (malformed "content-length is invalid")
      | Some content_length =>
        if max_body_bytes <? content_length then Err (fail_error (make_client_error client_body_limit_exceeded []))
        else if Z.of_nat (length raw_body) <? content_length then Err (malformed "response body is incomplete")
        else Ok (take (Z.to_nat content_length) raw_body)
      end
    else Ok raw_body.

Definition parse_response (request_method : method) (bytes : str) (max_header_bytes max_body_bytes : Z) : result client_failure response_state :=
  '(head, body_offset) ← parse_response_head bytes max_header_bytes;
  body ← response_body_of request_method head (drop body_offset bytes) max_body_bytes;
  if max_body_bytes <? Z.of_nat (length body) then Err (fail_error (make_client_error client_body_limit_exceeded []))
  else build_response (rh_status_code head) (rh_headers head) body.

(** ** Requests *)

Definition client_serialize_chunk (chunk : str) : str := to_chars 16 (N.of_nat (length chunk)) ++ crlf ++ chunk ++ crlf.

Definition origin_key (value : url) : str :=
  scheme value ++ lit "://" ++ hostname value ++ lit ":" ++
  match effective_port value with Ok port => to_string (Z.to_N port) | Err _ => port value end.
