(* ===== verification/ClientWireSpec.v ===== *)
(** * The client reads what the server writes

    The parser of [ClientWire] on the text of [ServerWire]: heads, chunked and
    buffered responses, and the streams of a connection. *)

From S2P Require Import Prelude Text Url Http HttpError Multipart MultipartTheory Response ServerWire ServerWireSpec ClientWire.

Open Scope Z_scope.

(** ** Chunks *)

Lemma client_chunk_same p : client_serialize_chunk p = serialize_chunk p.
Proof. done. Qed.

Lemma digits_no_cr base n : (2 <= base)%N → (base <= 16)%N → no_cr (to_chars base n).
Proof. intros. by apply to_chars_avoids. Qed.

Lemma parse_chars base n : (2 <= base)%N → (base <= 16)%N → Z.of_N n < 2 ^ 32 → parse_uint (to_chars base n) base = Some (Z.of_N n).
Proof. intros H1 H2 H3. unfold parse_uint. by rewrite read_number. Qed.

Lemma size_line n : drop_extension (to_chars 16 n) = to_chars 16 n.
Proof.
  unfold drop_extension. assert (find_char ";" (to_chars 16 n) = None) as ->; [|done]. apply find_if_None. by apply to_chars_avoids.
Qed.

(** A chunk is short enough for the size and the two bytes after it. *)
Definition chunk_ok (p : str) : Prop := p ≠ [] ∧ Z.of_nat (length p) + 2 < 2 ^ 32.

Lemma decode_chunks payloads fuel out :
  Forall chunk_ok payloads → (length payloads < fuel)%nat →
  decode_chunked_from fuel (flat_map serialize_chunk payloads ++ last_chunk) out = Ok (out ++ concat payloads).
Proof.
  intros H. revert fuel out. induction H as [|p ps [Hne Hp] _ IH]; intros fuel out Hf; (destruct fuel as [|fuel]; [lia|]).
  - cbn. by rewrite app_nil_r.
  - cbn [flat_map]. unfold serialize_chunk at 1. set (n := N.of_nat (length p)). rewrite <-!app_assoc.
    set (tail := flat_map serialize_chunk ps ++ last_chunk) in *. cbn [decode_chunked_from].
    assert (Ef : find_sub crlf (to_chars 16 n ++ eol ++ p ++ eol ++ tail) = Some (length (to_chars 16 n))).
    { apply (no_cr_find ["010"%char]). by apply digits_no_cr. }
    rewrite Ef, take_app_length, size_line, parse_chars by (done || lia).
    assert (E0 : (Z.of_N n =? 0) = false) by (apply Z.eqb_neq; destruct p; [done|cbn in n; lia]). rewrite E0.
    assert (Ed : drop (length (to_chars 16 n) + 2) (to_chars 16 n ++ eol ++ p ++ eol ++ tail) = p ++ eol ++ tail) by (by rewrite drop_app_add).
    rewrite Ed, length_app. rewrite Z.mod_small by lia.
    assert (E1 : (Z.of_nat (length p + length (eol ++ tail)) <? Z.of_N n + 2) = false).
    { apply Z.ltb_ge. rewrite length_app. cbn. lia. }
    rewrite E1. assert (E2 : (Z.of_nat (length p + length (eol ++ tail)) <? Z.of_N n) = false) by (apply Z.ltb_ge; lia). rewrite E2.
    rewrite Z.min_l by lia. replace (Z.to_nat (Z.of_N n)) with (length p) by lia. rewrite take_app_length, drop_app_length.
    change (crlf_here (eol ++ tail)) with true. cbn [negb]. change (drop 2 (eol ++ tail)) with tail. rewrite IH by (cbn in Hf; lia).
    cbn [concat]. by rewrite app_assoc.
Qed.

Lemma decode_chunked_ok payloads : Forall chunk_ok payloads → decode_chunked (flat_map serialize_chunk payloads ++ last_chunk) = Ok (concat payloads).
Proof.
  intros H. unfold decode_chunked. rewrite decode_chunks; [done|done|]. rewrite length_app. pose proof (length_chunks payloads). lia.
Qed.

(** ** Heads *)

Definition client_field_ok (h : str * str) : Prop := field_ok h ∧ client_trim h.2 = h.2.

Definition field_text (h : str * str) : str := h.1 ++ lit ": " ++ h.2.

Lemma head_lines line hs rest :
  line ++ eol ++ fields_text hs ++ eol ++ rest = join_lines (line :: map field_text hs) ++ crlf2 ++ rest.
Proof.
  revert line. induction hs as [|[n v] hs IH]; intros line; [done|]. cbn [map].
  change (join_lines (line :: field_text (n, v) :: map field_text hs)) with (line ++ crlf ++ join_lines (field_text (n, v) :: map field_text hs)).
  rewrite <-!app_assoc, <-IH. unfold fields_text. cbn [flat_map]. unfold field_line, field_text. cbn [fst snd]. by rewrite <-!app_assoc.
Qed.

Lemma line_byte_no_cr s : none_of line_byte s → no_cr s.
Proof. apply none_of_weaken. intros c H. unfold line_byte. by rewrite H. Qed.

Lemma field_line_ok h : field_ok h → line_ok (field_text h).
Proof.
  intros (Hne & Hn & Hv & _). apply field_name_clean in Hn as [_ Hn]. split.
  - unfold field_text. repeat apply no_cr_app; [by apply line_byte_no_cr|by repeat constructor|by apply line_byte_no_cr].
  - unfold field_text. by destruct h.1.
Qed.

Lemma trim_while_none p s : none_of p s → trim_while p s = s.
Proof. by destruct 1 as [|c s Hc _]; [|cbn; rewrite Hc]. Qed.

Lemma client_trim_none s : none_of is_blank_back s → client_trim s = s.
Proof.
  intros H. unfold client_trim. rewrite (trim_while_none is_blank_front).
  - rewrite trim_while_none; [by rewrite rev_involutive|]. unfold none_of. apply Forall_rev in H. exact H.
  - eapply none_of_weaken; [|exact H]. intros c Hc. unfold is_blank_back. by rewrite Hc.
Qed.

Lemma read_field_line h fuel rest hs line_end :
  client_field_ok h → find_sub crlf rest = line_end → (match line_end with Some i => take i rest | None => rest end) = field_text h →
  header_lines (S fuel) rest hs =
    match line_end with None => Ok (hs ++ [h]) | Some i => header_lines fuel (drop (i + 2) rest) (hs ++ [h]) end.
Proof.
  intros [(Hne & Hn & _) Ht] Hl Hline. assert (rest ≠ []) by (intros ->; cbn in Hl; subst line_end; unfold field_text in Hline; by destruct h.1).
  destruct rest as [|c rest]; [done|]. cbn [header_lines]. rewrite Hl, Hline. apply field_name_clean in Hn as [Hn _].
  assert (Ec : find_char ":" (field_text h) = Some (length h.1)).
  { unfold field_text. apply find_if_here; [done|by apply is_char_refl]. }
  rewrite Ec. assert (take (length h.1) (field_text h) = h.1) as -> by apply take_app_length.
  assert (drop (S (length h.1)) (field_text h) = " "%char :: h.2) as ->.
  { unfold field_text. change (lit ": " ++ h.2) with (":"%char :: " "%char :: h.2). by rewrite drop_S_app. }
  change (client_trim (" "%char :: h.2)) with (client_trim h.2). rewrite Ht. unfold headers_add.
  destruct h as [n v]. cbn [fst snd] in *. destruct n as [|d n]; [done|]. cbn [length]. by destruct line_end.
Qed.

Lemma header_lines_ok hs : ∀ fuel acc, Forall client_field_ok hs → hs ≠ [] → (length hs ≤ fuel)%nat →
  header_lines fuel (join_lines (map field_text hs)) acc = Ok (acc ++ hs).
Proof.
  induction hs as [|h hs IH]; intros fuel acc Hok Hne Hf; [done|]. apply Forall_cons in Hok as [Hh Hok].
  destruct fuel as [|fuel]; [cbn in Hf; lia|]. destruct (field_line_ok h (proj1 Hh)) as [Hcr _]. destruct hs as [|h2 hs].
  - cbn [map join_lines]. rewrite (read_field_line h fuel _ acc None Hh); [done| |done]. unfold crlf. by apply no_cr_not_found.
  - cbn [map]. change (join_lines (field_text h :: field_text h2 :: map field_text hs)) with
      (field_text h ++ crlf ++ join_lines (map field_text (h2 :: hs))).
    rewrite (read_field_line h fuel _ acc (Some (length (field_text h))) Hh).
    + rewrite drop_app_add. change (drop 2 (crlf ++ ?x)) with x. rewrite IH; [by rewrite <-app_assoc|done|done|cbn in Hf |- *; lia].
    + unfold crlf. by apply no_cr_find.
    + apply take_app_length.
Qed.

Lemma length_lines hs : Forall client_field_ok hs → (length hs ≤ length (join_lines (map field_text hs)))%nat.
Proof.
  intros H. pose proof (length_join_lines (map field_text hs)) as Hl. rewrite length_map in Hl. apply Hl.
  apply Forall_map. eapply Forall_impl; [exact H|]. intros h [Hh _]. by apply field_line_ok.
Qed.

Lemma three_digits code : 100 ≤ code ≤ 999 → length (to_string (Z.to_N code)) = 3%nat.
Proof.
  intros H. assert (Hall : forallb (λ k, Nat.eqb (length (to_string (N.of_nat (100 + k)))) 3) (List.seq 0 900) = true) by (vm_compute; done).
  rewrite forallb_forall in Hall. specialize (Hall (Z.to_nat code - 100)%nat). apply Nat.eqb_eq in Hall; [|apply in_seq; lia].
  by replace (N.of_nat (100 + (Z.to_nat code - 100))) with (Z.to_N code) in Hall by lia.
Qed.

(** The first line of a response, with its reason. *)
Definition response_line (code : Z) (reason : str) : str := lit "HTTP/1.1 " ++ to_string (Z.to_N code) ++ lit " " ++ reason.

Lemma response_line_ok code reason : no_cr reason → line_ok (response_line code reason).
Proof.
  intros H. split; [|done]. unfold response_line. by repeat apply no_cr_app; [repeat constructor|apply digits_no_cr|repeat constructor|].
Qed.

Lemma status_line_ok res : line_ok (status_line res).
Proof. apply response_line_ok, line_byte_no_cr, reason_clean. Qed.

(** The status code the client finds in the status line. *)
Lemma status_code_found code reason :
  100 ≤ code ≤ 999 →
  parse_uint (substr (response_line code reason) 9 3) 10 = Some code ∧ (length (response_line code reason) <? 8 + 4)%nat = false.
Proof.
  intros Hc. pose proof (three_digits _ Hc) as Hl. unfold response_line, substr. split.
  - change (drop 9 (lit "HTTP/1.1 " ++ ?x)) with x. rewrite <-Hl, take_app_length. unfold to_string. rewrite parse_chars by (done || lia). f_equal. lia.
  - apply Nat.ltb_ge. rewrite !length_app, Hl. cbn. lia.
Qed.

Lemma parse_head_lines code reason hs rest max_header_bytes :
  100 ≤ code ≤ 999 → no_cr reason → Forall client_field_ok hs →
  let line := response_line code reason in
  let text := line ++ eol ++ fields_text hs ++ eol in
  Z.of_nat (length text) ≤ max_header_bytes →
  parse_response_head (text ++ rest) max_header_bytes = Ok (ResponseHead code hs, length text).
Proof.
  intros Hc Hr Hhs line text Hmax. set (lines := line :: map field_text hs).
  assert (Hlines : Forall line_ok lines).
  { constructor; [by apply response_line_ok|]. apply Forall_map. eapply Forall_impl; [exact Hhs|]. intros h [Hh _]. by apply field_line_ok. }
  assert (Ht : text ++ rest = join_lines lines ++ crlf2 ++ rest) by (unfold text; rewrite <-!app_assoc; apply head_lines).
  assert (Hlen : length text = (length (join_lines lines) + 4)%nat).
  { apply (f_equal length) in Ht. rewrite !length_app in Ht. change (length crlf2) with 4%nat in Ht. lia. }
  destruct (status_code_found code reason Hc) as [Hcode Hshort]. destruct (response_line_ok code reason Hr) as [Hcr _]. fold line in Hcode, Hshort, Hcr.
  unfold parse_response_head. rewrite Ht, join_lines_no_blank by done.
  assert ((max_header_bytes <? Z.of_nat (length (join_lines lines)) + 4) = false) as -> by (apply Z.ltb_ge; lia).
  rewrite take_app_length, Hlen. unfold lines. destruct hs as [|h hs].
  - cbn [map join_lines]. assert (Ef : find_sub crlf line = None) by (unfold crlf; by apply no_cr_not_found). rewrite Ef.
    change (starts_with line (lit "HTTP/")) with true. change (find_char " " line) with (Some 8%nat). cbn [negb].
    by rewrite Hshort, Hcode.
  - change (join_lines (line :: map field_text (h :: hs))) with (line ++ crlf ++ join_lines (map field_text (h :: hs))).
    assert (Ef : find_sub crlf (line ++ crlf ++ join_lines (map field_text (h :: hs))) = Some (length line))
      by (unfold crlf; by apply no_cr_find).
    rewrite Ef, take_app_length. change (starts_with line (lit "HTTP/")) with true.
    change (find_char " " line) with (Some 8%nat). cbn [negb]. rewrite Hshort, Hcode, drop_app_add.
    change (drop 2 (crlf ++ ?x)) with x. rewrite header_lines_ok; [done|done|done|]. pose proof (length_lines (h :: hs) Hhs). lia.
Qed.

Lemma parse_head_text res hs rest max_header_bytes :
  100 ≤ status_code res ≤ 999 → Forall client_field_ok hs →
  let text := status_line res ++ eol ++ fields_text hs ++ eol in
  Z.of_nat (length text) ≤ max_header_bytes →
  parse_response_head (text ++ rest) max_header_bytes = Ok (ResponseHead (status_code res) hs, length text).
Proof. intros Hc Hhs. apply (parse_head_lines (status_code res)); [done| |done]. apply line_byte_no_cr, reason_clean. Qed.

(** ** Whole responses *)

Definition client_sendable (res : response_state) : Prop :=
  100 ≤ status_code res ≤ 999 ∧ Forall client_field_ok (rs_headers res).

Lemma client_sendable_sendable res : client_sendable res → sendable res.
Proof. intros [H1 H2]. split; [done|]. eapply Forall_impl; [exact H2|]. by intros h []. Qed.

(** The fields that the server adds survive the trimming, as do the user's. *)
Lemma head_fields_client_ok res keep_alive options chunked suppress :
  Forall client_field_ok (rs_headers res) → Forall client_field_ok (head_fields res keep_alive options chunked suppress).
Proof.
  intros H. assert (Hok : Forall field_ok (head_fields res keep_alive options chunked suppress)).
  { apply head_fields_ok. eapply Forall_impl; [exact H|]. by intros h []. }
  apply Forall_and. split; [done|]. clear Hok. unfold head_fields. repeat apply Forall_app_2.
  - induction H as [|h hs [_ Hh] _ IH]; [constructor|]. cbn [List.filter]. destruct (_ && _); [by constructor|done].
  - destruct (chunked && _); [by repeat constructor|]. destruct (has_field _ _); [done|]. constructor; [|done].
    apply client_trim_none. by apply to_chars_avoids.
  - destruct (has_field _ _); [done|]. constructor; [|done]. by destruct keep_alive.
  - destruct (_ && _); [by repeat constructor|done].
Qed.

Lemma parse_server_head res keep_alive options chunked suppress rest max_header_bytes :
  client_sendable res →
  let text := serialize_response_head res keep_alive options chunked suppress in
  Z.of_nat (length text) ≤ max_header_bytes →
  parse_response_head (text ++ rest) max_header_bytes =
  Ok (ResponseHead (status_code res) (head_fields res keep_alive options chunked suppress), length text).
Proof.
  intros [Hc Hhs]. rewrite serialize_head_fields. cbv zeta. intros Hmax. apply parse_head_text; [done| |done].
  by apply head_fields_client_ok.
Qed.

(** [http::response::header] on each of the fields in turn. *)
Definition collected (hs : headers) : headers := foldl (λ acc h, headers_set acc h.1 h.2) [] hs.

(** The response that the callback of the client gets. *)
Definition received_response (code : Z) (hs : headers) (body : str) : response_state :=
  set_flags true false false false (set_body body (set_head code (collected hs) fresh_response)).

Lemma run_header_calls hs : ∀ rest (s : response_state), headers_committed s = false →
  @run_all response_state self_store (λ _, done) (λ _ s, (s, None, write_ready)) (map (λ h, c_header h.1 h.2) hs ++ rest) s =
  @run_all response_state self_store (λ _, done) (λ _ s, (s, None, write_ready)) rest
    (set_head (status_code s) (foldl (λ acc h, headers_set acc h.1 h.2) (rs_headers s) hs) s).
Proof.
  induction hs as [|h hs IH]; intros rest s Hs; [by destruct s|]. cbn [map app run_all foldl]. unfold seq at 1. cbn [run_cmd].
  unfold header, guard, update, rget, rput, self_store. rewrite Hs. by rewrite IH by done.
Qed.

Lemma build_response_ok code hs body :
  100 ≤ code ≤ 999 → build_response code hs body = Ok (received_response code hs body).
Proof.
  intros H. unfold build_response. cbn [run_all]. unfold seq at 1. cbn [run_cmd]. unfold status.
  assert ((code <? 100) || (999 <? code) = false) as -> by (apply orb_false_iff; split; apply Z.ltb_ge; lia).
  unfold guard at 1. cbn. by rewrite run_header_calls by done.
Qed.

Lemma must_not_have_body_bodyless m code : response_must_not_have_body m code = bodyless (bool_decide (m = m_head)) code.
Proof. done. Qed.

Lemma not_chunked_server res keep_alive options suppress :
  chunked_encoding (head_fields res keep_alive options false suppress) = false.
Proof. unfold chunked_encoding. by rewrite head_transfer_encoding. Qed.

Lemma chunked_server res keep_alive options : chunked_encoding (head_fields res keep_alive options true false) = true.
Proof. unfold chunked_encoding. by rewrite head_transfer_encoding. Qed.

(** What a request for a response sees of it. *)
Definition expected_body (m : method) (res : response_state) : str :=
  if response_must_not_have_body m (status_code res) then [] else rs_body res.

Lemma client_reads_body m res keep_alive options rest max_body_bytes :
  let suppress := bool_decide (m = m_head) in
  headers_contains (rs_headers res) (lit "content-length") = false →
  Z.of_nat (length (rs_body res)) ≤ max_body_bytes → Z.of_nat (length (rs_body res)) < 2 ^ 32 →
  response_body_of m (ResponseHead (status_code res) (head_fields res keep_alive options false suppress))
    ((if suppress then [] else response_body (status_code res) (rs_body res)) ++ rest) max_body_bytes = Ok (expected_body m res).
Proof.
  intros suppress Hcl Hmax Hlen. unfold response_body_of, expected_body. cbn [rh_status_code rh_headers].
  destruct (response_must_not_have_body m (status_code res)) eqn:Eb; [done|].
  rewrite not_chunked_server, head_content_length by done. rewrite must_not_have_body_bodyless in Eb. unfold bodyless in Eb.
  rewrite !orb_false_iff in Eb. destruct Eb as [[[Eh _] E204] _]. subst suppress. rewrite Eh.
  unfold response_body. rewrite E204. set (n := N.of_nat (length (rs_body res))).
  assert (str_eqb (to_string n) [] = false) as ->. { unfold str_eqb. apply bool_decide_eq_false_2. by apply to_chars_nonempty. }
  unfold to_string. cbn [negb]. rewrite parse_chars by (done || lia).
  assert ((max_body_bytes <? Z.of_N n) = false) as -> by (apply Z.ltb_ge; lia).
  assert ((Z.of_nat (length (rs_body res ++ rest)) <? Z.of_N n) = false) as ->. { apply Z.ltb_ge. rewrite length_app. lia. }
  replace (Z.to_nat (Z.of_N n)) with (length (rs_body res)) by lia. by rewrite take_app_length.
Qed.

(** The client of the library reads a buffered response of its server as it was
    meant, whatever follows it in the buffer: the status, the body, and the
    fields, those of one name combined into the last. *)
Theorem client_reads_buffered_response (m : method) (res : response_state) (keep_alive : bool) (options : server_options) (rest : str)
    (max_header_bytes max_body_bytes : Z) :
  let suppress := bool_decide (m = m_head) in
  client_sendable res → headers_contains (rs_headers res) (lit "content-length") = false →
  Z.of_nat (length (rs_body res)) ≤ max_body_bytes → Z.of_nat (length (rs_body res)) < 2 ^ 32 →
  Z.of_nat (length (serialize_response_head res keep_alive options false suppress)) ≤ max_header_bytes →
  parse_response m (serialize_response res keep_alive options suppress ++ rest) max_header_bytes max_body_bytes =
  Ok (received_response (status_code res) (head_fields res keep_alive options false suppress) (expected_body m res)).
Proof.
  intros suppress Hs Hcl Hmax Hlen Hhead. unfold parse_response, serialize_response. rewrite <-app_assoc, parse_server_head by done.
  cbn [mbind result_bind fst snd]. rewrite drop_app_length. subst suppress. rewrite client_reads_body by done. cbn [mbind result_bind].
  assert ((max_body_bytes <? Z.of_nat (length (expected_body m res))) = false) as ->.
  { apply Z.ltb_ge. unfold expected_body. destruct (response_must_not_have_body _ _); cbn; lia. }
  apply build_response_ok, Hs.
Qed.

Lemma client_reads_buffered_response_witness :
  parse_response m_get (serialize_response (error_response 404) false default_options false ++ lit "HTTP/1.1") 300 100 =
  Ok (received_response 404 (head_fields (error_response 404) false default_options false false) (expected_body m_get (error_response 404))).
Proof.
  refine (client_reads_buffered_response m_get (error_response 404) false default_options (lit "HTTP/1.1") 300 100 _ _ _ _ _).
  - split; [vm_compute; split; intros H; discriminate H|]. vm_compute. constructor; [|constructor].
    split; [|reflexivity]. split; [discriminate|]. split; [repeat constructor|]. split; [repeat constructor|reflexivity].
  - reflexivity.
  - vm_compute. intros H. discriminate H.
  - reflexivity.
  - vm_compute. intros H. discriminate H.
Defined.

(** A streamed response. *)
Lemma client_reads_streamed m res keep_alive options payloads max_header_bytes max_body_bytes :
  client_sendable res → response_must_not_have_body m (status_code res) = false → Forall chunk_ok payloads →
  Z.of_nat (length (concat payloads)) ≤ max_body_bytes →
  Z.of_nat (length (serialize_response_head res keep_alive options true false)) ≤ max_header_bytes →
  parse_response m (serialize_response_head res keep_alive options true false ++ flat_map serialize_chunk payloads ++ last_chunk)
    max_header_bytes max_body_bytes =
  Ok (received_response (status_code res) (head_fields res keep_alive options true false) (concat payloads)).
Proof.
  intros Hs Hb Hp Hmax Hhead. unfold parse_response. rewrite parse_server_head by done. cbn [mbind result_bind fst snd].
  rewrite drop_app_length. unfold response_body_of. cbn [rh_status_code rh_headers]. rewrite Hb, chunked_server, decode_chunked_ok by done.
  cbn [mbind result_bind]. assert ((max_body_bytes <? Z.of_nat (length (concat payloads))) = false) as -> by (apply Z.ltb_ge; lia).
  apply build_response_ok, Hs.
Qed.

(** ** What the parsers throw *)

(** [chunk_size + 2] wraps: the check passes and [encoded.substr] throws. *)
Lemma decode_chunked_wraps : decode_chunked (lit "ffffffff" ++ crlf ++ lit "ab" ++ crlf) = Err (fail_throw exn_out_of_range).
Proof. vm_compute. reflexivity. Qed.

(** A status below 100 passes the parser of the head, and [status] throws. *)
Lemma small_status_throws :
  parse_response m_get (lit "HTTP/1.1 099 x" ++ crlf2) 100 100 = Err (fail_throw (exn_response exn_status_range)).
Proof. vm_compute. reflexivity. Qed.

(** Of two fields of one name the last is left. *)
Lemma repeated_field_collapses :
  match parse_response m_get (lit "HTTP/1.1 204 x" ++ crlf ++ lit "set-cookie: a" ++ crlf ++ lit "set-cookie: b" ++ crlf2) 100 100 with
  | Ok r => rs_headers r = [(lit "set-cookie", lit "b")]
  | Err _ => False
  end.
Proof. vm_compute. reflexivity. Qed.
