(* ===== verification/WsUpgrade.v ===== *)
(** * Upgrading to a WebSocket

    [accept], [accept_detached], [accept_byte_stream] and the class [session] of
    [src/websocket/session.cpp], with [upgrade_request] of
    [src/http/upgrade.cpp].  Sessions are numbered in the order in which they
    were accepted; a handle of class [session] holds the number of one or none,
    and so does a byte stream made of one.  What the server does with an accepted
    upgrade later, when the response was written, is an input; what a callback of
    a session does to handles is left out. *)

From S2P Require Import Prelude Text Http Multipart Http1 Response ServerWire ServerWireSpec ClientWire ClientWireSpec.
From S2P Require Import RoutePath Router ServerState ServerSession.
From S2P Require Import Request WsFrame WsHandshake WsSession WsTheory WsSpec WsStream.

Open Scope Z_scope.

(** ** Options *)

Record upgrade_options := UpgradeOptions { session_options : accept_options; subprotocol : str }.

Definition default_upgrade_options : upgrade_options := UpgradeOptions (AcceptOptions (1024 * 1024) (1024 * 1024) 5000 true) [].

Definition on_session_options (f : accept_options → accept_options) (o : upgrade_options) : upgrade_options :=
  UpgradeOptions (f (session_options o)) (subprotocol o).

Definition set_max_message_bytes (value : nat) : upgrade_options → upgrade_options :=
  on_session_options (λ s, AcceptOptions (Z.of_nat value) (max_pending_write_bytes s) (close_timeout s) (auto_pong s)).
Definition set_max_pending_write_bytes (value : nat) : upgrade_options → upgrade_options :=
  on_session_options (λ s, AcceptOptions (max_message_bytes s) (Z.of_nat value) (close_timeout s) (auto_pong s)).
Definition set_close_timeout (value : Z) (o : upgrade_options) : result str upgrade_options :=
  if value <=? 0 then Err (lit "close_timeout must be greater than zero")
  else Ok (on_session_options (λ s, AcceptOptions (max_message_bytes s) (max_pending_write_bytes s) value (auto_pong s)) o).
Definition set_subprotocol (value : str) (o : upgrade_options) : upgrade_options := UpgradeOptions (session_options o) value.
Definition set_auto_pong (value : bool) : upgrade_options → upgrade_options :=
  on_session_options (λ s, AcceptOptions (max_message_bytes s) (max_pending_write_bytes s) (close_timeout s) value).

(** ** Requests, sessions and handles *)

(** A default constructed request has nobody to accept it. *)
Record upgrade_request := UpgradeRequest { ur_request : request; ur_extra_bytes : bytes; ur_accept : bool }.

Definition upgrade_header (r : upgrade_request) (name : str) : str := headers_get (rq_headers (ur_request r)) name.

(** What the callback of an accepted upgrade does with the stream. *)
Inductive on_accept := then_close | then_start (session : nat) (extra_bytes : bytes) (detached : bool).

Record handle := Handle { state_ : option nat; owns_lifetime_ : bool }.

Record world := World {
  accepts : list (str * on_accept);
  sessions : list ws;
  handles : list handle;
  streams : list nat
}.

Definition no_world : world := World [] [] [] [].
Definition no_handle : handle := Handle None false.

Definition upgrade_accept (r : upgrade_request) (response : str) (callback : on_accept) (w : world) : world :=
  if ur_accept r then World (accepts w ++ [(response, callback)]) (sessions w) (handles w) (streams w) else w.

Definition reject (r : upgrade_request) (response : str) (w : world) : world := upgrade_accept r response then_close w.

Definition bad_request_response : str :=
  lit "HTTP/1.1 400 Bad Request" ++ WsHandshake.crlf ++ lit "connection: close" ++ WsHandshake.crlf ++
  lit "content-length: 12" ++ WsHandshake.crlf ++ WsHandshake.crlf ++ lit "bad request" ++ ["010"%char].

Definition add_handle (h : handle) (w : world) : world := World (accepts w) (sessions w) (handles w ++ [h]) (streams w).
Definition set_handle (k : nat) (h : handle) (w : world) : world :=
  World (accepts w) (sessions w) (<[k := h]> (handles w)) (streams w).
Definition get_handle (k : nat) (w : world) : handle := default no_handle (handles w !! k).
Definition add_session (o : accept_options) (w : world) : world :=
  World (accepts w) (sessions w ++ [init o]) (handles w) (streams w).
Definition add_stream (id : nat) (w : world) : world := World (accepts w) (sessions w) (handles w) (streams w ++ [id]).

Section operations.
Context (sha1 : str → bytes) (user : nat → list effect → ws_event → list cmd) (depth : nat).

Definition run_session (id : nat) (i : ws_input) (w : world) : world :=
  World (accepts w) (alter (λ s, ws_step (user id) depth s i) id (sessions w)) (handles w) (streams w).

(** [accept] and [accept_detached]; the handle that is returned is the last one. *)
Definition accept_as (detached : bool) (r : upgrade_request) (o : upgrade_options) (w : world) : world :=
  if negb (valid_handshake (rq_method (ur_request r)) (rq_headers (ur_request r)))
  then add_handle no_handle (reject r bad_request_response w)
  else
    let id := length (sessions w) in
    let w := add_handle (Handle (Some id) (negb detached)) (add_session (session_options o) w) in
    upgrade_accept r (handshake_response sha1 (rq_headers (ur_request r)) (subprotocol o)) (then_start id (ur_extra_bytes r) detached) w.

Definition accept : upgrade_request → upgrade_options → world → world := accept_as false.
Definition accept_detached : upgrade_request → upgrade_options → world → world := accept_as true.

Definition release_owned (k : nat) (w : world) : world :=
  match get_handle k w with
  | Handle (Some id) true => run_session id (in_call cmd_release) (set_handle k (Handle (Some id) false) w)
  | _ => w
  end.

Definition into_byte_stream (k : nat) (w : world) : world :=
  match get_handle k w with
  | Handle None _ => w
  | Handle (Some id) _ => add_stream id (set_handle k no_handle (run_session id (in_call cmd_into_byte_stream) w))
  end.

Definition accept_byte_stream (r : upgrade_request) (o : upgrade_options) (w : world) : world :=
  let w := accept r o w in into_byte_stream (length (handles w) - 1) w.

(** The move constructor and the move assignment. *)
Definition move_construct (from : nat) (w : world) : world := add_handle (get_handle from w) (set_handle from no_handle w).

Definition move_assign (to from : nat) (w : world) : world :=
  if (to =? from)%nat then w
  else
    let w := release_owned to w in
    set_handle from no_handle (set_handle to (get_handle from w) w).

(** The destructor. *)
Definition destroy (k : nat) (w : world) : world := set_handle k no_handle (release_owned k w).

(** The methods of [session] that need a state. *)
Definition handle_cmd (c : cmd) : bool := match c with cmd_send _ _ | cmd_close _ _ => true | _ => false end.
Definition call_handle (k : nat) (c : cmd) (w : world) : world :=
  match get_handle k w with
  | Handle (Some id) _ => if handle_cmd c then run_session id (in_call c) w else w
  | _ => w
  end.

(** [operator bool]. *)
Definition is_open (k : nat) (w : world) : bool :=
  match state_ (get_handle k w) with Some id => from_option (λ s, negb (is_closed s)) false (sessions w !! id) | None => false end.

Definition stream_cmd (c : cmd) : bool :=
  match c with cmd_byte_read_start | cmd_byte_read_stop | cmd_byte_write _ _ | cmd_byte_close _ => true | _ => false end.
Definition call_stream (k : nat) (c : cmd) (w : world) : world :=
  match streams w !! k with Some id => if stream_cmd c then run_session id (in_call c) w else w | None => w end.

(** The server hands the stream over, after the response was written. *)
Definition on_upgraded (k : nat) (w : world) : world :=
  match accepts w !! k with
  | Some (_, then_start id extra detached) => run_session id (in_start extra detached) w
  | _ => w
  end.

Inductive upgrade_op :=
| op_accept (r : upgrade_request) (o : upgrade_options)
| op_accept_detached (r : upgrade_request) (o : upgrade_options)
| op_accept_byte_stream (r : upgrade_request) (o : upgrade_options)
| op_move (from : nat)
| op_assign (to from : nat)
| op_destroy (k : nat)
| op_into_byte_stream (k : nat)
| op_call_handle (k : nat) (c : cmd)
| op_call_stream (k : nat) (c : cmd)
| op_upgraded (k : nat)
| op_session (id : nat) (i : ws_input).

(** Inputs of a session from its stream and its timer. *)
Definition from_outside (i : ws_input) : bool := match i with in_start _ _ | in_call _ => false | _ => true end.

Definition upgrade_step (w : world) (op : upgrade_op) : world :=
  match op with
  | op_accept r o => accept r o w
  | op_accept_detached r o => accept_detached r o w
  | op_accept_byte_stream r o => accept_byte_stream r o w
  | op_move from => if (from <? length (handles w))%nat then move_construct from w else w
  | op_assign to from => if (to <? length (handles w))%nat && (from <? length (handles w))%nat then move_assign to from w else w
  | op_destroy k => destroy k w
  | op_into_byte_stream k => into_byte_stream k w
  | op_call_handle k c => call_handle k c w
  | op_call_stream k c => call_stream k c w
  | op_upgraded k => on_upgraded k w
  | op_session id i => if from_outside i then run_session id i w else w
  end.

Definition run_upgrades (ops : list upgrade_op) : world := foldl upgrade_step no_world ops.
End operations.

(** ** A closed session stays closed *)

Section closed.
Context (user : list effect → ws_event → list cmd).

Lemma run_cmd_closed em s c : (∀ e s, is_closed s = true → is_closed (em e s) = true) → is_closed s = true → is_closed (run_cmd em s c) = true.
Proof.
  intros Hem H. destruct c; cbn [run_cmd]; unfold send_frame, close, close_transport; rewrite ?H; try done; unfold notify_written; auto.
Qed.

Lemma emit_closed depth e s : is_closed s = true → is_closed (emit user depth e s) = true.
Proof.
  revert e s. induction depth as [|depth IH]; intros e s H; cbn [emit]; [done|].
  generalize (user (history (record (eff_event e) s)) e). intros cs. assert (H' : is_closed (record (eff_event e) s) = true) by done.
  revert H'. generalize (record (eff_event e) s). induction cs as [|c cs IHcs]; intros s' H'; cbn [foldl]; [done|].
  apply IHcs. apply run_cmd_closed; [|done]. intros e' s''. apply IH.
Qed.

Lemma step_closed depth s i : is_closed s = true → is_closed (ws_step user depth s i) = true.
Proof.
  intros H. pose proof (emit_closed depth) as Hem. destruct i; cbn [ws_step].
  - unfold start. by rewrite H.
  - unfold on_read. by rewrite H.
  - unfold on_write. unfold is_closed in *. cbn. by rewrite H.
  - unfold on_close_timeout. unfold is_closed in H. by rewrite H.
  - unfold on_stream_closed. rewrite is_closed_timer_handle. destruct (stream_on_close _); [apply Hem|]; exact H.
  - by apply run_cmd_closed.
Qed.

Lemma release_closes depth s : is_closed (ws_step user depth s (in_call cmd_release)) = true.
Proof.
  cbn [ws_step run_cmd]. unfold close_transport. destruct (is_closed s) eqn:E; [done|].
  assert (Hs : is_closed (shut None s) = true) by (unfold shut, is_closed; cbn; by destruct (stream s)).
  destruct (stream (shut None s)); [done|]. by rewrite is_closed_timer_handle.
Qed.
End closed.

(** ** Who holds a session *)

(** The sessions that handles and streams hold. *)
Definition held (w : world) : list nat := omap state_ (handles w) ++ streams w.

Definition session_closed (id : nat) (w : world) : Prop := ∃ s, sessions w !! id = Some s ∧ is_closed s = true.

(** What is held but for the handle [k]. *)
Definition others (k : nat) (w : world) : list nat := omap state_ (take k (handles w)) ++ omap state_ (drop (S k) (handles w)) ++ streams w.

Lemma omap_middle (l1 l2 : list handle) h :
  omap state_ (l1 ++ h :: l2) ≡ₚ option_list (state_ h) ++ omap state_ l1 ++ omap state_ l2.
Proof. rewrite omap_app. cbn. destruct (state_ h); cbn; [by rewrite Permutation_middle|done]. Qed.

Lemma held_handle k w h : handles w !! k = Some h → held w ≡ₚ option_list (state_ h) ++ others k w.
Proof.
  intros H. unfold held, others. rewrite <-(take_drop_middle _ _ _ H) at 1. by rewrite omap_middle, <-!app_assoc.
Qed.

Lemma held_set k h w : (k < length (handles w))%nat → held (set_handle k h w) ≡ₚ option_list (state_ h) ++ others k w.
Proof.
  intros H. unfold held, others, set_handle. cbn [handles streams]. rewrite insert_take_drop by done. by rewrite omap_middle, <-!app_assoc.
Qed.

(** A session that somebody owns, that is a byte stream, or that is closed. *)
Definition kept (id : nat) (w : world) : Prop :=
  Handle (Some id) true ∈ handles w ∨ id ∈ streams w ∨ session_closed id w.

(** Changes that give no session a second holder and leave none behind. *)
Record evolves (w w' : world) : Prop := {
  ev_held : held w' ⊆+ held w;
  ev_accepts : accepts w' = accepts w;
  ev_length : length (sessions w') = length (sessions w);
  ev_kept : ∀ id, kept id w → kept id w'
}.

#[export] Instance evolves_preorder : PreOrder evolves.
Proof.
  split; [by constructor|]. intros w1 w2 w3 [? ? ? ?] [? ? ? ?]. constructor; [by etransitivity|congruence|congruence|auto].
Qed.

Definition owner (h : handle) : bool := match h with Handle (Some _) true => true | _ => false end.

Lemma kept_handles id w w' :
  (Handle (Some id) true ∈ handles w → kept id w') → streams w' = streams w → sessions w' = sessions w → kept id w → kept id w'.
Proof. intros Hh Es Ew [H|[H|H]]; [auto|right; left; by rewrite Es|]. right; right. destruct H as (s & Hs & Hc). exists s. by rewrite Ew. Qed.

(** Setting the handle [k] keeps what the other handles own. *)
Lemma owned_set k h id w :
  Handle (Some id) true ∈ handles w → owner (get_handle k w) = false → Handle (Some id) true ∈ handles (set_handle k h w).
Proof.
  intros [j Hj]%list_elem_of_lookup Hk. apply list_elem_of_lookup. exists j. cbn [handles set_handle].
  rewrite list_lookup_insert_ne; [done|]. intros ->. unfold get_handle in Hk. by rewrite Hj in Hk.
Qed.

Lemma get_handle_lt k w id b : get_handle k w = Handle (Some id) b → handles w !! k = Some (Handle (Some id) b) ∧ (k < length (handles w))%nat.
Proof.
  unfold get_handle. destruct (handles w !! k) as [h|] eqn:E; cbn; [|done]. intros ->. split; [done|]. by eapply lookup_lt_Some.
Qed.

Section runs.
Context (sha1 : str → bytes) (user : nat → list effect → ws_event → list cmd) (depth : nat).

Lemma closed_after id id' i w : session_closed id w → session_closed id (run_session user depth id' i w).
Proof.
  intros (s & Hs & Hc). unfold session_closed, run_session. cbn [sessions]. destruct (decide (id = id')) as [<-|Hne].
  - exists (ws_step (user id) depth s i). rewrite list_lookup_alter_eq, Hs. split; [done|]. by apply step_closed.
  - exists s. by rewrite list_lookup_alter_ne by congruence.
Qed.

Lemma evolves_session id i w : evolves w (run_session user depth id i w).
Proof.
  constructor; [done|done|by cbn; rewrite length_alter|]. intros id' [H|[H|H]]; [by left|by right; left|]. right; right. by apply closed_after.
Qed.

Lemma evolves_drop k w : owner (get_handle k w) = false → evolves w (set_handle k no_handle w).
Proof.
  intros Hk. constructor; [|done|done|].
  - destruct (decide (k < length (handles w))%nat) as [Hlt|Hge].
    + destruct (lookup_lt_is_Some_2 _ _ Hlt) as [h Hh]. rewrite held_set, (held_handle _ _ _ Hh) by done. apply submseteq_inserts_l. done.
    + unfold held, set_handle. cbn [handles streams]. by rewrite list_insert_ge by lia.
  - intros id. apply kept_handles; [|done|done]. intros H. left. by apply owned_set.
Qed.

Lemma evolves_release k w : Forall (λ id, id < length (sessions w))%nat (held w) → evolves w (release_owned user depth k w).
Proof.
  intros Hids. unfold release_owned. destruct (get_handle k w) as [[id|] [|]] eqn:Ek; try reflexivity.
  destruct (get_handle_lt _ _ _ _ Ek) as [Hk Hlt].
  assert (Hid : (id < length (sessions w))%nat).
  { rewrite Forall_forall in Hids. apply Hids. rewrite (held_handle _ _ _ Hk). cbn. left. }
  constructor; [|done|by cbn; rewrite length_alter|].
  - change (held (run_session _ _ _ _ ?w')) with (held w'). by rewrite held_set, (held_handle _ _ _ Hk).
  - intros id' H. destruct (decide (id' = id)) as [->|Hne].
    + right; right. destruct (lookup_lt_is_Some_2 _ _ Hid) as [s Hs]. exists (ws_step (user id) depth s (in_call cmd_release)).
      split; [cbn [sessions run_session set_handle]; by rewrite list_lookup_alter_eq, Hs|apply release_closes].
    + apply (ev_kept _ _ (evolves_session id (in_call cmd_release) _)). revert H. apply kept_handles; [|done|done].
      intros [j Hj]%list_elem_of_lookup. left. apply list_elem_of_lookup. exists j. cbn [handles set_handle].
      rewrite list_lookup_insert_ne; [done|]. intros ->. congruence.
Qed.

Lemma length_release k w : length (handles (release_owned user depth k w)) = length (handles w).
Proof. unfold release_owned. destruct (get_handle k w) as [[id|] [|]]; cbn; by rewrite ?length_insert. Qed.

Lemma released k w : owner (get_handle k (release_owned user depth k w)) = false.
Proof.
  unfold release_owned. destruct (get_handle k w) as [[id|] [|]] eqn:Ek; try by rewrite Ek.
  destruct (get_handle_lt _ _ _ _ Ek) as [_ Hlt]. unfold get_handle. cbn [handles run_session set_handle]. by rewrite list_lookup_insert_eq.
Qed.
Lemma evolves_move from w : (from < length (handles w))%nat → evolves w (move_construct from w).
Proof.
  intros Hlt. destruct (lookup_lt_is_Some_2 _ _ Hlt) as [h Hh]. constructor; [|done|done|].
  - rewrite (held_handle _ _ _ Hh). unfold held, move_construct, get_handle. rewrite Hh. cbn [handles add_handle set_handle streams default].
    rewrite omap_app, <-app_assoc, (Permutation_app_comm (omap _ [_])), app_assoc.
    pose proof (held_set from no_handle w Hlt) as E. unfold held, set_handle in E. cbn [handles streams state_ no_handle option_list app] in E.
    rewrite E, Permutation_app_comm. apply submseteq_app; [|done]. cbn. by destruct (state_ h).
  - intros id. apply kept_handles; [|done|done]. intros [j Hj]%list_elem_of_lookup. left. cbn [handles move_construct add_handle set_handle].
    apply elem_of_app. destruct (decide (j = from)) as [->|Hne].
    + right. unfold get_handle. rewrite Hj. by apply list_elem_of_singleton.
    + left. apply list_elem_of_lookup. exists j. by rewrite list_lookup_insert_ne.
Qed.

(** Moving into a handle that owns nothing. *)
Lemma evolves_into to from w :
  to ≠ from → (to < length (handles w))%nat → (from < length (handles w))%nat → owner (get_handle to w) = false →
  evolves w (set_handle from no_handle (set_handle to (get_handle from w) w)).
Proof.
  intros Hne Hto Hfrom Hown. destruct (lookup_lt_is_Some_2 _ _ Hfrom) as [h Hh]. destruct (lookup_lt_is_Some_2 _ _ Hto) as [h0 Hh0].
  assert (Eh : get_handle from w = h) by (unfold get_handle; by rewrite Hh). rewrite Eh. constructor; [|done|done|].
  - assert (E1 : held (set_handle to h w) ≡ₚ option_list (state_ h) ++ others to w) by by apply held_set.
    assert (Hh' : handles (set_handle to h w) !! from = Some h) by (cbn [handles set_handle]; by rewrite list_lookup_insert_ne).
    pose proof (held_handle _ _ _ Hh') as E2. rewrite held_set by (cbn [handles set_handle]; by rewrite length_insert).
    cbn [state_ no_handle option_list app]. rewrite E2 in E1. apply Permutation_app_inv_l in E1. rewrite E1, (held_handle _ _ _ Hh0).
    by apply submseteq_inserts_l.
  - intros id. apply kept_handles; [|done|done]. intros [j Hj]%list_elem_of_lookup. left. apply list_elem_of_lookup. cbn [handles set_handle].
    destruct (decide (j = from)) as [->|Hjf].
    + exists to. rewrite list_lookup_insert_ne by congruence. rewrite list_lookup_insert_eq by done. congruence.
    + exists j. rewrite list_lookup_insert_ne by congruence. destruct (decide (j = to)) as [->|Hjt].
      * unfold get_handle in Hown. by rewrite Hj in Hown.
      * by rewrite list_lookup_insert_ne by congruence.
Qed.

Lemma evolves_stream k w : evolves w (into_byte_stream user depth k w).
Proof.
  unfold into_byte_stream. destruct (get_handle k w) as [[id|] b] eqn:Ek; [|reflexivity].
  destruct (get_handle_lt _ _ _ _ Ek) as [Hk Hlt]. etransitivity; [apply (evolves_session id (in_call cmd_into_byte_stream))|].
  set (w1 := run_session _ _ _ _ _). assert (Hk1 : handles w1 !! k = Some (Handle (Some id) b)) by done. constructor; [|done|done|].
  - rewrite (held_handle _ _ _ Hk1). unfold held, add_stream. cbn [handles streams].
    pose proof (held_set k no_handle w1 Hlt) as E. unfold held in E. cbn [state_ no_handle option_list app] in E.
    rewrite app_assoc, E. by rewrite Permutation_app_comm.
  - intros id' [H|[H|H]]; [|right; left; cbn; apply elem_of_app; by left|by right; right].
    apply list_elem_of_lookup in H as [j Hj]. destruct (decide (j = k)) as [->|Hne].
    + right; left. rewrite Hk1 in Hj. injection Hj as <- _. cbn. apply elem_of_app. right. by apply list_elem_of_singleton.
    + left. apply list_elem_of_lookup. exists j. cbn [handles add_stream set_handle]. by rewrite list_lookup_insert_ne.
Qed.
Record upgrade_inv (w : world) : Prop := {
  ui_unique : NoDup (held w);
  ui_known : Forall (λ id, id < length (sessions w))%nat (held w);
  ui_accepted : ∀ k r id extra d, accepts w !! k = Some (r, then_start id extra d) → (id < length (sessions w))%nat;
  ui_owned : ∀ k r id extra, accepts w !! k = Some (r, then_start id extra false) → kept id w
}.

Lemma inv_evolves w w' : upgrade_inv w → evolves w w' → upgrade_inv w'.
Proof.
  intros [H1 H2 H3 H4] [E1 E2 E3 E4]. constructor; rewrite ?E2, ?E3; [| |done|eauto].
  - apply submseteq_Permutation in E1 as [l E]. rewrite E in H1. by apply NoDup_app in H1 as [H1 _].
  - apply submseteq_Permutation in E1 as [l E]. rewrite E in H2. by apply Forall_app in H2 as [H2 _].
Qed.

(** What waits to be accepted changes nothing for the sessions. *)
Lemma inv_accept r response w (id : nat) extra d :
  upgrade_inv w → (id < length (sessions w))%nat → (d = false → kept id w) → upgrade_inv (upgrade_accept r response (then_start id extra d) w).
Proof.
  intros [H1 H2 H3 H4] Hid Hk. unfold upgrade_accept. destruct (ur_accept r); [|by constructor]. constructor; [done|done| |].
  - intros k r' id' extra' d' [H|[_ H]]%lookup_app_Some; [by eapply H3|]. apply list_lookup_singleton_Some in H as [_ H]. by injection H as <- <- <- <-.
  - intros k r' id' extra' [H|[_ H]]%lookup_app_Some; [by eapply H4 in H|]. apply list_lookup_singleton_Some in H as [_ H]. injection H as <- <- <- ->. by apply Hk.
Qed.

Lemma inv_reject r response w : upgrade_inv w → upgrade_inv (reject r response w).
Proof.
  intros [H1 H2 H3 H4]. unfold reject, upgrade_accept. destruct (ur_accept r); [|by constructor]. constructor; [done|done| |].
  - intros k r' id' extra' d' [H|[_ H]]%lookup_app_Some; [by eapply H3|]. by apply list_lookup_singleton_Some in H as [_ H].
  - intros k r' id' extra' [H|[_ H]]%lookup_app_Some; [by eapply H4 in H|]. by apply list_lookup_singleton_Some in H as [_ H].
Qed.

Lemma inv_empty_handle w : upgrade_inv w → upgrade_inv (add_handle no_handle w).
Proof.
  intros H. apply (inv_evolves w); [done|]. constructor; [|done|done|].
  - unfold held, add_handle. cbn [handles streams]. rewrite omap_app. cbn. by rewrite app_nil_r.
  - intros id. apply kept_handles; [|done|done]. intros Hh. left. cbn. apply elem_of_app. by left.
Qed.

Lemma inv_new_session o b w :
  upgrade_inv w → upgrade_inv (add_handle (Handle (Some (length (sessions w))) b) (add_session o w)).
Proof.
  intros [H1 H2 H3 H4]. set (w' := add_handle _ _).
  assert (Eh : held w' ≡ₚ length (sessions w) :: held w).
  { unfold held, w'. cbn [handles streams add_handle add_session]. rewrite omap_app. cbn. by rewrite <-app_assoc, Permutation_middle. }
  assert (El : length (sessions w') = S (length (sessions w))) by (cbn; rewrite length_app; cbn; lia). constructor; rewrite ?El, ?Eh.
  - constructor; [|done]. intros Hin. rewrite Forall_forall in H2. apply H2 in Hin. lia.
  - constructor; [lia|]. eapply Forall_impl; [exact H2|]. cbn. lia.
  - intros k r id extra d H. apply H3 in H. lia.
  - intros k r id extra H. destruct (H4 _ _ _ _ H) as [Hh|[Hs|(s & Hs & Hc)]].
    + left. cbn. apply elem_of_app. by left.
    + by right; left.
    + right; right. exists s. split; [|done]. cbn. by apply lookup_app_l_Some.
Qed.

Lemma inv_accept_as d r o w : upgrade_inv w → upgrade_inv (accept_as sha1 d r o w).
Proof.
  intros H. unfold accept_as. destruct (negb _); [by apply inv_empty_handle, inv_reject|].
  apply inv_accept; [by apply inv_new_session|cbn; rewrite length_app; cbn; lia|]. intros ->. left. cbn. apply elem_of_app. right.
  by apply list_elem_of_singleton.
Qed.

Lemma upgrade_step_inv w op : upgrade_inv w → upgrade_inv (upgrade_step sha1 user depth w op).
Proof.
  intros H. destruct op as [r o|r o|r o|from|to from|k|k|k c|k c|k|id i]; cbn [upgrade_step].
  - by apply inv_accept_as.
  - by apply inv_accept_as.
  - unfold accept_byte_stream. eapply inv_evolves; [by apply inv_accept_as|apply evolves_stream].
  - destruct (Nat.ltb_spec from (length (handles w))); [|done]. eapply inv_evolves; [done|by apply evolves_move].
  - destruct (Nat.ltb_spec to (length (handles w))) as [Hto|]; cbn [andb]; [|done].
    destruct (Nat.ltb_spec from (length (handles w))) as [Hfrom|]; [|done]. unfold move_assign.
    destruct (Nat.eqb_spec to from); [done|]. pose proof (evolves_release to w (ui_known _ H)) as Hr.
    eapply inv_evolves; [by eapply inv_evolves|]. apply evolves_into; [done| | |apply released]; by rewrite length_release.
  - unfold destroy. eapply inv_evolves; [eapply inv_evolves; [done|by apply evolves_release, ui_known]|]. apply evolves_drop, released.
  - eapply inv_evolves; [done|apply evolves_stream].
  - unfold call_handle. destruct (get_handle k w) as [[id|] b]; [|done]. destruct (handle_cmd c); [|done].
    eapply inv_evolves; [done|apply evolves_session].
  - unfold call_stream. destruct (streams w !! k); [|done]. destruct (stream_cmd c); [|done]. eapply inv_evolves; [done|apply evolves_session].
  - unfold on_upgraded. destruct (accepts w !! k) as [[r [|id extra d]]|]; try done. eapply inv_evolves; [done|apply evolves_session].
  - destruct (from_outside i); [|done]. eapply inv_evolves; [done|apply evolves_session].
Qed.

Lemma run_upgrades_inv ops : upgrade_inv (run_upgrades sha1 user depth ops).
Proof.
  unfold run_upgrades. assert (H : upgrade_inv no_world) by (constructor; [constructor|constructor|done|done]). revert H. generalize no_world.
  induction ops as [|op ops IH]; intros w H; cbn [foldl]; [done|]. by apply IH, upgrade_step_inv.
Qed.
End runs.

(** A session has one holder besides the handles that its callbacks are given: a
    handle or a byte stream, never two, however handles are moved.  One that was accepted with [accept] lives as long as its
    handle: while it is open a handle owns it, or it was made a byte stream. *)
Theorem session_has_one_holder sha1 user (depth : nat) (ops : list upgrade_op) :
  let w := run_upgrades sha1 user depth ops in
  NoDup (held w) ∧
  ∀ k response id extra, accepts w !! k = Some (response, then_start id extra false) →
    Handle (Some id) true ∈ handles w ∨ id ∈ streams w ∨ ∃ s, sessions w !! id = Some s ∧ is_closed s = true.
Proof. intros w. destruct (run_upgrades_inv sha1 user depth ops) as [H1 _ _ H4]. split; [done|]. intros k r id extra H. exact (H4 _ _ _ _ H). Qed.

(** ** What a client reads *)

Lemma base64_char_clean (p : ascii → bool) n : none_of p base64_alphabet → p "="%char = false → p (base64_char n) = false.
Proof.
  intros Ha He. unfold base64_char. destruct (nth_in_or_default (Z.to_nat n) base64_alphabet "="%char) as [H| ->]; [|done].
  unfold none_of in Ha. rewrite Forall_forall in Ha. by apply Ha, list_elem_of_In.
Qed.

Lemma base64_clean (p : ascii → bool) bs : none_of p base64_alphabet → p "="%char = false → none_of p (base64 bs).
Proof.
  intros Ha He. assert (Hg : ∀ b0 b1 b2 h1 h2, none_of p (base64_group b0 b1 b2 h1 h2)).
  { intros. unfold base64_group. destruct h1, h2; repeat constructor; (done || by apply base64_char_clean). }
  induction bs as [| |b0 b1|b0 b1 b2 bs IH] using list_three_ind; cbn [base64]; [constructor|apply Hg|apply Hg|]. apply Forall_app_2; [apply Hg|exact IH].
Qed.

Lemma drop_spaces_none s : none_of (is_char " ") s → drop_spaces s = s.
Proof. by destruct 1 as [|c s Hc _]; [|cbn; rewrite Hc]. Qed.

Lemma field_clean n v :
  none_of (λ c, is_char ":" c || line_byte c) n → n ≠ [] → none_of line_byte v → drop_spaces v = v → client_trim v = v → client_field_ok (n, v).
Proof. by repeat split. Qed.

(** The fields of the response to a handshake. *)
Definition handshake_fields (sha1 : str → bytes) (key protocol : str) : headers :=
  [(lit "upgrade", lit "websocket"); (lit "connection", lit "Upgrade"); (lit "sec-websocket-accept", websocket_accept_value sha1 key)] ++
  (if bool_decide (protocol = []) then [] else [(lit "sec-websocket-protocol", protocol)]).

Definition switching : str := lit "Switching Protocols".

Lemma handshake_response_text sha1 hs protocol :
  handshake_response sha1 hs protocol =
  response_line 101 switching ++ eol ++ fields_text (handshake_fields sha1 (WsHandshake.trim (headers_get hs (lit "sec-websocket-key"))) protocol) ++ eol.
Proof.
  unfold handshake_response, handshake_fields. set (value := websocket_accept_value _ _). unfold fields_text. rewrite flat_map_app.
  cbn [flat_map]. unfold field_line. cbn [fst snd]. destruct (bool_decide (protocol = [])); cbn [flat_map fst snd app]; rewrite <-!app_assoc; reflexivity.
Qed.

(** A client that reads the response to its handshake finds the status 101, the
    two fields that switch the protocol, the digest of its key in Base64, and
    the subprotocol if one was chosen. *)
Theorem handshake_read_back (sha1 : str → bytes) (hs : headers) (protocol rest : str) (max_header_bytes : Z) :
  (∀ s, Forall byte_ok (sha1 s)) → client_field_ok (lit "sec-websocket-protocol", protocol) →
  let key := WsHandshake.trim (headers_get hs (lit "sec-websocket-key")) in
  let text := handshake_response sha1 hs protocol in
  Z.of_nat (length text) ≤ max_header_bytes →
  parse_response_head (text ++ rest) max_header_bytes = Ok (ResponseHead 101 (handshake_fields sha1 key protocol), length text) ∧
  base64_decode (headers_get (handshake_fields sha1 key protocol) (lit "sec-websocket-accept")) = Some (sha1 (key ++ websocket_guid)).
Proof.
  intros Hsha Hp key text Hmax. split.
  - unfold text. rewrite handshake_response_text. apply parse_head_lines; [lia|by repeat constructor| |].
    + assert (Hv : ∀ p, none_of p base64_alphabet → p "="%char = false → none_of p (websocket_accept_value sha1 key)) by (intros p; apply base64_clean).
      unfold handshake_fields. apply Forall_app_2.
      * constructor; [by apply field_clean; repeat constructor|]. constructor; [by apply field_clean; repeat constructor|].
        constructor; [|constructor]. apply field_clean; [by repeat constructor|done| | |].
        -- apply Hv; [by repeat constructor|done].
        -- apply drop_spaces_none, Hv; [by repeat constructor|done].
        -- apply client_trim_none, Hv; [by repeat constructor|done].
      * destruct (bool_decide _); [constructor|by constructor].
    + by rewrite <-handshake_response_text.
  - change (headers_get _ _) with (websocket_accept_value sha1 key). unfold websocket_accept_value. by apply base64_roundtrip.
Qed.

(** ** A small server with a WebSocket

    The server of [ServerSession] has an upgrade route whose handler calls
    [accept]; a client sends its handshake and, without waiting, a first frame. *)
Module Chat.
Definition sha1 (s : str) : bytes := repeat 0 20.

Definition config : server_config :=
  ServerConfig default_options (Limits 8000 100) (empty_router matching_raw) [parse_route_path (lit "/ws")] None None.

Definition handler (e : session_event) : list user_cmd :=
  match e with
  | se_upgrade _ r _ => [u_accept (handshake_response sha1 (rq_headers (sr_request r)) [])]
  | _ => []
  end.

Definition field (name value : string) : list callback := [cb_header_field (lit name); cb_header_value (lit value)].

(** The callbacks of llhttp for the handshake, which end at the frame. *)
Definition handshake : list callback :=
  [cb_message_begin; cb_url (lit "/ws")] ++ field "upgrade" "websocket" ++ field "connection" "Upgrade" ++
  field "sec-websocket-version" "13" ++ field "sec-websocket-key" "dGhlIHNhbXBsZSBub25jZQ==" ++ [cb_headers_complete HTTP_GET 1 1].

Definition first_frame : bytes := client_frame true op_text Sample.mask [104; 105].
Definition received : str := lit "handshake" ++ map (λ b, ascii_of_N (Z.to_N b)) first_frame.

Definition connection : ServerState.session :=
  ServerSession.run_session config (λ _, handler) (λ _ _, false) 4
    [ServerSession.op_start; ServerSession.op_read (ServerSession.read_bytes received (Run handshake (hpe_paused_upgrade 9)));
     ServerSession.op_write_done None].

(** The upgrade requests that the server gave to handlers. *)
Definition requests : list upgrade_request :=
  omap (λ e, match e with
             | se_upgrade _ r extra => Some (UpgradeRequest (sr_request r) (map (λ c, Z.of_N (N_of_ascii c)) extra) true)
             | _ => None
             end) (trace connection).

Definition sockets : world :=
  run_upgrades sha1 (λ _ _ _, []) 3 (map (λ r, op_accept r default_upgrade_options) requests ++ [op_upgraded 0]).
End Chat.

(** The server writes the response that [accept] chose, hands the stream over
    and writes nothing else; the session then tells its user the message that
    came with the handshake. *)
Example chat_upgrade :
  let response := handshake_response Chat.sha1 (from_option (λ r, rq_headers (ur_request r)) [] (head Chat.requests)) [] in
  omap (λ e, match e with se_write p => Some p | _ => None end) (trace Chat.connection) = [response] ∧
  last (trace Chat.connection) = Some se_upgraded ∧
  accepts Chat.sockets = [(response, then_start 0 Chat.first_frame false)] ∧
  from_option (λ s, events (history s)) [] (sessions Chat.sockets !! 0%nat) = [ev_text [104; 105]] ∧
  is_open 0 Chat.sockets = true.
Proof. by vm_compute. Qed.

(** A handle that is destroyed while the response is still being written: the
    session is closed at once and the stream when it arrives. *)
Example chat_abandoned :
  let ops := map (λ r, op_accept r default_upgrade_options) Chat.requests ++ [op_destroy 0; op_upgraded 0] in
  option_map (λ s, (is_closed s, history s)) (sessions (run_upgrades Chat.sha1 (λ _ _ _, []) 3 ops) !! 0%nat) =
    Some (true, [eff_close_stream]).
Proof. by vm_compute. Qed.
