(* ===== verification/ClientServer.v ===== *)
(** * The client of the library against its server

    What a run of [ServerSession] puts on the wire, read by [ClientWire]. *)

From S2P Require Import Prelude Text Http Response ServerWire ServerWireSpec ServerState ServerSession.
From S2P Require Import ServerSpec ServerStreams ServerExample ServerClaims ClientWire ClientWireSpec.

Open Scope Z_scope.

(** The client reads back what a handler streamed: of a stream that was ended
    and queued, the client makes the response with the status and the fields of
    the head, and with the accepted chunks, in order, as its body. *)
Theorem client_reads_server_stream (cfg : server_config) calls stops (depth : nat) (ops : list session_op) (i : nat)
    (m : method) (max_header_bytes max_body_bytes : Z) :
  let s := run_session cfg calls stops depth ops in
  let sl := slot i s in let accepted := slot_accepted i (trace s) in
  stream_headers_queued sl = true → stream_chunked sl = true → stream_ended sl = true → suppress_body sl = false → stream_writes sl = [] →
  Forall (λ c, Z.of_nat (length c) + 2 < 2 ^ 32) accepted → Z.of_nat (length (concat accepted)) ≤ max_body_bytes →
  ∃ r, let head := serialize_response_head r (negb (close_after sl)) (options cfg) true false in
    (∃ tail, concat (slot_pushes i (trace s)) = head ++ tail) ∧
    (client_sendable r → response_must_not_have_body m (status_code r) = false → Z.of_nat (length head) ≤ max_header_bytes →
     parse_response m (concat (slot_pushes i (trace s))) max_header_bytes max_body_bytes =
     Ok (received_response (status_code r) (head_fields r (negb (close_after sl)) (options cfg) true false) (concat accepted))).
Proof.
  intros s sl accepted Hq Hc He Hb Hw Hl Hmax. destruct (run_wire cfg calls stops depth ops i) as [H1 _ _ Hn].
  destruct (H1 Hq) as (_ & r & E & _). exists r. fold s sl in E, Hn. unfold queued in E. rewrite Hw, app_nil_r in E.
  intros head. rewrite E, stream_wire_chunked by done. split; [by eexists|]. intros Hs Hbl Hhead. apply client_reads_streamed; try done.
  rewrite Forall_forall in *. intros c Hin. split; [by apply Hn|by apply Hl].
Qed.

Lemma client_reads_server_stream_witness :
  let s := run_session Small.config Small.calls Small.stops 4 Small.echo in
  let sl := slot 0 s in let accepted := slot_accepted 0 (trace s) in
  concat accepted = lit "xyzuv" ∧
  ∃ r, let head := serialize_response_head r (negb (close_after sl)) (options Small.config) true false in
    (∃ tail, concat (slot_pushes 0 (trace s)) = head ++ tail) ∧
    (client_sendable r → response_must_not_have_body m_get (status_code r) = false → Z.of_nat (length head) ≤ 1000 →
     parse_response m_get (concat (slot_pushes 0 (trace s))) 1000 100 =
     Ok (received_response (status_code r) (head_fields r (negb (close_after sl)) (options Small.config) true false) (concat accepted))).
Proof.
  cbv zeta. pose proof (client_reads_server_stream Small.config Small.calls Small.stops 4 Small.echo 0 m_get 1000 100) as H. cbv zeta in H.
  assert (E : slot_accepted 0 (trace (run_session Small.config Small.calls Small.stops 4 Small.echo)) = [lit "xyz"; lit "uv"])
    by (vm_compute; reflexivity).
  split; [by rewrite E|]. apply H; clear H; [vm_compute; reflexivity..| |]; rewrite E; [repeat constructor|vm_compute; discriminate].
Defined.
