(* ===== verification/ClientPool.v ===== *)
(** * The pool of idle connections

    [detail::connection_pool] of [src/http/client.cpp].  Entries are shared
    objects that are compared by identity: an entry has a number of its own.
    Connections are numbers; the calls made on them and on the timers are
    recorded in a history. *)

From S2P Require Import Prelude Text.

Open Scope nat_scope.

(** What happens to connections: [pv_release] is a connection that comes back,
    [pv_take] one that is handed out again; the others are calls. *)
Inductive pool_event :=
| pv_release (conn : nat)
| pv_take (origin : str) (conn : nat)
| pv_ref (conn : nat) | pv_unref (conn : nat) | pv_close (conn : nat)
| pv_timer_start (entry : nat) | pv_timer_close (entry : nat).

Record pool_entry := PoolEntry { en_id : nat; en_origin : str; en_stream : option nat; en_timer : bool }.

Record connection_pool := Pool { idle : gmap str (list pool_entry); next_entry : nat; pool_history : list pool_event }.

Definition new_pool : connection_pool := Pool ∅ 0 [].

Definition set_idle (x : gmap str (list pool_entry)) (p : connection_pool) : connection_pool := Pool x (next_entry p) (pool_history p).

Definition note (e : pool_event) (p : connection_pool) : connection_pool := Pool (idle p) (next_entry p) (pool_history p ++ [e]).

(** [timer->stop()] and [timer->close()]. *)
Definition stop_timer (item : pool_entry) (p : connection_pool) : connection_pool :=
  if en_timer item then note (pv_timer_close (en_id item)) p else p.

Definition close_entry (item : pool_entry) (p : connection_pool) : connection_pool :=
  let p := stop_timer item p in
  match en_stream item with Some conn => note (pv_close conn) (note (pv_ref conn) p) | None => p end.

(** The loop of [take]: pops until it finds an entry with a connection. *)
Fixpoint take_loop (queue : list pool_entry) (p : connection_pool) : option nat * list pool_entry * connection_pool :=
  match queue with
  | [] => (None, [], p)
  | item :: queue' =>
    let p := stop_timer item p in
    match en_stream item with
    | Some conn => (Some conn, queue', note (pv_ref conn) p)
    | None => take_loop queue' p
    end
  end.

Definition pool_take (origin : str) (p : connection_pool) : option nat * connection_pool :=
  match idle p !! origin with
  | None => (None, p)
  | Some queue =>
    let '(found, queue', p) := take_loop queue p in
    let p := set_idle (match queue' with [] => delete origin (idle p) | _ => <[origin := queue']> (idle p) end) p in
    (found, match found with Some conn => note (pv_take origin conn) p | None => p end)
  end.

(** [while (queue.size() > max_idle)]: closes the oldest. *)
Fixpoint evict (max_idle : nat) (queue : list pool_entry) (p : connection_pool) : list pool_entry * connection_pool :=
  match queue with
  | [] => ([], p)
  | evicted :: queue' => if max_idle <? length queue then evict max_idle queue' (close_entry evicted p) else (queue, p)
  end.

Definition pool_release (origin : str) (stream : option nat) (max_idle : nat) (idle_timeout : Z) (p : connection_pool) : connection_pool :=
  match stream with
  | None => p
  | Some conn =>
    let id := next_entry p in
    let p := note (pv_release conn) (Pool (idle p) (S id) (pool_history p)) in
    if max_idle =? 0 then close_entry (PoolEntry id [] (Some conn) false) p
    else
      let timer := (0 <? idle_timeout)%Z in
      let item := PoolEntry id origin (Some conn) timer in
      let p := note (pv_unref conn) p in
      let p := if timer then note (pv_timer_start id) p else p in
      let '(queue, p) := evict max_idle (default [] (idle p !! origin) ++ [item]) p in
      set_idle (<[origin := queue]> (idle p)) p
  end.

Definition expire (item : pool_entry) (p : connection_pool) : connection_pool :=
  let p :=
    match idle p !! en_origin item with
    | None => p
    | Some queue =>
      match List.filter (λ candidate, negb (en_id candidate =? en_id item)) queue with
      | [] => set_idle (delete (en_origin item) (idle p)) p
      | queue' => set_idle (<[en_origin item := queue']> (idle p)) p
      end
    end in
  close_entry item p.

Definition entries (m : gmap str (list pool_entry)) : list pool_entry := concat (map_to_list m).*2.

Definition close_all (p : connection_pool) : connection_pool := set_idle ∅ (foldr close_entry p (entries (idle p))).

(** The timer of an entry fires; the timer is closed when its entry leaves. *)
Definition timer_fires (id : nat) (p : connection_pool) : connection_pool :=
  match List.find (λ item, en_id item =? id) (entries (idle p)) with
  | Some item => if en_timer item then expire item p else p
  | None => p
  end.

(** ** Runs *)

Inductive pool_op :=
| po_take (origin : str)
| po_release (origin : str) (stream : option nat)
| po_timer (id : nat)
| po_close_all.

Section runs.
Context (max_idle : nat) (idle_timeout : Z).

Definition run_pool_op (p : connection_pool) (op : pool_op) : connection_pool :=
  match op with
  | po_take origin => (pool_take origin p).2
  | po_release origin stream => pool_release origin stream max_idle idle_timeout p
  | po_timer id => timer_fires id p
  | po_close_all => close_all p
  end.

Definition run_pool (ops : list pool_op) : connection_pool := foldl run_pool_op new_pool ops.
End runs.

(** ** Accounting *)

Arguments entries : simpl never.

Definition released_of (e : pool_event) : option nat := match e with pv_release c => Some c | _ => None end.
Definition taken_of (e : pool_event) : option nat := match e with pv_take _ c => Some c | _ => None end.
Definition closed_of (e : pool_event) : option nat := match e with pv_close c => Some c | _ => None end.
Definition started_of (e : pool_event) : option nat := match e with pv_timer_start i => Some i | _ => None end.
Definition stopped_of (e : pool_event) : option nat := match e with pv_timer_close i => Some i | _ => None end.

(** What is in the pool: connections and running timers. *)
Definition idle_conns (es : list pool_entry) : list nat := omap en_stream es.
Definition timers (es : list pool_entry) : list nat := omap (λ e, if en_timer e then Some (en_id e) else None) es.

(** Every connection that came back is idle, was handed out or was closed, and
    every timer that was started runs for an idle entry or was closed; for
    entries [es] in the pool and a history [h]. *)
Definition balanced (es : list pool_entry) (h : list pool_event) : Prop :=
  omap released_of h ≡ₚ idle_conns es ++ omap taken_of h ++ omap closed_of h ∧
  omap started_of h ≡ₚ timers es ++ omap stopped_of h.

#[global] Instance balanced_proper : Proper ((≡ₚ) ==> eq ==> iff) balanced.
Proof. intros es es' H h h' <-. unfold balanced, idle_conns, timers. by rewrite H. Qed.

Lemma entries_lookup m o q : m !! o = Some q → entries m ≡ₚ q ++ entries (delete o m).
Proof. intros H. unfold entries. by rewrite <-(map_to_list_delete m o q H). Qed.

Lemma entries_fresh m o q : m !! o = None → entries (<[o := q]> m) ≡ₚ q ++ entries m.
Proof. intros H. unfold entries. by rewrite (map_to_list_insert m o q H). Qed.

Lemma entries_insert m o q : entries (<[o := q]> m) ≡ₚ q ++ entries (delete o m).
Proof. rewrite (entries_lookup _ o q) by apply lookup_insert_eq. by rewrite delete_insert_eq. Qed.

Lemma entries_absent m o : m !! o = None → entries (delete o m) = entries m.
Proof. intros H. by rewrite delete_id. Qed.

Lemma in_entries e m : e ∈ entries m ↔ ∃ o q, m !! o = Some q ∧ e ∈ q.
Proof.
  unfold entries. rewrite list_elem_of_In, in_concat. split.
  - intros (q & Hq & He). apply list_elem_of_In, list_elem_of_fmap in Hq as ([o q'] & -> & Ho). apply elem_of_map_to_list in Ho.
    exists o, q'. split; [done|]. by apply list_elem_of_In.
  - intros (o & q & Ho & He). exists q. split; [|by apply list_elem_of_In]. apply list_elem_of_In, list_elem_of_fmap.
    exists (o, q). split; [done|]. by apply elem_of_map_to_list.
Qed.

Lemma idle_conns_app a b : idle_conns (a ++ b) = idle_conns a ++ idle_conns b.
Proof. apply omap_app. Qed.

Lemma timers_app a b : timers (a ++ b) = timers a ++ timers b.
Proof. apply omap_app. Qed.

Arguments idle_conns : simpl never.
Arguments timers : simpl never.

Lemma idle_conns_cons e es : idle_conns (e :: es) = option_list (en_stream e) ++ idle_conns es.
Proof. unfold idle_conns. cbn. by destruct (en_stream e). Qed.

Lemma timers_cons e es : timers (e :: es) = (if en_timer e then [en_id e] else []) ++ timers es.
Proof. unfold timers. cbn. by destruct (en_timer e). Qed.

(** Proves [balanced] from [balanced] of what was there before. *)
Ltac account_in H := unfold balanced in H; repeat
  (progress (rewrite ?idle_conns_cons, ?timers_cons, ?idle_conns_app, ?timers_app, ?omap_app, ?app_nil_r in H; cbn in H)).
Ltac account H :=
  account_in H; unfold balanced; repeat
    (progress (rewrite ?idle_conns_cons, ?timers_cons, ?idle_conns_app, ?timers_app, ?omap_app, ?app_nil_r; cbn));
  let H1 := fresh in let H2 := fresh in destruct H as [H1 H2]; split; [rewrite H1|rewrite H2]; solve_Permutation.

Lemma note_idle e p : idle (note e p) = idle p ∧ next_entry (note e p) = next_entry p.
Proof. done. Qed.

Lemma stop_timer_same item p : idle (stop_timer item p) = idle p ∧ next_entry (stop_timer item p) = next_entry p.
Proof. unfold stop_timer. by destruct (en_timer item). Qed.

Lemma close_entry_same item p : idle (close_entry item p) = idle p ∧ next_entry (close_entry item p) = next_entry p.
Proof. unfold close_entry. destruct (stop_timer_same item p). by destruct (en_stream item). Qed.

Lemma close_entry_balanced item es p : balanced (item :: es) (pool_history p) → balanced es (pool_history (close_entry item p)).
Proof.
  intros H. unfold close_entry, stop_timer. unfold balanced in H. rewrite idle_conns_cons, timers_cons in H.
  destruct (en_stream item) as [conn|], (en_timer item); account H.
Qed.

Lemma take_loop_idle queue p : let '(_, _, p') := take_loop queue p in idle p' = idle p ∧ next_entry p' = next_entry p.
Proof.
  revert p. induction queue as [|item queue IH]; intros p; [done|]. cbn [take_loop]. destruct (stop_timer_same item p) as [E1 E2].
  destruct (en_stream item); [done|]. specialize (IH (stop_timer item p)). destruct (take_loop _ _) as [[? ?] ?]. by rewrite <-E1, <-E2.
Qed.

Lemma take_loop_balanced origin queue rest p :
  balanced (queue ++ rest) (pool_history p) →
  let '(found, queue', p') := take_loop queue p in
  balanced (queue' ++ rest) (pool_history p' ++ match found with Some conn => [pv_take origin conn] | None => [] end).
Proof.
  revert p. induction queue as [|item queue IH]; intros p H; [cbn; by rewrite app_nil_r|]. cbn [take_loop app] in *.
  unfold stop_timer. destruct (en_stream item) as [conn|] eqn:Es.
  - clear IH. unfold balanced in H. rewrite idle_conns_cons, timers_cons, Es in H. destruct (en_timer item); account H.
  - apply IH. clear IH. unfold balanced in H. rewrite idle_conns_cons, timers_cons, Es in H. destruct (en_timer item); account H.
Qed.

Lemma evict_same max_idle queue p : let '(_, p') := evict max_idle queue p in idle p' = idle p ∧ next_entry p' = next_entry p.
Proof.
  revert p. induction queue as [|item queue IH]; intros p; [done|]. cbn [evict]. destruct (max_idle <? _); [|done].
  specialize (IH (close_entry item p)). destruct (close_entry_same item p) as [<- <-]. exact IH.
Qed.

Lemma evict_balanced max_idle queue rest p :
  balanced (queue ++ rest) (pool_history p) → let '(queue', p') := evict max_idle queue p in balanced (queue' ++ rest) (pool_history p').
Proof.
  revert p. induction queue as [|item queue IH]; intros p H; [done|]. cbn [evict]. destruct (max_idle <? _); [|done].
  apply IH. by apply close_entry_balanced.
Qed.

(** What is left is the end of the queue. *)
Lemma evict_drop max_idle queue p : (evict max_idle queue p).1 = drop (length queue - max_idle) queue.
Proof.
  revert p. induction queue as [|item queue IH]; intros p; [done|]. cbn [evict length]. destruct (Nat.ltb_spec max_idle (S (length queue))).
  - rewrite IH. by replace (S (length queue) - max_idle) with (S (length queue - max_idle)) by lia.
  - by replace (S (length queue) - max_idle) with 0 by lia.
Qed.

(** ** The invariant *)

Section invariant.
Context (max_idle : nat) (idle_timeout : Z).

Definition entry_ok (origin : str) (next : nat) (e : pool_entry) : Prop :=
  en_origin e = origin ∧ is_Some (en_stream e) ∧ en_id e < next.

(** The queue of an origin: not empty, at most [max_idle] entries with a
    connection, made for the origin. *)
Definition queue_ok (origin : str) (next : nat) (q : list pool_entry) : Prop :=
  q ≠ [] ∧ length q ≤ max_idle ∧ Forall (entry_ok origin next) q.

Record pool_inv (p : connection_pool) : Prop := {
  pi_queues : map_Forall (λ origin, queue_ok origin (next_entry p)) (idle p);
  pi_ids : NoDup (en_id <$> entries (idle p));
  pi_balanced : balanced (entries (idle p)) (pool_history p)
}.

Lemma entries_below p e : pool_inv p → e ∈ entries (idle p) → en_id e < next_entry p ∧ is_Some (en_stream e).
Proof.
  intros [Hq _ _] He. apply in_entries in He as (o & q & Ho & He). destruct (Hq o q Ho) as (_ & _ & Hf). rewrite Forall_forall in Hf.
  by destruct (Hf e He) as (_ & ? & ?).
Qed.

Lemma queues_next (n m : nat) (q : gmap str (list pool_entry)) : n ≤ m → map_Forall (λ origin, queue_ok origin n) q → map_Forall (λ origin, queue_ok origin m) q.
Proof.
  intros H Hq o l Hl. destruct (Hq o l Hl) as (? & ? & Hf). split_and!; [done|done|]. eapply Forall_impl; [exact Hf|].
  intros e (? & ? & ?). split_and!; [done|done|lia].
Qed.

(** Replacing the queue of an origin by a part of it. *)
Lemma shrink_queue origin next m queue queue' :
  (m : gmap str (list pool_entry)) !! origin = Some queue → sublist queue' queue → map_Forall (λ origin, queue_ok origin next) m → NoDup (en_id <$> entries m) →
  let m' := match queue' with [] => delete origin m | _ => <[origin := queue']> m end in
  map_Forall (λ origin, queue_ok origin next) m' ∧ NoDup (en_id <$> entries m') ∧ entries m' ≡ₚ queue' ++ entries (delete origin m).
Proof.
  intros Ho Hs Hq Hn m'. assert (E : entries m' ≡ₚ queue' ++ entries (delete origin m)).
  { subst m'. destruct queue' as [|e queue']; [done|]. apply entries_insert. }
  split_and!; [| |done].
  - subst m'. destruct queue' as [|e queue']; [by apply map_Forall_delete|]. apply map_Forall_insert_2; [|done].
    destruct (Hq _ _ Ho) as (_ & Hl & Hf). split_and!; [done| |]; [apply sublist_length in Hs; lia|].
    rewrite Forall_forall in *. intros x Hx. apply Hf. by eapply elem_of_sublist.
  - rewrite E. rewrite (entries_lookup m origin queue Ho) in Hn. rewrite fmap_app in *. refine (sublist_NoDup _ _ Hn _).
    apply sublist_app; [by apply fmap_sublist|done].
Qed.

Lemma close_entry_inv item p :
  map_Forall (λ origin, queue_ok origin (next_entry p)) (idle p) → NoDup (en_id <$> entries (idle p)) →
  balanced (item :: entries (idle p)) (pool_history p) → pool_inv (close_entry item p).
Proof.
  intros H1 H2 H3. destruct (close_entry_same item p) as [E1 E2]. constructor; rewrite ?E1, ?E2; [done|done|]. by apply close_entry_balanced.
Qed.

Lemma take_inv origin p : pool_inv p → pool_inv (pool_take origin p).2.
Proof.
  intros [Hq Hn Hb]. unfold pool_take. destruct (idle p !! origin) as [queue|] eqn:Ho; [|done].
  destruct (Hq _ _ Ho) as (Hne & _ & Hf). destruct queue as [|item queue]; [done|]. apply Forall_cons_1 in Hf as [(_ & [conn Es] & _) _].
  pose proof (take_loop_balanced origin (item :: queue) (entries (delete origin (idle p))) p) as Hl.
  pose proof (take_loop_idle (item :: queue) p) as Hi. cbn [take_loop] in *. rewrite Es in *. destruct Hi as [Hi1 Hi2].
  rewrite <-(entries_lookup _ _ _ Ho) in Hl. specialize (Hl Hb).
  destruct (shrink_queue origin (next_entry p) (idle p) (item :: queue) queue Ho (sublist_cons _ _ _ (reflexivity _)) Hq Hn) as (H1 & H2 & H3).
  constructor; cbn [snd set_idle note idle next_entry pool_history] in *; rewrite ?Hi1, ?Hi2; [exact H1|exact H2|]. rewrite H3. exact Hl.
Qed.

Lemma queue_split (origin : str) (m : gmap str (list pool_entry)) : entries m ≡ₚ default [] (m !! origin) ++ entries (delete origin m).
Proof. destruct (m !! origin) as [q|] eqn:Ho; [by apply entries_lookup|]. by rewrite entries_absent. Qed.

(** An entry with a number of its own at the end of the queue of its origin. *)
Lemma push_entry (origin : str) item p :
  pool_inv p → en_id item = next_entry p → entry_ok origin (S (next_entry p)) item →
  let queue := default [] (idle p !! origin) ++ [item] in
  Forall (entry_ok origin (S (next_entry p))) queue ∧ NoDup (en_id <$> queue ++ entries (delete origin (idle p))).
Proof.
  intros Hp Hid Hok queue. pose proof (entries_below p) as Hids. specialize (λ e, Hids e Hp). destruct Hp as [Hq Hn Hb]. split.
  - apply Forall_app. split; [|by apply Forall_singleton]. destruct (idle p !! origin) as [q|] eqn:Ho; [|done].
    by destruct (queues_next _ _ _ (Nat.le_succ_diag_r _) Hq _ _ Ho) as (_ & _ & Hf).
  - unfold queue. rewrite <-app_assoc, (Permutation_app_comm [item]), app_assoc, <-queue_split, fmap_app. apply NoDup_app.
    split_and!; [done| |apply NoDup_singleton]. intros i Hi Hx. apply list_elem_of_singleton in Hx. subst i.
    apply list_elem_of_fmap in Hi as (e & He1 & He2). destruct (Hids e He2) as [Hlt _]. lia.
Qed.

Lemma release_inv origin stream p : pool_inv p → pool_inv (pool_release origin stream max_idle idle_timeout p).
Proof.
  intros Hp. unfold pool_release. destruct stream as [conn|]; [|done]. destruct (Nat.eqb_spec max_idle 0) as [Hz|Hz].
  - destruct Hp as [Hq Hn Hb]. apply close_entry_inv; cbn; [by eapply queues_next, Hq; lia|done|]. account Hb.
  - set (id := next_entry p). set (item := PoolEntry id origin (Some conn) (0 <? idle_timeout)%Z).
    set (p1 := if (0 <? idle_timeout)%Z then _ else _). cbn [idle] in *.
    destruct (push_entry origin item p Hp eq_refl) as [Hok Hfresh]; [split_and!; [done|by eexists|cbn; lia]|]. destruct Hp as [Hq Hn Hb].
    assert (Hp1 : idle p1 = idle p ∧ next_entry p1 = S id) by (unfold p1; by destruct (0 <? idle_timeout)%Z). destruct Hp1 as [Hi1 Hi2].
    assert (Hb1 : balanced ((default [] (idle p !! origin) ++ [item]) ++ entries (delete origin (idle p))) (pool_history p1)).
    { rewrite (queue_split origin) in Hb. unfold p1, item. destruct (0 <? idle_timeout)%Z; account Hb. }
    rewrite Hi1. set (queue := default [] (idle p !! origin) ++ [item]) in *.
    pose proof (evict_balanced max_idle queue _ p1 Hb1) as He. pose proof (evict_same max_idle queue p1) as Hs.
    pose proof (evict_drop max_idle queue p1) as Hd. destruct (evict _ _ _) as [queue' p2]. cbn [fst] in Hd. destruct Hs as [Hs1 Hs2].
    constructor; cbn [set_idle idle next_entry pool_history] in *; rewrite ?Hs1, ?Hs2, ?Hi1, ?Hi2.
    + apply map_Forall_insert_2; [|eapply queues_next, Hq; unfold id; lia]. rewrite Hd. split_and!; [|rewrite length_drop; lia|by apply Forall_drop].
      intros Hnil. apply (f_equal length) in Hnil. unfold queue in Hnil. rewrite length_drop, length_app in Hnil. cbn in Hnil. lia.
    + rewrite entries_insert. refine (sublist_NoDup _ _ Hfresh _). apply fmap_sublist, sublist_app; [|done]. rewrite Hd. apply sublist_drop.
    + rewrite entries_insert. exact He.
Qed.

(** Comparing by identity takes out one entry. *)
Lemma filter_out item queue :
  item ∈ queue → NoDup (en_id <$> queue) →
  let queue' := List.filter (λ candidate, negb (en_id candidate =? en_id item)) queue in
  queue' `sublist_of` queue ∧ queue ≡ₚ item :: queue'.
Proof.
  intros Hin Hnq. induction queue as [|e queue IH]; [by apply not_elem_of_nil in Hin|]. cbn [List.filter].
  rewrite fmap_cons in Hnq. apply NoDup_cons in Hnq as [He Hnq]. destruct (Nat.eqb_spec (en_id e) (en_id item)) as [Ei|Ei]; cbn [negb].
  - assert (e = item) as ->. { apply elem_of_cons in Hin as [->|Hin]; [done|]. destruct He. rewrite Ei. by apply list_elem_of_fmap_2. }
    assert (List.filter (λ candidate, negb (en_id candidate =? en_id item)) queue = queue) as ->; [|split; [by apply sublist_cons|done]].
    clear - He. induction queue as [|c queue IH]; [done|]. rewrite fmap_cons in He. apply not_elem_of_cons in He as [H1 H2]. cbn.
    destruct (Nat.eqb_spec (en_id c) (en_id item)) as [E|_]; [by rewrite E in H1|]. cbn. by rewrite IH.
  - apply elem_of_cons in Hin as [->|Hin]; [done|]. destruct (IH Hin Hnq) as [H1 H2]. split; [by apply sublist_skip|].
    rewrite H2 at 1. apply Permutation_swap.
Qed.

Lemma expire_inv item p : pool_inv p → item ∈ entries (idle p) → pool_inv (expire item p).
Proof.
  intros [Hq Hn Hb] Hin. apply in_entries in Hin as (o & queue & Ho & Hin). destruct (Hq _ _ Ho) as (_ & _ & Hf). rewrite Forall_forall in Hf.
  destruct (Hf _ Hin) as (Eo & _ & _). unfold expire. rewrite Eo, Ho.
  assert (Hnq : NoDup (en_id <$> queue)). { rewrite (entries_lookup _ _ _ Ho), fmap_app in Hn. by apply NoDup_app in Hn as (? & _). }
  destruct (filter_out item queue Hin Hnq) as [Hs Hperm]. set (queue' := List.filter _ queue) in *.
  destruct (shrink_queue o (next_entry p) (idle p) queue queue' Ho Hs Hq Hn) as (H1 & H2 & H3).
  rewrite (entries_lookup _ _ _ Ho), Hperm in Hb. cbn [app] in Hb. rewrite <-H3 in Hb. destruct queue'; by apply close_entry_inv.
Qed.

Lemma close_entries es rest p :
  balanced (es ++ rest) (pool_history p) →
  let p' := foldr close_entry p es in balanced rest (pool_history p') ∧ next_entry p' = next_entry p.
Proof.
  revert rest. induction es as [|e es IH]; intros rest H; [done|]. cbn [foldr]. destruct (IH (e :: rest)) as [H1 H2].
  - by rewrite <-Permutation_middle.
  - split; [by apply close_entry_balanced|]. by rewrite (proj2 (close_entry_same _ _)).
Qed.

Lemma run_pool_op_inv p op : pool_inv p → pool_inv (run_pool_op max_idle idle_timeout p op).
Proof.
  intros Hp. destruct op as [origin|origin stream|id|]; cbn [run_pool_op]; [by apply take_inv|by apply release_inv| |].
  - unfold timer_fires. destruct (List.find _ _) as [item|] eqn:Hf; [|done]. destruct (en_timer item); [|done].
    apply expire_inv; [done|]. apply find_some in Hf as [Hf _]. by apply list_elem_of_In.
  - destruct Hp as [Hq Hn Hb]. unfold close_all. destruct (close_entries (entries (idle p)) [] p) as [H1 H2]; [by rewrite app_nil_r|].
    constructor; [by apply map_Forall_empty|constructor|exact H1].
Qed.

Lemma run_pool_inv ops : pool_inv (run_pool max_idle idle_timeout ops).
Proof.
  assert (H : ∀ p, pool_inv p → pool_inv (foldl (run_pool_op max_idle idle_timeout) p ops)).
  { induction ops as [|op ops IH]; intros p Hp; [done|]. apply IH. by apply run_pool_op_inv. }
  apply H. constructor; [by apply map_Forall_empty|constructor|]. by split.
Qed.
End invariant.

(** ** Refinement: a queue of connections per origin *)

Definition abstract (p : connection_pool) : gmap str (list nat) := idle_conns <$> idle p.

Definition spec_take (origin : str) (m : gmap str (list nat)) : option nat * gmap str (list nat) :=
  match m !! origin with
  | Some (conn :: conns) => (Some conn, match conns with [] => delete origin m | _ => <[origin := conns]> m end)
  | _ => (None, m)
  end.

(** The last [max_idle] connections stay. *)
Definition spec_release (max_idle : nat) (origin : str) (conn : nat) (m : gmap str (list nat)) : gmap str (list nat) :=
  if max_idle =? 0 then m
  else let conns := default [] (m !! origin) ++ [conn] in <[origin := drop (length conns - max_idle) conns]> m.

Lemma idle_conns_length q : Forall (λ e, is_Some (en_stream e)) q → length (idle_conns q) = length q.
Proof. induction 1 as [|e q [c He] _ IH]; [done|]. rewrite idle_conns_cons, He. cbn. by rewrite IH. Qed.

Lemma idle_conns_drop n q : Forall (λ e, is_Some (en_stream e)) q → idle_conns (drop n q) = drop n (idle_conns q).
Proof.
  intros H. revert n. induction H as [|e q [c He] _ IH]; intros [|n]; [done..|]. rewrite idle_conns_cons, He. apply IH.
Qed.

Lemma queue_streams max_idle origin next q : queue_ok max_idle origin next q → Forall (λ e, is_Some (en_stream e)) q.
Proof. intros (_ & _ & H). eapply Forall_impl; [exact H|]. by intros e (_ & ? & _). Qed.

Lemma take_refines max_idle origin p :
  pool_inv max_idle p → (λ r, (r.1, abstract r.2)) (pool_take origin p) = spec_take origin (abstract p).
Proof.
  intros [Hq _ _]. unfold pool_take, spec_take, abstract. rewrite lookup_fmap. destruct (idle p !! origin) as [queue|] eqn:Ho; [|done].
  pose proof (Hq _ _ Ho) as Hok. destruct Hok as (Hne & _ & Hf). destruct queue as [|item queue]; [done|].
  apply Forall_cons in Hf as [(_ & [conn Es] & _) Hf]. cbn [take_loop fmap option_fmap option_map]. rewrite Es, idle_conns_cons, Es. cbn.
  rewrite (proj1 (stop_timer_same item p)). f_equal. destruct queue as [|e queue]; [by rewrite fmap_delete|].
  apply Forall_cons in Hf as [(_ & [c Ec] & _) _]. rewrite fmap_insert, idle_conns_cons, Ec. done.
Qed.

Lemma release_refines max_idle idle_timeout origin conn p :
  pool_inv max_idle p → abstract (pool_release origin (Some conn) max_idle idle_timeout p) = spec_release max_idle origin conn (abstract p).
Proof.
  intros [Hq _ _]. unfold pool_release, spec_release, abstract. destruct (max_idle =? 0); [by rewrite (proj1 (close_entry_same _ _))|].
  set (p1 := if (0 <? idle_timeout)%Z then _ else _). assert (Hi : idle p1 = idle p) by (unfold p1; by destruct (0 <? idle_timeout)%Z).
  rewrite Hi, lookup_fmap. set (queue := default [] (idle p !! origin) ++ [_]). pose proof (evict_same max_idle queue p1) as Hs.
  pose proof (evict_drop max_idle queue p1) as Hd. destruct (evict _ _ _) as [queue' p2]. cbn in *. destruct Hs as [-> _]. rewrite Hi, fmap_insert.
  assert (Hst : Forall (λ e, is_Some (en_stream e)) queue).
  { unfold queue. apply Forall_app. split; [|by apply Forall_singleton; eexists]. destruct (idle p !! origin) as [q|] eqn:Ho; [|done].
    by eapply queue_streams, Hq. }
  assert (Eq : idle_conns queue = default [] (idle_conns <$> idle p !! origin) ++ [conn]).
  { unfold queue. rewrite idle_conns_app. by destruct (idle p !! origin). }
  f_equal. rewrite Hd, idle_conns_drop by done. rewrite <-Eq. by rewrite idle_conns_length by done.
Qed.

(** ** Theorems *)

(** No connection is lost or handed out twice: of the connections that came
    back, each is idle, was handed out again, or was closed, as often as it came
    back; each timer that was started belongs to an idle entry or was closed;
    and no origin has more than [max_idle] idle connections, each of them kept
    under the origin it was made for. *)
Theorem pool_account (max_idle : nat) (idle_timeout : Z) (ops : list pool_op) :
  let p := run_pool max_idle idle_timeout ops in let h := pool_history p in
  omap released_of h ≡ₚ idle_conns (entries (idle p)) ++ omap taken_of h ++ omap closed_of h ∧
  omap started_of h ≡ₚ timers (entries (idle p)) ++ omap stopped_of h ∧
  ∀ origin queue, idle p !! origin = Some queue →
    queue ≠ [] ∧ length queue ≤ max_idle ∧ Forall (λ e, en_origin e = origin ∧ is_Some (en_stream e)) queue.
Proof.
  destruct (run_pool_inv max_idle idle_timeout ops) as [Hq _ [H1 H2]]. split_and!; [done|done|]. intros origin queue Ho.
  destruct (Hq _ _ Ho) as (? & ? & Hf). split_and!; [done|done|]. eapply Forall_impl; [exact Hf|]. by intros e (? & ? & _).
Qed.

(** C30: The pool is a queue of connections per origin: [take] hands out the one
    that has been idle for the longest time, under the same origin only, and
    [release] keeps the [max_idle] latest. *)
Theorem pool_refines_queues (max_idle : nat) (idle_timeout : Z) (ops : list pool_op) (origin : str) (conn : nat) :
  let p := run_pool max_idle idle_timeout ops in
  (λ r, (r.1, abstract r.2)) (pool_take origin p) = spec_take origin (abstract p) ∧
  abstract (pool_release origin (Some conn) max_idle idle_timeout p) = spec_release max_idle origin conn (abstract p).
Proof. split; [eapply take_refines, run_pool_inv|eapply release_refines, run_pool_inv]. Qed.

(** Two connections come back to one place, and the first is closed. *)
Lemma pool_example :
  let p := run_pool 1 30000 [po_release (lit "a") (Some 7); po_release (lit "a") (Some 8); po_take (lit "a"); po_take (lit "a")] in
  pool_history p =
  [pv_release 7; pv_unref 7; pv_timer_start 0; pv_release 8; pv_unref 8; pv_timer_start 1; pv_timer_close 0; pv_ref 7; pv_close 7;
   pv_timer_close 1; pv_ref 8; pv_take (lit "a") 8] ∧ idle p = ∅.
Proof. vm_compute. done. Qed.
