(* ===== verification/ClientOptions.v ===== *)
(** * Credentials for a proxy, and what the two kinds of client requests share

    [base64_encode] and [proxy_options::basic_auth] of [src/http/client.cpp],
    against the encoder and the decoder of [WsHandshake]; options, errors, phases
    and the results of the steps that lead to a connection.  The options that
    only go into the TLS context, the connector or the pool are left out. *)

From S2P Require Import Prelude Text WsFrame WsHandshake Url Http HttpError ClientWire.

Open Scope Z_scope.

(** ** Credentials *)

Record proxy_options := ProxyOptions { proxy_url : str; authorization : str }.

Definition unsigned_char (c : ascii) : Z := Z.of_N (code c).

(** One turn of the loop; [b1] and [b2] are 0 past the end. *)
Definition encode_group (b0 b1 b2 : Z) (has1 has2 : bool) : str :=
  [base64_char (Z.land (Z.shiftr b0 2) 0x3f);
   base64_char (Z.lor (Z.shiftl (Z.land b0 0x03) 4) (Z.land (Z.shiftr b1 4) 0x0f));
   if has1 then base64_char (Z.lor (Z.shiftl (Z.land b1 0x0f) 2) (Z.land (Z.shiftr b2 6) 0x03)) else "="%char;
   if has2 then base64_char (Z.land b2 0x3f) else "="%char].

Fixpoint base64_encode (input : str) : str :=
  match input with
  | [] => []
  | [c0] => encode_group (unsigned_char c0) 0 0 false false
  | [c0; c1] => encode_group (unsigned_char c0) (unsigned_char c1) 0 true false
  | c0 :: c1 :: c2 :: rest => encode_group (unsigned_char c0) (unsigned_char c1) (unsigned_char c2) true true ++ base64_encode rest
  end.

Definition basic_auth (username password : str) (o : proxy_options) : proxy_options :=
  ProxyOptions (proxy_url o) (lit "Basic " ++ base64_encode (username ++ lit ":" ++ password)).

(** ** The two encoders agree *)

Lemma unsigned_char_ok c : byte_ok (unsigned_char c).
Proof. unfold byte_ok, unsigned_char, code. pose proof (N_ascii_bounded c). lia. Qed.

Definition all_bytes (f : Z → bool) : bool := forallb (λ n, f (Z.of_nat n)) (seq 0 256).

Lemma all_bytes_ok f b : all_bytes f = true → byte_ok b → f b = true.
Proof.
  unfold all_bytes, byte_ok. rewrite forallb_forall. intros H Hb. specialize (H (Z.to_nat b)). rewrite Z2Nat.id in H by lia.
  apply H, in_seq. lia.
Qed.

(** The indices, from two bytes each. *)
Lemma encode_indices a b :
  byte_ok a → byte_ok b →
  Z.land (Z.shiftr a 2) 0x3f = a / 4 mod 64 ∧ Z.land a 0x3f = a mod 64 ∧
  Z.lor (Z.shiftl (Z.land a 0x03) 4) (Z.land (Z.shiftr b 4) 0x0f) = a mod 4 * 16 + b / 16 ∧
  Z.lor (Z.shiftl (Z.land a 0x0f) 2) (Z.land (Z.shiftr b 6) 0x03) = a mod 16 * 4 + b / 64.
Proof.
  intros Ha Hb.
  set (ok := λ a b, (Z.land (Z.shiftr a 2) 0x3f =? a / 4 mod 64) && (Z.land a 0x3f =? a mod 64) &&
    (Z.lor (Z.shiftl (Z.land a 0x03) 4) (Z.land (Z.shiftr b 4) 0x0f) =? a mod 4 * 16 + b / 16) &&
    (Z.lor (Z.shiftl (Z.land a 0x0f) 2) (Z.land (Z.shiftr b 6) 0x03) =? a mod 16 * 4 + b / 64)).
  assert (H : ok a b = true).
  { apply (all_bytes_ok (ok a) b); [|done]. apply (all_bytes_ok (λ a, all_bytes (ok a)) a); [|done]. vm_compute. reflexivity. }
  unfold ok in H. rewrite !andb_true_iff, !Z.eqb_eq in H. tauto.
Qed.

Lemma encode_group_same b0 b1 b2 has1 has2 :
  byte_ok b0 → byte_ok b1 → byte_ok b2 → encode_group b0 b1 b2 has1 has2 = base64_group b0 b1 b2 has1 has2.
Proof.
  intros H0 H1 H2. unfold encode_group, base64_group. rewrite group_value by done. cbv zeta.
  destruct (encode_indices b0 b1 H0 H1) as (-> & _ & -> & _). destruct (encode_indices b1 b2 H1 H2) as (_ & _ & _ & ->).
  destruct (encode_indices b2 b0 H2 H0) as (_ & -> & _). rewrite !land_63 by lia. change 0x3f with (Z.ones 6). rewrite Z.land_ones by lia.
  unfold byte_ok in *. change (2 ^ 18) with 262144. change (2 ^ 12) with 4096. change (2 ^ 6) with 64.
  assert (b0 / 4 mod 64 = (b0 * 65536 + b1 * 256 + b2) / 262144 mod 64) as -> by (f_equal; Z.to_euclidean_division_equations; lia).
  assert (b0 mod 4 * 16 + b1 / 16 = (b0 * 65536 + b1 * 256 + b2) / 4096 mod 64) as -> by (Z.to_euclidean_division_equations; lia).
  assert (b1 mod 16 * 4 + b2 / 64 = (b0 * 65536 + b1 * 256 + b2) / 64 mod 64) as -> by (Z.to_euclidean_division_equations; lia).
  assert (b2 mod 64 = (b0 * 65536 + b1 * 256 + b2) mod 64) as -> by (Z.to_euclidean_division_equations; lia). done.
Qed.

Lemma base64_encode_same s : base64_encode s = base64 (map unsigned_char s).
Proof.
  assert (byte_ok 0) by (unfold byte_ok; lia).
  induction s as [|c0|c0 c1|c0 c1 c2 s IH] using list_three_ind; cbn [base64_encode base64 map]; [done|..];
    rewrite encode_group_same by (done || apply unsigned_char_ok); [done|done|]. by rewrite IH.
Qed.

(** A proxy decodes the credentials that were given. *)
Theorem basic_auth_roundtrip (username password : str) (o : proxy_options) :
  ∃ encoded, authorization (basic_auth username password o) = lit "Basic " ++ encoded ∧
    base64_decode encoded = Some (map unsigned_char (username ++ lit ":" ++ password)) ∧
    proxy_url (basic_auth username password o) = proxy_url o.
Proof.
  exists (base64_encode (username ++ lit ":" ++ password)). split_and!; [done| |done].
  rewrite base64_encode_same. apply base64_roundtrip. apply Forall_map, Forall_true. apply unsigned_char_ok.
Qed.

(** ** Options and errors *)

(** Sizes, and durations in milliseconds. *)
Record client_options := ClientOptions {
  max_header_bytes : Z;
  max_body_bytes : Z;
  max_pending_request_body_bytes : nat;
  max_idle_connections_per_origin : nat;
  max_redirects : nat;
  dns_timeout : Z;
  tls_handshake_timeout : Z;
  request_body_timeout : Z;
  response_header_timeout : Z;
  response_body_timeout : Z;
  follow_redirects : bool;
  proxy : proxy_options
}.

Definition default_client_options : client_options :=
  ClientOptions (64 * 1024) (4 * 1024 * 1024) (Z.to_nat (2 * 1024 * 1024)) 0 5 0 0 0 0 0 false (ProxyOptions [] []).

Inductive timeout_phase := phase_none | phase_dns | phase_tls_handshake | phase_request_body | phase_response_header | phase_response_body.

#[global] Instance timeout_phase_eq_dec : EqDecision timeout_phase.
Proof. solve_decision. Defined.

Definition timeout_phase_name (phase : timeout_phase) : str :=
  lit match phase with
      | phase_dns => "DNS resolution timed out"
      | phase_tls_handshake => "TLS handshake timed out"
      | phase_request_body => "request body timed out"
      | phase_response_header => "response headers timed out"
      | phase_response_body => "response body timed out"
      | phase_none => "request timed out"
      end.

(** A [uvp::error] of the resolver, the connector or TLS: the message of its
    code, and its detail. *)
Record source_error := SourceError { source_message : str; source_detail : str }.

Definition wrap_client_error (code : errc) (source : source_error) : error :=
  make_client_error code (match source_detail source with [] => source_message source | detail => detail end).

(** [url_error_category::message]; errors of URLs have no detail. *)
Definition url_source (e : url_errc) : source_error :=
  SourceError
    (lit match e with
         | url_invalid => "invalid URL"
         | missing_scheme => "URL scheme is missing"
         | unsupported_scheme => "URL scheme is unsupported"
         | missing_host => "URL host is missing"
         | invalid_port => "URL port is invalid"
         end) [].

Definition http_scheme (u : url) : bool := match scheme_id u with scheme_http | scheme_https => true | _ => false end.

(** Results that callbacks of a step are given. *)
Inductive connect_result := connect_ok | connect_timed_out | connect_failed (e : source_error).
(** What making a TLS connection throws: the set-up of the context, or the call
    of [connect], before which the timer was started. *)
Inductive tls_throw := tls_context_throws (what : str) | tls_connect_throws (what : str).

Inductive tls_result := tls_ok (selected_alpn : str) | tls_failed (e : source_error).
Inductive read_result := read_bytes (bytes : str) | read_eof | read_error (message : str).

Inductive connect_step := step_dns | step_connect | step_tls.

(** The stream of a request: not there (not yet, or moved from), open, or closed
    by the request. *)
Inductive stream_handle := no_stream | open_stream | closed_stream.
