(* ===== verification/ClientStreamState.v ===== *)
(** * The state of a streaming request

    [detail::streaming_request_state] of [src/http/client.cpp], its fields in
    three groups: the request body, the response, and the user's callbacks.
    [waiting] and [outstanding] say which step of connecting and which write the
    transport still has to report. *)

From S2P Require Import Prelude Text Url Http HttpError ClientWire ClientOptions.

Inductive upload_mode := upload_none | upload_content_length | upload_chunked.
Inductive body_mode := body_unknown | body_none | body_content_length | body_chunked | body_eof.
Inductive write_kind := write_head | write_upload.

#[global] Instance upload_mode_eq_dec : EqDecision upload_mode.
Proof. solve_decision. Defined.
#[global] Instance body_mode_eq_dec : EqDecision body_mode.
Proof. solve_decision. Defined.

(** What happens, in order: calls into the resolver, the connector, the stream,
    the timer and the pool; the chunks that [write] accepted; the callbacks of
    the user; an exception that leaves the read callback. *)
Inductive client_event :=
| ce_resolve | ce_connect | ce_tls
| ce_write (payload : str) | ce_read_start | ce_read_stop | ce_close | ce_release (origin : str)
| ce_timer_start (p : timeout_phase) (duration : Z) | ce_timer_stop
| ce_accept (payload : str)
| ce_headers (head : response_head) | ce_data (data : str) | ce_complete (result : option error) | ce_drain
| ce_throw.

(** What the user can call. *)
Inductive client_cmd :=
| cc_header (name value : str) | cc_content_length (bytes : nat) | cc_chunked
| cc_on_headers (set : bool) | cc_on_data (set : bool) | cc_on_complete (set : bool) | cc_on_drain (set : bool)
| cc_write (payload : str) | cc_end | cc_cancel.

(** What the transport reports, and what the user calls in between. *)
Inductive client_op :=
| op_resolved (failure : option source_error)
| op_connected (r : connect_result)
| op_tls (r : tls_result)
| op_written (failure : option str)
| op_read (r : read_result)
| op_timeout
| op_calls (cmds : list client_cmd).

Record upload_state := Upload {
  up_headers : headers;
  up_mode : upload_mode;
  up_length : option nat;
  up_started : bool;
  up_headers_started : bool;
  up_headers_written : bool;
  up_writing : bool;
  up_ended : bool;
  up_backpressured : bool;
  up_writes : list str;
  up_pending : nat;
  up_accepted : nat
}.

Record reply_state := Reply {
  rp_seen : bool;
  rp_buffer : str;
  rp_head : response_head;
  rp_mode : body_mode;
  rp_remaining : nat;
  rp_delivered : nat
}.

Record hook_state := Hooks {
  hk_headers : bool;
  hk_data : bool;
  hk_complete : bool;
  hk_drain : bool
}.

Record streaming_request := StreamingRequest {
  upload : upload_state;
  reply : reply_state;
  hooks : hook_state;
  reading_response : bool;
  cancelled : bool;
  timed_out : bool;
  outcome : option (option error);
  phase : timeout_phase;
  timer : bool;
  target : url;
  stream : stream_handle;
  waiting : option connect_step;
  outstanding : option write_kind;
  history : list client_event
}.

(** ** Assignments to the fields *)

Definition set_up_headers (x : headers) (u : upload_state) : upload_state :=
  Upload x (up_mode u) (up_length u) (up_started u) (up_headers_started u) (up_headers_written u) (up_writing u)
    (up_ended u) (up_backpressured u) (up_writes u) (up_pending u) (up_accepted u).
Definition set_up_mode (x : upload_mode) (u : upload_state) : upload_state :=
  Upload (up_headers u) x (up_length u) (up_started u) (up_headers_started u) (up_headers_written u) (up_writing u)
    (up_ended u) (up_backpressured u) (up_writes u) (up_pending u) (up_accepted u).
Definition set_up_length (x : option nat) (u : upload_state) : upload_state :=
  Upload (up_headers u) (up_mode u) x (up_started u) (up_headers_started u) (up_headers_written u) (up_writing u)
    (up_ended u) (up_backpressured u) (up_writes u) (up_pending u) (up_accepted u).
Definition set_up_started (x : bool) (u : upload_state) : upload_state :=
  Upload (up_headers u) (up_mode u) (up_length u) x (up_headers_started u) (up_headers_written u) (up_writing u)
    (up_ended u) (up_backpressured u) (up_writes u) (up_pending u) (up_accepted u).
Definition set_up_headers_started (x : bool) (u : upload_state) : upload_state :=
  Upload (up_headers u) (up_mode u) (up_length u) (up_started u) x (up_headers_written u) (up_writing u)
    (up_ended u) (up_backpressured u) (up_writes u) (up_pending u) (up_accepted u).
Definition set_up_headers_written (x : bool) (u : upload_state) : upload_state :=
  Upload (up_headers u) (up_mode u) (up_length u) (up_started u) (up_headers_started u) x (up_writing u)
    (up_ended u) (up_backpressured u) (up_writes u) (up_pending u) (up_accepted u).
Definition set_up_writing (x : bool) (u : upload_state) : upload_state :=
  Upload (up_headers u) (up_mode u) (up_length u) (up_started u) (up_headers_started u) (up_headers_written u) x
    (up_ended u) (up_backpressured u) (up_writes u) (up_pending u) (up_accepted u).
Definition set_up_ended (x : bool) (u : upload_state) : upload_state :=
  Upload (up_headers u) (up_mode u) (up_length u) (up_started u) (up_headers_started u) (up_headers_written u)
    (up_writing u) x (up_backpressured u) (up_writes u) (up_pending u) (up_accepted u).
Definition set_up_backpressured (x : bool) (u : upload_state) : upload_state :=
  Upload (up_headers u) (up_mode u) (up_length u) (up_started u) (up_headers_started u) (up_headers_written u)
    (up_writing u) (up_ended u) x (up_writes u) (up_pending u) (up_accepted u).
Definition set_up_writes (x : list str) (u : upload_state) : upload_state :=
  Upload (up_headers u) (up_mode u) (up_length u) (up_started u) (up_headers_started u) (up_headers_written u)
    (up_writing u) (up_ended u) (up_backpressured u) x (up_pending u) (up_accepted u).
Definition set_up_pending (x : nat) (u : upload_state) : upload_state :=
  Upload (up_headers u) (up_mode u) (up_length u) (up_started u) (up_headers_started u) (up_headers_written u)
    (up_writing u) (up_ended u) (up_backpressured u) (up_writes u) x (up_accepted u).
Definition set_up_accepted (x : nat) (u : upload_state) : upload_state :=
  Upload (up_headers u) (up_mode u) (up_length u) (up_started u) (up_headers_started u) (up_headers_written u)
    (up_writing u) (up_ended u) (up_backpressured u) (up_writes u) (up_pending u) x.
Definition set_rp_seen (x : bool) (r : reply_state) : reply_state :=
  Reply x (rp_buffer r) (rp_head r) (rp_mode r) (rp_remaining r) (rp_delivered r).
Definition set_rp_buffer (x : str) (r : reply_state) : reply_state :=
  Reply (rp_seen r) x (rp_head r) (rp_mode r) (rp_remaining r) (rp_delivered r).
Definition set_rp_head (x : response_head) (r : reply_state) : reply_state :=
  Reply (rp_seen r) (rp_buffer r) x (rp_mode r) (rp_remaining r) (rp_delivered r).
Definition set_rp_mode (x : body_mode) (r : reply_state) : reply_state :=
  Reply (rp_seen r) (rp_buffer r) (rp_head r) x (rp_remaining r) (rp_delivered r).
Definition set_rp_remaining (x : nat) (r : reply_state) : reply_state :=
  Reply (rp_seen r) (rp_buffer r) (rp_head r) (rp_mode r) x (rp_delivered r).
Definition set_rp_delivered (x : nat) (r : reply_state) : reply_state :=
  Reply (rp_seen r) (rp_buffer r) (rp_head r) (rp_mode r) (rp_remaining r) x.
Definition set_hk_headers (x : bool) (h : hook_state) : hook_state :=
  Hooks x (hk_data h) (hk_complete h) (hk_drain h).
Definition set_hk_data (x : bool) (h : hook_state) : hook_state :=
  Hooks (hk_headers h) x (hk_complete h) (hk_drain h).
Definition set_hk_complete (x : bool) (h : hook_state) : hook_state :=
  Hooks (hk_headers h) (hk_data h) x (hk_drain h).
Definition set_hk_drain (x : bool) (h : hook_state) : hook_state :=
  Hooks (hk_headers h) (hk_data h) (hk_complete h) x.
Definition set_upload (x : upload_state) (s : streaming_request) : streaming_request :=
  StreamingRequest x (reply s) (hooks s) (reading_response s) (cancelled s) (timed_out s) (outcome s) (phase s)
    (timer s) (target s) (stream s) (waiting s) (outstanding s) (history s).
Definition set_reply (x : reply_state) (s : streaming_request) : streaming_request :=
  StreamingRequest (upload s) x (hooks s) (reading_response s) (cancelled s) (timed_out s) (outcome s) (phase s)
    (timer s) (target s) (stream s) (waiting s) (outstanding s) (history s).
Definition set_hooks (x : hook_state) (s : streaming_request) : streaming_request :=
  StreamingRequest (upload s) (reply s) x (reading_response s) (cancelled s) (timed_out s) (outcome s) (phase s)
    (timer s) (target s) (stream s) (waiting s) (outstanding s) (history s).
Definition set_reading_response (x : bool) (s : streaming_request) : streaming_request :=
  StreamingRequest (upload s) (reply s) (hooks s) x (cancelled s) (timed_out s) (outcome s) (phase s) (timer s)
    (target s) (stream s) (waiting s) (outstanding s) (history s).
Definition set_cancelled (x : bool) (s : streaming_request) : streaming_request :=
  StreamingRequest (upload s) (reply s) (hooks s) (reading_response s) x (timed_out s) (outcome s) (phase s)
    (timer s) (target s) (stream s) (waiting s) (outstanding s) (history s).
Definition set_timed_out (x : bool) (s : streaming_request) : streaming_request :=
  StreamingRequest (upload s) (reply s) (hooks s) (reading_response s) (cancelled s) x (outcome s) (phase s)
    (timer s) (target s) (stream s) (waiting s) (outstanding s) (history s).
Definition set_outcome (x : option (option error)) (s : streaming_request) : streaming_request :=
  StreamingRequest (upload s) (reply s) (hooks s) (reading_response s) (cancelled s) (timed_out s) x (phase s)
    (timer s) (target s) (stream s) (waiting s) (outstanding s) (history s).
Definition set_phase (x : timeout_phase) (s : streaming_request) : streaming_request :=
  StreamingRequest (upload s) (reply s) (hooks s) (reading_response s) (cancelled s) (timed_out s) (outcome s) x
    (timer s) (target s) (stream s) (waiting s) (outstanding s) (history s).
Definition set_timer (x : bool) (s : streaming_request) : streaming_request :=
  StreamingRequest (upload s) (reply s) (hooks s) (reading_response s) (cancelled s) (timed_out s) (outcome s)
    (phase s) x (target s) (stream s) (waiting s) (outstanding s) (history s).
Definition set_target (x : url) (s : streaming_request) : streaming_request :=
  StreamingRequest (upload s) (reply s) (hooks s) (reading_response s) (cancelled s) (timed_out s) (outcome s)
    (phase s) (timer s) x (stream s) (waiting s) (outstanding s) (history s).
Definition set_stream (x : stream_handle) (s : streaming_request) : streaming_request :=
  StreamingRequest (upload s) (reply s) (hooks s) (reading_response s) (cancelled s) (timed_out s) (outcome s)
    (phase s) (timer s) (target s) x (waiting s) (outstanding s) (history s).
Definition set_waiting (x : option connect_step) (s : streaming_request) : streaming_request :=
  StreamingRequest (upload s) (reply s) (hooks s) (reading_response s) (cancelled s) (timed_out s) (outcome s)
    (phase s) (timer s) (target s) (stream s) x (outstanding s) (history s).
Definition set_outstanding (x : option write_kind) (s : streaming_request) : streaming_request :=
  StreamingRequest (upload s) (reply s) (hooks s) (reading_response s) (cancelled s) (timed_out s) (outcome s)
    (phase s) (timer s) (target s) (stream s) (waiting s) x (history s).
Definition set_history (x : list client_event) (s : streaming_request) : streaming_request :=
  StreamingRequest (upload s) (reply s) (hooks s) (reading_response s) (cancelled s) (timed_out s) (outcome s)
    (phase s) (timer s) (target s) (stream s) (waiting s) (outstanding s) x.

Definition new_request : streaming_request :=
  StreamingRequest (Upload [] upload_none None false false false false false false [] 0 0)
    (Reply false [] (ResponseHead 0 []) body_unknown 0 0) (Hooks false false false false)
    false false false None phase_none false empty_url no_stream None None [].

Definition update_upload (f : upload_state → upload_state) (s : streaming_request) : streaming_request := set_upload (f (upload s)) s.
Definition update_reply (f : reply_state → reply_state) (s : streaming_request) : streaming_request := set_reply (f (reply s)) s.
Definition update_hooks (f : hook_state → hook_state) (s : streaming_request) : streaming_request := set_hooks (f (hooks s)) s.

Definition happen (e : client_event) (s : streaming_request) : streaming_request := set_history (history s ++ [e]) s.

(** [completed_]. *)
Definition completed (s : streaming_request) : bool := match outcome s with Some _ => true | None => false end.
