(* ===== verification/ClientStream.v ===== *)
(** * Streaming requests

    The operations of [detail::streaming_request_state] of [src/http/client.cpp].
    A callback of the user may call the request again; a write may be reported
    within the call that starts it, or fail within [close], and [read_start] may
    hand out bytes at once: what does so is a parameter ([transport]), a function
    of the history.  [level] runs callbacks and reports made within a call,
    nested to a given depth; a write that would be reported deeper stays
    outstanding.  Callbacks do not throw. *)

From S2P Require Import Prelude Text Url Http HttpError Multipart Response ClientWire ClientOptions ClientStreamState.

Open Scope Z_scope.

(** [tr_write]: the report, if it comes within the call, [None] for success.
    [tr_close]: the failure that [close] reports for an outstanding write.
    [tr_early]: what [read_start] delivers at once.  [tr_tls]: what making the
    TLS connection throws. *)
Record transport := Transport {
  tr_write : list client_event → option (option str);
  tr_close : list client_event → option str;
  tr_early : list client_event → list read_result;
  tr_tls : option tls_throw
}.

Definition proc := streaming_request → streaming_request.

Definition cancelled_error : error := make_client_error client_cancelled [].

Definition enable_chunked_upload : proc :=
  update_upload (λ u, set_up_headers (headers_set (up_headers u) (lit "transfer-encoding") (lit "chunked"))
    (set_up_length None (set_up_mode upload_chunked u))).

Definition header (name value : str) (s : streaming_request) : streaming_request :=
  if up_started (upload s) then s else update_upload (λ u, set_up_headers (headers_set (up_headers u) name value) u) s.

Definition content_length (bytes : nat) (s : streaming_request) : streaming_request :=
  if up_started (upload s) then s
  else update_upload (λ u, set_up_headers (headers_set (up_headers u) (lit "content-length") (to_string (N.of_nat bytes)))
    (set_up_length (Some bytes) (set_up_mode upload_content_length u))) s.

Definition chunked (s : streaming_request) : streaming_request :=
  if up_started (upload s) then s else enable_chunked_upload s.

Definition stop_phase_timeout (s : streaming_request) : streaming_request :=
  let s := set_phase phase_none s in
  if timer s then happen ce_timer_stop (set_timer false s) else s.

Definition start_phase_timeout (p : timeout_phase) (duration : Z) (s : streaming_request) : streaming_request :=
  let s := stop_phase_timeout s in
  if duration <=? 0 then s else happen (ce_timer_start p duration) (set_timer true (set_phase p s)).

Section operations.
Context (o : client_options) (m : method) (tr : transport).
(** A callback of the user; a report for a write; bytes that arrive within
    [read_start]. *)
Context (emit : client_event → proc) (deliver : write_kind → option str → proc) (read : read_result → proc).

Definition complete (result : option error) (s : streaming_request) : streaming_request :=
  if completed s then s
  else
    let s := stop_phase_timeout (set_outcome (Some result) s) in
    if hk_complete (hooks s) then emit (ce_complete result) (update_hooks (set_hk_complete false) s) else s.

Definition close_stream (s : streaming_request) : streaming_request :=
  match stream s with
  | open_stream =>
    let s := happen ce_close (set_stream closed_stream s) in
    match outstanding s, tr_close tr (history s) with Some kind, Some message => deliver kind (Some message) s | _, _ => s end
  | _ => s
  end.

Definition stream_write (kind : write_kind) (payload : str) (s : streaming_request) : streaming_request :=
  let s := happen (ce_write payload) (set_outstanding (Some kind) s) in
  match tr_write tr (history s) with Some report => deliver kind report s | None => s end.

(** ** The request body *)

Definition fail_request_body (detail : str) (s : streaming_request) : streaming_request :=
  complete (Some (make_client_error client_request_body_failed detail)) (close_stream s).

Definition flush_upload_writes (s : streaming_request) : streaming_request :=
  let u := upload s in
  match completed s || negb (up_headers_written u) || up_writing u, up_writes u with
  | false, front :: _ => stream_write write_upload front (update_upload (set_up_writing true) s)
  | _, _ => s
  end.

Definition begin_response_read (s : streaming_request) : streaming_request :=
  if completed s || reading_response s then s
  else
    let s := happen ce_read_start (set_reading_response true s) in
    let s := foldl (λ s r, read r s) s (tr_early tr (history s)) in
    start_phase_timeout phase_response_header (response_header_timeout o) s.

Definition notify_upload_drain_if_needed (s : streaming_request) : streaming_request :=
  if negb (up_backpressured (upload s)) then s
  else if (max_pending_request_body_bytes o / 2 <? up_pending (upload s))%nat then s
  else
    let s := update_upload (set_up_backpressured false) s in
    if hk_drain (hooks s) then emit ce_drain s else s.

Definition pop_upload (u : upload_state) : upload_state :=
  match up_writes u with
  | [] => u
  | front :: rest => set_up_writes rest (set_up_pending (up_pending u - Nat.min (up_pending u) (length front)) u)
  end.

Definition on_upload_written (failure : option str) (s : streaming_request) : streaming_request :=
  if completed s then s
  else
    let s := update_upload (set_up_writing false) s in
    match failure with
    | Some message => fail_request_body message s
    | None =>
      let s := notify_upload_drain_if_needed (update_upload pop_upload s) in
      match up_writes (upload s) with
      | _ :: _ => flush_upload_writes s
      | [] => if up_ended (upload s) then begin_response_read s else s
      end
    end.

Definition on_request_headers_written (failure : option str) (s : streaming_request) : streaming_request :=
  if completed s then s
  else
    match failure with
    | Some message => complete (Some (make_client_error client_request_body_failed message)) s
    | None =>
      let s := update_upload (set_up_headers_written true) s in
      let u := upload s in
      match bool_decide (up_mode u = upload_none) || up_ended u, up_writes u with
      | true, [] => if negb (up_writing u) then begin_response_read s else flush_upload_writes s
      | _, _ => flush_upload_writes s
      end
    end.

(** What goes on the wire for a chunk, if the mode allows it. *)
Definition upload_wire (payload : str) (u : upload_state) : option str :=
  match up_mode u with
  | upload_content_length =>
    match up_length u with
    | Some bytes => if (bytes <? up_accepted u + length payload)%nat then None else Some payload
    | None => None
    end
  | upload_chunked => Some (client_serialize_chunk payload)
  | upload_none => None
  end.

Definition push_upload (payload wire : str) (u : upload_state) : upload_state :=
  set_up_writes (up_writes u ++ [wire]) (set_up_pending (up_pending u + length wire)%nat
    (set_up_accepted (up_accepted u + length payload)%nat u)).

Definition write (payload : str) (s : streaming_request) : streaming_request * stream_write_result :=
  let u := upload s in
  if bool_decide (payload = []) then (s, write_ready)
  else if completed s || up_ended u then (s, write_rejected errc_not_connected)
  else if up_backpressured u then (s, write_rejected errc_would_block)
  else if up_headers_written u && bool_decide (up_mode u = upload_none) then (s, write_rejected errc_invalid_argument)
  else if bool_decide (up_mode u = upload_none) && up_headers_started u then (s, write_rejected errc_invalid_argument)
  else
    let s := if bool_decide (up_mode u = upload_none) then enable_chunked_upload s else s in
    match upload_wire payload (upload s) with
    | None => (s, write_rejected errc_invalid_argument)
    | Some wire =>
      let s := flush_upload_writes (happen (ce_accept payload) (update_upload (push_upload payload wire) s)) in
      let limit := max_pending_request_body_bytes o in
      if (0 <? limit)%nat && (limit <=? up_pending (upload s))%nat then (update_upload (set_up_backpressured true) s, write_backpressure)
      else (s, write_ready)
    end.

(** ["0\r\n\r\n"]. *)
Definition last_upload_chunk : str := lit "0" ++ crlf ++ crlf.

Definition push_last (u : upload_state) : upload_state :=
  set_up_writes (up_writes u ++ [last_upload_chunk]) (set_up_pending (up_pending u + 5)%nat u).

Definition finish_upload (s : streaming_request) : streaming_request :=
  let s := flush_upload_writes (update_upload (set_up_ended true) s) in
  let u := upload s in
  match up_headers_written u && negb (up_writing u), up_writes u with
  | true, [] => begin_response_read s
  | _, _ => s
  end.

Definition end_ (s : streaming_request) : streaming_request :=
  let u := upload s in
  if completed s || up_ended u then s
  else
    match up_mode u with
    | upload_none =>
      let s := update_upload (set_up_ended true) s in
      if up_headers_written u then begin_response_read s else s
    | upload_content_length =>
      if bool_decide (up_length u = Some (up_accepted u)) then finish_upload s
      else fail_request_body (lit "content-length request body size mismatch") s
    | upload_chunked => finish_upload (update_upload push_last s)
    end.

(** ** The request head *)

Definition line (text : str) : str := text ++ crlf.

Definition request_text (url : url) (hs : headers) : str :=
  method_to_string m ++ lit " " ++ origin_form_target url ++ lit " HTTP/1.1" ++ crlf ++
  line (lit "Host: " ++ host url ++ (if has_port url then lit ":" ++ port url else [])) ++
  (if headers_contains hs (lit "user-agent") then [] else line (lit "User-Agent: uvpp-protocols/0")) ++
  (if headers_contains hs (lit "accept") then [] else line (lit "Accept: */*")) ++
  (if headers_contains hs (lit "connection") then []
   else if (max_idle_connections_per_origin o =? 0)%nat then line (lit "Connection: close") else []) ++
  flat_map (λ h, if names_equal h.1 (lit "host") then [] else line (h.1 ++ lit ": " ++ h.2)) hs ++
  crlf.

Definition start_head (u : upload_state) : upload_state :=
  let u := set_up_headers_started true u in
  if bool_decide (up_mode u = upload_content_length) && bool_decide (up_length u = Some 0%nat) then set_up_ended true u else u.

Definition write_request (s : streaming_request) : streaming_request :=
  let request := request_text (target s) (up_headers (upload s)) in
  stream_write write_head request (start_phase_timeout phase_request_body (request_body_timeout o) (update_upload start_head s)).

(** ** Connecting *)

(** The checks that a step begins with. *)
Definition unless_cancelled (p : proc) (s : streaming_request) : streaming_request :=
  if completed s then s
  else if cancelled s then (if timed_out s then s else complete (Some cancelled_error) s)
  else p s.

Definition on_resolved (failure : option source_error) : proc :=
  unless_cancelled (λ s,
    match failure with
    | Some e => complete (Some (wrap_client_error client_dns_failed e)) s
    | None => happen ce_connect (set_waiting (Some step_connect) (stop_phase_timeout s))
    end).

Definition start_tls (s : streaming_request) : streaming_request :=
  match tr_tls tr with
  | Some (tls_context_throws what) => complete (Some (make_client_error client_tls_failed what)) s
  | Some (tls_connect_throws what) =>
    complete (Some (make_client_error client_tls_failed what)) (start_phase_timeout phase_tls_handshake (tls_handshake_timeout o) s)
  | None => happen ce_tls (set_waiting (Some step_tls) (start_phase_timeout phase_tls_handshake (tls_handshake_timeout o) s))
  end.

Definition on_connected (r : connect_result) : proc :=
  unless_cancelled (λ s,
    match r with
    | connect_timed_out => complete (Some (make_client_error client_timeout (lit "TCP connect timed out"))) s
    | connect_failed e => complete (Some (wrap_client_error client_connect_failed e)) s
    | connect_ok =>
      if bool_decide (scheme_id (target s) = scheme_https) then start_tls s
      else write_request (set_stream open_stream s)
    end).

Definition on_tls_connected (r : tls_result) : proc :=
  unless_cancelled (λ s,
    match r with
    | tls_failed e => complete (Some (wrap_client_error client_tls_failed e)) s
    | tls_ok alpn =>
      if negb (str_eqb alpn []) && negb (str_eqb alpn (lit "http/1.1")) then
        complete (Some (make_client_error client_tls_failed (lit "unsupported TLS ALPN protocol"))) (happen ce_close s)
      else write_request (set_stream open_stream s)
    end).

(** The step that is under way ends with an error at once. *)
Definition cancel_step (s : streaming_request) : streaming_request :=
  let cancelled := SourceError (lit "cancelled") [] in
  let s' := set_waiting None s in
  match waiting s with
  | Some step_dns => on_resolved (Some cancelled) s'
  | Some step_connect => on_connected (connect_failed cancelled) s'
  | Some step_tls => on_tls_connected (tls_failed cancelled) s'
  | None => s
  end.

Definition cancel (s : streaming_request) : streaming_request :=
  if completed s then s else complete (Some cancelled_error) (close_stream (cancel_step (set_cancelled true s))).

Definition on_timeout (p : timeout_phase) (s : streaming_request) : streaming_request :=
  if completed s || negb (bool_decide (p = phase s)) then s
  else
    complete (Some (make_client_error client_timeout (timeout_phase_name p)))
      (close_stream (cancel_step (set_timed_out true (set_cancelled true s)))).

(** [pooled]: the pool has a connection for the origin. *)
Definition start (url_input : str) (pooled : bool) (s : streaming_request) : streaming_request :=
  let s := update_upload (set_up_started true) s in
  match parse_url url_input with
  | Err e => complete (Some (wrap_client_error client_invalid_url (url_source e))) s
  | Ok url =>
    let s := set_target url s in
    if negb (http_scheme url) then complete (Some (make_client_error client_unsupported_scheme [])) s
    else if negb (str_eqb (proxy_url (proxy o)) []) then
      complete (Some (make_client_error client_proxy_failed (lit "HTTP proxying is not implemented for streaming requests"))) s
    else
      match authority_endpoint url with
      | Err e => complete (Some (wrap_client_error client_invalid_url (url_source e))) s
      | Ok _ =>
        if pooled then write_request (set_stream open_stream s)
        else start_phase_timeout phase_dns (dns_timeout o) (happen ce_resolve (set_waiting (Some step_dns) s))
      end
  end.

(** ** The response *)

Definition finish_response_success (s : streaming_request) : streaming_request :=
  let head := rp_head (reply s) in
  let s :=
    if (0 <? max_idle_connections_per_origin o)%nat && negb (connection_requests_close (rh_headers head)) &&
       response_has_reusable_framing m (rh_status_code head) (rh_headers head) &&
       match stream s with no_stream => false | _ => true end
    then happen (ce_release (origin_key (target s))) (happen ce_read_stop (set_stream no_stream s))
    else close_stream s in
  complete None s.

Definition fail (code : errc) (detail : string) (s : streaming_request) : streaming_request :=
  complete (Some (make_client_error code (lit detail))) (close_stream s).

Definition emit_body (data : str) (s : streaming_request) : streaming_request :=
  match data with
  | [] => s
  | _ =>
    let s := update_reply (λ r, set_rp_delivered (rp_delivered r + length data)%nat r) s in
    if hk_data (hooks s) then emit (ce_data data) s else s
  end.

Definition erase (n : nat) : proc := update_reply (λ r, set_rp_buffer (drop n (rp_buffer r)) r).

Fixpoint content_length_loop (fuel : nat) (s : streaming_request) : streaming_request :=
  match fuel with
  | O => s
  | S fuel' =>
    let r := reply s in
    if negb (completed s) && (0 <? rp_remaining r)%nat && negb (bool_decide (rp_buffer r = [])) then
      let size := Nat.min (rp_remaining r) (length (rp_buffer r)) in
      let s := erase size (emit_body (take size (rp_buffer r)) s) in
      content_length_loop fuel' (update_reply (λ r, set_rp_remaining (rp_remaining r - size)%nat r) s)
    else s
  end.

Definition process_content_length_body (s : streaming_request) : streaming_request :=
  let s := content_length_loop (S (length (rp_buffer (reply s)))) s in
  if negb (completed s) && (rp_remaining (reply s) =? 0)%nat then finish_response_success s else s.

(** [chunk_size + 2] is an [unsigned int]; [data_offset] and the sums with the
    delivered bytes are sizes. *)
Fixpoint process_chunked_body (fuel : nat) (s : streaming_request) : streaming_request :=
  match fuel with
  | O => s
  | S fuel' =>
    let buffer := rp_buffer (reply s) in
    if completed s then s
    else
      match find_sub crlf buffer with
      | None => s
      | Some line_end =>
        match parse_uint (drop_extension (take line_end buffer)) 16 with
        | None => fail client_malformed_response "chunk size is invalid" s
        | Some chunk_size =>
          let data_offset := (line_end + 2)%nat in
          let rest := drop data_offset buffer in
          if chunk_size =? 0 then
            if crlf_here rest then finish_response_success (erase (data_offset + 2) s)
            else
              match find_sub crlf2 rest with
              | None => s
              | Some trailer_end => finish_response_success (erase (data_offset + trailer_end + 4) s)
              end
          else if Z.of_nat (length rest) <? (chunk_size + 2) mod 2 ^ 32 then s
          else if max_body_bytes o <? Z.of_nat (rp_delivered (reply s)) + chunk_size then fail client_body_limit_exceeded "" s
          else if Z.of_nat (length rest) <? chunk_size then happen ce_throw s
          else
            let size := Z.to_nat chunk_size in
            if negb (crlf_here (drop size rest)) then fail client_malformed_response "chunk body is not terminated" s
            else process_chunked_body fuel' (erase (data_offset + size + 2) (emit_body (take size rest) s))
        end
      end
  end.

Definition emit_buffer_as_body (s : streaming_request) : streaming_request :=
  let r := reply s in
  if bool_decide (rp_buffer r = []) then s
  else if max_body_bytes o <? Z.of_nat (rp_delivered r + length (rp_buffer r)) then fail client_body_limit_exceeded "" s
  else update_reply (set_rp_buffer []) (emit_body (rp_buffer r) s).

Definition process_body (s : streaming_request) : streaming_request :=
  match rp_mode (reply s) with
  | body_none | body_unknown => s
  | body_content_length => process_content_length_body s
  | body_chunked => process_chunked_body (S (length (rp_buffer (reply s)))) s
  | body_eof => emit_buffer_as_body s
  end.

(** The mode of a body that there may be, and its length. *)
Definition choose_body_mode (hs : headers) : result error (body_mode * nat) :=
  if chunked_encoding hs then Ok (body_chunked, 0%nat)
  else
    let length_value := headers_get hs (lit "content-length") in
    if negb (str_eqb length_value []) then
      match parse_uint length_value 10 with
      | None => Err (make_client_error client_malformed_response (lit "content-length is invalid"))
      | Some parsed_length =>
        if max_body_bytes o <? parsed_length then Err (make_client_error client_body_limit_exceeded [])
        else Ok (body_content_length, Z.to_nat parsed_length)
      end
    else Ok (body_eof, 0%nat).

Definition set_body_mode (mode : body_mode) (remaining : nat) : proc :=
  update_reply (λ r, set_rp_mode mode (match mode with body_content_length => set_rp_remaining remaining r | _ => r end)).

Definition on_head (head : response_head) (s : streaming_request) : streaming_request :=
  let s := if hk_headers (hooks s) then emit (ce_headers head) s else s in
  if response_must_not_have_body m (rh_status_code head) then finish_response_success (set_body_mode body_none 0 s)
  else
    match choose_body_mode (rh_headers head) with
    | Err e => complete (Some e) (close_stream s)
    | Ok (mode, remaining) =>
      process_body (start_phase_timeout phase_response_body (response_body_timeout o) (set_body_mode mode remaining s))
    end.

Definition process_buffer (s : streaming_request) : streaming_request :=
  let r := reply s in
  if completed s then s
  else if rp_seen r then process_body s
  else
    match find_sub crlf2 (rp_buffer r) with
    | None => if max_header_bytes o <? Z.of_nat (length (rp_buffer r)) then fail client_header_limit_exceeded "" s else s
    | Some _ =>
      match parse_response_head (rp_buffer r) (max_header_bytes o) with
      | Err (fail_error e) => complete (Some e) (close_stream s)
      | Err (fail_throw _) => happen ce_throw s
      | Ok (head, body_offset) =>
        on_head head (update_reply (λ r, set_rp_seen true (set_rp_buffer (drop body_offset (rp_buffer r)) (set_rp_head head r))) s)
      end
    end.

Definition on_eof (s : streaming_request) : streaming_request :=
  let r := reply s in
  let finish (s : streaming_request) := complete None (close_stream s) in
  if negb (rp_seen r) then fail client_malformed_response "response headers are incomplete" s
  else
    match rp_mode r with
    | body_content_length =>
      if negb (rp_remaining r =? 0)%nat then fail client_malformed_response "response body is incomplete" s else finish s
    | body_chunked => fail client_malformed_response "chunked body is incomplete" s
    | body_eof => let s := emit_buffer_as_body s in if completed s then s else finish s
    | body_none | body_unknown => finish s
    end.

Definition on_read (r : read_result) (s : streaming_request) : streaming_request :=
  if completed s then s
  else
    match r with
    | read_eof => on_eof s
    | read_error message => complete (Some (make_client_error client_connect_failed message)) (close_stream s)
    | read_bytes bytes => process_buffer (update_reply (λ r, set_rp_buffer (rp_buffer r ++ bytes) r) s)
    end.

Definition on_report (kind : write_kind) (failure : option str) (s : streaming_request) : streaming_request :=
  let s := set_outstanding None s in
  match kind with
  | write_head => on_request_headers_written failure s
  | write_upload => on_upload_written failure s
  end.

(** ** The calls of the user *)

Definition run_client_cmd (s : streaming_request) (c : client_cmd) : streaming_request :=
  match c with
  | cc_header name value => header name value s
  | cc_content_length bytes => content_length bytes s
  | cc_chunked => chunked s
  | cc_on_headers b => update_hooks (set_hk_headers b) s
  | cc_on_data b => update_hooks (set_hk_data b) s
  | cc_on_complete b => update_hooks (set_hk_complete b) s
  | cc_on_drain b => update_hooks (set_hk_drain b) s
  | cc_write payload => (write payload s).1
  | cc_end => end_ s
  | cc_cancel => cancel s
  end.
End operations.

(** ** Nested callbacks and runs *)

Section runs.
Context (o : client_options) (m : method) (tr : transport) (calls : list client_event → client_event → list client_cmd).

Record level_ops := Level { l_emit : client_event → proc; l_deliver : write_kind → option str → proc; l_read : read_result → proc }.

Definition next_level (l : level_ops) : level_ops :=
  Level (λ e s, let s := happen e s in foldl (run_client_cmd o m tr (l_emit l) (l_deliver l) (l_read l)) s (calls (history s) e))
    (on_report o tr (l_emit l) (l_deliver l) (l_read l))
    (on_read o m tr (l_emit l) (l_deliver l)).

Fixpoint level (depth : nat) : level_ops :=
  match depth with
  | O => Level happen (λ _ _ s, s) (λ _ s, s)
  | S depth' => next_level (level depth')
  end.

(** A report or a timeout comes only for what is under way, and bytes only while
    the stream is read. *)
Definition run_client_op (l : level_ops) (s : streaming_request) (op : client_op) : streaming_request :=
  match op with
  | op_resolved failure =>
    match waiting s with
    | Some step_dns => on_resolved (l_emit l) failure (set_waiting None s)
    | _ => s
    end
  | op_connected r =>
    match waiting s with
    | Some step_connect => on_connected o m tr (l_emit l) (l_deliver l) r (set_waiting None s)
    | _ => s
    end
  | op_tls r =>
    match waiting s with
    | Some step_tls => on_tls_connected o m tr (l_emit l) (l_deliver l) r (set_waiting None s)
    | _ => s
    end
  | op_written failure =>
    match outstanding s with
    | Some kind => on_report o tr (l_emit l) (l_deliver l) (l_read l) kind failure s
    | None => s
    end
  | op_read r => if reading_response s && match stream s with open_stream => true | _ => false end then on_read o m tr (l_emit l) (l_deliver l) r s else s
  | op_timeout => if timer s then on_timeout o m tr (l_emit l) (l_deliver l) (phase s) s else s
  | op_calls cmds => foldl (run_client_cmd o m tr (l_emit l) (l_deliver l) (l_read l)) s cmds
  end.

(** The calls that a request has before it is started. *)
Definition setup_cmd (c : client_cmd) : bool :=
  match c with cc_write _ | cc_end | cc_cancel => false | _ => true end.

Definition run_request (depth : nat) (setup : list client_cmd) (url_input : str) (pooled : bool) (ops : list client_op) : streaming_request :=
  let l := level depth in
  let s := foldl (run_client_cmd o m tr (l_emit l) (l_deliver l) (l_read l)) new_request (List.filter setup_cmd setup) in
  foldl (run_client_op l) (start o m tr (l_emit l) (l_deliver l) url_input pooled s) ops.
End runs.
