(* ===== verification/ClientStreamTheory.v ===== *)
(** * The steps of a streaming request

    [tick] is an abstract machine of a started request: the upload, the end, and
    what the user is told.  Every operation of [ClientStream], with whatever the
    user calls back and the transport reports, is a sequence of its steps, so
    that an invariant is proved by cases on the steps.  While the response is
    read, what a callback runs consists of steps that leave the response alone
    ([tick false]). *)

From stdpp Require Import relations.
From S2P Require Import Prelude Text Url Http HttpError Multipart Response ClientWire ClientOptions.
From S2P Require Import ClientStreamState ClientStream.

Open Scope nat_scope.

Definition inert_event (e : client_event) : bool :=
  match e with ce_resolve | ce_connect | ce_tls | ce_timer_start _ _ | ce_timer_stop => true | _ => false end.

Definition head_started (s : streaming_request) : bool := up_headers_started (upload s).

(** Changes of what no step depends on. *)
Record inert (s s' : streaming_request) : Prop := {
  in_upload : upload s' = upload s;
  in_reply : reply s' = reply s;
  in_reading : reading_response s' = reading_response s;
  in_outcome : outcome s' = outcome s;
  in_stream : stream s' = stream s;
  in_outstanding : outstanding s' = outstanding s;
  in_waiting : waiting s' = waiting s ∨ waiting s' = None ∨ (head_started s = false ∧ stream s = no_stream);
  in_target : head_started s = true → target s' = target s;
  in_history : ∃ es, history s' = history s ++ es ∧ forallb inert_event es = true
}.

(** The end: [complete], with the callback if it is set. *)
Definition finished (result : option error) (s : streaming_request) : streaming_request :=
  let s := stop_phase_timeout (set_outcome (Some result) s) in
  if hk_complete (hooks s) then happen (ce_complete result) (update_hooks (set_hk_complete false) s) else s.

Definition closed_now (s : streaming_request) : streaming_request :=
  match stream s with open_stream => happen ce_close (set_stream closed_stream s) | _ => s end.

(** The report of a write that fails as the stream is closed. *)
Definition dropped (report : option write_kind) (s : streaming_request) : streaming_request :=
  match report with
  | None => s
  | Some write_head => set_outstanding None s
  | Some write_upload => update_upload (set_up_writing false) (set_outstanding None s)
  end.

(** A write was reported: it leaves the queue, and the pressure may end. *)
Definition settled (o : client_options) (u : upload_state) : upload_state :=
  let u := pop_upload (set_up_writing false u) in
  if up_backpressured u && negb (max_pending_request_body_bytes o / 2 <? up_pending u) then set_up_backpressured false u else u.

(** The whole request body was written, or there is none. *)
Definition body_written (u : upload_state) : Prop :=
  (up_mode u = upload_none ∨ up_ended u = true) ∧ up_writes u = [] ∧ up_writing u = false ∧ up_headers_written u = true.

Section tick.
(** [late]: whether callbacks of the response head may end the request. *)
Context (o : client_options) (m : method) (late : bool).

Inductive tick (resp : bool) : relation streaming_request :=
| t_inert s s' : inert s s' → tick resp s s'
| t_report s : tick resp s (set_outstanding None s)
| t_enable s : up_mode (upload s) = upload_none → head_started s = false → up_ended (upload s) = false → tick resp s (enable_chunked_upload s)
| t_accept payload wire s :
    completed s = false → up_ended (upload s) = false → up_backpressured (upload s) = false → payload ≠ [] →
    upload_wire payload (upload s) = Some wire →
    tick resp s (happen (ce_accept payload) (update_upload (push_upload payload wire) s))
| t_pressure s : (0 < max_pending_request_body_bytes o ≤ up_pending (upload s))%nat → tick resp s (update_upload (set_up_backpressured true) s)
| t_stream s : completed s = false → head_started s = false → waiting s = None → tick resp s (set_stream open_stream s)
| t_head s :
    completed s = false → head_started s = false → stream s = open_stream → waiting s = None →
    tick resp s (happen (ce_write (request_text o m (target s) (up_headers (upload s))))
      (set_outstanding (Some write_head) (update_upload start_head s)))
| t_head_written s : completed s = false → outstanding s = None → head_started s = true → up_headers_written (upload s) = false →
    tick resp s (update_upload (set_up_headers_written true) s)
| t_upload front rest s :
    completed s = false → up_headers_written (upload s) = true → up_writing (upload s) = false → up_writes (upload s) = front :: rest →
    tick resp s (happen (ce_write front) (set_outstanding (Some write_upload) (update_upload (set_up_writing true) s)))
| t_uploaded s : completed s = false → outstanding s = None → up_writing (upload s) = true → tick resp s (update_upload (settled o) s)
| t_drain s : completed s = false → tick resp s (happen ce_drain s)
| t_end_none s : completed s = false → up_ended (upload s) = false → up_mode (upload s) = upload_none →
    tick resp s (update_upload (set_up_ended true) s)
| t_end_length s : completed s = false → up_ended (upload s) = false → up_mode (upload s) = upload_content_length →
    up_length (upload s) = Some (up_accepted (upload s)) → tick resp s (update_upload (set_up_ended true) s)
| t_end_chunked s : completed s = false → up_ended (upload s) = false → up_mode (upload s) = upload_chunked →
    tick resp s (update_upload (set_up_ended true) (update_upload push_last s))
| t_finish result s : completed s = false → tick resp s (finished result s)
| t_shut report result s : completed s = false → tick resp s (finished result (dropped report (closed_now s)))
| t_close s : completed s = true → tick resp s (closed_now s)
| t_alpn result s : completed s = false → stream s = no_stream → tick resp s (finished result (happen ce_close s))
| t_begin s : resp = true → completed s = false → reading_response s = false → body_written (upload s) →
    tick resp s (happen ce_read_start (set_reading_response true s))
| t_reply r s : resp = true → tick resp s (set_reply r s)
| t_headers h s : resp = true → completed s = false → tick resp s (happen (ce_headers h) s)
| t_data d s : resp = true → completed s = false ∨ late = true → tick resp s (happen (ce_data d) s)
| t_release s : resp = true → completed s = false → stream s = open_stream →
    tick resp s (finished None (happen (ce_release (origin_key (target s))) (happen ce_read_stop (set_stream no_stream s))))
| t_release_late s : resp = true → completed s = true → late = true → stream s ≠ no_stream →
    tick resp s (happen (ce_release (origin_key (target s))) (happen ce_read_stop (set_stream no_stream s)))
| t_throw s : resp = true → tick resp s (happen ce_throw s).

Definition ticks (resp : bool) : relation streaming_request := rtc (tick resp).

(** What the guards of the steps rest on. *)
Record steady (s : streaming_request) : Prop := {
  st_started : up_started (upload s) = true;
  st_upload : completed s = false → outstanding s = Some write_upload → up_writing (upload s) = true;
  st_head : completed s = false → outstanding s = Some write_head → head_started s = true ∧ up_headers_written (upload s) = false;
  st_none : up_mode (upload s) = upload_none → up_writes (upload s) = [];
  st_writing : completed s = false → up_writing (upload s) = true → up_writes (upload s) ≠ [] ∧ up_headers_written (upload s) = true;
  st_written : up_headers_written (upload s) = true → head_started s = true;
  st_waiting : waiting s ≠ None → head_started s = false ∧ stream s = no_stream;
  st_reading : reading_response s = true → head_started s = true;
  st_stream : completed s = false → head_started s = true → stream s = open_stream
}.

Lemma stop_same s :
  let s' := stop_phase_timeout s in
  upload s' = upload s ∧ reply s' = reply s ∧ hooks s' = hooks s ∧ reading_response s' = reading_response s ∧ outcome s' = outcome s ∧
  target s' = target s ∧ stream s' = stream s ∧ waiting s' = waiting s ∧ outstanding s' = outstanding s ∧
  ∃ es, history s' = history s ++ es ∧ forallb inert_event es = true.
Proof.
  unfold stop_phase_timeout. cbn. destruct (timer s); cbn; split_and!; try done; [by exists [ce_timer_stop]|exists []; by rewrite app_nil_r].
Qed.

Lemma finished_same result s :
  let s' := finished result s in
  upload s' = upload s ∧ reply s' = reply s ∧ reading_response s' = reading_response s ∧ outcome s' = Some result ∧ target s' = target s ∧
  stream s' = stream s ∧ waiting s' = waiting s ∧ outstanding s' = outstanding s ∧
  ∃ es, history s' = history s ++ es ++ (if hk_complete (hooks s) then [ce_complete result] else []) ∧ forallb inert_event es = true.
Proof.
  unfold finished. destruct (stop_same (set_outcome (Some result) s)) as (H1 & H2 & H3 & H4 & H5 & H6 & H7 & H8 & H9 & es & H10 & H11).
  cbv zeta. rewrite H3. cbn [set_outcome hooks]. destruct (hk_complete (hooks s)); split_and!; cbn; try (by rewrite ?H1, ?H2, ?H4, ?H5, ?H6, ?H7, ?H8, ?H9);
    exists es; rewrite H10; cbn; by rewrite ?app_nil_r, <-?app_assoc.
Qed.

Lemma closed_now_same s :
  let s' := closed_now s in
  upload s' = upload s ∧ reply s' = reply s ∧ hooks s' = hooks s ∧ reading_response s' = reading_response s ∧ outcome s' = outcome s ∧
  target s' = target s ∧ waiting s' = waiting s ∧ outstanding s' = outstanding s ∧
  history s' = history s ++ match stream s with open_stream => [ce_close] | _ => [] end.
Proof. unfold closed_now. destruct (stream s); cbn; by rewrite ?app_nil_r. Qed.

Lemma dropped_same report s :
  let s' := dropped report s in
  up_writes (upload s') = up_writes (upload s) ∧ reply s' = reply s ∧ hooks s' = hooks s ∧ reading_response s' = reading_response s ∧
  outcome s' = outcome s ∧ target s' = target s ∧ waiting s' = waiting s ∧ stream s' = stream s ∧ history s' = history s ∧
  upload s' = set_up_writing (up_writing (upload s')) (upload s).
Proof. unfold dropped. destruct report as [[]|]; cbn; split_and!; try done; by destruct (upload s). Qed.

Lemma settled_same u :
  up_writing (settled o u) = false ∧ up_writes (settled o u) = tail (up_writes u) ∧
  up_pending (settled o u) = up_pending u - Nat.min (up_pending u) (length (default [] (head (up_writes u)))) ∧
  up_headers (settled o u) = up_headers u ∧ up_mode (settled o u) = up_mode u ∧ up_length (settled o u) = up_length u ∧
  up_started (settled o u) = up_started u ∧ up_headers_started (settled o u) = up_headers_started u ∧
  up_headers_written (settled o u) = up_headers_written u ∧ up_ended (settled o u) = up_ended u ∧
  up_accepted (settled o u) = up_accepted u ∧
  (up_backpressured (settled o u) = true → up_backpressured u = true ∧ max_pending_request_body_bytes o / 2 < up_pending (settled o u)).
Proof.
  assert (Hpop : let v := pop_upload (set_up_writing false u) in
    v = set_up_writing false (set_up_writes (tail (up_writes u))
          (set_up_pending (up_pending u - Nat.min (up_pending u) (length (default [] (head (up_writes u))))) u))).
  { unfold pop_upload. destruct u as [? ? ? ? ? ? ? ? ? [|w ws] pd ?]; cbn; [|done]. by rewrite Nat.min_0_r, Nat.sub_0_r. }
  unfold settled. cbv zeta in *. rewrite Hpop. destruct (_ && _) eqn:E; cbn in *; split_and!; try done. intros Hb. split; [done|].
  rewrite Hb in E. cbn in E. by apply negb_false_iff, Nat.ltb_lt in E.
Qed.
End tick.

(** ** What the steps keep *)

Section keeps.
Context (o : client_options) (m : method) (late : bool).

Lemma completed_outcome s s' : outcome s' = outcome s → completed s' = completed s.
Proof. unfold completed. by intros ->. Qed.

Lemma finished_completed result s : completed (finished result s) = true.
Proof. unfold completed. by destruct (finished_same result s) as (_ & _ & _ & -> & _). Qed.

(** States of which the steps may go on with the upload. *)
Lemma steady_finish result s s' :
  steady s → up_started (upload s') = up_started (upload s) → up_mode (upload s') = up_mode (upload s) → up_writes (upload s') = up_writes (upload s) →
  up_headers_written (upload s') = up_headers_written (upload s) → head_started s' = head_started s →
  waiting s' = waiting s → reading_response s' = reading_response s → (stream s = no_stream → stream s' = no_stream) → steady (finished result s').
Proof.
  intros [H1 _ _ H2 _ H3 H4 H5 _] E1 E2 E3 E4 E5 E6 E7 E8. destruct (finished_same result s') as (Hu & _ & Hr & Ho & _ & Hst & Hw & _).
  unfold head_started in *. constructor; unfold completed, head_started; rewrite ?Hu, ?Hr, ?Ho, ?Hst, ?Hw, ?E1, ?E2, ?E3, ?E4, ?E5, ?E6, ?E7; try done.
  intros Hx. destruct (H4 Hx). auto.
Qed.

Lemma closed_now_none s : stream s = no_stream → stream (closed_now s) = no_stream.
Proof. intros H. unfold closed_now. by rewrite H. Qed.

Lemma tick_steady resp s s' : tick o m late resp s s' → steady s → steady s'.
Proof.
  intros Ht Hs. pose proof Hs as [Hst Hup Hhd Hno Hwr Hwn Hwt Hrd Hsm]. destruct Ht.
  - destruct H as [Eu Er Erd Eo Es Eout Ew Et _].
    constructor; unfold head_started; rewrite ?(completed_outcome _ _ Eo), ?Eu, ?Erd, ?Es, ?Eout; auto.
    destruct Ew as [-> | [-> | Hf]]; [done|done|]. intros _. exact Hf.
  - by constructor.
  - constructor; cbn; auto.
  - constructor; cbn; auto.
    + intros Hm. unfold upload_wire in H3. by rewrite Hm in H3.
    + intros H5 H6. destruct (Hwr H5 H6). split; [by destruct (up_writes _)|done].
  - by constructor.
  - constructor; cbn; auto. intros Hx. by rewrite H1 in Hx.
  - assert (E : up_headers_written (upload s) = false). { destruct (up_headers_written _) eqn:E; [|done]. unfold head_started in *. rewrite Hwn in H0; done. }
    constructor; unfold head_started, start_head; cbn; repeat case_match; cbn; auto; try done; congruence.
  - constructor; unfold head_started; cbn; auto; [congruence|]. intros Hc Hw. by destruct (Hwr Hc Hw).
  - constructor; unfold head_started; cbn; auto; try done. intros _ _. split; [by rewrite H2|done].
  - destruct (settled_same o (upload s)) as (E1 & E2 & _ & _ & E3 & _ & E4 & E5 & E6 & _).
    constructor; unfold head_started, completed; cbn; rewrite ?E1, ?E2, ?E3, ?E4, ?E5, ?E6; auto; try congruence.
    intros Hm. by rewrite (Hno Hm).
  - by constructor.
  - constructor; cbn; auto.
  - constructor; cbn; auto.
  - constructor; cbn; auto; [congruence|]. intros H2 H3. destruct (Hwr H2 H3). split; [by destruct (up_writes _)|done].
  - by apply (steady_finish _ s).
  - destruct (closed_now_same s) as (E1 & _ & _ & E2 & _ & _ & E3 & _). destruct (dropped_same report (closed_now s)) as (D1 & _ & _ & D2 & _ & _ & D3 & D5 & _ & D4).
    pose proof (f_equal up_started D4) as F1. pose proof (f_equal up_mode D4) as F2. pose proof (f_equal up_headers_written D4) as F3.
    pose proof (f_equal up_headers_started D4) as F4. cbn in F1, F2, F3, F4. apply (steady_finish _ s); unfold head_started; try congruence.
    intros Hx. rewrite D5. by apply closed_now_none.
  - destruct (closed_now_same s) as (E1 & _ & _ & E2 & E0 & _ & E3 & E4 & _). apply completed_outcome in E0.
    constructor; unfold head_started; rewrite ?E0, ?E1, ?E2, ?E3, ?E4; try done; [|congruence].
    intros Hx. destruct (Hwt Hx). split; [done|by apply closed_now_none].
  - by apply (steady_finish _ s).
  - constructor; unfold head_started; cbn; auto. intros _. apply Hwn. by destruct H2 as (_ & _ & _ & ?).
  - by constructor.
  - by constructor.
  - by constructor.
  - by apply (steady_finish _ s).
  - constructor; unfold head_started; cbn; auto.
    + intros Hx. by destruct (Hwt Hx).
    + intros Hc. change (completed s = false) in Hc. congruence.
  - by constructor.
Qed.

Lemma ticks_steady resp s s' : ticks o m late resp s s' → steady s → steady s'.
Proof. induction 1; eauto using tick_steady. Qed.

(** What happened stays. *)
Record grows (s s' : streaming_request) : Prop := {
  gr_completed : completed s = true → outcome s' = outcome s;
  gr_written : up_headers_written (upload s) = true → up_headers_written (upload s') = true;
  gr_ended : up_ended (upload s) = true → up_ended (upload s') = true;
  gr_reading : reading_response s = true → reading_response s' = true;
  gr_history : history s `prefix_of` history s'
}.

#[export] Instance grows_preorder : PreOrder grows.
Proof.
  split; [by constructor|]. intros s1 s2 s3 [H1 H2 H3 H4 H5] [G1 G2 G3 G4 G5]. constructor; auto; [|by etransitivity].
  intros Hc. rewrite G1; [by apply H1|]. unfold completed in *. by rewrite (H1 Hc).
Qed.

Lemma grows_finish result s s' :
  completed s = false → up_headers_written (upload s') = up_headers_written (upload s) → up_ended (upload s') = up_ended (upload s) → reading_response s' = reading_response s →
  history s `prefix_of` history s' → grows s (finished result s').
Proof.
  intros Hc H1 H1e H2 H3. destruct (finished_same result s') as (Eu & _ & Er & _ & _ & _ & _ & _ & es & Eh & _).
  constructor; rewrite ?Eu, ?Er, ?H1, ?H1e, ?H2, ?Eh; auto; [congruence|]. by apply prefix_app_r.
Qed.

Lemma tick_grows resp s s' : tick o m late resp s s' → grows s s'.
Proof.
  intros Ht. destruct Ht.
  all: try (by constructor; cbn; auto; try congruence; try apply prefix_app_r).
  all: try (by apply grows_finish; cbn; try apply prefix_app_r).
  - destruct H as [Eu _ Er Eo _ _ _ _ [es [Eh _]]]. constructor; rewrite ?Eu, ?Er, ?Eh; auto. by apply prefix_app_r.
  - constructor; cbn; auto; [by unfold start_head; case_match|by unfold start_head; case_match|]. by apply prefix_app_r.
  - destruct (settled_same o (upload s)) as (_ & _ & _ & _ & _ & _ & _ & _ & E & E' & _). constructor; cbn; rewrite ?E, ?E'; auto.
  - destruct (closed_now_same s) as (E1 & _ & _ & E2 & _ & _ & _ & _ & E3). destruct (dropped_same report (closed_now s)) as (_ & _ & _ & D2 & _ & _ & _ & _ & D3 & D4).
    pose proof (f_equal up_headers_written D4) as F. pose proof (f_equal up_ended D4) as F'. cbn in F, F'. apply grows_finish; [done|congruence..|]. rewrite D3, E3. by apply prefix_app_r.
  - destruct (closed_now_same s) as (E1 & _ & _ & E2 & E4 & _ & _ & _ & E3). constructor; rewrite ?E1, ?E2, ?E3, ?E4; auto. by apply prefix_app_r.
  - apply grows_finish; [done..|]. cbn. rewrite <-app_assoc. by apply prefix_app_r.
  - constructor; cbn; auto. rewrite <-app_assoc. by apply prefix_app_r.
Qed.

Lemma ticks_grow resp s s' : ticks o m late resp s s' → grows s s'.
Proof. induction 1 as [|s1 s2 s3 Ht _ IH]; [done|]. etransitivity; [by eapply tick_grows|done]. Qed.

(** Runs of operations; while the response is read they leave it alone. *)
Definition runs (s s' : streaming_request) : Prop :=
  steady s → ticks o m late true s s' ∧ (reading_response s = true → ticks o m late false s s').

#[export] Instance runs_preorder : PreOrder runs.
Proof.
  split; [by intros s _; split|]. intros s1 s2 s3 H1 H2 Hs. destruct (H1 Hs) as [T1 U1].
  destruct (H2 (ticks_steady _ _ _ T1 Hs)) as [T2 U2]. split; [by etransitivity|]. intros Hr. etransitivity; [by apply U1|].
  apply U2. by apply (ticks_grow _ _ _ T1).
Qed.
End keeps.

Lemma tick_weaken o m late s s' : tick o m late false s s' → tick o m late true s s'.
Proof.
  destruct 1; try done; [by apply t_inert|by apply t_report|by apply t_enable|by apply t_accept|by apply t_pressure|by apply t_stream|by apply t_head|
    by apply t_head_written|by eapply t_upload|by apply t_uploaded|by apply t_drain|by apply t_end_none|by apply t_end_length|by apply t_end_chunked|
    by apply t_finish|by apply t_shut|by apply t_close|by apply t_alpn].
Qed.

(** ** Operations as sequences of steps *)

Section operations.
Context (o : client_options) (m : method) (tr : transport) (late : bool).
Context (emit : client_event → proc) (deliver : write_kind → option str → proc) (read : read_result → proc).
Notation "s ⟶ s'" := (runs o m late s s') (at level 70).

(** What the level below has to keep: [Hfail] is a report that comes from within
    [close], when the stream is closed and the request has not ended yet. *)
Context (Hemit : ∀ e s, happen e s ⟶ emit e s).
Context (Hquiet : late = false → ∀ h s, emit (ce_headers h) s = happen (ce_headers h) s).
Context (Hdeliver : ∀ kind r s, outstanding s = Some kind → s ⟶ deliver kind r s).
Context (Hfail : ∀ kind message s, outstanding s = Some kind → completed s = false → stream s ≠ open_stream →
  deliver kind (Some message) s = s ∨ ∃ result, finished result (dropped (Some kind) s) ⟶ deliver kind (Some message) s).
Context (Hread : ∀ r s, steady s → reading_response s = true → ticks o m late true s (read r s)).

Lemma runs_tick s s' : tick o m late false s s' → s ⟶ s'.
Proof. intros H _. split; [by apply rtc_once, tick_weaken|]. intros _. by apply rtc_once. Qed.

Lemma runs_step s1 s2 s3 : tick o m late false s1 s2 → s2 ⟶ s3 → s1 ⟶ s3.
Proof. intros H. etransitivity; [by apply runs_tick|done]. Qed.

Lemma runs_steady s s' : (steady s → s ⟶ s') → s ⟶ s'.
Proof. intros H Hs. by apply H. Qed.

Lemma runs_completed s s' : s ⟶ s' → steady s → completed s = true → completed s' = true.
Proof. intros H Hs Hc. destruct (H Hs) as [Ht _]. unfold completed. rewrite (gr_completed _ _ (ticks_grow _ _ _ _ _ _ Ht) Hc). exact Hc. Qed.

Lemma foldl_runs {A} (f : streaming_request → A → streaming_request) (l : list A) s : (∀ x s, s ⟶ f s x) → s ⟶ foldl f s l.
Proof. intros Hf. revert s. induction l as [|x l IH]; intros s; [done|]. cbn [foldl]. etransitivity; [apply Hf|apply IH]. Qed.

Lemma same_inert s s' :
  upload s' = upload s → reply s' = reply s → reading_response s' = reading_response s → outcome s' = outcome s → stream s' = stream s →
  outstanding s' = outstanding s → waiting s' = waiting s → target s' = target s → history s' = history s → s ⟶ s'.
Proof. intros. apply runs_tick, t_inert. constructor; auto. exists []. by rewrite app_nil_r. Qed.

(** Changes that [same_inert] proves. *)
Ltac quiet := by apply same_inert.

Lemma stop_inert s : s ⟶ stop_phase_timeout s.
Proof. destruct (stop_same s) as (? & ? & _ & ? & ? & ? & ? & ? & ? & ?). apply runs_tick, t_inert. constructor; auto. Qed.

Lemma happen_inert e s : inert_event e = true → s ⟶ happen e s.
Proof. intros H. apply runs_tick, t_inert. constructor; cbn; auto. exists [e]. cbn. by rewrite H. Qed.

Lemma start_timeout_inert p d s : s ⟶ start_phase_timeout p d s.
Proof.
  unfold start_phase_timeout. etransitivity; [apply stop_inert|]. destruct (d <=? 0)%Z; [done|].
  etransitivity; [|by apply happen_inert]. quiet.
Qed.

(** ** The end *)

Lemma complete_finished result s : completed s = false → finished result s ⟶ complete emit result s.
Proof.
  intros Hc. unfold complete, finished. rewrite Hc. cbv zeta. destruct (stop_same (set_outcome (Some result) s)) as (_ & _ & E & _).
  destruct (hk_complete (hooks (stop_phase_timeout _))); [apply Hemit|done].
Qed.

Lemma complete_done result s : completed s = true → complete emit result s = s.
Proof. intros H. unfold complete. by rewrite H. Qed.

Lemma complete_runs result s : s ⟶ complete emit result s.
Proof.
  destruct (completed s) eqn:Hc; [by rewrite complete_done|]. eapply runs_step; [by apply (t_finish o m late false result)|].
  by apply complete_finished.
Qed.

Lemma close_stream_cases s :
  close_stream tr deliver s = closed_now s ∨
  ∃ kind message, outstanding (closed_now s) = Some kind ∧ stream (closed_now s) ≠ open_stream ∧
    close_stream tr deliver s = deliver kind (Some message) (closed_now s).
Proof.
  unfold close_stream, closed_now. destruct (stream s); [by left| |by left]. cbn.
  destruct (outstanding s) as [kind|] eqn:Ho; [|by left]. destruct (tr_close tr _) as [message|]; [|by left]. right. by exists kind, message.
Qed.

(** [close_stream] and then [complete]. *)
Lemma shut_runs result s : s ⟶ complete emit result (close_stream tr deliver s).
Proof.
  apply runs_steady. intros Hs. destruct (closed_now_same s) as (_ & _ & _ & _ & Eo & _ & _ & _ & _). apply completed_outcome in Eo.
  destruct (completed s) eqn:Hc.
  - assert (Hclose : s ⟶ closed_now s) by by apply runs_tick, t_close.
    destruct (close_stream_cases s) as [-> | (kind & message & H1 & _ & ->)]; [by rewrite complete_done|].
    assert (Hd : s ⟶ deliver kind (Some message) (closed_now s)) by (etransitivity; [exact Hclose|by apply Hdeliver]).
    rewrite complete_done; [done|]. by apply (runs_completed _ _ Hd Hs).
  - assert (Hplain : s ⟶ complete emit result (closed_now s)).
    { eapply runs_step; [by apply (t_shut o m late false None result)|]. apply complete_finished. congruence. }
    destruct (close_stream_cases s) as [-> | (kind & message & H1 & H2 & ->)]; [done|].
    destruct (Hfail kind message (closed_now s)) as [-> | [result' Hf]]; [done|congruence|done|done|].
    assert (Ht : tick o m late false s (finished result' (dropped (Some kind) (closed_now s)))) by by apply t_shut.
    rewrite complete_done; [by eapply runs_step|]. apply (runs_completed _ _ Hf); [by eapply tick_steady|apply finished_completed].
Qed.

Lemma fail_request_body_runs detail s : s ⟶ fail_request_body tr emit deliver detail s.
Proof. apply shut_runs. Qed.

(** ** The request body *)

Lemma stream_write_runs kind payload s : happen (ce_write payload) (set_outstanding (Some kind) s) ⟶ stream_write tr deliver kind payload s.
Proof. unfold stream_write. cbv zeta. destruct (tr_write tr _) as [r|]; [by apply Hdeliver|done]. Qed.

Lemma flush_runs s : s ⟶ flush_upload_writes tr deliver s.
Proof.
  unfold flush_upload_writes. destruct (completed s || _ || _) eqn:E; [done|]. destruct (up_writes (upload s)) as [|front rest] eqn:Ew; [done|].
  rewrite !orb_false_iff, negb_false_iff in E. destruct E as [[E1 E2] E3]. eapply runs_step; [by eapply t_upload|]. apply stream_write_runs.
Qed.

Lemma early_reads rs s : steady s → reading_response s = true → ticks o m late true s (foldl (λ s r, read r s) s rs).
Proof.
  revert s. induction rs as [|r rs IH]; intros s Hs Hr; [constructor|]. cbn [foldl]. pose proof (Hread r s Hs Hr) as H. etransitivity; [exact H|].
  apply IH; [by eapply ticks_steady|]. by apply (ticks_grow _ _ _ _ _ _ H).
Qed.

Lemma begin_runs s : (completed s = false → reading_response s = false → body_written (upload s)) → s ⟶ begin_response_read o tr read s.
Proof.
  intros Hb. unfold begin_response_read. destruct (completed s) eqn:Hc; [done|]. destruct (reading_response s) eqn:Hr; [done|]. cbn [orb].
  intros Hs. split; [|congruence]. set (s1 := happen ce_read_start (set_reading_response true s)).
  assert (H1 : tick o m late true s s1) by (apply t_begin; auto). assert (Hs1 : steady s1) by by eapply tick_steady.
  pose proof (early_reads (tr_early tr (history s1)) s1 Hs1 eq_refl) as H2. eapply rtc_l; [exact H1|]. etransitivity; [exact H2|].
  destruct (start_timeout_inert phase_response_header (response_header_timeout o) (foldl (λ s r, read r s) s1 (tr_early tr (history s1)))) as [H3 _];
    [by eapply ticks_steady|done].
Qed.

(** A report that a chunk was written, or was not. *)
Lemma on_upload_written_runs failure s :
  (completed s = false → outstanding s = None ∧ up_writing (upload s) = true) → s ⟶ on_upload_written o tr emit deliver read failure s.
Proof.
  intros Hpre. unfold on_upload_written. destruct (completed s) eqn:Hc; [done|]. destruct (Hpre eq_refl) as [Ho Hw]. cbv zeta.
  destruct failure as [message|].
  - unfold fail_request_body. set (s1 := update_upload (set_up_writing false) s).
    assert (Hclosed : close_stream tr deliver s1 = dropped (Some write_upload) (closed_now s)).
    { unfold close_stream, closed_now, dropped, s1. destruct s as [? ? ? ? ? ? ? ? ? ? [] ? ? ?]; cbn in *; subst; done. }
    rewrite Hclosed. set (result := Some (make_client_error client_request_body_failed message)).
    eapply runs_step; [by apply (t_shut o m late false (Some write_upload) result)|].
    apply complete_finished. destruct (dropped_same (Some write_upload) (closed_now s)) as (_ & _ & _ & _ & E1 & _).
    destruct (closed_now_same s) as (_ & _ & _ & _ & E2 & _). unfold completed in *. by rewrite E1, E2.
  - apply runs_steady. intros Hs. destruct (st_writing s Hs Hc Hw) as [_ Hhw]. set (s1 := update_upload (settled o) s).
    assert (H1 : tick o m late false s s1) by by apply t_uploaded.
    set (s2 := notify_upload_drain_if_needed o emit (update_upload pop_upload (update_upload (set_up_writing false) s))).
    assert (H2 : s1 ⟶ s2).
    { unfold s2, notify_upload_drain_if_needed, s1, settled, update_upload. cbn [upload set_upload].
      destruct (up_backpressured (pop_upload _)); cbn [andb negb]; [|done]. destruct (_ <? _); cbn [negb]; [done|].
      destruct (hk_drain _); [|done]. eapply runs_step; [by apply t_drain|]. apply Hemit. }
    eapply runs_step; [exact H1|]. etransitivity; [exact H2|]. apply runs_steady. intros Hs2.
    destruct (up_writes (upload s2)) as [|w ws] eqn:Ews; [|apply flush_runs]. destruct (up_ended (upload s2)) eqn:Een; [|done].
    apply begin_runs. intros Hc2 _. split_and!; [by right|done| |].
    + destruct (up_writing (upload s2)) eqn:Ew2; [|done]. by destruct (st_writing s2 Hs2 Hc2 Ew2).
    + destruct (H2 (tick_steady _ _ _ _ _ _ H1 Hs)) as [Ht _]. apply (gr_written _ _ (ticks_grow _ _ _ _ _ _ Ht)).
      destruct (settled_same o (upload s)) as (_ & _ & _ & _ & _ & _ & _ & _ & E & _). unfold s1. cbn. by rewrite E.
Qed.

Lemma on_head_written_runs failure s :
  (completed s = false → outstanding s = None ∧ head_started s = true ∧ up_headers_written (upload s) = false) →
  s ⟶ on_request_headers_written o tr emit deliver read failure s.
Proof.
  intros Hpre. unfold on_request_headers_written. destruct (completed s) eqn:Hc; [done|]. destruct (Hpre eq_refl) as (Ho & Hh & Hw).
  destruct failure as [message|]; [apply complete_runs|]. cbv zeta. set (s1 := update_upload (set_up_headers_written true) s).
  eapply runs_step; [by apply t_head_written|]. fold s1. destruct (bool_decide _ || _) eqn:E; [|apply flush_runs].
  destruct (up_writes (upload s1)) eqn:Ews; [|apply flush_runs]. destruct (up_writing (upload s1)) eqn:Ewr; cbn [negb]; [apply flush_runs|].
  apply begin_runs. intros _ _. split_and!; [|done|done|done]. apply orb_true_iff in E as [E|E]; [left; by apply bool_decide_eq_true in E|by right].
Qed.

Lemma on_report_runs kind failure s : outstanding s = Some kind → s ⟶ on_report o tr emit deliver read kind failure s.
Proof.
  intros Ho. apply runs_steady. intros Hs. unfold on_report. cbv zeta. eapply runs_step; [apply t_report|]. destruct kind.
  - apply on_head_written_runs. intros Hc. split; [done|]. by apply (st_head s Hs).
  - apply on_upload_written_runs. intros Hc. split; [done|]. by apply (st_upload s Hs).
Qed.

(** A report of a failure from within [close]. *)
Lemma on_report_failed kind message s :
  outstanding s = Some kind → completed s = false → stream s ≠ open_stream →
  ∃ result, finished result (dropped (Some kind) s) ⟶ on_report o tr emit deliver read kind (Some message) s.
Proof.
  intros Ho Hc Hst. exists (Some (make_client_error client_request_body_failed message)).
  assert (Hcs : ∀ s, stream s ≠ open_stream → close_stream tr deliver s = s) by (intros s0 H0; unfold close_stream; by destruct (stream s0)).
  unfold on_report, on_request_headers_written, on_upload_written. cbn [dropped].
  destruct kind; change (completed (set_outstanding None s)) with (completed s); rewrite Hc; [by apply complete_finished|].
  unfold fail_request_body. rewrite Hcs by done. by apply complete_finished.
Qed.

Lemma write_runs payload s : s ⟶ (write o tr deliver payload s).1.
Proof.
  unfold write. cbv zeta. case_bool_decide as Hne; [done|]. destruct (completed s || _) eqn:E1; [done|]. apply orb_false_iff in E1 as [Hc He].
  destruct (up_backpressured (upload s)) eqn:Hb; [done|]. destruct (up_headers_written (upload s) && _) eqn:E2; [done|].
  destruct (bool_decide (up_mode (upload s) = upload_none) && _) eqn:E3; [done|].
  set (s1 := if bool_decide (up_mode (upload s) = upload_none) then enable_chunked_upload s else s).
  assert (H1 : s ⟶ s1 ∧ completed s1 = false ∧ up_ended (upload s1) = false ∧ up_backpressured (upload s1) = false).
  { unfold s1. case_bool_decide as Hm; [|done]. split; [|done]. apply runs_tick, t_enable; [done|exact E3|done]. }
  destruct H1 as (H1 & Hc1 & He1 & Hb1). destruct (upload_wire payload (upload s1)) as [wire|] eqn:Hwire; [|exact H1].
  assert (H2 : s ⟶ flush_upload_writes tr deliver (happen (ce_accept payload) (update_upload (push_upload payload wire) s1))).
  { etransitivity; [exact H1|]. eapply runs_step; [by apply (t_accept o m late false payload wire s1)|]. apply flush_runs. }
  destruct (_ && (_ <=? _)) eqn:E4; cbn [fst]; [|exact H2]. apply andb_true_iff in E4 as [E4 E5]. apply Nat.ltb_lt in E4. apply Nat.leb_le in E5.
  etransitivity; [exact H2|]. apply runs_tick, t_pressure. split; [lia|exact E5].
Qed.

Lemma finish_upload_runs s0 s : s0 ⟶ update_upload (set_up_ended true) s → s0 ⟶ finish_upload o tr deliver read s.
Proof.
  intros H0. etransitivity; [exact H0|]. unfold finish_upload. cbv zeta. set (s1 := update_upload (set_up_ended true) s).
  set (s2 := flush_upload_writes tr deliver s1). assert (H1 : s1 ⟶ s2) by apply flush_runs. apply runs_steady. intros Hs. etransitivity; [exact H1|].
  destruct (up_headers_written (upload s2) && _) eqn:E; [|done]. destruct (up_writes (upload s2)) eqn:Ew; [|done].
  apply andb_true_iff in E as [E1 E2]. apply negb_true_iff in E2. apply begin_runs. intros _ _. split_and!; [right|done..].
  destruct (H1 Hs) as [Ht _]. by apply (gr_ended _ _ (ticks_grow _ _ _ _ _ _ Ht)).
Qed.

Lemma end_runs s : s ⟶ end_ o tr emit deliver read s.
Proof.
  unfold end_. cbv zeta. destruct (completed s || _) eqn:E; [done|]. apply orb_false_iff in E as [Hc He].
  destruct (up_mode (upload s)) eqn:Hm.
  - eapply runs_step; [by apply t_end_none|]. destruct (up_headers_written (upload s)) eqn:Hw; [|done]. apply runs_steady. intros Hs.
    assert (Hws : up_writes (upload s) = []) by (by apply (st_none _ Hs)). apply begin_runs. intros Hc' _. split_and!; [by right|done| |done].
    destruct (up_writing _) eqn:Ewr; [|done]. by destruct (st_writing _ Hs Hc' Ewr).
  - case_bool_decide; [|apply fail_request_body_runs]. apply finish_upload_runs. by apply runs_tick, t_end_length.
  - apply finish_upload_runs. by apply runs_tick, t_end_chunked.
Qed.

(** ** Connecting *)

Lemma write_request_runs s :
  completed s = false → head_started s = false → stream s = open_stream → waiting s = None → s ⟶ write_request o m tr deliver s.
Proof.
  intros Hc Hh Hst Hw. unfold write_request. cbv zeta. etransitivity; [|apply stream_write_runs].
  set (s1 := start_phase_timeout phase_request_body (request_body_timeout o) s).
  assert (E : start_phase_timeout phase_request_body (request_body_timeout o) (update_upload start_head s) = update_upload start_head s1).
  { unfold s1, start_phase_timeout, stop_phase_timeout. cbn. by destruct (timer s), (_ <=? 0)%Z. }
  assert (E1 : s ⟶ s1) by apply start_timeout_inert. rewrite E. etransitivity; [exact E1|].
  assert (Hsame : upload s1 = upload s ∧ outcome s1 = outcome s ∧ stream s1 = stream s ∧ waiting s1 = waiting s ∧ target s1 = target s).
  { unfold s1, start_phase_timeout, stop_phase_timeout. cbn. by destruct (timer s), (_ <=? 0)%Z. }
  destruct Hsame as (Eu & Eo & Es & Ew & Et). rewrite <-Eu, <-Et. apply runs_tick, t_head; unfold head_started in *; try congruence;
    by rewrite ?(completed_outcome _ _ Eo), ?Eu.
Qed.

Lemma unless_cancelled_runs p s : (completed s = false → cancelled s = false → s ⟶ p s) → s ⟶ unless_cancelled emit p s.
Proof.
  intros Hp. unfold unless_cancelled. destruct (completed s) eqn:Hc; [done|]. destruct (cancelled s) eqn:Hx; [|by apply Hp].
  destruct (timed_out s); [done|apply complete_runs].
Qed.

Lemma set_waiting_inert x s : x = None ∨ (head_started s = false ∧ stream s = no_stream) → s ⟶ set_waiting x s.
Proof.
  intros H. apply runs_tick, t_inert. constructor; cbn; auto. exists []. by rewrite app_nil_r.
Qed.

Lemma on_resolved_runs failure s : head_started s = false → stream s = no_stream → s ⟶ on_resolved emit failure s.
Proof.
  intros Hh Hst. apply unless_cancelled_runs. intros Hc _. destruct failure; [apply complete_runs|].
  etransitivity; [apply stop_inert|]. etransitivity; [|by apply happen_inert]. apply set_waiting_inert. right.
  unfold head_started. destruct (stop_same s) as (-> & _ & _ & _ & _ & _ & -> & _). done.
Qed.

Lemma open_and_write_runs s :
  completed s = false → head_started s = false → waiting s = None → stream s = no_stream → s ⟶ write_request o m tr deliver (set_stream open_stream s).
Proof. intros Hc Hh Hw Hst. eapply runs_step; [by apply t_stream|]. by apply write_request_runs. Qed.

Lemma on_connected_runs r s : head_started s = false → waiting s = None → stream s = no_stream → s ⟶ on_connected o m tr emit deliver r s.
Proof.
  intros Hh Hw Hst. apply unless_cancelled_runs. intros Hc _. destruct r; [|apply complete_runs..]. case_bool_decide; [|by apply open_and_write_runs].
  unfold start_tls. destruct (tr_tls tr) as [[what|what]|]; [apply complete_runs|etransitivity; [apply start_timeout_inert|apply complete_runs]|].
  etransitivity; [apply start_timeout_inert|].
  etransitivity; [|by apply happen_inert]. apply set_waiting_inert. right. unfold head_started, start_phase_timeout.
  destruct (stop_same s) as (E1 & _ & _ & _ & _ & _ & E2 & _). destruct (_ <=? 0)%Z; cbn; by rewrite E1, E2.
Qed.

Lemma on_tls_connected_runs r s : head_started s = false → waiting s = None → stream s = no_stream → s ⟶ on_tls_connected o m tr emit deliver r s.
Proof.
  intros Hh Hw Hst. apply unless_cancelled_runs. intros Hc _. destruct r as [alpn|e]; [|apply complete_runs].
  destruct (_ && _); [|by apply open_and_write_runs]. eapply runs_step; [by eapply t_alpn|]. by apply complete_finished.
Qed.

(** The step under way finds the request cancelled. *)
Lemma cancel_step_runs s : cancelled s = true → s ⟶ cancel_step o m tr emit deliver s.
Proof.
  intros Hx. unfold cancel_step. cbv zeta. assert (H : s ⟶ set_waiting None s) by (apply set_waiting_inert; by left).
  destruct (waiting s) as [[]|]; [..|done]; (etransitivity; [exact H|]); apply unless_cancelled_runs; cbn; congruence.
Qed.

Lemma cancel_runs s : s ⟶ cancel o m tr emit deliver s.
Proof.
  unfold cancel. destruct (completed s); [done|]. etransitivity; [|apply shut_runs]. etransitivity; [|by apply cancel_step_runs]. quiet.
Qed.

Lemma client_timeout_runs p s : s ⟶ on_timeout o m tr emit deliver p s.
Proof.
  unfold on_timeout. destruct (_ || _); [done|]. etransitivity; [|apply shut_runs]. etransitivity; [|by apply cancel_step_runs]. quiet.
Qed.

Lemma client_cmd_runs c s : s ⟶ run_client_cmd o m tr emit deliver read s c.
Proof.
  apply runs_steady. intros Hs. pose proof (st_started s Hs) as Hst.
  destruct c; cbn [run_client_cmd]; unfold header, content_length, chunked; rewrite ?Hst; try done; try quiet;
    [apply write_runs|apply end_runs|apply cancel_runs].
Qed.

(** ** The response *)

(** Runs while the response is read. *)
Definition reads (s s' : streaming_request) : Prop := steady s → reading_response s = true → ticks o m late true s s'.

#[local] Instance reads_preorder : PreOrder reads.
Proof.
  split; [by intros s _|]. intros s1 s2 s3 H1 H2 Hs Hr. pose proof (H1 Hs Hr) as T. etransitivity; [exact T|].
  apply H2; [by eapply ticks_steady|]. by apply (ticks_grow _ _ _ _ _ _ T).
Qed.

Lemma runs_reads s s' : s ⟶ s' → reads s s'.
Proof. intros H Hs _. by apply H. Qed.

Lemma reads_tick s s' : tick o m late true s s' → reads s s'.
Proof. intros H _ _. by apply rtc_once. Qed.

Lemma reads_reply f s : reads s (update_reply f s).
Proof. by apply reads_tick, t_reply. Qed.

Lemma fail_reads code detail s : reads s (fail tr emit deliver code detail s).
Proof. apply runs_reads, shut_runs. Qed.

(** The end of a response, which a callback may have ended before. *)
Lemma finish_reads s : completed s = false ∨ late = true → reads s (finish_response_success o m tr emit deliver s).
Proof.
  intros Hl. unfold finish_response_success. cbv zeta. destruct (_ && _) eqn:E; [|apply runs_reads, shut_runs]. apply andb_true_iff in E as [_ E].
  intros Hs Hr. destruct (completed s) eqn:Hc.
  - destruct Hl as [Hl|Hl]; [done|]. rewrite complete_done by done. apply rtc_once, t_release_late; [done..|]. by destruct (stream s).
  - set (s1 := happen (ce_release _) _). assert (Ht : tick o m late true s (finished None s1)).
    { apply t_release; [done..|]. apply (st_stream _ Hs Hc). by apply (st_reading _ Hs). }
    eapply rtc_l; [exact Ht|]. apply (complete_finished None s1); [done|]. by eapply tick_steady.
Qed.

Lemma emit_body_reads data s : completed s = false ∨ late = true → reads s (emit_body emit data s).
Proof.
  intros Hl. unfold emit_body. destruct data as [|c data]; [done|]. cbv zeta.
  set (s1 := update_reply _ s). assert (H1 : reads s s1) by apply reads_reply. etransitivity; [exact H1|].
  destruct (hk_data (hooks s1)); [|done]. etransitivity; [by apply reads_tick, (t_data o m late true (c :: data))|]. apply runs_reads, Hemit.
Qed.

Lemma content_length_loop_reads fuel s : reads s (content_length_loop emit fuel s).
Proof.
  revert s. induction fuel as [|fuel IH]; intros s; [done|]. cbn [content_length_loop]. destruct (negb (completed s) && _ && _) eqn:E; [|done].
  rewrite !andb_true_iff, !negb_true_iff in E. destruct E as [[Hc _] _]. etransitivity; [|apply IH].
  etransitivity; [by apply emit_body_reads; left|]. etransitivity; [|apply reads_reply]. apply reads_reply.
Qed.

Lemma content_length_body_reads s : reads s (process_content_length_body o m tr emit deliver s).
Proof.
  unfold process_content_length_body. cbv zeta. etransitivity; [apply content_length_loop_reads|].
  destruct (negb (completed _) && _) eqn:E; [|done]. apply andb_true_iff in E as [E _]. apply negb_true_iff in E. apply finish_reads. by left.
Qed.

Lemma chunked_body_reads fuel s : reads s (process_chunked_body o m tr emit deliver fuel s).
Proof.
  revert s. induction fuel as [|fuel IH]; intros s; [done|]. cbn [process_chunked_body]. destruct (completed s) eqn:Hc; [done|].
  destruct (find_sub crlf _) as [line_end|]; [|done]. destruct (parse_uint _ 16) as [size|]; [|apply fail_reads].
  assert (Hfin : ∀ n, reads s (finish_response_success o m tr emit deliver (erase n s))).
  { intros n. etransitivity; [apply reads_reply|]. apply finish_reads. by left. }
  destruct (size =? 0)%Z; [destruct (crlf_here _); [apply Hfin|]; by destruct (find_sub crlf2 _)|].
  destruct (_ <? _)%Z; [done|]. destruct (_ <? _)%Z; [apply fail_reads|]. destruct (_ <? _)%Z; [by apply reads_tick, t_throw|].
  destruct (negb _); [apply fail_reads|]. etransitivity; [by apply emit_body_reads; left|]. etransitivity; [apply reads_reply|]. apply IH.
Qed.

Lemma emit_buffer_reads s : completed s = false ∨ late = true → reads s (emit_buffer_as_body o tr emit deliver s).
Proof.
  intros Hl. unfold emit_buffer_as_body. cbv zeta. case_bool_decide; [done|]. destruct (_ <? _)%Z; [apply fail_reads|].
  etransitivity; [by apply emit_body_reads|]. apply reads_reply.
Qed.

Lemma process_body_reads s : completed s = false ∨ late = true → reads s (process_body o m tr emit deliver s).
Proof.
  intros Hl. unfold process_body. destruct (rp_mode _); [done..|apply content_length_body_reads|apply chunked_body_reads|by apply emit_buffer_reads].
Qed.

Lemma on_head_reads head s : completed s = false → reads s (on_head o m tr emit deliver head s).
Proof.
  intros Hc. unfold on_head. cbv zeta. set (s1 := if hk_headers (hooks s) then _ else _).
  assert (H1 : reads s s1 ∧ (completed s1 = false ∨ late = true)).
  { unfold s1. destruct (hk_headers (hooks s)); [|split; [done|by left]]. split.
    - etransitivity; [by apply reads_tick, (t_headers o m late true head)|]. apply runs_reads, Hemit.
    - destruct late eqn:El; [by right|]. left. by rewrite Hquiet. }
  destruct H1 as [H1 Hl]. etransitivity; [exact H1|]. destruct (response_must_not_have_body _ _).
  { transitivity (set_body_mode body_none 0 s1); [apply reads_reply|]. by apply finish_reads. }
  destruct (choose_body_mode o _) as [[mode remaining]|e]; [|apply runs_reads, shut_runs].
  set (s2 := set_body_mode mode remaining s1). transitivity s2; [apply reads_reply|].
  etransitivity; [apply runs_reads, (start_timeout_inert phase_response_body (response_body_timeout o) s2)|]. apply process_body_reads.
  destruct Hl as [Hl|Hl]; [left|by right]. unfold start_phase_timeout. destruct (stop_same s2) as (_ & _ & _ & _ & E & _).
  destruct (_ <=? 0)%Z; unfold completed in *; cbn; rewrite E; exact Hl.
Qed.

Lemma process_buffer_reads s : reads s (process_buffer o m tr emit deliver s).
Proof.
  unfold process_buffer. cbv zeta. destruct (completed s) eqn:Hc; [done|]. destruct (rp_seen _); [by apply process_body_reads; left|].
  destruct (find_sub crlf2 _); [|destruct (_ <? _)%Z; [apply fail_reads|done]].
  destruct (parse_response_head _ _) as [[head body_offset]|[e|e]]; [|apply runs_reads, shut_runs|by apply reads_tick, t_throw].
  etransitivity; [apply reads_reply|]. by apply on_head_reads.
Qed.

Lemma on_eof_reads s : completed s = false → reads s (on_eof o tr emit deliver s).
Proof.
  intros Hc. assert (Hfin : ∀ s, reads s (complete emit None (close_stream tr deliver s))) by (intros; apply runs_reads, shut_runs).
  unfold on_eof. cbv zeta. destruct (negb _); [apply fail_reads|]. destruct (rp_mode _); try apply Hfin; [|apply fail_reads|].
  - destruct (negb _); [apply fail_reads|apply Hfin].
  - etransitivity; [by apply emit_buffer_reads; left|]. destruct (completed (emit_buffer_as_body _ _ _ _ _)); [done|apply Hfin].
Qed.

Lemma on_read_reads r s : reads s (on_read o m tr emit deliver r s).
Proof.
  unfold on_read. destruct (completed s) eqn:Hc; [done|]. destruct r; [|by apply on_eof_reads|apply runs_reads, shut_runs].
  etransitivity; [apply reads_reply|]. apply process_buffer_reads.
Qed.
End operations.

(** ** Runs *)

(** A request that is about to be started. *)
Record ready (s : streaming_request) : Prop := {
  rd_upload : ∃ hs mode length, upload s = Upload hs mode length true false false false false false [] 0 0;
  rd_reply : reply s = reply new_request;
  rd_reading : reading_response s = false;
  rd_cancelled : cancelled s = false;
  rd_outcome : outcome s = None;
  rd_stream : stream s = no_stream;
  rd_waiting : waiting s = None;
  rd_outstanding : outstanding s = None;
  rd_history : history s = []
}.

Lemma ready_steady s : ready s → steady s.
Proof.
  intros [(hs & mode & length & Hu) _ Hr _ _ _ Hw Ho _].
  constructor; unfold head_started; rewrite ?Hu, ?Hr, ?Hw, ?Ho; try done; intros _; discriminate.
Qed.

Section levels.
Context (o : client_options) (m : method) (tr : transport) (calls : list client_event → client_event → list client_cmd) (late : bool).
Context (Hcalls : late = false → ∀ h head, calls h (ce_headers head) = []).
Notation "s ⟶ s'" := (runs o m late s s') (at level 70).

Definition level_ok (l : level_ops) : Prop :=
  (∀ e s, happen e s ⟶ l_emit l e s) ∧
  (late = false → ∀ h s, l_emit l (ce_headers h) s = happen (ce_headers h) s) ∧
  (∀ kind r s, outstanding s = Some kind → s ⟶ l_deliver l kind r s) ∧
  (∀ kind message s, outstanding s = Some kind → completed s = false → stream s ≠ open_stream →
    l_deliver l kind (Some message) s = s ∨ ∃ result, finished result (dropped (Some kind) s) ⟶ l_deliver l kind (Some message) s) ∧
  (∀ r s, steady s → reading_response s = true → ticks o m late true s (l_read l r s)).

Lemma level_runs depth : level_ok (level o m tr calls depth).
Proof.
  induction depth as [|depth (H1 & H2 & H3 & H4 & H5)]; cbn [level].
  { split_and!; cbn; try done. by intros; left. }
  set (l := level o m tr calls depth) in *. split_and!; cbn [next_level l_emit l_deliver l_read].
  - intros e s. cbv zeta. apply foldl_runs. intros c s0. by apply client_cmd_runs.
  - intros Hl h s. by rewrite Hcalls.
  - intros kind r s Ho. by apply on_report_runs.
  - intros kind message s Ho Hc Hst. right. by apply (on_report_failed o m tr late (l_emit l) (l_deliver l) (l_read l) H1).
  - intros r s Hs Hr. by apply (on_read_reads o m tr late (l_emit l) (l_deliver l) (l_read l) H1 H2 H3 H4).
Qed.

Lemma client_start_runs l url_input pooled s :
  level_ok l → ready (update_upload (set_up_started true) s) →
  update_upload (set_up_started true) s ⟶ start o m tr (l_emit l) (l_deliver l) url_input pooled s.
Proof.
  intros (H1 & H2 & H3 & H4 & H5) [(hs & mode & length & Hu) _ _ _ Ho Hst Hw _ _]. unfold start. cbv zeta. set (s0 := update_upload _ s) in *.
  assert (Hh : head_started s0 = false) by (unfold head_started; by rewrite Hu).
  destruct (parse_url url_input) as [url|e]; [|by apply complete_runs]. set (s1 := set_target url s0).
  assert (E : s0 ⟶ s1). { apply runs_tick, t_inert. constructor; cbn; auto; [intros Hx; unfold head_started in Hh; cbn in Hh; congruence|]. exists []. by rewrite app_nil_r. }
  etransitivity; [exact E|]. destruct (negb (http_scheme url)); [by apply complete_runs|]. destruct (negb _); [by apply complete_runs|].
  destruct (authority_endpoint url); [|by apply complete_runs]. destruct pooled.
  - apply open_and_write_runs; try done. change (completed s1) with (completed s0). unfold completed. by rewrite Ho.
  - etransitivity; [|apply start_timeout_inert]. etransitivity; [|by apply happen_inert]. apply set_waiting_inert. by right.
Qed.

Lemma client_op_runs l op s : level_ok l → steady s → ticks o m late true s (run_client_op o m tr l s op).
Proof.
  intros (H1 & H2 & H3 & H4 & H5) Hs. assert (Hrun : ∀ s', s ⟶ s' → ticks o m late true s s') by (intros s' H; by apply H).
  assert (Hwait : waiting s ≠ None → s ⟶ set_waiting None s ∧ head_started s = false ∧ stream s = no_stream).
  { intros Hw. split; [apply set_waiting_inert; by left|by apply (st_waiting _ Hs)]. }
  destruct op as [failure|r|r|failure|r| |cmds]; cbn [run_client_op].
  - destruct (waiting s) as [[]|] eqn:Hw; [|constructor..]. destruct Hwait as (W & Hh & Hst); [done|]. apply Hrun.
    etransitivity; [exact W|]. by apply on_resolved_runs.
  - destruct (waiting s) as [[]|] eqn:Hw; [constructor| |constructor..]. destruct Hwait as (W & Hh & Hst); [done|]. apply Hrun.
    etransitivity; [exact W|]. by apply on_connected_runs.
  - destruct (waiting s) as [[]|] eqn:Hw; [constructor..| |constructor]. destruct Hwait as (W & Hh & Hst); [done|]. apply Hrun.
    etransitivity; [exact W|]. by apply on_tls_connected_runs.
  - destruct (outstanding s) as [kind|] eqn:Ho; [|constructor]. apply Hrun. by apply on_report_runs.
  - destruct (reading_response s) eqn:Hr; [|constructor]. destruct (stream s); cbn [andb]; [constructor| |constructor].
    by apply (on_read_reads o m tr late (l_emit l) (l_deliver l) (l_read l) H1 H2 H3 H4).
  - destruct (timer s); [|constructor]. apply Hrun. by apply client_timeout_runs.
  - apply Hrun. apply foldl_runs. intros c s0. by apply client_cmd_runs.
Qed.

(** The calls before [start] only set headers, the mode and callbacks. *)
Definition fresh (s : streaming_request) : Prop :=
  ∃ hs mode length hk, s = StreamingRequest (Upload hs mode length false false false false false false [] 0 0) (reply new_request) hk
    false false false None phase_none false (target new_request) no_stream None None [].

Lemma setup_fresh (l : level_ops) setup s :
  fresh s → fresh (foldl (run_client_cmd o m tr (l_emit l) (l_deliver l) (l_read l)) s (List.filter setup_cmd setup)).
Proof.
  revert s. induction setup as [|c setup IH]; intros s Hs; [done|]. cbn [List.filter]. destruct (setup_cmd c) eqn:Ec; [|by apply IH].
  cbn [foldl]. apply IH. destruct Hs as (hs & mode & length & hk & ->). destruct c; try done; by eexists _, _, _, _.
Qed.

Lemma fresh_ready s : fresh s → ready (update_upload (set_up_started true) s).
Proof. intros (hs & mode & length & hk & ->). constructor; try done. by eexists _, _, _. Qed.

Lemma ops_ticks l ops s : level_ok l → steady s → ticks o m late true s (foldl (run_client_op o m tr l) s ops).
Proof.
  intros Hl. revert s. induction ops as [|op ops IH]; intros s Hs; [constructor|]. cbn [foldl].
  pose proof (client_op_runs l op s Hl Hs) as H. etransitivity; [exact H|]. apply IH. by eapply ticks_steady.
Qed.

Lemma request_ticks depth setup url_input pooled ops :
  ∃ s0, ready s0 ∧ ticks o m late true s0 (run_request o m tr calls depth setup url_input pooled ops).
Proof.
  unfold run_request. cbv zeta. set (s := foldl _ new_request _). pose proof (level_runs depth) as Hl.
  assert (Hr : ready (update_upload (set_up_started true) s)).
  { apply fresh_ready, setup_fresh. by eexists [], upload_none, None, (hooks new_request). }
  exists (update_upload (set_up_started true) s). split; [done|]. pose proof (ready_steady _ Hr) as Hs.
  destruct (client_start_runs _ url_input pooled s Hl Hr Hs) as [Ht _]. etransitivity; [exact Ht|]. apply ops_ticks; [done|]. by eapply ticks_steady.
Qed.

(** An invariant of the steps holds after every run. *)
Lemma request_invariant (P : streaming_request → Prop) depth setup url_input pooled ops :
  (∀ s, ready s → P s) → (∀ s s', tick o m late true s s' → steady s → P s → P s') →
  P (run_request o m tr calls depth setup url_input pooled ops).
Proof.
  intros H0 Hstep. destruct (request_ticks depth setup url_input pooled ops) as (s0 & Hr & Ht).
  assert (H : steady s0 ∧ P s0) by (split; [by apply ready_steady|by apply H0]). revert H. clear Hr.
  induction Ht as [|s1 s2 s3 H12 _ IH]; [by intros []|]. intros [Hs HP]. apply IH. split; [by eapply tick_steady|by eapply Hstep].
Qed.
End levels.
