(* ===== verification/ClientStreamSpec.v ===== *)
(** * What a streaming request promises

    Invariants of the steps of [ClientStreamTheory]: what the user is told, how
    the stream is used, what of the request goes on the wire, and the pressure
    on the upload. *)

From stdpp Require Import relations.
From S2P Require Import Prelude Text Url Http HttpError Multipart Response ServerWire ServerWireSpec.
From S2P Require Import ClientWire ClientWireSpec ClientOptions ClientStreamState ClientStream ClientStreamTheory.

Open Scope nat_scope.

(** ** Callbacks *)

Definition is_complete (e : client_event) : bool := match e with ce_complete _ => true | _ => false end.

(** Callbacks that may not follow the end; data may where [late]. *)
Definition told_late (late : bool) (e : client_event) : bool :=
  match e with ce_headers _ | ce_drain | ce_complete _ => true | ce_data _ => negb late | _ => false end.

Definition callbacks_inv (late : bool) (s : streaming_request) : Prop :=
  never_after is_complete (told_late late) (history s) ∧ (completed s = false → none_marked is_complete (history s)) ∧
  ∀ result, ce_complete result ∈ history s → outcome s = Some result.

Section callbacks.
Context (o : client_options) (m : method) (late : bool).

Lemma inert_none_marked (p : client_event → bool) es :
  (∀ e, inert_event e = true → p e = false) → forallb inert_event es = true → none_marked p es.
Proof. unfold none_marked. rewrite !forallb_forall. intros Hp H e He. by rewrite Hp by auto. Qed.

(** Steps that add harmless events. *)
Lemma callbacks_add es s s' :
  callbacks_inv late s → history s' = history s ++ es → outcome s' = outcome s → none_marked is_complete es →
  (completed s = false ∨ none_marked (told_late late) es) → callbacks_inv late s'.
Proof.
  intros (H1 & H2 & H3) Eh Eo Hc Hor. unfold callbacks_inv. rewrite Eh, Eo. rewrite (completed_outcome _ _ Eo). split_and!.
  - apply never_after_app; [done| |destruct Hor; auto].
    intros i j e e' Hi _ _ Hm. apply list_elem_of_lookup_2 in Hi. by rewrite (none_marked_in _ _ _ Hc Hi) in Hm.
  - intros Hx. apply none_marked_app. auto.
  - intros result [Hin|Hin]%elem_of_app; [by apply H3|]. by pose proof (none_marked_in _ _ _ Hc Hin).
Qed.

(** The end, after events that are no callbacks. *)
Lemma callbacks_finish es result s s' :
  callbacks_inv late s → completed s = false → history s' = history s ++ es → none_marked is_complete es → none_marked (told_late late) es →
  callbacks_inv late (finished result s').
Proof.
  intros (H1 & H2 & H3) Hc Eh Hes Hes'. destruct (finished_same result s') as (_ & _ & _ & Eo & _ & _ & _ & _ & es' & Eh' & Hes'').
  set (last := if hk_complete (hooks s') then [ce_complete result] else []) in *. unfold callbacks_inv. rewrite Eh', Eo, Eh.
  assert (Hi : none_marked is_complete es') by (eapply inert_none_marked, Hes''; by intros []).
  assert (Hall : none_marked is_complete (history s ++ es ++ es')) by (rewrite !none_marked_app; auto).
  assert (E : (history s ++ es) ++ es' ++ last = (history s ++ es ++ es') ++ last) by by rewrite <-!app_assoc. rewrite E. split_and!.
  - apply never_after_app; [|unfold last; destruct (hk_complete _); [apply never_after_one|by intros ? ? ? ?]|by right].
    intros i j e e' Hx _ _ Hm. apply list_elem_of_lookup_2 in Hx. by rewrite (none_marked_in _ _ _ Hall Hx) in Hm.
  - by rewrite finished_completed.
  - intros r [Hin|Hin]%elem_of_app; [by pose proof (none_marked_in _ _ _ Hall Hin)|]. unfold last in Hin.
    destruct (hk_complete _); [|by apply not_elem_of_nil in Hin]. apply list_elem_of_singleton in Hin. congruence.
Qed.

Lemma callbacks_tick s s' : tick o m late true s s' → callbacks_inv late s → callbacks_inv late s'.
Proof.
  intros Ht Hi. destruct Ht; try done.
  all: try (by eapply (callbacks_add [_]); [exact Hi|done|done|done|auto]).
  all: try (by eapply (callbacks_add []); [exact Hi|cbn; by rewrite app_nil_r|done|done|auto]).
  - destruct H as [_ _ _ Eo _ _ _ _ (es & Eh & He)]. eapply callbacks_add; [exact Hi|exact Eh|done| |right]; eapply inert_none_marked, He; by intros [].
  - by eapply (callbacks_finish []); [exact Hi|done|by rewrite app_nil_r|..].
  - destruct (closed_now_same s) as (_ & _ & _ & _ & _ & _ & _ & _ & Eh). destruct (dropped_same report (closed_now s)) as (_ & _ & _ & _ & _ & _ & _ & _ & Eh' & _).
    eapply callbacks_finish; [exact Hi|done|rewrite Eh'; exact Eh|by destruct (stream s)..].
  - destruct (closed_now_same s) as (_ & _ & _ & _ & Eo & _ & _ & _ & Eh). eapply callbacks_add; [exact Hi|exact Eh|done|by destruct (stream s)|].
    right. by destruct (stream s).
  - by eapply (callbacks_finish [_]); [exact Hi|..].
  - eapply (callbacks_add [_]); [exact Hi|done|done|done|]. destruct H0 as [H0 | ->]; [by left|by right].
  - by eapply (callbacks_finish [_; _]); [exact Hi|done|cbn; by rewrite <-app_assoc|..].
  - by eapply (callbacks_add [_; _]); [exact Hi|cbn; by rewrite <-app_assoc|..]; auto.
Qed.
End callbacks.

(** ** Use of the stream *)

Definition is_end (e : client_event) : bool := match e with ce_close | ce_release _ => true | _ => false end.

(** Calls that may not follow the end of the stream; another end may where
    [late]. *)
Definition uses_stream (late : bool) (e : client_event) : bool :=
  match e with ce_write _ | ce_read_start => true | ce_close | ce_release _ => negb late | _ => false end.

Definition stream_inv (late : bool) (s : streaming_request) : Prop :=
  never_after is_end (uses_stream late) (history s) ∧ (completed s = false → none_marked is_end (history s)) ∧
  (late = false → stream s = open_stream → none_marked is_end (history s)).

Section stream_use.
Context (o : client_options) (m : method) (late : bool).

(** Steps that do not end the stream. *)
Lemma stream_add es s s' :
  stream_inv late s → history s' = history s ++ es → outcome s' = outcome s → (stream s' = stream s ∨ completed s = false ∨ stream s' ≠ open_stream) →
  none_marked is_end es → (completed s = false ∨ none_marked (uses_stream late) es) → stream_inv late s'.
Proof.
  intros (H1 & H2 & H3) Eh Eo Est Hes Hor. unfold stream_inv. rewrite Eh, (completed_outcome _ _ Eo). split_and!.
  - apply never_after_app; [done| |destruct Hor; auto].
    intros i j e e' Hi _ _ Hm. apply list_elem_of_lookup_2 in Hi. by rewrite (none_marked_in _ _ _ Hes Hi) in Hm.
  - intros Hx. apply none_marked_app. auto.
  - intros Hl Hx. apply none_marked_app. split; [|done]. destruct Est as [Est|[Est|Est]]; [rewrite Est in Hx|..]; auto; done.
Qed.

(** The end of the request, with at most one end of the stream. *)
Lemma stream_finish es result s s' :
  stream_inv late s → completed s = false → history s' = history s ++ es → never_after is_end (uses_stream late) es →
  (none_marked is_end es ∨ stream s' ≠ open_stream) → stream_inv late (finished result s').
Proof.
  intros (H1 & H2 & H3) Hc Eh Hes Hor. destruct (finished_same result s') as (_ & _ & _ & _ & _ & Est & _ & _ & es' & Eh' & Hes').
  set (last := if hk_complete (hooks s') then [ce_complete result] else []) in *. unfold stream_inv. rewrite Eh', Eh, Est, finished_completed.
  assert (Hi : ∀ p, (∀ e, p e = true → is_end e = true ∨ uses_stream false e = true) → none_marked p (es' ++ last)).
  { intros p Hp. apply none_marked_app. split; [eapply inert_none_marked, Hes'|unfold last; destruct (hk_complete _); [|done]]; 
      [intros e He; destruct (p e) eqn:E; [destruct (Hp _ E); by destruct e|done]|].
    unfold none_marked. cbn. destruct (p _) eqn:E; [|done]. by destruct (Hp _ E). }
  assert (Hi1 : none_marked is_end (es' ++ last)) by (apply Hi; auto).
  assert (Hi2 : none_marked (uses_stream late) (es' ++ last)) by (apply Hi; intros []; auto).
  rewrite <-app_assoc. split_and!; [|done|].
  - apply never_after_app; [done| |right; auto]. apply never_after_app; [done|by apply never_after_harmless|by left].
  - intros _ Hx. destruct Hor as [Hor|Hor]; [|done]. apply none_marked_app. split; [auto|]. by apply none_marked_app.
Qed.

Lemma stream_tick s s' : tick o m late true s s' → stream_inv late s → stream_inv late s'.
Proof.
  intros Ht Hi. destruct Ht; try done.
  all: try (by eapply (stream_add [_]); [exact Hi|done|done|auto|done|auto]).
  all: try (by eapply (stream_add []); [exact Hi|cbn; by rewrite app_nil_r|done|auto|done|auto]).
  - destruct H as [_ _ _ Eo Est _ _ _ (es & Eh & He)]. eapply stream_add; [exact Hi|exact Eh|done|by left| |right]; eapply inert_none_marked, He; by intros [].
  - by eapply (stream_finish []); [exact Hi|done|by rewrite app_nil_r|intros ? ? ? ?|by left].
  - destruct (closed_now_same s) as (_ & _ & _ & _ & _ & _ & _ & _ & Eh).
    destruct (dropped_same report (closed_now s)) as (_ & _ & _ & _ & _ & _ & _ & Est & Eh' & _).
    eapply stream_finish; [exact Hi|done|rewrite Eh'; exact Eh|destruct (stream s); [by intros ? ? ? ?|apply never_after_one|by intros ? ? ? ?]|].
    rewrite Est. unfold closed_now. destruct (stream s) eqn:E; [by left|by right|by left].
  - unfold closed_now. destruct (stream s) eqn:E; [done| |done]. destruct Hi as (H1 & H2 & H3). split_and!.
    + cbn. apply never_after_app; [done|apply never_after_one|]. destruct late; [by left|right; auto].
    + intros Hc. change (completed s = false) in Hc. congruence.
    + done.
  - by eapply (stream_finish [_]); [exact Hi|done|done|apply never_after_one|right; cbn; congruence].
  - eapply (stream_finish [_; _]); [exact Hi|done|cbn; by rewrite <-app_assoc| |by right].
    intros i j e e' Hx Hy Hij. destruct i as [|[|i]], j as [|[|j]]; cbn in *; try done; try lia. injection Hx as <-. done.
  - destruct Hi as (H2' & H3' & _). split_and!; [|intros Hc; change (completed s = false) in Hc; congruence|congruence].
    cbn. rewrite <-app_assoc. apply never_after_app; [done| |left; by subst late].
    apply never_after_harmless. by subst late.
Qed.
End stream_use.
