(* ===== verification/ClientUpload.v ===== *)
(** * The request on the wire

    What a streaming request writes: its head and then exactly the chunks that
    were accepted, in the framing that the head announces; and the pressure on
    the upload. *)

From stdpp Require Import relations.
From S2P Require Import Prelude Text Url Http HttpError Multipart Response ServerWire ServerWireSpec.
From S2P Require Import ClientWire ClientWireSpec ClientOptions ClientStreamState ClientStream.
From S2P Require Import ClientStreamTheory ClientStreamSpec.

Open Scope nat_scope.

Definition request_written (h : list client_event) : list str := omap (λ e, match e with ce_write p => Some p | _ => None end) h.
Definition request_accepted (h : list client_event) : list str := omap (λ e, match e with ce_accept p => Some p | _ => None end) h.

(** The framing of a chunk, and the whole request body. *)
Definition framed (mode : upload_mode) (payload : str) : str :=
  match mode with upload_chunked => client_serialize_chunk payload | _ => payload end.

Definition body_wire (u : upload_state) (accepted : list str) : list str :=
  map (framed (up_mode u)) accepted ++
  (if up_ended u && bool_decide (up_mode u = upload_chunked) then [last_upload_chunk] else []).

(** What is queued and not yet given to the stream. *)
Definition unsent (u : upload_state) : list str := if up_writing u then tail (up_writes u) else up_writes u.

Definition total_length (l : list str) : nat := sum_list (length <$> l).

Section wire.
Context (o : client_options) (m : method) (late : bool).

Record upload_inv (s : streaming_request) : Prop := {
  ui_before : head_started s = false → request_written (history s) = [];
  ui_after : head_started s = true →
    ∃ sent, request_written (history s) = request_text o m (target s) (up_headers (upload s)) :: sent;
  ui_prefix : tail (request_written (history s)) `prefix_of` body_wire (upload s) (request_accepted (history s));
  ui_exact : completed s = false →
    tail (request_written (history s)) ++ unsent (upload s) = body_wire (upload s) (request_accepted (history s));
  ui_none : up_mode (upload s) = upload_none → request_accepted (history s) = [];
  ui_nonempty : Forall (λ c, c ≠ []) (request_accepted (history s));
  ui_accepted : up_accepted (upload s) = total_length (request_accepted (history s));
  ui_limit : up_mode (upload s) = upload_content_length → ∀ n, up_length (upload s) = Some n → up_accepted (upload s) ≤ n;
  ui_ended : up_mode (upload s) = upload_content_length → up_ended (upload s) = true → up_length (upload s) = Some (up_accepted (upload s));
  ui_reading : reading_response s = true →
    (up_mode (upload s) = upload_none ∨ up_ended (upload s) = true) ∧
    tail (request_written (history s)) = body_wire (upload s) (request_accepted (history s))
}.

(** What of the upload the wire depends on. *)
Record same_wire (s s' : streaming_request) : Prop := {
  sw_headers : up_headers (upload s') = up_headers (upload s);
  sw_mode : up_mode (upload s') = up_mode (upload s);
  sw_length : up_length (upload s') = up_length (upload s);
  sw_started : head_started s' = head_started s;
  sw_ended : up_ended (upload s') = up_ended (upload s);
  sw_accepted : up_accepted (upload s') = up_accepted (upload s);
  sw_unsent : completed s' = false → unsent (upload s') = unsent (upload s) ∧ completed s = false;
  sw_target : head_started s = true → target s' = target s;
  sw_reading : reading_response s' = reading_response s;
  sw_history : ∃ es, history s' = history s ++ es ∧ request_written es = [] ∧ request_accepted es = []
}.

Lemma same_wire_inv s s' : same_wire s s' → upload_inv s → upload_inv s'.
Proof.
  intros [E1 E2 E3 E4 E5 E6 E7 E8 E9 (es & Eh & Ew & Ea)] []. assert (F1 : request_written (history s') = request_written (history s)).
  { rewrite Eh. unfold request_written in *. by rewrite omap_app, Ew, app_nil_r. }
  assert (F2 : request_accepted (history s') = request_accepted (history s)).
  { rewrite Eh. unfold request_accepted in *. by rewrite omap_app, Ea, app_nil_r. }
  assert (F3 : ∀ A, body_wire (upload s') A = body_wire (upload s) A) by (intros A; unfold body_wire; by rewrite E2, E5).
  constructor; rewrite ?F1, ?F2, ?F3, ?E1, ?E2, ?E3, ?E4, ?E5, ?E6, ?E9; auto.
  - intros Hh. rewrite E8 by done. auto.
  - intros Hc. destruct (E7 Hc) as [-> Hc']. auto.
Qed.

Lemma inert_wire es : forallb inert_event es = true → request_written es = [] ∧ request_accepted es = [].
Proof. induction es as [|e es IH]; [done|]. cbn. intros [He Hes]%andb_true_iff. destruct (IH Hes). by destruct e. Qed.

(** The end, when the upload is as it was, or a write is given up. *)
Lemma finish_wire result s s' es :
  upload s' = set_up_writing (up_writing (upload s')) (upload s) → target s' = target s → reading_response s' = reading_response s →
  history s' = history s ++ es → request_written es = [] → request_accepted es = [] → same_wire s (finished result s').
Proof.
  intros Eu Et Er Eh Ew Ea. destruct (finished_same result s') as (Fu & _ & Fr & _ & Ft & _ & _ & _ & es' & Fh & He).
  destruct (inert_wire es' He) as [Ew' Ea']. unfold head_started.
  constructor; unfold head_started; rewrite ?Fu, ?Fr, ?Ft, ?finished_completed, ?Et, ?Er; try done; try (rewrite Eu; done).
  exists (es ++ es' ++ if hk_complete (hooks s') then [ce_complete result] else []). rewrite Fh, Eh, <-app_assoc. split; [done|].
  unfold request_written, request_accepted in *. rewrite !omap_app, Ew, Ea, Ew', Ea'. by destruct (hk_complete _).
Qed.

Ltac same es := apply same_wire_inv; constructor; cbn; auto; exists es; cbn; by rewrite ?app_nil_r, <-?app_assoc.

Lemma request_written_snoc h p : request_written (h ++ [ce_write p]) = request_written h ++ [p].
Proof. unfold request_written. by rewrite omap_app. Qed.

Lemma accepted_snoc h p : request_accepted (h ++ [ce_accept p]) = request_accepted h ++ [p].
Proof. unfold request_accepted. by rewrite omap_app. Qed.

Lemma total_length_app a b : total_length (a ++ b) = total_length a + total_length b.
Proof. unfold total_length. rewrite fmap_app. apply sum_list_with_app. Qed.

Lemma not_reading s : steady s → head_started s = false → reading_response s = true → False.
Proof. intros Hs Hh Hr. by rewrite (st_reading _ Hs Hr) in Hh. Qed.

Lemma enable_wire s :
  up_mode (upload s) = upload_none → head_started s = false → up_ended (upload s) = false → steady s → upload_inv s → upload_inv (enable_chunked_upload s).
Proof.
  intros Hm Hh He Hs []. assert (Hw : up_writes (upload s) = []) by by apply (st_none _ Hs).
  assert (HA : request_accepted (history s) = []) by auto. assert (HW : request_written (history s) = []) by auto.
  constructor; cbn [enable_chunked_upload update_upload set_upload history upload]; unfold head_started in *; cbn; rewrite ?HA, ?HW in *; try done.
  - congruence.
  - apply prefix_nil.
  - intros _. unfold body_wire, unsent. cbn. rewrite He, Hw. by destruct (up_writing _).
  - intros Hr. by destruct (not_reading s).
Qed.

Lemma accept_wire payload wire s :
  completed s = false → up_ended (upload s) = false → up_backpressured (upload s) = false → payload ≠ [] →
  upload_wire payload (upload s) = Some wire → steady s → upload_inv s →
  upload_inv (happen (ce_accept payload) (update_upload (push_upload payload wire) s)).
Proof.
  intros Hc He _ Hne Hwire Hs []. set (s' := happen _ _). assert (HA : request_accepted (history s') = request_accepted (history s) ++ [payload]) by apply accepted_snoc.
  assert (HW : request_written (history s') = request_written (history s)) by (unfold request_written, s'; cbn; by rewrite omap_app, app_nil_r).
  assert (Hmode : up_mode (upload s) ≠ upload_none) by (intros E; unfold upload_wire in Hwire; by rewrite E in Hwire).
  assert (HT : body_wire (upload s') (request_accepted (history s')) = body_wire (upload s) (request_accepted (history s)) ++ [wire]).
  { rewrite HA. unfold body_wire. cbn. rewrite He. cbn. rewrite !app_nil_r, map_app. f_equal. cbn. f_equal.
    unfold upload_wire in Hwire. unfold framed. repeat case_match; simplify_eq; done. }
  assert (HU : unsent (upload s') = unsent (upload s) ++ [wire]).
  { unfold unsent. cbn. destruct (up_writing (upload s)) eqn:Ew; [|done]. destruct (st_writing _ Hs Hc Ew) as [Hn _]. by destruct (up_writes (upload s)). }
  constructor; rewrite ?HW, ?HT; auto.
  - by apply prefix_app_r.
  - intros _. rewrite HU, app_assoc. by rewrite ui_exact0.
  - intros Hm. by cbn in Hm.
  - rewrite HA. apply Forall_app. split; [done|by apply Forall_singleton].
  - rewrite HA, total_length_app. cbn. rewrite ui_accepted0. unfold total_length. cbn. lia.
  - cbn. intros Hm n Hn. unfold upload_wire in Hwire. rewrite Hm, Hn in Hwire. destruct (Nat.ltb_spec n (up_accepted (upload s) + length payload)); [done|lia].
  - cbn. congruence.
  - intros Hr. destruct (ui_reading0 Hr) as [[?|?] _]; congruence.
Qed.

Lemma start_head_wire s :
  completed s = false → head_started s = false → stream s = open_stream → waiting s = None → steady s → upload_inv s →
  upload_inv (happen (ce_write (request_text o m (target s) (up_headers (upload s)))) (set_outstanding (Some write_head) (update_upload start_head s))).
Proof.
  intros Hc Hh _ _ Hs []. set (text := request_text _ _ _ _). set (s' := happen _ _).
  assert (HW : request_written (history s') = [text]) by (change (history s') with (history s ++ [ce_write text]); by rewrite request_written_snoc, ui_before0).
  assert (HA : request_accepted (history s') = request_accepted (history s)) by (unfold request_accepted, s'; cbn; by rewrite omap_app, app_nil_r).
  assert (HT : body_wire (upload s') (request_accepted (history s')) = body_wire (upload s) (request_accepted (history s))).
  { rewrite HA. unfold body_wire, s', start_head. cbn. destruct (decide (up_mode (upload s) = upload_content_length)) as [E|E].
    - rewrite E, (bool_decide_eq_true_2 (upload_content_length = _)) by done. destruct (bool_decide (up_length _ = _)); cbn; by rewrite ?E, ?andb_false_r.
    - by rewrite bool_decide_eq_false_2. }
  assert (HU : unsent (upload s') = unsent (upload s)) by (unfold s', unsent, start_head; cbn; by destruct (_ && _)).
  assert (Hsame : up_mode (upload s') = up_mode (upload s) ∧ up_length (upload s') = up_length (upload s) ∧ up_headers (upload s') = up_headers (upload s) ∧
    up_accepted (upload s') = up_accepted (upload s) ∧ head_started s' = true) by (unfold s', head_started, start_head; cbn; by case_match).
  destruct Hsame as (E1 & E2 & E3 & E4 & E5). constructor; rewrite ?HW, ?HT, ?HU, ?HA, ?E1, ?E2, ?E3, ?E4, ?E5; auto; try done.
  - intros _. by exists [].
  - apply prefix_nil.
  - intros _. cbn. rewrite <-ui_exact0 by done. by rewrite ui_before0.
  - intros Hm He. unfold s', start_head in He. cbn in He. destruct (bool_decide _ && bool_decide (up_length (upload s) = Some 0)) eqn:E.
    + apply andb_true_iff in E as [_ E]. apply bool_decide_eq_true in E. rewrite E. f_equal. specialize (ui_limit0 Hm 0 E). lia.
    + auto.
  - intros Hr. by destruct (not_reading s).
Qed.

Lemma send_wire front rest s :
  completed s = false → up_headers_written (upload s) = true → up_writing (upload s) = false → up_writes (upload s) = front :: rest →
  steady s → upload_inv s →
  upload_inv (happen (ce_write front) (set_outstanding (Some write_upload) (update_upload (set_up_writing true) s))).
Proof.
  intros Hc Hw Hwr Hws Hs []. set (s' := happen _ _). assert (Hh : head_started s = true) by by apply (st_written _ Hs).
  assert (HW : request_written (history s') = request_written (history s) ++ [front]) by apply request_written_snoc.
  assert (HA : request_accepted (history s') = request_accepted (history s)) by (unfold request_accepted, s'; cbn; by rewrite omap_app, app_nil_r).
  destruct (ui_after0 Hh) as [sent Hsent]. assert (Htail : tail (request_written (history s) ++ [front]) = tail (request_written (history s)) ++ [front]).
  { by rewrite Hsent. }
  assert (Hex : (tail (request_written (history s)) ++ [front]) ++ rest = body_wire (upload s) (request_accepted (history s))).
  { rewrite <-ui_exact0 by done. unfold unsent. by rewrite Hwr, Hws, <-app_assoc. }
  constructor; rewrite ?HW, ?HA, ?Htail; auto.
  - intros Hx. change (head_started s = false) in Hx. congruence.
  - intros _. exists (sent ++ [front]). by rewrite Hsent.
  - change (body_wire (upload s')) with (body_wire (upload s)). rewrite <-Hex. by apply prefix_app_r.
  - intros _. unfold unsent. cbn. rewrite Hws. exact Hex.
  - intros Hr. change (reading_response s = true) in Hr. destruct (ui_reading0 Hr) as [_ Heq]. rewrite Heq, <-app_assoc in Hex. apply (f_equal length) in Hex. rewrite length_app in Hex. cbn in Hex. lia.
Qed.

Lemma end_wire s :
  up_mode (upload s) = upload_none ∨ (up_mode (upload s) = upload_content_length ∧ up_length (upload s) = Some (up_accepted (upload s))) →
  up_ended (upload s) = false → upload_inv s → upload_inv (update_upload (set_up_ended true) s).
Proof.
  intros Hm He []. set (s' := update_upload _ s).
  assert (HT : ∀ A, body_wire (upload s') A = body_wire (upload s) A).
  { intros A. unfold body_wire. cbn. rewrite He. by destruct Hm as [-> | [-> _]]. }
  constructor; rewrite ?HT; auto.
  - intros Hl _. destruct Hm as [Hm|[_ Hm]]; [cbn in Hl; congruence|done].
  - intros Hr. destruct (ui_reading0 Hr) as [_ ?]. auto.
Qed.

Lemma end_chunked_wire s :
  completed s = false → up_ended (upload s) = false → up_mode (upload s) = upload_chunked → steady s → upload_inv s →
  upload_inv (update_upload (set_up_ended true) (update_upload push_last s)).
Proof.
  intros Hc He Hm Hs []. set (s' := update_upload _ _).
  assert (HT : ∀ A, body_wire (upload s') A = body_wire (upload s) A ++ [last_upload_chunk]).
  { intros A. unfold body_wire. cbn. rewrite He, Hm. cbn. by rewrite app_nil_r. }
  assert (HU : unsent (upload s') = unsent (upload s) ++ [last_upload_chunk]).
  { unfold unsent. cbn. destruct (up_writing (upload s)) eqn:Ew; [|done]. destruct (st_writing _ Hs Hc Ew) as [Hn _]. by destruct (up_writes (upload s)). }
  constructor; rewrite ?HT, ?HU; auto.
  - by apply prefix_app_r.
  - intros _. change (history s') with (history s). by rewrite app_assoc, ui_exact0.
  - cbn. congruence.
  - intros Hr. destruct (ui_reading0 Hr) as [[?|?] _]; congruence.
Qed.

Lemma begin_wire s :
  completed s = false → reading_response s = false → body_written (upload s) → steady s → upload_inv s →
  upload_inv (happen ce_read_start (set_reading_response true s)).
Proof.
  intros Hc _ (Hm & Hws & Hwr & Hw) Hs []. set (s' := happen _ _).
  assert (HW : request_written (history s') = request_written (history s)) by (unfold request_written, s'; cbn; by rewrite omap_app, app_nil_r).
  assert (HA : request_accepted (history s') = request_accepted (history s)) by (unfold request_accepted, s'; cbn; by rewrite omap_app, app_nil_r).
  constructor; rewrite ?HW, ?HA; auto. intros _. split; [done|]. change (upload s') with (upload s).
  rewrite <-ui_exact0 by done. unfold unsent. by rewrite Hwr, Hws, app_nil_r.
Qed.

Lemma upload_tick s s' : tick o m late true s s' → steady s → upload_inv s → upload_inv s'.
Proof.
  intros Ht Hs Hi. destruct Ht.
  - destruct H as [Eu _ Er Eo _ _ _ Et (es & Eh & He)]. revert Hi. apply same_wire_inv. destruct (inert_wire es He) as [Ew Ea].
    constructor; unfold head_started; rewrite ?Eu, ?Er, ?(completed_outcome _ _ Eo); auto. by exists es.
  - revert Hi. same (@nil client_event).
  - by apply enable_wire.
  - by apply accept_wire.
  - revert Hi. same (@nil client_event).
  - revert Hi. same (@nil client_event).
  - by apply start_head_wire.
  - revert Hi. same (@nil client_event).
  - by eapply send_wire.
  - destruct (settled_same o (upload s)) as (E1 & E2 & _ & E3 & E4 & E5 & _ & E6 & _ & E7 & E8 & _). revert Hi. apply same_wire_inv.
    constructor; unfold head_started; cbn; auto; [|by exists []; rewrite app_nil_r]. intros Hc. split; [|done]. unfold unsent. by rewrite E1, E2, H1.
  - revert Hi. same [ce_drain].
  - apply end_wire; [by left|done..].
  - apply end_wire; [right; split; done|done..].
  - by apply end_chunked_wire.
  - revert Hi. apply same_wire_inv. apply (finish_wire _ s s []); try done; [by destruct (upload s)|by rewrite app_nil_r].
  - destruct (closed_now_same s) as (E1 & _ & _ & E2 & _ & E3 & _ & _ & Eh).
    destruct (dropped_same report (closed_now s)) as (_ & _ & _ & D1 & _ & D2 & _ & _ & Eh' & D3).
    revert Hi. apply same_wire_inv. eapply finish_wire; [rewrite D3 at 1; by rewrite E1|congruence|congruence|rewrite Eh'; exact Eh|by destruct (stream s)..].
  - destruct (closed_now_same s) as (E1 & _ & _ & E2 & E4 & E3 & _ & _ & Eh). revert Hi. apply same_wire_inv.
    constructor; unfold head_started; rewrite ?E1, ?E2, ?E3, ?(completed_outcome _ _ E4); auto. eexists. split; [exact Eh|]. by destruct (stream s).
  - revert Hi. apply same_wire_inv. apply (finish_wire _ s _ [ce_close]); try done. cbn. by destruct (upload s).
  - by apply begin_wire.
  - revert Hi. same (@nil client_event).
  - revert Hi. same [ce_headers h].
  - revert Hi. same [ce_data d].
  - revert Hi. apply same_wire_inv. eapply (finish_wire _ s _ [_; _]); try done; cbn; [by destruct (upload s)|by rewrite <-app_assoc|done..].
  - revert Hi. same [ce_read_stop; ce_release (origin_key (target s))].
  - revert Hi. same [ce_throw].
Qed.
End wire.

(** ** Pressure *)

Section pressure.
Context (o : client_options) (m : method) (late : bool).

Definition pressure_inv (s : streaming_request) : Prop :=
  up_pending (upload s) = total_length (up_writes (upload s)) ∧
  (completed s = false → up_backpressured (upload s) = true → max_pending_request_body_bytes o / 2 < up_pending (upload s)).

(** Steps that leave the queue alone. *)
Lemma same_pressure s s' :
  up_writes (upload s') = up_writes (upload s) → up_pending (upload s') = up_pending (upload s) →
  (completed s' = false → completed s = false ∧ up_backpressured (upload s') = up_backpressured (upload s)) →
  pressure_inv s → pressure_inv s'.
Proof. intros E1 E2 E3 [H1 H2]. unfold pressure_inv. rewrite E1, E2. split; [done|]. intros Hc. destruct (E3 Hc) as [Hc' ->]. auto. Qed.

Lemma finished_pressure result s s' :
  up_writes (upload s') = up_writes (upload s) → up_pending (upload s') = up_pending (upload s) → pressure_inv s → pressure_inv (finished result s').
Proof.
  intros E1 E2. destruct (finished_same result s') as (Eu & _). apply same_pressure; rewrite ?Eu; [done..|]. by rewrite finished_completed.
Qed.

Lemma total_length_snoc l w : total_length (l ++ [w]) = total_length l + length w.
Proof. rewrite total_length_app. unfold total_length. cbn. lia. Qed.

Lemma pop_total u : up_pending u = total_length (up_writes u) →
  up_pending u - Nat.min (up_pending u) (length (default [] (head (up_writes u)))) = total_length (tail (up_writes u)).
Proof. unfold total_length. destruct (up_writes u) as [|w ws]; cbn; lia. Qed.

Lemma pressure_tick s s' : tick o m late true s s' → pressure_inv s → pressure_inv s'.
Proof.
  intros Ht Hi. pose proof Hi as [Hi1 Hi2]. destruct Ht; try done.
  all: try (by revert Hi; apply same_pressure; cbn; auto).
  all: try (by revert Hi; apply finished_pressure; cbn; auto).
  - destruct H as [Eu _ _ Eo _ _ _ _ _]. revert Hi. apply same_pressure; rewrite Eu; [done..|]. by rewrite (completed_outcome _ _ Eo).
  - split; cbn -[total_length Nat.div]; [rewrite total_length_snoc; lia|]. intros Hc Hb. specialize (Hi2 Hc Hb). lia.
  - split; [done|]. intros _ _. cbn -[Nat.div]. apply Nat.Div0.div_lt_upper_bound; lia.
  - revert Hi. apply same_pressure; cbn; unfold start_head; by destruct (_ && _).
  - destruct (settled_same o (upload s)) as (_ & E1 & E2 & _ & _ & _ & _ & _ & _ & _ & _ & E3). split.
    + cbn. rewrite E1, E2. by apply pop_total.
    + intros _ Hb. by destruct (E3 Hb).
  - split; cbn -[total_length Nat.div]; [rewrite total_length_snoc; cbn; lia|]. intros Hc Hb. specialize (Hi2 Hc Hb). lia.
  - destruct (closed_now_same s) as (E1 & _). destruct (dropped_same report (closed_now s)) as (_ & _ & _ & _ & _ & _ & _ & _ & _ & D).
    pose proof (f_equal up_writes D) as D1. pose proof (f_equal up_pending D) as D2. cbn in D1, D2. revert Hi. apply finished_pressure; congruence.
  - destruct (closed_now_same s) as (E1 & _ & _ & _ & E2 & _). revert Hi. apply same_pressure; rewrite E1; [done..|]. by rewrite (completed_outcome _ _ E2).
Qed.
End pressure.
