(* ===== verification/ClientStreamClaims.v ===== *)
(** * Streaming requests: the theorems

    What every run of a streaming request keeps, whatever the user calls, within
    callbacks as well, and whatever the transport reports; and runs that show
    what a request that ends within [on_response_headers] still does. *)

From S2P Require Import Prelude Text Url Http HttpError Multipart Response ServerWire ServerWireSpec.
From S2P Require Import ClientWire ClientWireSpec ClientOptions ClientStreamState ClientStream.
From S2P Require Import ClientStreamTheory ClientStreamSpec ClientUpload.

Open Scope nat_scope.

(** ** Where a run begins *)

Lemma ready_callbacks late s : ready s → callbacks_inv late s.
Proof.
  intros Hr. unfold callbacks_inv. rewrite (rd_history _ Hr). split_and!; [by intros i j e e' Hi|done|].
  intros result Hin. by apply elem_of_nil in Hin.
Qed.

Lemma ready_stream late s : ready s → stream_inv late s.
Proof. intros Hr. unfold stream_inv. rewrite (rd_history _ Hr). split_and!; [by intros i j e e' Hi|done..]. Qed.

Lemma ready_upload o m s : ready s → upload_inv o m s.
Proof.
  intros Hr. destruct (rd_upload _ Hr) as (hs & mode & len & Eu). constructor; unfold head_started, body_wire;
    rewrite ?(rd_history _ Hr), ?(rd_reading _ Hr), ?Eu; try done.
  intros _ n _. apply Nat.le_0_l.
Qed.

Lemma ready_pressure o s : ready s → pressure_inv o s.
Proof. intros Hr. destruct (rd_upload _ Hr) as (hs & mode & len & Eu). unfold pressure_inv. by rewrite Eu. Qed.

(** A transport that reports nothing within a call. *)
Definition patient_transport : transport := Transport (λ _, None) (λ _, None) (λ _, []) None.

Section theorems.
Context (o : client_options) (m : method) (tr : transport) (calls : list client_event → client_event → list client_cmd).
Context (depth : nat) (setup : list client_cmd) (url_input : str) (pooled : bool) (ops : list client_op).

Let final := run_request o m tr calls depth setup url_input pooled ops.

(** C28: The user of a streaming request is told the end at most once, with the
    result that the request keeps, and after it neither a response head nor a
    drain; and no body data either, when the callback of the head calls nothing. *)
Theorem request_callbacks (late : bool) :
  (late = false → ∀ h head, calls h (ce_headers head) = []) →
  never_after is_complete (told_late late) (history final) ∧
  ∀ result, ce_complete result ∈ history final → outcome final = Some result.
Proof.
  intros Hcalls. assert (H : callbacks_inv late final); [|by destruct H as (H1 & _ & H2)].
  apply (request_invariant o m tr calls late Hcalls); [apply ready_callbacks|]. intros s s' Ht _. by apply (callbacks_tick o m).
Qed.

(** A streaming request never writes to its stream, nor starts to read it,
    after it has closed it or given it to the pool; and it does so at most once,
    when the callback of the head calls nothing. *)
Theorem request_stream_use (late : bool) :
  (late = false → ∀ h head, calls h (ce_headers head) = []) → never_after is_end (uses_stream late) (history final).
Proof.
  intros Hcalls. assert (H : stream_inv late final); [|by destruct H].
  apply (request_invariant o m tr calls late Hcalls); [apply ready_stream|]. intros s s' Ht _. by apply (stream_tick o m).
Qed.

Lemma request_upload : upload_inv o m final.
Proof.
  apply (request_invariant o m tr calls true ltac:(done)); [apply ready_upload|]. intros s s' Ht Hs. by apply (upload_tick o m true).
Qed.

(** At any time, what a streaming request has written is nothing, or its
    head and then a part from the front of the framed chunks that [write]
    accepted, in order. *)
Theorem request_written_in_order :
  request_written (history final) = [] ∨
  ∃ sent unsent, request_written (history final) = request_text o m (target final) (up_headers (upload final)) :: sent ∧
    sent ++ unsent = body_wire (upload final) (request_accepted (history final)).
Proof.
  pose proof request_upload as H. destruct (head_started final) eqn:Hh; [right|left; by apply (ui_before _ _ _ H)].
  destruct (ui_after _ _ _ H Hh) as [sent Hs]. destruct (ui_prefix _ _ _ H) as [rest Hrest]. exists sent, rest. split; [done|].
  by rewrite Hrest, Hs.
Qed.

(** C29: When a streaming request starts to read the response, it has written the
    whole body: none without a mode, the accepted bytes, exactly as many as
    declared, with a length, and otherwise a chunked body that decodes to them. *)
Theorem request_body_sent :
  reading_response final = true → Forall (λ c, (Z.of_nat (length c) + 2 < 2 ^ 32)%Z) (request_accepted (history final)) →
  let accepted := concat (request_accepted (history final)) in
  let body := concat (tail (request_written (history final))) in
  match up_mode (upload final) with
  | upload_none => body = [] ∧ accepted = []
  | upload_content_length => body = accepted ∧ up_length (upload final) = Some (length accepted)
  | upload_chunked => decode_chunked body = Ok accepted
  end.
Proof.
  intros Hr Hsize. cbv zeta. pose proof request_upload as H. destruct (ui_reading _ _ _ H Hr) as [Hm Hb]. rewrite Hb. unfold body_wire, framed.
  pose proof (ui_nonempty _ _ _ H) as Hne. destruct (up_mode (upload final)) eqn:E.
  - by rewrite (ui_none _ _ _ H E), andb_false_r.
  - destruct Hm as [?|Hm]; [done|]. rewrite andb_false_r, app_nil_r, map_id. split; [done|].
    rewrite (ui_ended _ _ _ H E Hm), (ui_accepted _ _ _ H). unfold total_length. by rewrite length_concat.
  - destruct Hm as [?|Hm]; [done|]. rewrite Hm. change (true && _) with true. cbn iota. rewrite concat_app, <-flat_map_concat_map.
    cbn [concat]. rewrite app_nil_r. change (flat_map (λ p, client_serialize_chunk p)) with (flat_map serialize_chunk).
    apply decode_chunked_ok. apply Forall_and. split; [exact Hne|exact Hsize].
Qed.

(** The pressure of an upload is the size of what is queued, the write under
    way with it; while [write] refuses chunks because of it, more than half of
    the limit is queued, so that there is a write whose end brings the drain. *)
Theorem request_pressure :
  up_pending (upload final) = total_length (up_writes (upload final)) ∧
  (completed final = false → up_backpressured (upload final) = true →
    max_pending_request_body_bytes o / 2 < up_pending (upload final) ∧ up_writes (upload final) ≠ []).
Proof.
  assert (H : pressure_inv o final).
  { apply (request_invariant o m tr calls true ltac:(done)); [apply ready_pressure|]. intros s s' Ht _. by apply (pressure_tick o m true). }
  destruct H as [H1 H2]. split; [done|]. intros Hc Hb. specialize (H2 Hc Hb). split; [done|]. intros E. rewrite H1, E in H2. cbn in H2. lia.
Qed.
End theorems.

(** ** Runs *)

Definition example_url : str := lit "http://a/b".
Definition example_hooks : list client_cmd := [cc_on_headers true; cc_on_data true; cc_on_complete true; cc_on_drain true].
Definition example_connect : list client_op := [op_resolved None; op_connected connect_ok].
Definition cancel_on (p : client_event → bool) : list client_event → client_event → list client_cmd :=
  λ _ e, if p e then [cc_cancel] else [].
Definition response_lines (lines : list string) : str := flat_map (λ l, lit l ++ crlf) lines ++ crlf.

(** A download that the user cancels at the first bytes of the body. *)
Definition cancelled_download : streaming_request :=
  run_request default_client_options m_get patient_transport (cancel_on (λ e, match e with ce_data _ => true | _ => false end)) 2
    example_hooks example_url false
    (example_connect ++ [op_written None; op_read (read_bytes (response_lines ["HTTP/1.1 200 OK"] ++ lit "ab")); op_read (read_bytes (lit "cd")); op_read read_eof]).

Lemma request_callbacks_witness :
  never_after is_complete (told_late false) (history cancelled_download) ∧
  (∀ result, ce_complete result ∈ history cancelled_download → outcome cancelled_download = Some result) ∧
  List.filter (λ e, match e with ce_headers _ | ce_data _ | ce_complete _ | ce_close => true | _ => false end) (history cancelled_download) =
    [ce_headers (ResponseHead 200 []); ce_data (lit "ab"); ce_close; ce_complete (Some cancelled_error)].
Proof.
  pose proof (request_callbacks default_client_options m_get patient_transport
    (cancel_on (λ e, match e with ce_data _ => true | _ => false end)) 2 example_hooks example_url false
    (example_connect ++ [op_written None; op_read (read_bytes (response_lines ["HTTP/1.1 200 OK"] ++ lit "ab")); op_read (read_bytes (lit "cd")); op_read read_eof])
    false (λ _ _ _, eq_refl)) as [H1 H2].
  split; [exact H1|split; [exact H2|vm_compute; reflexivity]].
Defined.

Lemma request_stream_use_witness :
  never_after is_end (uses_stream false) (history cancelled_download) ∧ existsb is_end (history cancelled_download) = true.
Proof.
  split; [|vm_compute; reflexivity].
  exact (request_stream_use default_client_options m_get patient_transport
    (cancel_on (λ e, match e with ce_data _ => true | _ => false end)) 2 example_hooks example_url false
    (example_connect ++ [op_written None; op_read (read_bytes (response_lines ["HTTP/1.1 200 OK"] ++ lit "ab")); op_read (read_bytes (lit "cd")); op_read read_eof])
    false (λ _ _ _, eq_refl)).
Defined.

(** An upload of two chunks; the second waits for the first. *)
Definition upload_ops : list client_op :=
  example_connect ++ [op_calls [cc_write (lit "hello")]; op_written None; op_calls [cc_write (lit " world"); cc_end]; op_written None; op_written None; op_written None].

Definition example_upload : streaming_request :=
  run_request default_client_options m_post patient_transport (λ _ _, []) 2 (cc_chunked :: example_hooks) example_url false upload_ops.

Lemma request_body_sent_witness :
  reading_response example_upload = true ∧ decode_chunked (concat (tail (request_written (history example_upload)))) = Ok (lit "hello world").
Proof.
  split; [vm_compute; reflexivity|].
  assert (Hr : reading_response (run_request default_client_options m_post patient_transport (λ _ _, []) 2 (cc_chunked :: example_hooks) example_url false upload_ops) = true)
    by (vm_compute; reflexivity).
  assert (Ha : request_accepted (history (run_request default_client_options m_post patient_transport (λ _ _, []) 2 (cc_chunked :: example_hooks) example_url false upload_ops)) =
    [lit "hello"; lit " world"]) by (vm_compute; reflexivity).
  pose proof (request_body_sent default_client_options m_post patient_transport (λ _ _, []) 2 (cc_chunked :: example_hooks) example_url false upload_ops Hr) as H.
  rewrite Ha in H. specialize (H ltac:(repeat constructor)). exact H.
Defined.

(** With half of a limit of eight queued, [write] refuses. *)
Definition small_options : client_options :=
  ClientOptions 65536 100 8 1 5 0 0 0 0 50 false (ProxyOptions [] []).

Definition pressed_ops : list client_op := example_connect ++ [op_written None; op_calls [cc_write (lit "abcdefgh"); cc_write (lit "ij")]].

Lemma request_pressure_witness :
  let s := run_request small_options m_post patient_transport (λ _ _, []) 2 (cc_content_length 20 :: example_hooks) example_url false pressed_ops in
  up_backpressured (upload s) = true ∧ (4 < up_pending (upload s) ∧ up_writes (upload s) ≠ []) ∧ request_accepted (history s) = [lit "abcdefgh"].
Proof.
  intros s. split; [vm_compute; reflexivity|]. split; [|vm_compute; reflexivity].
  pose proof (request_pressure small_options m_post patient_transport (λ _ _, []) 2 (cc_content_length 20 :: example_hooks) example_url false pressed_ops) as [_ H].
  exact (H ltac:(vm_compute; reflexivity) ltac:(vm_compute; reflexivity)).
Defined.

(** ** A request that is cancelled by the callback of the response head *)

Definition cancel_on_headers := cancel_on (λ e, match e with ce_headers _ => true | _ => false end).

(** What is left of a history: what the user is told, the timer, the pool. *)
Definition notable (h : list client_event) : list client_event :=
  List.filter (λ e, match e with ce_data _ | ce_complete _ | ce_close | ce_release _ | ce_timer_start _ _ | ce_timer_stop => true | _ => false end) h.

(** A body until the end of the stream is still delivered, after the end, and
    the timer of the body phase is started and never stopped. *)
Example cancelled_in_headers_delivers :
  notable (history (run_request small_options m_get patient_transport cancel_on_headers 2 example_hooks example_url false
    (example_connect ++ [op_written None; op_read (read_bytes (response_lines ["HTTP/1.1 200 OK"] ++ lit "ab"))]))) =
  [ce_close; ce_complete (Some cancelled_error); ce_timer_start phase_response_body 50; ce_data (lit "ab")].
Proof. vm_compute. reflexivity. Qed.

(** A response without a body puts the stream that was just closed into the
    pool. *)
Example cancelled_in_headers_pools :
  notable (history (run_request small_options m_head patient_transport cancel_on_headers 2 example_hooks example_url false
    (example_connect ++ [op_written None; op_read (read_bytes (response_lines ["HTTP/1.1 200 OK"]))]))) =
  [ce_close; ce_complete (Some cancelled_error); ce_release (lit "http://a:80")].
Proof. vm_compute. reflexivity. Qed.

(** Both framings are announced when a length is set before [chunked]. *)
Example both_framings :
  up_headers (upload (run_request small_options m_post patient_transport (λ _ _, []) 2 [cc_content_length 5; cc_chunked] example_url false [])) =
  [(lit "content-length", lit "5"); (lit "transfer-encoding", lit "chunked")].
Proof. vm_compute. reflexivity. Qed.
