(* ===== verification/ClientBuffered.v ===== *)
(** * Buffered requests

    [request_state] of [src/http/client.cpp]: a request whose response is
    collected before its callback is called, with proxies, the pool and redirects.
    A write, the closing of a stream for a redirect and each step of connecting is
    reported by an operation of a run; a report within the call is the operation
    that comes next. *)

From S2P Require Import Prelude Text Url Http HttpError Multipart Response ClientWire ClientOptions.

Open Scope Z_scope.

(** What happens, in order. *)
Inductive request_event :=
| re_start (url_text : str) | re_take (key : str)
| re_resolve (name : str) (port : Z) | re_connect | re_tls
| re_write (payload : str) | re_read_start | re_received (bytes : str) | re_read_stop | re_close | re_release (key : str)
| re_timer_start (p : timeout_phase) (duration : Z) | re_timer_stop
| re_done (result : result error response_state) | re_throw.

Inductive request_op :=
| ro_resolved (failure : option source_error)
| ro_connected (r : connect_result)
| ro_tls (r : tls_result)
| ro_written (failure : option str)
| ro_read (r : read_result)
| ro_closed
| ro_timeout
| ro_cancel.

Record request_state := RequestState {
  url_ : url;
  proxy_key : str;
  using_forward_proxy : bool;
  stream : stream_handle;
  received : str;
  redirects_followed : nat;
  response_headers_complete : bool;
  phase : timeout_phase;
  timer : bool;
  cancelled : bool;
  timed_out : bool;
  outcome : option (result error response_state);
  waiting : option connect_step;
  writing : bool;
  reading : bool;
  closing : option url;
  history : list request_event
}.

(** ** Assignments to the fields *)

Definition set_url x (s : request_state) : request_state :=
  RequestState x (proxy_key s) (using_forward_proxy s) (stream s) (received s) (redirects_followed s) (response_headers_complete s)
    (phase s) (timer s) (cancelled s) (timed_out s) (outcome s) (waiting s) (writing s) (reading s) (closing s) (history s).
Definition set_proxy (forward : bool) (key : str) (s : request_state) : request_state :=
  RequestState (url_ s) key forward (stream s) (received s) (redirects_followed s) (response_headers_complete s)
    (phase s) (timer s) (cancelled s) (timed_out s) (outcome s) (waiting s) (writing s) (reading s) (closing s) (history s).
Definition set_stream x (s : request_state) : request_state :=
  RequestState (url_ s) (proxy_key s) (using_forward_proxy s) x (received s) (redirects_followed s) (response_headers_complete s)
    (phase s) (timer s) (cancelled s) (timed_out s) (outcome s) (waiting s) (writing s) (reading s) (closing s) (history s).
Definition set_received x (s : request_state) : request_state :=
  RequestState (url_ s) (proxy_key s) (using_forward_proxy s) (stream s) x (redirects_followed s) (response_headers_complete s)
    (phase s) (timer s) (cancelled s) (timed_out s) (outcome s) (waiting s) (writing s) (reading s) (closing s) (history s).
Definition set_redirects_followed x (s : request_state) : request_state :=
  RequestState (url_ s) (proxy_key s) (using_forward_proxy s) (stream s) (received s) x (response_headers_complete s)
    (phase s) (timer s) (cancelled s) (timed_out s) (outcome s) (waiting s) (writing s) (reading s) (closing s) (history s).
Definition set_headers_complete x (s : request_state) : request_state :=
  RequestState (url_ s) (proxy_key s) (using_forward_proxy s) (stream s) (received s) (redirects_followed s) x
    (phase s) (timer s) (cancelled s) (timed_out s) (outcome s) (waiting s) (writing s) (reading s) (closing s) (history s).
Definition set_timer (p : timeout_phase) (t : bool) (s : request_state) : request_state :=
  RequestState (url_ s) (proxy_key s) (using_forward_proxy s) (stream s) (received s) (redirects_followed s) (response_headers_complete s)
    p t (cancelled s) (timed_out s) (outcome s) (waiting s) (writing s) (reading s) (closing s) (history s).
Definition set_cancelled (c t : bool) (s : request_state) : request_state :=
  RequestState (url_ s) (proxy_key s) (using_forward_proxy s) (stream s) (received s) (redirects_followed s) (response_headers_complete s)
    (phase s) (timer s) c t (outcome s) (waiting s) (writing s) (reading s) (closing s) (history s).
Definition set_outcome x (s : request_state) : request_state :=
  RequestState (url_ s) (proxy_key s) (using_forward_proxy s) (stream s) (received s) (redirects_followed s) (response_headers_complete s)
    (phase s) (timer s) (cancelled s) (timed_out s) x (waiting s) (writing s) (reading s) (closing s) (history s).
Definition set_waiting x (s : request_state) : request_state :=
  RequestState (url_ s) (proxy_key s) (using_forward_proxy s) (stream s) (received s) (redirects_followed s) (response_headers_complete s)
    (phase s) (timer s) (cancelled s) (timed_out s) (outcome s) x (writing s) (reading s) (closing s) (history s).
Definition set_writing x (s : request_state) : request_state :=
  RequestState (url_ s) (proxy_key s) (using_forward_proxy s) (stream s) (received s) (redirects_followed s) (response_headers_complete s)
    (phase s) (timer s) (cancelled s) (timed_out s) (outcome s) (waiting s) x (reading s) (closing s) (history s).
Definition set_reading x (s : request_state) : request_state :=
  RequestState (url_ s) (proxy_key s) (using_forward_proxy s) (stream s) (received s) (redirects_followed s) (response_headers_complete s)
    (phase s) (timer s) (cancelled s) (timed_out s) (outcome s) (waiting s) (writing s) x (closing s) (history s).
Definition set_closing x (s : request_state) : request_state :=
  RequestState (url_ s) (proxy_key s) (using_forward_proxy s) (stream s) (received s) (redirects_followed s) (response_headers_complete s)
    (phase s) (timer s) (cancelled s) (timed_out s) (outcome s) (waiting s) (writing s) (reading s) x (history s).
Definition happen (e : request_event) (s : request_state) : request_state :=
  RequestState (url_ s) (proxy_key s) (using_forward_proxy s) (stream s) (received s) (redirects_followed s) (response_headers_complete s)
    (phase s) (timer s) (cancelled s) (timed_out s) (outcome s) (waiting s) (writing s) (reading s) (closing s) (history s ++ [e]).

Definition new_request_state : request_state :=
  RequestState empty_url [] false no_stream [] 0 false phase_none false false false None None false false None [].

(** [completed_]. *)
Definition completed (s : request_state) : bool := match outcome s with Some _ => true | None => false end.

(** What is around a request, as a function of what happened: whether the pool
    has a connection under the key that was asked for; the failure that closing
    the stream reports for a write under way; the bytes that [read_start] hands
    out at once; and what making the TLS connection throws. *)
Record surroundings := Surroundings {
  sr_pooled : list request_event → str → bool;
  sr_close : list request_event → option str;
  sr_early : list request_event → list read_result;
  sr_tls : option tls_throw
}.

Section operations.
Context (o : client_options) (m : method) (sr : surroundings).

Definition stop_phase_timeout (s : request_state) : request_state :=
  let running := timer s in
  let s := set_timer phase_none false s in
  if running then happen re_timer_stop s else s.

Definition start_phase_timeout (p : timeout_phase) (duration : Z) (s : request_state) : request_state :=
  let s := stop_phase_timeout s in
  if duration <=? 0 then s else happen (re_timer_start p duration) (set_timer p true s).

Definition complete (result : result error response_state) (s : request_state) : request_state :=
  if completed s then s else happen (re_done result) (stop_phase_timeout (set_outcome (Some result) s)).

Definition cancelled_error : error := make_client_error client_cancelled [].

(** [on_written] with an error. *)
Definition write_failed (message : str) (s : request_state) : request_state :=
  complete (Err (make_client_error client_connect_failed message)) (set_writing false s).

(** Closing reports a write under way before it returns, if at all. *)
Definition close_open_stream (s : request_state) : request_state :=
  let s := happen re_close (set_stream closed_stream s) in
  match writing s, sr_close sr (history s) with true, Some message => write_failed message s | _, _ => s end.

Definition close_stream (s : request_state) : request_state :=
  match stream s with open_stream => close_open_stream s | _ => s end.

Definition fail (e : error) (s : request_state) : request_state := complete (Err e) (close_stream s).

(** ** Connecting *)

Definition select_connect_endpoint (target_scheme : url_scheme) (endpoint : url_authority_endpoint) (s : request_state) :
    request_state * result error url_authority_endpoint :=
  let proxy_failed detail := Err (make_client_error client_proxy_failed (lit detail)) in
  let s := set_proxy false [] s in
  if str_eqb (proxy_url (proxy o)) [] then (s, Ok endpoint)
  else if negb (bool_decide (target_scheme = scheme_http)) then (s, proxy_failed "HTTP CONNECT proxying is not implemented")
  else
    match parse_url (proxy_url (proxy o)) with
    | Err e => (s, Err (wrap_client_error client_proxy_failed (url_source e)))
    | Ok proxy =>
      if negb (bool_decide (scheme_id proxy = scheme_http)) then (s, proxy_failed "proxy scheme is unsupported")
      else
        match authority_endpoint proxy with
        | Err e => (s, Err (wrap_client_error client_proxy_failed (url_source e)))
        | Ok endpoint => (set_proxy true (origin_key proxy) s, Ok endpoint)
        end
    end.

Definition connection_pool_key (s : request_state) : str :=
  origin_key (url_ s) ++ (if using_forward_proxy s then lit " via " ++ proxy_key s else []).

Definition line (text : str) : str := text ++ crlf.

Definition request_text (s : request_state) : str :=
  let forward := using_forward_proxy s in
  method_to_string m ++ lit " " ++ (if forward then absolute_form_target (url_ s) else origin_form_target (url_ s)) ++ lit " HTTP/1.1" ++ crlf ++
  line (lit "Host: " ++ host (url_ s) ++ (if has_port (url_ s) then lit ":" ++ port (url_ s) else [])) ++
  line (lit "User-Agent: uvpp-protocols/0") ++ line (lit "Accept: */*") ++
  (if forward && negb (str_eqb (authorization (proxy o)) []) then line (lit "Proxy-Authorization: " ++ authorization (proxy o)) else []) ++
  (if (max_idle_connections_per_origin o =? 0)%nat then line (lit "Connection: close") else []) ++
  crlf.

Definition write_buffered_request (s : request_state) : request_state :=
  let request := request_text s in
  happen (re_write request) (set_writing true (start_phase_timeout phase_request_body (request_body_timeout o) s)).

(** A stream of the request's own. *)
Definition take_stream (s : request_state) : request_state := write_buffered_request (set_reading false (set_stream open_stream s)).

Definition start (parsed : result url_errc url) (s : request_state) : request_state :=
  match parsed with
  | Err e => complete (Err (wrap_client_error client_invalid_url (url_source e))) s
  | Ok target =>
    let s := happen (re_start (href target)) (set_url target s) in
    if negb (http_scheme target) then complete (Err (make_client_error client_unsupported_scheme [])) s
    else
      match authority_endpoint target with
      | Err e => complete (Err (wrap_client_error client_invalid_url (url_source e))) s
      | Ok endpoint =>
        match select_connect_endpoint (scheme_id target) endpoint s with
        | (s, Err e) => complete (Err e) s
        | (s, Ok connect_endpoint) =>
          if sr_pooled sr (history s) (connection_pool_key s) then take_stream (happen (re_take (connection_pool_key s)) s)
          else start_phase_timeout phase_dns (dns_timeout o)
                 (happen (re_resolve (ep_host connect_endpoint) (ep_port connect_endpoint)) (set_waiting (Some step_dns) s))
        end
      end
  end.

Definition unless_cancelled (p : request_state → request_state) (s : request_state) : request_state :=
  if completed s then s
  else if cancelled s then (if timed_out s then s else complete (Err cancelled_error) s)
  else p s.

Definition on_resolved (failure : option source_error) : request_state → request_state :=
  unless_cancelled (λ s,
    match failure with
    | Some e => complete (Err (wrap_client_error client_dns_failed e)) s
    | None => happen re_connect (set_waiting (Some step_connect) (stop_phase_timeout s))
    end).

Definition start_tls (s : request_state) : request_state :=
  match sr_tls sr with
  | Some (tls_context_throws what) => complete (Err (make_client_error client_tls_failed what)) s
  | Some (tls_connect_throws what) =>
    complete (Err (make_client_error client_tls_failed what)) (start_phase_timeout phase_tls_handshake (tls_handshake_timeout o) s)
  | None => happen re_tls (set_waiting (Some step_tls) (start_phase_timeout phase_tls_handshake (tls_handshake_timeout o) s))
  end.

Definition on_connected (r : connect_result) : request_state → request_state :=
  unless_cancelled (λ s,
    match r with
    | connect_timed_out => complete (Err (make_client_error client_timeout (lit "TCP connect timed out"))) s
    | connect_failed e => complete (Err (wrap_client_error client_connect_failed e)) s
    | connect_ok => if bool_decide (scheme_id (url_ s) = scheme_https) then start_tls s else take_stream s
    end).

Definition on_tls_connected (r : tls_result) : request_state → request_state :=
  unless_cancelled (λ s,
    match r with
    | tls_failed e => complete (Err (wrap_client_error client_tls_failed e)) s
    | tls_ok alpn =>
      if negb (str_eqb alpn []) && negb (str_eqb alpn (lit "http/1.1")) then
        complete (Err (make_client_error client_tls_failed (lit "unsupported TLS ALPN protocol"))) (happen re_close s)
      else take_stream s
    end).

(** The step that is under way ends with an error at once. *)
Definition cancel_step (s : request_state) : request_state :=
  let cancelled := SourceError (lit "cancelled") [] in
  let s' := set_waiting None s in
  match waiting s with
  | Some step_dns => on_resolved (Some cancelled) s'
  | Some step_connect => on_connected (connect_failed cancelled) s'
  | Some step_tls => on_tls_connected (tls_failed cancelled) s'
  | None => s
  end.

Definition cancel (s : request_state) : request_state :=
  if completed s then s else fail cancelled_error (cancel_step (set_cancelled true (timed_out s) s)).

Definition on_timeout (p : timeout_phase) (s : request_state) : request_state :=
  if completed s || negb (bool_decide (p = phase s)) then s
  else fail (make_client_error client_timeout (timeout_phase_name p)) (cancel_step (set_cancelled true true s)).

(** ** Redirects *)

(** The stream goes back to the pool. *)
Definition release_stream (s : request_state) : request_state :=
  happen (re_release (connection_pool_key s)) (happen re_read_stop (set_stream no_stream s)).

Definition has_stream (s : request_state) : bool := match stream s with no_stream => false | _ => true end.

(** [after]: the URL to go on with. *)
Definition close_or_release_current (reusable : bool) (after : option url) (s : request_state) : request_state :=
  let s := stop_phase_timeout s in
  if reusable && has_stream s then
    let s := release_stream s in
    match after with Some next => start (Ok next) s | None => s end
  else
    match after with
    | Some next => if has_stream s then set_closing (Some next) (close_stream s) else start (Ok next) s
    | None => close_stream s
    end.

Definition redirect_failed (reusable : bool) (e : error) (s : request_state) : request_state :=
  complete (Err e) (close_or_release_current reusable None s).

Definition follow_redirect (response : response_state) (reusable : bool) (s : request_state) : request_state :=
  let failed detail := redirect_failed reusable (make_client_error client_redirect_failed (lit detail)) s in
  if negb (method_can_follow_redirect m) then failed "redirect method is not replayable"
  else if (max_redirects o <=? redirects_followed s)%nat then failed "too many redirects"
  else
    let location := client_trim (headers_get (rs_headers response) (lit "location")) in
    if str_eqb location [] then failed "redirect location is missing"
    else
      match parse_url_base location (href (url_ s)) with
      | Err e => redirect_failed reusable (wrap_client_error client_redirect_failed (url_source e)) s
      | Ok redirected =>
        if negb (http_scheme redirected) then failed "redirect scheme is unsupported"
        else
          close_or_release_current reusable (Some redirected)
            (set_redirects_followed (S (redirects_followed s)) (set_headers_complete false (set_received [] s)))
      end.

Definition should_follow_redirect (response : response_state) : bool :=
  follow_redirects o && response_is_redirect (status_code response).

Definition complete_buffered_response (r : result client_failure response_state) (reusable : bool) (s : request_state) : request_state :=
  match r with
  | Err (fail_throw _) => happen re_throw s
  | Err (fail_error e) => fail e s
  | Ok response =>
    if should_follow_redirect response then follow_redirect response reusable s
    else complete (Ok response) (if reusable && has_stream s then release_stream s else close_stream s)
  end.

(** ** The response *)

Definition header_limit_error : error := make_client_error client_header_limit_exceeded [].
Definition body_limit_error : error := make_client_error client_body_limit_exceeded [].
Definition malformed_error (detail : string) : error := make_client_error client_malformed_response (lit detail).

(** Errors of [decode_chunked] that more bytes do not mend. *)
Definition final_error (e : error) : bool :=
  contains_text (detail e) (lit "invalid") || contains_text (detail e) (lit "not terminated") || contains_text (detail e) (lit "unexpected bytes").

Definition parse_received (bytes : str) : result client_failure response_state := parse_response m bytes (max_header_bytes o) (max_body_bytes o).

Definition complete_chunked (eof reusable : bool) (raw_body : str) (s : request_state) : request_state :=
  match decode_chunked raw_body with
  | Ok _ => complete_buffered_response (parse_received (received s)) reusable s
  | Err (fail_throw _) => happen re_throw s
  | Err (fail_error e) => if final_error e || eof then fail e s else s
  end.

Definition complete_sized (eof reusable : bool) (length_value : str) (body_offset : nat) (raw_body : str) (s : request_state) : request_state :=
  match parse_uint length_value 10 with
  | None => fail (malformed_error "content-length is invalid") s
  | Some content_length =>
    if max_body_bytes o <? content_length then fail body_limit_error s
    else if Z.of_nat (length raw_body) <? content_length then
      (if eof then fail (malformed_error "response body is incomplete") s else s)
    else complete_buffered_response (parse_received (take (body_offset + Z.to_nat content_length) (received s))) reusable s
  end.

Definition complete_head (eof : bool) (head : response_head) (body_offset : nat) (s : request_state) : request_state :=
  let reusable := (0 <? max_idle_connections_per_origin o)%nat && negb (connection_requests_close (rh_headers head)) &&
    response_has_reusable_framing m (rh_status_code head) (rh_headers head) in
  if response_must_not_have_body m (rh_status_code head) then
    complete_buffered_response (parse_received (take body_offset (received s))) reusable s
  else
    let raw_body := drop body_offset (received s) in
    let length_value := headers_get (rh_headers head) (lit "content-length") in
    if chunked_encoding (rh_headers head) then complete_chunked eof reusable raw_body s
    else if negb (str_eqb length_value []) then complete_sized eof reusable length_value body_offset raw_body s
    else if max_header_bytes o + max_body_bytes o + 4096 <? Z.of_nat (length (received s)) then fail body_limit_error s
    else if eof then complete_buffered_response (parse_received (received s)) false s
    else s.

Definition enter_body (s : request_state) : request_state :=
  if response_headers_complete s then s else start_phase_timeout phase_response_body (response_body_timeout o) (set_headers_complete true s).

Definition try_complete_buffered_response (eof : bool) (s : request_state) : request_state :=
  match find_sub crlf2 (received s) with
  | None =>
    if max_header_bytes o <? Z.of_nat (length (received s)) then fail header_limit_error s
    else if eof then fail (malformed_error "response headers are incomplete") s else s
  | Some header_end =>
    if max_header_bytes o <? Z.of_nat header_end + 4 then fail header_limit_error s
    else
      let s := enter_body s in
      match parse_response_head (received s) (max_header_bytes o) with
      | Err (fail_error e) => fail e s
      | Err (fail_throw _) => happen re_throw s
      | Ok (head, body_offset) => complete_head eof head body_offset s
      end
  end.

Definition on_read (r : read_result) (s : request_state) : request_state :=
  if completed s then s
  else
    match r with
    | read_eof => try_complete_buffered_response true s
    | read_error message => fail (make_client_error client_connect_failed message) s
    | read_bytes bytes => try_complete_buffered_response false (happen (re_received bytes) (set_received (received s ++ bytes) s))
    end.

(** Bytes come while the stream is read. *)
Definition feed (s : request_state) (r : read_result) : request_state :=
  if reading s && match stream s with open_stream => true | _ => false end then on_read r s else s.

Definition on_written (failure : option str) (s : request_state) : request_state :=
  match failure with
  | Some message => write_failed message s
  | None =>
    let s := set_writing false s in
    if completed s then s
    else
      let s := happen re_read_start (set_reading true s) in
      start_phase_timeout phase_response_header (response_header_timeout o) (foldl feed s (sr_early sr (history s)))
  end.

(** ** Runs *)

(** A report comes only for what is under way. *)
Definition run_request_op (s : request_state) (op : request_op) : request_state :=
  match op with
  | ro_resolved failure => match waiting s with Some step_dns => on_resolved failure (set_waiting None s) | _ => s end
  | ro_connected r => match waiting s with Some step_connect => on_connected r (set_waiting None s) | _ => s end
  | ro_tls r => match waiting s with Some step_tls => on_tls_connected r (set_waiting None s) | _ => s end
  | ro_written failure => if writing s then on_written failure s else s
  | ro_read r => feed s r
  | ro_closed => match closing s with Some next => start (Ok next) (set_closing None s) | None => s end
  | ro_timeout => if timer s then on_timeout (phase s) s else s
  | ro_cancel => cancel s
  end.

Definition run_buffered (url_input : str) (ops : list request_op) : request_state :=
  foldl run_request_op (start (parse_url url_input) new_request_state) ops.
End operations.
