(* ===== verification/ClientBufferedSpec.v ===== *)
(** * The end of a buffered request, and its redirects

    A machine of views of a request: where it goes, how often it was redirected,
    how it ended.  Every operation of [ClientBuffered] is a sequence of its steps. *)

From stdpp Require Import relations.
From S2P Require Import Prelude Text Url Http HttpError Multipart Response ClientWire ClientOptions ClientBuffered.

Open Scope nat_scope.

Definition started (h : list request_event) : list str := omap (λ e, match e with re_start u => Some u | _ => None end) h.
Definition answers (h : list request_event) : list (result error response_state) := omap (λ e, match e with re_done r => Some r | _ => None end) h.

(** ** Redirects, as a history shows them *)

(** Where the request is, and what it has read since it turned there. *)
Definition moved (at_ : option str * str) (e : request_event) : option str * str :=
  match e with
  | re_start b => (Some b, [])
  | re_received bytes => (at_.1, at_.2 ++ bytes)
  | _ => at_
  end.
Definition position (h : list request_event) : option str * str := foldl moved (None, []) h.

Section chain.
Context (o : client_options) (m : method).

(** [next] is where the response leads that was read at [base]: it is complete
    after the first [n] bytes of [bytes], has a status that redirects, and its
    location, resolved against [base], is an http or https URL. *)
Definition leads_to (base bytes next : str) : Prop :=
  ∃ n response target, parse_response m (take n bytes) (max_header_bytes o) (max_body_bytes o) = Ok response ∧
    response_is_redirect (status_code response) = true ∧
    let location := client_trim (headers_get (rs_headers response) (lit "location")) in
    location ≠ [] ∧ parse_url_base location base = Ok target ∧ href target = next ∧ http_scheme target = true.

(** Every URL but the first is where the response leads that was read at the one
    before. *)
Definition follows_responses (h : list request_event) : Prop :=
  ∀ before next after base, h = before ++ re_start next :: after → (position before).1 = Some base →
    leads_to base (position before).2 next.

Lemma follows_snoc h e :
  follows_responses h →
  (∀ next base, e = re_start next → (position h).1 = Some base → leads_to base (position h).2 next) →
  follows_responses (h ++ [e]).
Proof.
  intros Hh He before next after base E Hb. destruct after as [|x after _] using rev_ind.
  - apply app_inj_tail in E as [-> ->]. by apply He.
  - rewrite app_comm_cons, app_assoc in E. apply app_inj_tail in E as [-> _]. by eapply Hh.
Qed.

Lemma position_snoc h e : position (h ++ [e]) = moved (position h) e.
Proof. unfold position. by rewrite foldl_app. Qed.
End chain.

(** ** Views *)

(** What a request did: where it turned and what it read there. *)
Definition traced (e : request_event) : bool := match e with re_start _ | re_received _ => true | _ => false end.
Definition trace (h : list request_event) : list request_event := List.filter traced h.

Lemma position_trace h : position (trace h) = position h.
Proof.
  unfold position. generalize (@None str, @nil ascii) as p. induction h as [|e h IH]; intros p; [done|]. by destruct e; cbn; rewrite IH.
Qed.

Lemma started_trace h : started (trace h) = started h.
Proof. induction h as [|e h IH]; [done|]. destruct e; try exact IH. exact (f_equal (cons _) IH). Qed.

Lemma follows_trace o m h : follows_responses o m (trace h) → follows_responses o m h.
Proof.
  intros H before next after base -> Hb. rewrite <-position_trace in *. apply (H (trace before) next (trace after) base); [|done].
  unfold trace. by rewrite List.filter_app.
Qed.

Record request_view := RequestView {
  v_outcome : option (result error response_state);
  v_href : str;
  v_redirects : nat;
  v_next : option url;
  v_stream : stream_handle;
  v_waiting : option connect_step;
  v_received : str;
  v_trace : list request_event;
  v_answers : list (result error response_state)
}.

Definition view (s : request_state) : request_view :=
  RequestView (outcome s) (href (url_ s)) (redirects_followed s) (closing s) (stream s) (waiting s) (received s) (trace (history s))
    (answers (history s)).

Section machine.
Context (o : client_options) (m : method).

Inductive vstep : relation request_view :=
| vs_done r h n next st w rc tr answers :
    vstep (RequestView None h n next st w rc tr answers) (RequestView (Some r) h n next st w rc tr (answers ++ [r]))
| vs_wait step d h n st w rc tr answers : st ≠ open_stream →
    vstep (RequestView d h n None st w rc tr answers) (RequestView d h n None st (Some step) rc tr answers)
| vs_unwait d h n next st w rc tr answers :
    vstep (RequestView d h n next st w rc tr answers) (RequestView d h n next st None rc tr answers)
| vs_open d h n st rc tr answers :
    vstep (RequestView d h n None st None rc tr answers) (RequestView d h n None open_stream None rc tr answers)
| vs_shut st' d h n next st w rc tr answers : st' ≠ open_stream →
    vstep (RequestView d h n next st w rc tr answers) (RequestView d h n next st' w rc tr answers)
| vs_read bytes d h n st w rc tr answers :
    vstep (RequestView d h n None st w rc tr answers) (RequestView d h n None st w (rc ++ bytes) (tr ++ [re_received bytes]) answers)
| vs_follow target h n st rc tr answers :
    st ≠ open_stream → follow_redirects o = true → method_can_follow_redirect m = true → n < max_redirects o → leads_to o m h rc (href target) →
    http_scheme target = true →
    vstep (RequestView None h n None st None rc tr answers) (RequestView None h (S n) (Some target) st None [] tr answers)
| vs_begin target d h n st rc tr answers : st ≠ open_stream →
    vstep (RequestView d h n (Some target) st None rc tr answers)
      (RequestView d (href target) n None st None rc (tr ++ [re_start (href target)]) answers).

Definition vsteps : relation request_view := rtc vstep.

(** ** What the steps keep *)

Record apart (v : request_view) : Prop := {
  ap_waiting : v_waiting v ≠ None → v_stream v ≠ open_stream ∧ v_next v = None;
  ap_next : v_next v ≠ None → v_stream v ≠ open_stream
}.

Lemma vstep_apart v v' : vstep v v' → apart v → apart v'.
Proof. intros Hs [H1 H2]. destruct Hs; constructor; cbn in *; naive_solver. Qed.

Record chained (v : request_view) : Prop := {
  ch_position : position (v_trace v) = (Some (v_href v), match v_next v with None => v_received v | Some _ => (position (v_trace v)).2 end);
  ch_received : v_next v ≠ None → v_received v = [];
  ch_follows : follows_responses o m (v_trace v);
  ch_next : ∀ u, v_next v = Some u → leads_to o m (v_href v) (position (v_trace v)).2 (href u);
  ch_count : length (started (v_trace v)) + (if v_next v then 1 else 0) = S (v_redirects v);
  ch_bound : v_redirects v ≤ max_redirects o;
  ch_allowed : 0 < v_redirects v → follow_redirects o = true ∧ method_can_follow_redirect m = true;
  ch_answers : v_answers v = option_list (v_outcome v)
}.

Lemma started_app h h' : started (h ++ h') = started h ++ started h'.
Proof. apply omap_app. Qed.

Lemma vstep_chained v v' : vstep v v' → chained v → chained v'.
Proof.
  intros Hs [H1 H2 H3 H4 H5 H6 H7 H8]. destruct Hs; cbn -[position started] in *; constructor; cbn -[position started]; eauto; try done; try lia.
  - by rewrite H8.
  - by rewrite position_snoc, H1.
  - by apply follows_snoc.
  - rewrite started_app. cbn. rewrite app_nil_r. lia.
  - by rewrite H1.
  - intros u [= <-]. by rewrite H1.
  - rewrite position_snoc. cbn. by rewrite H2.
  - apply follows_snoc; [done|]. intros next base [= <-] Hb. rewrite H1 in Hb. injection Hb as <-. by apply H4.
  - rewrite started_app, length_app. cbn. lia.
Qed.

Lemma vsteps_invariant (P : request_view → Prop) v v' : (∀ v v', vstep v v' → P v → P v') → vsteps v v' → P v → P v'.
Proof. intros H. induction 1; eauto. Qed.
End machine.

(** ** Operations as sequences of steps *)

Section operations.
Context (o : client_options) (m : method) (sr : surroundings).
Notation "s ⟶ s'" := (vsteps o m (view s) (view s')) (at level 70).
Notation apart s := (apart (view s)).

Lemma trace_app h h' : trace (h ++ h') = trace h ++ trace h'.
Proof. apply List.filter_app. Qed.
Lemma answers_app h h' : answers (h ++ h') = answers h ++ answers h'.
Proof. apply omap_app. Qed.

Lemma same_view s s' : view s' = view s → s ⟶ s'.
Proof. by intros ->. Qed.

Lemma view_fields s s' :
  view s' = view s → outcome s' = outcome s ∧ href (url_ s') = href (url_ s) ∧ closing s' = closing s ∧ stream s' = stream s ∧ waiting s' = waiting s.
Proof. by intros [=]. Qed.

Lemma one_vstep s s' : vstep o m (view s) (view s') → s ⟶ s'.
Proof. apply rtc_once. Qed.

Lemma vsteps_apart s s' : s ⟶ s' → apart s → apart s'.
Proof. apply vsteps_invariant, vstep_apart. Qed.

(** Events of which the view sees nothing. *)
Lemma happen_view e s : traced e = false → answers [e] = [] → view (happen e s) = view s.
Proof. intros H1 H2. unfold view. cbn [happen history outcome url_ redirects_followed closing stream waiting received].
  rewrite trace_app, answers_app, H2. cbn. by rewrite H1, !app_nil_r. Qed.

Lemma stop_view s : view (stop_phase_timeout s) = view s.
Proof. unfold stop_phase_timeout. destruct (timer s); [by rewrite happen_view|done]. Qed.

Lemma start_timeout_view p d s : view (start_phase_timeout p d s) = view s.
Proof. unfold start_phase_timeout. destruct (d <=? 0)%Z; [apply stop_view|]. rewrite happen_view by done. apply stop_view. Qed.

Lemma complete_steps r s : s ⟶ complete r s.
Proof.
  unfold complete, completed. destruct (outcome s) eqn:Eo; [done|]. apply one_vstep.
  assert (E : view (happen (re_done r) (stop_phase_timeout (set_outcome (Some r) s))) =
    RequestView (Some r) (href (url_ s)) (redirects_followed s) (closing s) (stream s) (waiting s) (received s) (trace (history s)) (answers (history s) ++ [r])).
  { pose proof (stop_view (set_outcome (Some r) s)) as H. unfold view in *. cbn in H. injection H as E1 E2 E3 E4 E5 E6 E7 H1 H2.
    cbn [happen history outcome url_ redirects_followed closing stream waiting received].
    by rewrite E1, E2, E3, E4, E5, E6, E7, trace_app, answers_app, H1, H2, app_nil_r. }
  rewrite E. unfold view. rewrite Eo. apply vs_done.
Qed.

Lemma write_failed_steps message s : s ⟶ write_failed message s.
Proof. unfold write_failed. apply (complete_steps _ (set_writing false s)). Qed.

Lemma shut_steps st s : st ≠ open_stream → s ⟶ set_stream st s.
Proof. intros H. apply one_vstep. by apply (vs_shut o m st). Qed.

Lemma close_open_steps s : set_stream closed_stream s ⟶ close_open_stream sr s.
Proof.
  unfold close_open_stream. set (s1 := happen re_close (set_stream closed_stream s)).
  assert (H : set_stream closed_stream s ⟶ s1) by (apply same_view; unfold s1; by rewrite happen_view).
  destruct (writing s1); [|done]. destruct (sr_close sr (history s1)); [|done]. etransitivity; [exact H|apply write_failed_steps].
Qed.

Lemma close_stream_steps s : s ⟶ close_stream sr s.
Proof. unfold close_stream. destruct (stream s); [done| |done]. etransitivity; [by apply (shut_steps closed_stream)|apply close_open_steps]. Qed.

Lemma fail_steps e s : s ⟶ fail sr e s.
Proof. unfold fail. etransitivity; [apply close_stream_steps|apply complete_steps]. Qed.

Lemma take_stream_steps s : waiting s = None → closing s = None → s ⟶ take_stream o m s.
Proof.
  intros Hw Hc. unfold take_stream, write_buffered_request. rewrite happen_view by done. set (s1 := set_reading _ _).
  transitivity (view s1); [apply one_vstep; unfold view, s1; cbn; rewrite Hw, Hc; apply vs_open|].
  change (view (set_writing true ?x)) with (view x). by rewrite start_timeout_view.
Qed.

Lemma unwait_steps s : s ⟶ set_waiting None s.
Proof. apply one_vstep, vs_unwait. Qed.

Lemma wait_steps step s : stream s ≠ open_stream → closing s = None → s ⟶ set_waiting (Some step) s.
Proof. intros Hs Hc. apply one_vstep. unfold view. cbn. rewrite Hc. by apply vs_wait. Qed.

Lemma unless_cancelled_steps p s : s ⟶ p s → s ⟶ unless_cancelled p s.
Proof.
  intros H. unfold unless_cancelled. destruct (completed s); [done|]. destruct (cancelled s); [|done].
  destruct (timed_out s); [done|apply complete_steps].
Qed.

Lemma on_resolved_steps failure s : waiting s = None → stream s ≠ open_stream → closing s = None → s ⟶ on_resolved failure s.
Proof.
  intros Hw Hs Hc. apply unless_cancelled_steps. destruct failure; [apply complete_steps|]. rewrite happen_view by done.
  transitivity (view (stop_phase_timeout s)); [by rewrite stop_view|]. apply wait_steps;
    unfold stop_phase_timeout; by destruct (timer s).
Qed.

Lemma start_tls_steps s : stream s ≠ open_stream → closing s = None → s ⟶ start_tls o sr s.
Proof.
  intros Hs Hc. unfold start_tls. destruct (sr_tls sr) as [[what|what]|]; [apply complete_steps|..].
  { etransitivity; [by apply same_view, start_timeout_view|apply complete_steps]. }
  rewrite happen_view by done. set (s1 := start_phase_timeout _ _ _).
  assert (E : view s1 = view s) by apply start_timeout_view. rewrite <-E. apply wait_steps; [by rewrite (f_equal v_stream E : stream s1 = stream s)|].
  by rewrite (f_equal v_next E : closing s1 = closing s).
Qed.

Lemma on_connected_steps r s : waiting s = None → stream s ≠ open_stream → closing s = None → s ⟶ on_connected o m sr r s.
Proof.
  intros Hw Hs Hc. apply unless_cancelled_steps. destruct r; [|apply complete_steps..]. case_bool_decide; [by apply start_tls_steps|by apply take_stream_steps].
Qed.

Lemma on_tls_connected_steps r s : waiting s = None → closing s = None → s ⟶ on_tls_connected o m r s.
Proof.
  intros Hw Hc. apply unless_cancelled_steps. destruct r; [|apply complete_steps]. destruct (_ && _); [|by apply take_stream_steps].
  etransitivity; [|apply complete_steps]. by rewrite happen_view.
Qed.

Lemma cancel_step_steps s : apart s → s ⟶ cancel_step o m sr s.
Proof.
  intros Ha. unfold cancel_step. destruct (waiting s) as [step|] eqn:Ew; [|done]. destruct (ap_waiting _ Ha) as [Hs Hc]; [cbn; congruence|].
  cbn in Hs, Hc. destruct step; (etransitivity; [apply unwait_steps|]).
  - by apply on_resolved_steps.
  - by apply on_connected_steps.
  - by apply on_tls_connected_steps.
Qed.

Lemma cancel_steps s : apart s → s ⟶ cancel o m sr s.
Proof.
  intros Ha. unfold cancel. destruct (completed s); [done|]. transitivity (view (cancel_step o m sr (set_cancelled true (timed_out s) s))); [|apply fail_steps].
  by apply (cancel_step_steps (set_cancelled true (timed_out s) s)).
Qed.

Lemma on_timeout_steps p s : apart s → s ⟶ on_timeout o m sr p s.
Proof.
  intros Ha. unfold on_timeout. destruct (_ || _); [done|]. transitivity (view (cancel_step o m sr (set_cancelled true true s))); [|apply fail_steps].
  by apply (cancel_step_steps (set_cancelled true true s)).
Qed.

(** A request that has just turned to [target]. *)
Definition begun (target : url) (s : request_state) : request_view :=
  RequestView (outcome s) (href target) (redirects_followed s) None (stream s) None (received s) (trace (history s) ++ [re_start (href target)])
    (answers (history s)).

Lemma select_view scheme endpoint s : view (select_connect_endpoint o scheme endpoint s).1 = view s.
Proof. unfold select_connect_endpoint. by repeat case_match. Qed.

Lemma start_steps target s :
  waiting s = None → stream s ≠ open_stream → closing s = None → vsteps o m (begun target s) (view (start o m sr (Ok target) s)).
Proof.
  intros Hw Hs Hc. unfold start. set (s1 := happen (re_start (href target)) (set_url target s)).
  assert (E1 : begun target s = view s1). { unfold s1, begun, view. cbn. by rewrite Hw, Hc, trace_app, answers_app, app_nil_r. }
  rewrite E1. destruct (http_scheme target); [|apply complete_steps]. cbn [negb]. destruct (authority_endpoint target) as [e|]; [|apply complete_steps].
  pose proof (select_view (scheme_id target) e s1) as E. destruct (select_connect_endpoint o (scheme_id target) e s1) as [s2 r]. cbn [fst] in E. rewrite <-E.
  destruct r as [c|]; [|apply complete_steps].
  assert (Hw2 : waiting s2 = None) by (rewrite (f_equal v_waiting E : waiting s2 = waiting s1); done).
  assert (Hs2 : stream s2 ≠ open_stream) by (rewrite (f_equal v_stream E : stream s2 = stream s1); done).
  assert (Hc2 : closing s2 = None) by (rewrite (f_equal v_next E : closing s2 = closing s1); done).
  destruct (sr_pooled sr _ _).
  - transitivity (view (happen (re_take (connection_pool_key s2)) s2)); [by rewrite happen_view|by apply take_stream_steps].
  - rewrite start_timeout_view, happen_view by done. by apply wait_steps.
Qed.

(** ** Redirects *)

Lemma complete_closing c r s : complete r (set_closing c s) = set_closing c (complete r s).
Proof. unfold complete, completed, stop_phase_timeout. cbn. by destruct (outcome s), (timer s). Qed.

Lemma close_open_closing c s : view (set_closing c (close_open_stream sr s)) = view (close_open_stream sr (set_closing c s)).
Proof.
  unfold close_open_stream, write_failed. cbn. destruct (writing s); [|done]. destruct (sr_close sr (history s ++ [re_close])); [|done]. f_equal.
  symmetry. apply (complete_closing c _ (set_writing false (happen re_close (set_stream closed_stream s)))).
Qed.

(** A request that reads a response. *)
Definition hearing (s : request_state) : Prop := outcome s = None ∧ stream s = open_stream ∧ waiting s = None ∧ closing s = None.

Lemma release_stream_steps s : s ⟶ release_stream s.
Proof. unfold release_stream. rewrite !happen_view by done. by apply shut_steps. Qed.

Lemma close_or_release_steps reusable s : s ⟶ close_or_release_current o m sr reusable None s.
Proof.
  unfold close_or_release_current. transitivity (view (stop_phase_timeout s)); [by rewrite stop_view|].
  destruct (_ && _); [apply release_stream_steps|apply close_stream_steps].
Qed.

Lemma redirect_failed_steps reusable e s : s ⟶ redirect_failed o m sr reusable e s.
Proof. unfold redirect_failed. etransitivity; [apply close_or_release_steps|apply complete_steps]. Qed.

(** A step [follow] and perhaps [begin], for a stream that is given up. *)
Lemma follow_steps target s :
  outcome s = None → waiting s = None → closing s = None → stream s ≠ open_stream → follow_redirects o = true → method_can_follow_redirect m = true →
  redirects_followed s < max_redirects o → leads_to o m (href (url_ s)) (received s) (href target) → http_scheme target = true →
  let s' := set_redirects_followed (S (redirects_followed s)) (set_received [] s) in
  vsteps o m (view s) (view (set_closing (Some target) s')) ∧ vsteps o m (view s) (view (start o m sr (Ok target) s')).
Proof.
  intros Ho Hw Hc Hs Hf Hm Hn Hl Ht s'. assert (H : vsteps o m (view s) (view (set_closing (Some target) s'))).
  { apply one_vstep. unfold view, s'. cbn. rewrite Ho, Hw, Hc. by apply vs_follow. }
  split; [done|]. etransitivity; [exact H|]. etransitivity; [|by apply start_steps]. apply rtc_once. unfold view, begun, s'. cbn. rewrite Hw. by apply vs_begin.
Qed.

(** What the parser made of the bytes that were read. *)
Definition parsed (response : response_state) (s : request_state) : Prop :=
  ∃ n, parse_received o m (take n (received s)) = Ok response.

Lemma view_received s s' : view s' = view s → received s' = received s.
Proof. by intros [=]. Qed.

Lemma follow_redirect_steps response reusable s :
  hearing s → should_follow_redirect o response = true → parsed response s → s ⟶ follow_redirect o m sr response reusable s.
Proof.
  intros (Ho & Hst & Hw & Hc) [Hf Hr]%andb_true_iff [n Hn]. unfold follow_redirect. destruct (method_can_follow_redirect m) eqn:Hm; [|apply redirect_failed_steps]. cbn [negb].
  destruct (Nat.leb_spec (max_redirects o) (redirects_followed s)); [apply redirect_failed_steps|].
  destruct (str_eqb _ _) eqn:El; [apply redirect_failed_steps|]. apply bool_decide_eq_false in El.
  destruct (parse_url_base _ _) as [target|] eqn:Hp; [|apply redirect_failed_steps].
  destruct (http_scheme target) eqn:Ht; [|apply redirect_failed_steps]. cbn [negb].
  assert (Hl : leads_to o m (href (url_ s)) (received s) (href target)) by by exists n, response, target.
  unfold close_or_release_current. set (s0 := set_redirects_followed _ _). set (s1 := stop_phase_timeout s0).
  assert (Hv : view s1 = view s0) by apply stop_view. assert (Hopen : stream s1 = open_stream) by (by rewrite (f_equal v_stream Hv : stream s1 = stream s0)).
  assert (Hhas : has_stream s1 = true) by (unfold has_stream; by rewrite Hopen). rewrite Hhas, andb_true_r.
  set (back st v := RequestView (v_outcome v) (v_href v) (redirects_followed s) (v_next v) st (v_waiting v) (received s) (v_trace v) (v_answers v)).
  destruct reusable.
  - set (s2 := release_stream s1). set (t := set_received (received s) (set_redirects_followed (redirects_followed s) s2)).
    assert (Et : view t = view (set_stream no_stream s)) by (apply (f_equal (back no_stream)) in Hv;
      unfold t, s2, release_stream; etransitivity; [|exact Hv]; unfold view; cbn; by rewrite !trace_app, !answers_app, !app_nil_r).
    transitivity (view t); [rewrite Et; by apply shut_steps|]. pose proof (view_fields _ _ Et) as (T1 & T2 & T4 & T5 & T6).
    assert (Hsn : stream t ≠ open_stream) by done. assert (Hlt : leads_to o m (href (url_ t)) (received t) (href target)) by (rewrite T2; exact Hl).
    assert (E2 : s2 = set_redirects_followed (S (redirects_followed t)) (set_received [] t)) by (unfold t, s2, s1, stop_phase_timeout; by destruct (timer s0)).
    rewrite E2. apply (proj2 (follow_steps target t (eq_trans T1 Ho) (eq_trans T6 Hw) (eq_trans T4 Hc) Hsn Hf Hm H Hlt Ht)).
  - set (t := set_received (received s) (set_redirects_followed (redirects_followed s) (set_stream closed_stream s1))).
    assert (Et : view t = view (set_stream closed_stream s)) by (apply (f_equal (back closed_stream)) in Hv; exact Hv).
    transitivity (view t); [rewrite Et; by apply shut_steps|]. pose proof (view_fields _ _ Et) as (T1 & T2 & T4 & T5 & T6).
    assert (Hsn : stream t ≠ open_stream) by done. assert (Hlt : leads_to o m (href (url_ t)) (received t) (href target)) by (rewrite T2; exact Hl).
    pose proof (proj1 (follow_steps target t (eq_trans T1 Ho) (eq_trans T6 Hw) (eq_trans T4 Hc) Hsn Hf Hm H Hlt Ht)) as Hfollow.
    etransitivity; [exact Hfollow|]. unfold close_stream. rewrite Hopen, close_open_closing.
    etransitivity; [|apply (close_open_steps (set_closing (Some target) s1))]. apply same_view.
    unfold t, s1, stop_phase_timeout. by destruct (timer s0).
Qed.

(** ** The response *)

Lemma hearing_view s s' : view s' = view s → hearing s → hearing s'.
Proof. intros (E1 & _ & E2 & E3 & E4)%view_fields (H1 & H2 & H3 & H4). unfold hearing. by rewrite E1, E2, E3, E4. Qed.

Lemma complete_buffered_steps r reusable s :
  hearing s → (∀ response, r = Ok response → parsed response s) → s ⟶ complete_buffered_response o m sr r reusable s.
Proof.
  intros Hh Hp. unfold complete_buffered_response. destruct r as [response|[e|e]]; [|apply fail_steps|by apply same_view, happen_view].
  destruct (should_follow_redirect o response) eqn:E; [apply follow_redirect_steps; auto|].
  etransitivity; [|apply complete_steps]. destruct (_ && _); [apply release_stream_steps|apply close_stream_steps].
Qed.

Lemma complete_received_steps n reusable s :
  hearing s → s ⟶ complete_buffered_response o m sr (parse_received o m (take n (received s))) reusable s.
Proof. intros Hh. apply complete_buffered_steps; [done|]. intros response E. by exists n. Qed.

Lemma complete_all_received_steps reusable s :
  hearing s → s ⟶ complete_buffered_response o m sr (parse_received o m (received s)) reusable s.
Proof. intros Hh. pose proof (complete_received_steps (length (received s)) reusable s Hh) as H. by rewrite take_ge in H. Qed.

Lemma complete_head_steps eof head body_offset s : hearing s → s ⟶ complete_head o m sr eof head body_offset s.
Proof.
  intros Hh. unfold complete_head, complete_chunked, complete_sized. repeat case_match; try (by apply complete_received_steps); try (by apply complete_all_received_steps); try apply fail_steps; try done.
  by apply same_view, happen_view.
Qed.

Lemma try_complete_steps eof s : hearing s → s ⟶ try_complete_buffered_response o m sr eof s.
Proof.
  intros Hh. unfold try_complete_buffered_response. destruct (find_sub crlf2 _) as [n|]; [|destruct (_ <? _)%Z; [apply fail_steps|destruct eof; [apply fail_steps|done]]].
  destruct (_ <? _)%Z; [apply fail_steps|]. set (s1 := enter_body o s).
  assert (E : view s1 = view s) by (unfold s1, enter_body; destruct (response_headers_complete s); [done|by rewrite start_timeout_view]). rewrite <-E.
  destruct (parse_response_head _ _) as [[head offset]|[e|e]]; [|apply fail_steps|by apply same_view, happen_view].
  apply complete_head_steps. by eapply hearing_view.
Qed.

Lemma feed_steps r s : apart s → s ⟶ feed o m sr s r.
Proof.
  intros Ha. unfold feed. destruct (reading s); [|done]. destruct (stream s) eqn:Hs; [done| |done]. cbn [andb]. unfold on_read, completed.
  destruct (outcome s) eqn:Ho; [done|]. assert (Hh : hearing s).
  { split_and!; [done|done|..].
    - destruct (waiting s) eqn:E; [|done]. destruct (ap_waiting _ Ha) as [Hx _]; [cbn; congruence|done].
    - destruct (closing s) eqn:E; [|done]. destruct (ap_next _ Ha); [cbn; congruence|done]. }
  destruct r as [bytes| |]; [|by apply try_complete_steps|apply fail_steps]. set (s1 := happen _ _). transitivity (view s1); [|by apply try_complete_steps].
  apply one_vstep. destruct Hh as (_ & _ & _ & Hc). unfold view, s1. cbn. rewrite trace_app, answers_app, app_nil_r, Hc. apply vs_read.
Qed.

Lemma feeds_steps rs s : apart s → s ⟶ foldl (feed o m sr) s rs.
Proof.
  revert s. induction rs as [|r rs IH]; intros s Ha; [done|]. cbn [foldl]. pose proof (feed_steps r s Ha) as H. etransitivity; [exact H|].
  apply IH. by eapply vsteps_apart.
Qed.

Lemma on_written_steps failure s : apart s → s ⟶ on_written o m sr failure s.
Proof.
  intros Ha. unfold on_written. destruct failure; [apply write_failed_steps|]. destruct (completed _); [done|]. rewrite start_timeout_view.
  set (s1 := happen re_read_start _). assert (E : view s1 = view s) by (unfold s1; by rewrite happen_view). rewrite <-E. apply feeds_steps. by rewrite E.
Qed.

Lemma request_op_steps op s : apart s → s ⟶ run_request_op o m sr s op.
Proof.
  intros Ha. assert (Hwait : ∀ step, waiting s = Some step → stream s ≠ open_stream ∧ closing s = None).
  { intros step E. destruct (ap_waiting _ Ha) as [? ?]; [cbn; congruence|done]. }
  destruct op as [failure|r|r|failure|r| | |]; cbn [run_request_op].
  - destruct (waiting s) as [[]|] eqn:E; try done. destruct (Hwait _ eq_refl). etransitivity; [apply unwait_steps|by apply on_resolved_steps].
  - destruct (waiting s) as [[]|] eqn:E; try done. destruct (Hwait _ eq_refl). etransitivity; [apply unwait_steps|by apply on_connected_steps].
  - destruct (waiting s) as [[]|] eqn:E; try done. destruct (Hwait _ eq_refl). etransitivity; [apply unwait_steps|by apply on_tls_connected_steps].
  - destruct (writing s); [by apply on_written_steps|done].
  - by apply feed_steps.
  - destruct (closing s) as [target|] eqn:E; [|done]. assert (Hst : stream s ≠ open_stream) by (apply (ap_next _ Ha); cbn; congruence).
    etransitivity; [|apply (start_steps target (set_closing None s)); [|done|done]].
    + apply rtc_once. unfold view, begun. cbn. rewrite E. destruct (waiting s) eqn:Ew; [destruct (Hwait _ eq_refl); congruence|]. by apply vs_begin.
    + cbn. destruct (waiting s) eqn:Ew; [destruct (Hwait _ eq_refl); congruence|done].
  - destruct (timer s); [by apply on_timeout_steps|done].
  - by apply cancel_steps.
Qed.

Lemma request_ops_steps ops s : apart s → s ⟶ foldl (run_request_op o m sr) s ops.
Proof.
  revert s. induction ops as [|op ops IH]; intros s Ha; [done|]. cbn [foldl]. pose proof (request_op_steps op s Ha) as H. etransitivity; [exact H|].
  apply IH. by eapply vsteps_apart.
Qed.

Lemma run_buffered_steps url_input target ops :
  parse_url url_input = Ok target → vsteps o m (begun target new_request_state) (view (run_buffered o m sr url_input ops)).
Proof.
  intros Hp. unfold run_buffered. rewrite Hp. pose proof (start_steps target new_request_state eq_refl ltac:(done) eq_refl) as H.
  etransitivity; [exact H|]. apply request_ops_steps. eapply vsteps_invariant; [apply vstep_apart|exact H|by constructor].
Qed.
End operations.

(** ** The theorems *)

(** C32: A buffered request answers at most once, with the result that it keeps,
    and follows redirects as the options allow.  It turns first to the URL it was
    given.  Each URL after that is the one to which the response leads that was
    read since the request turned to the URL before: the response is complete, its
    status redirects, and its location was resolved against that URL.  There are
    at most [max_redirects] of them, and none without [follow_redirects] or with a
    method that cannot be repeated. *)
Theorem buffered_redirects (o : client_options) (m : method) (sr : surroundings) (url_input : str) (ops : list request_op) :
  let s := run_buffered o m sr url_input ops in
  answers (history s) = option_list (outcome s) ∧ follows_responses o m (history s) ∧
  length (started (history s)) ≤ S (max_redirects o) ∧
  (1 < length (started (history s)) → follow_redirects o = true ∧ method_can_follow_redirect m = true) ∧
  match parse_url url_input with
  | Ok target => head (started (history s)) = Some (href target)
  | Err e => started (history s) = [] ∧ outcome s = Some (Err (wrap_client_error client_invalid_url (url_source e)))
  end.
Proof.
  intros s. destruct (parse_url url_input) as [target|e] eqn:Hp.
  - pose proof (run_buffered_steps o m sr url_input target ops Hp) as Hsteps. fold s in Hsteps.
    assert (Hc : chained o m (view s)).
    { eapply vsteps_invariant; [apply vstep_chained|exact Hsteps|]. constructor; cbn; try done; [|lia..].
      intros before next after base E Hb. apply (f_equal length) in E as El. rewrite length_app in El. cbn in El. destruct before; [done|cbn in El; lia]. }
    assert (Hf : head (started (v_trace (view s))) = Some (href target)).
    { eapply (vsteps_invariant o m (λ v, head (started (v_trace v)) = Some (href target))); [|exact Hsteps|done].
      intros v v' Hs H. destruct Hs; try done; cbn [v_trace] in *; rewrite started_app; (destruct (started tr); [discriminate H|exact H]). }
    destruct Hc as [_ _ H3 _ H5 H6 H7 H8]. cbn [view v_trace v_next v_redirects v_answers v_outcome] in *. rewrite started_trace in *.
    split_and!; try done; [by apply follows_trace|lia|]. intros Hl. apply H7. destruct (closing s); lia.
  - set (ended v := started (v_trace v) = [] ∧ v_next v = None ∧
      v_outcome v = Some (Err (wrap_client_error client_invalid_url (url_source e))) ∧ v_answers v = option_list (v_outcome v)).
    assert (H : ended (view s)).
    { unfold s, run_buffered. rewrite Hp. set (s0 := start _ _ _ _ _). assert (H0 : ended (view s0)) by by split_and!.
      assert (Ha : apart (view s0)) by by constructor. clearbody s0. pose proof (request_ops_steps o m sr ops s0 Ha) as Hsteps.
      eapply (vsteps_invariant o m ended); [|exact Hsteps|done]. intros v v' Hv (G1 & G2 & G3 & G4).
      destruct Hv; unfold ended; cbn -[started] in *; simplify_eq; split_and!; try done. by rewrite started_app, G1. }
    destruct H as (H1 & _ & H4 & H5). cbn [view v_trace v_outcome v_answers] in H1, H4, H5. rewrite started_trace in H1. rewrite H1, H4 in *.
    split_and!; try done; [|cbn; lia|cbn; lia]. intros before next after base E _. rewrite E in H1. rewrite started_app in H1.
    by apply app_eq_nil in H1 as [_ H1].
Qed.

(** ** Runs *)

Definition redirecting_options : client_options := ClientOptions 65536 1000 8 1 2 0 0 0 0 50 true (ProxyOptions [] []).

Definition redirect_text (close : bool) : str :=
  lit "HTTP/1.1 302 Found" ++ crlf ++ lit "location: /c?d" ++ crlf ++ lit "content-length: 0" ++ crlf ++
  (if close then lit "connection: close" ++ crlf else []) ++ crlf.

(** A pool that has a connection for every request but the first. *)
Definition generous_pool : surroundings :=
  Surroundings (λ h _, (1 <? length (started h))) (λ _, None) (λ _, []) None.

Definition redirected_ops : list request_op :=
  [ro_resolved None; ro_connected connect_ok; ro_written None; ro_read (read_bytes (redirect_text false)); ro_written None;
   ro_read (read_bytes (lit "HTTP/1.1 204 No Content" ++ crlf2))].

(** The witness cuts the history where the request turns to the second URL. *)
Lemma buffered_redirects_witness :
  let s := run_buffered redirecting_options m_get generous_pool (lit "http://a/b") redirected_ops in
  started (history s) = [lit "http://a/b"; lit "http://a/c?d"] ∧
  leads_to redirecting_options m_get (lit "http://a/b") (redirect_text false) (lit "http://a/c?d") ∧ length (answers (history s)) = 1 ∧
  follow_redirects redirecting_options = true.
Proof.
  pose proof (buffered_redirects redirecting_options m_get generous_pool (lit "http://a/b") redirected_ops) as H. cbv zeta in H.
  destruct H as (_ & H2 & _ & H4 & _).
  assert (E : started (history (run_buffered redirecting_options m_get generous_pool (lit "http://a/b") redirected_ops)) = [lit "http://a/b"; lit "http://a/c?d"])
    by (vm_compute; reflexivity).
  split; [exact E|]. split; [|split; [vm_compute; reflexivity|apply H4; rewrite E; constructor]]. clear E H4.
  assert (Hp : position (take 10 (history (run_buffered redirecting_options m_get generous_pool (lit "http://a/b") redirected_ops))) =
    (Some (lit "http://a/b"), redirect_text false)) by (vm_compute; reflexivity).
  assert (Hd : drop 10 (history (run_buffered redirecting_options m_get generous_pool (lit "http://a/b") redirected_ops)) =
    re_start (lit "http://a/c?d") :: drop 11 (history (run_buffered redirecting_options m_get generous_pool (lit "http://a/b") redirected_ops)))
    by (vm_compute; reflexivity).
  pose proof (take_drop 10 (history (run_buffered redirecting_options m_get generous_pool (lit "http://a/b") redirected_ops))) as Eh. rewrite Hd in Eh.
  pose proof (H2 _ _ _ (lit "http://a/b") (eq_sym Eh)) as H. rewrite Hp in H. exact (H eq_refl).
Defined.

(** A request that is cancelled while the stream of a redirect is being closed
    goes on: it takes a connection from the pool, writes on it after its answer,
    and starts a timer; the answer of the server is never read. *)
Example cancelled_redirect_goes_on :
  let s := run_buffered redirecting_options m_get generous_pool (lit "http://a/b")
    [ro_resolved None; ro_connected connect_ok; ro_written None; ro_read (read_bytes (redirect_text true)); ro_cancel; ro_closed; ro_written None] in
  List.filter (λ e, match e with re_close | re_done _ | re_take _ | re_read_start => true | _ => false end) (history s) =
    [re_read_start; re_close; re_done (Err cancelled_error); re_take (lit "http://a:80")] ∧ stream s = open_stream.
Proof. vm_compute. split; reflexivity. Qed.

(** A write that fails leaves its stream open. *)
Example failed_write_keeps_stream :
  let s := run_buffered redirecting_options m_get generous_pool (lit "http://a/b") [ro_resolved None; ro_connected connect_ok; ro_written (Some (lit "broken pipe"))] in
  outcome s = Some (Err (make_client_error client_connect_failed (lit "broken pipe"))) ∧ stream s = open_stream.
Proof. vm_compute. split; reflexivity. Qed.
