(* ===== verification/ClientReads.v ===== *)
(** * Responses that arrive in parts

    What the parsers of [ClientWire] make of the first bytes of a well-formed
    response: a head that is not complete has no end yet, a chunked body that is
    not complete gives an error that more bytes mend. *)

From S2P Require Import Prelude Text Http HttpError Multipart MultipartTheory Response ServerWire ServerWireSpec.
From S2P Require Import ClientWire ClientWireSpec ClientOptions.

Open Scope Z_scope.

(** ** Cuts *)

Lemma app_cut {A} (p q a b : list A) : p ++ q = a ++ b → (∃ k, k ≠ [] ∧ a = p ++ k) ∨ ∃ k, p = a ++ k ∧ b = k ++ q.
Proof.
  intros H. destruct (app_eq_inv _ _ _ _ H) as [(k & -> & ->)|(k & -> & ->)]; [right; by exists k|].
  destruct k as [|c k]; [right; exists []; by rewrite !app_nil_r|left; by exists (c :: k)].
Qed.

Lemma cut_rest {A} (p q a k t : list A) : p ++ q = a ++ t → k ≠ [] → a = p ++ k → q ≠ [].
Proof. intros E Hk -> ->. rewrite <-app_assoc in E. apply app_inv_head in E. by destruct k. Qed.

Lemma not_found_yet needle a p k :
  find_sub needle (a ++ needle) = Some (length a) → a ++ needle = p ++ k → k ≠ [] → find_sub needle p = None.
Proof.
  intros Ha E Hk. destruct (find_sub needle p) as [i|] eqn:Ei; [|done]. pose proof (find_sub_app _ _ k _ Ei) as H. rewrite <-E, Ha in H.
  simplify_eq. apply find_sub_Some in Ei as (Hs & _ & Hi). apply starts_with_length in Hs. rewrite length_drop in Hs.
  apply (f_equal length) in E. rewrite !length_app in E. destruct k; [done|]. cbn in E. lia.
Qed.

(** ** Heads *)

Definition head_text (res : response_state) (hs : headers) : str := status_line res ++ eol ++ fields_text hs ++ eol.

Lemma head_text_lines res hs : head_text res hs = join_lines (status_line res :: map field_text hs) ++ crlf2.
Proof. pose proof (head_lines (status_line res) hs []) as H. rewrite !app_nil_r in H. exact H. Qed.

Lemma head_incomplete res hs p k : Forall client_field_ok hs → head_text res hs = p ++ k → k ≠ [] → find_sub crlf2 p = None.
Proof.
  intros Hhs E Hk. rewrite head_text_lines in E. eapply not_found_yet; [|exact E|done].
  rewrite <-(app_nil_r crlf2) at 2. apply join_lines_no_blank; [|done]. constructor; [apply status_line_ok|].
  apply Forall_map. eapply Forall_impl; [exact Hhs|]. intros h [Hh _]. by apply field_line_ok.
Qed.

Lemma parse_whole_head res hs rest max_header_bytes :
  100 ≤ status_code res ≤ 999 → Forall client_field_ok hs → Z.of_nat (length (head_text res hs)) ≤ max_header_bytes →
  parse_response_head (head_text res hs ++ rest) max_header_bytes = Ok (ResponseHead (status_code res) hs, length (head_text res hs)).
Proof. apply parse_head_text. Qed.

Lemma head_complete res hs rest :
  Forall client_field_ok hs → ∃ n, find_sub crlf2 (head_text res hs ++ rest) = Some n ∧ (length (head_text res hs) = n + 4)%nat.
Proof.
  intros Hhs. rewrite head_text_lines, <-app_assoc. eexists. split; [apply join_lines_no_blank; [|done]|by rewrite length_app].
  constructor; [apply status_line_ok|]. apply Forall_map. eapply Forall_impl; [exact Hhs|]. intros h [Hh _]. by apply field_line_ok.
Qed.

(** ** Chunks *)

(** The size line of a chunk: not here yet, or read with the rest after it. *)
Lemma size_line_read n p q t :
  Z.of_N n < 2 ^ 32 → p ++ q = to_chars 16 n ++ crlf ++ t →
  (find_sub crlf p = None ∧ q ≠ []) ∨
  ∃ line_end p', find_sub crlf p = Some line_end ∧ parse_uint (drop_extension (take line_end p)) 16 = Some (Z.of_N n) ∧
    drop (line_end + 2) p = p' ∧ p' ++ q = t ∧ (length p = line_end + 2 + length p')%nat.
Proof.
  intros Hn E. rewrite app_assoc in E. pose proof E as E0. apply app_cut in E as [(k & Hk & E)|(p' & -> & E)].
  - left. split; [|by eapply cut_rest]. eapply not_found_yet; [|exact E|done]. rewrite <-(app_nil_r crlf) at 2. apply (no_cr_find ["010"%char]). by apply digits_no_cr.
  - right. exists (length (to_chars 16 n)), p'. rewrite <-app_assoc. split_and!; try done.
    + apply (no_cr_find ["010"%char]). by apply digits_no_cr.
    + by rewrite take_app_length, size_line, parse_chars.
    + by rewrite drop_app_add.
    + rewrite !length_app. cbn. lia.
Qed.

Lemma chunk_body_read c t p q :
  p ++ q = c ++ crlf ++ t →
  ((length p < length c + 2)%nat ∧ q ≠ []) ∨
  ∃ p', take (length c) p = c ∧ crlf_here (drop (length c) p) = true ∧ drop (length c + 2) p = p' ∧ p' ++ q = t ∧ length p = (length c + 2 + length p')%nat.
Proof.
  intros E. rewrite app_assoc in E. pose proof E as E0. apply app_cut in E as [(k & Hk & E)|(p' & -> & E)].
  - left. split; [|by eapply cut_rest]. apply (f_equal length) in E. rewrite !length_app in E. destruct k; [done|]. cbn in E. lia.
  - right. exists p'. rewrite <-app_assoc. split_and!; try done.
    + by rewrite take_app_length.
    + by rewrite drop_app_length.
    + by rewrite drop_app_add.
    + rewrite !length_app. cbn. lia.
Qed.

(** The last chunk that has not arrived whole. *)
Lemma last_chunk_read p q :
  q ≠ [] → p ++ q = crlf → crlf_here p = false ∧ find_sub crlf2 p = None.
Proof. intros Hq E. destruct p as [|a [|b [|c p]]]; unfold crlf in E; cbn in E; simplify_eq; done. Qed.

Lemma chunks_incomplete payloads : ∀ fuel out p q,
  Forall chunk_ok payloads → p ++ q = flat_map serialize_chunk payloads ++ last_chunk → q ≠ [] → (length p < fuel)%nat →
  ∃ detail, decode_chunked_from fuel p out = Err (malformed detail) ∧
    detail ∈ ["chunk size line is incomplete"; "chunk body is incomplete"; "chunk trailers are incomplete"]%string.
Proof.
  induction payloads as [|c cs IH]; intros fuel out p q Hok E Hq Hf; (destruct fuel as [|fuel]; [lia|]).
  - change (flat_map _ [] ++ last_chunk) with (to_chars 16 0 ++ crlf ++ crlf) in E. cbn [decode_chunked_from].
    destruct (size_line_read 0 p q crlf eq_refl E) as [[-> _]|(i & p' & -> & -> & -> & E' & _)]; [eexists; split; [done|set_solver]|].
    change (Z.of_N 0 =? 0) with true. cbn iota. destruct (last_chunk_read p' q Hq E') as [-> ->]. eexists. split; [done|set_solver].
  - apply Forall_cons in Hok as [[Hne Hc] Hok]. set (n := N.of_nat (length c)). assert (Hn : Z.of_N n < 2 ^ 32) by lia.
    change (flat_map serialize_chunk (c :: cs)) with (serialize_chunk c ++ flat_map serialize_chunk cs) in E.
    unfold serialize_chunk at 1 in E. fold n in E. rewrite <-!app_assoc in E. change eol with crlf in E. cbn [decode_chunked_from].
    destruct (size_line_read n p q _ Hn E) as [[-> _]|(i & p' & -> & -> & -> & E' & Hl)]; [eexists; split; [done|set_solver]|].
    assert (E0 : (Z.of_N n =? 0) = false) by (apply Z.eqb_neq; destruct c; [done|cbn in n; lia]). rewrite E0, Z.mod_small by lia.
    destruct (chunk_body_read c _ p' q E') as [[Hs _]|(p'' & E1 & E2 & E3 & E4 & Hl')].
    { assert ((Z.of_nat (length p') <? Z.of_N n + 2) = true) as -> by (apply Z.ltb_lt; lia). eexists. split; [done|set_solver]. }
    assert ((Z.of_nat (length p') <? Z.of_N n + 2) = false) as -> by (apply Z.ltb_ge; lia).
    assert ((Z.of_nat (length p') <? Z.of_N n) = false) as -> by (apply Z.ltb_ge; lia).
    replace (Z.to_nat (Z.of_N n)) with (length c) by lia. rewrite E2. cbn [negb]. rewrite drop_drop, E3. eapply IH; try done. lia.
Qed.

(** ** Fields *)

(** No two fields have the same name, in whatever case. *)
Definition distinct_fields (hs : headers) : Prop := NoDup (map (λ h, lowercase h.1) hs).

Lemma headers_contains_names hs name : headers_contains hs name = bool_decide (lowercase name ∈ map (λ h : str * str, lowercase h.1) hs).
Proof.
  induction hs as [|[n v] hs IH]; [done|]. cbn [headers_contains map fst]. apply eq_iff_eq_true. rewrite bool_decide_eq_true, elem_of_cons.
  destruct (names_equal n name) eqn:E.
  - apply names_equal_spec in E. split; [by left|done].
  - rewrite IH, bool_decide_eq_true. split; [by right|]. intros [H|H]; [|done]. rewrite <-not_true_iff_false, names_equal_spec in E. congruence.
Qed.

(** Fields with names of their own are all kept, in their order. *)
Lemma collected_distinct hs : distinct_fields hs → collected hs = hs.
Proof.
  unfold collected, distinct_fields. change hs with ([] ++ hs) at 1 3. generalize (@nil (str * str)) as acc.
  induction hs as [|[n v] hs IH]; intros acc H; [by rewrite app_nil_r|]. cbn [foldl fst snd].
  assert (E : headers_set acc n v = acc ++ [(n, v)]).
  { unfold headers_set. assert (Hc : headers_contains acc n = false).
    { rewrite headers_contains_names. apply bool_decide_eq_false_2. rewrite map_app in H. apply NoDup_app in H as (_ & H & _).
      intros Hn. apply (H _ Hn). by left. }
    apply (headers_assign_None _ _ v) in Hc. by rewrite Hc. }
  rewrite E, IH; rewrite <-app_assoc; done.
Qed.

(** ** Framings *)

(** [raw] is the body [b] in one of the framings that a head can announce; bytes
    after it belong to [raw] where the framing has an end of its own. *)
Inductive response_framing (m : method) (code : Z) (hs : headers) : str → str → Prop :=
| framing_none raw : response_must_not_have_body m code = true → response_framing m code hs raw []
| framing_sized b rest :
    response_must_not_have_body m code = false → chunked_encoding hs = false → headers_get hs (lit "content-length") ≠ [] →
    parse_uint (headers_get hs (lit "content-length")) 10 = Some (Z.of_nat (length b)) → response_framing m code hs (b ++ rest) b
| framing_chunked payloads :
    response_must_not_have_body m code = false → chunked_encoding hs = true → Forall chunk_ok payloads →
    response_framing m code hs (flat_map serialize_chunk payloads ++ last_chunk) (concat payloads).

(** How a response arrives: [raw] after the head, then what the transport reports.
    A body without a framing of its own lasts until the end of the stream. *)
Inductive response_reads (m : method) (code : Z) (hs : headers) : str → str → list read_result → Prop :=
| reads_framed raw b : response_framing m code hs raw b → response_reads m code hs raw b []
| reads_to_end b :
    response_must_not_have_body m code = false → chunked_encoding hs = false → headers_get hs (lit "content-length") = [] →
    response_reads m code hs b b [read_eof].

(** What the server writes is framed. *)
Lemma server_framing_buffered m res keep_alive options :
  let suppress := bool_decide (m = m_head) in
  headers_contains (rs_headers res) (lit "content-length") = false → Z.of_nat (length (rs_body res)) < 2 ^ 32 →
  response_framing m (status_code res) (head_fields res keep_alive options false suppress)
    (if suppress then [] else response_body (status_code res) (rs_body res)) (expected_body m res).
Proof.
  intros suppress Hcl Hlen. unfold expected_body. destruct (response_must_not_have_body m (status_code res)) eqn:Eb; [by apply framing_none|].
  pose proof Eb as Eb'. rewrite must_not_have_body_bodyless in Eb'. unfold bodyless in Eb'. rewrite !orb_false_iff in Eb'. destruct Eb' as [[[Eh _] E204] _].
  subst suppress. rewrite Eh. rewrite <-(app_nil_r (response_body _ _)). assert (E : response_body (status_code res) (rs_body res) = rs_body res) by (unfold response_body; by rewrite E204).
  rewrite E. apply framing_sized; [done|by rewrite not_chunked_server|..]; rewrite head_content_length, E by done.
  - by apply to_chars_nonempty.
  - unfold to_string. rewrite parse_chars by (done || lia). f_equal. lia.
Qed.

Lemma server_framing_streamed m res keep_alive options payloads :
  response_must_not_have_body m (status_code res) = false → Forall chunk_ok payloads →
  response_framing m (status_code res) (head_fields res keep_alive options true false) (flat_map serialize_chunk payloads ++ last_chunk) (concat payloads).
Proof. intros Hb Hp. apply framing_chunked; [done|by rewrite chunked_server|done]. Qed.

(** A response of which the head is the text of [hs]. *)
Lemma parse_body_of m res hs raw b max_header_bytes max_body_bytes :
  100 ≤ status_code res ≤ 999 → Forall client_field_ok hs →
  Z.of_nat (length (head_text res hs)) ≤ max_header_bytes → Z.of_nat (length b) ≤ max_body_bytes →
  response_body_of m (ResponseHead (status_code res) hs) raw max_body_bytes = Ok b →
  parse_response m (head_text res hs ++ raw) max_header_bytes max_body_bytes = Ok (received_response (status_code res) hs b).
Proof.
  intros Hc Hhs Hh Hb E. unfold parse_response. rewrite parse_whole_head by done. cbn [mbind result_bind fst snd]. rewrite drop_app_length, E.
  cbn [mbind result_bind]. assert ((max_body_bytes <? Z.of_nat (length b)) = false) as -> by (apply Z.ltb_ge; lia).
  by apply build_response_ok.
Qed.

Lemma parse_framed m res hs raw b max_header_bytes max_body_bytes :
  100 ≤ status_code res ≤ 999 → Forall client_field_ok hs → response_framing m (status_code res) hs raw b →
  Z.of_nat (length (head_text res hs)) ≤ max_header_bytes → Z.of_nat (length b) ≤ max_body_bytes →
  parse_response m (head_text res hs ++ raw) max_header_bytes max_body_bytes = Ok (received_response (status_code res) hs b).
Proof.
  intros Hc Hhs Hf Hh Hb. apply parse_body_of; [done..|]. unfold response_body_of. cbn [rh_status_code rh_headers].
  destruct Hf as [raw H|b rest H1 H2 H3 H4|payloads H1 H2 H3].
  - by rewrite H.
  - rewrite H1, H2, H4. assert (str_eqb (headers_get hs (lit "content-length")) [] = false) as -> by by apply bool_decide_eq_false_2.
    cbn [negb]. assert ((max_body_bytes <? Z.of_nat (length b)) = false) as -> by (apply Z.ltb_ge; lia).
    rewrite length_app. assert ((Z.of_nat (length b + length rest) <? Z.of_nat (length b)) = false) as -> by (apply Z.ltb_ge; lia).
    by rewrite Nat2Z.id, take_app_length.
  - rewrite H1, H2. by rewrite decode_chunked_ok.
Qed.

Lemma parse_to_end m res hs b max_header_bytes max_body_bytes :
  100 ≤ status_code res ≤ 999 → Forall client_field_ok hs →
  response_must_not_have_body m (status_code res) = false → chunked_encoding hs = false → headers_get hs (lit "content-length") = [] →
  Z.of_nat (length (head_text res hs)) ≤ max_header_bytes → Z.of_nat (length b) ≤ max_body_bytes →
  parse_response m (head_text res hs ++ b) max_header_bytes max_body_bytes = Ok (received_response (status_code res) hs b).
Proof.
  intros Hc Hhs H1 H2 H3 Hh Hb. apply parse_body_of; [done..|]. unfold response_body_of. cbn [rh_status_code rh_headers]. by rewrite H1, H2, H3.
Qed.
