(* ===== verification/ClientBufferedReads.v ===== *)
(** * Buffered requests read responses

    However the bytes of a well-formed response are cut into reads, the callback
    of a buffered request gets the response that was meant, once. *)

From S2P Require Import Prelude Text Url Http HttpError Multipart MultipartTheory Response ServerWire ServerWireSpec.
From S2P Require Import ClientWire ClientWireSpec ClientOptions ClientReads ClientBuffered.

Open Scope Z_scope.

(** A request that has read [p] of its response so far. *)
Record reading_part (s : request_state) (p : str) : Prop := {
  rp_outcome : outcome s = None;
  rp_stream : stream s = open_stream;
  rp_reading : reading s = true;
  rp_writing : writing s = false;
  rp_received : received s = p
}.

Section reads.
Context (o : client_options) (m : method) (sr : surroundings).
Context (res : response_state) (hs : headers) (raw body : str) (tail : list read_result).
Context (Hcode : 100 ≤ status_code res ≤ 999) (Hhs : Forall client_field_ok hs).
Context (Hreads : response_reads m (status_code res) hs raw body tail).
Context (Hhead : Z.of_nat (length (head_text res hs)) ≤ max_header_bytes o) (Hbody : Z.of_nat (length body) ≤ max_body_bytes o).

Let answer := received_response (status_code res) hs body.
Let text := head_text res hs ++ raw.

Context (Hstay : should_follow_redirect o answer = false).

Lemma stop_outcome s : outcome (stop_phase_timeout s) = outcome s.
Proof. unfold stop_phase_timeout. by destruct (timer s). Qed.

Lemma close_stream_outcome s : writing s = false → outcome (close_stream sr s) = outcome s.
Proof. intros Hw. unfold close_stream, close_open_stream. destruct (stream s); [done| |done]. cbn. by rewrite Hw. Qed.

Lemma complete_outcome r s : outcome s = None → outcome (complete r s) = Some r.
Proof. intros H. unfold complete, completed. rewrite H. cbn. by rewrite stop_outcome. Qed.

(** The response is there. *)
Lemma answered reusable s :
  outcome s = None → writing s = false →
  outcome (complete_buffered_response o m sr (Ok answer) reusable s) = Some (Ok answer).
Proof.
  intros Ho Hw. unfold complete_buffered_response. rewrite Hstay. apply complete_outcome.
  destruct (reusable && has_stream s); [done|]. by rewrite close_stream_outcome.
Qed.

Lemma enter_body_part s p : reading_part s p → reading_part (enter_body o s) p.
Proof.
  intros []. unfold enter_body. destruct (response_headers_complete s); [by constructor|]. unfold start_phase_timeout, stop_phase_timeout. cbn.
  destruct (timer s), (response_body_timeout o <=? 0); by constructor.
Qed.

(** The whole of a framing that has an end, with what follows it. *)
Lemma parse_answer raw' :
  response_framing m (status_code res) hs raw' body → parse_received o m (head_text res hs ++ raw') = Ok answer.
Proof. intros H. by apply parse_framed. Qed.

(** The request is answered, or [q] is still to come, or the end of the stream. *)
Definition progressed (s : request_state) (p q : str) : Prop :=
  outcome s = Some (Ok answer) ∨ (reading_part s p ∧ (q ≠ [] ∨ tail = [read_eof])).

Lemma complete_chunked_part eof reusable p q s payloads :
  reading_part s (head_text res hs ++ p) → eof = false → response_framing m (status_code res) hs raw body →
  raw = flat_map serialize_chunk payloads ++ last_chunk → body = concat payloads → Forall chunk_ok payloads → p ++ q = raw →
  progressed (complete_chunked o m sr eof reusable p s) (head_text res hs ++ p) q.
Proof.
  intros Hs -> Hf Er Eb Hp E. unfold complete_chunked. destruct Hs as [Ho Hst Hr Hw Hrec]. destruct (decide (q = [])) as [->|Hq].
  - rewrite app_nil_r in E. subst p. rewrite Er, decode_chunked_ok, Hrec, <-Er, parse_answer by done. left. by apply answered.
  - rewrite Er in E. destruct (chunks_incomplete payloads (S (length p)) [] p q Hp E Hq ltac:(lia)) as (detail & Ed & Hin).
    unfold decode_chunked. rewrite Ed. right. split; [|by left].
    assert (Ef : final_error (make_client_error client_malformed_response (lit detail)) = false).
    { repeat (apply elem_of_cons in Hin as [->|Hin]; [done|]). by apply elem_of_nil in Hin. }
    unfold malformed. rewrite Ef. by constructor.
Qed.

Lemma complete_head_part p q s :
  reading_part s (head_text res hs ++ p) → p ++ q = raw →
  progressed (complete_head o m sr false (ResponseHead (status_code res) hs) (length (head_text res hs)) s) (head_text res hs ++ p) q.
Proof.
  intros Hs E. pose proof Hs as [Ho Hst Hr Hw Hrec]. unfold complete_head. cbn [rh_status_code rh_headers]. rewrite Hrec, take_app_length, drop_app_length.
  inversion Hreads as [raw2 body2 Hframing F1 F2 F3|body2 H1 H2 H3 F1 F2 F3]; subst body2.
  2: { rewrite H1, H2, H3. change (negb (str_eqb [] [])) with false. cbv iota. rewrite length_app.
       assert (El : length body = (length p + length q)%nat) by (by rewrite <-F2, <-E, length_app).
       assert ((max_header_bytes o + max_body_bytes o + 4096 <? Z.of_nat (length (head_text res hs) + length p)) = false) as ->
         by (apply Z.ltb_ge; lia). right. split; [done|by right]. }
  inversion Hframing as [raw' H E1 E2|b rest H1 H2 H3 H4 E1 E2|payloads H1 H2 H3 E1 E2].
  - rewrite H. rewrite <-(app_nil_r (head_text res hs)) at 1. rewrite parse_answer by (rewrite <-E2; by apply framing_none). left. by apply answered.
  - subst b. rewrite H1, H2. assert (str_eqb (headers_get hs (lit "content-length")) [] = false) as -> by by apply bool_decide_eq_false_2.
    cbn [negb]. unfold complete_sized. rewrite H4. assert ((max_body_bytes o <? Z.of_nat (length body)) = false) as -> by (apply Z.ltb_ge; lia).
    destruct (Z.ltb_spec (Z.of_nat (length p)) (Z.of_nat (length body))) as [Hl|Hl].
    + right. split; [done|]. left. intros ->. rewrite app_nil_r in E. subst p. rewrite <-E1, length_app in Hl. lia.
    + rewrite Hrec, Nat2Z.id. rewrite <-E1 in E. apply app_cut in E as [(k & Hk & E)|(k & -> & _)].
      { rewrite E, length_app in Hl. destruct k; [done|cbn in Hl; lia]. }
      rewrite app_assoc, take_app_length' by by rewrite length_app. rewrite parse_answer; [left; by apply answered|].
      rewrite <-(app_nil_r body) at 1. by apply framing_sized.
  - rewrite H1, H2. by apply (complete_chunked_part false _ p q s payloads).
Qed.

Lemma feed_part s p bytes q :
  reading_part s p → (p ++ bytes) ++ q = text → progressed (feed o m sr s (read_bytes bytes)) (p ++ bytes) q.
Proof.
  intros Hs E. pose proof Hs as [Ho Hst Hr Hw Hrec]. unfold feed, on_read, completed. rewrite Ho, Hst, Hr. cbn [andb]. rewrite Hrec.
  set (s1 := happen (re_received bytes) (set_received (p ++ bytes) s)). assert (Hs1 : reading_part s1 (p ++ bytes)) by by constructor.
  unfold try_complete_buffered_response. change (received s1) with (p ++ bytes). pose proof E as Et. unfold text in E. apply app_cut in E as [(k & Hk & E)|(p' & E & Er)].
  - rewrite (head_incomplete res hs (p ++ bytes) k) by done. pose proof (f_equal length E) as El. rewrite length_app in El.
    assert ((max_header_bytes o <? Z.of_nat (length (p ++ bytes))) = false) as -> by (apply Z.ltb_ge; lia). right. split; [done|].
    left. intros ->. unfold text in Et. rewrite app_nil_r, E in Et. apply (f_equal length) in Et. rewrite !length_app in Et. destruct k; [done|cbn in Et; lia].
  - rewrite E. destruct (head_complete res hs p' Hhs) as (n & -> & Hn).
    assert ((max_header_bytes o <? Z.of_nat n + 4) = false) as -> by (apply Z.ltb_ge; lia).
    rewrite E in Hs1. pose proof (enter_body_part s1 _ Hs1) as Hs2. rewrite (rp_received _ _ Hs2), parse_whole_head by done.
    by apply complete_head_part.
Qed.

Lemma feed_answered s r result : outcome s = Some result → outcome (feed o m sr s r) = Some result.
Proof. intros H. unfold feed, on_read, completed. rewrite H. by destruct (_ && _). Qed.

Lemma feeds_answered cuts s result : outcome s = Some result → outcome (foldl (feed o m sr) s cuts) = Some result.
Proof. revert s. induction cuts as [|r cuts IH]; intros s H; [done|]. cbn [foldl]. by apply IH, feed_answered. Qed.

Lemma feed_end s : tail = [read_eof] → reading_part s text → outcome (feed o m sr s read_eof) = Some (Ok answer).
Proof.
  intros Ht Hs. pose proof Hs as [Ho Hst Hr Hw Hrec]. unfold feed, on_read, completed. rewrite Ho, Hst, Hr. cbn [andb].
  inversion Hreads as [raw2 body2 Hframing F1 F2 F3|body2 H1 H2 H3 F1 F2 F3]; [congruence|]. subst body2.
  unfold try_complete_buffered_response. rewrite Hrec. unfold text. destruct (head_complete res hs raw Hhs) as (n & -> & Hn).
  assert ((max_header_bytes o <? Z.of_nat n + 4) = false) as -> by (apply Z.ltb_ge; lia).
  pose proof (enter_body_part s _ Hs) as Hs2. rewrite (rp_received _ _ Hs2). unfold text. rewrite parse_whole_head by done.
  unfold complete_head. cbn [rh_status_code rh_headers]. rewrite (rp_received _ _ Hs2), H1, H2, H3. change (negb (str_eqb [] [])) with false. cbv iota.
  unfold text. rewrite length_app, F2. assert ((max_header_bytes o + max_body_bytes o + 4096 <? Z.of_nat (length (head_text res hs) + length body)) = false) as ->
    by (apply Z.ltb_ge; lia).
  unfold parse_received. rewrite parse_to_end by done. destruct Hs2. by apply answered.
Qed.

Lemma feeds_part cuts : ∀ s p, reading_part s p → p ≠ text ∨ tail = [read_eof] → p ++ concat cuts = text →
  outcome (foldl (feed o m sr) s (map read_bytes cuts ++ tail)) = Some (Ok answer).
Proof.
  induction cuts as [|c cuts IH]; intros s p Hs Hp E.
  { cbn [concat] in E. rewrite app_nil_r in E. rewrite E in *. destruct Hp as [Hp|Hp]; [done|]. rewrite Hp. by apply feed_end. }
  cbn [map app foldl concat] in *. rewrite app_assoc in E.
  destruct (feed_part s p c (concat cuts) Hs E) as [H|[H Hq]]; [by apply feeds_answered|]. eapply IH; [exact H| |done].
  destruct Hq as [Hq|Hq]; [left|by right].
  intros Et. rewrite Et in E. rewrite <-(app_nil_r text) in E at 2. by apply app_inv_head in E.
Qed.
End reads.

(** ** From the URL to the response *)

(** What the transport reports until the request is written. *)
Definition connect_ops (target : url) (pooled : bool) (alpn : str) : list request_op :=
  (if pooled then []
   else [ro_resolved None; ro_connected connect_ok] ++ (if bool_decide (scheme_id target = scheme_https) then [ro_tls (tls_ok alpn)] else [])) ++
  [ro_written None].

(** A request that is written. *)
Definition being_written (s : request_state) : Prop :=
  outcome s = None ∧ stream s = open_stream ∧ writing s = true ∧ received s = [].

Lemma written_part o m sr s : (∀ h, sr_early sr h = []) → being_written s → reading_part (run_request_op o m sr s (ro_written None)) [].
Proof.
  intros He (Ho & Hst & Hw & Hr). unfold run_request_op. rewrite Hw. unfold on_written, completed. cbn. rewrite Ho, He. cbn.
  unfold start_phase_timeout, stop_phase_timeout. cbn. destruct (timer s), (response_header_timeout o <=? 0); by constructor.
Qed.

Lemma take_stream_written o m s : outcome s = None → received s = [] → being_written (take_stream o m s).
Proof.
  intros Ho Hr. unfold take_stream, write_buffered_request, start_phase_timeout, stop_phase_timeout. cbn.
  destruct (timer s), (request_body_timeout o <=? 0); by split_and!.
Qed.

(** A step of connecting that is under way. *)
Definition connecting (step : connect_step) (target : url) (s : request_state) : Prop :=
  outcome s = None ∧ waiting s = Some step ∧ received s = [] ∧ cancelled s = false ∧ url_ s = target.

Lemma start_timeout_connecting step target p d s :
  connecting step target s → connecting step target (start_phase_timeout p d s).
Proof.
  intros (H1 & H2 & H3 & H4 & H5). unfold start_phase_timeout, stop_phase_timeout. destruct (timer s); cbn; destruct (d <=? 0); by split_and!.
Qed.

Section whole.
Context (o : client_options) (m : method) (sr : surroundings) (target : url) (endpoint : url_authority_endpoint) (alpn : str).
Context (Hscheme : http_scheme target = true) (Hend : authority_endpoint target = Ok endpoint) (Hproxy : proxy_url (proxy o) = []).
Context (Hearly : ∀ h, sr_early sr h = []) (Htls : sr_tls sr = None) (Halpn : alpn = [] ∨ alpn = lit "http/1.1").

Lemma resolved_connecting s : connecting step_dns target s → connecting step_connect target (run_request_op o m sr s (ro_resolved None)).
Proof.
  intros (H1 & H2 & H3 & H4 & H5). unfold run_request_op. rewrite H2. unfold on_resolved, unless_cancelled, completed. cbn. rewrite H1, H4.
  unfold stop_phase_timeout. cbn. destruct (timer s); by split_and!.
Qed.

Lemma connected_http s : scheme_id target ≠ scheme_https → connecting step_connect target s → being_written (run_request_op o m sr s (ro_connected connect_ok)).
Proof.
  intros Hs (H1 & H2 & H3 & H4 & H5). unfold run_request_op. rewrite H2. unfold on_connected, unless_cancelled, completed. cbn. rewrite H1, H4, H5.
  rewrite bool_decide_eq_false_2 by done. by apply take_stream_written.
Qed.

Lemma connected_https s :
  scheme_id target = scheme_https → connecting step_connect target s → connecting step_tls target (run_request_op o m sr s (ro_connected connect_ok)).
Proof.
  intros Hs (H1 & H2 & H3 & H4 & H5). unfold run_request_op. rewrite H2. unfold on_connected, unless_cancelled, completed. cbn. rewrite H1, H4, H5.
  rewrite bool_decide_eq_true_2 by done. unfold start_tls. rewrite Htls.
  unfold start_phase_timeout, stop_phase_timeout. cbn. destruct (timer s), (tls_handshake_timeout o <=? 0); by split_and!.
Qed.

Lemma tls_connected s : connecting step_tls target s → being_written (run_request_op o m sr s (ro_tls (tls_ok alpn))).
Proof.
  intros (H1 & H2 & H3 & H4 & H5). unfold run_request_op. rewrite H2. unfold on_tls_connected, unless_cancelled, completed.
  pose proof Halpn as [E|E]; rewrite E; cbn; rewrite H1, H4; by apply take_stream_written.
Qed.

Lemma request_written_part :
  let pooled := sr_pooled sr [re_start (href target)] (origin_key target) in
  reading_part (foldl (run_request_op o m sr) (start o m sr (Ok target) new_request_state) (connect_ops target pooled alpn)) [].
Proof.
  intros pooled. unfold start. rewrite Hscheme, Hend. unfold select_connect_endpoint. rewrite Hproxy. cbn [negb str_eqb history happen].
  change (str_eqb [] []) with true. cbn iota. set (s0 := set_proxy false [] _). assert (sr_pooled sr (history s0) (connection_pool_key s0) = pooled) as -> by (unfold connection_pool_key; cbn; by rewrite app_nil_r).
  unfold connect_ops. destruct pooled.
  - cbn [app foldl]. apply written_part; [done|]. by apply take_stream_written.
  - set (s1 := start_phase_timeout _ _ _). assert (H1 : connecting step_dns target s1) by by apply start_timeout_connecting.
    rewrite <-app_assoc. cbn [app foldl]. apply resolved_connecting in H1. destruct (decide (scheme_id target = scheme_https)) as [E|E].
    + rewrite bool_decide_eq_true_2 by done. cbn [app foldl]. apply written_part; [done|]. by apply tls_connected, connected_https.
    + rewrite bool_decide_eq_false_2 by done. cbn [app foldl]. apply written_part; [done|]. by apply connected_http.
Qed.
End whole.

(** C31: A buffered request gets the response that was meant: whether it connects,
    with TLS or without, or takes a connection from the pool, without a proxy,
    and however the bytes of the response are cut into reads, its callback gets
    the status, the fields and the body that were sent.  The body has a length,
    is chunked, lasts until the end of the stream, or there is none; the status is
    not that of an interim response and no redirect to follow, and no two fields
    have the same name. *)
Theorem buffered_reads_response (o : client_options) (m : method) (sr : surroundings) (url_input : str) (target : url)
    (endpoint : url_authority_endpoint) (alpn : str) (res : response_state) (hs : headers) (raw body : str) (tail : list read_result) (cuts : list str) :
  parse_url url_input = Ok target → http_scheme target = true → authority_endpoint target = Ok endpoint → proxy_url (proxy o) = [] →
  (∀ h, sr_early sr h = []) → sr_tls sr = None → (alpn = [] ∨ alpn = lit "http/1.1") →
  200 ≤ status_code res ≤ 999 → (follow_redirects o = true → response_is_redirect (status_code res) = false) →
  Forall client_field_ok hs → distinct_fields hs → response_reads m (status_code res) hs raw body tail →
  Z.of_nat (length (head_text res hs)) ≤ max_header_bytes o → Z.of_nat (length body) ≤ max_body_bytes o →
  concat cuts = head_text res hs ++ raw →
  ∃ answer, outcome (run_buffered o m sr url_input
      (connect_ops target (sr_pooled sr [re_start (href target)] (origin_key target)) alpn ++ map ro_read (map read_bytes cuts ++ tail))) =
    Some (Ok answer) ∧
    status_code answer = status_code res ∧ rs_headers answer = hs ∧ rs_body answer = body.
Proof.
  intros Hp Hs He Hx Hearly Htls Halpn Hc Hredirect Hhs Hd Hf Hh Hb Hcuts. exists (received_response (status_code res) hs body).
  split; [|by split_and!; [|apply collected_distinct|]]. unfold run_buffered. rewrite Hp, foldl_app.
  pose proof (request_written_part o m sr target endpoint alpn Hs He Hx Hearly Htls Halpn) as H0. cbv zeta in H0.
  set (s0 := foldl _ _ (connect_ops _ _ _)) in *. clearbody s0.
  assert (Hstay : should_follow_redirect o (received_response (status_code res) hs body) = false).
  { unfold should_follow_redirect. destruct (follow_redirects o); [|done]. by apply Hredirect. }
  pose proof (feeds_part o m sr res hs raw body tail ltac:(lia) Hhs Hf Hh Hb Hstay cuts s0 [] H0 ltac:(left; by unfold head_text, status_line) Hcuts) as H.
  revert H. clear. generalize (map read_bytes cuts ++ tail) as rs. intros rs. revert s0. induction rs as [|r rs IH]; intros s0; [done|].
  cbn [map foldl]. apply IH.
Qed.

(** A chunked response over TLS, cut within the head and within a chunk. *)
Lemma buffered_reads_response_witness :
  let surroundings := Surroundings (λ _ _, false) (λ _, None) (λ _, []) None in
  let hs := [(lit "Transfer-Encoding", lit "chunked"); (lit "etag", lit "1")] in
  let raw := flat_map serialize_chunk [lit "hello"; lit " world"] ++ last_chunk in
  let bytes := head_text (error_response 404) hs ++ raw in
  ∃ target, parse_url (lit "https://a/b") = Ok target ∧
    ∃ answer, outcome (run_buffered default_client_options m_get surroundings (lit "https://a/b")
        (connect_ops target false (lit "http/1.1") ++ map ro_read (map read_bytes [take 20 bytes; take 40 (drop 20 bytes); drop 60 bytes] ++ []))) =
      Some (Ok answer) ∧ status_code answer = 404 ∧ rs_headers answer = hs ∧ rs_body answer = lit "hello world".
Proof.
  intros sr hs raw bytes. eexists. split; [vm_compute; reflexivity|].
  refine (buffered_reads_response default_client_options m_get sr (lit "https://a/b") _ _ (lit "http/1.1") (error_response 404) hs raw (lit "hello world") []
    [take 20 bytes; take 40 (drop 20 bytes); drop 60 bytes] _ _ _ _ _ _ _ _ _ _ _ _ _ _ _).
  - vm_compute; reflexivity.
  - vm_compute; reflexivity.
  - vm_compute; reflexivity.
  - reflexivity.
  - reflexivity.
  - reflexivity.
  - right. reflexivity.
  - vm_compute. split; intros H; discriminate H.
  - reflexivity.
  - repeat constructor; try reflexivity; discriminate.
  - unfold distinct_fields. apply (bool_decide_eq_true_1 (NoDup _)). vm_compute. reflexivity.
  - apply reads_framed. refine (framing_chunked m_get 404 hs [lit "hello"; lit " world"] _ _ _); [reflexivity|reflexivity|].
    repeat constructor; discriminate.
  - vm_compute. intros H. discriminate H.
  - vm_compute. intros H. discriminate H.
  - vm_compute. reflexivity.
Defined.

(** An interim response is taken for the response, and its connection goes back to
    the pool with the final one still to come. *)
Example interim_response_completes :
  let sr := Surroundings (λ _ _, false) (λ _, None) (λ _, []) None in
  let pooling := ClientOptions 65536 1000 8 1 2 0 0 0 0 50 false (ProxyOptions [] []) in
  let bytes := lit "HTTP/1.1 103 Early Hints" ++ crlf2 in
  let s := run_buffered pooling m_get sr (lit "http://a/b")
    [ro_resolved None; ro_connected connect_ok; ro_written None; ro_read (read_bytes bytes)] in
  (∃ answer, outcome s = Some (Ok answer) ∧ status_code answer = 103) ∧ re_release (lit "http://a:80") ∈ history s.
Proof.
  intros sr pooling bytes s. split; [eexists; split; vm_compute; reflexivity|].
  vm_compute. repeat (apply list_elem_of_here || apply list_elem_of_further).
Qed.
