(* ===== verification/ClientStreamReads.v ===== *)
(** * Streaming requests read responses

    However the bytes of a well-formed response are cut into reads, the user of a
    streaming request is told its head, its body in pieces, and then its end. *)

From S2P Require Import Prelude Text Url Http HttpError Multipart MultipartTheory Response ServerWire ServerWireSpec.
From S2P Require Import ClientWire ClientWireSpec ClientReads ClientOptions ClientStreamState ClientStream.

Open Scope Z_scope.

(** What the user is told of the response, in order. *)
Definition tells_user (e : client_event) : bool := match e with ce_headers _ | ce_data _ | ce_complete _ => true | _ => false end.
Definition told_events (h : list client_event) : list client_event := List.filter tells_user h.

(** The user was told [heads], then [d] in pieces of which none is empty, then
    [ends], and nothing else. *)
Definition told (h : list client_event) (heads : list response_head) (d : str) (ends : list (option error)) : Prop :=
  ∃ pieces, told_events h = map ce_headers heads ++ map ce_data pieces ++ map ce_complete ends ∧
    Forall (λ x, x ≠ []) pieces ∧ concat pieces = d.

Lemma told_quiet h heads d ends e : told h heads d ends → tells_user e = false → told (h ++ [e]) heads d ends.
Proof.
  intros (pieces & H1 & H2) He. exists pieces. split; [|done]. unfold told_events in *. rewrite List.filter_app, H1. cbn. by rewrite He, app_nil_r.
Qed.

Lemma told_head h head : told h [] [] [] → told (h ++ [ce_headers head]) [head] [] [].
Proof.
  intros ([|x pieces] & H1 & H2 & H3); [|by apply Forall_cons in H2 as [Hx _]; destruct x].
  exists []. split_and!; [|done..]. unfold told_events in *. by rewrite List.filter_app, H1.
Qed.

Lemma told_data h heads d x : x ≠ [] → told h heads d [] → told (h ++ [ce_data x]) heads (d ++ x) [].
Proof.
  intros Hx (pieces & H1 & H2 & H3). exists (pieces ++ [x]). split_and!.
  - unfold told_events in *. rewrite List.filter_app, H1. cbn. by rewrite map_app, !app_nil_r, <-app_assoc.
  - apply Forall_app_2; [done|by apply Forall_singleton].
  - rewrite concat_app, H3. cbn. by rewrite app_nil_r.
Qed.

Lemma told_end h heads d x : told h heads d [] → told (h ++ [ce_complete x]) heads d [x].
Proof.
  intros (pieces & H1 & H2). exists pieces. split; [|done]. unfold told_events in *. rewrite List.filter_app, H1. cbn. by rewrite app_nil_r, <-app_assoc.
Qed.

(** A request that reads its response, with what its user was told. *)
Record listening (s : streaming_request) (heads : list response_head) (d : str) : Prop := {
  ls_outcome : outcome s = None;
  ls_stream : stream s = open_stream;
  ls_reading : reading_response s = true;
  ls_outstanding : outstanding s = None;
  ls_hooks : hk_headers (hooks s) = true ∧ hk_data (hooks s) = true ∧ hk_complete (hooks s) = true;
  ls_told : told (history s) heads d []
}.

Section reads.
Context (o : client_options) (m : method) (tr : transport).
Context (emit : client_event → proc) (deliver : write_kind → option str → proc).
Context (Hemit : ∀ e s, e ≠ ce_drain → emit e s = happen e s).

Lemma timeout_listening p d s heads b : listening s heads b → listening (start_phase_timeout p d s) heads b.
Proof.
  intros [H1 H2 H3 H4 H5 H6]. unfold start_phase_timeout, stop_phase_timeout. cbn.
  destruct (timer s), (d <=? 0); constructor; cbn; try done; repeat apply told_quiet; done.
Qed.

Lemma timeout_reply p d s : reply (start_phase_timeout p d s) = reply s.
Proof. unfold start_phase_timeout, stop_phase_timeout. cbn. by destruct (timer s), (d <=? 0). Qed.

(** The end of a response. *)
Definition heard (s : streaming_request) (head : response_head) (body : str) : Prop :=
  outcome s = Some None ∧ told (history s) [head] body [None].

Lemma complete_heard s head body :
  outcome s = None → hk_complete (hooks s) = true → told (history s) [head] body [] → heard (complete emit None s) head body.
Proof.
  intros H1 H2 H3. unfold complete, completed. rewrite H1. unfold stop_phase_timeout. cbn. destruct (timer s); cbn; rewrite H2, Hemit by done; split; try done; cbn.
  - by apply told_end, told_quiet.
  - by apply told_end.
Qed.

Lemma finish_heard s head body : listening s [head] body → heard (finish_response_success o m tr emit deliver s) head body.
Proof.
  intros [H1 H2 H3 H4 (_ & _ & H5) H6]. unfold finish_response_success, close_stream. rewrite H2, andb_true_r.
  destruct (_ && _); apply complete_heard; cbn; try done; rewrite ?H4; try done; repeat apply told_quiet; done.
Qed.

Lemma emit_body_listening x s heads d :
  listening s heads d →
  listening (emit_body emit x s) heads (d ++ x) ∧ rp_buffer (reply (emit_body emit x s)) = rp_buffer (reply s) ∧
  rp_remaining (reply (emit_body emit x s)) = rp_remaining (reply s) ∧ rp_mode (reply (emit_body emit x s)) = rp_mode (reply s) ∧
  rp_seen (reply (emit_body emit x s)) = rp_seen (reply s) ∧ rp_delivered (reply (emit_body emit x s)) = (rp_delivered (reply s) + length x)%nat.
Proof.
  intros Hl. pose proof Hl as [H1 H2 H3 H4 (H5 & H6 & H7) H8]. unfold emit_body. destruct x as [|c x]; [by rewrite app_nil_r, Nat.add_0_r; split_and!|].
  cbn [update_reply set_reply hooks]. rewrite H6, Hemit by done. split_and!; try done. constructor; cbn; try done. by apply told_data.
Qed.

(** ** Bodies *)

Context (res : response_state) (hs : headers) (raw body : str) (tail : list read_result).
Context (Hcode : 100 ≤ status_code res ≤ 999) (Hhs : Forall client_field_ok hs).
Context (Hreads : response_reads m (status_code res) hs raw body tail).
Context (Hhead : Z.of_nat (length (head_text res hs)) ≤ max_header_bytes o) (Hbody : Z.of_nat (length body) ≤ max_body_bytes o).

Let head := ResponseHead (status_code res) hs.
Let text := head_text res hs ++ raw.

Record in_body (s : streaming_request) (mode : body_mode) (d : str) : Prop := {
  ib_listening : listening s [head] d;
  ib_seen : rp_seen (reply s) = true;
  ib_mode : rp_mode (reply s) = mode;
  ib_delivered : rp_delivered (reply s) = length d
}.

(** A piece of the body is handed out and leaves the buffer. *)
Lemma emit_in_body x n s mode d :
  in_body s mode d →
  let s' := erase n (emit_body emit x s) in
  in_body s' mode (d ++ x) ∧ rp_buffer (reply s') = drop n (rp_buffer (reply s)) ∧ rp_remaining (reply s') = rp_remaining (reply s).
Proof.
  intros [H1 H2 H3 H4] s'. destruct (emit_body_listening x s [head] d H1) as (G1 & G2 & G3 & G4 & G5 & G6). destruct G1.
  split_and!; [|cbn; by rewrite G2|done]. constructor; cbn; [by constructor|congruence|congruence|]. rewrite G6, H4, length_app. done.
Qed.

Lemma remaining_in_body f s mode d : in_body s mode d → in_body (update_reply (λ r, set_rp_remaining (f r) r) s) mode d.
Proof. intros [[] H2 H3 H4]. constructor; [by constructor|done..]. Qed.

Lemma loop_stops fuel s : rp_remaining (reply s) = 0%nat ∨ rp_buffer (reply s) = [] → content_length_loop emit fuel s = s.
Proof.
  intros H. destruct fuel as [|fuel]; [done|]. cbn [content_length_loop]. destruct (negb (completed s)); [|done]. cbn [andb].
  destruct H as [-> | ->]; [done|]. destruct (0 <? _)%nat; [|done]. by rewrite bool_decide_eq_true_2.
Qed.

Definition sized_step (n : nat) (s : streaming_request) : streaming_request :=
  update_reply (λ r, set_rp_remaining (rp_remaining r - n) r) (erase n (emit_body emit (take n (rp_buffer (reply s))) s)).

Lemma loop_steps fuel s :
  outcome s = None → (0 < rp_remaining (reply s))%nat → rp_buffer (reply s) ≠ [] →
  content_length_loop emit (S fuel) s =
  content_length_loop emit fuel (sized_step (Nat.min (rp_remaining (reply s)) (length (rp_buffer (reply s)))) s).
Proof.
  intros H1 H2 H3. cbn [content_length_loop]. unfold completed. rewrite H1, bool_decide_eq_false_2 by done.
  assert ((0 <? rp_remaining (reply s))%nat = true) as -> by by apply Nat.ltb_lt. done.
Qed.

Lemma take_min {A} (l : list A) n : take (Nat.min n (length l)) l = take n l.
Proof. destruct (Nat.le_ge_cases n (length l)); [by rewrite Nat.min_l|by rewrite Nat.min_r, !take_ge by lia]. Qed.

Lemma drop_min {A} (l : list A) n : drop (Nat.min n (length l)) l = drop n l.
Proof. destruct (Nat.le_ge_cases n (length l)); [by rewrite Nat.min_l|by rewrite Nat.min_r, !drop_ge by lia]. Qed.

(** The loop takes what there is of the body. *)
Lemma loop_takes s d n :
  in_body s body_content_length d → rp_remaining (reply s) = n →
  let p := rp_buffer (reply s) in let s' := content_length_loop emit (S (length p)) s in
  in_body s' body_content_length (d ++ take n p) ∧ rp_buffer (reply s') = drop n p ∧ rp_remaining (reply s') = (n - length p)%nat.
Proof.
  intros Hb Hr p s'. unfold s'. destruct (decide (p = [])) as [Ep|Ep].
  { rewrite loop_stops by by right. rewrite Ep, take_nil, app_nil_r, drop_nil. split_and!; [done|exact Ep|rewrite Hr; cbn; lia]. }
  destruct (decide (n = 0%nat)) as [En|En]. { rewrite loop_stops by (left; congruence). rewrite En, app_nil_r. split_and!; [done..|]. by rewrite Hr, En. }
  pose proof (ls_outcome _ _ _ (ib_listening _ _ _ Hb)) as Ho. rewrite loop_steps; [|done|rewrite Hr; lia|done].
  set (k := Nat.min _ _). destruct (emit_in_body (take k p) k s _ d Hb) as (G1 & G2 & G3). set (s2 := sized_step k s).
  assert (H2 : in_body s2 body_content_length (d ++ take n p) ∧ rp_buffer (reply s2) = drop n p ∧ rp_remaining (reply s2) = (n - length p)%nat).
  { assert (Ek : k = Nat.min n (length p)) by (unfold k; by rewrite Hr). rewrite <-(take_min p n), <-(drop_min p n), <-Ek.
    split_and!; [by apply remaining_in_body|exact G2|]. transitivity (n - k)%nat; [rewrite <-Hr; exact (f_equal (λ r, (r - k)%nat) G3)|lia]. }
  rewrite loop_stops; [done|]. destruct H2 as (_ & -> & ->).
  destruct (decide (n ≤ length p)%nat); [left; lia|right; by apply drop_ge; lia].
Qed.

Lemma process_sized s d k extra q :
  in_body s body_content_length d → body = d ++ k → rp_remaining (reply s) = length k → rp_buffer (reply s) ++ q = k ++ extra →
  let s' := process_content_length_body o m tr emit deliver s in
  heard s' head body ∨
  ∃ d' k', in_body s' body_content_length d' ∧ body = d' ++ k' ∧ rp_remaining (reply s') = length k' ∧ rp_buffer (reply s') = [] ∧ q = k' ++ extra ∧ k' ≠ [].
Proof.
  intros Hb Ebody Hr E s'. unfold s', process_content_length_body. set (p := rp_buffer (reply s)) in *.
  destruct (loop_takes s d (length k) Hb Hr) as (H1 & H2 & H3). fold p in H1, H2, H3. set (s1 := content_length_loop _ _ _) in *. clearbody s1.
  unfold completed. rewrite (ls_outcome _ _ _ (ib_listening _ _ _ H1)), H3. cbn [negb andb]. pose proof E as E0.
  apply app_cut in E as [(k' & Hk' & ->)|(p' & E & Ex)].
  - right. exists (d ++ p), k'. rewrite length_app in *. assert (Hl : (0 < length k')%nat) by (destruct k'; [done|cbn; lia]).
    assert ((length p + length k' - length p =? 0)%nat = false) as -> by (apply Nat.eqb_neq; lia). cbn iota.
    rewrite take_ge in H1 by lia. rewrite drop_ge in H2 by lia. split_and!; try done; [by rewrite Ebody, app_assoc|rewrite H3; lia|].
    rewrite <-app_assoc in E0. by apply app_inv_head in E0.
  - left. rewrite E, length_app in *. rewrite take_app_length in H1. assert ((length k - (length k + length p') =? 0)%nat = true) as -> by (apply Nat.eqb_eq; lia).
    apply finish_heard. rewrite Ebody. apply H1.
Qed.

Lemma process_chunks cs : ∀ fuel s d p q,
  in_body s body_chunked d → body = d ++ concat cs → Forall chunk_ok cs → rp_buffer (reply s) = p → p ++ q = flat_map serialize_chunk cs ++ last_chunk →
  (length p < fuel)%nat →
  let s' := process_chunked_body o m tr emit deliver fuel s in
  heard s' head body ∨
  ∃ d' cs', in_body s' body_chunked d' ∧ body = d' ++ concat cs' ∧ Forall chunk_ok cs' ∧
    rp_buffer (reply s') ++ q = flat_map serialize_chunk cs' ++ last_chunk ∧ q ≠ [].
Proof.
  induction cs as [|c cs IH]; intros fuel s d p q Hb Ebody Hok Ep E Hf s'; (destruct fuel as [|fuel]; [lia|]);
    pose proof (ls_outcome _ _ _ (ib_listening _ _ _ Hb)) as Ho; unfold s'; cbn [process_chunked_body]; unfold completed; rewrite Ho, Ep.
  - destruct (decide (q = [])) as [->|Hq].
    { rewrite app_nil_r in E. subst p. left. rewrite E. rewrite app_nil_r in Ebody. cbn. apply finish_heard. rewrite Ebody.
      destruct (ib_listening _ _ _ Hb). by constructor. }
    assert (Hwait : ∃ d' cs', in_body s body_chunked d' ∧ body = d' ++ concat cs' ∧ Forall chunk_ok cs' ∧
      rp_buffer (reply s) ++ q = flat_map serialize_chunk cs' ++ last_chunk ∧ q ≠ []) by (exists d, []; by rewrite Ep).
    change (flat_map _ [] ++ last_chunk) with (to_chars 16 0 ++ crlf ++ crlf) in E.
    destruct (size_line_read 0 p q crlf eq_refl E) as [[-> _]|(i & p' & -> & -> & -> & E' & _)]; [by right|].
    change (Z.of_N 0 =? 0) with true. cbn iota. destruct (last_chunk_read p' q Hq E') as [-> ->]. by right.
  - pose proof Hok as [[Hne Hc] Hok']%Forall_cons. set (n := N.of_nat (length c)). assert (Hn : Z.of_N n < 2 ^ 32) by lia. pose proof E as E0.
    change (flat_map serialize_chunk (c :: cs)) with (serialize_chunk c ++ flat_map serialize_chunk cs) in E.
    unfold serialize_chunk at 1 in E. fold n in E. rewrite <-!app_assoc in E. change eol with crlf in E.
    assert (Hwait : q ≠ [] → ∃ d' cs', in_body s body_chunked d' ∧ body = d' ++ concat cs' ∧ Forall chunk_ok cs' ∧
      rp_buffer (reply s) ++ q = flat_map serialize_chunk cs' ++ last_chunk ∧ q ≠ []) by (intros Hq; exists d, (c :: cs); by rewrite Ep).
    destruct (size_line_read n p q _ Hn E) as [[-> Hq]|(i & p' & Efind & Eparse & Ed & E' & Hl)]; [right; auto|].
    rewrite Efind, Eparse, Ed.
    assert (E1 : (Z.of_N n =? 0) = false) by (apply Z.eqb_neq; destruct c; [done|cbn in n; lia]). rewrite E1, Z.mod_small by lia.
    destruct (chunk_body_read c _ p' q E') as [[Hs Hq]|(p'' & G1 & G2 & G3 & G4 & Hl')].
    { assert ((Z.of_nat (length p') <? Z.of_N n + 2) = true) as -> by (apply Z.ltb_lt; lia). right. auto. }
    assert ((Z.of_nat (length p') <? Z.of_N n + 2) = false) as -> by (apply Z.ltb_ge; lia).
    assert (Hmax : (max_body_bytes o <? Z.of_nat (rp_delivered (reply s)) + Z.of_N n) = false).
    { apply Z.ltb_ge. rewrite (ib_delivered _ _ _ Hb). rewrite Ebody, length_app in Hbody. cbn [concat] in Hbody. rewrite length_app in Hbody. lia. }
    rewrite Hmax. assert ((Z.of_nat (length p') <? Z.of_N n) = false) as -> by (apply Z.ltb_ge; lia).
    replace (Z.to_nat (Z.of_N n)) with (length c) by lia. rewrite G2, G1. cbn [negb].
    destruct (emit_in_body c (i + 2 + length c + 2) s _ d Hb) as (I1 & I2 & _).
    apply (IH fuel _ (d ++ c) p'' q); [exact I1| |exact Hok'|rewrite I2|exact G4|lia].
    + rewrite Ebody. cbn. by rewrite app_assoc.
    + rewrite Ep, <-G3, <-Ed, drop_drop. f_equal. lia.
Qed.

(** ** Reads *)

(** [q] is what has yet to arrive. *)
Inductive expects (s : streaming_request) (q : str) : Prop :=
| expects_head :
    listening s [] [] → rp_seen (reply s) = false → rp_delivered (reply s) = 0%nat → rp_buffer (reply s) ++ q = text → expects s q
| expects_sized d k extra :
    in_body s body_content_length d → body = d ++ k → rp_remaining (reply s) = length k → rp_buffer (reply s) ++ q = k ++ extra → expects s q
| expects_chunked d cs :
    in_body s body_chunked d → body = d ++ concat cs → Forall chunk_ok cs → rp_buffer (reply s) ++ q = flat_map serialize_chunk cs ++ last_chunk →
    expects s q
| expects_end d :
    tail = [read_eof] → in_body s body_eof d → body = d ++ rp_buffer (reply s) ++ q → expects s q.

(** All of a body that lasts until the end of the stream is there. *)
Definition waits_end (s : streaming_request) : Prop := tail = [read_eof] ∧ in_body s body_eof body ∧ rp_buffer (reply s) = [].

(** After a read: the user was told the end, or more is to come. *)
Definition goes_on (s : streaming_request) (q : str) : Prop := heard s head body ∨ (expects s q ∧ (q ≠ [] ∨ waits_end s)).

Lemma process_until_end s d q :
  tail = [read_eof] → in_body s body_eof d → body = d ++ rp_buffer (reply s) ++ q → goes_on (emit_buffer_as_body o tr emit deliver s) q.
Proof.
  intros Ht Hb E. right. unfold emit_buffer_as_body. set (p := rp_buffer (reply s)) in *. case_bool_decide as Hp.
  - split; [by apply (expects_end s q d)|]. rewrite Hp in E. cbn [app] in E. destruct q; [right|by left].
    rewrite app_nil_r in E. unfold waits_end. by rewrite E.
  - assert ((max_body_bytes o <? Z.of_nat (rp_delivered (reply s) + length p)) = false) as ->.
    { apply Z.ltb_ge. rewrite (ib_delivered _ _ _ Hb). rewrite E, !length_app in Hbody. lia. }
    destruct (emit_in_body p (length p) s _ d Hb) as (G1 & G2 & G3). set (s' := update_reply _ _).
    assert (H' : in_body s' body_eof (d ++ p)) by (destruct G1 as [[] ? ? ?]; by constructor).
    split; [apply (expects_end s' q (d ++ p)); [done..|by rewrite <-app_assoc]|]. destruct q; [right|by left].
    rewrite app_nil_r in E. unfold waits_end. by rewrite E.
Qed.

Lemma process_body_expects s mode d q : in_body s mode d → expects s q → goes_on (process_body o m tr emit deliver s) q.
Proof.
  intros Hb He. unfold process_body. destruct He as [_ H|d' k extra H1 H2 H3 H4|d' cs H1 H2 H3 H4|d' H1 H2 H3].
  - pose proof (ib_seen _ _ _ Hb). congruence.
  - rewrite (ib_mode _ _ _ H1). destruct (process_sized s d' k extra q H1 H2 H3 H4) as [H|(d2 & k2 & G1 & G2 & G3 & G4 & G5 & G6)]; [by left|].
    right. split; [|left; by rewrite G5; destruct k2]. apply (expects_sized _ _ d2 k2 extra); try done. by rewrite G4.
  - rewrite (ib_mode _ _ _ H1). destruct (process_chunks cs (S (length (rp_buffer (reply s)))) s d' _ q H1 H2 H3 eq_refl H4 ltac:(lia)) as [H|(d2 & cs2 & G1 & G2 & G3 & G4 & G5)];
      [by left|]. right. split; [|by left]. by apply (expects_chunked _ _ d2 cs2).
  - rewrite (ib_mode _ _ _ H2). by apply (process_until_end s d').
Qed.

(** The state in which the body begins. *)
Lemma body_begins mode n s :
  listening s [head] [] → rp_seen (reply s) = true → rp_delivered (reply s) = 0%nat →
  let s' := start_phase_timeout phase_response_body (response_body_timeout o) (set_body_mode mode n s) in
  in_body s' mode [] ∧ rp_buffer (reply s') = rp_buffer (reply s) ∧ (mode = body_content_length → rp_remaining (reply s') = n).
Proof.
  intros Hl H1 H2 s'. assert (Hr : reply s' = reply (set_body_mode mode n s)) by apply timeout_reply.
  split_and!; [constructor; rewrite ?Hr|by rewrite Hr; destruct mode|by intros ->; rewrite Hr].
  - apply timeout_listening. destruct Hl. by constructor.
  - by destruct mode.
  - by destruct mode.
  - cbn [length]. by destruct mode.
Qed.

Lemma on_head_expects s q :
  listening s [] [] → rp_seen (reply s) = true → rp_delivered (reply s) = 0%nat → rp_buffer (reply s) ++ q = raw →
  goes_on (on_head o m tr emit deliver head s) q.
Proof.
  intros Hl H1 H2 E. unfold on_head. destruct (ls_hooks _ _ _ Hl) as (Hh & _). rewrite Hh, Hemit by done. set (s1 := happen (ce_headers head) s).
  assert (Hl1 : listening s1 [head] []). { destruct Hl. constructor; try done. by apply told_head. }
  change (rh_status_code head) with (status_code res). change (rh_headers head) with hs. unfold choose_body_mode.
  inversion Hreads as [raw' body' Hframing E1 E2 E3|body' G1 G2 G3 E1 E2 E3]; subst body'.
  2: { rewrite G1, G2, G3. change (negb (str_eqb [] [])) with false. cbv iota. destruct (body_begins body_eof 0 s1 Hl1 H1 H2) as (B1 & B2 & _).
       eapply process_body_expects; [exact B1|]. apply (expects_end _ _ []); [by symmetry|exact B1|]. cbn [app]. rewrite B2. symmetry. etransitivity; [exact E|congruence]. }
  inversion Hframing as [raw2 G F1 F2|b rest G1 G2 G3 G4 F1 F2|payloads G1 G2 G3 F1 F2].
  - rewrite G. left. apply finish_heard. rewrite <-F2. destruct Hl1. by constructor.
  - subst b. rewrite G1, G2. assert (str_eqb (headers_get hs (lit "content-length")) [] = false) as -> by by apply bool_decide_eq_false_2.
    cbn [negb]. rewrite G4. assert ((max_body_bytes o <? Z.of_nat (length body)) = false) as -> by (apply Z.ltb_ge; lia).
    rewrite Nat2Z.id. destruct (body_begins body_content_length (length body) s1 Hl1 H1 H2) as (B1 & B2 & B3).
    eapply process_body_expects; [exact B1|]. eapply (expects_sized _ _ [] body rest); [exact B1|done|by apply B3|]. rewrite B2. etransitivity; [exact E|done].
  - rewrite G1, G2. destruct (body_begins body_chunked 0 s1 Hl1 H1 H2) as (B1 & B2 & _).
    eapply process_body_expects; [exact B1|]. eapply (expects_chunked _ _ [] payloads); [exact B1|done|done|]. rewrite B2. etransitivity; [exact E|done].
Qed.

Lemma append_listening c s heads d : listening s heads d → listening (update_reply (λ r, set_rp_buffer (rp_buffer r ++ c) r) s) heads d.
Proof. intros []. by constructor. Qed.

Lemma on_read_expects s c q :
  expects s (c ++ q) → goes_on (on_read o m tr emit deliver (read_bytes c) s) q.
Proof.
  intros He. set (s' := on_read _ _ _ _ _ _ s). set (s1 := update_reply (λ r, set_rp_buffer (rp_buffer r ++ c) r) s).
  assert (Ho : outcome s = None) by (destruct He as [[]|d k extra [[]]|d cs [[]]|d _ [[]]]; done).
  assert (Es : s' = process_buffer o m tr emit deliver s1) by (unfold s', on_read, completed; by rewrite Ho). rewrite Es. unfold process_buffer, completed.
  change (outcome s1) with (outcome s). rewrite Ho. destruct He as [Hl H1 H2 E|d k extra H1 H2 H3 H4|d cs H1 H2 H3 H4|d H1 H2 H3]; change (rp_seen (reply s1)) with (rp_seen (reply s)).
  - rewrite H1. set (B := rp_buffer (reply s1)). rewrite app_assoc in E. change (rp_buffer (reply s) ++ c) with B in E. pose proof E as E0. unfold text in E.
    apply app_cut in E as [(k & Hk & E)|(p' & E & Er)].
    + rewrite (head_incomplete res hs B k) by done. pose proof (f_equal length E) as El. rewrite length_app in El.
      assert ((max_header_bytes o <? Z.of_nat (length B)) = false) as -> by (apply Z.ltb_ge; lia). right. split; [|left; by eapply cut_rest].
      apply expects_head; [by apply append_listening|done|done|exact E0].
    + rewrite E. destruct (head_complete res hs p' Hhs) as (n & -> & _). rewrite parse_whole_head by done.
      apply on_head_expects; [destruct Hl; by constructor|done|exact H2|]. change (drop (length (head_text res hs)) B ++ q = raw).
      by rewrite E, drop_app_length.
  - rewrite (ib_seen _ _ _ H1). assert (Hb : in_body s1 body_content_length d) by (destruct H1; constructor; [by apply append_listening|done..]).
    eapply process_body_expects; [exact Hb|]. apply (expects_sized _ _ d k extra); try done. cbn. by rewrite <-app_assoc.
  - rewrite (ib_seen _ _ _ H1). assert (Hb : in_body s1 body_chunked d) by (destruct H1; constructor; [by apply append_listening|done..]).
    eapply process_body_expects; [exact Hb|]. apply (expects_chunked _ _ d cs); try done. cbn. by rewrite <-app_assoc.
  - rewrite (ib_seen _ _ _ H2). assert (Hb : in_body s1 body_eof d) by (destruct H2; constructor; [by apply append_listening|done..]).
    eapply process_body_expects; [exact Hb|]. apply (expects_end _ _ d); try done. cbn. by rewrite <-app_assoc.
Qed.

Lemma on_eof_heard s : waits_end s → heard (on_read o m tr emit deliver read_eof s) head body.
Proof.
  intros (_ & Hb & E). pose proof Hb as [[H1 H2 H3 H4 (_ & _ & H5) H6] G2 G3 _]. unfold on_read, on_eof, completed. rewrite H1, G2, G3. cbn [negb].
  unfold emit_buffer_as_body. rewrite E, bool_decide_eq_true_2, H1 by done. unfold close_stream. rewrite H2.
  apply complete_heard; cbn; try done; rewrite ?H4; try done. by apply told_quiet.
Qed.
End reads.

(** ** Runs *)

Section runs.
Context (o : client_options) (m : method) (tr : transport) (calls : list client_event → client_event → list client_cmd).
Context (Hcalls : ∀ h e, e ≠ ce_drain → calls h e = []).
Context (res : response_state) (hs : headers) (raw body : str) (tail : list read_result).
Context (Hcode : 100 ≤ status_code res ≤ 999) (Hhs : Forall client_field_ok hs).
Context (Hreads : response_reads m (status_code res) hs raw body tail).
Context (Hhead : Z.of_nat (length (head_text res hs)) ≤ max_header_bytes o) (Hbody : Z.of_nat (length body) ≤ max_body_bytes o).

Lemma level_emit depth e s : e ≠ ce_drain → l_emit (level o m tr calls depth) e s = happen e s.
Proof. intros He. destruct depth as [|depth]; [done|]. cbn [level next_level l_emit]. by rewrite Hcalls. Qed.

Lemma heard_stays depth s r head : heard s head body → run_client_op o m tr (level o m tr calls depth) s (op_read r) = s.
Proof. intros [H _]. cbn [run_client_op]. unfold on_read, completed. rewrite H. by destruct (_ && _). Qed.

Lemma expects_op depth s c q :
  expects res hs raw body tail s (c ++ q) →
  goes_on res hs raw body tail (run_client_op o m tr (level o m tr calls depth) s (op_read (read_bytes c))) q.
Proof.
  intros He. assert (Hl : reading_response s = true ∧ stream s = open_stream) by (destruct He as [[]|d k extra [[]]|d cs [[]]|d _ [[]]]; done).
  cbn [run_client_op]. destruct Hl as [-> ->]. cbn [andb].
  exact (on_read_expects o m tr _ _ (level_emit depth) res hs raw body tail Hcode Hhs Hreads Hhead Hbody s c q He).
Qed.

Lemma heard_stays_all depth rs s head :
  heard s head body → foldl (run_client_op o m tr (level o m tr calls depth)) s (map op_read rs) = s.
Proof. intros H. induction rs as [|r rs IH]; [done|]. cbn [map foldl]. by rewrite (heard_stays depth s r _ H). Qed.

Lemma waits_end_heard depth s :
  waits_end res hs body tail s →
  heard (foldl (run_client_op o m tr (level o m tr calls depth)) s (map op_read tail)) (ResponseHead (status_code res) hs) body.
Proof.
  intros Hw. pose proof Hw as (Ht & [[_ Hs Hr _ _ _] _ _ _] & _). rewrite Ht. cbn [map foldl run_client_op]. rewrite Hs, Hr. cbn [andb].
  by apply (on_eof_heard o m tr _ _ (level_emit depth) res hs body tail).
Qed.

Lemma expects_cuts depth cuts : ∀ s,
  expects res hs raw body tail s (concat cuts) → concat cuts ≠ [] ∨ waits_end res hs body tail s →
  heard (foldl (run_client_op o m tr (level o m tr calls depth)) s (map op_read (map read_bytes cuts ++ tail))) (ResponseHead (status_code res) hs) body.
Proof.
  induction cuts as [|c cuts IH]; intros s He Hw; [destruct Hw; [done|by apply waits_end_heard]|]. cbn [map app foldl].
  destruct (expects_op depth s c (concat cuts) He) as [H|[H Hq]]; [by rewrite (heard_stays_all depth _ _ _ H)|by apply IH].
Qed.
End runs.

(** C33: A streaming request gets the response that was meant: once it reads, and
    however the bytes of a response are cut into reads, a user whose callbacks
    call nothing is told, in this order, the head with all its fields, the body in
    pieces of which none is empty, and success, and nothing else.  The body has a
    length, is chunked, lasts until the end of the stream, or there is none; the
    status is not that of an interim response. *)
Theorem streaming_reads_response (o : client_options) (m : method) (tr : transport) (calls : list client_event → client_event → list client_cmd)
    (depth : nat) (setup : list client_cmd) (url_input : str) (pooled : bool) (ops : list client_op)
    (res : response_state) (hs : headers) (raw body : str) (tail : list read_result) (cuts : list str) :
  (∀ h e, e ≠ ce_drain → calls h e = []) →
  let s := run_request o m tr calls depth setup url_input pooled ops in
  listening s [] [] → reply s = reply new_request →
  200 ≤ status_code res ≤ 999 → Forall client_field_ok hs → response_reads m (status_code res) hs raw body tail →
  Z.of_nat (length (head_text res hs)) ≤ max_header_bytes o → Z.of_nat (length body) ≤ max_body_bytes o →
  concat cuts = head_text res hs ++ raw →
  let s' := run_request o m tr calls depth setup url_input pooled (ops ++ map op_read (map read_bytes cuts ++ tail)) in
  outcome s' = Some None ∧
  ∃ pieces, told_events (history s') = ce_headers (ResponseHead (status_code res) hs) :: map ce_data pieces ++ [ce_complete None] ∧
    Forall (λ x, x ≠ []) pieces ∧ concat pieces = body.
Proof.
  intros Hcalls s Hl Hr Hc Hhs Hf Hh Hb Hcuts s'.
  assert (E : s' = foldl (run_client_op o m tr (level o m tr calls depth)) s (map op_read (map read_bytes cuts ++ tail)))
    by (unfold s', s, run_request; by rewrite foldl_app).
  rewrite E. apply (expects_cuts o m tr calls Hcalls res hs raw body tail); try done; [lia| |].
  - apply expects_head; [done|by rewrite Hr..|]. rewrite Hr. exact Hcuts.
  - left. rewrite Hcuts. by unfold head_text, status_line.
Qed.

(** A download in three reads, cut within the head and within a chunk. *)
Lemma streaming_reads_response_witness :
  let quiet := Transport (λ _, None) (λ _, None) (λ _, []) None in
  let hs := [(lit "transfer-encoding", lit "chunked")] in
  let raw := flat_map serialize_chunk [lit "hello"; lit " world"] ++ last_chunk in
  let bytes := head_text (error_response 404) hs ++ raw in
  let s' := run_request default_client_options m_get quiet (λ _ _, []) 2 [cc_on_headers true; cc_on_data true; cc_on_complete true] (lit "http://a/b") false
    ([op_resolved None; op_connected connect_ok; op_written None] ++
     map op_read (map read_bytes [take 20 bytes; take 40 (drop 20 bytes); drop 60 bytes] ++ [])) in
  outcome s' = Some None ∧
  ∃ pieces, told_events (history s') = ce_headers (ResponseHead 404 hs) :: map ce_data pieces ++ [ce_complete None] ∧
    Forall (λ x, x ≠ []) pieces ∧ concat pieces = lit "hello world".
Proof.
  intros quiet hs raw bytes.
  refine (streaming_reads_response default_client_options m_get quiet (λ _ _, []) 2 [cc_on_headers true; cc_on_data true; cc_on_complete true] (lit "http://a/b") false
    [op_resolved None; op_connected connect_ok; op_written None] (error_response 404) hs raw (lit "hello world") []
    [take 20 bytes; take 40 (drop 20 bytes); drop 60 bytes] _ _ _ _ _ _ _ _ _).
  - reflexivity.
  - constructor; [vm_compute; reflexivity..|vm_compute; repeat split|]. exists []. split_and!; [vm_compute; reflexivity|constructor|reflexivity].
  - vm_compute. reflexivity.
  - vm_compute. split; intros H; discriminate H.
  - repeat constructor; try reflexivity. discriminate.
  - apply reads_framed. refine (framing_chunked m_get 404 hs [lit "hello"; lit " world"] _ _ _); [reflexivity|reflexivity|].
    repeat constructor; discriminate.
  - vm_compute. intros H. discriminate H.
  - vm_compute. intros H. discriminate H.
  - vm_compute. reflexivity.
Defined.

(** A body that lasts until the end of the stream, with a read of its own for each
    byte. *)
Example reads_until_end :
  let quiet := Transport (λ _, None) (λ _, None) (λ _, []) None in
  let bytes := head_text (error_response 404) [] ++ lit "abc" in
  let s' := run_request default_client_options m_get quiet (λ _ _, []) 2 [cc_on_headers true; cc_on_data true; cc_on_complete true] (lit "http://a/b") false
    ([op_resolved None; op_connected connect_ok; op_written None] ++ map op_read (map (λ c, read_bytes [c]) bytes ++ [read_eof])) in
  told_events (history s') =
    [ce_headers (ResponseHead 404 []); ce_data (lit "a"); ce_data (lit "b"); ce_data (lit "c"); ce_complete None].
Proof. vm_compute. reflexivity. Qed.

(** An interim response is taken for the response: the final one is not read. *)
Example interim_response_ends_request :
  let quiet := Transport (λ _, None) (λ _, None) (λ _, []) None in
  let bytes := lit "HTTP/1.1 103 Early Hints" ++ crlf2 ++ lit "HTTP/1.1 200 OK" ++ crlf2 in
  let s' := run_request default_client_options m_get quiet (λ _ _, []) 2 [cc_on_headers true; cc_on_data true; cc_on_complete true] (lit "http://a/b") false
    [op_resolved None; op_connected connect_ok; op_written None; op_read (read_bytes bytes)] in
  told_events (history s') = [ce_headers (ResponseHead 103 []); ce_complete None].
Proof. vm_compute. reflexivity. Qed.
