(* ===== verification/Client.v ===== *)
(** * The client

    The class [client] of [src/http/client.cpp]: buffered and streaming requests
    of one client, which share its pool.  A connection gets a number when a
    request first writes on it; a request holds the connection that its
    [stream_] is, also after it has closed it.  The oracles of the models of the
    two kinds of requests are replaced by the pool: whether it has a connection
    under a key is asked at the moment of the call. *)

From S2P Require Import Prelude Text Url Http HttpError Multipart Response ClientWire ClientOptions.
From S2P Require Import ClientStreamState ClientStream ClientStreamClaims ClientPool ClientBuffered ClientBufferedSpec.

Open Scope nat_scope.

(** What requests do with connections.  A buffered request writes once on every
    stream, which is its own unless it has just taken one; a streaming request
    goes on with the stream it has. *)
Inductive conn_event := cv_take (key : str) | cv_open | cv_use | cv_release (key : str) | cv_close.

Definition buffered_event (e : request_event) : option conn_event :=
  match e with
  | re_take key => Some (cv_take key)
  | re_write _ => Some cv_open
  | re_release key => Some (cv_release key)
  | re_close => Some cv_close
  | _ => None
  end.

Definition streaming_event (e : client_event) : option conn_event :=
  match e with
  | ce_write _ => Some cv_use
  | ce_release key => Some (cv_release key)
  | ce_close => Some cv_close
  | _ => None
  end.

(** The pool, the connection that each request holds, how many connections there
    were, those that requests have closed, those that no object refers to any
    more, and whether a request has just taken one out of the pool. *)
Record links := Links {
  pool : connection_pool;
  held : list (option nat);
  next_conn : nat;
  shut_conns : list nat;
  gone : list nat;
  taken : bool
}.

Inductive any_request := fetched (m : method) (s : request_state) | streamed (m : method) (s : streaming_request).

Record client := Client { requests : list any_request; conns : links }.

Definition new_links : links := Links new_pool [] 0 [] [] false.
Definition new_client : client := Client [] new_links.

Definition holder (r : nat) (w : links) : option nat := default None (held w !! r).

Definition set_pool (p : connection_pool) (w : links) : links := Links p (held w) (next_conn w) (shut_conns w) (gone w) (taken w).
Definition set_taken (t : bool) (w : links) : links := Links (pool w) (held w) (next_conn w) (shut_conns w) (gone w) t.

(** Another connection in the place of what the request held. *)
Definition hold (r : nat) (conn : option nat) (w : links) : links :=
  Links (pool w) (<[r := conn]> (held w)) (next_conn w) (shut_conns w) (gone w ++ option_list (holder r w)) (taken w).

Definition fresh_conn (r : nat) (w : links) : links :=
  let id := next_conn w in
  let w := hold r (Some id) w in Links (pool w) (held w) (S id) (shut_conns w) (gone w) (taken w).

(** Whether [take] finds a connection. *)
Definition pool_has (key : str) (p : connection_pool) : bool := match (pool_take key p).1 with Some _ => true | None => false end.

Section client.
Context (o : client_options) (idle_timeout : Z).

Definition follow (r : nat) (w : links) (e : conn_event) : links :=
  match e with
  | cv_take key => let '(found, p) := pool_take key (pool w) in set_taken true (hold r found (set_pool p w))
  | cv_open => if taken w then set_taken false w else fresh_conn r w
  | cv_use => match holder r w with Some _ => set_taken false w | None => fresh_conn r w end
  | cv_release key =>
    Links (pool_release key (holder r w) (max_idle_connections_per_origin o) idle_timeout (pool w)) (<[r := None]> (held w))
      (next_conn w) (shut_conns w) (gone w) (taken w)
  | cv_close =>
    match holder r w with
    | Some conn => Links (pool w) (held w) (next_conn w) (shut_conns w ++ [conn]) (gone w) (taken w)
    | None => w
    end
  end.

Definition follow_all (r : nat) (w : links) (es : list conn_event) : links := foldl (follow r) w es.

(** The pool as a request sees it whose history had [n] entries when the
    connections were [w]. *)
Definition asks_pool (r : nat) (w : links) (n : nat) (h : list request_event) (key : str) : bool :=
  pool_has key (pool (follow_all r w (omap buffered_event (drop n h)))).

Definition with_pool (r : nat) (w : links) (n : nat) (sr : surroundings) : surroundings :=
  Surroundings (asks_pool r w n) (sr_close sr) (sr_early sr) (sr_tls sr).

(** What is around the requests apart from the pool, and the users of streaming
    requests. *)
Context (around : nat → surroundings) (tr : nat → transport) (calls : nat → list client_event → client_event → list client_cmd) (depth : nat).

Definition add_request (q : any_request) (w : links) (c : client) : client := Client (requests c ++ [q]) w.
Definition new_holder (w : links) : links := Links (pool w) (held w ++ [None]) (next_conn w) (shut_conns w) (gone w) (taken w).

(** [fetch], and [get]. *)
Definition fetch (m : method) (url_input : str) (c : client) : client :=
  let r := length (requests c) in
  let w := new_holder (conns c) in
  let s := ClientBuffered.start o m (with_pool r w 0 (around r)) (parse_url url_input) new_request_state in
  add_request (fetched m s) (follow_all r w (omap buffered_event (history s))) c.

(** The key that the start of a streaming request asks for. *)
Definition streaming_key (url_input : str) : option str :=
  match parse_url url_input with
  | Ok target => if http_scheme target && str_eqb (proxy_url (proxy o)) [] then Some (origin_key target) else None
  | Err _ => None
  end.

Definition writes_head (h : list client_event) : bool := existsb (λ e, match e with ce_write _ => true | _ => false end) h.

(** [request], the calls on it and its [start]. *)
Definition stream_request (m : method) (setup : list client_cmd) (url_input : str) (c : client) : client :=
  let r := length (requests c) in
  let w := new_holder (conns c) in
  let key := streaming_key url_input in
  let pooled := from_option (λ k, pool_has k (pool w)) false key in
  let s := run_request o m (tr r) (calls r) depth setup url_input pooled [] in
  let taken := match key with Some k => if pooled && writes_head (ClientStreamState.history s) then [cv_take k] else [] | None => [] end in
  add_request (streamed m s) (follow_all r w (taken ++ omap streaming_event (ClientStreamState.history s))) c.

Definition update_request (r : nat) (q : any_request) (w : links) (c : client) : client := Client (<[r := q]> (requests c)) w.

Definition fetch_op (r : nat) (op : request_op) (c : client) : client :=
  match requests c !! r with
  | Some (fetched m s) =>
    let n := length (history s) in
    let s' := run_request_op o m (with_pool r (conns c) n (around r)) s op in
    update_request r (fetched m s') (follow_all r (conns c) (omap buffered_event (drop n (history s')))) c
  | _ => c
  end.

Definition stream_op (r : nat) (op : client_op) (c : client) : client :=
  match requests c !! r with
  | Some (streamed m s) =>
    let n := length (ClientStreamState.history s) in
    let s' := run_client_op o m (tr r) (level o m (tr r) (calls r) depth) s op in
    update_request r (streamed m s') (follow_all r (conns c) (omap streaming_event (drop n (ClientStreamState.history s')))) c
  | _ => c
  end.

Definition on_pool (f : connection_pool → connection_pool) (c : client) : client :=
  Client (requests c) (set_pool (f (pool (conns c))) (conns c)).

Definition close_idle_connections (c : client) : client := on_pool close_all c.

Inductive client_input :=
| ci_fetch (m : method) (url_input : str)
| ci_stream (m : method) (setup : list client_cmd) (url_input : str)
| ci_fetch_op (r : nat) (op : request_op)
| ci_stream_op (r : nat) (op : client_op)
| ci_timer (entry : nat)
| ci_close_idle.

Definition client_step (c : client) (i : client_input) : client :=
  match i with
  | ci_fetch m url_input => fetch m url_input c
  | ci_stream m setup url_input => stream_request m setup url_input c
  | ci_fetch_op r op => fetch_op r op c
  | ci_stream_op r op => stream_op r op c
  | ci_timer entry => on_pool (timer_fires entry) c
  | ci_close_idle => close_idle_connections c
  end.

Definition run_client (inputs : list client_input) : client := foldl client_step new_client inputs.
End client.

(** ** What a call of the pool does to connections *)

Record logs (p p' : connection_pool) (released taken : list nat) : Prop := {
  lg_released : omap released_of (pool_history p') = omap released_of (pool_history p) ++ released;
  lg_taken : omap taken_of (pool_history p') = omap taken_of (pool_history p) ++ taken
}.

Definition quiet_event (e : pool_event) : bool := match e with pv_release _ | pv_take _ _ => false | _ => true end.

Lemma logs_refl p : logs p p [] [].
Proof. constructor; by rewrite app_nil_r. Qed.

Lemma logs_trans p1 p2 p3 r1 t1 r2 t2 : logs p1 p2 r1 t1 → logs p2 p3 r2 t2 → logs p1 p3 (r1 ++ r2) (t1 ++ t2).
Proof. intros [E1 E2] [E3 E4]. constructor; [by rewrite E3, E1, app_assoc|by rewrite E4, E2, app_assoc]. Qed.

Lemma logs_note e p : logs p (note e p) (option_list (released_of e)) (option_list (taken_of e)).
Proof. constructor; cbn; rewrite omap_app; cbn; by destruct e. Qed.

Lemma logs_quiet e p1 p2 r t : quiet_event e = true → logs p1 p2 r t → logs p1 (note e p2) r t.
Proof.
  intros He H. pose proof (logs_trans _ _ _ _ _ _ _ H (logs_note e p2)) as H'. destruct e; try done; cbn in H'; by rewrite !app_nil_r in H'.
Qed.

Lemma logs_idle x p1 p2 r t : logs p1 p2 r t → logs p1 (set_idle x p2) r t.
Proof. by intros [E1 E2]. Qed.

Lemma stop_timer_logs item p1 p2 r t : logs p1 p2 r t → logs p1 (stop_timer item p2) r t.
Proof. intros H. unfold stop_timer. destruct (en_timer item); [by apply logs_quiet|done]. Qed.

Lemma close_entry_logs item p1 p2 r t : logs p1 p2 r t → logs p1 (close_entry item p2) r t.
Proof.
  intros H. unfold close_entry. apply (stop_timer_logs item) in H. destruct (en_stream item); [|done]. apply logs_quiet; [done|]. by apply logs_quiet.
Qed.

Lemma take_logs origin p : logs p (pool_take origin p).2 [] (option_list (pool_take origin p).1).
Proof.
  unfold pool_take. destruct (idle p !! origin) as [queue|]; [|apply logs_refl].
  assert (H : ∀ p1, logs p p1 [] [] → logs p (take_loop queue p1).2 [] []).
  { induction queue as [|item queue IH]; intros p1 H; [done|]. cbn [take_loop]. destruct (en_stream item).
    - by apply logs_quiet, stop_timer_logs.
    - by apply IH, stop_timer_logs. }
  specialize (H p (logs_refl p)). destruct (take_loop queue p) as [[found queue'] p1]. cbn [snd fst] in *. destruct found as [conn|]; [|by apply logs_idle].
  exact (logs_trans _ _ _ _ _ _ _ (logs_idle _ _ _ _ _ H) (logs_note (pv_take origin conn) _)).
Qed.

Lemma evict_logs max_idle queue p1 p2 r t : logs p1 p2 r t → logs p1 (evict max_idle queue p2).2 r t.
Proof.
  revert p2. induction queue as [|item queue IH]; intros p2 H; [done|]. cbn [evict]. destruct (max_idle <? _); [|done]. by apply IH, close_entry_logs.
Qed.

Lemma release_logs origin conn max_idle timeout p : logs p (pool_release origin conn max_idle timeout p) (option_list conn) [].
Proof.
  unfold pool_release. destruct conn as [conn|]; [|apply logs_refl].
  assert (H : logs p (note (pv_release conn) (Pool (idle p) (S (next_entry p)) (pool_history p))) [conn] []).
  { constructor; cbn; rewrite omap_app; cbn; by rewrite ?app_nil_r. }
  destruct (max_idle =? 0); [by apply close_entry_logs|]. set (p1 := if (0 <? timeout)%Z then _ else _).
  assert (H1 : logs p p1 [conn] []) by (unfold p1; destruct (0 <? timeout)%Z; [apply logs_quiet; [done|]|]; by apply logs_quiet).
  apply (evict_logs max_idle (default [] (idle p1 !! origin) ++ [PoolEntry (next_entry p) origin (Some conn) (0 <? timeout)%Z])) in H1.
  destruct (evict _ _ p1) as [queue p2]. by apply logs_idle.
Qed.

Lemma timer_logs id p : logs p (timer_fires id p) [] [].
Proof.
  unfold timer_fires. destruct (List.find _ _) as [item|]; [|apply logs_refl]. destruct (en_timer item); [|apply logs_refl].
  unfold expire. apply close_entry_logs. destruct (idle p !! en_origin item); [|apply logs_refl]. by destruct (List.filter _ _); apply logs_idle, logs_refl.
Qed.

Lemma close_all_logs p : logs p (close_all p) [] [].
Proof.
  unfold close_all. apply logs_idle. generalize (entries (idle p)). intros es. induction es as [|e es IH]; [apply logs_refl|]. by apply close_entry_logs.
Qed.

(** The connections that the pool has or has closed. *)
Definition pooled_conns (p : connection_pool) : list nat := idle_conns (entries (idle p)) ++ omap closed_of (pool_history p).

Lemma logs_conns max_idle p p' released taken :
  pool_inv max_idle p → pool_inv max_idle p' → logs p p' released taken → pooled_conns p' ++ taken ≡ₚ pooled_conns p ++ released.
Proof.
  intros [_ _ [H1 _]] [_ _ [H1' _]] [E1 E2]. rewrite E1, E2, H1 in H1'. unfold pooled_conns.
  apply (Permutation_app_inv_l (omap taken_of (pool_history p))).
  transitivity (idle_conns (entries (idle p')) ++ (omap taken_of (pool_history p) ++ taken) ++ omap closed_of (pool_history p')); [solve_Permutation|].
  rewrite <-H1'. solve_Permutation.
Qed.

(** ** Every connection is in one place *)

(** Where connections are: in the pool or closed by it, in requests, or nowhere
    any more. *)
Definition places (w : links) : list nat := pooled_conns (pool w) ++ omap id (held w) ++ gone w.

Lemma omap_id_insert (l : list (option nat)) k x y :
  l !! k = Some x → omap id (<[k := y]> l) ++ option_list x ≡ₚ omap id l ++ option_list y.
Proof.
  intros H. assert (Hk : (k < length l)%nat) by by eapply lookup_lt_Some. rewrite insert_take_drop by done.
  rewrite <-(take_drop_middle l k x H) at 3. rewrite !omap_app. cbn. destruct x, y; cbn; solve_Permutation.
Qed.

Section conservation.
Context (o : client_options) (idle_timeout : Z).
Notation max_idle := (max_idle_connections_per_origin o).

Record links_inv (w : links) : Prop := {
  li_pool : pool_inv max_idle (pool w);
  li_places : places w ≡ₚ List.seq 0 (next_conn w)
}.

Lemma holder_lookup r w : r < length (held w) → held w !! r = Some (holder r w).
Proof. intros H. unfold holder. by destruct (lookup_lt_is_Some_2 _ _ H) as [x ->]. Qed.

Lemma length_follow r w e : length (held (follow o idle_timeout r w e)) = length (held w).
Proof.
  destruct e; cbn [follow]; [destruct (pool_take _ _)|destruct (taken w)|destruct (holder r w)| |destruct (holder r w)]; cbn; by rewrite ?length_insert.
Qed.

Lemma hold_places r conn w : r < length (held w) → places (hold r conn w) ≡ₚ option_list conn ++ places w.
Proof.
  intros H. pose proof (omap_id_insert _ _ _ conn (holder_lookup r w H)) as E. unfold places. cbn [hold pool held gone].
  transitivity (pooled_conns (pool w) ++ (omap id (<[r := conn]> (held w)) ++ option_list (holder r w)) ++ gone w); [solve_Permutation|].
  rewrite E. solve_Permutation.
Qed.

Lemma seq_and_next n : [n] ++ List.seq 0 n ≡ₚ List.seq 0 (S n).
Proof. rewrite seq_S. by rewrite Permutation_app_comm. Qed.

Lemma fresh_conn_inv r w : r < length (held w) → links_inv w → links_inv (fresh_conn r w).
Proof.
  intros Hr [H1 H2]. constructor; [done|]. change (places (fresh_conn r w)) with (places (hold r (Some (next_conn w)) w)).
  rewrite hold_places, H2 by done. apply seq_and_next.
Qed.

(** A call of the pool that takes nothing out and puts nothing in. *)
Lemma pool_call_inv p w : links_inv w → pool_inv max_idle p → logs (pool w) p [] [] → links_inv (set_pool p w).
Proof.
  intros [H1 H2] Hp Hl. constructor; [done|]. rewrite <-H2. unfold places. cbn. pose proof (logs_conns _ _ _ _ _ H1 Hp Hl) as E.
  rewrite !app_nil_r in E. by rewrite E.
Qed.

Lemma follow_inv r w e : r < length (held w) → links_inv w → links_inv (follow o idle_timeout r w e).
Proof.
  intros Hr Hw. pose proof Hw as [H1 H2]. destruct e as [key| | |key|]; cbn [follow].
  - pose proof (take_logs key (pool w)) as Hl. pose proof (take_inv max_idle key (pool w) H1) as Hp.
    destruct (pool_take key (pool w)) as [found p]. cbn [fst snd] in *. constructor; [done|]. change (places (set_taken true ?w)) with (places w).
    rewrite hold_places by done.
    pose proof (logs_conns _ _ _ _ _ H1 Hp Hl) as E. rewrite app_nil_r in E. change (next_conn _) with (next_conn w). rewrite <-H2.
    unfold places. cbn [set_pool pool held gone]. rewrite <-E. solve_Permutation.
  - destruct (taken w); [by constructor|by apply fresh_conn_inv].
  - destruct (holder r w); [by constructor|by apply fresh_conn_inv].
  - pose proof (release_logs key (holder r w) max_idle idle_timeout (pool w)) as Hl.
    pose proof (release_inv max_idle idle_timeout key (holder r w) (pool w) H1) as Hp. constructor; [done|].
    pose proof (logs_conns _ _ _ _ _ H1 Hp Hl) as E. rewrite app_nil_r in E. pose proof (omap_id_insert _ _ _ None (holder_lookup r w Hr)) as E2.
    cbn [option_list] in E2. rewrite app_nil_r in E2. cbn [next_conn]. rewrite <-H2. unfold places. cbn [pool held gone]. rewrite E, <-E2. solve_Permutation.
  - destruct (holder r w); [|done]. by constructor.
Qed.

Lemma follow_all_inv r w es : r < length (held w) → links_inv w → links_inv (follow_all o idle_timeout r w es).
Proof.
  revert w. induction es as [|e es IH]; intros w Hr Hw; [done|]. cbn [follow_all foldl]. apply IH; [by rewrite length_follow|by apply follow_inv].
Qed.

Lemma length_follow_all r w es : length (held (follow_all o idle_timeout r w es)) = length (held w).
Proof. revert w. induction es as [|e es IH]; intros w; [done|]. cbn [follow_all foldl]. etransitivity; [apply IH|apply length_follow]. Qed.

Lemma new_holder_inv w : links_inv w → links_inv (new_holder w).
Proof. intros [H1 H2]. constructor; [done|]. rewrite <-H2. unfold places. cbn. rewrite omap_app. cbn. by rewrite app_nil_r. Qed.

Record client_inv (c : client) : Prop := {
  ci_links : links_inv (conns c);
  ci_held : length (held (conns c)) = length (requests c)
}.

Context (around : nat → surroundings) (tr : nat → transport) (calls : nat → list client_event → client_event → list client_cmd) (depth : nat).

Lemma add_request_inv q es c :
  client_inv c → client_inv (add_request q (follow_all o idle_timeout (length (requests c)) (new_holder (conns c)) es) c).
Proof.
  intros [H1 H2]. assert (Hlen : length (held (new_holder (conns c))) = S (length (requests c))) by (cbn; rewrite length_app, H2; cbn; lia). constructor; cbn.
  - apply follow_all_inv; [lia|by apply new_holder_inv].
  - rewrite length_follow_all, Hlen, length_app. cbn. lia.
Qed.

Lemma update_request_inv r q q' es c :
  requests c !! r = Some q → client_inv c → client_inv (update_request r q' (follow_all o idle_timeout r (conns c) es) c).
Proof.
  intros Hq%lookup_lt_Some [H1 H2]. constructor; cbn; [apply follow_all_inv; [lia|done]|]. by rewrite length_follow_all, length_insert.
Qed.

Lemma client_step_inv c i : client_inv c → client_inv (client_step o idle_timeout around tr calls depth c i).
Proof.
  intros Hc. destruct i as [m url_input|m setup url_input|r op|r op|entry|]; cbn [client_step].
  - by apply add_request_inv.
  - by apply add_request_inv.
  - unfold fetch_op. destruct (requests c !! r) as [[m s|]|] eqn:E; [|done..]. by eapply update_request_inv.
  - unfold stream_op. destruct (requests c !! r) as [[|m s]|] eqn:E; [done| |done]. by eapply update_request_inv.
  - destruct Hc as [H1 H2]. constructor; [|done]. apply pool_call_inv; [done| |apply timer_logs]. apply (run_pool_op_inv max_idle idle_timeout _ (po_timer entry)), H1.
  - destruct Hc as [H1 H2]. constructor; [|done]. apply pool_call_inv; [done| |apply close_all_logs]. apply (run_pool_op_inv max_idle idle_timeout _ po_close_all), H1.
Qed.

Lemma run_client_inv inputs : client_inv (run_client o idle_timeout around tr calls depth inputs).
Proof.
  unfold run_client. assert (H : client_inv new_client).
  { constructor; [|done]. constructor; [constructor; [by apply map_Forall_empty|constructor|by split]|done]. }
  revert H. generalize new_client. induction inputs as [|i inputs IH]; intros c H; cbn [foldl]; [done|]. by apply IH, client_step_inv.
Qed.
End conservation.

(** ** The stream of a buffered request and its connection *)

Inductive conn_state := at_stream (h : stream_handle) | just_taken.

(** What a buffered request may do with connections, after a history [h]. *)
Definition use_step (sr : surroundings) (h : list request_event) (st : conn_state) (e : request_event) : option conn_state :=
  match e, st with
  | re_take _, (at_stream open_stream | just_taken) => None
  | re_take key, at_stream _ => if sr_pooled sr h key then Some just_taken else None
  | re_write _, at_stream open_stream => None
  | re_write _, _ => Some (at_stream open_stream)
  | re_release _, at_stream open_stream => Some (at_stream no_stream)
  | re_close, at_stream open_stream => Some (at_stream closed_stream)
  | re_close, at_stream other => Some (at_stream other)
  | (re_release _ | re_close), _ => None
  | _, _ => Some st
  end.

Fixpoint use_run (sr : surroundings) (h : list request_event) (st : conn_state) (es : list request_event) : option conn_state :=
  match es with
  | [] => Some st
  | e :: es' => match use_step sr h st e with Some st' => use_run sr (h ++ [e]) st' es' | None => None end
  end.

Lemma use_run_app sr h st es es' :
  use_run sr h st (es ++ es') = match use_run sr h st es with Some st' => use_run sr (h ++ es) st' es' | None => None end.
Proof.
  revert h st. induction es as [|e es IH]; intros h st; cbn; [by rewrite app_nil_r|]. destruct (use_step sr h st e); [|done]. by rewrite IH, <-app_assoc.
Qed.

Definition goes (sr : surroundings) (st : conn_state) (s s' : request_state) (st' : conn_state) : Prop :=
  ∃ es, history s' = history s ++ es ∧ use_run sr (history s) st es = Some st'.

Lemma goes_trans sr st1 st2 st3 s1 s2 s3 : goes sr st1 s1 s2 st2 → goes sr st2 s2 s3 st3 → goes sr st1 s1 s3 st3.
Proof.
  intros (es & E1 & R1) (es' & E2 & R2). exists (es ++ es'). rewrite E2, E1, use_run_app, R1, app_assoc. by rewrite <-E1.
Qed.

Lemma goes_event sr st st' e s s' : history s' = history s ++ [e] → use_step sr (history s) st e = Some st' → goes sr st s s' st'.
Proof. intros E R. exists [e]. cbn. by rewrite R. Qed.

Lemma goes_same sr st s s' : history s' = history s → goes sr st s s' st.
Proof. intros E. exists []. by rewrite E, app_nil_r. Qed.

Section uses.
Context (o : client_options) (m : method) (sr : surroundings).
Notation keeps s s' := (goes sr (at_stream (stream s)) s s' (at_stream (stream s'))).
Notation apart s := (apart (view s)).
Notation hearing s := (stream s = open_stream).

Definition plain_event (e : request_event) : bool := match e with re_take _ | re_write _ | re_release _ | re_close => false | _ => true end.

Lemma happen_goes st e s s' : history s' = history s ++ [e] → plain_event e = true → goes sr st s s' st.
Proof. intros E H. eapply goes_event; [exact E|]. by destruct e, st as [[]|]. Qed.

Lemma happen_keeps e s : plain_event e = true → keeps s (happen e s).
Proof. intros H. by eapply happen_goes. Qed.

Lemma stop_goes st s : goes sr st s (stop_phase_timeout s) st.
Proof. unfold stop_phase_timeout. destruct (timer s); [by eapply happen_goes|by apply goes_same]. Qed.

Lemma start_timeout_goes st p d s : goes sr st s (start_phase_timeout p d s) st.
Proof.
  unfold start_phase_timeout. destruct (d <=? 0)%Z; [apply stop_goes|]. eapply goes_trans; [apply stop_goes|]. by eapply happen_goes.
Qed.

Lemma stop_stream s : stream (stop_phase_timeout s) = stream s.
Proof. unfold stop_phase_timeout. by destruct (timer s). Qed.

Lemma start_timeout_stream p d s : stream (start_phase_timeout p d s) = stream s.
Proof. unfold start_phase_timeout. destruct (d <=? 0)%Z; apply stop_stream. Qed.

Lemma complete_stream r s : stream (complete r s) = stream s.
Proof. unfold complete. destruct (completed s); [done|]. apply (stop_stream (set_outcome (Some r) s)). Qed.

Lemma complete_goes st r s : goes sr st s (complete r s) st.
Proof.
  unfold complete. destruct (completed s); [by apply goes_same|]. eapply goes_trans; [apply (goes_same _ _ _ (set_outcome (Some r) s)); done|].
  eapply goes_trans; [apply stop_goes|]. by eapply happen_goes.
Qed.

Lemma answer_keeps r s : keeps s (complete r s).
Proof. rewrite complete_stream. apply complete_goes. Qed.

Lemma write_failed_goes st message s : goes sr st s (write_failed message s) st.
Proof. unfold write_failed. eapply goes_trans; [|apply complete_goes]. by apply goes_same. Qed.

Lemma close_stream_keeps s : keeps s (close_stream sr s).
Proof.
  unfold close_stream. destruct (stream s) eqn:Es; try (by rewrite Es; apply goes_same). unfold close_open_stream.
  set (s1 := happen re_close (set_stream closed_stream s)). assert (H : goes sr (at_stream open_stream) s s1 (at_stream closed_stream)) by by eapply goes_event.
  destruct (writing s1); [|exact H]. destruct (sr_close sr (history s1)) as [message|]; [|exact H].
  assert (E : stream (write_failed message s1) = closed_stream) by (unfold write_failed; by rewrite complete_stream).
  rewrite E. eapply goes_trans; [exact H|apply write_failed_goes].
Qed.

Lemma failure_keeps e s : keeps s (fail sr e s).
Proof. unfold fail. eapply goes_trans; [apply close_stream_keeps|apply answer_keeps]. Qed.

Lemma take_stream_stream s : stream (take_stream o m s) = open_stream.
Proof. unfold take_stream, write_buffered_request. cbn [happen set_writing stream]. by rewrite start_timeout_stream. Qed.

Lemma take_stream_goes st s : st ≠ at_stream open_stream → goes sr st s (take_stream o m s) (at_stream open_stream).
Proof.
  intros Hst. unfold take_stream, write_buffered_request. set (s1 := set_reading _ _). eapply goes_trans; [by apply (goes_same _ _ _ s1)|].
  eapply goes_trans; [apply start_timeout_goes|]. eapply goes_event; [done|]. by destruct st as [[]|].
Qed.

Lemma take_stream_keeps s : stream s ≠ open_stream → keeps s (take_stream o m s).
Proof. intros H. rewrite take_stream_stream. apply take_stream_goes. congruence. Qed.

Lemma unless_cancelled_keeps p s : keeps s (p s) → keeps s (unless_cancelled p s).
Proof.
  intros H. unfold unless_cancelled. destruct (completed s); [by apply goes_same|]. destruct (cancelled s); [|done].
  destruct (timed_out s); [by apply goes_same|apply answer_keeps].
Qed.

Lemma on_resolved_keeps failure s : keeps s (on_resolved failure s).
Proof.
  apply unless_cancelled_keeps. destruct failure; [apply answer_keeps|]. cbn [happen set_waiting stream]. rewrite stop_stream.
  eapply goes_trans; [apply stop_goes|]. by eapply happen_goes.
Qed.

Lemma start_tls_keeps s : keeps s (start_tls o sr s).
Proof.
  unfold start_tls. destruct (sr_tls sr) as [[what|what]|]; [apply answer_keeps|rewrite complete_stream, start_timeout_stream|].
  { eapply goes_trans; [apply start_timeout_goes|apply complete_goes]. }
  cbn [happen set_waiting stream]. rewrite start_timeout_stream.
  eapply goes_trans; [apply start_timeout_goes|]. by eapply happen_goes.
Qed.

Lemma on_connected_keeps r s : stream s ≠ open_stream → keeps s (on_connected o m sr r s).
Proof.
  intros Hs. apply unless_cancelled_keeps. destruct r; [|apply answer_keeps..]. case_bool_decide; [apply start_tls_keeps|by apply take_stream_keeps].
Qed.

Lemma on_tls_connected_keeps r s : stream s ≠ open_stream → keeps s (on_tls_connected o m r s).
Proof.
  intros Hs. apply unless_cancelled_keeps. destruct r; [|apply answer_keeps]. destruct (_ && _); [|by apply take_stream_keeps].
  eapply goes_trans; [|apply answer_keeps]. eapply goes_event; [done|]. by destruct (stream s) eqn:E; cbn; rewrite ?E.
Qed.

Lemma cancel_step_keeps s : apart s → keeps s (cancel_step o m sr s).
Proof.
  intros Ha. unfold cancel_step. destruct (waiting s) as [step|] eqn:Ew; [|by apply goes_same]. destruct (ap_waiting _ Ha) as [Hs _]; [cbn; congruence|].
  destruct step.
  - apply (on_resolved_keeps _ (set_waiting None s)).
  - by apply (on_connected_keeps _ (set_waiting None s)).
  - by apply (on_tls_connected_keeps _ (set_waiting None s)).
Qed.

Lemma cancel_keeps s : apart s → keeps s (cancel o m sr s).
Proof.
  intros Ha. unfold cancel. destruct (completed s); [by apply goes_same|]. eapply goes_trans; [|apply failure_keeps].
  by apply (cancel_step_keeps (set_cancelled true (timed_out s) s)).
Qed.

Lemma on_timeout_keeps p s : apart s → keeps s (on_timeout o m sr p s).
Proof.
  intros Ha. unfold on_timeout. destruct (_ || _); [by apply goes_same|]. eapply goes_trans; [|apply failure_keeps].
  by apply (cancel_step_keeps (set_cancelled true true s)).
Qed.

Lemma select_same scheme endpoint s :
  let s' := (select_connect_endpoint o scheme endpoint s).1 in history s' = history s ∧ stream s' = stream s.
Proof. unfold select_connect_endpoint. by repeat case_match. Qed.

Lemma start_keeps parsed s : stream s ≠ open_stream → keeps s (start o m sr parsed s).
Proof.
  intros Hs. unfold start. destruct parsed as [target|]; [|apply answer_keeps]. set (s1 := happen (re_start (href target)) (set_url target s)).
  assert (H1 : keeps s s1) by by eapply happen_goes. assert (Hs1 : stream s1 = stream s) by done. clearbody s1.
  assert (Hc : ∀ r, keeps s (complete r s1)) by (intros r; eapply goes_trans; [exact H1|apply answer_keeps]).
  destruct (http_scheme target); [|apply Hc]. cbn [negb]. destruct (authority_endpoint target) as [e|]; [|apply Hc].
  destruct (select_same (scheme_id target) e s1) as [E1 E2]. destruct (select_connect_endpoint o (scheme_id target) e s1) as [s2 r]. cbn [fst] in *.
  assert (H2 : keeps s s2) by (rewrite E2; eapply goes_trans; [exact H1|by apply goes_same]).
  destruct r as [c|]; [|eapply goes_trans; [exact H2|apply answer_keeps]]. eapply goes_trans; [exact H2|]. rewrite Hs1 in E2.
  destruct (sr_pooled sr _ _) eqn:Ep.
  - rewrite take_stream_stream. eapply goes_trans; [|apply (take_stream_goes just_taken); done].
    eapply goes_event; [done|]. cbn. rewrite Ep. rewrite E2. by destruct (stream s).
  - rewrite start_timeout_stream. eapply goes_trans; [|apply start_timeout_goes]. by eapply happen_goes.
Qed.

(** ** Redirects and the response *)

Lemma release_stream_keeps s : hearing s → keeps s (release_stream s).
Proof.
  intros Hs. rewrite Hs. unfold release_stream. eapply goes_trans; [by apply (happen_goes _ re_read_stop _ (happen re_read_stop (set_stream no_stream s)))|].
  by eapply goes_event.
Qed.

Lemma close_or_release_keeps reusable after s : hearing s → keeps s (close_or_release_current o m sr reusable after s).
Proof.
  intros Hs. unfold close_or_release_current. set (s1 := stop_phase_timeout s).
  assert (Hs1 : stream s1 = open_stream) by (unfold s1; by rewrite stop_stream).
  assert (H1 : keeps s s1) by (rewrite Hs1, Hs; apply stop_goes). assert (Hh : has_stream s1 = true) by (unfold has_stream; by rewrite Hs1).
  clearbody s1. rewrite Hh, andb_true_r. eapply goes_trans; [exact H1|]. destruct reusable.
  - destruct after; [|by apply release_stream_keeps]. eapply goes_trans; [by apply release_stream_keeps|]. by apply start_keeps.
  - destruct after; [|apply close_stream_keeps]. cbn [set_closing stream]. eapply goes_trans; [apply close_stream_keeps|]. by apply goes_same.
Qed.

Lemma redirect_failed_keeps reusable e s : hearing s → keeps s (redirect_failed o m sr reusable e s).
Proof. intros Hs. unfold redirect_failed. eapply goes_trans; [by apply close_or_release_keeps|apply answer_keeps]. Qed.

Lemma follow_redirect_keeps response reusable s : hearing s → keeps s (follow_redirect o m sr response reusable s).
Proof.
  intros Hs. unfold follow_redirect. repeat (case_match; try (by apply redirect_failed_keeps)).
  by apply (close_or_release_keeps _ _ (set_redirects_followed (S (redirects_followed s)) (set_headers_complete false (set_received [] s)))).
Qed.

Lemma complete_buffered_keeps r reusable s : hearing s → keeps s (complete_buffered_response o m sr r reusable s).
Proof.
  intros Hs. unfold complete_buffered_response. destruct r as [response|[e|e]]; [|apply failure_keeps|by apply happen_keeps].
  destruct (should_follow_redirect o response); [by apply follow_redirect_keeps|].
  eapply goes_trans; [|apply answer_keeps]. destruct (_ && _); [by apply release_stream_keeps|apply close_stream_keeps].
Qed.

Lemma complete_head_keeps eof head body_offset s : hearing s → keeps s (complete_head o m sr eof head body_offset s).
Proof.
  intros Hs. unfold complete_head, complete_chunked, complete_sized. repeat case_match; try (by apply complete_buffered_keeps); try apply failure_keeps;
    try (by apply goes_same). by apply happen_keeps.
Qed.

Lemma try_complete_keeps eof s : hearing s → keeps s (try_complete_buffered_response o m sr eof s).
Proof.
  intros Hs. unfold try_complete_buffered_response.
  destruct (find_sub crlf2 _) as [n|]; [|destruct (_ <? _)%Z; [apply failure_keeps|destruct eof; [apply failure_keeps|by apply goes_same]]].
  destruct (_ <? _)%Z; [apply failure_keeps|]. set (s1 := enter_body o s).
  assert (E : stream s1 = stream s) by (unfold s1, enter_body; destruct (response_headers_complete s); [done|by rewrite start_timeout_stream]).
  assert (H : keeps s s1).
  { rewrite E. unfold s1, enter_body. destruct (response_headers_complete s); [by apply goes_same|]. eapply goes_trans; [|apply start_timeout_goes]. by apply goes_same. }
  eapply goes_trans; [exact H|]. rewrite <-E in Hs. destruct (parse_response_head _ _) as [[head offset]|[e|e]]; [|apply failure_keeps|by apply happen_keeps].
  by apply complete_head_keeps.
Qed.

Lemma feed_keeps s r : keeps s (feed o m sr s r).
Proof.
  unfold feed. destruct (reading s); [|by apply goes_same]. destruct (stream s) eqn:Hs; cbn [andb]; try (by rewrite Hs; apply goes_same). rewrite <-Hs.
  unfold on_read. destruct (completed s); [by apply goes_same|].
  destruct r as [bytes| |]; [|by apply try_complete_keeps|apply failure_keeps]. set (s1 := happen _ _).
  assert (H1 : keeps s s1) by by eapply happen_goes. eapply goes_trans; [exact H1|]. change (stream s) with (stream s1). by apply try_complete_keeps.
Qed.

Lemma feeds_keeps rs s : keeps s (foldl (feed o m sr) s rs).
Proof.
  revert s. induction rs as [|r rs IH]; intros s; [by apply goes_same|]. cbn [foldl]. eapply goes_trans; [apply feed_keeps|apply IH].
Qed.

Lemma on_written_keeps failure s : keeps s (on_written o m sr failure s).
Proof.
  unfold on_written. destruct failure as [message|].
  - unfold write_failed. apply (answer_keeps _ (set_writing false s)).
  - destruct (completed _); [by apply goes_same|]. rewrite start_timeout_stream. eapply goes_trans; [|apply start_timeout_goes].
    eapply goes_trans; [|apply feeds_keeps]. by eapply happen_goes.
Qed.

Lemma request_op_keeps op s : apart s → keeps s (run_request_op o m sr s op).
Proof.
  intros Ha. assert (Hwait : ∀ step, waiting s = Some step → stream s ≠ open_stream).
  { intros step E. apply (ap_waiting _ Ha). cbn. congruence. }
  destruct op as [failure|r|r|failure|r| | |]; cbn [run_request_op].
  - destruct (waiting s) as [[]|] eqn:E; try (by apply goes_same). apply (on_resolved_keeps _ (set_waiting None s)).
  - destruct (waiting s) as [[]|] eqn:E; try (by apply goes_same). apply (on_connected_keeps _ (set_waiting None s)). by eapply Hwait.
  - destruct (waiting s) as [[]|] eqn:E; try (by apply goes_same). apply (on_tls_connected_keeps _ (set_waiting None s)). by eapply Hwait.
  - destruct (writing s); [apply on_written_keeps|by apply goes_same].
  - apply feed_keeps.
  - destruct (closing s) as [target|] eqn:E; [|by apply goes_same]. apply (start_keeps _ (set_closing None s)). apply (ap_next _ Ha). cbn. congruence.
  - destruct (timer s); [by apply on_timeout_keeps|by apply goes_same].
  - by apply cancel_keeps.
Qed.
End uses.

(** ** Buffered requests that share a pool *)

Definition connected (r : nat) (w : links) (st : conn_state) : Prop :=
  match st with
  | at_stream no_stream => holder r w = None
  | at_stream open_stream | just_taken => ∃ conn, holder r w = Some conn ∧ conn ∉ shut_conns w
  | at_stream closed_stream => ∃ conn, holder r w = Some conn ∧ conn ∈ shut_conns w
  end.

Definition is_taken (st : conn_state) : bool := match st with just_taken => true | _ => false end.

(** What happens to the connections of other requests: nothing. *)
Definition others_keep (r : nat) (w w' : links) : Prop :=
  ∀ r', r' ≠ r → holder r' w' = holder r' w ∧ ∀ conn, holder r' w = Some conn → (conn ∈ shut_conns w' ↔ conn ∈ shut_conns w).

Lemma others_connected r w w' r' h : others_keep r w w' → r' ≠ r → connected r' w (at_stream h) → connected r' w' (at_stream h).
Proof.
  intros H Hr. destruct (H r' Hr) as [E1 E2]. destruct h; cbn; rewrite E1; [done|..]; intros (conn & Hc & Hin); exists conn; (split; [done|]); by rewrite E2.
Qed.

Lemma others_trans r w1 w2 w3 : others_keep r w1 w2 → others_keep r w2 w3 → others_keep r w1 w3.
Proof.
  intros H1 H2 r' Hr. destruct (H1 r' Hr) as [E1 E2], (H2 r' Hr) as [E3 E4]. split; [by rewrite E3|]. intros conn Hc.
  rewrite E4 by (by rewrite E1). by apply E2.
Qed.

Lemma holder_insert r r' x w w' : held w' = <[r := x]> (held w) → r < length (held w) → holder r' w' = if decide (r' = r) then x else holder r' w.
Proof.
  intros E Hr. unfold holder. rewrite E. case_decide; subst; [by rewrite list_lookup_insert_eq|by rewrite list_lookup_insert_ne].
Qed.

Lemma holder_held r conn w : holder r w = Some conn → conn ∈ omap id (held w).
Proof.
  unfold holder. destruct (held w !! r) as [x|] eqn:E; [|done]. cbn. intros ->. apply list_elem_of_omap. exists (Some conn). split; [|done].
  by eapply list_elem_of_lookup_2.
Qed.

Section shared_pool.
Context (o : client_options) (idle_timeout : Z).
Notation step := (follow o idle_timeout).
Notation steps := (follow_all o idle_timeout).

Record sound_links (w : links) : Prop := {
  sl_inv : links_inv o w;
  sl_pool : ∀ conn, conn ∈ pooled_conns (pool w) → conn ∉ shut_conns w;
  sl_shut : ∀ conn, conn ∈ shut_conns w → conn < next_conn w
}.

Lemma places_once w : links_inv o w → NoDup (places w).
Proof. intros [_ E]. rewrite E. apply NoDup_seq. Qed.

Lemma holder_not_pooled r conn w : links_inv o w → holder r w = Some conn → conn ∉ pooled_conns (pool w).
Proof.
  intros H%places_once Hh%holder_held Hp. unfold places in H. apply NoDup_app in H as (_ & H & _). apply (H conn Hp). apply elem_of_app. by left.
Qed.

(** No two requests hold the same connection. *)
Lemma omap_id_unique (l : list (option nat)) i j x : NoDup (omap id l) → l !! i = Some (Some x) → l !! j = Some (Some x) → i = j.
Proof.
  revert i j. assert (H : ∀ (l : list (option nat)) i, l !! i = Some (Some x) → x ∈ omap id l).
  { intros k i E. apply list_elem_of_omap. exists (Some x). split; [by eapply list_elem_of_lookup_2|done]. }
  induction l as [|y l IH]; intros i j Hn Hi Hj; [done|]. destruct i as [|i], j as [|j]; cbn in *; simplify_eq/=; [done|..].
  - apply NoDup_cons in Hn as [Hx _]. by apply H in Hj.
  - apply NoDup_cons in Hn as [Hx _]. by apply H in Hi.
  - f_equal. apply IH; [|done..]. destruct y; [by apply NoDup_cons in Hn as [_ ?]|done].
Qed.

Lemma holder_unique r r' conn w : links_inv o w → holder r w = Some conn → holder r' w = Some conn → r = r'.
Proof.
  intros H%places_once Hr Hr'. unfold places in H. apply NoDup_app in H as (_ & _ & H). apply NoDup_app in H as (H & _ & _). unfold holder in *.
  destruct (held w !! r) as [x|] eqn:E; [|done]. destruct (held w !! r') as [x'|] eqn:E'; [|done]. cbn in *. subst. by eapply omap_id_unique.
Qed.

Lemma holder_old r conn w : links_inv o w → holder r w = Some conn → conn < next_conn w.
Proof.
  intros [_ H] Hh%holder_held. assert (Hp : conn ∈ places w) by (unfold places; rewrite !elem_of_app; auto). rewrite H, elem_of_seq in Hp. lia.
Qed.

(** A step of the request [r] that agrees with what it may do. *)
Record follows_well (r : nat) (w w' : links) (st' : conn_state) : Prop := {
  fw_sound : sound_links w';
  fw_connected : connected r w' st';
  fw_taken : taken w' = is_taken st';
  fw_others : others_keep r w w'
}.

Lemma take_follows r w key :
  r < length (held w) → sound_links w → pool_has key (pool w) = true → follows_well r w (step r w (cv_take key)) just_taken.
Proof.
  intros Hr Hw Hk. pose proof (follow_inv o idle_timeout r w (cv_take key) Hr (sl_inv w Hw)) as Hi. unfold pool_has in Hk. cbn [follow] in *.
  pose proof (take_logs key (pool w)) as Hl. pose proof (take_inv (max_idle_connections_per_origin o) key (pool w) (li_pool _ _ (sl_inv w Hw))) as Hp.
  destruct (pool_take key (pool w)) as [[conn|] p]; [|done]. cbn [fst snd option_list] in *.
  pose proof (logs_conns _ _ _ _ _ (li_pool _ _ (sl_inv w Hw)) Hp Hl) as E. rewrite app_nil_r in E.
  assert (Hc : conn ∈ pooled_conns (pool w)) by (rewrite <-E; apply elem_of_app; right; apply list_elem_of_singleton; done).
  constructor; [constructor; [done| |exact (sl_shut w Hw)]|..].
  - intros c Hin. apply (sl_pool w Hw). rewrite <-E. apply elem_of_app. by left.
  - exists conn. split; [|by apply (sl_pool w Hw)]. rewrite (holder_insert r r (Some conn) w) by done. by rewrite decide_True.
  - done.
  - intros r' Hne. split; [|done]. rewrite (holder_insert r r' (Some conn) w) by done. by rewrite decide_False.
Qed.

Lemma open_follows r w st :
  r < length (held w) → sound_links w → connected r w st → taken w = is_taken st → st ≠ at_stream open_stream →
  follows_well r w (step r w cv_open) (at_stream open_stream).
Proof.
  intros Hr Hw Hc Ht Hst. pose proof (follow_inv o idle_timeout r w cv_open Hr (sl_inv w Hw)) as Hi. cbn [follow] in *. rewrite Ht in *.
  destruct st as [h|]; cbn [is_taken] in *.
  - constructor; [constructor; [done|exact (sl_pool w Hw)|]|..].
    + intros c Hin. cbn. apply (sl_shut w Hw) in Hin. lia.
    + exists (next_conn w). split; [by rewrite (holder_insert r r (Some (next_conn w)) w), decide_True|]. intros Hin%(sl_shut w Hw). lia.
    + done.
    + intros r' Hne. split; [|done]. by rewrite (holder_insert r r' (Some (next_conn w)) w), decide_False.
  - constructor; [constructor; [done|exact (sl_pool w Hw)|exact (sl_shut w Hw)]|done|done|]. by intros r' Hne.
Qed.

Lemma release_follows r w key :
  r < length (held w) → sound_links w → connected r w (at_stream open_stream) → taken w = false →
  follows_well r w (step r w (cv_release key)) (at_stream no_stream).
Proof.
  intros Hr Hw (conn & Hh & Hs) Ht. pose proof (follow_inv o idle_timeout r w (cv_release key) Hr (sl_inv w Hw)) as Hi. cbn [follow] in *. rewrite Hh in *.
  pose proof (release_logs key (Some conn) (max_idle_connections_per_origin o) idle_timeout (pool w)) as Hl.
  pose proof (logs_conns _ _ _ _ _ (li_pool _ _ (sl_inv w Hw)) (li_pool _ _ Hi) Hl) as E. rewrite app_nil_r in E. cbn [pool] in E.
  constructor; [constructor; [done| |exact (sl_shut w Hw)]|..].
  - intros c Hin. cbn [pool] in Hin. rewrite E in Hin. apply elem_of_app in Hin as [Hin|Hin]; [by apply (sl_pool w Hw)|].
    apply list_elem_of_singleton in Hin. by subst.
  - cbn [connected]. by rewrite (holder_insert r r None w), decide_True.
  - done.
  - intros r' Hne. split; [|done]. by rewrite (holder_insert r r' None w), decide_False.
Qed.

Lemma close_follows r w st :
  r < length (held w) → sound_links w → connected r w (at_stream st) → taken w = false →
  follows_well r w (step r w cv_close) (at_stream (match st with open_stream => closed_stream | other => other end)).
Proof.
  intros Hr Hw Hc Ht. pose proof (follow_inv o idle_timeout r w cv_close Hr (sl_inv w Hw)) as Hi. cbn [follow] in *.
  destruct (holder r w) as [conn|] eqn:Hh; cycle 1.
  { destruct st; cbn in Hc; [by constructor|by destruct Hc as (? & ? & _); congruence..]. }
  assert (Hshut : ∀ c, c ∈ shut_conns w ++ [conn] ↔ c ∈ shut_conns w ∨ c = conn) by (intros c; by rewrite elem_of_app, list_elem_of_singleton).
  constructor; [constructor; [done|..]|..].
  - intros c Hin. cbn [shut_conns pool] in *. rewrite Hshut. intros [Hs| ->]; [by apply (sl_pool w Hw) in Hin|]. by apply (holder_not_pooled r conn w (sl_inv w Hw)) in Hin.
  - intros c. cbn [shut_conns next_conn]. rewrite Hshut. intros [Hs| ->]; [by apply (sl_shut w Hw)|]. by apply (holder_old r conn w (sl_inv w Hw)).
  - destruct st; cbn in Hc; [congruence|..]; exists conn; (split; [done|]); cbn [shut_conns]; apply Hshut; auto.
  - cbn. by rewrite Ht.
  - intros r' Hne. split; [done|]. intros c Hc'. cbn [shut_conns]. rewrite Hshut. split; [|by left]. intros [?| ->]; [done|].
    exfalso. apply Hne. by apply (holder_unique r' r conn w (sl_inv w Hw)).
Qed.

Lemma event_follows sr h r w st e st' :
  r < length (held w) → sound_links w → connected r w st → taken w = is_taken st → (∀ key, sr_pooled sr h key = pool_has key (pool w)) →
  use_step sr h st e = Some st' → follows_well r w (foldl (step r) w (option_list (buffered_event e))) st'.
Proof.
  intros Hr Hw Hc Ht Hp Hu. assert (Hsame : st' = st → follows_well r w w st') by (intros ->; by constructor).
  destruct e; cbn [use_step buffered_event option_list foldl] in *; try (apply Hsame; by destruct st as [[]|]; simplify_eq).
  - assert (Hk : pool_has key (pool w) = true ∧ st' = just_taken) by (rewrite <-Hp; destruct st as [[]|], (sr_pooled sr h key); by simplify_eq).
    destruct Hk as [Hk ->]. by apply take_follows.
  - assert (Hk : st ≠ at_stream open_stream ∧ st' = at_stream open_stream) by (destruct st as [[]|]; by simplify_eq).
    destruct Hk as [Hk ->]. by apply open_follows with st.
  - destruct st as [st|]; [|done]. assert (st' = at_stream (match st with open_stream => closed_stream | other => other end)) as -> by (destruct st; by simplify_eq).
    by apply close_follows.
  - assert (Hk : st = at_stream open_stream ∧ st' = at_stream no_stream) by (destruct st as [[]|]; by simplify_eq).
    destruct Hk as [-> ->]. by apply release_follows.
Qed.

(** The events of a call of the request [r] that starts when the connections are
    [w0] and its history has [n] entries. *)
Lemma run_follows r w0 n sr h st es st' :
  let w := steps r w0 (omap buffered_event (drop n h)) in
  n ≤ length h → r < length (held w) → sound_links w → connected r w st → taken w = is_taken st →
  use_run (with_pool o idle_timeout r w0 n sr) h st es = Some st' → follows_well r w (steps r w (omap buffered_event es)) st'.
Proof.
  intros w. subst w. revert h st. induction es as [|e es IH]; intros h st Hn Hr Hw Hc Ht Hu; cbn [use_run] in Hu; [simplify_eq; by constructor|].
  destruct (use_step _ h st e) as [st1|] eqn:Es; [|done]. set (w := steps r w0 _) in *.
  assert (H1 : follows_well r w (foldl (step r) w (option_list (buffered_event e))) st1).
  { eapply event_follows; [done..| |exact Es]. done. }
  assert (E1 : steps r w0 (omap buffered_event (drop n (h ++ [e]))) = foldl (step r) w (option_list (buffered_event e))).
  { rewrite drop_app_le, omap_app by done. unfold follow_all. rewrite foldl_app. fold (steps r w0 (omap buffered_event (drop n h))). cbn. by destruct (buffered_event e). }
  assert (E2 : steps r w (omap buffered_event (e :: es)) = steps r (foldl (step r) w (option_list (buffered_event e))) (omap buffered_event es)).
  { cbn. by destruct (buffered_event e). }
  rewrite E2, <-E1 in *. destruct H1 as [S1 C1 T1 O1].
  destruct (IH (h ++ [e]) st1) as [S2 C2 T2 O2]; [rewrite length_app; lia| |done..|]. 
  - rewrite E1. destruct (buffered_event e); cbn; by rewrite ?length_follow.
  - constructor; try done. by eapply others_trans.
Qed.
End shared_pool.

Definition buffered_input (i : client_input) : bool := match i with ci_stream _ _ _ | ci_stream_op _ _ => false | _ => true end.

Section sharing.
Context (o : client_options) (idle_timeout : Z).
Context (around : nat → surroundings) (tr : nat → transport) (calls : nat → list client_event → client_event → list client_cmd) (depth : nat).
Notation steps := (follow_all o idle_timeout).
Notation pooling := (with_pool o idle_timeout).

Record request_linked (w : links) (r : nat) (q : any_request) : Prop := {
  rl_buffered : match q with fetched _ s => apart (view s) ∧ connected r w (at_stream (stream s)) | streamed _ _ => False end
}.

Record sharing (c : client) : Prop := {
  sh_links : sound_links o (conns c);
  sh_held : length (held (conns c)) = length (requests c);
  sh_taken : taken (conns c) = false;
  sh_requests : ∀ r q, requests c !! r = Some q → request_linked (conns c) r q
}.

(** A call of a request that keeps to what it may do. *)
Lemma call_follows r w s s' :
  r < length (held w) → sound_links o w → taken w = false → connected r w (at_stream (stream s)) →
  goes (pooling r w (length (history s)) (around r)) (at_stream (stream s)) s s' (at_stream (stream s')) →
  follows_well o r w (steps r w (omap buffered_event (drop (length (history s)) (history s')))) (at_stream (stream s')).
Proof.
  intros Hr Hw Ht Hc (es & E & Hu). rewrite E, drop_app_length.
  pose proof (run_follows o idle_timeout r w (length (history s)) (around r) (history s) (at_stream (stream s)) es (at_stream (stream s'))) as H.
  cbv zeta in H. rewrite drop_all in H. by apply H.
Qed.

Lemma linked_others r w w' r' q : others_keep r w w' → r' ≠ r → request_linked w r' q → request_linked w' r' q.
Proof. intros Ho Hr [H]. constructor. destruct q as [m s|]; [|done]. destruct H as [Ha Hc]. split; [done|]. by eapply others_connected. Qed.

Lemma start_apart m sr parsed : apart (view (ClientBuffered.start o m sr parsed new_request_state)).
Proof.
  destruct parsed as [target|e]; [|by constructor].
  eapply vsteps_invariant; [apply vstep_apart|by apply (start_steps o m sr target)|by constructor].
Qed.

Lemma fetch_sharing m url_input c : sharing c → sharing (fetch o idle_timeout around m url_input c).
Proof.
  intros [Hl Hh Ht Hq]. unfold fetch. set (r := length (requests c)). set (w := new_holder (conns c)).
  assert (Hr : r < length (held w)) by (cbn; rewrite length_app, Hh; cbn; lia).
  assert (Hnone : holder r w = None) by (unfold holder, w; cbn; rewrite lookup_app_r by lia; by rewrite Hh, Nat.sub_diag).
  assert (Hw : sound_links o w). { destruct Hl as [H1 H2 H3]. constructor; [by apply new_holder_inv|done|done]. }
  assert (Hold : ∀ r', r' < r → holder r' w = holder r' (conns c)) by (intros r' Hlt; unfold holder, w; cbn; rewrite lookup_app_l by lia; done).
  set (s := ClientBuffered.start o m (pooling r w 0 (around r)) (parse_url url_input) new_request_state).
  assert (Hs : follows_well o r w (steps r w (omap buffered_event (history s))) (at_stream (stream s))).
  { pose proof (call_follows r w new_request_state s Hr Hw Ht Hnone) as H. cbn [length history new_request_state drop] in H. apply H. by apply start_keeps. }
  destruct Hs as [S C T O]. constructor; cbn [add_request conns requests].
  - exact S.
  - rewrite length_follow_all. cbn. rewrite !length_app. cbn. lia.
  - exact T.
  - intros r' q Hq'. destruct (decide (r' = r)) as [->|Hne].
    + unfold r in Hq'. rewrite lookup_app_r, Nat.sub_diag in Hq' by lia. cbn in Hq'. simplify_eq. constructor. split; [apply start_apart|exact C].
    + assert (Hlt : r' < r) by (apply lookup_lt_Some in Hq'; rewrite length_app in Hq'; cbn in Hq'; lia).
      rewrite lookup_app_l in Hq' by exact Hlt. apply (linked_others r w); [done|done|]. destruct (Hq r' q Hq') as [H]. constructor.
      destruct q as [m' s'|]; [|done]. destruct H as [Ha Hc]. split; [done|]. unfold connected in *. by rewrite Hold.
Qed.

Lemma fetch_op_sharing r op c : sharing c → sharing (fetch_op o idle_timeout around r op c).
Proof.
  intros Hc. pose proof Hc as [Hl Hh Ht Hq]. unfold fetch_op. destruct (requests c !! r) as [[m s|]|] eqn:E; [|done..].
  destruct (Hq r _ E) as [[Ha Hconn]]. assert (Hr : r < length (held (conns c))) by (apply lookup_lt_Some in E; lia).
  set (sr := pooling r (conns c) (length (history s)) (around r)). set (s' := run_request_op o m sr s op).
  destruct (call_follows r (conns c) s s' Hr Hl Ht Hconn (request_op_keeps o m sr op s Ha)) as [S C T O].
  constructor; cbn [update_request conns requests].
  - exact S.
  - by rewrite length_follow_all, length_insert.
  - exact T.
  - intros r' q Hq'. destruct (decide (r' = r)) as [->|Hne].
    + rewrite list_lookup_insert_eq in Hq' by (by apply lookup_lt_Some in E). simplify_eq. constructor. split; [|exact C].
      eapply vsteps_apart; [by apply request_op_steps|done].
    + rewrite list_lookup_insert_ne in Hq' by done. by apply (linked_others r (conns c)), Hq.
Qed.

Lemma on_pool_sharing f c :
  pool_inv (max_idle_connections_per_origin o) (f (pool (conns c))) → logs (pool (conns c)) (f (pool (conns c))) [] [] → sharing c → sharing (on_pool f c).
Proof.
  intros Hp Hlog [Hl Hh Ht Hq]. pose proof (logs_conns _ _ _ _ _ (li_pool _ _ (sl_inv _ _ Hl)) Hp Hlog) as E. rewrite !app_nil_r in E. constructor; [|done|done|].
  - destruct Hl as [H1 H2 H3]. constructor; [by apply pool_call_inv| |done]. intros conn. cbn. rewrite E. apply H2.
  - intros r q H. destruct (Hq r q H) as [H']. by constructor.
Qed.

Lemma client_step_sharing c i : buffered_input i = true → sharing c → sharing (client_step o idle_timeout around tr calls depth c i).
Proof.
  intros Hi Hc. pose proof (li_pool _ _ (sl_inv _ _ (sh_links c Hc))) as Hp. destruct i as [m url_input| |r op| |entry|]; try done; cbn [client_step].
  - by apply fetch_sharing.
  - by apply fetch_op_sharing.
  - apply on_pool_sharing; [|apply timer_logs|done]. by apply (run_pool_op_inv _ idle_timeout _ (po_timer entry)).
  - apply on_pool_sharing; [|apply close_all_logs|done]. by apply (run_pool_op_inv _ idle_timeout _ po_close_all).
Qed.

Lemma run_client_sharing inputs : forallb buffered_input inputs = true → sharing (run_client o idle_timeout around tr calls depth inputs).
Proof.
  unfold run_client. assert (H : sharing new_client).
  { constructor; [|done..]. constructor; [apply (ci_links o new_client), (run_client_inv o idle_timeout around tr calls depth [])| |]; intros conn Hin; by apply elem_of_nil in Hin. }
  revert H. generalize new_client. induction inputs as [|i inputs IH]; intros c H Hi; cbn [foldl]; [done|]. apply andb_true_iff in Hi as [H1 H2].
  apply IH; [|done]. by apply client_step_sharing.
Qed.
End sharing.

(** ** The theorem *)

(** C40: A connection of a client is at every moment in exactly one place: idle in
    the pool, closed by the pool, held by one request, or given up by all.  When
    the client makes buffered requests only, the open stream of a request is a
    connection of its own, which neither a request nor the pool has closed, and
    what is idle in the pool was not closed by a request. *)
Theorem client_connections (o : client_options) (idle_timeout : Z) around tr calls (depth : nat) (inputs : list client_input) :
  let c := run_client o idle_timeout around tr calls depth inputs in
  let w := conns c in
  places w ≡ₚ List.seq 0 (next_conn w) ∧
  (forallb buffered_input inputs = true →
    (∀ r m s, requests c !! r = Some (fetched m s) → stream s = open_stream →
      ∃ conn, holder r w = Some conn ∧ conn ∉ shut_conns w ∧ conn ∉ pooled_conns (pool w) ∧ ∀ r', holder r' w = Some conn → r' = r) ∧
    (∀ conn, conn ∈ pooled_conns (pool w) → conn ∉ shut_conns w)).
Proof.
  intros c w. split; [apply (li_places o w), run_client_inv|]. intros Hi.
  destruct (run_client_sharing o idle_timeout around tr calls depth inputs Hi) as [Hl Hh Ht Hq]. fold c w in Hl, Hh, Ht, Hq.
  split; [|apply (sl_pool o w Hl)]. intros r m s Hr Hs. destruct (Hq r _ Hr) as [[_ Hc]]. rewrite Hs in Hc. destruct Hc as (conn & H1 & H2).
  exists conn. split_and!; [done|done|by eapply holder_not_pooled, H1; apply Hl|]. intros r' Hr'. eapply holder_unique; [apply Hl|done|done].
Qed.

(** ** Runs *)

Definition sharing_options : client_options := ClientOptions 65536 1000 8 1 2 0 0 0 0 0 true (ProxyOptions [] []).
Definition quiet_around (r : nat) : surroundings := Surroundings (λ _ _, false) (λ _, None) (λ _, []) None.
Notation run_sharing calls inputs := (run_client sharing_options 0 quiet_around (λ _, patient_transport) calls 2 inputs).

(** A whole request: a connection of its own, or one of the pool. *)
Definition connect_ops : list request_op := [ro_resolved None; ro_connected connect_ok].
Definition answer_ops : list request_op := [ro_written None; ro_read (read_bytes (lit "HTTP/1.1 204 No Content" ++ crlf2))].

(** Two requests one after the other, while a third is under way: the second takes
    the connection of the first. *)
Definition three_requests : list client_input :=
  [ci_fetch m_get (lit "http://a/1"); ci_fetch m_get (lit "http://a/2")] ++ map (ci_fetch_op 0) (connect_ops ++ answer_ops) ++
  map (ci_fetch_op 1) connect_ops ++ [ci_fetch m_get (lit "http://a/3")].

Definition open_requests (c : client) : list bool :=
  map (λ q, match q with fetched _ s => match stream s with open_stream => true | _ => false end | _ => false end) (requests c).

Lemma client_connections_witness :
  let c := run_sharing (λ _ _ _, []) three_requests in
  forallb buffered_input three_requests = true ∧ open_requests c = [false; true; true] ∧ held (conns c) = [None; Some 1; Some 0] ∧
  places (conns c) ≡ₚ [0; 1] ∧ 0 ∉ pooled_conns (pool (conns c)).
Proof.
  pose proof (client_connections sharing_options 0 quiet_around (λ _, patient_transport) (λ _ _ _, []) 2 three_requests) as [H1 H2].
  specialize (H2 eq_refl) as [H2 _]. cbv zeta.
  assert (Hh : held (conns (run_sharing (λ _ _ _, []) three_requests)) = [None; Some 1; Some 0]) by (vm_compute; reflexivity).
  assert (Hn : next_conn (conns (run_sharing (λ _ _ _, []) three_requests)) = 2) by (vm_compute; reflexivity).
  assert (Ho : open_requests (run_sharing (λ _ _ _, []) three_requests) = [false; true; true]) by (vm_compute; reflexivity).
  revert H1 H2 Hh Hn Ho. generalize (run_sharing (λ _ _ _, []) three_requests). intros c H1 H2 Hh Hn Ho.
  split; [reflexivity|]. split; [exact Ho|]. split; [exact Hh|]. rewrite Hn in H1. split; [exact H1|].
  unfold open_requests in Ho. destruct (requests c) as [|q0 [|q1 [|q2 [|]]]] eqn:E; try discriminate Ho. cbn in Ho.
  destruct q2 as [m s|]; [|discriminate Ho]. destruct (stream s) eqn:Es; try discriminate Ho.
  destruct (H2 2 m s ltac:(reflexivity) Es) as (conn & Hc & _ & Hp & _). unfold holder in Hc. rewrite Hh in Hc. injection Hc as <-. exact Hp.
Defined.

(** A streaming request that is cancelled by the callback of the response head
    closes its connection and puts it into the pool; a buffered request takes it
    out again and writes on it. *)
Definition cancelled_stream : list client_input :=
  [ci_stream m_head example_hooks (lit "http://a/1")] ++ map (ci_stream_op 0) (example_connect ++
    [op_written None; op_read (read_bytes (response_lines ["HTTP/1.1 200 OK"]))]) ++
  [ci_fetch m_get (lit "http://a/2")].

Example closed_connection_is_reused :
  let c := run_sharing (λ _, cancel_on_headers) cancelled_stream in
  held (conns c) = [None; Some 0] ∧ shut_conns (conns c) = [0] ∧ next_conn (conns c) = 1 ∧ open_requests c = [false; true].
Proof. vm_compute. split_and!; reflexivity. Qed.
