(* ===== verification/Dns.v ===== *)
(** * Resolving names

    [src/dns.cpp]: queries, errors, the addresses that are kept of a result, and
    the state of a resolution.  What [uv::getaddrinfo] reports is an input. *)

From S2P Require Import Prelude Text.

Open Scope Z_scope.

Inductive address_family := family_any | family_ipv4 | family_ipv6.

#[global] Instance address_family_eq_dec : EqDecision address_family.
Proof. solve_decision. Defined.

Inductive dns_errc :=
| dns_invalid_query | dns_unsupported_address_family | dns_name_not_found | dns_temporary_failure | dns_no_usable_addresses | dns_cancelled
| dns_system_failure.

Definition dns_message (value : dns_errc) : str :=
  lit match value with
      | dns_invalid_query => "DNS query is invalid"
      | dns_unsupported_address_family => "DNS address family is unsupported"
      | dns_name_not_found => "DNS name was not found"
      | dns_temporary_failure => "temporary DNS resolution failure"
      | dns_no_usable_addresses => "DNS returned no usable addresses"
      | dns_cancelled => "DNS resolution was cancelled"
      | dns_system_failure => "DNS resolution failed"
      end.

Record dns_error := DnsError { dns_code : dns_errc; dns_detail : str }.

Definition make_dns_error (code : dns_errc) (detail : str) : dns_error := DnsError code detail.

(** The statuses of libuv that are told apart. *)
Inductive uv_status := uv_ecanceled | uv_eai_noname | uv_eai_again | uv_other_status (status : Z).

Definition map_uv_error (status : uv_status) : dns_errc :=
  match status with
  | uv_ecanceled => dns_cancelled
  | uv_eai_noname => dns_name_not_found
  | uv_eai_again => dns_temporary_failure
  | uv_other_status _ => dns_system_failure
  end.

(** [AF_UNSPEC], [AF_INET], [AF_INET6] and other native families. *)
Inductive native_family := af_unspec | af_inet | af_inet6 | af_other (value : Z).

Definition to_native_family (family : address_family) : native_family :=
  match family with family_any => af_unspec | family_ipv4 => af_inet | family_ipv6 => af_inet6 end.

Definition from_native_family (family : native_family) : address_family :=
  match family with af_inet => family_ipv4 | af_inet6 => family_ipv6 | _ => family_any end.

Record tcp_endpoint := TcpEndpoint { endpoint_host : str; endpoint_port : N }.
Record address := Address { address_family_of : address_family; address_endpoint : tcp_endpoint }.

(** An entry of the result: its family, whether its address is an IP address,
    its text and port. *)
Record native_entry := NativeEntry { entry_family : native_family; entry_is_ip : bool; entry_host : str; entry_port : N }.

Definition copy_addresses (entries : list native_entry) : list address :=
  flat_map (λ e, if entry_is_ip e then [Address (from_native_family (entry_family e)) (TcpEndpoint (entry_host e) (entry_port e))] else []) entries.

(** ** Queries *)

Record query := Query { query_host : str; query_service : str; query_family : address_family }.

Definition new_query : query := Query [] [] family_any.
Definition set_query_host (value : str) (q : query) : query := Query value (query_service q) (query_family q).
Definition set_query_service (value : str) (q : query) : query := Query (query_host q) value (query_family q).
Definition set_query_port (value : N) (q : query) : query := set_query_service (to_string value) q.
Definition set_query_family (value : address_family) (q : query) : query := Query (query_host q) (query_service q) value.

(** ** A resolution *)

(** What the request reports. *)
Inductive lookup_result := lookup_ok (entries : list native_entry) | lookup_failed (status : uv_status) (message : str).

Inductive resolve_event := rv_lookup (host service : str) (family : native_family) | rv_try_cancel | rv_done (r : result dns_error (list address)).

Record resolve_state := ResolveState {
  rs_callback : bool;
  rs_cancelled : bool;
  rs_outcome : option (result dns_error (list address));
  rs_waiting : bool;
  rs_history : list resolve_event
}.

Definition new_resolution (callback : bool) : resolve_state := ResolveState callback false None false [].

Definition resolve_complete (r : result dns_error (list address)) (s : resolve_state) : resolve_state :=
  match rs_outcome s with
  | Some _ => s
  | None => ResolveState false (rs_cancelled s) (Some r) (rs_waiting s) (rs_history s ++ if rs_callback s then [rv_done r] else [])
  end.

Definition resolve_start (request : query) (s : resolve_state) : resolve_state :=
  if negb (rs_callback s) then resolve_complete (Err (make_dns_error dns_invalid_query (lit "missing DNS callback"))) s
  else if str_eqb (query_host request) [] || str_eqb (query_service request) [] then
    resolve_complete (Err (make_dns_error dns_invalid_query (lit "DNS host and service are required"))) s
  else
    ResolveState (rs_callback s) (rs_cancelled s) (rs_outcome s) true
      (rs_history s ++ [rv_lookup (query_host request) (query_service request) (to_native_family (query_family request))]).

Definition resolve_cancel (s : resolve_state) : resolve_state :=
  match rs_outcome s with
  | Some _ => s
  | None =>
    resolve_complete (Err (make_dns_error dns_cancelled []))
      (ResolveState (rs_callback s) true None (rs_waiting s) (rs_history s ++ [rv_try_cancel]))
  end.

Definition resolve_on_resolved (r : lookup_result) (s : resolve_state) : resolve_state :=
  match rs_outcome s with
  | Some _ => s
  | None =>
    if rs_cancelled s then resolve_complete (Err (make_dns_error dns_cancelled [])) s
    else
      match r with
      | lookup_failed status message => resolve_complete (Err (make_dns_error (map_uv_error status) message)) s
      | lookup_ok entries =>
        match copy_addresses entries with
        | [] => resolve_complete (Err (make_dns_error dns_no_usable_addresses [])) s
        | addresses => resolve_complete (Ok addresses) s
        end
      end
  end.

Inductive resolve_op := ro_reported (r : lookup_result) | ro_cancelled.

(** The request reports once. *)
Definition run_resolve_op (s : resolve_state) (op : resolve_op) : resolve_state :=
  match op with
  | ro_reported r =>
    if rs_waiting s then resolve_on_resolved r (ResolveState (rs_callback s) (rs_cancelled s) (rs_outcome s) false (rs_history s)) else s
  | ro_cancelled => resolve_cancel s
  end.

Definition run_resolve (request : query) (ops : list resolve_op) : resolve_state :=
  foldl run_resolve_op (resolve_start request (new_resolution true)) ops.

(** ** What a resolution ends with *)

(** The answer to a report. *)
Definition lookup_answer (r : lookup_result) : result dns_error (list address) :=
  match r with
  | lookup_failed status message => Err (DnsError (map_uv_error status) message)
  | lookup_ok entries => match copy_addresses entries with [] => Err (DnsError dns_no_usable_addresses []) | l => Ok l end
  end.

(** The outcome that the operations have by themselves: the first one decides. *)
Definition expected_outcome (request : query) (ops : list resolve_op) : option (result dns_error (list address)) :=
  if str_eqb (query_host request) [] || str_eqb (query_service request) [] then
    Some (Err (DnsError dns_invalid_query (lit "DNS host and service are required")))
  else
    match ops with
    | [] => None
    | ro_reported r :: _ => Some (lookup_answer r)
    | ro_cancelled :: _ => Some (Err (DnsError dns_cancelled []))
    end.

Definition told_results (h : list resolve_event) : list (result dns_error (list address)) :=
  omap (λ e, match e with rv_done r => Some r | _ => None end) h.

Lemma resolved_stays s op r :
  rs_outcome s = Some r → rs_outcome (run_resolve_op s op) = Some r ∧ rs_history (run_resolve_op s op) = rs_history s.
Proof.
  intros H. destruct op as [l|]; cbn [run_resolve_op].
  - unfold resolve_on_resolved. destruct (rs_waiting s); [cbn; by rewrite H|done].
  - unfold resolve_cancel. by rewrite H.
Qed.

Lemma resolved_run_stays ops s r :
  rs_outcome s = Some r → rs_outcome (foldl run_resolve_op s ops) = Some r ∧ rs_history (foldl run_resolve_op s ops) = rs_history s.
Proof.
  revert s. induction ops as [|op ops IH]; intros s H; [done|]. cbn [foldl]. destruct (resolved_stays s op r H) as [H1 H2].
  destruct (IH _ H1) as [H3 H4]. by rewrite H4.
Qed.

(** A resolution ends with the first of a report and a cancellation, and tells
    its callback just once; of a result it keeps the IP addresses in order. *)
Theorem resolve_outcome (request : query) (ops : list resolve_op) :
  let s := run_resolve request ops in
  rs_outcome s = expected_outcome request ops ∧ told_results (rs_history s) = option_list (expected_outcome request ops).
Proof.
  unfold run_resolve, expected_outcome, resolve_start. cbn [new_resolution rs_callback negb]. destruct (_ || _).
  - set (s0 := resolve_complete _ _). destruct (resolved_run_stays ops s0 (Err (DnsError dns_invalid_query (lit "DNS host and service are required"))) eq_refl) as [-> ->].
    done.
  - destruct ops as [|op ops]; [done|]. cbn [foldl]. set (s0 := ResolveState _ _ _ _ _).
    assert (H : ∃ r, rs_outcome (run_resolve_op s0 op) = Some r ∧ told_results (rs_history (run_resolve_op s0 op)) = [r] ∧
      r = match op with ro_reported l => lookup_answer l | ro_cancelled => Err (DnsError dns_cancelled []) end).
    { destruct op as [l|]; [|by eexists]. exists (lookup_answer l). cbn. unfold resolve_on_resolved, lookup_answer. cbn.
      destruct l as [entries|]; [|by split_and!]. destruct (copy_addresses entries); by split_and!. }
    destruct H as (r & H1 & H2 & H3). destruct (resolved_run_stays ops _ r H1) as [-> ->]. rewrite H2, H3. by destruct op.
Qed.

(** The families survive the way to the system and back. *)
Lemma native_family_roundtrip family : from_native_family (to_native_family family) = family.
Proof. by destruct family. Qed.
