(* ===== verification/TcpConnect.v ===== *)
(** * Connecting

    [tcp_connect_state] of [src/io/transport.cpp]: the addresses of a list are
    tried one after the other.  The sockets are numbered in the order in which
    they are made; [throws] says what [connect] throws for a candidate. *)

From S2P Require Import Prelude Text Dns.

Open Scope nat_scope.

Inductive connect_errc := no_addresses | connect_cancelled | connect_failed | connect_timeout.

Definition connect_errc_message (value : connect_errc) : str :=
  lit match value with
      | no_addresses => "no TCP addresses to connect"
      | connect_cancelled => "TCP connect was cancelled"
      | connect_failed => "TCP connect failed"
      | connect_timeout => "TCP connect timed out"
      end.

Record connect_error := ConnectError { connect_code : connect_errc; connect_detail : str }.

Record connect_candidate := Candidate { candidate_family : address_family; candidate_endpoint : tcp_endpoint }.

Definition infer_family (endpoint : tcp_endpoint) : address_family :=
  match find_char ":" (endpoint_host endpoint) with None => family_ipv4 | Some _ => family_ipv6 end.

Definition endpoint_candidates (endpoint : tcp_endpoint) : list connect_candidate := [Candidate (infer_family endpoint) endpoint].
Definition address_candidates (addresses : list address) : list connect_candidate :=
  map (λ a, Candidate (address_family_of a) (address_endpoint a)) addresses.

Inductive tcp_event :=
| tv_timer_start (timeout : Z) | tv_timer_close
| tv_connect (socket : nat) (ipv6 : bool) (endpoint : tcp_endpoint)
| tv_close (socket : nat)
| tv_done (r : result connect_error nat).

(** [closing]: the sockets being closed, and whether the next candidate waits for
    it; [pending]: the socket whose connect request has to report. *)
Record tcp_connect_state := TcpConnect {
  callback : bool;
  tcp : option nat;
  closing : list (nat * bool);
  timer : bool;
  next : nat;
  last_error : str;
  cancelled : bool;
  outcome : option (result connect_error nat);
  pending : option nat;
  history : list tcp_event
}.

Definition set_callback x s := TcpConnect x (tcp s) (closing s) (timer s) (next s) (last_error s) (cancelled s) (outcome s) (pending s) (history s).
Definition set_tcp x s := TcpConnect (callback s) x (closing s) (timer s) (next s) (last_error s) (cancelled s) (outcome s) (pending s) (history s).
Definition set_closing x s := TcpConnect (callback s) (tcp s) x (timer s) (next s) (last_error s) (cancelled s) (outcome s) (pending s) (history s).
Definition set_timer x s := TcpConnect (callback s) (tcp s) (closing s) x (next s) (last_error s) (cancelled s) (outcome s) (pending s) (history s).
Definition set_next x s := TcpConnect (callback s) (tcp s) (closing s) (timer s) x (last_error s) (cancelled s) (outcome s) (pending s) (history s).
Definition set_last_error x s := TcpConnect (callback s) (tcp s) (closing s) (timer s) (next s) x (cancelled s) (outcome s) (pending s) (history s).
Definition set_cancelled x s := TcpConnect (callback s) (tcp s) (closing s) (timer s) (next s) (last_error s) x (outcome s) (pending s) (history s).
Definition set_outcome x s := TcpConnect (callback s) (tcp s) (closing s) (timer s) (next s) (last_error s) (cancelled s) x (pending s) (history s).
Definition set_pending x s := TcpConnect (callback s) (tcp s) (closing s) (timer s) (next s) (last_error s) (cancelled s) (outcome s) x (history s).
Definition happen e s := TcpConnect (callback s) (tcp s) (closing s) (timer s) (next s) (last_error s) (cancelled s) (outcome s) (pending s) (history s ++ [e]).

Definition new_connect (callback : bool) : tcp_connect_state := TcpConnect callback None [] false 0 [] false None None [].

Definition completed (s : tcp_connect_state) : bool := match outcome s with Some _ => true | None => false end.

Section operations.
Context (candidates : list connect_candidate) (timeout : Z) (throws : nat → option str).

Definition make_connect_error (code : connect_errc) (detail : str) : result connect_error nat := Err (ConnectError code detail).

Definition close_timeout_timer (s : tcp_connect_state) : tcp_connect_state :=
  if timer s then happen tv_timer_close (set_timer false s) else s.

Definition complete (r : result connect_error nat) (s : tcp_connect_state) : tcp_connect_state :=
  if completed s then s
  else
    let s := close_timeout_timer (set_outcome (Some r) s) in
    if callback s then happen (tv_done r) (set_callback false s) else set_callback false s.

Definition close_current (s : tcp_connect_state) : tcp_connect_state :=
  match tcp s with
  | None => s
  | Some socket => happen (tv_close socket) (set_closing (closing s ++ [(socket, false)]) (set_tcp None s))
  end.

(** [continue] is [connect_next]. *)
Definition close_current_then_next (continue : tcp_connect_state → tcp_connect_state) (s : tcp_connect_state) : tcp_connect_state :=
  match tcp s with
  | None => continue s
  | Some socket => happen (tv_close socket) (set_closing (closing s ++ [(socket, true)]) (set_tcp None s))
  end.

(** Where [connect] throws there is a socket, so that nothing is continued at
    once. *)
Definition connect_next (s : tcp_connect_state) : tcp_connect_state :=
  if completed s then s
  else
    match candidates !! next s with
    | None => complete (make_connect_error connect_failed (last_error s)) s
    | Some candidate =>
      let socket := next s in
      let s := set_tcp (Some socket) (set_next (S socket) s) in
      match throws socket with
      | Some e => close_current_then_next (λ s, s) (set_last_error e s)
      | None => happen (tv_connect socket (bool_decide (candidate_family candidate = family_ipv6)) (candidate_endpoint candidate)) (set_pending (Some socket) s)
      end
    end.

Definition start_timeout (s : tcp_connect_state) : tcp_connect_state :=
  if (timeout <=? 0)%Z then s else happen (tv_timer_start timeout) (set_timer true s).

Definition start (s : tcp_connect_state) : tcp_connect_state :=
  if negb (callback s) then complete (make_connect_error connect_failed (lit "missing TCP connect callback")) s
  else if bool_decide (candidates = []) then complete (make_connect_error no_addresses []) s
  else connect_next (start_timeout s).

Definition abandon (code : connect_errc) (s : tcp_connect_state) : tcp_connect_state :=
  if completed s then s else complete (make_connect_error code []) (close_current (set_cancelled true s)).

Definition cancel : tcp_connect_state → tcp_connect_state := abandon connect_cancelled.
Definition on_timeout : tcp_connect_state → tcp_connect_state := abandon connect_timeout.

(** [failure]: the message of the error, if the request failed. *)
Definition on_connected (failure : option str) (s : tcp_connect_state) : tcp_connect_state :=
  if completed s then s
  else if cancelled s then complete (make_connect_error connect_cancelled []) (close_current s)
  else
    match failure, tcp s with
    | Some e, _ => close_current_then_next connect_next (set_last_error e s)
    | None, Some socket => complete (Ok socket) (set_tcp None s)
    | None, None => s
    end.

Definition erase_closing (socket : nat) (l : list (nat * bool)) : list (nat * bool) := List.filter (λ c, negb (Nat.eqb c.1 socket)) l.

(** The socket was closed. *)
Definition on_closed (socket : nat) (s : tcp_connect_state) : tcp_connect_state :=
  match List.find (λ c, Nat.eqb c.1 socket) (closing s) with
  | None => s
  | Some (_, then_next) =>
    let s := set_closing (erase_closing socket (closing s)) s in if then_next then connect_next s else s
  end.

Inductive tcp_op := to_connected (failure : option str) | to_closed (socket : nat) | to_timeout | to_cancel.

(** The connect request of a socket reports once. *)
Definition run_tcp_op (s : tcp_connect_state) (op : tcp_op) : tcp_connect_state :=
  match op with
  | to_connected failure => match pending s with Some _ => on_connected failure (set_pending None s) | None => s end
  | to_closed socket => on_closed socket s
  | to_timeout => if timer s && negb (completed s) then on_timeout s else s
  | to_cancel => cancel s
  end.

Definition run_connect (ops : list tcp_op) : tcp_connect_state := foldl run_tcp_op (start (new_connect true)) ops.
End operations.

(** * What connecting promises

    Every socket is closed or handed over, just once; the addresses are tried in
    order until one accepts. *)

Open Scope nat_scope.


Section invariant.
Context (candidates : list connect_candidate) (timeout : Z) (throws : nat → option str).





















End invariant.

(** ** The first address that accepts *)

(** What each address does: [None] accepts, [Some e] fails with [e]. *)
Fixpoint first_accepting (i : nat) (outcomes : list (option str)) (last : str) : result connect_error nat :=
  match outcomes with
  | [] => Err (ConnectError connect_failed last)
  | None :: _ => Ok i
  | Some e :: rest => first_accepting (S i) rest e
  end.

(** The reports that come of it; a socket that failed is closed before the next
    is made. *)
Fixpoint reports (throws : nat → option str) (i : nat) (outcomes : list (option str)) : list tcp_op :=
  match outcomes with
  | [] => []
  | None :: _ => [to_connected None]
  | Some e :: rest => (match throws i with Some _ => [] | None => [to_connected (Some e)] end) ++ [to_closed i] ++ reports throws (S i) rest
  end.

Section in_order.
Context (candidates : list connect_candidate) (throws : nat → option str).

(** A state in which the next address is about to be tried. *)
Definition before_next (i : nat) (last : str) (s : tcp_connect_state) : Prop :=
  outcome s = None ∧ next s = i ∧ closing s = [] ∧ cancelled s = false ∧ pending s = None ∧ last_error s = last ∧ tcp s = None.

Lemma complete_result r s : outcome s = None → outcome (complete r s) = Some r.
Proof. intros H. unfold complete, completed, close_timeout_timer. rewrite H. cbn. destruct (timer s); cbn; by destruct (callback s). Qed.

Lemma reports_run outcomes : ∀ i last s,
  before_next i last s → length candidates = i + length outcomes →
  (∀ j e, throws j = Some e → i ≤ j → outcomes !! (j - i) = Some (Some e)) →
  outcome (foldl (run_tcp_op candidates throws) (connect_next candidates throws s) (reports throws i outcomes)) = Some (first_accepting i outcomes last).
Proof.
  induction outcomes as [|out outcomes IH]; intros i last s (Ho & Hn & Hc & Hca & Hp & Hl & Ht) Hlen Hthrow; cbn [length] in Hlen.
  - unfold connect_next, completed. rewrite Ho, Hn, lookup_ge_None_2 by lia. cbn. by rewrite complete_result, Hl.
  - assert (Hi : is_Some (candidates !! i)) by (apply lookup_lt_is_Some; lia). destruct Hi as [c Ec].
    unfold connect_next, completed. rewrite Ho, Hn, Ec. set (s1 := set_tcp (Some i) (set_next (S i) s)).
    assert (Hnext : ∀ e s', before_next (S i) e s' →
      outcome (foldl (run_tcp_op candidates throws) (connect_next candidates throws s') (reports throws (S i) outcomes)) = Some (first_accepting (S i) outcomes e)).
    { intros e s' Hs'. apply IH; [done|lia|]. intros j e' Hj Hle. specialize (Hthrow j e' Hj ltac:(lia)).
      replace (j - i) with (S (j - S i)) in Hthrow by lia. exact Hthrow. }
    destruct (throws i) as [e|] eqn:Et.
    + specialize (Hthrow i e Et ltac:(lia)) as Hout. rewrite Nat.sub_diag in Hout. injection Hout as ->. cbn [reports first_accepting]. rewrite Et. cbn [app foldl run_tcp_op].
      unfold on_closed. cbn. rewrite Hc. cbn. rewrite Nat.eqb_refl. apply Hnext. unfold before_next. cbn. rewrite ?Nat.eqb_refl. cbn. by split_and!.
    + destruct out as [e|]; cbn [reports first_accepting]; [rewrite Et|]; cbn [app foldl run_tcp_op]; cbn [happen set_pending pending].
      * unfold on_connected at 1, completed. cbn. rewrite Ho, Hca. unfold on_closed. cbn. rewrite Hc. cbn. rewrite Nat.eqb_refl. apply Hnext.
        unfold before_next. cbn. rewrite ?Nat.eqb_refl. cbn. by split_and!.
      * unfold on_connected, completed. cbn. rewrite Ho, Hca. by rewrite complete_result.
Qed.
End in_order.

(** Connecting tries the addresses of a list in order: when each accepts or
    fails in its turn, the result is the socket of the first that accepts, or the
    error of the last. *)
Theorem connect_first_accepting (candidates : list connect_candidate) (timeout : Z) (throws : nat → option str) (outcomes : list (option str)) :
  candidates ≠ [] → length outcomes = length candidates → (∀ i e, throws i = Some e → outcomes !! i = Some (Some e)) →
  outcome (run_connect candidates timeout throws (reports throws 0 outcomes)) = Some (first_accepting 0 outcomes []).
Proof.
  intros Hne Hlen Hthrow. unfold run_connect, start. cbn [negb callback new_connect]. rewrite bool_decide_eq_false_2 by done.
  apply reports_run; [|lia|intros j e Hj _; rewrite Nat.sub_0_r; auto]. unfold start_timeout. destruct (timeout <=? 0)%Z; by split_and!.
Qed.

Definition example_addresses : list connect_candidate :=
  address_candidates [Address family_ipv6 (TcpEndpoint (lit "::1") 80); Address family_ipv4 (TcpEndpoint (lit "10.0.0.1") 80); Address family_ipv4 (TcpEndpoint (lit "10.0.0.2") 80)].

Lemma connect_first_accepting_witness :
  outcome (run_connect example_addresses 100 (λ i, if Nat.eqb i 1 then Some (lit "no route") else None)
    (reports (λ i, if Nat.eqb i 1 then Some (lit "no route") else None) 0 [Some (lit "refused"); Some (lit "no route"); None])) = Some (Ok 2).
Proof.
  refine (connect_first_accepting example_addresses 100 (λ i, if Nat.eqb i 1 then Some (lit "no route") else None)
    [Some (lit "refused"); Some (lit "no route"); None] _ _ _); [discriminate|reflexivity|].
  intros [|[|i]] e H; cbn in H; [discriminate|injection H as <-; reflexivity|discriminate].
Defined.

