(* ===== verification/Transport.v ===== *)
(** * Streams and listeners of libuv

    [stream_model] and [listener_model] of [src/io/transport.cpp], the byte
    streams over TCP connections and pipes that the other components are given.
    The calls into libuv are entries of a history and what libuv reports is an
    input: a write completes at some time after it was started, in any order,
    and so does the closing of the handle.  Callbacks of the user may call the
    stream back (calls that libuv refuses at once, by an exception, are left
    out); the user is a function from the history and the callback to
    the calls it makes, nested to a given depth. *)

From S2P Require Import Prelude Text.

Inductive stream_read := read_eof | read_error (code : Z) | read_bytes (bytes : str).

Inductive stream_event :=
| te_call_write (id : nat) (payload : str) (callback : bool)
| te_call_close (id : nat) (callback : bool)
| te_uv_read_start | te_uv_read_stop | te_uv_write (id : nat) (payload : str) | te_uv_close
| te_read (r : stream_read)
| te_written (id : nat) (error : option Z)
| te_closed (id : nat).

(** Writes are numbered in the order of the calls, and so are closes. *)
Record stream_model := StreamModel {
  on_read : bool;
  closed : bool;
  handle_closing : bool;
  next_id : nat;
  writes : list (nat * bool);
  closing_call : option (nat * bool);
  history : list stream_event
}.

(** A handle that somebody else is already closing can be wrapped, too. *)
Definition new_stream (already_closing : bool) : stream_model := StreamModel false false already_closing 0 [] None [].

Definition record (e : stream_event) (s : stream_model) : stream_model :=
  StreamModel (on_read s) (closed s) (handle_closing s) (next_id s) (writes s) (closing_call s) (history s ++ [e]).
Definition set_on_read (s : stream_model) : stream_model :=
  StreamModel true (closed s) (handle_closing s) (next_id s) (writes s) (closing_call s) (history s).
Definition set_closed (s : stream_model) : stream_model :=
  StreamModel (on_read s) true (handle_closing s) (next_id s) (writes s) (closing_call s) (history s).
Definition next_call (s : stream_model) : stream_model :=
  StreamModel (on_read s) (closed s) (handle_closing s) (S (next_id s)) (writes s) (closing_call s) (history s).
Definition set_writes (ws : list (nat * bool)) (s : stream_model) : stream_model :=
  StreamModel (on_read s) (closed s) (handle_closing s) (next_id s) ws (closing_call s) (history s).
Definition set_closing (c : option (nat * bool)) (s : stream_model) : stream_model :=
  StreamModel (on_read s) (closed s) true (next_id s) (writes s) c (history s).

Inductive stream_call := sc_read_start | sc_read_stop | sc_write (payload : str) (callback : bool) | sc_close (callback : bool).

Section operations.
Context (emit : stream_event → stream_model → stream_model).

Definition emit_if (callback : bool) (e : stream_event) (s : stream_model) : stream_model :=
  if callback then emit e s else s.

Definition read_start (s : stream_model) : stream_model := record te_uv_read_start (set_on_read s).

(** libuv's report of a read. *)
Definition on_uv_read (r : stream_read) (s : stream_model) : stream_model := emit_if (on_read s) (te_read r) s.

Definition read_stop (s : stream_model) : stream_model := record te_uv_read_stop s.

Definition write (payload : str) (callback : bool) (s : stream_model) : stream_model :=
  let id := next_id s in
  let s := record (te_call_write id payload callback) (next_call s) in
  match payload with
  | [] => emit_if callback (te_written id None) s
  | _ => record (te_uv_write id payload) (set_writes (writes s ++ [(id, callback)]) s)
  end.

(** libuv's report of the [k]th of the writes under way. *)
Definition on_uv_written (k : nat) (error : option Z) (s : stream_model) : stream_model :=
  match writes s !! k with
  | Some (id, callback) => emit_if callback (te_written id error) (set_writes (delete k (writes s)) s)
  | None => s
  end.

Definition close (callback : bool) (s : stream_model) : stream_model :=
  let id := next_id s in
  let s := record (te_call_close id callback) (next_call s) in
  if closed s then emit_if callback (te_closed id) s
  else
    let s := set_closed s in
    if handle_closing s then emit_if callback (te_closed id) s
    else record te_uv_close (set_closing (Some (id, callback)) s).

(** libuv's report that the handle is closed. *)
Definition on_uv_closed (s : stream_model) : stream_model :=
  match closing_call s with
  | Some (id, callback) => emit_if callback (te_closed id) (set_closing None s)
  | None => s
  end.

Definition run_call (s : stream_model) (c : stream_call) : stream_model :=
  match c with
  | sc_read_start => read_start s
  | sc_read_stop => read_stop s
  | sc_write payload callback => write payload callback s
  | sc_close callback => close callback s
  end.
End operations.

Section runs.
Context (user : list stream_event → stream_event → list stream_call).

(** Callbacks nested deeper than [depth] make no calls. *)
Fixpoint emit_at (depth : nat) (e : stream_event) (s : stream_model) : stream_model :=
  let s := record e s in
  match depth with
  | O => s
  | S depth' => foldl (run_call (emit_at depth')) s (user (history s) e)
  end.

Inductive stream_input :=
| in_call (c : stream_call)
| in_read (r : stream_read)
| in_written (k : nat) (error : option Z)
| in_closed.

Definition stream_step (depth : nat) (s : stream_model) (i : stream_input) : stream_model :=
  match i with
  | in_call c => run_call (emit_at depth) s c
  | in_read r => on_uv_read (emit_at depth) r s
  | in_written k error => on_uv_written (emit_at depth) k error s
  | in_closed => on_uv_closed (emit_at depth) s
  end.

Definition run_stream (depth : nat) (already_closing : bool) (inputs : list stream_input) : stream_model :=
  foldl (stream_step depth) (new_stream already_closing) inputs.
End runs.

(** ** What a stream promises *)

(** The calls that want to be told, and those that were. *)
Definition write_calls (h : list stream_event) : list nat :=
  flat_map (λ e, match e with te_call_write id _ true => [id] | _ => [] end) h.
Definition close_calls (h : list stream_event) : list nat :=
  flat_map (λ e, match e with te_call_close id true => [id] | _ => [] end) h.
Definition told_writes (h : list stream_event) : list nat :=
  flat_map (λ e, match e with te_written id _ => [id] | _ => [] end) h.
Definition told_closes (h : list stream_event) : list nat :=
  flat_map (λ e, match e with te_closed id => [id] | _ => [] end) h.

(** Every call, told or not, with its number. *)
Definition calls (h : list stream_event) : list nat :=
  flat_map (λ e, match e with te_call_write id _ _ | te_call_close id _ => [id] | _ => [] end) h.

(** The bytes that the user wrote and those that libuv was given. *)
Definition called_bytes (h : list stream_event) : list str :=
  flat_map (λ e, match e with te_call_write _ (c :: p) _ => [c :: p] | _ => [] end) h.
Definition uv_bytes (h : list stream_event) : list str :=
  flat_map (λ e, match e with te_uv_write _ p => [p] | _ => [] end) h.
Definition uv_closes (h : list stream_event) : nat :=
  length (flat_map (λ e, match e with te_uv_close => [()] | _ => [] end) h).

Definition wanted (ws : list (nat * bool)) : list nat := omap (λ w : nat * bool, if w.2 then Some w.1 else None) ws.

Record stream_inv (s : stream_model) : Prop := {
  si_writes : told_writes (history s) ++ wanted (writes s) ≡ₚ write_calls (history s);
  si_closes : told_closes (history s) ++ wanted (option_list (closing_call s)) ≡ₚ close_calls (history s);
  si_calls : calls (history s) = seq 0 (next_id s);
  si_bytes : uv_bytes (history s) = called_bytes (history s);
  si_once : (uv_closes (history s) ≤ 1)%nat ∧ (closed s = false → uv_closes (history s) = 0 ∧ closing_call s = None)
}.

Lemma wanted_snoc ws id (callback : bool) : wanted (ws ++ [(id, callback)]) = wanted ws ++ (if callback then [id] else []).
Proof. unfold wanted. rewrite omap_app. cbn. by destruct callback. Qed.

Lemma wanted_delete ws k id callback :
  ws !! k = Some (id, callback) → wanted ws ≡ₚ (if callback : bool then [id] else []) ++ wanted (delete k ws).
Proof.
  intros H. unfold wanted. rewrite (delete_Permutation ws k (id, callback)) at 1 by done. cbn. by destruct callback.
Qed.

Lemma uv_closes_snoc h e : uv_closes (h ++ [e]) = uv_closes h + match e with te_uv_close => 1 | _ => 0 end.
Proof. unfold uv_closes. rewrite flat_map_snoc, length_app. by destruct e. Qed.

Section preserved.
Context (emit : stream_event → stream_model → stream_model).
Hypothesis emit_ok : ∀ e s, stream_inv (record e s) → stream_inv (emit e s).

Ltac histories :=
  cbn [history record next_call set_on_read set_closed set_writes set_closing writes closing_call next_id closed];
  unfold told_writes, told_closes, write_calls, close_calls, calls, uv_bytes, called_bytes in *;
  rewrite ?flat_map_snoc, ?uv_closes_snoc, ?app_nil_r, ?Nat.add_0_r.

Lemma write_ok payload callback s : stream_inv s → stream_inv (write emit payload callback s).
Proof.
  intros [H1 H2 H3 H4 [H5 H6]]. unfold write. destruct payload as [|c payload].
  - destruct callback; cbn [emit_if]; [apply emit_ok|]; (constructor; histories; [|done| |done|done]).
    + rewrite <-H1. by rewrite <-!app_assoc, (Permutation_app_comm (wanted _)).
    + by rewrite H3, seq_S.
    + done.
    + by rewrite H3, seq_S.
  - constructor; histories; [|done| | |done].
    + rewrite wanted_snoc, <-H1. by rewrite app_assoc.
    + by rewrite H3, seq_S.
    + by rewrite H4.
Qed.

Lemma close_ok callback s : stream_inv s → stream_inv (close emit callback s).
Proof.
  intros [H1 H2 H3 H4 [H5 H6]]. unfold close. cbn [closed record next_call].
  assert (Hnow : ∀ s', closed s = true ∨ s' = set_closed (record (te_call_close (next_id s) callback) (next_call s)) →
    history s' = history s ++ [te_call_close (next_id s) callback] → writes s' = writes s → closing_call s' = closing_call s →
    next_id s' = S (next_id s) → closed s' = true →
    stream_inv (emit_if emit callback (te_closed (next_id s)) s')).
  { intros s' _ Eh Ew Ec En Ecl. destruct callback; cbn [emit_if]; [apply emit_ok|]; constructor; histories;
      rewrite ?Eh, ?Ew, ?Ec, ?En, ?Ecl; rewrite ?flat_map_snoc, ?uv_closes_snoc, ?app_nil_r, ?Nat.add_0_r; try done.
    - rewrite <-H2. by rewrite <-!app_assoc, (Permutation_app_comm (wanted _)).
    - by rewrite H3, seq_S.
    - by rewrite H3, seq_S. }
  destruct (closed s) eqn:Ecl.
  - apply Hnow; cbn; auto.
  - cbn [handle_closing set_closed record next_call]. destruct (H6 eq_refl) as [H0 Hnone]. destruct (handle_closing s).
    + apply Hnow; cbn; auto.
    + constructor; histories; [done| | |done|].
      * rewrite <-H2, Hnone. cbn. rewrite app_nil_r. by destruct callback.
      * by rewrite H3, seq_S.
      * rewrite H0. by split; [lia|].
Qed.

Lemma record_ok e s :
  match e with te_uv_read_start | te_uv_read_stop | te_read _ => stream_inv s → stream_inv (record e s) | _ => True end.
Proof. destruct e; try done; intros [H1 H2 H3 H4 [H5 H6]]; (constructor; histories; done). Qed.

Lemma on_read_ok s : stream_inv s → stream_inv (set_on_read s).
Proof. intros [H1 H2 H3 H4 H5]. by constructor. Qed.

Lemma call_ok s c : stream_inv s → stream_inv (run_call emit s c).
Proof.
  intros H. destruct c; cbn [run_call].
  - apply (record_ok te_uv_read_start), on_read_ok, H.
  - by apply (record_ok te_uv_read_stop).
  - by apply write_ok.
  - by apply close_ok.
Qed.

Lemma uv_read_ok r s : stream_inv s → stream_inv (on_uv_read emit r s).
Proof. intros H. unfold on_uv_read. destruct (on_read s); cbn [emit_if]; [|done]. apply emit_ok. by apply (record_ok (te_read r)). Qed.

Lemma uv_written_ok k error s : stream_inv s → stream_inv (on_uv_written emit k error s).
Proof.
  intros Hinv. unfold on_uv_written. destruct (writes s !! k) as [[id callback]|] eqn:E; [|done].
  pose proof (wanted_delete _ _ _ _ E) as Hd. destruct Hinv as [H1 H2 H3 H4 [H5 H6]].
  destruct callback; cbn [emit_if]; [apply emit_ok|]; constructor; histories; try done.
  - rewrite <-H1, Hd. cbn. by rewrite <-app_assoc.
  - by rewrite <-H1, Hd.
Qed.

Lemma uv_closed_ok s : stream_inv s → stream_inv (on_uv_closed emit s).
Proof.
  intros Hinv. unfold on_uv_closed. destruct (closing_call s) as [[id callback]|] eqn:E; [|done].
  destruct Hinv as [H1 H2 H3 H4 [H5 H6]]. rewrite E in *.
  assert (Hc : closed s = true) by (destruct (closed s); [done|]; by destruct (H6 eq_refl)).
  destruct callback; cbn [emit_if]; [apply emit_ok|]; constructor; histories; try done; rewrite ?Hc; try done; rewrite <-H2; cbn; by rewrite ?app_nil_r.
Qed.
End preserved.

Lemma emit_at_ok user depth e s : stream_inv (record e s) → stream_inv (emit_at user depth e s).
Proof.
  revert e s. induction depth as [|depth IH]; intros e s H; cbn [emit_at]; [done|].
  generalize (user (history (record e s)) e). intros cs. revert H. generalize (record e s). clear e s.
  induction cs as [|c cs IHcs]; intros s H; cbn [foldl]; [done|]. apply IHcs. by apply call_ok.
Qed.

Lemma run_stream_inv user depth already_closing inputs : stream_inv (run_stream user depth already_closing inputs).
Proof.
  unfold run_stream. assert (H : stream_inv (new_stream already_closing)) by (constructor; cbn; [done..|]; split; [lia|done]).
  revert H. generalize (new_stream already_closing). induction inputs as [|i inputs IH]; intros s H; cbn [foldl]; [done|].
  apply IH. destruct i; cbn [stream_step].
  - apply call_ok; [apply emit_at_ok|done].
  - apply uv_read_ok; [apply emit_at_ok|done].
  - apply uv_written_ok; [apply emit_at_ok|done].
  - apply uv_closed_ok; [apply emit_at_ok|done].
Qed.

Lemma write_calls_NoDup h n : calls h = seq 0 n → NoDup (write_calls h) ∧ NoDup (close_calls h).
Proof.
  intros Hc. assert (Hd : NoDup (calls h)) by (rewrite Hc; apply NoDup_seq). clear Hc. unfold calls, write_calls, close_calls in *.
  assert (Hsub : ∀ f : stream_event → list nat, (∀ e, sublist (f e) (match e with te_call_write id _ _ | te_call_close id _ => [id] | _ => [] end)) →
    sublist (flat_map f h) (flat_map (λ e, match e with te_call_write id _ _ | te_call_close id _ => [id] | _ => [] end) h)).
  { intros f Hf. clear Hd. induction h as [|e h IH]; [done|]. cbn [flat_map]. apply sublist_app; [apply Hf|done]. }
  split; (eapply sublist_NoDup; [exact Hd|]); apply Hsub; intros []; try done; destruct callback; repeat constructor.
Qed.

(** Whatever the callbacks call back and whatever libuv reports: a write is told
    at most once, and so is a close; what was not told is still with libuv, so
    that all calls have been told when nothing is; libuv is given the bytes of
    the calls in their order, without the empty ones, and is asked to close at
    most once. *)
Theorem stream_contract user depth already_closing inputs :
  let s := run_stream user depth already_closing inputs in let h := history s in
  NoDup (told_writes h) ∧ told_writes h ⊆ write_calls h ∧ NoDup (told_closes h) ∧ told_closes h ⊆ close_calls h ∧
  (writes s = [] → told_writes h ≡ₚ write_calls h) ∧ (closing_call s = None → told_closes h ≡ₚ close_calls h) ∧
  uv_bytes h = called_bytes h ∧ (uv_closes h ≤ 1)%nat.
Proof.
  intros s h. destruct (run_stream_inv user depth already_closing inputs) as [H1 H2 H3 H4 [H5 _]]. fold s in H1, H2, H3, H4, H5. fold h in H1, H2, H3, H4, H5.
  destruct (write_calls_NoDup _ _ H3) as [Hw Hc]. rewrite <-H1 in Hw. rewrite <-H2 in Hc.
  apply NoDup_app in Hw as (Hw & _). apply NoDup_app in Hc as (Hc & _). split_and!; [done| |done| | | |done|done].
  - rewrite <-H1. set_solver.
  - rewrite <-H2. set_solver.
  - intros E. by rewrite E, app_nil_r in H1.
  - intros E. by rewrite E, app_nil_r in H2.
Qed.

(** An empty write is told before a write that was made earlier. *)
Example empty_write_overtakes :
  let s := run_stream (λ _ _, []) 1 false [in_call (sc_write (lit "a") true); in_call (sc_write [] true); in_written 0 None] in
  told_writes (history s) = [1; 0].
Proof. by vm_compute. Qed.

(** ** Listeners *)

Definition default_backlog : Z := 64.

(** The cast of an [unsigned int] to [int]. *)
Definition to_int (value : Z) : Z := ((value + 2 ^ 31) mod 2 ^ 32 - 2 ^ 31)%Z.

(** A TCP listener takes a host with a colon as an IPv6 address. *)
Inductive bind_address := bind_ipv4 (host : str) (port : Z) | bind_ipv6 (host : str) (port : Z).
Definition tcp_bind (host : str) (port : Z) : bind_address :=
  match find_char ":" host with Some _ => bind_ipv6 host (to_int port) | None => bind_ipv4 host (to_int port) end.

Inductive listener_event :=
| le_uv_listen (backlog : Z) | le_uv_close
| le_accepted (connection : nat)
| le_accept_error (connection : nat) (code : Z).

Record listener_model := ListenerModel {
  backlog : Z; listening : bool; listener_closing : bool; connections : nat; listener_history : list listener_event
}.

Definition new_listener (backlog : Z) : listener_model :=
  ListenerModel (if (backlog =? 0)%Z then default_backlog else to_int backlog) false false 0 [].

Definition listener_record (e : listener_event) (l : listener_model) : listener_model :=
  ListenerModel (backlog l) (listening l) (listener_closing l) (connections l) (listener_history l ++ [e]).

Definition listen (l : listener_model) : listener_model :=
  listener_record (le_uv_listen (backlog l))
    (ListenerModel (backlog l) true (listener_closing l) (connections l) (listener_history l)).

Definition close_listener (l : listener_model) : listener_model :=
  if listener_closing l then l
  else listener_record le_uv_close (ListenerModel (backlog l) (listening l) true (connections l) (listener_history l)).

(** What libuv reports for a connection: its status, and when that is good
    whether it could be accepted. *)
Inductive connection_report := report_error (code : Z) | report_unaccepted (code : Z) | report_connection.

(** [on_accept] may throw a [uv::error] when it is given a stream; it is called
    inside the [try] block that is meant for [accept]. *)
Definition on_connection (throws : nat → option Z) (r : connection_report) (l : listener_model) : listener_model :=
  let id := connections l in
  let l := ListenerModel (backlog l) (listening l) (listener_closing l) (S id) (listener_history l) in
  if negb (listening l) then l
  else
    match r with
    | report_error code => listener_record (le_accept_error id code) l
    | report_unaccepted code => listener_record (le_accept_error id code) l
    | report_connection =>
      let l := listener_record (le_accepted id) l in
      match throws id with
      | Some code => listener_record (le_accept_error id code) l
      | None => l
      end
    end.

Definition told_connections (h : list listener_event) : list nat :=
  flat_map (λ e, match e with le_accepted id | le_accept_error id _ => [id] | _ => [] end) h.

(** A user that does not throw is told of every connection exactly once, in
    order. *)
Lemma connections_told throws (reports : list connection_report) n :
  (∀ id, throws id = None) →
  told_connections (listener_history (foldl (λ l r, on_connection throws r l) (listen (new_listener n)) reports)) =
    seq 0 (length reports).
Proof.
  intros Hthrows. set (run := λ reports, foldl (λ l r, on_connection throws r l) (listen (new_listener n)) reports).
  enough (H : listening (run reports) = true ∧ connections (run reports) = length reports ∧
    told_connections (listener_history (run reports)) = seq 0 (length reports)) by apply H.
  induction reports as [|r reports (H1 & H2 & H3)] using rev_ind; [done|]. unfold run in *. rewrite foldl_app, length_app. cbn [foldl].
  set (l := foldl _ _ reports) in *. unfold on_connection. cbn [listening connections]. rewrite H1. cbn [negb].
  rewrite Nat.add_1_r, seq_S. unfold told_connections in *.
  destruct r; rewrite ?Hthrows; cbn [listener_history listener_record listening connections];
    rewrite flat_map_snoc, H2, H3; done.
Qed.

(** One whose callback throws a [uv::error] is told of the same connection a
    second time, as an error. *)
Example accepted_and_failed :
  told_connections (listener_history (on_connection (λ _, Some (-22)%Z) report_connection (listen (new_listener 0)))) = [0; 0].
Proof. by vm_compute. Qed.
