(* ===== verification/TlsState.v ===== *)
(** * The state of a TLS stream

    [tls_state] of [src/tls/stream.cpp], its errors ([src/tls/error.cpp]) and what
    it uses of OpenSSL.  An [SSL] object with its two memory BIOs is a value of a
    type with the operations of the class [Ssl]; [SslLaws] states what the manual
    pages say of them. *)

From S2P Require Import Prelude Text.

Open Scope nat_scope.

Inductive tls_errc :=
| tls_ok | openssl_error | handshake_failed | verification_failed | protocol_error | tls_closed | tls_cancelled | tls_timeout
| pending_handshake_limit | write_buffer_limit | read_buffer_limit | unexpected_eof.

Definition tls_message (value : tls_errc) : str :=
  lit match value with
      | tls_ok => "success"
      | openssl_error => "OpenSSL error"
      | handshake_failed => "TLS handshake failed"
      | verification_failed => "TLS peer verification failed"
      | protocol_error => "TLS protocol error"
      | tls_closed => "TLS stream is closed"
      | tls_cancelled => "TLS operation cancelled"
      | tls_timeout => "TLS operation timed out"
      | pending_handshake_limit => "TLS pending handshake limit reached"
      | write_buffer_limit => "TLS write buffer limit reached"
      | read_buffer_limit => "TLS read buffer limit reached"
      | unexpected_eof => "TLS stream ended without close_notify"
      end.

(** A [std::error_code]: of this category, or of another one. *)
Inductive error_code := tls_code (e : tls_errc) | foreign_code (value : Z).

Definition code_value (code : error_code) : Z :=
  match code with
  | tls_code e =>
    match e with
    | tls_ok => 0 | openssl_error => 1 | handshake_failed => 2 | verification_failed => 3 | protocol_error => 4 | tls_closed => 5
    | tls_cancelled => 6 | tls_timeout => 7 | pending_handshake_limit => 8 | write_buffer_limit => 9 | read_buffer_limit => 10
    | unexpected_eof => 11
    end
  | foreign_code value => value
  end.

(** [operator bool]. *)
Definition code_set (code : error_code) : bool := negb (Z.eqb (code_value code) 0).

Record tls_error := TlsError { error_code_of : error_code; error_detail : str }.

Definition make_tls_error (code : tls_errc) (detail : str) : tls_error := TlsError (tls_code code) detail.

(** ** OpenSSL *)

Inductive handshake_status := hs_done | hs_want | hs_unverified (reason : str) | hs_failed.

(** [SSL_get_error] of a read or a write that did not succeed. *)
Inductive ssl_status := want_read | want_write | zero_return | ssl_failure.

(** [ssl_feed] is [BIO_write] to the read BIO, [ssl_pull] is [BIO_read] from the
    write BIO; [ssl_errors] is the error queue.  [ssl_input] bounds how much is
    still to be read, [ssl_output] is what the write BIO holds: loops take their
    fuel from them. *)
Class Ssl (S : Type) := {
  ssl_handshake : S → S * handshake_status;
  ssl_read : S → S * (str + ssl_status);
  ssl_write : str → S → S * (nat + ssl_status);
  ssl_shutdown : S → S;
  ssl_feed : str → S → S * nat;
  ssl_pull : S → S * option str;
  ssl_alpn : S → str;
  ssl_errors : S → list str;
  ssl_input : S → nat;
  ssl_output : S → nat
}.

(** Only new input can be read, and after the peer's close_notify nothing is. *)
Class SslLaws (S : Type) `{Ssl S} := {
  ssl_ended : S → Prop;
  handshake_input x : ssl_input (ssl_handshake x).1 ≤ ssl_input x;
  write_input bytes x : ssl_input (ssl_write bytes x).1 ≤ ssl_input x;
  shutdown_input x : ssl_input (ssl_shutdown x) ≤ ssl_input x;
  pull_input x : ssl_input (ssl_pull x).1 ≤ ssl_input x;
  read_input x : ssl_input (ssl_read x).1 ≤ ssl_input x;
  read_data x x' b : ssl_read x = (x', inl b) → b ≠ [] ∧ ssl_input x' < ssl_input x;
  pull_some x x' b : ssl_pull x = (x', Some b) → b ≠ [] ∧ ssl_output x' < ssl_output x;
  pull_none x x' : ssl_pull x = (x', None) → ssl_output x' = 0;
  pull_empty x : ssl_output x = 0 → (ssl_pull x).2 = None;
  write_length bytes x x' n : ssl_write bytes x = (x', inl n) → n ≤ length bytes;
  read_ended x x' : ssl_read x = (x', inr zero_return) → ssl_ended x';
  ended_read x : ssl_ended x → ssl_ended (ssl_read x).1 ∧ ∀ b, (ssl_read x).2 ≠ inl b;
  ended_write bytes x : ssl_ended x → ssl_ended (ssl_write bytes x).1;
  ended_shutdown x : ssl_ended x → ssl_ended (ssl_shutdown x);
  ended_pull x : ssl_ended x → ssl_ended (ssl_pull x).1;
  ended_feed bytes x : ssl_ended x → ssl_ended (ssl_feed bytes x).1;
  ended_handshake x : ssl_ended x → ssl_ended (ssl_handshake x).1
}.

(** ** The state *)

Inductive terminal_read_kind := terminal_none | terminal_eof | terminal_error (code : error_code).

(** [done] of an encrypted write: what its report sets off. *)
Inductive write_done := done_close | done_retry | done_written (id : nat).
Record encrypted_write := EncryptedWrite { ew_payload : str; ew_done : option write_done }.
(** A write of the user, named by its number. *)
Record clear_write := ClearWrite { cw_payload : str; cw_offset : nat; cw_done : nat }.

(** What happens, in order: what OpenSSL reads, writes and puts out; calls into
    the lower stream; writes that are accepted; the callbacks of the user. *)
Inductive tls_event :=
| tv_ssl_read (bytes : str) | tv_ssl_write (id : nat) (bytes : str) | tv_ssl_output (bytes : str)
| tv_read_start | tv_read_stop | tv_write (payload : str) | tv_close
| tv_accept (id : nat) (payload : str)
| te_handshake (r : result tls_error str)
| te_data (bytes : str) | te_eof | te_read_error (code : error_code)
| te_written (id : nat) (failure : option error_code)
| te_closed (id : nat).

(** What the user can call; [handshake_operation::cancel] is among it. *)
Inductive tls_cmd := tc_read_start | tc_read_stop | tc_write (payload : str) | tc_close | tc_cancel (e : tls_error).

(** [close_callbacks]: the callbacks of [lower_.close] until it reports. *)
Record tls_state (S : Type) := TlsState {
  ssl : S;
  handshake_callback : bool;
  on_read : bool;
  on_close : list nat;
  pending_clear : list str;
  clear_writes : list clear_write;
  encrypted_writes : list encrypted_write;
  clear_buffer : str;
  terminal_error_code : error_code;
  pending_clear_bytes : nat;
  pending_clear_write_bytes : nat;
  terminal_read : terminal_read_kind;
  processing_clear_writes : bool;
  clear_write_in_progress : bool;
  clear_write_waiting_for_read : bool;
  clear_write_waiting_for_write : bool;
  lower_reading : bool;
  encrypted_write_active : bool;
  is_open : bool;
  close_notify_received : bool;
  terminal_read_delivered : bool;
  closing : bool;
  closed : bool;
  failed : bool;
  close_callbacks : option (list nat);
  next_write : nat;
  next_close : nat;
  history : list tls_event
}.
Arguments ssl {S}.
Arguments handshake_callback {S}.
Arguments on_read {S}.
Arguments on_close {S}.
Arguments pending_clear {S}.
Arguments clear_writes {S}.
Arguments encrypted_writes {S}.
Arguments clear_buffer {S}.
Arguments terminal_error_code {S}.
Arguments pending_clear_bytes {S}.
Arguments pending_clear_write_bytes {S}.
Arguments terminal_read {S}.
Arguments processing_clear_writes {S}.
Arguments clear_write_in_progress {S}.
Arguments clear_write_waiting_for_read {S}.
Arguments clear_write_waiting_for_write {S}.
Arguments lower_reading {S}.
Arguments encrypted_write_active {S}.
Arguments is_open {S}.
Arguments close_notify_received {S}.
Arguments terminal_read_delivered {S}.
Arguments closing {S}.
Arguments closed {S}.
Arguments failed {S}.
Arguments close_callbacks {S}.
Arguments next_write {S}.
Arguments next_close {S}.
Arguments history {S}.
Arguments TlsState {S}.

Section setters.
Context {S : Type}.
Implicit Types s : tls_state S.

Definition set_ssl (x : S) s : tls_state S :=
  TlsState x (handshake_callback s) (on_read s) (on_close s) (pending_clear s) (clear_writes s) (encrypted_writes s) (clear_buffer s)
    (terminal_error_code s) (pending_clear_bytes s) (pending_clear_write_bytes s) (terminal_read s) (processing_clear_writes s)
    (clear_write_in_progress s) (clear_write_waiting_for_read s) (clear_write_waiting_for_write s) (lower_reading s)
    (encrypted_write_active s) (is_open s) (close_notify_received s) (terminal_read_delivered s) (closing s) (closed s) (failed s)
    (close_callbacks s) (next_write s) (next_close s) (history s).
Definition set_handshake_callback (x : bool) s : tls_state S :=
  TlsState (ssl s) x (on_read s) (on_close s) (pending_clear s) (clear_writes s) (encrypted_writes s) (clear_buffer s)
    (terminal_error_code s) (pending_clear_bytes s) (pending_clear_write_bytes s) (terminal_read s) (processing_clear_writes s)
    (clear_write_in_progress s) (clear_write_waiting_for_read s) (clear_write_waiting_for_write s) (lower_reading s)
    (encrypted_write_active s) (is_open s) (close_notify_received s) (terminal_read_delivered s) (closing s) (closed s) (failed s)
    (close_callbacks s) (next_write s) (next_close s) (history s).
Definition set_on_read (x : bool) s : tls_state S :=
  TlsState (ssl s) (handshake_callback s) x (on_close s) (pending_clear s) (clear_writes s) (encrypted_writes s) (clear_buffer s)
    (terminal_error_code s) (pending_clear_bytes s) (pending_clear_write_bytes s) (terminal_read s) (processing_clear_writes s)
    (clear_write_in_progress s) (clear_write_waiting_for_read s) (clear_write_waiting_for_write s) (lower_reading s)
    (encrypted_write_active s) (is_open s) (close_notify_received s) (terminal_read_delivered s) (closing s) (closed s) (failed s)
    (close_callbacks s) (next_write s) (next_close s) (history s).
Definition set_on_close (x : list nat) s : tls_state S :=
  TlsState (ssl s) (handshake_callback s) (on_read s) x (pending_clear s) (clear_writes s) (encrypted_writes s) (clear_buffer s)
    (terminal_error_code s) (pending_clear_bytes s) (pending_clear_write_bytes s) (terminal_read s) (processing_clear_writes s)
    (clear_write_in_progress s) (clear_write_waiting_for_read s) (clear_write_waiting_for_write s) (lower_reading s)
    (encrypted_write_active s) (is_open s) (close_notify_received s) (terminal_read_delivered s) (closing s) (closed s) (failed s)
    (close_callbacks s) (next_write s) (next_close s) (history s).
Definition set_pending_clear (x : list str) s : tls_state S :=
  TlsState (ssl s) (handshake_callback s) (on_read s) (on_close s) x (clear_writes s) (encrypted_writes s) (clear_buffer s)
    (terminal_error_code s) (pending_clear_bytes s) (pending_clear_write_bytes s) (terminal_read s) (processing_clear_writes s)
    (clear_write_in_progress s) (clear_write_waiting_for_read s) (clear_write_waiting_for_write s) (lower_reading s)
    (encrypted_write_active s) (is_open s) (close_notify_received s) (terminal_read_delivered s) (closing s) (closed s) (failed s)
    (close_callbacks s) (next_write s) (next_close s) (history s).
Definition set_clear_writes (x : list clear_write) s : tls_state S :=
  TlsState (ssl s) (handshake_callback s) (on_read s) (on_close s) (pending_clear s) x (encrypted_writes s) (clear_buffer s)
    (terminal_error_code s) (pending_clear_bytes s) (pending_clear_write_bytes s) (terminal_read s) (processing_clear_writes s)
    (clear_write_in_progress s) (clear_write_waiting_for_read s) (clear_write_waiting_for_write s) (lower_reading s)
    (encrypted_write_active s) (is_open s) (close_notify_received s) (terminal_read_delivered s) (closing s) (closed s) (failed s)
    (close_callbacks s) (next_write s) (next_close s) (history s).
Definition set_encrypted_writes (x : list encrypted_write) s : tls_state S :=
  TlsState (ssl s) (handshake_callback s) (on_read s) (on_close s) (pending_clear s) (clear_writes s) x (clear_buffer s)
    (terminal_error_code s) (pending_clear_bytes s) (pending_clear_write_bytes s) (terminal_read s) (processing_clear_writes s)
    (clear_write_in_progress s) (clear_write_waiting_for_read s) (clear_write_waiting_for_write s) (lower_reading s)
    (encrypted_write_active s) (is_open s) (close_notify_received s) (terminal_read_delivered s) (closing s) (closed s) (failed s)
    (close_callbacks s) (next_write s) (next_close s) (history s).
Definition set_clear_buffer (x : str) s : tls_state S :=
  TlsState (ssl s) (handshake_callback s) (on_read s) (on_close s) (pending_clear s) (clear_writes s) (encrypted_writes s) x
    (terminal_error_code s) (pending_clear_bytes s) (pending_clear_write_bytes s) (terminal_read s) (processing_clear_writes s)
    (clear_write_in_progress s) (clear_write_waiting_for_read s) (clear_write_waiting_for_write s) (lower_reading s)
    (encrypted_write_active s) (is_open s) (close_notify_received s) (terminal_read_delivered s) (closing s) (closed s) (failed s)
    (close_callbacks s) (next_write s) (next_close s) (history s).
Definition set_terminal_error_code (x : error_code) s : tls_state S :=
  TlsState (ssl s) (handshake_callback s) (on_read s) (on_close s) (pending_clear s) (clear_writes s) (encrypted_writes s) (clear_buffer s)
    x (pending_clear_bytes s) (pending_clear_write_bytes s) (terminal_read s) (processing_clear_writes s) (clear_write_in_progress s)
    (clear_write_waiting_for_read s) (clear_write_waiting_for_write s) (lower_reading s) (encrypted_write_active s) (is_open s)
    (close_notify_received s) (terminal_read_delivered s) (closing s) (closed s) (failed s) (close_callbacks s) (next_write s)
    (next_close s) (history s).
Definition set_pending_clear_bytes (x : nat) s : tls_state S :=
  TlsState (ssl s) (handshake_callback s) (on_read s) (on_close s) (pending_clear s) (clear_writes s) (encrypted_writes s) (clear_buffer s)
    (terminal_error_code s) x (pending_clear_write_bytes s) (terminal_read s) (processing_clear_writes s) (clear_write_in_progress s)
    (clear_write_waiting_for_read s) (clear_write_waiting_for_write s) (lower_reading s) (encrypted_write_active s) (is_open s)
    (close_notify_received s) (terminal_read_delivered s) (closing s) (closed s) (failed s) (close_callbacks s) (next_write s)
    (next_close s) (history s).
Definition set_pending_clear_write_bytes (x : nat) s : tls_state S :=
  TlsState (ssl s) (handshake_callback s) (on_read s) (on_close s) (pending_clear s) (clear_writes s) (encrypted_writes s) (clear_buffer s)
    (terminal_error_code s) (pending_clear_bytes s) x (terminal_read s) (processing_clear_writes s) (clear_write_in_progress s)
    (clear_write_waiting_for_read s) (clear_write_waiting_for_write s) (lower_reading s) (encrypted_write_active s) (is_open s)
    (close_notify_received s) (terminal_read_delivered s) (closing s) (closed s) (failed s) (close_callbacks s) (next_write s)
    (next_close s) (history s).
Definition set_terminal_read (x : terminal_read_kind) s : tls_state S :=
  TlsState (ssl s) (handshake_callback s) (on_read s) (on_close s) (pending_clear s) (clear_writes s) (encrypted_writes s) (clear_buffer s)
    (terminal_error_code s) (pending_clear_bytes s) (pending_clear_write_bytes s) x (processing_clear_writes s) (clear_write_in_progress s)
    (clear_write_waiting_for_read s) (clear_write_waiting_for_write s) (lower_reading s) (encrypted_write_active s) (is_open s)
    (close_notify_received s) (terminal_read_delivered s) (closing s) (closed s) (failed s) (close_callbacks s) (next_write s)
    (next_close s) (history s).
Definition set_processing_clear_writes (x : bool) s : tls_state S :=
  TlsState (ssl s) (handshake_callback s) (on_read s) (on_close s) (pending_clear s) (clear_writes s) (encrypted_writes s) (clear_buffer s)
    (terminal_error_code s) (pending_clear_bytes s) (pending_clear_write_bytes s) (terminal_read s) x (clear_write_in_progress s)
    (clear_write_waiting_for_read s) (clear_write_waiting_for_write s) (lower_reading s) (encrypted_write_active s) (is_open s)
    (close_notify_received s) (terminal_read_delivered s) (closing s) (closed s) (failed s) (close_callbacks s) (next_write s)
    (next_close s) (history s).
Definition set_clear_write_in_progress (x : bool) s : tls_state S :=
  TlsState (ssl s) (handshake_callback s) (on_read s) (on_close s) (pending_clear s) (clear_writes s) (encrypted_writes s) (clear_buffer s)
    (terminal_error_code s) (pending_clear_bytes s) (pending_clear_write_bytes s) (terminal_read s) (processing_clear_writes s) x
    (clear_write_waiting_for_read s) (clear_write_waiting_for_write s) (lower_reading s) (encrypted_write_active s) (is_open s)
    (close_notify_received s) (terminal_read_delivered s) (closing s) (closed s) (failed s) (close_callbacks s) (next_write s)
    (next_close s) (history s).
Definition set_clear_write_waiting_for_read (x : bool) s : tls_state S :=
  TlsState (ssl s) (handshake_callback s) (on_read s) (on_close s) (pending_clear s) (clear_writes s) (encrypted_writes s) (clear_buffer s)
    (terminal_error_code s) (pending_clear_bytes s) (pending_clear_write_bytes s) (terminal_read s) (processing_clear_writes s)
    (clear_write_in_progress s) x (clear_write_waiting_for_write s) (lower_reading s) (encrypted_write_active s) (is_open s)
    (close_notify_received s) (terminal_read_delivered s) (closing s) (closed s) (failed s) (close_callbacks s) (next_write s)
    (next_close s) (history s).
Definition set_clear_write_waiting_for_write (x : bool) s : tls_state S :=
  TlsState (ssl s) (handshake_callback s) (on_read s) (on_close s) (pending_clear s) (clear_writes s) (encrypted_writes s) (clear_buffer s)
    (terminal_error_code s) (pending_clear_bytes s) (pending_clear_write_bytes s) (terminal_read s) (processing_clear_writes s)
    (clear_write_in_progress s) (clear_write_waiting_for_read s) x (lower_reading s) (encrypted_write_active s) (is_open s)
    (close_notify_received s) (terminal_read_delivered s) (closing s) (closed s) (failed s) (close_callbacks s) (next_write s)
    (next_close s) (history s).
Definition set_lower_reading (x : bool) s : tls_state S :=
  TlsState (ssl s) (handshake_callback s) (on_read s) (on_close s) (pending_clear s) (clear_writes s) (encrypted_writes s) (clear_buffer s)
    (terminal_error_code s) (pending_clear_bytes s) (pending_clear_write_bytes s) (terminal_read s) (processing_clear_writes s)
    (clear_write_in_progress s) (clear_write_waiting_for_read s) (clear_write_waiting_for_write s) x (encrypted_write_active s) (is_open s)
    (close_notify_received s) (terminal_read_delivered s) (closing s) (closed s) (failed s) (close_callbacks s) (next_write s)
    (next_close s) (history s).
Definition set_encrypted_write_active (x : bool) s : tls_state S :=
  TlsState (ssl s) (handshake_callback s) (on_read s) (on_close s) (pending_clear s) (clear_writes s) (encrypted_writes s) (clear_buffer s)
    (terminal_error_code s) (pending_clear_bytes s) (pending_clear_write_bytes s) (terminal_read s) (processing_clear_writes s)
    (clear_write_in_progress s) (clear_write_waiting_for_read s) (clear_write_waiting_for_write s) (lower_reading s) x (is_open s)
    (close_notify_received s) (terminal_read_delivered s) (closing s) (closed s) (failed s) (close_callbacks s) (next_write s)
    (next_close s) (history s).
Definition set_is_open (x : bool) s : tls_state S :=
  TlsState (ssl s) (handshake_callback s) (on_read s) (on_close s) (pending_clear s) (clear_writes s) (encrypted_writes s) (clear_buffer s)
    (terminal_error_code s) (pending_clear_bytes s) (pending_clear_write_bytes s) (terminal_read s) (processing_clear_writes s)
    (clear_write_in_progress s) (clear_write_waiting_for_read s) (clear_write_waiting_for_write s) (lower_reading s)
    (encrypted_write_active s) x (close_notify_received s) (terminal_read_delivered s) (closing s) (closed s) (failed s) (close_callbacks s)
    (next_write s) (next_close s) (history s).
Definition set_close_notify_received (x : bool) s : tls_state S :=
  TlsState (ssl s) (handshake_callback s) (on_read s) (on_close s) (pending_clear s) (clear_writes s) (encrypted_writes s) (clear_buffer s)
    (terminal_error_code s) (pending_clear_bytes s) (pending_clear_write_bytes s) (terminal_read s) (processing_clear_writes s)
    (clear_write_in_progress s) (clear_write_waiting_for_read s) (clear_write_waiting_for_write s) (lower_reading s)
    (encrypted_write_active s) (is_open s) x (terminal_read_delivered s) (closing s) (closed s) (failed s) (close_callbacks s)
    (next_write s) (next_close s) (history s).
Definition set_terminal_read_delivered (x : bool) s : tls_state S :=
  TlsState (ssl s) (handshake_callback s) (on_read s) (on_close s) (pending_clear s) (clear_writes s) (encrypted_writes s) (clear_buffer s)
    (terminal_error_code s) (pending_clear_bytes s) (pending_clear_write_bytes s) (terminal_read s) (processing_clear_writes s)
    (clear_write_in_progress s) (clear_write_waiting_for_read s) (clear_write_waiting_for_write s) (lower_reading s)
    (encrypted_write_active s) (is_open s) (close_notify_received s) x (closing s) (closed s) (failed s) (close_callbacks s) (next_write s)
    (next_close s) (history s).
Definition set_closing (x : bool) s : tls_state S :=
  TlsState (ssl s) (handshake_callback s) (on_read s) (on_close s) (pending_clear s) (clear_writes s) (encrypted_writes s) (clear_buffer s)
    (terminal_error_code s) (pending_clear_bytes s) (pending_clear_write_bytes s) (terminal_read s) (processing_clear_writes s)
    (clear_write_in_progress s) (clear_write_waiting_for_read s) (clear_write_waiting_for_write s) (lower_reading s)
    (encrypted_write_active s) (is_open s) (close_notify_received s) (terminal_read_delivered s) x (closed s) (failed s) (close_callbacks s)
    (next_write s) (next_close s) (history s).
Definition set_closed (x : bool) s : tls_state S :=
  TlsState (ssl s) (handshake_callback s) (on_read s) (on_close s) (pending_clear s) (clear_writes s) (encrypted_writes s) (clear_buffer s)
    (terminal_error_code s) (pending_clear_bytes s) (pending_clear_write_bytes s) (terminal_read s) (processing_clear_writes s)
    (clear_write_in_progress s) (clear_write_waiting_for_read s) (clear_write_waiting_for_write s) (lower_reading s)
    (encrypted_write_active s) (is_open s) (close_notify_received s) (terminal_read_delivered s) (closing s) x (failed s)
    (close_callbacks s) (next_write s) (next_close s) (history s).
Definition set_failed (x : bool) s : tls_state S :=
  TlsState (ssl s) (handshake_callback s) (on_read s) (on_close s) (pending_clear s) (clear_writes s) (encrypted_writes s) (clear_buffer s)
    (terminal_error_code s) (pending_clear_bytes s) (pending_clear_write_bytes s) (terminal_read s) (processing_clear_writes s)
    (clear_write_in_progress s) (clear_write_waiting_for_read s) (clear_write_waiting_for_write s) (lower_reading s)
    (encrypted_write_active s) (is_open s) (close_notify_received s) (terminal_read_delivered s) (closing s) (closed s) x
    (close_callbacks s) (next_write s) (next_close s) (history s).
Definition set_close_callbacks (x : option (list nat)) s : tls_state S :=
  TlsState (ssl s) (handshake_callback s) (on_read s) (on_close s) (pending_clear s) (clear_writes s) (encrypted_writes s) (clear_buffer s)
    (terminal_error_code s) (pending_clear_bytes s) (pending_clear_write_bytes s) (terminal_read s) (processing_clear_writes s)
    (clear_write_in_progress s) (clear_write_waiting_for_read s) (clear_write_waiting_for_write s) (lower_reading s)
    (encrypted_write_active s) (is_open s) (close_notify_received s) (terminal_read_delivered s) (closing s) (closed s) (failed s) x
    (next_write s) (next_close s) (history s).
Definition set_next_write (x : nat) s : tls_state S :=
  TlsState (ssl s) (handshake_callback s) (on_read s) (on_close s) (pending_clear s) (clear_writes s) (encrypted_writes s) (clear_buffer s)
    (terminal_error_code s) (pending_clear_bytes s) (pending_clear_write_bytes s) (terminal_read s) (processing_clear_writes s)
    (clear_write_in_progress s) (clear_write_waiting_for_read s) (clear_write_waiting_for_write s) (lower_reading s)
    (encrypted_write_active s) (is_open s) (close_notify_received s) (terminal_read_delivered s) (closing s) (closed s) (failed s)
    (close_callbacks s) x (next_close s) (history s).
Definition set_next_close (x : nat) s : tls_state S :=
  TlsState (ssl s) (handshake_callback s) (on_read s) (on_close s) (pending_clear s) (clear_writes s) (encrypted_writes s) (clear_buffer s)
    (terminal_error_code s) (pending_clear_bytes s) (pending_clear_write_bytes s) (terminal_read s) (processing_clear_writes s)
    (clear_write_in_progress s) (clear_write_waiting_for_read s) (clear_write_waiting_for_write s) (lower_reading s)
    (encrypted_write_active s) (is_open s) (close_notify_received s) (terminal_read_delivered s) (closing s) (closed s) (failed s)
    (close_callbacks s) (next_write s) x (history s).
Definition set_history (x : list tls_event) s : tls_state S :=
  TlsState (ssl s) (handshake_callback s) (on_read s) (on_close s) (pending_clear s) (clear_writes s) (encrypted_writes s) (clear_buffer s)
    (terminal_error_code s) (pending_clear_bytes s) (pending_clear_write_bytes s) (terminal_read s) (processing_clear_writes s)
    (clear_write_in_progress s) (clear_write_waiting_for_read s) (clear_write_waiting_for_write s) (lower_reading s)
    (encrypted_write_active s) (is_open s) (close_notify_received s) (terminal_read_delivered s) (closing s) (closed s) (failed s)
    (close_callbacks s) (next_write s) (next_close s) x.

Definition happen (e : tls_event) s : tls_state S := set_history (history s ++ [e]) s.
End setters.
