(* ===== verification/TlsStream.v ===== *)
(** * The TLS stream

    The operations of [tls_state] of [src/tls/stream.cpp], and its runs.  [emit]
    calls the user back, who may call the stream in place; [rounds] bounds how
    many writes the callbacks of one call may add.  The lower stream reports
    after the call that it reports on has returned.  Callbacks of reads, writes
    and closes are given by their user. *)

From S2P Require Import Prelude Text TlsState.

Open Scope nat_scope.

Definition tls_io_buffer_size : nat := 16 * 1024.

(** [first] as the loop has it: the separator before the first error is a colon. *)
Definition drain_openssl_errors (fallback : str) (errors : list str) : str :=
  match errors with
  | [] => fallback
  | e :: rest => fallback ++ lit ": " ++ e ++ concat (map (λ x, lit "; " ++ x) rest)
  end.

Section operations.
Context {S : Type} `{SSL : Ssl S} (max_pending_write_bytes max_pending_read_bytes rounds : nat).

Definition proc : Type := tls_state S → tls_state S.
Context (emit : tls_event → proc).

Definition has_terminal (s : tls_state S) : bool := match terminal_read s with terminal_none => false | _ => true end.

(** ** Reading *)

Definition start_lower_reads (s : tls_state S) : tls_state S :=
  if lower_reading s || closed s || failed s || has_terminal s then s else happen tv_read_start (set_lower_reading true s).

Definition stop_lower_reads (s : tls_state S) : tls_state S :=
  if lower_reading s then happen tv_read_stop (set_lower_reading false s) else s.

Definition terminal_event (k : terminal_read_kind) : tls_event := match k with terminal_error code => te_read_error code | _ => te_eof end.

Definition deliver_terminal_read (s : tls_state S) : tls_state S :=
  if terminal_read_delivered s || negb (has_terminal s) || negb (on_read s) || match pending_clear s with [] => false | _ :: _ => true end then s
  else emit (terminal_event (terminal_read s)) (set_terminal_read_delivered true (set_on_read false s)).

Definition set_terminal (k : terminal_read_kind) (s : tls_state S) : tls_state S :=
  if has_terminal s then deliver_terminal_read s
  else
    let s := set_terminal_read k s in
    deliver_terminal_read (if is_open s then stop_lower_reads s else s).

Definition set_terminal_read_eof : proc := set_terminal terminal_eof.
Definition set_terminal_read_error (code : error_code) : proc := set_terminal (terminal_error code).

Definition discard_pending_clear (s : tls_state S) : tls_state S := set_pending_clear_bytes 0 (set_pending_clear [] s).

Definition pop_pending (bytes : str) (rest : list str) (s : tls_state S) : tls_state S :=
  set_pending_clear_bytes (pending_clear_bytes s - length bytes) (set_pending_clear rest s).

Fixpoint deliver_pending_loop (fuel : nat) (s : tls_state S) : tls_state S :=
  match fuel with
  | O => s
  | Datatypes.S fuel' =>
    match pending_clear s with
    | bytes :: rest =>
      if on_read s then deliver_pending_loop fuel' (emit (te_data bytes) (pop_pending bytes rest s)) else s
    | [] => s
    end
  end.

(** ** Ending *)

Definition close_lower (s : tls_state S) : tls_state S :=
  if closed s then s else happen tv_close (set_on_close [] (set_close_callbacks (Some (on_close s)) (set_closed true s))).

Definition remaining (w : clear_write) : nat := length (cw_payload w) - cw_offset w.

Definition pop_clear_write (w : clear_write) (rest : list clear_write) (s : tls_state S) : tls_state S :=
  set_pending_clear_write_bytes (pending_clear_write_bytes s - remaining w) (set_clear_writes rest s).

Fixpoint fail_writes_loop (fuel : nat) (code : error_code) (s : tls_state S) : tls_state S :=
  match fuel, clear_writes s with
  | Datatypes.S fuel', current :: rest => fail_writes_loop fuel' code (emit (te_written (cw_done current) (Some code)) (pop_clear_write current rest s))
  | _, _ => s
  end.

Definition fail_pending_clear_writes (code : error_code) (s : tls_state S) : tls_state S :=
  fail_writes_loop (length (clear_writes s) + rounds) code s.

Definition fail (error : tls_error) (s : tls_state S) : tls_state S :=
  if failed s || closed s then s
  else
    let s := fail_pending_clear_writes (error_code_of error) (set_terminal_error_code (error_code_of error) (set_failed true s)) in
    let s := if handshake_callback s then emit (te_handshake (Err error)) (set_handshake_callback false s)
             else set_terminal_read_error (error_code_of error) s in
    close_lower s.

(** ** Encrypted output *)

Definition flush_encrypted_writes (s : tls_state S) : tls_state S :=
  if encrypted_write_active s || closed s then s
  else
    match encrypted_writes s with
    | [] => s
    | item :: _ => happen (tv_write (ew_payload item)) (set_encrypted_write_active true s)
    end.

(** The loop of [drain_wbio]: what it pulls is queued. *)
Fixpoint pull_loop (fuel : nat) (s : tls_state S) (queued : bool) : tls_state S * bool :=
  match fuel with
  | O => (s, queued)
  | Datatypes.S fuel' =>
    match ssl_pull (ssl s) with
    | (x, None) => (set_ssl x s, queued)
    | (x, Some b) =>
      pull_loop fuel' (happen (tv_ssl_output b) (set_encrypted_writes (encrypted_writes s ++ [EncryptedWrite b None]) (set_ssl x s))) true
    end
  end.

Definition set_last_done (d : write_done) (l : list encrypted_write) : list encrypted_write :=
  match rev l with
  | [] => []
  | last :: front => rev front ++ [EncryptedWrite (ew_payload last) (Some d)]
  end.

Definition pull_output (s : tls_state S) : tls_state S * bool := pull_loop (Datatypes.S (ssl_output (ssl s))) s false.

(** [done] with what it runs when nothing was queued. *)
Definition drain_wbio (done : option (write_done * proc)) (s : tls_state S) : tls_state S :=
  let '(s, queued) := pull_output s in
  flush_encrypted_writes
    (match done with
     | None => s
     | Some (d, now) => if queued then set_encrypted_writes (set_last_done d (encrypted_writes s)) s else now s
     end).

(** ** Clear writes *)

Inductive write_result := loop_written | loop_stuck | loop_status (status : ssl_status).

(** OpenSSL took [written] bytes of the first write. *)
Definition advance_write (written : nat) (s : tls_state S) : tls_state S :=
  match clear_writes s with
  | [] => s
  | current :: rest =>
    set_pending_clear_write_bytes (pending_clear_write_bytes s - written)
      (set_clear_writes (ClearWrite (cw_payload current) (cw_offset current + written) (cw_done current) :: rest)
        (happen (tv_ssl_write (cw_done current) (take written (drop (cw_offset current) (cw_payload current)))) s))
  end.

Fixpoint write_loop (fuel : nat) (s : tls_state S) : tls_state S * write_result :=
  match fuel, clear_writes s with
  | Datatypes.S fuel', current :: _ =>
    if cw_offset current <? length (cw_payload current) then
      match ssl_write (drop (cw_offset current) (cw_payload current)) (ssl s) with
      | (x, inl 0) => (set_ssl x s, loop_stuck)
      | (x, inl written) => write_loop fuel' (drain_wbio None (advance_write written (set_ssl x s)))
      | (x, inr status) => (set_ssl x s, loop_status status)
      end
    else (s, loop_written)
  | _, _ => (s, loop_written)
  end.

Definition pop_first (s : tls_state S) : tls_state S := set_clear_writes (tail (clear_writes s)) s.

(** The write cannot go on. *)
Definition write_failed (error : tls_error) (s : tls_state S) : tls_state S :=
  match clear_writes s with
  | [] => s
  | current :: rest => fail error (emit (te_written (cw_done current) (Some (tls_code protocol_error))) (pop_clear_write current rest s))
  end.

(** The report of a write that is done. *)
Definition report_written (again : proc) (id : nat) (failure : option error_code) (s : tls_state S) : tls_state S :=
  let s := set_clear_write_in_progress false (emit (te_written id failure) s) in
  match failure with None => again s | Some _ => s end.

Definition retry_write (again : proc) (failure : option tls_error) (s : tls_state S) : tls_state S :=
  let s := set_clear_write_waiting_for_write false s in
  match failure with Some e => fail e s | None => again s end.

Definition writes_blocked (s : tls_state S) : bool :=
  negb (is_open s) || closing s || closed s || failed s || processing_clear_writes s || clear_write_waiting_for_read s
  || clear_write_waiting_for_write s || clear_write_in_progress s.

Definition finish_processing (again : proc) (s : tls_state S) : tls_state S :=
  let s := set_processing_clear_writes false s in
  if clear_write_in_progress s || closed s || failed s then s
  else match clear_writes s with [] => s | _ :: _ => again s end.

Definition after_write_loop (again : proc) (id : nat) (r : write_result) (s : tls_state S) : tls_state S :=
  match r with
  | loop_written => drain_wbio (Some (done_written id, report_written again id None)) (set_clear_write_in_progress true (pop_first s))
  | loop_stuck => write_failed (make_tls_error protocol_error (lit "TLS write made no progress")) s
  | loop_status want_write => drain_wbio (Some (done_retry, retry_write again None)) (set_clear_write_waiting_for_write true s)
  | loop_status want_read => drain_wbio None (start_lower_reads (set_clear_write_waiting_for_read true s))
  | loop_status _ => write_failed (make_tls_error protocol_error (drain_openssl_errors (lit "TLS write failed") (ssl_errors (ssl s)))) s
  end.

Fixpoint process_loop (fuel : nat) (s : tls_state S) : tls_state S :=
  match fuel with
  | O => s
  | Datatypes.S fuel' =>
    if writes_blocked s then s
    else
      match clear_writes s with
      | [] => s
      | current :: _ =>
        let '(s, r) := write_loop (Datatypes.S (remaining current)) (set_processing_clear_writes true s) in
        finish_processing (process_loop fuel') (after_write_loop (process_loop fuel') (cw_done current) r s)
      end
  end.

Definition process_clear_writes (s : tls_state S) : tls_state S := process_loop (length (clear_writes s) + rounds) s.

(** ** Clear reads *)

(** The buffer is empty while the callback runs. *)
Definition queue_or_deliver_clear (s : tls_state S) : tls_state S :=
  let bytes := clear_buffer s in
  let s := set_clear_buffer [] s in
  match bytes with
  | [] => s
  | _ =>
    let s := happen (tv_ssl_read bytes) s in
    if on_read s then emit (te_data bytes) s
    else if (max_pending_read_bytes <? length bytes) || (max_pending_read_bytes - length bytes <? pending_clear_bytes s) then
      fail (make_tls_error read_buffer_limit (lit "TLS read buffer limit reached")) s
    else set_pending_clear (pending_clear s ++ [bytes]) (set_pending_clear_bytes (pending_clear_bytes s + length bytes) s)
  end.

Fixpoint read_loop (fuel : nat) (s : tls_state S) : tls_state S :=
  match fuel with
  | O => s
  | Datatypes.S fuel' =>
    match ssl_read (ssl s) with
    | (x, inl bytes) =>
      let s := queue_or_deliver_clear (drain_wbio None (set_clear_buffer bytes (set_ssl x s))) in
      if failed s || closed s then s else read_loop fuel' s
    | (x, inr status) =>
      let s := drain_wbio None (set_ssl x s) in
      match status with
      | want_read | want_write => s
      | zero_return => set_terminal_read_eof (set_close_notify_received true s)
      | ssl_failure => fail (make_tls_error protocol_error (drain_openssl_errors (lit "TLS read failed") (ssl_errors (ssl s)))) s
      end
    end
  end.

Definition read_clear_from_ssl (s : tls_state S) : tls_state S :=
  if negb (is_open s) || closed s || failed s || has_terminal s then s else read_loop (Datatypes.S (ssl_input (ssl s))) s.

Definition deliver_pending_clear (s : tls_state S) : tls_state S :=
  deliver_pending_loop (Datatypes.S (length (pending_clear s) + ssl_input (ssl s))) s.

(** ** The stream *)

Definition read_start (s : tls_state S) : tls_state S :=
  let s := deliver_terminal_read (deliver_pending_clear (set_on_read true s)) in
  if has_terminal s then s
  else
    let s := if is_open s && on_read s then start_lower_reads s else s in
    if is_open s && on_read s then read_clear_from_ssl s else s.

Definition read_stop (s : tls_state S) : tls_state S :=
  let s := set_on_read false s in
  if is_open s && negb (clear_write_waiting_for_read s) then stop_lower_reads s else s.


Definition push_write (payload : str) (s : tls_state S) : tls_state S :=
  let id := next_write s in
  set_clear_writes (clear_writes s ++ [ClearWrite payload 0 id])
    (set_pending_clear_write_bytes (pending_clear_write_bytes s + length payload)
      (happen (tv_accept id payload) (set_next_write (Datatypes.S id) s))).

Definition refuse_write (failure : option error_code) (s : tls_state S) : tls_state S :=
  emit (te_written (next_write s) failure) (set_next_write (Datatypes.S (next_write s)) s).

Definition write (payload : str) (s : tls_state S) : tls_state S :=
  if negb (is_open s) || closing s then refuse_write (Some (tls_code tls_closed)) s
  else
    match payload with
    | [] => refuse_write None s
    | _ =>
      if (max_pending_write_bytes <? length payload) || (max_pending_write_bytes - length payload <? pending_clear_write_bytes s) then
        refuse_write (Some (tls_code write_buffer_limit)) s
      else process_clear_writes (push_write payload s)
    end.

Definition close (s : tls_state S) : tls_state S :=
  let id := next_close s in
  let s := set_next_close (Datatypes.S id) s in
  if closed s then emit (te_closed id) s
  else
    let s := set_on_close (on_close s ++ [id]) s in
    if closing s then s
    else
      let s := set_on_read false (discard_pending_clear (set_closing true s)) in
      let s := fail_pending_clear_writes (tls_code tls_closed) s in
      drain_wbio (Some (done_close, close_lower)) (set_ssl (ssl_shutdown (ssl s)) s).

(** [handshake_operation::active]. *)
Definition active (s : tls_state S) : bool := negb (is_open s) && negb (closed s) && negb (failed s).

Definition cancel (error : tls_error) (s : tls_state S) : tls_state S := if active s then fail error s else s.

Definition run_tls_cmd (s : tls_state S) (c : tls_cmd) : tls_state S :=
  match c with
  | tc_read_start => read_start s
  | tc_read_stop => read_stop s
  | tc_write payload => write payload s
  | tc_close => close s
  | tc_cancel e => cancel e s
  end.

(** ** The handshake *)

Definition drive_handshake (s : tls_state S) : tls_state S :=
  if closed s || failed s || is_open s then s
  else
    let '(x, status) := ssl_handshake (ssl s) in
    let s := drain_wbio None (set_ssl x s) in
    match status with
    | hs_done =>
      let s := set_is_open true s in
      let s := if handshake_callback s then emit (te_handshake (Ok (ssl_alpn (ssl s)))) (set_handshake_callback false s) else s in
      read_clear_from_ssl s
    | hs_want => s
    | hs_unverified reason => fail (make_tls_error verification_failed reason) s
    | hs_failed => fail (make_tls_error handshake_failed (drain_openssl_errors (lit "TLS handshake failed") (ssl_errors (ssl s)))) s
    end.

Definition start (s : tls_state S) : tls_state S := drive_handshake (start_lower_reads s).

(** ** Reports of the lower stream *)

Inductive lower_read := lr_bytes (bytes : str) | lr_eof | lr_error (e : tls_error).

Fixpoint feed_loop (fuel : nat) (bytes : str) (x : S) : S * bool :=
  match fuel, bytes with
  | _, [] => (x, true)
  | O, _ => (x, false)
  | Datatypes.S fuel', _ =>
    match ssl_feed bytes x with
    | (x', 0) => (x', false)
    | (x', written) => feed_loop fuel' (drop written bytes) x'
    end
  end.

Definition after_feed (s : tls_state S) : tls_state S :=
  let s := if is_open s then s else drive_handshake s in
  if is_open s then
    let s := read_clear_from_ssl s in
    let s := if clear_write_waiting_for_read s then process_clear_writes (set_clear_write_waiting_for_read false s) else s in
    if negb (on_read s) && negb (clear_write_waiting_for_read s) then stop_lower_reads s else s
  else s.

Definition on_lower_read (r : lower_read) (s : tls_state S) : tls_state S :=
  if closed s || failed s then s
  else
    match r with
    | lr_eof =>
      if negb (is_open s) then fail (make_tls_error handshake_failed (lit "TLS handshake ended before completion")) s
      else if close_notify_received s || has_terminal s then set_terminal_read_eof s
      else fail (make_tls_error unexpected_eof (lit "TLS transport ended before close_notify")) s
    | lr_error e => fail e s
    | lr_bytes bytes =>
      let '(x, fed) := feed_loop (length bytes) bytes (ssl s) in
      let s := set_ssl x s in
      if fed then after_feed s
      else fail (make_tls_error protocol_error (drain_openssl_errors (lit "failed to feed TLS input") (ssl_errors (ssl s)))) s
    end.

Definition run_done (d : write_done) (failure : option tls_error) (s : tls_state S) : tls_state S :=
  match d with
  | done_close => close_lower s
  | done_retry => retry_write process_clear_writes failure s
  | done_written id => report_written process_clear_writes id (error_code_of <$> failure) s
  end.

Definition run_done_option (d : option write_done) (failure : option tls_error) (s : tls_state S) : tls_state S :=
  match d with Some d => run_done d failure s | None => s end.

(** An error without a code is none, and after [fail] every report is an error
    (its message has no use then). *)
Definition effective_failure (failure : option tls_error) (s : tls_state S) : option tls_error :=
  match (if code_set (default (tls_code tls_ok) (error_code_of <$> failure)) then failure else None) with
  | Some e => Some e
  | None =>
    if failed s then Some (TlsError (if code_set (terminal_error_code s) then terminal_error_code s else tls_code tls_closed) []) else None
  end.

Definition on_encrypted_written (failure : option tls_error) (s : tls_state S) : tls_state S :=
  match encrypted_writes s with
  | [] => s
  | item :: rest =>
    let s := set_encrypted_write_active false (set_encrypted_writes rest s) in
    let error := effective_failure failure s in
    let s := run_done_option (ew_done item) error s in
    match error with
    | Some e => if failed s then s else fail e s
    | None => flush_encrypted_writes s
    end
  end.

(** The callbacks of [lower_.close], one after the other. *)
Fixpoint report_closed (ids : list nat) (s : tls_state S) : tls_state S :=
  match ids with
  | [] => set_close_callbacks None s
  | id :: rest => report_closed rest (emit (te_closed id) (set_close_callbacks (Some rest) s))
  end.

Definition on_lower_closed (s : tls_state S) : tls_state S :=
  match close_callbacks s with None => s | Some ids => report_closed ids s end.

Inductive tls_op := tls_read (r : lower_read) | tls_written (failure : option tls_error) | tls_lower_closed | tls_calls (cmds : list tls_cmd).

(** A write reports once, reads are reported while they are on. *)
Definition run_tls_op (s : tls_state S) (op : tls_op) : tls_state S :=
  match op with
  | tls_read r => if lower_reading s then on_lower_read r s else s
  | tls_written failure => if encrypted_write_active s then on_encrypted_written failure s else s
  | tls_lower_closed => if closed s then on_lower_closed s else s
  | tls_calls cmds => foldl run_tls_cmd s cmds
  end.
End operations.

(** ** Runs *)

Section runs.
Context {S : Type} `{SSL : Ssl S} (max_pending_write_bytes max_pending_read_bytes rounds : nat).
Context (calls : list tls_event → tls_event → list tls_cmd).

(** Callbacks, nested to a given depth: [calls] says what the user calls. *)
Fixpoint level (depth : nat) (e : tls_event) (s : tls_state S) : tls_state S :=
  let s := happen e s in
  match depth with
  | O => s
  | Datatypes.S depth' =>
    foldl (run_tls_cmd max_pending_write_bytes max_pending_read_bytes rounds (level depth')) s (calls (history s) e)
  end.

Definition new_tls (x : S) : tls_state S :=
  TlsState x true false [] [] [] [] [] (tls_code tls_ok) 0 0 terminal_none false false false false false false false false false false false
    false None 0 0 [].

Definition run_tls (depth : nat) (x : S) (ops : list tls_op) : tls_state S :=
  foldl (run_tls_op max_pending_write_bytes max_pending_read_bytes rounds (level depth))
    (start max_pending_read_bytes rounds (level depth) (new_tls x)) ops.
End runs.
