(* ===== verification/TlsTheory.v ===== *)
(** * The steps of a TLS stream

    [step] is an abstract machine of the stream: the clear data, the writes, the
    encrypted queue, the handshake and the closing.  Every operation of
    [TlsStream], with whatever the user calls back, is a sequence of its steps, so
    that an invariant is proved by cases on the steps.  Steps of a report of the
    lower stream ([top]) may also bring new input. *)

From stdpp Require Import relations.
From S2P Require Import Prelude Text TlsState TlsStream.

Open Scope nat_scope.

Section machine.
Context {S : Type} `{SSL : Ssl S} `{Laws : !SslLaws S} (max_pending_write_bytes max_pending_read_bytes : nat).
Implicit Types s : tls_state S.

(** Not a report that belongs to a write of the user: OpenSSL leaves nothing to
    pull after its output was drained, so that writes are reported at once. *)
Definition unreported (w : encrypted_write) : Prop := ∀ id, ew_done w ≠ Some (done_written id).

Definition unfinished (w : clear_write) : Prop := cw_offset w < length (cw_payload w).

(** Changes of what no step depends on. *)
Record inert s s' : Prop := {
  in_ssl : ssl s' = ssl s;
  in_handshake : handshake_callback s' = handshake_callback s;
  in_on_read : on_read s' = on_read s;
  in_on_close : on_close s' = on_close s;
  in_pending : pending_clear s' = pending_clear s;
  in_writes : clear_writes s' = clear_writes s;
  in_encrypted : map ew_payload (encrypted_writes s') = map ew_payload (encrypted_writes s);
  in_buffer : clear_buffer s' = clear_buffer s;
  in_pending_bytes : pending_clear_bytes s' = pending_clear_bytes s;
  in_write_bytes : pending_clear_write_bytes s' = pending_clear_write_bytes s;
  in_terminal : terminal_read s' = terminal_read s;
  in_active : encrypted_write_active s' = encrypted_write_active s;
  in_open : is_open s' = is_open s;
  in_delivered : terminal_read_delivered s' = terminal_read_delivered s;
  in_notify : close_notify_received s' = close_notify_received s ∨ terminal_read s ≠ terminal_none;
  in_closing : closing s' = closing s;
  in_closed : closed s' = closed s;
  in_failed : failed s' = failed s;
  in_callbacks : close_callbacks s' = close_callbacks s;
  in_next_write : next_write s' = next_write s;
  in_next_close : next_close s' = next_close s;
  in_history : history s' = history s ∨ history s' = history s ++ [tv_read_stop]
}.

Definition store (s : tls_state S) : tls_state S :=
  set_pending_clear (pending_clear s ++ [clear_buffer s]) (set_pending_clear_bytes (pending_clear_bytes s + length (clear_buffer s))
    (happen (tv_ssl_read (clear_buffer s)) (set_clear_buffer [] s))).

Inductive step (top : bool) : relation (tls_state S) :=
| s_inert s s' : inert s s' → step top s s'
| s_ssl x s : (ssl_ended (ssl s) → ssl_ended x) → top = true ∨ ssl_input x ≤ ssl_input (ssl s) → step top s (set_ssl x s)
| s_get x bytes s :
    is_open s = true → closed s = false → failed s = false → ¬ ssl_ended (ssl s) → clear_buffer s = [] → bytes ≠ [] →
    ssl_input x < ssl_input (ssl s) → step top s (set_clear_buffer bytes (set_ssl x s))
| s_store s :
    on_read s = false → clear_buffer s ≠ [] → failed s = false → length (clear_buffer s) + pending_clear_bytes s ≤ max_pending_read_bytes →
    step top s (store s)
| s_direct s :
    on_read s = true → pending_clear s = [] → clear_buffer s ≠ [] →
    step top s (happen (te_data (clear_buffer s)) (happen (tv_ssl_read (clear_buffer s)) (set_clear_buffer [] s)))
| s_lose code s :
    on_read s = false → clear_buffer s ≠ [] → failed s = false → closed s = false →
    step top s (set_terminal_error_code code (set_failed true (happen (tv_ssl_read (clear_buffer s)) (set_clear_buffer [] s))))
| s_on_read v s : step top s (set_on_read v s)
| s_pop bytes rest s : on_read s = true → pending_clear s = bytes :: rest → step top s (happen (te_data bytes) (pop_pending bytes rest s))
| s_closing s : step top s (set_on_read false (discard_pending_clear (set_closing true s)))
| s_eof s :
    terminal_read s = terminal_none → failed s = false → is_open s = true → clear_buffer s = [] → ssl_ended (ssl s) →
    step top s (set_terminal_read terminal_eof (set_close_notify_received true s))
| s_error code s :
    terminal_read s = terminal_none → failed s = true → clear_buffer s = [] → step top s (set_terminal_read (terminal_error code) s)
| s_terminal s :
    terminal_read_delivered s = false → terminal_read s ≠ terminal_none → on_read s = true → pending_clear s = [] →
    step top s (happen (terminal_event (terminal_read s)) (set_terminal_read_delivered true (set_on_read false s)))
| s_fail code s : failed s = false → closed s = false → step top s (set_terminal_error_code code (set_failed true s))
| s_opened alpn s :
    handshake_callback s = true → is_open s = false → failed s = false → closed s = false →
    step top s (happen (te_handshake (Ok alpn)) (set_handshake_callback false (set_is_open true s)))
| s_open s : handshake_callback s = false → failed s = false → closed s = false → step top s (set_is_open true s)
| s_refused e s :
    handshake_callback s = true → failed s = true → step top s (happen (te_handshake (Err e)) (set_handshake_callback false s))
| s_accept payload s :
    is_open s = true → closing s = false → payload ≠ [] → length payload + pending_clear_write_bytes s ≤ max_pending_write_bytes →
    step top s (push_write payload s)
| s_refuse failure s : step top s (happen (te_written (next_write s) failure) (set_next_write (Datatypes.S (next_write s)) s))
| s_take n w rest s :
    clear_writes s = w :: rest → cw_offset w + n ≤ length (cw_payload w) → n ≠ 0 → step top s (advance_write n s)
| s_done w rest s :
    clear_writes s = w :: rest → cw_offset w = length (cw_payload w) →
    step top s (happen (te_written (cw_done w) None) (set_clear_write_in_progress true (set_clear_writes rest s)))
| s_drop code w rest s :
    clear_writes s = w :: rest → step top s (happen (te_written (cw_done w) (Some code)) (pop_clear_write w rest s))
| s_pull bytes s :
    step top s (happen (tv_ssl_output bytes) (set_encrypted_writes (encrypted_writes s ++ [EncryptedWrite bytes None]) s))
| s_send item rest s :
    encrypted_write_active s = false → closed s = false → encrypted_writes s = item :: rest →
    step top s (happen (tv_write (ew_payload item)) (set_encrypted_write_active true s))
| s_sent item rest s :
    encrypted_write_active s = true → encrypted_writes s = item :: rest →
    step top s (set_encrypted_write_active false (set_encrypted_writes rest s))
| s_close_lower s :
    closed s = false → step top s (happen tv_close (set_on_close [] (set_close_callbacks (Some (on_close s)) (set_closed true s))))
| s_read_on s : closed s = false → step top s (happen tv_read_start (set_lower_reading true s))
| s_close_call s : closed s = false → step top s (set_on_close (on_close s ++ [next_close s]) (set_next_close (Datatypes.S (next_close s)) s))
| s_close_late s : closed s = true → step top s (happen (te_closed (next_close s)) (set_next_close (Datatypes.S (next_close s)) s))
| s_close_told id rest s :
    top = true → closed s = true → close_callbacks s = Some (id :: rest) → step top s (happen (te_closed id) (set_close_callbacks (Some rest) s))
| s_close_end s : top = true → closed s = true → close_callbacks s = Some [] → step top s (set_close_callbacks None s).

Definition steps (top : bool) : relation (tls_state S) := rtc (step top).

Lemma step_top s s' : step false s s' → step true s s'.
Proof. destruct 1; try (by econstructor; eauto); constructor; auto. Qed.

Lemma steps_top s s' : steps false s s' → steps true s s'.
Proof. induction 1; [done|]. by eapply rtc_l; [apply step_top|]. Qed.

Lemma steps_one top s s' : step top s s' → steps top s s'.
Proof. apply rtc_once. Qed.

(** How much the user may still be handed. *)
Definition measure (s : tls_state S) : nat :=
  length (pending_clear s) + match clear_buffer s with [] => 0 | _ => 1 end + ssl_input (ssl s).

Lemma step_measure s s' : step false s s' → measure s' ≤ measure s.
Proof.
  unfold measure. destruct 1; try match goal with H : inert _ _ |- _ => destruct H end; cbn; try lia.
  - by rewrite in_pending0, in_buffer0, in_ssl0.
  - rewrite H3. destruct bytes; [done|]. lia.
  - rewrite length_app. cbn. destruct (clear_buffer s); [congruence|lia].
  - rewrite H0. cbn. lia.
  - unfold advance_write. rewrite H. cbn. lia.
Qed.

Lemma steps_measure s s' : steps false s s' → measure s' ≤ measure s.
Proof. induction 1 as [|s s1 s' H _ IH]; [lia|]. apply step_measure in H. lia. Qed.

Lemma steps_input s s' : steps false s s' → ssl_input (ssl s') ≤ ssl_input (ssl s).
Proof.
  induction 1 as [|s s1 s' H _ IH]; [lia|]. etransitivity; [exact IH|].
  destruct H; try match goal with H : inert _ _ |- _ => destruct H end; cbn; try lia.
  - by rewrite in_ssl0.
  - unfold advance_write. by destruct (clear_writes s).
Qed.

(** After the lower stream was told to close, its callbacks wait for its report. *)
Lemma steps_closed s s' : steps false s s' → closed s = true → closed s' = true ∧ close_callbacks s' = close_callbacks s.
Proof.
  induction 1 as [|s s1 s' H _ IH]; [auto|]. intros Hc. assert (H1 : closed s1 = true ∧ close_callbacks s1 = close_callbacks s).
  { destruct H; try match goal with H : inert _ _ |- _ => destruct H end; cbn; try done; try congruence; [split; congruence|].
    unfold advance_write. by destruct (clear_writes s). }
  destruct H1 as [H1 H2]. destruct (IH H1) as [H3 H4]. split; congruence.
Qed.

Lemma step_flags top s s' : step top s s' →
  (failed s = true → failed s' = true) ∧ (is_open s = true → is_open s' = true) ∧ (closed s = true → closed s' = true) ∧
  (terminal_read s ≠ terminal_none → terminal_read s' = terminal_read s).
Proof.
  destruct 1; try match goal with H : inert _ _ |- _ => destruct H end; cbn; try (split_and!; congruence).
  unfold advance_write. by destruct (clear_writes s).
Qed.

Lemma steps_flags top s s' : steps top s s' →
  (failed s = true → failed s' = true) ∧ (is_open s = true → is_open s' = true) ∧ (closed s = true → closed s' = true) ∧
  (terminal_read s ≠ terminal_none → terminal_read s' = terminal_read s).
Proof.
  induction 1 as [|s s1 s' H _ IH]; [done|]. apply step_flags in H as (H1 & H2 & H3 & H4). destruct IH as (H5 & H6 & H7 & H8).
  split_and!; auto. intros Ht. specialize (H4 Ht). rewrite H8; congruence.
Qed.

(** ** What the operations rest on *)

Record ready s : Prop := {
  rd_buffer : clear_buffer s = [];
  rd_writes : Forall unfinished (clear_writes s);
  rd_encrypted : Forall unreported (encrypted_writes s);
  rd_notify : close_notify_received s = true → terminal_read s ≠ terminal_none
}.

Definition quiet s : Prop := on_read s = true → pending_clear s = [].

Definition good s s' : Prop := steps false s s' ∧ ready s' ∧ (quiet s → quiet s').
Definition goes (f : tls_state S → tls_state S) : Prop := ∀ s, ready s → good s (f s).

Lemma tls_good_refl s : ready s → good s s.
Proof. intros H. split; [apply rtc_refl|auto]. Qed.

Lemma tls_good_trans s s1 s' : good s s1 → (ready s1 → good s1 s') → good s s'.
Proof. intros (H1 & H2 & H3) H. destruct (H H2) as (H4 & H5 & H6). split; [by etransitivity|auto]. Qed.

Lemma good_step s s' : step false s s' → ready s' → (quiet s → quiet s') → good s s'.
Proof. intros H ??. split; [by apply steps_one|auto]. Qed.

Lemma good_after s s0 s' : steps false s s0 → (quiet s → quiet s0) → good s0 s' → good s s'.
Proof. intros H Hq (H1 & H2 & H3). split; [by etransitivity|auto]. Qed.

Lemma good_inert s s' : inert s s' → Forall unreported (encrypted_writes s') → ready s → good s s'.
Proof.
  intros H He [H1 H2 H3 H4]. apply good_step; [by apply s_inert|destruct H; constructor; try congruence|].
  { rewrite in_terminal0. destruct in_notify0 as [->|]; auto. }
  destruct H. intros Hq Hr. rewrite in_pending0. apply Hq. congruence.
Qed.

Lemma foldl_good {A} (f : tls_state S → A → tls_state S) (l : list A) : (∀ a, goes (λ s, f s a)) → goes (λ s, foldl f s l).
Proof.
  intros Hf. induction l as [|a l IH]; intros s Hs; [by apply tls_good_refl|]. cbn [foldl]. eapply tls_good_trans; [by apply Hf|]. auto.
Qed.

(** ** Draining the output *)

(** What draining leaves alone. *)
Record drained s s' : Prop := {
  dr_handshake : handshake_callback s' = handshake_callback s;
  dr_on_read : on_read s' = on_read s;
  dr_pending : pending_clear s' = pending_clear s;
  dr_pending_bytes : pending_clear_bytes s' = pending_clear_bytes s;
  dr_writes : clear_writes s' = clear_writes s;
  dr_buffer : clear_buffer s' = clear_buffer s;
  dr_terminal : terminal_read s' = terminal_read s;
  dr_notify : close_notify_received s' = close_notify_received s;
  dr_open : is_open s' = is_open s;
  dr_closed : closed s' = closed s;
  dr_failed : failed s' = failed s;
  dr_ended : ssl_ended (ssl s) → ssl_ended (ssl s');
  dr_input : ssl_input (ssl s') ≤ ssl_input (ssl s);
  dr_encrypted : Forall unreported (encrypted_writes s) → Forall unreported (encrypted_writes s')
}.

Lemma drained_refl s : drained s s.
Proof. by constructor. Qed.

Lemma drained_trans s s1 s' : drained s s1 → drained s1 s' → drained s s'.
Proof. intros [] []. constructor; try congruence; auto. lia. Qed.

Lemma drained_ready s s' : drained s s' → ready s → ready s'.
Proof. intros [] []. constructor; [congruence|congruence|auto|by rewrite dr_notify0, dr_terminal0]. Qed.

Lemma drained_good s s' : steps false s s' → drained s s' → ready s → good s s'.
Proof. intros H Hd Hs. split; [done|]. split; [by eapply drained_ready|]. destruct Hd. intros Hq Hr. rewrite dr_pending0. apply Hq. congruence. Qed.

Lemma flush_drained s : steps false s (flush_encrypted_writes s) ∧ drained s (flush_encrypted_writes s).
Proof.
  unfold flush_encrypted_writes. destruct (_ || _) eqn:E; [split; [apply rtc_refl|apply drained_refl]|]. apply orb_false_iff in E as [Ea Ec].
  destruct (encrypted_writes s) as [|item rest] eqn:Ee; [split; [apply rtc_refl|apply drained_refl]|]. split; [|by constructor].
  apply steps_one. by eapply s_send.
Qed.

Lemma pull_loop_drained fuel : ∀ s queued s' queued',
  pull_loop fuel s queued = (s', queued') → ssl_output (ssl s) < fuel →
  steps false s s' ∧ drained s s' ∧ ssl_output (ssl s') = 0 ∧ (ssl_output (ssl s) = 0 → queued' = queued).
Proof.
  induction fuel as [|fuel IH]; intros s queued s' queued' H Hf; [lia|]. cbn [pull_loop] in H.
  assert (Hx : ∀ x b, ssl_pull (ssl s) = (x, b) → steps false s (set_ssl x s) ∧ drained s (set_ssl x s)).
  { intros x b Hp. pose proof (ended_pull (ssl s)) as He. pose proof (pull_input (ssl s)) as Hi. rewrite Hp in He, Hi.
    split; [apply steps_one, s_ssl; auto|by constructor]. }
  destruct (ssl_pull (ssl s)) as [x [b|]] eqn:Ep; destruct (Hx _ _ eq_refl) as [Hs1 Hd1].
  - destruct (pull_some _ _ _ Ep) as [Hb Ho]. apply IH in H as (Hs2 & Hd2 & H3 & H4); [|cbn; lia]. split_and!.
    + etransitivity; [exact Hs1|]. eapply rtc_l; [|exact Hs2]. apply (s_pull false b (set_ssl x s)).
    + eapply drained_trans; [|exact Hd2]. destruct Hd1. constructor; try done. intros Hu. apply Forall_app_2; [done|by repeat constructor].
    + done.
    + intros H0. pose proof (pull_empty (ssl s) H0) as Hn. by rewrite Ep in Hn.
  - simplify_eq. split_and!; try done. by apply (pull_none (ssl s)).
Qed.

Lemma pull_output_drained s :
  let '(s', queued) := pull_output s in
  steps false s s' ∧ drained s s' ∧ ssl_output (ssl s') = 0 ∧ (ssl_output (ssl s) = 0 → queued = false).
Proof. unfold pull_output. destruct (pull_loop _ s false) as [s' queued] eqn:E. eapply pull_loop_drained; [done|lia]. Qed.

Lemma flush_output s : ssl (flush_encrypted_writes s) = ssl s.
Proof. unfold flush_encrypted_writes. destruct (_ || _); [done|]. by destruct (encrypted_writes s). Qed.

Lemma drain_none s :
  steps false s (drain_wbio None s) ∧ drained s (drain_wbio None s) ∧ ssl_output (ssl (drain_wbio None s)) = 0.
Proof.
  unfold drain_wbio. pose proof (pull_output_drained s) as H. destruct (pull_output s) as [s1 queued]. destruct H as (H1 & H2 & H3 & _).
  destruct (flush_drained s1) as [H4 H5]. split_and!; [by etransitivity|by eapply drained_trans|by rewrite flush_output].
Qed.

Lemma set_last_done_payloads d l : map ew_payload (set_last_done d l) = map ew_payload l.
Proof.
  unfold set_last_done. destruct (rev l) as [|last front] eqn:E; apply (f_equal (@rev _)) in E; rewrite rev_involutive in E; subst; [done|]. cbn.
  by rewrite !map_app.
Qed.

Lemma set_last_done_unreported d l : (∀ id, d ≠ done_written id) → Forall unreported l → Forall unreported (set_last_done d l).
Proof.
  intros Hd Hl. unfold set_last_done. destruct (rev l) as [|last front] eqn:E; apply (f_equal (@rev _)) in E; rewrite rev_involutive in E; subst; [done|].
  cbn in Hl. apply Forall_app in Hl as [Hl _]. apply Forall_app_2; [done|]. repeat constructor. intros id [= H]. by apply (Hd id).
Qed.

(** Draining with [done]: it is kept for the last piece, or run at once. *)
Lemma drain_done d now s :
  (∀ id, d ≠ done_written id) → goes now → ready s → good s (drain_wbio (Some (d, now)) s).
Proof.
  intros Hd Hn Hs. unfold drain_wbio. pose proof (pull_output_drained s) as H. destruct (pull_output s) as [s1 queued]. destruct H as (H1 & H2 & _ & _).
  eapply tls_good_trans; [by apply (drained_good s s1)|]. intros Hs1.
  eapply tls_good_trans; [|intros Hs2; apply drained_good; [by apply flush_drained|by apply flush_drained|done]]. destruct queued; [|by apply Hn].
  apply good_inert; [|by apply set_last_done_unreported; [|destruct Hs1]|done]. constructor; cbn; auto. apply set_last_done_payloads.
Qed.

(** ** The operations *)

Section operations.
Context (rounds : nat) (emit : tls_event → tls_state S → tls_state S).
Hypothesis emit_good : ∀ e s, ready s → good (happen e s) (emit e s).

(** A step that ends with an event, and then the callback. *)
Lemma emit_step e s s1 : step false s (happen e s1) → ready s1 → (quiet s → quiet s1) → good s (emit e s1).
Proof.
  intros Hs Hr Hq. apply (tls_good_trans _ (happen e s1)); [|auto]. apply good_step; [done| |done]. by destruct Hr.
Qed.

Ltac inert_step := apply good_inert; [constructor; cbn; auto|cbn|].

Lemma stop_lower_reads_good : goes stop_lower_reads.
Proof.
  intros s Hs. unfold stop_lower_reads. destruct (lower_reading s); [|by apply tls_good_refl]. inert_step; [by destruct Hs|done].
Qed.

Lemma start_lower_reads_good : goes start_lower_reads.
Proof.
  intros s Hs. unfold start_lower_reads. destruct (_ || _) eqn:E; [by apply tls_good_refl|]. breflect.
  apply good_step; [|by destruct Hs|done]. apply s_read_on. by destruct (closed s), (lower_reading s).
Qed.

Lemma deliver_terminal_good : goes (deliver_terminal_read emit).
Proof.
  intros s Hs. unfold deliver_terminal_read. destruct (_ || _) eqn:E; [by apply tls_good_refl|].
  destruct (terminal_read_delivered s) eqn:Ed, (has_terminal s) eqn:Et, (on_read s) eqn:Er, (pending_clear s) eqn:Ep; try done.
  apply emit_step; [|by destruct Hs|done]. apply s_terminal; try done. unfold has_terminal in Et. by destruct (terminal_read s).
Qed.

Lemma set_terminal_new k s0 s :
  has_terminal s = false → good s0 (set_terminal_read k s) → good s0 (set_terminal emit k s).
Proof.
  intros Ht H. unfold set_terminal. rewrite Ht. eapply tls_good_trans; [exact H|]. intros Hs1. destruct (is_open _); [|by apply deliver_terminal_good].
  eapply tls_good_trans; [by apply stop_lower_reads_good|]. apply deliver_terminal_good.
Qed.

Lemma set_terminal_again k s : has_terminal s = true → ready s → good s (set_terminal emit k s).
Proof. intros Ht Hs. unfold set_terminal. rewrite Ht. by apply deliver_terminal_good. Qed.

Lemma no_terminal s : has_terminal s = false → terminal_read s = terminal_none.
Proof. unfold has_terminal. by destruct (terminal_read s). Qed.

Lemma close_lower_good : goes close_lower.
Proof.
  intros s Hs. unfold close_lower. destruct (closed s) eqn:Ec; [by apply tls_good_refl|]. apply good_step; [|by destruct Hs|done]. by apply s_close_lower.
Qed.

Lemma fail_writes_good fuel code : goes (fail_writes_loop emit fuel code).
Proof.
  induction fuel as [|fuel IH]; intros s Hs; cbn [fail_writes_loop]; [by apply tls_good_refl|]. destruct (clear_writes s) as [|w rest] eqn:E; [by apply tls_good_refl|].
  eapply tls_good_trans; [|apply IH]. apply emit_step; [by eapply s_drop| |done]. destruct Hs as [H1 H2 H3 H4]. rewrite E in H2. constructor; cbn; try done.
  by inversion H2.
Qed.

Lemma fail_pending_good code : goes (fail_pending_clear_writes rounds emit code).
Proof. intros s Hs. by apply fail_writes_good. Qed.

(** [fail], when its first step is part of another one. *)
Lemma fail_from error s0 s :
  step false s0 (set_terminal_error_code (error_code_of error) (set_failed true s)) → ready s → (quiet s0 → quiet s) →
  failed s = false → closed s = false → good s0 (fail rounds emit error s).
Proof.
  intros Hst Hs Hq Ef Ec. unfold fail. rewrite Ef, Ec. cbn [orb].
  set (s1 := set_terminal_error_code (error_code_of error) (set_failed true s)).
  assert (Hs1 : good s0 s1) by (apply good_step; [done|by destruct Hs|done]).
  eapply tls_good_trans; [exact Hs1|]. intros Hr1. set (s2 := fail_pending_clear_writes rounds emit (error_code_of error) s1).
  pose proof (fail_pending_good (error_code_of error) s1 Hr1) as Hs2. eapply tls_good_trans; [exact Hs2|]. intros Hr2.
  assert (Hf : failed s2 = true) by (destruct Hs2 as [Hst2 _]; apply steps_flags in Hst2 as [Hst2 _]; by apply Hst2).
  destruct (handshake_callback s2) eqn:Eh.
  - eapply tls_good_trans; [|apply close_lower_good]. apply emit_step; [by apply s_refused|by destruct Hr2|done].
  - eapply tls_good_trans; [|apply close_lower_good]. destruct (has_terminal s2) eqn:Et; [by apply set_terminal_again|].
    apply no_terminal in Et as Hn. apply set_terminal_new; [done|]. apply good_step; [apply s_error; try done; by destruct Hr2| |done].
    destruct Hr2. by constructor.
Qed.

Lemma fail_good error : goes (fail rounds emit error).
Proof.
  intros s Hs. destruct (failed s) eqn:Ef; [unfold fail; rewrite Ef; by apply tls_good_refl|].
  destruct (closed s) eqn:Ec; [unfold fail; rewrite Ef, Ec; by apply tls_good_refl|]. apply fail_from; try done. by apply s_fail.
Qed.
(** *** Writes *)

(** The first write is under way. *)
Record writing w rest s : Prop := {
  wr_buffer : clear_buffer s = [];
  wr_writes : clear_writes s = w :: rest;
  wr_rest : Forall unfinished rest;
  wr_encrypted : Forall unreported (encrypted_writes s);
  wr_notify : close_notify_received s = true → terminal_read s ≠ terminal_none;
  wr_bound : cw_offset w ≤ length (cw_payload w);
  wr_output : cw_offset w = length (cw_payload w) → ssl_output (ssl s) = 0
}.

Lemma write_loop_steps fuel : ∀ w rest s s' r,
  writing w rest s → remaining w < fuel → write_loop fuel s = (s', r) →
  steps false s s' ∧ (quiet s → quiet s') ∧
  ∃ w', writing w' rest s' ∧ cw_done w' = cw_done w ∧ (r = loop_written ↔ cw_offset w' = length (cw_payload w')).
Proof.
  induction fuel as [|fuel IH]; intros w rest s s' r [Hb Hw Hr He Hn Hle Ho] Hf H; [lia|]. cbn [write_loop] in H. rewrite Hw in H.
  destruct (Nat.ltb_spec (cw_offset w) (length (cw_payload w))) as [Hlt|Hge].
  - assert (Hx : ∀ x n, ssl_write (drop (cw_offset w) (cw_payload w)) (ssl s) = (x, n) → step false s (set_ssl x s)).
    { intros x n Hx. pose proof (ended_write (drop (cw_offset w) (cw_payload w)) (ssl s)) as H1.
      pose proof (write_input (drop (cw_offset w) (cw_payload w)) (ssl s)) as H2. rewrite Hx in H1, H2. apply s_ssl; auto. }
    destruct (ssl_write _ _) as [x [n|status]] eqn:Ew; specialize (Hx _ _ eq_refl).
    + destruct n as [|n]; [|].
      * simplify_eq. split; [by apply steps_one|]. split; [done|]. exists w. split; [constructor; try done; lia|]. split; [done|]. split; intros; [done|exfalso; lia].
      * apply write_length in Ew. rewrite length_drop in Ew. set (s1 := advance_write (Datatypes.S n) (set_ssl x s)) in H.
        set (w1 := ClearWrite (cw_payload w) (cw_offset w + Datatypes.S n) (cw_done w)).
        assert (Hs1 : step false (set_ssl x s) s1) by (eapply s_take; [exact Hw|lia|done]).
        assert (Hw1 : clear_writes s1 = w1 :: rest ∧ on_read s1 = on_read s ∧ pending_clear s1 = pending_clear s ∧ clear_buffer s1 = clear_buffer s ∧
          encrypted_writes s1 = encrypted_writes s ∧ close_notify_received s1 = close_notify_received s ∧ terminal_read s1 = terminal_read s) by (unfold s1, advance_write; cbn [clear_writes set_ssl]; rewrite Hw; by split_and!).
        clearbody s1. destruct Hw1 as (Hw1 & Hq1 & Hq2 & Hb1 & He1 & Hn1 & Ht1). destruct (drain_none s1) as (Hd1 & Hd2 & Hd3). destruct Hd2.
        apply (IH w1 rest) in H; [|constructor; cbn; try congruence; [by apply dr_encrypted0; rewrite He1|by rewrite dr_notify0, dr_terminal0, Hn1, Ht1|lia]|unfold remaining in *; cbn; lia].
        destruct H as (H1 & H2 & w' & H3 & H4 & H5). split; [eapply rtc_l; [exact Hx|]; eapply rtc_l; [exact Hs1|]; by etransitivity|].
        split; [|by exists w']. intros Hq. apply H2. intros Hr2. rewrite dr_pending0, Hq2. apply Hq. congruence.
    + simplify_eq. split; [by apply steps_one|]. split; [done|]. exists w. split; [constructor; try done; lia|]. split; [done|]. split; intros; [done|exfalso; lia].
  - simplify_eq. split; [apply rtc_refl|]. split; [done|]. exists w. split; [by constructor|]. split; [done|]. split; [lia|done].
Qed.
Lemma writing_ready w rest s : writing w rest s → unfinished w → ready s.
Proof. intros [] Hu. constructor; try done. rewrite wr_writes0. by constructor. Qed.

Lemma write_failed_good error : goes (write_failed rounds emit error).
Proof.
  intros s Hs. unfold write_failed. destruct (clear_writes s) as [|w rest] eqn:E; [by apply tls_good_refl|].
  eapply tls_good_trans; [|apply fail_good]. apply emit_step; [by eapply s_drop| |done]. destruct Hs as [H1 H2 H3 H4]. rewrite E in H2. inversion H2. by constructor.
Qed.

Lemma report_written_good again id failure s s0 :
  goes again → step false s0 (happen (te_written id failure) s) → ready s → (quiet s0 → quiet s) → good s0 (report_written emit again id failure s).
Proof.
  intros Ha Hs Hr Hq. unfold report_written. eapply tls_good_trans; [by apply emit_step|]. intros H1.
  assert (H2 : good (emit (te_written id failure) s) (set_clear_write_in_progress false (emit (te_written id failure) s))).
  { apply good_inert; [by constructor; auto|by destruct H1|done]. }
  destruct failure; [done|]. eapply tls_good_trans; [exact H2|]. apply Ha.
Qed.

Lemma retry_write_good again failure : goes again → goes (retry_write rounds emit again failure).
Proof.
  intros Ha s Hs. unfold retry_write. apply (tls_good_trans _ (set_clear_write_waiting_for_write false s)); [apply good_inert; [by constructor; auto|by destruct Hs|done]|]. intros H1.
  destruct failure; [by apply fail_good|by apply Ha].
Qed.

(** A write is done: there is nothing to pull, and it is reported at once. *)
Lemma write_done_good again w rest s :
  goes again → writing w rest s → cw_offset w = length (cw_payload w) →
  good s (drain_wbio (Some (done_written (cw_done w), report_written emit again (cw_done w) None)) (set_clear_write_in_progress true (pop_first s))).
Proof.
  intros Ha [Hb Hw Hr He Hn _ Ho] Hd. specialize (Ho Hd). unfold drain_wbio, pull_output. set (s1 := set_clear_write_in_progress true (pop_first s)).
  change (ssl s1) with (ssl s). rewrite Ho. cbn [pull_loop]. change (ssl s1) with (ssl s). pose proof (pull_empty _ Ho) as Hp.
  pose proof (ended_pull (ssl s)) as H1. pose proof (pull_input (ssl s)) as H2. destruct (ssl_pull (ssl s)) as [x b]. cbn in Hp, H1, H2. subst b.
  eapply tls_good_trans; [|intros Hs2; apply drained_good; [by apply flush_drained|by apply flush_drained|done]].
  apply (good_after _ (set_ssl x s)); [apply steps_one, s_ssl; auto|done|].
  apply report_written_good; try done.
  - unfold s1, pop_first. rewrite Hw. by apply (s_done false w rest (set_ssl x s)).
  - constructor; try done. cbn. by rewrite Hw.
Qed.

Lemma finish_processing_good again : goes again → goes (finish_processing again).
Proof.
  intros Ha s Hs. unfold finish_processing.
  assert (H : good s (set_processing_clear_writes false s)) by (apply good_inert; [by constructor; auto|by destruct Hs|done]).
  destruct (_ || _); [done|]. destruct (clear_writes _); [done|]. eapply tls_good_trans; [exact H|]. apply Ha.
Qed.

Lemma after_write_loop_good again r w rest s :
  goes again → writing w rest s → (r = loop_written ↔ cw_offset w = length (cw_payload w)) → good s (after_write_loop rounds emit again (cw_done w) r s).
Proof.
  intros Ha Hw Hr. destruct r as [| |status]; cbn [after_write_loop]; [by eapply write_done_good, Hr| |].
  all: assert (Hs : ready s) by (eapply writing_ready; [done|]; unfold unfinished; destruct Hw; destruct (decide (cw_offset w = length (cw_payload w))) as [E|E];
    [by apply Hr in E|lia]).
  - by apply write_failed_good.
  - destruct status; try by apply write_failed_good.
    + apply (tls_good_trans _ (set_clear_write_waiting_for_read true s)); [apply good_inert; [by constructor; auto|by destruct Hs|done]|]. intros H1.
      eapply tls_good_trans; [by apply start_lower_reads_good|]. intros H2. by apply drained_good; [apply drain_none..|].
    + apply (tls_good_trans _ (set_clear_write_waiting_for_write true s)); [apply good_inert; [by constructor; auto|by destruct Hs|done]|]. intros H1.
      apply drain_done; [done| |done]. by apply retry_write_good.
Qed.

Lemma process_loop_good fuel : goes (process_loop rounds emit fuel).
Proof.
  induction fuel as [|fuel IH]; intros s Hs; cbn [process_loop]; [by apply tls_good_refl|]. destruct (writes_blocked s); [by apply tls_good_refl|].
  destruct (clear_writes s) as [|w rest] eqn:Ew; [by apply tls_good_refl|].
  set (s0 := set_processing_clear_writes true s). destruct (write_loop _ s0) as [s1 r] eqn:El.
  apply (write_loop_steps _ w rest) in El; [|destruct Hs as [H1 H2 H3 H4]; rewrite Ew in H2; inversion H2 as [|?? Hu Hrest]; unfold unfinished in *; constructor; try done; lia|lia].
  destruct El as (H1 & H2 & w' & H3 & H4 & H5).
  apply (good_after _ s0); [apply steps_one, s_inert; by constructor; auto|done|].
  apply (good_after _ s1); [done|done|]. rewrite <-H4. eapply tls_good_trans; [by eapply after_write_loop_good|]. by apply finish_processing_good.
Qed.

Lemma process_good : goes (process_clear_writes rounds emit).
Proof. intros s Hs. by apply process_loop_good. Qed.

(** *** Reads *)

Lemma queue_or_deliver_good s :
  Forall unfinished (clear_writes s) → Forall unreported (encrypted_writes s) →
  (close_notify_received s = true → terminal_read s ≠ terminal_none) → quiet s → closed s = false → failed s = false →
  good s (queue_or_deliver_clear max_pending_read_bytes rounds emit s).
Proof.
  intros Hw He Hn Hq Hc Hf. unfold queue_or_deliver_clear. destruct (clear_buffer s) as [|b rest] eqn:Eb.
  { apply good_inert; [|done|by constructor]. constructor; cbn; auto. }
  assert (Hd : clear_buffer s ≠ []) by (by rewrite Eb). rewrite <-Eb. clear Eb. cbn [on_read happen set_history set_clear_buffer]. destruct (on_read s) eqn:Er.
  { apply emit_step; [by apply s_direct; [|apply Hq|]|by constructor|done]. }
  destruct (_ || _) eqn:El.
  - apply fail_from; try done. by apply s_lose.
  - apply good_step; [|by constructor|intros _; unfold quiet; cbn; congruence]. apply s_store; try done. apply orb_false_iff in El as [E1 E2].
    apply Nat.ltb_ge in E1, E2. cbn in *. lia.
Qed.

(** OpenSSL reads a piece. *)
Lemma read_data_good s x bytes :
  ready s → quiet s → is_open s = true → closed s = false → failed s = false → ssl_read (ssl s) = (x, inl bytes) →
  let s' := queue_or_deliver_clear max_pending_read_bytes rounds emit (drain_wbio None (set_clear_buffer bytes (set_ssl x s))) in
  good s s' ∧ ssl_input (ssl s') < ssl_input (ssl s).
Proof.
  intros Hs Hq Ho Hc Hf Er. cbv zeta. apply read_data in Er as Hx. destruct Hx as [Hx1 Hx2]. set (s1 := set_clear_buffer bytes (set_ssl x s)).
  assert (H1 : step false s s1).
  { apply s_get; try done; [|by destruct Hs]. intros He. apply ended_read in He as [_ He]. apply (He bytes). by rewrite Er. }
  destruct (drain_none s1) as (H2 & H3 & _). set (s2 := drain_wbio None s1) in *. destruct Hs, H3.
  assert (Hq2 : quiet s2) by (intros H; rewrite dr_pending0; apply Hq; rewrite <-H; by rewrite dr_on_read0).
  assert (H4 : good s2 (queue_or_deliver_clear max_pending_read_bytes rounds emit s2)).
  { apply queue_or_deliver_good; [by rewrite dr_writes0|by apply dr_encrypted0|by rewrite dr_notify0, dr_terminal0|done|by rewrite dr_closed0|by rewrite dr_failed0]. }
  split; [apply (good_after _ s2); [eapply rtc_l; eassumption|done|done]|].
  destruct H4 as [H4 _]. apply steps_input in H4. cbn in dr_input0. lia.
Qed.

Lemma read_loop_S fuel s :
  read_loop max_pending_read_bytes rounds emit (Datatypes.S fuel) s =
    match ssl_read (ssl s) with
    | (x, inl bytes) =>
      let s := queue_or_deliver_clear max_pending_read_bytes rounds emit (drain_wbio None (set_clear_buffer bytes (set_ssl x s))) in
      if failed s || closed s then s else read_loop max_pending_read_bytes rounds emit fuel s
    | (x, inr status) =>
      let s := drain_wbio None (set_ssl x s) in
      match status with
      | want_read | want_write => s
      | zero_return => set_terminal_read_eof emit (set_close_notify_received true s)
      | ssl_failure => fail rounds emit (make_tls_error protocol_error (drain_openssl_errors (lit "TLS read failed") (ssl_errors (ssl s)))) s
      end
    end.
Proof. done. Qed.

Lemma read_loop_good fuel s :
  ready s → quiet s → is_open s = true → closed s = false → failed s = false → good s (read_loop max_pending_read_bytes rounds emit fuel s).
Proof.
  revert s. induction fuel as [|fuel IH]; intros s Hs Hq Ho Hc Hf; cbn [read_loop]; [by apply tls_good_refl|].
  destruct (ssl_read (ssl s)) as [x [bytes|status]] eqn:Er.
  - destruct (read_data_good s x bytes Hs Hq Ho Hc Hf Er) as [H4 _]. cbv zeta in H4.
    destruct (failed _ || closed _) eqn:E; [done|]. apply orb_false_iff in E as [E1 E2]. eapply tls_good_trans; [exact H4|]. intros H5. apply IH; try done.
    + by apply H4.
    + destruct H4 as [H4 _]. apply steps_flags in H4 as (_ & H4 & _). auto.
  - destruct (drain_none (set_ssl x s)) as (H2 & H3 & _). set (s1 := drain_wbio None (set_ssl x s)) in *.
    pose proof (read_input (ssl s)) as Hi. pose proof (ended_read (ssl s)) as He. rewrite Er in Hi, He.
    assert (H1 : good s s1).
    { apply (tls_good_trans _ (set_ssl x s)); [apply good_step; [apply s_ssl; [intros H; apply (He H)|by right]|by destruct Hs|done]|]. intros. by apply drained_good. }
    eapply tls_good_trans; [exact H1|]. intros Hs1. destruct status; [by apply tls_good_refl|by apply tls_good_refl| |by apply fail_good].
    destruct (has_terminal s1) eqn:Et.
    { apply (tls_good_trans _ (set_close_notify_received true s1)); [|intros; by apply set_terminal_again].
      apply good_inert; [|by destruct Hs1|done]. unfold has_terminal in Et. constructor; cbn; auto. right. by destruct (terminal_read s1). }
    apply no_terminal in Et as Hn. apply set_terminal_new; [done|]. apply good_step; [|destruct Hs1; by constructor|done]. destruct H3.
    apply s_eof; [done|by rewrite <-Hf|by rewrite <-Ho|by destruct Hs1|]. apply dr_ended0, (read_ended (ssl s)), Er.
Qed.

Lemma read_clear_good s : ready s → quiet s → good s (read_clear_from_ssl max_pending_read_bytes rounds emit s).
Proof.
  intros Hs Hq. unfold read_clear_from_ssl. destruct (_ || _) eqn:E; [by apply tls_good_refl|].
  destruct (is_open s) eqn:Eo, (closed s) eqn:Ec, (failed s) eqn:Ef; try done. by apply read_loop_good.
Qed.

Lemma deliver_pending_loop_good fuel s :
  ready s → measure s < fuel → good s (deliver_pending_loop emit fuel s) ∧ quiet (deliver_pending_loop emit fuel s).
Proof.
  revert s. induction fuel as [|fuel IH]; intros s Hs Hm; [lia|]. cbn [deliver_pending_loop].
  destruct (pending_clear s) as [|bytes rest] eqn:Ep; [split; [by apply tls_good_refl|by intros _]|].
  destruct (on_read s) eqn:Er; [|split; [by apply tls_good_refl|unfold quiet; congruence]].
  assert (H1 : good s (emit (te_data bytes) (pop_pending bytes rest s))).
  { apply emit_step; [by apply s_pop|by destruct Hs|]. intros Hq. specialize (Hq Er). congruence. }
  assert (H2 : measure (emit (te_data bytes) (pop_pending bytes rest s)) < measure s).
  { destruct (emit_good (te_data bytes) (pop_pending bytes rest s)) as [H2 _]; [by destruct Hs|]. apply steps_measure in H2.
    eapply Nat.le_lt_trans; [exact H2|]. unfold measure. cbn. rewrite Ep. cbn. lia. }
  destruct (IH (emit (te_data bytes) (pop_pending bytes rest s))) as [H3 H4]; [by apply H1|lia|]. split; [|done]. by eapply tls_good_trans.
Qed.

(** The loops end by themselves: more fuel makes no difference. *)
Lemma read_loop_fuel fuel s :
  ready s → quiet s → is_open s = true → closed s = false → failed s = false → ssl_input (ssl s) < fuel →
  read_loop max_pending_read_bytes rounds emit (Datatypes.S fuel) s = read_loop max_pending_read_bytes rounds emit fuel s.
Proof.
  revert s. induction fuel as [|fuel IH]; intros s Hs Hq Ho Hc Hf Hi; [lia|]. rewrite (read_loop_S (Datatypes.S fuel)), (read_loop_S fuel).
  destruct (ssl_read (ssl s)) as [x [bytes|status]] eqn:Er; [|done].
  destruct (read_data_good s x bytes Hs Hq Ho Hc Hf Er) as [H1 H2]. cbv zeta in *. set (s2 := queue_or_deliver_clear _ _ _ _) in *.
  destruct (failed s2 || closed s2) eqn:E; [done|]. apply orb_false_iff in E as [E1 E2]. destruct H1 as (H3 & H4 & H5). apply steps_flags in H3 as (_ & H3 & _).
  apply IH; auto. lia.
Qed.

Lemma deliver_pending_fuel fuel s :
  ready s → measure s < fuel → deliver_pending_loop emit (Datatypes.S fuel) s = deliver_pending_loop emit fuel s.
Proof.
  revert s. induction fuel as [|fuel IH]; intros s Hs Hm; [lia|]. cbn [deliver_pending_loop]. cbn [deliver_pending_loop] in IH.
  destruct (pending_clear s) as [|bytes rest] eqn:Ep; [done|]. destruct (on_read s) eqn:Er; [|done].
  destruct (emit_good (te_data bytes) (pop_pending bytes rest s)) as (H2 & H3 & _); [by destruct Hs|]. apply steps_measure in H2.
  apply IH; [done|]. eapply Nat.le_lt_trans; [exact H2|]. unfold measure in *. cbn. rewrite Ep in Hm. cbn in Hm. lia.
Qed.

Lemma read_start_good : goes (read_start max_pending_read_bytes rounds emit).
Proof.
  intros s Hs. unfold read_start. set (s0 := set_on_read true s). assert (Hs0 : ready s0) by by destruct Hs.
  assert (H1 : good s (deliver_pending_clear emit s0) ∧ quiet (deliver_pending_clear emit s0)).
  { destruct (deliver_pending_loop_good (Datatypes.S (length (pending_clear s0) + ssl_input (ssl s0))) s0 Hs0) as [H1 H2].
    { unfold measure. destruct Hs0. rewrite rd_buffer0. lia. }
    split; [|done]. destruct H1 as (H1 & H3 & _). split; [|auto]. by eapply rtc_l; [apply (s_on_read false true)|]. }
  destruct H1 as [H1 Hq1]. set (s1 := deliver_pending_clear emit s0) in *.
  pose proof (deliver_terminal_good s1 (proj1 (proj2 H1))) as H2. set (s2 := deliver_terminal_read emit s1) in *.
  assert (Hq2 : quiet s2) by by apply H2. assert (H3 : good s s2) by (eapply tls_good_trans; [exact H1|done]). clearbody s2.
  destruct (has_terminal s2); [done|]. 
  assert (H4 : good s2 (if is_open s2 && on_read s2 then start_lower_reads s2 else s2)).
  { destruct (_ && _); [apply start_lower_reads_good|apply tls_good_refl]; apply H3. }
  set (s3 := if is_open s2 && on_read s2 then start_lower_reads s2 else s2) in *. clearbody s3.
  eapply tls_good_trans; [exact H3|]. intros Hs2. eapply tls_good_trans; [exact H4|]. intros Hs3. destruct (_ && _); [|by apply tls_good_refl].
  apply read_clear_good; [done|]. by apply H4.
Qed.

Lemma read_stop_good : goes read_stop.
Proof.
  intros s Hs. unfold read_stop. apply (tls_good_trans _ (set_on_read false s)); [apply good_step; [apply s_on_read|by destruct Hs|by intros _]|]. intros Hs1.
  destruct (_ && _); [by apply stop_lower_reads_good|by apply tls_good_refl].
Qed.

(** *** The user *)

Lemma write_good payload : goes (write max_pending_write_bytes rounds emit payload).
Proof.
  intros s Hs. assert (Hr : ∀ failure, good s (refuse_write emit failure s)).
  { intros failure. apply emit_step; [apply s_refuse|by destruct Hs|done]. }
  unfold write. destruct (_ || _) eqn:E; [done|]. destruct payload as [|b payload]; [done|]. set (p := b :: payload).
  destruct (is_open s) eqn:Eo, (closing s) eqn:Ec; try done. destruct ((_ <? _) || _) eqn:El; [done|].
  apply orb_false_iff in El as [E1 E2]. apply Nat.ltb_ge in E1, E2.
  eapply tls_good_trans; [|apply process_good]. apply good_step; [apply s_accept; try done; lia| |done].
  destruct Hs. constructor; try done. cbn. apply Forall_app_2; [done|]. constructor; [|constructor]. unfold unfinished, p. cbn. lia.
Qed.

Lemma close_good : goes (close rounds emit).
Proof.
  intros s Hs. unfold close. cbn [closed set_next_close]. destruct (closed s) eqn:Ec.
  { apply emit_step; [by apply s_close_late|by destruct Hs|done]. }
  set (s1 := set_on_close _ _). assert (H1 : good s s1) by (apply good_step; [by apply s_close_call|by destruct Hs|done]).
  eapply tls_good_trans; [exact H1|]. intros Hs1. destruct (closing s1); [by apply tls_good_refl|].
  set (s2 := set_on_read false _). eapply tls_good_trans; [apply good_step; [apply s_closing|by destruct Hs1|by intros _]|]. intros Hs2. fold s2 in Hs2 |- *.
  pose proof (fail_pending_good (tls_code tls_closed) s2 Hs2) as H3. set (s3 := fail_pending_clear_writes _ _ _ _) in *.
  eapply tls_good_trans; [exact H3|]. intros Hs3. eapply tls_good_trans; [apply (good_step _ (set_ssl (ssl_shutdown (ssl s3)) s3)); [|by destruct Hs3|done]|].
  { apply s_ssl; [apply ended_shutdown|right; apply shutdown_input]. }
  intros Hs4. apply drain_done; [done|apply close_lower_good|done].
Qed.

Lemma cancel_good error : goes (cancel rounds emit error).
Proof. intros s Hs. unfold cancel. destruct (active s); [by apply fail_good|by apply tls_good_refl]. Qed.

Lemma tls_cmd_good c : goes (λ s, run_tls_cmd max_pending_write_bytes max_pending_read_bytes rounds emit s c).
Proof.
  destruct c; intros s Hs; [by apply read_start_good|by apply read_stop_good|by apply write_good|by apply close_good|by apply cancel_good].
Qed.
(** *** The handshake and the reports *)

Lemma drive_handshake_good s : ready s → quiet s → good s (drive_handshake max_pending_read_bytes rounds emit s).
Proof.
  intros Hs Hq. unfold drive_handshake. destruct (closed s) eqn:Ec, (failed s) eqn:Ef, (is_open s) eqn:Eo; try by apply tls_good_refl. cbn [orb].
  pose proof (ended_handshake (ssl s)) as He. pose proof (handshake_input (ssl s)) as Hi. destruct (ssl_handshake (ssl s)) as [x status]. cbn in He, Hi.
  destruct (drain_none (set_ssl x s)) as (H2 & H3 & _). set (s1 := drain_wbio None (set_ssl x s)) in *.
  assert (H1 : good s s1).
  { apply (tls_good_trans _ (set_ssl x s)); [apply good_step; [by apply s_ssl; auto|by destruct Hs|done]|]. intros. by apply drained_good. }
  eapply tls_good_trans; [exact H1|]. intros Hs1. assert (Hq1 : quiet s1) by by apply H1. destruct H3. clearbody s1. cbn in *.
  destruct status; [|by apply tls_good_refl|by apply fail_good|by apply fail_good].
  match goal with |- good _ (read_clear_from_ssl _ _ _ ?t) => set (s2 := t) end.
  assert (H4 : good s1 s2).
  { unfold s2. cbn [handshake_callback set_is_open]. destruct (handshake_callback s1) eqn:Eh.
    - apply emit_step; [apply s_opened; congruence|by destruct Hs1|done].
    - apply good_step; [apply s_open; congruence|by destruct Hs1|done]. }
  clearbody s2. eapply tls_good_trans; [exact H4|]. intros Hs2. apply read_clear_good; [done|]. by apply H4.
Qed.

Lemma after_feed_good s : ready s → quiet s → good s (after_feed max_pending_read_bytes rounds emit s).
Proof.
  intros Hs Hq. unfold after_feed. set (s1 := if is_open s then s else _).
  assert (H1 : good s s1) by (unfold s1; destruct (is_open s); [by apply tls_good_refl|by apply drive_handshake_good]). clearbody s1.
  eapply tls_good_trans; [exact H1|]. intros Hs1. destruct (is_open s1); [|by apply tls_good_refl].
  set (s2 := read_clear_from_ssl _ _ _ s1). assert (H2 : good s1 s2) by (apply read_clear_good; [done|by apply H1]). clearbody s2.
  eapply tls_good_trans; [exact H2|]. intros Hs2. set (s3 := if clear_write_waiting_for_read s2 then _ else _).
  assert (H3 : good s2 s3).
  { unfold s3. destruct (clear_write_waiting_for_read s2); [|by apply tls_good_refl].
    apply (tls_good_trans _ (set_clear_write_waiting_for_read false s2)); [apply good_inert; [by constructor; auto|by destruct Hs2|done]|]. apply process_good. }
  clearbody s3. eapply tls_good_trans; [exact H3|]. intros Hs3. destruct (_ && _); [by apply stop_lower_reads_good|by apply tls_good_refl].
Qed.

Definition good_top s s' : Prop := steps true s s' ∧ ready s' ∧ quiet s'.

Lemma good_to_top s s' : quiet s → good s s' → good_top s s'.
Proof. intros Hq (H1 & H2 & H3). split; [by apply steps_top|auto]. Qed.

Lemma feed_loop_ended fuel bytes x : ssl_ended x → ssl_ended (feed_loop fuel bytes x).1.
Proof.
  revert bytes x. induction fuel as [|fuel IH]; intros [|b bytes] x H; try done. cbn [feed_loop].
  pose proof (ended_feed (b :: bytes) x H) as H1. destruct (ssl_feed _ x) as [x' [|n]]; [done|]. by apply IH.
Qed.

Lemma on_lower_read_top r s : ready s → quiet s → good_top s (on_lower_read max_pending_read_bytes rounds emit r s).
Proof.
  intros Hs Hq. assert (Hr : good_top s s) by (split; [apply rtc_refl|done]). unfold on_lower_read.
  destruct (closed s) eqn:Ec; [done|]. destruct (failed s) eqn:Ef; [done|]. cbn [orb]. destruct r as [bytes| |e].
  - pose proof (feed_loop_ended (length bytes) bytes (ssl s)) as He. destruct (feed_loop _ _ _) as [x fed]. cbn in He.
    assert (H1 : good (set_ssl x s) (if fed then after_feed max_pending_read_bytes rounds emit (set_ssl x s) else
      fail rounds emit (make_tls_error protocol_error (drain_openssl_errors (lit "failed to feed TLS input") (ssl_errors (ssl (set_ssl x s))))) (set_ssl x s))).
    { destruct fed; [apply after_feed_good|apply fail_good]; try done; by destruct Hs. }
    apply good_to_top in H1 as (H1 & H2 & H3); [|done]. split; [|done]. eapply rtc_l; [|exact H1]. apply s_ssl; auto.
  - apply good_to_top; [done|]. destruct (is_open s) eqn:Eo; cbn [negb]; [|by apply fail_good].
    destruct (close_notify_received s || has_terminal s) eqn:E; [|by apply fail_good]. apply set_terminal_again; [|done].
    destruct Hs as [_ _ _ Hn]. unfold has_terminal in *. destruct (terminal_read s) eqn:Et; try done. destruct (close_notify_received s); [by destruct Hn|done].
  - apply good_to_top; [done|]. by apply fail_good.
Qed.

Lemma run_done_good d failure : (∀ id, d ≠ Some (done_written id)) → goes (run_done_option rounds emit d failure).
Proof.
  intros Hd s Hs. destruct d as [[| |id]|]; cbn; [by apply close_lower_good| |by destruct (Hd id)|by apply tls_good_refl].
  apply retry_write_good; [apply process_good|done].
Qed.

Lemma on_encrypted_written_top failure s :
  ready s → quiet s → encrypted_write_active s = true → good_top s (on_encrypted_written rounds emit failure s).
Proof.
  intros Hs Hq Ha. apply good_to_top; [done|]. unfold on_encrypted_written. destruct (encrypted_writes s) as [|item rest] eqn:Ee; [by apply tls_good_refl|].
  set (s1 := set_encrypted_write_active false (set_encrypted_writes rest s)).
  assert (Hi : unreported item ∧ Forall unreported rest) by (destruct Hs as [_ _ H _]; rewrite Ee in H; by inversion H).
  assert (H1 : good s s1) by (apply good_step; [by apply (s_sent false item)|destruct Hs, Hi; by constructor|done]).
  set (e := effective_failure failure s1). eapply tls_good_trans; [exact H1|]. intros Hs1.
  pose proof (run_done_good (ew_done item) e (proj1 Hi) s1 Hs1) as H2. eapply tls_good_trans; [exact H2|]. intros Hs2. destruct e as [e|].
  - destruct (failed _); [by apply tls_good_refl|by apply fail_good].
  - by apply drained_good; [apply flush_drained..|].
Qed.

Lemma report_closed_top ids s :
  ready s → quiet s → closed s = true → close_callbacks s = Some ids → good_top s (report_closed emit ids s).
Proof.
  revert s. induction ids as [|id ids IH]; intros s Hs Hq Hc Hi; cbn [report_closed].
  - split; [|by destruct Hs]. by apply steps_one, s_close_end.
  - set (s1 := set_close_callbacks (Some ids) s). assert (Hs1 : ready s1) by by destruct Hs. destruct (emit_good (te_closed id) s1 Hs1) as (H1 & H2 & H3).
    apply steps_closed in H1 as H4; [|done]. destruct H4 as [H4 H5]. destruct (IH (emit (te_closed id) s1)) as (H6 & H7); try done; [by apply H3|].
    split; [|done]. eapply rtc_l; [by apply (s_close_told true id ids s)|]. etransitivity; [by apply steps_top|done].
Qed.

End operations.

(** Callbacks at any depth. *)
Lemma level_good rounds calls depth e s :
  ready s → good (happen e s) (level max_pending_write_bytes max_pending_read_bytes rounds calls depth e s).
Proof.
  revert e s. induction depth as [|depth IH]; intros e s Hs; cbn [level].
  all: assert (Hs1 : ready (happen e s)) by by destruct Hs.
  - by apply tls_good_refl.
  - apply foldl_good; [|done]. intros c. by apply tls_cmd_good.
Qed.

(** ** Runs *)

Section runs.
Context (rounds : nat) (calls : list tls_event → tls_event → list tls_cmd) (depth : nat).

Let emit := level max_pending_write_bytes max_pending_read_bytes rounds calls depth.

Lemma tls_op_top op s :
  ready s → quiet s → good_top s (run_tls_op max_pending_write_bytes max_pending_read_bytes rounds emit s op).
Proof.
  intros Hs Hq. assert (Hr : good_top s s) by (split; [apply rtc_refl|done]). assert (He : ∀ e s, ready s → good (happen e s) (emit e s)) by (intros; by apply level_good).
  destruct op as [r|failure| |cmds]; cbn [run_tls_op].
  - destruct (lower_reading s); [|done]. by apply on_lower_read_top.
  - destruct (encrypted_write_active s) eqn:Ea; [|done]. by apply on_encrypted_written_top.
  - destruct (closed s) eqn:Ec; [|done]. unfold on_lower_closed. destruct (close_callbacks s) as [ids|] eqn:Ei; [|done]. by apply report_closed_top.
  - apply good_to_top; [done|]. apply foldl_good; [|done]. intros c. by apply tls_cmd_good.
Qed.

Lemma start_top x : good_top (new_tls x) (start max_pending_read_bytes rounds emit (new_tls x)).
Proof.
  assert (H0 : ready (new_tls x)) by by constructor. assert (Hq0 : quiet (new_tls x)) by done. apply good_to_top; [done|]. unfold start.
  pose proof (start_lower_reads_good (new_tls x) H0) as H1. eapply tls_good_trans; [exact H1|]. intros H2.
  apply drive_handshake_good; [by intros; apply level_good|done|by apply H1].
Qed.

(** Every run is a sequence of steps. *)
Lemma run_tls_steps x ops :
  let s := run_tls max_pending_write_bytes max_pending_read_bytes rounds calls depth x ops in
  steps true (new_tls x) s ∧ ready s ∧ quiet s.
Proof.
  unfold run_tls. cbv zeta. fold emit. destruct (start_top x) as (H1 & H2 & H3). revert H1 H2 H3.
  generalize (start max_pending_read_bytes rounds emit (new_tls x)). induction ops as [|op ops IH]; intros s H1 H2 H3; [done|]. cbn [foldl].
  destruct (tls_op_top op s H2 H3) as (H4 & H5 & H6). apply IH; try done. by etransitivity.
Qed.

Lemma run_tls_invariant (P : tls_state S → Prop) x ops :
  P (new_tls x) → (∀ s s', P s → step true s s' → P s') → P (run_tls max_pending_write_bytes max_pending_read_bytes rounds calls depth x ops).
Proof.
  intros H0 Hstep. destruct (run_tls_steps x ops) as [H _]. revert H0. induction H as [|s s1 s' H _ IH]; [done|]. intros H0. apply IH. by eapply Hstep.
Qed.
End runs.
End machine.
