(* ===== verification/TlsSpec.v ===== *)
(** * What a TLS stream promises

    Invariants of the steps of [TlsTheory]: what is read, what is written, how the
    lower stream is used, the handshake and the closing; then the theorems about
    runs, for every behaviour of OpenSSL within its laws, every user and every
    order of reports. *)

From Stdlib Require Import Sorted.
From stdpp Require Import relations.
From S2P Require Import Prelude Text TlsState TlsStream TlsTheory.

Open Scope nat_scope.

(** ** Parts of a history *)

(** The clear text that OpenSSL read, and what of it the user was given. *)
Definition decrypted (h : list tls_event) : str := flat_map (λ e, match e with tv_ssl_read b => b | _ => [] end) h.
Definition given (h : list tls_event) : str := flat_map (λ e, match e with te_data b => b | _ => [] end) h.
Definition is_terminal (e : tls_event) : bool := match e with te_eof | te_read_error _ => true | _ => false end.
Definition is_read (e : tls_event) : bool := match e with te_data _ | te_eof | te_read_error _ => true | _ => false end.
Definition ends (h : list tls_event) : list tls_event := flat_map (λ e, if is_terminal e then [e] else []) h.

(** The writes that were accepted, told, and what OpenSSL took of each. *)
Definition accepted_writes (h : list tls_event) : list (nat * str) := flat_map (λ e, match e with tv_accept id p => [(id, p)] | _ => [] end) h.
Definition told_writes (h : list tls_event) : list (nat * option error_code) := flat_map (λ e, match e with te_written id r => [(id, r)] | _ => [] end) h.
Definition taken_of (id : nat) (h : list tls_event) : str :=
  flat_map (λ e, match e with tv_ssl_write i b => if Nat.eqb i id then b else [] | _ => [] end) h.
Definition taken_ids (h : list tls_event) : list nat := flat_map (λ e, match e with tv_ssl_write i _ => [i] | _ => [] end) h.

(** What OpenSSL put out, and what was written to the lower stream. *)
Definition outputs (h : list tls_event) : list str := flat_map (λ e, match e with tv_ssl_output b => [b] | _ => [] end) h.
Definition lower_writes (h : list tls_event) : list str := flat_map (λ e, match e with tv_write b => [b] | _ => [] end) h.
Definition is_lower_close (e : tls_event) : bool := match e with tv_close => true | _ => false end.
(** The calls into the lower stream, and those that use it: all but [read_stop]. *)
Definition lower_call (e : tls_event) : bool := match e with tv_write _ | tv_read_start | tv_read_stop | tv_close => true | _ => false end.
Definition uses_lower (e : tls_event) : bool := match e with tv_write _ | tv_read_start | tv_close => true | _ => false end.
Definition told_closes (h : list tls_event) : list nat := flat_map (λ e, match e with te_closed id => [id] | _ => [] end) h.
Definition handshakes (h : list tls_event) : list (result tls_error str) := flat_map (λ e, match e with te_handshake r => [r] | _ => [] end) h.

(** ** Sorted lists *)

Lemma sorted_sublist {A} (R : relation A) l l' : l `sublist_of` l' → StronglySorted R l' → StronglySorted R l.
Proof.
  induction 1 as [|x l l' Hl IH|x l l' Hl IH]; intros H; [done| |]; apply StronglySorted_inv in H as [H1 H2]; [|by apply IH].
  constructor; [by apply IH|]. rewrite Forall_forall in *. intros y Hy. apply H2. by eapply elem_of_sublist.
Qed.

Lemma strongly_sorted_snoc {A} (R : relation A) l x : StronglySorted R l → Forall (λ y, R y x) l → StronglySorted R (l ++ [x]).
Proof.
  induction l as [|y l IH]; intros H Hx; cbn; [repeat constructor|]. apply StronglySorted_inv in H as [H1 H2]. apply Forall_cons in Hx as [Hy Hx].
  constructor; [by apply IH|]. by apply Forall_app_2; [|constructor].
Qed.

Lemma sorted_again (l r : list nat) x : StronglySorted le (l ++ x :: r) → StronglySorted le (l ++ x :: x :: r).
Proof.
  induction l as [|y l IH]; cbn; intros H.
  - apply StronglySorted_inv in H as [H1 H2]. by repeat constructor.
  - apply StronglySorted_inv in H as [H1 H2]. constructor; [by apply IH|]. apply Forall_app in H2 as [H2 H3]. apply Forall_cons in H3 as [H3 H4].
    apply Forall_app_2; [done|]. by repeat constructor.
Qed.

Section invariants.
Context {S : Type} `{SSL : Ssl S} `{Laws : !SslLaws S} (max_pending_write_bytes max_pending_read_bytes : nat).
Implicit Types s : tls_state S.

Notation step := (step max_pending_write_bytes max_pending_read_bytes true).

(** Opens the cases of a step: projections of histories with new events are
    computed. *)
Ltac events := unfold decrypted, given, ends, accepted_writes, told_writes, taken_of, taken_ids, outputs, lower_writes, told_closes, handshakes in *.
Ltac snoc := cbn; rewrite ?flat_map_snoc, ?none_marked_snoc; cbn; rewrite ?app_nil_r.

(** ** Reads *)

Record reads_inv s : Prop := {
  ri_bytes : pending_clear_bytes s = length (concat (pending_clear s));
  ri_limit : pending_clear_bytes s ≤ max_pending_read_bytes;
  ri_order : closing s = false → ∃ lost, given (history s) ++ concat (pending_clear s) ++ lost = decrypted (history s) ∧
    (failed s = false ∨ terminal_read s = terminal_eof ∨ clear_buffer s ≠ [] → lost = []);
  ri_ends : ends (history s) = if terminal_read_delivered s then [terminal_event (terminal_read s)] else [];
  ri_delivered : terminal_read_delivered s = true → terminal_read s ≠ terminal_none ∧ pending_clear s = [];
  ri_unended : terminal_read_delivered s = false → none_marked is_terminal (history s);
  ri_after : never_after is_terminal is_read (history s);
  ri_ended : terminal_read s ≠ terminal_none → failed s = true ∨ ssl_ended (ssl s);
  ri_buffer : clear_buffer s ≠ [] → terminal_read s = terminal_none
}.

Lemma reads_new x : reads_inv (new_tls x).
Proof. constructor; try done; [apply Nat.le_0_l|by exists []]. Qed.

(** Nothing of the reads changes. *)
Lemma reads_same s s' e :
  reads_inv s → pending_clear_bytes s' = pending_clear_bytes s → pending_clear s' = pending_clear s → closing s' = closing s →
  (history s' = history s ∨ history s' = history s ++ [e]) → (match e with tv_ssl_read _ => false | _ => negb (is_read e) end = true) →
  failed s' = failed s → terminal_read s' = terminal_read s → clear_buffer s' = clear_buffer s →
  terminal_read_delivered s' = terminal_read_delivered s → (ssl_ended (ssl s) → ssl_ended (ssl s')) → reads_inv s'.
Proof.
  intros [] H1 H2 H3 H4 He H5 H6 H7 H8 H9.
  assert (Hh : given (history s') = given (history s) ∧ decrypted (history s') = decrypted (history s) ∧ ends (history s') = ends (history s) ∧
    (none_marked is_terminal (history s) → none_marked is_terminal (history s')) ∧ never_after is_terminal is_read (history s')).
  { destruct H4 as [->| ->]; [done|]. events. rewrite !flat_map_snoc. assert (Hn : is_terminal e = false ∧ is_read e = false) by by destruct e.
    destruct Hn as [Hn1 Hn2]. rewrite Hn1, !app_nil_r. split_and!; try by destruct e; rewrite ?app_nil_r.
    - intros. by apply none_marked_snoc.
    - apply never_after_snoc; auto. }
  destruct Hh as (Hh1 & Hh2 & Hh3 & Hh4 & Hh5). constructor; rewrite ?H1, ?H2, ?H3, ?H5, ?H6, ?H7, ?H8, ?Hh1, ?Hh2, ?Hh3; auto.
  intros H. destruct (ri_ended0 H); auto.
Qed.

Ltac reads_other Hi :=
  first [by eapply reads_same; [exact Hi|done|done|done|right; reflexivity|done|done|done|done|done|auto]
        |by eapply (reads_same _ _ tv_read_stop); [exact Hi|done|done|done|left; reflexivity|done|done|done|done|done|auto]].

Lemma reads_step s s' : reads_inv s → step s s' → reads_inv s'.
Proof.
  intros Hi H. destruct H; try (reads_other Hi).
  - destruct H. eapply (reads_same s _ tv_read_stop); eauto. by rewrite in_ssl.
  - destruct Hi. constructor; cbn; try done; [|intros Ht; destruct (ri_ended0 Ht); [congruence|done]|].
    + intros Hc. destruct (ri_order0 Hc) as (lost & Ho & Hl). exists lost. split; [done|]. intros _. auto.
    + intros _. destruct (terminal_read s) eqn:Et; [done|..]; (destruct ri_ended0 as [|]; [done|congruence|done]).
  - destruct Hi. assert (Ht : terminal_read s = terminal_none) by auto. constructor; unfold store; cbn; try done.
    + rewrite concat_app, length_app, ri_bytes0. cbn. by rewrite app_nil_r.
    + lia.
    + intros Hc. destruct (ri_order0 Hc) as (lost & Ho & Hl). rewrite Hl in Ho by auto. exists []. events. rewrite !flat_map_snoc. cbn.
      rewrite concat_app. cbn. rewrite <-Ho, !app_nil_r. by rewrite app_assoc.
    + events. rewrite flat_map_snoc. cbn. by rewrite app_nil_r.
    + intros Hd. by destruct (ri_delivered0 Hd).
    + intros Hd. apply none_marked_snoc. auto.
    + apply never_after_snoc; auto.
  - destruct Hi. assert (Ht : terminal_read s = terminal_none) by auto. constructor; cbn; try done.
    + intros Hc. destruct (ri_order0 Hc) as (lost & Ho & Hl). rewrite Hl in Ho by auto. exists []. events. rewrite !flat_map_snoc. cbn.
      rewrite H0 in *. cbn in *. rewrite !app_nil_r in *. by rewrite <-Ho.
    + events. rewrite !flat_map_snoc. cbn. by rewrite !app_nil_r.
    + intros Hd. rewrite !none_marked_snoc. auto.
    + assert (Hd : terminal_read_delivered s = false) by (destruct (terminal_read_delivered s); [by destruct ri_delivered0|done]).
      apply never_after_snoc; [apply never_after_snoc; auto|]. right. apply none_marked_snoc. auto.
  - destruct Hi. assert (Ht : terminal_read s = terminal_none) by auto. constructor; cbn; try done.
    + intros Hc. destruct (ri_order0 Hc) as (lost & Ho & Hl). rewrite Hl in Ho by auto. exists (clear_buffer s). events. rewrite !flat_map_snoc. cbn.
      rewrite !app_nil_r in *. rewrite app_assoc, Ho. split; [done|]. rewrite Ht. intros [?|[?|?]]; done.
    + events. rewrite !flat_map_snoc. cbn. by rewrite !app_nil_r.
    + intros Hd. rewrite !none_marked_snoc. auto.
    + apply never_after_snoc; auto.
  - destruct Hi. assert (Hd : terminal_read_delivered s = false).
    { destruct (terminal_read_delivered s); [|done]. destruct ri_delivered0 as [_ Hp]; [done|]. congruence. }
    unfold pop_pending. constructor; cbn; rewrite ?Hd in *; try done.
    + rewrite ri_bytes0, H0. cbn. rewrite length_app. lia.
    + lia.
    + intros Hc. destruct (ri_order0 Hc) as (lost & Ho & Hl). exists lost. split; [|done]. events. rewrite !flat_map_snoc. rewrite H0 in Ho. cbn in Ho |- *.
      by rewrite app_nil_r, <-Ho, <-!app_assoc.
    + events. rewrite !flat_map_snoc. cbn. by rewrite !app_nil_r.
    + intros _. apply none_marked_snoc. auto.
    + apply never_after_snoc; auto.
  - destruct Hi. constructor; cbn; try done; [lia|]. intros Hd. by destruct (ri_delivered0 Hd).
  - destruct Hi. assert (Hd : terminal_read_delivered s = false).
    { destruct (terminal_read_delivered s); [|done]. by destruct ri_delivered0 as [Hp _]. }
    constructor; cbn; rewrite ?Hd in *; try done; auto. intros Hc. destruct (ri_order0 Hc) as (lost & Ho & Hl). exists lost. auto.
  - destruct Hi. assert (Hd : terminal_read_delivered s = false).
    { destruct (terminal_read_delivered s); [|done]. by destruct ri_delivered0 as [Hp _]. }
    constructor; cbn; rewrite ?Hd in *; try done; auto. intros Hc. destruct (ri_order0 Hc) as (lost & Ho & Hl). exists lost. split; [done|].
    intros [?|[?|?]]; [congruence|done|auto].
  - destruct Hi. rewrite H in *. assert (Hk : is_terminal (terminal_event (terminal_read s)) = true) by by destruct (terminal_read s).
    constructor; cbn; try done.
    + intros Hc. destruct (ri_order0 Hc) as (lost & Ho & Hl). exists lost. split; [|done]. events. rewrite !flat_map_snoc.
      by destruct (terminal_read s); cbn; rewrite ?app_nil_r.
    + events. rewrite flat_map_snoc, ri_ends0, Hk. done.
    + apply never_after_snoc; auto.
  - destruct Hi. constructor; cbn; try done; auto. intros Hc. destruct (ri_order0 Hc) as (lost & Ho & Hl). exists lost. split; [done|]. auto.
  - unfold advance_write. rewrite H. reads_other Hi.
Qed.

(** ** Writes *)

Record writes_inv s : Prop := {
  wi_bytes : pending_clear_write_bytes s = sum_list_with remaining (clear_writes s);
  wi_limit : pending_clear_write_bytes s ≤ max_pending_write_bytes;
  wi_once : List.seq 0 (next_write s) ≡ₚ (told_writes (history s)).*1 ++ map cw_done (clear_writes s);
  wi_queued w : w ∈ clear_writes s → cw_offset w ≤ length (cw_payload w) ∧ (cw_done w, cw_payload w) ∈ accepted_writes (history s) ∧
    taken_of (cw_done w) (history s) = take (cw_offset w) (cw_payload w);
  wi_taken id p : (id, p) ∈ accepted_writes (history s) → id < next_write s ∧ taken_of id (history s) `prefix_of` p ∧
    ((id, None) ∈ told_writes (history s) → taken_of id (history s) = p);
  wi_accepted : NoDup (accepted_writes (history s)).*1;
  wi_fresh id : next_write s ≤ id → taken_of id (history s) = [];
  wi_ids : Forall (λ id, id < next_write s) (taken_ids (history s));
  wi_sorted : StronglySorted le (taken_ids (history s) ++ map cw_done (clear_writes s))
}.

Lemma writes_new x : writes_inv (new_tls x).
Proof. constructor; try done; [apply Nat.le_0_l|by intros w ?%elem_of_nil|by intros id p ?%elem_of_nil|constructor..]. Qed.

Definition of_writes (e : tls_event) : bool := match e with tv_accept _ _ | te_written _ _ | tv_ssl_write _ _ => true | _ => false end.

Lemma writes_same s s' es :
  writes_inv s → pending_clear_write_bytes s' = pending_clear_write_bytes s → clear_writes s' = clear_writes s → next_write s' = next_write s →
  history s' = history s ++ es → none_marked of_writes es → writes_inv s'.
Proof.
  intros [] H1 H2 H3 H4 He.
  assert (Hh : told_writes (history s') = told_writes (history s) ∧ accepted_writes (history s') = accepted_writes (history s) ∧
    (∀ id, taken_of id (history s') = taken_of id (history s)) ∧ taken_ids (history s') = taken_ids (history s)).
  { rewrite H4. clear H4. induction es as [|e es IH] using rev_ind; [by rewrite app_nil_r|]. apply none_marked_snoc in He as [He1 He2].
    destruct (IH He1) as (IH1 & IH2 & IH3 & IH4). rewrite app_assoc. events. rewrite !flat_map_snoc, IH1, IH2, IH4.
    split_and!; [..|intros id; rewrite flat_map_snoc, IH3|]; destruct e; try done; by rewrite ?app_nil_r. }
  destruct Hh as (Hh1 & Hh2 & Hh3 & Hh4).
  constructor; rewrite ?H1, ?H2, ?H3, ?Hh1, ?Hh2, ?Hh4; try done; intros; rewrite ?Hh3; auto.
Qed.

Ltac writes_other Hi :=
  first [by eapply (writes_same _ _ []); [exact Hi|done|done|done|cbn; by rewrite app_nil_r|done]
        |by eapply (writes_same _ _ [_]); [exact Hi|done|done|done|reflexivity|done]
        |by eapply (writes_same _ _ [_; _]); [exact Hi|done|done|done|cbn; by rewrite <-app_assoc|done]].

Lemma told_below s id r : writes_inv s → (id, r) ∈ told_writes (history s) → id < next_write s.
Proof.
  intros [] H. apply (list_elem_of_fmap_2 fst) in H. cbn in H. assert (Hin : id ∈ List.seq 0 (next_write s)) by (rewrite wi_once0; apply elem_of_app; by left).
  apply list_elem_of_In, in_seq in Hin. lia.
Qed.

Lemma queued_below s w : writes_inv s → w ∈ clear_writes s → cw_done w < next_write s.
Proof. intros [] H. apply wi_queued0 in H as (_ & H & _). by apply wi_taken0 in H as [H _]. Qed.

(** A write that waits was not told. *)
Lemma queued_untold s w r : writes_inv s → w ∈ clear_writes s → (cw_done w, r) ∉ told_writes (history s).
Proof.
  intros [] Hw Hr. assert (Hn : NoDup (List.seq 0 (next_write s))) by apply NoDup_ListNoDup, List.seq_NoDup.
  rewrite wi_once0 in Hn. apply NoDup_app in Hn as (_ & Hn & _). apply (list_elem_of_fmap_2 fst) in Hr. cbn in Hr. apply (Hn _ Hr).
  apply list_elem_of_In, in_map, list_elem_of_In. done.
Qed.

Lemma accepted_once s id p p' : writes_inv s → (id, p) ∈ accepted_writes (history s) → (id, p') ∈ accepted_writes (history s) → p = p'.
Proof.
  intros [_ _ _ _ _ Hn _ _ _] H H'. revert Hn H H'. generalize (accepted_writes (history s)). intros l. induction l as [|[i q] l IH]; [by intros _ ?%elem_of_nil|].
  cbn. intros [Hni Hn]%NoDup_cons [E|H]%elem_of_cons [E'|H']%elem_of_cons; simplify_eq; try done; [..|by apply IH].
  - by apply (list_elem_of_fmap_2 fst) in H'.
  - by apply (list_elem_of_fmap_2 fst) in H.
Qed.

(** The first write is told and leaves the queue. *)
Lemma writes_told s s' w rest r :
  writes_inv s → clear_writes s = w :: rest → (r = None → cw_offset w = length (cw_payload w)) →
  clear_writes s' = rest → pending_clear_write_bytes s' = pending_clear_write_bytes s - remaining w → next_write s' = next_write s →
  history s' = history s ++ [te_written (cw_done w) r] → writes_inv s'.
Proof.
  intros Hi Hw Hr H1 H2 H3 H4. assert (Hhead : w ∈ clear_writes s) by (rewrite Hw; left).
  assert (Hone : ∀ id p, (id, p) ∈ accepted_writes (history s) → id = cw_done w → p = cw_payload w).
  { intros id p Hp ->. eapply accepted_once; [done..|]. by apply Hi. }
  destruct Hi. assert (Hh : told_writes (history s') = told_writes (history s) ++ [(cw_done w, r)] ∧ accepted_writes (history s') = accepted_writes (history s) ∧
    (∀ id, taken_of id (history s') = taken_of id (history s)) ∧ taken_ids (history s') = taken_ids (history s)).
  { rewrite H4. events. rewrite !flat_map_snoc. split_and!; [..|intros id; rewrite flat_map_snoc|]; by rewrite ?app_nil_r. }
  destruct Hh as (Hh1 & Hh2 & Hh3 & Hh4). rewrite Hw in *. constructor; rewrite ?H1, ?H2, ?H3, ?Hh1, ?Hh2, ?Hh4; try done.
  - rewrite wi_bytes0. cbn. lia.
  - lia.
  - rewrite wi_once0, fmap_app. cbn. by rewrite <-app_assoc.
  - intros w' Hw'. rewrite Hh3. apply wi_queued0. by right.
  - intros id p Hp. rewrite Hh3. destruct (wi_taken0 id p Hp) as (H5 & H6 & H7). split_and!; [done..|].
    intros [Ht|Ht%list_elem_of_singleton]%elem_of_app; [by apply H7|]. injection Ht as -> <-. destruct (wi_queued0 w Hhead) as (_ & _ & Ht).
    rewrite Ht, Hr by done. rewrite (Hone _ p Hp eq_refl). by apply take_ge.
  - intros id Hid. rewrite Hh3. auto.
  - eapply sorted_sublist, wi_sorted0. apply sublist_app; [done|]. by apply sublist_cons.
Qed.

Lemma seq_next n : List.seq 0 (Datatypes.S n) ≡ₚ n :: List.seq 0 n.
Proof. rewrite seq_S. cbn. by rewrite <-Permutation_cons_append. Qed.

(** A write is accepted: it has the next number. *)
Lemma writes_accept payload s :
  writes_inv s → length payload + pending_clear_write_bytes s ≤ max_pending_write_bytes → writes_inv (push_write payload s).
Proof.
  intros Hi Hl. set (n := next_write s). pose proof (λ w, queued_below s w Hi) as Hqb. pose proof (λ r, told_below s n r Hi) as Htb. destruct Hi.
  assert (Hh : told_writes (history (push_write payload s)) = told_writes (history s) ∧
    accepted_writes (history (push_write payload s)) = accepted_writes (history s) ++ [(n, payload)] ∧
    (∀ id, taken_of id (history (push_write payload s)) = taken_of id (history s)) ∧
    taken_ids (history (push_write payload s)) = taken_ids (history s)).
  { unfold push_write. cbn. events. rewrite !flat_map_snoc. split_and!; [..|intros id; rewrite flat_map_snoc|]; by rewrite ?app_nil_r. }
  destruct Hh as (Hh1 & Hh2 & Hh3 & Hh4).
  assert (Hf : clear_writes (push_write payload s) = clear_writes s ++ [ClearWrite payload 0 n] ∧ next_write (push_write payload s) = Datatypes.S n ∧
    pending_clear_write_bytes (push_write payload s) = pending_clear_write_bytes s + length payload) by done.
  destruct Hf as (Hf1 & Hf2 & Hf3). constructor; rewrite ?Hf1, ?Hf2, ?Hf3, ?Hh1, ?Hh2, ?Hh4.
  - rewrite wi_bytes0, sum_list_with_app. cbn. unfold remaining. cbn. lia.
  - lia.
  - rewrite seq_next. fold n in wi_once0. rewrite wi_once0, map_app. cbn. rewrite app_assoc. apply Permutation_cons_append.
  - intros w [Hw| ->%list_elem_of_singleton]%elem_of_app; rewrite Hh3.
    + destruct (wi_queued0 w Hw) as (H1 & H2 & H3). split_and!; [done| |done]. apply elem_of_app. by left.
    + cbn. split_and!; [lia|apply elem_of_app; right; by apply list_elem_of_singleton|]. by apply wi_fresh0.
  - intros id p [Hp|Hp%list_elem_of_singleton]%elem_of_app; rewrite Hh3.
    + destruct (wi_taken0 id p Hp) as (H1 & H2 & H3). unfold n. split_and!; [lia|done..].
    + injection Hp as -> ->. rewrite wi_fresh0 by done. split_and!; [lia|apply prefix_nil|]. intros Ht. apply Htb in Ht. unfold n in Ht. lia.
  - rewrite fmap_app. cbn. apply NoDup_app. split_and!; [done| |apply NoDup_singleton]. intros id Hin ->%list_elem_of_singleton.
    apply list_elem_of_fmap in Hin as ([id p] & Hid & Hp). cbn in Hid. apply wi_taken0 in Hp as [Hp _]. unfold n in *. lia.
  - intros id Hid. rewrite Hh3. apply wi_fresh0. unfold n in Hid. lia.
  - eapply Forall_impl; [exact wi_ids0|]. cbn. unfold n. lia.
  - rewrite map_app, app_assoc. apply strongly_sorted_snoc; [done|]. apply Forall_app_2; [eapply Forall_impl; [exact wi_ids0|]; cbn; unfold n; lia|].
    apply Forall_forall. intros id Hid. apply list_elem_of_In, in_map_iff in Hid as (w & <- & Hw). apply list_elem_of_In, Hqb in Hw. cbn. unfold n. lia.
Qed.

(** A write that is told as it is made. *)
Lemma writes_refuse failure s : writes_inv s → writes_inv (happen (te_written (next_write s) failure) (set_next_write (Datatypes.S (next_write s)) s)).
Proof.
  intros Hi. set (n := next_write s). pose proof (λ w, queued_below s w Hi) as Hqb. destruct Hi. set (s' := happen _ _).
  assert (Hh : told_writes (history s') = told_writes (history s) ++ [(n, failure)] ∧ accepted_writes (history s') = accepted_writes (history s) ∧
    (∀ id, taken_of id (history s') = taken_of id (history s)) ∧ taken_ids (history s') = taken_ids (history s)).
  { cbn. events. rewrite !flat_map_snoc. split_and!; [..|intros id; rewrite flat_map_snoc|]; by rewrite ?app_nil_r. }
  destruct Hh as (Hh1 & Hh2 & Hh3 & Hh4). change (clear_writes s') with (clear_writes s) in *.
  constructor; rewrite ?Hh1, ?Hh2, ?Hh4; change (next_write s') with (Datatypes.S n); try done.
  - rewrite seq_next. fold n in wi_once0. rewrite wi_once0, fmap_app. cbn. rewrite <-app_assoc. apply Permutation_middle.
  - intros w Hw. rewrite Hh3. by apply wi_queued0.
  - intros id p Hp. rewrite Hh3. destruct (wi_taken0 id p Hp) as (H1 & H2 & H3). unfold n. split_and!; [lia|done|].
    intros [Ht|Ht%list_elem_of_singleton]%elem_of_app; [by apply H3|]. injection Ht as -> _. unfold n in H1. lia.
  - intros id Hid. rewrite Hh3. apply wi_fresh0. unfold n in Hid. lia.
  - eapply Forall_impl; [exact wi_ids0|]. cbn. unfold n. lia.
Qed.

(** OpenSSL takes more of the first write. *)
Lemma writes_take n w rest s :
  writes_inv s → clear_writes s = w :: rest → cw_offset w + n ≤ length (cw_payload w) → writes_inv (advance_write n s).
Proof.
  intros Hi Hw Hn. assert (Hhead : w ∈ clear_writes s) by (rewrite Hw; left). pose proof (queued_below s w Hi Hhead) as Hb.
  pose proof (queued_untold s w None Hi Hhead) as Hu. pose proof (λ p, accepted_once s (cw_done w) p (cw_payload w) Hi) as Hone.
  assert (Hnd : NoDup (map cw_done (clear_writes s))).
  { assert (Hn' : NoDup (List.seq 0 (next_write s))) by apply NoDup_ListNoDup, List.seq_NoDup. rewrite (wi_once _ Hi) in Hn'. by apply NoDup_app in Hn' as (_ & _ & Hn'). }
  destruct Hi. set (bytes := take n (drop (cw_offset w) (cw_payload w))). set (w1 := ClearWrite (cw_payload w) (cw_offset w + n) (cw_done w)).
  assert (Hf : clear_writes (advance_write n s) = w1 :: rest ∧ next_write (advance_write n s) = next_write s ∧
    pending_clear_write_bytes (advance_write n s) = pending_clear_write_bytes s - n ∧ history (advance_write n s) = history s ++ [tv_ssl_write (cw_done w) bytes])
    by (unfold advance_write; by rewrite Hw).
  destruct Hf as (Hf1 & Hf2 & Hf3 & Hf4).
  assert (Hh : told_writes (history (advance_write n s)) = told_writes (history s) ∧ accepted_writes (history (advance_write n s)) = accepted_writes (history s) ∧
    (∀ id, taken_of id (history (advance_write n s)) = taken_of id (history s) ++ if Nat.eqb (cw_done w) id then bytes else []) ∧
    taken_ids (history (advance_write n s)) = taken_ids (history s) ++ [cw_done w]).
  { rewrite Hf4. events. rewrite !flat_map_snoc. split_and!; [..|intros id; by rewrite flat_map_snoc|done]; by rewrite ?app_nil_r. }
  destruct Hh as (Hh1 & Hh2 & Hh3 & Hh4). rewrite Hw in *. destruct (wi_queued0 w Hhead) as (Hle & Hacc & Htk).
  assert (Hmore : take (cw_offset w) (cw_payload w) ++ bytes = take (cw_offset w + n) (cw_payload w)) by (unfold bytes; by rewrite take_take_drop).
  constructor; rewrite ?Hf1, ?Hf2, ?Hf3, ?Hh1, ?Hh2, ?Hh4; try done.
  - rewrite wi_bytes0. cbn. unfold remaining. cbn. lia.
  - lia.
  - intros w' [->|Hw']%elem_of_cons; rewrite Hh3.
    + cbn. rewrite Nat.eqb_refl, Htk, Hmore. by split_and!.
    + cbn in Hnd. apply NoDup_cons in Hnd as [Hnd _]. destruct (Nat.eqb_spec (cw_done w) (cw_done w')) as [E|_].
      * exfalso. apply Hnd. rewrite E. apply list_elem_of_In, in_map, list_elem_of_In. done.
      * rewrite app_nil_r. apply wi_queued0. by right.
  - intros id p Hp. rewrite Hh3. destruct (wi_taken0 id p Hp) as (H1 & H2 & H3). destruct (Nat.eqb_spec (cw_done w) id) as [<-|_]; [|by rewrite app_nil_r].
    rewrite (Hone p Hp Hacc), Htk, Hmore. split_and!; [done|apply prefix_take|]. intros Ht. by destruct Hu.
  - intros id Hid. rewrite Hh3, wi_fresh0 by done. destruct (Nat.eqb_spec (cw_done w) id); [lia|done].
  - by apply Forall_app_2; [|constructor].
  - cbn. rewrite <-app_assoc. by apply sorted_again.
Qed.

Lemma writes_step s s' : writes_inv s → step s s' → writes_inv s'.
Proof.
  intros Hi H. destruct H; try (writes_other Hi).
  - destruct H. destruct in_history as [Hh|Hh]; [eapply (writes_same _ _ []); try done; by rewrite Hh, app_nil_r|by eapply (writes_same _ _ [_])].
  - destruct (terminal_read s) eqn:Et; writes_other Hi.
  - by apply writes_accept.
  - by apply writes_refuse.
  - by eapply writes_take.
  - eapply (writes_told _ _ w rest None); try done. cbn. unfold remaining. rewrite H0. lia.
  - by eapply (writes_told _ _ w rest (Some code)).
Qed.

(** ** The lower stream *)

(** What waits to be written; the first is being written if one is. *)
Definition unsent s : list str :=
  let l := map ew_payload (encrypted_writes s) in if encrypted_write_active s then tail l else l.

Record lower_inv s : Prop := {
  li_output : outputs (history s) = lower_writes (history s) ++ unsent s;
  li_active : encrypted_write_active s = true → encrypted_writes s ≠ [];
  li_open : closed s = false → none_marked is_lower_close (history s);
  li_after : never_after is_lower_close uses_lower (history s)
}.

Lemma lower_new x : lower_inv (new_tls x).
Proof. by constructor. Qed.

Definition of_lower (e : tls_event) : bool := match e with tv_ssl_output _ | tv_write _ => true | _ => uses_lower e end.

Lemma lower_same s s' es :
  lower_inv s → map ew_payload (encrypted_writes s') = map ew_payload (encrypted_writes s) → encrypted_write_active s' = encrypted_write_active s →
  (closed s' = false → closed s = false) → history s' = history s ++ es → none_marked of_lower es → lower_inv s'.
Proof.
  intros [] H1 H2 H3 H4 He.
  assert (Hh : outputs (history s') = outputs (history s) ∧ lower_writes (history s') = lower_writes (history s) ∧
    (none_marked is_lower_close (history s) → none_marked is_lower_close (history s')) ∧ never_after is_lower_close uses_lower (history s')).
  { rewrite H4. clear H4. induction es as [|e es IH] using rev_ind; [by rewrite app_nil_r|]. apply none_marked_snoc in He as [He1 He2].
    destruct (IH He1) as (IH1 & IH2 & IH3 & IH4). rewrite app_assoc. events. rewrite !flat_map_snoc, IH1, IH2.
    assert (Hu : uses_lower e = false) by by destruct e. split_and!; [by destruct e; rewrite ?app_nil_r..| |apply never_after_snoc; auto].
    intros H. apply none_marked_snoc. split; [auto|by destruct e]. }
  destruct Hh as (Hh1 & Hh2 & Hh3 & Hh4). constructor; unfold unsent; rewrite ?H1, ?H2, ?Hh1, ?Hh2; auto.
  intros Ha. specialize (li_active0 Ha). intros E. rewrite E in H1. by destruct (encrypted_writes s).
Qed.

Ltac lower_other Hi :=
  first [by eapply (lower_same _ _ []); [exact Hi|done|done|done|cbn; by rewrite app_nil_r|done]
        |by eapply (lower_same _ _ [_]); [exact Hi|done|done|done|reflexivity|done]
        |by eapply (lower_same _ _ [_; _]); [exact Hi|done|done|done|cbn; by rewrite <-app_assoc|done]].

Lemma lower_step s s' : lower_inv s → step s s' → lower_inv s'.
Proof.
  intros Hi H. destruct H; try (lower_other Hi).
  - destruct H. destruct in_history as [Hh|Hh]; [eapply (lower_same _ _ []); try done; [by rewrite in_closed|by rewrite Hh, app_nil_r]|eapply (lower_same _ _ [_]); try done; by rewrite in_closed].
  - destruct (terminal_read s) eqn:Et; lower_other Hi.
  - unfold advance_write. rewrite H. lower_other Hi.
  - destruct Hi. constructor; cbn; try done.
    + unfold unsent in *. cbn. events. rewrite !flat_map_snoc, app_nil_r, li_output0, map_app, <-app_assoc. f_equal.
      destruct (encrypted_write_active s); [|done]. by destruct (encrypted_writes s); [destruct li_active0|].
    + intros _. by destruct (encrypted_writes s).
    + intros Hc. apply none_marked_snoc. auto.
    + apply never_after_snoc; auto.
  - destruct Hi. constructor; cbn; try done.
    + unfold unsent in *. cbn. rewrite H in li_output0. events. rewrite !flat_map_snoc, app_nil_r, li_output0, H1, <-app_assoc. done.
    + intros _. by rewrite H1.
    + intros Hc. apply none_marked_snoc. auto.
    + apply never_after_snoc; auto.
  - destruct Hi. constructor; cbn; try done. unfold unsent in *. cbn. by rewrite H, H0 in li_output0.
  - destruct Hi. constructor; cbn; try done.
    + unfold unsent in *. cbn. events. by rewrite !flat_map_snoc, !app_nil_r.
    + apply never_after_snoc; auto.
  - destruct Hi. constructor; cbn; try done.
    + unfold unsent in *. cbn. events. by rewrite !flat_map_snoc, !app_nil_r.
    + intros Hc. apply none_marked_snoc. auto.
    + apply never_after_snoc; auto.
Qed.

(** ** The handshake and the closing *)

Definition of_stream (e : tls_event) : bool := match e with te_data _ | tv_accept _ _ => true | _ => false end.

Record ends_inv s : Prop := {
  ei_waiting : handshake_callback s = true → is_open s = false ∧ handshakes (history s) = [];
  ei_open : is_open s = true → ∃ alpn, handshakes (history s) = [Ok alpn];
  ei_unopened : is_open s = false → pending_clear s = [] ∧ clear_buffer s = [] ∧ none_marked of_stream (history s) ∧
    (handshake_callback s = false → failed s = true ∧ ∃ e, handshakes (history s) = [Err e]);
  ei_closes : List.seq 0 (next_close s) ≡ₚ told_closes (history s) ++ on_close s ++ default [] (close_callbacks s);
  ei_callbacks : closed s = false → close_callbacks s = None;
  ei_on_close : closed s = true → on_close s = []
}.

Lemma ends_new x : ends_inv (new_tls x).
Proof. by constructor. Qed.

Definition of_ends (e : tls_event) : bool := match e with te_handshake _ | te_closed _ => true | _ => false end.

Lemma ends_same s s' es :
  ends_inv s → handshake_callback s' = handshake_callback s → is_open s' = is_open s → on_close s' = on_close s → close_callbacks s' = close_callbacks s →
  closed s' = closed s → (failed s = true → failed s' = true) → next_close s' = next_close s →
  is_open s = true ∨ pending_clear s' = pending_clear s ∧ clear_buffer s' = clear_buffer s ∧ none_marked of_stream es →
  history s' = history s ++ es → none_marked of_ends es → ends_inv s'.
Proof.
  intros [] H1 H2 H3 H4 H5 H6 H7 H8 H9 He.
  assert (Hh : handshakes (history s') = handshakes (history s) ∧ told_closes (history s') = told_closes (history s)).
  { rewrite H9. clear H9 H8. induction es as [|e es IH] using rev_ind; [by rewrite app_nil_r|]. apply none_marked_snoc in He as [He1 He2].
    destruct (IH He1) as (IH1 & IH2). rewrite app_assoc. events. rewrite !flat_map_snoc, IH1, IH2. by destruct e; rewrite ?app_nil_r. }
  destruct Hh as (Hh1 & Hh2). constructor; rewrite ?H1, ?H2, ?H3, ?H4, ?H5, ?H7, ?Hh1, ?Hh2; try done.
  intros Ho. destruct H8 as [H8|(H10 & H11 & H12)]; [congruence|]. destruct (ei_unopened0 Ho) as (H13 & H14 & H15 & H16).
  split_and!; [congruence|congruence|rewrite H9; by apply none_marked_app|]. intros Hc. destruct (H16 Hc). auto.
Qed.

Ltac ends_other Hi :=
  let rest := solve [done|right; split; [done|split; done]] in
  first [eapply (ends_same _ _ []); [exact Hi|..|cbn; by rewrite app_nil_r|]; rest
        |eapply (ends_same _ _ [_]); [exact Hi|..|reflexivity|]; rest].

(** The stream is open: clear text flows. *)
Ltac ends_flow Hi Ho :=
  first [by eapply (ends_same _ _ []); [exact Hi|done|done|done|done|done|done|done|left; exact Ho|cbn; by rewrite app_nil_r|done]
        |by eapply (ends_same _ _ [_]); [exact Hi|done|done|done|done|done|done|done|left; exact Ho|reflexivity|done]
        |by eapply (ends_same _ _ [_; _]); [exact Hi|done|done|done|done|done|done|done|left; exact Ho|cbn; by rewrite <-app_assoc|done]].

Lemma buffer_open s : ends_inv s → clear_buffer s ≠ [] → is_open s = true.
Proof. intros [] H. destruct (is_open s); [done|]. by destruct ei_unopened0 as (_ & ? & _). Qed.

Lemma pending_open s : ends_inv s → pending_clear s ≠ [] → is_open s = true.
Proof. intros [] H. destruct (is_open s); [done|]. by destruct ei_unopened0 as (? & _ & _). Qed.

Lemma ends_step s s' : ends_inv s → step s s' → ends_inv s'.
Proof.
  intros Hi H. destruct H; try (ends_other Hi); try (assert (Ho := buffer_open s Hi ltac:(assumption)); ends_flow Hi Ho).
  - destruct H. assert (∃ es, history s' = history s ++ es ∧ none_marked of_ends es ∧ none_marked of_stream es) as (es & H1 & H2 & H3).
    { destruct in_history as [Hh|Hh]; [exists []; by rewrite app_nil_r|by eexists]. }
    eapply (ends_same _ _ es); try done; [congruence|right; done].
  - ends_flow Hi H.
  - assert (Ho : is_open s = true) by (apply pending_open; [done|by rewrite H0]). ends_flow Hi Ho.
  - destruct Hi. constructor; cbn; try done. intros Ho. destruct (ei_unopened0 Ho) as (_ & H). by split.
  - destruct (terminal_read s) eqn:Et; ends_other Hi.
  - destruct Hi. constructor; cbn; try done.
    + intros _. destruct (ei_waiting0 H) as [_ Hh]. exists alpn. events. by rewrite flat_map_snoc, Hh.
    + events. by rewrite flat_map_snoc, app_nil_r.
  - destruct Hi. constructor; cbn; try done; [intros; congruence|]. intros _. destruct (is_open s) eqn:Eo; [auto|].
    destruct ei_unopened0 as (_ & _ & _ & H2); [done|]. destruct (H2 H). congruence.
  - destruct Hi. destruct (ei_waiting0 H) as [Ho Hh]. constructor; cbn; try done; [congruence| |].
    + intros _. destruct (ei_unopened0 Ho) as (H1 & H2 & H3 & _). split_and!; [done|done|by apply none_marked_snoc|].
      intros _. split; [done|]. exists e. events. by rewrite flat_map_snoc, Hh.
    + events. by rewrite flat_map_snoc, app_nil_r.
  - ends_flow Hi H.
  - unfold advance_write. rewrite H. ends_other Hi.
  - destruct Hi. constructor; cbn; try done.
    + events. by rewrite flat_map_snoc, app_nil_r.
    + events. by rewrite flat_map_snoc, app_nil_r.
    + intros Ho. destruct (ei_unopened0 Ho) as (H1 & H2 & H3 & H4). split_and!; [done|done|by apply none_marked_snoc|]. events. by rewrite flat_map_snoc, app_nil_r.
    + events. rewrite flat_map_snoc, app_nil_r, ei_closes0. by rewrite ei_callbacks0, app_nil_r.
  - destruct Hi. constructor; cbn -[List.seq]; try done; [|by rewrite H]. rewrite seq_next, ei_closes0, ei_callbacks0 by done. cbn.
    rewrite !app_nil_r, app_assoc. apply Permutation_cons_append.
  - destruct Hi. constructor; cbn -[List.seq]; try done.
    + events. by rewrite flat_map_snoc, app_nil_r.
    + events. by rewrite flat_map_snoc, app_nil_r.
    + intros Ho. destruct (ei_unopened0 Ho) as (H1 & H2 & H3 & H4). split_and!; [done|done|by apply none_marked_snoc|]. events. by rewrite flat_map_snoc, app_nil_r.
    + rewrite seq_next, ei_closes0. events. rewrite flat_map_snoc, <-app_assoc. apply Permutation_middle.
  - destruct Hi. constructor; cbn -[List.seq]; try done; [..|congruence].
    + events. by rewrite flat_map_snoc, app_nil_r.
    + events. by rewrite flat_map_snoc, app_nil_r.
    + intros Ho. destruct (ei_unopened0 Ho) as (H4 & H2 & H3 & H5). split_and!; [done|done|by apply none_marked_snoc|]. events. by rewrite flat_map_snoc, app_nil_r.
    + rewrite ei_closes0, H1, ei_on_close0 by done. events. rewrite flat_map_snoc, <-app_assoc. done.
  - destruct Hi. constructor; cbn -[List.seq]; try done. by rewrite ei_closes0, H1.
Qed.
End invariants.
