(* ===== verification/TlsClaims.v ===== *)
(** * Claims about runs of a TLS stream

    The theorems, a plaintext stand-in for OpenSSL that meets its laws, witnesses
    on it, and behaviour that is probably not meant. *)

From Stdlib Require Import Sorted.
From stdpp Require Import relations.
From S2P Require Import Prelude Text TlsState TlsStream TlsTheory TlsSpec.

Open Scope nat_scope.

Section claims.
Context {S : Type} `{SSL : Ssl S} `{Laws : !SslLaws S} (max_pending_write_bytes max_pending_read_bytes rounds : nat).
Context (calls : list tls_event → tls_event → list tls_cmd) (depth : nat) (x : S) (ops : list tls_op).

Let final : tls_state S := run_tls max_pending_write_bytes max_pending_read_bytes rounds calls depth x ops.


(** C36: Every write of the user of a TLS stream is told at most once, the others
    wait; the clear bytes that OpenSSL has yet to take are counted and within the
    limit; OpenSSL takes the writes in order, of each a prefix, and all of one that
    is told to have succeeded.  The limit is on clear bytes alone: what OpenSSL put
    out and the lower stream has yet to take is not counted and has no bound
    ([encrypted_output_unlimited]), and the success of a write does not say that
    the lower stream took it ([success_told_before_failure]). *)
Theorem tls_writes :
  let h := history final in
  List.seq 0 (next_write final) ≡ₚ (told_writes h).*1 ++ map cw_done (clear_writes final) ∧
  pending_clear_write_bytes final = sum_list_with remaining (clear_writes final) ∧ pending_clear_write_bytes final ≤ max_pending_write_bytes ∧
  StronglySorted le (taken_ids h) ∧
  ∀ id payload, (id, payload) ∈ accepted_writes h →
    taken_of id h `prefix_of` payload ∧ ((id, None) ∈ told_writes h → taken_of id h = payload).
Proof.
  assert (H : writes_inv max_pending_write_bytes final) by (apply run_tls_invariant; [apply writes_new|apply writes_step]).
  destruct H. cbv zeta. split_and!; try done.
  - eapply sorted_sublist, wi_sorted. apply sublist_inserts_r. done.
  - intros id payload Hp. by apply wi_taken.
Qed.

(** C37: What OpenSSL put out is what was written to the lower stream, in order, and
    then what waits.  The lower stream is closed only when the TLS stream is, and
    after it was closed it is neither written to, nor read from, nor closed again:
    of all the calls only [read_stop] can still come ([read_stop_after_close]). *)
Theorem tls_lower_use :
  let h := history final in
  outputs h = lower_writes h ++ unsent final ∧ (closed final = false → none_marked is_lower_close h) ∧
  ∀ before after e, h = before ++ tv_close :: after → e ∈ after → lower_call e = true → e = tv_read_stop.
Proof.
  assert (H : lower_inv final) by (eapply run_tls_invariant; [apply lower_new|apply lower_step]). destruct H as [H1 _ H2 H3]. cbv zeta. split_and!; [done..|].
  intros before after e E [j Hj]%list_elem_of_lookup Hc. rewrite E in H3.
  pose proof (H3 (length before) (length before + Datatypes.S j) tv_close e) as Hu. rewrite list_lookup_middle in Hu by done.
  rewrite lookup_app_r in Hu by lia. replace (length before + Datatypes.S j - length before) with (Datatypes.S j) in Hu by lia.
  specialize (Hu eq_refl Hj ltac:(lia) eq_refl). by destruct e.
Qed.

(** The handshake is told at most once: with the protocol when the stream is
    open, with an error only if it never opens, and nothing is read or accepted
    before it is told; each [close] is told at most once. *)
Theorem tls_handshake_and_close :
  let h := history final in
  (is_open final = true → ∃ alpn, handshakes h = [Ok alpn]) ∧
  (is_open final = false → none_marked of_stream h ∧ (handshakes h = [] ∨ ∃ e, handshakes h = [Err e])) ∧
  List.seq 0 (next_close final) ≡ₚ told_closes h ++ on_close final ++ default [] (close_callbacks final).
Proof.
  assert (H : ends_inv final) by (eapply run_tls_invariant; [apply ends_new|apply ends_step]). destruct H. cbv zeta. split_and!; try done.
  intros Ho. destruct (ei_unopened Ho) as (_ & _ & H1 & H2). split; [done|]. destruct (handshake_callback final) eqn:E.
  - left. by apply ei_waiting.
  - right. by apply H2.
Qed.
End claims.

(** ** A plaintext stand-in for OpenSSL

    The handshake takes an [H] and answers [h], a full stop ends the stream,
    writes are taken four bytes at a time and put between angle brackets; what
    begins with a question mark waits for input. *)

Record plain := Plain { p_in : str; p_out : str; p_ended : bool }.

Definition plain_text (l : str) : str * str :=
  match find_char "." l with None => (l, []) | Some i => (take i l, drop i l) end.

#[local] Instance plain_ssl : Ssl plain := {
  ssl_handshake x :=
    match p_in x with
    | [] => (x, hs_want)
    | c :: rest =>
      if Ascii.eqb c "H" then (Plain rest (p_out x ++ lit "h") (p_ended x), hs_done) else (Plain rest (p_out x) (p_ended x), hs_failed)
    end;
  ssl_read x :=
    if p_ended x then (x, inr zero_return)
    else
      match p_in x with
      | [] => (x, inr want_read)
      | _ => match plain_text (p_in x) with
             | ([], rest) => (Plain rest (p_out x) true, inr zero_return)
             | (text, rest) => (Plain rest (p_out x) false, inl text)
             end
      end;
  ssl_write bytes x :=
    if starts_with bytes (lit "?") then (x, inr want_read)
    else (Plain (p_in x) (p_out x ++ lit "<" ++ take 4 bytes ++ lit ">") (p_ended x), inl (length (take 4 bytes)));
  ssl_shutdown x := Plain (p_in x) (p_out x ++ lit ".") (p_ended x);
  ssl_feed bytes x := (Plain (p_in x ++ bytes) (p_out x) (p_ended x), length bytes);
  ssl_pull x := match p_out x with [] => (x, None) | _ => (Plain (p_in x) (drop 16 (p_out x)) (p_ended x), Some (take 16 (p_out x))) end;
  ssl_alpn _ := lit "http/1.1";
  ssl_errors _ := [lit "bad record"];
  ssl_input x := length (p_in x);
  ssl_output x := length (p_out x)
}.

Lemma plain_text_app l : (plain_text l).1 ++ (plain_text l).2 = l.
Proof. unfold plain_text. destruct (find_char "." l); cbn; [apply take_drop|by rewrite app_nil_r]. Qed.

#[local] Program Instance plain_laws : SslLaws plain := { ssl_ended x := p_ended x = true }.
Next Obligation. intros x. cbn. destruct (p_in x) as [|c rest] eqn:E; cbn; rewrite ?E; [done|]. destruct (Ascii.eqb c "H"); cbn; lia. Qed.
Next Obligation. intros bytes x. cbn. by destruct (starts_with _ _). Qed.
Next Obligation. done. Qed.
Next Obligation. intros x. cbn. by destruct (p_out x). Qed.
Next Obligation.
  intros x. cbn. destruct (p_ended x); [done|]. destruct (p_in x) as [|c rest] eqn:E; cbn [fst]; [by rewrite E|].
  pose proof (f_equal length (plain_text_app (c :: rest))) as H. rewrite length_app in H.
  destruct (plain_text (c :: rest)) as [[|t ts] r]; cbn in *; rewrite ?E; cbn in *; lia.
Qed.
Next Obligation.
  intros x x' b H. cbn in H. destruct (p_ended x); [done|]. destruct (p_in x) as [|c rest] eqn:E; [done|].
  pose proof (f_equal length (plain_text_app (c :: rest))) as Ht. rewrite length_app in Ht.
  destruct (plain_text (c :: rest)) as [[|t ts] r]; [done|]. injection H as <- <-. cbn in *. rewrite E. split; [done|]. cbn. lia.
Qed.
Next Obligation. intros x x' b H. cbn in H. destruct (p_out x) as [|c rest] eqn:E; [done|]. injection H as <- <-. cbn. rewrite E. split; [done|]. rewrite length_drop. cbn. lia. Qed.
Next Obligation. intros x x' H. cbn in H. destruct (p_out x) eqn:E; [|done]. injection H as <-. cbn. by rewrite E. Qed.
Next Obligation. intros x H. cbn in *. by destruct (p_out x). Qed.
Next Obligation. intros bytes x x' n H. cbn in H. destruct (starts_with _ _); [done|]. injection H as _ <-. rewrite length_take. lia. Qed.
Next Obligation.
  intros x x' H. cbn in H. destruct (p_ended x) eqn:E; [by injection H as <-|]. destruct (p_in x) as [|c rest]; [done|].
  destruct (plain_text (c :: rest)) as [[|t ts] r]; [|done]. by injection H as <-.
Qed.
Next Obligation. intros x H. cbn. by rewrite H. Qed.
Next Obligation. intros bytes x H. cbn. by destruct (starts_with _ _). Qed.
Next Obligation. done. Qed.
Next Obligation. intros x H. cbn. by destruct (p_out x). Qed.
Next Obligation. done. Qed.
Next Obligation. intros x H. cbn. destruct (p_in x) as [|c rest]; [done|]. by destruct (Ascii.eqb c "H"). Qed.

(** ** An example *)

(** The user reads, writes twice, and closes at the end of the stream. *)
Definition example_user (_ : list tls_event) (e : tls_event) : list tls_cmd :=
  match e with
  | te_handshake (Ok _) => [tc_read_start; tc_write (lit "hello"); tc_write (lit "too long")]
  | te_eof => [tc_write (lit "bye"); tc_close]
  | _ => []
  end.

Definition example_run : tls_state plain :=
  run_tls 8 16 4 example_user 2 (Plain [] [] false)
    [tls_read (lr_bytes (lit "Habc")); tls_written None; tls_read (lr_bytes (lit "def.")); tls_written None; tls_written None; tls_written None; tls_lower_closed].

(** The run until the end of the stream is told. *)
Definition example_ops : list tls_op :=
  [tls_read (lr_bytes (lit "Habc")); tls_written None; tls_calls [tc_read_stop]; tls_calls [tc_read_start]; tls_read (lr_bytes (lit "def."))].

Definition reading_user (_ : list tls_event) (e : tls_event) : list tls_cmd :=
  match e with te_handshake (Ok _) => [tc_read_start; tc_write (lit "hello")] | _ => [] end.


Lemma tls_writes_witness :
  let h := history (run_tls 8 16 4 reading_user 2 (Plain [] [] false) example_ops) in taken_of 0 h = lit "hello".
Proof.
  destruct (tls_writes 8 16 4 reading_user 2 (Plain [] [] false) example_ops) as (_ & _ & _ & _ & H).
  apply (H 0 (lit "hello")); apply list_elem_of_In; vm_compute; repeat (first [left; reflexivity|right]).
Defined.

Lemma tls_lower_use_witness :
  let h := history (run_tls 8 16 4 reading_user 2 (Plain [] [] false) example_ops) in
  none_marked is_lower_close h ∧ outputs h = [lit "h"] ++ [lit "<hell>"; lit "<o>"].
Proof.
  destruct (tls_lower_use 8 16 4 reading_user 2 (Plain [] [] false) example_ops) as (H1 & H2 & _).
  split; [apply H2; reflexivity|]. rewrite H1. vm_compute. reflexivity.
Defined.

Lemma tls_handshake_and_close_witness :
  ∃ alpn, handshakes (history (run_tls 8 16 4 reading_user 2 (Plain [] [] false) example_ops)) = [Ok alpn].
Proof. apply (tls_handshake_and_close 8 16 4 reading_user 2 (Plain [] [] false) example_ops). reflexivity. Defined.

(** ** What is probably not meant *)

(** Reads of the lower stream are stopped after it was closed: [read_stop] looks
    only at whether they were started. *)
Example read_stop_after_close :
  let s := run_tls 4 4 4 (λ _ _, []) 1 (Plain [] [] false)
    [tls_read (lr_bytes (lit "H")); tls_calls [tc_read_start]; tls_calls [tc_close]; tls_written None; tls_written None; tls_calls [tc_read_stop]] in
  List.filter lower_call (history s) =
    [tv_read_start; tv_write (lit "h"); tv_read_stop; tv_read_start; tv_write (lit "."); tv_close; tv_read_stop].
Proof. vm_compute. reflexivity. Qed.

(** [max_pending_write_bytes] is not reached while the lower stream takes
    nothing: OpenSSL takes every write at once, it is told to have succeeded, and
    what is encrypted waits without a limit. *)
Example encrypted_output_unlimited :
  let s := run_tls 4 4 4 (λ _ _, []) 1 (Plain [] [] false) [tls_read (lr_bytes (lit "H")); tls_calls (repeat (tc_write (lit "abcd")) 50)] in
  map snd (told_writes (history s)) = repeat None 50 ∧ length (unsent s) = 50 ∧ pending_clear_write_bytes s = 0.
Proof. vm_compute. by split_and!. Qed.

(** So a write is told to have succeeded that the lower stream then fails. *)
Example success_told_before_failure :
  let s := run_tls 4 4 4 (λ _ _, []) 1 (Plain [] [] false)
    [tls_read (lr_bytes (lit "H")); tls_written None; tls_calls [tc_write (lit "abcd")]; tls_written (Some (TlsError (foreign_code 32) []))] in
  told_writes (history s) = [(0, None)] ∧ failed s = true.
Proof. vm_compute. by split_and!. Qed.

(** A write on a stream that failed is accepted and never told. *)
Example failed_stream_takes_writes :
  let s := run_tls 4 4 4 (λ _ _, []) 1 (Plain [] [] false)
    [tls_read (lr_bytes (lit "H")); tls_calls [tc_read_start]; tls_read lr_eof; tls_lower_closed; tls_calls [tc_write (lit "abcd"); tc_close]] in
  told_writes (history s) = [] ∧ told_closes (history s) = [0] ∧ map cw_done (clear_writes s) = [0] ∧ failed s = true.
Proof. vm_compute. by split_and!. Qed.

(** A callback that writes again when its write fails keeps the loop that fails
    the writes going, for as long as it is let. *)
Definition retrying_user (_ : list tls_event) (e : tls_event) : list tls_cmd :=
  match e with te_written _ (Some _) => [tc_write (lit "?")] | _ => [] end.

Example retries_without_end :
  let told rounds := length (told_writes (history (run_tls 4 4 rounds retrying_user 1 (Plain [] [] false)
    [tls_read (lr_bytes (lit "H")); tls_calls [tc_write (lit "?")]; tls_read lr_eof]))) in
  told 10 = 11 ∧ told 100 = 101.
Proof. vm_compute. by split_and!. Qed.
