(* ===== verification/TlsListener.v ===== *)
(** * The TLS listener

    [tls_listener_model] of [src/tls/listener.cpp]: connections of the lower
    listener are shaken hands with, a bounded number at a time and each in a
    bounded time, and handed out when that is done.  Connections are numbered as
    they come; what their handshakes report is an input, which may come within
    [accept]. *)

From S2P Require Import Prelude Text TlsState.

Open Scope nat_scope.

Record listener_options := ListenerOptions { handshake_timeout : Z; max_pending_handshakes : nat }.

Inductive listener_event :=
| le_listen | le_close
| le_timer_start (id : nat) | le_timer_close (id : nat)
| le_handshake (id : nat) | le_stream_close (id : nat)
| le_accepted (id : nat) | le_failed (id : nat) (code : error_code) | le_error (code : error_code).

(** [running]: the handshakes that are active; [timers]: those with a timer. *)
Record tls_listener := TlsListener {
  on_accept : bool;
  closing : bool;
  pending : list nat;
  timers : list nat;
  running : list nat;
  next : nat;
  history : list listener_event
}.

Definition new_listener : tls_listener := TlsListener false false [] [] [] 0 [].

Definition happen (e : listener_event) (s : tls_listener) : tls_listener :=
  TlsListener (on_accept s) (closing s) (pending s) (timers s) (running s) (next s) (history s ++ [e]).
Definition set_pending (x : list nat) (s : tls_listener) : tls_listener :=
  TlsListener (on_accept s) (closing s) x (timers s) (running s) (next s) (history s).
Definition set_timers (x : list nat) (s : tls_listener) : tls_listener :=
  TlsListener (on_accept s) (closing s) (pending s) x (running s) (next s) (history s).
Definition set_running (x : list nat) (s : tls_listener) : tls_listener :=
  TlsListener (on_accept s) (closing s) (pending s) (timers s) x (next s) (history s).

Definition without (id : nat) (l : list nat) : list nat := List.filter (λ i, negb (Nat.eqb i id)) l.
Definition mem (id : nat) (l : list nat) : bool := existsb (Nat.eqb id) l.

(** A handshake reports a stream, or an error. *)
Definition handshake_report : Type := option error_code.

Section operations.
(** [closes]: whether the callback closes the listener. *)
Context (options : listener_options) (closes : list listener_event → listener_event → bool).

Definition close_timer (id : nat) (s : tls_listener) : tls_listener :=
  if mem id (timers s) then happen (le_timer_close id) (set_timers (without id (timers s)) s) else s.

(** What is left of [finish_handshake] before the callback. *)
Definition settle (id : nat) (s : tls_listener) : tls_listener :=
  let s := close_timer id s in set_pending (without id (pending s)) s.

(** [operation.cancel] of a closing listener: the handshake reports, which tells
    nobody. *)
Definition cancel_closing (s : tls_listener) (id : nat) : tls_listener :=
  let s := close_timer id s in
  if mem id (running s) then settle id (happen (le_handshake id) (set_running (without id (running s)) s)) else s.

Definition close (s : tls_listener) : tls_listener :=
  if closing s then s
  else
    let ids := pending s in
    let s := happen le_close (TlsListener (on_accept s) true [] (timers s) (running s) (next s) (history s)) in
    foldl cancel_closing s ids.

(** [on_accept_]. *)
Definition emit (e : listener_event) (s : tls_listener) : tls_listener :=
  let s := happen e s in if closes (history s) e then close s else s.

Definition finish_handshake (id : nat) (r : handshake_report) (s : tls_listener) : tls_listener :=
  let s := settle id s in
  if closing s || negb (on_accept s) then s
  else emit match r with Some code => le_failed id code | None => le_accepted id end s.

Definition start_timeout (id : nat) (s : tls_listener) : tls_listener :=
  if (handshake_timeout options <=? 0)%Z then s else happen (le_timer_start id) (set_timers (timers s ++ [id]) s).

(** A connection, or an error of the lower listener; [within]: what the handshake
    reports before [accept] returns. *)
Definition on_lower_accept (failure : option error_code) (within : option handshake_report) (s : tls_listener) : tls_listener :=
  if closing s || negb (on_accept s) then s
  else
    match failure with
    | Some code => emit (le_error code) s
    | None =>
      let id := next s in
      let s := TlsListener (on_accept s) (closing s) (pending s) (timers s) (running s) (S id) (history s) in
      if max_pending_handshakes options <=? length (pending s) then
        emit (le_failed id (tls_code pending_handshake_limit)) (happen (le_stream_close id) s)
      else
        let s := start_timeout id (set_pending (pending s ++ [id]) s) in
        match within with
        | Some r => finish_handshake id r (happen (le_handshake id) s)
        | None => set_running (running s ++ [id]) s
        end
    end.

Definition listen (s : tls_listener) : tls_listener :=
  happen le_listen (TlsListener true (closing s) (pending s) (timers s) (running s) (next s) (history s)).

(** The handshake reports, once. *)
Definition on_handshake (id : nat) (r : handshake_report) (s : tls_listener) : tls_listener :=
  if mem id (running s) then finish_handshake id r (happen (le_handshake id) (set_running (without id (running s)) s)) else s.

Definition on_timer (id : nat) (s : tls_listener) : tls_listener :=
  if mem id (timers s) then on_handshake id (Some (tls_code tls_timeout)) (close_timer id s) else s.

Inductive listener_op :=
| lo_listen | lo_accept (failure : option error_code) (within : option handshake_report) | lo_handshake (id : nat) (r : handshake_report)
| lo_timer (id : nat) | lo_close.

Definition run_listener_op (s : tls_listener) (op : listener_op) : tls_listener :=
  match op with
  | lo_listen => listen s
  | lo_accept failure within => on_lower_accept failure within s
  | lo_handshake id r => on_handshake id r s
  | lo_timer id => on_timer id s
  | lo_close => close s
  end.

Definition run_listener (ops : list listener_op) : tls_listener := foldl run_listener_op new_listener ops.
End operations.

(** * What the TLS listener promises *)

Open Scope nat_scope.

(** ** Parts of a history *)

Definition finished (h : list listener_event) : list nat := flat_map (λ e, match e with le_handshake id => [id] | _ => [] end) h.
Definition rejected (h : list listener_event) : list nat := flat_map (λ e, match e with le_stream_close id => [id] | _ => [] end) h.
Definition told (h : list listener_event) : list nat := flat_map (λ e, match e with le_accepted id | le_failed id _ => [id] | _ => [] end) h.
Definition started_timers (h : list listener_event) : list nat := flat_map (λ e, match e with le_timer_start id => [id] | _ => [] end) h.
Definition closed_timers (h : list listener_event) : list nat := flat_map (λ e, match e with le_timer_close id => [id] | _ => [] end) h.
Definition is_close (e : listener_event) : bool := match e with le_close => true | _ => false end.
Definition tells (e : listener_event) : bool := match e with le_accepted _ | le_failed _ _ | le_error _ | le_close => true | _ => false end.

Ltac parts := unfold finished, rejected, told, started_timers, closed_timers in *; rewrite ?flat_map_snoc, ?app_nil_r in *; cbn [app] in *.

Lemma mem_spec id l : mem id l = true ↔ id ∈ l.
Proof.
  unfold mem. rewrite existsb_exists. split; [intros (x & H & E)|intros H; exists id; split; [by apply list_elem_of_In|apply Nat.eqb_refl]].
  apply Nat.eqb_eq in E as ->. by apply list_elem_of_In.
Qed.

Lemma mem_false id l : mem id l = false ↔ id ∉ l.
Proof. rewrite <-mem_spec. by destruct (mem id l). Qed.

Lemma without_absent id l : id ∉ l → without id l = l.
Proof.
  unfold without. induction l as [|i l IH]; [done|]. rewrite not_elem_of_cons. intros [H1 H2]. cbn. destruct (Nat.eqb_spec i id); [congruence|]. cbn. by rewrite IH.
Qed.

Lemma without_present id l : NoDup l → id ∈ l → l ≡ₚ id :: without id l.
Proof.
  unfold without. induction l as [|i l IH]; [by intros _ ?%elem_of_nil|]. intros [Hni Hn]%NoDup_cons. cbn. destruct (Nat.eqb_spec i id) as [->|Hne]; cbn.
  - intros _. f_equiv. by rewrite (without_absent id l Hni : List.filter _ l = l).
  - intros [->|H]%elem_of_cons; [done|]. rewrite (IH Hn H) at 1. apply perm_swap.
Qed.

Lemma without_in id i l : i ∈ without id l ↔ i ∈ l ∧ i ≠ id.
Proof. unfold without. rewrite list_elem_of_In, filter_In, <-list_elem_of_In, negb_true_iff, Nat.eqb_neq. done. Qed.

Section invariant.
Context (options : listener_options) (closes : list listener_event → listener_event → bool).
Implicit Types s : tls_listener.

(** What holds while the listener closes, too. *)
Record account s : Prop := {
  ac_ids : List.seq 0 (next s) ≡ₚ running s ++ finished (history s) ++ rejected (history s);
  ac_told : told (history s) ⊆+ finished (history s) ++ rejected (history s);
  ac_timers : started_timers (history s) ≡ₚ timers s ++ closed_timers (history s);
  ac_timers_in : ∀ id, id ∈ timers s → id ∈ running s;
  ac_timers_once : NoDup (timers s);
  ac_after : never_after is_close tells (history s)
}.

Record listener_inv s : Prop := {
  li_account : account s;
  li_live : closing s = false → pending s = running s ∧ told (history s) ≡ₚ finished (history s) ++ rejected (history s) ∧ none_marked is_close (history s);
  li_closed : closing s = true → pending s = [] ∧ running s = [] ∧ timers s = [];
  li_limit : length (pending s) ≤ max_pending_handshakes options;
  li_accept : on_accept s = false → next s = 0
}.

Lemma new_inv : listener_inv new_listener.
Proof. constructor; [constructor|..]; try done; [constructor|apply Nat.le_0_l]. Qed.

Lemma running_nodup s : account s → NoDup (running s).
Proof.
  intros []. assert (H : NoDup (List.seq 0 (next s))) by apply NoDup_ListNoDup, List.seq_NoDup. rewrite ac_ids0 in H. by apply NoDup_app in H as [H _].
Qed.

(** ** Closing *)

Lemma without_nodup id l : NoDup l → NoDup (without id l).
Proof. intros H. apply NoDup_ListNoDup, List.NoDup_filter, NoDup_ListNoDup, H. Qed.

(** A handshake ends: its timer is closed and it runs no more. *)
Lemma end_account id s s' es :
  account s → id ∈ running s → running s' = without id (running s) → timers s' = without id (timers s) → next s' = next s →
  history s' = history s ++ es → es ≡ₚ le_handshake id :: (if mem id (timers s) then [le_timer_close id] else []) → account s'.
Proof.
  intros Ha Hin Hr Ht Hne Hh Hes. pose proof (running_nodup s Ha) as Hn. destruct Ha. pose proof (without_present id _ Hn Hin) as Hp.
  assert (Hi : List.seq 0 (next s) ≡ₚ without id (running s) ++ (finished (history s) ++ [id]) ++ rejected (history s)).
  { rewrite ac_ids0, Hp at 1. cbn. rewrite <-app_assoc. cbn. rewrite Permutation_middle. f_equiv. apply Permutation_middle. }
  assert (Hto : told (history s) ⊆+ (finished (history s) ++ [id]) ++ rejected (history s)).
  { rewrite ac_told0. apply submseteq_app; [apply submseteq_inserts_r|]; done. }
  assert (Hx : finished (history s') = finished (history s) ++ [id] ∧ rejected (history s') = rejected (history s) ∧ told (history s') = told (history s) ∧
    started_timers (history s') = started_timers (history s) ∧ closed_timers (history s') = closed_timers (history s) ++ (if mem id (timers s) then [id] else []) ∧
    never_after is_close tells (history s')).
  { rewrite Hh. destruct (mem id (timers s)).
    - assert (es = [le_handshake id; le_timer_close id] ∨ es = [le_timer_close id; le_handshake id]) as [-> | ->] by (apply Permutation_length_2_inv; by symmetry).
      all: parts; rewrite !flat_map_app; cbn; rewrite ?app_nil_r; split_and!; try done; apply never_after_app; [done|by apply never_after_harmless|by left].
    - apply Permutation_singleton_r in Hes as ->. parts. split_and!; try done. apply never_after_snoc; auto. }
  destruct Hx as (Hx1 & Hx2 & Hx3 & Hx4 & Hx5 & Hx6).
  constructor; rewrite ?Hr, ?Ht, ?Hne, ?Hx1, ?Hx2, ?Hx3, ?Hx4, ?Hx5; try done.
  - rewrite ac_timers0. destruct (mem id (timers s)) eqn:Em; [apply mem_spec in Em|apply mem_false in Em].
    + rewrite (without_present id (timers s)) at 1 by done. cbn. rewrite app_assoc. apply Permutation_cons_append.
    + by rewrite (without_absent id (timers s)), app_nil_r.
  - intros i [H1 H2]%without_in. apply without_in. auto.
  - by apply without_nodup.
Qed.

Lemma close_timer_same id s :
  let s' := close_timer id s in
  running s' = running s ∧ timers s' = without id (timers s) ∧ next s' = next s ∧ pending s' = pending s ∧ closing s' = closing s ∧
  on_accept s' = on_accept s ∧ history s' = history s ++ (if mem id (timers s) then [le_timer_close id] else []).
Proof.
  unfold close_timer. destruct (mem id (timers s)) eqn:Em; [by split_and!|]. apply mem_false in Em. rewrite without_absent by done. by rewrite app_nil_r.
Qed.

(** Cancelling what runs when the listener closes. *)
Lemma cancel_all ids : ∀ s,
  account s → closing s = true → pending s = [] → running s = ids →
  let s' := foldl cancel_closing s ids in
  account s' ∧ closing s' = true ∧ pending s' = [] ∧ running s' = [] ∧ on_accept s' = on_accept s ∧ next s' = next s.
Proof.
  induction ids as [|id ids IH]; intros s Ha Hc Hp Hr; [by split_and!|]. cbn [foldl].
  assert (Hin : id ∈ running s) by (rewrite Hr; left). destruct (close_timer_same id s) as (E1 & E2 & E3 & E4 & E5 & E6 & E7).
  set (s1 := happen (le_handshake id) (set_running (without id (running s)) (close_timer id s))).
  assert (H1 : account s1).
  { apply (end_account id s s1 ((if mem id (timers s) then [le_timer_close id] else []) ++ [le_handshake id])); try done.
    - cbn. by rewrite E7, app_assoc.
    - by rewrite <-Permutation_cons_append. }
  assert (Ht : mem id (timers s1) = false) by (apply mem_false; cbn; rewrite E2; intros [_ H]%without_in; by apply H).
  assert (E : cancel_closing s id = set_pending (without id (pending s1)) s1).
  { assert (Hc1 : close_timer id s1 = s1) by (unfold close_timer; by rewrite Ht).
    unfold cancel_closing, settle. rewrite E1, (proj2 (mem_spec _ _) Hin). fold s1. by rewrite Hc1. }
  assert (Hp1 : pending s1 = []) by (cbn; congruence). rewrite E, Hp1. set (s2 := set_pending _ s1).
  assert (Hr1 : running s2 = ids).
  { cbn. rewrite Hr. cbn. rewrite Nat.eqb_refl. cbn. pose proof (running_nodup s Ha) as Hn. rewrite Hr in Hn. apply NoDup_cons in Hn as [Hn _].
    by apply (without_absent id ids). }
  destruct (IH s2) as (H3 & H4 & H5 & H6 & H7 & H8); try done; [by destruct H1|cbn; congruence|]. rewrite H7, H8. cbn. split_and!; congruence.
Qed.

Lemma listener_close_inv s : listener_inv s → listener_inv (close s).
Proof.
  intros Hi. unfold close. destruct (closing s) eqn:Ec; [done|]. destruct Hi. destruct (li_live0 Ec) as (H1 & H2 & H3).
  set (s0 := happen le_close _). assert (Ha : account s0).
  { destruct li_account0. constructor; cbn; try (parts; done); try done. apply never_after_snoc; auto. }
  destruct (cancel_all (pending s) s0) as (H4 & H5 & H6 & H7 & H8 & H9); try done. set (s1 := foldl _ _ _) in *.
  assert (Ht : timers s1 = []) by (destruct (timers s1) as [|i l] eqn:Et; [done|]; exfalso; destruct H4; specialize (ac_timers_in0 i); rewrite Et, H7 in ac_timers_in0;
    by apply (elem_of_nil i), ac_timers_in0; left).
  constructor; [done|congruence|done|rewrite H6; cbn; lia|]. rewrite H8, H9. done.
Qed.

Lemma emit_inv e s : listener_inv (happen e s) → listener_inv (emit closes e s).
Proof. intros H. unfold emit. cbv zeta. destruct (closes _ _); [by apply listener_close_inv|done]. Qed.

(** The user is told of a connection. *)
Lemma told_account id e s :
  account s → (e = le_accepted id ∨ ∃ code, e = le_failed id code) → told (history s) ++ [id] ⊆+ finished (history s) ++ rejected (history s) →
  none_marked is_close (history s) → account (happen e s).
Proof.
  intros [] He Ht Hn.
  assert (Hx : finished (history s ++ [e]) = finished (history s) ∧ rejected (history s ++ [e]) = rejected (history s) ∧
    told (history s ++ [e]) = told (history s) ++ [id] ∧ started_timers (history s ++ [e]) = started_timers (history s) ∧
    closed_timers (history s ++ [e]) = closed_timers (history s)) by (destruct He as [->|[code ->]]; parts; done).
  destruct Hx as (H1 & H2 & H3 & H4 & H5).
  constructor; cbn [happen history running next timers]; rewrite ?H1, ?H2, ?H3, ?H4, ?H5; try done. apply never_after_snoc; auto.
Qed.

Lemma told_event id r : match r with Some code => le_failed id code | None => le_accepted id end = le_accepted id ∨
  ∃ code, match r with Some code => le_failed id code | None => le_accepted id end = le_failed id code.
Proof. destruct r; eauto. Qed.

(** A handshake that ended is told, as long as the listener is open; [s0] is what
    it was before the end, [s] what it is without the handshake and its timer. *)
Lemma tell_inv id r s :
  account s → closing s = false → on_accept s = true → pending s = running s → length (pending s) ≤ max_pending_handshakes options →
  none_marked is_close (history s) → id :: told (history s) ≡ₚ finished (history s) ++ rejected (history s) →
  listener_inv (emit closes match r with Some code => le_failed id code | None => le_accepted id end s).
Proof.
  intros Ha Hc Hon Hp Hl Hn Ht. apply emit_inv. pose proof (told_event id r) as He. set (e := match r with Some code => _ | None => _ end) in *. clearbody e.
  assert (Ht2 : told (history s) ++ [id] ≡ₚ finished (history s) ++ rejected (history s)) by (rewrite <-Ht; symmetry; apply Permutation_cons_append).
  constructor; cbn [happen history running next timers pending closing on_accept]; try done; try congruence; [by eapply told_account; [done|exact He|rewrite Ht2|done]|].
  intros _. split; [done|]. split; [|apply none_marked_snoc; split; [done|by destruct He as [->|[code ->]]]].
  assert (Hx : finished (history s ++ [e]) = finished (history s) ∧ rejected (history s ++ [e]) = rejected (history s) ∧
      told (history s ++ [e]) = told (history s) ++ [id]) by (destruct He as [->|[code ->]]; parts; done).
    destruct Hx as (-> & -> & ->). done.
Qed.

(** ** The operations *)

Lemma finish_inv id r s s1 es :
  listener_inv s → closing s = false → id ∈ running s → running s1 = without id (running s) → timers s1 = without id (timers s) → next s1 = next s →
  pending s1 = without id (pending s) → closing s1 = closing s → on_accept s1 = on_accept s → history s1 = history s ++ es →
  es ≡ₚ le_handshake id :: (if mem id (timers s) then [le_timer_close id] else []) →
  listener_inv (if closing s1 || negb (on_accept s1) then s1 else emit closes match r with Some code => le_failed id code | None => le_accepted id end s1).
Proof.
  intros Hi Hc Hin H1 H2 H3 H4 H5 H6 H7 H8. destruct Hi. destruct (li_live0 Hc) as (Hp & Ht & Hn).
  assert (Hon : on_accept s = true).
  { destruct (on_accept s); [done|]. destruct li_account0. rewrite li_accept0 in ac_ids0 by done. cbn in ac_ids0. apply Permutation_nil_l in ac_ids0. symmetry in ac_ids0.
    apply app_eq_nil in ac_ids0 as [E _]. rewrite E in Hin. by apply elem_of_nil in Hin. }
  rewrite H5, H6, Hc, Hon. cbn [orb negb]. pose proof (end_account id s s1 es li_account0 Hin H1 H2 H3 H7 H8) as Ha.
  assert (Hl : length (without id (pending s)) ≤ length (pending s)) by apply List.filter_length_le.
  assert (Hes : finished es = [id] ∧ rejected es = [] ∧ told es = [] ∧ none_marked is_close es).
  { destruct (mem id (timers s)); [|by apply Permutation_singleton_r in H8 as ->].
    assert (es = [le_handshake id; le_timer_close id] ∨ es = [le_timer_close id; le_handshake id]) as [-> | ->] by (apply Permutation_length_2_inv; by symmetry); done. }
  destruct Hes as (He1 & He2 & He3 & He4).
  apply tell_inv; rewrite ?H4, ?H1, ?Hp; try congruence; [rewrite Hp in Hl; rewrite <-Hp in Hl at 2; lia|rewrite H7; by apply none_marked_app|].
  rewrite H7. unfold finished, rejected, told in *. rewrite !flat_map_app, He1, He2, He3, !app_nil_r, Ht, <-app_assoc. apply Permutation_middle.
Qed.

Lemma on_handshake_inv id r s : listener_inv s → listener_inv (on_handshake closes id r s).
Proof.
  intros Hi. unfold on_handshake. destruct (mem id (running s)) eqn:Em; [|done]. apply mem_spec in Em. destruct (closing s) eqn:Ec.
  { destruct (li_closed s Hi Ec) as (_ & Hr & _). rewrite Hr in Em. by apply elem_of_nil in Em. }
  unfold finish_handshake. set (s0 := happen _ _). destruct (close_timer_same id s0) as (E1 & E2 & E3 & E4 & E5 & E6 & E7).
  eapply (finish_inv id r s _ ([le_handshake id] ++ if mem id (timers s) then [le_timer_close id] else [])); try done; unfold settle; cbn -[without].
  - by rewrite E4.
  - rewrite E7. change (history s0) with (history s ++ [le_handshake id]). change (timers s0) with (timers s). by rewrite <-app_assoc.
Qed.

Lemma on_timer_inv id s : listener_inv s → listener_inv (on_timer closes id s).
Proof.
  intros Hi. unfold on_timer. destruct (mem id (timers s)) eqn:Em; [|done]. unfold on_handshake. destruct (close_timer_same id s) as (E1 & E2 & E3 & E4 & E5 & E6 & E7).
  apply mem_spec in Em as Hin. pose proof (ac_timers_in s (li_account s Hi) id Hin) as Hr. rewrite E1, (proj2 (mem_spec _ _) Hr).
  destruct (closing s) eqn:Ec; [destruct (li_closed s Hi Ec) as (_ & Hx & _); rewrite Hx in Hr; by apply elem_of_nil in Hr|].
  unfold finish_handshake. set (s0 := happen _ _).
  assert (Hc0 : close_timer id s0 = s0).
  { unfold close_timer. assert (H : mem id (timers s0) = false) by (apply mem_false; cbn; rewrite E2; intros [_ H]%without_in; by apply H). by rewrite H. }
  assert (Hst : settle id s0 = set_pending (without id (pending s)) s0) by (unfold settle; rewrite Hc0; cbn -[without]; by rewrite E4). rewrite Hst.
  apply (finish_inv id (Some (tls_code tls_timeout)) s _ ([le_timer_close id] ++ [le_handshake id])); try done; cbn -[without].
  - by rewrite E5.
  - by rewrite E7, Em, <-app_assoc.
  - rewrite Em. apply perm_swap.
Qed.

Lemma below_next id s : account s → id ∈ running s ++ finished (history s) ++ rejected (history s) → id < next s.
Proof. intros [] H. rewrite <-ac_ids0 in H. apply list_elem_of_In, in_seq in H. lia. Qed.

(** A handshake is begun. *)
Definition begun (s : tls_listener) : tls_listener :=
  let id := next s in
  let s := start_timeout options id (set_pending (pending s ++ [id]) (TlsListener (on_accept s) (closing s) (pending s) (timers s) (running s) (S id) (history s))) in
  set_running (running s ++ [id]) s.

Lemma begun_same s :
  let id := next s in let timed := negb (handshake_timeout options <=? 0)%Z in
  running (begun s) = running s ++ [id] ∧ pending (begun s) = pending s ++ [id] ∧ next (begun s) = S id ∧ closing (begun s) = closing s ∧
  on_accept (begun s) = on_accept s ∧ timers (begun s) = timers s ++ (if timed then [id] else []) ∧
  history (begun s) = history s ++ (if timed then [le_timer_start id] else []).
Proof. unfold begun, start_timeout. destruct (_ <=? _)%Z; cbn; split_and!; by rewrite ?app_nil_r. Qed.

Lemma begun_inv s :
  listener_inv s → closing s = false → on_accept s = true → length (pending s) < max_pending_handshakes options → listener_inv (begun s).
Proof.
  intros Hi Hc Ho Hl. destruct Hi. destruct (li_live0 Hc) as (Hp & Ht & Hn). set (id := next s).
  assert (Hfresh : id ∉ running s) by (intros H; apply (Nat.lt_irrefl id); apply below_next; [done|apply elem_of_app; by left]).
  destruct (begun_same s) as (E1 & E2 & E3 & E4 & E5 & E6 & E7). cbv zeta in *. fold id in E1, E2, E3, E6, E7. set (timed := negb _) in *.
  assert (Hx : finished (history (begun s)) = finished (history s) ∧ rejected (history (begun s)) = rejected (history s) ∧
    told (history (begun s)) = told (history s) ∧ started_timers (history (begun s)) = started_timers (history s) ++ (if timed then [id] else []) ∧
    closed_timers (history (begun s)) = closed_timers (history s) ∧ never_after is_close tells (history (begun s)) ∧ none_marked is_close (history (begun s))).
  { rewrite E7. destruct li_account0. destruct timed; [|by rewrite !app_nil_r]. parts. split_and!; try done; [by apply never_after_snoc; auto|by apply none_marked_snoc]. }
  destruct Hx as (H1 & H2 & H3 & H4 & H5 & H6 & H7).
  constructor; rewrite ?E1, ?E2, ?E3, ?E4, ?E5, ?H1, ?H2, ?H3.
  - destruct li_account0. constructor; rewrite ?E1, ?E3, ?E6, ?H1, ?H2, ?H3, ?H4, ?H5; try done.
    + rewrite seq_S. cbn. fold id in ac_ids0. rewrite ac_ids0, <-!app_assoc. f_equiv. rewrite app_assoc. apply Permutation_app_comm.
    + rewrite ac_timers0, <-!app_assoc. f_equiv. apply Permutation_app_comm.
    + intros i [Hin|Hin]%elem_of_app; apply elem_of_app; [left; auto|right]. by destruct timed; [|apply elem_of_nil in Hin].
    + destruct timed; [|by rewrite app_nil_r]. apply NoDup_app. split_and!; [done| |apply NoDup_singleton]. intros i Hin ->%list_elem_of_singleton. auto.
  - intros _. by rewrite Hp.
  - congruence.
  - rewrite length_app. cbn. lia.
  - congruence.
Qed.

(** A connection comes. *)
Lemma on_lower_accept_inv failure within s : listener_inv s → listener_inv (on_lower_accept options closes failure within s).
Proof.
  intros Hi. unfold on_lower_accept. destruct (closing s) eqn:Ec; [done|]. destruct (on_accept s) eqn:Eo; [|done]. cbn [orb negb].
  destruct (li_live s Hi Ec) as (Hp & Ht & Hn). destruct failure as [code|].
  { apply emit_inv. destruct Hi as [[] Hlive Hcl Hlim Hacc]. constructor; cbn -[finished rejected told]; try done; [|intros _].
    - constructor; cbn; try (parts; done); try done. apply never_after_snoc; auto.
    - split; [done|]. split; [parts; done|by apply none_marked_snoc]. }
  cbn [pending]. set (id := next s). destruct (Nat.leb_spec (max_pending_handshakes options) (length (pending s))) as [Hl|Hl].
  - set (s1 := happen (le_stream_close id) _). destruct Hi as [[] Hlive Hcl Hlim Hacc].
    assert (Hx : finished (history s1) = finished (history s) ∧ rejected (history s1) = rejected (history s) ++ [id] ∧ told (history s1) = told (history s))
      by (cbn -[finished rejected told]; parts; done).
    destruct Hx as (H1 & H2 & H3). apply (tell_inv id (Some (tls_code pending_handshake_limit))); try done; rewrite ?H1, ?H2, ?H3.
    + constructor; rewrite ?H1, ?H2, ?H3; try done.
      * change (next s1) with (S id). rewrite seq_S. cbn [Nat.add]. fold id in ac_ids0. rewrite ac_ids0. by rewrite <-!app_assoc.
      * rewrite ac_told0, app_assoc. by apply submseteq_inserts_r.
      * cbn. parts. done.
      * apply never_after_snoc; auto.
    + by apply none_marked_snoc.
    + rewrite Ht, app_assoc. apply Permutation_cons_append.
  - pose proof (begun_inv s Hi Ec Eo Hl) as Hb. destruct (begun_same s) as (E1 & E2 & E3 & E4 & E5 & E6 & E7). cbv zeta in *.
    set (s2 := start_timeout options id _).
    assert (Hbe : begun s = set_running (running s2 ++ [id]) s2) by (unfold begun, s2; by rewrite Eo, Ec).
    destruct within as [r|]; [|by rewrite <-Hbe].
    assert (Hfresh : id ∉ running s) by (intros H; apply (Nat.lt_irrefl id); apply below_next; [apply Hi|apply elem_of_app; by left]).
    assert (Hsame : pending s2 = pending (begun s) ∧ timers s2 = timers (begun s) ∧ next s2 = next (begun s) ∧ closing s2 = closing (begun s) ∧
      on_accept s2 = on_accept (begun s) ∧ history s2 = history (begun s) ∧ running s2 = running s).
    { rewrite Hbe. unfold s2, start_timeout. by destruct (_ <=? _)%Z. }
    clearbody s2. destruct Hsame as (S1 & S2 & S3 & S4 & S5 & S6 & S7).
    unfold finish_handshake. set (s0 := happen (le_handshake id) s2). destruct (close_timer_same id s0) as (C1 & C2 & C3 & C4 & C5 & C6 & C7).
    apply (finish_inv id r (begun s) (settle id s0) ([le_handshake id] ++ if mem id (timers (begun s)) then [le_timer_close id] else []));
      [done|congruence|rewrite E1; apply elem_of_app; right; by left|..]; unfold settle; cbn -[without begun].
    + rewrite C1, E1. change (running s0) with (running s2). rewrite S7. unfold without. rewrite List.filter_app. cbn. rewrite Nat.eqb_refl, app_nil_r. cbn.
      by rewrite (without_absent id (running s) Hfresh : List.filter _ _ = _).
    + rewrite C2. cbn -[without begun]. by rewrite S2.
    + by rewrite C3.
    + rewrite C4. cbn -[without begun]. by rewrite S1.
    + by rewrite C5.
    + by rewrite C6.
    + rewrite C7. change (history s0) with (history s2 ++ [le_handshake id]). change (timers s0) with (timers s2). by rewrite S6, S2, <-app_assoc.
    + done.
Qed.

Lemma listener_op_inv op s : listener_inv s → listener_inv (run_listener_op options closes s op).
Proof.
  intros Hi. destruct op as [|failure within|id r|id|]; cbn [run_listener_op].
  - destruct Hi as [[] Hlive Hcl Hlim Hacc]. unfold listen. constructor; cbn -[finished rejected told]; try done; [|intros Hc].
    + constructor; cbn; try (parts; done); try done. apply never_after_snoc; auto.
    + destruct (Hlive Hc) as (H1 & H2 & H3). split; [done|]. split; [parts; done|by apply none_marked_snoc].
  - by apply on_lower_accept_inv.
  - by apply on_handshake_inv.
  - by apply on_timer_inv.
  - by apply listener_close_inv.
Qed.

Lemma run_listener_inv ops : listener_inv (run_listener options closes ops).
Proof.
  unfold run_listener. generalize new_inv. generalize new_listener. induction ops as [|op ops IH]; intros s Hi; [done|]. cbn [foldl]. apply IH. by apply listener_op_inv.
Qed.

(** C38: Whatever the handshakes report and whenever the listener is closed, no more
    handshakes are under way than allowed; every connection is told at most once,
    and just once when it is done and the listener was not closed; each timer is
    closed when its handshake ends; a closed listener has nothing under way and
    tells nothing. *)
Theorem tls_listener_handshakes (ops : list listener_op) :
  let s := run_listener options closes ops in let h := history s in
  length (pending s) ≤ max_pending_handshakes options ∧ NoDup (told h) ∧
  (closing s = false → List.seq 0 (next s) ≡ₚ pending s ++ told h) ∧
  (closing s = true → pending s = [] ∧ running s = [] ∧ started_timers h ≡ₚ closed_timers h) ∧
  started_timers h ≡ₚ timers s ++ closed_timers h ∧ (∀ id, id ∈ timers s → id ∈ running s) ∧ never_after is_close tells h.
Proof.
  destruct (run_listener_inv ops). cbv zeta. set (s := run_listener options closes ops) in *. destruct (li_account0). split_and!; try done.
  - assert (H : NoDup (List.seq 0 (next s))) by apply NoDup_ListNoDup, List.seq_NoDup. rewrite ac_ids0 in H. apply NoDup_app in H as (_ & _ & H).
    apply submseteq_Permutation in ac_told0 as [k E]. rewrite E in H. by apply NoDup_app in H as [H _].
  - intros Hc. destruct (li_live0 Hc) as (H1 & H2 & _). by rewrite ac_ids0, H1, H2.
  - intros Hc. destruct (li_closed0 Hc) as (H1 & H2 & H3). split_and!; try done. by rewrite ac_timers0, H3.
Qed.
End invariant.

Lemma tls_listener_handshakes_witness :
  let s := run_listener (ListenerOptions 10000 2) (λ _ e, match e with le_accepted _ => true | _ => false end)
    [lo_listen; lo_accept None None; lo_accept None (Some (Some (tls_code handshake_failed))); lo_accept None None; lo_accept None None;
     lo_timer 0; lo_accept None None; lo_handshake 2 None; lo_handshake 4 None] in
  (pending s = [] ∧ running s = [] ∧ started_timers (history s) ≡ₚ closed_timers (history s)) ∧ told (history s) = [1; 3; 0; 2].
Proof.
  split; [|reflexivity]. apply (tls_listener_handshakes (ListenerOptions 10000 2) (λ _ e, match e with le_accepted _ => true | _ => false end)
    [lo_listen; lo_accept None None; lo_accept None (Some (Some (tls_code handshake_failed))); lo_accept None None; lo_accept None None;
     lo_timer 0; lo_accept None None; lo_handshake 2 None; lo_handshake 4 None]). reflexivity.
Defined.
