(* ===== verification/TlsAlpn.v ===== *)
(** * Protocol negotiation

    The wire form of ALPN protocol lists and the choice of a server
    ([src/tls/context.cpp]); the contexts, whose calls into OpenSSL are a log and
    their outcomes an argument, and the set-up of a session ([make_ssl],
    [configure_client_ssl] of [src/tls/stream.cpp]). *)

From S2P Require Import Prelude Text TlsState TlsStream.

Open Scope nat_scope.

(** [encode_alpn]; [None] is [std::invalid_argument]. *)
Fixpoint encode_alpn (protocols : list str) : option str :=
  match protocols with
  | [] => Some []
  | protocol :: rest =>
    if (length protocol =? 0) || (255 <? length protocol) then None
    else encoded ← encode_alpn rest; Some (ascii_of_nat (length protocol) :: protocol ++ encoded)
  end.

(** ** Contexts *)

Record server_context := ServerContext {
  sc_alpn : str; sc_require_alpn : bool; sc_max_pending_write_bytes : Z; sc_max_pending_read_bytes : Z
}.
Record client_context := ClientContext {
  cc_server_name : str; cc_alpn : str; cc_verify_peer : bool; cc_max_pending_write_bytes : Z; cc_max_pending_read_bytes : Z
}.

(** What the contexts and the sessions made of them ask of OpenSSL. *)
Inductive ssl_call :=
| call_ctx_new (server : bool) | call_min_tls_1_2 | call_alpn_select_cb
| call_verify (peer : bool)
| call_certificate_chain (path : str) | call_private_key (path : str) | call_check_private_key
| call_default_verify_paths | call_verify_file (path : str) | call_verify_dir (path : str)
| call_ssl_new | call_bio_new | call_bio_free | call_ssl_free | call_set_bio
| call_alpn_protos (alpn : str) | call_host_name (name : str) | call_no_partial_wildcards | call_verify_host (name : str).

(** Success, or failure with what is in the error queue. *)
Inductive call_outcome := call_done | call_failed (errors : list str).

(** Calls are logged; [Err] is what is thrown. *)
Definition ssl_m (A : Type) : Type := list ssl_call → list ssl_call * result str A.

Definition ssl_ret {A} (x : A) : ssl_m A := λ h, (h, Ok x).
Definition ssl_throw {A} (what : str) : ssl_m A := λ h, (h, Err what).
Definition ssl_bind {A B} (p : ssl_m A) (f : A → ssl_m B) : ssl_m B :=
  λ h, match p h with (h', Ok x) => f x h' | (h', Err what) => (h', Err what) end.
Declare Scope ssl_scope.
Notation "x <- p ;; q" := (ssl_bind p (λ x, q)) (at level 100, p at next level, right associativity) : ssl_scope.
Notation "p ;;; q" := (ssl_bind p (λ _, q)) (at level 100, right associativity) : ssl_scope.
Open Scope ssl_scope.

(** A call whose result is not looked at, or cannot fail. *)
Definition perform (c : ssl_call) : ssl_m unit := λ h, (h ++ [c], Ok ()).

Definition openssl_error_detail (prefix : str) (errors : list str) : str :=
  match errors with [] => prefix | text :: _ => prefix ++ lit ": " ++ text end.

Definition set_server_alpn (protocols : list str) (c : server_context) : option server_context :=
  alpn ← encode_alpn protocols; Some (ServerContext alpn (sc_require_alpn c) (sc_max_pending_write_bytes c) (sc_max_pending_read_bytes c)).
Definition require_alpn (enabled : bool) (c : server_context) : server_context :=
  ServerContext (sc_alpn c) enabled (sc_max_pending_write_bytes c) (sc_max_pending_read_bytes c).
Definition server_max_pending_write_bytes (value : Z) (c : server_context) : server_context :=
  ServerContext (sc_alpn c) (sc_require_alpn c) value (sc_max_pending_read_bytes c).
Definition server_max_pending_read_bytes (value : Z) (c : server_context) : server_context :=
  ServerContext (sc_alpn c) (sc_require_alpn c) (sc_max_pending_write_bytes c) value.

Definition server_name (name : str) (c : client_context) : client_context :=
  ClientContext name (cc_alpn c) (cc_verify_peer c) (cc_max_pending_write_bytes c) (cc_max_pending_read_bytes c).
Definition set_client_alpn (protocols : list str) (c : client_context) : option client_context :=
  alpn ← encode_alpn protocols;
  Some (ClientContext (cc_server_name c) alpn (cc_verify_peer c) (cc_max_pending_write_bytes c) (cc_max_pending_read_bytes c)).
Definition client_max_pending_write_bytes (value : Z) (c : client_context) : client_context :=
  ClientContext (cc_server_name c) (cc_alpn c) (cc_verify_peer c) value (cc_max_pending_read_bytes c).
Definition client_max_pending_read_bytes (value : Z) (c : client_context) : client_context :=
  ClientContext (cc_server_name c) (cc_alpn c) (cc_verify_peer c) (cc_max_pending_write_bytes c) value.

Definition insecure_no_verify_peer (c : client_context) : ssl_m client_context :=
  perform (call_verify false) ;;;
  ssl_ret (ClientContext (cc_server_name c) (cc_alpn c) false (cc_max_pending_write_bytes c) (cc_max_pending_read_bytes c)).

Definition alpn_or_throw {A} (c : option A) : ssl_m A :=
  match c with Some c => ssl_ret c | None => ssl_throw (lit "TLS ALPN protocol names must be 1..255 bytes") end.

Section openssl.
Context (openssl : list ssl_call → ssl_call → call_outcome).

Definition check_call (detail : list str → str) (c : ssl_call) : ssl_m unit :=
  λ h, (h ++ [c], match openssl h c with call_done => Ok () | call_failed errors => Err (detail errors) end).

(** A call of a context that throws when it fails. *)
Definition expect (c : ssl_call) (prefix : string) : ssl_m unit := check_call (openssl_error_detail (lit prefix)) c.

Definition new_server_context : ssl_m server_context :=
  expect (call_ctx_new true) "failed to create TLS server context" ;;;
  perform call_min_tls_1_2 ;;; perform call_alpn_select_cb ;;; ssl_ret (ServerContext [] false (1024 * 1024) (1024 * 1024)).

Definition certificate_chain_file (path : str) (c : server_context) : ssl_m server_context :=
  expect (call_certificate_chain path) "failed to load TLS certificate chain" ;;; ssl_ret c.
Definition private_key_file (path : str) (c : server_context) : ssl_m server_context :=
  expect (call_private_key path) "failed to load TLS private key" ;;;
  expect call_check_private_key "TLS private key does not match certificate" ;;; ssl_ret c.

Definition new_client_context : ssl_m client_context :=
  expect (call_ctx_new false) "failed to create TLS client context" ;;;
  perform call_min_tls_1_2 ;;; perform (call_verify true) ;;; ssl_ret (ClientContext [] [] true (1024 * 1024) (1024 * 1024)).

Definition default_verify_paths (c : client_context) : ssl_m client_context :=
  expect call_default_verify_paths "failed to load default TLS verify paths" ;;; ssl_ret c.
Definition ca_file (path : str) (c : client_context) : ssl_m client_context :=
  expect (call_verify_file path) "failed to load TLS CA file" ;;; ssl_ret c.
Definition ca_path (path : str) (c : client_context) : ssl_m client_context :=
  expect (call_verify_dir path) "failed to load TLS CA path" ;;; ssl_ret c.

(** ** Sessions *)

(** A call for a session: all errors are reported. *)
Definition expect_session (c : ssl_call) (fallback : string) : ssl_m unit := check_call (drain_openssl_errors (lit fallback)) c.

(** [BIO_new], which may give nothing. *)
Definition bio_new : ssl_m (option (list str)) :=
  λ h, (h ++ [call_bio_new], Ok (match openssl h call_bio_new with call_done => None | call_failed errors => Some errors end)).

Definition free_bio (failure : option (list str)) : ssl_m unit := match failure with None => perform call_bio_free | Some _ => ssl_ret () end.

Definition make_ssl : ssl_m unit :=
  expect_session call_ssl_new "failed to create TLS session" ;;;
  rbio <- bio_new ;; wbio <- bio_new ;;
  match rbio, wbio with
  | None, None => perform call_set_bio
  | _, _ =>
    free_bio rbio ;;; free_bio wbio ;;; perform call_ssl_free ;;;
    ssl_throw (drain_openssl_errors (lit "failed to create TLS BIOs") (default [] rbio ++ default [] wbio))
  end.

Definition configure_client_ssl (c : client_context) : ssl_m unit :=
  (if str_eqb (cc_alpn c) [] then ssl_ret () else expect_session (call_alpn_protos (cc_alpn c)) "failed to configure TLS ALPN") ;;;
  if str_eqb (cc_server_name c) [] then ssl_ret ()
  else
    expect_session (call_host_name (cc_server_name c)) "failed to configure TLS SNI" ;;;
    if cc_verify_peer c then
      perform call_no_partial_wildcards ;;;
      expect_session (call_verify_host (cc_server_name c)) "failed to configure TLS hostname verification"
    else ssl_ret ().

(** [connect] up to the start of the handshake. *)
Definition client_session (c : client_context) : ssl_m unit := make_ssl ;;; configure_client_ssl c.

(** ** Settings *)

Inductive client_setting :=
| set_server_name (name : str) | set_alpn (protocols : list str) | set_default_verify_paths | set_ca_file (path : str) | set_ca_path (path : str)
| set_insecure | set_max_write (value : Z) | set_max_read (value : Z).

Definition client_set (x : client_setting) (c : client_context) : ssl_m client_context :=
  match x with
  | set_server_name name => ssl_ret (server_name name c)
  | set_alpn protocols => alpn_or_throw (set_client_alpn protocols c)
  | set_default_verify_paths => default_verify_paths c
  | set_ca_file path => ca_file path c
  | set_ca_path path => ca_path path c
  | set_insecure => insecure_no_verify_peer c
  | set_max_write value => ssl_ret (client_max_pending_write_bytes value c)
  | set_max_read value => ssl_ret (client_max_pending_read_bytes value c)
  end.

Fixpoint client_set_all (xs : list client_setting) (c : client_context) : ssl_m client_context :=
  match xs with [] => ssl_ret c | x :: xs' => c' <- client_set x c ;; client_set_all xs' c' end.

Definition configured_client (xs : list client_setting) : ssl_m client_context := c <- new_client_context ;; client_set_all xs c.

(** [start_tls] of a request of the client. *)
Definition https_settings (hostname : str) (default_paths : bool) (file dir : str) : list client_setting :=
  [set_server_name hostname; set_alpn [lit "http/1.1"]] ++ (if default_paths then [set_default_verify_paths] else []) ++
  (if str_eqb file [] then [] else [set_ca_file file]) ++ (if str_eqb dir [] then [] else [set_ca_path dir]).

Definition https_session (hostname : str) (default_paths : bool) (file dir : str) : ssl_m unit :=
  c <- configured_client (https_settings hostname default_paths file dir) ;; client_session c.
End openssl.

(** ** The choice *)

Inductive alpn_choice := alpn_selected (name : str) | alpn_noack | alpn_alert_fatal.

(** [std::equal] over the bytes of a name; [None] reads past the end. *)
Fixpoint equal_bytes (server client : str) : option bool :=
  match server, client with
  | [], _ => Some true
  | s :: server', c :: client' => if Ascii.eqb s c then equal_bytes server' client' else Some false
  | _ :: _, [] => None
  end.

(** The inner loop: whether the client offers [name]. *)
Fixpoint client_offers (fuel : nat) (name input : str) : option bool :=
  match fuel, input with
  | O, _ => None
  | _, [] => Some false
  | S fuel', c :: rest =>
    let client_len := nat_of_ascii c in
    same ← (if length name =? client_len then equal_bytes name rest else Some false);
    if (same : bool) then Some true else client_offers fuel' name (drop client_len rest)
  end.

(** The outer loop: the first name of the server that the client offers. *)
Fixpoint server_choice (fuel : nat) (alpn input : str) : option (option str) :=
  match fuel, alpn with
  | O, _ => None
  | _, [] => Some None
  | S fuel', c :: rest =>
    let name := take (nat_of_ascii c) rest in
    offered ← client_offers (S (length input)) name input;
    if (offered : bool) then Some (Some name) else server_choice fuel' (drop (nat_of_ascii c) rest) input
  end.

Definition select_alpn (context : server_context) (input : str) : option alpn_choice :=
  match sc_alpn context with
  | [] => Some alpn_noack
  | alpn =>
    choice ← server_choice (S (length alpn)) alpn input;
    Some match choice with
         | Some name => alpn_selected name
         | None => if sc_require_alpn context then alpn_alert_fatal else alpn_noack
         end
  end.

(** ** The server's preference *)

Lemma encode_alpn_cons p rest w :
  encode_alpn (p :: rest) = Some w →
  ∃ w', encode_alpn rest = Some w' ∧ w = ascii_of_nat (length p) :: p ++ w' ∧ nat_of_ascii (ascii_of_nat (length p)) = length p.
Proof.
  cbn [encode_alpn]. destruct (_ || _) eqn:E; [done|]. apply orb_false_iff in E as [_ E]. apply Nat.ltb_ge in E.
  destruct (encode_alpn rest) as [w'|]; [|done]. intros [= <-]. exists w'. split_and!; try done. apply nat_ascii_embedding. lia.
Qed.

Lemma equal_bytes_same name rest : equal_bytes name (name ++ rest) = Some true.
Proof. induction name as [|c name IH]; [done|]. cbn. by rewrite Ascii.eqb_refl. Qed.

Lemma equal_bytes_other name other rest : length name = length other → name ≠ other → equal_bytes name (other ++ rest) = Some false.
Proof.
  revert other. induction name as [|c name IH]; intros [|d other] Hl Hne; try done. cbn in *. destruct (Ascii.eqb_spec c d) as [->|]; [|done].
  apply IH; [lia|congruence].
Qed.

Lemma client_offers_spec name clients w fuel :
  encode_alpn clients = Some w → length w < fuel → client_offers fuel name w = Some (bool_decide (name ∈ clients)).
Proof.
  revert w fuel. induction clients as [|p clients IH]; intros w [|fuel] Hw Hf; try lia.
  - injection Hw as <-. cbn. rewrite bool_decide_eq_false_2; [done|]. by intros ?%elem_of_nil.
  - apply encode_alpn_cons in Hw as (w' & Hw & -> & Hn). cbn [client_offers]. rewrite Hn. cbn in Hf. rewrite length_app in Hf.
    rewrite drop_app_length. assert (IH' : client_offers fuel name w' = Some (bool_decide (name ∈ clients))) by (apply IH; [done|lia]).
    destruct (Nat.eqb_spec (length name) (length p)) as [Hl|Hl]; [|cbn; rewrite IH'; f_equal; apply bool_decide_ext; rewrite elem_of_cons; split; [by right|intros [->|]; done]].
    destruct (decide (name = p)) as [->|Hne].
    + rewrite equal_bytes_same. cbn. rewrite bool_decide_eq_true_2; [done|by left].
    + rewrite equal_bytes_other by done. cbn. rewrite IH'. f_equal. apply bool_decide_ext. rewrite elem_of_cons. split; [by right|intros [->|]; done].
Qed.

Lemma server_choice_spec servers clients w v fuel :
  encode_alpn servers = Some w → encode_alpn clients = Some v → length w < fuel →
  server_choice fuel w v = Some (List.find (λ p, bool_decide (p ∈ clients)) servers).
Proof.
  intros Hw Hv. revert w fuel Hw. induction servers as [|p servers IH]; intros w [|fuel] Hw Hf; try lia; [by injection Hw as <-|].
  apply encode_alpn_cons in Hw as (w' & Hw & -> & Hn). cbn [server_choice]. rewrite Hn, take_app_length, drop_app_length.
  rewrite (client_offers_spec p clients v) by (done || lia). cbn. destruct (bool_decide (p ∈ clients)); [done|].
  apply IH; [done|]. cbn in Hf. rewrite length_app in Hf. lia.
Qed.

(** A server chooses the first of its own protocols that the client offers,
    and reads nothing outside the lists; where there is none it refuses the
    handshake if it requires one. *)
Theorem alpn_server_preference (context : server_context) (servers clients : list str) (configured : server_context) (offer : str) :
  set_server_alpn servers context = Some configured → encode_alpn clients = Some offer →
  select_alpn configured offer = Some
    match List.find (λ p, bool_decide (p ∈ clients)) servers with
    | Some name => alpn_selected name
    | None => if sc_require_alpn context && negb (length servers =? 0) then alpn_alert_fatal else alpn_noack
    end.
Proof.
  unfold set_server_alpn. intros Hs Hc. destruct (encode_alpn servers) as [w|] eqn:Ew; [|done]. injection Hs as <-. unfold select_alpn. cbn [sc_alpn sc_require_alpn].
  destruct servers as [|p servers]; [injection Ew as <-; cbn; by rewrite andb_false_r|]. pose proof (encode_alpn_cons _ _ _ Ew) as (w' & _ & Hw & _).
  destruct w as [|c w]; [done|]. rewrite (server_choice_spec (p :: servers) clients (c :: w) offer) by (done || lia).
  cbn -[List.find]. rewrite andb_true_r. done.
Qed.

Lemma alpn_server_preference_witness :
  ∃ configured offer, set_server_alpn [lit "h2"; lit "http/1.1"] (ServerContext [] true 1 1) = Some configured ∧
    encode_alpn [lit "spdy/3"; lit "http/1.1"] = Some offer ∧ select_alpn configured offer = Some (alpn_selected (lit "http/1.1")).
Proof.
  do 2 eexists. split; [reflexivity|]. split; [reflexivity|].
  exact (alpn_server_preference (ServerContext [] true 1 1) [lit "h2"; lit "http/1.1"] [lit "spdy/3"; lit "http/1.1"] _ _ eq_refl eq_refl).
Defined.

(** ** Verification of the peer *)

(** Whether sessions of the context ask for a certificate that is trusted. *)
Definition verify_mode (h : list ssl_call) : bool :=
  default false (last (omap (λ c, match c with call_verify peer => Some peer | _ => None end) h)).

Definition is_insecure (x : client_setting) : bool := match x with set_insecure => true | _ => false end.
Definition names_peer (x : client_setting) : option str := match x with set_server_name name => Some name | _ => None end.

Lemma verify_mode_snoc h c : verify_mode (h ++ [c]) = match c with call_verify peer => peer | _ => verify_mode h end.
Proof. unfold verify_mode. rewrite omap_app. destruct c; cbn; by rewrite ?app_nil_r, ?last_snoc. Qed.

Section verification.
Context (openssl : list ssl_call → ssl_call → call_outcome).

(** A program that leaves the mode as it is. *)
Definition mode_kept {A} (p : ssl_m A) : Prop := ∀ h, verify_mode (p h).1 = verify_mode h.

Lemma mode_kept_ret {A} (x : A) : mode_kept (ssl_ret x).
Proof. done. Qed.
Lemma mode_kept_throw {A} what : mode_kept (@ssl_throw A what).
Proof. done. Qed.
Lemma mode_kept_bind {A B} (p : ssl_m A) (f : A → ssl_m B) : mode_kept p → (∀ x, mode_kept (f x)) → mode_kept (ssl_bind p f).
Proof.
  intros Hp Hf h. unfold ssl_bind. specialize (Hp h). destruct (p h) as [h' [x|]]; cbn in *; [by rewrite Hf|done].
Qed.
Lemma mode_kept_check detail c : (∀ peer, c ≠ call_verify peer) → mode_kept (check_call openssl detail c).
Proof. intros Hc h. cbn. rewrite verify_mode_snoc. destruct c; try done. by destruct (Hc peer). Qed.
Lemma mode_kept_perform c : (∀ peer, c ≠ call_verify peer) → mode_kept (perform c).
Proof. intros Hc h. cbn. rewrite verify_mode_snoc. destruct c; try done. by destruct (Hc peer). Qed.

Lemma mode_kept_expect c prefix : (∀ peer, c ≠ call_verify peer) → mode_kept (expect openssl c prefix).
Proof. apply mode_kept_check. Qed.
Lemma mode_kept_session c fallback : (∀ peer, c ≠ call_verify peer) → mode_kept (expect_session openssl c fallback).
Proof. apply mode_kept_check. Qed.
Lemma mode_kept_bio_new : mode_kept (bio_new openssl).
Proof. intros h. cbn. by rewrite verify_mode_snoc. Qed.
Hint Resolve mode_kept_ret mode_kept_throw mode_kept_bind mode_kept_perform mode_kept_expect mode_kept_session mode_kept_bio_new : core.

Lemma client_session_mode c : mode_kept (client_session openssl c).
Proof.
  unfold client_session, make_ssl, configure_client_ssl, free_bio.
  repeat (apply mode_kept_bind; [|intros ?] || case_match); auto with congruence; try (by apply mode_kept_session); by apply mode_kept_perform.
Qed.

(** What one setting does to the mode, the flag and the name. *)
Lemma client_set_spec x c h :
  verify_mode (client_set openssl x c h).1 = (if is_insecure x then false else verify_mode h) ∧
  ∀ c', (client_set openssl x c h).2 = Ok c' →
    cc_verify_peer c' = (if is_insecure x then false else cc_verify_peer c) ∧ cc_server_name c' = default (cc_server_name c) (names_peer x).
Proof.
  destruct x; cbn; unfold ssl_bind, alpn_or_throw, set_client_alpn; cbn; repeat case_match; simplify_eq/=; rewrite ?verify_mode_snoc.
  all: split; [done|]; intros c1 Hc1; by simplify_option_eq.
Qed.

Definition last_name (xs : list client_setting) : str := default [] (last (omap names_peer xs)).

Lemma client_set_all_spec xs c h h' c' :
  client_set_all openssl xs c h = (h', Ok c') →
  (verify_mode h = cc_verify_peer c → verify_mode h' = cc_verify_peer c') ∧
  cc_verify_peer c' = cc_verify_peer c && negb (existsb is_insecure xs) ∧
  cc_server_name c' = default (cc_server_name c) (last (omap names_peer xs)).
Proof.
  revert c h. induction xs as [|x xs IH]; intros c h; cbn [client_set_all].
  { intros [= <- <-]. cbn. by rewrite andb_true_r. }
  unfold ssl_bind. destruct (client_set_spec x c h) as [H1 H2]. destruct (client_set openssl x c h) as [h1 [c1|]]; [|done].
  destruct (H2 c1 eq_refl) as [H3 H4]. intros (I1 & I2 & I3)%IH. cbn in H1. split_and!.
  - intros Hh. apply I1. rewrite H1, H3, Hh. done.
  - rewrite I2, H3. cbn. by destruct (is_insecure x); cbn; rewrite ?andb_false_r.
  - rewrite I3, H4. cbn. destruct (names_peer x); [|done]. rewrite last_cons. by destruct (last _).
Qed.

(** What a session that is set up has asked for. *)
Lemma configured_log c h h' :
  configure_client_ssl openssl c h = (h', Ok ()) → cc_verify_peer c = true → cc_server_name c ≠ [] →
  ∃ before, h' = before ++ [call_host_name (cc_server_name c); call_no_partial_wildcards; call_verify_host (cc_server_name c)].
Proof.
  unfold configure_client_ssl, ssl_bind, str_eqb. intros H Hp Hn. rewrite Hp, (bool_decide_eq_false_2 (cc_server_name c = [])) in H by done.
  match type of H with (let (_, _) := ?first in _) = _ => destruct first as [h1 [[]|]]; [|done] end.
  exists h1. cbn in H. destruct (openssl h1 _); [|done]. cbn in H. injection H as <- _. by rewrite <-!app_assoc.
Qed.
End verification.

(** A client that is told nothing else checks its peer: unless it is made
    insecure, every session of its context asks OpenSSL for a trusted certificate,
    and when the peer has a name, the last thing it asks for before the handshake
    is that the certificate is for this name. *)
Theorem client_checks_peer openssl (xs : list client_setting) (h h1 h2 : list ssl_call) (c : client_context) :
  configured_client openssl xs h = (h1, Ok c) → client_session openssl c h1 = (h2, Ok ()) → existsb is_insecure xs = false →
  verify_mode h2 = true ∧
  (last_name xs ≠ [] → ∃ before, h2 = before ++ [call_host_name (last_name xs); call_no_partial_wildcards; call_verify_host (last_name xs)]).
Proof.
  unfold configured_client, new_client_context, ssl_bind. intros Hc Hs Hi. cbn in Hc. destruct (openssl h (call_ctx_new false)); [|done].
  apply client_set_all_spec in Hc as (H1 & H2 & H3). cbn in H2, H3. rewrite Hi in H2. rewrite verify_mode_snoc in H1. specialize (H1 eq_refl).
  pose proof (client_session_mode openssl c h1) as Hm. rewrite Hs in Hm. cbn in Hm. split; [by rewrite Hm, H1|]. fold (last_name xs) in H3. rewrite <-H3.
  intros Hn. unfold client_session, ssl_bind in Hs. destruct (make_ssl openssl h1) as [h3 [[]|]]; [|done]. by eapply configured_log.
Qed.

(** A request of the client asks for its host. *)
Corollary https_checks_host openssl (hostname : str) (default_paths : bool) (file dir : str) (h h' : list ssl_call) :
  hostname ≠ [] → https_session openssl hostname default_paths file dir h = (h', Ok ()) →
  verify_mode h' = true ∧ ∃ before, h' = before ++ [call_host_name hostname; call_no_partial_wildcards; call_verify_host hostname].
Proof.
  intros Hn H. unfold https_session, ssl_bind in H. destruct (configured_client _ _ h) as [h1 [c|]] eqn:E; [|done].
  assert (Hname : last_name (https_settings hostname default_paths file dir) = hostname) by (unfold https_settings; by repeat case_match).
  destruct (client_checks_peer openssl (https_settings hostname default_paths file dir) h h1 h' c E H) as [H1 H2]; [by unfold https_settings; repeat case_match|].
  rewrite Hname in H2. auto.
Qed.

Lemma https_checks_host_witness :
  let h := (https_session (λ _ _, call_done) (lit "a") true [] [] []).1 in
  h = [call_ctx_new false; call_min_tls_1_2; call_verify true; call_default_verify_paths; call_ssl_new; call_bio_new; call_bio_new; call_set_bio;
    call_alpn_protos (ascii_of_nat 8 :: lit "http/1.1"); call_host_name (lit "a"); call_no_partial_wildcards; call_verify_host (lit "a")] ∧ verify_mode h = true.
Proof.
  intros h. split; [reflexivity|]. exact (proj1 (https_checks_host (λ _ _, call_done) (lit "a") true [] [] [] h ltac:(discriminate) eq_refl)).
Defined.

(** A session whose configuration fails is never freed. *)
Example failed_configuration_leaks :
  let '(h, r) := https_session (λ _ c, match c with call_host_name _ => call_failed [lit "no memory"] | _ => call_done end) (lit "a") false [] [] [] in
  r = Err (lit "failed to configure TLS SNI: no memory") ∧
  List.filter (λ c, match c with call_ssl_new | call_ssl_free => true | _ => false end) h = [call_ssl_new].
Proof. vm_compute. split; reflexivity. Qed.
